(* ===== verification/_CoqProject ===== *)
-Q . S2P
Prelude.v
RustStr.v
Json.v
Prog.v
F64.v
Parser.v
ParserFacts.v
Ir.v
Rules.v
Matcher.v
Capability.v
DecisionLog.v
Engine.v
EngineFacts.v
Lint.v
ProxyPolicy.v
Server.v
Http.v
Gate.v
GateFacts.v
Exec.v
Net.v
Dial.v
Peek.v
Secrets.v
Inject.v
Relay.v
Connect.v
Chunk.v
Query.v
ToolGuard.v
GatewayPath.v
RateLimit.v
Harness.v
DangerousRm.v
StuckTurn.v
Kube.v
Envelope.v
Validate.v
ValidateFacts.v
Spawn.v
Admission.v
SpawnFacts.v
Cluster.v
ClusterFacts.v
Seccomp.v
SeccompFacts.v
Supervisor.v
SupervisorFacts.v
HookPolicy.v
Launch.v
LaunchFacts.v
ChildPolicy.v
ChildFacts.v
PeerText.v
Transcript.v
TranscriptFacts.v
LineFilter.v
Paging.v
TranscriptSync.v
TranscriptWalk.v
TranscriptView.v
TranscriptCursor.v
Outbox.v
OutboxFacts.v
OutboxAnswers.v
OutboxOrder.v
OutboxTime.v
