(* ===== verification/Prelude.v ===== *)
(** * cctui: workflow guard, egress proxy, gateway guard, worker pods, sessions

    This library models the part of cctui that confines a coding agent, from
    the pod and the process it runs in to the commands and the sessions it may
    start, with the transcript a person watches it by, the messages sent to it
    and two shared components, and proves what they promise.  All sources are Rust,
    under [src/crates].

    ** The program

    A worker runs an agent on a markdown prompt.  [cctui-guard] parses the
    prompt into numbered steps with rules, compiles the capabilities the steps
    grant, and serves a state machine over HTTP: the agent's harness asks it
    about every tool call ([/check]) and the agent asks it to move between
    steps ([/transition]); a seccomp supervisor hands it every exec.  On each
    transition it writes an egress policy that [cctui-guard-proxy], a separate
    process, polls and enforces on outgoing connections: it vets the name and
    every address before it dials, puts credentials into requests that carry a
    placeholder, and reviews GitHub traffic under a human gate.  A linter checks
    a prompt before it runs and a decision log records every verdict for the
    end-of-run report.  On the server, the gateway that relays model responses
    to the harness holds every message with a tool call back until it is
    scanned against the account's policy.  On a machine, the daemon refuses
    shell commands that start a harness or remove too much, and re-prompts or
    ends a session that waits for a lost notice.  The server decides what a
    session may spawn: it reserves a child under its parent's capability and
    launches it with its parent's hook rules.  In a cluster, a dispatcher
    renders a worker as a Job from an operator's profile; the orchestrator's two
    webhooks put the pod into a sandbox with the guard proxy beside it, and
    admit only pods that match their profile.  In the pod a supervisor confines
    itself (file system rules, user, capabilities, two system call filters) and
    becomes the payload.  Daemon and server exchange large
    frames as chunks, and clients filter sessions with a query language.  The
    terminal UI shows a session as a transcript: it keeps a window of the lines
    the server stores, fills it from pages and live events in whatever order
    they come, and pages back as the reader scrolls up; it tracks each message
    sent to a session until the server has settled it.

    ** Files, in order

    - [Prelude.v]: results and loops with early exit, ordered map iteration,
      the [guard] hint database, the tactics [bool_hyps] and [split_match].
    - [RustStr.v], [Json.v]: the std string operations on UTF-8 byte strings,
      integer parsing and printing at their width, and [serde_json::Value].
    - [Prog.v], [F64.v]: programs over calls with arbitrary answers and their
      weakest preconditions; Rust's [f64] on the standard library's binary64.
    - [Parser.v], [ParserFacts.v]: [cctui-guard/src/parser.rs].  [ParseState]
      is the line-fed parser state and [feed] its step; [parse_steps] is the
      whole parse, [expand_set] the recursive set expansion, and a slice off a
      character boundary is the error [Panic].
    - [Ir.v]: [ir.rs] and [resolve.rs], the workflow a prompt compiles to and
      the layering of tool sets.
    - [Rules.v]: [rules.rs], from splitting a shell command into segments to
      [check_rules].
    - [Matcher.v]: [capability/matcher.rs], exec rules against an argv.
    - [Capability.v]: [capability/mod.rs], registries, dependency resolution
      and compilation into [Grants].
    - [DecisionLog.v]: [decision_log.rs], records, timestamps, the report.
    - [Engine.v], [EngineFacts.v]: [engine.rs].  [Engine] is the configuration,
      [World] the in-memory state with the files and the log, [Io] the outcome
      of every write and subprocess of one call; [check], [check_exec] and
      [transition] are the operations.  [run_op] and [reachable] in
      [EngineFacts.v] make them a step relation.
    - [Lint.v]: [lint.rs], with the reachability search and the exit fixpoint.
    - [ProxyPolicy.v]: [cctui-guard-proxy/src/policy.rs], and the composition
      of the engine's policy file with the proxy that reads it.
    - [Server.v]: [dialect.rs], [server.rs], [exec/why.rs].
    - [Http.v], [Gate.v], [GateFacts.v]: [gate.rs] of the proxy with what it
      uses of [inject.rs]: request heads, body framing, the REST, GraphQL and
      git review, and the loop that reviews a body as it arrives.
    - [Exec.v]: [exec/argv.rs], [exec/decide.rs], [exec/notify.rs].
    - [Net.v], [Dial.v]: [denylist.rs] and [private_allow.rs] of the proxy, with
      std's address parsing: which addresses and names are denied, the file of
      allowed private destinations, and [resolve], the decision before a dial.
    - [Peek.v]: [peek.rs], the server name of a ClientHello and the Host header.
    - [Secrets.v]: [cctui-secrets/src/lib.rs] and the proxy's [secrets.rs],
      secret references and the cache ([fetch], [settle], [refresh_all]).
    - [Inject.v]: the rules, head rewriting and injection of [inject.rs], with
      [server_inject.rs] and [dispatch.rs].
    - [Relay.v]: the byte relay of [inject.rs]: a source is any cut of a byte
      string into reads.
    - [Connect.v]: [forward.rs] and [transparent.rs]; [ConnIo] is what one
      connection meets, and the result is the list of its events.
    - [Chunk.v]: [cctui-proto/src/chunk.rs].
    - [Query.v]: the crate [cctui-query].
    - [ToolGuard.v]: [cctui-server-core/src/gateway/toolguard.rs].  [SseGuard]
      is the state of a guarded stream, [push] and [finish] its operations.
    - [Harness.v], [DangerousRm.v]: [hook_policy/no_direct_harness.rs] and
      [dangerous_rm.rs] of [cctui-daemon], two readers of shell commands.
    - [StuckTurn.v]: [adapters/claude_code/stuck_turn.rs] of the daemon.
      [BgTaskLedger] holds the background tasks, [StuckTurnWatchdog] the quiet
      clocks; [poll] and [watched] make its observations a step relation.
    - [Kube.v]: [cctui-orchestrator/src/lib.rs], the worker profile, and the
      fields of cluster objects that the sources name.
    - [Envelope.v]: [envelope.rs], the injection of the sandbox into a pod.
    - [Validate.v], [ValidateFacts.v]: [validate.rs], each check as a function,
      and each check against a declarative condition.
    - [Spawn.v], [SpawnFacts.v]: the pure part of the dispatcher's [spawn.rs]
      with its modules, [cctui-dispatcher-core/src/dispatcher.rs] and
      [cctui-proto/src/worker_env.rs]: rendering, handles, queues, drift.
    - [Admission.v]: [main.rs] of the orchestrator, and the composition of the
      dispatcher's rendering with the two webhooks.
    - [Cluster.v], [ClusterFacts.v]: the part of [spawn.rs] that calls the
      cluster, as programs of [Prog.v] over API calls: a theorem about one holds
      for all answers.
    - [Seccomp.v], [SeccompFacts.v]: [syscalls.rs], [seccomp.rs] and the exec
      filter of [exec_notify.rs] of [cctui-supervisor]: the denylist as it is
      handed to the seccompiler crate, and the classic BPF program.
    - [Supervisor.v], [SupervisorFacts.v]: the rest of that crate.  [run] is the
      whole run, a program of [Prog.v] over kernel, file and socket calls.
    - [HookPolicy.v]: [hook_policy.rs] of [cctui-proto], the rules of a launch.
    - [Launch.v], [LaunchFacts.v]: [hook_policy.rs], [machine_launches.rs] and
      [launch_durable] of [cctui-server-core].  [LaunchDb] holds the tables and
      [hook_step] is what happens to them; [line] is a line of sessions.
    - [ChildPolicy.v], [ChildFacts.v]: [child_policy.rs], [child_exec.rs] and
      the store and caches of capabilities of [cctui-server-core], with the
      delivery of [cctui-core-server/src/children.rs].  [ChildDb] holds the
      tables and [ChildState] the caches; [slot_step] makes what happens to the
      children of a session a step relation, [lineage] a line of them.
    - [PeerText.v]: [envelope_guard.rs], [peer_session.rs] and the delivery of
      a child's completion, the text one session puts before another.
    - [GatewayPath.v]: the paths of [gateway/config.rs] and the target URL of
      [resolve_upstream].
    - [RateLimit.v]: [gateway/ratelimit.rs], the buckets of the gateway.

    - [Transcript.v], [TranscriptFacts.v]: [app/conversation_store.rs] of
      [cctui-tui] with the lines of [app/state.rs].  [ConversationStore] is the
      store; [store_step] makes its operations a step relation.
    - [LineFilter.v]: [app/transcript_filter.rs], the lines on screen.
    - [Paging.v]: the pages of a transcript, from the server's query loop
      ([renderable_rows] of [routes/sessions.rs]) to the rows the UI keeps;
      [page_contract] is what a client may rely on.
    - [TranscriptSync.v], [TranscriptWalk.v]: the store against the transcript
      on the server: [sync_step] is what may reach a store, [scroll] the walk
      back to the start.
    - [TranscriptView.v], [TranscriptCursor.v]: [app/conversation.rs] with the
      jump of [app/pins.rs], [app/router.rs] and [app/toast.rs]: the reducer of
      the open conversation and its line cursor.
    - [Outbox.v], [OutboxFacts.v], [OutboxAnswers.v], [OutboxOrder.v],
      [OutboxTime.v]: [app/send.rs] of [cctui-tui] with what a quit puts back
      ([drafts.rs]).  [Outbox] is the state, its operations a step relation.

    ** What the theorems show

    - Engine: every run follows the declared transitions from the first step,
      within the visit bounds; a transition is accepted exactly when bound,
      gates, judge and writes pass; Exit is final and always requestable; the
      policy file is the one of the step in force; a tool call or exec is
      allowed exactly as the step's rules and grants say, a disallowed phrase
      beats a grant, and the self-exemption for the guard's own endpoint only
      covers a curl to it.
    - Rules and capabilities: a compound command is allowed exactly when each
      part is; a disallowed phrase anywhere refuses; resolution returns exactly
      the capabilities reachable from the grants, each once, and compiled
      grants allow exactly what those capabilities list.
    - Parser and linter: parsed workflows are well formed, fenced text is
      inert, expansion terminates and is exact on keywords; lint reachability
      is exact, and a prompt that lints clean never leaves its declared steps.
    - Proxy: without a valid policy nothing passes, and what passes is what the
      step in force grants; under a human gate a relayed push moves only
      writable branches, a relayed REST write moves no ref the gate holds, an
      ordinary GraphQL mutation is judged field by field, and a verdict on a
      prefix of a body is the verdict on the body.
    - Surfaces: a harness reads an allow only from an engine allow; an exec is
      answered allow exactly when the engine allows what was read from the
      target, and every refusal is recorded.
    - Connections: every dial goes to an address that was vetted under a name
      the policy allows, or to the configured cctui server, the address test is
      exactly membership in the denied blocks, and a request that cannot get its credential leaves unchanged,
      never with half of it; a rewritten head has one authorization.
    - Relay: the bytes of a push that reach the server move only writable
      branches, whatever the cut into reads, and relaying ends.
    - Secrets: what the cache gives is the last answer of the engine.
    - Gateway: the guard's output depends on the bytes alone and not on their
      chunks; a stream in which nothing is blocked comes out byte for byte; an
      Anthropic message whose call, put together from its fragments, breaks the
      policy comes out as the explanation; a scan misses no text down to the
      decoding depth; a complete body is rewritten exactly when a call is not
      cleared, and then carries no call; an accepted policy is enforced as
      written.
    - Protocol: a split frame is reassembled from its chunks in any order and
      with repetitions, within the memory bounds; parsed queries are in normal
      form and a quoted value is taken verbatim.
    - Shell guards: a script of quoted words is refused exactly when a command
      in it starts a harness without the allowed form; a removal passes exactly
      when every target of every removal is harmless.
    - Watchdog: it re-prompts and ends only after the quiet stretch it promises,
      and a session whose notice is lost does end; a scan feeds every complete
      line of a growing transcript once.
    - Worker pods: a pod is admitted exactly when it names no profile or meets
      the stated conditions; every profiled pod is sandboxed, refused or already
      sandboxed; a Job rendered from a sound profile becomes a pod that both
      webhooks accept; an agent exposed on all sides runs behind a gate that the
      proxy enforces.
    - Dispatcher: a dispatch creates one Job or none as it says, registers
      before it creates and deletes only a Job it read as ended, whatever the
      cluster answers in between; a profile runs no more Jobs than its cap and the
      decisions that are pending at once, in the order the queue positions say; a rebuilt Job conforms to its
      profile; a reconciliation touches no Job that ran.
    - Transcript: the lines stay in order and none is shown twice, whatever
      arrives; a page merges to the same transcript in any order; a server page
      has exactly the rows it should, however many of them do not render; no
      line between the oldest one shown and the newest page is missing, and
      scrolling back ends with all of them; a page put in front leaves the
      cursor on its line, and the cursor only lands on lines that are shown.
    - Supervisor: the payload is only entered confined: with the file system
      rules in force or their absence allowed by the operator, as the worker's
      user without capabilities, under the denylist, and with the exec filter
      handed over when execs are guarded; the denylist refuses exactly the calls
      listed with the arguments listed, the exec filter traces exactly the execs
      of the native interface and kills every other architecture.
    - Sessions: a spawned session is within the capability and the posture of the
      one that asked, ceilings only shrink from one generation to the next and
      one tree is charged, and the children of a session exceed its cap only by
      those that came without a spawn and by registrations under way; the rules of
      every session above are the first rules of each one below; a spawn that
      fails leaves no reservation when its release goes through; a completion reaches the parent as one wrapped turn that its
      text cannot close.
    - Gateway limits: a forwarded path stays under the harness's API paths, with
      no dot segment raw or encoded; no minute holds more requests than the
      limit, and a hint to retry, once waited for, admits.
    - Outbox: a message leaves it only when the server took one of its frames,
      its session went away, or the user dropped or took back a message; acks
      and delivery results may come in any order; a message nobody answers fails
      in bounded time.
    - A few theorems and examples record how the code departs from its intent: an allow-list
      of only built-in tool names opens Bash, an escaped redirection hides a
      command, a failed state write leaves the target's egress policy in force,
      a mutation named by a keyword is not judged, a Host scan panics on a
      character across its cut, an authorization line after a bare line feed
      survives, a call in the older chat field is not scanned, a transcript line
      longer than the scan window blocks the ledger, a rebuilt Job keeps the
      literals of the old profile, a Job that vanished is created again, a
      trim while an older page is awaited leaves a hole in the transcript, a
      denied call passes by its x32 number, a send revives after its session
      ended, a forked thread forgets its rules, a child that registers frees its
      slot for a moment, an ended child that is resumed has no ceilings, and an
      encoded model name is metered as it is spelled, a task name that reads like
      a secret reference is refused by the webhook, overlapping dispatches exceed
      a cap, a step numbered zero is unguarded, a wrapper's unknown option hides a
      harness, and a tag that clients read as a wrapper is not neutralized.

    ** Parameters

    Code outside the repository is a class or an argument: the shlex splitter
    and joiner, JSON and TOML text, serde's decoding of the policy file,
    Unicode's alphanumeric tables and lower-casing, regular expressions, Base64,
    the content hashes, RFC 3339 dates, name resolution, the answers of secret
    engines, the database's policy row, the file system, subprocesses, the
    memory of another process, JSON patches of pods, the source of profiles,
    the answers of the Kubernetes API, the seccompiler and landlock crates, the
    answers of the kernel, the answers of the message bus, the rows of the
    account tables and the order in which a table is scanned.  Laws about them are hypotheses or class
    fields ([codec_ok], [MemoryLaws], [unicode_non_ascii], [PodJsonLaws], and
    [created_from] for the pods of a Job), each met by a concrete
    instance used in a witness; so are [SeccompilerLaws], [LandlockLaws] and
    [TableScan].  The iteration order of a hash map is an
    argument, quantified over permutations.  What a stored event renders to and
    which line it becomes are arguments of the paging, and the rows of the
    session list one of the conversation view.

    ** Fuel

    Recursion that is not structural carries fuel, with a lemma or theorem that
    the amount used is enough: set expansion ([expand_set_terminates]), token
    normalisation ([normalize_tokens_fuel]), dependency visits (the exactness
    theorems of [Capability.v]), the linter's searches
    ([report_reachability_exact]), the GraphQL lexer ([lex_fuel]), chunk and
    packet scans (the [_extend] lemmas, which hold for any sufficient fuel),
    memory reads ([read_cstring_exact]), the relay ([relay_body_ends]), the head
    of a connection ([read_request_bounded]), the query lexer and parser
    ([classify_enough], [tokenize_enough], [parse_normal_form]), the events
    of a stream ([drain_enough]) and the lexers of shell commands ([lex_enough],
    [rm_lex_enough]), and the rounds of a page query
    ([renderable_rows_exact]).  The wait for a deleted Job polls sixty times, as written.

    ** Integers

    Step numbers and visit counts are [N] with their [u32] bound written out
    (visit counts wrap), timestamps are [Z] with [i64] wrap-around, addresses
    and chunk sizes are [N] modulo or bounded by [2^64]; the reassembler's byte
    counts add and subtract on [usize] as the code does, and call positions are
    [i64], saturating or wrapping as written.  A transcript's [seq] is a [Z] and
    its counters are [N] modulo [2^64].

    ** Not modelled

    In the proxy: sockets, TLS and certificates, SigV4 signing, the redemption
    of dispatch tokens, the keep-alive pump and its redial, the clients of the
    secret engines, start-up.  In the guard: start-up and command lines, and the
    seccomp system calls.  In the supervisor: option parsing, the dry-run
    listing, the bytes of the system calls.  Of the server the tool-call guard is
    modelled, without its session lookup and its report of a block, the paths and
    the request rate of the gateway, without its accounts, spend and failover, the
    pages of a transcript, and how sessions are launched and spawned, without the
    accounts and tokens of a child and the archiving of children; the rest is HTTP
    handlers over SQL.  Of the daemon the two shell guards and the
    watchdog are modelled, of the TUI the transcript and the outbox; the rest of
    them and the clients drive processes, terminals and sockets.  Of the dispatchers the Kubernetes one is
    modelled without its start-up, its connection to the server and the reading
    of logs.  Text on standard
    error and tracing output are left out throughout. *)

From stdpp Require Import base decidable list gmap strings sorting pretty.
From Stdlib Require Import Lia ZArith Bool.

Set Default Goal Selector "!".

(** ** Results *)

(** Rust's [Result<A, E>], error type first so that [result E] is a monad. *)
Inductive result (E A : Type) : Type :=
| Ok (a : A)
| Err (e : E).
Arguments Ok {_ _} _.
Arguments Err {_ _} _.

#[export] Instance result_ret E : MRet (result E) := λ A a, Ok a.
#[export] Instance result_bind E : MBind (result E) :=
  λ A B f r, match r with Ok a => f a | Err e => Err e end.
#[export] Instance result_fmap E : FMap (result E) :=
  λ A B f r, match r with Ok a => Ok (f a) | Err e => Err e end.

(** [Option::ok_or]. *)
Definition ok_or {E A} (o : option A) (e : E) : result E A :=
  match o with Some a => Ok a | None => Err e end.

(** [Result::map_err]. *)
Definition map_err {E F A} (f : E → F) (r : result E A) : result F A :=
  match r with Ok a => Ok a | Err e => Err (f e) end.

(** [Option::or]. *)
Definition or_else {A} (a b : option A) : option A := match a with Some _ => a | None => b end.

(** [iter.find_map(f)]. *)
Fixpoint find_map {A B} (f : A → option B) (l : list A) : option B :=
  match l with
  | [] => None
  | x :: l => match f x with Some y => Some y | None => find_map f l end
  end.

(** [Iterator::position]. *)
Fixpoint position {A} (f : A → bool) (l : list A) : option nat :=
  match l with [] => None | x :: l => if f x then Some 0%nat else S <$> position f l end.

Lemma iter_position_None {A} (f : A → bool) l : position f l = None ↔ ∀ x, x ∈ l → f x = false.
Proof.
  induction l as [|y l IH]; cbn [position]; [split; [by intros _ x ?%elem_of_nil|done]|].
  destruct (f y) eqn:Ey; [split; [done|]; intros H; specialize (H y); by rewrite H in Ey; [|left]|].
  rewrite fmap_None, IH. split; [|by intros H x Hx; apply H; right].
  by intros H x [->|?]%elem_of_cons; [|apply H].
Qed.

Lemma position_holds {A} (f : A → bool) l i x :
  position f l = Some i → l !! i = Some x → f x = true.
Proof.
  revert i. induction l as [|y l IH]; intros i; [done|]. cbn. destruct (f y) eqn:E.
  - intros [= <-] [= <-]. done.
  - destruct (position f l) as [j|]; [|done]. intros [= <-]. by apply IH.
Qed.

Lemma find_map_Some {A B} (f : A → option B) l y :
  find_map f l = Some y → ∃ x, x ∈ l ∧ f x = Some y.
Proof.
  induction l as [|x l IH]; [done|]. cbn. destruct (f x) as [z|] eqn:E.
  - intros [= ->]. exists x. split; [left|done].
  - intros (x' & Hx & Hf)%IH. exists x'. split; [by right|done].
Qed.

Lemma find_map_None {A B} (f : A → option B) l : find_map f l = None ↔ ∀ x, x ∈ l → f x = None.
Proof.
  induction l as [|x l IH]; cbn [find_map]; [split; [by intros _ x ?%elem_of_nil|done]|].
  destruct (f x) eqn:E.
  - split; [done|]. intros Hall. rewrite Hall in E by constructor. done.
  - rewrite IH. split.
    + intros Hl y [-> | Hy]%elem_of_cons; auto.
    + intros Hall y Hy. apply Hall. by constructor.
Qed.

(** [Result::ok]. *)
Definition res_ok {E A} (r : result E A) : option A :=
  match r with Ok a => Some a | Err _ => None end.

Definition is_ok {E A} (r : result E A) : bool :=
  match r with Ok _ => true | Err _ => false end.

(** A left-to-right loop with early exit on [Err] ([for x in l { f(x)?; }]). *)
Fixpoint try_fold {E A B} (f : A → B → result E A) (a : A) (l : list B) : result E A :=
  match l with
  | [] => Ok a
  | x :: l => a' ← f a x; try_fold f a' l
  end.

Lemma bind_ok {E A B} (r : result E A) (f : A → result E B) b :
  (r ≫= f) = Ok b ↔ ∃ a, r = Ok a ∧ f a = Ok b.
Proof.
  destruct r as [a|e]; cbn; split.
  - intros H. by exists a.
  - by intros (? & [= <-] & ?).
  - done.
  - by intros (? & ? & _).
Qed.

Lemma bind_err {E A B} (r : result E A) (f : A → result E B) e :
  (r ≫= f) = Err e ↔ r = Err e ∨ ∃ a, r = Ok a ∧ f a = Err e.
Proof.
  destruct r as [a|e']; cbn; split.
  - intros H. right. by exists a.
  - by intros [?|(? & [= <-] & ?)].
  - by intros [= ->]; left.
  - by intros [[= ->]|(? & ? & _)].
Qed.

Lemma try_fold_ok_inv {E A B} (P : A → Prop) (f : A → B → result E A) l a b :
  P a →
  (∀ a x a', x ∈ l → P a → f a x = Ok a' → P a') →
  try_fold f a l = Ok b → P b.
Proof.
  revert a. induction l as [|x l IH]; intros a Ha Hstep; cbn.
  - intros [= <-]; done.
  - intros (a' & Hf & Hl)%bind_ok. apply (IH a').
    + by apply (Hstep a x a'); [apply list_elem_of_here|..].
    + intros a0 y a1 Hy. apply Hstep. by apply list_elem_of_further.
    + done.
Qed.

Lemma try_fold_err {E A B} (P : E → Prop) (f : A → B → result E A) l a e :
  (∀ a x e, x ∈ l → f a x = Err e → P e) → try_fold f a l = Err e → P e.
Proof.
  revert a. induction l as [|x l IH]; intros a Hf; cbn; [done|].
  intros [H1|(a' & _ & H2)]%bind_err.
  - apply (Hf a x e); [apply list_elem_of_here|done].
  - apply (IH a'); [|done]. intros ? y ??. apply Hf. by apply list_elem_of_further.
Qed.

(** ** Chains *)

(** Consecutive elements are related. *)
Definition chain {A} (R : A → A → Prop) (l : list A) : Prop :=
  ∀ pre a b post, l = pre ++ a :: b :: post → R a b.

Lemma chain_app_r {A} (R : A → A → Prop) l1 l2 : chain R (l1 ++ l2) → chain R l2.
Proof. intros Hc pre a b post ->. apply (Hc (l1 ++ pre) a b post). by rewrite app_assoc. Qed.

Lemma chain_app_l {A} (R : A → A → Prop) l1 l2 : chain R (l1 ++ l2) → chain R l1.
Proof. intros Hc pre a b post ->. apply (Hc pre a b (post ++ l2)). by rewrite <-app_assoc. Qed.

Lemma chain_singleton {A} (R : A → A → Prop) x : chain R [x].
Proof. intros pre a b post Heq. by destruct pre as [|? [|? ?]]. Qed.

Lemma chain_snoc {A} (R : A → A → Prop) l x y :
  chain R (l ++ [x]) → R x y → chain R ((l ++ [x]) ++ [y]).
Proof.
  intros Hc HR pre a b post Heq. destruct post as [|c post] using rev_ind.
  - replace (pre ++ [a; b]) with ((pre ++ [a]) ++ [b]) in Heq by (by rewrite <-app_assoc).
    apply app_inj_tail in Heq as [Heq ->]. by apply app_inj_tail in Heq as [_ ->].
  - clear IHpost. apply (Hc pre a b post).
    replace (pre ++ a :: b :: post ++ [c]) with ((pre ++ a :: b :: post) ++ [c]) in Heq
      by (by rewrite <-app_assoc).
    by apply app_inj_tail in Heq as [-> _].
Qed.

(** ** Ordered maps *)

(** Iteration of a [BTreeMap<u32, V>]: ascending key order. *)
Definition key_le {V} (x y : N * V) : Prop := (x.1 ≤ y.1)%N.

#[export] Instance key_le_dec {V} : RelDecision (@key_le V).
Proof. intros x y. unfold key_le. apply _. Defined.

Definition btree_iter {V} (m : gmap N V) : list (N * V) :=
  merge_sort key_le (map_to_list m).

(** Iteration of a [BTreeMap<String, V>]: ascending byte order of the keys. *)
Definition str_le {V} (x y : string * V) : Prop := String.leb x.1 y.1 = true.

#[export] Instance str_le_dec {V} : RelDecision (@str_le V).
Proof. intros x y. unfold str_le. apply _. Defined.

Definition btree_str_iter {V} (m : gmap string V) : list (string * V) :=
  merge_sort str_le (map_to_list m).

(** [BTreeMap::keys().next()]: the least key. *)
Definition btree_first {V} (m : gmap N V) : option N := fst <$> head (btree_iter m).

Section btree.
Context {V : Type}.
Implicit Types (m : gmap N V).

Lemma elem_of_btree_iter m k v : (k, v) ∈ btree_iter m ↔ m !! k = Some v.
Proof.
  unfold btree_iter. rewrite merge_sort_Permutation. apply elem_of_map_to_list.
Qed.

Lemma elem_of_btree_str_iter (m : gmap string V) k v :
  (k, v) ∈ btree_str_iter m ↔ m !! k = Some v.
Proof.
  unfold btree_str_iter. rewrite merge_sort_Permutation. apply elem_of_map_to_list.
Qed.

Lemma NoDup_btree_str_iter (m : gmap string V) : NoDup (btree_str_iter m).*1.
Proof.
  unfold btree_str_iter. rewrite merge_sort_Permutation. apply NoDup_fst_map_to_list.
Qed.

Lemma btree_str_iter_map (m : gmap string V) : list_to_map (btree_str_iter m) = m.
Proof.
  unfold btree_str_iter. rewrite <-(list_to_map_to_list m) at 2.
  apply list_to_map_proper; [apply NoDup_btree_str_iter|apply merge_sort_Permutation].
Qed.

Lemma NoDup_btree_iter m : NoDup (btree_iter m).*1.
Proof. unfold btree_iter. rewrite merge_sort_Permutation. apply NoDup_fst_map_to_list. Qed.

Lemma btree_iter_sorted m : StronglySorted key_le (btree_iter m).
Proof.
  apply StronglySorted_merge_sort.
  - intros x y z. unfold key_le. lia.
  - intros x y. unfold key_le. lia.
Qed.

Lemma btree_first_Some m k :
  btree_first m = Some k ↔ is_Some (m !! k) ∧ ∀ j, is_Some (m !! j) → (k ≤ j)%N.
Proof.
  unfold btree_first. pose proof (btree_iter_sorted m) as Hs.
  destruct (btree_iter m) as [|[k0 v0] l] eqn:E; cbn.
  - split; [done|]. intros [[v Hv%elem_of_btree_iter] _]. rewrite E in Hv. set_solver.
  - assert (m !! k0 = Some v0) as H0 by (apply elem_of_btree_iter; rewrite E; set_solver).
    inversion Hs as [|? ? _ Hall]; subst.
    assert (∀ j, is_Some (m !! j) → (k0 ≤ j)%N) as Hmin.
    { intros j [v Hv%elem_of_btree_iter]. rewrite E in Hv.
      apply elem_of_cons in Hv as [[= -> ->]|Hv]; [lia|].
      rewrite Forall_forall in Hall. apply (Hall (j, v)). done. }
    split.
    + intros [= <-]. eauto.
    + intros [Hk Hle]. f_equal. apply Hmin in Hk. specialize (Hle k0). rewrite H0 in Hle.
      cbn in *. apply N.le_antisymm; eauto.
Qed.

Lemma btree_first_None m : btree_first m = None ↔ m = ∅.
Proof.
  unfold btree_first. split.
  - intros H. apply map_eq. intros k. rewrite lookup_empty.
    destruct (m !! k) as [v|] eqn:E; [|done].
    apply elem_of_btree_iter in E. destruct (btree_iter m); [set_solver|done].
  - intros ->. unfold btree_iter. by rewrite map_to_list_empty.
Qed.
End btree.

(** ** Automation *)

Create HintDb guard discriminated.

(** Case analysis on every boolean conjunct, disjunct and equality test of the
    context, the routine opening move on executable definitions. *)
Ltac bool_hyps :=
  repeat match goal with
  | H : _ && _ = true |- _ => apply andb_true_iff in H as [? ?]
  | H : _ || _ = false |- _ => apply orb_false_iff in H as [? ?]
  | H : negb _ = true |- _ => apply negb_true_iff in H
  | H : negb _ = false |- _ => apply negb_false_iff in H
  | H : String.eqb _ _ = true |- _ => apply String.eqb_eq in H
  | H : String.eqb _ _ = false |- _ => apply String.eqb_neq in H
  | H : bool_decide _ = true |- _ => apply bool_decide_eq_true in H
  | H : bool_decide _ = false |- _ => apply bool_decide_eq_false in H
  | H : is_true _ |- _ => unfold is_true in H
  end.

(** Split the first [match] or [if] of the goal or of a hypothesis. *)
Ltac split_match :=
  match goal with
  | |- context [match ?x with _ => _ end] => destruct x eqn:?
  | H : context [match ?x with _ => _ end] |- _ => destruct x eqn:?
  end.
