(* ===== verification/RustStr.v ===== *)
(** * Rust strings

    A Rust [&str] is a UTF-8 byte sequence; a Rocq [string] is a byte sequence
    too, so every string of the program is modelled by its bytes.  The
    operations below are the [str] and [char] methods the sources call.  ASCII
    delimiters can be searched bytewise (UTF-8 never encodes an ASCII character
    inside another one); [char::is_whitespace] is written out on the encodings
    of the 25 White_Space code points. *)

From stdpp Require Import base decidable list strings pretty.
From Stdlib Require Import Lia ZArith Bool Ascii String.
From S2P Require Import Prelude.

Open Scope string_scope.
Open Scope list_scope.

Declare Scope rust_scope.
Delimit Scope rust_scope with rust.
Notation "a ==s b" := (String.eqb a b) (at level 70, no associativity) : rust_scope.
Notation "a ++s b" := (String.append a b) (at level 60, right associativity) : rust_scope.
Open Scope rust_scope.

#[global] Arguments String.append : simpl nomatch.

(** ** Characters *)

Abbreviation dquote := "034"%char.
Abbreviation newline := "010"%char.
Abbreviation creturn := "013"%char.

Definition nl : string := String newline "".
Definition crlf : string := String creturn (String newline "").

Definition in_range (lo hi : N) (c : ascii) : bool :=
  let n := N_of_ascii c in ((lo <=? n) && (n <=? hi))%N.

Definition is_ascii_digit : ascii → bool := in_range 48 57.
Definition is_ascii_uppercase : ascii → bool := in_range 65 90.
Definition is_ascii_lowercase : ascii → bool := in_range 97 122.
Definition is_ascii_alphabetic (c : ascii) : bool :=
  is_ascii_uppercase c || is_ascii_lowercase c.
Definition is_ascii_alphanumeric (c : ascii) : bool :=
  is_ascii_alphabetic c || is_ascii_digit c.
Definition is_ascii_hexdigit (c : ascii) : bool :=
  is_ascii_digit c || in_range 65 70 c || in_range 97 102 c.
Definition ascii_in (l : list ascii) (c : ascii) : bool := existsb (Ascii.eqb c) l.

Definition lower_char (c : ascii) : ascii :=
  if is_ascii_uppercase c then ascii_of_N (N_of_ascii c + 32) else c.
Definition upper_char (c : ascii) : ascii :=
  if is_ascii_lowercase c then ascii_of_N (N_of_ascii c - 32) else c.

Fixpoint to_ascii_lowercase (s : string) : string :=
  match s with "" => "" | String c r => String (lower_char c) (to_ascii_lowercase r) end.

Fixpoint to_ascii_uppercase (s : string) : string :=
  match s with "" => "" | String c r => String (upper_char c) (to_ascii_uppercase r) end.

Definition eq_ignore_ascii_case (a b : string) : bool :=
  to_ascii_lowercase a ==s to_ascii_lowercase b.

(** The White_Space code points by encoded length: U+0009..U+000D and U+0020;
    U+0085 and U+00A0; U+1680, U+2000..U+200A, U+2028, U+2029, U+202F, U+205F,
    U+3000. *)
Definition ws1 (c : ascii) : bool := in_range 9 13 c || in_range 32 32 c.
Definition ws2 (c d : ascii) : bool :=
  in_range 194 194 c && (in_range 133 133 d || in_range 160 160 d).
Definition ws3 (c d e : ascii) : bool :=
  (in_range 225 225 c && in_range 154 154 d && in_range 128 128 e) ||
  (in_range 226 226 c && in_range 128 128 d &&
     (in_range 128 138 e || in_range 168 169 e || in_range 175 175 e)) ||
  (in_range 226 226 c && in_range 129 129 d && in_range 159 159 e) ||
  (in_range 227 227 c && in_range 128 128 d && in_range 128 128 e).

(** The rest of the string after a leading whitespace character, if any. *)
Definition strip_ws (s : string) : option string :=
  match s with
  | "" => None
  | String c r =>
    if ws1 c then Some r else
    match r with
    | "" => None
    | String d r2 =>
      if ws2 c d then Some r2 else
      match r2 with
      | "" => None
      | String e r3 => if ws3 c d e then Some r3 else None
      end
    end
  end.

(** [s.starts_with(char::is_whitespace)]. *)
Definition starts_with_ws (s : string) : bool :=
  match strip_ws s with Some _ => true | None => false end.

(** ** Trimming *)

Fixpoint trim_start (s : string) : string :=
  match s with
  | "" => ""
  | String c r =>
    if ws1 c then trim_start r else
    match r with
    | "" => s
    | String d r2 =>
      if ws2 c d then trim_start r2 else
      match r2 with
      | "" => s
      | String e r3 => if ws3 c d e then trim_start r3 else s
      end
    end
  end.

Definition all_ws (s : string) : bool := trim_start s ==s "".

Fixpoint trim_end (s : string) : string :=
  match s with
  | "" => ""
  | String c r => if all_ws s then "" else String c (trim_end r)
  end.

Definition trim (s : string) : string := trim_end (trim_start s).

Fixpoint trim_start_matches (p : ascii → bool) (s : string) : string :=
  match s with
  | "" => ""
  | String c r => if p c then trim_start_matches p r else s
  end.

Fixpoint all_chars (p : ascii → bool) (s : string) : bool :=
  match s with "" => true | String c r => p c && all_chars p r end.

Fixpoint trim_end_matches (p : ascii → bool) (s : string) : string :=
  match s with
  | "" => ""
  | String c r => if all_chars p s then "" else String c (trim_end_matches p r)
  end.

Definition trim_matches (p : ascii → bool) (s : string) : string :=
  trim_end_matches p (trim_start_matches p s).

(** [s.trim_start_matches(|c| p(c) || c.is_whitespace())] for an ASCII [p]. *)
Fixpoint trim_start_or_ws (p : ascii → bool) (s : string) : string :=
  match s with
  | "" => ""
  | String c r =>
    if p c || ws1 c then trim_start_or_ws p r else
    match r with
    | "" => s
    | String d r2 =>
      if ws2 c d then trim_start_or_ws p r2 else
      match r2 with
      | "" => s
      | String e r3 => if ws3 c d e then trim_start_or_ws p r3 else s
      end
    end
  end.

(** ** Searching *)

Definition is_empty (s : string) : bool := s ==s "".

Fixpoint starts_with (p s : string) : bool :=
  match p, s with
  | "", _ => true
  | String a p', String b s' => Ascii.eqb a b && starts_with p' s'
  | String _ _, "" => false
  end.

Fixpoint strip_prefix (p s : string) : option string :=
  match p, s with
  | "", _ => Some s
  | String a p', String b s' => if Ascii.eqb a b then strip_prefix p' s' else None
  | String _ _, "" => None
  end.

Fixpoint strip_suffix (p s : string) : option string :=
  if p ==s s then Some "" else
  match s with
  | "" => None
  | String c r => String c <$> strip_suffix p r
  end.

Definition ends_with (p s : string) : bool :=
  match strip_suffix p s with Some _ => true | None => false end.

(** [s.contains(needle)] for a string needle. *)
Fixpoint contains (needle s : string) : bool :=
  starts_with needle s ||
  match s with "" => false | String _ r => contains needle r end.

(** [s.contains(p)] for an ASCII character predicate. *)
Fixpoint contains_char (p : ascii → bool) (s : string) : bool :=
  match s with "" => false | String c r => p c || contains_char p r end.

(** [s.contains(char::is_whitespace)]. *)
Fixpoint contains_ws (s : string) : bool :=
  starts_with_ws s || match s with "" => false | String _ r => contains_ws r end.

Fixpoint count_char (p : ascii → bool) (s : string) : nat :=
  match s with
  | "" => 0
  | String c r => (if p c then 1 else 0) + count_char p r
  end.

(** ** Splitting and joining *)

(** [s.split(p)] for an ASCII character predicate: never empty. *)
Fixpoint split (p : ascii → bool) (s : string) : list string :=
  match s with
  | "" => [""]
  | String c r =>
    if p c then "" :: split p r else
    match split p r with
    | h :: t => String c h :: t
    | [] => [String c ""]
    end
  end.

Definition split_char (c : ascii) : string → list string := split (Ascii.eqb c).

(** [s.split_once(p)] for an ASCII character predicate. *)
Fixpoint split_once (p : ascii → bool) (s : string) : option (string * string) :=
  match s with
  | "" => None
  | String c r =>
    if p c then Some ("", r) else
    prod_map (String c) id <$> split_once p r
  end.

(** [s.split_once(pat)] for a string pattern. *)
Fixpoint split_once_str (pat s : string) : option (string * string) :=
  match strip_prefix pat s with
  | Some r => Some ("", r)
  | None =>
    match s with
    | "" => None
    | String c r => prod_map (String c) id <$> split_once_str pat r
    end
  end.

(** [s.rsplit_once(c)]. *)
Fixpoint rsplit_once (p : ascii → bool) (s : string) : option (string * string) :=
  match s with
  | "" => None
  | String c r =>
    match rsplit_once p r with
    | Some (a, b) => Some (String c a, b)
    | None => if p c then Some ("", r) else None
    end
  end.

Fixpoint join (sep : string) (l : list string) : string :=
  match l with
  | [] => ""
  | [x] => x
  | x :: l => x ++s sep ++s join sep l
  end.

(** [s.split_whitespace()]: [cur] is the pending token. *)
Definition push_tok (cur : string) (l : list string) : list string :=
  if is_empty cur then l else cur :: l.

Fixpoint split_ws_from (cur s : string) : list string :=
  match s with
  | "" => push_tok cur []
  | String c r =>
    if ws1 c then push_tok cur (split_ws_from "" r) else
    match r with
    | "" => push_tok (cur ++s String c "") []
    | String d r2 =>
      if ws2 c d then push_tok cur (split_ws_from "" r2) else
      match r2 with
      | "" => split_ws_from (cur ++s String c "") r
      | String e r3 =>
        if ws3 c d e then push_tok cur (split_ws_from "" r3)
        else split_ws_from (cur ++s String c "") r
      end
    end
  end.

Definition split_whitespace : string → list string := split_ws_from "".

(** [s.lines()]: split at newlines, a carriage return before the newline
    dropped, no final empty line. *)
Definition strip_cr (s : string) : string :=
  match strip_suffix (String creturn "") s with Some r => r | None => s end.

Fixpoint lines_of (l : list string) : list string :=
  match l with
  | [] => []
  | [x] => if is_empty x then [] else [x]
  | x :: l => strip_cr x :: lines_of l
  end.

Definition lines (s : string) : list string := lines_of (split_char newline s).

(** [&s[n..]] and [&s[..n]], for an in-range [n]. *)
Fixpoint sdrop (n : nat) (s : string) : string :=
  match n, s with
  | O, _ => s
  | S n, "" => ""
  | S n, String _ r => sdrop n r
  end.

Fixpoint stake (n : nat) (s : string) : string :=
  match n, s with
  | O, _ => ""
  | S n, "" => ""
  | S n, String c r => String c (stake n r)
  end.

(** [s.is_char_boundary(n)]: the end of the string, or a byte that does not
    continue a UTF-8 sequence. *)
Definition is_char_boundary (n : nat) (s : string) : bool :=
  (n =? String.length s)%nat ||
  match sdrop n s with "" => false | String c _ => negb (in_range 128 191 c) end.

(** A UTF-8 continuation byte. *)
Definition is_continuation (c : ascii) : bool := in_range 128 191 c.

(** [s.chars()]: every character with its continuation bytes. *)
Fixpoint uchars (s : string) : list string :=
  match s with
  | "" => []
  | String c r =>
    match uchars r with
    | [] => [String c ""]
    | h :: t =>
      match r with
      | String d _ => if is_continuation d then String c h :: t else String c "" :: h :: t
      | "" => [String c ""]
      end
    end
  end.

(** The longest prefix of characters satisfying [p], and the rest. *)
Fixpoint span_chars (p : ascii → bool) (s : string) : string * string :=
  match s with
  | "" => ("", "")
  | String c r =>
    if p c then let '(a, b) := span_chars p r in (String c a, b) else ("", s)
  end.

(** [tok.rsplit('/').next()]: the last path component. *)
Definition basename (s : string) : string :=
  match rsplit_once (Ascii.eqb "/") s with Some (_, b) => b | None => s end.

(** ** Numbers *)

Definition u32_max : N := 4294967295.
Definition u16_max : N := 65535.
Definition u64_max : N := 18446744073709551615.

Definition i64_max : Z := (2 ^ 63 - 1)%Z.
Definition i64_min : Z := (- 2 ^ 63)%Z.

(** Two's complement wrap of an [i64] operation. *)
Definition i64w (z : Z) : Z := ((z + 2 ^ 63) mod 2 ^ 64 - 2 ^ 63)%Z.

Definition digit_val (c : ascii) : N := N_of_ascii c - 48.

Fixpoint digits_val (acc : N) (s : string) : N :=
  match s with "" => acc | String c r => digits_val (10 * acc + digit_val c) r end.

(** [s.parse::<uN>()]: an optional [+], then at least one digit, no overflow. *)
Definition parse_uint (max : N) (s : string) : option N :=
  let ds := match s with String "+" r => r | _ => s end in
  if negb (is_empty ds) && all_chars is_ascii_digit ds then
    let n := digits_val 0 ds in
    if (n <=? max)%N then Some n else None
  else None.

Definition parse_u32 : string → option N := parse_uint u32_max.
Definition parse_u64 : string → option N := parse_uint u64_max.
Definition parse_u16 : string → option N := parse_uint u16_max.

(** [s.parse::<i64>()]. *)
Definition parse_i64 (s : string) : option Z :=
  match s with
  | String "-" r =>
    if negb (is_empty r) && all_chars is_ascii_digit r then
      let n := Z.of_N (digits_val 0 r) in
      if (n <=? 2 ^ 63)%Z then Some (- n)%Z else None
    else None
  | _ =>
    match parse_uint 9223372036854775807 s with
    | Some n => Some (Z.of_N n)
    | None => None
    end
  end.

(** [n.to_string()]. *)
Definition u32_to_string (n : N) : string := pretty n.
Definition nat_to_string (n : nat) : string := pretty (N.of_nat n).
Definition i64_to_string (z : Z) : string := pretty z.

(** ** Lemmas *)

Lemma app_assoc_s (a b c : string) : (a ++s b) ++s c = a ++s (b ++s c).
Proof. induction a as [|x a IH]; cbn; [done|]. by rewrite IH. Qed.

Lemma app_nil_s (a : string) : a ++s "" = a.
Proof. induction a as [|x a IH]; cbn; [done|]. by rewrite IH. Qed.

Lemma starts_with_spec (p s : string) : starts_with p s = true ↔ ∃ r, s = p ++s r.
Proof.
  revert s. induction p as [|a p IH]; intros s; cbn.
  - split; [intros _; by exists s|done].
  - destruct s as [|b s]; cbn; [split; [done|by intros [r ?]]|].
    rewrite andb_true_iff, IH. destruct (Ascii.eqb_spec a b) as [->|Hne].
    + split; [intros [_ [r ->]]|intros [r [= ->]]; split; [done|]]; by exists r.
    + split; [by intros [? _]|]. intros [r [= ? ?]]. congruence.
Qed.

Lemma contains_spec (n s : string) : contains n s = true ↔ ∃ a b, s = a ++s n ++s b.
Proof.
  induction s as [|c s IH]; cbn [contains]; rewrite orb_true_iff, starts_with_spec.
  - split; [|intros (a & b & H); left; exists b; by destruct a].
    intros [[r Hr]|]; [|done]. by exists "", r.
  - rewrite IH. split.
    + intros [[r Hr]|(a & b & ->)]; [by exists "", r|by exists (String c a), b].
    + intros ([|a0 a] & b & H); [left; by exists b|].
      right. exists a, b. cbn in H. congruence.
Qed.

Lemma strip_prefix_spec (p s r : string) : strip_prefix p s = Some r ↔ s = p ++s r.
Proof.
  revert s. induction p as [|a p IH]; intros s; cbn.
  - split; [by intros [= ->]|by intros ->].
  - destruct s as [|b s]; [done|].
    destruct (Ascii.eqb_spec a b) as [->|Hne].
    + rewrite IH. split; congruence.
    + split; [done|congruence].
Qed.

Lemma strip_suffix_sound (p s r : string) : strip_suffix p s = Some r → s = r ++s p.
Proof.
  revert r. induction s as [|c s IH]; intros r; cbn.
  - destruct (String.eqb_spec p "") as [->|]; [by intros [= <-]|done].
  - destruct (String.eqb_spec p (String c s)) as [->|]; [by intros [= <-]|].
    destruct (strip_suffix p s) as [r'|] eqn:E; [|done].
    intros [= <-]. cbn. f_equal. by apply IH.
Qed.

Lemma split_once_Some p (s a b : string) :
  split_once p s = Some (a, b) →
  ∃ c, p c = true ∧ s = a ++s String c b ∧ all_chars (λ x, negb (p x)) a = true.
Proof.
  revert a b. induction s as [|c s IH]; intros a b; cbn; [done|].
  destruct (p c) eqn:Hc.
  - intros [= <- <-]. by exists c.
  - destruct (split_once p s) as [[a' b']|] eqn:E; [|done].
    intros [= <- <-]. destruct (IH a' b' eq_refl) as (d & Hd & -> & Ha).
    exists d. cbn. rewrite Hc, Ha. done.
Qed.

Lemma all_chars_impl (p q : ascii → bool) (s : string) :
  (∀ c, p c = true → q c = true) → all_chars p s = true → all_chars q s = true.
Proof.
  intros Hpq. induction s as [|c s IH]; cbn; [done|].
  rewrite !andb_true_iff. intros [? ?]. auto.
Qed.

Lemma all_chars_app p (a b : string) :
  all_chars p (a ++s b) = all_chars p a && all_chars p b.
Proof. induction a as [|c a IH]; cbn; [done|]. by rewrite IH, andb_assoc. Qed.

Lemma contains_char_all p (s : string) :
  contains_char p s = negb (all_chars (λ c, negb (p c)) s).
Proof.
  induction s as [|c s IH]; cbn; [done|]. rewrite IH, negb_andb, negb_involutive. done.
Qed.

Lemma split_not_nil p s : split p s ≠ [].
Proof. destruct s as [|c s]; cbn; [done|]. destruct (p c); [done|]. by destruct (split p s). Qed.

(** No piece of a split contains a separator. *)
Lemma split_pieces p s : Forall (λ x, all_chars (λ c, negb (p c)) x = true) (split p s).
Proof.
  induction s as [|c s IH]; cbn; [by repeat constructor|].
  destruct (p c) eqn:Hc; [by constructor|].
  destruct (split p s) as [|h t] eqn:E.
  - repeat constructor. cbn. by rewrite Hc.
  - inversion IH; subst. constructor; [|done]. cbn. by rewrite Hc.
Qed.

(** Splitting and joining on the same character are inverse. *)
Lemma join_split (c : ascii) (s : string) : join (String c "") (split_char c s) = s.
Proof.
  unfold split_char. induction s as [|x s IH]; cbn; [done|].
  destruct (Ascii.eqb_spec c x) as [<-|].
  - pose proof (split_not_nil (Ascii.eqb c) s). destruct (split (Ascii.eqb c) s); [done|].
    cbn in *. by rewrite IH.
  - destruct (split (Ascii.eqb c) s) as [|h t]; cbn in *; [by rewrite <- IH|].
    destruct t; cbn in *; by rewrite IH.
Qed.

Lemma lower_char_idemp c : lower_char (lower_char c) = lower_char c.
Proof. destruct c as [[] [] [] [] [] [] [] []]; reflexivity. Qed.

Lemma to_lower_idemp s : to_ascii_lowercase (to_ascii_lowercase s) = to_ascii_lowercase s.
Proof. induction s as [|c s IH]; cbn; [done|]. by rewrite IH, lower_char_idemp. Qed.

Lemma eq_ignore_ascii_case_refl s : eq_ignore_ascii_case s s = true.
Proof. apply String.eqb_refl. Qed.

(** *** Decimal numerals *)

Lemma digits_val_pretty_go n s : digits_val 0 (pretty_N_go n s) = digits_val n s.
Proof.
  revert s. induction (N.lt_wf_0 n) as [n _ IH]; intros s.
  destruct (decide (n = 0)%N) as [->|Hn].
  - by rewrite pretty_N_go_0.
  - rewrite pretty_N_go_step by lia. rewrite IH by (apply N.div_lt; lia). cbn.
    assert (digit_val (pretty_N_char (n `mod` 10)) = n `mod` 10)%N as ->.
    { pose proof (N.mod_lt n 10 ltac:(lia)).
      destruct (n `mod` 10)%N as [|p] eqn:E; [reflexivity|].
      do 4 (destruct p as [p|p|]; try reflexivity; try lia). }
    f_equal. rewrite <- N.div_mod; lia.
Qed.

Lemma pretty_char_digit n : is_ascii_digit (pretty_N_char n) = true.
Proof.
  unfold pretty_N_char. destruct n as [|p]; [reflexivity|].
  do 4 (destruct p as [p|p|]; try reflexivity).
Qed.

Lemma digits_pretty_go n s :
  all_chars is_ascii_digit s = true → all_chars is_ascii_digit (pretty_N_go n s) = true.
Proof.
  revert s. induction (N.lt_wf_0 n) as [n _ IH]; intros s Hs.
  destruct (decide (n = 0)%N) as [->|Hn]; [by rewrite pretty_N_go_0|].
  rewrite pretty_N_go_step by lia. apply IH; [apply N.div_lt; lia|].
  cbn. rewrite Hs, andb_true_r. apply pretty_char_digit.
Qed.

Lemma to_string_zero n : u32_to_string n = if decide (n = 0)%N then "0" else pretty_N_go n "".
Proof. unfold u32_to_string, pretty, pretty_N. by case_decide. Qed.

Lemma to_string_digits n : all_chars is_ascii_digit (u32_to_string n) = true.
Proof. rewrite to_string_zero. case_decide; [done|]. by apply digits_pretty_go. Qed.

Lemma to_string_val n : digits_val 0 (u32_to_string n) = n.
Proof.
  rewrite to_string_zero. case_decide; [by subst|]. by rewrite digits_val_pretty_go.
Qed.

Lemma pretty_go_nonempty n s : s ≠ "" → pretty_N_go n s ≠ "".
Proof.
  revert s. induction (N.lt_wf_0 n) as [n _ IH]; intros s Hs.
  destruct (decide (n = 0)%N) as [->|Hn]; [by rewrite pretty_N_go_0|].
  rewrite pretty_N_go_step by lia. apply IH; [apply N.div_lt; lia|done].
Qed.

Lemma to_string_nonempty n : u32_to_string n ≠ "".
Proof.
  rewrite to_string_zero. case_decide; [done|].
  rewrite pretty_N_go_step by lia. by apply pretty_go_nonempty.
Qed.

(** A leading [+] is not a digit, so printed numbers take the plain branch. *)
Lemma parse_uint_digits max s :
  s ≠ "" → all_chars is_ascii_digit s = true → (digits_val 0 s ≤ max)%N →
  parse_uint max s = Some (digits_val 0 s).
Proof.
  intros Hne Hd Hmax. unfold parse_uint.
  assert ((match s with String "+" r => r | _ => s end) = s) as ->.
  { destruct s as [|c r]; [done|]. cbn in Hd. apply andb_true_iff in Hd as [Hc _].
    destruct c as [[] [] [] [] [] [] [] []]; try reflexivity; discriminate. }
  unfold is_empty. destruct (String.eqb_spec s ""); [done|].
  rewrite Hd. cbn. by rewrite (proj2 (N.leb_le _ _)).
Qed.

(** Printing a [u32] and parsing it back gives the same number. *)
Lemma parse_u32_to_string n : (n ≤ u32_max)%N → parse_u32 (u32_to_string n) = Some n.
Proof.
  intros Hn. unfold parse_u32. rewrite parse_uint_digits.
  - by rewrite to_string_val.
  - apply to_string_nonempty.
  - apply to_string_digits.
  - by rewrite to_string_val.
Qed.

Lemma parse_u32_bound s n : parse_u32 s = Some n → (n ≤ u32_max)%N.
Proof.
  unfold parse_u32, parse_uint. destruct (negb _ && _); [|done].
  destruct (N.leb_spec (digits_val 0 match s with String "+" r => r | _ => s end) u32_max);
    [|done].
  by intros [= <-].
Qed.

#[export] Hint Resolve to_string_digits to_string_nonempty parse_u32_to_string : guard.

(** ** Splitting what was joined *)

Lemma split_once_app p (a b : string) c :
  all_chars (λ x, negb (p x)) a = true → p c = true →
  split_once p (a ++s String c b) = Some (a, b).
Proof.
  intros Ha Hc. induction a as [|x a IH]; cbn in *; [by rewrite Hc|].
  apply andb_true_iff in Ha as [Hx Ha]. apply negb_true_iff in Hx. by rewrite Hx, IH.
Qed.

Lemma split_app p (a b : string) c :
  all_chars (λ x, negb (p x)) a = true → p c = true →
  split p (a ++s String c b) = a :: split p b.
Proof.
  intros Ha Hc. induction a as [|x a IH]; cbn in *; [by rewrite Hc|].
  apply andb_true_iff in Ha as [Hx Ha]. apply negb_true_iff in Hx. by rewrite Hx, IH.
Qed.

Lemma split_none p (a : string) : all_chars (λ x, negb (p x)) a = true → split p a = [a].
Proof.
  intros Ha. induction a as [|x a IH]; cbn in *; [done|].
  apply andb_true_iff in Ha as [Hx Ha]. apply negb_true_iff in Hx. by rewrite Hx, IH.
Qed.

Lemma length_app_s (a b : string) :
  String.length (a ++s b) = (String.length a + String.length b)%nat.
Proof. induction a as [|x a IH]; cbn; [done|]. by rewrite IH. Qed.

Lemma strip_suffix_app (p x : string) : strip_suffix p (x ++s p) = Some x.
Proof.
  induction x as [|c x IH]; cbn.
  - destruct p as [|c p]; cbn; [done|]. by rewrite Ascii.eqb_refl, String.eqb_refl.
  - destruct (String.eqb_spec p (String c (x ++s p))) as [Heq|_]; [|by rewrite IH].
    apply (f_equal String.length) in Heq. cbn in Heq. rewrite length_app_s in Heq. lia.
Qed.

(** ** Byte order *)

Lemma str_leb_cons c d a b :
  String.leb (String c a) (String d b) = true ↔
  (N_of_ascii c < N_of_ascii d)%N ∨ (N_of_ascii c = N_of_ascii d ∧ String.leb a b = true).
Proof.
  unfold String.leb. cbn. unfold Ascii.compare.
  destruct (N.compare_spec (N_of_ascii c) (N_of_ascii d)) as [H|H|H].
  - split; [intros; by right|]. intros [?|[_ ?]]; [lia|done].
  - split; [by left|done].
  - split; [done|]. intros [?|[? _]]; lia.
Qed.

Lemma str_leb_trans a b c :
  String.leb a b = true → String.leb b c = true → String.leb a c = true.
Proof.
  revert b c. induction a as [|x a IH]; intros b c.
  - by destruct c.
  - destruct b as [|y b]; [done|]. destruct c as [|z c]; [by intros _|].
    rewrite !str_leb_cons. intros [?|[? ?]] [?|[? ?]]; [left; lia..|].
    right. split; [congruence|]. eauto.
Qed.

Lemma str_leb_refl a : String.leb a a = true.
Proof. destruct (String.leb_total a a); done. Qed.

Lemma str_ltb_leb a b : String.ltb a b = negb (String.leb b a).
Proof.
  unfold String.ltb, String.leb. rewrite (String.compare_antisym a b).
  by destruct (String.compare b a).
Qed.

Lemma str_ltb_true a b : String.ltb a b = true → String.leb a b = true.
Proof.
  rewrite str_ltb_leb. intros H%negb_true_iff.
  destruct (String.leb_total a b); [done|congruence].
Qed.

Lemma rsplit_once_None p s : rsplit_once p s = None ↔ all_chars (λ c, negb (p c)) s = true.
Proof.
  induction s as [|c s IH]; cbn; [done|]. destruct (rsplit_once p s) as [[a b]|] eqn:E; cbn.
  - split; [done|]. rewrite andb_true_iff, <-IH. by intros [_ ?].
  - destruct (p c) eqn:Ep; cbn; [done|]. by rewrite <-IH.
Qed.

Lemma rsplit_once_Some p s a b :
  rsplit_once p s = Some (a, b) →
  ∃ c, p c = true ∧ s = a ++s String c b ∧ all_chars (λ c, negb (p c)) b = true.
Proof.
  revert a b. induction s as [|c s IH]; intros a b; cbn; [done|].
  destruct (rsplit_once p s) as [[a' b']|] eqn:E; cbn.
  - intros [= <- <-]. destruct (IH a' b' eq_refl) as (d & Hd & -> & Hb). by exists d.
  - destruct (p c) eqn:Ep; [|done]. intros [= <- <-]. exists c. split_and!; [done..|].
    by apply rsplit_once_None.
Qed.

(** ** Occurrences *)

Lemma contains_app_l pat a b : contains pat a = true → contains pat (a ++s b) = true.
Proof. rewrite !contains_spec. intros (x & y & ->). exists x, (y ++s b). by rewrite !app_assoc_s. Qed.

Lemma contains_app_r pat a b : contains pat b = true → contains pat (a ++s b) = true.
Proof. rewrite !contains_spec. intros (x & y & ->). exists (a ++s x), y. by rewrite !app_assoc_s. Qed.

(** ** Trimming around visible ASCII *)

(** A visible ASCII character: it neither is whitespace nor occurs in the
    encoding of any. *)
Definition visible (c : ascii) : bool := in_range 33 126 c.

Lemma visible_ws c : visible c = true →
  ws1 c = false ∧ (∀ d, ws2 c d = false) ∧ (∀ d e, ws3 c d e = false) ∧
  (∀ b, ws2 b c = false) ∧ (∀ a b, ws3 a c b = false ∧ ws3 a b c = false).
Proof.
  intros Hv. split_and!.
  - revert Hv. by destruct c as [[] [] [] [] [] [] [] []].
  - intros d. unfold ws2. revert Hv. by destruct c as [[] [] [] [] [] [] [] []].
  - intros d e. unfold ws3. revert Hv. by destruct c as [[] [] [] [] [] [] [] []].
  - intros b. unfold ws2. replace (in_range 133 133 c || in_range 160 160 c) with false.
    + apply andb_false_r.
    + revert Hv. by destruct c as [[] [] [] [] [] [] [] []].
  - intros a b. unfold ws3.
    assert (∀ lo hi, (127 < lo)%N → in_range lo hi c = false) as Hc.
    { intros lo hi Hlo. unfold in_range. apply andb_false_iff. left. apply N.leb_gt.
      revert Hv. unfold visible, in_range. rewrite andb_true_iff, !N.leb_le. lia. }
    rewrite !Hc by lia. cbn [orb]. by rewrite !andb_false_r.
Qed.

Lemma trim_start_visible c r : visible c = true → trim_start (String c r) = String c r.
Proof.
  intros (H1 & H2 & H3 & _)%visible_ws. cbn [trim_start]. rewrite H1.
  destruct r as [|d r]; [done|]. rewrite H2. destruct r as [|e r]; [done|]. by rewrite H3.
Qed.

(** Trimming never reaches past a visible character. *)
Lemma trim_start_keeps c x r : visible c = true → ∃ y, trim_start (x ++s String c r) = y ++s String c r.
Proof.
  intros Hc. pose proof (visible_ws c Hc) as (_ & _ & _ & Hb & Hab).
  remember (String.length x) as n eqn:Hn. revert x Hn.
  induction (lt_wf n) as [n _ IH]. intros x ->.
  destruct x as [|a x]; [exists ""; by apply trim_start_visible|].
  cbn [String.append trim_start]. destruct (ws1 a); [apply (IH (String.length x)); cbn; lia|].
  destruct x as [|b x]; cbn [String.append].
  { rewrite Hb. destruct r as [|e r]; [by exists (String a "")|].
    rewrite (proj1 (Hab a e)). by exists (String a ""). }
  destruct (ws2 a b); [apply (IH (String.length x)); cbn; lia|].
  destruct x as [|d x]; cbn [String.append].
  { rewrite (proj2 (Hab a b)). by exists (String a (String b "")). }
  destruct (ws3 a b d); [apply (IH (String.length x)); cbn; lia|].
  by exists (String a (String b (String d x))).
Qed.

Lemma trim_end_visible c x r : visible c = true →
  trim_end (x ++s String c r) = x ++s String c (trim_end r).
Proof.
  intros Hc. assert (∀ x, all_ws (x ++s String c r) = false) as Hall.
  { intros y. unfold all_ws. destruct (trim_start_keeps c y r Hc) as [z ->].
    apply String.eqb_neq. by destruct z. }
  induction x as [|a x IH]; cbn [String.append trim_end].
  - pose proof (Hall "") as H0. cbn [String.append] in H0. by rewrite H0.
  - pose proof (Hall (String a x)) as H0. cbn [String.append] in H0. by rewrite H0, IH.
Qed.

Lemma all_ws_trim_end s : all_ws s = true → trim_end s = "".
Proof. intros H. destruct s as [|c s]; [done|]. cbn [trim_end]. by rewrite H. Qed.

Lemma all_ws_app a w : all_ws a = true → all_ws w = true → all_ws (a ++s w) = true.
Proof.
  unfold all_ws. rewrite !String.eqb_eq. intros Ha Hw. remember (String.length a) as n eqn:Hn.
  revert a Hn Ha. induction (lt_wf n) as [n _ IH]. intros a -> Ha.
  destruct a as [|c a]; [done|]. cbn [String.append trim_start] in *.
  destruct (ws1 c); [apply (IH (String.length a)); cbn; [lia|done..]|].
  destruct a as [|d a]; [done|]. cbn [String.append].
  destruct (ws2 c d); [apply (IH (String.length a)); cbn; [lia|done..]|].
  destruct a as [|e a]; [done|]. cbn [String.append].
  destruct (ws3 c d e); [apply (IH (String.length a)); cbn; [lia|done..]|done].
Qed.

Lemma trim_end_split s : ∃ w, s = trim_end s ++s w ∧ all_ws w = true.
Proof.
  induction s as [|c s (w & Hw & Hall)]; [by exists ""|]. cbn [trim_end].
  destruct (all_ws (String c s)) eqn:E; [by exists (String c s)|].
  exists w. cbn. by rewrite <-Hw.
Qed.

Lemma trim_end_idemp s : trim_end (trim_end s) = trim_end s.
Proof.
  induction s as [|c s IH]; [done|]. cbn [trim_end].
  destruct (all_ws (String c s)) eqn:E; [done|]. cbn [trim_end].
  destruct (all_ws (String c (trim_end s))) eqn:E2; [|by rewrite IH].
  destruct (trim_end_split s) as (w & Hw & Hall). exfalso.
  apply not_true_iff_false in E. apply E. rewrite Hw.
  change (String c (trim_end s ++s w)) with (String c (trim_end s) ++s w). by apply all_ws_app.
Qed.

(** Text from a visible character on is its own trim once its end is trimmed. *)
Lemma trim_visible c x d r :
  visible c = true → visible d = true → trim_end r = r →
  trim (String c x ++s String d r) = String c x ++s String d r.
Proof.
  intros Hc Hd Hr. unfold trim. cbn [String.append]. rewrite trim_start_visible by done.
  change (String c (x ++s String d r)) with (String c x ++s String d r).
  by rewrite trim_end_visible, Hr.
Qed.

(** What follows a visible character inside a trimmed text is trimmed at its end. *)
Lemma trim_tail s x d r : visible d = true → trim s = x ++s String d r → trim_end r = r.
Proof.
  intros Hd Hs. assert (trim_end (trim s) = trim s) as Hi by (unfold trim; apply trim_end_idemp).
  rewrite Hs, trim_end_visible in Hi by done.
  apply (f_equal (sdrop (String.length x))) in Hi.
  assert (∀ a b : string, sdrop (String.length a) (a ++s b) = b) as Hdrop
    by (intros a b; induction a as [|? a IH]; [done|apply IH]).
  rewrite !Hdrop in Hi. by injection Hi.
Qed.

(** ** What is left of a text *)

Lemma span_left p s : (String.length (span_chars p s).2 ≤ String.length s)%nat.
Proof.
  induction s as [|c s IH]; [done|]. cbn [span_chars]. destruct (p c); [|done].
  destruct (span_chars p s). cbn in *. lia.
Qed.

Lemma sdrop_left n s : (String.length (sdrop n s) ≤ String.length s)%nat.
Proof. revert s. induction n as [|n IH]; intros [|c s]; cbn; [lia..|]. specialize (IH s). lia. Qed.

Lemma rsplit_once_app p a c b :
  p c = true → all_chars (λ c, negb (p c)) b = true → rsplit_once p (a ++s String c b) = Some (a, b).
Proof.
  intros Hc Hb%rsplit_once_None. induction a as [|d a IH]; cbn; [by rewrite Hb, Hc|].
  fold (append a (String c b)). by rewrite IH.
Qed.

Lemma split_mid p (a b : string) c :
  p c = true → split p (a ++s String c b) = split p a ++ split p b.
Proof.
  intros Hc. induction a as [|x a IH]; cbn [String.append split]; [by rewrite Hc|].
  rewrite IH. destruct (p x); [done|]. pose proof (split_not_nil p a) as Hn.
  by destruct (split p a).
Qed.
