(* ===== verification/Json.v ===== *)
(** * JSON values

    The part of [serde_json::Value] the sources use: the value type, the
    accessors [get], [as_str], [as_u64], [as_bool], [as_array], and [insert] on
    an object.  Printing and parsing JSON text belong to serde_json and are the
    class [JsonText].  An object lists its entries in the map's order. *)

From stdpp Require Import base decidable list strings.
From Stdlib Require Import ZArith String.
From S2P Require Import Prelude RustStr.

(** [serde_json::Number]: an unsigned integer, a negative integer, or the bit
    pattern of a double. *)
Inductive number : Type :=
| PosInt (n : N)
| NegInt (z : Z)
| Float (bits : N).

Inductive Value : Type :=
| JNull
| JBool (b : bool)
| JNum (n : number)
| JStr (s : string)
| JArr (l : list Value)
| JObj (o : list (string * Value)).

(** Object lookup: the first entry with the key. *)
Fixpoint obj_get (k : string) (o : list (string * Value)) : option Value :=
  match o with
  | [] => None
  | (k', v) :: o => if k ==s k' then Some v else obj_get k o
  end.

(** [Map::insert]: replace an existing entry, else append. *)
Fixpoint obj_insert (k : string) (v : Value) (o : list (string * Value)) :
    list (string * Value) :=
  match o with
  | [] => [(k, v)]
  | (k', v') :: o => if k ==s k' then (k, v) :: o else (k', v') :: obj_insert k v o
  end.

(** [Map::remove].  What remains keeps its order here, while an index map moves
    its last entry into the gap; the entries are the same. *)
Definition obj_remove (k : string) (o : list (string * Value)) : list (string * Value) :=
  List.filter (λ kv, negb (k ==s kv.1)) o.

(** [Value::get(key)]. *)
Definition jget (k : string) (v : Value) : option Value :=
  match v with JObj o => obj_get k o | _ => None end.

Definition as_str (v : Value) : option string :=
  match v with JStr s => Some s | _ => None end.

Definition as_u64 (v : Value) : option N :=
  match v with JNum (PosInt n) => Some n | _ => None end.

(** [Value::as_i64]. *)
Definition as_i64 (v : Value) : option Z :=
  match v with
  | JNum (PosInt n) => if (Z.of_N n <? 2 ^ 63)%Z then Some (Z.of_N n) else None
  | JNum (NegInt z) => Some z
  | _ => None
  end.

Definition as_array (v : Value) : option (list Value) :=
  match v with JArr l => Some l | _ => None end.

Definition as_object (v : Value) : option (list (string * Value)) :=
  match v with JObj o => Some o | _ => None end.

(** [v.get(key).and_then(Value::as_str)]. *)
Definition get_str (k : string) (v : Value) : option string := jget k v ≫= as_str.

Definition jnat (n : nat) : Value := JNum (PosInt (N.of_nat n)).
Definition jN (n : N) : Value := JNum (PosInt n).
Definition jZ (z : Z) : Value :=
  if (0 <=? z)%Z then JNum (PosInt (Z.to_N z)) else JNum (NegInt z).

(** [Value == Value::Bool(true)] on an optional value. *)
Definition is_json_true (v : option Value) : bool :=
  match v with Some (JBool true) => true | _ => false end.

(** [serde_json::to_string] and [serde_json::from_str] on a [Value]. *)
Class JsonText := {
  json_to_string : Value → string;
  json_from_str : string → option Value;
}.

Lemma obj_get_insert k v o : obj_get k (obj_insert k v o) = Some v.
Proof.
  induction o as [|[k' v'] o IH]; cbn; [by rewrite String.eqb_refl|].
  destruct (String.eqb_spec k k') as [<-|Hne]; cbn; [by rewrite String.eqb_refl|].
  by destruct (String.eqb_spec k k').
Qed.

Lemma obj_get_insert_ne k j v o : k ≠ j → obj_get j (obj_insert k v o) = obj_get j o.
Proof.
  intros Hne. induction o as [|[k' v'] o IH]; cbn.
  - by destruct (String.eqb_spec j k).
  - destruct (String.eqb_spec k k') as [<-|Hk]; cbn.
    + by destruct (String.eqb_spec j k).
    + by rewrite IH.
Qed.
