(* ===== verification/Prog.v ===== *)
(** * Programs over calls

    A function that talks to another system (a cluster, a kernel, a database)
    is a program: a tree of calls, each continued by its answer.  Nothing is
    assumed of the answers, so other parties may act between two calls.  The
    runs of a program are its sequences of calls with their answers; [wp] is
    what holds at the end of every run. *)

From stdpp Require Import base list.
From S2P Require Import Prelude.

Inductive prog {Op : Type} (Ans : Op → Type) (A : Type) : Type :=
  | Ret (a : A)
  | Do (op : Op) (k : Ans op → prog Ans A).
Arguments Ret {_ _ _} _.
Arguments Do {_ _ _} _ _.

Section programs.
Context {Op : Type} {Ans : Op → Type}.

Definition call (op : Op) : prog Ans (Ans op) := Do op Ret.

Fixpoint prog_bind {A B} (f : A → prog Ans B) (p : prog Ans A) : prog Ans B :=
  match p with Ret a => f a | Do op k => Do op (λ r, prog_bind f (k r)) end.

#[export] Instance prog_mret : MRet (prog Ans) := @Ret Op Ans.
#[export] Instance prog_mbind : MBind (prog Ans) := @prog_bind.

(** The [?] operator inside a program. *)
Definition try_bind {E A B} (p : prog Ans (result E A)) (f : A → prog Ans (result E B))
  : prog Ans (result E B) :=
  p ≫= λ r, match r with Ok a => f a | Err e => Ret (Err e) end.

(** ** Reasoning about runs *)

Definition event : Type := { op : Op & Ans op }.
Definition ev (op : Op) (r : Ans op) : event := existT op r.

Inductive runs {A} : prog Ans A → list event → A → Prop :=
  | runs_ret a : runs (Ret a) [] a
  | runs_do op k r tr a : runs (k r) tr a → runs (Do op k) (ev op r :: tr) a.

(** What holds after a program whatever the answers, with the calls so far. *)
Fixpoint wp {A} (p : prog Ans A) (pre : list event) (Q : list event → A → Prop) : Prop :=
  match p with
  | Ret a => Q pre a
  | Do op k => ∀ r, wp (k r) (pre ++ [ev op r]) Q
  end.

Lemma wp_runs {A} (p : prog Ans A) pre Q tr a : wp p pre Q → runs p tr a → Q (pre ++ tr) a.
Proof.
  intros Hwp Hr. revert pre Hwp. induction Hr as [a|op k r tr a _ IH]; intros pre Hwp; [by rewrite app_nil_r|].
  specialize (IH _ (Hwp r)). by rewrite <-app_assoc in IH.
Qed.

Lemma wp_bind {A B} (p : prog Ans A) (f : A → prog Ans B) pre Q :
  wp p pre (λ tr a, wp (f a) tr Q) → wp (p ≫= f) pre Q.
Proof.
  change (p ≫= f) with (prog_bind f p).
  revert pre. induction p as [a|op k IH]; intros pre; cbn; [done|]. intros Hk r. apply IH, Hk.
Qed.

Lemma wp_mono {A} (p : prog Ans A) pre (Q R : list event → A → Prop) :
  (∀ tr a, Q tr a → R tr a) → wp p pre Q → wp p pre R.
Proof. intros HQR. revert pre. induction p as [a|op k IH]; intros pre; cbn; [by auto|]. intros Hk r. apply IH, Hk. Qed.

Lemma wp_try {E A B} (p : prog Ans (result E A)) (f : A → prog Ans (result E B)) pre Q :
  wp p pre (λ tr r, match r with Ok a => wp (f a) tr Q | Err e => Q tr (Err e) end) →
  wp (try_bind p f) pre Q.
Proof. intros Hp. apply wp_bind. eapply wp_mono; [|done]. by intros tr []. Qed.

Lemma wp_prefix {A} (p : prog Ans A) pre Q : wp p pre Q → wp p pre (λ tr a, pre `prefix_of` tr ∧ Q tr a).
Proof.
  revert pre. induction p as [a|op k IH]; intros pre; cbn; [done|]. intros Hk r.
  eapply wp_mono; [|by apply IH]. cbn. intros tr a [Hp HQ]. split; [|done]. etrans; [|exact Hp]. by eexists.
Qed.

(** As [wp], and every call is made when [I] allows it. *)
Fixpoint wpc {A} (I : list event → Op → Prop) (p : prog Ans A) (pre : list event)
    (Q : list event → A → Prop) : Prop :=
  match p with
  | Ret a => Q pre a
  | Do op k => I pre op ∧ ∀ r, wpc I (k r) (pre ++ [ev op r]) Q
  end.

Lemma wpc_mono {A} I (p : prog Ans A) pre (Q R : list event → A → Prop) :
  (∀ tr a, Q tr a → R tr a) → wpc I p pre Q → wpc I p pre R.
Proof.
  intros HQR. revert pre. induction p as [a|op k IH]; intros pre; cbn; [by auto|].
  intros [Hi Hk]. split; [done|]. intros r. apply IH, Hk.
Qed.

Lemma wpc_allow {A} (I J : list event → Op → Prop) (p : prog Ans A) pre Q :
  (∀ pre op, I pre op → J pre op) → wpc I p pre Q → wpc J p pre Q.
Proof.
  intros HIJ. revert pre. induction p as [a|op k IH]; intros pre; cbn; [done|].
  intros [Hi Hk]. split; [by apply HIJ|]. intros r. apply IH, Hk.
Qed.

Lemma wpc_bind {A B} I (p : prog Ans A) (f : A → prog Ans B) pre Q :
  wpc I p pre (λ tr a, wpc I (f a) tr Q) → wpc I (p ≫= f) pre Q.
Proof.
  change (p ≫= f) with (prog_bind f p).
  revert pre. induction p as [a|op k IH]; intros pre; cbn; [done|].
  intros [Hi Hk]. split; [done|]. intros r. apply IH, Hk.
Qed.

Lemma wpc_try {E A B} I (p : prog Ans (result E A)) (f : A → prog Ans (result E B)) pre Q :
  wpc I p pre (λ tr r, match r with Ok a => wpc I (f a) tr Q | Err e => Q tr (Err e) end) →
  wpc I (try_bind p f) pre Q.
Proof. intros Hp. apply wpc_bind. eapply wpc_mono; [|done]. by intros tr []. Qed.

Lemma wpc_call {A} I (p : prog Ans A) pre Q tr a before op r rest :
  wpc I p pre Q → runs p tr a → tr = before ++ ev op r :: rest → I (pre ++ before) op.
Proof.
  intros Hw Hr. revert pre before Hw.
  induction Hr as [a|op' k r' tr a _ IH]; intros pre before Hw E; [by destruct before|].
  destruct Hw as [Hi Hk]. destruct before as [|e before]; cbn in E.
  - injection E as -> _ _.
    by rewrite app_nil_r.
  - injection E as <- E. specialize (IH _ before (Hk r') E). by rewrite <-app_assoc in IH.
Qed.

(** The run in which every call gets the answer [answer] gives it. *)
Fixpoint simulate {A} (answer : ∀ op, Ans op) (p : prog Ans A) : list event * A :=
  match p with
  | Ret a => ([], a)
  | Do op k => let '(tr, a) := simulate answer (k (answer op)) in (ev op (answer op) :: tr, a)
  end.

Lemma simulate_runs {A} answer (p : prog Ans A) :
  runs p (simulate answer p).1 (simulate answer p).2.
Proof.
  induction p as [a|op k IH]; cbn; [constructor|]. specialize (IH (answer op)).
  destruct (simulate answer (k (answer op))) as [tr a]. by constructor.
Qed.
End programs.
Arguments event {_} _.

Declare Scope prog_scope.
Delimit Scope prog_scope with prog.
Notation "x '<-?' e ; k" := (try_bind e (λ x, k)) (at level 100, e at next level, k at level 200, right associativity) : prog_scope.
