(* ===== verification/F64.v ===== *)
(** * Rust's [f64]

    Binary64 numbers as the standard library specifies them, with the
    comparisons and operations the sources use and the order they make. *)

From stdpp Require Import base decidable numbers.
From Stdlib Require Import Lia ZArith Bool SpecFloat.

Definition f64 : Type := spec_float.

Definition f64_zero : f64 := S754_zero false.

Definition f64_lt : f64 → f64 → bool := SFltb.
Definition f64_le : f64 → f64 → bool := SFleb.
Definition f64_gt (a b : f64) : bool := SFltb b a.

Definition f64_is_nan (a : f64) : bool := match a with S754_nan => true | _ => false end.
Definition f64_is_finite (a : f64) : bool :=
  match a with S754_zero _ | S754_finite _ _ _ => true | _ => false end.

(** [f64::min] and [f64::max]: a number wins over a NaN. *)
Definition f64_min (a b : f64) : f64 :=
  if f64_is_nan a then b else if f64_is_nan b then a else if f64_lt a b then a else b.
Definition f64_max (a b : f64) : f64 :=
  if f64_is_nan a then b else if f64_is_nan b then a else if f64_lt b a then a else b.

(** Rounded to the nearest, ties to even. *)
Definition f64_add : f64 → f64 → f64 := SFadd 53 1024.
Definition f64_sub : f64 → f64 → f64 := SFsub 53 1024.

(** ** The order

    A number is placed by sign, exponent and mantissa. *)

Definition f64_key (a : f64) : Z * Z * Z :=
  match a with
  | S754_nan | S754_zero _ => (0, 0, 0)
  | S754_infinity false => (2, 0, 0)
  | S754_infinity true => (-2, 0, 0)
  | S754_finite false m e => (1, e, Zpos m)
  | S754_finite true m e => (-1, - e, Zneg m)
  end%Z.

Definition key_le (a b : Z * Z * Z) : Prop :=
  ((a.1.1 < b.1.1)%Z ∨ a.1.1 = b.1.1 ∧ ((a.1.2 < b.1.2)%Z ∨ a.1.2 = b.1.2 ∧ (a.2 ≤ b.2)%Z)).

Lemma f64_le_key a b :
  f64_le a b = true ↔ f64_is_nan a = false ∧ f64_is_nan b = false ∧ key_le (f64_key a) (f64_key b).
Proof.
  unfold f64_le, SFleb, SFcompare, key_le.
  destruct a as [[]|[]| |[] m e], b as [[]|[]| |[] m' e']; cbn;
    try (split; [intros H; first [done|split_and!; try done; lia]|intros (H1 & H2 & H3); first [done|lia]]).
  all: destruct (Z.compare_spec e e'); cbn;
    try (split; [intros H; first [done|split_and!; try done; lia]
                |intros (_ & _ & ?); first [done|lia]]).
  all: change (PosDef.Pos.compare_cont Eq m m') with (Pos.compare m m').
  all: destruct (Pos.compare_spec m m'); cbn;
    (split; [intros H'; first [done|split_and!; try done; lia]
            |intros (_ & _ & ?); first [done|lia]]).
Qed.

Lemma key_le_trans a b c : key_le a b → key_le b c → key_le a c.
Proof. unfold key_le. lia. Qed.

Lemma f64_le_trans a b c : f64_le a b = true → f64_le b c = true → f64_le a c = true.
Proof.
  rewrite !f64_le_key. intros (H1 & H2 & H3) (_ & H4 & H5). split_and!; [done|done|].
  by eapply key_le_trans.
Qed.

Lemma f64_le_refl a : f64_is_nan a = false → f64_le a a = true.
Proof. intros H. apply f64_le_key. split_and!; [done|done|]. unfold key_le. lia. Qed.

Lemma f64_not_lt a b :
  f64_is_nan a = false → f64_is_nan b = false → f64_lt a b = negb (f64_le b a).
Proof.
  intros Ha Hb. unfold f64_lt, f64_le, SFltb, SFleb, SFcompare.
  destruct a as [[]|[]| |[] m e], b as [[]|[]| |[] m' e']; try done;
    rewrite (Z.compare_antisym e e'); destruct (Z.compare e e'); try done; cbn;
    change (PosDef.Pos.compare_cont Eq m m') with (Pos.compare m m');
    change (PosDef.Pos.compare_cont Eq m' m) with (Pos.compare m' m);
    rewrite (Pos.compare_antisym m m'); by destruct (Pos.compare m m').
Qed.

Lemma f64_lt_le a b : f64_lt a b = true → f64_le a b = true.
Proof. unfold f64_lt, f64_le, SFltb, SFleb. destruct (SFcompare a b) as [[]|]; done. Qed.

Lemma f64_le_nan a b : f64_le a b = true → f64_is_nan a = false ∧ f64_is_nan b = false.
Proof. rewrite f64_le_key. tauto. Qed.

(** The smaller of two numbers is at most each of them. *)
Lemma f64_min_le a b :
  (f64_is_nan a = false → f64_le (f64_min a b) a = true) ∧
  (f64_is_nan b = false → f64_le (f64_min a b) b = true).
Proof.
  unfold f64_min. destruct (f64_is_nan a) eqn:Ha; [split; [done|intros; by apply f64_le_refl]|].
  destruct (f64_is_nan b) eqn:Hb; [split; [intros; by apply f64_le_refl|done]|].
  destruct (f64_lt a b) eqn:E.
  - split; intros _; [by apply f64_le_refl|by apply f64_lt_le].
  - rewrite f64_not_lt in E by done. apply negb_false_iff in E.
    split; intros _; [done|by apply f64_le_refl].
Qed.

Lemma f64_min_nan a b : f64_is_nan b = false → f64_is_nan (f64_min a b) = false.
Proof.
  intros Hb. unfold f64_min. destruct (f64_is_nan a) eqn:Ha; [done|]. rewrite Hb.
  by destruct (f64_lt a b).
Qed.
