(* ===== verification/Parser.v ===== *)
(** * The prompt and rules parsers ([cctui-guard/src/parser.rs])

    Prompt markdown is read line by line by a small state machine
    ([ParseState]) into numbered steps; a guard-rules document is read into
    named keyword sets.  Every field of a parsed [Step] holds the raw string of
    the prompt.  A [u32] is an [N] bounded where it is parsed; a
    [BTreeMap<u32, _>] is a [gmap N _] iterated in key order. *)

From stdpp Require Import base decidable list gmap strings sorting.
From Stdlib Require Import Lia ZArith Bool Ascii String.
From S2P Require Import Prelude RustStr.

(** ** Data *)

Definition MAX_JUDGE_QUESTIONS : nat := 12.

Record JudgeQuestion := mkQuestion { question : string; violation : string }.

Record ParseError := mkParseError { pe_step : N; pe_message : string }.

(** [Display for ParseError]. *)
Definition ParseError_to_string (e : ParseError) : string :=
  "Step " ++s u32_to_string (pe_step e) ++s ": " ++s pe_message e.

(** How parsing can fail: a reported [ParseError], or a panic (a string slice
    that is not on a character boundary). *)
Inductive parse_fail := Reported (e : ParseError) | Panic.

Abbreviation parse := (result parse_fail).

Definition perr {A} (step : N) (message : string) : parse A :=
  Err (Reported (mkParseError step message)).

Record Step := mkStep {
  st_title : string;
  st_allowed : string;
  st_disallowed : string;
  st_transition : string;
  st_network : string;
  st_body : string;
  st_gate : string;
  st_compact : bool;
  st_llmjudge : list JudgeQuestion;
  st_max_visits : option N;
  st_transition_gates : gmap N string;
}.

Definition Step_default : Step := mkStep "" "" "" "" "" "" "" false [] None ∅.

Definition set_title v s := mkStep v (st_allowed s) (st_disallowed s) (st_transition s)
  (st_network s) (st_body s) (st_gate s) (st_compact s) (st_llmjudge s) (st_max_visits s)
  (st_transition_gates s).
Definition set_allowed v s := mkStep (st_title s) v (st_disallowed s) (st_transition s)
  (st_network s) (st_body s) (st_gate s) (st_compact s) (st_llmjudge s) (st_max_visits s)
  (st_transition_gates s).
Definition set_disallowed v s := mkStep (st_title s) (st_allowed s) v (st_transition s)
  (st_network s) (st_body s) (st_gate s) (st_compact s) (st_llmjudge s) (st_max_visits s)
  (st_transition_gates s).
Definition set_transition v s := mkStep (st_title s) (st_allowed s) (st_disallowed s) v
  (st_network s) (st_body s) (st_gate s) (st_compact s) (st_llmjudge s) (st_max_visits s)
  (st_transition_gates s).
Definition set_network v s := mkStep (st_title s) (st_allowed s) (st_disallowed s)
  (st_transition s) v (st_body s) (st_gate s) (st_compact s) (st_llmjudge s) (st_max_visits s)
  (st_transition_gates s).
Definition set_body v s := mkStep (st_title s) (st_allowed s) (st_disallowed s)
  (st_transition s) (st_network s) v (st_gate s) (st_compact s) (st_llmjudge s)
  (st_max_visits s) (st_transition_gates s).
Definition set_gate v s := mkStep (st_title s) (st_allowed s) (st_disallowed s)
  (st_transition s) (st_network s) (st_body s) v (st_compact s) (st_llmjudge s)
  (st_max_visits s) (st_transition_gates s).
Definition set_compact v s := mkStep (st_title s) (st_allowed s) (st_disallowed s)
  (st_transition s) (st_network s) (st_body s) (st_gate s) v (st_llmjudge s)
  (st_max_visits s) (st_transition_gates s).
Definition set_llmjudge v s := mkStep (st_title s) (st_allowed s) (st_disallowed s)
  (st_transition s) (st_network s) (st_body s) (st_gate s) (st_compact s) v
  (st_max_visits s) (st_transition_gates s).
Definition set_max_visits v s := mkStep (st_title s) (st_allowed s) (st_disallowed s)
  (st_transition s) (st_network s) (st_body s) (st_gate s) (st_compact s) (st_llmjudge s) v
  (st_transition_gates s).
Definition set_transition_gates v s := mkStep (st_title s) (st_allowed s) (st_disallowed s)
  (st_transition s) (st_network s) (st_body s) (st_gate s) (st_compact s) (st_llmjudge s)
  (st_max_visits s) v.

(** ** Headings and fences *)

Definition heading_body (line : string) : option string :=
  let after_hashes := trim_start_matches (Ascii.eqb "#") line in
  let hash_count := (String.length line - String.length after_hashes)%nat in
  if negb ((1 <=? hash_count)%nat && (hash_count <=? 6)%nat) then None else
  if negb (starts_with_ws after_hashes) then None else
  Some (trim_start after_hashes).

Definition parse_step_heading (line : string) : option (N * string) :=
  body ← heading_body line;
  rest ← strip_prefix "step" (to_ascii_lowercase body);
  if negb (starts_with_ws rest) then None else
  let after_step := trim_start (sdrop 4 body) in
  let '(digits, tail) := span_chars is_ascii_digit after_step in
  if is_empty digits then None else
  num ← parse_u32 digits;
  Some (num, trim (trim_start_or_ws (Ascii.eqb ":") tail)).

Record Fence := mkFence { fence_ch : ascii; fence_len : nat; fence_info : string }.

Definition fence_marker (stripped : string) : option Fence :=
  match stripped with
  | "" => None
  | String ch _ =>
    if negb (ascii_in ["`"%char; "~"%char] ch) then None else
    let '(run, tail) := span_chars (Ascii.eqb ch) stripped in
    let len := String.length run in
    if (len <? 3)%nat then None else
    let info := trim tail in
    if Ascii.eqb ch "`" && contains_char (Ascii.eqb "`") info then None
    else Some (mkFence ch len info)
  end.

Definition parse_judge_question (item : string) (step : N) : parse JudgeQuestion :=
  let item := trim item in
  if is_empty item then perr step "[llmjudge] question line is empty" else
  let '(q, v) :=
    match split_once_str "::" item with
    | Some (q, v) => (trim_end q, trim_start v)
    | None => (item, "")
    end in
  if is_empty q then perr step "[llmjudge] question text is empty"
  else Ok (mkQuestion q v).

Definition is_guard_fence (info : string) : bool :=
  match split_whitespace info with
  | w :: _ => w ==s "guard"
  | [] => false
  end.

(** ** [guard] fenced blocks *)

Record GuardTransition := mkGT { gt_to : N; gt_gate : option string }.

Record GuardBlock := mkGB {
  gb_max_visits : option N;
  gb_transitions : list GuardTransition;
  gb_exit : bool;
}.

Definition GuardBlock_default : GuardBlock := mkGB None [] false.

(** The loop of [split_top_level]: pieces so far (in order), the pending
    buffer, the bracket depth and the open quote. *)
Fixpoint split_top_level_from (delim : ascii) (out : list string) (buf : string) (depth : Z)
    (quote : option ascii) (s : string) : list string :=
  match s with
  | "" => if is_empty (trim buf) then out else out ++ [trim buf]
  | String c r =>
    let buf' := buf ++s String c "" in
    match quote with
    | Some q =>
      split_top_level_from delim out buf' depth (if Ascii.eqb c q then None else quote) r
    | None =>
      if Ascii.eqb c dquote || Ascii.eqb c "'" then
        split_top_level_from delim out buf' depth (Some c) r
      else if Ascii.eqb c "[" || Ascii.eqb c "{" then
        split_top_level_from delim out buf' (depth + 1) None r
      else if Ascii.eqb c "]" || Ascii.eqb c "}" then
        split_top_level_from delim out buf' (depth - 1) None r
      else if Ascii.eqb c delim && (depth =? 0)%Z then
        split_top_level_from delim (out ++ [trim buf]) "" depth None r
      else split_top_level_from delim out buf' depth None r
    end
  end.

Definition split_top_level (s : string) (delim : ascii) : list string :=
  split_top_level_from delim [] "" 0 None s.

(** [s[1..s.len()-1]] when [s] is at least two bytes long and starts and ends
    with [q]. *)
Definition quoted_by (q : ascii) (s : string) : option string :=
  match s with
  | String c r => if Ascii.eqb c q then strip_suffix (String q "") r else None
  | "" => None
  end.

Definition unquote (s : string) : string :=
  let s := trim s in
  match quoted_by dquote s with
  | Some r => r
  | None => match quoted_by "'" s with Some r => r | None => s end
  end.

Definition guard_item_field (step : N) (acc : option N * option string) (pair : string) :
    parse (option N * option string) :=
  let '(to, gate) := acc in
  match split_once (Ascii.eqb ":") pair with
  | None =>
    perr step ("guard block: transition field `" ++s pair ++s "` is not `key: value`")
  | Some (key, value) =>
    let key := trim key in
    if key ==s "to" then
      match parse_u32 (trim value) with
      | Some n => Ok (Some n, gate)
      | None => perr step ("guard block: `to` is not a step number: " ++s trim value)
      end
    else if key ==s "gate" then
      let g := unquote value in
      Ok (to, if is_empty (trim g) then None else Some g)
    else perr step ("guard block: unknown transition field `" ++s key ++s "`")
  end.

Definition guard_item_fields (raw : string) (to : option N) (gate : option string) (step : N) :
    parse (option N * option string) :=
  let inner :=
    trim_end_matches (Ascii.eqb "}") (trim_start_matches (Ascii.eqb "{") (trim raw)) in
  try_fold (guard_item_field step) (to, gate) (split_top_level inner ",").

Definition missing_to {A} (step : N) : parse A :=
  perr step "guard block: a transition item is missing `to`".

Definition flow_item (step : N) (out : list GuardTransition) (group : string) :
    parse (list GuardTransition) :=
  '(to, gate) ← guard_item_fields group None None step;
  match to with
  | Some n => Ok (out ++ [mkGT n gate])
  | None => missing_to step
  end.

Definition parse_flow_transitions (raw : string) (step : N) : parse (list GuardTransition) :=
  match strip_prefix "[" (trim raw) ≫= strip_suffix "]" with
  | None => perr step "guard block: flow `transitions` must be a `[ ... ]` list"
  | Some inner => try_fold (flow_item step) [] (split_top_level inner ",")
  end.

(** The mutable locals of [parse_guard_block]. *)
Record BlockState := mkBS {
  bs_block : GuardBlock;
  bs_in_list : bool;
  bs_to : option N;
  bs_gate : option string;
  bs_building : bool;
}.

Definition flush (step : N) (s : BlockState) : parse BlockState :=
  if bs_building s then
    match bs_to s with
    | None => missing_to step
    | Some n =>
      let b := bs_block s in
      Ok (mkBS (mkGB (gb_max_visits b) (gb_transitions b ++ [mkGT n (bs_gate s)]) (gb_exit b))
               (bs_in_list s) None None false)
    end
  else Ok s.

(** A top-level [key: value] line of the block. *)
Definition block_key (step : N) (stripped : string) (s : BlockState) : parse BlockState :=
  let b := bs_block s in
  match split_once (Ascii.eqb ":") stripped with
  | None => perr step ("guard block: `" ++s stripped ++s "` is not `key: value`")
  | Some (key, value) =>
    let key := trim key in
    let value := trim value in
    if (key ==s "max-visits") || (key ==s "max_visits") then
      match parse_u32 value with
      | Some n =>
        Ok (mkBS (mkGB (Some n) (gb_transitions b) (gb_exit b)) (bs_in_list s) (bs_to s)
                 (bs_gate s) (bs_building s))
      | None => perr step ("guard block: max-visits is not a number: " ++s value)
      end
    else if key ==s "exit" then
      let v := to_ascii_lowercase value in
      Ok (mkBS (mkGB (gb_max_visits b) (gb_transitions b)
                     ((v ==s "true") || (v ==s "yes") || (v ==s "1")))
               (bs_in_list s) (bs_to s) (bs_gate s) (bs_building s))
    else if key ==s "transitions" then
      if is_empty value then
        Ok (mkBS b true (bs_to s) (bs_gate s) (bs_building s))
      else if starts_with "[" value then
        ts ← parse_flow_transitions value step;
        Ok (mkBS (mkGB (gb_max_visits b) ts (gb_exit b)) (bs_in_list s) (bs_to s) (bs_gate s)
                 (bs_building s))
      else perr step ("guard block: `transitions` must be a `[...]` flow list or a " ++s
                      "block list of `- to:` items")
    else perr step ("guard block: unknown key `" ++s key ++s "`")
  end.

Definition item_line (step : N) (fields : string) (s : BlockState) : parse BlockState :=
  '(to, gate) ← guard_item_fields fields (bs_to s) (bs_gate s) step;
  Ok (mkBS (bs_block s) (bs_in_list s) to gate true).

Definition leading_ws (l : string) : nat :=
  (String.length l - String.length (trim_start l))%nat.

Definition block_line (base : nat) (step : N) (s : BlockState) (raw : string) :
    parse BlockState :=
  if is_empty (trim raw) || starts_with "#" (trim_start raw) then Ok s else
  dedented ← (if (base <=? String.length raw)%nat then
                if is_char_boundary base raw then Ok (sdrop base raw) else Err Panic
              else Ok (trim_start raw) : parse string);
  let indent := leading_ws dedented in
  let stripped := trim dedented in
  if (indent =? 0)%nat then
    s ← flush step s;
    block_key step stripped (mkBS (bs_block s) false (bs_to s) (bs_gate s) (bs_building s))
  else if bs_in_list s then
    match strip_prefix "-" stripped with
    | Some rest =>
      s ← flush step s;
      item_line step rest s
    | None =>
      if bs_building s then item_line step stripped s
      else perr step ("guard block: stray line in `transitions`: " ++s stripped)
    end
  else perr step ("guard block: unexpected indented line: " ++s stripped).

Definition block_base (ls : list string) : nat :=
  match leading_ws <$> filter (λ l, is_empty (trim l) = false) ls with
  | [] => 0
  | x :: l => foldr Nat.min x l
  end.

Definition parse_guard_block (content : string) (step : N) : parse GuardBlock :=
  let ls := lines content in
  s ← try_fold (block_line (block_base ls) step)
        (mkBS GuardBlock_default false None None false) ls;
  s ← flush step s;
  Ok (bs_block s).

(** ** Transitions *)

(** The loop of [extract_numbers]: [cur] is the pending run of digits. *)
Definition push_number (cur : string) (l : list N) : list N :=
  if is_empty cur then l else
  match parse_u32 cur with Some n => n :: l | None => l end.

Fixpoint extract_numbers_from (cur s : string) : list N :=
  match s with
  | "" => push_number cur []
  | String c r =>
    if is_ascii_digit c then extract_numbers_from (cur ++s String c "") r
    else push_number cur (extract_numbers_from "" r)
  end.

Definition extract_numbers : string → list N := extract_numbers_from "".

Definition parse_transitions (transition : string) : list N * bool :=
  (extract_numbers transition, contains "exit" (to_ascii_lowercase transition)).

Definition block_target (acc : list N * gmap N string) (t : GuardTransition) :
    list N * gmap N string :=
  let '(nums, gates) := acc in
  (if bool_decide (gt_to t ∈ nums) then nums else nums ++ [gt_to t],
   match gt_gate t with Some g => <[gt_to t := g]> gates | None => gates end).

(** The [[transition]] value an authored list is written back to. *)
Definition render_transitions (nums : list N) (exit : bool) : string :=
  join ", " ((u32_to_string <$> nums) ++ (if exit then ["Exit"] else [])).

Definition apply_guard_block (step : Step) (block : GuardBlock) : Step :=
  let step := match gb_max_visits block with
              | Some mv => set_max_visits (Some mv) step
              | None => step
              end in
  let '(nums, exit) := parse_transitions (st_transition step) in
  let '(nums, gates) :=
    fold_left block_target (gb_transitions block) (nums, st_transition_gates step) in
  set_transition (render_transitions nums (exit || gb_exit block))
    (set_transition_gates gates step).

(** ** Annotations *)

Inductive Field := FAllowed | FDisallowed | FTransition | FNetwork | FGate | FCompact.
Inductive Annotation := AField (f : Field) | ALlmJudge.

Definition TAGS : list (string * Annotation) := [
  ("[llmjudge]", ALlmJudge);
  ("[allowed]", AField FAllowed);
  ("[disallowed]", AField FDisallowed);
  ("[transition]", AField FTransition);
  ("[network]", AField FNetwork);
  ("[gate]", AField FGate);
  ("[compact]", AField FCompact)].

Definition Annotation_of (lower : string) : option Annotation :=
  snd <$> List.find (λ ta : string * Annotation, starts_with ta.1 lower) TAGS.

Definition annotation_value (stripped : string) : string :=
  match split_once (Ascii.eqb ":") stripped with Some (_, v) => trim v | None => "" end.

Definition compact_flag (value : string) : bool :=
  is_empty value ||
  let v := to_ascii_lowercase value in
  (v ==s "true") || (v ==s "yes") || (v ==s "on") || (v ==s "1").

(** ** The step parser *)

Record ParseState := mkPS {
  ps_steps : gmap N Step;
  ps_bodies : gmap N (list string);
  ps_guard_raw : gmap N (list string);
  ps_current : option N;
  ps_judged : gset N;
  ps_judge_open : bool;
  ps_fence : option Fence;
}.

Definition ParseState_default : ParseState := mkPS ∅ ∅ ∅ None ∅ false None.

Definition with_steps v s := mkPS v (ps_bodies s) (ps_guard_raw s) (ps_current s) (ps_judged s)
  (ps_judge_open s) (ps_fence s).
Definition with_bodies v s := mkPS (ps_steps s) v (ps_guard_raw s) (ps_current s) (ps_judged s)
  (ps_judge_open s) (ps_fence s).
Definition with_guard_raw v s := mkPS (ps_steps s) (ps_bodies s) v (ps_current s) (ps_judged s)
  (ps_judge_open s) (ps_fence s).
Definition with_judged v s := mkPS (ps_steps s) (ps_bodies s) (ps_guard_raw s) (ps_current s) v
  (ps_judge_open s) (ps_fence s).
Definition with_judge_open v s := mkPS (ps_steps s) (ps_bodies s) (ps_guard_raw s)
  (ps_current s) (ps_judged s) v (ps_fence s).
Definition with_fence v s := mkPS (ps_steps s) (ps_bodies s) (ps_guard_raw s) (ps_current s)
  (ps_judged s) (ps_judge_open s) v.

Definition push_body (cur : N) (text : string) (s : ParseState) : ParseState :=
  with_bodies (alter (λ b, b ++ [text]) cur (ps_bodies s)) s.

Definition close_judge (cur : N) (s : ParseState) : parse unit :=
  match ps_steps s !! cur with
  | Some st =>
    if bool_decide (st_llmjudge st = []) then
      perr cur "[llmjudge] must be immediately followed by at least one `- <question>` line"
    else Ok tt
  | None => Ok tt
  end.

(** [if self.judge_open && let Some(cur) = self.current { self.close_judge(cur)?; .. }] *)
Definition close_open_judge (s : ParseState) : parse ParseState :=
  match ps_judge_open s, ps_current s with
  | true, Some cur => _ ← close_judge cur s; Ok (with_judge_open false s)
  | _, _ => Ok s
  end.

Definition fence_closes (open : Fence) (stripped : string) : bool :=
  match fence_marker stripped with
  | Some f =>
    Ascii.eqb (fence_ch f) (fence_ch open) && (fence_len open <=? fence_len f)%nat &&
    is_empty (fence_info f)
  | None => false
  end.

Definition absorb_fence (raw : string) (s : ParseState) : parse (bool * ParseState) :=
  let stripped := trim raw in
  match ps_fence s with
  | Some open =>
    if fence_closes open stripped then Ok (true, with_fence None s) else
    match ps_current s with
    | Some cur =>
      if is_guard_fence (fence_info open) then
        Ok (true, with_guard_raw
                    (<[cur := default [] (ps_guard_raw s !! cur) ++ [raw]]> (ps_guard_raw s)) s)
      else Ok (true, push_body cur stripped s)
    | None => Ok (true, s)
    end
  | None =>
    match fence_marker stripped with
    | Some f =>
      s ← close_open_judge s;
      let s := match ps_current s with
               | Some cur =>
                 if is_guard_fence (fence_info f) then s else push_body cur stripped s
               | None => s
               end in
      Ok (true, with_fence (Some f) s)
    | None => Ok (false, s)
    end
  end.

Definition open_step (num : N) (title : string) (s : ParseState) : parse ParseState :=
  s ← close_open_judge s;
  Ok (mkPS (<[num := set_title title Step_default]> (ps_steps s))
           (<[num := []]> (ps_bodies s)) (ps_guard_raw s) (Some num) (ps_judged s) false
           (ps_fence s)).

Definition open_judge (cur : N) (value : string) (s : ParseState) : parse ParseState :=
  if bool_decide (cur ∈ ps_judged s) then perr cur "duplicate [llmjudge] block" else
  if negb (is_empty value) then
    perr cur ("[llmjudge] takes no inline value — list one `- <question>` (optionally " ++s
              "`- <question> :: <violation example>`) per line below it")
  else Ok (with_judge_open true (with_judged ({[cur]} ∪ ps_judged s) s)).

Definition set_field (f : Field) (value : string) (st : Step) : Step :=
  match f with
  | FAllowed => set_allowed value st
  | FDisallowed => set_disallowed value st
  | FTransition => set_transition value st
  | FNetwork => set_network value st
  | FGate => set_gate value st
  | FCompact => set_compact (compact_flag value) st
  end.

Definition apply_annotation (cur : N) (ann : Annotation) (stripped : string) (s : ParseState) :
    parse ParseState :=
  let value := annotation_value stripped in
  match ann with
  | ALlmJudge => open_judge cur value s
  | AField f => Ok (with_steps (alter (set_field f value) cur (ps_steps s)) s)
  end.

Definition push_judge_question (cur : N) (item : string) (s : ParseState) : parse ParseState :=
  q ← parse_judge_question item cur;
  match ps_steps s !! cur with
  | Some st =>
    if (MAX_JUDGE_QUESTIONS <=? List.length (st_llmjudge st))%nat then
      perr cur ("[llmjudge] has more than " ++s nat_to_string MAX_JUDGE_QUESTIONS ++s
                " questions — decompose into fewer, more atomic conditions")
    else Ok (with_steps (<[cur := set_llmjudge (st_llmjudge st ++ [q]) st]> (ps_steps s)) s)
  | None => Ok s
  end.

Definition feed (s : ParseState) (raw : string) : parse ParseState :=
  '(absorbed, s) ← absorb_fence raw s;
  if (absorbed : bool) then Ok s else
  let stripped := trim raw in
  match parse_step_heading stripped with
  | Some (num, title) => open_step num title s
  | None =>
    match ps_current s with
    | None => Ok s
    | Some cur =>
      match ps_judge_open s, strip_prefix "-" stripped with
      | true, Some item => push_judge_question cur item s
      | _, _ =>
        s ← close_open_judge s;
        match Annotation_of (to_ascii_lowercase stripped) with
        | None => Ok (push_body cur stripped s)
        | Some ann => apply_annotation cur ann stripped s
        end
      end
    end
  end.

Definition finalize_body (steps : gmap N Step) (nb : N * list string) : gmap N Step :=
  alter (set_body (trim (join nl nb.2))) nb.1 steps.

Definition finalize_bodies (steps : gmap N Step) (bodies : gmap N (list string)) : gmap N Step :=
  fold_left finalize_body (btree_iter bodies) steps.

Definition apply_one_block (steps : gmap N Step) (nb : N * list string) : parse (gmap N Step) :=
  block ← parse_guard_block (join nl nb.2) nb.1;
  Ok (alter (λ st, apply_guard_block st block) nb.1 steps).

Definition apply_guard_blocks (steps : gmap N Step) (guard_raw : gmap N (list string)) :
    parse (gmap N Step) :=
  try_fold apply_one_block steps (btree_iter guard_raw).

Definition finish (s : ParseState) : parse (gmap N Step) :=
  s ← close_open_judge s;
  apply_guard_blocks (finalize_bodies (ps_steps s) (ps_bodies s)) (ps_guard_raw s).

Definition parse_steps (markdown : string) : parse (gmap N Step) :=
  s ← try_fold feed ParseState_default (split_char newline markdown);
  finish s.

(** Heading numbers in document order, fences skipped. *)
Definition heading_step (acc : list N * option Fence) (line : string) : list N * option Fence :=
  let '(out, fence) := acc in
  let stripped := trim line in
  match fence with
  | Some open => (out, if fence_closes open stripped then None else fence)
  | None =>
    match fence_marker stripped with
    | Some f => (out, Some f)
    | None =>
      match parse_step_heading stripped with
      | Some (num, _) => (out ++ [num], None)
      | None => (out, None)
      end
    end
  end.

Definition step_heading_numbers (markdown : string) : list N :=
  (fold_left heading_step (split_char newline markdown) ([], None)).1.

(** ** Keyword sets *)

Abbreviation ToolSets := (gmap string (list string)).

(** [expand_set] with its [seen] set and [out] vector threaded.  A set is
    entered at most once, so the number of sets bounds the depth; [fuel] is
    that bound and [expand_fuel] shows it suffices. *)
Fixpoint expand_go (fuel : nat) (tool_sets : ToolSets) (seen : gset string) (name : string) :
    gset string * list string :=
  match fuel with
  | O => (seen, [name])
  | S fuel =>
    match tool_sets !! name with
    | Some members =>
      if decide (name ∈ seen) then (seen, [name]) else
      fold_left
        (λ acc member,
          let '(seen, out) := acc in
          let '(seen', out') := expand_go fuel tool_sets seen member in
          (seen', out ++ out'))
        members ({[name]} ∪ seen, [])
    | None => (seen, [name])
    end
  end.

(** Enough fuel for any call: one level per set, and one for the leaf. *)
Definition expand_fuel (tool_sets : ToolSets) : nat := S (size tool_sets).

(** [expand_set(name, sets, &mut HashSet::new(), &mut out)]. *)
Definition expand_set (tool_sets : ToolSets) (name : string) : list string :=
  (expand_go (expand_fuel tool_sets) tool_sets ∅ name).2.

Definition csv (s : string) : list string :=
  filter (λ x, is_empty x = false) (trim <$> split_char "," s).

Definition parse_keywords (rule : string) (tool_sets : ToolSets) : list string :=
  let stripped := trim rule in
  if is_empty stripped then []
  else if stripped ==s "*" then ["*"]
  else mjoin (expand_set tool_sets <$> csv stripped).

(** [[name]: a, b] replaces, [[name]+: a, b] extends. *)
Definition parse_set_definition (line : string) : option (string * list string * bool) :=
  rest ← strip_prefix "[" line;
  '(name, tail) ← split_once (Ascii.eqb "]") rest;
  if is_empty name ||
     negb (all_chars (λ c, is_ascii_alphanumeric c || Ascii.eqb c "_" || Ascii.eqb c "-") name)
  then None else
  let after := trim_start tail in
  let '(after, extend) :=
    match strip_prefix "+" after with
    | Some r => (trim_start r, true)
    | None => (after, false)
    end in
  members_str ← strip_prefix ":" after;
  Some (name, csv members_str, extend).

Definition is_rules_line (stripped : string) : bool :=
  negb (is_empty stripped || starts_with "#" stripped).

Definition rules_definitions (text : string) : list (string * list string * bool) :=
  omap (λ line, let stripped := trim line in
                if is_rules_line stripped then parse_set_definition stripped else None)
       (lines text).

(** One definition applied to the set map. *)
Definition apply_definition (sets : ToolSets) (d : string * list string * bool) : ToolSets :=
  let '(name, members, extend) := d in
  if (extend : bool) then <[name := default [] (sets !! name) ++ members]> sets
  else <[name := members]> sets.

(** [parse_guard_rules_into]: the same loop as [rules_definitions] with each
    definition applied as it is read. *)
Definition parse_guard_rules_into (text : string) (tool_sets : ToolSets) : ToolSets :=
  fold_left
    (λ sets line,
      let stripped := trim line in
      if is_rules_line stripped then
        match parse_set_definition stripped with
        | Some d => apply_definition sets d
        | None => sets
        end
      else sets)
    (lines text) tool_sets.

Definition parse_guard_rules_str (text : string) : ToolSets := parse_guard_rules_into text ∅.

(** A rules path on disk: absent, unreadable, or its text. *)
Inductive RulesFile := Missing | Unreadable (e : string) | Readable (text : string).

(** [parse_guard_rules_files]: a missing file is skipped, an unreadable one is
    an error, the others are layered in order. *)
Definition parse_guard_rules_files (files : list RulesFile) : result string ToolSets :=
  try_fold
    (λ sets f, match f with
               | Missing => Ok sets
               | Unreadable e => Err e
               | Readable text => Ok (parse_guard_rules_into text sets)
               end)
    ∅ files.

Definition RESERVED_HEADERS : list string := ["guard"; "network-default"; "rules"].

(** The lines above the first [#] line. *)
Fixpoint prelude_lines (ls : list string) : list string :=
  match ls with
  | [] => []
  | l :: ls => let stripped := trim l in
               if starts_with "#" stripped then [] else stripped :: prelude_lines ls
  end.

Definition parse_prompt_sets (markdown : string) : list (string * list string * bool) :=
  omap (λ stripped,
          match parse_set_definition stripped with
          | Some (name, members, extend) =>
            if decide (name ∈ RESERVED_HEADERS) then None else Some (name, members, extend)
          | None => None
          end)
       (prelude_lines (lines markdown)).

Definition parse_rules_imports (markdown : string) : list string :=
  omap (λ stripped,
          if starts_with "[rules]" (to_ascii_lowercase stripped) then
            match split_once (Ascii.eqb ":") stripped with
            | Some (_, value) => let path := trim value in
                                 if is_empty path then None else Some path
            | None => None
            end
          else None)
       (prelude_lines (lines markdown)).

#[global] Arguments trim : simpl never.
#[global] Arguments parse_set_definition : simpl never.
#[global] Arguments parse_step_heading : simpl never.
#[global] Arguments fence_marker : simpl never.
#[global] Arguments parse_transitions : simpl never.
#[global] Arguments expand_set : simpl never.
#[global] Arguments csv : simpl never.
