(* ===== verification/ParserFacts.v ===== *)
(** * Correctness of the prompt and rules parsers

    What [Parser.v] guarantees: the transition list a guard block is merged
    into is read back exactly, set expansion is the source's recursion and
    reaches every keyword, parsed steps are well formed, fenced text is inert,
    and the linter's heading scan agrees with the parser. *)

From stdpp Require Import base decidable list gmap strings sorting.
From Stdlib Require Import Lia ZArith Bool Ascii String.
From S2P Require Import Prelude RustStr Parser.

(** ** Reference definitions *)

(** [expand_set] as the recursion of the source, without fuel: what one call
    does to [seen] and appends to [out]. *)
Inductive Expand (sets : ToolSets) : gset string → string → gset string → list string → Prop :=
| Expand_leaf seen name :
    sets !! name = None → Expand sets seen name seen [name]
| Expand_seen seen name ms :
    sets !! name = Some ms → name ∈ seen → Expand sets seen name seen [name]
| Expand_set seen name ms seen' out :
    sets !! name = Some ms → name ∉ seen →
    ExpandList sets ({[name]} ∪ seen) ms seen' out →
    Expand sets seen name seen' out
with ExpandList (sets : ToolSets) : gset string → list string → gset string → list string → Prop :=
| ExpandList_nil seen : ExpandList sets seen [] seen []
| ExpandList_cons seen m ms seen1 out1 seen2 out2 :
    Expand sets seen m seen1 out1 → ExpandList sets seen1 ms seen2 out2 →
    ExpandList sets seen (m :: ms) seen2 (out1 ++ out2).

(** [k] is named by [name] through zero or more set memberships. *)
Inductive Mentions (sets : ToolSets) (name : string) : string → Prop :=
| Mentions_self : Mentions sets name name
| Mentions_member k ms m :
    Mentions sets name k → sets !! k = Some ms → m ∈ ms → Mentions sets name m.

(** ** Lemmas *)

Scheme Expand_ind2 := Induction for Expand Sort Prop
  with ExpandList_ind2 := Induction for ExpandList Sort Prop.
Combined Scheme Expand_mutind from Expand_ind2, ExpandList_ind2.

(** *** Transitions *)

Lemma extract_digits cur d s :
  all_chars is_ascii_digit d = true →
  extract_numbers_from cur (d ++s s) = extract_numbers_from (cur ++s d) s.
Proof.
  revert cur. induction d as [|c d IH]; intros cur; cbn; [by rewrite app_nil_s|].
  intros Hd. bool_hyps.
  match goal with H : is_ascii_digit c = true |- _ => rewrite H end.
  rewrite IH by done. by rewrite app_assoc_s.
Qed.

Lemma push_number_to_string n l :
  (n ≤ u32_max)%N → push_number (u32_to_string n) l = n :: l.
Proof.
  intros Hn. unfold push_number, is_empty.
  destruct (String.eqb_spec (u32_to_string n) ""); [by destruct (to_string_nonempty n)|].
  by rewrite parse_u32_to_string.
Qed.

Lemma extract_render nums (tl : list string) :
  Forall (λ n, n ≤ u32_max)%N nums →
  Forall (λ t, extract_numbers t = []) tl →
  (List.length tl ≤ 1)%nat →
  extract_numbers (join ", " ((u32_to_string <$> nums) ++ tl)) = nums.
Proof.
  intros Hn Ht Hl. unfold extract_numbers.
  induction Hn as [|n nums Hn Hns IH]; cbn [fmap list_fmap app].
  - destruct tl as [|t [|]]; cbn in *; [done| |lia]. by apply Forall_inv in Ht.
  - remember ((u32_to_string <$> nums) ++ tl) as rest eqn:Hrest.
    destruct rest as [|r rest].
    + cbn. rewrite <- (app_nil_s (u32_to_string n)), extract_digits by apply to_string_digits.
      cbn. rewrite push_number_to_string by done. f_equal.
      by apply symmetry, app_eq_nil in Hrest as [->%fmap_nil_inv _].
    + cbn [join]. rewrite extract_digits by apply to_string_digits. cbn.
      rewrite push_number_to_string by done. f_equal. apply IH.
Qed.

Lemma contains_has_char n s c :
  contains n s = true → contains_char (Ascii.eqb c) n = true →
  contains_char (Ascii.eqb c) s = true.
Proof.
  intros (a & b & ->)%contains_spec. rewrite !contains_char_all, !all_chars_app.
  rewrite !negb_true_iff. intros ->. by rewrite andb_false_r.
Qed.

Lemma to_lower_app a b :
  to_ascii_lowercase (a ++s b) = to_ascii_lowercase a ++s to_ascii_lowercase b.
Proof. induction a as [|c a IH]; cbn; [done|]. by rewrite IH. Qed.

Lemma join_snoc sep l x : ∃ a, join sep (l ++ [x]) = a ++s x.
Proof.
  induction l as [|y l IH]; cbn; [by exists ""|].
  destruct IH as [a Ha]. destruct (l ++ [x]) as [|z r] eqn:E.
  - by apply app_eq_nil in E as [_ ?].
  - exists (y ++s sep ++s a). by rewrite Ha, !app_assoc_s.
Qed.

Lemma join_cons2 sep x y l : join sep (x :: y :: l) = x ++s sep ++s join sep (y :: l).
Proof. done. Qed.

(** The characters of a rendered number list: digits, commas and spaces. *)
Lemma render_no_letter nums :
  all_chars (λ c, is_ascii_digit c || Ascii.eqb c "," || Ascii.eqb c " ")
    (join ", " (u32_to_string <$> nums)) = true.
Proof.
  assert (∀ n, all_chars (λ c, is_ascii_digit c || Ascii.eqb c "," || Ascii.eqb c " ")
                 (u32_to_string n) = true) as Hn.
  { intros n. eapply all_chars_impl, to_string_digits. by intros c ->. }
  induction nums as [|n [|m nums] IH]; [done|apply Hn|].
  rewrite !fmap_cons, join_cons2, !all_chars_app, Hn, <- fmap_cons, IH. done.
Qed.

Lemma no_exit_rendered s :
  all_chars (λ c, is_ascii_digit c || Ascii.eqb c "," || Ascii.eqb c " ") s = true →
  contains "exit" (to_ascii_lowercase s) = false.
Proof.
  intros Hs. apply not_true_is_false. intros H.
  apply (contains_has_char _ _ "e") in H; [|done].
  rewrite contains_char_all, negb_true_iff in H.
  assert (all_chars (λ c, negb (Ascii.eqb "e" c)) (to_ascii_lowercase s) = true); [|congruence].
  clear H. induction s as [|c s IH]; cbn in *; [done|].
  apply andb_true_iff in Hs as [Hc Hs]. rewrite IH by done. rewrite andb_true_r.
  by destruct c as [[] [] [] [] [] [] [] []].
Qed.

Lemma parse_render nums exit :
  Forall (λ n, n ≤ u32_max)%N nums →
  parse_transitions (render_transitions nums exit) = (nums, exit).
Proof.
  intros Hn. unfold parse_transitions, render_transitions. f_equal.
  - apply extract_render; [done| |]; destruct exit; cbn; repeat constructor; lia.
  - destruct exit.
    + destruct (join_snoc ", " (u32_to_string <$> nums) "Exit") as [a ->].
      rewrite to_lower_app. by apply contains_app_r.
    + rewrite app_nil_r. apply no_exit_rendered, render_no_letter.
Qed.

Lemma extract_bounded cur s : Forall (λ n, n ≤ u32_max)%N (extract_numbers_from cur s).
Proof.
  assert (∀ c l, Forall (λ n, n ≤ u32_max)%N l → Forall (λ n, n ≤ u32_max)%N (push_number c l))
    as Hpush.
  { intros c l Hl. unfold push_number. destruct (is_empty c); [done|].
    destruct (parse_u32 c) eqn:E; [|done]. constructor; [by eapply parse_u32_bound|done]. }
  revert cur. induction s as [|c s IH]; intros cur; cbn; [by apply Hpush|].
  destruct (is_ascii_digit c); auto.
Qed.

Lemma block_targets_spec ts nums gates :
  let '(nums', gates') := fold_left block_target ts (nums, gates) in
  (∀ n, n ∈ nums' ↔ n ∈ nums ∨ n ∈ gt_to <$> ts) ∧
  (∀ P : N → Prop, Forall P nums → Forall (P ∘ gt_to) ts → Forall P nums') ∧
  (∀ n g, gates' !! n = Some g → gates !! n = Some g ∨ n ∈ gt_to <$> ts).
Proof.
  revert nums gates. induction ts as [|t ts IH]; intros nums gates; cbn.
  - split_and!; [set_solver|done|auto].
  - specialize (IH (if bool_decide (gt_to t ∈ nums) then nums else nums ++ [gt_to t])
                   (match gt_gate t with Some g => <[gt_to t := g]> gates | None => gates end)).
    destruct (fold_left block_target ts _) as [nums' gates'].
    destruct IH as (IH1 & IH2 & IH3). split_and!.
    + intros n. rewrite IH1, elem_of_cons. case_bool_decide; set_solver.
    + intros P Hn [Ht Hts]%Forall_cons. apply IH2; [|done].
      case_bool_decide; [done|]. apply Forall_app; split; [done|]. by constructor.
    + intros n g Hg. rewrite elem_of_cons. destruct (IH3 n g Hg) as [H|H]; [|auto].
      destruct (gt_gate t); [|auto]. apply lookup_insert_Some in H as [[<- _]|[_ H]]; auto.
Qed.

(** *** Set expansion *)

(** The body of the member loop, named. *)
Lemma expand_go_set fuel sets seen name ms :
  sets !! name = Some ms → name ∉ seen →
  expand_go (S fuel) sets seen name =
  fold_left
    (λ acc member,
      let '(seen, out) := acc in
      let '(seen', out') := expand_go fuel sets seen member in
      (seen', out ++ out'))
    ms ({[name]} ∪ seen, []).
Proof. intros H Hn. cbn. rewrite H. by rewrite decide_False. Qed.

Lemma fold_expand_acc fuel sets ms seen out0 :
  fold_left
    (λ acc member,
      let '(seen, out) := acc in
      let '(seen', out') := expand_go fuel sets seen member in
      (seen', out ++ out'))
    ms (seen, out0) =
  let '(seen', out) := fold_left
    (λ acc member,
      let '(seen, out) := acc in
      let '(seen', out') := expand_go fuel sets seen member in
      (seen', out ++ out'))
    ms (seen, []) in (seen', out0 ++ out).
Proof.
  revert seen out0. induction ms as [|m ms IH]; intros seen out0; cbn; [by rewrite app_nil_r|].
  destruct (expand_go fuel sets seen m) as [seen1 out1].
  rewrite IH. symmetry. rewrite IH. symmetry.
  destruct (fold_left _ ms (seen1, [])) as [seen2 out2]. by rewrite app_assoc.
Qed.

(** Sets not entered yet: each nested call has one fewer. *)
Definition unseen (sets : ToolSets) (seen : gset string) : nat := size (dom sets ∖ seen).

Lemma Expand_mono sets :
  (∀ seen name seen' out, Expand sets seen name seen' out → seen ⊆ seen') ∧
  (∀ seen ms seen' out, ExpandList sets seen ms seen' out → seen ⊆ seen').
Proof.
  apply (Expand_mutind sets (λ seen _ seen' _ _, seen ⊆ seen')
                            (λ seen _ seen' _ _, seen ⊆ seen')); set_solver.
Qed.

Lemma unseen_insert sets seen name ms :
  sets !! name = Some ms → name ∉ seen → (unseen sets ({[name]} ∪ seen) < unseen sets seen)%nat.
Proof.
  intros Hm Hn. unfold unseen. apply subset_size.
  apply elem_of_dom_2 in Hm. set_solver.
Qed.

Lemma unseen_mono sets seen seen' : seen ⊆ seen' → (unseen sets seen' ≤ unseen sets seen)%nat.
Proof. intros. unfold unseen. apply subseteq_size. set_solver. Qed.

(** With more fuel than sets left to enter, the fuelled function is the
    recursion of the source. *)
Lemma expand_go_Expand sets fuel seen name :
  (unseen sets seen < fuel)%nat →
  Expand sets seen name (expand_go fuel sets seen name).1 (expand_go fuel sets seen name).2.
Proof.
  revert seen name. induction fuel as [|fuel IH]; intros seen name Hf; [lia|].
  destruct (sets !! name) as [ms|] eqn:Hm; [|cbn; rewrite Hm; by constructor].
  destruct (decide (name ∈ seen)) as [Hin|Hn].
  { cbn. rewrite Hm, decide_True by done. by econstructor. }
  rewrite (expand_go_set _ _ _ _ _ Hm Hn).
  eapply Expand_set; [done..|].
  pose proof (unseen_insert _ _ _ _ Hm Hn) as Hlt.
  assert (unseen sets ({[name]} ∪ seen) < fuel)%nat as Hfuel by lia.
  clear Hm Hn Hf Hlt. revert Hfuel. generalize ({[name]} ∪ seen) as sn.
  induction ms as [|m ms IHms]; intros sn Hsn; cbn; [constructor|].
  pose proof (IH sn m Hsn) as Hm. destruct (expand_go fuel sets sn m) as [s1 o1].
  cbn in Hm. rewrite fold_expand_acc.
  pose proof (proj1 (Expand_mono sets) _ _ _ _ Hm) as Hsub.
  specialize (IHms s1 ltac:(pose proof (unseen_mono sets _ _ Hsub); lia)).
  destruct (fold_left _ ms (s1, [])) as [s2 o2]. cbn in *. by econstructor.
Qed.

Lemma Expand_functional sets :
  (∀ seen name s1 o1, Expand sets seen name s1 o1 →
     ∀ s2 o2, Expand sets seen name s2 o2 → s1 = s2 ∧ o1 = o2) ∧
  (∀ seen ms s1 o1, ExpandList sets seen ms s1 o1 →
     ∀ s2 o2, ExpandList sets seen ms s2 o2 → s1 = s2 ∧ o1 = o2).
Proof.
  apply (Expand_mutind sets
    (λ seen name s1 o1 _, ∀ s2 o2, Expand sets seen name s2 o2 → s1 = s2 ∧ o1 = o2)
    (λ seen ms s1 o1 _, ∀ s2 o2, ExpandList sets seen ms s2 o2 → s1 = s2 ∧ o1 = o2)).
  - intros seen name Hn s2 o2. inversion 1; simplify_eq; done.
  - intros seen name ms Hm Hin s2 o2. inversion 1; simplify_eq; done.
  - intros seen name ms seen' out Hm Hn HL IH s2 o2. inversion 1; simplify_eq; first [done|by apply IH].
  - intros seen s2 o2. by inversion 1.
  - intros seen m ms seen1 out1 seen2 out2 H1 IH1 H2 IH2 s2 o2. inversion 1 as [|? ? ? ? ? ? ? Ha Hb]; subst.
    destruct (IH1 _ _ Ha) as [-> ->]. by destruct (IH2 _ _ Hb) as [-> ->].
Qed.

(** A finished call has entered every set it met and emitted every keyword. *)
Lemma Expand_closed sets :
  (∀ seen name seen' out, Expand sets seen name seen' out →
     (is_Some (sets !! name) → name ∈ seen') ∧ (sets !! name = None → name ∈ out) ∧
     ∀ n ms m, n ∈ seen' → n ∉ seen → sets !! n = Some ms → m ∈ ms →
       (is_Some (sets !! m) → m ∈ seen') ∧ (sets !! m = None → m ∈ out)) ∧
  (∀ seen ms seen' out, ExpandList sets seen ms seen' out →
     (∀ m, m ∈ ms → (is_Some (sets !! m) → m ∈ seen') ∧ (sets !! m = None → m ∈ out)) ∧
     ∀ n ns m, n ∈ seen' → n ∉ seen → sets !! n = Some ns → m ∈ ns →
       (is_Some (sets !! m) → m ∈ seen') ∧ (sets !! m = None → m ∈ out)).
Proof.
  apply (Expand_mutind sets
    (λ seen name seen' out _,
       (is_Some (sets !! name) → name ∈ seen') ∧ (sets !! name = None → name ∈ out) ∧
       ∀ n ms m, n ∈ seen' → n ∉ seen → sets !! n = Some ms → m ∈ ms →
         (is_Some (sets !! m) → m ∈ seen') ∧ (sets !! m = None → m ∈ out))
    (λ seen ms seen' out _,
       (∀ m, m ∈ ms → (is_Some (sets !! m) → m ∈ seen') ∧ (sets !! m = None → m ∈ out)) ∧
       ∀ n ns m, n ∈ seen' → n ∉ seen → sets !! n = Some ns → m ∈ ns →
         (is_Some (sets !! m) → m ∈ seen') ∧ (sets !! m = None → m ∈ out))).
  - intros seen name Hn. split_and!; [|set_solver|set_solver].
    rewrite Hn. by intros [? ?].
  - intros seen name ms Hm Hin. split_and!; [done|congruence|set_solver].
  - intros seen name ms seen' out Hm Hn HL [IH1 IH2].
    pose proof (proj2 (Expand_mono sets) _ _ _ _ HL) as Hsub. split_and!.
    + set_solver.
    + congruence.
    + intros n ns m Hn' Hns Hlk Hmem. destruct (decide (n = name)) as [->|Hne].
      * simplify_eq. by apply IH1.
      * eapply IH2; [done| |done..]. set_solver.
  - intros seen. split; set_solver.
  - intros seen m ms seen1 out1 seen2 out2 H1 (IHa & IHb & IHc) H2 [IHd IHe].
    pose proof (proj1 (Expand_mono sets) _ _ _ _ H1) as Hsub1.
    pose proof (proj2 (Expand_mono sets) _ _ _ _ H2) as Hsub2. split.
    + intros m' [->|Hm']%elem_of_cons; [|destruct (IHd m' Hm')]; split; intros Hx;
        try apply IHa in Hx; try apply IHb in Hx; set_solver.
    + intros n ns m' Hn Hns Hlk Hmem. destruct (decide (n ∈ seen1)) as [Hin|Hout].
      * destruct (IHc n ns m' Hin Hns Hlk Hmem). set_solver.
      * destruct (IHe n ns m' Hn Hout Hlk Hmem). set_solver.
Qed.

(** Everything emitted is mentioned. *)
Lemma Expand_sound sets :
  (∀ seen name seen' out, Expand sets seen name seen' out →
     ∀ k, k ∈ out → Mentions sets name k) ∧
  (∀ seen ms seen' out, ExpandList sets seen ms seen' out →
     ∀ k, k ∈ out → ∃ m, m ∈ ms ∧ Mentions sets m k).
Proof.
  apply (Expand_mutind sets
    (λ seen name seen' out _, ∀ k, k ∈ out → Mentions sets name k)
    (λ seen ms seen' out _, ∀ k, k ∈ out → ∃ m, m ∈ ms ∧ Mentions sets m k)).
  - intros seen name _ k ->%list_elem_of_singleton. constructor.
  - intros seen name ms _ _ k ->%list_elem_of_singleton. constructor.
  - intros seen name ms seen' out Hm _ _ IH k (m & Hmem & Hk)%IH.
    induction Hk as [|k ks j Hk IHk Hks Hj].
    + by eapply Mentions_member; [constructor|..].
    + by eapply Mentions_member.
  - intros seen k. set_solver.
  - intros seen m ms seen1 out1 seen2 out2 _ IH1 _ IH2 k [Hk|Hk]%elem_of_app.
    + exists m. split; [set_solver|]. by apply IH1.
    + destruct (IH2 k Hk) as (m' & ? & ?). exists m'. split; [set_solver|done].
Qed.

Lemma expand_set_Expand sets name :
  ∃ seen', Expand sets ∅ name seen' (expand_set sets name).
Proof.
  eexists. unfold expand_set. apply expand_go_Expand.
  unfold unseen, expand_fuel. rewrite difference_empty_L, size_dom. lia.
Qed.

(** *** Guard blocks *)

Definition good_to (to : option N) : Prop := ∀ n, to = Some n → (n ≤ u32_max)%N.
Definition good_gate (gate : option string) : Prop :=
  ∀ g, gate = Some g → is_empty (trim g) = false.
Definition good_gt (t : GuardTransition) : Prop :=
  (gt_to t ≤ u32_max)%N ∧ good_gate (gt_gate t).
Definition good_block (b : GuardBlock) : Prop :=
  Forall good_gt (gb_transitions b) ∧ good_to (gb_max_visits b).
Definition good_state (s : BlockState) : Prop :=
  good_block (bs_block s) ∧ good_to (bs_to s) ∧ good_gate (bs_gate s).

Lemma good_to_None : good_to None. Proof. by intros ?. Qed.
Lemma good_gate_None : good_gate None. Proof. by intros ?. Qed.
Lemma good_to_parse s n : parse_u32 s = Some n → good_to (Some n).
Proof. intros H ? [= <-]. by eapply parse_u32_bound. Qed.
#[export] Hint Resolve good_to_None good_gate_None good_to_parse : guard.

Lemma guard_item_field_good step to gate pair to' gate' :
  good_to to → good_gate gate →
  guard_item_field step (to, gate) pair = Ok (to', gate') → good_to to' ∧ good_gate gate'.
Proof.
  intros Ht Hg. unfold guard_item_field, perr.
  destruct (split_once _ pair) as [[key value]|]; [|done].
  destruct (trim key ==s "to").
  { destruct (parse_u32 (trim value)) eqn:E; [|done]. intros [= <- <-]. eauto with guard. }
  destruct (trim key ==s "gate"); [|done]. intros [= <- <-]. split; [done|].
  destruct (is_empty (trim (unquote value))) eqn:E; [auto with guard|]. by intros ? [= <-].
Qed.

Lemma guard_item_fields_good raw to gate step to' gate' :
  good_to to → good_gate gate →
  guard_item_fields raw to gate step = Ok (to', gate') → good_to to' ∧ good_gate gate'.
Proof.
  intros Ht Hg H.
  apply (try_fold_ok_inv (λ tg, good_to tg.1 ∧ good_gate tg.2)) in H; [done|done|].
  intros [t g] x [t' g'] _ [? ?] Hf. by eapply guard_item_field_good.
Qed.

Lemma parse_flow_good raw step ts :
  parse_flow_transitions raw step = Ok ts → Forall good_gt ts.
Proof.
  unfold parse_flow_transitions, perr. destruct (strip_prefix _ _ ≫= _) as [inner|]; [|done].
  apply (try_fold_ok_inv (Forall good_gt)); [done|].
  intros out group out' _ Hout. unfold flow_item.
  intros ([to gate] & Hf & Hto)%bind_ok.
  apply guard_item_fields_good in Hf as [Ht Hg]; [|auto with guard..].
  destruct to as [n|]; [|done]. injection Hto as <-.
  apply Forall_app; split; [done|]. constructor; [|done]. split; [by apply Ht|done].
Qed.

Lemma flush_good step s s' : good_state s → flush step s = Ok s' → good_state s'.
Proof.
  intros ((Hts & Hmv) & Ht & Hg). unfold flush.
  destruct (bs_building s); [|by intros [= <-]].
  destruct (bs_to s) as [n|] eqn:E; [|done]. intros [= <-].
  split_and!; [|auto with guard..]. split; [|done]. cbn. apply Forall_app; split; [done|].
  constructor; [|done]. split; [by apply Ht|done].
Qed.

Lemma block_key_good step stripped s s' :
  good_state s → block_key step stripped s = Ok s' → good_state s'.
Proof.
  intros ((Hts & Hmv) & Ht & Hg). unfold block_key, perr.
  destruct (split_once _ stripped) as [[key value]|]; [|done].
  destruct (_ || _).
  { destruct (parse_u32 (trim value)) eqn:E; [|done]. intros [= <-].
    repeat split; cbn; eauto with guard. }
  destruct (trim key ==s "exit"); [by intros [= <-]|].
  destruct (trim key ==s "transitions"); [|done].
  destruct (is_empty (trim value)); [by intros [= <-]|].
  destruct (starts_with "[" (trim value)); [|done].
  intros (ts & Hp%parse_flow_good & [= <-])%bind_ok. done.
Qed.

Lemma item_line_good step fields s s' :
  good_state s → item_line step fields s = Ok s' → good_state s'.
Proof.
  intros (Hb & Ht & Hg). unfold item_line. intros ([to gate] & Hf & [= <-])%bind_ok.
  by apply guard_item_fields_good in Hf as [? ?].
Qed.

Lemma block_line_good base step s raw s' :
  good_state s → block_line base step s raw = Ok s' → good_state s'.
Proof.
  intros Hs. unfold block_line, perr. destruct (_ || _); [by intros [= <-]|].
  intros (ded & _ & H)%bind_ok. revert H.
  destruct (leading_ws ded =? 0)%nat.
  { intros (s1 & Hf & Hk)%bind_ok. apply flush_good in Hf; [|done].
    eapply block_key_good; [|done]. done. }
  destruct (bs_in_list s); [|done].
  destruct (strip_prefix "-" (trim ded)) as [rest|].
  { intros (s1 & Hf & Hk)%bind_ok. apply flush_good in Hf; [|done]. by eapply item_line_good. }
  destruct (bs_building s); [|done]. by apply item_line_good.
Qed.

Lemma parse_guard_block_good content step b :
  parse_guard_block content step = Ok b → good_block b.
Proof.
  unfold parse_guard_block. intros (s & Hs & H)%bind_ok. revert H.
  intros (s' & Hf & [= <-])%bind_ok.
  apply (try_fold_ok_inv good_state) in Hs.
  - by apply flush_good in Hf as [? _].
  - by repeat split; auto with guard.
  - intros a x a' _. apply block_line_good.
Qed.

(** *** Well-formed steps *)

(** At most [MAX_JUDGE_QUESTIONS] judge questions, none empty; every per-target
    gate is a non-blank command on a declared transition target. *)
Definition wf_judge (st : Step) : Prop :=
  (List.length (st_llmjudge st) ≤ MAX_JUDGE_QUESTIONS)%nat ∧
  Forall (λ q, question q ≠ "") (st_llmjudge st).

Definition wf_gates (st : Step) : Prop :=
  ∀ t g, st_transition_gates st !! t = Some g →
    t ∈ (parse_transitions (st_transition st)).1 ∧ is_empty (trim g) = false.

Definition wf_steps (P : Step → Prop) (steps : gmap N Step) : Prop :=
  ∀ n st, steps !! n = Some st → (n ≤ u32_max)%N ∧ P st.

Lemma wf_steps_alter P (f : Step → Step) n steps :
  (∀ st, P st → P (f st)) → wf_steps P steps → wf_steps P (alter f n steps).
Proof.
  intros Hf Hs k st. rewrite lookup_alter. case_decide as Heq.
  - destruct (steps !! k) as [st0|] eqn:E; [|by subst; rewrite E].
    subst. rewrite E. intros [= <-]. destruct (Hs _ _ E). auto.
  - apply Hs.
Qed.

Lemma wf_steps_insert P n st steps :
  (n ≤ u32_max)%N → P st → wf_steps P steps → wf_steps P (<[n := st]> steps).
Proof.
  intros Hn Hst Hs k st'. rewrite lookup_insert_Some. intros [[<- <-]|[_ H]]; [done|].
  by apply Hs.
Qed.

Lemma parse_judge_question_nonempty item step q :
  parse_judge_question item step = Ok q → question q ≠ "".
Proof.
  unfold parse_judge_question, perr. destruct (is_empty (trim item)); [done|].
  match goal with |- context [let '(q, v) := ?e in _] => destruct e as [q0 v0] end.
  destruct (is_empty q0) eqn:E; [done|]. intros [= <-]. by apply String.eqb_neq in E.
Qed.

Lemma parse_step_heading_bound line n title :
  parse_step_heading line = Some (n, title) → (n ≤ u32_max)%N.
Proof.
  unfold parse_step_heading. intros H.
  apply bind_Some in H as (body & _ & H). apply bind_Some in H as (rest & _ & H).
  destruct (negb _); [done|]. destruct (span_chars _ _) as [d t].
  destruct (is_empty d); [done|]. apply bind_Some in H as (num & Hn & [= <- _]).
  by eapply parse_u32_bound.
Qed.

(** The steps held while lines are read: no gate yet. *)
Definition wf_raw (st : Step) : Prop := wf_judge st ∧ st_transition_gates st = ∅.

Lemma close_open_judge_same s s' :
  close_open_judge s = Ok s' →
  ps_steps s' = ps_steps s ∧ ps_bodies s' = ps_bodies s ∧ ps_guard_raw s' = ps_guard_raw s ∧
  ps_current s' = ps_current s ∧ ps_fence s' = ps_fence s.
Proof.
  unfold close_open_judge. destruct (ps_judge_open s), (ps_current s) eqn:E;
    try (intros [= <-]; auto; done).
  intros ([] & _ & [= <-])%bind_ok. auto.
Qed.

(** Reading a line never changes a step through the fence logic. *)
Lemma absorb_fence_same raw s b s' :
  absorb_fence raw s = Ok (b, s') → ps_steps s' = ps_steps s ∧ ps_current s' = ps_current s.
Proof.
  unfold absorb_fence. destruct (ps_fence s) as [open|].
  - destruct (fence_closes _ _); [by intros [= <- <-]|].
    destruct (ps_current s) eqn:E; [|by intros [= <- <-]; rewrite E].
    destruct (is_guard_fence _); intros [= <- <-]; cbn; by rewrite E.
  - destruct (fence_marker _) as [f|]; [|by intros [= <- <-]].
    intros (s1 & (H1 & _ & _ & H2 & _)%close_open_judge_same & [= <- <-])%bind_ok.
    rewrite <- H1, <- H2. destruct (ps_current s1) eqn:E; [|by cbn; rewrite E].
    destruct (is_guard_fence _); cbn; by rewrite E.
Qed.

Lemma push_judge_wf cur item s s' :
  wf_steps wf_raw (ps_steps s) → push_judge_question cur item s = Ok s' →
  wf_steps wf_raw (ps_steps s').
Proof.
  intros Hs. unfold push_judge_question.
  intros (q & Hq%parse_judge_question_nonempty & H)%bind_ok. revert H.
  destruct (ps_steps s !! cur) as [st|] eqn:E; [|by intros [= <-]].
  destruct (MAX_JUDGE_QUESTIONS <=? List.length (st_llmjudge st))%nat eqn:Hl; [done|].
  apply Nat.leb_gt in Hl. intros [= <-]. destruct (Hs _ _ E) as (Hn & [Hlen Hall] & Hg).
  apply wf_steps_insert; [done| |done]. split; [|done]. split; cbn.
  - rewrite length_app. cbn. lia.
  - apply Forall_app; split; [done|]. by constructor.
Qed.

Lemma feed_wf s raw s' :
  wf_steps wf_raw (ps_steps s) → feed s raw = Ok s' → wf_steps wf_raw (ps_steps s').
Proof.
  intros Hs. unfold feed.
  intros ([b s1] & (Hst & _)%absorb_fence_same & H)%bind_ok. rewrite <- Hst in Hs. revert H.
  destruct b; [by intros [= <-]|].
  destruct (parse_step_heading (trim raw)) as [[num title]|] eqn:Eh.
  { unfold open_step. intros (s2 & (H1 & _)%close_open_judge_same & [= <-])%bind_ok. cbn.
    rewrite H1. apply wf_steps_insert; [by eapply parse_step_heading_bound| |done].
    split; [split; [cbn; unfold MAX_JUDGE_QUESTIONS; lia|constructor]|done]. }
  destruct (ps_current s1) as [cur|]; [|by intros [= <-]].
  assert (∀ r, (s2 ← close_open_judge s1;
             match Annotation_of (to_ascii_lowercase (trim raw)) with
             | None => Ok (push_body cur (trim raw) s2)
             | Some ann => apply_annotation cur ann (trim raw) s2
             end) = Ok r → wf_steps wf_raw (ps_steps r)) as Hann.
  { intros r (s2 & (H1 & _)%close_open_judge_same & H)%bind_ok. revert H.
    destruct (Annotation_of _) as [[f|]|]; cbn.
    - intros [= <-]. cbn. rewrite H1. apply wf_steps_alter; [|done].
      intros st [? ?]. by destruct f.
    - unfold open_judge, perr. destruct (bool_decide _); [done|].
      destruct (negb _); [done|]. intros [= <-]. cbn. by rewrite H1.
    - intros [= <-]. cbn. by rewrite H1. }
  destruct (ps_judge_open s1), (strip_prefix "-" (trim raw)); try apply Hann.
  by apply push_judge_wf.
Qed.

Lemma finalize_bodies_wf P steps bodies :
  (∀ v st, P st → P (set_body v st)) → wf_steps P steps → wf_steps P (finalize_bodies steps bodies).
Proof.
  intros HP. unfold finalize_bodies. revert steps.
  induction (btree_iter bodies) as [|[n l] nbs IH]; intros steps Hs; cbn; [done|].
  apply IH. apply wf_steps_alter; [|done]. auto.
Qed.

(** A merged block: targets are the union, gates sit on declared targets, and
    reading the rendered list back gives it unchanged. *)
Lemma apply_guard_block_spec st block :
  good_block block →
  let st' := apply_guard_block st block in
  (∀ n, n ∈ (parse_transitions (st_transition st')).1 ↔
        n ∈ (parse_transitions (st_transition st)).1 ∨ n ∈ gt_to <$> gb_transitions block) ∧
  (parse_transitions (st_transition st')).2 =
    (parse_transitions (st_transition st)).2 || gb_exit block ∧
  st_llmjudge st' = st_llmjudge st ∧
  (∀ n g, st_transition_gates st' !! n = Some g →
     st_transition_gates st !! n = Some g ∨ n ∈ gt_to <$> gb_transitions block).
Proof.
  intros [Hts _] st'. subst st'. unfold apply_guard_block.
  set (st0 := match gb_max_visits block with
              | Some mv => set_max_visits (Some mv) st | None => st end).
  assert (st_transition st0 = st_transition st ∧ st_llmjudge st0 = st_llmjudge st ∧
          st_transition_gates st0 = st_transition_gates st) as (-> & Hj & ->)
    by (subst st0; by destruct (gb_max_visits block)).
  destruct (parse_transitions (st_transition st)) as [nums exit] eqn:Ep.
  pose proof (block_targets_spec (gb_transitions block) nums (st_transition_gates st)) as Hb.
  destruct (fold_left block_target _ _) as [nums' gates']. destruct Hb as (H1 & H2 & H3).
  cbn [st_transition set_transition set_transition_gates st_llmjudge st_transition_gates].
  rewrite parse_render; [by rewrite Hj|].
  apply H2.
  - unfold parse_transitions in Ep. injection Ep as <- _. apply extract_bounded.
  - eapply Forall_impl; [done|]. by intros t [? _].
Qed.

(** Gates of a merged block are non-blank when the old ones are. *)
Lemma block_target_gates ts nums gates n g :
  Forall good_gt ts → (∀ n g, gates !! n = Some g → is_empty (trim g) = false) →
  (fold_left block_target ts (nums, gates)).2 !! n = Some g → is_empty (trim g) = false.
Proof.
  revert nums gates. induction ts as [|t ts IH]; intros nums gates; cbn; [by eauto|].
  intros [[_ Ht] Hts]%Forall_cons Hg. apply IH; [done|].
  intros n' g'. destruct (gt_gate t) as [g0|]; [|by apply Hg].
  rewrite lookup_insert_Some. intros [[_ <-]|[_ H]]; [by apply Ht|by eapply Hg].
Qed.

Lemma apply_guard_block_wf st block :
  good_block block → wf_raw st → wf_judge (apply_guard_block st block) ∧
                                 wf_gates (apply_guard_block st block).
Proof.
  intros Hb [[Hlen Hall] Hg0].
  destruct (apply_guard_block_spec st block Hb) as (H1 & _ & Hj & H3).
  split; [by split; rewrite Hj|]. intros t g Hg. split.
  - apply H1. destruct (H3 _ _ Hg) as [H|H]; [|auto]. by rewrite Hg0, lookup_empty in H.
  - clear H1 Hj H3. destruct Hb as [Hts _]. revert Hg. unfold apply_guard_block.
    destruct (parse_transitions _) as [nums exit].
    destruct (fold_left block_target _ _) as [nums' gates'] eqn:Ef. cbn.
    intros Hg. eapply (block_target_gates (gb_transitions block)); [done| |by rewrite Ef].
    intros n g'. destruct (gb_max_visits block); cbn; by rewrite Hg0, lookup_empty.
Qed.

Lemma apply_guard_blocks_wf steps guard_raw m :
  wf_steps wf_raw steps → apply_guard_blocks steps guard_raw = Ok m →
  wf_steps (λ st, wf_judge st ∧ wf_gates st) m.
Proof.
  intros Hs. unfold apply_guard_blocks.
  pose proof (NoDup_btree_iter guard_raw) as Hnd. revert Hnd.
  assert (∀ k st, steps !! k = Some st → (k ≤ u32_max)%N ∧
            ((k ∈ (btree_iter guard_raw).*1 → wf_raw st) ∧ wf_judge st ∧ wf_gates st)) as Hinv.
  { intros k st Hk. destruct (Hs _ _ Hk) as (? & [? Hg]). split_and!; try done.
    intros t g. by rewrite Hg, lookup_empty. }
  clear Hs. revert steps Hinv.
  induction (btree_iter guard_raw) as [|[n l] nbs IH]; intros steps Hinv Hnd; cbn.
  { intros [= <-] k st Hk. destruct (Hinv _ _ Hk) as (? & _ & ? & ?). done. }
  apply NoDup_cons in Hnd as [Hn Hnd]. intros (s1 & H1 & Hrest)%bind_ok.
  apply (IH s1); [|done..]. unfold apply_one_block in H1.
  apply bind_ok in H1 as (block & Hb%parse_guard_block_good & [= <-]).
  intros k st. cbn. rewrite lookup_alter. case_decide as Heq; cbn in *.
  - destruct (steps !! k) as [st0|] eqn:E; subst; rewrite E; [|done]. intros [= <-].
    destruct (Hinv _ _ E) as (? & Hraw & _). specialize (Hraw ltac:(set_solver)).
    destruct (apply_guard_block_wf st0 block Hb Hraw). done.
  - intros Hk. destruct (Hinv _ _ Hk) as (? & Hraw & ? & ?). split_and!; try done.
    intros ?. apply Hraw. set_solver.
Qed.

(** *** Fences and headings *)

(** While a fence is open a line is consumed by it. *)
Lemma feed_fenced s raw open s' :
  ps_fence s = Some open → feed s raw = Ok s' →
  ps_steps s' = ps_steps s ∧ ps_current s' = ps_current s ∧
  ps_fence s' = (if fence_closes open (trim raw) then None else Some open).
Proof.
  intros Hf. unfold feed. intros ([b s1] & Ha & H)%bind_ok.
  pose proof (absorb_fence_same _ _ _ _ Ha) as [Hs Hc]. revert Ha H.
  unfold absorb_fence. rewrite Hf. destruct (fence_closes open (trim raw)) eqn:Ec.
  { intros [= <- <-] [= <-]. done. }
  destruct (ps_current s) as [cur|].
  - destruct (is_guard_fence _); intros [= <- <-] [= <-]; split_and!; done.
  - by intros [= <- <-] [= <-].
Qed.

(** One line of the parser follows one line of the heading scan. *)
Lemma feed_headings s raw s' nums :
  dom (ps_steps s) = list_to_set nums →
  feed s raw = Ok s' →
  let '(nums', fence') := heading_step (nums, ps_fence s) raw in
  dom (ps_steps s') = list_to_set nums' ∧ ps_fence s' = fence'.
Proof.
  intros Hd H. unfold heading_step. destruct (ps_fence s) as [open|] eqn:Hf.
  { by destruct (feed_fenced _ _ _ _ Hf H) as (-> & _ & ->). }
  revert H. unfold feed. intros ([b s1] & Ha & H)%bind_ok.
  pose proof (absorb_fence_same _ _ _ _ Ha) as [Hs Hc]. revert Ha H.
  unfold absorb_fence. rewrite Hf. destruct (fence_marker (trim raw)) as [f|] eqn:Em.
  { intros (s2 & (H1 & _)%close_open_judge_same & [= <- <-])%bind_ok [= <-].
    cbn in *. rewrite Hs. done. }
  intros [= <- <-]. destruct (parse_step_heading (trim raw)) as [[num title]|].
  { unfold open_step. intros (s2 & (H1 & _ & _ & _ & H2)%close_open_judge_same & [= <-])%bind_ok.
    cbn. rewrite dom_insert_L, H1, H2, Hd, list_to_set_app_L. split; [|done]. set_solver. }
  destruct (ps_current s) as [cur|]; [|by intros [= <-]].
  assert (∀ r, (s2 ← close_open_judge s;
             match Annotation_of (to_ascii_lowercase (trim raw)) with
             | None => Ok (push_body cur (trim raw) s2)
             | Some ann => apply_annotation cur ann (trim raw) s2
             end) = Ok r → dom (ps_steps r) = list_to_set nums ∧ ps_fence r = None) as Hann.
  { intros r (s2 & (H1 & _ & _ & _ & H2)%close_open_judge_same & H)%bind_ok. revert H.
    destruct (Annotation_of _) as [[fd|]|]; cbn.
    - intros [= <-]. cbn. by rewrite dom_alter_L, H1, H2.
    - unfold open_judge, perr. destruct (bool_decide _); [done|].
      destruct (negb _); [done|]. intros [= <-]. cbn. by rewrite H1, H2.
    - intros [= <-]. cbn. by rewrite H1, H2. }
  destruct (ps_judge_open s), (strip_prefix "-" (trim raw)); try apply Hann.
  unfold push_judge_question. intros (q & _ & H)%bind_ok. revert H.
  destruct (ps_steps s !! cur) as [st|] eqn:E; [|by intros [= <-]].
  destruct (_ <=? _)%nat; [done|]. intros [= <-]. cbn.
  rewrite dom_insert_L, Hf. split; [|done]. rewrite <- Hd. apply elem_of_dom_2 in E. set_solver.
Qed.

Lemma feed_all_headings ls s s' nums :
  dom (ps_steps s) = list_to_set nums → try_fold feed s ls = Ok s' →
  dom (ps_steps s') = list_to_set (fold_left heading_step ls (nums, ps_fence s)).1.
Proof.
  revert s nums. induction ls as [|l ls IH]; intros s nums Hd; cbn [try_fold fold_left].
  - by intros [= <-].
  - intros (s1 & H1 & H2)%bind_ok. pose proof (feed_headings _ _ _ _ Hd H1) as H.
    destruct (heading_step (nums, ps_fence s) l) as [nums' fence'].
    destruct H as [Hd' <-]. by apply (IH s1).
Qed.

Lemma finalize_bodies_dom steps bodies : dom (finalize_bodies steps bodies) = dom steps.
Proof.
  unfold finalize_bodies. revert steps.
  induction (btree_iter bodies) as [|[n l] nbs IH]; intros steps; cbn; [done|].
  by rewrite IH, dom_alter_L.
Qed.

Lemma apply_guard_blocks_dom steps guard_raw m :
  apply_guard_blocks steps guard_raw = Ok m → dom m = dom steps.
Proof.
  unfold apply_guard_blocks. apply (try_fold_ok_inv (λ m, dom m = dom steps)); [done|].
  intros a x a' _ <-. unfold apply_one_block. intros (b & _ & [= <-])%bind_ok.
  apply dom_alter_L.
Qed.

(** ** Properties *)

(** The transition list of a step survives being written back to text: the
    comma-separated list [apply_guard_block] renders is read by
    [parse_transitions] as the same step numbers, in order, with the same Exit
    flag. *)
Theorem transitions_roundtrip (nums : list N) (exit : bool) :
  Forall (λ n, n ≤ u32_max)%N nums →
  parse_transitions (render_transitions nums exit) = (nums, exit).
Proof. apply parse_render. Qed.

Lemma transitions_roundtrip_witness :
  parse_transitions (render_transitions [3; 12; 4294967295]%N true) =
    ([3; 12; 4294967295]%N, true).
Proof. apply transitions_roundtrip. by repeat constructor. Defined.

(** Set expansion is exact on plain keywords: a name that is not itself a
    set is produced by expanding [name] if and only if it is reachable from
    [name] through set memberships.  Cyclic and shared sets lose nothing. *)
Theorem expand_set_keywords (sets : ToolSets) (name k : string) :
  sets !! k = None → (k ∈ expand_set sets name ↔ Mentions sets name k).
Proof.
  intros Hk. destruct (expand_set_Expand sets name) as [seen' He].
  split; [by apply (proj1 (Expand_sound sets)) with (1 := He)|]. intros Hm.
  destruct (proj1 (Expand_closed sets) _ _ _ _ He) as (Hself & Hleaf & Hcl).
  assert (∀ m, Mentions sets name m →
            (is_Some (sets !! m) → m ∈ seen') ∧ (sets !! m = None → m ∈ expand_set sets name))
    as Hall; [|by apply Hall].
  induction 1 as [|j ms m Hj [IH _] Hms Hmem]; [done|].
  eapply Hcl; [by apply IH; eauto|set_solver|done..].
Qed.

Lemma expand_set_keywords_witness :
  let sets : ToolSets := <["a" := ["b"; "x"]]> (<["b" := ["a"; "y"]]> ∅) in
  "y" ∈ expand_set sets "a" ↔ Mentions sets "a" "y".
Proof. apply expand_set_keywords. reflexivity. Defined.

(** The expansion terminates and is the source's recursion: for every name
    there is exactly one result of the recursive calls (with the shared [seen]
    set), and it is the one computed with the fuel chosen here. *)
Theorem expand_set_terminates (sets : ToolSets) (name : string) :
  (∃ seen', Expand sets ∅ name seen' (expand_set sets name)) ∧
  ∀ seen' out, Expand sets ∅ name seen' out → out = expand_set sets name.
Proof.
  destruct (expand_set_Expand sets name) as [seen1 H1]. split; [by eauto|].
  intros seen' out H. by destruct (proj1 (Expand_functional sets) _ _ _ _ H _ _ H1).
Qed.

(** Whatever the prompt, a parsed workflow is well formed: step numbers fit
    a [u32], no step has more than twelve judge questions or an empty one, and
    each per-target gate is a non-blank command attached to a target the step
    declares, so no authored gate is unreachable. *)
Theorem parse_steps_wf (md : string) (steps : gmap N Step) (n : N) (st : Step) :
  parse_steps md = Ok steps → steps !! n = Some st →
  (n ≤ u32_max)%N ∧
  (List.length (st_llmjudge st) ≤ MAX_JUDGE_QUESTIONS)%nat ∧
  Forall (λ q, question q ≠ "") (st_llmjudge st) ∧
  ∀ t g, st_transition_gates st !! t = Some g →
    t ∈ (parse_transitions (st_transition st)).1 ∧ is_empty (trim g) = false.
Proof.
  unfold parse_steps, finish. intros (s & Hs & H)%bind_ok.
  apply bind_ok in H as (s1 & (H1 & _)%close_open_judge_same & H).
  apply (try_fold_ok_inv (λ s, wf_steps wf_raw (ps_steps s))) in Hs;
    [|by intros ? ?; cbn; rewrite lookup_empty|intros a x a' _; apply feed_wf].
  apply apply_guard_blocks_wf in H.
  - intros Hst. by destruct (H _ _ Hst) as (? & [? ?] & ?).
  - apply finalize_bodies_wf; [|by rewrite H1]. by intros v x [[? ?] ?].
Qed.

(** A one-step prompt with a guard block. *)
Definition sample_prompt : string :=
  join nl ["# Step 1: Build"; "[transition]: Exit"; "```guard"; "max-visits: 2";
           "transitions: [{to: 3, gate: make test}]"; "```"].

Definition sample_step : Step :=
  mkStep "Build" "" "" "3, Exit" "" "" "" false [] (Some 2%N) {[3%N := "make test"]}.

Lemma sample_prompt_parses : parse_steps sample_prompt = Ok {[1%N := sample_step]}.
Proof. vm_compute. reflexivity. Qed.

Lemma parse_steps_wf_witness :
  parse_steps sample_prompt = Ok {[1%N := sample_step]} ∧
  "make test" ≠ "" ∧
  (3%N ∈ (parse_transitions (st_transition sample_step)).1 ∧
   is_empty (trim "make test") = false).
Proof.
  split; [exact sample_prompt_parses|]. split; [done|].
  apply (parse_steps_wf sample_prompt {[1%N := sample_step]} 1 sample_step);
    [exact sample_prompt_parses|reflexivity|reflexivity].
Defined.

(** Text inside a code fence is never policy: while a fence is open, no line
    (a heading, a directive, anything) adds, replaces or edits a step, or moves
    the parser to another step. *)
Theorem fenced_lines_inert (s s' : ParseState) (raw : string) :
  is_Some (ps_fence s) → feed s raw = Ok s' →
  ps_steps s' = ps_steps s ∧ ps_current s' = ps_current s.
Proof. intros [f Hf] H. by destruct (feed_fenced _ _ _ _ Hf H) as (? & ? & _). Qed.

Lemma fenced_lines_inert_witness :
  let s := with_fence (Some (mkFence "`" 3 "")) ParseState_default in
  feed s "# Step 2: fake" = Ok s ∧ ps_steps s = ps_steps s ∧ ps_current s = ps_current s.
Proof.
  intros s. split; [reflexivity|]. apply (fenced_lines_inert s s "# Step 2: fake"); [by exists (mkFence "`" 3 "")|].
  reflexivity.
Defined.

(** The linter's heading scan and the parser agree: the steps of a parsed
    prompt are exactly the numbers [step_heading_numbers] lists, so a repeated
    number in that list is a step definition the parser overwrote. *)
Theorem headings_are_the_steps (md : string) (steps : gmap N Step) :
  parse_steps md = Ok steps → dom steps = list_to_set (step_heading_numbers md).
Proof.
  unfold parse_steps, finish. intros (s & Hs & H)%bind_ok.
  apply bind_ok in H as (s1 & (H1 & _)%close_open_judge_same & H%apply_guard_blocks_dom).
  rewrite H, finalize_bodies_dom, H1.
  apply (feed_all_headings _ _ _ []) in Hs; [done|]. apply dom_empty_L.
Qed.

Lemma headings_are_the_steps_witness :
  dom ({[1%N := sample_step]} : gmap N Step) = list_to_set (step_heading_numbers sample_prompt).
Proof. apply headings_are_the_steps. exact sample_prompt_parses. Defined.

(** An ideographic space, U+3000, encoded on three bytes; U+00A0 on two. *)
Definition mixed_indent_block : string :=
  join nl ["# Step 1"; "```guard"; String "194" (String "160" "exit: true");
           String "227" (String "128" (String "128" "max-visits: 1")); "```"].

(** The guard-block reader computes its common indentation in bytes and
    slices every line there, so a block whose lines are indented with white
    space of different encoded widths makes the parser panic instead of
    reporting a [ParseError]. *)
Theorem mixed_indent_panics : parse_steps mixed_indent_block = Err Panic.
Proof. vm_compute. reflexivity. Qed.
