(* ===== verification/Ir.v ===== *)
(** * The workflow IR and set resolution
      ([cctui-guard/src/ir.rs], [cctui-guard/src/resolve.rs])

    Prompt markdown compiles into a typed [Workflow]; the sets it references
    are layered from the rules files, the prompt's imports and its inline
    definitions. *)

From stdpp Require Import base decidable list gmap strings sorting.
From Stdlib Require Import Lia ZArith Bool Ascii String.
From S2P Require Import Prelude RustStr Parser.

(** ** The IR *)

Inductive Version := V1.

Inductive NetworkDefault := NetAllow | NetDeny.

Inductive Rule :=
| Unrestricted
| Wildcard
| RuleList (items : list string).

Definition Rule_from_raw (raw : string) : Rule :=
  let trimmed := trim raw in
  if is_empty trimmed then Unrestricted
  else if trimmed ==s "*" then Wildcard
  else RuleList (csv trimmed).

Definition Rule_to_raw (r : Rule) : string :=
  match r with
  | Unrestricted => ""
  | Wildcard => "*"
  | RuleList items => join ", " items
  end.

Definition Rule_expand (r : Rule) (tool_sets : ToolSets) : list string :=
  match r with
  | Unrestricted => []
  | Wildcard => ["*"]
  | RuleList items =>
    mjoin ((λ item, let item := trim item in
                    if is_empty item then [] else expand_set tool_sets item) <$> items)
  end.

Record Transition := mkTransition {
  tr_to : list N;
  tr_exit : bool;
  tr_gates : gmap N string;
}.

Definition Transition_from_raw (raw : string) : Transition :=
  let '(to, exit) := parse_transitions raw in mkTransition to exit ∅.

Record WorkflowStep := mkWStep {
  ws_id : N;
  ws_title : string;
  ws_body : string;
  ws_allowed : Rule;
  ws_disallowed : Rule;
  ws_network : list string;
  ws_transition : Transition;
  ws_gate : option string;
  ws_compact : bool;
  ws_judge : list JudgeQuestion;
  ws_max_visits : option N;
}.

Definition from_step (id : N) (step : Step) : WorkflowStep :=
  let gate := trim (st_gate step) in
  let raw := Transition_from_raw (st_transition step) in
  mkWStep id (st_title step) (st_body step)
    (Rule_from_raw (st_allowed step)) (Rule_from_raw (st_disallowed step))
    (csv (st_network step))
    (mkTransition (tr_to raw) (tr_exit raw) (st_transition_gates step))
    (if is_empty gate then None else Some gate)
    (st_compact step) (st_llmjudge step) (st_max_visits step).

Record SetDefinition := mkSetDef {
  sd_name : string; sd_members : list string; sd_extend : bool;
}.

Record Workflow := mkWorkflow {
  wf_version : Version;
  wf_network_default : option NetworkDefault;
  wf_rules : list string;
  wf_sets : list SetDefinition;
  wf_steps_list : list WorkflowStep;
}.

(** The prelude scan shared by the two headers: lines up to the first [#] line,
    which is still tested for the tag. *)
Definition header_value (tag : string) (stripped : string) : option string :=
  if starts_with tag (to_ascii_lowercase stripped) then
    Some (match split_once (Ascii.eqb ":") stripped with Some (_, v) => trim v | None => "" end)
  else None.

Fixpoint find_header (tag : string) (ls : list string) : option string :=
  match ls with
  | [] => None
  | l :: ls =>
    let stripped := trim l in
    match header_value tag stripped with
    | Some v => Some v
    | None => if starts_with "#" stripped then None else find_header tag ls
    end
  end.

Definition parse_version_header (markdown : string) : parse Version :=
  match find_header "[guard]" (lines markdown) with
  | None => Ok V1
  | Some value =>
    let digits := trim (trim_start_matches (ascii_in ["v"%char; "V"%char]) value) in
    if digits ==s "1" then Ok V1
    else perr 0 ("[guard] header declares unsupported IR version '" ++s digits ++s
                 "' (supported: v1)")
  end.

Definition parse_network_default_header (markdown : string) : parse (option NetworkDefault) :=
  match find_header "[network-default]" (lines markdown) with
  | None => Ok None
  | Some value =>
    let value := to_ascii_lowercase value in
    if value ==s "allow" then Ok (Some NetAllow)
    else if value ==s "deny" then Ok (Some NetDeny)
    else perr 0 ("[network-default] header must be 'allow' or 'deny', got '" ++s value ++s "'")
  end.

Definition compile (markdown : string) : parse Workflow :=
  steps ← parse_steps markdown;
  version ← parse_version_header markdown;
  network_default ← parse_network_default_header markdown;
  let rules := parse_rules_imports markdown in
  let sets := (λ '(name, members, extend), mkSetDef name members extend) <$>
                parse_prompt_sets markdown in
  Ok (mkWorkflow version network_default rules sets
        ((λ '(id, step), from_step id step) <$> btree_iter steps)).

(** The map the engine enforces: a repeated id collapses, the later one wins. *)
Definition into_steps (w : Workflow) : gmap N WorkflowStep :=
  fold_left (λ m s, <[ws_id s := s]> m) (wf_steps_list w) ∅.

(** ** Layered set resolution *)

Record ResolvedSets := mkResolved {
  rs_sets : ToolSets;
  rs_provenance : gmap string string;
  rs_import_errors : list string;
}.

Definition ResolvedSets_default : ResolvedSets := mkResolved ∅ ∅ [].

Definition apply_def (source : string) (r : ResolvedSets) (d : string * list string * bool) :
    ResolvedSets :=
  mkResolved (apply_definition (rs_sets r) d) (<[d.1.1 := source]> (rs_provenance r))
    (rs_import_errors r).

Definition apply_defs (r : ResolvedSets) (defs : list (string * list string * bool))
    (source : string) : ResolvedSets :=
  fold_left (apply_def source) defs r.

Section resolve.
(** The file system as the resolver sees it: what reading a path gives. *)
Context (read_to_string : string → result string string).
(** [Path::join] on the prompt's directory, and [Path::extension] equal to
    [toml] ignoring case. *)
Context (join_path : string → string → string) (is_registry_import : string → bool).

Definition apply_file (r : ResolvedSets) (path source : string) : ResolvedSets :=
  match read_to_string path with
  | Ok text => apply_defs r (rules_definitions text) source
  | Err _ => r
  end.

Definition import_path (base_dir : option string) (import : string) : string :=
  match base_dir with Some d => join_path d import | None => import end.

Definition apply_import (base_dir : option string) (r : ResolvedSets) (import : string) :
    ResolvedSets :=
  let path := import_path base_dir import in
  match read_to_string path with
  | Ok text => apply_defs r (rules_definitions text) ("[rules] " ++s import)
  | Err e =>
    mkResolved (rs_sets r) (rs_provenance r)
      (rs_import_errors r ++
       ["[rules] import '" ++s import ++s "' is unreadable (" ++s path ++s "): " ++s e])
  end.

(** [rules_base] and [rules] are given when the path exists; [base_dir] is the
    prompt's parent directory when it has a non-empty one. *)
Definition resolve_sets (rules_base rules base_dir : option string) (w : Workflow) :
    ResolvedSets :=
  let r := match rules_base with
           | Some base => apply_file ResolvedSets_default base "--rules-base"
           | None => ResolvedSets_default
           end in
  let r := match rules with Some p => apply_file r p "--rules" | None => r end in
  let r := fold_left (apply_import base_dir)
             (filter (λ i, is_registry_import i = false) (wf_rules w)) r in
  apply_defs r
    ((λ s, (sd_name s, sd_members s, sd_extend s)) <$> wf_sets w) "inline".
End resolve.

(** ** Lemmas *)

Lemma into_steps_lookup_from l (m : gmap N WorkflowStep) n s :
  fold_left (λ m s, <[ws_id s := s]> m) l m !! n = Some s →
  (s ∈ l ∧ ws_id s = n) ∨ m !! n = Some s.
Proof.
  revert m. induction l as [|x l IH]; intros m; cbn; [by right|].
  intros H. destruct (IH _ H) as [[? ?]|Hm]; [left; set_solver|].
  apply lookup_insert_Some in Hm as [[<- <-]|[_ ?]]; [left; set_solver|by right].
Qed.

Lemma fold_insert_nodup (l : list WorkflowStep) (m : gmap N WorkflowStep) s :
  NoDup (ws_id <$> l) → s ∈ l →
  fold_left (λ m s, <[ws_id s := s]> m) l m !! ws_id s = Some s.
Proof.
  revert m. induction l as [|x l IH]; intros m; cbn; [set_solver|].
  intros [Hx Hl]%NoDup_cons [->|Hs]%elem_of_cons; [|by apply IH].
  clear IH. assert (∀ m : gmap N WorkflowStep, m !! ws_id x = Some x →
    fold_left (λ m s, <[ws_id s := s]> m) l m !! ws_id x = Some x) as H.
  { clear m. induction l as [|y l IH]; intros m Hm; cbn; [done|].
    apply NoDup_cons in Hl as [? ?]. apply IH; [set_solver|done|].
    rewrite lookup_insert_ne; [done|]. set_solver. }
  apply H. apply lookup_insert_eq.
Qed.

(** The layering fold: the last definition of a name decides its layer. *)
Lemma apply_defs_sets r defs source :
  rs_sets (apply_defs r defs source) = fold_left apply_definition defs (rs_sets r).
Proof.
  unfold apply_defs. revert r. induction defs as [|d defs IH]; intros r; cbn; [done|].
  by rewrite IH.
Qed.

Lemma apply_defs_provenance r defs source name :
  rs_provenance (apply_defs r defs source) !! name =
  (if bool_decide (name ∈ (λ d, d.1.1) <$> defs) then Some source
   else rs_provenance r !! name).
Proof.
  unfold apply_defs. revert r. induction defs as [|d defs IH]; intros r; cbn; [done|].
  rewrite IH. cbn. rewrite lookup_insert.
  repeat (case_bool_decide || case_decide); set_solver.
Qed.

(** A name no definition mentions keeps its members. *)
Lemma apply_definitions_other defs sets name :
  name ∉ (λ d : string * list string * bool, d.1.1) <$> defs →
  fold_left apply_definition defs sets !! name = sets !! name.
Proof.
  revert sets. induction defs as [|[[n ms] ext] defs IH]; intros sets; cbn; [done|].
  intros Hn. rewrite IH by set_solver.
  destruct ext; rewrite lookup_insert_ne; set_solver.
Qed.

Lemma parse_guard_rules_into_fold text sets :
  parse_guard_rules_into text sets = fold_left apply_definition (rules_definitions text) sets.
Proof.
  unfold parse_guard_rules_into, rules_definitions. revert sets.
  induction (lines text) as [|l ls IH]; intros sets; cbn; [done|].
  rewrite IH. destruct (is_rules_line (trim l)); cbn; [|done].
  by destruct (parse_set_definition (trim l)) as [[[? ?] ?]|].
Qed.

Lemma resolve_sets_read read jp reg rb r bd w :
  rs_sets (resolve_sets read jp reg rb r bd w) =
  fold_left apply_definition ((λ s, (sd_name s, sd_members s, sd_extend s)) <$> wf_sets w)
    (rs_sets (resolve_sets read jp reg rb r bd
       (mkWorkflow (wf_version w) (wf_network_default w) (wf_rules w) [] (wf_steps_list w)))).
Proof. unfold resolve_sets. rewrite !apply_defs_sets. done. Qed.

(** ** Properties *)

(** Compilation loses no step: a compiled workflow's step map holds exactly
    the parsed steps, each compiled by [from_step] under its own number. *)
Theorem compile_steps_exact (md : string) (w : Workflow) (n : N) (s : WorkflowStep) :
  compile md = Ok w →
  (into_steps w !! n = Some s ↔
   ∃ steps st, parse_steps md = Ok steps ∧ steps !! n = Some st ∧ s = from_step n st).
Proof.
  unfold compile. intros (steps & Hs & H)%bind_ok. revert H.
  intros (v & _ & H)%bind_ok. revert H. intros (nd & _ & [= <-])%bind_ok.
  unfold into_steps; cbn. split.
  - intros H. apply into_steps_lookup_from in H as [[Hin Hid]|H]; [|by rewrite lookup_empty in H].
    apply list_elem_of_fmap in Hin as ([id st] & -> & Hin). cbn in Hid. subst id.
    apply elem_of_btree_iter in Hin. eauto.
  - intros (steps' & st & Hp & Hst & ->). rewrite Hs in Hp. injection Hp as <-.
    change n with (ws_id (from_step n st)) at 1. apply fold_insert_nodup.
    + rewrite <- list_fmap_compose.
      assert (∀ l : list (N * Step),
        (ws_id ∘ (λ '(id, step), from_step id step)) <$> l = l.*1) as ->;
        [|apply NoDup_btree_iter].
      intros l. induction l as [|[k0 v0] l IH]; cbn; [done|]. by f_equal.
    + apply list_elem_of_fmap. exists (n, st). split; [done|]. by apply elem_of_btree_iter.
Qed.

(** The prompt owns its control surface: a set the prompt defines inline
    with [[name]:] resolves to exactly the inline members whatever the rules
    files and imports say, with provenance [inline]. *)
Theorem inline_sets_win read jp reg rb r bd (w : Workflow) pre post name ms :
  wf_sets w = pre ++ mkSetDef name ms false :: post →
  name ∉ sd_name <$> post →
  rs_sets (resolve_sets read jp reg rb r bd w) !! name = Some ms ∧
  rs_provenance (resolve_sets read jp reg rb r bd w) !! name = Some "inline".
Proof.
  intros Hw Hpost. split.
  - rewrite resolve_sets_read, Hw, fmap_app, fold_left_app, fmap_cons. cbn.
    rewrite apply_definitions_other; [apply lookup_insert_eq|].
    rewrite <- list_fmap_compose. done.
  - unfold resolve_sets. rewrite apply_defs_provenance, bool_decide_true; [done|].
    rewrite <- list_fmap_compose, Hw. apply list_elem_of_fmap.
    exists (mkSetDef name ms false). split; [done|]. set_solver.
Qed.

Lemma inline_sets_win_witness :
  let w := mkWorkflow V1 None [] [mkSetDef "net-x" ["inline.example:443"] false] [] in
  rs_sets (resolve_sets (λ _, Ok "[net-x]: cli.example:443") (λ _ p, p) (λ _, false)
             (Some "base.md") (Some "rules.md") None w) !! "net-x" = Some ["inline.example:443"] ∧
  rs_provenance (resolve_sets (λ _, Ok "[net-x]: cli.example:443") (λ _ p, p) (λ _, false)
             (Some "base.md") (Some "rules.md") None w) !! "net-x" = Some "inline".
Proof. intros w. apply (inline_sets_win _ _ _ _ _ _ w [] []); [done|]. cbn. set_solver. Defined.

Definition sample_md : string := join nl ["# Step 2: Ship"; "[transition]: Exit"].

Lemma compile_steps_exact_witness :
  match compile sample_md with
  | Ok w => (into_steps w !! 2%N = Some (from_step 2 (set_transition "Exit" (set_title "Ship" Step_default))) ↔
      ∃ steps st, parse_steps sample_md = Ok steps ∧ steps !! 2%N = Some st ∧
        from_step 2 (set_transition "Exit" (set_title "Ship" Step_default)) = from_step 2 st)
  | Err _ => False
  end.
Proof.
  destruct (compile sample_md) as [w|e] eqn:E; [|vm_compute in E; discriminate].
  apply (compile_steps_exact sample_md w). exact E.
Defined.
