(* ===== verification/Rules.v ===== *)
(** * Rule evaluation ([cctui-guard/src/rules.rs])

    A tool call is judged against the allowed and disallowed keyword lists of
    the active step.  A Bash command is cut into its operator-separated
    segments and every segment must pass.  Shell tokenization ([shlex::split])
    is library code and enters as the class [Shlex], JSON printing as
    [JsonText] of [Json.v]. *)

From stdpp Require Import base decidable list gmap strings.
From Stdlib Require Import Lia ZArith Bool Ascii String.
From S2P Require Import Prelude RustStr Json.

(** [shlex::split]: [None] on an unterminated quote or escape. *)
Class Shlex := shlex_split : string → option (list string).

(** ** Constants *)

Definition BUILTIN_TOOL_KEYWORDS : list string :=
  ["read"; "grep"; "glob"; "lsp"; "webfetch"; "websearch"; "edit"; "write"; "notebookedit";
   "task"; "agent"; "toolsearch"; "todowrite"].

Definition str_in (s : string) (l : list string) : bool := existsb (String.eqb s) l.

Definition is_builtin_tool_keyword (kw : string) : bool :=
  str_in (to_ascii_lowercase kw) BUILTIN_TOOL_KEYWORDS.

Definition GIT_ARG_FLAGS : list string :=
  ["-C"; "-c"; "--git-dir"; "--work-tree"; "--namespace"; "--config-env"; "--super-prefix"].

Definition SAFE_ENV_NAMES : list string :=
  ["GIT_PAGER"; "GIT_TERMINAL_PROMPT"; "PAGER"; "LANG"; "TZ"; "NO_COLOR"; "TERM"; "CI"].

Definition SAFE_ENV_NAME_PREFIXES : list string := ["GIT_TRACE"; "LC_"].

(** ** Segments *)

(** An ampersand inside a redirection: preceded by an angle bracket or followed
    by [>]. *)
Definition is_redirect_amp (prev next : option ascii) : bool :=
  match prev with Some p => Ascii.eqb p ">" || Ascii.eqb p "<" | None => false end ||
  match next with Some n => Ascii.eqb n ">" | None => false end.

Definition head_char (s : string) : option ascii :=
  match s with "" => None | String c _ => Some c end.

Definition head_is (c : ascii) (s : string) : bool :=
  match s with "" => false | String d _ => Ascii.eqb d c end.

Definition push_seg (current : string) (segments : list string) : list string :=
  let seg := trim current in
  if is_empty seg then segments else segments ++ [seg].

(** The scan of [split_bash_segments]: the character before, the two quote
    flags, the pending text and the segments so far. *)
Fixpoint scan_segments (prev : option ascii) (in_single in_double : bool) (current : string)
    (segments : list string) (s : string) : list string :=
  match s with
  | "" => push_seg current segments
  | String c r =>
    let cur' := current ++s String c "" in
    if Ascii.eqb c "\" && negb in_single then
      match r with
      | "" => push_seg cur' segments
      | String n r2 =>
        scan_segments (Some n) in_single in_double (cur' ++s String n "") segments r2
      end
    else if Ascii.eqb c "'" && negb in_double then
      scan_segments (Some c) (negb in_single) in_double cur' segments r
    else if Ascii.eqb c dquote && negb in_single then
      scan_segments (Some c) in_single (negb in_double) cur' segments r
    else if negb in_single && negb in_double then
      if Ascii.eqb c newline || Ascii.eqb c creturn then
        scan_segments (Some c) in_single in_double "" (push_seg current segments) r
      else if Ascii.eqb c ";" || Ascii.eqb c "|" then
        match r with
        | String d r2 =>
          if Ascii.eqb c "|" && Ascii.eqb d "|" then
            scan_segments (Some d) in_single in_double "" (push_seg current segments) r2
          else scan_segments (Some c) in_single in_double "" (push_seg current segments) r
        | "" => scan_segments (Some c) in_single in_double "" (push_seg current segments) r
        end
      else if Ascii.eqb c "&" && head_is "&" r then
        match r with
        | String d r2 =>
          scan_segments (Some d) in_single in_double "" (push_seg current segments) r2
        | "" => push_seg current segments
        end
      else if Ascii.eqb c "&" && negb (is_redirect_amp prev (head_char r)) then
        scan_segments (Some c) in_single in_double "" (push_seg current segments) r
      else scan_segments (Some c) in_single in_double cur' segments r
    else scan_segments (Some c) in_single in_double cur' segments r
  end.

Definition split_bash_segments (cmd : string) : list string :=
  match scan_segments None false false "" [] cmd with
  | [] => [cmd]
  | segments => segments
  end.

(** ** Normalization *)

Definition is_git (t : string) : bool := (t ==s "git") || ends_with "/git" t.

(** What follows git's global options. *)
Fixpoint skip_git_globals (l : list string) : list string :=
  match l with
  | [] => []
  | t :: r =>
    if starts_with "-" t then
      if str_in t GIT_ARG_FLAGS then
        match r with [] => [] | _ :: r2 => skip_git_globals r2 end
      else skip_git_globals r
    else l
  end.

(** The token loop; every turn consumes a token, so [length toks] turns are
    enough ([normalize_tokens_fuel]). *)
Fixpoint normalize_tokens (fuel : nat) (toks : list string) : list string :=
  match fuel with
  | O => []
  | S fuel =>
    match toks with
    | [] => []
    | t :: r =>
      if is_git t then
        "git" :: match skip_git_globals r with
                 | [] => normalize_tokens fuel r
                 | rest => normalize_tokens fuel rest
                 end
      else t :: normalize_tokens fuel r
    end
  end.

Definition normalize_bash_segment (seg : string) : string :=
  let toks := split_whitespace seg in
  if existsb is_git toks then join " " (normalize_tokens (List.length toks) toks)
  else trim seg.

(** ** Indirection *)

Definition is_env_assignment (tok : string) : bool :=
  match split_once (Ascii.eqb "=") tok with
  | None => false
  | Some (name, _) =>
    match head_char name with
    | Some c => is_ascii_alphabetic c || Ascii.eqb c "_"
    | None => false
    end &&
    all_chars (λ c, is_ascii_alphanumeric c || Ascii.eqb c "_") name
  end.

Definition is_safe_env_assignment (tok : string) : bool :=
  let name := match split_once (Ascii.eqb "=") tok with Some (n, _) => n | None => tok end in
  str_in name SAFE_ENV_NAMES || existsb (λ p, starts_with p name) SAFE_ENV_NAME_PREFIXES.

Definition is_code_changing_git_flag (tok : string) : bool :=
  starts_with "-c" tok || (tok ==s "--config-env") ||
  starts_with "--config-env=" tok || starts_with "--exec-path=" tok.

Fixpoint git_globals_change_code (l : list string) : bool :=
  match l with
  | [] => false
  | tok :: r =>
    if starts_with "-" tok then
      if is_code_changing_git_flag tok then true else
      if str_in tok GIT_ARG_FLAGS then
        match r with [] => false | _ :: r2 => git_globals_change_code r2 end
      else git_globals_change_code r
    else false
  end.

Definition is_shell (tok : string) : bool :=
  str_in (basename tok) ["bash"; "sh"; "zsh"; "dash"; "ksh"].

Definition is_interpreter (tok : string) : bool :=
  let base := basename tok in
  starts_with "python" base || str_in base ["perl"; "ruby"; "node"].

Fixpoint take_flags (l : list string) : list string :=
  match l with
  | [] => []
  | t :: r => if starts_with "-" t then t :: take_flags r else []
  end.

Definition has_short (letters : list ascii) (flags : list string) : bool :=
  existsb (λ f, negb (starts_with "--" f) && contains_char (ascii_in letters) f) flags.

(** A token that runs what its arguments say. *)
Definition is_indirection (tok : string) (rest : list string) : bool :=
  (tok ==s "eval") || (tok ==s "xargs") ||
  (is_shell tok && has_short ["c"%char] (take_flags rest)) ||
  (is_interpreter tok && has_short ["c"%char; "e"%char] (take_flags rest)).

Fixpoint tokens_need_grant (leading : bool) (toks : list string) : bool :=
  match toks with
  | [] => false
  | tok :: rest =>
    if leading && (tok ==s "env") then tokens_need_grant true rest
    else if leading && is_env_assignment tok then
      if negb (is_safe_env_assignment tok) then true else tokens_need_grant true rest
    else if is_indirection tok rest then true
    else if is_git tok && git_globals_change_code rest then true
    else tokens_need_grant false rest
  end.

Definition HIDING_MARKS : list string := ["$("; "`"; "<<"; "<("; ">("].

Definition segment_needs_bash_grant `{Shlex} (seg : string) : bool :=
  if existsb (λ m, contains m seg) HIDING_MARKS then true else
  let toks := match shlex_split seg with Some l => l | None => split_whitespace seg end in
  tokens_need_grant true toks.

Definition grants_full_bash (allowed : list string) : bool :=
  existsb (λ kw, (kw ==s "*") || eq_ignore_ascii_case kw "bash") allowed.

(** ** Phrase matching *)

Fixpoint list_starts_with (needle hay : list string) : bool :=
  match needle, hay with
  | [], _ => true
  | n :: needle, h :: hay => (n ==s h) && list_starts_with needle hay
  | _ :: _, [] => false
  end.

(** [hay.windows(needle.len()).any(|w| w == needle)] for a non-empty needle. *)
Fixpoint contains_run (needle hay : list string) : bool :=
  list_starts_with needle hay ||
  match hay with [] => false | _ :: hay => contains_run needle hay end.

Definition phrase_matches `{Shlex} (match_str keyword : string) : bool :=
  let hay_lower := to_ascii_lowercase match_str in
  let kw_lower := to_ascii_lowercase keyword in
  match shlex_split hay_lower, shlex_split kw_lower with
  | Some hay, Some needle => match needle with [] => false | _ => contains_run needle hay end
  | _, _ => contains kw_lower hay_lower
  end.

(** Drop the leading assignments and [env] wrappers. *)
Fixpoint skip_env (l : list string) : list string :=
  match l with
  | [] => []
  | t :: r => if (t ==s "env") || is_env_assignment t then skip_env r else l
  end.

Definition phrase_matches_anchored `{Shlex} (match_str keyword : string) : bool :=
  match shlex_split (to_ascii_lowercase match_str), shlex_split (to_ascii_lowercase keyword) with
  | Some hay, Some needle =>
    match needle with
    | [] => false
    | _ =>
      if list_starts_with needle hay then true else
      match hay with
      | [] => false
      | _ :: rest => list_starts_with needle (skip_env rest)
      end
    end
  | _, _ => false
  end.

Definition has_wildcard (v : list string) : bool := existsb (λ s, s ==s "*") v.

(** The word a refusal names. *)
Definition deny_label (match_str : string) : string :=
  match split_whitespace match_str with
  | _ :: p :: _ => p
  | [p] => p
  | [] => match_str
  end.

Definition contains_kw `{Shlex} (token_match : bool) (match_str kw : string) : bool :=
  if token_match then phrase_matches match_str kw
  else contains (to_ascii_lowercase kw) (to_ascii_lowercase match_str).

Definition allows_kw `{Shlex} (token_match anchor_allowed : bool) (match_str kw : string) : bool :=
  if anchor_allowed then phrase_matches_anchored match_str kw
  else contains_kw token_match match_str kw.

Definition check_single `{Shlex} (match_str : string) (allowed disallowed : list string)
    (token_match anchor_allowed : bool) : bool * string :=
  let contains := contains_kw token_match match_str in
  let allows := allows_kw token_match anchor_allowed match_str in
  let after_disallowed :=
    match allowed with
    | [] => (true, "")
    | _ =>
      if has_wildcard allowed then (true, "")
      else if existsb allows allowed then (true, "")
      else (false, "Tool not in allowed list for this step")
    end in
  match disallowed with
  | [] => after_disallowed
  | _ =>
    if has_wildcard disallowed then
      let refuse := (false, "'" ++s deny_label match_str ++s "' not in allowed list") in
      if negb (bool_decide (allowed = [])) && negb (has_wildcard allowed) then
        if existsb allows allowed then (true, "") else refuse
      else if has_wildcard allowed then (false, "All tools blocked in this step")
      else refuse
    else
      match List.find contains disallowed with
      | Some kw => (false, "'" ++s kw ++s "' is disallowed in this step")
      | None => after_disallowed
      end
  end.

(** ** Tool calls *)

Definition command_of (tool_input : Value) : string := default "" (get_str "command" tool_input).

Definition build_match_string `{JsonText} (tool : string) (tool_input : Value) : string :=
  if tool ==s "Bash" then "Bash " ++s command_of tool_input
  else if starts_with "mcp__" tool then
    "mcp " ++s tool ++s " " ++s json_to_string tool_input
  else tool ++s " " ++s default "" (get_str "file_path" tool_input).

Definition strip_builtin (kws : list string) : list string :=
  List.filter (λ kw, negb (is_builtin_tool_keyword kw)) kws.

Definition INDIRECTION_REASON : string :=
  "shell substitution/indirection requires 'Bash' in the allowed list".

Definition check_segment `{Shlex} (allowed disallowed : list string) (seg : string) :
    bool * string :=
  let guarded := negb (bool_decide (allowed = [])) || negb (bool_decide (disallowed = [])) in
  if guarded && segment_needs_bash_grant seg && negb (grants_full_bash allowed) then
    (false, INDIRECTION_REASON)
  else check_single ("Bash " ++s normalize_bash_segment seg) allowed disallowed true true.

Fixpoint check_segments `{Shlex} (allowed disallowed : list string) (segs : list string) :
    bool * string :=
  match segs with
  | [] => (true, "")
  | seg :: segs =>
    match check_segment allowed disallowed seg with
    | (true, _) => check_segments allowed disallowed segs
    | refusal => refusal
    end
  end.

Definition check_rules `{Shlex, JsonText} (tool : string) (tool_input : Value)
    (allowed disallowed : list string) : bool * string :=
  if tool ==s "Bash" then
    check_segments (strip_builtin allowed) (strip_builtin disallowed)
      (split_bash_segments (command_of tool_input))
  else
    check_single (build_match_string tool tool_input) allowed disallowed
      (negb (starts_with "mcp__" tool)) false.

(** ** Facts: segments *)

Lemma scan_segments_cons prev in_single in_double current segments c r :
  scan_segments prev in_single in_double current segments (String c r) =
  let cur' := current ++s String c "" in
  if Ascii.eqb c "\" && negb in_single then
    match r with
    | "" => push_seg cur' segments
    | String n r2 =>
      scan_segments (Some n) in_single in_double (cur' ++s String n "") segments r2
    end
  else if Ascii.eqb c "'" && negb in_double then
    scan_segments (Some c) (negb in_single) in_double cur' segments r
  else if Ascii.eqb c dquote && negb in_single then
    scan_segments (Some c) in_single (negb in_double) cur' segments r
  else if negb in_single && negb in_double then
    if Ascii.eqb c newline || Ascii.eqb c creturn then
      scan_segments (Some c) in_single in_double "" (push_seg current segments) r
    else if Ascii.eqb c ";" || Ascii.eqb c "|" then
      match r with
      | String d r2 =>
        if Ascii.eqb c "|" && Ascii.eqb d "|" then
          scan_segments (Some d) in_single in_double "" (push_seg current segments) r2
        else scan_segments (Some c) in_single in_double "" (push_seg current segments) r
      | "" => scan_segments (Some c) in_single in_double "" (push_seg current segments) r
      end
    else if Ascii.eqb c "&" && head_is "&" r then
      match r with
      | String d r2 =>
        scan_segments (Some d) in_single in_double "" (push_seg current segments) r2
      | "" => push_seg current segments
      end
    else if Ascii.eqb c "&" && negb (is_redirect_amp prev (head_char r)) then
      scan_segments (Some c) in_single in_double "" (push_seg current segments) r
    else scan_segments (Some c) in_single in_double cur' segments r
  else scan_segments (Some c) in_single in_double cur' segments r.
Proof. reflexivity. Qed.

Lemma scan_segments_nil prev q1 q2 cur segs :
  scan_segments prev q1 q2 cur segs "" = push_seg cur segs.
Proof. reflexivity. Qed.

#[local] Arguments scan_segments : simpl never.
#[local] Arguments is_redirect_amp : simpl never.

Lemma push_seg_app current segments l :
  push_seg current (segments ++ l) = segments ++ push_seg current l.
Proof. unfold push_seg. destruct (is_empty _); [done|]. by rewrite app_assoc. Qed.

(** The pending segments are an accumulator. *)
Lemma scan_segments_acc s : ∀ prev q1 q2 cur segs,
  scan_segments prev q1 q2 cur segs s = segs ++ scan_segments prev q1 q2 cur [] s.
Proof.
  induction s as [s IH] using (induction_ltof1 _ String.length). unfold ltof in IH.
  intros prev q1 q2 cur segs. destruct s as [|c r].
  { rewrite !scan_segments_nil. by rewrite <-(push_seg_app cur segs []), app_nil_r. }
  rewrite !scan_segments_cons. cbv zeta.
  assert (Hp : ∀ x, push_seg cur segs = segs ++ push_seg cur [] ∧
    ∀ r' p q1' q2', String.length r' < String.length (String c r) →
      scan_segments p q1' q2' x (push_seg cur segs) r' =
      segs ++ scan_segments p q1' q2' x (push_seg cur []) r').
  { intros x. rewrite <-(push_seg_app cur segs []), app_nil_r. split; [done|].
    intros r' p q1' q2' Hr'. rewrite (IH r' Hr' p q1' q2' x (push_seg cur segs)).
    rewrite (IH r' Hr' p q1' q2' x (push_seg cur [])).
    rewrite <-(app_nil_r segs) at 1. by rewrite push_seg_app, <-app_assoc. }
  assert (Hc : String.length r < String.length (String c r)) by (cbn; lia).
  repeat first
    [ done
    | match goal with
      | |- scan_segments _ _ _ _ (push_seg _ _) _ = _ => apply Hp; cbn in *; lia
      | |- scan_segments _ _ _ _ _ _ = _ => apply IH; cbn in *; lia
      | |- push_seg _ _ = _ => by rewrite <-(push_seg_app _ segs []), app_nil_r
      end
    | split_match; subst ].
Qed.

(** Quotes close and no escape is left open at the end of the text. *)
Fixpoint quotes_closed (in_single in_double : bool) (s : string) : bool :=
  match s with
  | "" => negb in_single && negb in_double
  | String c r =>
    if Ascii.eqb c "\" && negb in_single then
      match r with "" => false | String _ r2 => quotes_closed in_single in_double r2 end
    else if Ascii.eqb c "'" && negb in_double then quotes_closed (negb in_single) in_double r
    else if Ascii.eqb c dquote && negb in_single then
      quotes_closed in_single (negb in_double) r
    else quotes_closed in_single in_double r
  end.

Definition JOINING : list ascii := ["&"; "|"; "<"; ">"]%char.

Fixpoint last_of (prev : option ascii) (s : string) : option ascii :=
  match s with
  | "" => prev
  | String c r => last_of (Some c) r
  end.

Definition not_joining (c : option ascii) : bool :=
  match c with Some c => negb (ascii_in JOINING c) | None => true end.

(** The operators between two commands. *)
Definition SEPARATORS : list string := ["&&"; "||"; ";"; "|"; "&"; nl].

(** The character before only matters to a leading ampersand. *)
Lemma scan_segments_prev p p' q1 q2 cur segs s :
  not_joining (head_char s) = true →
  scan_segments p q1 q2 cur segs s = scan_segments p' q1 q2 cur segs s.
Proof.
  destruct s as [|c r]; [done|]. rewrite !scan_segments_cons. intros Hc.
  destruct (Ascii.eqb_spec c "&") as [->|Hne].
  - done.
  - by destruct (Ascii.eqb c "\" && negb q1).
Qed.

Lemma scan_at_separator prev cur op s2 :
  op ∈ SEPARATORS → not_joining prev = true → not_joining (head_char s2) = true →
  scan_segments prev false false cur [] (op ++s s2) =
  push_seg cur [] ++ scan_segments None false false "" [] s2.
Proof.
  intros Hop Hprev Hs2.
  assert (Hred : ∀ p, scan_segments p false false "" (push_seg cur []) s2 =
    push_seg cur [] ++ scan_segments None false false "" [] s2).
  { intros p. rewrite scan_segments_acc. f_equal. by apply scan_segments_prev. }
  assert (Hr : is_redirect_amp prev (head_char s2) = false).
  { unfold is_redirect_amp, not_joining, ascii_in, JOINING in *.
    destruct prev, (head_char s2); cbn in *; bool_hyps; rewrite ?orb_false_iff; tauto. }
  unfold SEPARATORS in Hop. set_unfold in Hop.
  destruct Hop as [->|[->|[->|[->|[->|[->|[]]]]]]]; unfold nl; cbn [String.append];
    rewrite scan_segments_cons; cbn; try apply Hred.
  - by destruct s2.
  - destruct s2 as [|d s2]; cbn in *; [apply Hred|].
    destruct (Ascii.eqb_spec d "|") as [->|Hd]; [done|apply Hred].
  - destruct s2 as [|d s2]; cbn in *; rewrite Hr; [apply Hred|].
    destruct (Ascii.eqb_spec d "&") as [->|Hd]; [done|apply Hred].
Qed.

Lemma scan_segments_sep s1 : ∀ prev q1 q2 cur op s2,
  quotes_closed q1 q2 s1 = true → not_joining (last_of prev s1) = true →
  op ∈ SEPARATORS → not_joining (head_char s2) = true →
  scan_segments prev q1 q2 cur [] (s1 ++s op ++s s2) =
  scan_segments prev q1 q2 cur [] s1 ++ scan_segments None false false "" [] s2.
Proof.
  induction s1 as [s1 IH] using (induction_ltof1 _ String.length). unfold ltof in IH.
  intros prev q1 q2 cur op s2 Hq Hl Hop Hs2. destruct s1 as [|c r].
  { cbn in Hq. bool_hyps. subst. rewrite scan_segments_nil.
    by apply (scan_at_separator prev cur op s2). }
  assert (Hr : ∀ r' p a b cur', String.length r' < String.length (String c r) →
    quotes_closed a b r' = true → not_joining (last_of p r') = true →
    scan_segments p a b cur' (push_seg cur []) (r' ++s op ++s s2) =
    scan_segments p a b cur' (push_seg cur []) r' ++ scan_segments None false false "" [] s2).
  { intros r' p a b cur' ???. rewrite (scan_segments_acc (r' ++s _)), (scan_segments_acc r').
    rewrite <-app_assoc. f_equal. by apply IH. }
  cbn in Hq, Hl. cbn [String.append]. rewrite !scan_segments_cons. split_match.
  { destruct r as [|n r2]; [done|]. cbn. apply IH; try done. cbn. lia. }
  split_match; [by apply IH; [cbn; lia|..]|].
  split_match; [by apply IH; [cbn; lia|..]|].
  split_match; [|by apply IH; [cbn; lia|..]].
  split_match; [by apply Hr; [cbn; lia|..]|].
  destruct r as [|d r2]; cbn [String.append].
  - pose proof Hl as Hc. cbn in Hc. bool_hyps. replace (Ascii.eqb c "&") with false by done.
    replace (Ascii.eqb c "|") with false by done. rewrite orb_false_r. cbn [andb].
    destruct (Ascii.eqb c ";"); [|by apply (IH ""); [cbn; lia|..]].
    transitivity (scan_segments (Some c) q1 q2 "" (push_seg cur []) (op ++s s2)).
    + by destruct (op ++s s2).
    + by apply (Hr ""); [cbn; lia|..].
  - assert (Hd : (d = "|" ∨ d = "&")%char → quotes_closed q1 q2 r2 = true).
    { by intros [->| ->]. }
    cbn [head_is head_char].
    repeat match goal with |- context [if ?b then _ else _] => destruct b eqn:? end;
      rewrite ?andb_true_iff, ?Ascii.eqb_eq in *; first
      [ by apply (Hr (String d r2)); [cbn; lia|..]
      | by apply (IH (String d r2)); [cbn; lia|..]
      | by apply Hr; [cbn; lia|apply Hd; tauto|] ].
Qed.

(** ** Facts: the verdict *)

Section verdict.
Context `{Shlex, JsonText}.

Lemma check_segments_ok allowed disallowed segs :
  (check_segments allowed disallowed segs).1 = true ↔
  ∀ seg, seg ∈ segs → (check_segment allowed disallowed seg).1 = true.
Proof.
  induction segs as [|seg segs IH]; cbn; [set_solver|].
  destruct (check_segment allowed disallowed seg) as [[|] m] eqn:E; cbn.
  - rewrite IH. split; [|set_solver].
    intros Hall s [->|Hs]%elem_of_cons; [by rewrite E|by apply Hall].
  - split; [done|]. intros Hall. rewrite <-(Hall seg) by set_solver. by rewrite E.
Qed.

Lemma check_segments_app allowed disallowed s1 s2 :
  (check_segments allowed disallowed (s1 ++ s2)).1 =
  (check_segments allowed disallowed s1).1 && (check_segments allowed disallowed s2).1.
Proof.
  apply eq_bool_prop_intro. rewrite andb_True, !Is_true_true, !check_segments_ok.
  set_solver.
Qed.

Lemma has_wildcard_spec v : has_wildcard v = true ↔ "*" ∈ v.
Proof.
  unfold has_wildcard. rewrite existsb_exists. setoid_rewrite String.eqb_eq.
  setoid_rewrite <-list_elem_of_In. naive_solver.
Qed.

(** What a rule list permits for one match string. *)
Definition permitted (contains allows : string → Prop)
    (allowed disallowed : list string) : Prop :=
  ("*" ∈ disallowed → allowed ≠ [] ∧ ("*" ∉ allowed) ∧ ∃ kw, kw ∈ allowed ∧ allows kw) ∧
  ("*" ∉ disallowed →
    (∀ kw, kw ∈ disallowed → ¬ (contains kw)) ∧
    (allowed = [] ∨ "*" ∈ allowed ∨ ∃ kw, kw ∈ allowed ∧ allows kw)).

Lemma existsb_elem (f : string → bool) l : existsb f l = true ↔ ∃ x, x ∈ l ∧ f x = true.
Proof. rewrite existsb_exists. by setoid_rewrite list_elem_of_In. Qed.

Lemma existsb_not_elem (f : string → bool) l : existsb f l = false ↔ ∀ x, x ∈ l → f x ≠ true.
Proof. rewrite <-not_true_iff_false, existsb_elem. naive_solver. Qed.

Lemma check_single_permitted m allowed disallowed tok anch :
  (check_single m allowed disallowed tok anch).1 = true ↔
  permitted (λ kw, contains_kw tok m kw = true) (λ kw, allows_kw tok anch m kw = true)
    allowed disallowed.
Proof.
  assert (Hafter : (match allowed with
    | [] => (true, "")
    | _ => if has_wildcard allowed then (true, "")
           else if existsb (allows_kw tok anch m) allowed then (true, "")
           else (false, "Tool not in allowed list for this step")
    end).1 = true ↔ allowed = [] ∨ "*" ∈ allowed ∨
      ∃ kw, kw ∈ allowed ∧ allows_kw tok anch m kw = true).
  { rewrite <-has_wildcard_spec, <-existsb_elem.
    destruct allowed as [|k allowed]; [cbn; tauto|].
    destruct (has_wildcard _), (existsb _ _); cbn; intuition congruence. }
  unfold check_single, permitted. destruct disallowed as [|d disallowed].
  { rewrite Hafter. split; [|by intros [_ Hok]; apply Hok; set_solver].
    intros Hok. split; [intros []%elem_of_nil|]. intros _. split; [set_solver|done]. }
  rewrite <-(has_wildcard_spec (d :: disallowed)).
  destruct (has_wildcard (d :: disallowed)).
  - rewrite <-has_wildcard_spec, <-existsb_elem.
    destruct (has_wildcard allowed) eqn:Ew; rewrite ?andb_false_r; [cbn; intuition congruence|].
    rewrite andb_true_r. destruct (bool_decide (allowed = [])) eqn:Ea; bool_hyps; cbn.
    + intuition congruence.
    + destruct (existsb _ _); cbn; intuition congruence.
  - destruct (List.find _ _) as [kw|] eqn:Ef.
    + apply find_some in Ef as [Hin Hc]. apply list_elem_of_In in Hin. cbn.
      split; [done|]. intros [_ Hok]. by destruct (proj1 (Hok ltac:(done)) kw Hin).
    + rewrite Hafter. pose proof (find_none _ _ Ef) as Hn.
      setoid_rewrite <-list_elem_of_In in Hn.
      split; [|by intros [_ Hok]; apply Hok]. intros Hok. split; [done|]. intros _. split; [|done].
      intros kw Hkw Hc. by rewrite (Hn _ Hkw) in Hc.
Qed.

Lemma check_segment_ok allowed disallowed seg :
  (check_segment allowed disallowed seg).1 = true ↔
  (segment_needs_bash_grant seg = true → (allowed ≠ [] ∨ disallowed ≠ []) →
    grants_full_bash allowed = true) ∧
  permitted
    (λ kw, phrase_matches ("Bash " ++s normalize_bash_segment seg) kw = true)
    (λ kw, phrase_matches_anchored ("Bash " ++s normalize_bash_segment seg) kw = true)
    allowed disallowed.
Proof.
  unfold check_segment.
  pose proof (check_single_permitted ("Bash " ++s normalize_bash_segment seg)
    allowed disallowed true true) as Hs. cbn [contains_kw allows_kw] in Hs.
  rewrite <-Hs. clear Hs.
  destruct (segment_needs_bash_grant seg), (grants_full_bash allowed);
    rewrite ?andb_false_r, ?andb_true_r; [intuition congruence| |intuition congruence..].
  destruct (negb _ || negb _) eqn:Eg; cbn.
  - split; [done|]. intros [Hg _]. rewrite <-Hg; [done..|].
    apply orb_true_iff in Eg as [Eg|Eg]; bool_hyps; tauto.
  - apply orb_false_iff in Eg as [Ha Hd]. bool_hyps. subst. intuition congruence.
Qed.

(** A Bash command is allowed exactly when every operator-separated
    segment is: a segment that hides a command (substitution, here-document,
    [bash -c], [eval], an unsafe assignment, ...) needs the bare [Bash] or
    [*] grant whenever the step states any rule; a disallowed phrase of whole
    tokens anywhere in the segment refuses it; and a non-empty allow list
    must have a phrase standing where the command begins. *)
Theorem bash_allowed_iff input allowed disallowed :
  (check_rules "Bash" input allowed disallowed).1 = true ↔
  ∀ seg, seg ∈ split_bash_segments (command_of input) →
    (segment_needs_bash_grant seg = true →
     (strip_builtin allowed ≠ [] ∨ strip_builtin disallowed ≠ []) →
     grants_full_bash (strip_builtin allowed) = true) ∧
    permitted
      (λ kw, phrase_matches ("Bash " ++s normalize_bash_segment seg) kw = true)
      (λ kw, phrase_matches_anchored ("Bash " ++s normalize_bash_segment seg) kw = true)
      (strip_builtin allowed) (strip_builtin disallowed).
Proof.
  cbn. rewrite check_segments_ok. by setoid_rewrite check_segment_ok.
Qed.

Lemma split_bash_segments_scan cmd :
  scan_segments None false false "" [] cmd ≠ [] →
  split_bash_segments cmd = scan_segments None false false "" [] cmd.
Proof. unfold split_bash_segments. by destruct (scan_segments _ _ _ _ _ cmd). Qed.

(** C29. Two commands joined by any shell separator are allowed exactly when
    both are: chaining with [&&], [||], [;], [|], [&] or a newline never
    carries a refused command past the rules, for any rule lists.  The first
    text closes its quotes, and neither side touches the separator with an
    operator or redirection character. *)
Theorem compound_allowed_iff c1 op c2 allowed disallowed :
  op ∈ SEPARATORS →
  quotes_closed false false c1 = true →
  not_joining (last_of None c1) = true →
  not_joining (head_char c2) = true →
  scan_segments None false false "" [] c1 ≠ [] →
  scan_segments None false false "" [] c2 ≠ [] →
  let bash c := check_rules "Bash" (JObj [("command", JStr c)]) allowed disallowed in
  (bash (c1 ++s op ++s c2)).1 = (bash c1).1 && (bash c2).1.
Proof.
  intros Hop Hq Hl Hh H1 H2. cbn. unfold command_of, get_str. cbn.
  rewrite (split_bash_segments_scan c1), (split_bash_segments_scan c2) by done.
  rewrite split_bash_segments_scan; rewrite scan_segments_sep by done.
  - apply check_segments_app.
  - by destruct (scan_segments None false false "" [] c1).
Qed.

(** An allow list that names only built-in tools (the [code-read] set)
    is empty by the time a Bash command is judged, so it leaves Bash without
    any restriction: every command is allowed. *)
Theorem builtin_only_allow_list_opens_bash input allowed :
  forallb is_builtin_tool_keyword allowed = true →
  check_rules "Bash" input allowed [] = (true, "").
Proof.
  intros Hb. assert (strip_builtin allowed = []) as Hs.
  { unfold strip_builtin. induction allowed as [|kw l IH]; [done|]. cbn in Hb.
    apply andb_true_iff in Hb as [Hk Hl]. cbn. rewrite Hk. by apply IH. }
  cbn. rewrite Hs. generalize (split_bash_segments (command_of input)) as segs.
  induction segs as [|seg segs IH]; [done|]. cbn [check_segments].
  unfold check_segment. cbn. done.
Qed.

Lemma phrase_refusal input allowed disallowed seg kw :
  seg ∈ split_bash_segments (command_of input) →
  kw ∈ strip_builtin disallowed →
  phrase_matches ("Bash " ++s normalize_bash_segment seg) kw = true →
  "*" ∉ strip_builtin disallowed →
  (check_rules "Bash" input allowed disallowed).1 = false.
Proof.
  intros Hseg Hkw Hm Hw. apply not_true_is_false. cbn. rewrite check_segments_ok.
  intros Hall. specialize (Hall seg Hseg). apply check_segment_ok in Hall as [_ [_ Hd]].
  by apply (proj1 (Hd Hw) kw Hkw).
Qed.
(** A disallowed phrase wins over every allow rule, the bare [Bash] and
    [*] grants included: one segment that contains it as a run of whole
    tokens refuses the whole command. *)
Theorem disallowed_phrase_refuses input allowed disallowed seg kw :
  seg ∈ split_bash_segments (command_of input) →
  kw ∈ strip_builtin disallowed →
  phrase_matches ("Bash " ++s normalize_bash_segment seg) kw = true →
  "*" ∉ strip_builtin disallowed →
  (check_rules "Bash" input allowed disallowed).1 = false.
Proof. apply phrase_refusal. Qed.
End verdict.

(** Concrete stand-ins for the two libraries, for the witnesses: whitespace
    tokens, and JSON text that is never read. *)
Definition plain_shlex : Shlex := λ s, Some (split_whitespace s).
Definition plain_json : JsonText := {| json_to_string := λ _, "{}"; json_from_str := λ _, None |}.

Lemma compound_allowed_iff_witness :
  let bash c := @check_rules plain_shlex plain_json "Bash" (JObj [("command", JStr c)])
    ["git fetch"; "echo"] ["git push"] in
  (bash "git fetch origin && rm -rf /").1 = false ∧
  (bash "git fetch origin && rm -rf /").1 = (bash "git fetch origin ").1 && (bash " rm -rf /").1.
Proof.
  split; [by vm_compute|].
  apply (@compound_allowed_iff plain_shlex plain_json "git fetch origin " "&&" " rm -rf /");
    [set_solver|by vm_compute..].
Defined.

Lemma builtin_only_allow_list_opens_bash_witness :
  @check_rules plain_shlex plain_json "Bash" (JObj [("command", JStr "rm -rf / --no-preserve-root")])
    ["Read"; "Grep"; "Glob"] [] = (true, "").
Proof. apply builtin_only_allow_list_opens_bash. by vm_compute. Defined.

Lemma disallowed_phrase_refuses_witness :
  (@check_rules plain_shlex plain_json "Bash" (JObj [("command", JStr "ls; git -C /r push x")])
    ["Bash"; "*"] ["git push"]).1 = false.
Proof.
  apply (@disallowed_phrase_refuses plain_shlex plain_json _ _ _ "git -C /r push x" "git push");
    [set_solver|set_solver|by vm_compute|set_solver].
Defined.

(** The redirection test looks at the raw character before an ampersand,
    not at whether that character was escaped: after [\>] the shell's [&] is a
    background operator, yet the text behind it stays part of the first
    segment and is never judged on its own. *)
Theorem escaped_redirect_hides_command :
  split_bash_segments "echo \>& rm -rf x" = ["echo \>& rm -rf x"] ∧
  split_bash_segments "echo '>' & rm -rf x" = ["echo '>'"; "rm -rf x"].
Proof. by vm_compute. Qed.

(** ** Facts: git normalization *)

Lemma skip_git_globals_length l : (List.length (skip_git_globals l) ≤ List.length l)%nat.
Proof.
  induction l as [l IH] using (induction_ltof1 _ (@List.length string)). unfold ltof in IH.
  destruct l as [|t r]; cbn [skip_git_globals List.length]; [lia|].
  destruct (starts_with "-" t); [|cbn; lia].
  destruct (str_in t GIT_ARG_FLAGS).
  - destruct r as [|u r2]; cbn; [lia|]. specialize (IH r2). cbn in IH. lia.
  - specialize (IH r). cbn in IH. lia.
Qed.

(** Every turn of the token loop consumes a token. *)
Lemma normalize_tokens_fuel toks : ∀ f1 f2,
  (List.length toks ≤ f1)%nat → (List.length toks ≤ f2)%nat →
  normalize_tokens f1 toks = normalize_tokens f2 toks.
Proof.
  induction toks as [toks IH] using (induction_ltof1 _ (@List.length string)). unfold ltof in IH.
  intros f1 f2 H1 H2. destruct toks as [|t r].
  { by destruct f1, f2. }
  destruct f1 as [|f1], f2 as [|f2]; cbn in H1, H2; try lia. cbn.
  pose proof (skip_git_globals_length r) as Hsk.
  destruct (is_git t); f_equal; [destruct (skip_git_globals r) eqn:E|]; apply IH; cbn in *; lia.
Qed.
