(* ===== verification/Matcher.v ===== *)
(** * Structural argv matching ([cctui-guard/src/capability/matcher.rs])

    A capability grants a binary, optionally only some subcommands of it, and
    for those an allow list of flags.  [ExecTable_check] judges an exec by the
    path it names and the argv it passes. *)

From stdpp Require Import base decidable list gmap strings.
From Stdlib Require Import Lia ZArith Bool Ascii String.
From S2P Require Import Prelude RustStr.

(** ** Global flags *)

Record GlobalFlag := global {
  gf_name : string;
  takes_value : bool;
  needs_grant : bool;
}.

Definition GIT_GLOBALS : list GlobalFlag := [
  global "-C" true false;
  global "--git-dir" true false;
  global "--work-tree" true false;
  global "--namespace" true false;
  global "--no-pager" false false;
  global "-P" false false;
  global "-p" false false;
  global "--paginate" false false;
  global "--bare" false false;
  global "--no-optional-locks" false false;
  global "--literal-pathspecs" false false;
  global "--no-replace-objects" false false;
  global "--no-advice" false false;
  global "-c" true true;
  global "--config-env" true true;
  global "--exec-path" false true;
  global "--super-prefix" true true
].

Definition GH_GLOBALS : list GlobalFlag := [global "-R" true false; global "--repo" true false].

Definition global_model (bin : string) : option (list GlobalFlag) :=
  if bin ==s "git" then Some GIT_GLOBALS
  else if bin ==s "gh" then Some GH_GLOBALS
  else None.

(** Why a rule does not cover an argv. *)
Inductive Miss :=
| MSubcommand
| MArgv (reason : string)
| MFlag (flag : string).

Definition Miss_rank (m : Miss) : nat :=
  match m with MSubcommand => 0 | MArgv _ => 1 | MFlag _ => 2 end.

Record Invocation := mkInvocation {
  gated_globals : list string;
  inv_rest : list string;
}.

(** The stem of a flag and whether it carries an attached value. *)
Definition split_attached (s : string) : string * bool :=
  match split_once (Ascii.eqb "=") s with Some (n, _) => (n, true) | None => (s, false) end.

(** A token that ends the global flags. *)
Definition ends_globals (arg : string) : bool :=
  (arg ==s "--") || (arg ==s "-") || negb (starts_with "-" arg).

Fixpoint skip_globals (model : list GlobalFlag) (bin : string) (gated : list string)
    (args : list string) : result Miss Invocation :=
  match args with
  | [] => Ok (mkInvocation gated [])
  | arg :: rest =>
    if ends_globals arg then Ok (mkInvocation gated args) else
    let '(name, attached) := split_attached arg in
    match List.find (λ f, gf_name f ==s name) model with
    | None => Err (MArgv ("global flag " ++s name ++s " is not in the " ++s bin ++s " argv model"))
    | Some flag =>
      let gated' := if needs_grant flag then gated ++ [gf_name flag] else gated in
      if takes_value flag && negb attached then
        match rest with
        | [] => Err (MArgv ("global flag " ++s name ++s " is missing its value"))
        | _ :: rest2 => skip_globals model bin gated' rest2
        end
      else skip_globals model bin gated' rest
    end
  end.

Definition split_globals (bin : string) (args : list string) : result Miss Invocation :=
  match global_model bin with
  | None => Ok (mkInvocation [] args)
  | Some model => skip_globals model bin [] args
  end.

(** ** Rules *)

Record ExecRule := mkRule {
  er_capability : string;
  er_subcommands : option (list string);
  er_allow_flags : list string;
  er_layer : string;
}.

(** One [allow_flags] entry against a flag name. *)
Definition flag_entry (name f : string) : option bool :=
  match strip_suffix "=" f with
  | Some stem => if stem ==s name then Some true else None
  | None => if f ==s name then Some false else None
  end.

(** [Some takes_value] when the flag is allowlisted. *)
Definition ExecRule_flag (r : ExecRule) (name : string) : option bool :=
  find_map (flag_entry name) (er_allow_flags r).

(** A bundle of short flags: whether its last character takes the next
    argument as its value. *)
Fixpoint check_shorts (r : ExecRule) (shorts : list string) : result Miss bool :=
  match shorts with
  | [] => Ok false
  | c :: shorts =>
    let name := "-" ++s c in
    match ExecRule_flag r name with
    | None => Err (MFlag name)
    | Some true => Ok (bool_decide (shorts = []))
    | Some false => check_shorts r shorts
    end
  end.

(** One argument in flag position: whether it consumes the next one. *)
Definition check_arg (r : ExecRule) (arg : string) : result Miss bool :=
  match strip_prefix "--" arg with
  | Some long =>
    let '(stem, attached) := split_attached long in
    let name := "--" ++s stem in
    match ExecRule_flag r name with
    | None => Err (MFlag name)
    | Some v => Ok (v && negb attached)
    end
  | None =>
    match strip_prefix "-" arg with
    | Some shorts => if is_empty shorts then Ok false else check_shorts r (uchars shorts)
    | None => Ok false
    end
  end.

Fixpoint check_flags (r : ExecRule) (args : list string) : result Miss unit :=
  match args with
  | [] => Ok tt
  | arg :: rest =>
    if arg ==s "--" then Ok tt else
    match check_arg r arg with
    | Err m => Err m
    | Ok false => check_flags r rest
    | Ok true => match rest with [] => Ok tt | _ :: rest2 => check_flags r rest2 end
    end
  end.

Fixpoint list_prefix (w l : list string) : bool :=
  match w, l with
  | [], _ => true
  | a :: w, b :: l => (a ==s b) && list_prefix w l
  | _ :: _, [] => false
  end.

Definition ExecRule_check (r : ExecRule) (bin : string) (args : list string) : result Miss unit :=
  match er_subcommands r with
  | None => Ok tt
  | Some subcommands =>
    match split_globals bin args with
    | Err m => Err m
    | Ok inv =>
      match List.find (λ w, list_prefix w (inv_rest inv)) (split_whitespace <$> subcommands) with
      | None => Err MSubcommand
      | Some w =>
        match List.find (λ g, bool_decide (ExecRule_flag r g = None)) (gated_globals inv) with
        | Some g => Err (MFlag g)
        | None => check_flags r (drop (List.length w) (inv_rest inv))
        end
      end
    end
  end.

(** ** The table *)

Abbreviation ExecTable := (gmap string (list ExecRule)).

Definition ExecTable_insert (t : ExecTable) (bin : string) (rule : ExecRule) : ExecTable :=
  <[bin := default [] (t !! bin) ++ [rule]]> t.

Definition ExecTable_is_empty (t : ExecTable) : bool := bool_decide (t = ∅).

Definition ExecTable_rules (t : ExecTable) (bin : string) : list ExecRule := default [] (t !! bin).

(** The scan over a binary's rules: the first that covers the argv, else the
    closest miss (the first of the highest rank). *)
Fixpoint scan_rules (bin : string) (args : list string) (best : option (ExecRule * Miss))
    (rules : list ExecRule) : result (option (ExecRule * Miss)) string :=
  match rules with
  | [] => Err best
  | rule :: rules =>
    match ExecRule_check rule bin args with
    | Ok _ => Ok (er_capability rule)
    | Err miss =>
      scan_rules bin args
        (match best with
         | None => Some (rule, miss)
         | Some (_, b) => if (Miss_rank b <? Miss_rank miss)%nat then Some (rule, miss) else best
         end) rules
    end
  end.

Definition bt : string := "`".

Definition miss_message (bin : string) (rules : list ExecRule) (best : option (ExecRule * Miss)) :
    string :=
  match best with
  | Some (rule, MFlag flag) =>
    let allowed :=
      if bool_decide (er_allow_flags rule = []) then "no flags"
      else join ", " (er_allow_flags rule) in
    bt ++s bin ++s "`: flag " ++s flag ++s " is not granted by " ++s er_capability rule ++s
      " (allows " ++s allowed ++s ")"
  | Some (_, MArgv reason) => bt ++s bin ++s "`: " ++s reason
  | _ =>
    let granted := rules ≫= (λ r, default [] (er_subcommands r)) in
    bt ++s bin ++s "`: subcommand is not granted by this step's capabilities (granted: " ++s
      join ", " granted ++s ")"
  end.

Definition ExecTable_check (t : ExecTable) (path : string) (argv : list string) :
    result string string :=
  let bin := basename path in
  match t !! bin with
  | Some (r0 :: rules) =>
    match scan_rules bin (tail argv) None (r0 :: rules) with
    | Ok cap => Ok cap
    | Err best => Err (miss_message bin (r0 :: rules) best)
    end
  | _ => Err (bt ++s bin ++s "` is not granted by any capability of this step")
  end.

(** ** Reference: the argv shapes a rule grants *)

(** A flag bundle whose value-taking flag, if any, ends it; [next] when the
    value is the next argument. *)
Inductive ShortsOk (r : ExecRule) : list string → bool → Prop :=
| SO_all cs :
    Forall (λ c, ExecRule_flag r ("-" ++s c) = Some false) cs → ShortsOk r cs false
| SO_value cs c attached :
    Forall (λ c, ExecRule_flag r ("-" ++s c) = Some false) cs →
    ExecRule_flag r ("-" ++s c) = Some true →
    ShortsOk r (cs ++ c :: attached) (bool_decide (attached = [])).

(** An argument in flag position that the rule accepts; the index says whether
    the next argument is its value. *)
Inductive ArgOk (r : ExecRule) : string → bool → Prop :=
| AO_plain a : starts_with "-" a = false → ArgOk r a false
| AO_dash : ArgOk r "-" false
| AO_long stem v : ExecRule_flag r ("--" ++s stem) = Some v → ArgOk r ("--" ++s stem) v
| AO_long_attached stem value v :
    ExecRule_flag r ("--" ++s stem) = Some v → ArgOk r ("--" ++s stem ++s "=" ++s value) false
| AO_short shorts next : shorts ≠ "" → ShortsOk r (uchars shorts) next → ArgOk r ("-" ++s shorts) next.

Inductive FlagsOk (r : ExecRule) : list string → Prop :=
| FO_nil : FlagsOk r []
| FO_end rest : FlagsOk r ("--" :: rest)
| FO_arg a rest : ArgOk r a false → FlagsOk r rest → FlagsOk r (a :: rest)
| FO_last a : ArgOk r a true → FlagsOk r [a]
| FO_value a v rest : ArgOk r a true → FlagsOk r rest → FlagsOk r (a :: v :: rest).

(** The global flags before the subcommand: every one is in the binary's
    model, and one that changes what the binary runs is allowlisted. *)
Definition global_ok (r : ExecRule) (model : list GlobalFlag) (name : string) (value : bool) : Prop :=
  ∃ f, f ∈ model ∧ gf_name f = name ∧ takes_value f = value ∧
    (needs_grant f = true → is_Some (ExecRule_flag r name)).

Inductive GlobalsOk (r : ExecRule) (model : list GlobalFlag) : list string → Prop :=
| GO_nil : GlobalsOk r model []
| GO_flag a rest : global_ok r model a false → GlobalsOk r model rest → GlobalsOk r model (a :: rest)
| GO_attached a name value v rest :
    a = name ++s "=" ++s value → global_ok r model name v → GlobalsOk r model rest →
    GlobalsOk r model (a :: rest)
| GO_value a v rest :
    global_ok r model a true → GlobalsOk r model rest → GlobalsOk r model (a :: v :: rest).

(** ** Facts *)

Lemma check_shorts_ok r cs next : check_shorts r cs = Ok next → ShortsOk r cs next.
Proof.
  revert next. induction cs as [|c cs IH]; cbn; intros next.
  - intros [= <-]. by apply SO_all.
  - destruct (ExecRule_flag r _) as [[|]|] eqn:E; [|intros Hc%IH|done].
    + intros [= <-]. by apply (SO_value r [] c cs).
    + inversion Hc; subst; [by apply SO_all; constructor|].
      by apply (SO_value r (c :: _)); [constructor|].
Qed.

Lemma split_attached_cases s :
  (split_attached s = (s, false)) ∨ ∃ n v, split_attached s = (n, true) ∧ s = n ++s "=" ++s v.
Proof.
  unfold split_attached. destruct (split_once _ s) as [[n v]|] eqn:E; [right|by left].
  apply split_once_Some in E as (c & Hc & -> & _). apply Ascii.eqb_eq in Hc as <-. by exists n, v.
Qed.

Lemma check_arg_ok r a next : check_arg r a = Ok next → ArgOk r a next.
Proof.
  unfold check_arg. destruct (strip_prefix "--" a) as [long|] eqn:E.
  - apply strip_prefix_spec in E as ->.
    destruct (split_attached_cases long) as [->|(n & v & -> & ->)];
      destruct (ExecRule_flag r _) eqn:Ef; try done; intros [= <-].
    + rewrite andb_true_r. by apply AO_long.
    + rewrite andb_false_r. by eapply (AO_long_attached r n v).
  - destruct (strip_prefix "-" a) as [shorts|] eqn:E1.
    + apply strip_prefix_spec in E1 as ->. destruct (is_empty shorts) eqn:Es.
      * apply String.eqb_eq in Es as ->. intros [= <-]. apply AO_dash.
      * intros Hc%check_shorts_ok. apply AO_short; [|done]. by apply String.eqb_neq in Es.
    + intros [= <-]. apply AO_plain. apply not_true_is_false. intros (rest & ->)%starts_with_spec.
      by destruct (proj2 (strip_prefix_spec "-" ("-" ++s rest) rest) eq_refl).
Qed.

Lemma check_flags_ok r args : check_flags r args = Ok tt → FlagsOk r args.
Proof.
  induction args as [args IH] using (induction_ltof1 _ (@List.length string)). unfold ltof in IH.
  destruct args as [|a rest]; cbn; [constructor|].
  destruct (String.eqb_spec a "--") as [->|Hne]; [constructor|].
  destruct (check_arg r a) as [[|]|] eqn:Ea; [| |done]; apply check_arg_ok in Ea.
  - destruct rest as [|v rest]; [by constructor|]. intros Hf. constructor; [done|].
    apply IH; [cbn; lia|done].
  - intros Hf. constructor; [done|]. apply IH; [cbn; lia|done].
Qed.

Lemma list_prefix_spec w l : list_prefix w l = true ↔ ∃ rest, l = w ++ rest.
Proof.
  revert l. induction w as [|a w IH]; intros l; cbn; [split; eauto|].
  destruct l as [|b l]; [split; [done|by intros (? & ?)]|].
  rewrite andb_true_iff, String.eqb_eq, IH. split.
  - intros (-> & rest & ->). by exists rest.
  - intros (rest & [= -> ->]). eauto.
Qed.

Lemma skip_globals_ok r model bin args : ∀ gated inv,
  skip_globals model bin gated args = Ok inv →
  (∀ g, g ∈ gated_globals inv → is_Some (ExecRule_flag r g)) →
  (∀ g, g ∈ gated → g ∈ gated_globals inv) ∧
  ∃ globals, args = globals ++ inv_rest inv ∧ GlobalsOk r model globals.
Proof.
  induction args as [args IH] using (induction_ltof1 _ (@List.length string)). unfold ltof in IH.
  intros gated inv. destruct args as [|a rest]; cbn.
  { intros [= <-] _. split; [done|]. exists []. split; [done|constructor]. }
  destruct (ends_globals a).
  { intros [= <-] _. split; [done|]. exists []. split; [done|constructor]. }
  destruct (split_attached a) as [name att] eqn:Ea.
  destruct (List.find _ model) as [f|] eqn:Ef; [|done].
  apply find_some in Ef as [Hin Hn]. apply list_elem_of_In in Hin. apply String.eqb_eq in Hn.
  assert (Hok : ∀ inv', (∀ g, g ∈ (if needs_grant f then gated ++ [gf_name f] else gated) →
      g ∈ gated_globals inv') → (∀ g, g ∈ gated_globals inv' → is_Some (ExecRule_flag r g)) →
    (∀ g, g ∈ gated → g ∈ gated_globals inv') ∧ global_ok r model name (takes_value f)).
  { intros inv' Hg Hs. split.
    - intros g ?. apply Hg. destruct (needs_grant f); set_solver.
    - exists f. repeat split; try done. intros Hneed. apply Hs, Hg. rewrite Hneed. set_solver. }
  destruct (takes_value f && negb att) eqn:Ev.
  - bool_hyps. subst. destruct rest as [|v rest]; [done|]. intros Hr Hs.
    destruct (IH rest ltac:(cbn; lia) _ _ Hr Hs) as (Hg & gl & -> & Hgl).
    destruct (Hok inv Hg Hs) as [? Hglob]. split; [done|]. exists (a :: v :: gl).
    split; [done|]. apply GO_value; [|done].
    destruct (split_attached_cases a) as [Hsa|(? & ? & Hsa & _)]; rewrite Hsa in Ea;
      simplify_eq. by replace true with (takes_value f).
  - intros Hr Hs. destruct (IH rest ltac:(cbn; lia) _ _ Hr Hs) as (Hg & gl & -> & Hgl).
    destruct (Hok inv Hg Hs) as [? Hglob]. split; [done|]. exists (a :: gl). split; [done|].
    destruct (split_attached_cases a) as [Hsa|(n & v & Hsa & Hav)]; rewrite Hsa in Ea;
      simplify_eq.
    + rewrite andb_true_r in Ev. rewrite Ev in Hglob. by apply GO_flag.
    + by eapply GO_attached.
Qed.

Lemma exec_rule_check_parts r bin subs args :
  er_subcommands r = Some subs →
  ExecRule_check r bin args = Ok tt →
  ∃ globals sub rest,
    args = globals ++ split_whitespace sub ++ rest ∧
    sub ∈ subs ∧
    GlobalsOk r (default [] (global_model bin)) globals ∧
    FlagsOk r rest.
Proof.
  unfold ExecRule_check. intros ->.
  destruct (split_globals bin args) as [inv|] eqn:Es; [|done].
  destruct (List.find _ _) as [w|] eqn:Ew; [|done].
  destruct (List.find _ (gated_globals inv)) as [g|] eqn:Eg; [done|]. intros Hf.
  apply find_some in Ew as [Hin Hpre]. apply list_elem_of_In in Hin.
  apply list_elem_of_fmap in Hin as (sub & -> & Hsub).
  apply list_prefix_spec in Hpre as (rest & Hrest). rewrite Hrest, drop_app_length in Hf.
  assert (Hgl : ∃ globals, args = globals ++ inv_rest inv ∧
    GlobalsOk r (default [] (global_model bin)) globals).
  { unfold split_globals in Es. destruct (global_model bin) as [model|]; cbn.
    - apply (skip_globals_ok r) in Es as [_ ?]; [done|]. intros g Hg. apply not_eq_None_Some.
      intros Hn. eapply find_none in Eg; [|by apply list_elem_of_In]. by case_bool_decide.
    - simplify_eq. exists []. split; [done|constructor]. }
  destruct Hgl as (globals & -> & Hok). rewrite Hrest. exists globals, sub, rest.
  split_and!; [done|done|done|by apply check_flags_ok].
Qed.

(** What a subcommand rule lets through: the argv is global flags of the
    binary's model (one that changes what the binary runs only if allowlisted),
    then the words of a granted subcommand, then arguments whose every flag up
    to [--], short bundles taken letter by letter, is in the rule's allow list.
    For a binary without a model there are no global flags at all. *)
Theorem exec_rule_check_sound r bin subs args :
  er_subcommands r = Some subs →
  ExecRule_check r bin args = Ok tt →
  ∃ globals sub rest,
    args = globals ++ split_whitespace sub ++ rest ∧
    sub ∈ subs ∧
    GlobalsOk r (default [] (global_model bin)) globals ∧
    FlagsOk r rest.
Proof. apply exec_rule_check_parts. Qed.

Lemma FlagsOk_no_flags r args a pre post :
  er_allow_flags r = [] → FlagsOk r args → args = pre ++ a :: post → "--" ∉ pre ++ [a] →
  starts_with "-" a = true → a = "-".
Proof.
  intros Hr Hf. revert pre. assert (Hnone : ∀ n, ExecRule_flag r n = None).
  { intros n. unfold ExecRule_flag. by rewrite Hr. }
  assert (Hshort : ∀ cs b, ShortsOk r cs b → cs = []).
  { intros cs b Hs. inversion Hs as [l Hl|l c att Hl Hc]; subst.
    - destruct cs as [|c cs]; [done|]. inversion Hl as [|?? Hc]. by rewrite Hnone in Hc.
    - by rewrite Hnone in Hc. }
  assert (Huc : ∀ s, uchars s = [] → s = "").
  { intros s. destruct s as [|c s]; [done|]. cbn. destruct (uchars s); [done|].
    destruct s as [|d s]; [done|]. by destruct (is_continuation d). }
  assert (Harg : ∀ x b, ArgOk r x b → b = false ∧ (starts_with "-" x = false ∨ x = "-")).
  { intros x b Hx. inversion Hx as [? Hp| |stem v Hv|stem val v Hv|sh nx Hne Hs]; subst; [by auto..| | |].
    - by rewrite Hnone in Hv.
    - by rewrite Hnone in Hv.
    - by apply Hshort, Huc in Hs. }
  induction Hf as [|rest|x rest Hx Hf IH|x Hx|x v rest Hx Hf IH]; intros pre Heq Hend Hdash.
  - by destruct pre.
  - destruct pre; simplify_eq/=; set_solver.
  - destruct pre as [|y pre]; simplify_eq/=.
    + apply Harg in Hx as [_ [Hx|Hx]]; [congruence|done].
    + apply (IH pre); try done. set_solver.
  - by apply Harg in Hx as [? _].
  - by apply Harg in Hx as [? _].
Qed.

(** A subcommand rule with an empty flag list lets no flag through: after
    the subcommand, and up to a [--], the only argument of an accepted argv
    that starts with a dash is the lone dash. *)
Theorem flagless_rule_no_flags r bin subs args :
  er_subcommands r = Some subs → er_allow_flags r = [] →
  ExecRule_check r bin args = Ok tt →
  ∃ before sub rest, args = before ++ split_whitespace sub ++ rest ∧ sub ∈ subs ∧
    ∀ pre a post, rest = pre ++ a :: post → "--" ∉ pre ++ [a] →
      starts_with "-" a = true → a = "-".
Proof.
  intros Hs Hr Hc. destruct (exec_rule_check_parts r bin subs args Hs Hc)
    as (globals & sub & rest & -> & Hin & _ & Hf).
  exists globals, sub, rest. split_and!; [done..|].
  intros pre a post Heq. by apply (FlagsOk_no_flags r rest a pre post).
Qed.

Lemma scan_rules_ok bin args rules cap : ∀ best,
  scan_rules bin args best rules = Ok cap ↔
  ∃ pre r post, rules = pre ++ r :: post ∧ er_capability r = cap ∧
    ExecRule_check r bin args = Ok tt ∧
    Forall (λ q, ExecRule_check q bin args ≠ Ok tt) pre.
Proof.
  induction rules as [|r rules IH]; intros best; cbn.
  { split; [done|]. intros (pre & ? & ? & ? & _). by destruct pre. }
  destruct (ExecRule_check r bin args) as [[]|m] eqn:E.
  - split.
    + intros [= <-]. by exists [], r, rules.
    + intros (pre & q & post & Heq & <- & Hq & Hpre). destruct pre; simplify_eq/=; [done|].
      by inversion Hpre.
  - rewrite IH. split.
    + intros (pre & q & post & -> & ? & ? & ?). exists (r :: pre), q, post.
      split_and!; [done..|]. constructor; [congruence|done].
    + intros (pre & q & post & Heq & ? & Hq & Hpre). destruct pre; simplify_eq/=; [congruence|].
      exists pre, q, post. by inversion Hpre.
Qed.

Lemma exec_table_check_first t path argv cap :
  ExecTable_check t path argv = Ok cap ↔
  ∃ pre r post, ExecTable_rules t (basename path) = pre ++ r :: post ∧
    er_capability r = cap ∧
    ExecRule_check r (basename path) (tail argv) = Ok tt ∧
    Forall (λ q, ExecRule_check q (basename path) (tail argv) ≠ Ok tt) pre.
Proof.
  unfold ExecTable_check, ExecTable_rules.
  destruct (t !! basename path) as [[|r0 rules]|]; cbn -[scan_rules ExecRule_check].
  1,3: split; [done|]; intros ([|] & ? & ? & ? & _); done.
  pose proof (scan_rules_ok (basename path) (tail argv) (r0 :: rules) cap None) as Hs.
  rewrite <-Hs. destruct (scan_rules _ _ _ _); split; congruence.
Qed.

(** An exec is granted exactly by the first rule of the binary its path
    names that accepts the arguments after [argv[0]], and the grant names that
    rule's capability; in particular a binary without rules is refused, and
    [argv[0]] plays no part. *)
Theorem exec_table_check_iff t path argv cap :
  ExecTable_check t path argv = Ok cap ↔
  ∃ pre r post, ExecTable_rules t (basename path) = pre ++ r :: post ∧
    er_capability r = cap ∧
    ExecRule_check r (basename path) (tail argv) = Ok tt ∧
    Forall (λ q, ExecRule_check q (basename path) (tail argv) ≠ Ok tt) pre.
Proof. apply exec_table_check_first. Qed.

(** Adding a rule only adds grants: what a table granted stays granted, by
    the same capability, whatever rule is added for whatever binary. *)
Theorem exec_table_insert_mono t bin rule path argv cap :
  ExecTable_check t path argv = Ok cap →
  ExecTable_check (ExecTable_insert t bin rule) path argv = Ok cap.
Proof.
  rewrite !exec_table_check_first. intros (pre & r & post & Heq & ? & ? & ?).
  unfold ExecTable_rules, ExecTable_insert in *.
  destruct (decide (bin = basename path)) as [->|Hne].
  - rewrite lookup_insert_eq. cbn. exists pre, r, (post ++ [rule]).
    by rewrite Heq, <-app_assoc.
  - rewrite lookup_insert_ne by done. by exists pre, r, post.
Qed.

(** ** Witnesses *)

Definition push_rule : ExecRule := mkRule "git:push" (Some ["push"]) ["--set-upstream"; "-u"] "base".
Definition log_rule : ExecRule := mkRule "git:read" (Some ["status"; "log"]) [] "base".

Lemma exec_rule_check_sound_witness :
  ∃ globals sub rest,
    ["-C"; "/tmp"; "push"; "-u"; "origin"] = globals ++ split_whitespace sub ++ rest ∧
    sub ∈ ["push"] ∧ GlobalsOk push_rule (default [] (global_model "git")) globals ∧
    FlagsOk push_rule rest.
Proof. apply (exec_rule_check_sound push_rule "git"); by vm_compute. Defined.

Lemma flagless_rule_no_flags_witness :
  ∃ before sub rest, ["--no-pager"; "log"; "HEAD"] = before ++ split_whitespace sub ++ rest ∧
    sub ∈ ["status"; "log"] ∧
    ∀ pre a post, rest = pre ++ a :: post → "--" ∉ pre ++ [a] →
      starts_with "-" a = true → a = "-".
Proof. apply (flagless_rule_no_flags log_rule "git"); by vm_compute. Defined.

Lemma exec_table_insert_mono_witness :
  ExecTable_check (ExecTable_insert {["git" := [log_rule]]} "git" push_rule) "/usr/bin/git"
    ["git"; "log"] = Ok "git:read".
Proof. apply exec_table_insert_mono. by vm_compute. Defined.
