(* ===== verification/Capability.v ===== *)
(** * The capability registry ([cctui-guard/src/capability/mod.rs])

    Registry layers define capabilities; a step's grants are resolved through
    [requires] and compiled to the exec table and the host list that the exec
    interception and the egress policy enforce.  TOML parsing is library code
    and enters as the class [Toml]. *)

From stdpp Require Import base decidable list gmap strings relations.
From Stdlib Require Import Lia ZArith Bool Ascii String.
From S2P Require Import Prelude RustStr Parser Ir Matcher.

(** ** Diagnostics ([lint.rs]) *)

Inductive Severity := SevError | SevWarning.

#[export] Instance Severity_eq_dec : EqDecision Severity.
Proof. solve_decision. Defined.

Record Diagnostic := mkDiag {
  d_severity : Severity;
  d_step : option N;
  d_message : string;
}.

Definition Severity_to_string (s : Severity) : string :=
  match s with SevError => "error" | SevWarning => "warning" end.

Definition Diagnostic_to_string (d : Diagnostic) : string :=
  match d_step d with
  | Some n => Severity_to_string (d_severity d) ++s ": Step " ++s u32_to_string n ++s ": " ++s
              d_message d
  | None => Severity_to_string (d_severity d) ++s ": " ++s d_message d
  end.

(** ** Data *)

Record Sourced (T : Type) := mkSourced { sv_value : T; sv_layer : string }.
Arguments mkSourced {T} _ _.
Arguments sv_value {T} _.
Arguments sv_layer {T} _.

Record ExecSpec := mkSpec {
  es_bin : string;
  es_subcommands : option (list string);
  es_allow_flags : list string;
}.

Record CapabilityDef := mkDef {
  cd_extend : bool;
  cd_description : option string;
  cd_requires : list string;
  cd_exec : list ExecSpec;
  cd_net : list string;
  cd_assumes : list string;
}.

(** The [capability] table of a registry file. *)
Abbreviation RegistryFile := (gmap string CapabilityDef).

(** [toml::from_str::<RegistryFile>]. *)
Class Toml := toml_from_str : string → result string RegistryFile.

Record Capability := mkCap {
  cap_name : string;
  cap_description : option string;
  cap_defined_in : string;
  cap_requires : list (Sourced string);
  cap_exec : list (Sourced ExecSpec);
  cap_net : list (Sourced string);
  cap_assumes : list (Sourced string);
}.

Definition Capability_default : Capability := mkCap "" None "" [] [] [] [].

Inductive ResolveError :=
| Unknown (name : string) (via : option string)
| Cycle (path : list string).

Definition ResolveError_to_string (e : ResolveError) : string :=
  match e with
  | Unknown name None => "unknown capability '" ++s name ++s "'"
  | Unknown name (Some via) =>
    "unknown capability '" ++s name ++s "' (required by '" ++s via ++s "')"
  | Cycle path => "circular capability requires: " ++s join " -> " path
  end.

Record NetGrant := mkNet { ng_host : string; ng_capability : string }.

Record Grants := mkGrants {
  g_capabilities : list string;
  g_exec : ExecTable;
  g_net : list NetGrant;
}.

Definition Grants_default : Grants := mkGrants [] ∅ [].

Definition Grants_hosts (g : Grants) : list string := ng_host <$> g_net g.

(** ** Names and validation *)

Definition cap_word (s : string) : bool :=
  match s with "" => false | String c _ => is_ascii_alphabetic c end &&
  all_chars (λ c, is_ascii_alphanumeric c || Ascii.eqb c "-" || Ascii.eqb c "_") s.

Definition is_capability_name (token : string) : bool :=
  match split_once (Ascii.eqb ":") token with
  | Some (ns, rest) => cap_word ns && forallb cap_word (split_char ":" rest)
  | None => false
  end.

Definition validate_spec (spec : ExecSpec) : result string unit :=
  if is_empty (es_bin spec) || contains_char (Ascii.eqb "/") (es_bin spec) ||
     contains_ws (es_bin spec) then
    Err ("exec bin '" ++s es_bin spec ++s "' must be a bare binary name")
  else if match es_subcommands spec with
          | Some subs => bool_decide (subs = []) || existsb (λ s, is_empty (trim s)) subs
          | None => false
          end then
    Err ("exec '" ++s es_bin spec ++s "' has an empty subcommand list or entry")
  else
    match List.find (λ f, negb (starts_with "-" f) || (String.length f <? 2)%nat)
            (es_allow_flags spec) with
    | Some flag =>
      Err ("exec '" ++s es_bin spec ++s "' allow_flags entry '" ++s flag ++s "' is not a flag")
    | None => Ok tt
    end.

Definition validate (name : string) (def : CapabilityDef) : result string unit :=
  if negb (is_capability_name name) then
    Err "a capability name is `namespace:name` (e.g. `git:push`)"
  else
  match List.find (λ r, negb (is_capability_name r)) (cd_requires def) with
  | Some bad => Err ("requires '" ++s bad ++s "' is not a capability name")
  | None =>
    _ ← try_fold (λ _ spec, validate_spec spec) tt (cd_exec def);
    match List.find (λ h, negb (contains_char (Ascii.eqb ":") h)) (cd_net def) with
    | Some host => Err ("net entry '" ++s host ++s "' is not host:port")
    | None => Ok tt
    end
  end.

Definition sourced {T} (items : list T) (layer : string) : list (Sourced T) :=
  (λ v, mkSourced v layer) <$> items.

(** ** The registry *)

Abbreviation Registry := (gmap string Capability).

Definition apply_capability (layer : string) (reg : Registry) (entry : string * CapabilityDef) :
    Registry :=
  let '(name, def) := entry in
  let prev := default Capability_default (reg !! name) in
  let cap := if cd_extend def then prev else Capability_default in
  <[name := mkCap name
      (match cd_description def with Some d => Some d | None => cap_description cap end)
      layer
      (cap_requires cap ++ sourced (cd_requires def) layer)
      (cap_exec cap ++ sourced (cd_exec def) layer)
      (cap_net cap ++ sourced (cd_net def) layer)
      (cap_assumes cap ++ sourced (cd_assumes def) layer)]> reg.

(** The whole layer is validated before any of it is applied. *)
Definition apply_registry_file (reg : Registry) (file : RegistryFile) (layer : string) :
    result string Registry :=
  _ ← try_fold
        (λ _ '(name, def),
          map_err (λ e, layer ++s ": capability '" ++s name ++s "': " ++s e) (validate name def))
        tt (btree_str_iter file);
  Ok (fold_left (apply_capability layer) (btree_str_iter file) reg).

Definition Registry_apply `{Toml} (reg : Registry) (text layer : string) : result string Registry :=
  file ← map_err (λ e, layer ++s ": " ++s e) (toml_from_str text);
  apply_registry_file reg file layer.

(** ** Resolution *)

Fixpoint position (name : string) (l : list string) : option nat :=
  match l with
  | [] => None
  | x :: l => if x ==s name then Some 0 else S <$> position name l
  end.

(** [visit], with the [done] set and the output threaded; the stack is restored
    on every successful return.  Recursion enters a capability at most once per
    path, so one level more than there are capabilities is enough: the empty
    cycle of the last line is never the answer ([resolve_cycle]). *)
Fixpoint visit (fuel : nat) (reg : Registry) (stack : list string) (name : string)
    (st : gset string * list Capability) : result ResolveError (gset string * list Capability) :=
  let '(done, out) := st in
  match fuel with
  | O => Err (Cycle [])
  | S fuel =>
    if decide (name ∈ done) then Ok (done, out) else
    match position name stack with
    | Some pos => Err (Cycle (drop pos stack ++ [name]))
    | None =>
      match reg !! name with
      | None => Err (Unknown name (last stack))
      | Some cap =>
        '(done', out') ← try_fold (λ st req, visit fuel reg (stack ++ [name]) req st)
                           (done, out ++ [cap]) (sv_value <$> cap_requires cap);
        Ok ({[name]} ∪ done', out')
      end
    end
  end.

Definition visit_fuel (reg : Registry) : nat := S (size reg).

Definition Registry_resolve (reg : Registry) (grants : list string) :
    result ResolveError (list Capability) :=
  '(_, out) ← try_fold (λ st g, visit (visit_fuel reg) reg [] g st) (∅, []) grants;
  Ok out.

Definition exec_rule (cap : Capability) (spec : Sourced ExecSpec) : ExecRule :=
  mkRule (cap_name cap) (es_subcommands (sv_value spec)) (es_allow_flags (sv_value spec))
    (sv_layer spec).

Definition compile_spec (cap : Capability) (t : ExecTable) (spec : Sourced ExecSpec) : ExecTable :=
  ExecTable_insert t (es_bin (sv_value spec)) (exec_rule cap spec).

Definition compile_host (cap : Capability) (net : list NetGrant) (host : Sourced string) :
    list NetGrant :=
  if existsb (λ n, ng_host n ==s sv_value host) net then net
  else net ++ [mkNet (sv_value host) (cap_name cap)].

Definition compile_cap (g : Grants) (cap : Capability) : Grants :=
  mkGrants (g_capabilities g ++ [cap_name cap])
    (fold_left (compile_spec cap) (cap_exec cap) (g_exec g))
    (fold_left (compile_host cap) (cap_net cap) (g_net g)).

Definition Registry_compile (reg : Registry) (grants : list string) : result ResolveError Grants :=
  caps ← Registry_resolve reg grants;
  Ok (fold_left compile_cap caps Grants_default).

(** ** Explanation *)

Definition push_section (out title : string) (ls : list string) (always : bool) : string :=
  match ls with
  | [] => if always then out ++s "  " ++s title ++s ": (none)" ++s nl else out
  | _ =>
    fold_left (λ out line, out ++s "    " ++s line ++s nl) ls (out ++s "  " ++s title ++s ":" ++s nl)
  end.

Definition describe_exec (spec : ExecSpec) : string :=
  match es_subcommands spec with
  | None => es_bin spec ++s " (any arguments)"
  | Some subs =>
    let flags := if bool_decide (es_allow_flags spec = []) then "no flags"
                 else "flags: " ++s join ", " (es_allow_flags spec) in
    es_bin spec ++s " " ++s join " | " subs ++s " [" ++s flags ++s "]"
  end.

Definition entry_lines {T} (items : Capability → list (Sourced T)) (show : T → string)
    (resolved : list Capability) : list string :=
  resolved ≫= λ c, (λ e, show (sv_value e) ++s " (" ++s cap_name c ++s ", " ++s sv_layer e ++s ")")
                     <$> items c.

(** [None] stands for the index panic of an empty resolution, which a single
    grant never gives ([Registry_explain_total]). *)
Definition Registry_explain (reg : Registry) (name : string) : result ResolveError (option string) :=
  resolved ← Registry_resolve reg [name];
  match resolved with
  | [] => Ok None
  | root :: _ =>
    let out := name ++s " (defined in " ++s cap_defined_in root ++s ")" ++s nl in
    let out := match cap_description root with
               | Some d => out ++s "  " ++s d ++s nl
               | None => out
               end in
    let edges := resolved ≫= λ c, (λ r, cap_name c ++s " -> " ++s sv_value r ++s " (" ++s
                   sv_layer r ++s ")") <$> cap_requires c in
    let out := push_section out "requires" edges false in
    let out := push_section out "assumes" (entry_lines cap_assumes id resolved) false in
    let out := push_section out "exec" (entry_lines cap_exec describe_exec resolved) true in
    Ok (Some (push_section out "net" (entry_lines cap_net id resolved) true))
  end.

(** ** Steps *)

(** Keep the first occurrence of every token a test accepts. *)
Definition push_grant (out : list string) (token : string) : list string :=
  if is_capability_name token && negb (existsb (String.eqb token) out) then out ++ [token] else out.

Definition step_grants (step : WorkflowStep) (tool_sets : ToolSets) : list string :=
  fold_left push_grant (Rule_expand (ws_allowed step) tool_sets) [].

Definition compile_step (tool_sets : ToolSets) (reg : Registry)
    (acc : gmap N Grants * list string) (entry : N * WorkflowStep) :
    gmap N Grants * list string :=
  let '(out, errors) := acc in
  let '(id, step) := entry in
  match step_grants step tool_sets with
  | [] => (out, errors)
  | grants =>
    match Registry_compile reg grants with
    | Ok g => (<[id := g]> out, errors)
    | Err e => (out, errors ++ ["Step " ++s u32_to_string id ++s ": " ++s ResolveError_to_string e])
    end
  end.

Definition compile_steps (steps : gmap N WorkflowStep) (tool_sets : ToolSets) (reg : Registry) :
    result (list string) (gmap N Grants) :=
  let '(out, errors) := fold_left (compile_step tool_sets reg) (btree_iter steps) (∅, []) in
  match errors with [] => Ok out | _ => Err errors end.

Definition network_hosts (tokens : list string) (tool_sets : ToolSets) : list string :=
  tokens ≫= λ token,
    filter (λ h, contains_char (Ascii.eqb ":") h = true) (expand_set tool_sets (trim token)).

Definition diag (severity : Severity) (step : N) (message : string) : Diagnostic :=
  mkDiag severity (Some step) message.

Definition lint_disallowed (id : N) (token : string) : Diagnostic :=
  diag SevWarning id ("capability '" ++s token ++s
    "' in [disallowed] has no effect; capabilities are only granted").

Definition lint_host (id : N) (net : list NetGrant) (host : string) : option Diagnostic :=
  grant ← List.find (λ n, ng_host n ==s host) net;
  Some (diag SevWarning id ("[network] host " ++s host ++s
    " is already granted by capability '" ++s ng_capability grant ++s
    "'; drop it from [network]")).

Definition lint_step (tool_sets : ToolSets) (reg : Registry) (step : WorkflowStep) :
    list Diagnostic :=
  (lint_disallowed (ws_id step) <$>
     filter (λ t, is_capability_name t = true) (Rule_expand (ws_disallowed step) tool_sets)) ++
  match step_grants step tool_sets with
  | [] => []
  | grants =>
    match Registry_compile reg grants with
    | Err e => [diag SevError (ws_id step) (ResolveError_to_string e)]
    | Ok compiled =>
      omap (lint_host (ws_id step) (g_net compiled)) (network_hosts (ws_network step) tool_sets)
    end
  end.

Definition capability_lint (w : Workflow) (tool_sets : ToolSets) (reg : Registry) : list Diagnostic :=
  wf_steps_list w ≫= lint_step tool_sets reg.

(** ** Loading the layers *)

(** [Path::new(import).extension()] equal to [toml] ignoring case: the last
    component that is neither empty nor a dot names the file. *)
Definition path_file_name (p : string) : option string :=
  match last (filter (λ c, is_empty c = false ∧ c ≠ ".") (split_char "/" p)) with
  | Some ".." => None
  | o => o
  end.

Definition path_extension (p : string) : option string :=
  name ← path_file_name p;
  match rsplit_once (Ascii.eqb ".") name with
  | Some (stem, ext) => if is_empty stem then None else Some ext
  | None => None
  end.

Definition is_registry_import (import : string) : bool :=
  match path_extension import with Some e => eq_ignore_ascii_case e "toml" | None => false end.

(** What reading a registry file gives: its text, [NotFound], or another I/O
    error with its message. *)
Inductive ReadOutcome := ReadText (text : string) | NotFound (e : string) | ReadError (e : string).

Record LoadedRegistry := mkLoaded { lr_registry : Registry; lr_errors : list string }.

Section loading.
Context `{Toml} (read : string → ReadOutcome) (join_path : string → string → string).

Definition unreadable (path layer e : string) : string :=
  layer ++s ": " ++s path ++s " is unreadable: " ++s e.

Definition apply_path (loaded : LoadedRegistry) (path layer : string) (required : bool) :
    LoadedRegistry :=
  let '(mkLoaded reg errors) := loaded in
  match read path with
  | ReadText text =>
    match Registry_apply reg text layer with
    | Ok reg' => mkLoaded reg' errors
    | Err e => mkLoaded reg (errors ++ [e])
    end
  | NotFound e => if required then mkLoaded reg (errors ++ [unreadable path layer e]) else loaded
  | ReadError e => mkLoaded reg (errors ++ [unreadable path layer e])
  end.

(** [base_dir]: the prompt's parent directory when it has a non-empty one. *)
Definition resolve_registry (base pack base_dir : option string) (w : option Workflow) :
    LoadedRegistry :=
  let l := mkLoaded ∅ [] in
  let l := match base with Some p => apply_path l p "--capabilities-base" false | None => l end in
  let l := match pack with
           | Some p => if bool_decide (base = Some p) then l
                       else apply_path l p "--capabilities" false
           | None => l
           end in
  fold_left
    (λ l import,
      apply_path l (match base_dir with Some d => join_path d import | None => import end)
        ("[rules] " ++s import) true)
    (filter (λ i, is_registry_import i = true) (default [] (wf_rules <$> w))) l.
End loading.

(** ** Reference: the requires graph *)

Definition Requires (reg : Registry) (a b : string) : Prop :=
  ∃ cap, reg !! a = Some cap ∧ b ∈ (sv_value <$> cap_requires cap).

(** The names a grant list reaches. *)
Definition Reach (reg : Registry) (grants : list string) (x : string) : Prop :=
  ∃ g, g ∈ grants ∧ rtc (Requires reg) g x.

(** Every entry carries the name it is filed under. *)
Definition reg_wf (reg : Registry) : Prop := ∀ k cap, reg !! k = Some cap → cap_name cap = k.

(** ** Facts: layers *)

Lemma apply_capability_wf layer reg entry : reg_wf reg → reg_wf (apply_capability layer reg entry).
Proof.
  destruct entry as [name def]. intros Hwf k cap. cbn.
  intros [[<- <-]|[_ Hk]]%lookup_insert_Some; [done|by apply Hwf].
Qed.

Lemma apply_registry_file_wf reg file layer reg' :
  reg_wf reg → apply_registry_file reg file layer = Ok reg' → reg_wf reg'.
Proof.
  intros Hwf (_ & _ & [= <-])%bind_ok.
  revert reg Hwf. generalize (btree_str_iter file) as l. induction l as [|e l IH]; intros reg Hwf; [done|].
  by apply IH, apply_capability_wf.
Qed.

(** ** Facts: resolution *)

Section visit.
Context (reg : Registry).
Implicit Types (stack : list string) (done : gset string) (out : list Capability).

Abbreviation R := (Requires reg).

Record VInv stack done out : Prop := {
  vi_nodup : NoDup (cap_name <$> out);
  vi_names : ∀ x, x ∈ (cap_name <$> out) ↔ x ∈ done ∨ x ∈ stack;
  vi_caps : ∀ cap, cap ∈ out → reg !! cap_name cap = Some cap;
  vi_closed : ∀ x y, x ∈ done → R x y → y ∈ done;
  vi_known : ∀ x, x ∈ done → is_Some (reg !! x);
  vi_acyclic : ∀ x, x ∈ done → ¬ tc R x x;
  vi_disj : ∀ x, x ∈ stack → x ∉ done;
}.

Lemma closed_rtc done x y :
  (∀ x y, x ∈ done → R x y → y ∈ done) → x ∈ done → rtc R x y → y ∈ done.
Proof. intros Hc Hx. induction 1; eauto. Qed.

Lemma tc_first x z : tc R x z → ∃ y, R x y ∧ rtc R y z.
Proof. destruct 1 as [x y Hr|x y z Hr Ht]; exists y; split; try done. by apply tc_rtc. Qed.

Lemma position_None name l : position name l = None ↔ name ∉ l.
Proof.
  induction l as [|x l IH]; cbn; [set_solver|].
  destruct (String.eqb_spec x name) as [->|Hne]; [set_solver|].
  destruct (position name l); cbn; set_solver.
Qed.

Lemma position_Some name l pos :
  position name l = Some pos → ∃ rest, l = take pos l ++ name :: rest ∧ drop pos l = name :: rest.
Proof.
  revert pos. induction l as [|x l IH]; cbn; [done|]. intros pos.
  destruct (String.eqb_spec x name) as [->|Hne]; [intros [= <-]; by exists l|].
  destruct (position name l) as [p|]; [|done]. intros [= <-].
  destruct (IH p eq_refl) as (rest & Heq & Hd). exists rest. cbn. by rewrite <-Heq.
Qed.

Lemma VInv_push stack done out name cap :
  reg_wf reg → VInv stack done out → name ∉ done → name ∉ stack → reg !! name = Some cap →
  VInv (stack ++ [name]) done (out ++ [cap]).
Proof.
  intros Hwf [Hnd Hn Hc Hcl Hk Ha Hd] Hdone Hst Hcap. pose proof (Hwf _ _ Hcap) as Hname.
  constructor; try done.
  - rewrite fmap_app. apply NoDup_app. split_and!; [done| |cbn; apply NoDup_singleton].
    cbn. intros x Hx%Hn. set_solver.
  - intros x. rewrite fmap_app. cbn. set_solver.
  - intros c [Hc'| ->%list_elem_of_singleton]%elem_of_app; [by apply Hc|by rewrite Hname].
  - set_solver.
Qed.

Lemma VInv_pop stack done out name cap :
  VInv (stack ++ [name]) done out → name ∉ stack → reg !! name = Some cap →
  (∀ y, R name y → y ∈ done) → VInv stack ({[name]} ∪ done) out.
Proof.
  intros [Hnd Hn Hc Hcl Hk Ha Hd] Hst Hcap Hreq. constructor; try done.
  - intros x. rewrite Hn. set_solver.
  - set_solver.
  - set_solver.
  - assert (Hnd' : name ∉ done) by (apply Hd; set_solver).
    intros x Hx Hcyc. apply elem_of_union in Hx as [->%elem_of_singleton|Hx].
    + apply tc_first in Hcyc as (y & Hxy & Hyx). apply Hnd'. apply (closed_rtc done y); eauto.
    + by apply (Ha x).
  - set_solver.
Qed.

(** What a successful visit of [targets] has done. *)
Record VPost stack (targets : list string) done done' out' : Prop := {
  vp_inv : VInv stack done' out';
  vp_targets : ∀ t, t ∈ targets → t ∈ done';
  vp_mono : done ⊆ done';
  vp_reach : ∀ x, x ∈ done' → x ∈ done ∨ ∃ t, t ∈ targets ∧ rtc R t x;
}.

Lemma visit_loop stack (f : gset string * list Capability → string →
    result ResolveError (gset string * list Capability)) l : ∀ st st',
  (∀ t st st', t ∈ l → VInv stack st.1 st.2 → f st t = Ok st' →
    VPost stack [t] st.1 st'.1 st'.2) →
  VInv stack st.1 st.2 → try_fold f st l = Ok st' → VPost stack l st.1 st'.1 st'.2.
Proof.
  induction l as [|t l IH]; intros st st' Hf Hinv; cbn.
  { intros [= <-]. constructor; [done|set_solver|done|by left]. }
  intros (st1 & H1 & H2)%bind_ok.
  destruct (Hf t st st1 (list_elem_of_here _ _) Hinv H1) as [Hi1 Ht1 Hm1 Hr1].
  destruct (IH st1 st') as [Hi2 Ht2 Hm2 Hr2]; [|done..|].
  { intros u s s' Hu. apply Hf. by apply list_elem_of_further. }
  constructor; [done| |set_solver|].
  - intros x [->|Hx]%elem_of_cons; [|by apply Ht2]. apply Hm2, Ht1. set_solver.
  - intros x [[?|(u & Hu & ?)]%Hr1|(u & ? & ?)]%Hr2; [by left|right; exists t|right; exists u].
    + split; [set_solver|]. by apply list_elem_of_singleton in Hu as ->.
    + split; [set_solver|done].
Qed.

Lemma visit_ok (Hwf : reg_wf reg) fuel : ∀ stack name st st',
  VInv stack st.1 st.2 → visit fuel reg stack name st = Ok st' →
  VPost stack [name] st.1 st'.1 st'.2.
Proof.
  induction fuel as [|fuel IH]; intros stack name [dn out] st' Hinv; [done|]. cbn.
  destruct (decide (name ∈ dn)) as [Hdone|Hdone].
  { intros [= <-]. constructor; [done|set_solver|done|by left]. }
  destruct (position name stack) eqn:Hpos; [done|]. apply position_None in Hpos.
  destruct (reg !! name) as [cap|] eqn:Hcap; [|done].
  intros ([dn' out'] & Hloop & [= <-])%bind_ok.
  apply visit_loop with (stack := stack ++ [name]) in Hloop as [Hi Ht Hm Hr];
    [|intros t s s' _; apply IH|by apply VInv_push].
  cbn in *. assert (Hreq : ∀ y, R name y → y ∈ dn').
  { intros y (c & Hc & Hy). simplify_eq. by apply Ht. }
  constructor; cbn.
  - by eapply VInv_pop.
  - set_solver.
  - set_solver.
  - intros x [->%elem_of_singleton|Hx]%elem_of_union.
    + right. exists name. split; [set_solver|done].
    + apply Hr in Hx as [?|(t & Ht' & ?)]; [by left|]. right. exists name.
      split; [set_solver|]. apply (rtc_l _ _ t); [|done]. by exists cap.
Qed.

Context (grants : list string).

Definition ErrOk (e : ResolveError) : Prop :=
  match e with
  | Unknown n None => reg !! n = None ∧ n ∈ grants
  | Unknown n (Some v) => reg !! n = None ∧ Reach reg grants v ∧ R v n
  | Cycle p => ∃ x mid, p = x :: mid ++ [x] ∧ chain R p ∧ Reach reg grants x
  end.

Record SInv stack name : Prop := {
  si_head : ∃ g, g ∈ grants ∧ head (stack ++ [name]) = Some g;
  si_chain : chain R (stack ++ [name]);
  si_nodup : NoDup stack;
  si_known : ∀ x, x ∈ stack → is_Some (reg !! x);
}.

Lemma chain_rtc l z g : chain R (l ++ [z]) → head (l ++ [z]) = Some g → rtc R g z.
Proof.
  revert g. induction l as [|x l IH]; intros g Hc; cbn; [by intros [= ->]|intros [= <-]].
  destruct (l ++ [z]) as [|y l'] eqn:E; [by destruct l|].
  apply (rtc_l _ _ y).
  - apply (Hc [] x y l'). cbn. by rewrite E.
  - apply IH; [|done]. rewrite <-E. by apply (chain_app_r R [x]).
Qed.

Lemma SInv_reach stack name : SInv stack name → Reach reg grants name.
Proof. intros [(g & Hg & Hh) Hc _ _]. exists g. split; [done|]. by eapply chain_rtc. Qed.

Lemma SInv_length stack name : SInv stack name → (List.length stack ≤ size reg)%nat.
Proof.
  intros [_ _ Hnd Hk]. rewrite <-size_dom, <-(size_list_to_set (C:=gset string)) by done.
  apply subseteq_size. intros x Hx%elem_of_list_to_set. by apply elem_of_dom, Hk.
Qed.

Lemma SInv_push stack name cap req :
  SInv stack name → name ∉ stack → reg !! name = Some cap →
  req ∈ (sv_value <$> cap_requires cap) → SInv (stack ++ [name]) req.
Proof.
  intros [(g & Hg & Hh) Hc Hnd Hk] Hst Hcap Hreq. constructor.
  - exists g. split; [done|]. by destruct stack.
  - apply chain_snoc; [done|]. by exists cap.
  - apply NoDup_app. split_and!; [done|set_solver|apply NoDup_singleton].
  - intros x [?| ->%list_elem_of_singleton]%elem_of_app; [by apply Hk|by exists cap].
Qed.

Lemma visit_err fuel : ∀ stack name st e,
  SInv stack name → (S (size reg) ≤ fuel + List.length stack)%nat →
  visit fuel reg stack name st = Err e → ErrOk e.
Proof.
  induction fuel as [|fuel IH]; intros stack name [dn out] e Hs Hfuel.
  { apply SInv_length in Hs. cbn in Hfuel. lia. }
  cbn. destruct (decide (name ∈ dn)); [done|].
  destruct (position name stack) as [pos|] eqn:Hpos.
  - intros [= <-]. apply position_Some in Hpos as (rest & Heq & ->).
    exists name, rest. split_and!; [done| |by eapply SInv_reach].
    destruct Hs as [_ Hc _ _]. rewrite Heq, <-app_assoc in Hc. by apply chain_app_r in Hc.
  - apply position_None in Hpos. destruct (reg !! name) as [cap|] eqn:Hcap.
    + intros [Hl|([] & _ & [=])]%bind_err. revert Hl. apply try_fold_err.
      intros st req e' Hreq. apply IH; [by eapply SInv_push|]. rewrite length_app. cbn. lia.
    + intros [= <-]. destruct Hs as [(g & Hg & Hh) Hc _ _].
      destruct stack as [|v s] using rev_ind; cbn in *; [by simplify_eq|]. clear IHs.
      rewrite last_snoc. split_and!; [done| |].
      * exists g. split; [done|]. apply chain_app_l in Hc. apply (chain_rtc s); [done|].
        by destruct s.
      * apply (Hc s v name []). by rewrite <-app_assoc.
Qed.
End visit.

Lemma VInv_empty reg : VInv reg [] ∅ [].
Proof. constructor; try set_solver. apply NoDup_nil_2. Qed.

Lemma resolve_loop reg grants out :
  reg_wf reg → Registry_resolve reg grants = Ok out →
  ∃ dn, VPost reg [] grants ∅ dn out.
Proof.
  intros Hwf ([dn out'] & Hloop & [= <-])%bind_ok. exists dn.
  apply visit_loop with (reg := reg) (stack := []) in Hloop; [done| |apply VInv_empty].
  intros t st st' _ Hinv Hv. by eapply visit_ok.
Qed.

Lemma resolve_ok_spec reg grants out :
  reg_wf reg → Registry_resolve reg grants = Ok out →
  NoDup (cap_name <$> out) ∧
  (∀ x, x ∈ (cap_name <$> out) ↔ Reach reg grants x) ∧
  (∀ cap, cap ∈ out → reg !! cap_name cap = Some cap) ∧
  (∀ x, Reach reg grants x → ¬ tc (Requires reg) x x).
Proof.
  intros Hwf (dn & [[Hnd Hn Hc Hcl Hk Ha Hd] Ht _ Hr])%resolve_loop; [|done].
  assert (Hin : ∀ x, x ∈ dn ↔ Reach reg grants x).
  { intros x. split.
    - intros [?|(t & ? & ?)]%Hr; [set_solver|by exists t].
    - intros (g & Hg & Hgx). apply (closed_rtc reg dn g); eauto. }
  split_and!; [done| |done|].
  - intros x. rewrite Hn, <-Hin. set_solver.
  - intros x Hx%Hin. by apply Ha.
Qed.

Lemma resolve_err_spec reg grants e :
  Registry_resolve reg grants = Err e → ErrOk reg grants e.
Proof.
  intros [Hl|([] & _ & [=])]%bind_err. revert Hl. apply try_fold_err.
  intros st g e' Hg. apply visit_err; [|unfold visit_fuel; cbn [List.length]; lia].
  constructor; cbn; [by exists g| |apply NoDup_nil_2|set_solver].
  apply chain_singleton.
Qed.

Lemma chain_tc reg x mid : chain (Requires reg) (x :: mid ++ [x]) → tc (Requires reg) x x.
Proof.
  intros Hc. destruct (mid ++ [x]) as [|y l] eqn:E; [by destruct mid|].
  assert (Requires reg x y) as Hxy by (by apply (Hc [] x y l)).
  eapply tc_rtc_r; [by apply tc_once|]. apply (chain_rtc reg mid).
  - rewrite E. by apply (chain_app_r _ [x]).
  - by rewrite E.
Qed.

Section resolve_theorems.
Context (reg : Registry) (Hwf : reg_wf reg).

(** A grant list resolves exactly when every capability it reaches
    through [requires] is defined and none of them requires itself, however
    indirectly; the answer then holds each reached capability once and
    nothing else. *)
Theorem resolve_exact grants :
  (is_ok (Registry_resolve reg grants) = true ↔
     (∀ x, Reach reg grants x → is_Some (reg !! x)) ∧
     (∀ x, Reach reg grants x → ¬ tc (Requires reg) x x)) ∧
  (∀ out, Registry_resolve reg grants = Ok out →
     NoDup (cap_name <$> out) ∧
     ∀ cap, cap ∈ out ↔ Reach reg grants (cap_name cap) ∧ reg !! cap_name cap = Some cap).
Proof.
  split.
  - destruct (Registry_resolve reg grants) as [out|e] eqn:E; cbn.
    + apply resolve_ok_spec in E as (_ & Hin & Hc & Ha); [|done]. split; [|done].
      intros _. split; [|done]. intros x Hx%Hin.
      apply list_elem_of_fmap in Hx as (cap & -> & Hcap). eauto.
    + split; [done|]. intros [Hk Ha]. apply resolve_err_spec in E.
      destruct e as [n [v|]|p]; cbn in E.
      * destruct E as (Hn & (g & Hg & Hgv) & Hvn). destruct (Hk n) as [? ?]; [|congruence].
        exists g. split; [done|]. by eapply rtc_r.
      * destruct E as (Hn & Hg). destruct (Hk n) as [? ?]; [|congruence]. by exists n.
      * destruct E as (x & mid & -> & Hc & Hx). destruct (Ha x Hx). by eapply chain_tc.
  - intros out (Hnd & Hin & Hc & _)%resolve_ok_spec; [|done]. split; [done|].
    intros cap. rewrite <-Hin. split.
    + intros Hcap. split; [by apply list_elem_of_fmap_2|by apply Hc].
    + intros [(cap' & Hn & Hcap')%list_elem_of_fmap Hreg].
      pose proof (Hc _ Hcap') as H'. rewrite <-Hn in H'. congruence.
Qed.

(** A resolution error names a real fault: an unknown capability is
    absent from the registry and either granted outright or required by the
    reached capability the error names, and a cycle is a closed walk of
    [requires] edges through a reached capability.  In particular the search
    never stops for lack of depth. *)
Theorem resolve_error_sound grants e :
  Registry_resolve reg grants = Err e →
  match e with
  | Unknown n None => reg !! n = None ∧ n ∈ grants
  | Unknown n (Some v) => reg !! n = None ∧ Reach reg grants v ∧ Requires reg v n
  | Cycle p => ∃ x mid, p = x :: mid ++ [x] ∧ chain (Requires reg) p ∧ Reach reg grants x
  end.
Proof. apply resolve_err_spec. Qed.

Lemma Registry_explain_total name out :
  Registry_explain reg name = Ok out → is_Some out.
Proof.
  intros (resolved & Hr & Hout)%bind_ok. destruct resolved as [|root l]; [|injection Hout as <-; by eexists].
  apply resolve_ok_spec in Hr as (_ & Hin & _); [|done].
  assert (Hx : name ∈ cap_name <$> ([] : list Capability)).
  { apply Hin. exists name. split; [set_solver|done]. }
  by apply elem_of_nil in Hx.
Qed.
End resolve_theorems.

(** ** Facts: compilation *)

(** The rules a list of capabilities writes for a binary, in order. *)
Definition rules_for (bin : string) (caps : list Capability) : list ExecRule :=
  caps ≫= λ cap, exec_rule cap <$> filter (λ s, es_bin (sv_value s) = bin) (cap_exec cap).

Lemma compile_spec_rules bin cap specs : ∀ t,
  ExecTable_rules (fold_left (compile_spec cap) specs t) bin =
  ExecTable_rules t bin ++ (exec_rule cap <$> filter (λ s, es_bin (sv_value s) = bin) specs).
Proof.
  induction specs as [|s specs IH]; intros t; cbn [fold_left]; [cbn; by rewrite app_nil_r|].
  rewrite IH. unfold compile_spec, ExecTable_insert, ExecTable_rules.
  rewrite filter_cons. destruct (decide (es_bin (sv_value s) = bin)) as [<-|Hne].
  - rewrite lookup_insert_eq. cbn. by rewrite <-app_assoc.
  - by rewrite lookup_insert_ne.
Qed.

Lemma compile_caps_rules bin caps : ∀ g,
  ExecTable_rules (g_exec (fold_left compile_cap caps g)) bin =
  ExecTable_rules (g_exec g) bin ++ rules_for bin caps.
Proof.
  induction caps as [|cap caps IH]; intros g; cbn; [by rewrite app_nil_r|].
  rewrite IH. cbn. rewrite compile_spec_rules. by rewrite <-app_assoc.
Qed.

Lemma compile_host_spec cap net hosts x :
  x ∈ (ng_host <$> fold_left (compile_host cap) hosts net) ↔
  x ∈ (ng_host <$> net) ∨ x ∈ (sv_value <$> hosts).
Proof.
  revert net. induction hosts as [|h hosts IH]; intros net; cbn; [set_solver|].
  rewrite IH. unfold compile_host. destruct (existsb _ net) eqn:E.
  - apply existsb_exists in E as (n & Hn%list_elem_of_In & Heq%String.eqb_eq).
    assert (sv_value h ∈ (ng_host <$> net)) by (rewrite <-Heq; by apply list_elem_of_fmap_2).
    set_solver.
  - rewrite fmap_app. cbn. set_solver.
Qed.

Lemma compile_host_nodup cap net hosts :
  NoDup (ng_host <$> net) → NoDup (ng_host <$> fold_left (compile_host cap) hosts net).
Proof.
  revert net. induction hosts as [|h hosts IH]; intros net Hnd; cbn; [done|].
  apply IH. unfold compile_host. destruct (existsb _ net) eqn:E; [done|].
  rewrite fmap_app. apply NoDup_app. split_and!; [done| |apply NoDup_singleton].
  intros x (n & -> & Hn)%list_elem_of_fmap Hx. cbn in Hx. apply list_elem_of_singleton in Hx.
  apply not_true_iff_false in E. apply E. apply existsb_exists. exists n.
  split; [by apply list_elem_of_In|]. by rewrite Hx, String.eqb_refl.
Qed.

Lemma compile_caps_hosts caps : ∀ g,
  NoDup (Grants_hosts g) →
  NoDup (Grants_hosts (fold_left compile_cap caps g)) ∧
  ∀ h, h ∈ Grants_hosts (fold_left compile_cap caps g) ↔
    h ∈ Grants_hosts g ∨ ∃ cap, cap ∈ caps ∧ h ∈ (sv_value <$> cap_net cap).
Proof.
  induction caps as [|cap caps IH]; intros g Hnd; cbn; [set_solver|].
  destruct (IH (compile_cap g cap)) as [Hnd' Hin]; [by apply compile_host_nodup|].
  split; [done|]. intros h. rewrite Hin. cbn. unfold Grants_hosts. cbn.
  rewrite compile_host_spec. set_solver.
Qed.

Lemma scan_rules_is_ok bin args rules best :
  is_ok (scan_rules bin args best rules) = existsb (λ r, is_ok (ExecRule_check r bin args)) rules.
Proof.
  revert best. induction rules as [|r rules IH]; intros best; cbn; [done|].
  by destruct (ExecRule_check r bin args).
Qed.

Lemma exec_table_is_ok t path argv :
  is_ok (ExecTable_check t path argv) =
  existsb (λ r, is_ok (ExecRule_check r (basename path) (tail argv)))
    (ExecTable_rules t (basename path)).
Proof.
  unfold ExecTable_check, ExecTable_rules.
  destruct (t !! basename path) as [[|r0 rules]|]; cbn -[scan_rules existsb]; [done| |done].
  rewrite <-(scan_rules_is_ok _ _ _ None). by destruct (scan_rules _ _ _ _).
Qed.

(** C34. Least privilege of a compiled grant list: an exec passes exactly when
    some capability the grants reach has an exec entry for the binary its path
    names that accepts the arguments, and a host is in the egress list exactly
    when a reached capability lists it, each host once. *)
Theorem compile_least_privilege reg grants g :
  reg_wf reg → Registry_compile reg grants = Ok g →
  (∀ path argv, is_ok (ExecTable_check (g_exec g) path argv) = true ↔
     ∃ x cap spec, Reach reg grants x ∧ reg !! x = Some cap ∧ spec ∈ cap_exec cap ∧
       es_bin (sv_value spec) = basename path ∧
       ExecRule_check (exec_rule cap spec) (basename path) (tail argv) = Ok tt) ∧
  (∀ h, h ∈ Grants_hosts g ↔
     ∃ x cap, Reach reg grants x ∧ reg !! x = Some cap ∧ h ∈ (sv_value <$> cap_net cap)) ∧
  NoDup (Grants_hosts g).
Proof.
  intros Hwf (caps & Hres & [= <-])%bind_ok.
  destruct (resolve_ok_spec reg grants caps Hwf Hres) as (_ & Hin & Hc & _).
  assert (Hcaps : ∀ cap, cap ∈ caps ↔ ∃ x, Reach reg grants x ∧ reg !! x = Some cap).
  { intros cap. split.
    - intros Hcap. exists (cap_name cap). split; [|by apply Hc].
      by apply Hin, list_elem_of_fmap_2.
    - intros (x & Hx%Hin & Hreg). apply list_elem_of_fmap in Hx as (c & -> & Hcc).
      pose proof (Hc _ Hcc). congruence. }
  destruct (compile_caps_hosts caps Grants_default) as [Hnd Hh]; [apply NoDup_nil_2|].
  split_and!; [|intros h; rewrite Hh; set_solver|done].
  intros path argv. rewrite exec_table_is_ok, compile_caps_rules, existsb_exists. cbn.
  unfold rules_for. setoid_rewrite <-list_elem_of_In. setoid_rewrite list_elem_of_bind.
  split.
  - intros (r & (cap & Hr & Hcap%Hcaps) & Hok). destruct Hcap as (x & Hx & Hreg).
    apply list_elem_of_fmap in Hr as (spec & -> & [Hb Hs]%list_elem_of_filter).
    exists x, cap, spec. split_and!; try done. by destruct (ExecRule_check _ _ _) as [[]|].
  - intros (x & cap & spec & Hx & Hreg & Hs & Hb & Hok). exists (exec_rule cap spec).
    split; [|by rewrite Hok]. exists cap. split; [|apply Hcaps; eauto].
    apply list_elem_of_fmap_2, list_elem_of_filter. done.
Qed.

(** ** Facts: layers and steps *)

(** The entry a layer's definition leaves behind. *)
Definition layered (layer name : string) (prev : option Capability) (def : CapabilityDef) :
    Capability :=
  let base := if cd_extend def then default Capability_default prev else Capability_default in
  mkCap name (match cd_description def with Some d => Some d | None => cap_description base end)
    layer
    (cap_requires base ++ sourced (cd_requires def) layer)
    (cap_exec base ++ sourced (cd_exec def) layer)
    (cap_net base ++ sourced (cd_net def) layer)
    (cap_assumes base ++ sourced (cd_assumes def) layer).

Lemma fold_apply_lookup layer l k : ∀ reg,
  NoDup l.*1 →
  fold_left (apply_capability layer) l reg !! k =
  match (list_to_map l : gmap string CapabilityDef) !! k with
  | Some def => Some (layered layer k (reg !! k) def)
  | None => reg !! k
  end.
Proof.
  induction l as [|[name def] l IH]; intros reg Hnd; cbn; [by rewrite lookup_empty|].
  apply NoDup_cons in Hnd as [Hni Hnd]. rewrite IH by done.
  destruct (decide (name = k)) as [->|Hne].
  - rewrite !lookup_insert_eq, not_elem_of_list_to_map_1 by done. done.
  - by rewrite !lookup_insert_ne by done.
Qed.

(** Applying a registry layer: every definition of the file was valid;
    a plain definition replaces the capability outright, so nothing an earlier
    layer wrote survives under that name; [extend] appends to it, keeping the
    earlier entries with the layer that wrote them; every other capability is
    untouched, and entries stay filed under their own name. *)
Theorem registry_layer_exact reg file layer reg' :
  apply_registry_file reg file layer = Ok reg' →
  (∀ name def, file !! name = Some def → validate name def = Ok tt) ∧
  (∀ name, reg' !! name =
     match file !! name with
     | Some def => Some (layered layer name (reg !! name) def)
     | None => reg !! name
     end) ∧
  (reg_wf reg → reg_wf reg').
Proof.
  intros Happ. split_and!; [| |intros Hwf; by eapply apply_registry_file_wf].
  - intros name def Hdef%elem_of_btree_str_iter. apply bind_ok in Happ as ([] & Hval & _).
    revert Hval Hdef. generalize (btree_str_iter file) as l. induction l as [|[n d] l IH]; cbn.
    + intros _ []%elem_of_nil.
    + intros ([] & Hv & Hl)%bind_ok [[= -> ->]|Hin]%elem_of_cons; [|by apply IH].
      by destruct (validate n d) as [[]|].
  - intros name. apply bind_ok in Happ as (_ & _ & [= <-]).
    rewrite fold_apply_lookup by apply NoDup_btree_str_iter. by rewrite btree_str_iter_map.
Qed.

Lemma compile_steps_loop tool_sets reg l : ∀ out errors out',
  NoDup l.*1 →
  fold_left (compile_step tool_sets reg) l (out, errors) = (out', []) →
  errors = [] ∧
  (∀ id, id ∉ l.*1 → out' !! id = out !! id) ∧
  (∀ id step, (id, step) ∈ l →
     match step_grants step tool_sets with
     | [] => out' !! id = out !! id
     | grants => ∃ g, Registry_compile reg grants = Ok g ∧ out' !! id = Some g
     end).
Proof.
  induction l as [|[i s] l IH]; intros out errors out' Hnd; cbn [fold_left].
  { intros [= -> ->]. split_and!; [done..|]. intros ?? []%elem_of_nil. }
  cbn in Hnd. apply NoDup_cons in Hnd as [Hi Hnd].
  destruct (compile_step tool_sets reg (out, errors) (i, s)) as [out1 err1] eqn:E1.
  intros (-> & Hother & Hin)%IH; [|done]. unfold compile_step in E1.
  assert (Hstep : errors = [] ∧ (∀ id, id ≠ i → out1 !! id = out !! id) ∧
    match step_grants s tool_sets with
    | [] => out1 !! i = out !! i
    | grants => ∃ g, Registry_compile reg grants = Ok g ∧ out1 !! i = Some g
    end).
  { destruct (step_grants s tool_sets) as [|g0 gs]; [by simplify_eq|].
    destruct (Registry_compile reg (g0 :: gs)) as [g|e]; simplify_eq.
    - split_and!; [done| |exists g; by rewrite lookup_insert_eq].
      intros id Hne. by rewrite lookup_insert_ne.
    - by destruct errors. }
  destruct Hstep as (-> & Hne & Hs). split_and!; [done| |].
  - intros id [? ?]%not_elem_of_cons. rewrite Hother by done. by apply Hne.
  - intros id step [[= -> ->]|Hl]%elem_of_cons.
    + rewrite Hother by done. exact Hs.
    + specialize (Hin id step Hl). assert (id ≠ i) as Hii.
      { intros ->. apply Hi. by apply (list_elem_of_fmap_2 fst) in Hl. }
      destruct (step_grants step tool_sets); [by rewrite Hin, Hne|done].
Qed.

(** When the steps of a workflow compile, every step that grants
    capabilities has exactly the compiled table of its own grants, and a step
    without grants has no entry (its execs stay phrase-checked only). *)
Theorem step_tables_exact steps tool_sets reg out :
  compile_steps steps tool_sets reg = Ok out →
  ∀ id step, steps !! id = Some step →
    match step_grants step tool_sets with
    | [] => out !! id = None
    | grants => ∃ g, Registry_compile reg grants = Ok g ∧ out !! id = Some g
    end.
Proof.
  unfold compile_steps. destruct (fold_left _ _ _) as [out' errors] eqn:E.
  destruct errors; [|done]. intros [= <-] id step Hid%elem_of_btree_iter.
  apply compile_steps_loop in E as (_ & _ & Hin); [|apply NoDup_btree_iter].
  specialize (Hin id step Hid). by rewrite lookup_empty in Hin.
Qed.

(** ** Witnesses *)

Definition sample_file : RegistryFile :=
  <["git:read" := mkDef false None [] [mkSpec "git" (Some ["status"; "log"]) []] [] []]>
  {["git:push" := mkDef false (Some "push") ["git:read"]
      [mkSpec "git" (Some ["push"]) ["-u"]] ["github.com:443"] []]}.

Definition sample_registry : Registry :=
  match apply_registry_file ∅ sample_file "base" with Ok r => r | Err _ => ∅ end.

Lemma empty_reg_wf : reg_wf ∅.
Proof. intros k cap H. by rewrite lookup_empty in H. Qed.

Lemma sample_registry_wf : reg_wf sample_registry.
Proof.
  unfold sample_registry. destruct (apply_registry_file _ _ _) eqn:E; [|apply empty_reg_wf].
  eapply apply_registry_file_wf; [|done]. apply empty_reg_wf.
Qed.

Lemma resolve_exact_witness :
  is_ok (Registry_resolve sample_registry ["git:push"]) = true ∧
  ∀ x, Reach sample_registry ["git:push"] x → ¬ tc (Requires sample_registry) x x.
Proof.
  split; [by vm_compute|].
  apply (proj1 (resolve_exact sample_registry sample_registry_wf ["git:push"])). by vm_compute.
Defined.

Lemma resolve_error_sound_witness :
  sample_registry !! "git:nope" = None ∧ "git:nope" ∈ ["git:nope"].
Proof.
  apply (resolve_error_sound sample_registry ["git:nope"] (Unknown "git:nope" None)).
  by vm_compute.
Defined.

Definition sample_grants : Grants :=
  match Registry_compile sample_registry ["git:push"] with Ok g => g | Err _ => Grants_default end.

Lemma compile_least_privilege_witness :
  Grants_hosts sample_grants = ["github.com:443"] ∧
  ∃ x cap, Reach sample_registry ["git:push"] x ∧ sample_registry !! x = Some cap ∧
    "github.com:443" ∈ (sv_value <$> cap_net cap).
Proof.
  split; [by vm_compute|].
  apply (compile_least_privilege sample_registry ["git:push"] sample_grants sample_registry_wf);
    [by vm_compute|]. vm_compute. apply list_elem_of_here.
Defined.

Lemma registry_layer_exact_witness :
  apply_registry_file ∅ sample_file "base" = Ok sample_registry ∧
  (∀ name, sample_registry !! name =
     match sample_file !! name with
     | Some def => Some (layered "base" name ((∅ : Registry) !! name) def)
     | None => (∅ : Registry) !! name
     end).
Proof.
  split; [vm_compute; reflexivity|].
  apply (registry_layer_exact ∅ sample_file "base" sample_registry). vm_compute. reflexivity.
Defined.

Definition sample_step : WorkflowStep :=
  from_step 1 (set_allowed "git:push, Read" Step_default).

Lemma step_tables_exact_witness :
  ∃ g, Registry_compile sample_registry ["git:push"] = Ok g ∧
    ({[1%N := sample_grants]} : gmap N Grants) !! 1%N = Some g.
Proof.
  assert (E : step_grants sample_step ∅ = ["git:push"]) by (by vm_compute).
  assert (H1 : compile_steps {[1%N := sample_step]} ∅ sample_registry =
    Ok {[1%N := sample_grants]}) by (vm_compute; reflexivity).
  pose proof (step_tables_exact _ _ _ _ H1 1%N sample_step (lookup_singleton_eq _ _)) as H.
  rewrite E in H. exact H.
Defined.
