(* ===== verification/DecisionLog.v ===== *)
(** * The decision log and its report ([cctui-guard/src/decision_log.rs])

    Records, the timestamp text and its inverse, and the aggregation of a log
    into the end-of-run report.  Appending a line to the file and the JSON text
    of a record are left to the operating system and serde_json. *)

From stdpp Require Import base decidable list gmap strings sorting.
From Stdlib Require Import Lia ZArith Bool Ascii String.
From S2P Require Import Prelude RustStr Json.

#[local] Open Scope Z_scope.

Inductive Source := SrcGuard | SrcProxy | SrcExec.
Inductive Kind := KCheck | KTransition | KEnter | KNetwork | KExec.

#[export] Instance Kind_eq_dec : EqDecision Kind.
Proof. solve_decision. Defined.

Record Decision := mkDecision {
  dc_ts : string;
  dc_source : Source;
  dc_kind : Kind;
  dc_step : option Z;
  dc_tool : option string;
  dc_target : string;
  dc_verdict : string;
  dc_rule : string;
  dc_argv : list string;
}.

Definition verdict_word (allowed : bool) : string := if allowed then "allow" else "deny".

(** The five recorders; [ts] is the [now_ts()] of the call. *)
Definition log_check (ts : string) (step : Z) (tool target : string) (allowed : bool)
    (rule : string) : Decision :=
  mkDecision ts SrcGuard KCheck (Some step) (Some tool) target (verdict_word allowed) rule [].

Definition log_enter (ts : string) (step : Z) : Decision :=
  mkDecision ts SrcGuard KEnter (Some step) None "" "enter" "" [].

Definition log_transition (ts : string) (from : Z) (target verdict rule : string) : Decision :=
  mkDecision ts SrcGuard KTransition (Some from) None target verdict rule [].

Definition log_exec (ts : string) (step : option Z) (path : string) (argv : list string)
    (allowed : bool) (rule : string) : Decision :=
  mkDecision ts SrcExec KExec step (Some path) (join " " argv) (verdict_word allowed) rule argv.

Definition log_network (ts : string) (host_port : string) (allowed : bool) (rule : string) :
    Decision :=
  mkDecision ts SrcProxy KNetwork None None host_port (verdict_word allowed) rule [].

(** ** Timestamps *)

Definition civil_from_days (z : Z) : Z * Z * Z :=
  let z := i64w (z + 719468) in
  let era := Z.quot (if 0 <=? z then z else i64w (z - 146096)) 146097 in
  let doe := i64w (z - era * 146097) in
  let yoe := Z.quot (doe - Z.quot doe 1460 + Z.quot doe 36524 - Z.quot doe 146096) 365 in
  let y := i64w (yoe + era * 400) in
  let doy := doe - (365 * yoe + Z.quot yoe 4 - Z.quot yoe 100) in
  let mp := Z.quot (5 * doy + 2) 153 in
  let d := doy - Z.quot (153 * mp + 2) 5 + 1 in
  let m := if mp <? 10 then mp + 3 else mp - 9 in
  (if m <=? 2 then i64w (y + 1) else y, m, d).

Definition days_from_civil (y m d : Z) : Z :=
  let y := if m <=? 2 then i64w (y - 1) else y in
  let era := Z.quot (if 0 <=? y then y else i64w (y - 399)) 400 in
  let yoe := i64w (y - era * 400) in
  let doy := i64w (Z.quot (i64w (153 * (if 2 <? m then m - 3 else m + 9) + 2)) 5 + d - 1) in
  let doe := i64w (yoe * 365 + Z.quot yoe 4 - Z.quot yoe 100 + doy) in
  i64w (era * 146097 + doe - 719468).

(** [{n:0w}] of a non-negative integer. *)
Fixpoint zeros (n : nat) : string := match n with O => "" | S n => String "0" (zeros n) end.

Definition pad (w : nat) (n : Z) : string :=
  let s := u32_to_string (Z.to_N n) in zeros (w - String.length s) ++s s.

(** [now_ts()] at [secs] seconds and [millis] milliseconds since the epoch; the
    year of a non-negative day count is non-negative. *)
Definition now_ts (secs millis : Z) : string :=
  let days := Z.quot secs 86400 in
  let tod := Z.rem secs 86400 in
  let '(y, mo, d) := civil_from_days days in
  pad 4 y ++s "-" ++s pad 2 mo ++s "-" ++s pad 2 d ++s "T" ++s
  pad 2 (Z.quot tod 3600) ++s ":" ++s pad 2 (Z.quot (Z.rem tod 3600) 60) ++s ":" ++s
  pad 2 (Z.rem tod 60) ++s "." ++s pad 3 millis ++s "Z".

Definition epoch_millis (ts : string) : option Z :=
  '(date, rest) ← split_once (Ascii.eqb "T") ts;
  rest ← strip_suffix "Z" rest;
  let dparts := split_char "-" date in
  y ← dparts !! 0%nat ≫= parse_i64;
  mo ← dparts !! 1%nat ≫= parse_i64;
  d ← dparts !! 2%nat ≫= parse_i64;
  let '(time, millis) := default (rest, "0") (split_once (Ascii.eqb ".") rest) in
  let tparts := split_char ":" time in
  h ← tparts !! 0%nat ≫= parse_i64;
  mi ← tparts !! 1%nat ≫= parse_i64;
  s ← tparts !! 2%nat ≫= parse_i64;
  millis ← parse_i64 millis;
  Some (i64w ((days_from_civil y mo d * 86400 + h * 3600 + mi * 60 + s) * 1000 + millis)).

Definition saturating_sub (a b : Z) : Z := Z.max i64_min (Z.min i64_max (a - b)).

Definition duration_secs (start finish : string) : option Z :=
  e ← epoch_millis finish;
  s ← epoch_millis start;
  Some (Z.quot (saturating_sub e s) 1000).

(** ** The report *)

Definition str_leb (a b : string) : bool := String.leb a b.
Definition str_ltb (a b : string) : bool := String.ltb a b.

Fixpoint take_while {A} (p : A → bool) (l : list A) : list A :=
  match l with [] => [] | x :: l => if p x then x :: take_while p l else [] end.

Definition step_at (timeline : list (string * Z)) (ts : string) : option Z :=
  snd <$> last (take_while (λ e, str_leb e.1 ts) timeline).

Record Agg := mkAgg { ag_count : N; ag_first : string; ag_last : string }.

Definition Agg_default : Agg := mkAgg 0 "" "".

Definition Agg_observe (ts : string) (a : Agg) : Agg :=
  mkAgg (ag_count a + 1)
    (if (ag_count a =? 0)%N || str_ltb ts (ag_first a) then ts else ag_first a)
    (if str_ltb (ag_last a) ts then ts else ag_last a).

(** A stable sort by timestamp. *)
Fixpoint insert_by_ts (x : string * Z) (l : list (string * Z)) : list (string * Z) :=
  match l with
  | [] => [x]
  | y :: l => if str_leb x.1 y.1 then x :: y :: l else y :: insert_by_ts x l
  end.

Definition sort_by_ts (l : list (string * Z)) : list (string * Z) := foldr insert_by_ts [] l.

Definition timeline_of (records : list Decision) : list (string * Z) :=
  sort_by_ts ((λ r, (dc_ts r, default 0 (dc_step r))) <$>
              filter (λ r, dc_kind r = KEnter) records).

Abbreviation tool_key := (Z * string * string)%type.
Abbreviation host_key := (Z * string)%type.

Record Tally := mkTally {
  denied_tools : gmap tool_key Agg;
  denied_hosts : gmap host_key Agg;
  tl_transitions : list Value;
}.

Definition Tally_default : Tally := mkTally ∅ ∅ [].

(** [map.entry(key).or_default().observe(ts)]. *)
Definition observe_at `{Countable K} (m : gmap K Agg) (k : K) (ts : string) : gmap K Agg :=
  <[k := Agg_observe ts (default Agg_default (m !! k))]> m.

Definition jopt_Z (o : option Z) : Value := match o with Some z => jZ z | None => JNull end.

Definition transition_row (r : Decision) : Value :=
  JObj [("ts", JStr (dc_ts r)); ("step", jopt_Z (dc_step r)); ("target", JStr (dc_target r));
        ("verdict", JStr (dc_verdict r)); ("detail", JStr (dc_rule r))].

Definition tool_key_of (r : Decision) : tool_key :=
  (default 0 (dc_step r), default "" (dc_tool r), dc_target r).

Definition host_key_of (timeline : list (string * Z)) (r : Decision) : host_key :=
  (default 0 (match dc_step r with Some s => Some s | None => step_at timeline (dc_ts r) end),
   dc_target r).

Definition tally (timeline : list (string * Z)) (t : Tally) (r : Decision) : Tally :=
  let denied := dc_verdict r ==s "deny" in
  match dc_kind r with
  | KCheck | KExec =>
    if denied then
      mkTally (observe_at (denied_tools t) (tool_key_of r) (dc_ts r)) (denied_hosts t)
        (tl_transitions t)
    else t
  | KNetwork =>
    if denied then
      mkTally (denied_tools t) (observe_at (denied_hosts t) (host_key_of timeline r) (dc_ts r))
        (tl_transitions t)
    else t
  | KTransition => mkTally (denied_tools t) (denied_hosts t) (tl_transitions t ++ [transition_row r])
  | KEnter => t
  end.

Definition tally_records (timeline : list (string * Z)) (records : list Decision) : Tally :=
  fold_left (tally timeline) records Tally_default.

(** [BTreeMap] order of the two key types. *)
Definition host_key_le {V} (x y : host_key * V) : Prop :=
  x.1.1 < y.1.1 ∨ (x.1.1 = y.1.1 ∧ String.leb x.1.2 y.1.2 = true).

#[export] Instance host_key_le_dec {V} : RelDecision (@host_key_le V).
Proof. intros x y. unfold host_key_le. apply _. Defined.

Definition tool_key_le {V} (x y : tool_key * V) : Prop :=
  x.1.1.1 < y.1.1.1 ∨ (x.1.1.1 = y.1.1.1 ∧
    (String.ltb x.1.1.2 y.1.1.2 = true ∨ (x.1.1.2 = y.1.1.2 ∧ String.leb x.1.2 y.1.2 = true))).

#[export] Instance tool_key_le_dec {V} : RelDecision (@tool_key_le V).
Proof. intros x y. unfold tool_key_le. apply _. Defined.

Definition agg_fields (a : Agg) : list (string * Value) :=
  [("count", jN (ag_count a)); ("first_ts", JStr (ag_first a)); ("last_ts", JStr (ag_last a))].

Definition tool_row (e : tool_key * Agg) : Value :=
  let '((step, tool, target), a) := e in
  JObj ([("step", jZ step); ("tool", JStr tool); ("target", JStr target)] ++ agg_fields a).

Definition host_row (e : host_key * Agg) : Value :=
  let '((step, host), a) := e in
  JObj ([("step", jZ step); ("host", JStr host)] ++ agg_fields a).

Fixpoint step_durations (timeline : list (string * Z)) : list Value :=
  match timeline with
  | [] => []
  | (entered, step) :: rest =>
    if step <? 0 then step_durations rest else
    let exited := fst <$> head rest in
    let seconds := exited ≫= duration_secs entered in
    JObj [("step", jZ step); ("entered_ts", JStr entered);
          ("exited_ts", match exited with Some e => JStr e | None => JNull end);
          ("seconds", jopt_Z seconds)] :: step_durations rest
  end.

Definition report_from_records (records : list Decision) : Value :=
  let timeline := timeline_of records in
  let t := tally_records timeline records in
  JObj [("denied_tools", JArr (tool_row <$> merge_sort tool_key_le (map_to_list (denied_tools t))));
        ("denied_hosts", JArr (host_row <$> merge_sort host_key_le (map_to_list (denied_hosts t))));
        ("transitions", JArr (tl_transitions t));
        ("steps", JArr (step_durations timeline))].

(** [parse_log]: a line that is blank or does not decode is skipped.  Decoding
    a line is serde_json's. *)
Definition parse_log (decode : string → option Decision) (text : string) : list Decision :=
  omap decode (filter (λ l, is_empty (trim l) = false) (lines text)).

(** [build_report]: a missing or unreadable file reads as empty text. *)
Definition build_report (decode : string → option Decision) (file : option string) : Value :=
  report_from_records (parse_log decode (default "" file)).

(** ** Facts: the calendar *)

Lemma i64w_id z : - 2 ^ 63 ≤ z < 2 ^ 63 → i64w z = z.
Proof. intros. unfold i64w. rewrite Z.mod_small; lia. Qed.

(** Within a 400-year era: the year of era and the day of year. *)
Lemma year_of_era doe :
  0 ≤ doe ≤ 146096 →
  let yoe := Z.quot (doe - Z.quot doe 1460 + Z.quot doe 36524 - Z.quot doe 146096) 365 in
  0 ≤ yoe ≤ 399 ∧ 0 ≤ doe - (365 * yoe + Z.quot yoe 4 - Z.quot yoe 100) ≤ 365.
Proof.
  intros H yoe. subst yoe.
  rewrite !Z.quot_div_nonneg by (rewrite ?Z.quot_div_nonneg; Z.to_euclidean_division_equations; lia).
  Z.to_euclidean_division_equations. lia.
Qed.

(** The truncated division of the sources is the floor on both signs. *)
Lemma quot_floor z n : 0 < n → Z.quot (if 0 <=? z then z else z - (n - 1)) n = z / n.
Proof.
  intros Hn. destruct (Z.leb_spec 0 z) as [H|H].
  - apply Z.quot_div_nonneg; lia.
  - Z.to_euclidean_division_equations. nia.
Qed.

(** Within a year that starts in March: the month and the day. *)
Lemma month_of_year doy :
  0 ≤ doy ≤ 365 →
  let mp := Z.quot (5 * doy + 2) 153 in
  0 ≤ mp ≤ 11 ∧ 1 ≤ doy - Z.quot (153 * mp + 2) 5 + 1 ≤ 31.
Proof. intros H mp. subst mp. Z.to_euclidean_division_equations. lia. Qed.

Definition small_days (z : Z) : Prop := -10 ^ 12 ≤ z ≤ 10 ^ 12.

Lemma civil_parts z :
  small_days z →
  ∃ era yoe mp doy,
    0 ≤ yoe ≤ 399 ∧ 0 ≤ doy ≤ 365 ∧ mp = Z.quot (5 * doy + 2) 153 ∧
    z + 719468 = era * 146097 + (yoe * 365 + Z.quot yoe 4 - Z.quot yoe 100 + doy) ∧
    - 10 ^ 8 ≤ era ≤ 10 ^ 8 ∧
    civil_from_days z =
      (let m := if mp <? 10 then mp + 3 else mp - 9 in
       let y := yoe + era * 400 in
       (if m <=? 2 then y + 1 else y, m, doy - Z.quot (153 * mp + 2) 5 + 1)).
Proof.
  unfold small_days. intros Hz. set (z' := z + 719468). pose (era := z' / 146097).
  pose (doe := z' - era * 146097).
  assert (Hera : - 10 ^ 8 ≤ era ≤ 10 ^ 8) by (subst era z'; Z.to_euclidean_division_equations; lia).
  assert (Hdoe : 0 ≤ doe ≤ 146096) by (subst doe era; Z.to_euclidean_division_equations; lia).
  destruct (year_of_era doe Hdoe) as [Hyoe Hdoy].
  set (yoe := Z.quot (doe - Z.quot doe 1460 + Z.quot doe 36524 - Z.quot doe 146096) 365) in *.
  set (doy := doe - (365 * yoe + Z.quot yoe 4 - Z.quot yoe 100)) in *.
  exists era, yoe, (Z.quot (5 * doy + 2) 153), doy.
  split_and!; try lia.
  unfold civil_from_days. fold z'. rewrite (i64w_id z') by (subst z'; lia).
  replace (Z.quot (if 0 <=? z' then z' else i64w (z' - 146096)) 146097) with era.
  2:{ subst era. rewrite <-(quot_floor z' 146097) by lia. f_equal.
      destruct (0 <=? z'); [done|]. by rewrite i64w_id by (subst z'; lia). }
  fold doe. rewrite (i64w_id doe) by lia. fold yoe doy.
  rewrite (i64w_id (yoe + era * 400)) by lia.
  by rewrite (i64w_id (yoe + era * 400 + 1)) by lia.
Qed.

Lemma civil_roundtrip_aux z :
  small_days z →
  let '(y, m, d) := civil_from_days z in
  1 ≤ m ≤ 12 ∧ 1 ≤ d ≤ 31 ∧ days_from_civil y m d = z.
Proof.
  intros Hz. destruct (civil_parts z Hz) as (era & yoe & mp & doy & Hyoe & Hdoy & Hmp & Hsum & Hera & ->).
  destruct (month_of_year doy Hdoy) as [Hmp' Hd]. rewrite <-Hmp in Hmp', Hd. cbv zeta.
  set (m := if mp <? 10 then mp + 3 else mp - 9).
  assert (Hm : 1 ≤ m ≤ 12) by (subst m; destruct (Z.ltb_spec mp 10); lia).
  split_and!; [lia..|]. unfold days_from_civil, small_days in *.
  set (y0 := yoe + era * 400).
  replace (if m <=? 2 then i64w ((if m <=? 2 then y0 + 1 else y0) - 1)
           else if m <=? 2 then y0 + 1 else y0) with y0.
  2:{ destruct (m <=? 2); [|done]. rewrite i64w_id; subst y0; lia. }
  replace (Z.quot (if 0 <=? y0 then y0 else i64w (y0 - 399)) 400) with era.
  2:{ transitivity (y0 / 400); [subst y0; Z.to_euclidean_division_equations; lia|].
      rewrite <-(quot_floor y0 400) by lia. f_equal. destruct (0 <=? y0); [done|].
      rewrite i64w_id; [done|]. subst y0; lia. }
  replace (i64w (y0 - era * 400)) with yoe by (rewrite i64w_id; subst y0; lia).
  replace (if 2 <? m then m - 3 else m + 9) with mp.
  2:{ subst m. destruct (Z.ltb_spec mp 10);
      [destruct (Z.ltb_spec 2 (mp + 3))|destruct (Z.ltb_spec 2 (mp - 9))]; lia. }
  rewrite (i64w_id (153 * mp + 2)) by lia.
  replace (Z.quot (153 * mp + 2) 5 + (doy - Z.quot (153 * mp + 2) 5 + 1) - 1) with doy by lia.
  rewrite (i64w_id doy) by lia.
  assert (0 ≤ Z.quot yoe 4 ≤ 100 ∧ 0 ≤ Z.quot yoe 100 ≤ 4)
    by (Z.to_euclidean_division_equations; lia).
  rewrite (i64w_id (yoe * 365 + Z.quot yoe 4 - Z.quot yoe 100 + doy)) by lia.
  rewrite i64w_id; lia.
Qed.

Lemma civil_year z : small_days z → 0 ≤ z → 0 ≤ (civil_from_days z).1.1 < 2 ^ 62.
Proof.
  intros Hz Hpos. destruct (civil_parts z Hz) as (era & yoe & mp & doy & Hyoe & Hdoy & _ & Hsum & Hera & ->).
  assert (Hq : 0 ≤ Z.quot yoe 4 ≤ 100 ∧ 0 ≤ Z.quot yoe 100 ≤ 4)
    by (Z.to_euclidean_division_equations; lia).
  cbn. destruct (_ <=? 2); lia.
Qed.

(** The civil date of a day count names a real month and day, and the two
    calendar conversions are inverse: for every day within a trillion of the
    epoch, before or after, [days_from_civil] gives the day count back. *)
Theorem civil_roundtrip z :
  small_days z →
  let '(y, m, d) := civil_from_days z in
  1 ≤ m ≤ 12 ∧ 1 ≤ d ≤ 31 ∧ days_from_civil y m d = z.
Proof. apply civil_roundtrip_aux. Qed.

(** ** Facts: the timestamp text *)

Lemma digits_val_zeros k s : digits_val 0 (zeros k ++s s) = digits_val 0 s.
Proof. induction k as [|k IH]; cbn; [done|]. exact IH. Qed.

Lemma pad_digits w n : all_chars is_ascii_digit (pad w n) = true.
Proof.
  unfold pad. rewrite all_chars_app, to_string_digits, andb_true_r.
  generalize (w - String.length (u32_to_string (Z.to_N n)))%nat as k.
  induction k as [|k IH]; cbn; [done|]. exact IH.
Qed.

Lemma pad_parse w n : 0 ≤ n < 2 ^ 63 → parse_i64 (pad w n) = Some n.
Proof.
  intros Hn. assert (Hv : digits_val 0 (pad w n) = Z.to_N n).
  { unfold pad. by rewrite digits_val_zeros, to_string_val. }
  assert (Hne : pad w n ≠ "").
  { unfold pad. destruct (zeros _); [apply to_string_nonempty|done]. }
  assert (Hu : parse_uint 9223372036854775807 (pad w n) = Some (Z.to_N n)).
  { rewrite <-Hv. apply parse_uint_digits; [done|apply pad_digits|rewrite Hv; lia]. }
  pose proof (pad_digits w n) as Hd. unfold parse_i64. rewrite Hu, Z2N.id by lia.
  destruct (pad w n) as [|c r]; [done|]. cbn in Hd. apply andb_true_iff in Hd as [Hc _].
  destruct c as [[] [] [] [] [] [] [] []]; try reflexivity; discriminate.
Qed.

Lemma pad_free w n (c : ascii) :
  is_ascii_digit c = false → all_chars (λ x, negb (Ascii.eqb c x)) (pad w n) = true.
Proof.
  intros Hc. apply (all_chars_impl is_ascii_digit); [|apply pad_digits].
  intros x Hx. destruct (Ascii.eqb_spec c x) as [->|]; [congruence|done].
Qed.

(** Digits, dashes and colons are free of the separator looked for. *)
Ltac free_of :=
  repeat match goal with x := _ : string |- _ => subst x end;
  repeat first
    [ done | by apply pad_free | rewrite all_chars_app
    | apply andb_true_iff; split | progress cbn ].

(** The timestamp a record carries reads back to the millisecond it was
    taken at, for any clock of the next 280 million years: the durations of
    the report are exact. *)
Theorem now_ts_roundtrip secs millis :
  0 ≤ secs ≤ 9 * 10 ^ 15 → 0 ≤ millis ≤ 999 →
  epoch_millis (now_ts secs millis) = Some (secs * 1000 + millis).
Proof.
  intros Hs Hm. unfold now_ts. pose (days := Z.quot secs 86400). pose (tod := Z.rem secs 86400).
  assert (Hdays : small_days days ∧ 0 ≤ days) by
    (unfold small_days; subst days; Z.to_euclidean_division_equations; lia).
  assert (Htod : 0 ≤ tod < 86400) by (subst tod; Z.to_euclidean_division_equations; lia).
  assert (Hsum : secs = days * 86400 + tod)
    by (subst days tod; Z.to_euclidean_division_equations; lia).
  fold days tod. clearbody days tod.
  assert (Hhms : 0 ≤ Z.quot tod 3600 < 24 ∧ 0 ≤ Z.quot (Z.rem tod 3600) 60 < 60 ∧
    0 ≤ Z.rem tod 60 < 60 ∧
    tod = Z.quot tod 3600 * 3600 + Z.quot (Z.rem tod 3600) 60 * 60 + Z.rem tod 60)
    by (Z.to_euclidean_division_equations; lia).
  destruct Hdays as [Hsmall Hpos]. pose proof (civil_roundtrip_aux days Hsmall) as Hciv.
  assert (Hy : 0 ≤ (civil_from_days days).1.1 < 2 ^ 62) by (by apply civil_year).
  destruct (civil_from_days days) as [[y m] d]. destruct Hciv as (Hmo & Hd & Hback). cbn in Hy.
  set (date := pad 4 y ++s String "-" (pad 2 m ++s String "-" (pad 2 d))).
  set (time := pad 2 (Z.quot tod 3600) ++s String ":" (pad 2 (Z.quot (Z.rem tod 3600) 60) ++s
    String ":" (pad 2 (Z.rem tod 60)))).
  set (rest := time ++s String "." (pad 3 millis)).
  assert (Hts : pad 4 y ++s "-" ++s pad 2 m ++s "-" ++s pad 2 d ++s "T" ++s
    pad 2 (Z.quot tod 3600) ++s ":" ++s pad 2 (Z.quot (Z.rem tod 3600) 60) ++s ":" ++s
    pad 2 (Z.rem tod 60) ++s "." ++s pad 3 millis ++s "Z" = date ++s String "T" (rest ++s "Z")).
  { subst date rest time. rewrite !app_assoc_s. cbn. by rewrite !app_assoc_s. }
  rewrite Hts. unfold epoch_millis. rewrite split_once_app; [cbn|free_of|done].
  rewrite strip_suffix_app. cbn. subst rest. rewrite split_once_app; [cbn|free_of|done].
  unfold split_char. subst date time. rewrite !split_app by (free_of || done).
  rewrite !split_none by free_of. cbn. rewrite !pad_parse by lia. cbn.
  rewrite Hback, i64w_id; [f_equal|]; lia.
Qed.

Lemma civil_roundtrip_witness :
  let '(y, m, d) := civil_from_days 20000 in
  1 ≤ m ≤ 12 ∧ 1 ≤ d ≤ 31 ∧ days_from_civil y m d = 20000.
Proof. apply (civil_roundtrip 20000). unfold small_days. lia. Defined.

Lemma now_ts_roundtrip_witness :
  epoch_millis (now_ts 1700000000 123) = Some (1700000000 * 1000 + 123).
Proof. apply now_ts_roundtrip; lia. Defined.

Example now_ts_sample : now_ts 1700000000 7 = "2023-11-14T22:13:20.007Z".
Proof. by vm_compute. Qed.

(** ** Facts: the report *)

(** Observing timestamps one after the other. *)
Definition agg_of (l : list string) : Agg := fold_left (λ a ts, Agg_observe ts a) l Agg_default.

Lemma agg_of_snoc l ts : agg_of (l ++ [ts]) = Agg_observe ts (agg_of l).
Proof. unfold agg_of. by rewrite fold_left_app. Qed.

(** A count of the observations with the earliest and the latest of them. *)
Definition agg_exact (l : list string) (a : Agg) : Prop :=
  ag_count a = N.of_nat (List.length l) ∧
  (l ≠ [] → ag_first a ∈ l ∧ ag_last a ∈ l) ∧
  ∀ ts, ts ∈ l → str_leb (ag_first a) ts = true ∧ str_leb ts (ag_last a) = true.

Lemma agg_of_exact l : agg_exact l (agg_of l).
Proof.
  induction l as [|ts l IH] using rev_ind.
  { split_and!; [done..|]. by intros ? ?%elem_of_nil. }
  rewrite agg_of_snoc. destruct IH as (Hc & Hin & Hb). unfold Agg_observe.
  assert (H0 : (ag_count (agg_of l) =? 0)%N = true ↔ l = []).
  { rewrite N.eqb_eq, Hc. destruct l; cbn; split; (done || lia). }
  destruct (decide (l = [])) as [->|Hne].
  { cbn. split_and!; [done| |].
    - intros _. split; [set_solver|]. destruct ts; cbn; set_solver.
    - intros t ->%list_elem_of_singleton. split; [apply str_leb_refl|].
      destruct ts; apply str_leb_refl. }
  destruct (ag_count (agg_of l) =? 0)%N eqn:E0; [by destruct Hne; apply H0|].
  destruct (Hin Hne) as [Hf Hl]. cbn. unfold str_ltb, str_leb in *. split_and!.
  - rewrite Hc, length_app. cbn. lia.
  - intros _. split; [destruct (String.ltb ts _)|destruct (String.ltb _ ts)]; set_solver.
  - intros t [Ht| ->%list_elem_of_singleton]%elem_of_app.
    + destruct (Hb t Ht) as [Hb1 Hb2]. split.
      * destruct (String.ltb ts _) eqn:E; [|done]. apply str_ltb_true in E. by eapply str_leb_trans.
      * destruct (String.ltb _ ts) eqn:E; [|done]. apply str_ltb_true in E. by eapply str_leb_trans.
    + split.
      * destruct (String.ltb ts _) eqn:E; [apply str_leb_refl|].
        rewrite str_ltb_leb in E. by apply negb_false_iff in E.
      * destruct (String.ltb _ ts) eqn:E; [apply str_leb_refl|].
        rewrite str_ltb_leb in E. by apply negb_false_iff in E.
Qed.

Lemma observe_at_lookup {K} `{Countable K} (m : gmap K Agg) k ts j :
  observe_at m k ts !! j =
  if decide (k = j) then Some (Agg_observe ts (default Agg_default (m !! k))) else m !! j.
Proof.
  unfold observe_at. destruct (decide (k = j)) as [<-|Hne];
    [by rewrite lookup_insert_eq|by rewrite lookup_insert_ne].
Qed.

(** Folding observations into a map keyed by a function of the record. *)
Lemma observe_fold {K} `{Countable K} (sel : Decision → bool) (key : Decision → K) records k :
  fold_left (λ m r, if sel r then observe_at m (key r) (dc_ts r) else m) records ∅ !! k =
  match dc_ts <$> filter (λ r, sel r = true ∧ key r = k) records with
  | [] => None
  | l => Some (agg_of l)
  end.
Proof.
  induction records as [|r records IH] using rev_ind; [apply lookup_empty|].
  rewrite fold_left_app, filter_app, fmap_app. cbn [fold_left].
  rewrite filter_cons, filter_nil. destruct (sel r) eqn:Es.
  - rewrite observe_at_lookup. destruct (decide (key r = k)) as [Hk|Hk].
    + rewrite decide_True by done. rewrite Hk, IH.
      change (dc_ts <$> [r]) with [dc_ts r].
      destruct (dc_ts <$> filter _ records) as [|x l]; [done|].
      rewrite <-app_comm_cons. f_equal. symmetry. apply (agg_of_snoc (x :: l)).
    + rewrite decide_False by tauto. cbn. by rewrite app_nil_r, IH.
  - rewrite decide_False by (intros [? _]; congruence). cbn. by rewrite app_nil_r, IH.
Qed.

Definition tool_denial (r : Decision) : bool :=
  match dc_kind r with KCheck | KExec => dc_verdict r ==s "deny" | _ => false end.

Definition host_denial (r : Decision) : bool :=
  match dc_kind r with KNetwork => dc_verdict r ==s "deny" | _ => false end.

Lemma tally_maps timeline records : ∀ t,
  denied_tools (fold_left (tally timeline) records t) =
    fold_left (λ m r, if tool_denial r then observe_at m (tool_key_of r) (dc_ts r) else m)
      records (denied_tools t) ∧
  denied_hosts (fold_left (tally timeline) records t) =
    fold_left (λ m r, if host_denial r then observe_at m (host_key_of timeline r) (dc_ts r) else m)
      records (denied_hosts t).
Proof.
  induction records as [|r records IH]; intros t; [done|]. cbn [fold_left].
  destruct (IH (tally timeline t r)) as [-> ->]. unfold tally, tool_denial, host_denial.
  by destruct (dc_kind r), (dc_verdict r ==s "deny").
Qed.

(** The report's denial tables are exact: a row exists for a step, tool and
    target (or step and host) exactly when the log has such a denial, its count
    is their number, and its first and last timestamps are the earliest and
    latest of them. *)
Theorem report_denials_exact records :
  let timeline := timeline_of records in
  let t := tally_records timeline records in
  (∀ k, let hits := dc_ts <$> filter (λ r, tool_denial r = true ∧ tool_key_of r = k) records in
     match denied_tools t !! k with
     | None => hits = []
     | Some a => hits ≠ [] ∧ agg_exact hits a
     end) ∧
  (∀ k, let hits :=
          dc_ts <$> filter (λ r, host_denial r = true ∧ host_key_of timeline r = k) records in
     match denied_hosts t !! k with
     | None => hits = []
     | Some a => hits ≠ [] ∧ agg_exact hits a
     end).
Proof.
  cbv zeta. unfold tally_records.
  destruct (tally_maps (timeline_of records) records Tally_default) as [-> ->].
  split; intros k; cbn [denied_tools denied_hosts Tally_default]; rewrite observe_fold;
    destruct (dc_ts <$> _) eqn:E; try done; (split; [done|apply agg_of_exact]).
Qed.

(** ** Facts: attribution *)

Lemma insert_by_ts_perm x l : insert_by_ts x l ≡ₚ x :: l.
Proof.
  induction l as [|y l IH]; cbn; [done|]. destruct (str_leb x.1 y.1); [done|].
  rewrite IH. apply Permutation_swap.
Qed.

Definition ts_le (x y : string * Z) : Prop := str_leb x.1 y.1 = true.

Lemma insert_by_ts_sorted x l : StronglySorted ts_le l → StronglySorted ts_le (insert_by_ts x l).
Proof.
  induction 1 as [|y l Hs IH Hall]; cbn; [repeat constructor|].
  destruct (str_leb x.1 y.1) eqn:E.
  - constructor; [by constructor|]. constructor; [done|].
    eapply Forall_impl; [exact Hall|]. intros z Hz. by eapply str_leb_trans.
  - constructor; [done|]. rewrite insert_by_ts_perm. constructor; [|done].
    unfold ts_le, str_leb in *. destruct (String.leb_total x.1 y.1); [congruence|done].
Qed.

Lemma sort_by_ts_spec l : sort_by_ts l ≡ₚ l ∧ StronglySorted ts_le (sort_by_ts l).
Proof.
  induction l as [|x l [IHp IHs]]; cbn; [split; [done|constructor]|].
  split; [by rewrite insert_by_ts_perm, IHp|by apply insert_by_ts_sorted].
Qed.

Lemma step_at_sorted tl ts : StronglySorted ts_le tl →
  match step_at tl ts with
  | None => ∀ e, e ∈ tl → str_leb e.1 ts = false
  | Some s => ∃ t, (t, s) ∈ tl ∧ str_leb t ts = true ∧
      ∀ e, e ∈ tl → str_leb e.1 ts = true → str_leb e.1 t = true
  end.
Proof.
  unfold step_at. induction 1 as [|x tl Hs IH Hall]; cbn; [set_solver|].
  rewrite Forall_forall in Hall. destruct (str_leb x.1 ts) eqn:E; cbn.
  - destruct (take_while _ tl) as [|y l] eqn:Et; cbn in *.
    + exists x.1. split_and!; [destruct x; set_solver|done|].
      intros e [->|He]%elem_of_cons Hle; [apply str_leb_refl|]. by rewrite IH in Hle.
    + destruct (last (y :: l)) as [[t s]|] eqn:El; [|by apply last_None in El].
      destruct IH as (t' & Hin & Ht & Hmax). exists t'. split_and!; [set_solver|done|].
      intros e [->|He]%elem_of_cons Hle; [|by apply Hmax]. apply (Hall _ Hin).
  - intros e [->|He]%elem_of_cons; [done|]. destruct (str_leb e.1 ts) eqn:E2; [|done].
    specialize (Hall e He). unfold ts_le in Hall.
    rewrite <-E. symmetry. by eapply str_leb_trans.
Qed.

(** A network denial, which carries no step, is attributed to the step most
    recently entered: the step of an enter record at or before its timestamp
    such that no enter record at or before it is later; with no enter record so
    early it falls under step 0. *)
Theorem network_denial_step records r :
  dc_step r = None →
  let enters := (λ r, (dc_ts r, default 0 (dc_step r))) <$> filter (λ r, dc_kind r = KEnter) records in
  let step := (host_key_of (timeline_of records) r).1 in
  (∃ t, (t, step) ∈ enters ∧ str_leb t (dc_ts r) = true ∧
     ∀ e, e ∈ enters → str_leb e.1 (dc_ts r) = true → str_leb e.1 t = true) ∨
  (step = 0 ∧ ∀ e, e ∈ enters → str_leb e.1 (dc_ts r) = false).
Proof.
  intros Hstep enters step. destruct (sort_by_ts_spec enters) as [Hp Hs].
  pose proof (step_at_sorted (sort_by_ts enters) (dc_ts r) Hs) as Hat.
  unfold step, host_key_of. rewrite Hstep. unfold timeline_of. fold enters.
  destruct (step_at _ _) as [s|]; setoid_rewrite Hp in Hat; [by left|by right].
Qed.

Lemma network_denial_step_witness :
  let records := [log_enter "2024-01-01T00:00:00.000Z" 1; log_enter "2024-01-01T00:01:00.000Z" 2;
                  log_network "2024-01-01T00:00:30.000Z" "evil.com:443" false "not allowed"] in
  let r := log_network "2024-01-01T00:00:30.000Z" "evil.com:443" false "not allowed" in
  let enters := (λ r, (dc_ts r, default 0 (dc_step r))) <$> filter (λ r, dc_kind r = KEnter) records in
  let step := (host_key_of (timeline_of records) r).1 in
  step = 1 ∧
  ((∃ t, (t, step) ∈ enters ∧ str_leb t (dc_ts r) = true ∧
     ∀ e, e ∈ enters → str_leb e.1 (dc_ts r) = true → str_leb e.1 t = true) ∨
   (step = 0 ∧ ∀ e, e ∈ enters → str_leb e.1 (dc_ts r) = false)).
Proof. cbv zeta. split; [by vm_compute|]. by apply network_denial_step. Defined.
