(* ===== verification/EngineFacts.v ===== *)
(** * Properties of the workflow engine

    What a transition needs, what it changes, that failing ones change nothing,
    and what holds in every state an engine can reach under any sequence of
    tool checks, exec checks and transitions with any file and subprocess
    outcomes. *)

From stdpp Require Import base decidable list gmap strings.
From Stdlib Require Import Lia ZArith Bool Ascii String.
From S2P Require Import Prelude RustStr Json Parser Ir Rules Matcher Capability DecisionLog Engine.

(** ** Runs *)

Inductive Op :=
| OpCheck (tool : string) (tool_input : Value)
| OpExec (path : string) (argv commands : list string)
| OpTransition (target : Value) (io : Io).

Section engine.
Context `{Shlex, JsonText} (en : Engine).

Definition run_op (w : World) (op : Op) : World :=
  match op with
  | OpCheck tool tool_input => (check en tool tool_input w).1
  | OpExec path argv commands => (check_exec en path argv commands w).1
  | OpTransition target io => (transition en io target w).1
  end.

(** The states an engine passes through once it is built. *)
Inductive reachable : World → Prop :=
| reach_new io state policy : reachable (new_with_log en io state policy)
| reach_op w op : reachable w → reachable (run_op w op).

(** The step and its counts, which decide every later answer. *)
Definition core (w : World) : Z * gmap N N := (w_step w, w_visits w).

(** How often a step was entered, by the log. *)
Definition entries (n : N) (w : World) : nat :=
  List.length (filter (λ e, e = LEnter (Z.of_N n)) (w_log w)).

Definition resp_ok (resp : Value) : option Value := jget "ok" resp.

(** ** What an advance needs *)

Definition gate_passes (gate : string) (o : ShOutcome) : Prop :=
  gate = "" ∨ ∃ out err, o = Exited (Some 0%Z) out err.

Definition questions_of (step_num : N) : list JudgeQuestion :=
  match en_steps en !! step_num with Some s => ws_judge s | None => [] end.

(** No questions, or a configured judge that exits 0 with one verdict per
    question, every one of them 1. *)
Definition judge_passes (step_num : N) (io : Io) : Prop :=
  questions_of step_num = [] ∨
  ∃ cmd out err verdicts,
    en_judge_cmd en = Some cmd ∧ trim cmd ≠ "" ∧
    io_judge io = Exited (Some 0%Z) out err ∧
    parse_verdicts out (List.length (questions_of step_num)) = Ok verdicts ∧
    List.length verdicts = List.length (questions_of step_num) ∧
    ∀ v, v ∈ verdicts → v.1 = 1%N.

Record accepted (io : Io) (current_u tn : N) (w : World) : Prop := {
  acc_bound : ∀ max, en_steps en !! tn ≫= ws_max_visits = Some max →
                (default 0 (w_visits w !! tn) < max)%N;
  acc_gate : gate_passes (step_gate en current_u) (io_gate io);
  acc_target_gate : gate_passes (target_gate en current_u tn) (io_target_gate io);
  acc_judge : judge_passes current_u io;
  acc_policy : io_dir io = true → io_policy io = Wrote;
  acc_state : io_state io = Wrote;
}.

(** ** Facts: gates and judge *)

Lemma run_gate_cmd_ok o gate : run_gate_cmd en o gate = Ok tt ↔ gate_passes gate o.
Proof.
  unfold run_gate_cmd, gate_passes, is_empty. destruct (String.eqb_spec gate "") as [->|Hne].
  { split; [by left|done]. }
  split.
  - destruct o as [code out err| |]; [|done..]. destruct code as [c|]; [|done]. cbn.
    destruct (Z.eqb_spec c 0) as [->|]; [|done]. right. eauto.
  - intros [?|(out & err & ->)]; done.
Qed.

Lemma gate_denial_None io current_u tn :
  gate_denial en io current_u tn = None ↔
  gate_passes (step_gate en current_u) (io_gate io) ∧
  gate_passes (target_gate en current_u tn) (io_target_gate io).
Proof.
  unfold gate_denial, run_gate, run_transition_gate. rewrite <-!run_gate_cmd_ok.
  destruct (run_gate_cmd en (io_gate io) _) as [[]|]; [|naive_solver].
  destruct (run_gate_cmd en (io_target_gate io) _) as [[]|]; naive_solver.
Qed.

Lemma collect_verdicts_spec items : ∀ i vs,
  collect_verdicts i items = Ok vs →
  vs.*2 = (verdict_reason <$> items) ∧ (Some <$> vs.*1) = (verdict_answer <$> items).
Proof.
  induction items as [|item items IH]; intros i vs; cbn; [by intros [= <-]|].
  destruct (verdict_answer item) as [a|]; [|done].
  intros (rest & Hr & [= <-])%bind_ok. apply IH in Hr as [Hr1 Hr2]. cbn. by rewrite Hr1, Hr2.
Qed.

Lemma parse_verdicts_length stdout expected vs :
  parse_verdicts stdout expected = Ok vs → List.length vs = expected.
Proof.
  unfold parse_verdicts. cbv zeta. destruct (match json_from_str _ with Some _ => _ | None => _ end); [|done].
  destruct (verdict_items v) as [items|]; [|done].
  destruct (Nat.eqb_spec (List.length items) expected) as [<-|]; [|done]. cbn.
  intros [Hr _]%collect_verdicts_spec. apply (f_equal List.length) in Hr.
  by rewrite !length_fmap in Hr.
Qed.

Lemma judge_score_full vs :
  judge_score vs = List.length vs ↔ ∀ v, v ∈ vs → v.1 = 1%N.
Proof.
  unfold judge_score. induction vs as [|v vs IH]; cbn; [set_solver|].
  pose proof (List.filter_length_le is_one vs) as Hle. unfold is_one at 1.
  destruct (N.eqb_spec v.1 1) as [Hv|Hv]; cbn.
  - rewrite Nat.succ_inj_wd, IH. set_solver.
  - split; [lia|]. intros Hall. destruct Hv. apply Hall. set_solver.
Qed.

Lemma run_judge_ok io step_num :
  is_ok (run_judge en io step_num) = true ↔ judge_passes step_num io.
Proof.
  unfold run_judge, judge_passes. fold (questions_of step_num). cbv zeta.
  destruct (questions_of step_num) as [|q qs] eqn:Eq; [cbn; tauto|].
  assert (Hqs : ∀ P : Prop, (q :: qs = [] ∨ P) ↔ P) by (intros P; split; [by intros [?|?]|by right]).
  rewrite Hqs. clear Hqs Eq. generalize (q :: qs) as questions. intros questions.
  destruct (en_judge_cmd en) as [cmd|]; cbn; [|by split; [|intros (? & ? & ? & ? & ? & _)]].
  unfold is_empty. destruct (String.eqb_spec (trim cmd) "") as [Hc|Hc]; cbn.
  { split; [done|]. by intros (? & ? & ? & ? & [= <-] & ? & _). }
  destruct (io_judge io) as [code out err| |]; cbn;
    [|by split; [|intros (? & ? & ? & ? & _ & _ & ? & _)]..].
  destruct (is_success code) eqn:Es.
  2:{ split; [done|]. by intros (? & ? & ? & ? & _ & _ & [= -> -> ->] & _). }
  destruct code as [c|]; [|done]. cbn in Es. apply Z.eqb_eq in Es as ->. cbn.
  destruct (parse_verdicts out (List.length questions)) as [vs|] eqn:Ep; cbn.
  2:{ split; [done|]. intros (? & ? & ? & ? & _ & _ & [= <- <-] & Hp & _). congruence. }
  pose proof (parse_verdicts_length _ _ _ Ep) as Hlen. rewrite <-Hlen.
  destruct (Nat.eqb_spec (judge_score vs) (List.length vs)) as [Hs|Hs]; cbn.
  - rewrite judge_score_full in Hs. split; [|done]. intros _. rewrite Hlen.
    exists cmd, out, err, vs. done.
  - split; [done|]. intros (? & ? & ? & vs' & _ & _ & [= <- <-] & Hp & _ & Hall).
    rewrite Hlen, Ep in Hp. injection Hp as <-. by apply judge_score_full in Hall.
Qed.

Lemma visit_bound_None tn visits :
  visit_bound_denial en tn visits = None ↔
  ∀ max, en_steps en !! tn ≫= ws_max_visits = Some max → (default 0 (visits !! tn) < max)%N.
Proof.
  unfold visit_bound_denial. destruct (en_steps en !! tn ≫= ws_max_visits) as [max|]; cbn; [|naive_solver].
  destruct (N.ltb_spec (default 0 (visits !! tn))%N max) as [Hlt|Hge].
  - split; [|done]. intros _ m [= <-]. done.
  - split; [done|]. intros Hall. specialize (Hall max eq_refl). lia.
Qed.

(** ** Facts: one transition *)

Definition advanced (io : Io) (current_u tn : N) (w w' : World) : Prop :=
  core w' = (Z.of_N tn, bump tn (w_visits w)) ∧
  w_policy w' = (if io_dir io then Some (policy_for en tn) else w_policy w) ∧
  w_state_file w' = Some (state_json (Z.of_N tn) (bump tn (w_visits w))) ∧
  w_log w' = w_log w ++ [LTransition (Z.of_N current_u) (u32_to_string tn) "allow" "";
                         LEnter (Z.of_N tn)].

Definition refused (current_u : N) (target : string) (w w' : World) : Prop :=
  core w' = core w ∧
  ∃ reason, w_log w' = w_log w ++ [LTransition (Z.of_N current_u) target "deny" reason].

Lemma add_evidence_ok entry resp b :
  resp_ok resp = Some (JBool b) → resp_ok (add_evidence entry resp) = Some (JBool b).
Proof.
  destruct entry as [e|], resp; try done. unfold resp_ok. cbn.
  by rewrite obj_get_insert_ne.
Qed.

(** The refusing branch: nothing but a log line; left is why it refused. *)
Ltac by_refusal :=
  right; split; [|split; [split; [done|by eexists]|done || by apply add_evidence_ok]].

Lemma advance_spec io current_u tn w :
  let '(w', resp) := transition_advance en io current_u tn w in
  (accepted io current_u tn w ∧ advanced io current_u tn w w' ∧
     resp_ok resp = Some (JBool true)) ∨
  ((accepted io current_u tn w → False) ∧ refused current_u (u32_to_string tn) w w' ∧
     resp_ok resp = Some (JBool false)).
Proof.
  unfold transition_advance, deny_transition.
  destruct (visit_bound_denial en tn (w_visits w)) as [reason|] eqn:Eb.
  { by_refusal. intros [Hb _ _ _ _ _].
    rewrite <-visit_bound_None in Hb. congruence. }
  rewrite visit_bound_None in Eb.
  destruct (gate_denial en io current_u tn) as [reason|] eqn:Eg.
  { by_refusal. intros [_ Hg1 Hg2 _ _ _].
    assert (gate_denial en io current_u tn = None) by (by apply gate_denial_None). congruence. }
  apply gate_denial_None in Eg as [Eg1 Eg2].
  destruct (run_judge en io current_u) as [judge|[reason entry]] eqn:Ej.
  2:{ by_refusal. intros [_ _ _ Hj _ _].
      apply run_judge_ok in Hj. by rewrite Ej in Hj. }
  assert (Hj : judge_passes current_u io) by (apply run_judge_ok; by rewrite Ej).
  unfold write_proxy_policy, write_state, write_file.
  destruct (io_dir io) eqn:Ed; cbn.
  - destruct (io_policy io) as [|e rem] eqn:Ep; cbn.
    2:{ by_refusal. intros [_ _ _ _ Hp _]. by rewrite Hp in Ep. }
    destruct (io_state io) as [|e rem] eqn:Est; cbn.
    2:{ by_refusal. intros [_ _ _ _ _ Hp]. by rewrite Hp in Est. }
    left. split; [by constructor|]. split; [|by apply add_evidence_ok].
    unfold advanced. rewrite Ed. cbn. by rewrite <-app_assoc.
  - destruct (io_state io) as [|e rem] eqn:Est; cbn.
    2:{ by_refusal. intros [_ _ _ _ _ Hp]. by rewrite Hp in Est. }
    left. split; [constructor; try done; congruence|]. split; [|by apply add_evidence_ok].
    unfold advanced. rewrite Ed. cbn. by rewrite <-app_assoc.
Qed.
Lemma exit_spec io current_u w :
  let '(w', resp) := transition_exit en io current_u w in
  ((io_dir io = true → io_policy io = Wrote) ∧ io_state io = Wrote ∧
     core w' = (STEP_EXITED, w_visits w) ∧
     w_policy w' = (if io_dir io then Some (exit_policy en) else w_policy w) ∧
     w_log w' = w_log w ++ [LTransition (Z.of_N current_u) "exit" "allow" "";
                            LEnter STEP_EXITED] ∧
     resp_ok resp = Some (JBool true)) ∨
  (((io_dir io = true → io_policy io = Wrote) → io_state io = Wrote → False) ∧
     refused current_u "exit" w w' ∧ resp_ok resp = Some (JBool false)).
Proof.
  assert (Hrep : ∀ x, core (write_report en io x) = core x ∧
    w_policy (write_report en io x) = w_policy x ∧ w_log (write_report en io x) = w_log x).
  { intros x. unfold write_report. by destruct (_ && _). }
  unfold transition_exit, write_state, write_file, deny_transition.
  destruct (io_dir io) eqn:Ed.
  - destruct (io_policy io) as [|e rem] eqn:Ep; cbn.
    2:{ by_refusal. intros Hp _. specialize (Hp eq_refl). done. }
    destruct (io_state io) as [|e rem] eqn:Es; cbn; [|by by_refusal].
    left. repeat (rewrite (proj1 (Hrep _)) || rewrite (proj1 (proj2 (Hrep _))) ||
      rewrite (proj2 (proj2 (Hrep _)))). cbn. rewrite <-app_assoc. done.
  - destruct (io_state io) as [|e rem] eqn:Es; cbn; [|by by_refusal].
    left. repeat (rewrite (proj1 (Hrep _)) || rewrite (proj1 (proj2 (Hrep _))) ||
      rewrite (proj2 (proj2 (Hrep _)))). cbn. rewrite <-app_assoc. done.
Qed.

(** Log lines that do not enter a step. *)
Definition no_enter (l : list LogEvent) : Prop := ∀ z, LEnter z ∉ l.

(** What any operation does to the core state and the log. *)
Inductive effect (w w' : World) : Prop :=
| eff_none l :
    core w' = core w → w_log w' = w_log w ++ l → no_enter l → effect w w'
| eff_advance current_u step tn io :
    active_step en w = Some (current_u, step) → tn ∈ tr_to (ws_transition step) →
    accepted io current_u tn w → advanced io current_u tn w w' → effect w w'
| eff_exit current_u step :
    active_step en w = Some (current_u, step) →
    core w' = (STEP_EXITED, w_visits w) →
    w_log w' = w_log w ++ [LTransition (Z.of_N current_u) "exit" "allow" "";
                           LEnter STEP_EXITED] → effect w w'.

Lemma eff_same w : effect w w.
Proof. apply (eff_none w w []); [done|by rewrite app_nil_r|by intros z ?%elem_of_nil]. Qed.

Lemma eff_log e w : (∀ z, e ≠ LEnter z) → effect w (with_log e w).
Proof. intros He. apply (eff_none w _ [e]); [done..|]. intros z ?%list_elem_of_singleton. by eapply He. Qed.

Lemma check_effect tool input w : effect w (check en tool input w).1.
Proof.
  unfold check. repeat (case_match || (destruct (step_verdict _ _ _ _ _) as [ok reason]));
    cbn; first [apply eff_same|by apply eff_log].
Qed.

Lemma check_exec_effect path argv commands w : effect w (check_exec en path argv commands w).1.
Proof.
  unfold check_exec. repeat case_match; cbn; first [apply eff_same|by apply eff_log].
Qed.

Lemma refused_effect current_u target w w' : refused current_u target w w' → effect w w'.
Proof.
  intros [Hc [reason Hl]]. eapply (eff_none w w'); [done..|].
  by intros z ?%list_elem_of_singleton.
Qed.

Lemma transition_effect io target w : effect w (transition en io target w).1.
Proof.
  unfold transition. destruct (active_step en w) as [[current_u step]|] eqn:Ea; [|apply eff_same].
  destruct (is_exit_target target).
  { pose proof (exit_spec io current_u w) as Hex. destruct (transition_exit _ _ _ _) as [w' resp].
    destruct Hex as [(_ & _ & Hc & _ & Hl & _)|(_ & Hr & _)].
    - by eapply eff_exit.
    - by eapply refused_effect. }
  destruct (target_number target) as [tn|]; [|apply eff_same].
  destruct (existsb (N.eqb tn) _) eqn:Et; [|apply eff_same].
  apply existsb_exists in Et as (x & Hin%list_elem_of_In & ->%N.eqb_eq).
  pose proof (advance_spec io current_u x w) as Had.
  destruct (transition_advance _ _ _ _ _) as [w' resp].
  destruct Had as [(Hacc & Hadv & _)|(_ & Hr & _)].
  - by eapply eff_advance.
  - by eapply refused_effect.
Qed.

Lemma run_op_effect w op : effect w (run_op w op).
Proof.
  destruct op; [apply check_effect|apply check_exec_effect|apply transition_effect].
Qed.

(** ** Facts: runs *)

Lemma new_core io state policy :
  core (new_with_log en io state policy) = (Z.of_N (first_step en), initial_visits en) ∧
  w_log (new_with_log en io state policy) = [LEnter (Z.of_N (first_step en))].
Proof.
  unfold new_with_log, write_state, write_proxy_policy, write_file.
  by destruct (io_state io), (io_dir io), (io_policy io).
Qed.

(** The steps entered, in order. *)
Definition enters (l : list LogEvent) : list Z :=
  omap (λ e, match e with LEnter z => Some z | _ => None end) l.

Lemma enters_app l1 l2 : enters (l1 ++ l2) = enters l1 ++ enters l2.
Proof. apply omap_app. Qed.

Lemma enters_no_enter l : no_enter l → enters l = [].
Proof.
  induction l as [|e l IH]; intros Hl; [done|]. cbn.
  destruct e; cbn; try (apply IH; intros z ?; apply (Hl z); set_solver).
  destruct (Hl step). set_solver.
Qed.

Lemma entries_enters n w :
  entries n w = List.length (filter (λ z, z = Z.of_N n) (enters (w_log w))).
Proof.
  unfold entries. induction (w_log w) as [|e l IH]; [done|]. rewrite filter_cons.
  destruct e; try (rewrite decide_False by done; exact IH).
  change (enters (LEnter step :: l)) with (step :: enters l). rewrite filter_cons.
  destruct (decide (step = Z.of_N n)) as [->|Hne].
  - rewrite decide_True by done. cbn [List.length]. by rewrite IH.
  - by rewrite decide_False by congruence.
Qed.

Lemma check_enters tool input w :
  enters (w_log (check en tool input w).1) = enters (w_log w).
Proof.
  unfold check. repeat (case_match || (destruct (step_verdict _ _ _ _ _) as [ok reason]));
    cbn; rewrite ?enters_app; cbn; by rewrite ?app_nil_r.
Qed.

Lemma check_exec_enters path argv commands w :
  enters (w_log (check_exec en path argv commands w).1) = enters (w_log w).
Proof.
  unfold check_exec. repeat case_match; cbn; rewrite ?enters_app; cbn; by rewrite ?app_nil_r.
Qed.

(** The workflow as an abstract machine: a declared step may move to any of
    its transition targets, or exit. *)
Definition wf_edge (a b : Z) : Prop :=
  ∃ n step, a = Z.of_N n ∧ en_steps en !! n = Some step ∧
    (b = STEP_EXITED ∨ ∃ tn, b = Z.of_N tn ∧ tn ∈ tr_to (ws_transition step)).

Lemma active_step_Some w n step :
  active_step en w = Some (n, step) → w_step w = Z.of_N n ∧ en_steps en !! n = Some step.
Proof.
  unfold active_step, to_u32. destruct (_ && _) eqn:E; cbn; [|done].
  destruct (en_steps en !! Z.to_N (w_step w)) as [s|] eqn:Es; [|done]. cbn.
  intros [= <- <-]. apply andb_true_iff in E as [E _]. apply Z.leb_le in E.
  split; [lia|done].
Qed.

Lemma effect_enters w w' :
  effect w w' →
  (core w' = core w ∧ enters (w_log w') = enters (w_log w)) ∨
  (wf_edge (w_step w) (w_step w') ∧ enters (w_log w') = enters (w_log w) ++ [w_step w']).
Proof.
  intros [l Hc Hl Hn|current_u step tn io Ha Hin Hacc (Hc & _ & _ & Hl)|current_u step Ha Hc Hl];
    rewrite Hl, enters_app.
  - left. split; [done|]. rewrite (enters_no_enter l) by done. by rewrite app_nil_r.
  - right. apply active_step_Some in Ha as [Hs Hst]. injection Hc as -> _. split; [|done].
    exists current_u, step. split_and!; [done..|]. right. by exists tn.
  - right. apply active_step_Some in Ha as [Hs Hst]. injection Hc as -> _. split; [|done].
    exists current_u, step. split_and!; [done..|]. by left.
Qed.

Lemma run_path w :
  reachable w →
  ∃ pre, enters (w_log w) = pre ++ [w_step w] ∧ chain wf_edge (pre ++ [w_step w]) ∧
    head (enters (w_log w)) = Some (Z.of_N (first_step en)).
Proof.
  induction 1 as [io state policy|w op _ (pre & He & Hc & Hh)].
  - destruct (new_core io state policy) as [Hcore Hl]. injection Hcore as -> _.
    exists []. rewrite Hl. split_and!; [done|apply chain_singleton|done].
  - destruct (effect_enters w (run_op w op) (run_op_effect w op)) as [[Hcore Hen]|[Hedge Hen]].
    + injection Hcore as -> _. rewrite Hen. by exists pre.
    + exists (pre ++ [w_step w]). rewrite Hen, He. split_and!; [done|by apply chain_snoc|].
      rewrite He in Hh. by destruct pre.
Qed.

(** C1. The engine refines the workflow graph: under any interleaving of tool
    checks, exec checks and transition requests, with any gate, judge and file
    outcomes, the steps it enters form a path that starts at the first step
    and follows declared transitions or exits, and the step in force is the
    last one entered. *)
Theorem run_follows_workflow w :
  reachable w →
  ∃ pre, enters (w_log w) = pre ++ [w_step w] ∧ chain wf_edge (pre ++ [w_step w]) ∧
    head (enters (w_log w)) = Some (Z.of_N (first_step en)).
Proof. apply run_path. Qed.

Lemma bump_lookup tn n visits :
  default 0%N (bump tn visits !! n) =
  (if (n =? tn)%N then (default 0 (visits !! tn) + 1) mod 2 ^ 32 else default 0 (visits !! n))%N.
Proof.
  unfold bump. destruct (N.eqb_spec n tn) as [->|Hne].
  - by rewrite lookup_insert_eq.
  - by rewrite lookup_insert_ne.
Qed.

(** The entries of a step that a run starts with, and those of them that the
    engine's count leaves out: the first step is entered at once, and its count
    starts at one unless its number is zero. *)
Definition given_entries (n : N) : N := if (n =? first_step en)%N then 1 else 0.
Definition uncounted_entries (n : N) : N := if (n =? 0)%N then given_entries n else 0.

Lemma enters_bounded w n max :
  reachable w → en_steps en !! n ≫= ws_max_visits = Some max → (max ≤ u32_max)%N →
  N.of_nat (entries n w) = (default 0 (w_visits w !! n) + uncounted_entries n)%N ∧
  (default 0 (w_visits w !! n) ≤ N.max max (given_entries n - uncounted_entries n))%N.
Proof.
  intros Hr Hmax Hle. rewrite entries_enters.
  induction Hr as [io state policy|w op _ [IHv IHm]].
  - destruct (new_core io state policy) as [Hcore Hl]. injection Hcore as _ ->. rewrite Hl.
    unfold initial_visits, uncounted_entries, given_entries. cbn [enters omap list_omap].
    rewrite filter_cons, filter_nil.
    destruct (decide (Z.of_N (first_step en) = Z.of_N n)) as [Heq|Hne].
    + apply N2Z.inj in Heq as ->. rewrite N.eqb_refl. destruct (N.eqb_spec n 0) as [->|Hn].
      * rewrite lookup_empty. cbn. lia.
      * rewrite lookup_singleton_eq. cbn. lia.
    + destruct (N.eqb_spec n (first_step en)) as [->|_]; [done|].
      destruct (N.eqb_spec (first_step en) 0) as [_|_]; destruct (N.eqb_spec n 0) as [_|_];
        rewrite ?lookup_empty, ?lookup_singleton_ne by congruence; cbn; lia.
  - destruct (run_op_effect w op) as
      [l Hc Hl Hne|cur step tn io Ha Hin Hacc (Hc & _ & _ & Hl)|cur step Ha Hc Hl];
      injection Hc as _ ->; rewrite Hl, enters_app, filter_app, length_app.
    + rewrite (enters_no_enter l) by done. cbn. by rewrite Nat.add_0_r.
    + change (enters [_; _]) with [Z.of_N tn]. rewrite filter_cons, filter_nil, bump_lookup.
      destruct (N.eqb_spec n tn) as [<-|Hnt].
      * rewrite decide_True by done. pose proof (acc_bound _ _ _ _ Hacc max Hmax) as Hb.
        unfold u32_max in Hle. rewrite N.mod_small by lia. cbn. lia.
      * rewrite decide_False by lia. cbn. by rewrite Nat.add_0_r.
    + change (enters [_; _]) with [STEP_EXITED]. rewrite filter_cons, filter_nil.
      rewrite decide_False by (unfold STEP_EXITED; lia). cbn. by rewrite Nat.add_0_r.
Qed.

(** C28. A step that declares [max-visits] is entered at most that many times
    in a run, whatever the agent asks for and however the gates answer.  The
    entry a run starts with is not refused: the first step is entered once even
    when its bound is zero, and a first step numbered zero, whose count starts at
    zero, is entered once more than its bound.  Apart from that one entry the
    engine's count is the number of entries in the log (the count never wraps,
    the bound being a [u32] itself). *)
Theorem visit_bound_holds w n max :
  reachable w → en_steps en !! n ≫= ws_max_visits = Some max → (max ≤ u32_max)%N →
  let first := (n =? first_step en)%N in
  (N.of_nat (entries n w) ≤
     if first then if (n =? 0)%N then max + 1 else N.max max 1 else max)%N ∧
  N.of_nat (entries n w) =
    (default 0 (w_visits w !! n) + if first && (n =? 0) then 1 else 0)%N.
Proof.
  intros Hr Hmax Hle. destruct (enters_bounded w n max Hr Hmax Hle) as [H1 H2].
  unfold uncounted_entries, given_entries in *.
  destruct (n =? first_step en)%N, (n =? 0)%N; cbn [andb] in *; lia.
Qed.

(** Every transition target is a declared step; ids are nonzero [u32]s. *)
Definition targets_closed : Prop :=
  ∀ n step tn, en_steps en !! n = Some step → tn ∈ tr_to (ws_transition step) →
    is_Some (en_steps en !! tn).

Definition ids_valid : Prop := ∀ n, is_Some (en_steps en !! n) → (1 ≤ n ≤ u32_max)%N.

Lemma active_step_intro w n step :
  w_step w = Z.of_N n → (n ≤ u32_max)%N → en_steps en !! n = Some step →
  active_step en w = Some (n, step).
Proof.
  intros Hs Hn Hst. unfold active_step, to_u32. rewrite Hs, N2Z.id.
  rewrite (proj2 (Z.leb_le 0 _)), (proj2 (Z.leb_le _ _)) by lia. cbn. by rewrite Hst.
Qed.

(** When every declared transition leads to a declared step, the engine is
    never on a step number without rules. *)
Lemma guarded_invariant w :
  targets_closed → ids_valid → en_steps en ≠ ∅ → reachable w →
  w_step w = STEP_EXITED ∨ ∃ n step, n ≠ 0%N ∧ active_step en w = Some (n, step).
Proof.
  intros Hcl Hids Hne Hr.
  assert (Hdecl : w_step w = STEP_EXITED ∨ ∃ n, w_step w = Z.of_N n ∧ is_Some (en_steps en !! n)).
  { induction Hr as [io state policy|w op _ IH].
    - right. destruct (new_core io state policy) as [Hcore _]. injection Hcore as -> _.
      exists (first_step en). split; [done|]. unfold first_step.
      destruct (btree_first (en_steps en)) as [k|] eqn:Ef; cbn.
      + by apply btree_first_Some in Ef as [? _].
      + by apply btree_first_None in Ef.
    - destruct (run_op_effect w op) as
        [l Hc _ _|cur step tn io Ha Hin _ (Hc & _)|cur step Ha Hc _]; injection Hc as -> _;
        [exact IH| |by left].
      right. exists tn. split; [done|]. apply active_step_Some in Ha as [_ Hst]. by eapply Hcl. }
  destruct Hdecl as [?|(n & Hs & step & Hst)]; [by left|right]. exists n, step.
  destruct (Hids n (mk_is_Some _ _ Hst)). split; [lia|]. by apply active_step_intro.
Qed.

(** Exit is final: once a session has exited, no operation leaves that
    state, every tool call is denied and every transition request fails. *)
Theorem exit_is_final w ops :
  w_step w = STEP_EXITED →
  let w' := fold_left run_op ops w in
  w_step w' = STEP_EXITED ∧
  (∀ tool input, ∃ reason, (check en tool input w').2 = VDeny reason) ∧
  (∀ io target, resp_ok (transition en io target w').2 = Some (JBool false)).
Proof.
  intros Hs. assert (Hstay : w_step (fold_left run_op ops w) = STEP_EXITED).
  { revert w Hs. induction ops as [|op ops IH]; intros w Hs; [done|]. cbn. apply IH.
    destruct (effect_enters w (run_op w op) (run_op_effect w op)) as [[Hc _]|[Hedge _]].
    - injection Hc as -> _. done.
    - destruct Hedge as (n & step & Hn & _). rewrite Hs in Hn. unfold STEP_EXITED in Hn. lia. }
  cbv zeta. split_and!; [done| |].
  - intros tool input. unfold check. rewrite Hstay. cbn. eauto.
  - intros io target. unfold transition, active_step. by rewrite Hstay.
Qed.

(** C31. A numeric transition, decided exactly: it succeeds when, and only
    when, the target is declared, the visit bound has room, the step's gate
    and the target's gate exit 0, the judge answers 1 to every question, and
    the policy (if its directory exists) and state writes succeed; then the
    step, the count, the policy file and the state file all move to the
    target.  Otherwise the request is refused and step and counts stay. *)
Theorem advance_exact io target w current_u step tn :
  active_step en w = Some (current_u, step) →
  is_exit_target target = false → target_number target = Some tn →
  let '(w', resp) := transition en io target w in
  (tn ∈ tr_to (ws_transition step) ∧ accepted io current_u tn w ∧
     advanced io current_u tn w w' ∧ resp_ok resp = Some (JBool true)) ∨
  ((tn ∈ tr_to (ws_transition step) → accepted io current_u tn w → False) ∧
     core w' = core w ∧ enters (w_log w') = enters (w_log w) ∧
     resp_ok resp = Some (JBool false)).
Proof.
  intros Ha He Hn. unfold transition. rewrite Ha, He, Hn.
  destruct (existsb (N.eqb tn) _) eqn:Et.
  - apply existsb_exists in Et as (x & Hin%list_elem_of_In & <-%N.eqb_eq).
    pose proof (advance_spec io current_u tn w) as Had.
    destruct (transition_advance _ _ _ _ _) as [w' resp].
    destruct Had as [(? & ? & ?)|(Hna & [Hc [reason Hl]] & ?)]; [by left|right].
    split_and!; [by intros _|done| |done]. rewrite Hl, enters_app. apply app_nil_r.
  - right. split_and!; [|done..]. intros Hin _. apply not_true_iff_false in Et. apply Et.
    apply existsb_exists. exists tn. by rewrite N.eqb_refl, <-list_elem_of_In.
Qed.

(** The way out is always open: from any declared step, [exit] in any
    letter case ends the session as soon as its files can be written; gates,
    judge and visit bounds are not consulted, and the step need not declare an
    exit. *)
Theorem exit_always_available io target w current_u step :
  active_step en w = Some (current_u, step) → is_exit_target target = true →
  (io_dir io = true → io_policy io = Wrote) → io_state io = Wrote →
  let '(w', resp) := transition en io target w in
  w_step w' = STEP_EXITED ∧ resp_ok resp = Some (JBool true) ∧
  w_policy w' = (if io_dir io then Some (exit_policy en) else w_policy w).
Proof.
  intros Ha He Hp Hs. unfold transition. rewrite Ha, He.
  pose proof (exit_spec io current_u w) as Hex. destruct (transition_exit _ _ _ _) as [w' resp].
  destruct Hex as [(_ & _ & Hc & Hpol & _ & Hok)|(Hn & _)]; [|by destruct (Hn Hp Hs)].
  by injection Hc as -> _.
Qed.

(** ** Facts: the egress policy *)

Definition good_io (io : Io) : Prop :=
  io_dir io = true ∧ io_policy io = Wrote ∧ io_state io = Wrote.

(** Runs in which the policy directory exists and the writes succeed. *)
Inductive good_run : World → Prop :=
| good_new io state policy : good_io io → good_run (new_with_log en io state policy)
| good_op w op :
    good_run w → (∀ target io, op = OpTransition target io → good_io io) →
    good_run (run_op w op).

(** The policy that belongs to a step number. *)
Definition policy_of (step : Z) : Value :=
  if (step =? STEP_EXITED)%Z then exit_policy en else policy_for en (Z.to_N step).

Lemma policy_of_step n : policy_of (Z.of_N n) = policy_for en n.
Proof.
  unfold policy_of, STEP_EXITED. destruct (Z.eqb_spec (Z.of_N n) (-1)) as [E|_]; [lia|].
  by rewrite N2Z.id.
Qed.

Lemma check_policy tool input w : w_policy (check en tool input w).1 = w_policy w.
Proof.
  unfold check. by repeat (case_match || (destruct (step_verdict _ _ _ _ _) as [ok reason])).
Qed.

Lemma check_exec_policy path argv commands w :
  w_policy (check_exec en path argv commands w).1 = w_policy w.
Proof. unfold check_exec. by repeat case_match. Qed.

Lemma transition_policy io target w :
  good_io io →
  let w' := (transition en io target w).1 in
  (w_step w' = w_step w ∧ w_policy w' = w_policy w) ∨ w_policy w' = Some (policy_of (w_step w')).
Proof.
  intros (Hd & Hp & Hs). unfold transition. destruct (active_step en w) as [[cur step]|]; [|by left].
  destruct (is_exit_target target).
  { right. pose proof (exit_spec io cur w) as Hex. destruct (transition_exit _ _ _ _) as [w' resp].
    destruct Hex as [(_ & _ & Hc & Hpol & _)|(Hn & _)]; [|by destruct Hn].
    injection Hc as Hc _. cbn. by rewrite Hpol, Hd, Hc. }
  destruct (target_number target) as [tn|]; [|by left].
  destruct (existsb _ _); [|by left]. unfold transition_advance.
  destruct (visit_bound_denial en tn _); [by left|].
  destruct (gate_denial en io cur tn); [by left|].
  destruct (run_judge en io cur) as [judge|[reason entry]]; [|by left].
  unfold write_proxy_policy, write_state, write_file. rewrite Hd, Hp, Hs. right. cbn.
  by rewrite policy_of_step.
Qed.

Lemma good_run_policy w : good_run w → w_policy w = Some (policy_of (w_step w)).
Proof.
  induction 1 as [io state policy (Hd & Hp & Hs)|w op _ IH Hio].
  - unfold new_with_log, write_state, write_proxy_policy, write_file. rewrite Hd, Hp, Hs. cbn.
    by rewrite policy_of_step.
  - assert (Hsame : ∀ w', effect w w' → w_policy w' = w_policy w → enters (w_log w') = enters (w_log w) →
      w_policy w' = Some (policy_of (w_step w'))).
    { intros w' He Hpol Hen. destruct (effect_enters w w' He) as [[Hc _]|[_ Hen']].
      - injection Hc as -> _. by rewrite Hpol.
      - rewrite Hen' in Hen. apply (f_equal List.length) in Hen. rewrite length_app in Hen.
        cbn in Hen. lia. }
    destruct op as [tool input|path argv commands|target io].
    + apply Hsame; [apply check_effect|apply check_policy|]. apply check_enters.
    + apply Hsame; [apply check_exec_effect|apply check_exec_policy|]. apply check_exec_enters.
    + destruct (transition_policy io target w) as [[Hst Hpol]|Hpol]; [by eapply Hio| |done].
      cbn. by rewrite Hpol, Hst.
Qed.

(** As long as its writes succeed, the engine keeps the egress proxy on
    the policy of the step in force: in every state of such a run the policy
    file holds exactly the policy of the current step, or the exit policy once
    the session is over. *)
Theorem policy_tracks_step w : good_run w → w_policy w = Some (policy_of (w_step w)).
Proof. apply good_run_policy. Qed.

(** A refused transition can leave its target's egress in force: when
    everything passes and the policy is written but the state write then
    fails, the request is refused and the step does not move, yet the policy
    file holds the target step's policy. *)
Theorem refused_advance_leaves_target_policy io target w current_u step tn e remains :
  active_step en w = Some (current_u, step) →
  is_exit_target target = false → target_number target = Some tn →
  tn ∈ tr_to (ws_transition step) →
  visit_bound_denial en tn (w_visits w) = None →
  gate_denial en io current_u tn = None → judge_passes current_u io →
  io_dir io = true → io_policy io = Wrote → io_state io = WriteFailed e remains →
  let '(w', resp) := transition en io target w in
  resp_ok resp = Some (JBool false) ∧ w_step w' = w_step w ∧
  w_policy w' = Some (policy_for en tn).
Proof.
  intros Ha He Hn Hin Hb Hg Hj Hd Hp Hs. unfold transition. rewrite Ha, He, Hn.
  assert (existsb (N.eqb tn) (tr_to (ws_transition step)) = true) as ->.
  { apply existsb_exists. exists tn. by rewrite N.eqb_refl, <-list_elem_of_In. }
  unfold transition_advance. rewrite Hb, Hg. apply run_judge_ok in Hj.
  destruct (run_judge en io current_u) as [judge|]; [|done].
  unfold write_proxy_policy, write_state, write_file. by rewrite Hd, Hp, Hs.
Qed.

(** ** Facts: checks *)

Definition allowed_of (step : WorkflowStep) : list string :=
  Rule_expand (ws_allowed step) (en_tool_sets en).
Definition disallowed_of (step : WorkflowStep) : list string :=
  Rule_expand (ws_disallowed step) (en_tool_sets en).

(** A Bash call that talks to the guard itself. *)
Definition guard_call (tool : string) (input : Value) : Prop :=
  tool = "Bash" ∧ ∃ cmd, get_str "command" input = Some cmd ∧ is_guard_curl cmd = true.

Lemma step_verdict_ok n step tool input :
  (step_verdict en n step tool input).1 = true ↔
  (check_rules tool input (allowed_of step) (disallowed_of step)).1 = true ∨
  (tool = "Bash" ∧ ∃ g, en_grants en !! n = Some g ∧
     bash_granted g input (allowed_of step) (disallowed_of step) = true).
Proof.
  unfold step_verdict. fold (allowed_of step) (disallowed_of step).
  destruct (check_rules tool input _ _) as [ok reason]; cbn.
  destruct (en_grants en !! n) as [g|]; cbn.
  - destruct ok; cbn; [naive_solver|]. destruct (String.eqb_spec tool "Bash") as [->|Hne]; cbn.
    + destruct (bash_granted _ _ _ _) eqn:Eg; cbn; naive_solver.
    + naive_solver.
  - naive_solver.
Qed.

Lemma check_guarded w n step tool input :
  active_step en w = Some (n, step) → n ≠ 0%N →
  ((check en tool input w).2 = VAllow ∨ ∃ reason, (check en tool input w).2 = VDeny reason) ∧
  ((check en tool input w).2 = VAllow ↔
     str_in tool ALWAYS_ALLOWED = true ∨ guard_call tool input ∨
     (step_verdict en n step tool input).1 = true).
Proof.
  intros Ha Hn. apply active_step_Some in Ha as Hs. destruct Hs as [Hs Hst].
  unfold active_step in Ha. destruct (to_u32 (w_step w)) as [m|] eqn:Eu; [|done]. cbn in Ha.
  unfold check. rewrite Eu. destruct (Z.eqb_spec (w_step w) STEP_EXITED) as [E|_].
  { rewrite Hs in E. unfold STEP_EXITED in E. lia. }
  assert (m = n) as ->.
  { unfold to_u32 in Eu. rewrite Hs in Eu. destruct (_ && _); [|done]. injection Eu as <-. lia. }
  destruct (N.eqb_spec n 0) as [|_]; [done|]. rewrite Hst.
  destruct (str_in tool ALWAYS_ALLOWED); [naive_solver|].
  assert (Hg : (tool ==s "Bash") && match get_str "command" input with
    | Some cmd => is_guard_curl cmd | None => false end = true ↔ guard_call tool input).
  { unfold guard_call. destruct (String.eqb_spec tool "Bash"); cbn; [|naive_solver].
    destruct (get_str "command" input) as [cmd|]; naive_solver. }
  destruct (_ && _) eqn:Eg; [naive_solver|].
  destruct (step_verdict _ _ _ _ _) as [[] reason]; cbn; naive_solver.
Qed.

(** The decision on a tool call in a guarded step, complete: it is allowed
    exactly for the two always-allowed tools, for a plain [curl] to the guard
    daemon, when the step's own keyword rules allow it, or, for Bash, when the
    step's capabilities vouch for every segment the phrases do not allow; in
    every other case it is denied, never left to ask. *)
Theorem check_allowed_iff w n step tool input :
  active_step en w = Some (n, step) → n ≠ 0%N →
  ((check en tool input w).2 = VAllow ↔
     str_in tool ALWAYS_ALLOWED = true ∨ guard_call tool input ∨
     (check_rules tool input (allowed_of step) (disallowed_of step)).1 = true ∨
     (tool = "Bash" ∧ ∃ g, en_grants en !! n = Some g ∧
        bash_granted g input (allowed_of step) (disallowed_of step) = true)) ∧
  ((check en tool input w).2 = VAllow ∨ ∃ reason, (check en tool input w).2 = VDeny reason).
Proof.
  intros Ha Hn. destruct (check_guarded w n step tool input Ha Hn) as [Hd Hiff].
  split; [|done]. by rewrite Hiff, step_verdict_ok.
Qed.

(** Capabilities never override a prohibition: a Bash call with a segment
    that contains a disallowed phrase is denied whatever the allow list and
    the granted exec table say (unless it is the guard's own [curl]). *)
Theorem disallowed_beats_grants w n step input seg kw :
  active_step en w = Some (n, step) → n ≠ 0%N →
  (guard_call "Bash" input → False) →
  seg ∈ split_bash_segments (command_of input) →
  kw ∈ strip_builtin (disallowed_of step) → "*" ∉ strip_builtin (disallowed_of step) →
  phrase_matches ("Bash " ++s normalize_bash_segment seg) kw = true →
  ∃ reason, (check en "Bash" input w).2 = VDeny reason.
Proof.
  intros Ha Hn Hcurl Hseg Hkw Hstar Hm.
  destruct (check_guarded w n step "Bash" input Ha Hn) as [[Hall|?] Hiff]; [|done].
  exfalso. apply Hiff in Hall as [?|[?|Hv]]; [done|tauto|]. apply step_verdict_ok in Hv.
  assert (Href : ∀ allowed, (check_rules "Bash" input allowed (disallowed_of step)).1 = false).
  { intros allowed. by eapply phrase_refusal. }
  rewrite Href in Hv. destruct Hv as [?|(_ & g & _ & Hb)]; [done|].
  unfold bash_granted in Hb. destruct (get_str "command" input); [|done].
  by rewrite Href in Hb.
Qed.

Lemma exec_phrase_denial_None disallowed commands :
  exec_phrase_denial disallowed commands = None ↔
  ∀ c, c ∈ commands → (check_rules "Bash" (bash_input c) ["Bash"] disallowed).1 = true.
Proof.
  induction commands as [|c commands IH]; cbn -[check_rules]; [set_solver|].
  destruct (check_rules "Bash" (bash_input c) ["Bash"] disallowed) as [[] reason] eqn:E.
  - rewrite IH. split; [|set_solver].
    intros Hall x [->|Hx]%elem_of_cons; [by rewrite E|by apply Hall].
  - split; [done|]. intros Hall. specialize (Hall c). rewrite E in Hall. set_solver.
Qed.

(** The decision on an intercepted exec in a guarded step: allowed exactly
    when no rendering of it runs into an explicitly disallowed phrase and,
    where the step grants capabilities, its exec table accepts the path and
    argv; so a binary, subcommand or flag no granted capability covers never
    runs in such a step. *)
Theorem exec_allowed_iff w n step path argv commands :
  active_step en w = Some (n, step) → n ≠ 0%N →
  ((check_exec en path argv commands w).2 = VAllow ↔
     (∀ c, c ∈ commands → (check_rules "Bash" (bash_input c) ["Bash"]
        (filter (λ kw, kw ≠ "*") (disallowed_of step))).1 = true) ∧
     (∀ g, en_grants en !! n = Some g → is_ok (ExecTable_check (g_exec g) path argv) = true)).
Proof.
  intros Ha Hn. unfold check_exec. apply active_step_Some in Ha as Hs. destruct Hs as [Hs _].
  destruct (Z.eqb_spec (w_step w) 0) as [E|_]; [rewrite Hs in E; lia|]. rewrite Ha.
  unfold exec_denial. fold (disallowed_of step). rewrite <-exec_phrase_denial_None.
  destruct (exec_phrase_denial _ commands) as [reason|]; cbn -[ExecTable_check].
  { split; [done|]. by intros [? _]. }
  destruct (en_grants en !! n) as [g|]; cbn -[ExecTable_check].
  2:{ split; [|done]. intros _. by split; [|intros ? [=]]. }
  split.
  - intros Hv. split; [done|]. intros g' [= <-]. by destruct (ExecTable_check _ _ _).
  - intros [_ Hg]. specialize (Hg g eq_refl). by destruct (ExecTable_check _ _ _).
Qed.

(** ** Facts: the guard's own curl *)

(** A list of curl arguments that are guard URLs, quiet flags, or a known
    option with a value that does not name a file. *)
Inductive CurlArgs : list string → Prop :=
| CA_nil : CurlArgs []
| CA_url u rest : is_guard_url u = true → CurlArgs rest → CurlArgs (u :: rest)
| CA_flag f rest : is_plain_curl_flag f PLAIN_FLAGS = true → CurlArgs rest → CurlArgs (f :: rest)
| CA_value f v rest :
    f ∈ VALUE_FLAGS → starts_with "@" v = false → CurlArgs rest → CurlArgs (f :: v :: rest).

Lemma str_in_elem s l : str_in s l = true ↔ s ∈ l.
Proof.
  unfold str_in. rewrite existsb_elem. setoid_rewrite String.eqb_eq. naive_solver.
Qed.

Lemma guard_curl_args_sound args : ∀ saw,
  guard_curl_args saw args = true →
  CurlArgs args ∧ (saw = true ∨ ∃ u, u ∈ args ∧ is_guard_url u = true).
Proof.
  induction args as [args IH] using (induction_ltof1 _ (@List.length string)). unfold ltof in IH.
  intros saw. destruct args as [|a rest]; cbn -[is_guard_url str_in is_plain_curl_flag starts_with].
  { intros ->. split; [constructor|by left]. }
  destruct (str_in a VALUE_FLAGS) eqn:Ev.
  { destruct rest as [|v rest]; [done|]. destruct (starts_with "@" v) eqn:Ea; [done|].
    intros Hr. destruct (IH rest ltac:(cbn; lia) saw Hr) as [Hc Hs]. apply str_in_elem in Ev.
    split; [by apply CA_value|]. destruct Hs as [?|(u & ? & ?)]; [by left|right; exists u; set_solver]. }
  destruct (is_guard_url a) eqn:Eu.
  { intros Hr. destruct (IH rest ltac:(cbn; lia) true Hr) as [Hc Hs].
    split; [by constructor|]. right. exists a. split; [set_solver|done]. }
  destruct (is_plain_curl_flag a PLAIN_FLAGS) eqn:Ef; [|done].
  intros Hr. destruct (IH rest ltac:(cbn; lia) saw Hr) as [Hc Hs].
  split; [by apply CA_flag|]. destruct Hs as [?|(u & ? & ?)]; [by left|right; exists u; set_solver].
Qed.

(** The host and port of a guard URL are the guard's: what follows the
    address is nothing, a path or a query. *)
Lemma guard_url_shape u :
  is_guard_url u = true →
  ∃ scheme addr tail, u = scheme ++s addr ++s tail ∧ (scheme = "" ∨ scheme = "http://") ∧
    addr ∈ GUARD_ADDRS ∧ (tail = "" ∨ starts_with "/" tail = true ∨ starts_with "?" tail = true).
Proof.
  unfold is_guard_url. intros Hex.
  assert (Hs : ∃ scheme, u = scheme ++s default u (strip_prefix "http://" u) ∧
    (scheme = "" ∨ scheme = "http://")).
  { destruct (strip_prefix "http://" u) as [r|] eqn:E.
    - apply strip_prefix_spec in E. exists "http://". by auto.
    - exists "". by auto. }
  destruct Hs as (scheme & Hu & Hsch).
  apply existsb_elem in Hex as (addr & Hin & Hm).
  destruct (strip_prefix addr _) as [tail|] eqn:E; [|done].
  apply strip_prefix_spec in E. exists scheme, addr, tail. split_and!; [by rewrite <-E|done|done|].
  rewrite !orb_true_iff in Hm. destruct Hm as [[Hm|Hm]|Hm]; [left|by auto..].
  by apply String.eqb_eq in Hm.
Qed.

(** The exception every step grants is narrow: a command passes as the
    guard's own [curl] only if it has no shell metacharacter, runs [curl], has
    at least one URL, every URL is [127.0.0.1:9999] or [localhost:9999]
    followed by nothing, a path or a query, and every other argument is a
    quiet flag or a known option whose value does not read a file. *)
Theorem guard_curl_sound cmd :
  is_guard_curl cmd = true →
  contains_char (ascii_in SHELL_META) cmd = false ∧
  ∃ args, shlex_split cmd = Some ("curl" :: args) ∧ CurlArgs args ∧
    (∃ u, u ∈ args ∧ is_guard_url u = true) ∧
    ∀ u, is_guard_url u = true →
      ∃ scheme addr tail, u = scheme ++s addr ++s tail ∧ (scheme = "" ∨ scheme = "http://") ∧
        addr ∈ GUARD_ADDRS ∧
        (tail = "" ∨ starts_with "/" tail = true ∨ starts_with "?" tail = true).
Proof.
  unfold is_guard_curl. destruct (contains_char _ cmd); [done|].
  destruct (shlex_split cmd) as [[|first args]|]; [done| |done].
  intros [->%String.eqb_eq Hg]%andb_true_iff. split; [done|]. exists args.
  apply guard_curl_args_sound in Hg as [Hc [?|Hu]]; [done|].
  split_and!; [done..|]. intros u Hguard. by apply guard_url_shape.
Qed.
End engine.

(** ** Witnesses *)

Definition plain_step (id : N) (to : list N) (max : option N) (allowed disallowed : Rule) :
    WorkflowStep :=
  mkWStep id "" "" allowed disallowed [] (mkTransition to false ∅) None false [] max.

Definition demo_engine : Engine :=
  mkEngine
    (<[1%N := plain_step 1 [2%N] None (RuleList ["git"; "ls"]) (RuleList ["git push"])]>
     {[2%N := plain_step 2 [1%N] (Some 2%N) Unrestricted Unrestricted]})
    ∅ ["api.anthropic.com:443"] None false false false 300 180 ∅.

Definition good : Io :=
  mkIo true Wrote Wrote (Exited (Some 0%Z) "" "") (Exited (Some 0%Z) "" "")
    (Exited (Some 0%Z) "" "") [] Wrote.

Definition demo_start : World := new_with_log demo_engine good None None.
Definition demo_step2 : World := (@transition plain_json demo_engine good (jN 2) demo_start).1.

Lemma demo_start_reachable : @reachable plain_shlex plain_json demo_engine demo_start.
Proof. apply reach_new. Qed.

Lemma demo_step2_reachable : @reachable plain_shlex plain_json demo_engine demo_step2.
Proof. apply (reach_op _ demo_start (OpTransition (jN 2) good)), demo_start_reachable. Qed.

Lemma run_follows_workflow_witness :
  ∃ pre, enters (w_log demo_step2) = pre ++ [w_step demo_step2] ∧
    chain (wf_edge demo_engine) (pre ++ [w_step demo_step2]) ∧
    head (enters (w_log demo_step2)) = Some (Z.of_N (first_step demo_engine)).
Proof. apply (@run_follows_workflow plain_shlex plain_json), demo_step2_reachable. Defined.

Lemma visit_bound_holds_witness :
  (N.of_nat (entries 2 demo_step2) ≤ 2)%N ∧
  N.of_nat (entries 2 demo_step2) = default 0%N (w_visits demo_step2 !! 2%N).
Proof.
  apply (@visit_bound_holds plain_shlex plain_json demo_engine demo_step2 2 2);
    [apply demo_step2_reachable|done|unfold u32_max; lia].
Defined.

Definition demo_exited : World :=
  (@transition plain_json demo_engine good (JStr "Exit") demo_start).1.

Lemma exit_is_final_witness :
  let w' := fold_left (@run_op plain_shlex plain_json demo_engine)
              [OpTransition (jN 2) good; OpCheck "Read" JNull] demo_exited in
  w_step w' = STEP_EXITED ∧
  (∀ tool input, ∃ reason,
     (@check plain_shlex plain_json demo_engine tool input w').2 = VDeny reason) ∧
  (∀ io target, resp_ok (@transition plain_json demo_engine io target w').2 = Some (JBool false)).
Proof. apply (@exit_is_final plain_shlex plain_json). by vm_compute. Defined.

Definition demo_step1 : WorkflowStep :=
  plain_step 1 [2%N] None (RuleList ["git"; "ls"]) (RuleList ["git push"]).

Lemma advance_exact_witness :
  let '(w', resp) := @transition plain_json demo_engine good (jN 2) demo_start in
  (2%N ∈ tr_to (ws_transition demo_step1) ∧ @accepted plain_json demo_engine good 1 2 demo_start ∧
     advanced demo_engine good 1 2 demo_start w' ∧ resp_ok resp = Some (JBool true)) ∨
  ((2%N ∈ tr_to (ws_transition demo_step1) →
      @accepted plain_json demo_engine good 1 2 demo_start → False) ∧
     core w' = core demo_start ∧ enters (w_log w') = enters (w_log demo_start) ∧
     resp_ok resp = Some (JBool false)).
Proof. apply (@advance_exact plain_json); by vm_compute. Defined.

Lemma exit_always_available_witness :
  let '(w', resp) := @transition plain_json demo_engine good (JStr "EXIT") demo_start in
  w_step w' = STEP_EXITED ∧ resp_ok resp = Some (JBool true) ∧
  w_policy w' = (if io_dir good then Some (exit_policy demo_engine) else w_policy demo_start).
Proof.
  apply (@exit_always_available plain_json demo_engine good (JStr "EXIT") demo_start 1 demo_step1);
    by vm_compute.
Defined.

Lemma policy_tracks_step_witness :
  w_policy demo_step2 = Some (policy_of demo_engine (w_step demo_step2)).
Proof.
  apply (@policy_tracks_step plain_shlex plain_json).
  apply (good_op _ demo_start (OpTransition (jN 2) good)).
  - by apply good_new.
  - by intros target io [= _ <-].
Defined.

Definition bad_state : Io :=
  mkIo true Wrote (WriteFailed "disk full" None) (Exited (Some 0%Z) "" "")
    (Exited (Some 0%Z) "" "") (Exited (Some 0%Z) "" "") [] Wrote.

Lemma refused_advance_leaves_target_policy_witness :
  let '(w', resp) := @transition plain_json demo_engine bad_state (jN 2) demo_start in
  resp_ok resp = Some (JBool false) ∧ w_step w' = w_step demo_start ∧
  w_policy w' = Some (policy_for demo_engine 2).
Proof.
  apply (@refused_advance_leaves_target_policy plain_json demo_engine bad_state (jN 2)
    demo_start 1 demo_step1 2 "disk full" None);
    [by vm_compute|by vm_compute|by vm_compute|apply list_elem_of_here|by vm_compute|by vm_compute
    |by left|by vm_compute..].
Defined.

Lemma check_allowed_iff_witness :
  (@check plain_shlex plain_json demo_engine "Bash" (bash_input "git log") demo_start).2 = VAllow ∨
  ∃ reason,
    (@check plain_shlex plain_json demo_engine "Bash" (bash_input "git log") demo_start).2 =
    VDeny reason.
Proof.
  apply (@check_allowed_iff plain_shlex plain_json demo_engine demo_start 1 demo_step1);
    by vm_compute.
Defined.

Lemma disallowed_beats_grants_witness :
  ∃ reason,
    (@check plain_shlex plain_json demo_engine "Bash" (bash_input "ls; git push x") demo_start).2 =
    VDeny reason.
Proof.
  apply (@disallowed_beats_grants plain_shlex plain_json demo_engine demo_start 1 demo_step1 _
    "git push x" "git push"); 
    [by vm_compute|done| |apply (bool_decide_unpack _); by vm_compute..|by vm_compute].
  intros (_ & cmd & Hc & Hg). injection Hc as <-. by vm_compute in Hg.
Defined.

Lemma exec_allowed_iff_witness :
  (@check_exec plain_shlex plain_json demo_engine "/usr/bin/git" ["git"; "log"] ["git log"]
     demo_start).2 = VAllow ↔
  (∀ c, c ∈ ["git log"] → (@check_rules plain_shlex plain_json "Bash" (bash_input c) ["Bash"]
     (filter (λ kw, kw ≠ "*") (disallowed_of demo_engine demo_step1))).1 = true) ∧
  (∀ g, en_grants demo_engine !! 1%N = Some g →
     is_ok (ExecTable_check (g_exec g) "/usr/bin/git" ["git"; "log"]) = true).
Proof. apply (@exec_allowed_iff plain_shlex plain_json); by vm_compute. Defined.

Lemma guard_curl_sound_witness :
  ∃ args, plain_shlex "curl -s http://localhost:9999/state" = Some ("curl" :: args) ∧
    CurlArgs args.
Proof.
  destruct (@guard_curl_sound plain_shlex "curl -s http://localhost:9999/state")
    as (_ & args & Hs & Hc & _); [by vm_compute|].
  by exists args.
Defined.
