(* ===== verification/Lint.v ===== *)
(** * The workflow linter ([cctui-guard/src/lint.rs])

    Static checks of a compiled workflow against its sets, and the resolved
    per-step policy.  The two graph searches (steps reachable from the entry,
    steps that can reach Exit) are loops; their fuel is shown to suffice and
    their result to be the reachability relation.  A [HashMap]'s iteration order
    is a parameter, [order], and no result depends on it. *)

From stdpp Require Import base decidable list gmap strings sorting relations.
From Stdlib Require Import Lia ZArith Bool Ascii String.
From S2P Require Import Prelude RustStr Json Parser Ir Rules Matcher Capability DecisionLog Engine EngineFacts.

Record ResolvedStep := mkResolvedStep {
  rv_id : N;
  rv_title : string;
  rv_allowed : list string;
  rv_disallowed : list string;
  rv_network : list string;
  rv_network_open : bool;
  rv_transitions : list N;
  rv_exit : bool;
  rv_gate : bool;
  rv_judge : nat;
  rv_max_visits : option N;
  rv_transition_gates : list N;
}.

Record LintReport := mkReport {
  lr_diagnostics : list Diagnostic;
  lr_resolved : list ResolvedStep;
}.

Definition is_error (d : Diagnostic) : bool := bool_decide (d_severity d = SevError).

Definition has_errors (r : LintReport) : bool := existsb is_error (lr_diagnostics r).

(** ** Step checks *)

Definition looks_like_set_ref (token : string) : bool :=
  negb (is_empty token) && contains_char (Ascii.eqb "-") token &&
  all_chars (λ c, is_ascii_alphanumeric c || Ascii.eqb c "-" || Ascii.eqb c "_") token.

Definition resolve_network (tokens : list string) (tool_sets : ToolSets) : list string :=
  tokens ≫= λ item,
    filter (λ e, contains_char (Ascii.eqb ":") e = true ∧ starts_with "[" e = false)
      (trim <$> expand_set tool_sets item).

Definition rule_tokens (rule : Rule) : list string :=
  match rule with RuleList items => items | Unrestricted | Wildcard => [] end.

Definition err (step : N) (message : string) : Diagnostic := mkDiag SevError (Some step) message.
Definition warn (step : N) (message : string) : Diagnostic := mkDiag SevWarning (Some step) message.

Definition report_duplicate (acc : gset N * gset N * list Diagnostic) (id : N) :
    gset N * gset N * list Diagnostic :=
  let '(seen, flagged, ds) := acc in
  if decide (id ∈ seen) then
    if decide (id ∈ flagged) then acc
    else (seen, {[id]} ∪ flagged,
          ds ++ [err id ("duplicate step number " ++s u32_to_string id ++s
                         " — the later definition silently overwrites the earlier")])
  else ({[id]} ∪ seen, flagged, ds).

Definition report_duplicate_ids (declared_ids : list N) : list Diagnostic :=
  (fold_left report_duplicate declared_ids (∅, ∅, [])).2.

(** [overlap.sort(); overlap.dedup()]. *)
Definition str_order (x y : string) : Prop := String.leb x y = true.

#[export] Instance str_order_dec : RelDecision str_order.
Proof. intros x y. unfold str_order. apply _. Defined.

Fixpoint dedup_adjacent (l : list string) : list string :=
  match l with
  | x :: ((y :: _) as r) => if x ==s y then dedup_adjacent r else x :: dedup_adjacent r
  | _ => l
  end.

Definition is_wild (r : Rule) : bool := match r with Wildcard => true | _ => false end.

Definition report_contradictions (step : WorkflowStep) (tool_sets : ToolSets) : list Diagnostic :=
  let allowed := Rule_expand (ws_allowed step) tool_sets in
  let disallowed := Rule_expand (ws_disallowed step) tool_sets in
  (if is_wild (ws_disallowed step) &&
      (is_wild (ws_allowed step) || bool_decide (allowed = [])) then
     [warn (ws_id step) "[disallowed]: * with no overriding [allowed] blocks every tool"]
   else []) ++
  ((λ kw, warn (ws_id step)
            ("'" ++s kw ++s "' is in both [allowed] and [disallowed] — disallow wins")) <$>
   dedup_adjacent (merge_sort str_order (filter (λ k, k ∈ allowed) disallowed))).

Definition lint_set_ref (tool_sets : ToolSets) (sid : N) (token : string) : option Diagnostic :=
  if looks_like_set_ref token && bool_decide (tool_sets !! token = None) then
    Some (err sid ("unknown set '" ++s token ++s
      "' in [allowed]/[disallowed] — it is not a defined set and would be matched as a " ++s
      "literal keyword"))
  else None.

Definition lint_network (tool_sets : ToolSets) (sid : N) (token : string) : option Diagnostic :=
  if bool_decide (tool_sets !! token = None) && negb (contains_char (Ascii.eqb ":") token) then
    Some (err sid ("unknown network set '" ++s token ++s
      "' — not a defined set and not a literal host:port, so it grants nothing"))
  else None.

Definition lint_target (defined : gset N) (sid target : N) : option Diagnostic :=
  if decide (target ∈ defined) then None
  else Some (err sid ("[transition] targets undefined Step " ++s u32_to_string target)).

Definition lint_gate (step : WorkflowStep) (target : N) : option Diagnostic :=
  if decide (target ∈ tr_to (ws_transition step)) then None
  else Some (err (ws_id step) ("guard block declares a transition gate to Step " ++s
    u32_to_string target ++s ", which is not a declared transition target")).

Definition lint_one (tool_sets : ToolSets) (default_allow : bool) (defined : gset N)
    (step : WorkflowStep) : list Diagnostic :=
  let sid := ws_id step in
  omap (lint_set_ref tool_sets sid) (rule_tokens (ws_allowed step) ++ rule_tokens (ws_disallowed step)) ++
  omap (lint_network tool_sets sid) (ws_network step) ++
  omap (lint_target defined sid) (tr_to (ws_transition step)) ++
  omap (lint_gate step) ((btree_iter (tr_gates (ws_transition step))).*1) ++
  (if bool_decide (ws_max_visits step = Some 0%N) then
     [warn sid "max-visits: 0 makes the step impossible to enter"] else []) ++
  report_contradictions step tool_sets ++
  (if bool_decide (ws_network step = []) && default_allow then
     [warn sid "no [network] under [network-default]: allow — egress is silently open"] else []).

Definition resolve_step (tool_sets : ToolSets) (step : WorkflowStep) : ResolvedStep :=
  mkResolvedStep (ws_id step) (ws_title step)
    (Rule_expand (ws_allowed step) tool_sets) (Rule_expand (ws_disallowed step) tool_sets)
    (resolve_network (ws_network step) tool_sets)
    (existsb (λ t, t ==s "*") (ws_network step))
    (tr_to (ws_transition step)) (tr_exit (ws_transition step))
    (match ws_gate step with Some _ => true | None => false end)
    (List.length (ws_judge step)) (ws_max_visits step)
    (btree_iter (tr_gates (ws_transition step))).*1.

(** ** Reachability *)

(** The declared edges between defined steps. *)
Definition edges_of (w : Workflow) (defined : gset N) : gmap N (list N) :=
  fold_left (λ m s, <[ws_id s := filter (λ t, t ∈ defined) (tr_to (ws_transition s))]> m)
    (wf_steps_list w) ∅.

Definition exits_of (w : Workflow) : gset N :=
  list_to_set (ws_id <$> filter (λ s, tr_exit (ws_transition s) = true) (wf_steps_list w)).

(** The depth-first search; the head of [stack] is its top. *)
Fixpoint dfs (fuel : nat) (edges : gmap N (list N)) (stack : list N) (reachable : gset N) :
    option (gset N) :=
  match fuel with
  | O => None
  | S fuel =>
    match stack with
    | [] => Some reachable
    | id :: stack =>
      if decide (id ∈ reachable) then dfs fuel edges stack reachable
      else dfs fuel edges (rev (default [] (edges !! id)) ++ stack) ({[id]} ∪ reachable)
    end
  end.

(** One turn per pushed step, and the last test. *)
Definition dfs_fuel (edges : gmap N (list N)) : nat :=
  2 + sum_list_with (λ e, List.length e.2) (map_to_list edges).

(** One pass of the reverse fixpoint over the map in some order. *)
Definition exit_round (acc : gset N * bool) (e : N * list N) : gset N * bool :=
  let '(s, changed) := acc in
  if bool_decide (e.1 ∉ s) && existsb (λ t, bool_decide (t ∈ s)) e.2 then ({[e.1]} ∪ s, true)
  else (s, changed).

Fixpoint exit_loop (fuel : nat) (order : list (N * list N)) (s : gset N) : option (gset N) :=
  match fuel with
  | O => None
  | S fuel =>
    match fold_left exit_round order (s, false) with
    | (s', true) => exit_loop fuel order s'
    | (s', false) => Some s'
    end
  end.

Definition lint_reach (entry : N) (reachable reaches_exit : gset N) (id : N) : list Diagnostic :=
  (if decide (id ∈ reachable) then []
   else [err id ("unreachable — no transition path from entry Step " ++s u32_to_string entry)]) ++
  (if decide (id ∈ reaches_exit) then []
   else [err id "no path to Exit — the workflow can never terminate from here"]).

(** Ascending iteration of the [BTreeSet] of step ids. *)
Definition sorted_ids (defined : gset N) : list N := merge_sort N.le (elements defined).

(** [None] would be a search that ran out of fuel; it does not happen
    ([report_reachability_exact]). *)
Definition report_reachability (w : Workflow) (defined : gset N) (order : list (N * list N)) :
    option (list Diagnostic) :=
  match head (sorted_ids defined) with
  | None => Some []
  | Some entry =>
    let edges := edges_of w defined in
    reachable ← dfs (dfs_fuel edges) edges [entry] ∅;
    reaches_exit ← exit_loop (S (size edges)) order (exits_of w);
    Some (sorted_ids defined ≫= lint_reach entry reachable reaches_exit)
  end.

(** ** The lint *)

(** [sort_by_key]: by step, errors before warnings, stable. *)
Definition diag_key_le (x y : Diagnostic) : bool :=
  let kx := default 0%N (d_step x) in
  let ky := default 0%N (d_step y) in
  (kx <? ky)%N || ((kx =? ky)%N && (is_error x || negb (is_error y))).

Fixpoint insert_diag (x : Diagnostic) (l : list Diagnostic) : list Diagnostic :=
  match l with
  | [] => [x]
  | y :: l => if diag_key_le x y then x :: y :: l else y :: insert_diag x l
  end.

Definition sort_diags (l : list Diagnostic) : list Diagnostic := foldr insert_diag [] l.

Definition defined_ids (w : Workflow) : gset N := list_to_set (ws_id <$> wf_steps_list w).

Definition default_allow (w : Workflow) : bool :=
  match wf_network_default w with Some NetAllow => true | _ => false end.

Definition lint (w : Workflow) (tool_sets : ToolSets) (declared_ids : list N)
    (order : list (N * list N)) : option LintReport :=
  let dups := report_duplicate_ids declared_ids in
  match wf_steps_list w with
  | [] =>
    Some (mkReport (dups ++ [mkDiag SevWarning None "no steps defined — prompt is unguarded"]) [])
  | steps =>
    reach ← report_reachability w (defined_ids w) order;
    Some (mkReport
      (sort_diags (dups ++ (steps ≫= lint_one tool_sets (default_allow w) (defined_ids w)) ++ reach))
      (resolve_step tool_sets <$> steps))
  end.

(** ** Facts: the forward search *)

Definition Edge (edges : gmap N (list N)) (a b : N) : Prop := ∃ l, edges !! a = Some l ∧ b ∈ l.

(** What the steps not yet reached could still push. *)
Definition pending (reachable : gset N) (l : list (N * list N)) : nat :=
  sum_list_with (λ e, if decide (e.1 ∈ reachable) then 0 else List.length e.2) l.

Lemma pending_empty l : pending ∅ l = sum_list_with (λ e, List.length e.2) l.
Proof.
  unfold pending. induction l as [|e l IH]; [done|]. cbn [sum_list_with].
  rewrite decide_False by set_solver. by rewrite IH.
Qed.

Lemma pending_insert l reachable id :
  id ∉ reachable → NoDup l.*1 →
  (pending ({[id]} ∪ reachable) l +
   match (list_to_map l : gmap N (list N)) !! id with Some n => List.length n | None => 0 end =
   pending reachable l)%nat.
Proof.
  intros Hid. unfold pending. induction l as [|[k n] l IH]; cbn; [by intros; rewrite lookup_empty|].
  intros [Hk Hnd]%NoDup_cons. specialize (IH Hnd).
  destruct (decide (k = id)) as [->|Hne].
  - rewrite lookup_insert_eq. rewrite not_elem_of_list_to_map_1 in IH by done.
    rewrite decide_True by set_solver. rewrite decide_False by done. lia.
  - rewrite lookup_insert_ne by done.
    destruct (decide (k ∈ reachable)); [rewrite decide_True by set_solver|rewrite decide_False by set_solver]; lia.
Qed.

Lemma pending_insert_map edges reachable id :
  id ∉ reachable →
  (pending ({[id]} ∪ reachable) (map_to_list edges) + List.length (default [] (edges !! id)) =
   pending reachable (map_to_list edges))%nat.
Proof.
  intros Hid. pose proof (pending_insert (map_to_list edges) reachable id Hid
    (NoDup_fst_map_to_list edges)) as Hp.
  rewrite list_to_map_to_list in Hp. by destruct (edges !! id).
Qed.

Record DfsInv (edges : gmap N (list N)) (entry : N) (stack : list N) (reachable : gset N) : Prop := {
  di_entry : entry ∈ reachable ∨ entry ∈ stack;
  di_sound : ∀ x, x ∈ reachable ∨ x ∈ stack → rtc (Edge edges) entry x;
  di_closed : ∀ x y, x ∈ reachable → Edge edges x y → y ∈ reachable ∨ y ∈ stack;
}.

Lemma dfs_exact edges entry fuel : ∀ stack reachable,
  (List.length stack + pending reachable (map_to_list edges) < fuel)%nat →
  DfsInv edges entry stack reachable →
  ∃ out, dfs fuel edges stack reachable = Some out ∧ ∀ x, x ∈ out ↔ rtc (Edge edges) entry x.
Proof.
  induction fuel as [|fuel IH]; intros stack reachable Hf [He Hs Hc]; [lia|]. cbn.
  destruct stack as [|id stack].
  { exists reachable. split; [done|]. intros x. split; [intros; apply Hs; by left|].
    intros Hx. assert (entry ∈ reachable) as Hin by set_solver. clear -Hx Hin Hc.
    induction Hx as [|x y z Hxy _ IHx]; [done|]. apply IHx. set_solver. }
  destruct (decide (id ∈ reachable)) as [Hid|Hid].
  - apply IH; [cbn in Hf; lia|]. constructor; [set_solver|set_solver|].
    intros x y Hx Hxy. destruct (Hc x y Hx Hxy); set_solver.
  - pose proof (pending_insert_map edges reachable id Hid) as Hp.
    apply IH; [rewrite length_app, length_rev; cbn in Hf; lia|].
    assert (Hsucc : ∀ y, Edge edges id y ↔ y ∈ rev (default [] (edges !! id))).
    { intros y. unfold Edge. rewrite list_elem_of_In, <-in_rev, <-list_elem_of_In.
      destruct (edges !! id); cbn; set_solver. }
    constructor.
    + set_solver.
    + intros x Hx. destruct (decide (x ∈ rev (default [] (edges !! id)))) as [Hr|Hr].
      * apply Hsucc in Hr. eapply rtc_r; [|done]. apply Hs. set_solver.
      * apply Hs. set_solver.
    + intros x y [->%elem_of_singleton|Hx]%elem_of_union Hxy.
      * apply Hsucc in Hxy. set_solver.
      * destruct (Hc x y Hx Hxy) as [?|Hy]; [set_solver|].
        apply elem_of_cons in Hy as [->|?]; set_solver.
Qed.

(** ** Facts: the reverse fixpoint *)

Definition CanExit (edges : gmap N (list N)) (exits : gset N) (x : N) : Prop :=
  ∃ y, rtc (Edge edges) x y ∧ y ∈ exits.

Section exit_loop.
Context (edges : gmap N (list N)) (exits : gset N) (order : list (N * list N)).
Context (Horder : order ≡ₚ map_to_list edges).

Definition XInv (s : gset N) : Prop :=
  exits ⊆ s ∧ (∀ x, x ∈ s → CanExit edges exits x) ∧ s ⊆ exits ∪ dom edges.

Lemma order_edge x l : (x, l) ∈ order ↔ edges !! x = Some l.
Proof. rewrite Horder. apply elem_of_map_to_list. Qed.

(** A pass keeps the invariant, only grows the set, and reports a change
    exactly when it grew; without one every candidate was refused. *)
Lemma exit_pass l : ∀ s ch, (∀ e, e ∈ l → e ∈ order) → XInv s →
  let '(s', ch') := fold_left exit_round l (s, ch) in
  XInv s' ∧ s ⊆ s' ∧ (ch = true → ch' = true) ∧ (ch' = true → ch = true ∨ (size s < size s')%nat) ∧
  (ch' = false → s' = s ∧ ∀ e t, e ∈ l → t ∈ e.2 → t ∈ s → e.1 ∈ s).
Proof.
  induction l as [|[k n] l IH]; intros s ch Hl Hinv; cbn [fold_left].
  { split_and!; try done; [by left|]. intros _. by split; [|intros ? ? []%elem_of_nil]. }
  unfold exit_round at 2. cbn [fst snd].
  destruct (bool_decide (k ∉ s) && existsb _ n) eqn:E.
  - apply andb_true_iff in E as [Hk%bool_decide_eq_true Ht].
    apply existsb_exists in Ht as (t & Htn%list_elem_of_In & Hts%bool_decide_eq_true).
    assert (He : edges !! k = Some n) by (apply order_edge, Hl; set_solver).
    assert (Hinv' : XInv ({[k]} ∪ s)).
    { destruct Hinv as (H1 & H2 & H3). split_and!; [set_solver| |].
      - intros x [->%elem_of_singleton|Hx]%elem_of_union; [|by apply H2].
        destruct (H2 t Hts) as (y & Hty & Hy). exists y. split; [|done].
        apply (rtc_l _ _ t); [|done]. by exists n.
      - assert (k ∈ dom edges) by (by apply elem_of_dom_2 in He). set_solver. }
    specialize (IH ({[k]} ∪ s) true ltac:(set_solver) Hinv').
    destruct (fold_left exit_round l ({[k]} ∪ s, true)) as [s' ch'].
    destruct IH as (Hi & Hsub & Hch & Hsz & Hno). specialize (Hch eq_refl) as ->.
    assert (size s < size ({[k]} ∪ s))%nat.
    { rewrite size_union by set_solver. rewrite size_singleton. lia. }
    split_and!; [done|set_solver|done| |done]. intros _. right.
    assert (size ({[k]} ∪ s) ≤ size s')%nat by (by apply subseteq_size). lia.
  - specialize (IH s ch ltac:(set_solver) Hinv).
    destruct (fold_left exit_round l (s, ch)) as [s' ch'].
    destruct IH as (Hi & Hsub & Hch & Hsz & Hno). split_and!; [done..|].
    intros Hf. destruct (Hno Hf) as [-> Hall]. split; [done|].
    intros e t [->|He]%elem_of_cons Ht Hts; [|by eapply Hall]. cbn in *.
    apply andb_false_iff in E as [Hk|Hn].
    + apply bool_decide_eq_false in Hk. by apply dec_stable.
    + exfalso. apply not_true_iff_false in Hn. apply Hn. apply existsb_exists. exists t.
      split; [by apply list_elem_of_In|by apply bool_decide_eq_true].
Qed.

Lemma exit_loop_exact fuel : ∀ s,
  XInv s → (size (exits ∪ dom edges) < fuel + size s)%nat →
  ∃ out, exit_loop fuel order s = Some out ∧ ∀ x, x ∈ out ↔ CanExit edges exits x.
Proof.
  induction fuel as [|fuel IH]; intros s Hinv Hf.
  { exfalso. destruct Hinv as (_ & _ & H3). apply subseteq_size in H3. lia. }
  cbn. pose proof (exit_pass order s false ltac:(done) Hinv) as Hpass.
  destruct (fold_left exit_round order (s, false)) as [s' ch'].
  destruct Hpass as (Hi & Hsub & _ & Hsz & Hno). destruct ch'.
  - destruct (Hsz eq_refl) as [?|Hlt]; [done|]. apply IH; [done|lia].
  - destruct (Hno eq_refl) as [-> Hall]. exists s. split; [done|]. intros x.
    destruct Hinv as (H1 & H2 & _). split; [apply H2|]. intros (y & Hxy & Hy).
    induction Hxy as [|x z y Hxz _ IHx]; [set_solver|]. destruct Hxz as (l & Hl & Hz).
    apply (Hall (x, l) z); [by apply order_edge|done|by apply IHx].
Qed.
End exit_loop.

(** ** Facts: the report *)

Lemma edges_of_spec w defined x l :
  edges_of w defined !! x = Some l →
  ∃ s, s ∈ wf_steps_list w ∧ ws_id s = x ∧ l = filter (λ t, t ∈ defined) (tr_to (ws_transition s)).
Proof.
  unfold edges_of. assert (Hgen : ∀ m : gmap N (list N),
    fold_left (λ m s, <[ws_id s := filter (λ t, t ∈ defined) (tr_to (ws_transition s))]> m)
      (wf_steps_list w) m !! x = Some l →
    (∃ s, s ∈ wf_steps_list w ∧ ws_id s = x ∧
       l = filter (λ t, t ∈ defined) (tr_to (ws_transition s))) ∨ m !! x = Some l).
  { induction (wf_steps_list w) as [|s steps IH]; intros m; cbn; [by right|].
    intros Hl%IH. destruct Hl as [(s' & ? & ? & ?)|Hm]; [left; exists s'; set_solver|].
    apply lookup_insert_Some in Hm as [[<- <-]|[_ ?]]; [left; exists s; set_solver|by right]. }
  intros Hl%Hgen. destruct Hl as [?|Hl]; [done|]. by rewrite lookup_empty in Hl.
Qed.

Lemma sorted_ids_elem defined x : x ∈ sorted_ids defined ↔ x ∈ defined.
Proof. unfold sorted_ids. rewrite merge_sort_Permutation. apply elem_of_elements. Qed.

Lemma report_reachability_spec w defined order :
  order ≡ₚ map_to_list (edges_of w defined) → defined ≠ ∅ →
  ∃ entry diags,
    head (sorted_ids defined) = Some entry ∧
    report_reachability w defined order = Some diags ∧
    let edges := edges_of w defined in
    ∀ d, d ∈ diags ↔ ∃ id, id ∈ defined ∧
      ((d = err id ("unreachable — no transition path from entry Step " ++s u32_to_string entry) ∧
          (rtc (Edge edges) entry id → False)) ∨
       (d = err id "no path to Exit — the workflow can never terminate from here" ∧
          (CanExit edges (exits_of w) id → False))).
Proof.
  intros Hord Hne. unfold report_reachability.
  destruct (head (sorted_ids defined)) as [entry|] eqn:Eh; cbv zeta.
  2:{ exfalso. apply Hne. apply elem_of_equiv_empty_L. intros x Hx%sorted_ids_elem.
      destruct (sorted_ids defined); [set_solver|done]. }
  set (edges := edges_of w defined) in *.
  destruct (dfs_exact edges entry (dfs_fuel edges) [entry] ∅) as (reach & Hd & Hreach).
  { rewrite pending_empty. unfold dfs_fuel. cbn [List.length]. lia. }
  { constructor; [set_solver| |set_solver].
    intros x [?| ->%list_elem_of_singleton]; [set_solver|done]. }
  destruct (exit_loop_exact edges (exits_of w) order Hord (S (size edges)) (exits_of w))
    as (ex & Hx & Hexit).
  { split_and!; [done| |set_solver]. intros x Hx. exists x. by split. }
  { pose proof (size_union_alt (exits_of w) (dom edges)) as Hu.
    assert (size (dom edges ∖ exits_of w) ≤ size (dom edges))%nat by (apply subseteq_size; set_solver).
    rewrite size_dom in *. lia. }
  rewrite Hd. cbn [mbind option_bind]. rewrite Hx. cbn [mbind option_bind]. eexists entry, _. split; [done|]. split; [done|].
  intros d. rewrite list_elem_of_bind. setoid_rewrite sorted_ids_elem. unfold lint_reach.
  split.
  - intros (id & Hdd & Hid). exists id. split; [done|].
    apply elem_of_app in Hdd as [Hdd|Hdd]; [left|right].
    + destruct (decide (id ∈ reach)) as [|Hn]; [by apply elem_of_nil in Hdd|].
      apply list_elem_of_singleton in Hdd. split; [done|]. by rewrite <-Hreach.
    + destruct (decide (id ∈ ex)) as [|Hn]; [by apply elem_of_nil in Hdd|].
      apply list_elem_of_singleton in Hdd. split; [done|]. by rewrite <-Hexit.
  - intros (id & Hid & [[-> Hn]|[-> Hn]]); exists id; (split; [|done]); apply elem_of_app.
    + left. rewrite decide_False by (by rewrite Hreach). set_solver.
    + right. rewrite decide_False by (by rewrite Hexit). set_solver.
Qed.

(** The linter's graph findings are exact: it terminates, and for every
    step of the workflow it reports "unreachable" precisely when no path of
    declared transitions leads there from the lowest-numbered step, and "no
    path to Exit" precisely when no such path leads to a step that declares
    Exit, whatever order the hash map is walked in. *)
Theorem report_reachability_exact w order :
  wf_steps_list w ≠ [] →
  order ≡ₚ map_to_list (edges_of w (defined_ids w)) →
  ∃ entry diags,
    head (sorted_ids (defined_ids w)) = Some entry ∧
    report_reachability w (defined_ids w) order = Some diags ∧
    let edges := edges_of w (defined_ids w) in
    ∀ d, d ∈ diags ↔ ∃ id, id ∈ defined_ids w ∧
      ((d = err id ("unreachable — no transition path from entry Step " ++s u32_to_string entry) ∧
          (rtc (Edge edges) entry id → False)) ∨
       (d = err id "no path to Exit — the workflow can never terminate from here" ∧
          (CanExit edges (exits_of w) id → False))).
Proof.
  intros Hne Hord. apply report_reachability_spec; [done|].
  destruct (wf_steps_list w) as [|s l] eqn:E; [done|]. unfold defined_ids. rewrite E. cbn. set_solver.
Qed.

(** ** Facts: a clean lint *)

Lemma insert_diag_perm x l : insert_diag x l ≡ₚ x :: l.
Proof.
  induction l as [|y l IH]; cbn; [done|]. destruct (diag_key_le x y); [done|].
  rewrite IH. apply Permutation_swap.
Qed.

Lemma sort_diags_perm l : sort_diags l ≡ₚ l.
Proof. induction l as [|x l IH]; cbn; [done|]. by rewrite insert_diag_perm, IH. Qed.

Lemma has_errors_false r :
  has_errors r = false ↔ ∀ d, d ∈ lr_diagnostics r → d_severity d ≠ SevError.
Proof.
  unfold has_errors. rewrite <-not_true_iff_false, existsb_exists. unfold is_error.
  setoid_rewrite bool_decide_eq_true. setoid_rewrite <-list_elem_of_In. naive_solver.
Qed.

Lemma into_steps_is_Some w n : n ∈ (ws_id <$> wf_steps_list w) → is_Some (into_steps w !! n).
Proof.
  unfold into_steps. assert (Hgen : ∀ m : gmap N WorkflowStep,
    n ∈ (ws_id <$> wf_steps_list w) ∨ is_Some (m !! n) →
    is_Some (fold_left (λ m s, <[ws_id s := s]> m) (wf_steps_list w) m !! n)).
  { induction (wf_steps_list w) as [|s l IH]; intros m Hn; cbn in *; [set_solver|].
    apply IH. destruct (decide (ws_id s = n)) as [->|Hne].
    - right. rewrite lookup_insert_eq. eauto.
    - rewrite lookup_insert_ne by done. set_solver. }
  intros Hn. apply Hgen. by left.
Qed.

Lemma into_steps_sound w n s :
  into_steps w !! n = Some s → s ∈ wf_steps_list w ∧ ws_id s = n.
Proof.
  intros Hs. apply into_steps_lookup_from in Hs as [?|Hs]; [done|]. by rewrite lookup_empty in Hs.
Qed.

Section clean.
Context (w : Workflow) (tool_sets : ToolSets) (ids : list N) (order : list (N * list N)).
Context (report : LintReport).
Context (Hlint : lint w tool_sets ids order = Some report) (Hclean : has_errors report = false).
Context (Hne : wf_steps_list w ≠ []).
Context (Horder : order ≡ₚ map_to_list (edges_of w (defined_ids w))).

Lemma clean_diagnostics :
  (∀ s d, s ∈ wf_steps_list w → d ∈ lint_one tool_sets (default_allow w) (defined_ids w) s →
     d_severity d ≠ SevError) ∧
  (∀ diags d, report_reachability w (defined_ids w) order = Some diags → d ∈ diags →
     d_severity d ≠ SevError).
Proof using Hlint Hclean Hne.
  rewrite has_errors_false in Hclean. unfold lint in Hlint.
  destruct (wf_steps_list w) as [|s0 l]; [done|].
  destruct (report_reachability _ _ _) as [reach|] eqn:Er; [|done].
  cbn [mbind option_bind] in Hlint. injection Hlint as <-. cbn [lr_diagnostics] in Hclean.
  setoid_rewrite sort_diags_perm in Hclean. split.
  - intros s d Hs Hd. apply Hclean, elem_of_app. right. apply elem_of_app. left.
    change (d ∈ (s0 :: l) ≫= lint_one tool_sets (default_allow w) (defined_ids w)).
    apply list_elem_of_bind. by exists s.
  - intros diags d [= <-] Hd. apply Hclean, elem_of_app. right. apply elem_of_app. by right.
Qed.

Lemma clean_targets s tn :
  s ∈ wf_steps_list w → tn ∈ tr_to (ws_transition s) → tn ∈ defined_ids w.
Proof using Hlint Hclean Hne.
  intros Hs Ht. destruct (decide (tn ∈ defined_ids w)) as [|Hn]; [done|]. exfalso.
  destruct clean_diagnostics as [Hone _].
  apply (Hone s (err (ws_id s) ("[transition] targets undefined Step " ++s u32_to_string tn)) Hs);
    [|done].
  unfold lint_one. cbv zeta. rewrite !elem_of_app. right. right. left.
  apply list_elem_of_omap. exists tn. split; [done|]. unfold lint_target. by rewrite decide_False.
Qed.

(** C32. A workflow with at least one step, all numbered from 1 up to the largest
    [u32], that the linter passes is safe to run: whatever the agent
    requests and however gates, judge and writes answer, the engine is at all
    times either finished or on a declared step, whose rules apply, and from
    that step a path of declared transitions leads to one that declares Exit;
    it never lands on an undeclared number, where everything would be
    allowed, nor in a dead end.  (A prompt without steps passes with a warning that it is
    not guarded; one with a step numbered 0 passes too, see below.) *)
Theorem clean_lint_stays_guarded `{Shlex, JsonText} en world :
  (∀ s, s ∈ wf_steps_list w → 1 ≤ ws_id s ≤ u32_max)%N →
  en_steps en = into_steps w → reachable en world →
  w_step world = STEP_EXITED ∨
  ∃ n step, n ≠ 0%N ∧ active_step en world = Some (n, step) ∧
    CanExit (edges_of w (defined_ids w)) (exits_of w) n.
Proof using Hlint Hclean Hne Horder.
  intros Hids Hsteps Hreach.
  destruct (guarded_invariant en world) as [?|(n & step & Hn & Ha)]; [..|by left|].
  - intros n step tn Hs Ht. rewrite Hsteps in *. apply into_steps_is_Some.
    apply into_steps_sound in Hs as [Hs _]. apply (clean_targets step) in Ht; [|done].
    unfold defined_ids in Ht. by apply elem_of_list_to_set in Ht.
  - intros n [s Hs]. rewrite Hsteps in Hs. apply into_steps_sound in Hs as [Hs <-]. by apply Hids.
  - rewrite Hsteps. intros He. destruct (wf_steps_list w) as [|s l] eqn:E; [done|].
    destruct (into_steps_is_Some w (ws_id s)) as [x Hx]; [rewrite E; cbn; set_solver|].
    by rewrite He, lookup_empty in Hx.
  - done.
  - right. exists n, step. split_and!; [done..|].
    destruct (report_reachability_spec w (defined_ids w) order Horder) as (entry & diags & _ & Hr & Hd).
    { destruct (wf_steps_list w) as [|s l] eqn:E; [done|]. unfold defined_ids. rewrite E. cbn. set_solver. }
    apply active_step_Some in Ha as [_ Hst]. rewrite Hsteps in Hst.
    apply into_steps_sound in Hst as [Hst Hid].
    destruct clean_diagnostics as [_ Hreachd].
    destruct (exit_loop_exact (edges_of w (defined_ids w)) (exits_of w) order Horder
      (S (size (edges_of w (defined_ids w)))) (exits_of w)) as (ex & _ & Hexit).
    { split_and!; [done| |set_solver]. intros x Hx. exists x. by split. }
    { pose proof (size_union_alt (exits_of w) (dom (edges_of w (defined_ids w)))) as Hu.
      assert (size (dom (edges_of w (defined_ids w)) ∖ exits_of w) ≤
        size (dom (edges_of w (defined_ids w))))%nat by (apply subseteq_size; set_solver).
      rewrite size_dom in *. lia. }
    apply Hexit, dec_stable. intros Hnot.
    refine (Hreachd diags (err n _) Hr (proj2 (Hd _) _) eq_refl). exists n. split.
    + unfold defined_ids. rewrite elem_of_list_to_set, <-Hid. by apply list_elem_of_fmap_2.
    + right. split; [done|]. by rewrite <-Hexit.
Qed.
End clean.

(** The documented [network: *] cannot pass the linter: a step whose only
    network token is the star gets an unknown-network-set error saying that it
    grants nothing (unless some set is named by a star), while the engine opens
    all egress for it. *)
Theorem open_network_fails_lint w tool_sets ids order report en step :
  lint w tool_sets ids order = Some report → step ∈ wf_steps_list w →
  ws_network step = ["*"] → tool_sets !! "*" = None →
  en_steps en !! ws_id step = Some step →
  has_errors report = true ∧ policy_for en (ws_id step) = policy_json [] "allow".
Proof.
  intros Hlint Hs Hnet Hset Hen. split.
  - apply not_false_iff_true. intros Hclean.
    destruct (clean_diagnostics w tool_sets ids order report Hlint Hclean) as [Hone _].
    { intros E. rewrite E in Hs. by apply elem_of_nil in Hs. }
    eapply (Hone step (err (ws_id step) _) Hs); [|done].
    unfold lint_one. cbv zeta. rewrite !elem_of_app. right. left.
    rewrite Hnet. apply list_elem_of_omap. exists "*". split; [apply list_elem_of_here|].
    unfold lint_network. rewrite bool_decide_eq_true_2 by done. reflexivity.
  - unfold policy_for. by rewrite Hen, Hnet.
Qed.

(** ** Witnesses *)

Definition demo_workflow : Workflow :=
  mkWorkflow V1 None [] []
    [mkWStep 1 "Plan" "" (RuleList ["ls"]) Unrestricted ["api.anthropic.com:443"]
       (mkTransition [2%N] false ∅) None false [] None;
     mkWStep 2 "Ship" "" Unrestricted Unrestricted ["api.anthropic.com:443"]
       (mkTransition [1%N] true ∅) None false [] None].

Definition demo_order : list (N * list N) :=
  map_to_list (edges_of demo_workflow (defined_ids demo_workflow)).

Definition demo_report : LintReport :=
  default (mkReport [] []) (lint demo_workflow ∅ [1%N; 2%N] demo_order).

Definition demo_lint_engine : Engine :=
  mkEngine (into_steps demo_workflow) ∅ [] None false false false 300 180 ∅.

Lemma report_reachability_exact_witness :
  ∃ entry diags,
    head (sorted_ids (defined_ids demo_workflow)) = Some entry ∧
    report_reachability demo_workflow (defined_ids demo_workflow) demo_order = Some diags ∧
    let edges := edges_of demo_workflow (defined_ids demo_workflow) in
    ∀ d, d ∈ diags ↔ ∃ id, id ∈ defined_ids demo_workflow ∧
      ((d = err id ("unreachable — no transition path from entry Step " ++s u32_to_string entry) ∧
          (rtc (Edge edges) entry id → False)) ∨
       (d = err id "no path to Exit — the workflow can never terminate from here" ∧
          (CanExit edges (exits_of demo_workflow) id → False))).
Proof. by apply report_reachability_exact. Defined.

Lemma clean_lint_stays_guarded_witness :
  let w := (@transition plain_json demo_lint_engine good (jN 2)
              (new_with_log demo_lint_engine good None None)).1 in
  w_step w = STEP_EXITED ∨
  ∃ n step, n ≠ 0%N ∧ active_step demo_lint_engine w = Some (n, step) ∧
    CanExit (edges_of demo_workflow (defined_ids demo_workflow)) (exits_of demo_workflow) n.
Proof.
  cbv zeta.
  apply (clean_lint_stays_guarded demo_workflow ∅ [1%N; 2%N] demo_order demo_report)
    with (H := plain_shlex) (H0 := plain_json).
  - vm_compute. reflexivity.
  - vm_compute. reflexivity.
  - done.
  - done.
  - intros s Hs. unfold u32_max. cbn in Hs.
    apply elem_of_cons in Hs as [->|[->|[]%elem_of_nil]%elem_of_cons]; cbn; lia.
  - done.
  - apply (@reach_op plain_shlex plain_json demo_lint_engine _ (OpTransition (jN 2) good)), reach_new.
Defined.

Definition star_workflow : Workflow :=
  mkWorkflow V1 None [] []
    [mkWStep 1 "Open" "" Unrestricted Unrestricted ["*"]
       (mkTransition [] true ∅) None false [] None].

Lemma open_network_fails_lint_witness :
  let report := default (mkReport [] [])
    (lint star_workflow ∅ [1%N] (map_to_list (edges_of star_workflow (defined_ids star_workflow)))) in
  let en := mkEngine (into_steps star_workflow) ∅ [] None false false false 300 180 ∅ in
  has_errors report = true ∧ policy_for en 1 = policy_json [] "allow".
Proof.
  cbv zeta.
  apply (open_network_fails_lint star_workflow ∅ [1%N]
    (map_to_list (edges_of star_workflow (defined_ids star_workflow))) _ _
    (mkWStep 1 "Open" "" Unrestricted Unrestricted ["*"] (mkTransition [] true ∅) None false [] None)).
  - vm_compute. reflexivity.
  - apply list_elem_of_here.
  - reflexivity.
  - reflexivity.
  - vm_compute. reflexivity.
Defined.

Definition zero_workflow : Workflow :=
  mkWorkflow V1 None [] []
    [mkWStep 0 "Plan" "" (RuleList ["ls"]) Unrestricted ["api.anthropic.com:443"]
       (mkTransition [] true ∅) None false [] None].

Definition zero_engine : Engine :=
  mkEngine (into_steps zero_workflow) ∅ [] None false false false 300 180 ∅.

(** A step numbered 0 lints without a word, and while it is in force the engine
    takes the session for an unguarded one: its allow-list is not looked at. *)
Example step_zero_is_unguarded :
  lr_diagnostics <$> lint zero_workflow ∅ [0%N]
    (map_to_list (edges_of zero_workflow (defined_ids zero_workflow))) = Some [] ∧
  first_step zero_engine = 0%N ∧
  (@check plain_shlex plain_json zero_engine "Bash" (JObj [("command", JStr "rm x")])
     (new_with_log zero_engine good None None)).2 = VAllow.
Proof. split_and!; vm_compute; reflexivity. Qed.
