(* ===== verification/ProxyPolicy.v ===== *)
(** * The egress policy of the guard proxy ([cctui-guard-proxy/src/policy.rs])

    The manager that loads the policy file the engine writes and answers
    whether a [host:port] may be reached, and the composition of the two: what
    the proxy lets through is what the step in force grants.  Decoding the JSON
    document into a configuration is serde's and enters as [PolicyCodec]. *)

From stdpp Require Import base decidable list gmap strings.
From Stdlib Require Import Lia ZArith Bool Ascii String.
From S2P Require Import Prelude RustStr Json Parser Ir Rules Matcher Capability DecisionLog Engine EngineFacts.

Record PolicyConfig := mkPolicy {
  allowed_hosts : list string;
  pc_default : string;
}.

(** [serde_json::from_slice::<PolicyConfig>] on the document in the file. *)
Class PolicyCodec := policy_decode : Value → option PolicyConfig.

(** What reading the file gives: [NotFound], another I/O error, bytes that are
    not JSON, or a document. *)
Inductive PolicyFile := PfMissing | PfError | PfGarbage | PfDoc (v : Value).

Record PolicyManager := mkManager {
  pm_config : option PolicyConfig;
  pm_last_mtime : option Z;
}.

Definition PolicyManager_new : PolicyManager := mkManager None None.

(** [load]: a missing file clears the policy; an unreadable or undecodable one
    is an error that leaves it as it was. *)
Definition load `{PolicyCodec} (file : PolicyFile) (m : PolicyManager) :
    PolicyManager * result unit unit :=
  match file with
  | PfMissing => (mkManager None (pm_last_mtime m), Ok tt)
  | PfError | PfGarbage => (m, Err tt)
  | PfDoc v =>
    match policy_decode v with
    | Some c => (mkManager (Some c) (pm_last_mtime m), Ok tt)
    | None => (m, Err tt)
    end
  end.

(** The host of a [host:port], a bracketed literal keeping its brackets. *)
Fixpoint rfind_bracket (s : string) : option string :=
  match s with
  | "" => None
  | String c r =>
    match rfind_bracket r with
    | Some p => Some (String c p)
    | None => if Ascii.eqb c "]" && starts_with ":" r then Some (String c "") else None
    end
  end.

Definition get_host (host_port : string) : string :=
  if starts_with "[" host_port then default host_port (rfind_bracket host_port)
  else match rsplit_once (Ascii.eqb ":") host_port with
       | Some (h, _) => h
       | None => host_port
       end.

Definition matches_pattern (host_port pattern : string) : bool :=
  if pattern ==s host_port then true else
  match strip_suffix ":*" pattern with
  | Some pattern_host => get_host host_port ==s pattern_host
  | None => false
  end.

Definition is_allowed (m : PolicyManager) (host_port : string) : bool :=
  match pm_config m with
  | None => false
  | Some c =>
    existsb (matches_pattern host_port) (allowed_hosts c) || (pc_default c ==s "allow")
  end.

Definition is_loaded (m : PolicyManager) : bool :=
  match pm_config m with Some _ => true | None => false end.

(** One turn of [watch]: reload when the modification time differs. *)
Definition watch_tick `{PolicyCodec} (mtime : option Z) (file : PolicyFile) (m : PolicyManager) :
    PolicyManager :=
  if bool_decide (pm_last_mtime m = mtime) then m
  else (load file (mkManager (pm_config m) mtime)).1.

(** ** Facts: patterns *)

Lemma last_colon_unique (a b a' b' : string) :
  a ++s String ":" b = a' ++s String ":" b' →
  all_chars (λ c, negb (Ascii.eqb ":" c)) b = true →
  all_chars (λ c, negb (Ascii.eqb ":" c)) b' = true → a = a'.
Proof.
  intros Heq Hb Hb'. revert a' Heq. induction a as [|x a IH]; intros [|y a'] Heq; cbn in Heq.
  - done.
  - injection Heq as _ ->. rewrite all_chars_app in Hb. cbn in Hb. by rewrite andb_false_r in Hb.
  - injection Heq as _ <-. rewrite all_chars_app in Hb'. cbn in Hb'. by rewrite andb_false_r in Hb'.
  - injection Heq as -> Heq. f_equal. by apply IH.
Qed.

(** A pattern matches exactly its own text, or, written [host:*], exactly
    the destinations on that host: for a destination that is not a bracketed
    address, the host is what precedes the last colon, so a port wildcard never
    reaches another host. *)
Theorem matches_pattern_iff host_port pattern :
  starts_with "[" host_port = false →
  matches_pattern host_port pattern = true ↔
    pattern = host_port ∨
    ∃ host, strip_suffix ":*" pattern = Some host ∧ pattern = host ++s ":*" ∧
      ((∃ port, host_port = host ++s ":" ++s port ∧
          all_chars (λ c, negb (Ascii.eqb ":" c)) port = true) ∨
       (host_port = host ∧ all_chars (λ c, negb (Ascii.eqb ":" c)) host_port = true)).
Proof.
  intros Hb. unfold matches_pattern, get_host. rewrite Hb.
  destruct (String.eqb_spec pattern host_port) as [->|Hne]; [naive_solver|].
  destruct (strip_suffix ":*" pattern) as [ph|] eqn:Es; [|naive_solver].
  apply strip_suffix_sound in Es as Hp. rewrite String.eqb_eq. split.
  - intros <-. right. eexists. split_and!; [done|done|].
    destruct (rsplit_once (Ascii.eqb ":") host_port) as [[h port]|] eqn:Er.
    + left. apply rsplit_once_Some in Er as (c & Hc & Heq & Hall).
      apply Ascii.eqb_eq in Hc as <-. by exists port.
    + right. by apply rsplit_once_None in Er.
  - intros [?|(host & [= <-] & _ & Hh)]; [done|]. destruct Hh as [(port & Heq & Hall)|[Heq Hall]].
    + destruct (rsplit_once (Ascii.eqb ":") host_port) as [[h p]|] eqn:Er.
      * apply rsplit_once_Some in Er as (c & Hc & Heq' & Hall').
        apply Ascii.eqb_eq in Hc as <-. rewrite Heq in Heq'.
        symmetry. by apply (last_colon_unique ph port h p).
      * apply rsplit_once_None in Er. rewrite Heq, all_chars_app in Er. cbn in Er.
        by rewrite andb_false_r in Er.
    + apply rsplit_once_None in Hall. by rewrite Hall.
Qed.

(** ** Facts: the manager *)

(** What a configuration lets through. *)
Definition config_allows (c : PolicyConfig) (host_port : string) : bool :=
  existsb (matches_pattern host_port) (allowed_hosts c) || (pc_default c ==s "allow").

Definition run_ticks `{PolicyCodec} (ticks : list (option Z * PolicyFile)) (m : PolicyManager) :
    PolicyManager :=
  fold_left (λ m t, watch_tick t.1 t.2 m) ticks m.

Lemma run_ticks_config `{PolicyCodec} ticks m c :
  pm_config (run_ticks ticks m) = Some c →
  pm_config m = Some c ∨ ∃ mtime v, (mtime, PfDoc v) ∈ ticks ∧ policy_decode v = Some c.
Proof.
  revert m. induction ticks as [|[mtime file] ticks IH]; intros m; cbn; [by left|].
  intros Hc. destruct (IH _ Hc) as [Hm|(mt & v & Hin & Hd)].
  - unfold watch_tick in Hm. case_bool_decide; [by left|]. unfold load in Hm.
    destruct file as [| | |v]; cbn in Hm; [done|by left..|].
    destruct (policy_decode v) as [c'|] eqn:Ed; cbn in Hm; [|by left].
    simplify_eq. right. exists mtime, v. split; [apply list_elem_of_here|done].
  - right. exists mt, v. split; [by apply list_elem_of_further|done].
Qed.

(** The proxy fails closed: a fresh manager allows nothing, and however its
    file appears, vanishes, breaks or changes between polls, a destination it
    allows is one that some document it read allows; missing, unreadable and
    undecodable files never open anything. *)
Theorem proxy_fails_closed `{PolicyCodec} ticks host_port :
  is_allowed (run_ticks ticks PolicyManager_new) host_port = true →
  ∃ mtime v c, (mtime, PfDoc v) ∈ ticks ∧ policy_decode v = Some c ∧
    config_allows c host_port = true.
Proof.
  unfold is_allowed. destruct (pm_config _) as [c|] eqn:E; [|done]. intros Hall.
  apply run_ticks_config in E as [?|(mtime & v & Hin & Hd)]; [done|].
  by exists mtime, v, c.
Qed.

(** ** The engine and the proxy together *)

Section egress.
Context `{Shlex, JsonText, PolicyCodec} (en : Engine).
(** Decoding the document the engine writes gives its two fields back. *)
Context (codec_ok : ∀ hosts d, policy_decode (policy_json hosts d) = Some (mkPolicy hosts d)).

(** A host pattern the step grants: by capability, by its [network] tokens, or
    reachable in every step. *)
Definition grants_host (n : N) (step : WorkflowStep) (h : string) : Prop :=
  h ∈ en_always_allowed_hosts en ∨ h ∈ expand_network_rules en (ws_network step) ∨
  ∃ g, en_grants en !! n = Some g ∧ h ∈ Grants_hosts g.

Definition wide_open (step : WorkflowStep) : Prop :=
  ∃ tok, ws_network step = [tok] ∧ trim tok = "*".

Lemma dedup_from_elem seen l x : x ∈ dedup_from seen l ↔ x ∈ l ∧ x ∉ seen.
Proof.
  revert seen. induction l as [|h l IH]; intros seen; cbn; [set_solver|].
  destruct (existsb (String.eqb h) seen) eqn:E.
  - rewrite IH. apply existsb_exists in E as (y & Hy%list_elem_of_In & <-%String.eqb_eq). set_solver.
  - assert (h ∉ seen).
    { intros Hin. apply not_true_iff_false in E. apply E, existsb_exists. exists h.
      by rewrite String.eqb_refl, <-list_elem_of_In. }
    rewrite elem_of_cons, IH. destruct (decide (x = h)); set_solver.
Qed.

Lemma policy_for_semantics n step host_port c :
  en_steps en !! n = Some step → policy_decode (policy_for en n) = Some c →
  config_allows c host_port = true ↔
    wide_open step ∨
    (ws_network step = [] ∧ en_grants en !! n = None ∧ en_guarded_default_allow en = true) ∨
    ∃ h, matches_pattern host_port h = true ∧ grants_host n step h.
Proof.
  intros Hst. unfold policy_for. rewrite Hst.
  assert (Hopen : match ws_network step with [t] => trim t ==s "*" | _ => false end = true ↔
    wide_open step).
  { unfold wide_open. destruct (ws_network step) as [|t [|]]; [naive_solver| |naive_solver].
    rewrite String.eqb_eq. naive_solver. }
  destruct (match ws_network step with [t] => trim t ==s "*" | _ => false end) eqn:Eo.
  { rewrite codec_ok. intros [= <-]. cbn. tauto. }
  assert (Hno : wide_open step → False) by (intros Hw; apply Hopen in Hw; done).
  assert (Hdeny : ∀ hosts, config_allows (mkPolicy hosts "deny") host_port = true ↔
    ∃ h, h ∈ hosts ∧ matches_pattern host_port h = true).
  { intros hosts. unfold config_allows. cbn. rewrite orb_false_r. apply existsb_elem. }
  assert (Hiff : ∀ hosts (D : Prop), (D → False) →
    (∀ h, h ∈ hosts ↔ grants_host n step h) →
    config_allows (mkPolicy hosts "deny") host_port = true ↔
      wide_open step ∨ D ∨ ∃ h, matches_pattern host_port h = true ∧ grants_host n step h).
  { intros hosts D HD Hh. rewrite Hdeny. setoid_rewrite Hh. split.
    - intros (h & ? & ?). right. right. by exists h.
    - intros [?|[?|(h & ? & ?)]]; [by destruct Hno|by destruct HD|]. by exists h. }
  destruct (en_grants en !! n) as [g|] eqn:Eg.
  { rewrite codec_ok. intros [= <-]. apply Hiff; [by intros (_ & ? & _)|]. intros h.
    unfold grants_host. rewrite Eg, dedup_from_elem, !elem_of_app. split.
    - intros [[?|[?|?]] _]; [right; right; by exists g|by right; left|by left].
    - intros [?|[?|(g' & [= <-] & ?)]]; (split; [tauto|apply not_elem_of_nil]). }
  destruct (ws_network step) as [|t l] eqn:En.
  - destruct (en_guarded_default_allow en); rewrite codec_ok; intros [= <-].
    + unfold config_allows. cbn. tauto.
    + apply Hiff; [by intros (_ & _ & ?)|]. intros h. unfold grants_host. rewrite Eg, En. split; [by left|].
      intros [?|[?%elem_of_nil|(? & ? & _)]]; done.
  - rewrite codec_ok. intros [= <-]. apply Hiff; [by intros (? & _)|]. intros h.
    unfold grants_host. rewrite Eg, En, elem_of_app. split; [intros [?|?]; [by right; left|by left]|].
    intros [?|[?|(? & ? & _)]]; [by right|by left|done].
Qed.

(** C30. End to end, what leaves the sandbox is what the step in force grants, in a
    run whose policy directory exists and whose writes of policy and state
    succeed: once the proxy has polled the file after a write, a destination
    passes exactly when the step says [network: *] (also when it grants
    capabilities), or states no network and the document opens such steps (and
    the step grants no capability), or a pattern among its capabilities' hosts,
    its [network] sets or the always-allowed hosts matches it; after Exit only the
    [net-claude] set and the always-allowed hosts remain. *)
Theorem egress_follows_step w doc mtime m host_port :
  good_run en w → w_policy w = Some doc → pm_last_mtime m ≠ mtime →
  let m' := watch_tick mtime (PfDoc doc) m in
  (∀ n step, active_step en w = Some (n, step) →
     is_allowed m' host_port = true ↔
       wide_open step ∨
       (ws_network step = [] ∧ en_grants en !! n = None ∧ en_guarded_default_allow en = true) ∨
       ∃ h, matches_pattern host_port h = true ∧ grants_host n step h) ∧
  (w_step w = STEP_EXITED →
     is_allowed m' host_port = true ↔
       ∃ h, matches_pattern host_port h = true ∧
         (h ∈ expand_network_rules en ["net-claude"] ∨ h ∈ en_always_allowed_hosts en)).
Proof.
  intros Hrun Hdoc Hmt m'. rewrite (good_run_policy en w Hrun) in Hdoc. injection Hdoc as <-.
  subst m'. unfold watch_tick. rewrite bool_decide_eq_false_2 by done. unfold load.
  split.
  - intros n step Ha. apply active_step_Some in Ha as [Hs Hst]. rewrite Hs, policy_of_step.
    destruct (policy_decode (policy_for en n)) as [c|] eqn:Ed.
    + unfold is_allowed. cbn. by apply policy_for_semantics.
    + exfalso. unfold policy_for in Ed. rewrite Hst in Ed.
      repeat case_match; by rewrite codec_ok in Ed.
  - intros Hs. rewrite Hs. change (policy_of en STEP_EXITED) with (exit_policy en).
    unfold exit_policy. rewrite codec_ok. unfold is_allowed.
    cbn [fst pm_config allowed_hosts pc_default]. rewrite orb_false_r, existsb_elem.
    split.
    + intros (h & [?|?]%elem_of_app & Hm); exists h; by split; [|auto].
    + intros (h & Hm & [?|?]); exists h; (split; [apply elem_of_app; by auto|done]).
Qed.
End egress.

(** ** Witnesses *)

Definition as_str_list (v : Value) : option (list string) :=
  l ← as_array v; mapM as_str l.

(** A decoder for the two-field object, standing in for serde's. *)
Definition plain_codec : PolicyCodec := λ v,
  hosts ← jget "allowed_hosts" v ≫= as_str_list;
  d ← get_str "default" v;
  Some (mkPolicy hosts d).

Lemma plain_codec_ok hosts d : plain_codec (policy_json hosts d) = Some (mkPolicy hosts d).
Proof.
  unfold plain_codec, policy_json. cbn. unfold as_str_list. cbn.
  assert (mapM as_str (JStr <$> hosts) = Some hosts) as ->; [|done].
  induction hosts as [|h hosts IH]; [done|]. cbn. by rewrite IH.
Qed.

Lemma matches_pattern_iff_witness :
  matches_pattern "github.com:443" "github.com:*" = true ↔
    "github.com:*" = "github.com:443" ∨
    ∃ host, strip_suffix ":*" "github.com:*" = Some host ∧ "github.com:*" = host ++s ":*" ∧
      ((∃ port, "github.com:443" = host ++s ":" ++s port ∧
          all_chars (λ c, negb (Ascii.eqb ":" c)) port = true) ∨
       ("github.com:443" = host ∧
          all_chars (λ c, negb (Ascii.eqb ":" c)) "github.com:443" = true)).
Proof. by apply matches_pattern_iff. Defined.

Lemma proxy_fails_closed_witness :
  let doc := policy_json ["github.com:443"] "deny" in
  ∃ mtime v c, (mtime, PfDoc v) ∈ [(Some 1%Z, PfDoc doc); (Some 2%Z, PfGarbage)] ∧
    plain_codec v = Some c ∧ config_allows c "github.com:443" = true.
Proof. cbv zeta. apply (@proxy_fails_closed plain_codec). by vm_compute. Defined.

Lemma egress_follows_step_witness :
  let m' := @watch_tick plain_codec (Some 5%Z) (PfDoc (policy_for demo_engine 1)) PolicyManager_new in
  is_allowed m' "api.anthropic.com:443" = true ↔
    wide_open demo_step1 ∨
    (ws_network demo_step1 = [] ∧ en_grants demo_engine !! 1%N = None ∧
       en_guarded_default_allow demo_engine = true) ∨
    ∃ h, matches_pattern "api.anthropic.com:443" h = true ∧
      grants_host demo_engine 1 demo_step1 h.
Proof.
  cbv zeta.
  apply (proj1 (@egress_follows_step plain_shlex plain_json plain_codec demo_engine plain_codec_ok
    demo_start (policy_for demo_engine 1) (Some 5%Z) PolicyManager_new "api.anthropic.com:443"
    ltac:(by apply good_new) ltac:(by vm_compute) ltac:(done))).
  by vm_compute.
Defined.
