(* ===== verification/Server.v ===== *)
(** * The guard's HTTP surface ([dialect.rs], [server.rs], [exec/why.rs])

    What the harness sees of the engine: a verdict rendered in the caller's
    dialect, the [/check], [/transition], [/state] and [/why] handlers, and the
    ring of recent exec denials.  A blocking task that panics leaves some world
    behind; which one is an argument of the handler. *)

From stdpp Require Import base decidable list gmap strings.
From Stdlib Require Import Lia ZArith Bool Ascii String.
From S2P Require Import Prelude RustStr Json Parser Ir Rules Matcher Capability DecisionLog Engine.
From S2P Require Import EngineFacts.

(** ** Dialects *)

Inductive Dialect := Native | Claude | Codex | OpenCode | Acp.

#[export] Instance Dialect_eq_dec : EqDecision Dialect.
Proof. solve_decision. Defined.

Definition dialect_default : Dialect := Claude.

Definition Dialect_parse (name : string) : option Dialect :=
  let s := to_ascii_lowercase (trim name) in
  if s ==s "native" then Some Native
  else if s ==s "claude" then Some Claude
  else if s ==s "codex" then Some Codex
  else if s ==s "opencode" then Some OpenCode
  else if s ==s "acp" then Some Acp
  else None.

Definition Dialect_resolve (query header : option string) : Dialect :=
  match query ≫= Dialect_parse with
  | Some d => d
  | None => default dialect_default (header ≫= Dialect_parse)
  end.

Definition decision_json (decision : string) (reason : option string) : Value :=
  JObj (("decision", JStr decision) ::
        match reason with Some r => [("reason", JStr r)] | None => [] end).

Definition claude_json (decision : string) (reason : option string) : Value :=
  JObj [("hookSpecificOutput",
         JObj ([("hookEventName", JStr "PreToolUse"); ("permissionDecision", JStr decision)] ++
               match reason with Some r => [("permissionDecisionReason", JStr r)] | None => [] end))].

Definition meta_reason (r : string) : string * Value := ("_meta", JObj [("reason", JStr r)]).

Definition render (d : Dialect) (v : Verdict) : Value :=
  match d with
  | Native =>
    match v with
    | VAllow => decision_json "allow" None
    | VDeny r => decision_json "deny" (Some r)
    | VAsk r => decision_json "ask" (Some r)
    end
  | Claude =>
    match v with
    | VAllow => claude_json "allow" None
    | VDeny r => claude_json "deny" (Some r)
    | VAsk r => claude_json "ask" (Some r)
    end
  | Codex =>
    match v with
    | VAllow => decision_json "allow" None
    | VDeny r => decision_json "block" (Some r)
    | VAsk r => decision_json "ask" (Some r)
    end
  | OpenCode =>
    match v with
    | VAllow => JObj [("allow", JBool true)]
    | VDeny r => JObj [("allow", JBool false); ("reason", JStr r)]
    | VAsk r => JObj [("allow", JBool false); ("ask", JBool true); ("reason", JStr r)]
    end
  | Acp =>
    match v with
    | VAllow =>
      JObj [("outcome", JObj [("outcome", JStr "selected"); ("optionId", JStr "allow_once")])]
    | VDeny r =>
      JObj [("outcome", JObj [("outcome", JStr "selected"); ("optionId", JStr "reject_once")]);
            meta_reason r]
    | VAsk r => JObj [("outcome", JObj [("outcome", JStr "cancelled")]); meta_reason r]
    end
  end.

Definition fail_closed (d : Dialect) (reason : string) : Value := render d (VDeny reason).

(** ** Handlers *)

(** A [spawn_blocking] task: it ran, or it panicked and left this world. *)
Inductive Task := Ran | Panicked (left_behind : World).

Definition check_handler `{Shlex, JsonText} (en : Engine) (query header : option string)
    (body : string) (task : Task) (w : World) : World * Value :=
  let dialect := Dialect_resolve query header in
  match json_from_str body with
  | None => (w, fail_closed dialect "malformed /check body — failing closed")
  | Some data =>
    let tool := default "" (get_str "tool_name" data) in
    let tool_input := default (JObj []) (jget "tool_input" data) in
    match task with
    | Panicked w' =>
      (w', fail_closed dialect "internal guard error (check task failed) — failing closed")
    | Ran => let '(w, verdict) := check en tool tool_input w in (w, render dialect verdict)
    end
  end.

Definition transition_handler `{JsonText} (en : Engine) (io : Io) (data : Value) (task : Task)
    (w : World) : World * Value :=
  let target := default (JStr "") (jget "step" data) in
  match task with
  | Panicked w' =>
    (w', failed "internal guard error (transition task failed) — failing closed")
  | Ran => transition en io target w
  end.

(** The text of [POST /state]; [get_state] and [reinjection] do not change the
    world, and a panicked task answers with the empty string. *)
Definition post_state (en : Engine) (w : World) : string :=
  let state := get_state en w in
  let step_num := default 0%Z (jget "step" state ≫= as_i64) in
  let allowed := default "" (get_str "allowed" state) in
  let disallowed := default "" (get_str "disallowed" state) in
  let reinject := match to_u32 step_num with Some n => reinjection en n | None => "" end in
  reinject ++s nl ++s nl ++s
  "Allowed: " ++s allowed ++s nl ++s
  "Disallowed: " ++s disallowed ++s nl ++s
  "To transition steps: curl -s -X POST http://127.0.0.1:9999/transition -H " ++s
  q1 ++s "Content-Type: application/json" ++s q1 ++s " -d '{" ++s q1 ++s "step" ++s q1 ++s
  ": N}'" ++s nl ++s
  "To check current state: curl -s http://127.0.0.1:9999/state".

(** ** Recent exec denials *)

Definition WHY_CAPACITY : nat := 5.

Record Denial := mkDenial { den_pid : N; den_command : string; den_reason : string }.

(** A [VecDeque], oldest first. *)
Definition WhyRing := list Denial.

Definition why_push (d : Denial) (ring : WhyRing) : WhyRing :=
  (if (List.length ring =? WHY_CAPACITY)%nat then tail ring else ring) ++ [d].

Definition why_recent (ring : WhyRing) : list Denial := rev ring.

Definition why_line (d : Denial) : string :=
  "denied `" ++s den_command d ++s "` (pid " ++s u32_to_string (den_pid d) ++s ") — " ++s
  den_reason d ++s nl.

Definition why_render (header : string) (recent : list Denial) : string :=
  match recent with
  | [] => header ++s "no exec denials recorded" ++s nl
  | _ => header ++s join "" (why_line <$> recent)
  end.

Definition get_why (en : Engine) (ring : WhyRing) (w : World) : string :=
  why_render (why_header en w) (why_recent ring).

(** ** Facts *)

(** A response means one verdict, whichever dialects wrote and read it. *)
Lemma render_inj d1 d2 v1 v2 : render d1 v1 = render d2 v2 → v1 = v2.
Proof. destruct d1, d2, v1, v2; intros Heq; vm_compute in Heq; inversion Heq; reflexivity. Qed.

Lemma render_deny_not_allow d1 d2 r : render d1 (VDeny r) ≠ render d2 VAllow.
Proof. intros [=]%render_inj. Qed.

(** A hook can read an allow out of a [/check] response only when the
    engine allowed the call: whatever dialect the reader expects, the response
    is that dialect's allow, word for word, only if the body parsed, the check
    ran, and the engine's verdict on the call it names is Allow; and then the
    response is the allow of the dialect the request resolved to.  A malformed
    body, a panicked check and every refusal read as something else. *)
Theorem served_allow_is_engine_allow `{Shlex, JsonText} en query header body task w reader :
  let resp := (check_handler en query header body task w).2 in
  let data := json_from_str body in
  let allowed data :=
    (check en (default "" (get_str "tool_name" data)) (default (JObj []) (jget "tool_input" data)) w).2
      = VAllow in
  (resp = render reader VAllow → ∃ d, data = Some d ∧ task = Ran ∧ allowed d) ∧
  (∀ d, data = Some d → task = Ran →
     allowed d ↔ resp = render (Dialect_resolve query header) VAllow).
Proof.
  cbv zeta. unfold check_handler, fail_closed.
  destruct (json_from_str body) as [data|]; [|split; [by intros ?%render_deny_not_allow|done]].
  destruct task as [|w']; [|split; [by intros ?%render_deny_not_allow|done]].
  destruct (check en _ _ w) as [w' v] eqn:Ec. cbn. split.
  - intros Hr%render_inj. exists data. rewrite Ec. done.
  - intros d [= <-] _. rewrite Ec. cbn. split; [by intros ->|by intros ?%render_inj].
Qed.

(** The resolved dialect is the first of the query parameter and the header
    that names one, and Claude's when neither does; a name is read without
    regard to case or surrounding whitespace. *)
Theorem resolve_precedence query header d :
  Dialect_resolve query header = d ↔
    (∃ q, query = Some q ∧ Dialect_parse q = Some d) ∨
    ((∀ q, query = Some q → Dialect_parse q = None) ∧
      ((∃ h, header = Some h ∧ Dialect_parse h = Some d) ∨
       ((∀ h, header = Some h → Dialect_parse h = None) ∧ d = Claude))).
Proof.
  unfold Dialect_resolve. destruct query as [q|], header as [h|]; cbn;
    try destruct (Dialect_parse q) eqn:Eq; try destruct (Dialect_parse h) eqn:Eh; cbn;
    unfold dialect_default; naive_solver.
Qed.

Lemma why_push_bound d ring :
  (List.length ring ≤ WHY_CAPACITY)%nat →
  why_recent (why_push d ring) = take WHY_CAPACITY (d :: why_recent ring) ∧
  (List.length (why_push d ring) ≤ WHY_CAPACITY)%nat.
Proof.
  unfold why_push, why_recent, WHY_CAPACITY. intros Hlen.
  rewrite rev_unit, List.length_app. cbn [List.length].
  destruct (Nat.eqb_spec (List.length ring) 5) as [He|Hne].
  - destruct ring as [|x ring]; [done|]. cbn in *. split; [|lia].
    f_equal. rewrite take_app_le by (change @length with @List.length; rewrite length_rev; lia).
    by rewrite take_ge by (change @length with @List.length; rewrite length_rev; lia).
  - split; [|lia]. cbn. f_equal.
    by rewrite take_ge by (change @length with @List.length; rewrite length_rev; lia).
Qed.

(** [GET /why] reports the newest five exec denials, newest first, after
    any number of them. *)
Theorem why_recent_newest l :
  why_recent (fold_left (λ ring d, why_push d ring) l []) = take WHY_CAPACITY (rev l).
Proof.
  enough (∀ l, let ring := fold_left (λ ring d, why_push d ring) l [] in
    why_recent ring = take WHY_CAPACITY (rev l) ∧ (List.length ring ≤ WHY_CAPACITY)%nat) as Hx
    by apply Hx.
  clear l. intros l. induction l as [|d l [IH Hlen]] using rev_ind; [by cbn; split; [|lia]|].
  rewrite fold_left_app, rev_unit. cbn [fold_left].
  destruct (why_push_bound d _ Hlen) as [-> ?]. split; [|done].
  rewrite IH. unfold WHY_CAPACITY. cbn [take]. f_equal.
  by rewrite take_take.
Qed.
