(* ===== verification/Http.v ===== *)
(** * HTTP/1.1 heads and bodies ([cctui-guard-proxy/src/inject.rs], [gate.rs])

    The byte-level reading of a request the human gates rely on: header lookup,
    body framing, and the decoded prefix of a body of which only part has
    arrived.  Bytes are the characters of a [string]. *)

From stdpp Require Import base decidable list strings.
From Stdlib Require Import Lia ZArith NArith Bool Ascii String.
From S2P Require Import Prelude RustStr.

(** ** Bytes *)

(** [u8::is_ascii_whitespace]. *)
Definition is_ascii_whitespace (c : ascii) : bool :=
  in_range 9 10 c || in_range 12 13 c || in_range 32 32 c.

Definition cont1 (s : string) : option string :=
  match s with String c r => if is_continuation c then Some r else None | "" => None end.

Definition cont_in (lo hi : N) (s : string) : option string :=
  match s with String c r => if in_range lo hi c then Some r else None | "" => None end.

(** The text after one well-formed UTF-8 sequence. *)
Definition utf8_step (c : ascii) (r : string) : option string :=
  if in_range 0 127 c then Some r
  else if in_range 194 223 c then cont1 r
  else if in_range 224 224 c then cont_in 160 191 r ≫= cont1
  else if in_range 225 236 c || in_range 238 239 c then cont1 r ≫= cont1
  else if in_range 237 237 c then cont_in 128 159 r ≫= cont1
  else if in_range 240 240 c then (cont_in 144 191 r ≫= cont1) ≫= cont1
  else if in_range 241 243 c then (cont1 r ≫= cont1) ≫= cont1
  else if in_range 244 244 c then (cont_in 128 143 r ≫= cont1) ≫= cont1
  else None.

(** [std::str::from_utf8(b).is_ok()]; every turn consumes a byte. *)
Fixpoint utf8_valid_go (fuel : nat) (s : string) : bool :=
  match s, fuel with
  | "", _ => true
  | _, O => false
  | String c r, S fuel =>
    match utf8_step c r with Some r' => utf8_valid_go fuel r' | None => false end
  end.

Definition utf8_valid (s : string) : bool := utf8_valid_go (String.length s) s.

Definition replacement : string :=
  String (ascii_of_N 239) (String (ascii_of_N 191) (String (ascii_of_N 189) "")).

(** How many bytes after the lead byte [c] continue a sequence it starts:
    the maximal subpart a lossy decoder replaces as one. *)
Definition subpart (c : ascii) (r : string) : nat :=
  let first :=
    if in_range 224 224 c then cont_in 160 191 r
    else if in_range 237 237 c then cont_in 128 159 r
    else if in_range 240 240 c then cont_in 144 191 r
    else if in_range 244 244 c then cont_in 128 143 r
    else if in_range 225 239 c || in_range 241 243 c then cont1 r
    else None in
  match first with
  | None => 0
  | Some r2 => if in_range 240 244 c then match cont1 r2 with Some _ => 2 | None => 1 end else 1
  end.

(** [String::from_utf8_lossy]; every turn consumes a byte. *)
Fixpoint lossy_go (fuel : nat) (s : string) : string :=
  match s, fuel with
  | "", _ => ""
  | _, O => ""
  | String c r, S fuel =>
    match utf8_step c r with
    | Some r' => stake (String.length s - String.length r') s ++s lossy_go fuel r'
    | None => replacement ++s lossy_go fuel (sdrop (subpart c r) r)
    end
  end.

Definition from_utf8_lossy (s : string) : string := lossy_go (String.length s) s.

Definition hex_val (c : ascii) : N :=
  if is_ascii_digit c then N_of_ascii c - 48
  else if in_range 97 102 c then N_of_ascii c - 87
  else N_of_ascii c - 55.

Fixpoint hex_value (acc : N) (s : string) : N :=
  match s with "" => acc | String c r => hex_value (16 * acc + hex_val c) r end.

(** [uN::from_str_radix(s, 16)]: an optional [+], then hex digits, no overflow. *)
Definition from_str_radix16 (max : N) (s : string) : option N :=
  let ds := default s (strip_prefix "+" s) in
  if negb (is_empty ds) && all_chars is_ascii_hexdigit ds then
    let n := hex_value 0 ds in
    if (n <=? max)%N then Some n else None
  else None.

Definition usize_max : N := u64_max.

(** [&b[..n.min(b.len())]] and [&b[n.min(b.len())..]] for a [usize] [n]. *)
Definition clamp (n : N) (s : string) : nat :=
  N.to_nat (N.min n (N.of_nat (String.length s))).

Definition btake (n : N) (s : string) : string := stake (clamp n s) s.
Definition bdrop (n : N) (s : string) : string := sdrop (clamp n s) s.
Definition blen (s : string) : N := N.of_nat (String.length s).

Fixpoint trim_ascii_start (s : string) : string :=
  match s with
  | "" => ""
  | String c r => if is_ascii_whitespace c then trim_ascii_start r else s
  end.

Fixpoint trim_ascii_end (s : string) : string :=
  match s with
  | "" => ""
  | String c r =>
    match trim_ascii_end r with
    | "" => if is_ascii_whitespace c then "" else String c ""
    | r' => String c r'
    end
  end.

Definition trim_ascii (s : string) : string := trim_ascii_end (trim_ascii_start s).

(** ** Heads *)

Definition head_line (line name : string) : option string :=
  match split_once (Ascii.eqb ":") (trim_ascii line) with
  | Some (k, v) => if eq_ignore_ascii_case k name then Some (trim_ascii v) else None
  | None => None
  end.

Fixpoint find_header_line (name : string) (ls : list string) : option string :=
  match ls with
  | [] => None
  | l :: ls =>
    match head_line l name with Some v => Some v | None => find_header_line name ls end
  end.

(** [inject::header_value]: the first header of that name, below the request line. *)
Definition request_header (head name : string) : option string :=
  find_header_line name (tail (split_char newline head)).

(** [contains_token]: a window of the needle's length equal to it up to case. *)
Definition contains_token (needle haystack : string) : bool :=
  contains (to_ascii_lowercase needle) (to_ascii_lowercase haystack).

Inductive Framing := FNone | FLength (n : N) | FChunked | FUntilClose.

Definition body_framing (head : string) (is_response : bool) : Framing :=
  if match request_header head "transfer-encoding" with
     | Some v => contains_token "chunked" v
     | None => false
     end then FChunked
  else
    match v ← request_header head "content-length";
          if utf8_valid v then parse_u64 (trim v) else None with
    | Some len => FLength len
    | None => if is_response then FUntilClose else FNone
    end.

(** ** Bodies *)

(** The size a chunk line declares.  The source decodes the line lossily first;
    a replacement character before the [;] is no hex digit. *)
Definition chunk_size (line : string) : option N :=
  let size := hd "" (split_char ";" line) in
  if utf8_valid size then from_str_radix16 usize_max (trim size) else None.

(** [dechunk]: [rest] is the input from offset [i]; [None] is a panic, from the
    overflow of [i + size].  Every turn consumes a line, so the length is
    enough fuel. *)
Fixpoint dechunk_from (fuel : nat) (i : N) (rest out : string) : option (string * bool) :=
  match fuel with
  | O => Some (out, false)
  | S fuel =>
    match split_once (Ascii.eqb newline) rest with
    | None => Some (out, false)
    | Some (line, data) =>
      match chunk_size line with
      | None => Some (out, false)
      | Some size =>
        let i := (i + blen line + 1)%N in
        if (size =? 0)%N then Some (out, true)
        else if (usize_max <? i + size)%N then None
        else if (blen data <? size)%N then Some (out ++s data, false)
        else dechunk_from fuel (i + N.min (size + 2) (blen data)) (bdrop (size + 2) data)
               (out ++s btake size data)
      end
    end
  end.

Definition dechunk (raw : string) : option (string * bool) :=
  dechunk_from (S (String.length raw)) 0 raw "".

Definition body_prefix (raw : string) (framing : Framing) : option (string * bool) :=
  match framing with
  | FNone | FUntilClose => Some ("", true)
  | FLength len => Some (btake len raw, (len <=? blen raw)%N)
  | FChunked => dechunk raw
  end.

(** ** Facts *)

Lemma sdrop_app n (a b : string) : (n ≤ String.length a)%nat → sdrop n (a ++s b) = sdrop n a ++s b.
Proof.
  revert a. induction n as [|n IH]; intros [|c a] Hn; cbn in *; [done..|lia|]. apply IH. lia.
Qed.

Lemma stake_app n (a b : string) : (n ≤ String.length a)%nat → stake n (a ++s b) = stake n a.
Proof.
  revert a. induction n as [|n IH]; intros [|c a] Hn; cbn in *; [done..|lia|]. f_equal. apply IH. lia.
Qed.

Lemma stake_sdrop n (s : string) : stake n s ++s sdrop n s = s.
Proof. revert s. induction n as [|n IH]; intros [|c s]; cbn; [done..|]. by rewrite IH. Qed.

Lemma sdrop_length n (s : string) : String.length (sdrop n s) = (String.length s - n)%nat.
Proof. revert s. induction n as [|n IH]; intros [|c s]; cbn; [done..|]. apply IH. Qed.

Lemma stake_ge n (s : string) : (String.length s ≤ n)%nat → stake n s = s.
Proof. revert s. induction n as [|n IH]; intros [|c s]; cbn; [done|lia|done|]. intros. f_equal. apply IH. lia. Qed.

Lemma sdrop_ge n (s : string) : (String.length s ≤ n)%nat → sdrop n s = "".
Proof. revert s. induction n as [|n IH]; intros [|c s]; cbn; [done|lia|done|]. intros. apply IH. lia. Qed.

Lemma blen_app a b : blen (a ++s b) = (blen a + blen b)%N.
Proof. unfold blen. rewrite length_app_s. lia. Qed.

Lemma btake_app n a b : (n ≤ blen a)%N → btake n (a ++s b) = btake n a.
Proof.
  unfold btake, clamp, blen. intros Hn. rewrite length_app_s.
  rewrite !N.min_l by lia. apply stake_app. lia.
Qed.

Lemma bdrop_app n a b : (n ≤ blen a)%N → bdrop n (a ++s b) = bdrop n a ++s b.
Proof.
  unfold bdrop, clamp, blen. intros Hn. rewrite length_app_s.
  rewrite !N.min_l by lia. apply sdrop_app. lia.
Qed.

Lemma btake_bdrop n s : btake n s ++s bdrop n s = s.
Proof. apply stake_sdrop. Qed.

Lemma btake_ge n s : (blen s ≤ n)%N → btake n s = s.
Proof. unfold btake, clamp, blen. intros. apply stake_ge. lia. Qed.

Lemma bdrop_ge n s : (blen s ≤ n)%N → bdrop n s = "".
Proof. unfold bdrop, clamp, blen. intros. apply sdrop_ge. lia. Qed.

Lemma bdrop_length n s : String.length (bdrop n s) = (String.length s - clamp n s)%nat.
Proof. apply sdrop_length. Qed.

Lemma split_once_length p s a b :
  split_once p s = Some (a, b) → String.length s = S (String.length a + String.length b).
Proof.
  revert a b. induction s as [|c s IH]; intros a b; cbn; [done|].
  destruct (p c); [by intros [= <- <-]|].
  destruct (split_once p s) as [[a' b']|]; [|done]. cbn. intros [= <- <-]. cbn. by rewrite (IH a' b').
Qed.

Lemma split_once_extend p s a b x :
  split_once p s = Some (a, b) → split_once p (s ++s x) = Some (a, b ++s x).
Proof.
  revert a b. induction s as [|c s IH]; intros a b; cbn; [done|].
  destruct (p c); [by intros [= <- <-]|].
  destruct (split_once p s) as [[a' b']|]; [|done]. cbn. intros [= <- <-].
  by rewrite (IH a' b' eq_refl).
Qed.

Lemma btake_over n a x : (blen a ≤ n)%N → btake n (a ++s x) = a ++s btake (n - blen a) x.
Proof.
  unfold btake, clamp, blen. intros Hn. rewrite length_app_s.
  replace (N.to_nat (N.min n _)) with (String.length a +
    N.to_nat (N.min (n - N.of_nat (String.length a)) (N.of_nat (String.length x))))%nat by lia.
  generalize (N.to_nat (N.min (n - N.of_nat (String.length a)) (N.of_nat (String.length x)))).
  intros k. clear. induction a as [|c a IH]; cbn; [done|]. by rewrite IH.
Qed.

Lemma sdrop_app_len (a b : string) : sdrop (String.length a) (a ++s b) = b.
Proof. induction a as [|c a IH]; cbn; [done|]. apply IH. Qed.

Lemma bdrop_app_len (a b : string) i : i = blen a → bdrop i (a ++s b) = b.
Proof.
  intros ->. unfold bdrop, clamp, blen. rewrite length_app_s, N.min_l by lia.
  rewrite Nat2N.id. apply sdrop_app_len.
Qed.

Lemma btake_app_len (a b : string) n : n = blen a → btake n (a ++s b) = a.
Proof. intros ->. rewrite btake_app by lia. by apply btake_ge. Qed.

Lemma prefix_self (out : string) : ∃ y, out = out ++s y.
Proof. exists "". by rewrite app_nil_s. Qed.
#[local] Hint Resolve prefix_self : core.

Lemma dechunk_from_grows fuel i rest out b c :
  dechunk_from fuel i rest out = Some (b, c) → ∃ y, b = out ++s y.
Proof.
  revert i rest out. induction fuel as [|fuel IH]; intros i rest out; cbn [dechunk_from];
    [by intros [= <- _]|].
  destruct (split_once _ rest) as [[line data]|]; [|by intros [= <- _]].
  destruct (chunk_size line) as [size|]; [|by intros [= <- _]].
  destruct (size =? 0)%N; [by intros [= <- _]|].
  destruct (usize_max <? _)%N; [done|].
  destruct (blen data <? size)%N; [intros [= <- _]; by exists data|].
  intros (y & ->)%IH. eexists. by rewrite app_assoc_s.
Qed.

(** More input never takes back what was decoded, and a body that was whole
    stays whole; enough fuel is more than the bytes left. *)
Lemma dechunk_from_extend x fuel fuel' i rest out b c b' c' :
  (String.length rest < fuel)%nat → (String.length (rest ++s x) < fuel')%nat →
  dechunk_from fuel i rest out = Some (b, c) →
  dechunk_from fuel' i (rest ++s x) out = Some (b', c') →
  (∃ y, b' = b ++s y) ∧ (c = true → b' = b ∧ c' = true).
Proof.
  revert fuel' i rest out. induction fuel as [|fuel IH]; intros fuel' i rest out; [lia|].
  intros Hf Hf'. destruct fuel' as [|fuel']; [lia|]. cbn [dechunk_from].
  destruct (split_once _ rest) as [[line data]|] eqn:Es.
  2:{ intros [= <- <-] Hx. split; [|done]. by apply (dechunk_from_grows (S fuel') i (rest ++s x) out b' c'). }
  rewrite (split_once_extend _ _ _ _ x Es). pose proof (split_once_length _ _ _ _ Es) as Hl.
  destruct (chunk_size line) as [size|]; [|by intros [= <- <-] [= <- <-]].
  destruct (N.eqb_spec size 0) as [->|Hz]; [by intros [= <- <-] [= <- <-]|].
  destruct (usize_max <? _)%N; [done|]. rewrite blen_app, length_app_s in *.
  destruct (N.ltb_spec (blen data) size) as [Hlt|Hge].
  - intros [= <- <-]. destruct (N.ltb_spec (blen data + blen x) size) as [Hlt2|Hge2].
    + intros [= <- <-]. split; [|done]. exists x. by rewrite app_assoc_s.
    + intros (y & ->)%dechunk_from_grows. split; [|done].
      exists (btake (size - blen data) x ++s y). by rewrite btake_over, !app_assoc_s by lia.
  - rewrite (proj2 (N.ltb_ge _ _)) by lia. intros H1 H2.
    destruct (N.le_gt_cases (size + 2) (blen data)) as [Hfit|Hshort].
    + rewrite btake_app, bdrop_app, !N.min_l in * by lia.
      eapply IH; [..|exact H1|exact H2]; rewrite ?length_app_s, bdrop_length; lia.
    + rewrite bdrop_ge in H1 by lia. destruct fuel as [|fuel]; [lia|]. cbn in H1.
      injection H1 as <- <-. split; [|done]. rewrite btake_app in H2 by lia.
      by apply dechunk_from_grows in H2.
Qed.

(** The decoded prefix only grows with the input. *)
Lemma body_prefix_extend raw x framing b c b' c' :
  body_prefix raw framing = Some (b, c) → body_prefix (raw ++s x) framing = Some (b', c') →
  (∃ y, b' = b ++s y) ∧ (c = true → b' = b ∧ c' = true).
Proof.
  destruct framing as [|len| |]; cbn [body_prefix].
  - by intros [= <- <-] [= <- <-].
  - intros [= <- <-] [= <- <-]. destruct (N.leb_spec len (blen raw)) as [Hle|Hgt].
    + rewrite btake_app by done. split; [done|].
      intros _. split; [done|]. apply N.leb_le. rewrite blen_app. lia.
    + split; [|done]. rewrite (btake_ge len raw) by lia. exists (btake (len - blen raw) x).
      by rewrite btake_over by lia.
  - apply (dechunk_from_extend x); lia.
  - by intros [= <- <-] [= <- <-].
Qed.
