(* ===== verification/Gate.v ===== *)
(** * Rule of Two human gates ([cctui-guard-proxy/src/gate.rs])

    The review of a worker's GitHub traffic under a declared human gate: the
    request head, then as much of the body as the verdict needs (REST JSON,
    GraphQL documents, and the pkt-line command list of a git push), and the
    loop of [inject.rs] that feeds it.  [GateFacts.v] holds the theorems. *)

From stdpp Require Import base decidable list strings.
From Stdlib Require Import Lia ZArith NArith Bool Ascii String.
From S2P Require Import Prelude RustStr Json Rules Http.

Definition MAX_REVIEW_BYTES : N := 1024 * 1024.

Definition DEFAULT_PROTECTED : list string := ["main"; "master"; "trunk"].

Definition POLICED_HOSTS : list string :=
  ["github.com"; "www.github.com"; "gist.github.com"; "api.github.com"; "uploads.github.com"].

Definition ALLOWED_MUTATIONS : list string :=
  ["createPullRequest"; "updatePullRequest"; "updatePullRequestBranch";
   "markPullRequestReadyForReview"; "addComment"; "updateIssueComment"; "deleteIssueComment";
   "addReaction"; "removeReaction"; "createIssue"; "updateIssue"; "closeIssue"; "reopenIssue";
   "addLabelsToLabelable"; "removeLabelsFromLabelable"; "addAssigneesToAssignable";
   "removeAssigneesFromAssignable"; "addPullRequestReview"; "submitPullRequestReview";
   "updatePullRequestReview"; "deletePullRequestReview"; "addPullRequestReviewComment";
   "updatePullRequestReviewComment"; "deletePullRequestReviewComment";
   "addPullRequestReviewThread"; "addPullRequestReviewThreadReply"; "resolveReviewThread";
   "unresolveReviewThread"; "requestReviews"; "convertPullRequestToDraft"].

Definition REF_MUTATIONS : list string :=
  ["createRef"; "updateRef"; "updateRefs"; "deleteRef"; "createCommitOnBranch"; "mergeBranch";
   "mergePullRequest"; "enablePullRequestAutoMerge"; "enqueuePullRequest"; "revertPullRequest";
   "updateRepository"; "archiveRepository"].

Definition PR_EDIT_INPUT : list string := ["pullRequestId"; "title"; "body"; "clientMutationId"].

(** ** Gates *)

Inductive HumanGate := NoPush | DraftPrOnly | OutwardHeldForApproval.

#[export] Instance HumanGate_eq_dec : EqDecision HumanGate.
Proof. solve_decision. Defined.

Definition HumanGate_as_str (g : HumanGate) : string :=
  match g with
  | NoPush => "noPush"
  | DraftPrOnly => "draftPrOnly"
  | OutwardHeldForApproval => "outwardHeldForApproval"
  end.

Inductive Gate := GOpen | GDeclared (g : HumanGate) | GUnparseable.

Definition Gate_parse (raw : option string) : Gate :=
  match (trim <$> raw) ≫= (λ r, if is_empty r then None else Some r) with
  | None => GOpen
  | Some raw =>
    if raw ==s "noPush" then GDeclared NoPush
    else if raw ==s "draftPrOnly" then GDeclared DraftPrOnly
    else if raw ==s "outwardHeldForApproval" then GDeclared OutwardHeldForApproval
    else GUnparseable
  end.

Inductive Review := RAllow | RRefuse (reason : string) | RNeedBody.

#[export] Instance Review_eq_dec : EqDecision Review.
Proof. solve_decision. Defined.

Record GatePolicy := mkGatePolicy { gp_gate : Gate; gp_protected : list string }.

Definition GatePolicy_new (gate : Gate) (extra_protected : list string) : GatePolicy :=
  mkGatePolicy gate
    (DEFAULT_PROTECTED ++ filter (λ b, is_empty b = false) (trim <$> extra_protected)).

Definition enforced (p : GatePolicy) : option HumanGate :=
  match gp_gate p with
  | GDeclared NoPush => Some NoPush
  | GDeclared DraftPrOnly => Some DraftPrOnly
  | _ => None
  end.

Definition is_policed (host : string) : bool :=
  existsb (λ h, eq_ignore_ascii_case h host) POLICED_HOSTS.

Definition refuse (gate : HumanGate) (what : string) : Review :=
  RRefuse ("human gate " ++s HumanGate_as_str gate ++s " refuses " ++s what).

Definition refuse_connection (p : GatePolicy) (host : string) (intercepted : bool) :
    option string :=
  match gp_gate p with
  | GUnparseable => Some "human gate unparseable: every outbound connection is refused"
  | _ =>
    gate ← enforced p;
    if negb intercepted && is_policed host then
      Some ("human gate " ++s HumanGate_as_str gate ++s ": " ++s host ++s
            " is not intercepted, so its writes cannot be reviewed; add it to the inject config")
    else None
  end.

(** ** Request heads *)

Fixpoint percent_decode_bytes (s : string) : option string :=
  match s with
  | "" => Some ""
  | String c r =>
    if Ascii.eqb c "%" then
      match r with
      | String a (String b r) =>
        let hex := String a (String b "") in
        if utf8_valid hex then
          byte ← from_str_radix16 255 hex;
          String (ascii_of_N byte) <$> percent_decode_bytes r
        else None
      | _ => None
      end
    else String c <$> percent_decode_bytes r
  end.

Definition percent_decode (s : string) : option string :=
  out ← percent_decode_bytes s; if utf8_valid out then Some out else None.

Record Call := mkCall {
  c_method : string;
  c_query : string;
  c_segments : list string;
  c_lower : list string;
}.

Definition Call_parse (head : string) : option Call :=
  let line := hd "" (split_char newline head) in
  if negb (utf8_valid line) then None else
  match split_char " " (trim_end line) with
  | method :: target :: _ =>
    let '(path, query) := default (target, "") (split_once (Ascii.eqb "?") target) in
    if negb (starts_with "/" path) then None else
    decoded ← percent_decode path;
    let segments := filter (λ s, is_empty s = false) (split_char "/" decoded) in
    if existsb (λ s, (s ==s ".") || (s ==s "..")) segments then None
    else Some (mkCall (to_ascii_uppercase method) (to_ascii_lowercase query) segments
                 (to_ascii_lowercase <$> segments))
  | _ => None
  end.

Definition call_writes (c : Call) : bool :=
  negb (str_in (c_method c) ["GET"; "HEAD"; "OPTIONS"]).

Definition strip_port (authority : string) : string :=
  match strip_prefix "[" authority ≫= split_once (Ascii.eqb "]") with
  | Some (a, _) => "[" ++s a ++s "]"
  | None =>
    match rsplit_once (Ascii.eqb ":") authority with
    | Some (name, port) =>
      if negb (contains_char (Ascii.eqb ":") name) && all_chars is_ascii_digit port then name
      else authority
    | None => authority
    end
  end.

Definition host_header_line (line : string) : option string :=
  match split_once (Ascii.eqb ":") line with
  | Some (k, v) => if eq_ignore_ascii_case k "host" then Some v else None
  | None => None
  end.

Definition addresses (host head : string) : bool :=
  match omap host_header_line (tail (split_char newline head)) with
  | [value] =>
    utf8_valid value &&
    eq_ignore_ascii_case (strip_port (trim value)) (strip_port (trim host))
  | _ => false
  end.

(** The slice patterns of the source: a literal, alternatives, any one segment,
    and a final [..]. *)
Inductive pseg := L (s : string) | O (alts : list string) | W | Dots.

Fixpoint path_is (pat : list pseg) (rest : list string) : bool :=
  match pat, rest with
  | [], [] => true
  | Dots :: _, _ => true
  | L s :: pat, x :: rest => (x ==s s) && path_is pat rest
  | O alts :: pat, x :: rest => str_in x alts && path_is pat rest
  | W :: pat, _ :: rest => path_is pat rest
  | _, _ => false
  end.

Definition repo_rest (lower : list string) : option (list string) :=
  match lower with
  | first :: _ =>
    if (first ==s "repos") && (3 <=? List.length lower)%nat then Some (drop 3 lower)
    else if (first ==s "repositories") && (2 <=? List.length lower)%nat then Some (drop 2 lower)
    else None
  | [] => None
  end.

(** The repository writes both gates let through, as method and path. *)
Definition WRITE_ALLOW_LIST : list (list string * list pseg) :=
  [(["POST"], [L "issues"]);
   (["POST"], [O ["issues"; "pulls"]; W; L "comments"]);
   (["POST"], [O ["issues"; "comments"]; W; L "reactions"]);
   (["POST"], [O ["issues"; "pulls"]; L "comments"; W; L "reactions"]);
   (["POST"], [L "pulls"; W; L "reviews"]);
   (["POST"], [L "pulls"; W; L "reviews"; W; L "events"]);
   (["POST"], [L "pulls"; W; L "comments"; W; L "replies"]);
   (["POST"], [L "git"; O ["blobs"; "trees"; "commits"; "tags"]]);
   (["PATCH"], [L "issues"; W]);
   (["PATCH"; "DELETE"], [O ["issues"; "pulls"]; L "comments"; W]);
   (["POST"; "PUT"; "DELETE"], [L "issues"; W; L "labels"]);
   (["DELETE"], [L "issues"; W; L "labels"; W]);
   (["DELETE"], [O ["issues"; "comments"]; W; L "reactions"; W]);
   (["DELETE"], [O ["issues"; "pulls"]; L "comments"; W; L "reactions"; W]);
   (["POST"; "DELETE"], [L "issues"; W; L "assignees"]);
   (["POST"; "DELETE"], [L "pulls"; W; L "requested_reviewers"]);
   (["PUT"; "DELETE"], [L "pulls"; W; L "reviews"; W])].

Definition allowed_write (gate : HumanGate) (method : string) (rest : list string) : Review :=
  if (method ==s "PATCH") && path_is [L "pulls"; W] rest then RNeedBody
  else if existsb (λ e, str_in method e.1 && path_is e.2 rest) WRITE_ALLOW_LIST then RAllow
  else refuse gate "a write outside its allow-list".

Definition no_push_rest (gate : HumanGate) (method : string) (rest : list string) : Review :=
  if path_is [] rest || path_is [L "transfer"] rest then refuse gate "a repository settings write"
  else if path_is [L "git"; L "refs"; Dots] rest then refuse gate "a ref write"
  else if path_is [L "contents"; Dots] rest then refuse gate "a contents write"
  else if path_is [O ["merges"; "merge-upstream"]] rest || path_is [L "pulls"; W; L "merge"] rest then
    refuse gate "a merge"
  else if path_is [L "pulls"; W; L "update-branch"] rest then
    refuse gate "a pull request branch update"
  else if path_is [L "branches"; W; L "rename"] rest then refuse gate "a branch rename"
  else if path_is [L "releases"; Dots] rest then refuse gate "a release"
  else if path_is [L "pulls"] rest && (method ==s "POST") then RAllow
  else allowed_write gate method rest.

Definition branch_verdict (p : GatePolicy) (gate : HumanGate) (name : string) : Review :=
  if is_empty name then refuse gate "a write to an unnamed branch"
  else if existsb (λ q, eq_ignore_ascii_case q name) (gp_protected p) then
    refuse gate ("a write to protected branch `" ++s name ++s "`")
  else RAllow.

Definition draft_rest (p : GatePolicy) (gate : HumanGate) (method : string)
    (rest original : list string) : Review :=
  if path_is [] rest || path_is [L "transfer"] rest then refuse gate "a repository settings write"
  else if (path_is [L "git"; L "refs"] rest || path_is [L "pulls"] rest) && (method ==s "POST") then
    RNeedBody
  else if path_is [L "git"; L "refs"; L "heads"; W; Dots] rest then
    branch_verdict p gate (join "/" (drop 3 original))
  else if path_is [L "git"; L "refs"; Dots] rest then
    refuse gate "a write to a ref that is not a branch"
  else if path_is [L "contents"; Dots] rest || path_is [O ["merges"; "merge-upstream"]] rest then
    RNeedBody
  else if path_is [L "pulls"; W; L "merge"] rest then refuse gate "a pull request merge"
  else if path_is [L "pulls"; W; L "update-branch"] rest && (method ==s "PUT") then RAllow
  else if path_is [L "branches"; W; L "rename"] rest then refuse gate "a branch rename"
  else if path_is [L "releases"; Dots] rest then refuse gate "a release"
  else allowed_write gate method rest.

Definition is_graphql (c : Call) : bool := path_is [L "graphql"] (c_lower c).

Definition api_head (p : GatePolicy) (gate : HumanGate) (c : Call) : Review :=
  if is_graphql c then
    if c_method c ==s "POST" then RNeedBody
    else if is_empty (c_query c) then RAllow
    else refuse gate "a GraphQL request outside a POST body"
  else if negb (call_writes c) then RAllow
  else
    match repo_rest (c_lower c) with
    | None => refuse gate "an API write outside a repository"
    | Some rest =>
      let original := drop (List.length (c_lower c) - List.length rest) (c_segments c) in
      if decide (gate = NoPush) then no_push_rest gate (c_method c) rest
      else draft_rest p gate (c_method c) rest original
    end.

Definition is_push (c : Call) : bool := ends_with "git-receive-pack" (join "/" (c_lower c)).

Definition is_push_discovery (c : Call) : bool :=
  ends_with "info/refs" (join "/" (c_lower c)) &&
  contains "service=git-receive-pack" (c_query c).

Definition git_head (gate : HumanGate) (c : Call) : Review :=
  if bool_decide (gate = NoPush) && (is_push c || is_push_discovery c) then refuse gate "a git push"
  else if is_push c && (c_method c ==s "POST") then RNeedBody
  else if is_push c then refuse gate "a git push it cannot parse"
  else RAllow.

Definition review_head (p : GatePolicy) (host head : string) : Review :=
  match enforced p with
  | None => RAllow
  | Some gate =>
    if negb (addresses host head) then
      refuse gate "a request whose Host header is not the host it connected to"
    else
    let host := to_ascii_lowercase host in
    if negb (is_policed host) then RAllow
    else if bool_decide (is_Some (request_header head "x-http-method-override")) then
      refuse gate "a method-override header"
    else
    match Call_parse head with
    | None => refuse gate "a request target it cannot parse"
    | Some c =>
      if host ==s "api.github.com" then api_head p gate c
      else if host ==s "uploads.github.com" then
        if call_writes c then refuse gate "an upload" else RAllow
      else git_head gate c
    end
  end.

(** ** GraphQL documents *)

Inductive Tok := TName (s : string) | TVar (s : string) | TPunct (c : ascii).

#[export] Instance Tok_eq_dec : EqDecision Tok.
Proof. solve_decision. Defined.

Definition is_dq (c : ascii) : bool := Ascii.eqb c dquote.

(** The text after the closing triple quote. *)
Fixpoint skip_block (s : string) : option string :=
  match s with
  | String a ((String b (String c r)) as s1) =>
    if Ascii.eqb a "\" && is_dq b && is_dq c && starts_with (String dquote "") r then
      match r with String _ r => skip_block r | "" => None end
    else if is_dq a && is_dq b && is_dq c then Some r
    else skip_block s1
  | _ => None
  end.

(** The text after the closing quote, on the same line. *)
Fixpoint skip_line (s : string) : option string :=
  match s with
  | "" => None
  | String c r =>
    if Ascii.eqb c "\" then match r with String _ r => skip_line r | "" => None end
    else if is_dq c then Some r
    else if Ascii.eqb c newline then None
    else skip_line r
  end.

(** The text after the string literal that [s] starts with. *)
Definition skip_string (s : string) : option string :=
  match s with
  | String a r =>
    match r with
    | String b (String c r3) => if is_dq b && is_dq c then skip_block r3 else skip_line r
    | _ => skip_line r
    end
  | "" => None
  end.

Definition is_word_char (c : ascii) : bool := Ascii.eqb c "_" || is_ascii_alphanumeric c.

(** Every turn consumes a byte. *)
Fixpoint lex (fuel : nat) (s : string) : option (list Tok) :=
  match s, fuel with
  | "", _ => Some []
  | _, Datatypes.O => None
  | String c r, S fuel =>
    if is_ascii_whitespace c || Ascii.eqb c "," then lex fuel r
    else if Ascii.eqb c "#" then
      lex fuel (span_chars (λ x, negb (Ascii.eqb x newline)) r).2
    else if is_dq c then s' ← skip_string s; lex fuel s'
    else if Ascii.eqb c "$" then
      let '(word, r') := span_chars is_word_char r in
      cons (TVar word) <$> lex fuel r'
    else if is_word_char c then
      let '(word, r') := span_chars is_word_char s in
      cons (TName word) <$> lex fuel r'
    else cons (TPunct c) <$> lex fuel r
  end.

Definition graphql_tokens (src : string) : option (list Tok) := lex (String.length src) src.

Record Scan := mkScan {
  sc_depth : nat; sc_parens : nat; sc_pending : bool; sc_mutation : bool; sc_fields : list nat }.

Definition is_tok (t : Tok) (o : option Tok) : bool := bool_decide (o = Some t).

(** One turn of the field scan at index [i]; [None] is the early return. *)
Definition scan_tok (tokens : list Tok) (i : nat) (t : Tok) (s : Scan) : option Scan :=
  let '(mkScan depth parens pending in_mutation fields) := s in
  if decide (t = TPunct "(") then Some (mkScan depth (S parens) pending in_mutation fields)
  else if decide (t = TPunct ")") then
    match parens with
    | Datatypes.O => None
    | S parens => Some (mkScan depth parens pending in_mutation fields)
    end
  else if (0 <? parens)%nat then Some s
  else if decide (t = TPunct "{") then
    if (depth =? 0)%nat then Some (mkScan 1 parens false pending fields)
    else Some (mkScan (S depth) parens pending in_mutation fields)
  else if decide (t = TPunct "}") then
    match depth with
    | Datatypes.O => None
    | S depth => Some (mkScan depth parens pending in_mutation fields)
    end
  else if bool_decide (t = TName "mutation") && (depth =? 0)%nat then
    Some (mkScan depth parens true in_mutation fields)
  else if (bool_decide (t = TName "query") || bool_decide (t = TName "subscription") ||
           bool_decide (t = TName "fragment")) && (depth =? 0)%nat then
    Some (mkScan depth parens false in_mutation fields)
  else if bool_decide (t = TPunct ".") && (depth =? 1)%nat && in_mutation then None
  else
    match t with
    | TName _ =>
      if (depth =? 1)%nat && in_mutation then
        let directive := (0 <? i)%nat && is_tok (TPunct "@") (tokens !! (i - 1)%nat) in
        let alias := is_tok (TPunct ":") (tokens !! S i) in
        if negb directive && negb alias then
          Some (mkScan depth parens pending in_mutation (fields ++ [i]))
        else Some s
      else Some s
    | _ => Some s
    end.

Fixpoint scan_toks (tokens : list Tok) (i : nat) (l : list Tok) (s : Scan) : option Scan :=
  match l with
  | [] => Some s
  | t :: l => s' ← scan_tok tokens i t s; scan_toks tokens (S i) l s'
  end.

Definition mutation_fields (tokens : list Tok) : option (list nat) :=
  s ← scan_toks tokens 0 tokens (mkScan 0 0 false false []);
  if (sc_depth s =? 0)%nat && (sc_parens s =? 0)%nat then Some (sc_fields s) else None.

Definition input_var (after : list Tok) (json : Value) : option Value :=
  match after with
  | TPunct a :: TName n :: TPunct b :: TVar var :: TPunct c :: _ =>
    if Ascii.eqb a "(" && (n ==s "input") && Ascii.eqb b ":" && Ascii.eqb c ")" then
      jget "variables" json ≫= jget var
    else None
  | _ => None
  end.

Definition only_keys (json : Value) (keys : list string) : bool :=
  match as_object json with Some o => forallb (λ kv, str_in kv.1 keys) o | None => false end.

Definition mutation_verdict (gate : HumanGate) (name : string) (after : list Tok) (json : Value) :
    Review :=
  let draft_only := bool_decide (gate = DraftPrOnly) in
  let refused := str_in name REF_MUTATIONS ||
    (negb draft_only && (name ==s "updatePullRequestBranch")) ||
    (draft_only && (name ==s "markPullRequestReadyForReview")) in
  if refused then refuse gate ("the `" ++s name ++s "` mutation") else
  let input := input_var after json in
  let draft := is_json_true (input ≫= jget "draft") in
  let title_body := match input with Some i => only_keys i PR_EDIT_INPUT | None => false end in
  if (name ==s "createPullRequest") && draft_only && negb draft then
    refuse gate "a pull request that is not a draft"
  else if (name ==s "updatePullRequest") && negb title_body then
    refuse gate "a pull request edit beyond its title and body"
  else if str_in name ALLOWED_MUTATIONS then RAllow
  else refuse gate ("the `" ++s name ++s "` mutation, which is not on its allow-list").

Fixpoint judge_fields (gate : HumanGate) (tokens : list Tok) (json : Value) (fields : list nat) :
    Review :=
  match fields with
  | [] => RAllow
  | i :: fields =>
    match tokens !! i with
    | Some (TName name) =>
      match mutation_verdict gate name (drop (S i) tokens) json with
      | RRefuse reason => RRefuse reason
      | _ => judge_fields gate tokens json fields
      end
    | _ => judge_fields gate tokens json fields
    end
  end.

Definition graphql_body (gate : HumanGate) (json : Value) : Review :=
  match get_str "query" json with
  | None => refuse gate "a GraphQL body without a query"
  | Some query =>
    match graphql_tokens query with
    | None => refuse gate "a GraphQL document it cannot parse"
    | Some tokens =>
      match mutation_fields tokens with
      | None => refuse gate "a GraphQL mutation it cannot read"
      | Some fields => judge_fields gate tokens json fields
      end
    end
  end.

(** ** Git pushes *)

Inductive PktScan := PRefs (refs : list string) | PIncomplete | PMalformed.

Definition is_oid (s : string) : bool :=
  ((String.length s =? 40)%nat || (String.length s =? 64)%nat) && all_chars is_ascii_hexdigit s.

(** What one command line adds: nothing for [shallow], else its ref. *)
Definition pkt_command (payload : string) : option (list string) :=
  let line := hd "" (split_char zero payload) in
  let line := default line (strip_suffix nl line) in
  if negb (utf8_valid line) then None
  else if starts_with "shallow " line then Some []
  else
    match split_char " " line with
    | [old; new; name] => if is_oid old && is_oid new then Some [name] else None
    | _ => None
    end.

(** Every turn consumes at least the four length digits. *)
Fixpoint push_refs_from (fuel : nat) (refs : list string) (body : string) : PktScan :=
  match fuel with
  | Datatypes.O => PIncomplete
  | S fuel =>
    if (String.length body <? 4)%nat then PIncomplete else
    let len_hex := stake 4 body in
    match (if utf8_valid len_hex then from_str_radix16 usize_max len_hex else None) with
    | None => PMalformed
    | Some len =>
      if (len =? 0)%N then PRefs refs
      else if (len <? 4)%N then PMalformed
      else if (blen body <? len)%N then PIncomplete
      else
        match pkt_command (btake (len - 4) (sdrop 4 body)) with
        | None => PMalformed
        | Some more => push_refs_from fuel (refs ++ more) (bdrop len body)
        end
    end
  end.

Definition push_refs (body : string) : PktScan := push_refs_from (S (String.length body)) [] body.

Fixpoint judge_refs (p : GatePolicy) (gate : HumanGate) (refs : list string) : Review :=
  match refs with
  | [] => RAllow
  | full :: refs =>
    match strip_prefix "refs/heads/" full with
    | None => refuse gate ("a push to `" ++s full ++s "`, which is not a branch")
    | Some name =>
      match branch_verdict p gate name with
      | RRefuse reason => RRefuse reason
      | _ => judge_refs p gate refs
      end
    end
  end.

Definition gate_push_body (p : GatePolicy) (gate : HumanGate) (body : string) (complete : bool) :
    Review :=
  match push_refs body with
  | PRefs refs => judge_refs p gate refs
  | PIncomplete => if complete then refuse gate "a push it cannot parse" else RNeedBody
  | PMalformed => refuse gate "a push it cannot parse"
  end.

(** ** Request bodies *)

Definition named_branch (p : GatePolicy) (gate : HumanGate) (name : option string) : Review :=
  match name with
  | None => refuse gate "a write to the default branch"
  | Some name => branch_verdict p gate (default name (strip_prefix "refs/heads/" name))
  end.

Definition rest_body (p : GatePolicy) (gate : HumanGate) (method : string) (rest : list string)
    (json : Value) : Review :=
  if path_is [L "git"; L "refs"] rest then
    match get_str "ref" json ≫= strip_prefix "refs/heads/" with
    | None => refuse gate "a write to a ref that is not a branch"
    | Some name => branch_verdict p gate name
    end
  else if path_is [L "contents"; Dots] rest || path_is [L "merge-upstream"] rest then
    named_branch p gate (get_str "branch" json)
  else if path_is [L "merges"] rest then named_branch p gate (get_str "base" json)
  else if path_is [L "pulls"] rest && (method ==s "POST") then
    if is_json_true (jget "draft" json) then RAllow
    else refuse gate "a pull request that is not a draft"
  else if path_is [L "pulls"; W] rest && (method ==s "PATCH") then
    if only_keys json ["title"; "body"] then RAllow
    else refuse gate "a pull request edit beyond its title and body"
  else refuse gate "a request it cannot classify".

Definition review_body `{JsonText} (p : GatePolicy) (host head body : string) (complete : bool) :
    Review :=
  match enforced p with
  | None => RAllow
  | Some gate =>
    if match request_header head "content-encoding" with
       | Some v => negb (eq_ignore_ascii_case v "identity")
       | None => false
       end then refuse gate "an encoded request body"
    else
    match Call_parse head with
    | None => refuse gate "a request target it cannot parse"
    | Some c =>
      if negb (eq_ignore_ascii_case host "api.github.com") then gate_push_body p gate body complete
      else if negb complete then RNeedBody
      else
      match json_from_str body with
      | None => refuse gate "a request body that is not JSON"
      | Some json =>
        if is_graphql c then graphql_body gate json
        else
          match repo_rest (c_lower c) with
          | None => refuse gate "a request it cannot classify"
          | Some rest => rest_body p gate (c_method c) rest json
          end
      end
    end
  end.

(** ** The review loop ([inject.rs], [gate_refusal]) *)

(** One [fill] of the client buffer: some bytes (none at end of stream), or an
    I/O error. *)
Inductive Fill := FBytes (chunk : string) | FIoError.

(** Relay the request, refuse it with a reason, fail the connection, panic, or
    wait for a fill that has not happened. *)
Inductive GateOutcome := Relay | Refused (reason : string) | ConnError | GPanic | Waiting.

Definition UNREVIEWABLE_BODY : string := "human gate refuses a request body it could not review".

Fixpoint review_loop `{JsonText} (p : GatePolicy) (host head : string) (framing : Framing)
    (buf : string) (fills : list Fill) : GateOutcome :=
  match body_prefix buf framing with
  | None => GPanic
  | Some (body, complete) =>
    match review_body p host head body complete with
    | RAllow => Relay
    | RRefuse reason => Refused reason
    | RNeedBody =>
      if (MAX_REVIEW_BYTES <? blen buf)%N then Refused UNREVIEWABLE_BODY else
      match fills with
      | [] => Waiting
      | FIoError :: _ => ConnError
      | FBytes chunk :: fills =>
        if is_empty chunk then Refused UNREVIEWABLE_BODY
        else review_loop p host head framing (buf ++s chunk) fills
      end
    end
  end.

Definition gate_refusal `{JsonText} (p : GatePolicy) (host head buf : string) (fills : list Fill) :
    GateOutcome :=
  match review_head p host head with
  | RAllow => Relay
  | RRefuse reason => Refused reason
  | RNeedBody => review_loop p host head (body_framing head false) buf fills
  end.
