(* ===== verification/GateFacts.v ===== *)
(** * Facts about the human gates

    A verdict reached on part of a body is the verdict on all of it; what the
    review loop relays under a gate moves no protected branch; the scan of a
    GraphQL document finds every field of an ordinary mutation, and what an
    operation named like a keyword does to it. *)

From stdpp Require Import base decidable list sets strings.
From Stdlib Require Import Lia ZArith NArith Bool Ascii String.
From S2P Require Import Prelude RustStr Json Rules Http Gate.

(** ** Pushes *)

Lemma push_refs_from_extend y fuel fuel' refs body :
  (String.length body < fuel)%nat → (String.length (body ++s y) < fuel')%nat →
  push_refs_from fuel refs body ≠ PIncomplete →
  push_refs_from fuel' refs (body ++s y) = push_refs_from fuel refs body.
Proof.
  revert fuel' refs body. induction fuel as [|fuel IH]; intros fuel' refs body; [lia|].
  intros Hf Hf'. destruct fuel' as [|fuel']; [lia|]. cbn [push_refs_from].
  destruct (Nat.ltb_spec (String.length body) 4) as [?|H4]; [done|].
  rewrite length_app_s in *. rewrite (proj2 (Nat.ltb_ge _ _)) by lia.
  rewrite stake_app, sdrop_app, blen_app by done.
  destruct (if utf8_valid _ then _ else _) as [len|]; [|done].
  destruct (N.eqb_spec len 0) as [|Hz]; [done|]. destruct (N.ltb_spec len 4) as [|Hl4]; [done|].
  destruct (N.ltb_spec (blen body) len) as [|Hfit]; [done|].
  rewrite (proj2 (N.ltb_ge _ _)) by lia. unfold blen in *.
  rewrite btake_app, bdrop_app by (unfold blen; rewrite ?sdrop_length; lia).
  destruct (pkt_command _) as [more|]; [|done].
  apply IH; rewrite ?length_app_s, bdrop_length; unfold clamp; lia.
Qed.

Lemma push_refs_extend y body :
  push_refs body ≠ PIncomplete → push_refs (body ++s y) = push_refs body.
Proof. apply push_refs_from_extend; lia. Qed.

(** A branch the gate lets a worker write. *)
Definition writable (p : GatePolicy) (name : string) : Prop :=
  name ≠ "" ∧ ∀ q, q ∈ gp_protected p → eq_ignore_ascii_case q name = false.

Lemma branch_verdict_cases p gate name :
  (branch_verdict p gate name = RAllow ∧ writable p name) ∨
  (∃ reason, branch_verdict p gate name = RRefuse reason) ∧ ¬ writable p name.
Proof.
  unfold branch_verdict, writable, is_empty. destruct (String.eqb_spec name "") as [->|Hne].
  { right. split; [by eexists|naive_solver]. }
  destruct (existsb _ _) eqn:E.
  - right. split; [by eexists|].
    apply existsb_exists in E as (q & Hq%list_elem_of_In & Hm). intros [_ Hall].
    by rewrite Hall in Hm.
  - left. split; [done|]. split; [done|]. intros q Hq. apply not_true_iff_false. intros Hm.
    apply not_true_iff_false in E. apply E, existsb_exists. exists q. by rewrite <-list_elem_of_In.
Qed.

Definition writable_ref (p : GatePolicy) (full : string) : Prop :=
  ∃ name, full = "refs/heads/" ++s name ∧ writable p name.

Lemma judge_refs_cases p gate refs :
  (judge_refs p gate refs = RAllow ∧ Forall (writable_ref p) refs) ∨
  (∃ reason, judge_refs p gate refs = RRefuse reason) ∧ ¬ Forall (writable_ref p) refs.
Proof.
  induction refs as [|full refs IH]; cbn [judge_refs]; [by left|].
  destruct (strip_prefix "refs/heads/" full) as [name|] eqn:E.
  - apply strip_prefix_spec in E as ->.
    destruct (branch_verdict_cases p gate name) as [[-> Hw]|[[reason ->] Hnw]].
    + destruct IH as [[-> Hall]|[[reason ->] Hn]].
      * left. split; [done|]. constructor; [by exists name|done].
      * right. split; [by eexists|]. by intros [_ ?]%Forall_cons.
    + right. split; [by eexists|]. intros [(name' & Heq & Hw) _]%Forall_cons.
      assert (name' = name) as ->; [|done].
      assert (strip_prefix "refs/heads/" ("refs/heads/" ++s name) = Some name') as Hs
        by (by apply strip_prefix_spec).
      assert (strip_prefix "refs/heads/" ("refs/heads/" ++s name) = Some name) as Hs'
        by (by apply strip_prefix_spec).
      congruence.
  - right. split; [by eexists|]. intros [(name & -> & _) _]%Forall_cons.
    assert (strip_prefix "refs/heads/" ("refs/heads/" ++s name) = Some name) as Hs
      by (by apply strip_prefix_spec).
    congruence.
Qed.

(** ** Bodies *)

Section body.
Context `{JsonText}.

Lemma rest_body_not_need p gate method rest json : rest_body p gate method rest json ≠ RNeedBody.
Proof.
  assert (Hb : ∀ name, branch_verdict p gate name ≠ RNeedBody).
  { intros name. destruct (branch_verdict_cases p gate name) as [[-> _]|[[r ->] _]]; done. }
  assert (Hn : ∀ o, named_branch p gate o ≠ RNeedBody) by (intros [name|]; [apply Hb|done]).
  unfold rest_body, refuse. repeat case_match; auto.
Qed.

Lemma judge_fields_not_need gate tokens json fields :
  judge_fields gate tokens json fields ≠ RNeedBody.
Proof. induction fields as [|i fields IH]; cbn; repeat case_match; auto. Qed.

Lemma review_body_complete p host head body : review_body p host head body true ≠ RNeedBody.
Proof.
  unfold review_body. destruct (enforced p) as [gate|]; [|done].
  destruct (match request_header _ _ with Some _ => _ | None => _ end); [done|].
  destruct (Call_parse head) as [c|]; [|done].
  destruct (negb _).
  - unfold gate_push_body. destruct (push_refs body); [|done..].
    by destruct (judge_refs_cases p gate refs) as [[-> _]|[[r ->] _]].
  - cbn [negb]. destruct (json_from_str body) as [json|]; [|done].
    destruct (is_graphql c).
    + unfold graphql_body. destruct (get_str _ _) as [q|]; [|done].
      destruct (graphql_tokens q) as [toks|]; [|done].
      destruct (mutation_fields toks); [apply judge_fields_not_need|done].
    + destruct (repo_rest _); [apply rest_body_not_need|done].
Qed.

Lemma review_body_stable p host head body y complete :
  review_body p host head body false ≠ RNeedBody →
  review_body p host head (body ++s y) complete = review_body p host head body false.
Proof.
  unfold review_body. destruct (enforced p) as [gate|]; [|done].
  destruct (match request_header _ _ with Some _ => _ | None => _ end); [done|].
  destruct (Call_parse head) as [c|]; [|done].
  destruct (negb _); [|done]. unfold gate_push_body.
  destruct (push_refs body) eqn:E; [..|done|]; intros _;
    (rewrite push_refs_extend by (by rewrite E)); by rewrite E.
Qed.

(** Reviewing a body as it arrives is sound: a verdict reached on a prefix is
    the verdict on the body the prefix is part of, however much more arrives, so
    a push is never let through on a prefix and different in full; and a whole
    body always gets a verdict. *)
Theorem prefix_verdict_final p host head framing raw x body complete body' complete' :
  body_prefix raw framing = Some (body, complete) →
  body_prefix (raw ++s x) framing = Some (body', complete') →
  (review_body p host head body complete ≠ RNeedBody →
     review_body p host head body' complete' = review_body p host head body complete) ∧
  (complete' = true → review_body p host head body' complete' ≠ RNeedBody).
Proof.
  intros H1 H2. split; [|intros ->; apply review_body_complete].
  intros Hv. destruct (body_prefix_extend _ _ _ _ _ _ _ H1 H2) as [[y ->] Hc].
  destruct complete.
  - by destruct (Hc eq_refl) as [-> ->].
  - by apply review_body_stable.
Qed.

(** The text of the fills. *)
Fixpoint fills_text (fills : list Fill) : string :=
  match fills with
  | FBytes chunk :: fills => chunk ++s fills_text fills
  | _ => ""
  end.

Lemma review_loop_relay p host head framing buf fills x body :
  review_loop p host head framing buf fills = Relay →
  body_prefix (buf ++s fills_text fills ++s x) framing = Some (body, true) →
  review_body p host head body true = RAllow.
Proof.
  revert buf. induction fills as [|f fills IH]; intros buf; cbn [review_loop fills_text];
    destruct (body_prefix buf framing) as [[b c]|] eqn:E; try done;
    destruct (review_body p host head b c) eqn:Ev; try done; intros Hl Hfull.
  all: try (rewrite <-Ev; assert (Hne : review_body p host head b c ≠ RNeedBody) by (by rewrite Ev);
    destruct (body_prefix_extend _ _ _ _ _ _ _ E Hfull) as [[y ->] Hc]; destruct c;
    [by destruct (Hc eq_refl) as [-> _]|by apply review_body_stable]).
  - by destruct (_ <? _)%N.
  - destruct (_ <? _)%N; [done|]. destruct f as [chunk|]; [|done].
    destruct (is_empty chunk); [done|]. apply (IH _ Hl). by rewrite !app_assoc_s in *.
Qed.

(** ** Relayed requests *)

Definition git_host (host : string) : Prop :=
  to_ascii_lowercase host ∈ ["github.com"; "www.github.com"; "gist.github.com"].

Lemma git_host_routes host :
  git_host host → is_policed (to_ascii_lowercase host) = true ∧
  (to_ascii_lowercase host ==s "api.github.com") = false ∧
  (to_ascii_lowercase host ==s "uploads.github.com") = false ∧
  eq_ignore_ascii_case host "api.github.com" = false.
Proof.
  unfold git_host, is_policed, eq_ignore_ascii_case. cbn [existsb POLICED_HOSTS].
  rewrite to_lower_idemp. intros Hin.
  repeat (apply elem_of_cons in Hin as [->|Hin]; [by vm_compute|]). by apply elem_of_nil in Hin.
Qed.

Lemma review_head_git p host head gate c :
  enforced p = Some gate → git_host host → Call_parse head = Some c →
  (∃ reason, review_head p host head = RRefuse reason) ∨
  review_head p host head = git_head gate c.
Proof.
  intros He (Hp & Ha & Hu & _)%git_host_routes Hc. unfold review_head. rewrite He, Hp, Ha, Hu, Hc.
  destruct (addresses host head); [|left; by eexists].
  destruct (bool_decide _); [left; by eexists|by right].
Qed.

(** A push that reaches GitHub under an enforced gate went through
    [draftPrOnly], as a POST, and moves only branches the gate leaves open: every
    ref its command list updates, read from the whole body the client sends, is
    a branch with a name that no protected name equals up to case.  Under
    [noPush] no push is relayed. *)
Theorem relayed_push_writable p host head buf fills x gate c body :
  enforced p = Some gate → git_host host → Call_parse head = Some c → is_push c = true →
  gate_refusal p host head buf fills = Relay →
  body_prefix (buf ++s fills_text fills ++s x) (body_framing head false) = Some (body, true) →
  gate = DraftPrOnly ∧ c_method c = "POST" ∧
  ∃ refs, push_refs body = PRefs refs ∧ Forall (writable_ref p) refs.
Proof.
  intros He Hh Hc Hpush Hrelay Hfull. unfold gate_refusal in Hrelay.
  destruct (review_head_git p host head gate c He Hh Hc) as [[r Hr]|Hr]; rewrite Hr in Hrelay; [done|].
  unfold git_head in Hrelay. rewrite Hpush in Hrelay. cbn [orb andb] in Hrelay.
  rewrite andb_true_r in Hrelay. destruct (bool_decide_reflect (gate = NoPush)) as [->|Hnp]; [done|].
  destruct (String.eqb_spec (c_method c) "POST") as [Hm|]; [|done].
  apply (review_loop_relay _ _ _ _ _ _ x body) in Hrelay; [|done].
  apply git_host_routes in Hh as (_ & _ & _ & Hapi).
  unfold review_body in Hrelay. rewrite He, Hc, Hapi in Hrelay. cbn [negb] in Hrelay.
  destruct (match request_header _ _ with Some _ => _ | None => _ end); [done|].
  unfold gate_push_body in Hrelay. split_and!; [|done|].
  - unfold enforced in He. repeat case_match; simplify_eq; done.
  - destruct (push_refs body) as [refs| |]; [|done..]. exists refs. split; [done|].
    destruct (judge_refs_cases p gate refs) as [[_ Hall]|[[r Hr'] _]]; [done|congruence].
Qed.

Definition api_host (host : string) : Prop := to_ascii_lowercase host = "api.github.com".

Lemma review_head_api p host head gate c :
  enforced p = Some gate → api_host host → Call_parse head = Some c →
  (∃ reason, review_head p host head = RRefuse reason) ∨
  review_head p host head = api_head p gate c.
Proof.
  intros He Hh Hc. unfold review_head. rewrite He, Hh, Hc.
  change (is_policed "api.github.com") with true. change ("api.github.com" ==s "api.github.com") with true.
  destruct (addresses host head); [|left; by eexists].
  destruct (bool_decide _); [left; by eexists|by right].
Qed.

(** The body verdict on an API request that is not GraphQL. *)
Lemma review_body_rest p host head gate c body rest :
  enforced p = Some gate → api_host host → Call_parse head = Some c → is_graphql c = false →
  repo_rest (c_lower c) = Some rest → review_body p host head body true = RAllow →
  ∃ json, json_from_str body = Some json ∧ rest_body p gate (c_method c) rest json = RAllow.
Proof.
  intros He Hh Hc Hg Hrest. unfold review_body. rewrite He, Hc, Hg, Hrest.
  unfold eq_ignore_ascii_case. rewrite Hh. cbn [negb].
  destruct (match request_header _ _ with Some _ => _ | None => _ end); [done|].
  change ("api.github.com" ==s to_ascii_lowercase "api.github.com") with true. cbn [negb].
  destruct (json_from_str body) as [json|]; [|done]. intros Hr. by exists json.
Qed.

(** Repository paths through which a write moves a ref, merges, renames,
    releases, or changes the repository's settings. *)
Inductive RefWrite : list string → Prop :=
| rw_settings : RefWrite []
| rw_transfer : RefWrite ["transfer"]
| rw_refs l : RefWrite ("git" :: "refs" :: l)
| rw_contents l : RefWrite ("contents" :: l)
| rw_merges : RefWrite ["merges"]
| rw_upstream : RefWrite ["merge-upstream"]
| rw_merge n : RefWrite ["pulls"; n; "merge"]
| rw_update n : RefWrite ["pulls"; n; "update-branch"]
| rw_rename b : RefWrite ["branches"; b; "rename"]
| rw_release l : RefWrite ("releases" :: l).

(** The writes that both gates let through: issues, comments, reviews, reactions,
    labels and git objects, none of which moves a ref. *)
Inductive SideWrite : string → list string → Prop :=
| sw_issue : SideWrite "POST" ["issues"]
| sw_comment k n : k ∈ ["issues"; "pulls"] → SideWrite "POST" [k; n; "comments"]
| sw_react k n : k ∈ ["issues"; "comments"] → SideWrite "POST" [k; n; "reactions"]
| sw_comment_react k n : k ∈ ["issues"; "pulls"] → SideWrite "POST" [k; "comments"; n; "reactions"]
| sw_review n : SideWrite "POST" ["pulls"; n; "reviews"]
| sw_submit n r : SideWrite "POST" ["pulls"; n; "reviews"; r; "events"]
| sw_reply n c : SideWrite "POST" ["pulls"; n; "comments"; c; "replies"]
| sw_object k : k ∈ ["blobs"; "trees"; "commits"; "tags"] → SideWrite "POST" ["git"; k]
| sw_issue_edit n : SideWrite "PATCH" ["issues"; n]
| sw_comment_edit m k n : m ∈ ["PATCH"; "DELETE"] → k ∈ ["issues"; "pulls"] →
    SideWrite m [k; "comments"; n]
| sw_label m n : m ∈ ["POST"; "PUT"; "DELETE"] → SideWrite m ["issues"; n; "labels"]
| sw_unlabel n l : SideWrite "DELETE" ["issues"; n; "labels"; l]
| sw_unreact k n r : k ∈ ["issues"; "comments"] → SideWrite "DELETE" [k; n; "reactions"; r]
| sw_comment_unreact k n r : k ∈ ["issues"; "pulls"] →
    SideWrite "DELETE" [k; "comments"; n; "reactions"; r]
| sw_assign m n : m ∈ ["POST"; "DELETE"] → SideWrite m ["issues"; n; "assignees"]
| sw_reviewers m n : m ∈ ["POST"; "DELETE"] → SideWrite m ["pulls"; n; "requested_reviewers"]
| sw_review_edit m n r : m ∈ ["PUT"; "DELETE"] → SideWrite m ["pulls"; n; "reviews"; r].

(** The body of a pull request edit sets its title and its body, and nothing else. *)
Definition edits_text_only (body : string) : Prop :=
  ∃ json o, json_from_str body = Some json ∧ as_object json = Some o ∧
    ∀ k v, (k, v) ∈ o → k = "title" ∨ k = "body".

(** The field of the body that names the branch, with or without its prefix. *)
Definition body_names_writable (p : GatePolicy) (field body : string) : Prop :=
  ∃ json b, json_from_str body = Some json ∧ get_str field json = Some b ∧
    writable p (default b (strip_prefix "refs/heads/" b)).

(** The writes under [draftPrOnly]; [original] is the path as it was spelled. *)
Inductive DraftWrite (p : GatePolicy) (original : list string) (body : string) :
    string → list string → Prop :=
| dw_side m rest : SideWrite m rest → DraftWrite p original body m rest
| dw_draft json : json_from_str body = Some json → jget "draft" json = Some (JBool true) →
    DraftWrite p original body "POST" ["pulls"]
| dw_edit n : edits_text_only body → DraftWrite p original body "PATCH" ["pulls"; n]
| dw_update n : DraftWrite p original body "PUT" ["pulls"; n; "update-branch"]
| dw_contents m l : body_names_writable p "branch" body → DraftWrite p original body m ("contents" :: l)
| dw_upstream m : body_names_writable p "branch" body → DraftWrite p original body m ["merge-upstream"]
| dw_merges m : body_names_writable p "base" body → DraftWrite p original body m ["merges"]
| dw_new_ref json b : json_from_str body = Some json → get_str "ref" json = Some ("refs/heads/" ++s b) →
    writable p b → DraftWrite p original body "POST" ["git"; "refs"]
| dw_ref m b l : writable p (join "/" (drop 3 original)) →
    DraftWrite p original body m ("git" :: "refs" :: "heads" :: b :: l).

(** What a relayed REST write is, under each gate. *)
Definition rest_write_ok (p : GatePolicy) (gate : HumanGate) (method : string)
    (rest original : list string) (body : string) : Prop :=
  match gate with
  | NoPush =>
    ¬ RefWrite rest ∧
    (SideWrite method rest ∨ method = "POST" ∧ rest = ["pulls"] ∨
     method = "PATCH" ∧ (∃ n, rest = ["pulls"; n]) ∧ edits_text_only body)
  | _ => DraftWrite p original body method rest
  end.

Lemma branch_verdict_allow p gate name : branch_verdict p gate name = RAllow → writable p name.
Proof. destruct (branch_verdict_cases p gate name) as [[_ ?]|[[r ->] _]]; done. Qed.

Lemma no_push_rest_refuses method rest :
  RefWrite rest → ∃ reason, no_push_rest NoPush method rest = RRefuse reason.
Proof. intros Hw. destruct Hw; cbn; by eexists. Qed.

Lemma str_in_spec x l : str_in x l = true → x ∈ l.
Proof. intros (y & Hy & ->%String.eqb_eq)%existsb_exists. by apply list_elem_of_In. Qed.

(** The path behind a pattern, segment by segment. *)
Ltac path_inv :=
  repeat match goal with
  | H : path_is _ _ = true |- _ => progress cbn [path_is] in H
  | H : match ?r with [] => _ | _ => _ end = true |- _ => destruct r; try discriminate H
  | H : true = true |- _ => clear H
  | H : (_ && _)%bool = true |- _ => apply andb_prop in H as [? H]
  | H : (_ ==s _) = true |- _ => apply String.eqb_eq in H; subst
  | H : str_in _ _ = true |- _ => apply str_in_spec in H
  | H : _ ∈ [_] |- _ => apply list_elem_of_singleton in H; subst
  end.

Lemma allow_list_side method rest :
  existsb (λ e, str_in method e.1 && path_is e.2 rest) WRITE_ALLOW_LIST = true → SideWrite method rest.
Proof.
  intros (e & He & Hm)%existsb_exists. apply list_elem_of_In in He.
  unfold WRITE_ALLOW_LIST in He. apply andb_prop in Hm as [Hm Hp].
  repeat (apply elem_of_cons in He as [-> |He]; [cbn [fst snd] in *; path_inv; by econstructor|]).
  by apply elem_of_nil in He.
Qed.

(** A request passes on its head, or on its body when that is asked for. *)
Definition passes (p : GatePolicy) (gate : HumanGate) (method : string) (rest : list string)
    (body : string) (verdict : Review) : Prop :=
  verdict = RAllow ∨
  verdict = RNeedBody ∧ ∃ json, json_from_str body = Some json ∧ rest_body p gate method rest json = RAllow.

Lemma refuse_not_passes p gate method rest body g why : ¬ passes p gate method rest body (refuse g why).
Proof. by intros [|[? _]]. Qed.

Lemma edit_body p gate n body json :
  json_from_str body = Some json → rest_body p gate "PATCH" ["pulls"; n] json = RAllow → edits_text_only body.
Proof.
  intros Hj Hb. unfold rest_body in Hb. cbn -[only_keys] in Hb. destruct (only_keys _ _) eqn:E; [|done].
  unfold only_keys in E. destruct (as_object json) as [o|] eqn:Eo; [|done]. exists json, o. split_and!; [done..|].
  intros k v Hin. rewrite forallb_forall in E. specialize (E (k, v) (proj1 (list_elem_of_In _ _) Hin)).
  apply str_in_spec in E. cbn in E. rewrite !elem_of_cons, elem_of_nil in E. naive_solver.
Qed.

Lemma allowed_write_passes p gate method rest body :
  passes p gate method rest body (allowed_write gate method rest) →
  SideWrite method rest ∨ method = "PATCH" ∧ (∃ n, rest = ["pulls"; n]) ∧ edits_text_only body.
Proof.
  unfold allowed_write. destruct ((method ==s "PATCH") && path_is _ rest) eqn:E.
  - path_inv. intros [|[_ (json & Hj & Hb)]]; [done|]. right. split_and!; [done|by eexists|by eapply edit_body].
  - destruct (existsb _ _) eqn:Ex; [left; by apply allow_list_side|]. by intros ?%refuse_not_passes.
Qed.

Lemma named_branch_allow p gate field json body :
  json_from_str body = Some json → named_branch p gate (get_str field json) = RAllow →
  body_names_writable p field body.
Proof.
  intros Hj. unfold named_branch. destruct (get_str field json) as [b|] eqn:Eb; [|done].
  intros Hb%branch_verdict_allow. by exists json, b.
Qed.

Lemma no_push_rest_ok p method rest original body :
  passes p NoPush method rest body (no_push_rest NoPush method rest) →
  rest_write_ok p NoPush method rest original body.
Proof.
  intros Hv. split.
  { intros Hrw. destruct (no_push_rest_refuses method rest Hrw) as [r Hr]. rewrite Hr in Hv.
    by destruct Hv as [|[? _]]. }
  revert Hv. unfold no_push_rest.
  repeat (match goal with |- context [if ?b then refuse _ _ else _] => destruct b end;
          [by intros ?%refuse_not_passes|]).
  destruct (path_is [L "pulls"] rest && (method ==s "POST")) eqn:E; [path_inv; auto|].
  intros [?|?]%allowed_write_passes; auto.
Qed.

Lemma new_ref_body p json body :
  json_from_str body = Some json → rest_body p DraftPrOnly "POST" ["git"; "refs"] json = RAllow →
  ∃ b, get_str "ref" json = Some ("refs/heads/" ++s b) ∧ writable p b.
Proof.
  intros Hj Hb. unfold rest_body in Hb. cbn -[strip_prefix] in Hb.
  destruct (get_str "ref" json) as [r|] eqn:Er; [|done]. cbn [mbind option_bind] in Hb.
  destruct (strip_prefix "refs/heads/" r) as [b|] eqn:Es; [|done].
  apply strip_prefix_spec in Es as ->. apply branch_verdict_allow in Hb. eauto.
Qed.

Lemma draft_rest_ok p method rest original body :
  passes p DraftPrOnly method rest body (draft_rest p DraftPrOnly method rest original) →
  rest_write_ok p DraftPrOnly method rest original body.
Proof.
  unfold rest_write_ok, draft_rest. destruct (_ || _); [by intros ?%refuse_not_passes|].
  destruct (_ && (method ==s "POST")) eqn:E1.
  { apply andb_prop in E1 as [E1 Hm%String.eqb_eq]. subst method.
    intros [|[_ (json & Hj & Hb)]]; [done|]. apply orb_prop in E1 as [E1|E1]; path_inv.
    - destruct (new_ref_body p json body Hj Hb) as (b & H1 & H2). by eapply dw_new_ref.
    - unfold rest_body in Hb. cbn -[is_json_true] in Hb. destruct (is_json_true _) eqn:Ed; [|done].
      eapply dw_draft; [done|]. unfold is_json_true in Ed.
      by destruct (jget "draft" json) as [[]|]; simplify_eq; repeat case_match; simplify_eq. }
  destruct (path_is [L "git"; L "refs"; L "heads"; W; Dots] rest) eqn:E2.
  { intros [Hv%branch_verdict_allow|[Hv _]].
    - path_inv. by apply dw_ref.
    - by destruct (branch_verdict_cases p DraftPrOnly (join "/" (drop 3 original))) as [[? _]|[[r ?] _]];
        congruence. }
  destruct (path_is [L "git"; L "refs"; Dots] rest) eqn:E3; [by intros ?%refuse_not_passes|].
  destruct (path_is [L "contents"; Dots] rest || _) eqn:E4.
  { intros [|[_ (json & Hj & Hb)]]; [done|]. apply orb_prop in E4 as [E4|E4].
    - path_inv. apply dw_contents. unfold rest_body in Hb. cbn in Hb. by eapply named_branch_allow.
    - path_inv. match goal with H : _ ∈ _ |- _ => rewrite !elem_of_cons, elem_of_nil in H;
        destruct H as [-> |[-> |[]]] end; unfold rest_body in Hb; cbn in Hb;
        [apply dw_merges|apply dw_upstream]; by eapply named_branch_allow. }
  destruct (path_is [L "pulls"; W; L "merge"] rest); [by intros ?%refuse_not_passes|].
  destruct (_ && (method ==s "PUT")) eqn:E5; [intros _; path_inv; apply dw_update|].
  repeat (match goal with |- context [if ?b then refuse _ _ else _] => destruct b end;
          [by intros ?%refuse_not_passes|]).
  intros [?|(-> & [n ->] & ?)]%allowed_write_passes; [by apply dw_side|by apply dw_edit].
Qed.


(** When a connection is refused before any byte: always under a gate value
    that does not parse, and under an enforced gate exactly for a GitHub host
    whose traffic the proxy does not terminate. *)
Theorem refuse_connection_iff p host intercepted :
  is_Some (refuse_connection p host intercepted) ↔
    gp_gate p = GUnparseable ∨
    (gp_gate p = GDeclared NoPush ∨ gp_gate p = GDeclared DraftPrOnly) ∧
    intercepted = false ∧ ∃ h, h ∈ POLICED_HOSTS ∧ eq_ignore_ascii_case h host = true.
Proof.
  assert (Hp : is_policed host = true ↔ ∃ h, h ∈ POLICED_HOSTS ∧ eq_ignore_ascii_case h host = true).
  { unfold is_policed. rewrite existsb_exists. by setoid_rewrite list_elem_of_In. }
  rewrite <-Hp. clear Hp. unfold refuse_connection, enforced. generalize (is_policed host) as b.
  intros b. rewrite <-not_eq_None_Some.
  destruct (gp_gate p) as [|[| |]|], intercepted, b; cbn [mbind option_bind andb negb]; naive_solver.
Qed.
End body.

(** ** Command lists as git writes them *)

Definition hex_digit (n : N) : ascii :=
  if (n <? 10)%N then ascii_of_N (48 + n) else ascii_of_N (87 + n).

Definition hex4 (n : N) : string :=
  String (hex_digit (n / 4096)) (String (hex_digit ((n / 256) mod 16))
    (String (hex_digit ((n / 16) mod 16)) (String (hex_digit (n mod 16)) ""))).

Definition pkt_line (payload : string) : string := hex4 (blen payload + 4) ++s payload.

(** A ref update: the old and the new object id, the ref, and what the client
    appends after a NUL byte on the first command. *)
Record Command := mkCommand {
  cmd_old : string; cmd_new : string; cmd_ref : string; cmd_caps : option string }.

Definition command_line (c : Command) : string :=
  cmd_old c ++s String " " (cmd_new c ++s String " " (cmd_ref c)).

Definition command_payload (c : Command) : string :=
  command_line c ++s match cmd_caps c with Some caps => String zero caps | None => "" end.

Definition ref_char (c : ascii) : bool :=
  negb (Ascii.eqb " " c) && negb (Ascii.eqb zero c) && negb (Ascii.eqb newline c).

Definition command_ok (c : Command) : Prop :=
  is_oid (cmd_old c) = true ∧ is_oid (cmd_new c) = true ∧ utf8_valid (cmd_ref c) = true ∧
  all_chars ref_char (cmd_ref c) = true ∧ (blen (command_payload c) + 4 < 65536)%N.

Definition encode_push (cmds : list Command) (pack : string) : string :=
  foldr (λ c s, pkt_line (command_payload c) ++s s) ("0000" ++s pack) cmds.

Lemma hex_digit_spec n :
  (n < 16)%N →
  is_ascii_hexdigit (hex_digit n) = true ∧ hex_val (hex_digit n) = n ∧
  in_range 0 127 (hex_digit n) = true ∧ hex_digit n ≠ "+"%char.
Proof.
  intros Hn. assert (n ∈ N.of_nat <$> seq 0 16) as Hin.
  { apply list_elem_of_fmap. exists (N.to_nat n). rewrite elem_of_seq. lia. }
  clear Hn. revert n Hin. apply Forall_forall. cbn. repeat constructor; by vm_compute.
Qed.

Lemma ascii_prefix_valid (a b : string) :
  all_chars (in_range 0 127) a = true → utf8_valid (a ++s b) = utf8_valid b.
Proof.
  induction a as [|c a IH]; cbn [all_chars String.append]; [done|].
  intros [Hc Ha]%andb_true_iff. rewrite <-(IH Ha). unfold utf8_valid at 1.
  cbn [String.length utf8_valid_go]. unfold utf8_step. by rewrite Hc.
Qed.

Lemma hex4_value n : (n < 65536)%N →
  utf8_valid (hex4 n) = true ∧ from_str_radix16 usize_max (hex4 n) = Some n.
Proof.
  intros Hn.
  assert (Hd : ∀ m, (m < 16)%N → is_ascii_hexdigit (hex_digit m) = true ∧ hex_val (hex_digit m) = m ∧
    in_range 0 127 (hex_digit m) = true ∧ hex_digit m ≠ "+"%char) by (intros; by apply hex_digit_spec).
  assert (n / 4096 < 16)%N by (apply N.Div0.div_lt_upper_bound; lia).
  destruct (Hd (n / 4096)%N) as (A1 & A2 & A3 & A4); [done|].
  destruct (Hd ((n / 256) mod 16)%N) as (B1 & B2 & B3 & _); [apply N.mod_lt; lia|].
  destruct (Hd ((n / 16) mod 16)%N) as (C1 & C2 & C3 & _); [apply N.mod_lt; lia|].
  destruct (Hd (n mod 16)%N) as (D1 & D2 & D3 & _); [apply N.mod_lt; lia|].
  unfold hex4. split.
  - rewrite <-(app_nil_s (String _ _)), ascii_prefix_valid; [done|]. cbn. by rewrite A3, B3, C3, D3.
  - unfold from_str_radix16.
    assert (strip_prefix "+" (hex4 n) = None) as Hplus.
    { destruct (strip_prefix "+" (hex4 n)) as [y|] eqn:E; [|done]. apply strip_prefix_spec in E.
      unfold hex4 in E. cbn [String.append] in E. by injection E. }
    unfold hex4 in Hplus. rewrite Hplus. cbn [default].
    cbn [is_empty String.eqb negb andb all_chars]. rewrite A1, B1, C1, D1.
    cbn [andb hex_value]. rewrite A2, B2, C2, D2.
    assert (16 * (16 * (16 * (16 * 0 + n / 4096) + (n / 256) mod 16) + (n / 16) mod 16) + n mod 16 = n)%N as ->.
    { replace 4096%N with (16 * 16 * 16)%N by done. replace 256%N with (16 * 16)%N by done.
      rewrite <-!N.Div0.div_div.
      pose proof (N.div_mod n 16 ltac:(done)). pose proof (N.div_mod (n / 16) 16 ltac:(done)).
      pose proof (N.div_mod (n / 16 / 16) 16 ltac:(done)). lia. }
    rewrite (proj2 (N.leb_le _ _)); [done|]. unfold usize_max, u64_max. lia.
Qed.

Lemma hexdigit_plain c : is_ascii_hexdigit c = true →
  ref_char c = true ∧ in_range 0 127 c = true ∧ Ascii.eqb "s" c = false.
Proof. destruct c as [[] [] [] [] [] [] [] []]; vm_compute; try done; by split_and!. Qed.

Lemma oid_plain s : is_oid s = true →
  all_chars ref_char s = true ∧ all_chars (in_range 0 127) s = true ∧
  ∃ c r, s = String c r ∧ Ascii.eqb "s" c = false.
Proof.
  unfold is_oid. intros [Hlen Hhex]%andb_true_iff. split_and!.
  - eapply all_chars_impl; [|done]. intros c Hc. by apply hexdigit_plain.
  - eapply all_chars_impl; [|done]. intros c Hc. by apply hexdigit_plain.
  - destruct s as [|c r]; [done|]. exists c, r. split; [done|].
    cbn in Hhex. apply andb_true_iff in Hhex as [Hc _]. by apply hexdigit_plain.
Qed.

Lemma ref_char_no p s :
  (∀ c, ref_char c = true → p c = false) → all_chars ref_char s = true →
  all_chars (λ c, negb (p c)) s = true.
Proof. intros Hp. apply all_chars_impl. intros c Hc. by rewrite Hp. Qed.

Lemma ref_char_excludes c : ref_char c = true →
  Ascii.eqb " " c = false ∧ Ascii.eqb zero c = false ∧ Ascii.eqb newline c = false.
Proof. unfold ref_char. intros [[?%negb_true_iff ?%negb_true_iff]%andb_true_iff ?%negb_true_iff]%andb_true_iff. done. Qed.

Lemma pkt_command_exact c : command_ok c → pkt_command (command_payload c) = Some [cmd_ref c].
Proof.
  intros (Ho & Hn & Hutf & Href & _).
  destruct (oid_plain _ Ho) as (Ho1 & Ho2 & ch & r & Eo & Hs).
  destruct (oid_plain _ Hn) as (Hn1 & Hn2 & _).
  assert (Hsp : ∀ s, all_chars ref_char s = true → all_chars (λ x, negb (Ascii.eqb " " x)) s = true).
  { intros s. apply ref_char_no. intros x Hx. by apply ref_char_excludes. }
  assert (Hline : ∀ p, p " "%char = false → (∀ x, ref_char x = true → p x = false) →
    all_chars (λ x, negb (p x)) (command_line c) = true).
  { intros p Hb Hp. unfold command_line. rewrite all_chars_app. cbn. rewrite all_chars_app. cbn.
    rewrite Hb, !(ref_char_no p) by done. done. }
  assert (hd "" (split_char zero (command_payload c)) = command_line c) as Ehd.
  { assert (Hz : all_chars (λ x, negb (Ascii.eqb zero x)) (command_line c) = true).
    { apply Hline; [done|]. intros x Hx. by apply ref_char_excludes. }
    unfold command_payload, split_char. destruct (cmd_caps c) as [caps|].
    - by rewrite split_app.
    - by rewrite app_nil_s, split_none. }
  unfold pkt_command. rewrite Ehd.
  destruct (strip_suffix nl (command_line c)) as [y|] eqn:Es.
  { exfalso. apply strip_suffix_sound in Es.
    assert (Hnl : all_chars (λ x, negb (Ascii.eqb newline x)) (command_line c) = true).
    { apply Hline; [done|]. intros x Hx. by apply ref_char_excludes. }
    rewrite Es, all_chars_app in Hnl. cbn in Hnl. by rewrite andb_false_r in Hnl. }
  cbn [default]. unfold command_line at 1.
  rewrite ascii_prefix_valid by done.
  assert (Hu : ∀ s, utf8_valid (String " " s) = utf8_valid s)
    by (intros s; by apply (ascii_prefix_valid " ")).
  rewrite Hu, ascii_prefix_valid, Hu, Hutf by done. cbn [negb].
  assert (starts_with "shallow " (command_line c) = false) as ->.
  { unfold command_line. rewrite Eo. cbn [String.append starts_with]. by rewrite Hs. }
  unfold command_line, split_char. rewrite split_app, split_app, split_none by auto.
  by rewrite Ho, Hn.
Qed.

Lemma encode_push_scan cmds pack fuel refs :
  Forall command_ok cmds → (String.length (encode_push cmds pack) < fuel)%nat →
  push_refs_from fuel refs (encode_push cmds pack) = PRefs (refs ++ (cmd_ref <$> cmds)).
Proof.
  intros Hok. revert fuel refs. induction Hok as [|c cmds Hc _ IH]; intros fuel refs Hf.
  - destruct fuel as [|fuel]; [lia|]. cbn. by rewrite app_nil_r.
  - destruct fuel as [|fuel]; [lia|]. cbn [encode_push foldr] in *.
    change (foldr _ _ cmds) with (encode_push cmds pack) in *.
    unfold pkt_line in *. set (n := (blen (command_payload c) + 4)%N) in *.
    destruct Hc as (H1 & H2 & H3 & H4 & H5). destruct (hex4_value n H5) as [Hu Hv].
    rewrite app_assoc_s in *. rewrite !length_app_s in Hf. cbn [push_refs_from].
    rewrite (proj2 (Nat.ltb_ge _ _)) by (rewrite length_app_s; cbn; lia).
    rewrite stake_app, sdrop_app by (cbn; lia). rewrite (stake_ge 4), (sdrop_ge 4) by (cbn; lia).
    rewrite Hu, Hv. rewrite (proj2 (N.eqb_neq _ _)) by lia. rewrite (proj2 (N.ltb_ge n 4)) by lia.
    rewrite (proj2 (N.ltb_ge _ _)) by (rewrite !blen_app; change (blen (hex4 n)) with 4%N; lia).
    cbn [String.append]. replace (n - 4)%N with (blen (command_payload c)) by lia.
    rewrite btake_app by lia. rewrite btake_ge by lia.
    rewrite pkt_command_exact by done.
    rewrite <-app_assoc_s, bdrop_app by (rewrite blen_app; change (blen (hex4 n)) with 4%N; lia).
    rewrite bdrop_ge by (rewrite blen_app; change (blen (hex4 n)) with 4%N; lia). cbn [String.append].
    rewrite IH by (cbn in Hf; lia). cbn. by rewrite <-app_assoc.
Qed.

(** The command list is read the way git writes it: for any list of ref
    updates, framed as pkt-lines and followed by a flush packet and any pack
    data, the scan returns exactly the updated refs, in order. *)
Theorem push_refs_roundtrip cmds pack :
  Forall command_ok cmds → push_refs (encode_push cmds pack) = PRefs (cmd_ref <$> cmds).
Proof. intros Hok. apply (encode_push_scan cmds pack _ []); [done|lia]. Qed.

(** ** GraphQL mutations *)

(** What stands between a pair of parentheses. *)
Inductive Args : list Tok → Prop :=
| args_nil : Args []
| args_tok t l : t ≠ TPunct "(" → t ≠ TPunct ")" → Args l → Args (t :: l)
| args_group a l : Args a → Args l → Args (TPunct "(" :: a ++ TPunct ")" :: l).

Definition structural (t : Tok) : Prop :=
  t = TPunct "(" ∨ t = TPunct ")" ∨ t = TPunct "{" ∨ t = TPunct "}".

(** What stands between a pair of braces below the top selection. *)
Inductive Sub : list Tok → Prop :=
| sub_nil : Sub []
| sub_tok t l : ¬ structural t → Sub l → Sub (t :: l)
| sub_args a l : Args a → Sub l → Sub (TPunct "(" :: a ++ TPunct ")" :: l)
| sub_sel b l : Sub b → Sub l → Sub (TPunct "{" :: b ++ TPunct "}" :: l).

Definition parens (o : option (list Tok)) : list Tok :=
  match o with Some a => TPunct "(" :: a ++ [TPunct ")"] | None => [] end.
Definition braces (o : option (list Tok)) : list Tok :=
  match o with Some b => TPunct "{" :: b ++ [TPunct "}"] | None => [] end.

(** A field of the top selection: alias, name, arguments, directives with
    theirs, and subselection. *)
Record Fld := mkFld {
  f_alias : option string; f_name : string; f_args : option (list Tok);
  f_dirs : list (string * option (list Tok)); f_sub : option (list Tok) }.

Definition dir_toks (d : string * option (list Tok)) : list Tok :=
  TPunct "@" :: TName d.1 :: parens d.2.

Definition fld_tail (f : Fld) : list Tok := parens (f_args f) ++ (f_dirs f ≫= dir_toks) ++ braces (f_sub f).

Definition fld_toks (f : Fld) : list Tok :=
  match f_alias f with Some a => [TName a; TPunct ":"] | None => [] end ++
  TName (f_name f) :: fld_tail f.

Definition fld_ok (f : Fld) : Prop :=
  (∀ a, f_args f = Some a → Args a) ∧ (∀ b, f_sub f = Some b → Sub b) ∧
  Forall (λ d, ∀ a, d.2 = Some a → Args a) (f_dirs f).

(** An operation definition: [mutation name (vars) { fields }]. *)
Definition mutation_doc (name : option string) (vars : option (list Tok)) (flds : list Fld) :
    list Tok :=
  TName "mutation" :: (match name with Some n => [TName n] | None => [] end) ++ parens vars ++
  TPunct "{" :: (flds ≫= fld_toks) ++ [TPunct "}"].

Lemma bind_cons {A B} (g : A → list B) x l : (x :: l) ≫= g = g x ++ (l ≫= g).
Proof. reflexivity. Qed.

Definition no_at (l : list Tok) : Prop := last l ≠ Some (TPunct "@").

Lemma no_at_app a b : no_at a → no_at b → no_at (a ++ b).
Proof. unfold no_at. rewrite last_app. by destruct (last b). Qed.

Lemma no_at_group o c t : c ≠ "@"%char → no_at (t :: o ++ [TPunct c]).
Proof. intros Hc. unfold no_at. rewrite app_comm_cons, last_snoc. congruence. Qed.

Lemma parens_no_at o : no_at (parens o).
Proof. destruct o; [by apply no_at_group|done]. Qed.

Lemma fld_no_at fld : no_at (fld_toks fld).
Proof.
  unfold fld_toks, fld_tail. apply no_at_app; [by destruct (f_alias fld)|].
  apply (no_at_app [TName _]); [done|]. apply no_at_app; [apply parens_no_at|].
  apply no_at_app; [|destruct (f_sub fld); [by apply no_at_group|done]].
  induction (f_dirs fld) as [|d dirs IH]; [done|]. rewrite bind_cons. apply no_at_app; [|done].
  apply (no_at_app [TPunct "@"; TName d.1]); [done|]. apply parens_no_at.
Qed.

Section scan.
Context (tokens : list Tok).

Lemma scan_toks_app i l1 l2 s :
  scan_toks tokens i (l1 ++ l2) s =
  scan_toks tokens i l1 s ≫= scan_toks tokens (i + List.length l1) l2.
Proof.
  revert i s. induction l1 as [|t l1 IH]; intros i s; cbn; [by rewrite Nat.add_0_r|].
  destruct (scan_tok tokens i t s); cbn; [|done]. rewrite IH. by rewrite Nat.add_succ_r.
Qed.

Lemma scan_args a : Args a → ∀ i d n p m f,
  scan_toks tokens i a (mkScan d (S n) p m f) = Some (mkScan d (S n) p m f).
Proof.
  induction 1 as [|t l Ht1 Ht2 _ IH|a l _ IHa _ IHl]; intros i d n p m f; [done| |].
  - cbn. destruct (decide (t = TPunct "(")); [done|]. destruct (decide (t = TPunct ")")); [done|].
    cbn. apply IH.
  - cbn [scan_toks scan_tok]. rewrite decide_True by done. cbn [mbind option_bind].
    rewrite scan_toks_app, IHa. cbn. apply IHl.
Qed.

Lemma scan_parens o i d p m f :
  (∀ a, o = Some a → Args a) →
  scan_toks tokens i (parens o) (mkScan d 0 p m f) = Some (mkScan d 0 p m f).
Proof.
  destruct o as [a|]; [|done]. intros Ha. cbn [parens scan_toks scan_tok].
  rewrite decide_True by done. cbn [mbind option_bind].
  rewrite scan_toks_app, scan_args by auto. done.
Qed.

Lemma scan_open i d p m f :
  scan_tok tokens i (TPunct "{") (mkScan (S d) 0 p m f) = Some (mkScan (S (S d)) 0 p m f).
Proof. reflexivity. Qed.

Lemma scan_close i d p m f :
  scan_tok tokens i (TPunct "}") (mkScan (S d) 0 p m f) = Some (mkScan d 0 p m f).
Proof. reflexivity. Qed.

Lemma scan_sub b : Sub b → ∀ i d p m f,
  scan_toks tokens i b (mkScan (S (S d)) 0 p m f) = Some (mkScan (S (S d)) 0 p m f).
Proof.
  induction 1 as [|t l Ht _ IH|a l Ha _ IH|b l _ IHb _ IHl]; intros i d p m f; [done| | |].
  - cbn [scan_toks]. unfold scan_tok, structural in *.
    repeat (rewrite decide_False by tauto). cbn [Nat.ltb Nat.leb Nat.eqb].
    rewrite !andb_false_r. cbn [andb]. destruct t; apply IH.
  - change (TPunct "(" :: a ++ TPunct ")" :: l) with (TPunct "(" :: a ++ [TPunct ")"] ++ l).
    rewrite app_assoc. change (TPunct "(" :: (a ++ [TPunct ")"]) ++ l) with (parens (Some a) ++ l).
    rewrite scan_toks_app, scan_parens by (by intros ? [= <-]). apply IH.
  - cbn [scan_toks]. rewrite scan_open. cbn [mbind option_bind]. rewrite scan_toks_app, IHb.
    cbn [mbind option_bind scan_toks]. rewrite scan_close. apply IHl.
Qed.

Lemma scan_braces o i d p m f :
  (∀ b, o = Some b → Sub b) →
  scan_toks tokens i (braces o) (mkScan (S d) 0 p m f) = Some (mkScan (S d) 0 p m f).
Proof.
  destruct o as [b|]; [|done]. intros Hb. cbn [braces scan_toks]. rewrite scan_open.
  cbn [mbind option_bind]. rewrite scan_toks_app, scan_sub by auto. done.
Qed.

(** A name of the top selection. *)
Lemma scan_name i n p f :
  scan_tok tokens i (TName n) (mkScan 1 0 p true f) =
  if negb ((0 <? i)%nat && is_tok (TPunct "@") (tokens !! (i - 1)%nat)) &&
     negb (is_tok (TPunct ":") (tokens !! S i))
  then Some (mkScan 1 0 p true (f ++ [i])) else Some (mkScan 1 0 p true f).
Proof.
  unfold scan_tok. repeat (rewrite decide_False by done).
  change (0 <? 0)%nat with false. change (1 =? 0)%nat with false. change (1 =? 1)%nat with true.
  rewrite !andb_false_r. done.
Qed.

(** One that is an alias or a directive changes nothing. *)
Lemma scan_skip_name i n p f :
  is_tok (TPunct "@") (tokens !! (i - 1)%nat) = true ∧ (0 < i)%nat ∨
    is_tok (TPunct ":") (tokens !! S i) = true →
  scan_tok tokens i (TName n) (mkScan 1 0 p true f) = Some (mkScan 1 0 p true f).
Proof.
  intros Hs. rewrite scan_name. destruct Hs as [[-> ?]| ->]; [|by rewrite andb_false_r].
  by rewrite (proj2 (Nat.ltb_lt _ _)) by done.
Qed.

Lemma scan_dir d i pre post p f :
  (∀ a, d.2 = Some a → Args a) → tokens = pre ++ dir_toks d ++ post → i = List.length pre →
  scan_toks tokens i (dir_toks d) (mkScan 1 0 p true f) = Some (mkScan 1 0 p true f).
Proof.
  intros Ha Ht ->. unfold dir_toks in *. cbn [scan_toks].
  change (scan_tok tokens (List.length pre) (TPunct "@") (mkScan 1 0 p true f))
    with (Some (mkScan 1 0 p true f)). cbn [mbind option_bind].
  rewrite scan_skip_name; [by apply scan_parens|].
  left. split; [|lia]. replace (S (List.length pre) - 1)%nat with (List.length pre) by lia.
  rewrite Ht. cbn [app]. by rewrite list_lookup_middle.
Qed.

Lemma scan_dirs dirs : Forall (λ d : string * option (list Tok), ∀ a, d.2 = Some a → Args a) dirs →
  ∀ i pre post p f, tokens = pre ++ (dirs ≫= dir_toks) ++ post → i = List.length pre →
  scan_toks tokens i (dirs ≫= dir_toks) (mkScan 1 0 p true f) = Some (mkScan 1 0 p true f).
Proof.
  induction 1 as [|d dirs Ha _ IH]; intros i pre post p f Ht ->; [done|].
  rewrite bind_cons in *. rewrite scan_toks_app.
  rewrite (scan_dir d _ pre ((dirs ≫= dir_toks) ++ post)) by (done || by rewrite Ht, <-app_assoc).
  cbn [mbind option_bind]. apply (IH _ (pre ++ dir_toks d) post).
  - by rewrite Ht, <-!app_assoc.
  - by rewrite length_app.
Qed.

(** A field of the top selection is recorded at its name. *)
Lemma scan_fld fld i pre post p f :
  fld_ok fld → tokens = pre ++ fld_toks fld ++ post → i = List.length pre →
  last pre ≠ Some (TPunct "@") → head post ≠ Some (TPunct ":") →
  ∃ j, scan_toks tokens i (fld_toks fld) (mkScan 1 0 p true f) = Some (mkScan 1 0 p true (f ++ [j])) ∧
    tokens !! j = Some (TName (f_name fld)).
Proof.
  intros (Hargs & Hsub & Hdirs) Ht -> Hlast Hhead.
  set (al := match f_alias fld with Some a => [TName a; TPunct ":"] | None => [] end).
  assert (Hal : scan_toks tokens (List.length pre) al (mkScan 1 0 p true f) =
    Some (mkScan 1 0 p true f)).
  { subst al. unfold fld_toks in Ht. destruct (f_alias fld) as [a|]; [|done]. cbn [scan_toks].
    rewrite scan_skip_name; [done|]. right. rewrite Ht. cbn [app].
    change (TName a :: ?x) with ([TName a] ++ x). rewrite app_assoc.
    rewrite lookup_app_r by (rewrite length_app; cbn; lia). rewrite length_app. cbn.
    by replace (S (List.length pre) - (List.length pre + 1))%nat with 0%nat by lia. }
  unfold fld_toks in *. fold al in Ht |- *. rewrite <-app_assoc in Ht. cbn [app] in Ht.
  exists (List.length pre + List.length al)%nat. split.
  2:{ rewrite Ht, app_assoc, list_lookup_middle; [done|]. by rewrite length_app. }
  rewrite scan_toks_app, Hal. cbn [mbind option_bind scan_toks]. rewrite scan_name.
  assert (is_tok (TPunct ":") (tokens !! S (List.length pre + List.length al)) = false) as ->.
  { apply bool_decide_eq_false. rewrite Ht, app_assoc, cons_middle, app_assoc.
    rewrite lookup_app_r by (rewrite !length_app; cbn; lia). rewrite !length_app.
    replace (S _ - _)%nat with 0%nat by (cbn; lia). unfold fld_tail.
    destruct (f_args fld), (f_dirs fld), (f_sub fld); try done.
    cbn. by destruct post. }
  assert (is_tok (TPunct "@") (tokens !! (List.length pre + List.length al - 1)%nat) &&
    (0 <? List.length pre + List.length al)%nat = false) as Hat.
  { apply andb_false_iff. destruct (f_alias fld) as [a|]; subst al; cbn [List.length] in *.
    - left. apply bool_decide_eq_false. rewrite Ht, lookup_app_r by lia.
      by replace (List.length pre + 2 - 1 - List.length pre)%nat with 1%nat by lia.
    - destruct pre as [|t pre]; [by right|]. left. apply bool_decide_eq_false.
      rewrite Ht, lookup_app_l by (cbn; lia). rewrite Nat.add_0_r.
      replace (List.length (t :: pre) - 1)%nat with (pred (List.length (t :: pre))) by (cbn; lia).
      by rewrite <-last_lookup. }
  rewrite andb_comm in Hat. rewrite Hat. cbn [negb andb mbind option_bind].
  unfold fld_tail. rewrite scan_toks_app, scan_parens by done. cbn [mbind option_bind].
  rewrite scan_toks_app.
  rewrite (scan_dirs (f_dirs fld) Hdirs _
    (pre ++ al ++ TName (f_name fld) :: parens (f_args fld)) (braces (f_sub fld) ++ post)).
  - by apply scan_braces.
  - rewrite Ht. unfold fld_tail. rewrite <-!app_assoc. cbn [app]. by rewrite <-?app_assoc.
  - rewrite !length_app. cbn. lia.
Qed.

Lemma scan_flds flds i pre p f :
  Forall fld_ok flds → tokens = pre ++ (flds ≫= fld_toks) ++ [TPunct "}"] → i = List.length pre →
  last pre ≠ Some (TPunct "@") →
  ∃ js, scan_toks tokens i (flds ≫= fld_toks) (mkScan 1 0 p true f) =
      Some (mkScan 1 0 p true (f ++ js)) ∧
    Forall2 (λ fld j, tokens !! j = Some (TName (f_name fld))) flds js.
Proof.
  intros Hok. revert i pre f. induction Hok as [|fld flds Hf _ IH]; intros i pre f Ht -> Hlast.
  { exists []. by rewrite app_nil_r. }
  rewrite bind_cons in *. rewrite <-app_assoc in Ht.
  destruct (scan_fld fld (List.length pre) pre ((flds ≫= fld_toks) ++ [TPunct "}"]) p f) as (j & Hj & Hn);
    [done..| |].
  { destruct flds as [|g flds]; [done|]. rewrite bind_cons. unfold fld_toks. by destruct (f_alias g). }
  rewrite scan_toks_app, Hj. cbn [mbind option_bind].
  destruct (IH (List.length (pre ++ fld_toks fld)) (pre ++ fld_toks fld) (f ++ [j])) as (js & Hjs & Hall).
  - by rewrite <-app_assoc.
  - reflexivity.
  - by apply no_at_app, fld_no_at.
  - exists (j :: js). rewrite length_app in Hjs. rewrite Hjs, <-app_assoc. split; [done|]. by constructor.
Qed.
End scan.

Lemma mutation_doc_fields name vars flds :
  (∀ n, name = Some n → n ∉ ["query"; "subscription"; "fragment"]) →
  (∀ a, vars = Some a → Args a) → Forall fld_ok flds →
  ∃ js, mutation_fields (mutation_doc name vars flds) = Some js ∧
    Forall2 (λ fld j, mutation_doc name vars flds !! j = Some (TName (f_name fld))) flds js.
Proof.
  intros Hname Hvars Hok. unfold mutation_fields. set (toks := mutation_doc name vars flds).
  set (hd := TName "mutation" :: (match name with Some n => [TName n] | None => [] end) ++ parens vars).
  assert (Ht : toks = (hd ++ [TPunct "{"]) ++ (flds ≫= fld_toks) ++ [TPunct "}"]).
  { subst toks hd. unfold mutation_doc. rewrite <-app_assoc. cbn [app]. by rewrite <-app_assoc. }
  assert (Hhd : scan_toks toks 0 hd (mkScan 0 0 false false []) = Some (mkScan 0 0 true false [])).
  { subst hd. cbn [scan_toks].
    change (scan_tok toks 0 (TName "mutation") (mkScan 0 0 false false []))
      with (Some (mkScan 0 0 true false [])). cbn [mbind option_bind]. rewrite scan_toks_app.
    assert (scan_toks toks 1 (match name with Some n => [TName n] | None => [] end)
      (mkScan 0 0 true false []) = Some (mkScan 0 0 true false [])) as ->.
    { destruct name as [n|]; [|done]. specialize (Hname n eq_refl). cbn [scan_toks].
      unfold scan_tok. repeat (rewrite decide_False by done).
      change (0 <? 0)%nat with false. change (0 =? 0)%nat with true. cbn [andb].
      destruct (bool_decide (TName n = TName "mutation")); [done|]. cbn [andb].
      rewrite !bool_decide_eq_false_2 by (intros [= ->]; apply Hname; set_solver).
      done. }
    cbn [mbind option_bind]. by apply scan_parens. }
  destruct (scan_flds toks flds (List.length (hd ++ [TPunct "{"])) (hd ++ [TPunct "{"]) false [])
    as (js & Hjs & Hall); [done..|by rewrite last_snoc|].
  exists js. split; [|done].
  assert (Hopen : scan_toks toks 0 (hd ++ [TPunct "{"]) (mkScan 0 0 false false []) =
    Some (mkScan 1 0 false true [])) by (by rewrite scan_toks_app, Hhd).
  assert (Hbody : scan_toks toks (List.length (hd ++ [TPunct "{"])) ((flds ≫= fld_toks) ++ [TPunct "}"])
    (mkScan 1 0 false true []) = Some (mkScan 0 0 false true js)) by (by rewrite scan_toks_app, Hjs).
  assert (Hscan : scan_toks toks 0 ((hd ++ [TPunct "{"]) ++ (flds ≫= fld_toks) ++ [TPunct "}"])
    (mkScan 0 0 false false []) = Some (mkScan 0 0 false true js)) by (by rewrite scan_toks_app, Hopen).
  rewrite <-Ht in Hscan. by rewrite Hscan.
Qed.

Lemma judge_fields_allow gate tokens json fields j name :
  judge_fields gate tokens json fields = RAllow → j ∈ fields → tokens !! j = Some (TName name) →
  ∃ after, mutation_verdict gate name after json = RAllow.
Proof.
  induction fields as [|i fields IH]; cbn [judge_fields]; [by intros _ ?%elem_of_nil|].
  intros Hj Hin Hn.
  destruct (mutation_verdict gate name (drop (S j) tokens) json) eqn:Ev; [by eexists|..].
  - apply elem_of_cons in Hin as [->|Hin]; [by rewrite Hn, Ev in Hj|]. apply IH; [|done..].
    repeat case_match; try done.
  - unfold mutation_verdict in Ev. exfalso. unfold refuse in Ev. by repeat case_match.
Qed.

(** A mutation the gates let a worker run. *)
Definition permitted_mutation (gate : HumanGate) (name : string) : Prop :=
  name ∈ ALLOWED_MUTATIONS ∧ (name ∈ REF_MUTATIONS → False) ∧
  (gate ≠ DraftPrOnly → name ≠ "updatePullRequestBranch") ∧
  (gate = DraftPrOnly → name ≠ "markPullRequestReadyForReview").

Lemma str_in_iff s l : str_in s l = true ↔ s ∈ l.
Proof.
  unfold str_in. rewrite existsb_exists. setoid_rewrite String.eqb_eq.
  setoid_rewrite <-list_elem_of_In. naive_solver.
Qed.

Lemma mutation_verdict_allow gate name after json :
  mutation_verdict gate name after json = RAllow → permitted_mutation gate name.
Proof.
  unfold mutation_verdict, permitted_mutation, refuse.
  destruct (str_in name REF_MUTATIONS) eqn:Er; [done|].
  destruct (negb (bool_decide (gate = DraftPrOnly)) && _) eqn:E1; [done|].
  destruct (bool_decide (gate = DraftPrOnly) && (name ==s "markPullRequestReadyForReview")) eqn:E2; [done|].
  cbn [orb]. intros Hv. assert (Ea : str_in name ALLOWED_MUTATIONS = true)
    by (destruct (str_in name ALLOWED_MUTATIONS); [done|]; by repeat case_match).
  clear Hv. split_and!.
  - by apply str_in_iff.
  - intros Hin%str_in_iff. by rewrite Hin in Er.
  - intros Hg ->. rewrite bool_decide_eq_false_2 in E1 by done. done.
  - intros -> ->. rewrite bool_decide_eq_true_2 in E2 by done. done.
Qed.

(** A GraphQL mutation that reaches the API under an enforced gate runs only
    mutations on the allow-list: for a document that is one mutation operation,
    with any variables, aliases, arguments, directives and subselections, every
    field of its top selection was judged and permitted, provided that the
    operation is not named by one of the keywords that start another kind of
    definition. *)
Theorem graphql_mutations_judged gate json query name vars flds :
  get_str "query" json = Some query →
  graphql_tokens query = Some (mutation_doc name vars flds) →
  (∀ n, name = Some n → n ∉ ["query"; "subscription"; "fragment"]) →
  (∀ a, vars = Some a → Args a) → Forall fld_ok flds →
  graphql_body gate json = RAllow → Forall (λ f, permitted_mutation gate (f_name f)) flds.
Proof.
  intros Hq Ht Hname Hvars Hok. unfold graphql_body. rewrite Hq, Ht.
  destruct (mutation_doc_fields name vars flds Hname Hvars Hok) as (js & -> & Hall).
  intros Hj. apply Forall_forall. intros f Hf.
  apply list_elem_of_lookup in Hf as [k Hk].
  destruct (Forall2_lookup_l _ _ _ _ _ Hall Hk) as (j & Hjk & Hn).
  destruct (judge_fields_allow gate _ json js j (f_name f) Hj) as [after Hv]; [|done|].
  - apply list_elem_of_lookup. by exists k.
  - by eapply mutation_verdict_allow.
Qed.

(** An operation named [query] escapes the review: the scan takes its name for
    the start of a query and judges none of its fields, so under [noPush] a
    document that deletes a branch is allowed, while the same document with any
    other operation name is refused. *)
Theorem keyword_named_mutation_escapes :
  let doc name := JObj [("query",
    JStr ("mutation " ++s (name ++s " { deleteRef(input: $i) { clientMutationId } }")))] in
  graphql_body NoPush (doc "query") = RAllow ∧
  graphql_body NoPush (doc "q") = RRefuse "human gate noPush refuses the `deleteRef` mutation".
Proof. split; vm_compute; reflexivity. Qed.

(** ** The lexer's fuel *)

Lemma skip_block_shorter n s r :
  (String.length s ≤ n)%nat → skip_block s = Some r → (String.length r < String.length s)%nat.
Proof.
  revert s r. induction n as [|n IH]; intros s r Hn; [by destruct s; cbn in *; [|lia]|].
  destruct s as [|a [|b [|c t]]]; try done. cbn [skip_block].
  destruct (_ && starts_with _ t).
  - destruct t as [|d t]; [done|]. intros Hs. apply IH in Hs; cbn in *; lia.
  - destruct (_ && _); [intros [= <-]; cbn; lia|].
    intros Hs. apply (IH (String b (String c t))) in Hs; cbn in *; lia.
Qed.

Lemma skip_line_shorter n s r :
  (String.length s ≤ n)%nat → skip_line s = Some r → (String.length r < String.length s)%nat.
Proof.
  revert s r. induction n as [|n IH]; intros s r Hn; [by destruct s; cbn in *; [|lia]|].
  destruct s as [|c t]; [done|]. cbn [skip_line]. destruct (Ascii.eqb c "\").
  - destruct t as [|d t]; [done|]. intros Hs. apply IH in Hs; cbn in *; lia.
  - destruct (is_dq c); [intros [= <-]; cbn; lia|]. destruct (Ascii.eqb c newline); [done|].
    intros Hs. apply IH in Hs; cbn in *; lia.
Qed.

Lemma skip_string_shorter s r :
  skip_string s = Some r → (String.length r < String.length s)%nat.
Proof.
  destruct s as [|a t]; [done|]. unfold skip_string.
  assert (Hline : skip_line t = Some r → (String.length r < String.length (String a t))%nat).
  { intros Hs. apply (skip_line_shorter (String.length t)) in Hs; cbn; lia. }
  destruct t as [|b [|c t]]; try done. destruct (is_dq b && is_dq c); [|done].
  intros Hs. apply (skip_block_shorter (String.length t)) in Hs; cbn; lia.
Qed.

Lemma span_chars_shorter p s : (String.length (span_chars p s).2 ≤ String.length s)%nat.
Proof.
  induction s as [|c s IH]; cbn; [lia|]. destruct (p c); [|done].
  destruct (span_chars p s) as [a b]. cbn in *. lia.
Qed.

(** The length of the text is enough fuel for the lexer: more changes nothing. *)
Lemma lex_fuel s n m :
  (String.length s ≤ n)%nat → (String.length s ≤ m)%nat → lex n s = lex m s.
Proof.
  revert s m. induction n as [|n IH]; intros s m Hn Hm; [by destruct s; [destruct m|cbn in *; lia]|].
  destruct s as [|c r]; [by destruct m|]. destruct m as [|m]; [cbn in *; lia|].
  cbn [String.length] in *. cbn [lex].
  assert (Hr : ∀ s', (String.length s' ≤ String.length r)%nat → lex n s' = lex m s')
    by (intros; apply IH; lia).
  destruct (_ || _); [by apply Hr|]. destruct (Ascii.eqb c "#"); [apply Hr, span_chars_shorter|].
  destruct (is_dq c).
  { destruct (skip_string (String c r)) as [s'|] eqn:Es; [|done]. cbn [mbind option_bind].
    apply skip_string_shorter in Es. cbn in Es. apply Hr. lia. }
  destruct (Ascii.eqb c "$").
  { pose proof (span_chars_shorter is_word_char r). destruct (span_chars is_word_char r) as [w r'].
    cbn in *. by rewrite Hr. }
  destruct (is_word_char c) eqn:Ew; [|by rewrite Hr].
  cbn [span_chars]. rewrite Ew. pose proof (span_chars_shorter is_word_char r).
  destruct (span_chars is_word_char r) as [w r']. cbn in *. by rewrite Hr.
Qed.

(** ** Witnesses *)

Definition draft_policy : GatePolicy := GatePolicy_new (GDeclared DraftPrOnly) ["release"].

Definition sample_oid : string := "1111111111111111111111111111111111111111".

Definition sample_push : string :=
  encode_push [mkCommand sample_oid sample_oid "refs/heads/feature" (Some " report-status")] "PACK".

Definition push_head : string :=
  "POST /o/r.git/git-receive-pack HTTP/1.1" ++s crlf ++s "Host: github.com" ++s crlf ++s
  "Content-Length: " ++s nat_to_string (String.length sample_push) ++s crlf ++s crlf.

Lemma push_refs_roundtrip_witness :
  Forall command_ok [mkCommand sample_oid sample_oid "refs/heads/feature" (Some " report-status")] ∧
  push_refs sample_push = PRefs ["refs/heads/feature"].
Proof.
  assert (Hok : Forall command_ok
    [mkCommand sample_oid sample_oid "refs/heads/feature" (Some " report-status")])
    by (repeat constructor; by vm_compute).
  split; [done|]. apply (push_refs_roundtrip _ "PACK" Hok).
Defined.

Lemma prefix_verdict_final_witness :
  let p := draft_policy in
  let raw := stake 124 sample_push in
  @review_body plain_json p "github.com" push_head sample_push true =
  @review_body plain_json p "github.com" push_head raw false.
Proof.
  cbv zeta.
  apply (proj1 (@prefix_verdict_final plain_json draft_policy "github.com" push_head
    (FLength (blen sample_push)) (stake 124 sample_push) (sdrop 124 sample_push)
    (stake 124 sample_push) false sample_push true
    ltac:(vm_compute; reflexivity) ltac:(vm_compute; reflexivity))).
  by vm_compute.
Defined.

Definition push_call : Call := default (mkCall "" "" [] []) (Call_parse push_head).

Lemma relayed_push_writable_witness :
  DraftPrOnly = DraftPrOnly ∧ c_method push_call = "POST" ∧
  ∃ refs, push_refs sample_push = PRefs refs ∧ Forall (writable_ref draft_policy) refs.
Proof.
  apply (@relayed_push_writable plain_json draft_policy "github.com" push_head ""
    [FBytes sample_push] "" DraftPrOnly push_call sample_push).
  - reflexivity.
  - apply list_elem_of_here.
  - vm_compute. reflexivity.
  - vm_compute. reflexivity.
  - vm_compute. reflexivity.
  - vm_compute. reflexivity.
Defined.

Definition issue_head : string :=
  "POST /repos/o/r/issues HTTP/1.1" ++s crlf ++s "Host: api.github.com" ++s crlf ++s crlf.

Definition issue_call : Call := default (mkCall "" "" [] []) (Call_parse issue_head).

Definition merge_body : string := "{base}".

Definition merge_head : string :=
  "POST /repos/o/r/merges HTTP/1.1" ++s crlf ++s "Host: api.github.com" ++s crlf ++s
  "Content-Length: 6" ++s crlf ++s crlf.

Definition merge_call : Call := default (mkCall "" "" [] []) (Call_parse merge_head).

(** A decoder that reads the one body of the example. *)
Definition merge_json : JsonText :=
  {| json_from_str s := if s ==s merge_body then Some (JObj [("base", JStr "wip")]) else None;
     json_to_string := @json_to_string plain_json |}.


Definition comment_query : string :=
  "mutation Add($i: X!) { c: addComment(input: $i) @skip(if: false) { id } }".

Definition comment_vars : list Tok := [TVar "i"; TPunct ":"; TName "X"; TPunct "!"].

Definition comment_field : Fld :=
  mkFld (Some "c") "addComment" (Some [TName "input"; TPunct ":"; TVar "i"])
    [("skip", Some [TName "if"; TPunct ":"; TName "false"])] (Some [TName "id"]).

Lemma graphql_mutations_judged_witness :
  Forall (λ f, permitted_mutation NoPush (f_name f)) [comment_field].
Proof.
  apply (graphql_mutations_judged NoPush (JObj [("query", JStr comment_query)]) comment_query
    (Some "Add") (Some comment_vars) [comment_field]).
  - reflexivity.
  - vm_compute. reflexivity.
  - intros n [= <-]. apply (bool_decide_unpack _). by vm_compute.
  - intros a [= <-]. repeat (apply args_tok; [done..|]). apply args_nil.
  - repeat constructor; cbn.
    + intros a [= <-]. repeat (apply args_tok; [done..|]). apply args_nil.
    + intros b [= <-]. apply sub_tok; [|apply sub_nil]. unfold structural. naive_solver.
    + intros a [= <-]. repeat (apply args_tok; [done..|]). apply args_nil.
  - vm_compute. reflexivity.
Defined.
