(* ===== verification/Exec.v ===== *)
(** * Exec interception ([cctui-guard/src/exec/argv.rs], [decide.rs], [notify.rs])

    An exec the kernel holds for the guard: its path and argv read out of the
    target's memory, the command strings judged for it, the bounded policy
    check, and the answer with the denial it records.  The memory of the target
    is the class [Memory]; the system calls around it are fields of [Probe]. *)

From stdpp Require Import base decidable list gmap strings.
From Stdlib Require Import Lia ZArith NArith Bool Ascii String.
From S2P Require Import Prelude RustStr Json Parser Ir Rules Matcher Capability DecisionLog Engine.
From S2P Require Import EngineFacts Server Http.

Definition MAX_PATH : N := 4096.
Definition MAX_ARGS : N := 65536.
Definition MAX_ARGV_BYTES : N := 4 * 1024 * 1024.
Definition MAX_DISPLAY : nat := 240.
Definition CHUNK : N := 4096.

(** ** Reading the target's memory *)

(** [Memory::read_at(addr, buf)] with a buffer of the given length: the bytes
    read, at most that many. *)
Class Memory := read_at : N → N → result string string.

Definition to_boundary (addr : N) : N := (CHUNK - addr mod CHUNK)%N.

Definition too_large (what : string) : string := what ++s " too large to inspect".
Definition UNEXPECTED_EOF : string := "unexpected end of file".

Definition u64_add (a b : N) : N := ((a + b) mod 2 ^ 64)%N.

(** Every turn reads at least a byte and stops past [max]. *)
Fixpoint read_cstring_from `{Memory} (fuel : nat) (max cursor : N) (out : string) :
    result string string :=
  match fuel with
  | O => Err (too_large "string")
  | S fuel =>
    let want := N.min (to_boundary cursor) (max + 1 - blen out) in
    bytes ← read_at cursor want;
    if is_empty bytes then Err UNEXPECTED_EOF
    else
      match split_once (Ascii.eqb zero) bytes with
      | Some (before, _) => Ok (out ++s before)
      | None =>
        let out := out ++s bytes in
        if (max <? blen out)%N then Err (too_large "string")
        else read_cstring_from fuel max (u64_add cursor (blen bytes)) out
      end
  end.

Definition read_cstring `{Memory} (addr max : N) : result string string :=
  if (addr =? 0)%N then Err "null string pointer"
  else read_cstring_from (S (N.to_nat max)) max addr "".

(** [read_full]: fill a buffer of [len] bytes. *)
Fixpoint read_full_from `{Memory} (fuel : nat) (addr len : N) (done : string) :
    result string string :=
  if (len <=? blen done)%N then Ok done else
  match fuel with
  | O => Err UNEXPECTED_EOF
  | S fuel =>
    bytes ← read_at (u64_add addr (blen done)) (len - blen done);
    if is_empty bytes then Err UNEXPECTED_EOF else read_full_from fuel addr len (done ++s bytes)
  end.

Definition read_full `{Memory} (addr len : N) : result string string :=
  read_full_from (N.to_nat len) addr len "".

(** [u64::from_ne_bytes] on the little-endian targets. *)
Fixpoint le_value (s : string) : N :=
  match s with "" => 0 | String c r => N_of_ascii c + 256 * le_value r end.

(** [buf.chunks_exact(8)]. *)
Fixpoint words (fuel : nat) (s : string) : list N :=
  match fuel with
  | O => []
  | S fuel =>
    if (String.length s <? 8)%nat then [] else le_value (stake 8 s) :: words fuel (sdrop 8 s)
  end.

(** The pointers of one read: [inl] is the end of the array. *)
Fixpoint take_ptrs (max : N) (out : list N) (ws : list N) : result string (list N + list N) :=
  match ws with
  | [] => Ok (inr out)
  | ptr :: ws =>
    if (ptr =? 0)%N then Ok (inl out)
    else if (N.of_nat (List.length out) =? max)%N then Err (too_large "argv")
    else take_ptrs max (out ++ [ptr]) ws
  end.

Fixpoint read_ptrs_from `{Memory} (fuel : nat) (max cursor : N) (out : list N) :
    result string (list N) :=
  match fuel with
  | O => Err (too_large "argv")
  | S fuel =>
    let span := N.min (to_boundary cursor / 8 * 8) 512 in
    let len := N.max span 8 in
    buf ← read_full cursor len;
    found ← take_ptrs max out (words (String.length buf) buf);
    match found with
    | inl out => Ok out
    | inr out => read_ptrs_from fuel max (u64_add cursor len) out
    end
  end.

(** Every turn adds a pointer or stops. *)
Definition read_ptr_array `{Memory} (addr max : N) : result string (list N) :=
  if (addr =? 0)%N then Ok [] else read_ptrs_from (S (S (N.to_nat max))) max addr [].

Fixpoint read_args `{Memory} (budget : N) (ptrs : list N) : result string (list string) :=
  match ptrs with
  | [] => Ok []
  | ptr :: ptrs =>
    bytes ← read_cstring ptr budget;
    if (budget <? blen bytes + 1)%N then Err (too_large "argv")
    else rest ← read_args (budget - (blen bytes + 1)) ptrs; Ok (from_utf8_lossy bytes :: rest)
  end.

Definition read_argv `{Memory} (addr : N) : result string (list string) :=
  ptrs ← read_ptr_array addr MAX_ARGS;
  read_args MAX_ARGV_BYTES ptrs.

(** ** Requests *)

(** [char::is_alphanumeric] on a character outside ASCII, from Unicode's tables. *)
Class Unicode := unicode_alphanumeric : string → bool.

Record ExecRequest := mkExec { ex_path : string; ex_argv : list string }.

Definition PLAIN_PUNCT : list ascii :=
  ["-"; "_"; "."; "/"; "="; ":"; "+"; ","; "@"; "%"; "^"; "~"; "*"; "?"; "["; "]"; "{"; "}"; "!"]%char.

Definition keeps `{Unicode} (c : string) : bool :=
  match c with
  | String a "" => is_ascii_alphanumeric a || ascii_in PLAIN_PUNCT a
  | _ => unicode_alphanumeric c
  end.

Definition sanitize `{Unicode} (arg : string) : string :=
  join "" ((λ c, if keeps c then c else " ") <$> uchars arg).

Definition match_commands `{Unicode} (r : ExecRequest) : list string :=
  let rest := join " " (sanitize <$> tail (ex_argv r)) in
  let program := sanitize (basename (ex_path r)) in
  let programs :=
    match ex_argv r with
    | first :: _ =>
      let named := sanitize (basename first) in
      if negb (is_empty (trim named)) && negb (named ==s program) then [program; named]
      else [program]
    | [] => [program]
    end in
  (λ p, trim (trim p ++s " " ++s rest)) <$> filter (λ p, is_empty (trim p) = false) programs.

(** [truncate]: the first [max] characters, marking the cut. *)
Definition exec_truncate (s : string) (max : nat) : string :=
  let cs := uchars s in
  if (List.length cs <=? max)%nat then s else join "" (take max cs) ++s "…".

(** [shlex::try_join], [None] when an argument holds a NUL byte. *)
Class ShlexJoin := shlex_join : list string → option string.

Definition display `{ShlexJoin} (r : ExecRequest) : string :=
  let joined := default (join " " (ex_argv r)) (shlex_join (ex_argv r)) in
  let joined := if is_empty joined then ex_path r else joined in
  exec_truncate joined MAX_DISPLAY.

Definition denial_message (command : option string) (reason : string) : string :=
  let subject := match command with None => "exec" | Some c => "`" ++s c ++s "`" end in
  "guard: denied " ++s subject ++s " — " ++s exec_truncate reason 400 ++s
  " (run `cctui-guard why` for recent denials)" ++s nl.

(** ** Notifications *)

Inductive ExecKind := Execve | Execveat.

Inductive TargetArch := X86_64 | Aarch64 | OtherArch.

Definition classify (target : TargetArch) (arch : N) (nr : Z) : option ExecKind :=
  let pick native execve execveat :=
    if negb (arch =? native)%N then None
    else if (nr =? execve)%Z then Some Execve
    else if (nr =? execveat)%Z then Some Execveat
    else None in
  match target with
  | X86_64 => pick 3221225534%N 59%Z 322%Z
  | Aarch64 => pick 3221225655%N 221%Z 281%Z
  | OtherArch => None
  end.

Definition AT_EMPTY_PATH : N := 4096.
Definition AT_FDCWD : N := 4294967196.

Definition resolve_at (path : string) (dirfd flags : N) (link : N → option string) : string :=
  if is_empty path && negb (N.land flags AT_EMPTY_PATH =? 0)%N then
    default ("fd:" ++s u32_to_string dirfd) (link dirfd)
  else if starts_with "/" path || (dirfd =? AT_FDCWD)%N then path
  else
    match link dirfd with
    | None => path
    | Some dir => trim_end_matches (Ascii.eqb "/") dir ++s "/" ++s path
    end.

Definition reg (regs : list N) (i : nat) : N := default 0%N (regs !! i).

Definition read_request `{Memory} (link : N → option string) (kind : ExecKind) (regs : list N) :
    result string ExecRequest :=
  let '(path_ptr, argv_ptr) :=
    match kind with Execve => (reg regs 0, reg regs 1) | Execveat => (reg regs 1, reg regs 2) end in
  path ← read_cstring path_ptr MAX_PATH;
  let path := from_utf8_lossy path in
  argv ← read_argv argv_ptr;
  let path :=
    match kind with
    | Execve => path
    | Execveat => resolve_at path (reg regs 0 mod 2 ^ 32) (reg regs 4) link
    end in
  Ok (mkExec path argv).

(** ** Deciding *)

Inductive Outcome := OAllow | ODeny (reason : string).

Definition Outcome_from (v : Verdict) : Outcome :=
  match v with VAllow => OAllow | VDeny r => ODeny r | VAsk r => ODeny r end.

Inductive Failure := FTimedOut | FCrashed | FNoThread.

Definition Failure_reason (f : Failure) : string :=
  match f with
  | FTimedOut => "the guard did not decide in time (failing closed)"
  | FCrashed => "the guard's policy check failed (failing closed)"
  | FNoThread => "the guard could not start a policy check (failing closed)"
  end.

Inductive Inspected := Gone | Unreadable (reason : string) | Checked (o : Outcome) (r : ExecRequest).

(** What the system calls of one inspection answer: opening the target's
    memory, the two validations of the notification id, the links under
    [/proc/pid/fd]. *)
Record Probe := mkProbe {
  pr_pid : N;
  pr_arch : N;
  pr_nr : Z;
  pr_regs : list N;
  pr_open : result string unit;
  pr_valid_open : bool;
  pr_valid_read : bool;
  pr_link : N → option string;
}.

(** [{:#x}]. *)
Fixpoint hex_go (fuel : nat) (n : N) (acc : string) : string :=
  let d := (n mod 16)%N in
  let acc := String (if (d <? 10)%N then ascii_of_N (48 + d) else ascii_of_N (87 + d)) acc in
  match fuel with
  | O => acc
  | S fuel => if (n <? 16)%N then acc else hex_go fuel (n / 16) acc
  end.

Definition hex_string (n : N) : string := "0x" ++s hex_go 16 n "".

Section inspect.
Context `{Shlex, JsonText, Unicode, ShlexJoin} (target : TargetArch) (en : Engine).

Definition inspect `{Memory} (pr : Probe) (w : World) : World * Inspected :=
  match classify target (pr_arch pr) (pr_nr pr) with
  | None =>
    (w, Unreadable ("unsupported exec syscall " ++s i64_to_string (pr_nr pr) ++s " (arch " ++s
                    hex_string (pr_arch pr) ++s ")"))
  | Some kind =>
    match pr_open pr with
    | Err e =>
      if negb (pr_valid_open pr) then (w, Gone)
      else (w, Unreadable ("cannot read the process's memory: " ++s e))
    | Ok _ =>
      if negb (pr_valid_open pr) then (w, Gone) else
      match read_request (pr_link pr) kind (pr_regs pr) with
      | Err e =>
        if negb (pr_valid_read pr) then (w, Gone)
        else (w, Unreadable ("cannot read the exec arguments: " ++s e))
      | Ok request =>
        if negb (pr_valid_read pr) then (w, Gone) else
        let '(w, v) := check_exec en (ex_path request) (ex_argv request) (match_commands request) w in
        (w, Checked (Outcome_from v) request)
      end
    end
  end.

(** The check in its own thread: it finished in time, or it failed and left
    some world behind. *)
Inductive Bounded := InTime | Lost (f : Failure) (left_behind : World).

Definition within `{Memory} (b : Bounded) (pr : Probe) (w : World) :
    World * result Failure Inspected :=
  match b with
  | InTime => let '(w, i) := inspect pr w in (w, Ok i)
  | Lost f w' => (w', Err f)
  end.

(** Record a denial; an exec that was never read is logged here. *)
Definition deny (pid : N) (request : option ExecRequest) (reason : string) (w : World)
    (ring : WhyRing) : World * WhyRing :=
  let command := display <$> request in
  let w := match request with None => with_log (LExec None "" [] false reason) w | Some _ => w end in
  (w, why_push (mkDenial pid (default "exec" command) reason) ring).

(** [Task::handle]: the answer to the kernel ([None]: nothing to answer), the
    world and the ring. *)
Definition handle `{Memory} (b : Bounded) (pr : Probe) (w : World) (ring : WhyRing) :
    World * WhyRing * option bool :=
  let '(w, checked) := within b pr w in
  let refuse reason request :=
    let '(w, ring) := deny (pr_pid pr) request reason w ring in (w, ring, Some false) in
  match checked with
  | Ok Gone => (w, ring, None)
  | Ok (Checked OAllow _) => (w, ring, Some true)
  | Ok (Checked (ODeny reason) request) => refuse reason (Some request)
  | Ok (Unreadable reason) => refuse reason None
  | Err failure => refuse (Failure_reason failure) None
  end.
End inspect.

(** ** Facts: strings in memory *)

(** The bytes mapped in the target. *)
Definition Contents := N → option ascii.

(** The bytes of [s] lie at [addr]. *)
Fixpoint bytes_at (m : Contents) (addr : N) (s : string) : Prop :=
  match s with "" => True | String c r => m addr = Some c ∧ bytes_at m (addr + 1) r end.

(** A NUL-terminated string. *)
Definition cstring_at (m : Contents) (addr : N) (s : string) : Prop :=
  bytes_at m addr (s ++s String zero "") ∧ all_chars (λ c, negb (Ascii.eqb zero c)) s = true.

Lemma bytes_at_app m addr a b :
  bytes_at m addr (a ++s b) ↔ bytes_at m addr a ∧ bytes_at m (addr + blen a) b.
Proof.
  revert addr. induction a as [|c a IH]; intros addr; cbn [String.append bytes_at].
  - change (blen "") with 0%N. rewrite N.add_0_r. tauto.
  - rewrite IH. replace (addr + blen (String c a))%N with (addr + 1 + blen a)%N; [tauto|].
    unfold blen. cbn [String.length]. lia.
Qed.

(** Bytes without a NUL lie inside the string that starts there. *)
Lemma bytes_in_cstring m addr bs r :
  bytes_at m addr bs → all_chars (λ c, negb (Ascii.eqb zero c)) bs = true → cstring_at m addr r →
  ∃ r', r = bs ++s r' ∧ cstring_at m (addr + blen bs) r'.
Proof.
  revert addr r. induction bs as [|c bs IH]; intros addr r Hb Hn Hr.
  { exists r. change (blen "") with 0%N. by rewrite N.add_0_r. }
  cbn [bytes_at all_chars] in Hb, Hn. destruct Hb as [Hc Hb]. apply andb_true_iff in Hn as [Hz Hn]. destruct Hr as [Hr Hr0].
  destruct r as [|d r]; cbn [bytes_at all_chars String.append] in Hr, Hr0.
  { destruct Hr as [Hd _]. rewrite Hc in Hd. injection Hd as ->. by rewrite Ascii.eqb_refl in Hz. }
  destruct Hr as [Hd Hr]. apply andb_true_iff in Hr0 as [_ Hr0].
  destruct (IH (addr + 1)%N r Hb Hn) as (r' & -> & Hr'); [done|]. exists r'. split.
  - cbn. by assert (c = d) as -> by congruence.
  - replace (addr + blen (String c bs))%N with (addr + 1 + blen bs)%N; [done|].
    unfold blen. cbn [String.length]. lia.
Qed.

Lemma cstring_unique m addr a b : cstring_at m addr a → cstring_at m addr b → a = b.
Proof.
  intros [Ha Ha0] Hb. apply bytes_at_app in Ha as [Ha [Hz _]].
  destruct (bytes_in_cstring m addr a b Ha Ha0 Hb) as (r & -> & [Hr Hr0]).
  destruct r as [|c r]; [by rewrite app_nil_s|]. exfalso. cbn in Hr, Hr0. destruct Hr as [Hc _].
  rewrite Hz in Hc. injection Hc as <-. done.
Qed.

Lemma split_once_none_all p s : split_once p s = None → all_chars (λ c, negb (p c)) s = true.
Proof.
  induction s as [|c s IH]; cbn; [done|]. destruct (p c); [done|]. cbn.
  destruct (split_once p s); [done|]. by intros; apply IH.
Qed.

(** What the kernel promises of reads of a target's memory: no more than asked
    and only what is mapped there; a read that stays inside the page of a
    mapped address makes progress; user addresses are below [2^63]. *)
Class MemoryLaws (mem : Memory) (m : Contents) : Prop := {
  reads_sound a n bs : mem a n = Ok bs → (blen bs ≤ n)%N ∧ bytes_at m a bs;
  reads_progress a n c : m a = Some c → (0 < n ≤ to_boundary a)%N → ∃ bs, mem a n = Ok bs ∧ bs ≠ "";
  mapped_low a c : m a = Some c → (a < 2 ^ 63)%N;
}.

Lemma to_boundary_pos a : (0 < to_boundary a)%N.
Proof. unfold to_boundary, CHUNK. pose proof (N.mod_lt a 4096 ltac:(done)). lia. Qed.

Section cstring.
Context `{!MemoryLaws mem m}.

Lemma bytes_at_low addr s : s ≠ "" → bytes_at m addr s → (addr + blen s ≤ 2 ^ 63)%N.
Proof using All.
  intros Hne Hs. destruct (String.length s) as [|k] eqn:El; [by destruct s|].
  assert (∃ c, m (addr + N.of_nat k)%N = Some c) as [c Hc].
  { clear Hne. revert addr k El Hs. induction s as [|c s IH]; intros addr k El; [done|].
    cbn. intros [Hc Hs]. destruct k as [|k]; [exists c; by rewrite N.add_0_r|].
    destruct (IH (addr + 1)%N k) as [d Hd]; [cbn in El; lia|done|].
    exists d. by replace (addr + N.of_nat (S k))%N with (addr + 1 + N.of_nat k)%N by lia. }
  apply mapped_low in Hc. unfold blen. lia.
Qed.

(** The loop, having read [out] so far. *)
Lemma read_cstring_from_sound fuel max addr out s :
  bytes_at m addr out → all_chars (λ c, negb (Ascii.eqb zero c)) out = true → (blen out ≤ max)%N →
  (addr + blen out < 2 ^ 64)%N →
  @read_cstring_from mem fuel max (addr + blen out) out = Ok s →
  cstring_at m addr s ∧ (blen s ≤ max)%N.
Proof using All.
  revert out. induction fuel as [|fuel IH]; intros out Hb Hn Hl Hlow; [done|].
  cbn [read_cstring_from]. intros (bs & Hr & Hs)%bind_ok. unfold read_at in Hr.
  apply reads_sound in Hr as [Hlen Hbs]. destruct (is_empty bs) eqn:Ee; [done|].
  assert (Hne : bs ≠ "") by (by intros ->).
  assert (Hall : bytes_at m addr (out ++s bs)) by (by apply bytes_at_app).
  destruct (split_once _ bs) as [[before after]|] eqn:Es.
  - injection Hs as <-. apply split_once_Some in Es as (c & Hc & -> & Hbefore).
    apply Ascii.eqb_eq in Hc as <-. split; [split|].
    + rewrite !app_assoc_s in *. rewrite <-app_assoc_s in Hall.
      rewrite <-app_assoc_s. change (String zero after) with (String zero "" ++s after) in Hall.
      rewrite <-app_assoc_s in Hall. by apply bytes_at_app in Hall as [? _].
    + by rewrite all_chars_app, Hn.
    + rewrite blen_app in *. change (String zero after) with (String zero "" ++s after) in Hlen.
      rewrite blen_app in Hlen. change (blen (String zero "")) with 1%N in Hlen. lia.
  - destruct (N.ltb_spec max (blen (out ++s bs))) as [|Hfit]; [done|].
    pose proof (bytes_at_low _ _ Hne Hbs).
    apply (IH (out ++s bs)); [done| |done|rewrite blen_app; lia|].
    + rewrite all_chars_app, Hn. by apply split_once_none_all.
    + rewrite <-Hs. unfold u64_add. rewrite N.mod_small by lia. by rewrite blen_app, N.add_assoc.
Qed.

Lemma read_cstring_from_complete fuel max addr out r :
  cstring_at m (addr + blen out) r → (blen (out ++s r) ≤ max)%N → (blen r < N.of_nat fuel)%N →
  @read_cstring_from mem fuel max (addr + blen out) out = Ok (out ++s r).
Proof using All.
  revert out r. induction fuel as [|fuel IH]; intros out r Hr Hmax Hf; [lia|]. cbn [read_cstring_from].
  rewrite blen_app in Hmax.
  destruct (reads_progress (addr + blen out)%N
    (N.min (to_boundary (addr + blen out)) (max + 1 - blen out))
    (match r with String c _ => c | "" => zero end)) as (bs & Hread & Hne).
  { destruct Hr as [Hr _]. destruct r; apply Hr. }
  { pose proof (to_boundary_pos (addr + blen out)). lia. }
  unfold read_at. rewrite Hread. cbn [mbind result_bind]. apply reads_sound in Hread as [_ Hbs].
  destruct (is_empty bs) eqn:Ee; [by apply String.eqb_eq in Ee|].
  destruct (split_once _ bs) as [[before after]|] eqn:Es.
  - apply split_once_Some in Es as (c & Hc & -> & Hb0). apply Ascii.eqb_eq in Hc as <-.
    rewrite (cstring_unique m (addr + blen out) before r); [done| |done]. split; [|done].
    change (String zero after) with (String zero "" ++s after) in Hbs.
    rewrite <-app_assoc_s in Hbs. by apply bytes_at_app in Hbs as [? _].
  - apply split_once_none_all in Es.
    destruct (bytes_in_cstring _ _ _ _ Hbs Es Hr) as (r' & -> & Hr').
    rewrite blen_app in Hmax, Hf. rewrite (proj2 (N.ltb_ge _ _)) by (rewrite blen_app; lia).
    pose proof (bytes_at_low _ _ Hne Hbs). unfold u64_add. rewrite N.mod_small by lia.
    assert (0 < blen bs)%N by (destruct bs; [done|unfold blen; cbn [String.length]; lia]).
    rewrite <-app_assoc_s, <-N.add_assoc, <-blen_app. rewrite <-N.add_assoc, <-blen_app in Hr'.
    apply IH; [done|rewrite !blen_app; lia|lia].
Qed.

(** The guard reads exactly the string the kernel would: from a mapped
    address, [read_cstring] answers with the NUL-terminated string that lies
    there when it has at most [max] bytes, whatever pages it spans and however
    short the reads are, and with an error in every other case. *)
Theorem read_cstring_exact addr max s :
  (addr < 2 ^ 64)%N →
  @read_cstring mem addr max = Ok s ↔ addr ≠ 0%N ∧ cstring_at m addr s ∧ (blen s ≤ max)%N.
Proof using All.
  intros Hlow. unfold read_cstring. destruct (N.eqb_spec addr 0) as [->|Hz]; [naive_solver|].
  change (read_cstring_from (S (N.to_nat max)) max addr "")
    with (@read_cstring_from mem (S (N.to_nat max)) max addr "").
  rewrite <-(N.add_0_r addr) at 1. change 0%N with (blen "") at 1. split.
  - intros Hr. split; [done|]. apply (read_cstring_from_sound _ _ _ "" _) in Hr; try done.
    + change (blen "") with 0%N. lia.
    + change (blen "") with 0%N. lia.
  - intros (_ & Hs & Hl). apply (read_cstring_from_complete _ _ _ "" s).
    + change (blen "") with 0%N. by rewrite N.add_0_r.
    + done.
    + lia.
Qed.
End cstring.

(** ** Facts: the commands judged *)

(** A byte that is nothing to the segment scanner. *)
Definition quiet (c : ascii) : bool :=
  negb (ascii_in ["\"; "'"; dquote; newline; creturn; ";"; "|"; "&"]%char c).

Lemma quiet_scan prev cur segs s :
  all_chars quiet s = true →
  scan_segments prev false false cur segs s = push_seg (cur ++s s) segs.
Proof.
  revert prev cur. induction s as [|c s IH]; intros prev cur Hq; [by rewrite app_nil_s|].
  cbn [all_chars] in Hq. apply andb_true_iff in Hq as [Hc Hq].
  assert (Hstep : scan_segments prev false false cur segs (String c s) =
    scan_segments (Some c) false false (cur ++s String c "") segs s).
  { unfold quiet, ascii_in in Hc. cbn [existsb] in Hc. apply negb_true_iff in Hc.
    repeat match type of Hc with _ || _ = false => apply orb_false_iff in Hc as [? Hc] end.
    rewrite scan_segments_cons. cbv zeta. cbn [negb andb].
    repeat match goal with E : Ascii.eqb c ?x = false |- _ => rewrite E; clear E end. done. }
  rewrite Hstep, IH by done. by rewrite app_assoc_s.
Qed.

Lemma all_chars_trim_start p n s :
  (String.length s ≤ n)%nat → all_chars p s = true → all_chars p (trim_start s) = true.
Proof.
  revert s. induction n as [|n IH]; intros s Hn Hs; [by destruct s; cbn in *; [|lia]|].
  destruct s as [|c r]; [done|]. pose proof Hs as Hall. cbn [trim_start all_chars String.length] in *.
  apply andb_true_iff in Hs as [_ Hr]. destruct (ws1 c); [apply IH; [lia|done]|].
  destruct r as [|d r]; [done|]. cbn [String.length] in *. pose proof Hr as Hr'.
  cbn [all_chars] in Hr. apply andb_true_iff in Hr as [_ Hr]. destruct (ws2 c d); [apply IH; [lia|done]|].
  destruct r as [|e r]; [done|]. cbn [String.length all_chars] in *.
  apply andb_true_iff in Hr as [_ Hr]. destruct (ws3 c d e); [apply IH; [lia|done]|done].
Qed.

Lemma all_chars_trim_end p s : all_chars p s = true → all_chars p (trim_end s) = true.
Proof.
  induction s as [|c s IH]; [done|]. cbn [all_chars trim_end]. intros [Hc Hs]%andb_true_iff.
  destruct (all_ws _); [done|]. cbn [all_chars]. by rewrite Hc, IH.
Qed.

Lemma all_chars_trim p s : all_chars p s = true → all_chars p (trim s) = true.
Proof. intros Hs. by apply all_chars_trim_end, (all_chars_trim_start p (String.length s)). Qed.

Lemma all_chars_join p sep l :
  all_chars p sep = true → Forall (λ x, all_chars p x = true) l → all_chars p (join sep l) = true.
Proof.
  intros Hsep. induction 1 as [|x l Hx Hl IH]; [done|]. destruct l as [|y l]; [done|].
  change (join sep (x :: y :: l)) with (x ++s sep ++s join sep (y :: l)).
  by rewrite !all_chars_app, Hx, Hsep, IH.
Qed.

Section commands.
Context `{Unicode}.
(** Unicode's tables are asked only outside ASCII. *)
Context (unicode_non_ascii : ∀ c, unicode_alphanumeric c = true → all_chars (in_range 128 255) c = true).

Lemma keeps_quiet c : keeps c = true → all_chars quiet c = true.
Proof using unicode_non_ascii.
  assert (Hu : unicode_alphanumeric c = true → all_chars quiet c = true).
  { intros Hc%unicode_non_ascii. eapply all_chars_impl; [|done].
    intros a. destruct a as [[] [] [] [] [] [] [] []]; vm_compute; done. }
  unfold keeps. destruct c as [|a [|b c]]; [done| |done].
  destruct a as [[] [] [] [] [] [] [] []]; vm_compute; done.
Qed.

Lemma sanitize_quiet s : all_chars quiet (sanitize s) = true.
Proof using unicode_non_ascii.
  unfold sanitize. apply all_chars_join; [done|]. apply Forall_fmap, Forall_forall. intros c _. cbn.
  destruct (keeps c) eqn:E; [by apply keeps_quiet|done].
Qed.

(** What the kernel is about to run is judged whole: every command string
    rendered for an exec is a single segment to the rule matcher, so no
    argument, whatever bytes it holds, can pass for a second command, a quote or
    a background operator. *)
Theorem exec_rendering_one_segment r c :
  c ∈ match_commands r → ∃ seg, split_bash_segments c = [seg] ∧ (seg = trim c ∨ seg = c).
Proof using unicode_non_ascii.
  unfold match_commands. intros (p & -> & [_ Hp]%list_elem_of_filter)%list_elem_of_fmap.
  set (cmd := trim _). assert (Hq : all_chars quiet cmd = true).
  { apply all_chars_trim. rewrite !all_chars_app. rewrite all_chars_trim.
    - cbn [andb]. rewrite andb_true_iff. split; [done|]. apply all_chars_join; [done|].
      apply Forall_fmap, Forall_forall. intros a _. apply sanitize_quiet.
    - destruct (ex_argv r) as [|first rest]; [|destruct (_ && _)]; cbn in Hp; set_unfold in Hp;
        destruct_or?; subst; try apply sanitize_quiet; done. }
  unfold split_bash_segments. rewrite quiet_scan by done. cbn [String.append]. unfold push_seg.
  destruct (is_empty (trim cmd)); [by exists cmd; auto|]. cbn [app]. by exists (trim cmd); auto.
Qed.
End commands.

(** ** Facts: answers *)

Section answers.
Context `{Shlex, JsonText, Unicode, ShlexJoin} (target : TargetArch) (en : Engine).

Lemma check_exec_verdict path argv commands w :
  (check_exec en path argv commands w).2 = VAllow ∨
  ∃ reason rule, (check_exec en path argv commands w).2 = VDeny reason ∧
    last (w_log (check_exec en path argv commands w).1) =
      Some (LExec (Some (w_step w)) path argv false rule).
Proof.
  unfold check_exec. destruct (if (w_step w =? 0)%Z then None else active_step en w) as [[u step]|];
    [|by left].
  destruct (exec_denial en u step path argv commands) as [reason|]; [|by left].
  right. exists (step_tag u reason), reason. cbn. by rewrite last_snoc.
Qed.

(** An answer that is not allow, where one of the conditions fails. *)
Ltac not_allowed :=
  split; [done|];
  let Hb := fresh in intros (Hb & ? & ? & ? & ? & ? & ? & ? & _); congruence.

(** Every exec the kernel holds is answered by the policy or refused: the
    answer is allow exactly when the check finished in time, the syscall was a
    native exec of a live target whose path and argv were read, and the engine
    allows it; a refusal is always the last line of the decision log and the
    newest entry of the ring; only a target that is gone gets no answer. *)
Theorem exec_answer_exact `{Memory} b pr w ring :
  let '(w', ring', answer) := handle target en b pr w ring in
  (answer = Some true ↔
     b = InTime ∧ ∃ kind request,
       classify target (pr_arch pr) (pr_nr pr) = Some kind ∧ pr_open pr = Ok tt ∧
       pr_valid_open pr = true ∧ pr_valid_read pr = true ∧
       read_request (pr_link pr) kind (pr_regs pr) = Ok request ∧
       (check_exec en (ex_path request) (ex_argv request) (match_commands request) w).2 = VAllow) ∧
  (answer = Some false → ∃ d step path argv rule,
     ring' = why_push d ring ∧ den_pid d = pr_pid pr ∧
     last (w_log w') = Some (LExec step path argv false rule)) ∧
  (answer = None → pr_valid_open pr = false ∨ pr_valid_read pr = false).
Proof.
  unfold handle, within, deny. destruct b as [|f w0].
  2:{ cbn. split_and!; [not_allowed| |done]. intros _. repeat eexists. cbn. by rewrite last_snoc. }
  unfold inspect. destruct (classify _ _ _) as [kind|] eqn:Ek.
  2:{ cbn. split_and!; [not_allowed| |done]. intros _. repeat eexists. cbn. by rewrite last_snoc. }
  destruct (pr_open pr) as [[]|e] eqn:Eo, (pr_valid_open pr) eqn:Ev; cbn [negb].
  2:{ cbn. split_and!; [not_allowed|done|by left]. }
  2:{ cbn. split_and!; [not_allowed| |done]. intros _. repeat eexists. cbn. by rewrite last_snoc. }
  2:{ cbn. split_and!; [not_allowed|done|by left]. }
  destruct (read_request _ _ _) as [request|e] eqn:Er, (pr_valid_read pr) eqn:Ev2; cbn [negb].
  2:{ cbn. split_and!; [not_allowed|done|by right]. }
  2:{ cbn. split_and!; [not_allowed| |done]. intros _. repeat eexists. cbn. by rewrite last_snoc. }
  2:{ cbn. split_and!; [not_allowed|done|by right]. }
  pose proof (check_exec_verdict (ex_path request) (ex_argv request) (match_commands request) w) as Hv.
  destruct (check_exec en _ _ _ w) as [w' v] eqn:Ec. cbn in Hv.
  destruct Hv as [->|(reason & rule & -> & Hlog)]; cbn.
  - split_and!; [|done..]. split; [|done]. intros _. split; [done|]. exists kind, request.
    by rewrite Ec.
  - split_and!; [|by intros _; repeat eexists|done]. split; [done|].
    intros (_ & kind' & request' & [= <-] & _ & _ & _ & Hr & Hx).
    rewrite Er in Hr. injection Hr as <-. by rewrite Ec in Hx.
Qed.
End answers.

(** ** Witnesses *)

(** A target with two mapped pages and a string across their boundary, whose
    reads return at most two bytes. *)
Definition demo_contents : Contents := λ a,
  if ((4096 <=? a) && (a <? 12288))%N then
    Some (if (8189 <=? a)%N && (a <? 8194)%N then "x"%char else zero)
  else None.

Fixpoint demo_bytes (n : nat) (a : N) : string :=
  match n with
  | O => ""
  | S n => match demo_contents a with Some c => String c (demo_bytes n (a + 1)) | None => "" end
  end.

Definition demo_memory : Memory := λ a n,
  match demo_contents a with
  | Some _ => Ok (demo_bytes (N.to_nat (N.min n 2)) a)
  | None => Err "Input/output error"
  end.

Lemma demo_bytes_spec n a : (blen (demo_bytes n a) ≤ N.of_nat n)%N ∧ bytes_at demo_contents a (demo_bytes n a).
Proof.
  revert a. induction n as [|n IH]; intros a; [by split|]. cbn [demo_bytes].
  destruct (demo_contents a) as [c|] eqn:E; [|by split; [unfold blen; cbn; lia|]].
  destruct (IH (a + 1)%N) as [H1 H2]. split; [|done]. unfold blen in *. cbn [String.length]. lia.
Qed.

#[export] Instance demo_laws : MemoryLaws demo_memory demo_contents.
Proof.
  split.
  - intros a n bs. unfold demo_memory. destruct (demo_contents a); [|done]. intros [= <-].
    destruct (demo_bytes_spec (N.to_nat (N.min n 2)) a). split; [lia|done].
  - intros a n c Hc Hn. unfold demo_memory. rewrite Hc. eexists. split; [done|].
    destruct (N.to_nat (N.min n 2)) as [|k] eqn:E; [lia|]. cbn. by rewrite Hc.
  - intros a c. unfold demo_contents. destruct ((4096 <=? a) && (a <? 12288))%N eqn:E; [|done].
    apply andb_true_iff in E as [_ E%N.ltb_lt]. intros _. lia.
Qed.

Lemma read_cstring_exact_witness :
  @read_cstring demo_memory 8189 16 = Ok "xxxxx" ↔
    8189%N ≠ 0%N ∧ cstring_at demo_contents 8189 "xxxxx" ∧ (blen "xxxxx" ≤ 16)%N.
Proof. apply read_cstring_exact. lia. Defined.

Definition ascii_only : Unicode := λ _, false.

Lemma exec_rendering_one_segment_witness :
  ∃ seg, split_bash_segments "git push    rm" = [seg] ∧
    (seg = trim "git push    rm" ∨ seg = "git push    rm").
Proof.
  apply (@exec_rendering_one_segment ascii_only ltac:(done) (mkExec "/usr/bin/git" ["git"; "push;"; "& rm"])).
  vm_compute. apply list_elem_of_here.
Defined.
