(* ===== verification/Net.v ===== *)
(** * Internet addresses ([std::net], [cctui-guard-proxy/src/denylist.rs])

    Addresses as the standard library has them, its text parser, and the
    built-in deny set of the proxy, with the deny set's equivalence to a table
    of address blocks. *)

From stdpp Require Import base decidable list strings.
From Stdlib Require Import Lia ZArith NArith Bool Ascii String.
From S2P Require Import Prelude RustStr Http.

(** ** Addresses *)

(** [IpAddr]: four octets or eight 16-bit segments. *)
Inductive IpAddr :=
| V4 (a b c d : N)
| V6 (s0 s1 s2 s3 s4 s5 s6 s7 : N).

#[export] Instance IpAddr_eq_dec : EqDecision IpAddr.
Proof. solve_decision. Defined.

(** The bounds the Rust types carry. *)
Definition ip_wf (ip : IpAddr) : Prop :=
  match ip with
  | V4 a b c d => Forall (λ o, (o < 256)%N) [a; b; c; d]
  | V6 a b c d e f g h => Forall (λ s, (s < 65536)%N) [a; b; c; d; e; f; g; h]
  end.

Definition is_ipv6 (ip : IpAddr) : bool := match ip with V6 _ _ _ _ _ _ _ _ => true | _ => false end.

Record SocketAddr := mkSocketAddr { sa_ip : IpAddr; sa_port : N }.

(** [Ipv4Addr]'s [Display]. *)
Definition ipv4_to_string (a b c d : N) : string :=
  u32_to_string a ++s "." ++s u32_to_string b ++s "." ++s u32_to_string c ++s "." ++s
  u32_to_string d.

(** ** [str::parse::<IpAddr>] *)

(** [Parser::read_number]: a greedy run of at most [max_digits] digits. *)
Definition read_number (hex : bool) (max_digits : nat) (allow_zero_prefix : bool) (max : N)
    (s : string) : option (N * string) :=
  let '(ds, rest) := span_chars (if hex then is_ascii_hexdigit else is_ascii_digit) s in
  if is_empty ds || (max_digits <? String.length ds)%nat then None
  else if negb allow_zero_prefix && starts_with "0" ds && (1 <? String.length ds)%nat then None
  else
    let n := if hex then hex_value 0 ds else digits_val 0 ds in
    if (n <=? max)%N then Some (n, rest) else None.

(** [Parser::read_separator]: the separator goes before every item but the first. *)
Definition read_separator {A} (sep : string) (index : nat)
    (inner : string → option (A * string)) (s : string) : option (A * string) :=
  match index with
  | O => inner s
  | _ => r ← strip_prefix sep s; inner r
  end.

Definition read_octet (index : nat) : string → option (N * string) :=
  read_separator "." index (read_number false 3 false 255).

Definition read_ipv4_addr (s : string) : option ((N * N * N * N) * string) :=
  '(a, s) ← read_octet 0 s;
  '(b, s) ← read_octet 1 s;
  '(c, s) ← read_octet 2 s;
  '(d, s) ← read_octet 3 s;
  Some ((a, b, c, d), s).

Definition read_group (index : nat) : string → option (N * string) :=
  read_separator ":" index (read_number true 4 true 65535).

(** [read_groups] on [left] more slots from slot [index]: the groups, whether
    they end in an embedded IPv4 address, and the rest. *)
Fixpoint read_groups (left index : nat) (s : string) : (list N * bool) * string :=
  match left with
  | O => (([], false), s)
  | S left' =>
    match (if (0 <? left')%nat then read_separator ":" index read_ipv4_addr s else None) with
    | Some ((a, b, c, d), r) => (([256 * a + b; 256 * c + d]%N, true), r)
    | None =>
      match read_group index s with
      | Some (g, r) =>
        let '((gs, v4), r) := read_groups left' (S index) r in ((g :: gs, v4), r)
      | None => (([], false), s)
      end
    end
  end.

Definition v6_of_list (l : list N) : option IpAddr :=
  match l with
  | [a; b; c; d; e; f; g; h] => Some (V6 a b c d e f g h)
  | _ => None
  end.

Definition read_ipv6_addr (s : string) : option (IpAddr * string) :=
  let '((head, head_ipv4), r) := read_groups 8 0 s in
  if (List.length head =? 8)%nat then (λ ip, (ip, r)) <$> v6_of_list head
  else if head_ipv4 then None
  else
    r ← strip_prefix "::" r;
    let '((tail, _), r) := read_groups (7 - List.length head) 0 r in
    (λ ip, (ip, r)) <$>
      v6_of_list (head ++ replicate (8 - List.length head - List.length tail) 0%N ++ tail).

Definition read_ip_addr (s : string) : option (IpAddr * string) :=
  match read_ipv4_addr s with
  | Some ((a, b, c, d), r) => Some (V4 a b c d, r)
  | None => read_ipv6_addr s
  end.

Definition parse_ip (s : string) : option IpAddr :=
  '(ip, r) ← read_ip_addr s;
  if is_empty r then Some ip else None.

(** ** The deny set *)

(** [Ipv6Addr::to_ipv4_mapped] on [::ffff:a.b.c.d]. *)
Definition to_ipv4_mapped (ip : IpAddr) : option IpAddr :=
  match ip with
  | V6 0 0 0 0 0 65535 g h => Some (V4 (g / 256) (g mod 256) (h / 256) (h mod 256))
  | _ => None
  end%N.

Definition is_link_local (ip : IpAddr) : bool :=
  match ip with
  | V4 a b _ _ => (a =? 169)%N && (b =? 254)%N
  | V6 s0 _ _ _ _ _ _ _ => (N.land s0 65472 =? 65152)%N
  end.

(** [Ipv4Addr::is_private]. *)
Definition v4_is_private (a b : N) : bool :=
  (a =? 10)%N || ((a =? 172)%N && (16 <=? b)%N && (b <=? 31)%N) || ((a =? 192)%N && (b =? 168)%N).

Definition is_cgnat (a b : N) : bool := (a =? 100)%N && (64 <=? b)%N && (b <=? 127)%N.

Definition all_zero (l : list N) : bool := forallb (N.eqb 0) l.

Definition is_private_or_local (ip : IpAddr) : bool :=
  match ip with
  | V4 a b c d =>
    (a =? 127)%N || v4_is_private a b || all_zero [a; b; c; d] ||
    forallb (N.eqb 255) [a; b; c; d] || is_cgnat a b
  | V6 s0 s1 s2 s3 s4 s5 s6 s7 =>
    (all_zero [s0; s1; s2; s3; s4; s5; s6] && (s7 =? 1)%N) ||
    all_zero [s0; s1; s2; s3; s4; s5; s6; s7] || (N.land s0 65024 =? 64512)%N
  end.

Definition ip_is_denied (ip : IpAddr) (allow_private : bool) : bool :=
  let ip := default ip (to_ipv4_mapped ip) in
  if is_link_local ip then true
  else if allow_private then false
  else is_private_or_local ip.

Definition DENIED_HOSTNAMES : list string := ["metadata.google.internal"; "metadata"].

Definition is_bracket : ascii → bool := ascii_in ["["; "]"]%char.

Definition bare_host (host : string) : string := to_ascii_lowercase (trim_matches is_bracket host).

Definition host_is_denied_with (host : string) (extra : list string) (allow_private : bool) : bool :=
  let host := bare_host host in
  match parse_ip host with
  | Some ip => ip_is_denied ip allow_private
  | None => false
  end || existsb (String.eqb host) DENIED_HOSTNAMES || existsb (String.eqb host) extra.

(** [extra_denied_hosts]: the value of [GUARD_PROXY_DENY_HOSTS], if set. *)
Definition extra_denied_hosts (var : option string) : list string :=
  match var with
  | None => []
  | Some v =>
    filter (λ s, is_empty s = false) ((λ s, to_ascii_lowercase (trim s)) <$> split_char "," v)
  end.

(** [allow_private_ips_from_env]. *)
Definition allow_private_ips_from_env (var : option string) : bool :=
  match var with
  | None => false
  | Some v => existsb (String.eqb (to_ascii_lowercase (trim v))) ["1"; "true"; "yes"; "on"]
  end.

Example parse_ip_v4 : parse_ip "169.254.169.254" = Some (V4 169 254 169 254).
Proof. reflexivity. Qed.
Example parse_ip_leading_zero : parse_ip "010.0.0.1" = None.
Proof. reflexivity. Qed.
Example parse_ip_mapped :
  parse_ip "::ffff:10.0.0.1" = Some (V6 0 0 0 0 0 65535 2560 1).
Proof. reflexivity. Qed.
Example parse_ip_v6 : parse_ip "2606:4700::1111" = Some (V6 9734 18176 0 0 0 0 0 4369).
Proof. reflexivity. Qed.
Example parse_ip_unspecified : parse_ip "::" = Some (V6 0 0 0 0 0 0 0 0).
Proof. reflexivity. Qed.
Example parse_ip_full : parse_ip "1:2:3:4:5:6:7.8.9.10" = Some (V6 1 2 3 4 5 6 1800 2314).
Proof. reflexivity. Qed.
Example parse_ip_two_runs : parse_ip "1::2::3" = None.
Proof. reflexivity. Qed.
Example denied_mapped : ip_is_denied (V6 0 0 0 0 0 65535 43518 43518) true = true.
Proof. reflexivity. Qed.

(** ** Facts: the parser *)

Lemma span_chars_spec p s : s = (span_chars p s).1 ++s (span_chars p s).2 ∧
  all_chars p (span_chars p s).1 = true.
Proof.
  induction s as [|c s [IH1 IH2]]; cbn; [done|]. destruct (p c) eqn:E; [|done].
  destruct (span_chars p s) as [a b]. cbn in *. by rewrite E, IH2, <-IH1.
Qed.

Lemma read_number_bound hex k z max s n r :
  read_number hex k z max s = Some (n, r) → (n ≤ max)%N.
Proof.
  unfold read_number. destruct (span_chars _ s) as [ds rest].
  destruct (_ || _); [done|]. destruct (_ && _ && _); [done|]. cbn zeta.
  destruct (N.leb_spec (if hex then hex_value 0 ds else digits_val 0 ds) max); [|done].
  by intros [= <- _].
Qed.

Lemma read_octet_bound i s n r : read_octet i s = Some (n, r) → (n < 256)%N.
Proof.
  unfold read_octet, read_separator.
  assert (∀ s, read_number false 3 false 255 s = Some (n, r) → (n < 256)%N) as H.
  { intros ? ?%read_number_bound. lia. }
  destruct i; [apply H|]. destruct (strip_prefix "." s); [apply H|done].
Qed.

Lemma read_ipv4_bound s a b c d r :
  read_ipv4_addr s = Some ((a, b, c, d), r) → Forall (λ o, (o < 256)%N) [a; b; c; d].
Proof.
  unfold read_ipv4_addr.
  destruct (read_octet 0 s) as [[? s1]|] eqn:E1; cbn [mbind option_bind]; [|done].
  destruct (read_octet 1 s1) as [[? s2]|] eqn:E2; cbn [mbind option_bind]; [|done].
  destruct (read_octet 2 s2) as [[? s3]|] eqn:E3; cbn [mbind option_bind]; [|done].
  destruct (read_octet 3 s3) as [[? s4]|] eqn:E4; cbn [mbind option_bind]; [|done].
  intros [= -> -> -> -> _]. rewrite !Forall_cons, Forall_nil. eauto 10 using read_octet_bound.
Qed.

Lemma read_groups_bound left i s :
  Forall (λ g, (g < 65536)%N) (read_groups left i s).1.1.
Proof.
  revert i s. induction left as [|left IH]; intros i s; cbn [read_groups]; [constructor|].
  destruct (if (0 <? left)%nat then _ else None) as [[[[[a b] c] d] r]|] eqn:E4.
  - destruct (0 <? left)%nat; [|done]. unfold read_separator in E4.
    assert (Forall (λ o, (o < 256)%N) [a; b; c; d]) as Hb.
    { destruct i; [by apply read_ipv4_bound in E4|].
      destruct (strip_prefix ":" s); [by apply read_ipv4_bound in E4|done]. }
    rewrite !Forall_cons in Hb. destruct Hb as (? & ? & ? & ? & _).
    cbn [fst]. rewrite !Forall_cons, Forall_nil. lia.
  - destruct (read_group i s) as [[g r]|] eqn:Eg; [|constructor].
    specialize (IH (S i) r). destruct (read_groups left (S i) r) as [[gs v4] r']. cbn in *.
    constructor; [|done]. unfold read_group, read_separator in Eg.
    destruct i; [apply read_number_bound in Eg; lia|].
    destruct (strip_prefix ":" s); [apply read_number_bound in Eg; lia|done].
Qed.

Lemma v6_of_list_wf l ip :
  Forall (λ g, (g < 65536)%N) l → v6_of_list l = Some ip → ip_wf ip.
Proof. intros Hl. do 9 (destruct l as [|? l]; try done). by intros [= <-]. Qed.

(** Every address the parser returns is well formed: octets below 256,
    segments below 65536, eight segments exactly, however the text abbreviates
    them; no text yields an address outside the range of the Rust types. *)
Theorem parse_ip_wf s ip : parse_ip s = Some ip → ip_wf ip.
Proof.
  unfold parse_ip, read_ip_addr. destruct (read_ipv4_addr s) as [[[[[a b] c] d] r]|] eqn:E4; cbn.
  { destruct (is_empty r); [|done]. intros [= <-]. by apply read_ipv4_bound in E4. }
  unfold read_ipv6_addr. pose proof (read_groups_bound 8 0 s) as Hh.
  destruct (read_groups 8 0 s) as [[head v4] r1]. cbn in Hh.
  destruct (List.length head =? 8)%nat.
  - destruct (v6_of_list head) as [ip'|] eqn:E6; cbn; [|done].
    destruct (is_empty r1); [|done]. intros [= <-]. by apply v6_of_list_wf in E6.
  - destruct v4; [done|]. destruct (strip_prefix "::" r1) as [r2|]; cbn; [|done].
    pose proof (read_groups_bound (7 - List.length head) 0 r2) as Ht.
    destruct (read_groups _ 0 r2) as [[tail ?] r3]. cbn in Ht.
    destruct (v6_of_list _) as [ip'|] eqn:E6; cbn; [|done].
    destruct (is_empty r3); [|done]. intros [= <-]. apply v6_of_list_wf in E6; [done|].
    rewrite !Forall_app. split_and!; [done| |done]. apply Forall_replicate. lia.
Qed.

Lemma digits_span s r :
  all_chars is_ascii_digit s = true → span_chars is_ascii_digit r = ("", r) →
  span_chars is_ascii_digit (s ++s r) = (s, r).
Proof.
  intros Hs Hr. induction s as [|c s IH]; cbn in *; [done|]. bool_hyps.
  match goal with H : is_ascii_digit c = true |- _ => rewrite H end. by rewrite IH.
Qed.

(** A printed octet has at most three digits and no leading zero. *)
Definition octet_text_ok (n : N) : bool :=
  (String.length (u32_to_string n) <=? 3)%nat &&
  (negb (starts_with "0" (u32_to_string n)) || (String.length (u32_to_string n) <=? 1)%nat).

Lemma octet_text n : (n < 256)%N → octet_text_ok n = true.
Proof.
  intros Hn. assert (forallb octet_text_ok (N.of_nat <$> seq 0 256) = true) as H by (by vm_compute).
  rewrite forallb_forall in H. apply H, list_elem_of_In, list_elem_of_fmap.
  exists (N.to_nat n). split; [lia|]. apply elem_of_seq. lia.
Qed.

Lemma read_octet_text n r :
  (n < 256)%N → span_chars is_ascii_digit r = ("", r) →
  read_number false 3 false 255 (u32_to_string n ++s r) = Some (n, r).
Proof.
  intros Hn Hr. unfold read_number. rewrite digits_span by (auto using to_string_digits).
  pose proof (octet_text n Hn) as Ho. unfold octet_text_ok in Ho. bool_hyps.
  unfold is_empty. destruct (String.eqb_spec (u32_to_string n) "") as [E|_];
    [by apply to_string_nonempty in E|].
  rewrite to_string_val, (proj2 (N.leb_le n 255)) by lia. cbn [negb orb andb].
  destruct (Nat.ltb_spec 3 (String.length (u32_to_string n))) as [?|_].
  { match goal with H : (_ <=? 3)%nat = true |- _ => apply Nat.leb_le in H end. lia. }
  match goal with H : _ || _ = true |- _ => apply orb_true_iff in H as [H%negb_true_iff|H%Nat.leb_le] end.
  - by replace (starts_with "0" (u32_to_string n)) with false.
  - rewrite (proj2 (Nat.ltb_ge 1 _)) by lia. by rewrite andb_false_r.
Qed.

(** Printing an IPv4 address and parsing it back gives the same address, so
    the destination a redirected connection carries denotes itself when it is
    used as a host name. *)
Theorem ipv4_roundtrip a b c d :
  ip_wf (V4 a b c d) → parse_ip (ipv4_to_string a b c d) = Some (V4 a b c d).
Proof.
  cbn. rewrite !Forall_cons. intros (Ha & Hb & Hc & Hd & _).
  assert (∀ r, span_chars is_ascii_digit (String "." r) = ("", String "." r)) as Hdot by done.
  unfold parse_ip, read_ip_addr, read_ipv4_addr, read_octet, read_separator, ipv4_to_string.
  cbn [strip_prefix]. rewrite read_octet_text by auto. cbn.
  rewrite read_octet_text by auto. cbn. rewrite read_octet_text by auto. cbn.
  rewrite <-(app_nil_s (u32_to_string d)). by rewrite read_octet_text by auto.
Qed.

(** ** The deny set as address blocks *)

Definition ip_value (ip : IpAddr) : N :=
  match ip with
  | V4 a b c d => ((a * 256 + b) * 256 + c) * 256 + d
  | V6 a b c d e f g h =>
    ((((((a * 65536 + b) * 65536 + c) * 65536 + d) * 65536 + e) * 65536 + f) * 65536 + g) * 65536 + h
  end%N.

Definition ip_bits (ip : IpAddr) : N := if is_ipv6 ip then 128 else 32.

(** Membership in the block [base/len]: same family and the same first [len] bits. *)
Definition in_block (ip : IpAddr) (block : IpAddr * N) : bool :=
  Bool.eqb (is_ipv6 block.1) (is_ipv6 ip) &&
  (ip_value ip / 2 ^ (ip_bits ip - block.2) =? ip_value block.1 / 2 ^ (ip_bits ip - block.2))%N.

(** The block of IPv4-mapped addresses over an IPv4 block. *)
Definition mapped_block (block : IpAddr * N) : IpAddr * N :=
  match block with
  | (V4 a b c d, len) => (V6 0 0 0 0 0 65535 (256 * a + b) (256 * c + d), 96 + len)%N
  | _ => block
  end.

Definition LINK_LOCAL_V4 : list (IpAddr * N) := [(V4 169 254 0 0, 16%N)].
Definition PRIVATE_V4 : list (IpAddr * N) :=
  [(V4 127 0 0 0, 8); (V4 10 0 0 0, 8); (V4 172 16 0 0, 12); (V4 192 168 0 0, 16);
   (V4 0 0 0 0, 32); (V4 255 255 255 255, 32); (V4 100 64 0 0, 10)]%N.

Definition V6_LINK_LOCAL : list (IpAddr * N) := [(V6 65152 0 0 0 0 0 0 0, 10%N)].
Definition V6_PRIVATE : list (IpAddr * N) :=
  [(V6 0 0 0 0 0 0 0 1, 128); (V6 0 0 0 0 0 0 0 0, 128); (V6 64512 0 0 0 0 0 0 0, 7)]%N.

(** The blocks denied, [169.254/16] and [fe80::/10] always: each IPv4 block also
    in its IPv4-mapped form. *)
Definition denied_blocks (allow_private : bool) : list (IpAddr * N) :=
  let v4 := LINK_LOCAL_V4 ++ (if allow_private then [] else PRIVATE_V4) in
  v4 ++ (mapped_block <$> v4) ++ V6_LINK_LOCAL ++ (if allow_private then [] else V6_PRIVATE).

Lemma land_mask s k : (s < 65536)%N → (k ≤ 16)%N →
  N.land s (N.ldiff (N.ones 16) (N.ones k)) = (s / 2 ^ k * 2 ^ k)%N.
Proof.
  intros Hs Hk. rewrite <-N.shiftr_div_pow2, <-N.shiftl_mul_pow2, <-N.ldiff_ones_r.
  rewrite <-(N.mod_small s (2 ^ 16)) at 2 by done. rewrite <-N.land_ones.
  apply N.bits_inj. intros i. rewrite N.ldiff_spec, !N.land_spec, N.ldiff_spec.
  by rewrite andb_assoc.
Qed.

Lemma mask_ffc0 s : (s < 65536)%N → N.land s 65472 = (s / 64 * 64)%N.
Proof. intros Hs. by apply (land_mask s 6). Qed.

Lemma mask_fe00 s : (s < 65536)%N → N.land s 65024 = (s / 512 * 512)%N.
Proof. intros Hs. by apply (land_mask s 9). Qed.

Section blocks.
#[local] Ltac Zify.zify_post_hook ::= Z.to_euclidean_division_equations.

(** The leading bits of an IPv4 address, in octets. *)
Lemma v4_prefix a b c d : (b < 256 → c < 256 → d < 256 →
  let v := ((a * 256 + b) * 256 + c) * 256 + d in
  v / 2 ^ 24 = a ∧ v / 2 ^ 16 = 256 * a + b ∧ v / 2 ^ 20 = 16 * a + b / 16 ∧
  v / 2 ^ 22 = 4 * a + b / 64)%N.
Proof.
  intros Hb Hc Hd v. subst v. change (2 ^ 24)%N with 16777216%N. change (2 ^ 16)%N with 65536%N.
  change (2 ^ 20)%N with 1048576%N. change (2 ^ 22)%N with 4194304%N. split_and!; lia.
Qed.

Lemma v4_block_12 a b : (b < 256 → 16 * a + b / 16 = 2753 ↔ a = 172 ∧ 16 ≤ b ≤ 31)%N.
Proof. split; lia. Qed.

Lemma v4_block_10 a b : (b < 256 → 4 * a + b / 64 = 401 ↔ a = 100 ∧ 64 ≤ b ≤ 127)%N.
Proof. split; lia. Qed.

Lemma v4_value_inj a b c d w x y z :
  (a < 256 → b < 256 → c < 256 → d < 256 → w < 256 → x < 256 → y < 256 → z < 256 →
  ((a * 256 + b) * 256 + c) * 256 + d = ((w * 256 + x) * 256 + y) * 256 + z ↔
  a = w ∧ b = x ∧ c = y ∧ d = z)%N.
Proof. lia. Qed.

Lemma mask_eq s m k : (s < 65536 → 0 < m → s / m * m = k * m ↔ s / m = k)%N.
Proof. intros. rewrite N.mul_cancel_r by lia. done. Qed.
End blocks.

Ltac bool_iff := apply eq_true_iff_eq;
  repeat first [rewrite orb_true_iff | rewrite andb_true_iff | rewrite N.eqb_eq | rewrite N.leb_le].

Lemma denied_v4 a b c d ap :
  ip_wf (V4 a b c d) →
  (is_link_local (V4 a b c d) || (negb ap && is_private_or_local (V4 a b c d))) =
  existsb (in_block (V4 a b c d)) (LINK_LOCAL_V4 ++ (if ap then [] else PRIVATE_V4)).
Proof.
  intros Hwf. cbn in Hwf. rewrite !Forall_cons in Hwf. destruct Hwf as (Ha & Hb & Hc & Hd & _).
  destruct (v4_prefix a b c d Hb Hc Hd) as (E8 & E16 & E12 & E10). cbn zeta in *.
  unfold LINK_LOCAL_V4, PRIVATE_V4, is_link_local, is_private_or_local, v4_is_private, is_cgnat,
    all_zero, in_block, ip_bits.
  destruct ap; cbn [existsb forallb app fst snd is_ipv6 Bool.eqb negb ip_value andb];
    change (32 - 8)%N with 24%N; change (32 - 16)%N with 16%N; change (32 - 12)%N with 20%N;
    change (32 - 10)%N with 22%N; change (32 - 32)%N with 0%N;
    rewrite ?E8, ?E16, ?E12, ?E10, ?N.pow_0_r, ?N.div_1_r.
  - bool_iff. change (((169 * 256 + 254) * 256 + 0) * 256 + 0)%N with 2851995648%N.
    change (2851995648 / 2 ^ 16)%N with 43518%N. lia.
  - repeat match goal with
    | |- context [(?x / 2 ^ ?k)%N] =>
      let v := eval vm_compute in (x / 2 ^ k)%N in change (x / 2 ^ k)%N with v
    end. bool_iff.
    clear E8 E16 E12 E10.
    assert (16 * a + b / 16 = 2753 ↔ a = 172 ∧ 16 ≤ b ≤ 31)%N as -> by (by apply v4_block_12).
    assert (4 * a + b / 64 = 401 ↔ a = 100 ∧ 64 ≤ b ≤ 127)%N as -> by (by apply v4_block_10).
    assert (256 * a + b = 43518 ↔ a = 169 ∧ b = 254)%N as -> by lia.
    assert (256 * a + b = 49320 ↔ a = 192 ∧ b = 168)%N as -> by lia.
    rewrite (v4_value_inj a b c d 0 0 0 0), (v4_value_inj a b c d 255 255 255 255) by lia.
    naive_solver.
Qed.

(** Splitting a 128-bit value at bit 32. *)
Lemma div_high T v U w k : (v < 2 ^ 32 → w < 2 ^ 32 → k ≤ 32 →
  (T * 2 ^ 32 + v) / 2 ^ k = (U * 2 ^ 32 + w) / 2 ^ k ↔ T = U ∧ v / 2 ^ k = w / 2 ^ k)%N.
Proof.
  intros Hv Hw Hk. assert (0 < 2 ^ k)%N by (by apply N.neq_0_lt_0, N.pow_nonzero).
  replace 32%N with (32 - k + k)%N at 1 2 by lia. rewrite N.pow_add_r, !N.mul_assoc.
  rewrite !N.div_add_l by lia.
  assert (∀ x, x < 2 ^ 32 → x / 2 ^ k < 2 ^ (32 - k))%N as Hlt.
  { intros x Hx. apply N.Div0.div_lt_upper_bound. rewrite <-N.pow_add_r. by replace (k + (32 - k))%N with 32%N by lia. }
  apply Hlt in Hv, Hw. set (m := (2 ^ (32 - k))%N) in *. clearbody m.
  split; [|by intros [-> ->]]. intros Heq.
  assert (T = U) as ->; [|split; [done|lia]].
  transitivity ((T * m + v / 2 ^ k) / m)%N.
  - apply (N.div_unique _ _ _ (v / 2 ^ k)); lia.
  - rewrite Heq. symmetry. apply (N.div_unique _ _ _ (w / 2 ^ k)); lia.
Qed.

(** The top 96 bits of an IPv6 value. *)
Definition v6_high (a b c d e f : N) : N :=
  (((((a * 65536 + b) * 65536 + c) * 65536 + d) * 65536 + e) * 65536 + f)%N.

Lemma v6_value_split a b c d e f g h :
  ip_value (V6 a b c d e f g h) = (v6_high a b c d e f * 2 ^ 32 + (g * 65536 + h))%N.
Proof. unfold v6_high. change (2 ^ 32)%N with (65536 * 65536)%N. cbn [ip_value]. lia. Qed.

Definition v4_halves (ip : IpAddr) : N :=
  match ip with V4 a b c d => (256 * a + b) * 65536 + (256 * c + d) | _ => 0 end%N.

Lemma v6_high_inj a b c d e f x :
  (a < 65536 → b < 65536 → c < 65536 → d < 65536 → e < 65536 → f < 65536 → x < 65536 →
   v6_high a b c d e f = x ↔ a = 0 ∧ b = 0 ∧ c = 0 ∧ d = 0 ∧ e = 0 ∧ f = x)%N.
Proof. unfold v6_high. intros. split; [intros; split_and!; nia || lia|]. intros (-> & -> & -> & -> & -> & ->). lia. Qed.

Lemma to_ipv4_mapped_Some a b c d e f g h :
  to_ipv4_mapped (V6 a b c d e f g h) =
  if bool_decide (a = 0 ∧ b = 0 ∧ c = 0 ∧ d = 0 ∧ e = 0 ∧ f = 65535)%N
  then Some (V4 (g / 256) (g mod 256) (h / 256) (h mod 256)) else None.
Proof.
  case_bool_decide as Hd; [by destruct Hd as (-> & -> & -> & -> & -> & ->)|].
  assert (to_ipv4_mapped (V6 a b c d e f g h) = None ∨
    (a = 0 ∧ b = 0 ∧ c = 0 ∧ d = 0 ∧ e = 0 ∧ f = 65535)%N) as [?|?]; [|done..].
  unfold to_ipv4_mapped. repeat case_match; auto. right. by split_and!.
Qed.

Lemma halves_value g h : (g < 65536)%N → (h < 65536)%N →
  ip_value (V4 (g / 256) (g mod 256) (h / 256) (h mod 256)) = (g * 65536 + h)%N.
Proof.
  intros. cbn [ip_value]. pose proof (N.div_mod g 256 ltac:(done)).
  pose proof (N.div_mod h 256 ltac:(done)). lia.
Qed.

Lemma mapped_wf a b c d e f g h ip4 :
  ip_wf (V6 a b c d e f g h) → to_ipv4_mapped (V6 a b c d e f g h) = Some ip4 → ip_wf ip4.
Proof.
  cbn [ip_wf]. rewrite !Forall_cons, to_ipv4_mapped_Some.
  intros (_ & _ & _ & _ & _ & _ & Hg & Hh & _). case_bool_decide; [|done]. intros [= <-].
  cbn. rewrite !Forall_cons. pose proof (N.mod_lt g 256 ltac:(done)).
  pose proof (N.mod_lt h 256 ltac:(done)).
  assert (∀ x, x < 65536 → x / 256 < 256)%N as Hd by (intros; apply N.Div0.div_lt_upper_bound; lia).
  split_and!; auto.
Qed.

(** An IPv6 address is in the mapped copy of an IPv4 block exactly when it maps
    to an IPv4 address of the block. *)
Lemma in_mapped_block a b c d e f g h w x y z len :
  ip_wf (V6 a b c d e f g h) → ip_wf (V4 w x y z) → (len ≤ 32)%N →
  in_block (V6 a b c d e f g h) (mapped_block (V4 w x y z, len)) =
  match to_ipv4_mapped (V6 a b c d e f g h) with
  | Some ip4 => in_block ip4 (V4 w x y z, len)
  | None => false
  end.
Proof.
  cbn [ip_wf]. rewrite !Forall_cons. intros (Ha & Hb & Hc & Hd & He & Hf & Hg & Hh & _)
    (Hw & Hx & Hy & Hz & _) Hlen. rewrite to_ipv4_mapped_Some.
  unfold in_block, mapped_block. cbn [fst snd is_ipv6 Bool.eqb andb ip_bits].
  replace (128 - (96 + len))%N with (32 - len)%N by lia.
  rewrite !v6_value_split. apply eq_true_iff_eq.
  rewrite N.eqb_eq, div_high by lia.
  rewrite (v6_high_inj a b c d e f) by (done || reflexivity).
  case_bool_decide as Hm.
  - cbn [fst snd is_ipv6 Bool.eqb andb ip_bits]. rewrite N.eqb_eq, halves_value by done.
    replace (ip_value (V4 w x y z)) with ((256 * w + x) * 65536 + (256 * y + z))%N
      by (cbn [ip_value]; lia). tauto.
  - naive_solver.
Qed.

Lemma existsb_false {A} (p : A → bool) l : (∀ x, x ∈ l → p x = false) → existsb p l = false.
Proof.
  intros Hp. apply not_true_iff_false. intros (x & Hin & Hx)%existsb_exists.
  apply list_elem_of_In, Hp in Hin. congruence.
Qed.

Lemma existsb_map_ext {A B} (f : A → B) (p : B → bool) (q : A → bool) l :
  (∀ x, x ∈ l → p (f x) = q x) → existsb p (f <$> l) = existsb q l.
Proof.
  induction l as [|x l IH]; intros Hpq; [done|]. cbn.
  rewrite (Hpq x) by (by left). f_equal. apply IH. intros y Hy. apply Hpq. by right.
Qed.

(** The IPv4 blocks are well formed. *)
Definition v4_blocks (ap : bool) : list (IpAddr * N) :=
  LINK_LOCAL_V4 ++ (if ap then [] else PRIVATE_V4).

Lemma v4_blocks_wf ap blk : blk ∈ v4_blocks ap →
  ∃ w x y z len, blk = (V4 w x y z, len) ∧ ip_wf (V4 w x y z) ∧ (len ≤ 32)%N.
Proof.
  assert (Forall (λ blk, ∃ w x y z len, blk = (V4 w x y z, len) ∧ ip_wf (V4 w x y z) ∧ (len ≤ 32)%N)
    (LINK_LOCAL_V4 ++ PRIVATE_V4)) as Hall.
  { unfold LINK_LOCAL_V4, PRIVATE_V4. cbn [app]. rewrite !Forall_cons.
    split_and!; [..|constructor]; do 5 eexists; (split; [reflexivity|]); (split; [|done]);
      cbn [ip_wf]; rewrite !Forall_cons; split_and!; done. }
  intros Hin. rewrite Forall_forall in Hall. apply Hall. unfold v4_blocks in Hin.
  destruct ap; [rewrite app_nil_r in Hin; by apply elem_of_app; left|done].
Qed.

Lemma existsb_mapped a b c d e f g h ap :
  ip_wf (V6 a b c d e f g h) →
  existsb (in_block (V6 a b c d e f g h)) (mapped_block <$> v4_blocks ap) =
  match to_ipv4_mapped (V6 a b c d e f g h) with
  | Some ip4 => existsb (in_block ip4) (v4_blocks ap)
  | None => false
  end.
Proof.
  intros Hwf. destruct (to_ipv4_mapped _) as [ip4|] eqn:Em.
  - apply existsb_map_ext. intros blk (w & x & y & z & len & -> & Hb & Hl)%v4_blocks_wf.
    by rewrite in_mapped_block, Em.
  - apply existsb_false. intros blk' (blk & -> & Hblk)%list_elem_of_fmap.
    apply v4_blocks_wf in Hblk as (w & x & y & z & len & -> & Hb & Hl).
    by rewrite in_mapped_block, Em.
Qed.

Lemma v6_value_inj a b c d e f g h x : (x < 65536)%N → ip_wf (V6 a b c d e f g h) →
  ip_value (V6 a b c d e f g h) = x ↔
  (0 = a ∧ 0 = b ∧ 0 = c ∧ 0 = d ∧ 0 = e ∧ 0 = f ∧ 0 = g ∧ h = x)%N.
Proof.
  intros Hx. cbn [ip_wf ip_value]. rewrite !Forall_cons.
  intros (Ha & Hb & Hc & Hd & He & Hf & Hg & Hh & _). split; [|naive_solver lia].
  intros. split_and!; nia || lia.
Qed.

Lemma v6_top a b c d e f g h k : ip_wf (V6 a b c d e f g h) →
  (ip_value (V6 a b c d e f g h) / 2 ^ (112 + k) = a / 2 ^ k)%N.
Proof.
  cbn [ip_wf]. rewrite !Forall_cons. intros (Ha & Hb & Hc & Hd & He & Hf & Hg & Hh & _).
  rewrite N.pow_add_r, <-N.Div0.div_div. f_equal. symmetry.
  apply (N.div_unique _ _ _ (((((((b * 65536 + c) * 65536 + d) * 65536 + e) * 65536 + f) * 65536 + g) * 65536 + h))%N);
    change (2 ^ 112)%N with 5192296858534827628530496329220096%N; cbn [ip_value]; lia.
Qed.

Lemma denied_v6 a b c d e f g h ap :
  ip_wf (V6 a b c d e f g h) →
  (is_link_local (V6 a b c d e f g h) || (negb ap && is_private_or_local (V6 a b c d e f g h))) =
  existsb (in_block (V6 a b c d e f g h)) (V6_LINK_LOCAL ++ (if ap then [] else V6_PRIVATE)).
Proof.
  intros Hwf. pose proof (v6_top a b c d e f g h 6 Hwf) as E10.
  pose proof (v6_top a b c d e f g h 9 Hwf) as E7.
  pose proof (v6_value_inj a b c d e f g h 0 ltac:(done) Hwf) as E0.
  pose proof (v6_value_inj a b c d e f g h 1 ltac:(done) Hwf) as E1.
  assert (a < 65536)%N as Ha by (cbn in Hwf; by apply Forall_cons in Hwf as [? _]).
  unfold is_link_local, is_private_or_local, V6_LINK_LOCAL, V6_PRIVATE, all_zero, in_block.
  rewrite mask_ffc0, mask_fe00 by done.
  pose proof (mask_eq a 64 1018 Ha ltac:(done)) as M1.
  pose proof (mask_eq a 512 126 Ha ltac:(done)) as M2.
  assert (0 = h ↔ h = 0)%N as Hh by (split; by intros).
  destruct ap; cbn [existsb forallb app fst snd is_ipv6 Bool.eqb negb andb ip_bits];
    change (128 - 10)%N with (112 + 6)%N; change (128 - 7)%N with (112 + 9)%N;
    change (128 - 128)%N with 0%N; rewrite ?N.pow_0_r, ?N.div_1_r, ?E10, ?E7;
    change (2 ^ 6)%N with 64%N; change (2 ^ 9)%N with 512%N;
    change (ip_value (V6 65152 0 0 0 0 0 0 0) / 2 ^ (112 + 6))%N with 1018%N;
    change (ip_value (V6 64512 0 0 0 0 0 0 0) / 2 ^ (112 + 9))%N with 126%N;
    change (ip_value (V6 0 0 0 0 0 0 0 0)) with 0%N;
    change (ip_value (V6 0 0 0 0 0 0 0 1)) with 1%N; bool_iff.
  - rewrite <-M1. tauto.
  - rewrite E0, E1, <-M1, <-M2. assert (true = true ↔ True) as -> by done.
    assert (false = true ↔ False) as -> by done. tauto.
Qed.

(** C40. The deny set is exactly a table of address blocks: an address is refused
    when it lies in link-local [169.254.0.0/16] or [fe80::/10], or, unless
    private destinations are allowed, in loopback, RFC 1918, carrier-grade NAT,
    unspecified, broadcast or unique-local space; an IPv4-mapped IPv6 address
    is judged as the IPv4 address it stands for. *)
Theorem ip_is_denied_blocks ip allow_private :
  ip_wf ip →
  ip_is_denied ip allow_private = existsb (in_block ip) (denied_blocks allow_private).
Proof.
  intros Hwf. unfold ip_is_denied, denied_blocks. fold (v4_blocks allow_private).
  rewrite !existsb_app.
  assert (∀ ip0, (if is_link_local ip0 then true
    else if allow_private then false else is_private_or_local ip0) =
    is_link_local ip0 || (negb allow_private && is_private_or_local ip0)) as Hif
    by (intros ip0; by destruct (is_link_local ip0), allow_private).
  rewrite Hif. destruct ip as [a b c d|a b c d e f g h].
  - cbn [to_ipv4_mapped from_option id]. rewrite denied_v4 by done. fold (v4_blocks allow_private).
    rewrite (existsb_false _ (mapped_block <$> _)), (existsb_false _ V6_LINK_LOCAL),
      (existsb_false _ (if allow_private then _ else _)), ?orb_false_r; [done|..].
    + intros blk Hin. destruct allow_private; [by apply elem_of_nil in Hin|].
      unfold V6_PRIVATE in Hin. rewrite !elem_of_cons, elem_of_nil in Hin. naive_solver.
    + intros blk Hin. by apply list_elem_of_singleton in Hin as ->.
    + intros blk' (blk & -> & Hblk)%list_elem_of_fmap.
      by apply v4_blocks_wf in Hblk as (w & x & y & z & len & -> & _).
  - rewrite existsb_mapped by done. rewrite (existsb_false _ (v4_blocks allow_private)).
    2:{ intros blk (w & x & y & z & len & -> & _)%v4_blocks_wf. done. }
    rewrite <-existsb_app, <-denied_v6 by done. cbn [orb].
    destruct (to_ipv4_mapped _) as [ip4|] eqn:Em; cbn [from_option id]; [|done].
    assert (ip_wf ip4) as Hwf4 by (by eapply mapped_wf).
    rewrite to_ipv4_mapped_Some in Em. case_bool_decide as Hm; [|done].
    injection Em as <-. rewrite denied_v4 by done. fold (v4_blocks allow_private).
    destruct Hm as (-> & -> & -> & -> & -> & ->). cbn. by rewrite andb_false_r, orb_false_r.
Qed.

(** ** Witnesses *)

Lemma parse_ip_wf_witness : ip_wf (V6 0 0 0 0 0 65535 43518 43518).
Proof. apply (parse_ip_wf "::ffff:169.254.169.254"). reflexivity. Defined.

Lemma ipv4_roundtrip_witness : parse_ip (ipv4_to_string 169 254 0 7) = Some (V4 169 254 0 7).
Proof. apply ipv4_roundtrip. cbn. rewrite !Forall_cons. by split_and!. Defined.

Lemma ip_is_denied_blocks_witness :
  ip_is_denied (V6 0 0 0 0 0 65535 2560 1) false = true ∧
  ip_is_denied (V6 0 0 0 0 0 65535 2560 1) false =
    existsb (in_block (V6 0 0 0 0 0 65535 2560 1)) (denied_blocks false).
Proof.
  split; [reflexivity|]. apply ip_is_denied_blocks. cbn. rewrite !Forall_cons. by split_and!.
Defined.
