(* ===== verification/Dial.v ===== *)
(** * Private destinations ([cctui-guard-proxy/src/private_allow.rs])

    The list of hosts that may reach private addresses, its seeded file, and
    the resolution that turns a host into the addresses to dial.  Name
    resolution is the operating system's and enters as the function [lookup].
    Log lines are left out; the set of logged keys only suppresses them. *)

From stdpp Require Import base decidable list strings sets sorting.
From Stdlib Require Import Lia ZArith NArith Bool Ascii String Permutation.
From S2P Require Import Prelude RustStr Http Net.

Definition CONTROL_PLANE_URLS : list string :=
  ["CCTUI_URL"; "CCTUI_SERVER_URL"; "CCTUI_BASE_URL"; "REPLY_URL"; "ANTHROPIC_BASE_URL";
   "OPENAI_BASE_URL"; "FIREWORKS_BASE_URL"; "GOOGLE_GEMINI_BASE_URL"].

Record Entry := mkEntry { e_host : string; e_port : option N; e_source : string }.

#[export] Instance Entry_eq_dec : EqDecision Entry.
Proof. solve_decision. Defined.

Definition Entry_matches (e : Entry) (host : string) (port : N) : bool :=
  (e_host e ==s host) && match e_port e with None => true | Some p => (p =? port)%N end.

Record Seeded := mkSeeded { sd_mtime : option Z; sd_entries : list Entry }.

(** Why [decide] refuses: an address of the built-in deny set, a host that is
    not listed, or an original destination the host does not resolve to. *)
Inductive DenyReason :=
| ResolvesToDenied (ip : IpAddr)
| NotListed
| ForeignDestination (dst : IpAddr) (rule : string).

Inductive DialDecision := Public | Allowed (rule : string) | Denied (reason : DenyReason).

(** [pa_file]: whether a list file is configured. *)
Record PrivateAllow := mkPrivateAllow {
  pa_legacy : bool;
  pa_fixed : list Entry;
  pa_file : bool;
  pa_seeded : Seeded;
}.

(** ** Entries *)

(** The port text of an entry: absent or [*] is any port. *)
Definition entry_port (port : option string) : option (option N) :=
  match port with
  | None => Some None
  | Some p => if p ==s "*" then Some None else Some <$> parse_u16 p
  end.

Definition parse_entry (raw source : string) : option Entry :=
  let raw := to_ascii_lowercase (trim raw) in
  '(host, port) ←
    match strip_prefix "[" raw with
    | Some rest =>
      '(host, tail) ← split_once (Ascii.eqb "]") rest;
      Some (host, strip_prefix ":" tail)
    | None =>
      if (1 <? count_char (Ascii.eqb ":") raw)%nat then Some (raw, None)
      else Some match split_once (Ascii.eqb ":") raw with
                | Some (h, p) => (h, Some p)
                | None => (raw, None)
                end
    end;
  port ← entry_port port;
  if is_empty host then None else Some (mkEntry host port source).

Definition scheme_port (scheme : string) : option N :=
  let s := to_ascii_lowercase scheme in
  if (s ==s "https") || (s ==s "wss") then Some 443%N
  else if (s ==s "http") || (s ==s "ws") then Some 80%N
  else None.

Definition url_entry (url source : string) : option Entry :=
  '(scheme, rest) ← split_once_str "://" (trim url);
  let authority := hd "" (split (ascii_in ["/"; "?"; "#"]%char) rest) in
  let authority := match rsplit_once (Ascii.eqb "@") authority with
                   | Some (_, a) => a | None => authority end in
  e ← parse_entry authority source;
  Some match e_port e with
       | None => mkEntry (e_host e) (scheme_port scheme) (e_source e)
       | Some _ => e
       end.

(** [s.split_once(char::is_whitespace)]. *)
Fixpoint split_once_ws (s : string) : option (string * string) :=
  match strip_ws s with
  | Some r => Some ("", r)
  | None =>
    match s with
    | "" => None
    | String c r => prod_map (String c) id <$> split_once_ws r
    end
  end.

Definition list_line (source l : string) : option Entry :=
  let '(host_port, label) :=
    match split_once_ws l with Some (h, rest) => (h, trim rest) | None => (l, "") end in
  if is_empty label then parse_entry host_port source
  else parse_entry host_port (source ++s ": " ++s label).

Definition parse_list (text source : string) : list Entry :=
  omap (list_line source)
    (filter (λ l, is_empty l = false ∧ starts_with "#" l = false) (trim <$> lines text)).

(** [build]; [env] reads the process environment. *)
Definition build (legacy : bool) (env : string → option string) (inject_hosts : list string)
    (file : bool) : PrivateAllow :=
  mkPrivateAllow legacy
    (omap (λ k, v ← env k; url_entry v k) CONTROL_PLANE_URLS ++
     match env "GUARD_PROXY_PRIVATE_ALLOW" with
     | Some l => omap (λ e, parse_entry e "GUARD_PROXY_PRIVATE_ALLOW") (split_char "," l)
     | None => []
     end ++
     omap (λ h, parse_entry h "injection rule") inject_hosts)
    file (mkSeeded None []).

(** ** The list in force *)

(** The list file as one call sees it: its modification time, if it has one,
    and its text, if it can be read as UTF-8. *)
Record ListFile := mkListFile { lf_mtime : option Z; lf_text : option string }.

Definition refresh (f : ListFile) (pa : PrivateAllow) : PrivateAllow :=
  if negb (pa_file pa) || bool_decide (sd_mtime (pa_seeded pa) = lf_mtime f) then pa
  else
    let entries := match lf_text f with
                   | Some text => parse_list text "control-plane list"
                   | None => []
                   end in
    mkPrivateAllow (pa_legacy pa) (pa_fixed pa) (pa_file pa) (mkSeeded (lf_mtime f) entries).

(** The entries a lookup consults. *)
Definition entries_of (pa : PrivateAllow) : list Entry := pa_fixed pa ++ sd_entries (pa_seeded pa).

Definition rule_for (f : ListFile) (pa : PrivateAllow) (host : string) (port : N) :
    PrivateAllow * option string :=
  let host := bare_host host in
  let pa := refresh f pa in
  (pa, e_source <$> find (λ e, Entry_matches e host port) (entries_of pa)).

Definition exempts (f : ListFile) (pa : PrivateAllow) (host : string) (port : N) :
    PrivateAllow * bool :=
  if pa_legacy pa then (pa, true)
  else let '(pa, r) := rule_for f pa host port in (pa, bool_decide (is_Some r)).

(** ** Resolution *)

Definition is_private (ip : IpAddr) : bool := ip_is_denied ip false.

Definition decide_dial (f : ListFile) (pa : PrivateAllow) (host : string) (port : N)
    (addrs : list SocketAddr) (orig_dst : option IpAddr) : PrivateAllow * DialDecision :=
  match find (λ a, ip_is_denied (sa_ip a) true) addrs with
  | Some a => (pa, Denied (ResolvesToDenied (sa_ip a)))
  | None =>
    let dst_private := match orig_dst with Some d => is_private d | None => false end in
    if negb dst_private && negb (existsb (λ a, is_private (sa_ip a)) addrs) then (pa, Public)
    else if pa_legacy pa then (pa, Allowed "GUARD_PROXY_ALLOW_PRIVATE_IPS")
    else
      let '(pa, rule) := rule_for f pa host port in
      match rule with
      | None => (pa, Denied NotListed)
      | Some rule =>
        match orig_dst with
        | Some dst =>
          if dst_private && negb (existsb (λ a, bool_decide (sa_ip a = dst)) addrs)
          then (pa, Denied (ForeignDestination dst rule))
          else (pa, Allowed rule)
        | None => (pa, Allowed rule)
        end
      end
  end.

Definition join_host_port (host : string) (port : N) : string :=
  if contains_char (Ascii.eqb ":") host && negb (starts_with "[" host)
  then "[" ++s host ++s "]:" ++s u32_to_string port
  else host ++s ":" ++s u32_to_string port.

(** [slice::sort_by_key] is a stable sort: an element goes before the first one
    whose key is not smaller. *)
Definition key_leb (x y : bool * bool) : bool :=
  if Bool.eqb x.1 y.1 then implb x.2 y.2 else negb x.1.

Fixpoint insert_by_key {A} (key : A → bool * bool) (x : A) (l : list A) : list A :=
  match l with
  | [] => [x]
  | y :: l' => if key_leb (key x) (key y) then x :: l else y :: insert_by_key key x l'
  end.

Definition sort_by_key {A} (key : A → bool * bool) (l : list A) : list A :=
  foldr (insert_by_key key) [] l.

Definition dial_key (orig_dst : option IpAddr) (a : SocketAddr) : bool * bool :=
  (negb (bool_decide (Some (sa_ip a) = orig_dst)), is_ipv6 (sa_ip a)).

Definition dial_order (addrs : list SocketAddr) (orig_dst : option IpAddr) : list SocketAddr :=
  sort_by_key (dial_key orig_dst) addrs.

Inductive ResolveError := LookupFailed | NoAddresses | Refused (reason : DenyReason).

(** [resolve]; [lookup] is [tokio::net::lookup_host], [None] its error. *)
Definition resolve (lookup : string → option (list SocketAddr)) (f : ListFile)
    (pa : PrivateAllow) (host : string) (port : N) (orig_dst : option IpAddr) :
    PrivateAllow * result ResolveError (list SocketAddr) :=
  match lookup (join_host_port host port) with
  | None => (pa, Err LookupFailed)
  | Some [] => (pa, Err NoAddresses)
  | Some addrs =>
    let addrs := dial_order addrs orig_dst in
    let '(pa, d) := decide_dial f pa host port addrs orig_dst in
    (pa, match d with
         | Public | Allowed _ => Ok addrs
         | Denied reason => Err (Refused reason)
         end)
  end.

Example parse_entry_port :
  parse_entry " GitLab.Lan:8443 " "env" = Some (mkEntry "gitlab.lan" (Some 8443%N) "env").
Proof. reflexivity. Qed.
Example parse_entry_any : parse_entry "redis:*" "env" = Some (mkEntry "redis" None "env").
Proof. reflexivity. Qed.
Example parse_entry_v6 : parse_entry "[::1]:80" "env" = Some (mkEntry "::1" (Some 80%N) "env").
Proof. reflexivity. Qed.
Example parse_entry_bad_port : parse_entry "redis:http" "env" = None.
Proof. reflexivity. Qed.
Example url_entry_userinfo :
  url_entry "https://u:p@cctui.svc/api?x" "CCTUI_URL" = Some (mkEntry "cctui.svc" (Some 443%N) "CCTUI_URL").
Proof. reflexivity. Qed.

(** ** Facts: dial order *)

Section sorting.
Context {A : Type} (key : A → bool * bool).

Definition with_key (k : bool * bool) (l : list A) : list A := filter (λ a, key a = k) l.

(** The elements grouped by key in ascending order, each group in list order. *)
Definition by_key (l : list A) : list A :=
  with_key (false, false) l ++ with_key (false, true) l ++ with_key (true, false) l ++
  with_key (true, true) l.

Lemma insert_before x (l r : list A) :
  Forall (λ y, key_leb (key x) (key y) = false) l →
  insert_by_key key x (l ++ r) = l ++ insert_by_key key x r.
Proof. induction 1 as [|y l Hy _ IH]; cbn; [done|]. by rewrite Hy, IH. Qed.

Lemma insert_head x (l : list A) :
  Forall (λ y, key_leb (key x) (key y) = true) l → insert_by_key key x l = x :: l.
Proof. destruct 1 as [|y l Hy _]; cbn; [done|]. by rewrite Hy. Qed.

Lemma with_key_le b x k l :
  key_leb (key x) k = b → Forall (λ y, key_leb (key x) (key y) = b) (with_key k l).
Proof.
  intros Hk. apply Forall_forall. intros y Hy. unfold with_key in Hy.
  apply list_elem_of_filter in Hy as [-> _]. done.
Qed.

(** A stable sort on a two-bit key groups by key and keeps the order inside
    each group. *)
Lemma sort_by_key_groups l : sort_by_key key l = by_key l.
Proof.
  induction l as [|x l IH]; [done|]. cbn [sort_by_key foldr]. fold (sort_by_key key l).
  rewrite IH. unfold by_key.
  assert (∀ k, with_key k (x :: l) = if decide (key x = k) then x :: with_key k l else with_key k l)
    as Hc by (intros k; unfold with_key; by rewrite filter_cons).
  rewrite !Hc. destruct (key x) as [[] []] eqn:Ek;
    repeat (destruct (decide (_ = _)) as [?|?]; [try congruence|try congruence]);
    repeat (rewrite insert_before by (apply with_key_le; by rewrite Ek));
    (rewrite insert_head; [by rewrite <-?app_assoc|]);
    rewrite ?Forall_app; repeat split; apply with_key_le; by rewrite Ek.
Qed.

Lemma sort_by_key_perm l : sort_by_key key l ≡ₚ l.
Proof.
  induction l as [|x l IH]; [done|]. cbn [sort_by_key foldr]. fold (sort_by_key key l).
  rewrite <-IH at 2. generalize (sort_by_key key l). clear. intros l.
  induction l as [|y l IH]; cbn; [done|]. destruct (key_leb _ _); [done|].
  rewrite IH. apply Permutation_swap.
Qed.
End sorting.

Section dial_keys.
Context (orig_dst : option IpAddr).
#[local] Abbreviation group k := (with_key (dial_key orig_dst) k).

Lemma dial_key_iff a x y :
  dial_key orig_dst a = (x, y) ↔
  (if x then Some (sa_ip a) ≠ orig_dst else Some (sa_ip a) = orig_dst) ∧ is_ipv6 (sa_ip a) = y.
Proof. unfold dial_key. destruct x; case_bool_decide; cbn; naive_solver. Qed.

Lemma other_group v6 addrs :
  group (true, v6) addrs = filter (λ a, Some (sa_ip a) ≠ orig_dst ∧ is_ipv6 (sa_ip a) = v6) addrs.
Proof. apply list_filter_iff. intros a. apply (dial_key_iff a true v6). Qed.

(** Addresses equal to the original destination share its family. *)
Lemma own_group addrs :
  group (false, false) addrs ++ group (false, true) addrs =
  filter (λ a, Some (sa_ip a) = orig_dst) addrs.
Proof.
  set (v6 := match orig_dst with Some d => is_ipv6 d | None => false end).
  assert (∀ b, group (false, b) addrs =
    if Bool.eqb b v6 then filter (λ a, Some (sa_ip a) = orig_dst) addrs else []) as H.
  { intros b. induction addrs as [|a l IH]; [by destruct (Bool.eqb b v6)|].
    unfold with_key in *. rewrite !filter_cons, IH. clear IH.
    destruct (decide (dial_key orig_dst a = (false, b))) as [[Hd Hb]%dial_key_iff|Hn].
    - subst v6. rewrite <-Hd in *. rewrite Hb, eqb_reflx, decide_True by done. done.
    - destruct (Bool.eqb b v6) eqn:Eb; [|done]. apply eqb_prop in Eb.
      rewrite decide_False; [done|]. intros Hd. apply Hn, dial_key_iff. subst v6 b.
      rewrite <-Hd. done. }
  rewrite !H. by destruct v6; rewrite ?app_nil_r.
Qed.
End dial_keys.

(** The addresses are dialed in this order: the worker's own original
    destination, then the other IPv4 addresses, then the other IPv6 addresses,
    each group as the resolver listed it, and no address is added or lost. *)
Theorem dial_order_groups addrs orig_dst :
  dial_order addrs orig_dst =
    filter (λ a, Some (sa_ip a) = orig_dst) addrs ++
    filter (λ a, Some (sa_ip a) ≠ orig_dst ∧ is_ipv6 (sa_ip a) = false) addrs ++
    filter (λ a, Some (sa_ip a) ≠ orig_dst ∧ is_ipv6 (sa_ip a) = true) addrs ∧
  dial_order addrs orig_dst ≡ₚ addrs.
Proof.
  split; [|apply sort_by_key_perm].
  unfold dial_order. rewrite sort_by_key_groups. unfold by_key.
  by rewrite app_assoc, own_group, !other_group.
Qed.

(** ** Facts: what may be dialed *)

(** An entry of the list, as it stands once refreshed, names the host. *)
Definition listed (f : ListFile) (pa : PrivateAllow) (host : string) (port : N) : Prop :=
  ∃ e, e ∈ entries_of (refresh f pa) ∧ e_host e = bare_host host ∧
    (e_port e = None ∨ e_port e = Some port).

Lemma find_Some_iff {A} (p : A → bool) l : is_Some (find p l) ↔ ∃ x, x ∈ l ∧ p x = true.
Proof.
  induction l as [|x l IH]; cbn.
  - split; [by intros [? ?]|]. intros (x & Hx & _). by apply elem_of_nil in Hx.
  - destruct (p x) eqn:Ep.
    + split; [intros _; exists x; split; [by left|done]|done].
    + rewrite IH. split; intros (y & Hy & Hp); exists y; (split; [|done]).
      * by right.
      * apply elem_of_cons in Hy as [->|?]; [congruence|done].
Qed.

Lemma Entry_matches_iff e host port :
  Entry_matches e host port = true ↔ e_host e = host ∧ (e_port e = None ∨ e_port e = Some port).
Proof.
  unfold Entry_matches. rewrite andb_true_iff, String.eqb_eq.
  destruct (e_port e) as [p|]; [rewrite N.eqb_eq|]; naive_solver.
Qed.

Lemma rule_for_listed f pa host port :
  is_Some (rule_for f pa host port).2 ↔ listed f pa host port.
Proof.
  unfold rule_for, listed. cbn [snd]. rewrite fmap_is_Some, find_Some_iff.
  by setoid_rewrite Entry_matches_iff.
Qed.

Lemma exempts_iff f pa host port :
  (exempts f pa host port).2 = true ↔ pa_legacy pa = true ∨ listed f pa host port.
Proof.
  unfold exempts. destruct (pa_legacy pa); [naive_solver|].
  rewrite <-rule_for_listed. destruct (rule_for f pa host port) as [pa' r]. cbn.
  rewrite bool_decide_eq_true. naive_solver.
Qed.

(** A private address is involved: one the host resolves to, or the original
    destination. *)
Definition touches_private (addrs : list SocketAddr) (orig_dst : option IpAddr) : Prop :=
  (∃ a, a ∈ addrs ∧ is_private (sa_ip a) = true) ∨ (∃ d, orig_dst = Some d ∧ is_private d = true).

(** What a private destination needs: the blanket opt-out, or a listed host of
    which the original destination, if private, is an address. *)
Definition private_ok (f : ListFile) (pa : PrivateAllow) (host : string) (port : N)
    (addrs : list SocketAddr) (orig_dst : option IpAddr) : Prop :=
  pa_legacy pa = true ∨
  (listed f pa host port ∧
   ∀ d, orig_dst = Some d → is_private d = true → ∃ a, a ∈ addrs ∧ sa_ip a = d).

Definition dial_permitted (d : DialDecision) : bool :=
  match d with Denied _ => false | _ => true end.

Lemma existsb_spec {A} (p : A → bool) l : existsb p l = true ↔ ∃ x, x ∈ l ∧ p x = true.
Proof. rewrite existsb_exists. by setoid_rewrite list_elem_of_In. Qed.

Lemma decide_dial_iff f pa host port addrs orig_dst :
  dial_permitted (decide_dial f pa host port addrs orig_dst).2 = true ↔
  (∀ a, a ∈ addrs → ip_is_denied (sa_ip a) true = false) ∧
  (touches_private addrs orig_dst → private_ok f pa host port addrs orig_dst).
Proof.
  unfold decide_dial. destruct (find _ addrs) as [a|] eqn:Ef.
  { split; [done|]. intros [Hall _]. apply find_some in Ef as [Hin Hd].
    rewrite Hall in Hd; [done|by apply list_elem_of_In]. }
  assert (∀ a, a ∈ addrs → ip_is_denied (sa_ip a) true = false) as Hlink.
  { intros a Ha%list_elem_of_In. by apply (find_none _ _ Ef) in Ha. }
  cbv zeta. set (dp := match orig_dst with Some d => is_private d | None => false end).
  assert (touches_private addrs orig_dst ↔
    (dp || existsb (λ a, is_private (sa_ip a)) addrs = true)) as Ht.
  { unfold touches_private, dp. rewrite orb_true_iff, existsb_spec. destruct orig_dst; naive_solver. }
  rewrite Ht, <-negb_orb. destruct (dp || existsb _ addrs); cbn [negb]; [|naive_solver].
  unfold private_ok. destruct (pa_legacy pa); [naive_solver|].
  pose proof (rule_for_listed f pa host port) as Hr.
  destruct (rule_for f pa host port) as [pa' [rule|]]; cbn [snd] in Hr.
  2:{ split; [done|]. intros [_ Hp]. destruct (Hp eq_refl) as [?|[Hl _]]; [done|].
      apply Hr in Hl as [? ?]. done. }
  assert (listed f pa host port) as Hl by (by apply Hr).
  assert (∀ Q : Prop, Q → true = true ↔ (∀ a, a ∈ addrs → ip_is_denied (sa_ip a) true = false) ∧
    (true = true → false = true ∨ listed f pa host port ∧ Q)) as Hyes.
  { intros Q HQ. split; [|done]. intros _. split; [done|]. intros _. right. by split. }
  clear Hr Ht Ef. destruct orig_dst as [d|]; [|by apply Hyes]. subst dp.
  destruct (is_private d) eqn:Ed; cbn [andb]; [|apply Hyes; intros ? [= <-]; congruence].
  destruct (existsb _ addrs) eqn:Ex; cbn [negb].
  - apply existsb_spec in Ex as (a & Ha & Heq%bool_decide_eq_true).
    apply Hyes. intros d' [= <-] _. by exists a.
  - split; [done|]. intros [_ Hp]. destruct (Hp eq_refl) as [?|[_ Hd]]; [done|].
    destruct (Hd d eq_refl Ed) as (a & Ha & Heq). apply not_true_iff_false in Ex.
    destruct Ex. apply existsb_spec. exists a. by rewrite bool_decide_eq_true.
Qed.

Lemma dial_resolve_spec lookup f pa host port orig_dst addrs :
  (resolve lookup f pa host port orig_dst).2 = Ok addrs ↔
  ∃ answer, lookup (join_host_port host port) = Some answer ∧ answer ≠ [] ∧
    addrs = dial_order answer orig_dst ∧
    (∀ a, a ∈ addrs → ip_is_denied (sa_ip a) true = false) ∧
    (touches_private addrs orig_dst → private_ok f pa host port addrs orig_dst).
Proof.
  unfold resolve. destruct (lookup _) as [[|a0 rest]|]; [naive_solver| |naive_solver].
  set (answer := a0 :: rest). pose proof (decide_dial_iff f pa host port
    (dial_order answer orig_dst) orig_dst) as Hd.
  destruct (decide_dial _ _ _ _ _ _) as [pa' d]. cbn [snd] in *. split.
  - intros Hok. exists answer. destruct d; simplify_eq; destruct Hd as [Hd _];
      (split; [done|]; split; [done|]; split; [done|]; by apply Hd).
  - intros (answer' & [= <-] & _ & -> & Hlink & Hpriv).
    destruct d; [done..|]. destruct Hd as [_ Hd]. by specialize (Hd (conj Hlink Hpriv)).
Qed.

(** Resolution hands out addresses exactly when it is safe to dial all of
    them: they are the proxy's own answer for the host, reordered; none is
    link-local, under any setting; and if one of them or the original
    destination is private, either the blanket opt-out is on or the host and
    port are on the list as it stands now and a private original destination
    is one of the host's own addresses. *)
Theorem resolve_ok_iff lookup f pa host port orig_dst addrs :
  (resolve lookup f pa host port orig_dst).2 = Ok addrs ↔
  ∃ answer, lookup (join_host_port host port) = Some answer ∧ answer ≠ [] ∧
    addrs = dial_order answer orig_dst ∧
    (∀ a, a ∈ addrs → ip_is_denied (sa_ip a) true = false) ∧
    (touches_private addrs orig_dst → private_ok f pa host port addrs orig_dst).
Proof. apply dial_resolve_spec. Qed.

(** ** Witnesses *)

Definition lan_allow : PrivateAllow :=
  build false (λ k, if k ==s "GUARD_PROXY_PRIVATE_ALLOW" then Some "gitlab.lan:443" else None) [] false.

Definition lan_lookup (hp : string) : option (list SocketAddr) :=
  if hp ==s "gitlab.lan:443" then
    Some [mkSocketAddr (V6 9734 18176 0 0 0 0 0 1) 443; mkSocketAddr (V4 10 0 0 7) 443]
  else None.

Lemma resolve_lan :
  (resolve lan_lookup (mkListFile None None) lan_allow "gitlab.lan" 443 (Some (V4 10 0 0 7))).2 =
  Ok [mkSocketAddr (V4 10 0 0 7) 443; mkSocketAddr (V6 9734 18176 0 0 0 0 0 1) 443].
Proof. reflexivity. Qed.
