(* ===== verification/Peek.v ===== *)
(** * Recovering a host name ([cctui-guard-proxy/src/peek.rs])

    The TLS and HTTP readers the transparent proxy applies to the first bytes
    of a connection.  Every indexing and slicing is checked as Rust checks it:
    the outer [None] is a panic, the inner one "no name found".  Offsets are
    [N], so that a 24-bit length costs nothing. *)

From stdpp Require Import base decidable list strings.
From Stdlib Require Import Lia ZArith NArith Bool Ascii String.
From S2P Require Import Prelude RustStr Http.

(** ** Indexing *)

(** [data[i]]. *)
Definition byte_at (data : string) (i : N) : option N :=
  match sdrop (N.to_nat i) data with String c _ => Some (N_of_ascii c) | "" => None end.

(** [u16::from_be_bytes([data[i], data[i + 1]])]. *)
Definition be16_at (data : string) (i : N) : option N :=
  a ← byte_at data i; b ← byte_at data (i + 1); Some (256 * a + b)%N.

(** [u32::from_be_bytes([0, data[i], data[i + 1], data[i + 2]])]. *)
Definition be24_at (data : string) (i : N) : option N :=
  a ← byte_at data i; b ← be16_at data (i + 1); Some (65536 * a + b)%N.

(** [&data[a..b]]. *)
Definition slice (data : string) (a b : N) : option string :=
  if (a <=? b)%N && (b <=? blen data)%N then Some (btake (b - a) (bdrop a data)) else None.

(** ** TLS *)

Fixpoint sni_names (fuel : nat) (data : string) (list_len pos : N) : option (option string) :=
  match fuel with
  | O => None
  | S fuel =>
    if (pos <? blen data)%N && (pos - 2 <? list_len)%N then
      if (blen data <? pos + 3)%N then Some None else
      name_type ← byte_at data pos;
      name_len ← be16_at data (pos + 1);
      let pos := (pos + 3)%N in
      if (blen data <? pos + name_len)%N then Some None else
      name ← slice data pos (pos + name_len);
      let pos := (pos + name_len)%N in
      if (name_type =? 0)%N then Some (if utf8_valid name then Some name else None)
      else sni_names fuel data list_len pos
    else Some None
  end.

(** Every turn moves [pos] by at least three. *)
Definition parse_sni_extension (data : string) : option (option string) :=
  if (blen data <? 2)%N then Some None else
  list_len ← be16_at data 0;
  sni_names (S (String.length data)) data list_len 2.

Fixpoint sni_extensions (fuel : nat) (data : string) (extensions_end pos : N) :
    option (option string) :=
  match fuel with
  | O => None
  | S fuel =>
    if (pos <? extensions_end)%N then
      if (extensions_end <? pos + 4)%N then Some None else
      ext_type ← be16_at data pos;
      ext_len ← be16_at data (pos + 2);
      let pos := (pos + 4)%N in
      if (extensions_end <? pos + ext_len)%N then Some None else
      ext_data ← slice data pos (pos + ext_len);
      let pos := (pos + ext_len)%N in
      if (ext_type =? 0)%N then parse_sni_extension ext_data
      else sni_extensions fuel data extensions_end pos
    else Some None
  end.

(** From the session identifier on, at offset [pos]. *)
Definition sni_after_random (data : string) (pos : N) : option (option string) :=
  if (blen data <=? pos)%N then Some None else
  session_id_len ← byte_at data pos;
  let pos := (pos + 1 + session_id_len)%N in
  if (blen data <? pos + 2)%N then Some None else
  cipher_suites_len ← be16_at data pos;
  let pos := (pos + 2 + cipher_suites_len)%N in
  if (blen data <? pos + 2)%N then Some None else
  compression_len ← byte_at data pos;
  let pos := (pos + 1 + compression_len)%N in
  if (blen data <? pos + 2)%N then Some None else
  extensions_len ← be16_at data pos;
  let pos := (pos + 2)%N in
  let extensions_end := (pos + extensions_len)%N in
  if (blen data <? extensions_end)%N then Some None else
  sni_extensions (S (String.length data)) data extensions_end pos.

Definition extract_sni (data : string) : option (option string) :=
  if (blen data <? 5)%N then Some None else
  record_type ← byte_at data 0;
  if negb (record_type =? 22)%N then Some None else
  length ← be16_at data 3;
  if (blen data <? 5 + length)%N then Some None else
  if (blen data <? 9)%N then Some None else
  handshake_type ← byte_at data 5;
  if negb (handshake_type =? 1)%N then Some None else
  handshake_len ← be24_at data 6;
  if (blen data <? 9 + handshake_len)%N then Some None else
  sni_after_random data (9 + (2 + 32)).

(** ** HTTP *)

Definition HTTP_METHODS : list string :=
  ["GET "; "POST "; "PUT "; "HEAD "; "DELETE "; "PATCH "; "OPTIONS "; "CONNECT "; "TRACE "].

Definition looks_like_http_request_line (line : string) : bool :=
  existsb (λ m, starts_with m line) HTTP_METHODS.

(** [text.replace("\r\n", "\n")]. *)
Fixpoint replace_crlf (s : string) : string :=
  match s with
  | "" => ""
  | String c r =>
    match r with
    | String d _ =>
      if Ascii.eqb c creturn && Ascii.eqb d newline then replace_crlf r
      else String c (replace_crlf r)
    | "" => s
    end
  end.

(** The host of a [Host:] value, its port dropped unless it has a bracket. *)
Definition host_of_value (value : string) : string :=
  let host := trim value in
  if contains_char (Ascii.eqb "]") host then host
  else match rsplit_once (Ascii.eqb ":") host with Some (h, _) => h | None => host end.

(** One line: [line[..5]] panics when offset five is inside a character. *)
Definition host_line (line : string) : option (option string) :=
  if (5 <=? String.length line)%nat then
    if is_char_boundary 5 line then
      Some (if eq_ignore_ascii_case (stake 5 line) "host:"
            then Some (host_of_value (sdrop 5 line)) else None)
    else None
  else Some None.

Fixpoint host_in_lines (ls : list string) : option (option string) :=
  match ls with
  | [] => Some None
  | l :: ls =>
    if is_empty l then Some None
    else
      h ← host_line l;
      match h with Some host => Some (Some host) | None => host_in_lines ls end
  end.

Definition extract_http_host (data : string) : option (option string) :=
  if looks_like_http_request_line (hd "" (split_char newline data)) then
    host_in_lines (split_char newline (replace_crlf (from_utf8_lossy data)))
  else Some None.

Example host_example :
  extract_http_host ("GET / HTTP/1.1" ++s crlf ++s "HOST: Example.com:8080" ++s crlf ++s crlf) =
  Some (Some "Example.com").
Proof. reflexivity. Qed.
Example host_panic : extract_http_host ("GET é HTTP/1.1" ++s crlf ++s "Host: a" ++s crlf) = None.
Proof. reflexivity. Qed.

(** ** Facts: indexing *)

Lemma byte_at_Some data i : (i < blen data)%N → ∃ b, byte_at data i = Some b ∧ (b < 256)%N.
Proof.
  unfold byte_at, blen. intros Hi. pose proof (sdrop_length (N.to_nat i) data).
  destruct (sdrop _ _) as [|c r]; cbn in *; [lia|]. eexists. split; [done|]. apply N_ascii_bounded.
Qed.

Lemma be16_at_Some data i : (i + 1 < blen data)%N → ∃ n, be16_at data i = Some n ∧ (n < 65536)%N.
Proof.
  intros Hi. unfold be16_at.
  destruct (byte_at_Some data i) as (a & -> & ?); [lia|]. cbn [mbind option_bind].
  destruct (byte_at_Some data (i + 1)) as (b & -> & ?); [lia|]. cbn [mbind option_bind].
  eexists. split; [done|lia].
Qed.

Lemma be24_at_Some data i : (i + 2 < blen data)%N → ∃ n, be24_at data i = Some n.
Proof.
  intros Hi. unfold be24_at.
  destruct (byte_at_Some data i) as (a & -> & ?); [lia|]. cbn [mbind option_bind].
  destruct (be16_at_Some data (i + 1)) as (b & -> & ?); [lia|]. by eexists.
Qed.

Lemma slice_Some data a b : (a ≤ b)%N → (b ≤ blen data)%N →
  slice data a b = Some (btake (b - a) (bdrop a data)).
Proof. intros. unfold slice. by rewrite (proj2 (N.leb_le a b)), (proj2 (N.leb_le b _)). Qed.

(** Discharge a checked read whose bound is in the context. *)
Ltac read_at :=
  match goal with
  | |- context [byte_at ?d ?i] =>
    let b := fresh "b" in destruct (byte_at_Some d i) as (b & -> & ?); [lia|]
  | |- context [be16_at ?d ?i] =>
    let b := fresh "n" in destruct (be16_at_Some d i) as (b & -> & ?); [lia|]
  | |- context [be24_at ?d ?i] =>
    let b := fresh "n" in destruct (be24_at_Some d i) as (b & ->); [lia|]
  | |- context [slice ?d ?a ?b] => rewrite (slice_Some d a b) by lia
  end; cbn [mbind option_bind].

(** Split the next length check. *)
Ltac length_check :=
  match goal with
  | |- context [(?a <? ?b)%N] => destruct (N.ltb_spec a b)
  | |- context [(?a <=? ?b)%N] => destruct (N.leb_spec a b)
  end; try by eexists.

Lemma sni_names_total fuel data list_len pos :
  (blen data < pos + N.of_nat fuel)%N → (0 < fuel)%nat → (2 ≤ pos)%N →
  ∃ r, sni_names fuel data list_len pos = Some r.
Proof.
  revert pos. induction fuel as [|fuel IH]; intros pos Hf Hpos Hp; [lia|]. cbn [sni_names].
  destruct (N.ltb_spec pos (blen data)); cbn [andb]; [|by eexists].
  destruct (pos - 2 <? list_len)%N; [|by eexists].
  length_check. do 2 read_at. length_check. read_at.
  destruct (_ =? 0)%N; [by eexists|]. apply IH; lia.
Qed.

Lemma parse_sni_total data : ∃ r, parse_sni_extension data = Some r.
Proof.
  unfold parse_sni_extension. length_check. read_at.
  apply sni_names_total; unfold blen in *; lia.
Qed.

Lemma sni_extensions_total fuel data e pos :
  (e < pos + N.of_nat fuel)%N → (0 < fuel)%nat → (e ≤ blen data)%N →
  ∃ r, sni_extensions fuel data e pos = Some r.
Proof.
  revert pos. induction fuel as [|fuel IH]; intros pos Hf Hpos He; [lia|]. cbn [sni_extensions].
  destruct (N.ltb_spec pos e); [|by eexists].
  length_check. do 2 read_at. length_check. read_at.
  destruct (_ =? 0)%N; [apply parse_sni_total|]. apply IH; lia.
Qed.

(** Reading the server name of whatever bytes a connection starts with is
    total: no index or slice is ever out of bounds, whatever lengths the bytes
    claim, and both loops end. *)
Theorem extract_sni_total data : ∃ r, extract_sni data = Some r.
Proof.
  unfold extract_sni. length_check. read_at. destruct (negb _); [by eexists|].
  read_at. length_check. length_check. read_at. destruct (negb _); [by eexists|].
  read_at. length_check. unfold sni_after_random. length_check. read_at. cbv zeta.
  length_check. read_at. length_check. read_at. length_check. read_at. length_check.
  apply sni_extensions_total; unfold blen in *; lia.
Qed.

(** ** Facts: the ClientHello round trip *)

Lemma sdrop_add n k (s : string) : sdrop (n + k) s = sdrop k (sdrop n s).
Proof.
  revert s. induction n as [|n IH]; intros s; [by destruct s|].
  destruct s as [|c s]; [by destruct k|]. apply IH.
Qed.

Lemma byte_at_app (a b : string) i k : i = (blen a + k)%N → byte_at (a ++s b) i = byte_at b k.
Proof.
  intros ->. unfold byte_at, blen.
  replace (N.to_nat (N.of_nat (String.length a) + k)) with (String.length a + N.to_nat k)%nat by lia.
  by rewrite sdrop_add, sdrop_app_len.
Qed.

Lemma be16_at_app (a b : string) i k : i = (blen a + k)%N → be16_at (a ++s b) i = be16_at b k.
Proof.
  intros ->. unfold be16_at. rewrite (byte_at_app a b (blen a + k) k) by done.
  by rewrite (byte_at_app a b (blen a + k + 1) (k + 1)) by lia.
Qed.

Lemma be24_at_app (a b : string) i k : i = (blen a + k)%N → be24_at (a ++s b) i = be24_at b k.
Proof.
  intros ->. unfold be24_at. rewrite (byte_at_app a b (blen a + k) k) by done.
  by rewrite (be16_at_app a b (blen a + k + 1) (k + 1)) by lia.
Qed.

Lemma slice_app (a b c : string) i j :
  i = blen a → j = (blen a + blen b)%N → slice (a ++s b ++s c) i j = Some b.
Proof.
  intros -> ->. rewrite slice_Some by (rewrite ?blen_app; lia).
  f_equal. rewrite bdrop_app_len by done. apply btake_app_len. lia.
Qed.

Lemma app_assoc4 (a b c r : string) : a ++s b ++s c ++s r = (a ++s b ++s c) ++s r.
Proof. by rewrite !app_assoc_s. Qed.

Definition byte (n : N) : string := String (ascii_of_N n) "".
Definition u16_be (n : N) : string := byte (n / 256) ++s byte (n mod 256).
Definition u24_be (n : N) : string := byte (n / 65536) ++s u16_be (n mod 65536).

Lemma blen_byte n : blen (byte n) = 1%N. Proof. done. Qed.
Lemma blen_u16 n : blen (u16_be n) = 2%N. Proof. done. Qed.
Lemma blen_u24 n : blen (u24_be n) = 3%N. Proof. done. Qed.

Lemma byte_at_byte n r : (n < 256)%N → byte_at (byte n ++s r) 0 = Some n.
Proof.
  intros Hn. change (Some (N_of_ascii (ascii_of_N n)) = Some n). by rewrite N_ascii_embedding.
Qed.

Lemma be16_at_u16 n r : (n < 65536)%N → be16_at (u16_be n ++s r) 0 = Some n.
Proof.
  intros Hn. unfold be16_at, u16_be. rewrite app_assoc_s, byte_at_byte.
  2:{ apply N.Div0.div_lt_upper_bound. lia. }
  cbn [mbind option_bind]. rewrite (byte_at_app (byte (n / 256)) _ (0 + 1) 0) by done.
  rewrite byte_at_byte by (by apply N.mod_lt). cbn [mbind option_bind].
  f_equal. rewrite <-N.div_mod; lia.
Qed.

Lemma be24_at_u24 n r : (n < 16777216)%N → be24_at (u24_be n ++s r) 0 = Some n.
Proof.
  intros Hn. unfold be24_at, u24_be. rewrite app_assoc_s, byte_at_byte.
  2:{ apply N.Div0.div_lt_upper_bound. lia. }
  cbn [mbind option_bind]. rewrite (be16_at_app (byte (n / 65536)) _ (0 + 1) 0) by done.
  rewrite be16_at_u16 by (by apply N.mod_lt). cbn [mbind option_bind].
  f_equal. rewrite <-N.div_mod; lia.
Qed.

(** ** The encoder *)

Definition sni_extension (name : string) : string :=
  let entry := byte 0 ++s u16_be (blen name) ++s name in
  u16_be (blen entry) ++s entry.

(** One extension: its type, its length and its data. *)
Definition extension (e : N * string) : string := u16_be e.1 ++s u16_be (blen e.2) ++s e.2.

Fixpoint extensions (es : list (N * string)) : string :=
  match es with [] => "" | e :: es => extension e ++s extensions es end.

(** The pieces of a ClientHello record. *)
Record Hello := mkHello {
  h_version : string;
  h_random : string;
  h_session : string;
  h_suites : string;
  h_compression : string;
  h_before : list (N * string);
  h_after : list (N * string);
}.

Definition hello_extensions (h : Hello) (name : string) : string :=
  extensions (h_before h ++ (0%N, sni_extension name) :: h_after h).

Definition hello_body (h : Hello) (name : string) : string :=
  h_version h ++s h_random h ++s byte (blen (h_session h)) ++s h_session h ++s
  u16_be (blen (h_suites h)) ++s h_suites h ++s byte (blen (h_compression h)) ++s h_compression h ++s
  u16_be (blen (hello_extensions h name)) ++s hello_extensions h name.

Definition client_hello (h : Hello) (record_version name : string) : string :=
  let handshake := byte 1 ++s u24_be (blen (hello_body h name)) ++s hello_body h name in
  byte 22 ++s record_version ++s u16_be (blen handshake) ++s handshake.

(** The lengths fit their fields, and no extension before the server name is
    one itself. *)
Record hello_ok (h : Hello) (name : string) : Prop := {
  ok_version : blen (h_version h) = 2%N;
  ok_random : blen (h_random h) = 32%N;
  ok_session : (blen (h_session h) < 256)%N;
  ok_suites : (blen (h_suites h) < 65536)%N;
  ok_compression : (blen (h_compression h) < 256)%N;
  ok_before : ∀ e, e ∈ h_before h → (0 < e.1 < 65536)%N ∧ (blen e.2 < 65536)%N;
  ok_total : (blen (hello_body h name) + 4 < 65536)%N;
  ok_name : utf8_valid name = true;
}.

Lemma parse_sni_roundtrip name :
  (blen name + 3 < 65536)%N → utf8_valid name = true →
  parse_sni_extension (sni_extension name) = Some (Some name).
Proof.
  intros Hn Hu. unfold sni_extension. set (entry := byte 0 ++s u16_be (blen name) ++s name).
  assert (blen entry = 3 + blen name)%N as He by (unfold entry; rewrite !blen_app, blen_byte, blen_u16; lia).
  unfold parse_sni_extension. rewrite blen_app, blen_u16, He.
  rewrite (proj2 (N.ltb_ge _ _)) by lia. rewrite be16_at_u16 by lia. cbn [mbind option_bind].
  cbn [sni_names]. rewrite blen_app, blen_u16, He.
  rewrite (proj2 (N.ltb_lt _ _)), (proj2 (N.ltb_lt _ _)), (proj2 (N.ltb_ge _ (2 + 3))) by lia.
  cbn [andb]. rewrite (byte_at_app (u16_be (3 + blen name)) entry 2 0) by done.
  unfold entry. rewrite byte_at_byte by lia. cbn [mbind option_bind].
  rewrite (be16_at_app (u16_be (3 + blen name)) _ (2 + 1) 1) by done.
  rewrite (be16_at_app (byte 0) _ 1 0) by done. rewrite be16_at_u16 by lia.
  cbn [mbind option_bind]. rewrite (proj2 (N.ltb_ge _ _)) by lia.
  assert (∀ a b c d : string, a ++s b ++s c ++s d = (a ++s b ++s c) ++s d ++s "") as Hre
    by (intros; by rewrite app_nil_s, !app_assoc_s).
  rewrite Hre, slice_app by (rewrite !blen_app, blen_byte, !blen_u16; lia).
  cbn [mbind option_bind N.eqb]. by rewrite Hu.
Qed.

Lemma blen_extension e : blen (extension e) = (4 + blen e.2)%N.
Proof. unfold extension. rewrite !blen_app, !blen_u16. lia. Qed.

(** One turn of the extension loop on an encoded extension. *)
Lemma sni_extensions_step fuel pre e rest :
  (e.1 < 65536)%N → (blen e.2 < 65536)%N →
  let data := pre ++s extension e ++s rest in
  sni_extensions (S fuel) data (blen data) (blen pre) =
  if (e.1 =? 0)%N then parse_sni_extension e.2
  else sni_extensions fuel data (blen data) (blen (pre ++s extension e)).
Proof.
  intros Ht Hl data. cbn [sni_extensions].
  assert (blen data = blen pre + (4 + blen e.2) + blen rest)%N as Hd
    by (unfold data; rewrite !blen_app, blen_extension; lia).
  rewrite Hd. rewrite (proj2 (N.ltb_lt _ _)), (proj2 (N.ltb_ge _ (blen pre + 4))) by lia.
  unfold data, extension. rewrite !app_assoc_s.
  rewrite (be16_at_app pre _ (blen pre) 0), be16_at_u16 by lia. cbn [mbind option_bind].
  rewrite (be16_at_app pre _ (blen pre + 2) 2) by lia.
  rewrite (be16_at_app (u16_be e.1) _ 2 0) by done. rewrite be16_at_u16 by lia.
  cbn [mbind option_bind]. rewrite (proj2 (N.ltb_ge _ _)) by lia.
  assert (∀ a b c d f : string, a ++s b ++s c ++s d ++s f = (a ++s b ++s c) ++s d ++s f) as Hre
    by (intros; by rewrite !app_assoc_s).
  rewrite Hre, slice_app by (rewrite !blen_app, !blen_u16; lia). cbn [mbind option_bind].
  rewrite !blen_app, !blen_u16. destruct (e.1 =? 0)%N; [done|]. f_equal. lia.
Qed.

Lemma sni_extensions_roundtrip before after name pre fuel :
  (List.length before < fuel)%nat →
  (∀ e, e ∈ before → (0 < e.1 < 65536)%N ∧ (blen e.2 < 65536)%N) →
  (blen (sni_extension name) < 65536)%N → utf8_valid name = true →
  let data := pre ++s extensions (before ++ (0%N, sni_extension name) :: after) in
  sni_extensions fuel data (blen data) (blen pre) = Some (Some name).
Proof.
  revert pre fuel. induction before as [|e before IH]; intros pre fuel Hf Hb Hs Hu data;
    subst data; (destruct fuel as [|fuel]; [cbn in Hf; lia|]); cbn [app extensions].
  - rewrite sni_extensions_step by done. cbn [fst snd N.eqb].
    apply parse_sni_roundtrip; [|done]. unfold sni_extension in Hs.
    rewrite !blen_app, !blen_u16, blen_byte in Hs. lia.
  - destruct (Hb e) as [[He1 He2] He3]; [by left|]. rewrite sni_extensions_step by lia.
    rewrite (proj2 (N.eqb_neq e.1 0)) by lia. rewrite <-app_assoc_s.
    apply IH; [cbn in Hf; lia| |done..]. intros e' He'. apply Hb. by right.
Qed.

Lemma extensions_app a b : extensions (a ++ b) = extensions a ++s extensions b.
Proof. induction a as [|e a IH]; cbn; [done|]. by rewrite IH, app_assoc_s. Qed.

Lemma extensions_length es : (List.length es ≤ String.length (extensions es))%nat.
Proof. induction es as [|e es IH]; cbn; [lia|]. rewrite length_app_s. cbn. lia. Qed.

(** The fields of a ClientHello from the session identifier on. *)
Definition hello_tail (h : Hello) (name : string) : string :=
  byte (blen (h_session h)) ++s h_session h ++s u16_be (blen (h_suites h)) ++s h_suites h ++s
  byte (blen (h_compression h)) ++s h_compression h ++s
  u16_be (blen (hello_extensions h name)) ++s hello_extensions h name.

(** A length check that passes on an encoded record. *)
Ltac check_passes :=
  first [rewrite (proj2 (N.ltb_ge _ _)) by lia | rewrite (proj2 (N.leb_gt _ _)) by lia].

Lemma after_random_roundtrip pre h name :
  hello_ok h name → sni_after_random (pre ++s hello_tail h name) (blen pre) = Some (Some name).
Proof.
  intros [Hv Hr Hs Hc Hm Hb Ht Hu].
  assert (blen (hello_body h name) = 34 + blen (hello_tail h name))%N as Hbody
    by (unfold hello_body, hello_tail; rewrite !blen_app; lia).
  assert (blen (hello_tail h name) = 1 + blen (h_session h) + 2 + blen (h_suites h) + 1 +
    blen (h_compression h) + 2 + blen (hello_extensions h name))%N as Htail
    by (unfold hello_tail; rewrite !blen_app, !blen_byte, !blen_u16; lia).
  unfold sni_after_random. rewrite blen_app, Htail. cbv zeta. check_passes.
  unfold hello_tail. rewrite (byte_at_app pre _ (blen pre) 0), byte_at_byte by lia.
  cbn [mbind option_bind]. check_passes.
  rewrite app_assoc4. set (pre1 := pre ++s _ ++s h_session h).
  assert (blen pre1 = blen pre + 1 + blen (h_session h))%N as Hp1
    by (unfold pre1; rewrite !blen_app, blen_byte; lia).
  rewrite <-Hp1. rewrite (be16_at_app pre1 _ (blen pre1) 0), be16_at_u16 by lia.
  cbn [mbind option_bind]. check_passes.
  rewrite (app_assoc4 pre1). set (pre2 := pre1 ++s _ ++s h_suites h).
  assert (blen pre2 = blen pre1 + 2 + blen (h_suites h))%N as Hp2
    by (unfold pre2; rewrite !blen_app, blen_u16; lia).
  rewrite <-Hp2. rewrite (byte_at_app pre2 _ (blen pre2) 0), byte_at_byte by lia.
  cbn [mbind option_bind]. check_passes.
  rewrite (app_assoc4 pre2). set (pre3 := pre2 ++s _ ++s h_compression h).
  assert (blen pre3 = blen pre2 + 1 + blen (h_compression h))%N as Hp3
    by (unfold pre3; rewrite !blen_app, blen_byte; lia).
  rewrite <-Hp3. rewrite (be16_at_app pre3 _ (blen pre3) 0), be16_at_u16 by lia.
  cbn [mbind option_bind]. check_passes. rewrite <-app_assoc_s.
  set (pre4 := pre3 ++s u16_be _).
  assert (blen pre4 = blen pre3 + 2)%N as Hp4 by (unfold pre4; by rewrite blen_app, blen_u16).
  rewrite <-Hp4, <-blen_app. unfold hello_extensions.
  apply sni_extensions_roundtrip.
  - rewrite length_app_s, extensions_app, length_app_s. pose proof (extensions_length (h_before h)). lia.
  - done.
  - rewrite Hbody, Htail in Ht. unfold hello_extensions in Ht.
    rewrite extensions_app, blen_app in Ht. cbn [extensions] in Ht.
    rewrite blen_app, blen_extension in Ht. cbn [snd] in Ht. lia.
  - done.
Qed.

(** The server name survives its encoding: for any ClientHello whose lengths
    fit their fields, whatever its session identifier, cipher suites and other
    extensions (none before it being a server name), the reader returns exactly
    the name the record carries. *)
Theorem sni_roundtrip h record_version name :
  hello_ok h name → blen record_version = 2%N →
  extract_sni (client_hello h record_version name) = Some (Some name).
Proof.
  intros Hok Hrv. pose proof Hok as [Hv Hr _ _ _ _ Ht _]. unfold client_hello.
  set (body := hello_body h name) in *. set (hs := byte 1 ++s u24_be (blen body) ++s body).
  assert (blen hs = 4 + blen body)%N as Hhs by (unfold hs; rewrite !blen_app, blen_byte, blen_u24; lia).
  set (data := byte 22 ++s record_version ++s u16_be (blen hs) ++s hs).
  assert (blen data = 9 + blen body)%N as Hd
    by (unfold data; rewrite !blen_app, blen_byte, blen_u16, Hrv; lia).
  assert (34 ≤ blen body)%N as Hb by (unfold body, hello_body; rewrite !blen_app; lia).
  unfold extract_sni. rewrite Hd. check_passes.
  assert (byte_at data 0 = Some 22%N) as -> by (by apply byte_at_byte).
  cbn [mbind option_bind negb N.eqb Pos.eqb].
  assert (be16_at data 3 = Some (blen hs)) as ->.
  { unfold data. rewrite <-app_assoc_s. rewrite (be16_at_app (byte 22 ++s record_version) _ 3 0)
      by (rewrite blen_app, blen_byte, Hrv; done). apply be16_at_u16. lia. }
  cbn [mbind option_bind]. rewrite Hhs. check_passes. check_passes.
  assert (data = (byte 22 ++s record_version ++s u16_be (blen hs)) ++s hs) as Hdata
    by (unfold data; by rewrite !app_assoc_s).
  assert (blen (byte 22 ++s record_version ++s u16_be (blen hs)) = 5)%N as H5
    by (rewrite !blen_app, blen_byte, blen_u16, Hrv; done).
  set (rec := byte 22 ++s record_version ++s u16_be (blen hs)) in *. rewrite Hdata.
  rewrite (byte_at_app rec hs 5 0) by lia.
  assert (byte_at hs 0 = Some 1%N) as -> by (by apply byte_at_byte).
  cbn [mbind option_bind negb N.eqb Pos.eqb].
  rewrite (be24_at_app rec hs 6 1) by lia.
  assert (be24_at hs 1 = Some (blen body)) as ->.
  { unfold hs. rewrite (be24_at_app (byte 1) _ 1 0) by done. apply be24_at_u24. lia. }
  cbn [mbind option_bind]. check_passes.
  assert (rec ++s hs = (rec ++s byte 1 ++s u24_be (blen body) ++s h_version h ++s h_random h) ++s
    hello_tail h name) as ->
    by (unfold hs, body, hello_body, hello_tail; by rewrite !app_assoc_s).
  rewrite <-(after_random_roundtrip
    (rec ++s byte 1 ++s u24_be (blen body) ++s h_version h ++s h_random h) h name Hok).
  f_equal. rewrite !blen_app, blen_byte, blen_u24, H5, Hv, Hr. done.
Qed.

(** ** Facts: the HTTP reader *)

(** Reading the [Host] header panics exactly when a line before the host and
    before the blank line is at least five bytes long and has a multi-byte
    character across its fifth byte; a request line that starts [GET é] is
    enough, so a client chooses whether its connection handler panics. *)
Theorem http_host_panics_iff data :
  extract_http_host data = None ↔
  looks_like_http_request_line (hd "" (split_char newline data)) = true ∧
  ∃ pre l post,
    split_char newline (replace_crlf (from_utf8_lossy data)) = pre ++ l :: post ∧
    Forall (λ x, x ≠ "" ∧ host_line x = Some None) pre ∧
    (5 ≤ String.length l)%nat ∧ is_char_boundary 5 l = false.
Proof.
  unfold extract_http_host. destruct (looks_like_http_request_line _); [|naive_solver].
  generalize (split_char newline (replace_crlf (from_utf8_lossy data))). intros ls.
  assert (∀ l, host_line l = None ↔ (5 ≤ String.length l)%nat ∧ is_char_boundary 5 l = false) as Hl.
  { intros l. unfold host_line. destruct (Nat.leb_spec 5 (String.length l)); [|naive_solver lia].
    destruct (is_char_boundary 5 l); naive_solver. }
  split; [intros H; split; [done|]|intros (_ & pre & l & post & -> & Hpre & H)].
  - induction ls as [|l ls IH]; cbn [host_in_lines] in H; [done|].
    destruct (is_empty l) eqn:Ee; [done|]. unfold is_empty in Ee. apply String.eqb_neq in Ee.
    destruct (host_line l) as [[h|]|] eqn:Eh; cbn [mbind option_bind] in H; [done| |].
    + destruct (IH H) as (pre & l' & post & -> & Hpre & Hlast).
      exists (l :: pre), l', post. split; [done|]. split; [by constructor|done].
    + exists [], l, ls. split; [done|]. split; [constructor|]. by apply Hl.
  - apply Hl in H. induction Hpre as [|x pre [Hne Hx] _ IH]; cbn [app host_in_lines].
    + rewrite H. unfold is_empty. destruct (String.eqb_spec l "") as [->|]; [done|done].
    + unfold is_empty. destruct (String.eqb_spec x ""); [done|]. by rewrite Hx.
Qed.

(** ** Witnesses *)

Definition demo_hello : Hello :=
  mkHello (u16_be 771) "0123456789abcdef0123456789abcdef" "" (u16_be 4865) (byte 0)
    [(43%N, byte 2 ++s u16_be 772)] [(16%N, "h2")].

Lemma demo_hello_ok : hello_ok demo_hello "github.com".
Proof.
  split; try (vm_compute; reflexivity). intros e He%list_elem_of_singleton. subst e. by vm_compute.
Qed.

Lemma sni_roundtrip_witness :
  extract_sni (client_hello demo_hello (u16_be 769) "github.com") = Some (Some "github.com").
Proof. apply sni_roundtrip; [apply demo_hello_ok|reflexivity]. Defined.
