(* ===== verification/Secrets.v ===== *)
(** * Secret references and their cache ([cctui-secrets/src/lib.rs])

    The textual form of a secret reference, the reading of a configuration
    value, the identity templating of [cctui-guard-proxy/src/secrets.rs], and
    the time-limited cache in front of the engines.  The engines themselves
    (environment, files, Vault, AWS, Kubernetes) are what a consultation
    answers: an argument of each operation. *)

From stdpp Require Import base decidable list gmap strings.
From Stdlib Require Import Lia ZArith NArith Bool Ascii String.
From S2P Require Import Prelude RustStr.

(** ** References *)

Inductive SecretRef :=
| Env (var : string)
| File (path : string)
| Vault (mount path field : string)
| AwsSm (name : string) (field : option string)
| K8s (namespace : option string) (name key : string).

#[export] Instance SecretRef_eq_dec : EqDecision SecretRef.
Proof. solve_decision. Defined.

(** The refusals of [SecretRef::parse]. *)
Inductive RefError :=
| EmptyEnv | EmptyFile | VaultNoField | VaultNoData | VaultEmptyPart
| EmptyAws | AwsEmptyField | K8sNoKey | K8sEmptyPart | UnknownScheme.

Abbreviation is_hash := (Ascii.eqb "#").
Abbreviation is_slash := (Ascii.eqb "/").

(** [strip_prefix("vault:").or_else(|| strip_prefix("bao:"))]. *)
Definition strip_vault (s : string) : option string :=
  match strip_prefix "vault:" s with Some r => Some r | None => strip_prefix "bao:" s end.

Definition parse_vault (rest : string) : result RefError SecretRef :=
  '(path_part, field) ← ok_or (split_once is_hash rest) VaultNoField;
  '(mount, path) ← ok_or (split_once_str "/data/" path_part) VaultNoData;
  if is_empty mount || is_empty path || is_empty field then Err VaultEmptyPart
  else Ok (Vault (trim_matches is_slash mount) (trim_matches is_slash path) field).

Definition parse_aws (rest : string) : result RefError SecretRef :=
  let '(name, field) :=
    match split_once is_hash rest with Some (n, f) => (n, Some f) | None => (rest, None) end in
  if is_empty name then Err EmptyAws
  else if bool_decide (field = Some "") then Err AwsEmptyField
  else Ok (AwsSm name field).

Definition parse_k8s (rest : string) : result RefError SecretRef :=
  '(lhs, key) ← ok_or (split_once is_hash rest) K8sNoKey;
  let '(namespace, name) :=
    match rsplit_once is_slash lhs with Some (ns, n) => (Some ns, n) | None => (None, lhs) end in
  if is_empty name || is_empty key || bool_decide (namespace = Some "") then Err K8sEmptyPart
  else Ok (K8s namespace name key).

Definition SecretRef_parse (s : string) : result RefError SecretRef :=
  let s := trim s in
  match strip_prefix "env:" s with
  | Some var => if is_empty var then Err EmptyEnv else Ok (Env var)
  | None =>
    match strip_prefix "file:" s with
    | Some path => if is_empty path then Err EmptyFile else Ok (File path)
    | None =>
      match strip_vault s with
      | Some rest => parse_vault rest
      | None =>
        match strip_prefix "aws-sm:" s with
        | Some rest => parse_aws rest
        | None =>
          match strip_prefix "k8s:" s with
          | Some rest => parse_k8s rest
          | None => Err UnknownScheme
          end
        end
      end
    end
  end.

Definition SecretRef_to_string (r : SecretRef) : string :=
  match r with
  | Env var => "env:" ++s var
  | File path => "file:" ++s path
  | Vault mount path field => "vault:" ++s mount ++s "/data/" ++s path ++s "#" ++s field
  | AwsSm name None => "aws-sm:" ++s name
  | AwsSm name (Some field) => "aws-sm:" ++s name ++s "#" ++s field
  | K8s None name key => "k8s:" ++s name ++s "#" ++s key
  | K8s (Some ns) name key => "k8s:" ++s ns ++s "/" ++s name ++s "#" ++s key
  end.

(** ** Configuration values *)

Definition SCHEMES : list string := ["env:"; "file:"; "vault:"; "bao:"; "aws-sm:"; "k8s:"].

Inductive SecretValue := Literal (s : string) | Ref (r : SecretRef).

Definition SecretValue_parse (raw : string) : result RefError SecretValue :=
  match strip_prefix "literal:" raw with
  | Some literal => Ok (Literal literal)
  | None =>
    if existsb (λ scheme, starts_with scheme (trim_start raw)) SCHEMES
    then Ref <$> SecretRef_parse raw
    else Ok (Literal raw)
  end.

(** ** Identity templating *)

Definition sanitize_upper (part : string) : string :=
  String.concat "" ((λ c, if all_chars is_ascii_alphanumeric c then to_ascii_uppercase c else "_")
                    <$> uchars part).

(** [s.replace(pat, by)] for a non-empty pattern; every match consumes it. *)
Fixpoint replace_go (fuel : nat) (pat by_ s : string) : string :=
  match fuel with
  | O => s
  | S fuel =>
    match strip_prefix pat s with
    | Some r => by_ ++s replace_go fuel pat by_ r
    | None => match s with "" => "" | String c r => String c (replace_go fuel pat by_ r) end
    end
  end.

Definition replace (pat by_ s : string) : string := replace_go (S (String.length s)) pat by_ s.

Inductive TemplateError := NoIdentity | Unresolved.

Definition render_identity (template identity : string) : result TemplateError string :=
  if negb (contains "${" template) then Ok template
  else if is_empty identity then Err NoIdentity
  else
    let out := replace "${identity}" identity
                 (replace "${IDENTITY}" (sanitize_upper identity) template) in
    if contains "${" out then Err Unresolved else Ok out.

(** ** The cache *)

Inductive SecretError := NotFound (what : string) | Backend (e : string).

(** An engine's answer to one consultation. *)
Abbreviation Answer := (result SecretError string).

Record CacheEntry := mkCacheEntry { ce_fetched_at : N; ce_reference : SecretRef; ce_credential : string }.

Abbreviation Cache := (gmap string CacheEntry).

(** [settle]: an answer applied to the cache at time [now]. *)
Definition settle (now : N) (cache : Cache) (key : string) (r : SecretRef) (answer : Answer) :
    Cache * Answer :=
  match answer with
  | Ok c => (<[key := mkCacheEntry now r c]> cache, Ok c)
  | Err (Backend e) =>
    match cache !! key with
    | Some entry =>
      (<[key := mkCacheEntry now (ce_reference entry) (ce_credential entry)]> cache,
       Ok (ce_credential entry))
    | None => (cache, Err (Backend e))
    end
  | Err (NotFound what) => (delete key cache, Err (NotFound what))
  end.

Definition is_fresh (ttl now : N) (entry : CacheEntry) : bool := (now - ce_fetched_at entry <? ttl)%N.

(** [fetch] at [now]; [answer] is what the engine says if it is asked, and
    [settled] the time the answer is recorded.  The boolean says whether it was
    asked. *)
Definition fetch (ttl : N) (cache : Cache) (r : SecretRef) (now : N) (answer : Answer) (settled : N) :
    Cache * Answer * bool :=
  let key := SecretRef_to_string r in
  match cache !! key with
  | Some entry =>
    if is_fresh ttl now entry then (cache, Ok (ce_credential entry), false)
    else (settle settled cache key r answer, true)
  | None => (settle settled cache key r answer, true)
  end.

Record ReloadReport := mkReport { rr_changed : nat; rr_unchanged : nat; rr_failed : nat }.

(** [refresh_all] over the entries in iteration order [refs]; [answers] is what
    the engine says of each key and [times] when it is recorded. *)
Fixpoint refresh_all (answers : string → Answer) (times : string → N)
    (refs : list (string * SecretRef)) (cache : Cache) (report : ReloadReport) :
    Cache * ReloadReport :=
  match refs with
  | [] => (cache, report)
  | (key, r) :: refs =>
    let before := ce_credential <$> cache !! key in
    let answer := answers key in
    let '(cache, out) := settle (times key) cache key r answer in
    let '(mkReport ch un fa) := report in
    let report :=
      match out with
      | Ok c =>
        if is_ok answer then
          if bool_decide (before ≠ Some c) then mkReport (S ch) un fa else mkReport ch (S un) fa
        else mkReport ch un (S fa)
      | Err _ => mkReport ch un (S fa)
      end in
    refresh_all answers times refs cache report
  end.

Definition cached_refs (cache : Cache) : list (string * SecretRef) :=
  prod_map id ce_reference <$> map_to_list cache.

Example parse_vault_ref :
  SecretRef_parse " bao:kv/data/team/github#token " = Ok (Vault "kv" "team/github" "token").
Proof. reflexivity. Qed.
Example parse_k8s_ref : SecretRef_parse "k8s:ns/app#key" = Ok (K8s (Some "ns") "app" "key").
Proof. reflexivity. Qed.
Example value_url : SecretValue_parse "postgres://u:p@h/db" = Ok (Literal "postgres://u:p@h/db").
Proof. reflexivity. Qed.
Example render_upper : render_identity "env:${IDENTITY}_TOKEN" "bot-1" = Ok "env:BOT_1_TOKEN".
Proof. reflexivity. Qed.

(** ** Facts: splitting at the first occurrence *)

(** The pattern [/data/] occurs once more only if it ends after the prefix. *)
Lemma data_overlap m : contains "/data/" (m ++s "/data") = true → contains "/data/" (m ++s "/") = true.
Proof.
  induction m as [|c m IH]; [done|].
  change (String c m ++s "/data") with (String c (m ++s "/data")).
  change (String c m ++s "/") with (String c (m ++s "/")).
  cbn [contains]. rewrite !orb_true_iff. intros [H|H]; [left|right; by apply IH].
  apply starts_with_spec in H as [r Hr]. clear IH.
  do 4 (destruct m as [|? m]; [discriminate Hr|]).
  destruct m as [|? m]; injection Hr; intros; subst; reflexivity.
Qed.

Lemma split_data_first s a b :
  split_once_str "/data/" s = Some (a, b) →
  s = a ++s "/data/" ++s b ∧ contains "/data/" (a ++s "/") = false.
Proof.
  revert a b. induction s as [|c s IH]; intros a b; [done|].
  cbn [split_once_str]. destruct (strip_prefix "/data/" (String c s)) as [r|] eqn:E.
  { intros [= <- <-]. apply strip_prefix_spec in E. done. }
  destruct (split_once_str "/data/" s) as [[a' b']|]; [|done]. cbn. intros [= <- <-].
  destruct (IH a' b' eq_refl) as [-> Hno]. split; [done|]. cbn [String.append contains].
  apply orb_false_iff. split; [|done]. apply not_true_iff_false. intros Hs.
  assert (starts_with "/data/" (String c (a' ++s "/data/" ++s b')) = true) as Hp.
  { apply starts_with_spec in Hs as [r Hr]. apply starts_with_spec.
    exists (r ++s "data/" ++s b').
    replace (String c (a' ++s "/data/" ++s b')) with (String c (a' ++s "/") ++s "data/" ++s b')
      by (cbn; by rewrite app_assoc_s). by rewrite Hr. }
  apply starts_with_spec in Hp as [r Hr]. apply strip_prefix_spec in Hr. congruence.
Qed.

Lemma split_data_app a b :
  contains "/data/" (a ++s "/") = false → split_once_str "/data/" (a ++s "/data/" ++s b) = Some (a, b).
Proof.
  intros Hno. assert (contains "/data/" (a ++s "/data") = false) as Hno'
    by (apply not_true_iff_false; intros ?%data_overlap; congruence). clear Hno.
  induction a as [|c a IH]; [done|].
  change (String c a ++s "/data/" ++s b) with (String c (a ++s "/data/" ++s b)).
  change (String c a ++s "/data") with (String c (a ++s "/data")) in Hno'.
  cbn [split_once_str]. cbn [contains] in Hno'. apply orb_false_iff in Hno' as [Hs Hno'].
  destruct (strip_prefix "/data/" (String c (a ++s "/data/" ++s b))) as [r|] eqn:E.
  - exfalso. apply not_true_iff_false in Hs. apply Hs. clear -E.
    apply strip_prefix_spec in E.
    do 4 (destruct a as [|? a]; [discriminate E|]).
    destruct a as [|? a]; injection E; intros; subst; reflexivity.
  - by rewrite IH.
Qed.

(** ** Facts: references *)

Lemma trim_start_matches_split p s :
  ∃ x, s = x ++s trim_start_matches p s ∧ all_chars p x = true.
Proof.
  induction s as [|c s (x & Hx & Hall)]; [by exists ""|]. cbn. destruct (p c) eqn:E.
  - exists (String c x). cbn. by rewrite E, <-Hx.
  - by exists "".
Qed.

Lemma trim_end_matches_split p s :
  ∃ y, s = trim_end_matches p s ++s y ∧ all_chars p y = true.
Proof.
  induction s as [|c s (y & Hy & Hall)]; [by exists ""|]. cbn [trim_end_matches].
  destruct (all_chars p (String c s)) eqn:E; [by exists (String c s)|].
  exists y. cbn. by rewrite <-Hy.
Qed.

Lemma trim_matches_split p s :
  ∃ x y, s = x ++s trim_matches p s ++s y ∧ all_chars p x = true ∧ all_chars p y = true.
Proof.
  destruct (trim_start_matches_split p s) as (x & Hx & Hp).
  destruct (trim_end_matches_split p (trim_start_matches p s)) as (y & Hy & Hq).
  exists x, y. unfold trim_matches. by rewrite <-Hy.
Qed.

Lemma trim_end_matches_idemp p s : trim_end_matches p (trim_end_matches p s) = trim_end_matches p s.
Proof.
  induction s as [|c s IH]; [done|]. cbn [trim_end_matches].
  destruct (all_chars p (String c s)) eqn:E; [done|]. cbn [trim_end_matches].
  destruct (all_chars p (String c (trim_end_matches p s))) eqn:E2; [|by rewrite IH].
  exfalso. destruct (trim_end_matches_split p s) as (y & Hy & Hall).
  cbn [all_chars] in E, E2. apply andb_true_iff in E2 as [Hc Ht]. rewrite Hc in E.
  rewrite Hy, all_chars_app, Ht, Hall in E. done.
Qed.

Lemma trim_matches_idemp p s : trim_matches p (trim_matches p s) = trim_matches p s.
Proof.
  unfold trim_matches.
  assert (∀ t, trim_start_matches p t = t →
    trim_start_matches p (trim_end_matches p t) = trim_end_matches p t) as H.
  { intros [|c t]; [done|]. cbn [trim_start_matches trim_end_matches all_chars].
    destruct (p c) eqn:E.
    - intros Heq. exfalso. apply (f_equal String.length) in Heq. cbn in Heq.
      destruct (trim_start_matches_split p t) as (x & Hx & _).
      apply (f_equal String.length) in Hx. rewrite length_app_s in Hx. lia.
    - intros _. cbn. by rewrite E. }
  rewrite H; [apply trim_end_matches_idemp|].
  induction s as [|c s IH]; [done|]. cbn. destruct (p c) eqn:E; [done|]. cbn. by rewrite E.
Qed.

(** A trimmed mount still has no earlier [/data/]. *)
Lemma mount_first mount :
  contains "/data/" (mount ++s "/") = false →
  contains "/data/" (trim_matches is_slash mount ++s "/") = false.
Proof.
  intros Hno. destruct (trim_matches_split is_slash mount) as (x & y & Hm & _ & Hy).
  apply not_true_iff_false. intros Hc. apply not_true_iff_false in Hno. apply Hno.
  rewrite Hm, app_assoc_s. apply contains_app_r. rewrite app_assoc_s.
  destruct y as [|c y]; [done|]. cbn [all_chars] in Hy.
  apply andb_true_iff in Hy as [Hc'%Ascii.eqb_eq _]. subst c.
  replace (trim_matches is_slash mount ++s String "/" y ++s "/") with
    ((trim_matches is_slash mount ++s "/") ++s y ++s "/") by (by rewrite app_assoc_s).
  by apply contains_app_l.
Qed.

Lemma no_hash_trim s :
  all_chars (λ c, negb (is_hash c)) s = true →
  all_chars (λ c, negb (is_hash c)) (trim_matches is_slash s) = true.
Proof.
  destruct (trim_matches_split is_slash s) as (x & y & Hs & _). rewrite Hs at 1.
  rewrite !all_chars_app, !andb_true_iff. tauto.
Qed.

(** A scheme prefix and a colon. *)
Lemma prefixed_trim s pre rest :
  visible (hd " "%char (String.list_ascii_of_string pre)) = true →
  trim s = pre ++s String ":" rest → trim (trim s) = trim s.
Proof.
  intros Hv Hs. pose proof (trim_tail s pre ":" rest eq_refl Hs) as Hr. rewrite Hs.
  destruct pre as [|c pre]; [done|]. cbn in Hv. by apply trim_visible.
Qed.

Lemma parse_trim s : trim (trim s) = trim s → SecretRef_parse (trim s) = SecretRef_parse s.
Proof. intros Ht. unfold SecretRef_parse. by rewrite Ht. Qed.

Lemma parse_vault_roundtrip rest m p f :
  parse_vault rest = Ok (Vault m p f) → m ≠ "" → p ≠ "" →
  parse_vault (m ++s "/data/" ++s p ++s "#" ++s f) = Ok (Vault m p f) ∧
  ∃ x, rest = x ++s String "#" f.
Proof.
  unfold parse_vault. destruct (split_once is_hash rest) as [[pp field]|] eqn:Eh; [|done].
  cbn [ok_or mbind result_bind]. apply split_once_Some in Eh as (c & Hc%Ascii.eqb_eq & -> & Hno). subst c.
  destruct (split_once_str "/data/" pp) as [[mount path]|] eqn:Ed; [|done].
  cbn [ok_or mbind result_bind]. apply split_data_first in Ed as [-> Hfirst].
  destruct (_ || _ || _) eqn:Ee; [done|]. bool_hyps. intros [= <- <- <-] Hm Hp.
  split; [|by eexists].
  rewrite !all_chars_app in Hno. bool_hyps.
  replace (trim_matches is_slash mount ++s "/data/" ++s trim_matches is_slash path ++s "#" ++s field)
    with ((trim_matches is_slash mount ++s "/data/" ++s trim_matches is_slash path) ++s String "#" field)
    by (by rewrite !app_assoc_s).
  rewrite split_once_app; [|rewrite !all_chars_app, !no_hash_trim by done; done|done].
  cbn [ok_or mbind result_bind]. rewrite split_data_app by (by apply mount_first).
  cbn [ok_or mbind result_bind]. unfold is_empty in *.
  rewrite (proj2 (String.eqb_neq _ "")), (proj2 (String.eqb_neq (trim_matches is_slash path) "")) by done.
  match goal with H : (field ==s "") = false |- _ => rewrite H end. cbn [orb].
  by rewrite !trim_matches_idemp.
Qed.

(** The strings of all but Vault references are the text they were read from. *)
Lemma parse_aws_to_string rest r : parse_aws rest = Ok r → SecretRef_to_string r = "aws-sm:" ++s rest.
Proof.
  unfold parse_aws. destruct (split_once is_hash rest) as [[n f]|] eqn:E.
  - apply split_once_Some in E as (c & Hc%Ascii.eqb_eq & -> & _). subst c.
    destruct (is_empty n); [done|]. case_bool_decide; [done|]. by intros [= <-].
  - destruct (is_empty rest); [done|]. case_bool_decide; [done|]. by intros [= <-].
Qed.

Lemma parse_k8s_to_string rest r : parse_k8s rest = Ok r → SecretRef_to_string r = "k8s:" ++s rest.
Proof.
  unfold parse_k8s. destruct (split_once is_hash rest) as [[l k]|] eqn:E; [|done].
  cbn [ok_or mbind result_bind]. apply split_once_Some in E as (c & Hc%Ascii.eqb_eq & -> & _). subst c.
  destruct (rsplit_once is_slash l) as [[ns n]|] eqn:Er.
  - apply rsplit_once_Some in Er as (c & Hc%Ascii.eqb_eq & -> & _). subst c.
    destruct (_ || _ || _); [done|]. intros [= <-]. cbn [SecretRef_to_string].
    by rewrite !app_assoc_s.
  - destruct (_ || _ || _); [done|]. by intros [= <-].
Qed.

(** A reference's canonical text denotes it: the text of any reference that
    was read from a configuration reads back as the same reference, so the
    cache, which is keyed by that text, never serves one reference's secret for
    another.  Only a Vault reference whose mount or path is nothing but slashes
    is excluded. *)
Theorem secret_ref_roundtrip s r :
  SecretRef_parse s = Ok r → (∀ m p f, r = Vault m p f → m ≠ "" ∧ p ≠ "") →
  SecretRef_parse (SecretRef_to_string r) = Ok r.
Proof.
  intros Hp Hv. assert (∀ pre rest, visible (hd " "%char (String.list_ascii_of_string pre)) = true →
    trim s = pre ++s String ":" rest → SecretRef_to_string r = trim s →
    SecretRef_parse (SecretRef_to_string r) = Ok r) as Hsame.
  { intros pre rest Hpre Ht Heq. rewrite Heq, parse_trim; [done|]. by eapply prefixed_trim. }
  unfold SecretRef_parse in Hp.
  destruct (strip_prefix "env:" (trim s)) as [x|] eqn:E1.
  { apply strip_prefix_spec in E1. destruct (is_empty x); [done|]. injection Hp as <-.
    by apply (Hsame "env" x). }
  destruct (strip_prefix "file:" (trim s)) as [x|] eqn:E2.
  { apply strip_prefix_spec in E2. destruct (is_empty x); [done|]. injection Hp as <-.
    by apply (Hsame "file" x). }
  destruct (strip_vault (trim s)) as [rest|] eqn:E3.
  { assert (∃ m p f, r = Vault m p f) as (m & p & f & ->).
    { clear -Hp. unfold parse_vault in Hp. repeat (apply bind_ok in Hp as ([? ?] & _ & Hp)).
      destruct (_ || _ || _); [done|]. injection Hp as <-. eauto. }
    destruct (Hv m p f eq_refl) as [Hm Hpp].
    destruct (parse_vault_roundtrip rest m p f Hp Hm Hpp) as [Hback [x Hx]].
    assert (∃ pre, trim s = pre ++s String "#" f) as [pre Hpre].
    { unfold strip_vault in E3. destruct (strip_prefix "vault:" (trim s)) eqn:E4.
      - injection E3 as <-. apply strip_prefix_spec in E4. exists ("vault:" ++s x).
        rewrite E4, Hx. by rewrite app_assoc_s.
      - apply strip_prefix_spec in E3. exists ("bao:" ++s x). rewrite E3, Hx. by rewrite app_assoc_s. }
    pose proof (trim_tail s pre "#" f eq_refl Hpre) as Hf.
    unfold SecretRef_parse. cbn [SecretRef_to_string].
    assert (trim ("vault:" ++s m ++s "/data/" ++s p ++s "#" ++s f) =
      "vault:" ++s m ++s "/data/" ++s p ++s "#" ++s f) as ->.
    { replace ("vault:" ++s m ++s "/data/" ++s p ++s "#" ++s f) with
        (String "v" ("ault:" ++s m ++s "/data/" ++s p) ++s String "#" f)
        by (cbn; by rewrite !app_assoc_s). by apply trim_visible. }
    exact Hback. }
  destruct (strip_prefix "aws-sm:" (trim s)) as [x|] eqn:E4.
  { apply strip_prefix_spec in E4. apply (Hsame "aws-sm" x); [done|done|].
    rewrite E4. by apply parse_aws_to_string. }
  destruct (strip_prefix "k8s:" (trim s)) as [x|] eqn:E5; [|done].
  apply strip_prefix_spec in E5. apply (Hsame "k8s" x); [done|done|].
  rewrite E5. by apply parse_k8s_to_string.
Qed.

(** A mount of slashes passes the emptiness check, which runs before the
    slashes are trimmed; its canonical text is then refused. *)
Example vault_blank_mount :
  SecretRef_parse "vault://data/app#token" = Ok (Vault "" "app" "token") ∧
  SecretRef_parse (SecretRef_to_string (Vault "" "app" "token")) = Err VaultEmptyPart.
Proof. split; reflexivity. Qed.

(** ** Facts: the cache *)

Section cache.
Context (ttl : N).

(** The consultations of a run, newest first. *)
Abbreviation Log := (list (string * Answer)).

(** The last definite answer about a key: a failure of the engine says nothing. *)
Fixpoint last_answer (log : Log) (key : string) : option string :=
  match log with
  | [] => None
  | (k, a) :: log =>
    if k ==s key then
      match a with
      | Ok c => Some c
      | Err (NotFound _) => None
      | Err (Backend _) => last_answer log key
      end
    else last_answer log key
  end.

Definition fetch_log (r : SecretRef) (answer : Answer) (asked : bool) (log : Log) : Log :=
  if asked then (SecretRef_to_string r, answer) :: log else log.

(** The caches a source can have, with the consultations that led to them. *)
Inductive reachable : Cache → Log → Prop :=
| reach_new : reachable ∅ []
| reach_fetch cache log r now answer settled :
  reachable cache log →
  reachable (fetch ttl cache r now answer settled).1.1
            (fetch_log r answer (fetch ttl cache r now answer settled).2 log)
| reach_refresh cache log refs answers times report :
  reachable cache log → refs ≡ₚ cached_refs cache →
  reachable (refresh_all answers times refs cache report).1
            (rev ((λ kr, (kr.1, answers kr.1)) <$> refs) ++ log).

(** The cache holds exactly the last definite answers, each under its own
    reference's key. *)
Definition cache_inv (cache : Cache) (log : Log) : Prop :=
  (∀ key, ce_credential <$> cache !! key = last_answer log key) ∧
  (∀ key e, cache !! key = Some e → SecretRef_to_string (ce_reference e) = key).

Lemma settle_inv now cache log r answer :
  cache_inv cache log →
  cache_inv (settle now cache (SecretRef_to_string r) r answer).1
            ((SecretRef_to_string r, answer) :: log).
Proof.
  intros [Hval Href]. set (key := SecretRef_to_string r). unfold settle.
  destruct answer as [c|[what|e]]; cbn [fst].
  - split; intros k; cbn [last_answer].
    + destruct (String.eqb_spec key k) as [<-|Hne]; [by rewrite lookup_insert_eq|].
      by rewrite lookup_insert_ne.
    + intros e. destruct (String.eqb_spec key k) as [<-|Hne].
      * rewrite lookup_insert_eq. by intros [= <-].
      * rewrite lookup_insert_ne by done. apply Href.
  - split; intros k; cbn [last_answer].
    + destruct (String.eqb_spec key k) as [<-|Hne]; [by rewrite lookup_delete_eq|].
      by rewrite lookup_delete_ne.
    + intros e0. rewrite lookup_delete_Some. intros [_ ?]. by apply Href.
  - destruct (cache !! key) as [entry|] eqn:Ek; cbn [fst].
    + split; intros k; cbn [last_answer].
      * destruct (String.eqb_spec key k) as [<-|Hne].
        -- rewrite lookup_insert_eq, <-Hval, Ek. done.
        -- by rewrite lookup_insert_ne.
      * intros e0. destruct (String.eqb_spec key k) as [<-|Hne].
        -- rewrite lookup_insert_eq. intros [= <-]. by apply Href in Ek.
        -- rewrite lookup_insert_ne by done. apply Href.
    + split; [|done]. intros k. cbn [last_answer]. destruct (String.eqb_spec key k) as [<-|Hne]; by rewrite Hval.
Qed.

Lemma settle_out now cache log r answer c :
  cache_inv cache log →
  (settle now cache (SecretRef_to_string r) r answer).2 = Ok c ↔
  last_answer ((SecretRef_to_string r, answer) :: log) (SecretRef_to_string r) = Some c.
Proof.
  intros [Hval _]. cbn [last_answer]. rewrite String.eqb_refl. unfold settle.
  destruct answer as [c'|[what|e]]; [naive_solver..|]. rewrite <-Hval.
  destruct (cache !! _); naive_solver.
Qed.

Lemma refresh_inv answers times refs cache log report :
  cache_inv cache log → (∀ kr, kr ∈ refs → SecretRef_to_string kr.2 = kr.1) →
  cache_inv (refresh_all answers times refs cache report).1
            (rev ((λ kr, (kr.1, answers kr.1)) <$> refs) ++ log).
Proof.
  revert cache log report. induction refs as [|[k r] refs IH]; intros cache log report Hi Hr; [done|].
  cbn [refresh_all fmap list_fmap rev fst]. rewrite <-app_assoc. cbn [app].
  assert (SecretRef_to_string r = k) as <- by (apply (Hr (k, r)); by left).
  pose proof (settle_inv (times (SecretRef_to_string r)) cache log r
    (answers (SecretRef_to_string r)) Hi) as Hs.
  destruct (settle _ _ _ _ _) as [cache' out]. destruct report as [ch un fa]. cbn [fst] in Hs.
  apply IH; [done|]. intros kr Hkr. apply Hr. by right.
Qed.

Lemma reachable_inv cache log : reachable cache log → cache_inv cache log.
Proof.
  induction 1 as [|cache log r now answer settled _ IH|cache log refs answers times report _ IH Hp].
  - split; [done|]. intros k e. by rewrite lookup_empty.
  - unfold fetch. destruct (cache !! _) as [e|] eqn:Ek; [destruct (is_fresh ttl now e)|];
      cbn [fst snd fetch_log]; [done|by apply settle_inv..].
  - apply refresh_inv; [done|]. intros kr Hkr. rewrite Hp in Hkr. unfold cached_refs in Hkr.
    apply list_elem_of_fmap in Hkr as ([k e] & -> & Hin%elem_of_map_to_list).
    by apply (proj2 IH) in Hin.
Qed.

(** The secret cache serves exactly the last definite answer: whatever
    fetches and refreshes went before, a fetch returns a credential precisely
    when the newest answer about that reference that was not an engine failure
    is that credential; it is an error when the secret was last reported
    missing or never seen, and it skips the engine only for a value recorded
    less than the time to live ago. *)
Theorem fetch_last_answer cache log r now answer settled c :
  reachable cache log →
  let '(_, out, asked) := fetch ttl cache r now answer settled in
  (out = Ok c ↔ last_answer (fetch_log r answer asked log) (SecretRef_to_string r) = Some c) ∧
  (asked = false → ∃ e, cache !! SecretRef_to_string r = Some e ∧ (now - ce_fetched_at e < ttl)%N).
Proof.
  intros Hi%reachable_inv. unfold fetch.
  pose proof (settle_out settled cache log r answer c Hi) as Hs.
  destruct (cache !! SecretRef_to_string r) as [e|] eqn:Ek.
  - unfold is_fresh. destruct (N.ltb_spec (now - ce_fetched_at e) ttl) as [Hlt|_].
    + split; [|by exists e]. cbn [fetch_log]. rewrite <-(proj1 Hi), Ek. cbn. naive_solver.
    + destruct (settle _ _ _ _ _) as [cache' out]. by split.
  - destruct (settle _ _ _ _ _) as [cache' out]. by split.
Qed.
End cache.

(** ** Witnesses *)

Lemma secret_ref_roundtrip_witness :
  SecretRef_parse (SecretRef_to_string (Vault "kv" "team/github" "token")) =
  Ok (Vault "kv" "team/github" "token").
Proof.
  apply (secret_ref_roundtrip " bao:/kv//data/team/github/#token "); [reflexivity|].
  by intros m p f [= <- <- <-].
Defined.

Lemma fetch_last_answer_witness :
  let c1 := (fetch 60 ∅ (Env "TOKEN") 0 (Ok "s3cret") 1).1.1 in
  (fetch 60 c1 (Env "TOKEN") 100 (Err (Backend "down")) 101).1.2 = Ok "s3cret" ∧
  last_answer [("env:TOKEN", Err (Backend "down")); ("env:TOKEN", Ok "s3cret")] "env:TOKEN" =
    Some "s3cret".
Proof.
  split; [reflexivity|].
  destruct (fetch_last_answer 60 (fetch 60 ∅ (Env "TOKEN") 0 (Ok "s3cret") 1).1.1
    (fetch_log (Env "TOKEN") (Ok "s3cret") (fetch 60 ∅ (Env "TOKEN") 0 (Ok "s3cret") 1).2 [])
    (Env "TOKEN") 100 (Err (Backend "down")) 101 "s3cret") as [H _].
  - apply reach_fetch, reach_new.
  - refine (eq_trans _ (proj1 H _)); vm_compute; reflexivity.
Defined.
