(* ===== verification/Inject.v ===== *)
(** * Credential injection ([cctui-guard-proxy/src/inject.rs], [server_inject.rs], [dispatch.rs])

    The injection rules and how a configuration entry becomes one, the choice
    of a rule for a request, the rewriting of a request head, and the machine
    key swap on the way to the cctui server.  Base64 is a parameter, a secret
    lookup is what [Secrets.v] calls an answer, and JSON text is [JsonText]'s.
    Signing for AWS is not modelled: the [SigV4] shape only appears where a rule
    is read and chosen. *)

From stdpp Require Import base decidable list gmap strings.
From Stdlib Require Import Lia ZArith NArith Bool Ascii String.
From S2P Require Import Prelude RustStr Json Rules Http Secrets.

(** ** Rules *)

Inductive AuthShape :=
| Bearer
| Basic (username : string)
| BearerCookie (cookie_name : string)
| SigV4 (region service : string)
| Headers (headers : list (string * SecretRef)).

#[export] Instance AuthShape_eq_dec : EqDecision AuthShape.
Proof. solve_decision. Defined.

Record InjectionRule := mkRule {
  ir_host : string;
  ir_path_prefix : option string;
  ir_service : string;
  ir_shape : AuthShape;
  ir_secret : option SecretRef;
  ir_cookie_secret : option SecretRef;
  ir_key_id_secret : option SecretRef;
}.

Definition signs_with_ambient_aws (r : InjectionRule) : bool :=
  match ir_shape r, ir_key_id_secret r, ir_secret r with SigV4 _ _, None, None => true | _, _, _ => false end.

(** One entry of the configuration, as serde decodes it. *)
Record InjectEntry := mkInjectEntry {
  ie_host : string;
  ie_path_prefix : option string;
  ie_service : option string;
  ie_shape : option string;
  ie_headers : option (gmap string string);
  ie_username : option string;
  ie_cookie_name : option string;
  ie_region : option string;
  ie_aws_service : option string;
  ie_secret : option string;
  ie_cookie_secret : option string;
  ie_key_id_secret : option string;
}.

(** The refusals of [into_rule]. *)
Inductive InjectError :=
| EmptyHost | NeedsRegion | NeedsAwsService | BadHeaderName (name : string) | NoHeaders
| UnknownShape (shape : string) | HeadersTakeNoSecret | MissingSecret | NeedsCookieSecret
| NeedsBothOrNeither | BadPathPrefix | BadTemplate (e : TemplateError) | BadRef (e : RefError).

(** [SecretRef::parse(&render_identity(s, identity)?)]. *)
Definition secret_of (identity s : string) : result InjectError SecretRef :=
  s ← map_err BadTemplate (render_identity s identity);
  map_err BadRef (SecretRef_parse s).

(** [opt.map(f).transpose()]. *)
Definition transpose {E A B} (f : A → result E B) (o : option A) : result E (option B) :=
  match o with None => Ok None | Some a => Some <$> f a end.

Definition ensure {E} (b : bool) (e : E) : result E unit := if b then Ok tt else Err e.

Definition derive_aws_host (host : string) : option (string * string) :=
  rest ← strip_suffix ".amazonaws.com" host;
  '(service, region) ← rsplit_once (Ascii.eqb ".") rest;
  if negb (is_empty service) && negb (is_empty region) then Some (service, region) else None.

(** [name.bytes().all(|b| b.is_ascii_graphic() && b != b':')]. *)
Definition header_name_ok (name : string) : bool :=
  negb (is_empty name) && negb (eq_ignore_ascii_case name "authorization") &&
  all_chars (λ c, visible c && negb (Ascii.eqb ":" c)) name.

Definition push_header (identity : string) (acc : list (string * SecretRef)) (h : string * string) :
    result InjectError (list (string * SecretRef)) :=
  let name := trim h.1 in
  _ ← ensure (header_name_ok name) (BadHeaderName name);
  r ← secret_of identity h.2;
  Ok (acc ++ [(name, r)]).

Definition entry_shape (identity host : string) (e : InjectEntry) : result InjectError AuthShape :=
  let shape := to_ascii_lowercase (trim (default "bearer" (ie_shape e))) in
  if shape ==s "bearer" then Ok Bearer
  else if existsb (String.eqb shape) ["basic"; "git"; "gitbasic"; "git-basic"] then
    Ok (Basic (default "x-access-token" (ie_username e)))
  else if existsb (String.eqb shape) ["bearer+cookie"; "cookie"; "slack"] then
    Ok (BearerCookie (default "d" (ie_cookie_name e)))
  else if shape ==s "sigv4" then
    let derived := derive_aws_host host in
    region ← ok_or (match ie_region e with Some r => Some r | None => snd <$> derived end) NeedsRegion;
    service ← ok_or (match ie_aws_service e with Some s => Some s | None => fst <$> derived end)
                NeedsAwsService;
    Ok (SigV4 region service)
  else if shape ==s "headers" then
    headers ← try_fold (push_header identity) []
                (match ie_headers e with Some m => btree_str_iter m | None => [] end);
    _ ← ensure (negb (bool_decide (headers = []))) NoHeaders;
    Ok (Headers headers)
  else Err (UnknownShape shape).

Definition entry_secret (identity : string) (shape : AuthShape) (secret : option string) :
    result InjectError (option SecretRef) :=
  match shape, secret with
  | Headers headers, None => Ok (snd <$> head headers)
  | Headers _, Some _ => Err HeadersTakeNoSecret
  | _, Some s => Some <$> secret_of identity s
  | SigV4 _ _, None => Ok None
  | _, None => Err MissingSecret
  end.

Definition is_cookie_shape (s : AuthShape) : bool := match s with BearerCookie _ => true | _ => false end.
Definition is_sigv4 (s : AuthShape) : bool := match s with SigV4 _ _ => true | _ => false end.

Definition into_rule (identity : string) (e : InjectEntry) : result InjectError InjectionRule :=
  let host := to_ascii_lowercase (trim (ie_host e)) in
  _ ← ensure (negb (is_empty host)) EmptyHost;
  shape ← entry_shape identity host e;
  secret ← entry_secret identity shape (ie_secret e);
  cookie_secret ← transpose (secret_of identity) (ie_cookie_secret e);
  _ ← ensure (negb (is_cookie_shape shape) || bool_decide (is_Some cookie_secret)) NeedsCookieSecret;
  key_id_secret ← transpose (secret_of identity) (ie_key_id_secret e);
  _ ← ensure (negb (is_sigv4 shape) ||
              Bool.eqb (bool_decide (is_Some key_id_secret)) (bool_decide (is_Some secret)))
        NeedsBothOrNeither;
  path_prefix ← transpose (λ p, let p := trim p in
                  _ ← ensure (starts_with "/" p) BadPathPrefix; Ok p) (ie_path_prefix e);
  Ok (mkRule host path_prefix (default host (ie_service e)) shape secret cookie_secret key_id_secret).

(** [load_inject_config] on the decoded entries: all of them or an error. *)
Definition load_inject_config (identity : string) (entries : list InjectEntry) :
    result InjectError (list InjectionRule) :=
  try_fold (λ acc e, r ← into_rule identity e; Ok (acc ++ [r])) [] entries.

(** ** The injection list *)

Record InjectionPolicy := mkInjectionPolicy {
  ip_rules : list InjectionRule;
  ip_by_host : gmap string (list nat);
}.

(** [by_host.entry(k).or_default().push(i)]. *)
Definition push_index (m : gmap string (list nat)) (ir : nat * InjectionRule) : gmap string (list nat) :=
  let k := to_ascii_lowercase (ir_host ir.2) in
  <[k := default [] (m !! k) ++ [ir.1]]> m.

Definition InjectionPolicy_new (rules : list InjectionRule) : InjectionPolicy :=
  mkInjectionPolicy rules (fold_left push_index (imap pair rules) ∅).

(** [self.rules[i]] never panics: see [rules_for_exact]. *)
Definition rules_for (p : InjectionPolicy) (host : string) : list InjectionRule :=
  omap (λ i, ip_rules p !! i) (default [] (ip_by_host p !! to_ascii_lowercase host)).

Definition should_inject (p : InjectionPolicy) (host : string) : bool :=
  negb (bool_decide (rules_for p host = [])).

Definition prefix_len (r : InjectionRule) : nat :=
  match ir_path_prefix r with Some p => String.length p | None => 0 end.

Definition prefix_matches (path : string) (r : InjectionRule) : bool :=
  match ir_path_prefix r with Some p => starts_with p path | None => true end.

Fixpoint select_from (best : option InjectionRule) (rules : list InjectionRule) (path : string) :
    option InjectionRule :=
  match rules with
  | [] => best
  | r :: rules =>
    let best :=
      if prefix_matches path r &&
         match best with Some b => (prefix_len b <? prefix_len r)%nat | None => true end
      then Some r else best in
    select_from best rules path
  end.

Definition select_rule (rules : list InjectionRule) (path : string) : option InjectionRule :=
  select_from None rules path.

(** ** Request heads *)

(** [text.split("\r\n")]. *)
Fixpoint split_crlf (s : string) : list string :=
  match s with
  | "" => [""]
  | String c r =>
    match r with
    | "" => [String c ""]
    | String d r2 =>
      if Ascii.eqb c creturn && Ascii.eqb d newline then "" :: split_crlf r2
      else match split_crlf r with h :: t => String c h :: t | [] => [String c ""] end
    end
  end.

(** The header lines: up to the first empty line. *)
Fixpoint header_lines (ls : list string) : list string :=
  match ls with
  | [] => []
  | l :: ls => if is_empty l then [] else l :: header_lines ls
  end.

(** The request line and the header lines of a head. *)
Definition head_lines (head : string) : string * list string :=
  match split_crlf (from_utf8_lossy head) with
  | [] => ("", [])
  | l :: ls => (l, header_lines ls)
  end.

(** [line.split(':').next().unwrap_or_default().trim()]. *)
Definition header_name (line : string) : string := trim (hd "" (split_char ":" line)).

Definition assemble_head (request_line : string) (kept : list string) : string :=
  request_line ++s crlf ++s
  foldr (λ line out, line ++s crlf ++s out) crlf kept.

Definition strip_named_cookie (line name : string) : option string :=
  '(_, v) ← split_once (Ascii.eqb ":") line;
  let kept := filter (λ pair, is_empty pair = false ∧ starts_with (name ++s "=") pair = false)
                (trim <$> split_char ";" (trim v)) in
  Some (if bool_decide (kept = []) then "" else "Cookie: " ++s join "; " kept).

(** The lines one agent header contributes to the rewritten head. *)
Definition keep_line (shape : AuthShape) (line : string) : list string :=
  let name := header_name line in
  if eq_ignore_ascii_case name "authorization" then []
  else match shape with
       | BearerCookie cookie_name =>
         if eq_ignore_ascii_case name "cookie" then
           match strip_named_cookie line cookie_name with
           | Some rewritten => if is_empty rewritten then [] else [rewritten]
           | None => []
           end
         else [line]
       | _ => [line]
       end.

Section rewriting.
(** [base64::engine::general_purpose::STANDARD.encode]. *)
Context (base64 : string → string).

(** The lines the proxy adds; [None] is [unreachable!]. *)
Definition auth_lines (shape : AuthShape) (credential : string) (cookie : option string) :
    option (list string) :=
  match shape with
  | Bearer => Some ["Authorization: Bearer " ++s credential]
  | BearerCookie name =>
    Some (("Authorization: Bearer " ++s credential) ::
          match cookie with Some c => ["Cookie: " ++s name ++s "=" ++s c] | None => [] end)
  | Basic username => Some ["Authorization: Basic " ++s base64 (username ++s ":" ++s credential)]
  | SigV4 _ _ | Headers _ => None
  end.

Definition rewrite_head (head : string) (shape : AuthShape) (credential : string)
    (cookie : option string) : option string :=
  let '(request_line, hs) := head_lines head in
  added ← auth_lines shape credential cookie;
  Some (assemble_head request_line (mjoin (keep_line shape <$> hs) ++ added)).

Definition named_by (pairs : list (string * string)) (name : string) : bool :=
  eq_ignore_ascii_case name "authorization" ||
  existsb (λ p, eq_ignore_ascii_case name p.1) pairs.

Definition rewrite_head_named (head : string) (pairs : list (string * string)) : string :=
  let '(request_line, hs) := head_lines head in
  assemble_head request_line
    (filter (λ l, named_by pairs (header_name l) = false) hs ++
     ((λ p, p.1 ++s ": " ++s p.2) <$> pairs)).

(** What the secret store answers for each reference, and the GitHub App minter
    when it handles the rule's service. *)
Context (fetch_secret : SecretRef → Answer) (mint : string → option Answer).

Definition resolve_credential (rule : InjectionRule) : Answer :=
  let own :=
    match ir_secret rule with
    | None => Err (NotFound (ir_service rule ++s " has no secret"))
    | Some r => fetch_secret r
    end in
  match mint (ir_service rule) with
  | Some (Ok cred) => Ok cred
  | Some (Err (NotFound _)) => own
  | Some (Err e) => Err e
  | None => own
  end.

(** Every header's secret, or none. *)
Fixpoint fetch_headers (headers : list (string * SecretRef)) : option (list (string * string)) :=
  match headers with
  | [] => Some []
  | (name, r) :: headers =>
    match fetch_secret r with
    | Ok c => ((name, c) ::.) <$> fetch_headers headers
    | Err _ => None
    end
  end.

(** [inject_head]; [None] is the panic of a [SigV4] rule routed here. *)
Definition inject_head (rule : InjectionRule) (head : string) : option string :=
  match ir_shape rule with
  | Headers headers =>
    Some match fetch_headers headers with
         | Some pairs => rewrite_head_named head pairs
         | None => head
         end
  | shape =>
    match resolve_credential rule with
    | Ok cred =>
      match shape, ir_cookie_secret rule with
      | BearerCookie _, Some r =>
        match fetch_secret r with
        | Ok c => rewrite_head head shape cred (Some c)
        | Err _ => Some head
        end
      | _, _ => rewrite_head head shape cred None
      end
    | Err _ => Some head
    end
  end.

(** ** The cctui server ([server_inject.rs]) *)

Definition PLACEHOLDER_MACHINE_KEY : string := "cctui-dispatch-placeholder-key".
Definition DAEMON_AUTH_PATH : string := "/api/v1/daemon/auth".

Record ServerTarget := mkServerTarget {
  st_base_url : string; st_https : bool; st_host : string; st_port : N }.

Inductive TargetError := BadScheme | NoHost | BadPort.

Definition ServerTarget_parse (url : string) : result TargetError ServerTarget :=
  let url := trim_end_matches (Ascii.eqb "/") (trim url) in
  '(https, rest) ←
    match strip_prefix "https://" url with
    | Some rest => Ok (true, rest)
    | None => match strip_prefix "http://" url with
              | Some rest => Ok (false, rest)
              | None => Err BadScheme
              end
    end;
  let authority := hd "" (split_char "/" rest) in
  _ ← ensure (negb (is_empty authority) && negb (contains_char (Ascii.eqb "@") authority) &&
              negb (contains_char (Ascii.eqb "[") authority)) NoHost;
  '(host, port) ←
    match rsplit_once (Ascii.eqb ":") authority with
    | None => Ok (authority, if https then 443 else 80)%N
    | Some (host, port) => match parse_u16 port with Some p => Ok (host, p) | None => Err BadPort end
    end;
  Ok (mkServerTarget url https (to_ascii_lowercase host) port).

Definition ServerTarget_matches (t : ServerTarget) (host : string) (port : N) : bool :=
  (port =? st_port t)%N && eq_ignore_ascii_case host (st_host t).

(** [request_method] and [request_path] of [inject.rs]. *)
Definition request_method (head : string) : string :=
  let line := hd "" (split_char newline head) in
  to_ascii_uppercase (trim (from_utf8_lossy (hd "" (split_char " " line)))).

Definition request_path (head : string) : option string :=
  let line := hd "" (split_char newline head) in
  target ← split_char " " line !! 1%nat;
  Some (hd "" (split_char "?" (from_utf8_lossy target))).

Definition is_worker_route (method : string) (path : string) : bool :=
  negb (contains_char (Ascii.eqb "%") path) &&
  forallb (λ s, negb (is_empty s) && negb (s ==s ".") && negb (s ==s ".."))
    (tail (split_char "/" path)) &&
  (starts_with "/api/v1/daemon/" path || (path ==s "/api/v1/manifest/daemon") ||
   ((path ==s "/api/v1/sessions") && (method ==s "GET"))).

Definition outbound_head (machine_key head : string) : string :=
  let route := match request_path head with
               | Some p => is_worker_route (request_method head) p
               | None => false
               end in
  if route && bool_decide (request_header head "authorization" = Some ("Bearer " ++s PLACEHOLDER_MACHINE_KEY))
  then default head (rewrite_head head Bearer machine_key None)
  else head.

(** [mask_key]: every turn consumes a byte. *)
Fixpoint mask_go (fuel : nat) (key body : string) : string :=
  match fuel with
  | O => ""
  | S fuel =>
    match body with
    | "" => ""
    | String c r =>
      match (if is_empty key then None else strip_prefix key body) with
      | Some rest => PLACEHOLDER_MACHINE_KEY ++s mask_go fuel key rest
      | None => String c (mask_go fuel key r)
      end
    end
  end.

Definition mask_key (body machine_key : string) : string :=
  mask_go (S (String.length body)) machine_key body.
End rewriting.

(** [swap_placeholder]: the placeholder in the [machine_key] field of a JSON
    object, replaced by the key. *)
Definition swap_placeholder `{JsonText} (body machine_key : string) : option string :=
  value ← json_from_str body;
  o ← as_object value;
  field ← obj_get "machine_key" o;
  if bool_decide (as_str field = Some PLACEHOLDER_MACHINE_KEY)
  then Some (json_to_string (JObj (obj_insert "machine_key" (JStr machine_key) o)))
  else None.

(** [text.split_inclusive("\r\n")]: each line with its terminator. *)
Fixpoint split_inclusive_crlf (s : string) : list string :=
  match s with
  | "" => []
  | String c r =>
    match r with
    | "" => [String c ""]
    | String d r2 =>
      if Ascii.eqb c creturn && Ascii.eqb d newline then crlf :: split_inclusive_crlf r2
      else match split_inclusive_crlf r with h :: t => String c h :: t | [] => [String c ""] end
    end
  end.

Definition with_content_length (head : string) (len : nat) : string :=
  String.concat "" ((λ line,
    if eq_ignore_ascii_case (header_name line) "content-length"
    then "Content-Length: " ++s nat_to_string len ++s crlf else line)
    <$> split_inclusive_crlf (from_utf8_lossy head)).

Example rewrite_bearer :
  rewrite_head id ("GET / HTTP/1.1" ++s crlf ++s "Host: x" ++s crlf ++s "AUTHORIZATION : agent" ++s crlf ++s crlf)
    Bearer "tok" None =
  Some ("GET / HTTP/1.1" ++s crlf ++s "Host: x" ++s crlf ++s "Authorization: Bearer tok" ++s crlf ++s crlf).
Proof. reflexivity. Qed.
Example rewrite_cookie :
  rewrite_head id ("GET / HTTP/1.1" ++s crlf ++s "cookie: a=1; d=agent; b=2" ++s crlf ++s crlf)
    (BearerCookie "d") "tok" (Some "c") =
  Some ("GET / HTTP/1.1" ++s crlf ++s "Cookie: a=1; b=2" ++s crlf ++s
        "Authorization: Bearer tok" ++s crlf ++s "Cookie: d=c" ++s crlf ++s crlf).
Proof. reflexivity. Qed.
Example worker_route_dots : is_worker_route "GET" "/api/v1/daemon/../admin" = false.
Proof. reflexivity. Qed.
Example mask_example : mask_key "{'k':'sekret'}" "sekret" = "{'k':'" ++s PLACEHOLDER_MACHINE_KEY ++s "'}".
Proof. reflexivity. Qed.

(** ** Facts: the injection list *)

(** What the index holds for a lower-cased host. *)
Lemma by_host_spec rules k :
  let idxs := default [] (ip_by_host (InjectionPolicy_new rules) !! k) in
  Forall (λ i, (i < List.length rules)%nat) idxs ∧
  omap (λ i, rules !! i) idxs = filter (λ r, to_ascii_lowercase (ir_host r) = k) rules.
Proof.
  cbn zeta. induction rules as [|r rules IH] using rev_ind; [done|].
  cbn [InjectionPolicy_new ip_by_host] in *.
  rewrite imap_app, fold_left_app. cbn [imap fold_left]. rewrite filter_app.
  set (m := fold_left push_index (imap pair rules) ∅) in *. destruct IH as [Hlt Heq].
  assert (∀ l, Forall (λ i, (i < List.length rules)%nat) l →
    omap (λ i, (rules ++ [r]) !! i) l = omap (λ i, rules !! i) l) as Hext.
  { intros l Hl. induction Hl as [|i l Hi _ IH]; [done|]. cbn. by rewrite lookup_app_l, IH. }
  unfold push_index. cbn [fst snd]. rewrite Nat.add_0_r.
  destruct (decide (to_ascii_lowercase (ir_host r) = k)) as [<-|Hne].
  - rewrite lookup_insert_eq. cbn [default from_option id].
    split.
    + apply Forall_app. split; [|constructor; [rewrite length_app; cbn; lia|constructor]].
      eapply Forall_impl; [exact Hlt|]. intros i Hi. rewrite length_app. cbn in *. lia.
    + rewrite omap_app, Hext, Heq by done. f_equal. cbn [omap list_omap].
      rewrite list_lookup_middle by done. by rewrite filter_cons_True, filter_nil.
  - rewrite lookup_insert_ne by done. rewrite filter_cons_False, filter_nil, app_nil_r by done.
    split; [|by rewrite Hext].
    eapply Forall_impl; [exact Hlt|]. intros i Hi. rewrite length_app. cbn in *. lia.
Qed.

(** The host index is exact: the rules found for a host are the configured
    rules whose host equals it up to ASCII case, all of them, in configuration
    order, and every stored index is within the rule list. *)
Theorem rules_for_exact rules host :
  let p := InjectionPolicy_new rules in
  rules_for p host = filter (λ r, eq_ignore_ascii_case (ir_host r) host = true) rules ∧
  Forall (λ i, is_Some (ip_rules p !! i)) (default [] (ip_by_host p !! to_ascii_lowercase host)).
Proof.
  cbn zeta. destruct (by_host_spec rules (to_ascii_lowercase host)) as [Hlt Heq]. split.
  - unfold rules_for. cbn [ip_rules InjectionPolicy_new]. etrans; [exact Heq|].
    apply list_filter_iff. intros r. unfold eq_ignore_ascii_case. by rewrite String.eqb_eq.
  - eapply Forall_impl; [exact Hlt|]. intros i Hi. by apply lookup_lt_is_Some.
Qed.

Lemma select_from_app best rules r path :
  select_from best (rules ++ [r]) path =
  let b := select_from best rules path in
  if prefix_matches path r && match b with Some b => (prefix_len b <? prefix_len r)%nat | None => true end
  then Some r else b.
Proof. revert best. induction rules as [|x rules IH]; intros best; cbn; [done|]. apply IH. Qed.

(** The rule applied to a request is the one with the longest matching path
    prefix, the first of them in configuration order when several tie, and
    there is none exactly when no rule matches the path. *)
Theorem select_rule_longest rules path :
  match select_rule rules path with
  | None => ∀ r, r ∈ rules → prefix_matches path r = false
  | Some b =>
    prefix_matches path b = true ∧
    ∃ pre post, rules = pre ++ b :: post ∧
      (∀ r, r ∈ pre → prefix_matches path r = true → (prefix_len r < prefix_len b)%nat) ∧
      (∀ r, r ∈ post → prefix_matches path r = true → (prefix_len r ≤ prefix_len b)%nat)
  end.
Proof.
  unfold select_rule. induction rules as [|r rules IH] using rev_ind.
  { intros r Hr. by apply elem_of_nil in Hr. }
  rewrite select_from_app. cbn zeta. destruct (select_from None rules path) as [b|].
  - destruct IH as (Hb & pre & post & -> & Hpre & Hpost).
    destruct (prefix_matches path r) eqn:Er; cbn [andb].
    + destruct (Nat.ltb_spec (prefix_len b) (prefix_len r)) as [Hlt|Hge].
      * split; [done|]. exists (pre ++ b :: post), []. split; [done|]. split.
        -- intros x [Hx|[->|Hx]%elem_of_cons]%elem_of_app Hm; [apply Hpre in Hx|..|apply Hpost in Hx];
             auto; lia.
        -- intros x Hx. by apply elem_of_nil in Hx.
      * split; [done|]. exists pre, (post ++ [r]). split; [by rewrite <-app_assoc|]. split; [done|].
        intros x [Hx| ->%list_elem_of_singleton]%elem_of_app Hm; [by apply Hpost|lia].
    + split; [done|]. exists pre, (post ++ [r]). split; [by rewrite <-app_assoc|]. split; [done|].
      intros x [Hx| ->%list_elem_of_singleton]%elem_of_app Hm; [by apply Hpost|congruence].
  - rewrite andb_true_r. destruct (prefix_matches path r) eqn:Er.
    + split; [done|]. exists rules, []. split; [done|].
      split; [intros x Hx Hm; apply IH in Hx; congruence|]. intros x Hx. by apply elem_of_nil in Hx.
    + intros x [Hx| ->%list_elem_of_singleton]%elem_of_app; [by apply IH|done].
Qed.

(** ** Facts: lines *)

Definition crlf_free (s : string) : Prop := contains crlf s = false.

Lemma crlf_free_substring x s y : crlf_free (x ++s s ++s y) → crlf_free s.
Proof.
  unfold crlf_free. rewrite <-!not_true_iff_false. intros Hno Hs. apply Hno.
  by apply contains_app_r, contains_app_l.
Qed.

Lemma crlf_free_cons c s : crlf_free (String c s) → crlf_free s.
Proof. unfold crlf_free. cbn [contains]. intros [_ H]%orb_false_iff. done. Qed.

Lemma starts_crlf c d s : starts_with crlf (String c (String d s)) =
  Ascii.eqb c creturn && Ascii.eqb d newline.
Proof.
  unfold crlf. cbn [starts_with]. rewrite andb_true_r.
  by rewrite (Ascii.eqb_sym creturn), (Ascii.eqb_sym newline).
Qed.

Lemma split_crlf_step c d s :
  split_crlf (String c (String d s)) =
  if Ascii.eqb c creturn && Ascii.eqb d newline then "" :: split_crlf s
  else match split_crlf (String d s) with h :: t => String c h :: t | [] => [String c ""] end.
Proof. reflexivity. Qed.

Lemma split_crlf_app l rest :
  crlf_free l → split_crlf (l ++s crlf ++s rest) = l :: split_crlf rest.
Proof.
  induction l as [|c l IH]; intros Hl; [done|]. pose proof (crlf_free_cons c l Hl) as Hl'.
  specialize (IH Hl'). destruct l as [|d l].
  - cbn [String.append split_crlf crlf]. rewrite (Ascii.eqb_sym creturn newline). cbn.
    by rewrite andb_false_r.
  - change (String c (String d l) ++s crlf ++s rest) with
      (String c (String d (l ++s crlf ++s rest))). rewrite split_crlf_step.
    change (String d (l ++s crlf ++s rest)) with (String d l ++s crlf ++s rest). rewrite IH.
    unfold crlf_free in Hl. cbn [contains] in Hl. apply orb_false_iff in Hl as [Hl _].
    rewrite starts_crlf in Hl. by rewrite Hl.
Qed.

Lemma split_crlf_pieces s : Forall crlf_free (split_crlf s).
Proof.
  remember (String.length s) as n eqn:Hn. revert s Hn.
  induction (lt_wf n) as [n _ IH]. intros s ->. destruct s as [|c [|d s]].
  - by repeat constructor.
  - constructor; [|constructor]. unfold crlf_free, crlf. cbn [contains starts_with].
    by rewrite andb_false_r.
  - rewrite split_crlf_step. destruct (Ascii.eqb c creturn && Ascii.eqb d newline) eqn:E.
    + constructor; [done|]. apply (IH (String.length s)); cbn; [lia|done].
    + specialize (IH (String.length (String d s)) ltac:(cbn; lia) (String d s) eq_refl).
      destruct (split_crlf (String d s)) as [|h t] eqn:Es.
      { constructor; [|constructor]. unfold crlf_free, crlf. cbn [contains starts_with].
        by rewrite andb_false_r. }
      inversion IH as [|? ? Hh Ht]; subst. constructor; [|done].
      unfold crlf_free in *. cbn [contains]. apply orb_false_iff. split; [|done].
      apply not_true_iff_false. intros Hs.
      assert (∃ h', h = String d h') as [h' ->].
      { clear -Es Hs. destruct s as [|e s]; [naive_solver|]. rewrite split_crlf_step in Es.
        destruct (_ && _); [|destruct (split_crlf (String e s)); naive_solver].
        injection Es as <- _. unfold crlf in Hs. cbn [starts_with] in Hs. by rewrite andb_false_r in Hs. }
      rewrite starts_crlf in Hs. congruence.
Qed.

Lemma split_crlf_assemble rl kept :
  crlf_free rl → Forall crlf_free kept → split_crlf (assemble_head rl kept) = rl :: kept ++ [""; ""].
Proof.
  intros Hrl Hk. unfold assemble_head. rewrite split_crlf_app by done. f_equal.
  induction Hk as [|l kept Hl _ IH]; [done|]. cbn [foldr]. by rewrite split_crlf_app, IH.
Qed.

Lemma header_lines_app ls : Forall (λ l, l ≠ "") ls → header_lines (ls ++ [""; ""]) = ls.
Proof.
  induction 1 as [|l ls Hl _ IH]; [done|]. cbn. unfold is_empty.
  by rewrite (proj2 (String.eqb_neq l "")), IH.
Qed.

Lemma header_lines_spec ls l : l ∈ header_lines ls → l ∈ ls ∧ l ≠ "".
Proof.
  induction ls as [|x ls IH]; cbn; [by intros ?%elem_of_nil|].
  unfold is_empty. destruct (String.eqb_spec x "") as [->|Hx]; [by intros ?%elem_of_nil|].
  intros [->|H]%elem_of_cons; [split; [by left|done]|].
  destruct (IH H) as [? ?]. split; [by right|done].
Qed.

Lemma head_lines_ok head rl hs :
  head_lines head = (rl, hs) → crlf_free rl ∧ Forall (λ l, crlf_free l ∧ l ≠ "") hs.
Proof.
  unfold head_lines. pose proof (split_crlf_pieces (from_utf8_lossy head)) as Hp.
  destruct (split_crlf _) as [|l ls]; [by intros [= <- <-]|]. intros [= <- <-].
  inversion Hp as [|? ? Hl Hls]; subst. split; [done|]. apply Forall_forall.
  intros x [Hx Hne]%header_lines_spec. rewrite Forall_forall in Hls. auto.
Qed.

(** ** Facts: rewritten heads *)

Definition is_auth (line : string) : bool := eq_ignore_ascii_case (header_name line) "authorization".

Lemma trim_substring s : ∃ x y, s = x ++s trim s ++s y.
Proof.
  assert (∃ x, s = x ++s trim_start s) as [x Hx].
  { remember (String.length s) as n eqn:Hn. revert s Hn.
    induction (lt_wf n) as [n _ IH]. intros s ->. destruct s as [|c s]; [by exists ""|].
    assert (∀ t a, String.length t < String.length (String c s) → String c s = a ++s t →
      ∃ x, String c s = x ++s trim_start t)%nat as Hpeel.
    { intros t a Hlt Ht. destruct (IH (String.length t) Hlt t eq_refl) as [x Hx].
      exists (a ++s x). rewrite Ht at 1. rewrite Hx at 1. by rewrite app_assoc_s. }
    cbn [trim_start]. destruct (ws1 c); [apply (Hpeel s (String c "")); [cbn; lia|done]|].
    destruct s as [|d s]; [by exists ""|].
    destruct (ws2 c d); [apply (Hpeel s (String c (String d ""))); [cbn; lia|done]|].
    destruct s as [|e s]; [by exists ""|].
    destruct (ws3 c d e); [apply (Hpeel s (String c (String d (String e "")))); [cbn; lia|done]|].
    by exists "". }
  destruct (trim_end_split (trim_start s)) as (y & Hy & _).
  exists x, y. unfold trim. by rewrite <-Hy.
Qed.

Lemma join_substring sep l x : x ∈ l → ∃ a b, join sep l = a ++s x ++s b.
Proof.
  induction l as [|y l IH]; [by intros ?%elem_of_nil|].
  intros [->|H]%elem_of_cons.
  - destruct l as [|z l]; [exists "", ""; by rewrite app_nil_s|]. by exists "", (sep ++s join sep (z :: l)).
  - destruct (IH H) as (a & b & Hj). destruct l as [|z l]; [by apply elem_of_nil in H|].
    exists (y ++s sep ++s a), b.
    change (join sep (y :: z :: l)) with (y ++s sep ++s join sep (z :: l)). rewrite Hj.
    by rewrite !app_assoc_s.
Qed.

Lemma crlf_free_sep a c b :
  c ≠ creturn → c ≠ newline → crlf_free a → crlf_free b → crlf_free (a ++s String c b).
Proof.
  intros Hr Hn Ha Hb. induction a as [|x a IH].
  - unfold crlf_free in *. cbn [String.append contains]. apply orb_false_iff. split; [|done].
    unfold crlf. cbn [starts_with]. by rewrite (proj2 (Ascii.eqb_neq creturn c)).
  - specialize (IH (crlf_free_cons x a Ha)). unfold crlf_free in *. cbn [String.append contains] in *.
    apply orb_false_iff. split; [|done]. apply orb_false_iff in Ha as [Ha _].
    destruct a as [|y a]; [|cbn [String.append]; rewrite starts_crlf in *; done].
    cbn [String.append]. rewrite starts_crlf. rewrite (proj2 (Ascii.eqb_neq c newline)) by done.
    by rewrite andb_false_r.
Qed.

Lemma crlf_free_join l : Forall crlf_free l → crlf_free (join "; " l).
Proof.
  induction 1 as [|x l Hx _ IH]; [done|]. destruct l as [|y l]; [done|].
  change (join "; " (x :: y :: l)) with (x ++s String ";" ("" ++s String " " (join "; " (y :: l)))).
  by repeat apply crlf_free_sep.
Qed.

Lemma cookie_crlf_free r : crlf_free r → crlf_free ("Cookie: " ++s r).
Proof.
  intros Hr. change (crlf_free ("Cookie" ++s String ":" ("" ++s String " " r))).
  by repeat apply crlf_free_sep.
Qed.

Lemma strip_named_cookie_line line name out :
  crlf_free line → strip_named_cookie line name = Some out →
  crlf_free out ∧ (out = "" ∨ ∃ r, out = "Cookie: " ++s r).
Proof.
  intros Hl. unfold strip_named_cookie.
  destruct (split_once _ line) as [[k v]|] eqn:E; [|done]. cbn [mbind option_bind].
  apply split_once_Some in E as (c & _ & -> & _). intros [= <-].
  case_bool_decide; [split; [done|by left]|]. split; [|right; by eexists].
  apply cookie_crlf_free, crlf_free_join.
  apply Forall_forall. intros p [_ Hp]%list_elem_of_filter.
  apply list_elem_of_fmap in Hp as (q & -> & Hq).
  destruct (trim_substring q) as (x & y & Hq').
  apply (crlf_free_substring x _ y). rewrite <-Hq'.
  destruct (join_substring ";" (split_char ";" (trim v)) q Hq) as (a & b & Hj).
  rewrite join_split in Hj. apply (crlf_free_substring a _ b). rewrite <-Hj.
  destruct (trim_substring v) as (x' & y' & Hv).
  apply (crlf_free_substring x' _ y'). rewrite <-Hv.
  apply (crlf_free_substring (k ++s String c "") v ""). by rewrite app_nil_s, app_assoc_s.
Qed.

(** What the agent's headers contribute: no [Authorization], no line break. *)
Lemma keep_line_ok shape line l :
  crlf_free line → line ≠ "" → l ∈ keep_line shape line → crlf_free l ∧ l ≠ "" ∧ is_auth l = false.
Proof.
  intros Hl Hne. unfold keep_line, is_auth.
  destruct (eq_ignore_ascii_case (header_name line) "authorization") eqn:Ea;
    [by intros ?%elem_of_nil|].
  destruct shape; try (intros ->%list_elem_of_singleton; done).
  destruct (eq_ignore_ascii_case (header_name line) "cookie"); [|intros ->%list_elem_of_singleton; done].
  destruct (strip_named_cookie line cookie_name) as [out|] eqn:Es; [|by intros ?%elem_of_nil].
  unfold is_empty. destruct (String.eqb_spec out "") as [->|Ho]; [by intros ?%elem_of_nil|].
  intros ->%list_elem_of_singleton. apply strip_named_cookie_line in Es as [Hf [->|[r ->]]]; [done| |done].
  split; [done|]. split; [done|]. unfold header_name, split_char.
  change ("Cookie: " ++s r) with ("Cookie" ++s String ":" (" " ++s r)).
  by rewrite split_app.
Qed.

Lemma filter_none {A} (P : A → Prop) `{∀ x, Decision (P x)} l :
  Forall (λ x, ¬ P x) l → filter P l = [].
Proof. induction 1 as [|x l Hx _ IH]; [done|]. by rewrite filter_cons_False, IH. Qed.

Lemma auth_line_is_auth kind value : is_auth ("Authorization: " ++s kind ++s value) = true.
Proof. reflexivity. Qed.

Lemma auth_lines_spec base64 shape cred cookie added :
  auth_lines base64 shape cred cookie = Some added →
  ∃ auth rest, added = auth :: rest ∧ is_auth auth = true ∧ Forall (λ l, l ≠ "") added ∧
    Forall (λ l, is_auth l = false) rest.
Proof.
  unfold auth_lines. destruct shape as [|u|n| |]; intros [= <-]; do 2 eexists;
    (split; [reflexivity|]; split; [reflexivity|]).
  - by repeat constructor.
  - by repeat constructor.
  - destruct cookie; repeat constructor; done.
Qed.

(** A rewritten request head carries exactly one [Authorization] header, the
    injected one: its request line is the agent's, every header line of the
    agent's named [Authorization] (in any case, with any padding) is gone, the
    proxy's lines follow, and apart from the cookie of a cookie rule all other
    header lines are the agent's own, unchanged and in order; no shape it is
    called with panics. *)
Theorem rewrite_head_single_auth base64 head shape cred cookie added :
  auth_lines base64 shape cred cookie = Some added → Forall crlf_free added →
  ∃ out auth rest,
    rewrite_head base64 head shape cred cookie = Some out ∧ added = auth :: rest ∧
    let '(rl, hs) := head_lines head in
    let kept := mjoin (keep_line shape <$> hs) in
    split_crlf out = rl :: kept ++ added ++ [""; ""] ∧
    filter (λ l, is_auth l = true) (header_lines (tail (split_crlf out))) = [auth] ∧
    (is_cookie_shape shape = false → kept = filter (λ l, is_auth l = false) hs).
Proof.
  intros Ha Hfree. destruct (auth_lines_spec _ _ _ _ _ Ha) as (auth & rest & Hadd & Hauth & Hne & Hrest).
  destruct (head_lines head) as [rl hs] eqn:Eh.
  destruct (head_lines_ok head rl hs Eh) as [Hrl Hhs].
  unfold rewrite_head. rewrite Eh, Ha. cbn [mbind option_bind].
  eexists _, auth, rest. split; [reflexivity|]. split; [done|]. cbn zeta.
  set (kept := mjoin (keep_line shape <$> hs)).
  assert (Forall (λ l, crlf_free l ∧ l ≠ "" ∧ is_auth l = false) kept) as Hk.
  { apply Forall_forall. intros l Hl. unfold kept in Hl.
    apply list_elem_of_join in Hl as (ls & Hin & Hls).
    apply list_elem_of_fmap in Hls as (line & -> & Hline).
    rewrite Forall_forall in Hhs. destruct (Hhs line Hline). by apply (keep_line_ok shape line). }
  assert (split_crlf (assemble_head rl (kept ++ added)) = rl :: kept ++ added ++ [""; ""]) as Hs.
  { rewrite split_crlf_assemble, <-app_assoc; [done|done|]. apply Forall_app. split; [|done].
    eapply Forall_impl; [exact Hk|]. by intros l (? & ? & ?). }
  split; [done|]. rewrite Hs. cbn [tail]. rewrite app_assoc, header_lines_app.
  2:{ apply Forall_app. split; [|done]. eapply Forall_impl; [exact Hk|]. by intros l (? & ? & ?). }
  split.
  - rewrite filter_app, Hadd, filter_cons_True by done.
    rewrite (filter_none _ kept), (filter_none _ rest); [done|..].
    + eapply Forall_impl; [exact Hrest|]. intros l Hl ?. congruence.
    + eapply Forall_impl; [exact Hk|]. intros l (_ & _ & Hl) ?. congruence.
  - intros Hc. unfold kept. clear -Hc. induction hs as [|l hs IH]; [done|].
    change (mjoin (keep_line shape <$> l :: hs)) with
      (keep_line shape l ++ mjoin (keep_line shape <$> hs)). rewrite IH. clear IH. unfold keep_line.
    fold (is_auth l). rewrite filter_cons. destruct (is_auth l) eqn:El.
    + by rewrite decide_False.
    + rewrite decide_True by done. by destruct shape.
Qed.

(** ** Facts: rules *)

(** What every loaded rule satisfies. *)
Record rule_wf (r : InjectionRule) : Prop := {
  rw_host : ir_host r ≠ "" ∧ to_ascii_lowercase (ir_host r) = ir_host r;
  rw_cookie : is_cookie_shape (ir_shape r) = true → is_Some (ir_cookie_secret r);
  rw_sigv4 : is_sigv4 (ir_shape r) = true → (is_Some (ir_key_id_secret r) ↔ is_Some (ir_secret r));
  rw_secret : is_sigv4 (ir_shape r) = false → is_Some (ir_secret r);
  rw_headers : ∀ hs, ir_shape r = Headers hs → hs ≠ [] ∧ Forall (λ h, header_name_ok h.1 = true) hs;
  rw_prefix : ∀ p, ir_path_prefix r = Some p → starts_with "/" p = true;
}.

Lemma ensure_ok {E} b (e : E) u : ensure b e = Ok u → b = true.
Proof. by destruct b. Qed.

Lemma push_header_ok identity acc h acc' :
  push_header identity acc h = Ok acc' →
  Forall (λ h, header_name_ok h.1 = true) acc → Forall (λ h, header_name_ok h.1 = true) acc'.
Proof.
  unfold push_header. intros (u & Hu%ensure_ok & (r & _ & [= <-])%bind_ok)%bind_ok Hacc.
  apply Forall_app. split; [done|]. by constructor.
Qed.

Lemma entry_shape_headers identity host e hs :
  entry_shape identity host e = Ok (Headers hs) →
  hs ≠ [] ∧ Forall (λ h, header_name_ok h.1 = true) hs.
Proof.
  unfold entry_shape. cbn zeta.
  destruct (_ ==s "bearer"); [done|]. destruct (existsb _ _); [done|]. destruct (existsb _ _); [done|].
  destruct (_ ==s "sigv4"); [by intros (? & _ & (? & _ & ?)%bind_ok)%bind_ok|].
  destruct (_ ==s "headers"); [|done].
  intros (hs' & Hf & (u & Hu%ensure_ok & [= <-])%bind_ok)%bind_ok.
  apply negb_true_iff, bool_decide_eq_false in Hu. split; [done|].
  eapply (try_fold_ok_inv (λ l, Forall (λ h, header_name_ok h.1 = true) l));
    [constructor|intros; by eapply push_header_ok|exact Hf].
Qed.

Lemma entry_secret_some identity shape s secret :
  entry_secret identity shape s = Ok secret → is_sigv4 shape = false →
  (∀ hs, shape = Headers hs → hs ≠ []) → is_Some secret.
Proof.
  unfold entry_secret. intros Hs Hv Hh.
  destruct shape as [| | | |hs], s as [s|]; try done;
    try (destruct (secret_of identity s); cbn in Hs; by simplify_eq).
  injection Hs as <-. destruct hs as [|h hs]; [by destruct (Hh [] eq_refl)|by eexists].
Qed.

(** Loading the configuration is all or nothing, and every rule it yields is
    usable: it has a lower-case host, the secret its shape needs, the companion
    cookie of a cookie rule, both or neither half of a signing key, header
    names that are neither empty nor [Authorization] nor breaking a line, and a
    path prefix that starts with a slash. *)
Theorem load_inject_config_wf identity entries rules :
  load_inject_config identity entries = Ok rules →
  List.length rules = List.length entries ∧ Forall rule_wf rules.
Proof.
  assert (∀ e r, into_rule identity e = Ok r → rule_wf r) as Hwf.
  { intros e r. unfold into_rule.
    intros (u1 & Hhost%ensure_ok & (shape & Hshape & (secret & Hsecret & (cookie & _ &
      (u2 & Hck%ensure_ok & (key & _ & (u3 & Hkey%ensure_ok & (pre & Hpre & [= <-])%bind_ok)%bind_ok)%bind_ok)%bind_ok)%bind_ok)%bind_ok)%bind_ok)%bind_ok.
    assert (∀ hs, shape = Headers hs → hs ≠ [] ∧ Forall (λ h, header_name_ok h.1 = true) hs) as Hh
      by (intros hs ->; by eapply entry_shape_headers).
    split; cbn.
    - apply negb_true_iff in Hhost. unfold is_empty in Hhost. apply String.eqb_neq in Hhost.
      split; [done|]. apply to_lower_idemp.
    - intros Hc. rewrite Hc in Hck. by apply bool_decide_eq_true in Hck.
    - intros Hs. rewrite Hs in Hkey. cbn in Hkey. apply eqb_prop in Hkey.
      destruct (bool_decide_reflect (is_Some key)), (bool_decide_reflect (is_Some secret)); done.
    - intros Hs. eapply entry_secret_some; [done|done|]. intros hs Hhs. by apply Hh.
    - done.
    - intros p ->. unfold transpose in Hpre. destruct (ie_path_prefix e) as [p0|]; [|done].
      destruct (starts_with "/" (trim p0)) eqn:Ep; unfold ensure in Hpre; [|done].
      cbn [mbind result_bind fmap result_fmap] in Hpre. by injection Hpre as <-. }
  unfold load_inject_config. intros Hl.
  assert (∀ done rest acc, try_fold (λ acc e, r ← into_rule identity e; Ok (acc ++ [r])) acc rest = Ok done →
    List.length done = (List.length acc + List.length rest)%nat) as Hlen.
  { intros dn rest. induction rest as [|e rest IH]; intros acc; cbn [try_fold].
    - intros [= <-]. cbn. lia.
    - intros (acc' & (r & _ & [= <-])%bind_ok & Hrest)%bind_ok. rewrite (IH _ Hrest), length_app. cbn. lia. }
  split; [by rewrite (Hlen _ _ _ Hl)|].
  eapply (try_fold_ok_inv (Forall rule_wf)); [constructor| |exact Hl].
  intros acc e acc' _ Hacc (r & Hr & [= <-])%bind_ok. apply Forall_app.
  split; [done|]. constructor; [by eapply Hwf|constructor].
Qed.

(** ** Facts: what leaves the proxy *)

Lemma fetch_headers_spec fetch_secret headers pairs :
  fetch_headers fetch_secret headers = Some pairs ↔
  Forall2 (λ h p, p.1 = h.1 ∧ fetch_secret h.2 = Ok p.2) headers pairs.
Proof.
  revert pairs. induction headers as [|[n r] headers IH]; intros pairs; cbn [fetch_headers].
  { split; [intros [= <-]; constructor|]. by inversion 1. }
  destruct (fetch_secret r) as [c|e] eqn:E.
  - destruct (fetch_headers fetch_secret headers) as [ps|] eqn:Ef; cbn.
    + split.
      * intros [= <-]. constructor; [by split|]. by apply IH.
      * inversion 1 as [|? [n' c'] ? ps' [Hn Hc] Hrest]; subst. cbn in *.
        apply IH in Hrest. rewrite E in Hc. by simplify_eq.
    + split; [done|]. inversion 1 as [|? ? ? ? _ Hrest]; subst. by apply IH in Hrest.
  - split; [done|]. inversion 1 as [|? ? ? ? [_ Hc] _]; subst. cbn [snd] in Hc. congruence.
Qed.

(** C33. Injection fails closed: for a loaded rule that is not an AWS one, either
    every secret the rule names was available and the head is rewritten with
    exactly those, or the agent's own head is forwarded untouched; a missing
    secret never becomes an empty credential, and no case panics. *)
Theorem inject_head_fail_closed base64 fetch_secret mint rule head :
  rule_wf rule → is_sigv4 (ir_shape rule) = false →
  ∃ out, inject_head base64 fetch_secret mint rule head = Some out ∧
  match ir_shape rule with
  | Headers hs =>
    (∃ pairs, Forall2 (λ h p, p.1 = h.1 ∧ fetch_secret h.2 = Ok p.2) hs pairs ∧
       out = rewrite_head_named head pairs) ∨
    (out = head ∧ ∃ h e, h ∈ hs ∧ fetch_secret h.2 = Err e)
  | shape =>
    (∃ cred cookie, resolve_credential fetch_secret mint rule = Ok cred ∧
       (is_cookie_shape shape = true → ∃ r c, ir_cookie_secret rule = Some r ∧
          fetch_secret r = Ok c ∧ cookie = Some c) ∧
       rewrite_head base64 head shape cred cookie = Some out) ∨
    (out = head ∧
       ((∃ e, resolve_credential fetch_secret mint rule = Err e) ∨
        ∃ r e, ir_cookie_secret rule = Some r ∧ fetch_secret r = Err e))
  end.
Proof.
  intros [_ Hcookie _ _ _ _] Hv. unfold inject_head.
  assert (∀ shape cred cookie, is_sigv4 shape = false → (∀ hs, shape ≠ Headers hs) →
    is_Some (rewrite_head base64 head shape cred cookie)) as Htotal.
  { intros shape cred cookie Hs Hh. unfold rewrite_head. destruct (head_lines head).
    destruct shape as [| | | |hs]; cbn in *; [by eexists..|done|by destruct (Hh hs)]. }
  destruct (ir_shape rule) as [| u | cn | |hs] eqn:Es; cbn [is_sigv4 is_cookie_shape] in *; [..|].
  - destruct (resolve_credential fetch_secret mint rule) as [cred|e] eqn:Er; [|eauto 10].
    destruct (Htotal Bearer cred None) as [out Hout]; [done|done|]. exists out. split; [done|].
    left. by exists cred, None.
  - destruct (resolve_credential fetch_secret mint rule) as [cred|e] eqn:Er; [|eauto 10].
    destruct (Htotal (Basic u) cred None) as [out Hout]; [done|done|]. exists out. split; [done|].
    left. by exists cred, None.
  - destruct (resolve_credential fetch_secret mint rule) as [cred|e] eqn:Er; [|eauto 10].
    destruct (Hcookie eq_refl) as [r Hr]. rewrite Hr.
    destruct (fetch_secret r) as [c|e] eqn:Ef; [|eauto 12].
    destruct (Htotal (BearerCookie cn) cred (Some c)) as [out Hout]; [done|done|].
    exists out. split; [done|]. left. exists cred, (Some c). split; [done|]. split; [|done].
    intros _. by exists r, c.
  - done.
  - eexists. split; [reflexivity|]. destruct (fetch_headers fetch_secret hs) as [pairs|] eqn:Ef.
    + left. exists pairs. split; [by apply fetch_headers_spec|done].
    + right. split; [done|]. clear -Ef. induction hs as [|[n r] hs IH]; [done|]. cbn in Ef.
      destruct (fetch_secret r) as [c|e] eqn:E.
      * destruct (fetch_headers fetch_secret hs); [done|].
        destruct (IH eq_refl) as (h & e & Hh & He). exists h, e. split; [by right|done].
      * exists (n, r), e. split; [by left|done].
Qed.

(** Masking is [str::replace] of the key by the placeholder. *)
Lemma mask_go_replace fuel key body :
  key ≠ "" → (String.length body < fuel)%nat →
  mask_go fuel key body = replace_go fuel key PLACEHOLDER_MACHINE_KEY body.
Proof.
  intros Hk. revert body. induction fuel as [|fuel IH]; intros body Hlt; [lia|].
  cbn [mask_go replace_go]. unfold is_empty. rewrite (proj2 (String.eqb_neq key "")) by done.
  destruct body as [|c body]; [by destruct key|].
  destruct (strip_prefix key (String c body)) as [r|] eqn:E; [|rewrite IH; [done|cbn in Hlt; lia]].
  rewrite IH; [done|]. apply strip_prefix_spec in E. apply (f_equal String.length) in E.
  rewrite length_app_s in E. destruct key; [done|]. cbn in *. lia.
Qed.

(** A masked body is the body when the key does not occur in it. *)
Lemma mask_key_absent body key : contains key body = false → mask_key body key = body.
Proof.
  unfold mask_key. assert (∀ fuel, (String.length body < fuel)%nat → contains key body = false →
    mask_go fuel key body = body) as H; [|intros; apply H; [lia|done]].
  induction body as [|c body IH]; intros fuel Hf Hno; (destruct fuel as [|fuel]; [cbn in Hf; lia|]); [done|].
  cbn [contains] in Hno. apply orb_false_iff in Hno as [Hs Hno]. cbn [mask_go].
  assert ((if is_empty key then None else strip_prefix key (String c body)) = None) as ->.
  { destruct (is_empty key); [done|]. destruct (strip_prefix key (String c body)) as [r|] eqn:E; [|done].
    apply strip_prefix_spec in E. apply not_true_iff_false in Hs. destruct Hs.
    apply starts_with_spec. by exists r. }
  rewrite IH; [done|cbn in Hf; lia|done].
Qed.

(** The machine key leaves the proxy only on a worker route and only in place
    of the placeholder: any other request head is forwarded untouched, and a
    rewritten one ends in an [Authorization] header with the key; a path with
    an escape, an empty segment or a dot segment is never such a route. *)
Theorem machine_key_only_on_worker_routes base64 machine_key head :
  outbound_head base64 machine_key head = head ∨
  (∃ path, request_path head = Some path ∧
     is_worker_route (request_method head) path = true ∧
     contains_char (Ascii.eqb "%") path = false ∧
     (∀ seg, seg ∈ tail (split_char "/" path) → seg ≠ "" ∧ seg ≠ "." ∧ seg ≠ "..") ∧
     request_header head "authorization" = Some ("Bearer " ++s PLACEHOLDER_MACHINE_KEY) ∧
     rewrite_head base64 head Bearer machine_key None = Some (outbound_head base64 machine_key head)).
Proof.
  unfold outbound_head. destruct (request_path head) as [path|]; [|by left].
  destruct (is_worker_route (request_method head) path) eqn:Er; cbn [andb]; [|by left].
  case_bool_decide as Hh; [|by left]. right. exists path.
  assert (is_Some (rewrite_head base64 head Bearer machine_key None)) as [out Hout]
    by (unfold rewrite_head; destruct (head_lines head); by eexists).
  rewrite Hout. pose proof Er as Er'. unfold is_worker_route in Er'.
  apply andb_true_iff in Er' as [[Hp%negb_true_iff Hseg]%andb_true_iff _].
  split_and!; try done. intros seg Hin%list_elem_of_In.
  rewrite forallb_forall in Hseg. apply Hseg in Hin. unfold is_empty in Hin.
  apply andb_true_iff in Hin as [[H1%negb_true_iff%String.eqb_neq H2%negb_true_iff%String.eqb_neq]%andb_true_iff
    H3%negb_true_iff%String.eqb_neq]. done.
Qed.

(** A header that a bare line feed hides from [rewrite_head] is still a header
    to [header_value]: the agent's credential goes out first. *)
Example bare_lf_authorization_survives :
  let head := "GET / HTTP/1.1" ++s crlf ++s "X: a" ++s nl ++s "Authorization: Bearer agent" ++s crlf ++s crlf in
  (rewrite_head id head Bearer "real" None ≫= λ out, request_header out "authorization") =
  Some "Bearer agent".
Proof. reflexivity. Qed.

(** ** Witnesses *)

Definition github_entry : InjectEntry :=
  mkInjectEntry " API.github.com " (Some "/repos/") None None None None None None None
    (Some "env:GH_TOKEN") None None.

Definition github_rule : InjectionRule :=
  mkRule "api.github.com" (Some "/repos/") "api.github.com" Bearer (Some (Env "GH_TOKEN")) None None.

Lemma load_inject_config_wf_witness :
  List.length [github_rule] = List.length [github_entry] ∧ Forall rule_wf [github_rule].
Proof. apply (load_inject_config_wf "" [github_entry] [github_rule]). reflexivity. Defined.

Definition demo_head : string :=
  "GET /repos/a HTTP/1.1" ++s crlf ++s "authorization: Bearer agent" ++s crlf ++s "Accept: x" ++s crlf ++s crlf.

Lemma rewrite_head_single_auth_witness :
  ∃ out auth rest,
    rewrite_head id demo_head Bearer "tok" None = Some out ∧
    ["Authorization: Bearer tok"] = auth :: rest ∧
    let '(rl, hs) := head_lines demo_head in
    let kept := mjoin (keep_line Bearer <$> hs) in
    split_crlf out = rl :: kept ++ ["Authorization: Bearer tok"] ++ [""; ""] ∧
    filter (λ l, is_auth l = true) (header_lines (tail (split_crlf out))) = [auth] ∧
    (is_cookie_shape Bearer = false → kept = filter (λ l, is_auth l = false) hs).
Proof.
  apply rewrite_head_single_auth; [reflexivity|]. by repeat constructor.
Defined.

Lemma inject_head_fail_closed_witness :
  inject_head id (λ _, Err (NotFound "GH_TOKEN")) (λ _, None) github_rule demo_head = Some demo_head ∧
  ∃ out, inject_head id (λ _, Err (NotFound "GH_TOKEN")) (λ _, None) github_rule demo_head = Some out ∧
   ((∃ cred cookie, resolve_credential (λ _, Err (NotFound "GH_TOKEN")) (λ _, None) github_rule = Ok cred ∧
       (is_cookie_shape Bearer = true → ∃ r c, ir_cookie_secret github_rule = Some r ∧
          Err (NotFound "GH_TOKEN") = Ok c ∧ cookie = Some c) ∧
       rewrite_head id demo_head Bearer cred cookie = Some out) ∨
    (out = demo_head ∧
       ((∃ e, resolve_credential (λ _, Err (NotFound "GH_TOKEN")) (λ _, None) github_rule = Err e) ∨
        ∃ r e, ir_cookie_secret github_rule = Some r ∧ Err (NotFound "GH_TOKEN") = @Err SecretError string e))).
Proof.
  split; [reflexivity|].
  apply (inject_head_fail_closed id (λ _, Err (NotFound "GH_TOKEN")) (λ _, None) github_rule demo_head);
    [|reflexivity].
  split; cbn; [done|done|done|by eexists|done|]. by intros p [= <-].
Defined.
