(* ===== verification/Relay.v ===== *)
(** * Relaying bodies ([cctui-guard-proxy/src/inject.rs])

    The buffered reader and the body relay of the injecting proxy, over a
    source that delivers its bytes in arbitrary pieces, and their composition
    with the human gate: the bytes that go upstream decode to the body that was
    reviewed.  A destination accepts every write: the replay tee, which stands
    between the relay and the upstream, reports none of its errors. *)

From stdpp Require Import base decidable list strings.
From Stdlib Require Import Lia ZArith NArith Bool Ascii String.
From S2P Require Import Prelude RustStr Json Rules Http Gate GateFacts.

(** ** Sources *)

(** Why a relay fails; running out of fuel is shown not to happen. *)
Inductive RelayError := Closed | IoFailed | BadChunkSize | HeadTooLarge | SizeOverflow | OutOfFuel.

(** [src.read(&mut chunk[..cap])] on a source of pieces: at most [cap] bytes of
    the next piece, the rest staying first; no piece is the end. *)
Definition read (cap : N) (src : list Fill) : result RelayError (string * list Fill) :=
  match src with
  | [] => Ok ("", [])
  | FIoError :: _ => Err IoFailed
  | FBytes s :: src =>
    let rest := bdrop cap s in
    Ok (btake cap s, if is_empty rest then src else FBytes rest :: src)
  end.

(** The bytes a source still holds, and a bound on the reads it answers. *)
Fixpoint source_text (src : list Fill) : string :=
  match src with
  | [] => ""
  | FBytes s :: src => s ++s source_text src
  | FIoError :: src => source_text src
  end.

Definition source_size (src : list Fill) : nat :=
  (String.length (source_text src) + List.length src)%nat.

(** ** The buffered reader *)

Definition MAX_HEAD : N := 64 * 1024.

(** The end of a head: the offset past the first [CR LF CR LF] found from
    [from] on. *)
Fixpoint blank_line_end (s : string) : option nat :=
  match s with
  | "" => None
  | String c r =>
    if starts_with (String creturn (String newline (String creturn (String newline "")))) s
    then Some 4 else S <$> blank_line_end r
  end.

Definition find_head_end (buf : string) (from : nat) : option nat :=
  if (String.length buf <? 4)%nat then None
  else
    let start := Nat.min from (String.length buf) in
    Nat.add start <$> blank_line_end (sdrop start buf).

(** [read_head] from [scan_from]: the head, if any, and the buffer and source
    left. *)
Fixpoint read_head_from (fuel : nat) (scan_from : nat) (buf : string) (src : list Fill) :
    result RelayError (option string * string * list Fill) :=
  match fuel with
  | 0%nat => Err OutOfFuel
  | S fuel =>
    match find_head_end buf scan_from with
    | Some pos => Ok (Some (stake pos buf), sdrop pos buf, src)
    | None =>
      if (MAX_HEAD <? blen buf)%N then Err HeadTooLarge
      else
        '(chunk, src) ← read 8192 src;
        if is_empty chunk then
          if is_empty buf then Ok (None, buf, src) else Err Closed
        else read_head_from fuel (String.length buf - 3) (buf ++s chunk) src
    end
  end.

Definition read_head (buf : string) (src : list Fill) :
    result RelayError (option string * string * list Fill) :=
  read_head_from (S (source_size src)) 0 buf src.

(** [read_line]: a line with its terminator, the buffer and source left. *)
Fixpoint read_line_from (fuel : nat) (buf : string) (src : list Fill) :
    result RelayError (string * string * list Fill) :=
  match fuel with
  | 0%nat => Err OutOfFuel
  | S fuel =>
    match split_once (Ascii.eqb newline) buf with
    | Some (line, rest) => Ok (line ++s nl, rest, src)
    | None =>
      '(chunk, src) ← read 512 src;
      if is_empty chunk then Err Closed else read_line_from fuel (buf ++s chunk) src
    end
  end.

Definition read_line (buf : string) (src : list Fill) :
    result RelayError (string * string * list Fill) :=
  read_line_from (S (source_size src)) buf src.

(** The reads of [relay_counted]: the bytes written. *)
Fixpoint counted_loop (fuel : nat) (remaining : N) (src : list Fill) :
    result RelayError (string * list Fill) :=
  match fuel with
  | 0%nat => Err OutOfFuel
  | S fuel =>
    if (remaining =? 0)%N then Ok ("", src)
    else
      '(chunk, src) ← read (N.min remaining 8192) src;
      if is_empty chunk then Err Closed
      else
        '(w, src) ← counted_loop fuel (remaining - blen chunk) src;
        Ok (chunk ++s w, src)
  end.

(** [relay_counted]: the bytes written, the buffer and source left. *)
Definition relay_counted (remaining : N) (buf : string) (src : list Fill) :
    result RelayError (string * string * list Fill) :=
  let take := N.min (blen buf) remaining in
  '(w, src) ← counted_loop (S (source_size src)) (remaining - take) src;
  Ok (btake take buf ++s w, bdrop take buf, src).

(** The trailers after the last chunk, to the blank line. *)
Fixpoint relay_trailers (fuel : nat) (buf : string) (src : list Fill) :
    result RelayError (string * string * list Fill) :=
  match fuel with
  | 0%nat => Err OutOfFuel
  | S fuel =>
    '(trailer, buf, src) ← read_line buf src;
    if (trailer ==s String creturn nl) || (trailer ==s nl) then Ok (trailer, buf, src)
    else
      '(w, buf, src) ← relay_trailers fuel buf src;
      Ok (trailer ++s w, buf, src)
  end.

(** The size a chunk line gives. *)
Definition line_size (line : string) : option N :=
  let text := if utf8_valid line then line else "" in
  from_str_radix16 usize_max (trim (hd "" (split_char ";" text))).

(** The addition of the two bytes behind a chunk's data is not checked: at the
    end of the range a debug build panics and a release build goes on with the
    remainder.  Here it is an error, which ends the relay. *)
Fixpoint relay_chunks (fuel : nat) (buf : string) (src : list Fill) :
    result RelayError (string * string * list Fill) :=
  match fuel with
  | 0%nat => Err OutOfFuel
  | S fuel' =>
    '(line, buf, src) ← read_line buf src;
    size ← ok_or (line_size line) BadChunkSize;
    if (size =? 0)%N then
      '(w, buf, src) ← relay_trailers fuel buf src;
      Ok (line ++s w, buf, src)
    else if (usize_max <? size + 2)%N then Err SizeOverflow
    else
      '(data, buf, src) ← relay_counted (size + 2) buf src;
      '(w, buf, src) ← relay_chunks fuel' buf src;
      Ok (line ++s data ++s w, buf, src)
  end.

(** Every turn consumes a line. *)
Definition relay_chunked (buf : string) (src : list Fill) :
    result RelayError (string * string * list Fill) :=
  relay_chunks (S (String.length buf + source_size src)) buf src.

(** The rest of the stream. *)
Fixpoint until_close (fuel : nat) (src : list Fill) : result RelayError (string * list Fill) :=
  match fuel with
  | 0%nat => Err OutOfFuel
  | S fuel =>
    '(chunk, src) ← read 8192 src;
    if is_empty chunk then Ok ("", src)
    else '(w, src) ← until_close fuel src; Ok (chunk ++s w, src)
  end.

Definition relay_body (framing : Framing) (buf : string) (src : list Fill) :
    result RelayError (string * string * list Fill) :=
  match framing with
  | FNone => Ok ("", buf, src)
  | FLength remaining => relay_counted remaining buf src
  | FChunked => relay_chunked buf src
  | FUntilClose =>
    '(w, src) ← until_close (S (source_size src)) src;
    Ok (buf ++s w, "", src)
  end.

(** ** Responses *)

Definition response_status (head : string) : option N :=
  let line := hd "" (split_char newline head) in
  status ← split_char " " line !! 1%nat;
  if utf8_valid status then parse_u16 (trim status) else None.

Definition response_framing (head : string) (request_method : option string) : Framing :=
  let status := response_status head in
  if bool_decide (request_method = Some "HEAD") ||
     match status with
     | Some s => (s =? 204)%N || (s =? 304)%N || ((100 <=? s)%N && (s <? 200)%N)
     | None => false
     end
  then FNone else body_framing head true.

Definition wants_close (head : string) : bool :=
  let by_version := contains_token "HTTP/1.0" (hd "" (split_char newline head)) in
  match request_header head "connection" with
  | Some conn =>
    if contains_token "close" conn then true
    else if contains_token "keep-alive" conn then false
    else by_version
  | None => by_version
  end.

(** ** The replay tee *)

Definition MAX_REPLAY_BYTES : N := 1024 * 1024.

Record ReplayTee := mkTee { tee_copy : string; tee_overflow : bool; tee_failed : bool }.

Definition tee_new : ReplayTee := mkTee "" false false.

Definition tee_record (t : ReplayTee) (bytes : string) : ReplayTee :=
  if tee_overflow t then t
  else if (MAX_REPLAY_BYTES <? blen (tee_copy t) + blen bytes)%N then mkTee "" true (tee_failed t)
  else mkTee (tee_copy t ++s bytes) false (tee_failed t).

(** One [poll_write] that completes: [ok] is how many bytes the upstream took,
    [None] its failure.  A failed tee takes everything. *)
Definition tee_write (t : ReplayTee) (bytes : string) (ok : option N) : ReplayTee * N :=
  if tee_failed t then (tee_record t bytes, blen bytes)
  else
    match ok with
    | Some n =>
      if (0 <? n)%N || is_empty bytes then (tee_record t (btake n bytes), n)
      else (tee_record (mkTee (tee_copy t) (tee_overflow t) true) bytes, blen bytes)
    | None => (tee_record (mkTee (tee_copy t) (tee_overflow t) true) bytes, blen bytes)
    end.

Record Sent := mkSent { sent_replay : option string; sent_failed : bool }.

Definition into_sent (t : ReplayTee) : Sent :=
  mkSent (if tee_overflow t then None else Some (tee_copy t)) (tee_failed t).

Example relay_split_chunks :
  relay_chunked "5;x" [FBytes (String creturn (nl ++s "hel")); FBytes ("lo" ++s String creturn nl ++s "0");
    FBytes (nl ++s String creturn nl ++s "GET")] =
  Ok ("5;x" ++s String creturn nl ++s "hello" ++s String creturn nl ++s "0" ++s nl ++s String creturn nl,
      "GET", []).
Proof. reflexivity. Qed.

(** ** Facts: nothing is lost *)

Lemma read_conserves cap src chunk src' :
  read cap src = Ok (chunk, src') → source_text src = chunk ++s source_text src'.
Proof.
  destruct src as [|[s|] src]; cbn; [by intros [= <- <-]| |done].
  intros [= <- <-]. unfold is_empty. destruct (String.eqb_spec (bdrop cap s) "") as [E|_].
  - pose proof (btake_bdrop cap s) as Hs. rewrite E, app_nil_s in Hs. by rewrite Hs.
  - cbn. by rewrite <-app_assoc_s, btake_bdrop.
Qed.

Lemma read_size cap src chunk src' :
  read cap src = Ok (chunk, src') → is_empty chunk = false → (source_size src' < source_size src)%nat.
Proof.
  intros Hr Hc. pose proof (read_conserves cap src chunk src' Hr) as Ht.
  unfold is_empty in Hc. apply String.eqb_neq in Hc.
  assert (List.length src' ≤ List.length src)%nat as Hl.
  { destruct src as [|[s|] src]; cbn in Hr; [by injection Hr as <- <-| |done].
    injection Hr as <- <-. destruct (is_empty _); cbn; lia. }
  unfold source_size. rewrite Ht, length_app_s. destruct chunk; [done|]. cbn. lia.
Qed.

Lemma read_cap cap src chunk src' : read cap src = Ok (chunk, src') → (blen chunk ≤ cap)%N.
Proof.
  destruct src as [|[s|] src]; cbn; [intros [= <- _]; apply N.le_0_l| |done]. intros [= <- _].
  unfold btake, clamp. unfold blen.
  assert (∀ n (s : string), (String.length (stake n s) ≤ n)%nat) as H.
  { induction n as [|n IH]; intros [|c x]; cbn; try lia. specialize (IH x). lia. }
  pose proof (H (N.to_nat (N.min cap (N.of_nat (String.length s)))) s). lia.
Qed.

Lemma read_line_from_ok fuel buf src line buf' src' :
  read_line_from fuel buf src = Ok (line, buf', src') →
  buf ++s source_text src = line ++s buf' ++s source_text src' ∧
  ∃ l, line = l ++s nl ∧ all_chars (λ c, negb (Ascii.eqb newline c)) l = true.
Proof.
  revert buf src. induction fuel as [|fuel IH]; intros buf src; cbn [read_line_from]; [done|].
  destruct (split_once _ buf) as [[l rest]|] eqn:Es.
  - intros [= <- <- <-]. apply split_once_Some in Es as (c & Hc%Ascii.eqb_eq & -> & Hl). subst c.
    split; [|by exists l]. unfold nl. by rewrite !app_assoc_s.
  - intros ([chunk src1] & Hr & Hk)%bind_ok. destruct (is_empty chunk); [done|].
    apply IH in Hk as [Hk Hl]. split; [|done].
    rewrite (read_conserves _ _ _ _ Hr). by rewrite <-Hk, app_assoc_s.
Qed.

Lemma counted_loop_ok fuel n src w src' :
  counted_loop fuel n src = Ok (w, src') → source_text src = w ++s source_text src' ∧ blen w = n.
Proof.
  revert n src w. induction fuel as [|fuel IH]; intros n src w; cbn [counted_loop]; [done|].
  destruct (N.eqb_spec n 0) as [->|Hn]; [by intros [= <- <-]|].
  intros ([chunk src1] & Hr & Hk)%bind_ok. destruct (is_empty chunk); [done|].
  apply bind_ok in Hk as ([w1 src2] & Hl & [= <- <-]). apply IH in Hl as [Hl Hb].
  rewrite (read_conserves _ _ _ _ Hr), Hl, app_assoc_s, blen_app, Hb. split; [done|].
  apply read_cap in Hr. lia.
Qed.

Lemma blen_btake n s : (n ≤ blen s)%N → blen (btake n s) = n.
Proof.
  intros Hn. unfold btake, clamp, blen in *. rewrite N.min_l by done.
  assert (∀ n (s : string), (n ≤ String.length s)%nat → String.length (stake n s) = n) as H.
  { clear. induction n as [|n IH]; intros [|c x]; cbn; try lia. intros. rewrite IH; lia. }
  rewrite H by lia. lia.
Qed.

Lemma relay_counted_ok n buf src w buf' src' :
  relay_counted n buf src = Ok (w, buf', src') →
  buf ++s source_text src = w ++s buf' ++s source_text src' ∧ blen w = n.
Proof.
  unfold relay_counted. intros ([w1 src1] & Hl & [= <- <- <-])%bind_ok.
  apply counted_loop_ok in Hl as [Hs Hb]. split.
  - rewrite Hs. destruct (N.le_gt_cases (blen buf) n) as [Hle|Hgt].
    + rewrite N.min_l, btake_ge, bdrop_ge by lia. by rewrite app_assoc_s.
    + assert (w1 = "") as ->.
      { rewrite N.min_r in Hb by lia. replace (n - n)%N with 0%N in Hb by lia. by destruct w1. }
      rewrite app_nil_s. cbn. by rewrite <-app_assoc_s, btake_bdrop.
  - rewrite blen_app, blen_btake, Hb by lia. lia.
Qed.

Lemma relay_trailers_ok fuel buf src w buf' src' :
  relay_trailers fuel buf src = Ok (w, buf', src') →
  buf ++s source_text src = w ++s buf' ++s source_text src'.
Proof.
  revert buf src w. induction fuel as [|fuel IH]; intros buf src w; cbn [relay_trailers]; [done|].
  intros ([[t buf1] src1] & Hl & Hk)%bind_ok. apply read_line_from_ok in Hl as [Hl _].
  destruct (_ || _); [by simplify_eq|].
  apply bind_ok in Hk as ([[w1 buf2] src2] & Ht & [= <- <- <-]).
  rewrite Hl, (IH _ _ _ Ht). by rewrite app_assoc_s.
Qed.

(** ** Facts: chunk sizes *)

Lemma cont_in_app lo hi (a b : string) c r :
  (127 < lo)%N → (N_of_ascii c < 128)%N → cont_in lo hi (a ++s String c b) = Some r →
  ∃ a', cont_in lo hi a = Some a' ∧ r = a' ++s String c b.
Proof.
  intros Hlo Hc. destruct a as [|x a]; cbn.
  - unfold in_range. rewrite (proj2 (N.leb_gt lo (N_of_ascii c))) by lia. done.
  - destruct (in_range lo hi x); [|done]. intros [= <-]. by exists a.
Qed.

Lemma cont1_app (a b : string) c r :
  (N_of_ascii c < 128)%N → cont1 (a ++s String c b) = Some r →
  ∃ a', cont1 a = Some a' ∧ r = a' ++s String c b.
Proof. apply (cont_in_app 128 191). lia. Qed.

(** A character does not reach past a following ASCII byte. *)
Lemma utf8_step_app x (a b : string) c r :
  (N_of_ascii c < 128)%N → utf8_step x (a ++s String c b) = Some r →
  ∃ a', utf8_step x a = Some a' ∧ r = a' ++s String c b.
Proof.
  intros Hc. unfold utf8_step.
  assert (∀ lo hi (a0 : string) r0, (127 < lo)%N → (cont_in lo hi (a0 ++s String c b) ≫= cont1) = Some r0 →
    ∃ a', (cont_in lo hi a0 ≫= cont1) = Some a' ∧ r0 = a' ++s String c b) as H2.
  { intros lo hi a0 r0 Hlo. destruct (cont_in lo hi (a0 ++s String c b)) as [r1|] eqn:E1; [|done].
    cbn [mbind option_bind]. apply cont_in_app in E1 as (a1 & -> & ->); [|done|done].
    cbn [mbind option_bind]. by apply cont1_app. }
  assert (∀ lo hi (a0 : string) r0, (127 < lo)%N →
    ((cont_in lo hi (a0 ++s String c b) ≫= cont1) ≫= cont1) = Some r0 →
    ∃ a', ((cont_in lo hi a0 ≫= cont1) ≫= cont1) = Some a' ∧ r0 = a' ++s String c b) as H3.
  { intros lo hi a0 r0 Hlo. destruct (cont_in lo hi (a0 ++s String c b) ≫= cont1) as [r1|] eqn:E1; [|done].
    apply H2 in E1 as (a1 & -> & ->); [|done]. cbn [mbind option_bind]. by apply cont1_app. }
  change cont1 with (cont_in 128 191).
  change cont1 with (cont_in 128 191) in H2, H3.
  repeat match goal with |- context [if ?b then _ else _] => destruct b end.
  - intros [= <-]. by eexists.
  - by apply cont_in_app.
  - by apply H2.
  - by apply H2.
  - by apply H2.
  - by apply H3.
  - by apply H3.
  - by apply H3.
  - done.
Qed.

Lemma utf8_step_length x r r' : utf8_step x r = Some r' → (String.length r' ≤ String.length r)%nat.
Proof.
  assert (∀ lo hi a b, cont_in lo hi a = Some b → (String.length b ≤ String.length a)%nat) as H1.
  { intros lo hi [|c a] b; cbn; [done|]. destruct (in_range lo hi c); [|done]. intros [= <-]. lia. }
  assert (∀ f : option string, ∀ n b, (∀ a, f = Some a → String.length a ≤ n)%nat →
    (f ≫= cont1) = Some b → (String.length b ≤ n)%nat) as H2.
  { intros [a|] n b Hf; [|done]. cbn [mbind option_bind]. intros Hb.
    apply (H1 128%N 191%N) in Hb. specialize (Hf a eq_refl). lia. }
  unfold utf8_step.
  repeat match goal with |- context [if ?b then _ else _] => destruct b end;
    [intros [= <-]; done| | | | | | | |done];
    repeat (apply H2; intros ?); eauto.
  all: try (apply (H1 128%N 191%N)).
Qed.

Lemma utf8_valid_prefix (a b : string) c :
  (N_of_ascii c < 128)%N → utf8_valid (a ++s String c b) = true → utf8_valid a = true.
Proof.
  intros Hc. unfold utf8_valid.
  assert (∀ n fuel fuel' a, (String.length a ≤ n)%nat → (n ≤ fuel')%nat →
    utf8_valid_go fuel (a ++s String c b) = true → utf8_valid_go fuel' a = true) as H;
    [|intros Hv; by eapply (H (String.length a)); [..|exact Hv]].
  clear a. intros n. induction n as [|n IH]; intros fuel fuel' a Hn Hf.
  - destruct a; cbn in Hn; [|lia]. intros _. by destruct fuel'.
  - destruct a as [|x a]; [intros _; by destruct fuel'|]. destruct fuel' as [|fuel']; [lia|].
    destruct fuel as [|fuel]; [done|]. cbn [String.append utf8_valid_go].
    destruct (utf8_step x (a ++s String c b)) as [r|] eqn:E; [|done].
    apply utf8_step_app in E as (a' & E & ->); [|done]. rewrite E.
    apply utf8_step_length in E. cbn in Hn. apply IH; lia.
Qed.

(** A final line feed does not survive trimming, and changes nothing else. *)
Lemma trim_start_nl x :
  trim_start (x ++s nl) = if all_ws x then "" else trim_start x ++s nl.
Proof.
  unfold all_ws. remember (String.length x) as n eqn:Hn. revert x Hn.
  induction (lt_wf n) as [n _ IH]. intros x ->. destruct x as [|c x]; [done|].
  assert (∀ t, (String.length t < String.length (String c x))%nat →
    trim_start (t ++s nl) = if trim_start t ==s "" then "" else trim_start t ++s nl) as Ht
    by (intros t Hlt; by apply (IH (String.length t))). clear IH.
  cbn [String.append trim_start]. destruct (ws1 c); [apply Ht; cbn; lia|].
  destruct x as [|d x]; cbn [String.append nl].
  { unfold nl. cbn [String.append]. unfold ws2. rewrite andb_false_r. done. }
  destruct (ws2 c d); [apply Ht; cbn; lia|].
  destruct x as [|e x]; cbn [String.append].
  { unfold nl. cbn [String.append]. unfold ws3. cbn [in_range]. rewrite !andb_false_r. done. }
  destruct (ws3 c d e); [apply Ht; cbn; lia|done].
Qed.

Lemma all_ws_nl x : all_ws (x ++s nl) = all_ws x.
Proof.
  unfold all_ws at 1. rewrite trim_start_nl. destruct (all_ws x); [done|].
  apply String.eqb_neq. by destruct (trim_start x).
Qed.

Lemma trim_end_nl x : trim_end (x ++s nl) = trim_end x.
Proof.
  induction x as [|c x IH]; [done|]. cbn [String.append trim_end].
  pose proof (all_ws_nl (String c x)) as H. cbn [String.append] in H. by rewrite H, IH.
Qed.

Lemma trim_nl x : trim (x ++s nl) = trim x.
Proof.
  unfold trim. rewrite trim_start_nl. destruct (all_ws x) eqn:E; [|apply trim_end_nl].
  unfold all_ws in E. apply String.eqb_eq in E. by rewrite E.
Qed.

Lemma hd_split_app p (l x : string) :
  hd "" (split p (l ++s x)) =
  if all_chars (λ c, negb (p c)) l then l ++s hd "" (split p x) else hd "" (split p l).
Proof.
  induction l as [|c l IH]; [reflexivity|]. cbn [String.append split all_chars].
  destruct (p c) eqn:Ec; [done|]. cbn [negb andb].
  pose proof (split_not_nil p (l ++s x)) as H1. pose proof (split_not_nil p l) as H2.
  destruct (split p (l ++s x)) as [|h1 t1]; [done|]. destruct (split p l) as [|h2 t2]; [done|].
  cbn [hd] in *. rewrite IH. by destruct (all_chars _ l).
Qed.

(** The relay and the review read the same size off a chunk line. *)
Lemma line_size_agrees l n : line_size (l ++s nl) = Some n → chunk_size l = Some n.
Proof.
  unfold line_size, chunk_size. cbn zeta. destruct (utf8_valid (l ++s nl)) eqn:Hu; [|done].
  unfold split_char. rewrite hd_split_app. change (split (Ascii.eqb ";") nl) with [nl]. cbn [hd].
  destruct (all_chars _ l) eqn:Hall.
  - rewrite (split_none _ l) by done. cbn [hd]. rewrite trim_nl.
    unfold nl in Hu. rewrite (utf8_valid_prefix l "" newline) by done. done.
  - assert (utf8_valid (hd "" (split (Ascii.eqb ";") l)) = true) as ->; [|done].
    assert (∃ b, l = hd "" (split (Ascii.eqb ";") l) ++s String ";" b) as [b Hb].
    { clear Hu. induction l as [|c l IH]; [done|]. cbn [all_chars] in Hall. cbn [split].
      destruct (Ascii.eqb_spec ";" c) as [<-|Hne]; [by exists l|].
      cbn [negb andb] in Hall. destruct (IH Hall) as [b Hb]. exists b.
      pose proof (split_not_nil (Ascii.eqb ";") l) as Hn.
      destruct (split (Ascii.eqb ";") l) as [|h t]; [done|]. cbn [hd] in *. cbn. by rewrite <-Hb. }
    rewrite Hb in Hu at 1. rewrite app_assoc_s in Hu. cbn [String.append] in Hu.
    by apply utf8_valid_prefix in Hu.
Qed.

(** ** Facts: a relayed body is a whole body *)

Lemma dechunk_line f i l rest out :
  all_chars (λ c, negb (Ascii.eqb newline c)) l = true →
  dechunk_from (S f) i (l ++s nl ++s rest) out =
  match chunk_size l with
  | None => Some (out, false)
  | Some size =>
    let i := (i + blen l + 1)%N in
    if (size =? 0)%N then Some (out, true)
    else if (usize_max <? i + size)%N then None
    else if (blen rest <? size)%N then Some (out ++s rest, false)
    else dechunk_from f (i + N.min (size + 2) (blen rest)) (bdrop (size + 2) rest)
           (out ++s btake size rest)
  end.
Proof.
  intros Hl. cbn [dechunk_from]. unfold nl. cbn [String.append].
  by rewrite split_once_app.
Qed.

Lemma relay_chunks_ok fuel buf src w buf' src' :
  relay_chunks fuel buf src = Ok (w, buf', src') →
  buf ++s source_text src = w ++s buf' ++s source_text src' ∧
  ∃ body, ∀ x i out f, (String.length (w ++s x) < f)%nat → (i + blen w ≤ usize_max)%N →
    dechunk_from f i (w ++s x) out = Some (out ++s body, true).
Proof.
  revert buf src w. induction fuel as [|fuel IH]; intros buf src w; [done|]. cbn [relay_chunks].
  intros ([[line buf1] src1] & Hline & (size & Hsize & Hk)%bind_ok)%bind_ok.
  apply read_line_from_ok in Hline as (Hcons & l & -> & Hl).
  destruct (line_size (l ++s nl)) as [n|] eqn:En; [|done]. cbn [ok_or] in Hsize.
  assert (n = size) as -> by congruence. clear Hsize.
  apply line_size_agrees in En. revert Hk. destruct (N.eqb_spec size 0) as [Hz|Hz]; intros Hk.
  - rewrite Hz in En. apply bind_ok in Hk as ([[w1 buf2] src2] & Ht & [= <- <- <-]).
    apply relay_trailers_ok in Ht. split; [by rewrite Hcons, Ht, !app_assoc_s|].
    exists "". intros x i out f Hf Hi. destruct f as [|f]; [lia|].
    rewrite !app_assoc_s, dechunk_line, En by done. cbn. by rewrite app_nil_s.
  - revert Hk. destruct (N.ltb_spec usize_max (size + 2)) as [|Hsz]; [done|]. intros Hk.
    apply bind_ok in Hk as ([[data buf2] src2] & Hd & Hk).
    apply bind_ok in Hk as ([[w1 buf3] src3] & Hw & [= <- <- <-]).
    apply relay_counted_ok in Hd as [Hd Hlen]. apply IH in Hw as [Hw [body Hbody]].
    split; [by rewrite Hcons, Hd, Hw, !app_assoc_s|].
    exists (btake size data ++s body). intros x i out f Hf Hi. destruct f as [|f]; [lia|].
    rewrite !blen_app in Hi. change (blen nl) with 1%N in Hi.
    rewrite !length_app_s in Hf. cbn in Hf.
    rewrite !app_assoc_s, dechunk_line, En by done. cbn zeta.
    rewrite (proj2 (N.eqb_neq size 0)) by done.
    rewrite (proj2 (N.ltb_ge usize_max _)) by lia.
    rewrite (proj2 (N.ltb_ge (blen (data ++s w1 ++s x)) size)) by (rewrite blen_app; lia).
    rewrite (N.min_l (size + 2)) by (rewrite blen_app; lia).
    rewrite bdrop_app by lia. rewrite bdrop_ge by lia. cbn [String.append].
    rewrite btake_app by lia. rewrite Hbody.
    + by rewrite app_assoc_s.
    + rewrite length_app_s. lia.
    + lia.
Qed.

(** The relay of a request body: nothing lost, and a whole body decoded. *)
Lemma relay_body_ok framing buf src w buf' src' :
  relay_body framing buf src = Ok (w, buf', src') → framing ≠ FUntilClose → (blen w ≤ usize_max)%N →
  buf ++s source_text src = w ++s buf' ++s source_text src' ∧
  ∃ body, ∀ x, body_prefix (w ++s x) framing = Some (body, true).
Proof.
  intros Hr Hf Hw. destruct framing as [|n| |]; cbn [relay_body] in Hr; [..|done].
  - injection Hr as <- <- <-. split; [done|]. by exists "".
  - apply relay_counted_ok in Hr as [Hc Hn]. split; [done|]. exists w. intros x.
    cbn [body_prefix]. rewrite btake_app, btake_ge by lia.
    rewrite (proj2 (N.leb_le n _)); [done|]. rewrite blen_app. lia.
  - apply relay_chunks_ok in Hr as [Hc [body Hb]]. split; [done|]. exists body. intros x.
    cbn [body_prefix]. unfold dechunk. rewrite Hb; [done|lia|lia].
Qed.

Lemma request_framing head : body_framing head false ≠ FUntilClose.
Proof. unfold body_framing. repeat case_match; done. Qed.

(** ** Facts: the relay ends *)

Lemma read_err cap src e : read cap src = Err e → e ≠ OutOfFuel.
Proof. destruct src as [|[s|] src]; cbn; [done..|]. by intros [= <-]. Qed.

Lemma read_line_fuel fuel buf src :
  (source_size src < fuel)%nat → read_line_from fuel buf src ≠ Err OutOfFuel.
Proof.
  revert buf src. induction fuel as [|fuel IH]; intros buf src Hf; [lia|]. cbn [read_line_from].
  destruct (split_once _ buf) as [[? ?]|]; [done|].
  destruct (read 512 src) as [[chunk src1]|e] eqn:E; cbn [mbind result_bind].
  - destruct (is_empty chunk) eqn:Ee; [done|]. apply IH. apply read_size in E; [lia|done].
  - apply read_err in E. congruence.
Qed.

Lemma counted_fuel fuel n src :
  (source_size src < fuel)%nat → counted_loop fuel n src ≠ Err OutOfFuel.
Proof.
  revert n src. induction fuel as [|fuel IH]; intros n src Hf; [lia|]. cbn [counted_loop].
  destruct (n =? 0)%N; [done|].
  destruct (read _ src) as [[chunk src1]|e] eqn:E; cbn [mbind result_bind].
  - destruct (is_empty chunk) eqn:Ee; [done|]. apply read_size in E; [|done].
    specialize (IH (n - blen chunk)%N src1 ltac:(lia)).
    destruct (counted_loop fuel _ src1) as [[? ?]|e']; [done|]. cbn. congruence.
  - apply read_err in E. congruence.
Qed.

Lemma read_pieces cap src chunk src' :
  read cap src = Ok (chunk, src') → (List.length src' ≤ List.length src)%nat.
Proof.
  destruct src as [|[s|] src]; cbn; [by intros [= <- <-]| |done].
  intros [= <- <-]. destruct (is_empty _); cbn; lia.
Qed.

Lemma read_line_pieces fuel buf src line buf' src' :
  read_line_from fuel buf src = Ok (line, buf', src') → (List.length src' ≤ List.length src)%nat.
Proof.
  revert buf src. induction fuel as [|fuel IH]; intros buf src; cbn [read_line_from]; [done|].
  destruct (split_once _ buf) as [[? ?]|]; [by intros [= _ _ <-]|].
  intros ([chunk src1] & Hr%read_pieces & Hk)%bind_ok. destruct (is_empty chunk); [done|].
  apply IH in Hk. lia.
Qed.

Lemma counted_pieces fuel n src w src' :
  counted_loop fuel n src = Ok (w, src') → (List.length src' ≤ List.length src)%nat.
Proof.
  revert n src w. induction fuel as [|fuel IH]; intros n src w; cbn [counted_loop]; [done|].
  destruct (n =? 0)%N; [by intros [= _ <-]|].
  intros ([chunk src1] & Hr%read_pieces & Hk)%bind_ok. destruct (is_empty chunk); [done|].
  apply bind_ok in Hk as ([w1 src2] & Hl & [= _ Hs]). subst src2. apply IH in Hl. lia.
Qed.

(** What is buffered or still to come. *)
Definition pending (buf : string) (src : list Fill) : nat := (String.length buf + source_size src)%nat.

Lemma pending_consumed buf src w buf' src' :
  buf ++s source_text src = w ++s buf' ++s source_text src' → (List.length src' ≤ List.length src)%nat →
  (pending buf' src' + String.length w ≤ pending buf src)%nat.
Proof.
  intros Ht Hl. apply (f_equal String.length) in Ht. rewrite !length_app_s in Ht.
  unfold pending, source_size. lia.
Qed.

Lemma read_line_pending fuel buf src line buf' src' :
  read_line_from fuel buf src = Ok (line, buf', src') → (pending buf' src' < pending buf src)%nat.
Proof.
  intros Hr. pose proof (read_line_pieces _ _ _ _ _ _ Hr) as Hp.
  apply read_line_from_ok in Hr as (Hc & l & -> & _).
  pose proof (pending_consumed _ _ _ _ _ Hc Hp) as H. rewrite length_app_s in H. cbn in H. lia.
Qed.

Lemma trailers_fuel fuel buf src :
  (pending buf src < fuel)%nat → relay_trailers fuel buf src ≠ Err OutOfFuel.
Proof.
  revert buf src. induction fuel as [|fuel IH]; intros buf src Hf; [lia|]. cbn [relay_trailers].
  pose proof (read_line_fuel (S (source_size src)) buf src ltac:(lia)) as Hl. fold (read_line buf src) in Hl.
  destruct (read_line buf src) as [[[t buf1] src1]|e] eqn:E; cbn [mbind result_bind]; [|congruence].
  destruct (_ || _); [done|]. apply read_line_pending in E.
  specialize (IH buf1 src1 ltac:(lia)).
  destruct (relay_trailers fuel buf1 src1) as [[[? ?] ?]|e']; [done|]. cbn. congruence.
Qed.

Lemma chunks_fuel fuel buf src :
  (pending buf src < fuel)%nat → relay_chunks fuel buf src ≠ Err OutOfFuel.
Proof.
  revert buf src. induction fuel as [|fuel IH]; intros buf src Hf; [lia|]. cbn [relay_chunks].
  pose proof (read_line_fuel (S (source_size src)) buf src ltac:(lia)) as Hl. fold (read_line buf src) in Hl.
  destruct (read_line buf src) as [[[t buf1] src1]|e] eqn:E; cbn [mbind result_bind]; [|congruence].
  apply read_line_pending in E. destruct (line_size t) as [n|]; [|done]. cbn [ok_or mbind result_bind].
  destruct (n =? 0)%N.
  - pose proof (trailers_fuel (S fuel) buf1 src1 ltac:(lia)) as Ht.
    destruct (relay_trailers (S fuel) buf1 src1) as [[[? ?] ?]|e']; [done|]. cbn. congruence.
  - destruct (usize_max <? n + 2)%N; [done|]. unfold relay_counted.
    pose proof (counted_fuel (S (source_size src1)) (n + 2 - N.min (blen buf1) (n + 2)) src1 ltac:(lia)) as Hc.
    destruct (counted_loop _ _ src1) as [[w2 src2]|e'] eqn:Ec; cbn [mbind result_bind]; [|congruence].
    assert (relay_counted (n + 2) buf1 src1 =
      Ok (btake (N.min (blen buf1) (n + 2)) buf1 ++s w2, bdrop (N.min (blen buf1) (n + 2)) buf1, src2)) as Hr
      by (unfold relay_counted; by rewrite Ec).
    apply relay_counted_ok in Hr as [Hr _]. apply counted_pieces in Ec.
    pose proof (pending_consumed _ _ _ _ _ Hr Ec) as Hp.
    match goal with |- context [relay_chunks fuel ?b ?s] => specialize (IH b s ltac:(lia)) end.
    destruct (relay_chunks fuel _ src2) as [[[? ?] ?]|e'']; [done|]. cbn. congruence.
Qed.

Lemma until_close_fuel fuel src :
  (source_size src < fuel)%nat → until_close fuel src ≠ Err OutOfFuel.
Proof.
  revert src. induction fuel as [|fuel IH]; intros src Hf; [lia|]. cbn [until_close].
  destruct (read _ src) as [[chunk src1]|e] eqn:E; cbn [mbind result_bind].
  - destruct (is_empty chunk) eqn:Ee; [done|]. apply read_size in E; [|done].
    specialize (IH src1 ltac:(lia)). destruct (until_close fuel src1) as [[? ?]|e']; [done|].
    cbn. congruence.
  - apply read_err in E. congruence.
Qed.

(** Relaying a body ends: under every framing, and however the source cuts
    its bytes, the relay reads a bounded number of pieces and then either
    finishes or reports a closed source, an I/O error or a bad chunk. *)
Theorem relay_body_ends framing buf src : relay_body framing buf src ≠ Err OutOfFuel.
Proof.
  destruct framing as [|n| |]; cbn [relay_body]; [done|..].
  - unfold relay_counted.
    pose proof (counted_fuel (S (source_size src)) (n - N.min (blen buf) n) src ltac:(lia)) as H.
    destruct (counted_loop _ _ src) as [[? ?]|e]; [done|]. cbn. congruence.
  - apply chunks_fuel. unfold pending. lia.
  - pose proof (until_close_fuel (S (source_size src)) src ltac:(lia)) as H.
    destruct (until_close _ src) as [[? ?]|e]; [done|]. cbn. congruence.
Qed.

(** What the gate reviewed is what the upstream receives: when the relay of a
    request body finishes, the bytes it wrote are exactly the next bytes of the
    stream, in order, with the rest kept for the next request; they are one
    whole body, and any stretch of the stream on which the review saw a
    complete body decodes to that same body. *)
Theorem relay_is_reviewed_body head buf src w buf' src' :
  relay_body (body_framing head false) buf src = Ok (w, buf', src') → (blen w ≤ usize_max)%N →
  buf ++s source_text src = w ++s buf' ++s source_text src' ∧
  ∃ body, body_prefix w (body_framing head false) = Some (body, true) ∧
    ∀ raw x reviewed, raw ++s x = buf ++s source_text src →
      body_prefix raw (body_framing head false) = Some (reviewed, true) → reviewed = body.
Proof.
  intros Hr Hw. destruct (relay_body_ok _ _ _ _ _ _ Hr (request_framing head) Hw) as [Hc [body Hb]].
  split; [done|]. exists body. split; [rewrite <-(app_nil_s w); apply Hb|].
  intros raw x reviewed Hraw Hrev.
  pose proof (Hb (buf' ++s source_text src')) as Hfull. rewrite <-Hc, <-Hraw in Hfull.
  destruct (body_prefix_extend _ _ _ _ _ _ _ Hrev Hfull) as [_ Hfin].
  by destruct (Hfin eq_refl) as [-> _].
Qed.

(** ** Facts: heads *)

Abbreviation blank_line := (String creturn (String newline (String creturn (String newline "")))).

Lemma blank_line_short s : (String.length s < 4)%nat → blank_line_end s = None.
Proof.
  do 4 (destruct s as [|? s]; [intros _; cbn; by rewrite ?andb_false_r|]). cbn. lia.
Qed.

Lemma starts_with_app_long p a b : (String.length p ≤ String.length a)%nat →
  starts_with p (a ++s b) = starts_with p a.
Proof.
  revert a. induction p as [|c p IH]; intros a Hl; [done|].
  destruct a as [|d a]; cbn in *; [lia|]. rewrite IH by lia. done.
Qed.

(** Rescanning from three bytes before the end of what was already scanned
    finds what a scan of the whole finds. *)
Lemma rescan_complete a b :
  blank_line_end a = None →
  Nat.add (String.length a - 3) <$> blank_line_end (sdrop (String.length a - 3) (a ++s b)) =
  blank_line_end (a ++s b).
Proof.
  induction a as [|c a IH]; intros Ha; [cbn; by destruct (blank_line_end b)|].
  destruct (Nat.le_gt_cases (String.length a) 2) as [Hs|Hs].
  { replace (String.length (String c a) - 3)%nat with 0%nat by (cbn; lia).
    change (sdrop 0 (String c a ++s b)) with (String c a ++s b).
    by destruct (blank_line_end (String c a ++s b)). }
  replace (String.length (String c a) - 3)%nat with (S (String.length a - 3)) by (cbn; lia).
  change (String c a ++s b) with (String c (a ++s b)). cbn [sdrop].
  cbn [blank_line_end] in *.
  destruct (starts_with blank_line (String c a)) eqn:Es; [done|].
  change (String c (a ++s b)) with (String c a ++s b).
  rewrite starts_with_app_long, Es by (cbn; lia).
  destruct (blank_line_end a) eqn:Eb; [done|]. rewrite <-IH by done.
  by destruct (blank_line_end (sdrop _ _)).
Qed.

Lemma find_head_end_rescan a b :
  blank_line_end a = None →
  find_head_end (a ++s b) (String.length a - 3) = blank_line_end (a ++s b).
Proof.
  intros Ha. unfold find_head_end. destruct (Nat.ltb_spec (String.length (a ++s b)) 4).
  - by rewrite blank_line_short.
  - rewrite Nat.min_l by (rewrite length_app_s; lia). by apply rescan_complete.
Qed.

Lemma blank_line_end_spec s n :
  blank_line_end s = Some n →
  (4 ≤ n ≤ String.length s)%nat ∧ blank_line_end (stake n s) = Some n ∧
  ∃ x, stake n s = x ++s blank_line.
Proof.
  revert n. induction s as [|c s IH]; intros n; [done|]. cbn [blank_line_end].
  destruct (starts_with blank_line (String c s)) eqn:E.
  - intros [= <-]. apply starts_with_spec in E as [r Hr]. rewrite Hr. cbn.
    split; [lia|]. split; [done|]. by exists "".
  - destruct (blank_line_end s) as [k|]; [|done]. cbn. intros [= <-].
    destruct (IH k eq_refl) as (Hk & Hs & x & Hx). split; [lia|]. split; [|exists (String c x); cbn; by rewrite Hx].
    cbn [blank_line_end stake]. rewrite Hs.
    assert (starts_with blank_line (String c (stake k s)) = false) as ->; [|done].
    apply not_true_iff_false. intros [r Hr]%starts_with_spec. apply not_true_iff_false in E. apply E.
    apply starts_with_spec. exists (r ++s sdrop k s).
    rewrite <-(stake_sdrop k s) at 1. change (String c (stake k s ++s sdrop k s)) with (String c (stake k s) ++s sdrop k s).
    by rewrite Hr.
Qed.

(** Reading a head is exact and does not depend on how its bytes arrive: what
    is returned is the stream up to and including its first blank line, found
    although only the last three bytes are rescanned after each read, and the
    rest is kept; at most the size limit and one read are ever buffered. *)
Theorem read_head_exact buf src head buf' src' :
  read_head buf src = Ok (Some head, buf', src') →
  buf ++s source_text src = head ++s buf' ++s source_text src' ∧
  blank_line_end head = Some (String.length head) ∧
  (blen buf ≤ MAX_HEAD → blen head + blen buf' ≤ MAX_HEAD + 8192)%N.
Proof.
  unfold read_head. assert (∀ fuel scanned more src,
    blank_line_end scanned = None → (blen (scanned ++s more) ≤ MAX_HEAD + 8192)%N ∨ (MAX_HEAD < blen buf)%N →
    read_head_from fuel (String.length scanned - 3) (scanned ++s more) src = Ok (Some head, buf', src') →
    (scanned ++s more) ++s source_text src = head ++s buf' ++s source_text src' ∧
    blank_line_end head = Some (String.length head) ∧
    (blen buf ≤ MAX_HEAD → blen head + blen buf' ≤ MAX_HEAD + 8192)%N) as H.
  2:{ intros Hr. apply (H (S (source_size src)) "" buf src); [done| |exact Hr].
      destruct (N.le_gt_cases (blen buf) MAX_HEAD); [left; cbn [String.append]; lia|by right]. }
  induction fuel as [|fuel IH]; intros scanned more src0 Hno Hlen; cbn [read_head_from]; [done|].
  rewrite find_head_end_rescan by done.
  destruct (blank_line_end (scanned ++s more)) as [pos|] eqn:Ep.
  - intros [= <- <- <-]. apply blank_line_end_spec in Ep as (Hp & Hb & _).
    rewrite <-app_assoc_s, stake_sdrop. split; [done|].
    assert (String.length (stake pos (scanned ++s more)) = pos) as Hl.
    { pose proof (f_equal String.length (stake_sdrop pos (scanned ++s more))) as Hs.
      rewrite length_app_s, sdrop_length in Hs. lia. }
    rewrite Hb, Hl. split; [done|]. intros Hbuf.
    pose proof (stake_sdrop pos (scanned ++s more)) as Hs. rewrite <-blen_app, Hs. lia.
  - destruct (N.ltb_spec MAX_HEAD (blen (scanned ++s more))) as [|Hmax]; [done|].
    intros ([chunk src1] & Hr & Hk)%bind_ok.
    destruct (is_empty chunk); [by destruct (is_empty (scanned ++s more))|].
    rewrite (read_conserves _ _ _ _ Hr), <-app_assoc_s.
    apply (IH (scanned ++s more) chunk src1); [done| |exact Hk].
    left. rewrite blen_app. apply read_cap in Hr. lia.
Qed.

(** ** Facts: the replay copy *)

(** The bytes each completed write accounts for. *)
Fixpoint tee_run (t : ReplayTee) (writes : list (string * option N)) : ReplayTee * string :=
  match writes with
  | [] => (t, "")
  | (bytes, ok) :: writes =>
    let '(t, n) := tee_write t bytes ok in
    let '(t, rest) := tee_run t writes in
    (t, btake n bytes ++s rest)
  end.

(** The copy while it fits, with the bytes accounted for so far. *)
Definition tee_inv (t : ReplayTee) (sent : string) : Prop :=
  if tee_overflow t then (MAX_REPLAY_BYTES < blen sent)%N
  else tee_copy t = sent ∧ (blen sent ≤ MAX_REPLAY_BYTES)%N.

Lemma tee_record_inv t sent bytes : tee_inv t sent → tee_inv (tee_record t bytes) (sent ++s bytes).
Proof.
  unfold tee_inv, tee_record. destruct (tee_overflow t) eqn:Eo.
  - intros H. rewrite Eo, blen_app. lia.
  - intros [<- H]. destruct (N.ltb_spec MAX_REPLAY_BYTES (blen (tee_copy t) + blen bytes)) as [Hl|Hl];
      cbn; rewrite blen_app; [lia|]. split; [done|lia].
Qed.

Lemma tee_write_inv t sent bytes ok :
  tee_inv t sent →
  tee_inv (tee_write t bytes ok).1 (sent ++s btake (tee_write t bytes ok).2 bytes).
Proof.
  intros Hi. unfold tee_write.
  assert (btake (blen bytes) bytes = bytes) as Hall by (apply btake_ge; lia).
  assert (tee_inv (mkTee (tee_copy t) (tee_overflow t) true) sent) as Hf by (by unfold tee_inv in *).
  destruct (tee_failed t); cbn [fst snd]; [rewrite Hall; by apply tee_record_inv|].
  destruct ok as [n|]; [destruct (_ || _)|]; cbn [fst snd]; rewrite ?Hall; by apply tee_record_inv.
Qed.

(** The replay copy is faithful or absent: whatever the sizes of the writes
    and wherever the upstream fails, the copy offered for a replay is exactly
    the bytes the tee accounted for, all of them, when they fit the cap, and
    there is none when they do not. *)
Theorem replay_copy_exact writes :
  let '(t, sent) := tee_run tee_new writes in
  sent_replay (into_sent t) = if (blen sent <=? MAX_REPLAY_BYTES)%N then Some sent else None.
Proof.
  assert (∀ writes t done, tee_inv t done →
    let '(t', sent) := tee_run t writes in tee_inv t' (done ++s sent)) as H.
  { clear. intros writes. induction writes as [|[bytes ok] writes IH]; intros t dn Hi; cbn [tee_run].
    - by rewrite app_nil_s.
    - pose proof (tee_write_inv t dn bytes ok Hi) as Hw.
      destruct (tee_write t bytes ok) as [t1 n]. cbn [fst snd] in Hw. specialize (IH t1 _ Hw).
      destruct (tee_run t1 writes) as [t2 rest]. by rewrite <-app_assoc_s. }
  specialize (H writes tee_new ""). destruct (tee_run tee_new writes) as [t sent].
  unfold tee_inv in H. cbn [tee_overflow tee_new tee_copy String.append] in H.
  specialize (H (conj eq_refl (N.le_0_l _))). unfold into_sent. cbn [sent_replay].
  destruct (tee_overflow t).
  - by rewrite (proj2 (N.leb_gt _ _)).
  - destruct H as [-> H]. by rewrite (proj2 (N.leb_le _ _)).
Qed.

(** ** The gate and the relay together *)

(** C3. End to end, the bytes of a push that leave the proxy move only open
    branches: when the gate lets a push through and its body is relayed, from
    whatever part of the stream was buffered for the review, the bytes written
    upstream decode to a whole command list whose every ref is a branch no
    protected name equals, and the gate is [draftPrOnly]. *)
Theorem pushed_bytes_writable `{JsonText} p host head buf fills x gate c buf1 src w buf' src' :
  enforced p = Some gate → git_host host → Call_parse head = Some c → is_push c = true →
  gate_refusal p host head buf fills = Relay →
  buf1 ++s source_text src = buf ++s fills_text fills ++s x →
  relay_body (body_framing head false) buf1 src = Ok (w, buf', src') → (blen w ≤ usize_max)%N →
  gate = DraftPrOnly ∧
  ∃ body refs, body_prefix w (body_framing head false) = Some (body, true) ∧
    push_refs body = PRefs refs ∧ Forall (writable_ref p) refs.
Proof.
  intros He Hh Hc Hpush Hgate Hstream Hr Hw.
  destruct (relay_body_ok _ _ _ _ _ _ Hr (request_framing head) Hw) as [Hcons [body Hb]].
  destruct (relayed_push_writable p host head buf fills x gate c body) as (Hg & _ & refs & Hrefs & Hall);
    [done..| |].
  - rewrite <-Hstream, Hcons. apply Hb.
  - split; [done|]. exists body, refs. split; [|done]. rewrite <-(app_nil_s w). apply Hb.
Qed.

(** ** Witnesses *)

Lemma relay_is_reviewed_body_witness :
  let head := "POST / HTTP/1.1" ++s crlf ++s "Content-Length: 5" ++s crlf ++s crlf in
  "hel" ++s source_text [FBytes "loGET"] = "hello" ++s "" ++s source_text [FBytes "GET"] ∧
  ∃ body, body_prefix "hello" (body_framing head false) = Some (body, true) ∧
    ∀ raw x reviewed, raw ++s x = "hel" ++s source_text [FBytes "loGET"] →
      body_prefix raw (body_framing head false) = Some (reviewed, true) → reviewed = body.
Proof.
  cbv zeta. apply (relay_is_reviewed_body _ "hel" [FBytes "loGET"] "hello" "" [FBytes "GET"]).
  - reflexivity.
  - by vm_compute.
Defined.

Lemma read_head_exact_witness :
  let head := "GET / HTTP/1.1" ++s crlf ++s crlf in
  "GET /" ++s source_text [FBytes (" HTTP/1.1" ++s crlf ++s String creturn ""); FBytes (nl ++s "x")] =
    head ++s "x" ++s source_text [] ∧
  blank_line_end head = Some (String.length head) ∧
  (blen "GET /" ≤ MAX_HEAD → blen head + blen "x" ≤ MAX_HEAD + 8192)%N.
Proof. cbv zeta. apply read_head_exact. reflexivity. Defined.

Lemma pushed_bytes_writable_witness :
  DraftPrOnly = DraftPrOnly ∧
  ∃ body refs, body_prefix sample_push (body_framing push_head false) = Some (body, true) ∧
    push_refs body = PRefs refs ∧ Forall (writable_ref draft_policy) refs.
Proof.
  apply (@pushed_bytes_writable plain_json draft_policy "github.com" push_head "" [FBytes sample_push] ""
    DraftPrOnly push_call "" [FBytes sample_push] sample_push "" []).
  - reflexivity.
  - apply list_elem_of_here.
  - vm_compute. reflexivity.
  - vm_compute. reflexivity.
  - vm_compute. reflexivity.
  - vm_compute. reflexivity.
  - vm_compute. reflexivity.
  - by vm_compute.
Defined.
