(* ===== verification/Connect.v ===== *)
(** * Connections through the proxy ([cctui-guard-proxy/src/forward.rs], [transparent.rs])

    The two listeners' handlers, from the first bytes of a connection to the
    dial: forward mode ([CONNECT] and absolute-URI requests) and transparent
    mode (redirected connections, named by SNI or [Host]).  A handler yields the
    effects it has on the world in order; what the world answers (name
    resolution, the list file at each consultation, whether writes and
    connects succeed) is the record [ConnIo]. *)

From stdpp Require Import base decidable list gmap strings.
From Stdlib Require Import Lia ZArith NArith Bool Ascii String.
From S2P Require Import Prelude RustStr Json Rules Http Net Dial Peek Secrets Inject Gate GateFacts.
From S2P Require Import ProxyPolicy Relay.

(** ** Authorities *)

Definition port_or (default_port : N) (s : string) : N := default default_port (parse_u16 s).

Definition split_host_port (host_port : string) (default_port : N) : string * N :=
  match strip_prefix "[" host_port with
  | Some rest =>
    match split_once_str "]:" rest with
    | Some (h, p) => (h, port_or default_port p)
    | None => (trim_end_matches (Ascii.eqb "]") rest, default_port)
    end
  | None =>
    match rsplit_once (Ascii.eqb ":") host_port with
    | Some (h, p) => (h, port_or default_port p)
    | None => (host_port, default_port)
    end
  end.

Definition normalize_authority (authority : string) (default_port : N) : string :=
  if starts_with "[" authority then
    if contains "]:" authority then authority
    else authority ++s ":" ++s u32_to_string default_port
  else if contains_char (Ascii.eqb ":") authority then authority
  else authority ++s ":" ++s u32_to_string default_port.

Definition split_absolute_uri (target : string) : option (string * string) :=
  rest ← strip_prefix "http://" target;
  let '(authority, path) :=
    match split_once (Ascii.eqb "/") rest with
    | Some (a, p) => (a, "/" ++s p)
    | None => (rest, "/")
    end in
  Some (normalize_authority authority 80, path).

(** ** Requests *)

Record Request := mkRequest { rq_method : string; rq_target : string; rq_raw : string }.

Inductive RequestError := ReadFailed | RequestTooLarge | Malformed | NoFuel.

Definition parse_request (raw : string) : result RequestError Request :=
  let request_line := hd "" (lines (from_utf8_lossy raw)) in
  match split_whitespace request_line with
  | method :: target :: _ => Ok (mkRequest method target raw)
  | _ => Err Malformed
  end.

Fixpoint read_request_from (fuel : nat) (raw : string) (src : list Fill) :
    result RequestError (option Request) :=
  match fuel with
  | 0%nat => Err NoFuel
  | S fuel =>
    '(chunk, src) ← map_err (λ _, ReadFailed) (read 4096 src);
    if is_empty chunk then Ok None
    else
      let raw := raw ++s chunk in
      match blank_line_end raw with
      | Some _ => Some <$> parse_request raw
      | None => if (64 * 1024 <? blen raw)%N then Err RequestTooLarge else read_request_from fuel raw src
      end
  end.

Definition read_request (src : list Fill) : result RequestError (option Request) :=
  read_request_from (S (source_size src)) "" src.

(** ** Handlers *)

(** The parts a handler shares; [px_extra] is the parsed
    [GUARD_PROXY_DENY_HOSTS]. *)
Record Proxy := mkProxy {
  px_policy : PolicyManager;
  px_injection : option InjectionPolicy;
  px_private : PrivateAllow;
  px_server : option ServerTarget;
  px_gate : GatePolicy;
  px_extra : list string;
}.

Record ConnIo := mkConnIo {
  io_lookup : string → option (list SocketAddr);
  io_exempt_list : ListFile;
  io_resolve_list : ListFile;
  io_client_write : bool;
  io_connect : bool;
  io_upstream_write : bool;
}.

Inductive Event :=
| ERecord (target : string) (allowed : bool) (rule : string)
| EReply (status : N)
| EDial (addrs : list SocketAddr)
| EInject (host : string) (addrs : list SocketAddr)
| EServer (host : string) (addrs : list SocketAddr) (bytes : string)
| EUpstream (bytes : string)
| ESplice.

Definition intercepts (px : Proxy) (host : string) : bool :=
  match px_injection px with Some i => should_inject i host | None => false end.

Definition host_is_denied (px : Proxy) (host : string) (allow_private : bool) : bool :=
  host_is_denied_with host (px_extra px) allow_private.

(** [TcpStream::connect] and then, when it succeeds, [k]. *)
Definition dial (io : ConnIo) (addrs : list SocketAddr) (failed k : list Event) : list Event :=
  EDial addrs :: if io_connect io then k else failed.

(** A reply to the client, and what follows if it could be written. *)
Definition reply (io : ConnIo) (status : N) (k : list Event) : list Event :=
  EReply status :: if io_client_write io then k else [].

(** The checks forward mode makes before it resolves: a refusal's events. *)
Definition forward_checks (px : Proxy) (io : ConnIo) (host_port host : string) (port : N)
    (intercepted : bool) : PrivateAllow * option (list Event) :=
  match refuse_connection (px_gate px) host intercepted with
  | Some reason => (px_private px, Some (ERecord host_port false reason :: reply io 403 []))
  | None =>
    let '(pa, exempt) := exempts (io_exempt_list io) (px_private px) host port in
    (pa,
     if host_is_denied px host exempt then
       Some (ERecord host_port false "builtin denylist" :: reply io 403 [])
     else if negb (is_allowed (px_policy px) host_port) then
       Some (ERecord host_port false "not in allow-list" :: reply io 403 [])
     else None)
  end.

(** The allow record, the resolution and what follows it. *)
Definition resolve_then (io : ConnIo) (pa : PrivateAllow) (target host : string) (port : N)
    (orig_dst : option IpAddr) (failed : list Event) (k : list SocketAddr → list Event) :
    PrivateAllow * list Event :=
  let '(pa, r) := resolve (io_lookup io) (io_resolve_list io) pa host port orig_dst in
  (pa, ERecord target true "" ::
       match r with
       | Err _ => ERecord target false "resolve/denylist" :: failed
       | Ok addrs => k addrs
       end).

Definition handle_connect (px : Proxy) (io : ConnIo) (target : string) : PrivateAllow * list Event :=
  let host_port := normalize_authority target 443 in
  let '(host, port) := split_host_port host_port 443 in
  match forward_checks px io host_port host port (intercepts px host) with
  | (pa, Some evs) => (pa, evs)
  | (pa, None) =>
    resolve_then io pa host_port host port None (reply io 502 []) (λ addrs,
      if intercepts px host then reply io 200 [EInject host addrs]
      else dial io addrs (reply io 502 []) (reply io 200 [ESplice]))
  end.

Definition handle_http (px : Proxy) (io : ConnIo) (req : Request) : PrivateAllow * list Event :=
  match split_absolute_uri (rq_target req) with
  | None => (px_private px, reply io 400 [])
  | Some (host_port, _) =>
    let '(host, port) := split_host_port host_port 80 in
    match forward_checks px io host_port host port false with
    | (pa, Some evs) => (pa, evs)
    | (pa, None) =>
      resolve_then io pa host_port host port None (reply io 502 []) (λ addrs,
        dial io addrs (reply io 502 [])
          (EUpstream (rq_raw req) :: if io_upstream_write io then [ESplice] else []))
    end
  end.

(** The forward listener's handler on a client stream. *)
Definition forward_connection (px : Proxy) (io : ConnIo) (src : list Fill) :
    PrivateAllow * list Event :=
  match read_request src with
  | Ok (Some req) =>
    if eq_ignore_ascii_case (rq_method req) "CONNECT" then handle_connect px io (rq_target req)
    else handle_http px io req
  | _ => (px_private px, [])
  end.

(** The first read of a redirected connection: bytes, a timeout or an error. *)
Inductive FirstRead := FirstBytes (s : string) | FirstTimeout | FirstError.

(** [peek_name]: the bytes, the SNI and the [Host]; the outer [None] is a panic,
    the inner one an I/O error. *)
Definition peek_name (first : FirstRead) : option (option (string * option string * option string)) :=
  match first with
  | FirstError => Some None
  | FirstBytes _ | FirstTimeout =>
    let buf := match first with FirstBytes s => btake 4096 s | _ => "" end in
    sni ← extract_sni buf;
    http_host ← match sni with None => extract_http_host buf | Some _ => Some None end;
    Some (Some (buf, sni, http_host))
  end.

(** [injector.should_inject(sni)] on a recovered SNI. *)
Definition intercepts_sni (px : Proxy) (sni : option string) : bool :=
  match sni with Some s => intercepts px s | None => false end.

Definition server_matches (px : Proxy) (name : option string) (host : string) (port : N) :
    option ServerTarget :=
  t ← px_server px;
  if bool_decide (is_Some name) && ServerTarget_matches t host port then Some t else None.

(** Replay the peeked bytes, then splice. *)
Definition replay_then_splice (io : ConnIo) (buf : string) : list Event :=
  if is_empty buf then [ESplice]
  else EUpstream buf :: if io_upstream_write io then [ESplice] else [].

(** [ServerInjector]: its own resolution of the configured host, and what its
    handler may dial once it has one. *)
Definition is_ipv4 (a : SocketAddr) : bool :=
  match sa_ip a with V4 _ _ _ _ => true | V6 _ _ _ _ _ _ _ _ => false end.

Definition server_resolve (io : ConnIo) (t : ServerTarget) : option (list SocketAddr) :=
  answer ← io_lookup io (join_host_port (st_host t) (st_port t));
  match List.filter is_ipv4 answer with [] => None | addrs => Some addrs end.

Definition server_handle (io : ConnIo) (t : ServerTarget) (prefix : string) : list Event :=
  match server_resolve io t with
  | Some addrs => [EServer (st_host t) addrs prefix]
  | None => []
  end.

(** The transparent listener's handler; [dst] is the original destination.  A
    panic in the reader ends the connection before any effect. *)
Definition transparent_connection (px : Proxy) (io : ConnIo) (dst : N * N * N * N) (port : N)
    (first : FirstRead) : PrivateAllow * list Event :=
  let '(a, b, c, d) := dst in
  let dst_ip := V4 a b c d in
  match peek_name first with
  | None | Some None => (px_private px, [])
  | Some (Some (buf, sni, http_host)) =>
    let name := or_else sni http_host in
    let host := default (ipv4_to_string a b c d) name in
    let policy_target := host ++s ":" ++s u32_to_string port in
    match server_matches px name host port with
    | Some t => (px_private px, ERecord policy_target true "cctui server" :: server_handle io t buf)
    | None =>
      let '(pa, exempt) := exempts (io_exempt_list io) (px_private px) host port in
      if ip_is_denied dst_ip exempt ||
         match name with Some n => host_is_denied px n exempt | None => false end
      then (pa, [ERecord policy_target false "builtin denylist"])
      else
        match refuse_connection (px_gate px) host (intercepts_sni px sni) with
        | Some reason => (pa, [ERecord policy_target false reason])
        | None =>
          if negb (is_allowed (px_policy px) policy_target) then
            (pa, [ERecord policy_target false "not in allow-list"])
          else
            resolve_then io pa policy_target host port (Some dst_ip) [] (λ addrs,
              if intercepts_sni px sni then [EInject (default "" sni) addrs]
              else dial io addrs [] (replay_then_splice io buf))
        end
    end
  end.

(** ** Facts: authorities *)

(** The host the policy is asked about is the host that is dialed. *)
Lemma policy_host_dialed host_port default_port :
  starts_with "[" host_port = false →
  get_host host_port = (split_host_port host_port default_port).1.
Proof.
  intros Hb. unfold get_host, split_host_port. rewrite Hb.
  assert (strip_prefix "[" host_port = None) as ->.
  { destruct (strip_prefix "[" host_port) as [r|] eqn:E; [|done].
    apply strip_prefix_spec in E as ->. by cbn in Hb. }
  by destruct (rsplit_once (Ascii.eqb ":") host_port) as [[h p]|].
Qed.



Lemma policy_host_transparent host port :
  starts_with "[" (host ++s ":" ++s u32_to_string port) = false →
  get_host (host ++s ":" ++s u32_to_string port) = host.
Proof.
  intros Hb. unfold get_host. rewrite Hb. change (":" ++s ?s) with (String ":" s).
  rewrite rsplit_once_app; [done..|]. eapply all_chars_impl, to_string_digits.
  intros c Hc. destruct (Ascii.eqb_spec ":" c) as [<-|]; [by vm_compute in Hc|done].
Qed.

(** ** Facts: what is dialed *)

(** A connection as a listener accepts it. *)
Inductive Arrival :=
| Forward (src : list Fill)
| Transparent (dst : N * N * N * N) (port : N) (first : FirstRead).

Definition serve (px : Proxy) (io : ConnIo) (a : Arrival) : PrivateAllow * list Event :=
  match a with
  | Forward src => forward_connection px io src
  | Transparent dst port first => transparent_connection px io dst port first
  end.

(** The destination the kernel redirected, in transparent mode. *)
Definition redirected (a : Arrival) : option IpAddr :=
  match a with
  | Forward _ => None
  | Transparent (a, b, c, d) _ _ => Some (V4 a b c d)
  end.

(** What the proxy established about a destination before it connects;
    [intercepted] is the host the injector is told, when it gets the
    connection. *)
Record vetted (px : Proxy) (io : ConnIo) (orig_dst : option IpAddr) (intercepted : option string)
    (target host : string) (port : N) (addrs : list SocketAddr) : Prop := {
  v_gate : refuse_connection (px_gate px) host (bool_decide (is_Some intercepted)) = None;
  v_inject : ∀ h, intercepted = Some h → h = host ∧ intercepts px host = true;
  v_policy : is_allowed (px_policy px) target = true;
  v_named : starts_with "[" target = false → get_host target = host;
  v_denied : bare_host host ∉ DENIED_HOSTNAMES ++ px_extra px ∨
             ∃ a b c d, orig_dst = Some (V4 a b c d) ∧ host = ipv4_to_string a b c d;
  v_answer : ∃ answer, io_lookup io (join_host_port host port) = Some answer ∧ answer ≠ [] ∧
               addrs = dial_order answer orig_dst;
  v_link_local : ∀ a, a ∈ addrs → ip_is_denied (sa_ip a) true = false;
  v_private : touches_private addrs orig_dst →
    private_ok (io_resolve_list io) (exempts (io_exempt_list io) (px_private px) host port).1
      host port addrs orig_dst;
}.

(** The connection to the cctui server: only a redirected connection that names
    the configured server and its port gets one, and whatever address it was
    sent to, the addresses are the IPv4 ones of the proxy's own lookup of the
    configured host. *)
Record reaches_server (px : Proxy) (io : ConnIo) (a : Arrival) (host : string)
    (addrs : list SocketAddr) : Prop := {
  rs_named : ∃ t dst first buf sni http_host named,
    px_server px = Some t ∧ host = st_host t ∧ a = Transparent dst (st_port t) first ∧
    peek_name first = Some (Some (buf, sni, http_host)) ∧
    or_else sni http_host = Some named ∧ eq_ignore_ascii_case named host = true ∧
    ∃ answer, io_lookup io (join_host_port host (st_port t)) = Some answer ∧
      addrs = List.filter is_ipv4 answer;
  rs_some : addrs ≠ [];
}.

(** The connection an event opens: to a host a client asked for, through the
    injector when it gets the connection, or to the cctui server. *)
Inductive Opening :=
| ToHost (intercepted : option string) (addrs : list SocketAddr)
| ToServer (host : string) (addrs : list SocketAddr).

Definition opens (e : Event) : option Opening :=
  match e with
  | EDial addrs => Some (ToHost None addrs)
  | EInject host addrs => Some (ToHost (Some host) addrs)
  | EServer host addrs _ => Some (ToServer host addrs)
  | ERecord _ _ _ | EReply _ | EUpstream _ | ESplice => None
  end.

Definition warranted (px : Proxy) (io : ConnIo) (a : Arrival) (o : Opening) : Prop :=
  match o with
  | ToHost i addrs => ∃ target host port, vetted px io (redirected a) i target host port addrs
  | ToServer host addrs => reaches_server px io a host addrs
  end.

Definition inert (evs : list Event) : Prop := ∀ e, e ∈ evs → opens e = None.

Lemma inert_nil : inert [].
Proof. by intros e He%elem_of_nil. Qed.

Lemma inert_cons e evs : opens e = None → inert evs → inert (e :: evs).
Proof. intros He H e' [->|?]%elem_of_cons; auto. Qed.

Lemma inert_reply io status k : inert k → inert (reply io status k).
Proof. intros H. apply inert_cons; [done|]. destruct (io_client_write io); auto using inert_nil. Qed.

Lemma inert_if (b : bool) evs evs' : inert evs → inert evs' → inert (if b then evs else evs').
Proof. by destruct b. Qed.

Create HintDb inert.
#[local] Hint Resolve inert_nil inert_cons inert_reply inert_if : inert.

Lemma dial_opens io addrs failed k e :
  inert failed → inert k → e ∈ dial io addrs failed k →
  opens e = None ∨ opens e = Some (ToHost None addrs).
Proof.
  unfold dial. intros Hf Hk [->|H]%elem_of_cons; [by right|]. left. destruct (io_connect io); auto.
Qed.

Lemma host_not_denied px host ap :
  host_is_denied px host ap = false → bare_host host ∉ DENIED_HOSTNAMES ++ px_extra px.
Proof.
  unfold host_is_denied, host_is_denied_with. intros Hd Hin.
  apply orb_false_iff in Hd as [[_ H1]%orb_false_iff H2].
  assert (∀ l, existsb (String.eqb (bare_host host)) l = false → bare_host host ∉ l) as H.
  { intros l Hl Hx. apply not_true_iff_false in Hl. apply Hl, existsb_spec.
    exists (bare_host host). by rewrite String.eqb_refl. }
  apply elem_of_app in Hin as [Hin|Hin]; [by apply (H _ H1)|by apply (H _ H2)].
Qed.

(** The second half the handlers share: only the resolved addresses are opened,
    and what resolution established about them holds. *)
Lemma resolve_then_opens io pa target host port orig_dst intercepted failed k e o :
  inert failed →
  (∀ addrs e, e ∈ k addrs → opens e = None ∨ opens e = Some (ToHost intercepted addrs)) →
  e ∈ (resolve_then io pa target host port orig_dst failed k).2 → opens e = Some o →
  ∃ addrs, o = ToHost intercepted addrs ∧
    (resolve (io_lookup io) (io_resolve_list io) pa host port orig_dst).2 = Ok addrs.
Proof.
  intros Hfailed Hk Hin He. unfold resolve_then in Hin.
  destruct (resolve _ _ _ _ _ _) as [pa' [got|err]]; cbn [snd] in *;
    (apply elem_of_cons in Hin as [->|Hin]; [done|]).
  - apply Hk in Hin as [Hin|Hin]; rewrite He in Hin; [done|].
    injection Hin as ->. by exists got.
  - apply elem_of_cons in Hin as [->|Hin]; [done|]. apply Hfailed in Hin. congruence.
Qed.

(** A refusal of forward mode opens nothing; otherwise its checks passed. *)
Lemma forward_checks_spec px io host_port host port intercepted :
  match (forward_checks px io host_port host port intercepted).2 with
  | Some evs => inert evs
  | None => refuse_connection (px_gate px) host intercepted = None ∧
            (bare_host host ∉ DENIED_HOSTNAMES ++ px_extra px) ∧
            is_allowed (px_policy px) host_port = true ∧
            (forward_checks px io host_port host port intercepted).1 =
              (exempts (io_exempt_list io) (px_private px) host port).1
  end.
Proof.
  unfold forward_checks. destruct (refuse_connection _ _ _) as [reason|] eqn:Hg; cbn [snd].
  { auto with inert. }
  destruct (exempts _ _ _ _) as [pa exempt]. cbn [fst snd].
  destruct (host_is_denied px host exempt) eqn:Hd; [auto with inert|].
  destruct (is_allowed (px_policy px) host_port) eqn:Hp; cbn [negb]; [|auto with inert].
  split_and!; [done|by apply host_not_denied in Hd|done..].
Qed.

Lemma resolved_vetted px io orig_dst intercepted target host port addrs :
  refuse_connection (px_gate px) host (bool_decide (is_Some intercepted)) = None →
  (∀ h, intercepted = Some h → h = host ∧ intercepts px host = true) →
  is_allowed (px_policy px) target = true →
  (starts_with "[" target = false → get_host target = host) →
  (bare_host host ∉ DENIED_HOSTNAMES ++ px_extra px ∨
   ∃ a b c d, orig_dst = Some (V4 a b c d) ∧ host = ipv4_to_string a b c d) →
  (resolve (io_lookup io) (io_resolve_list io)
    (exempts (io_exempt_list io) (px_private px) host port).1 host port orig_dst).2 = Ok addrs →
  vetted px io orig_dst intercepted target host port addrs.
Proof.
  intros Hg Hi Hp Hn Hd (answer & Ha & Hne & Hord & Hlink & Hpriv)%dial_resolve_spec.
  split; try done. by exists answer.
Qed.

(** The shape the two forward handlers share. *)
Lemma forward_shape_vetted px io target host port default_port intercepted failed k e o :
  split_host_port target default_port = (host, port) →
  inert failed →
  (∀ h, intercepted = Some h → h = host ∧ intercepts px host = true) →
  (∀ addrs e, e ∈ k addrs → opens e = None ∨ opens e = Some (ToHost intercepted addrs)) →
  e ∈ (match forward_checks px io target host port (bool_decide (is_Some intercepted)) with
       | (pa, Some evs) => (pa, evs)
       | (pa, None) => resolve_then io pa target host port None failed k
       end).2 → opens e = Some o →
  ∃ addrs, o = ToHost intercepted addrs ∧ vetted px io None intercepted target host port addrs.
Proof.
  intros Es Hf Hi Hk Hin He.
  pose proof (forward_checks_spec px io target host port (bool_decide (is_Some intercepted))) as Hc.
  destruct (forward_checks _ _ _ _ _ _) as [pa [evs|]]; cbn [fst snd] in *.
  { apply Hc in Hin. congruence. }
  destruct Hc as (Hg & Hd & Hp & ->).
  destruct (resolve_then_opens _ _ _ _ _ _ _ _ _ _ _ Hf Hk Hin He) as (addrs & -> & Hr).
  exists addrs. split; [done|]. apply resolved_vetted; try done; [|by left].
  intros Hb. by rewrite (policy_host_dialed _ default_port Hb), Es.
Qed.

Lemma handle_connect_vetted px io src target e o :
  e ∈ (handle_connect px io target).2 → opens e = Some o → warranted px io (Forward src) o.
Proof.
  unfold handle_connect. destruct (split_host_port _ 443) as [host port] eqn:Es. intros Hin He.
  destruct (intercepts px host) eqn:Hi.
  - eapply (forward_shape_vetted _ _ _ _ _ _ (Some host)) in Hin as (addrs & -> & Hv);
      [by eexists _, _, _|done| | | |done].
    + auto with inert.
    + by intros h [= ->].
    + intros addrs' e' [->|H]%elem_of_cons; [by left|]. destruct (io_client_write io).
      * apply list_elem_of_singleton in H as ->. by right.
      * by apply elem_of_nil in H.
  - eapply (forward_shape_vetted _ _ _ _ _ _ None) in Hin as (addrs & -> & Hv);
      [by eexists _, _, _|done| |done| |done].
    + auto with inert.
    + intros addrs' e' H. apply dial_opens in H; auto with inert.
Qed.

Lemma handle_http_vetted px io src req e o :
  e ∈ (handle_http px io req).2 → opens e = Some o → warranted px io (Forward src) o.
Proof.
  unfold handle_http. destruct (split_absolute_uri _) as [[host_port path]|]; cbn [snd].
  2: { intros Hin He. apply (inert_reply io 400 []) in Hin; [congruence|auto with inert]. }
  destruct (split_host_port _ 80) as [host port] eqn:Es. intros Hin He.
  eapply (forward_shape_vetted _ _ _ _ _ _ None) in Hin as (addrs & -> & Hv);
    [by eexists _, _, _|done| |done| |done].
  - auto with inert.
  - intros addrs' e' H. apply dial_opens in H; auto with inert.
Qed.

Lemma replay_inert io buf : inert (replay_then_splice io buf).
Proof. unfold replay_then_splice. auto 6 with inert. Qed.

(** A transparent connection: its checks pass before it resolves. *)
Lemma server_handle_reaches px io dst port first buf sni http_host host e o t :
  peek_name first = Some (Some (buf, sni, http_host)) →
  server_matches px (or_else sni http_host) (default host (or_else sni http_host)) port = Some t →
  e ∈ server_handle io t buf → opens e = Some o → warranted px io (Transparent dst port first) o.
Proof.
  intros Hp Hm Hin He. unfold server_matches in Hm. destruct (px_server px) as [t'|] eqn:Ht; [|done].
  cbn [mbind option_bind] in Hm. destruct (or_else sni http_host) as [named|] eqn:Hn; [|done].
  cbn [default bool_decide decide_rel] in Hm.
  destruct (bool_decide _ && _) eqn:Hb; [|done]. injection Hm as ->.
  apply andb_true_iff in Hb as [_ Hb]. unfold ServerTarget_matches in Hb.
  apply andb_true_iff in Hb as [->%N.eqb_eq Hb]. cbn [from_option] in Hb.
  unfold server_handle, server_resolve in Hin.
  destruct (io_lookup io _) as [answer|] eqn:Ha; cbn [mbind option_bind] in Hin; [|by apply elem_of_nil in Hin].
  destruct (List.filter is_ipv4 answer) as [|x addrs] eqn:Hf; [by apply elem_of_nil in Hin|].
  apply list_elem_of_singleton in Hin as ->. injection He as <-. split; [|done].
  exists t, dst, first, buf, sni, http_host, named. split_and!; try done. by exists answer.
Qed.

Lemma transparent_vetted px io dst port first e o :
  e ∈ (transparent_connection px io dst port first).2 → opens e = Some o →
  warranted px io (Transparent dst port first) o.
Proof.
  destruct dst as [[[a b] c] d]. unfold transparent_connection. intros Hin He.
  destruct (peek_name first) as [[[[buf sni] http_host]|]|] eqn:Hpeek;
    [|by apply elem_of_nil in Hin|by apply elem_of_nil in Hin].
  set (name := or_else sni http_host) in *. set (host := default (ipv4_to_string a b c d) name) in *.
  set (target := host ++s ":" ++s u32_to_string port) in *. cbv zeta in Hin.
  assert (∀ evs, inert evs → e ∉ evs) as Hinert by (intros evs H H'%H; congruence).
  destruct (server_matches px name host port) as [t|] eqn:Hm.
  { apply elem_of_cons in Hin as [->|Hin]; [done|]. by eapply server_handle_reaches. }
  destruct (exempts (io_exempt_list io) (px_private px) host port) as [pa exempt] eqn:Ee.
  destruct (ip_is_denied (V4 a b c d) exempt); cbn [orb] in Hin.
  { exfalso. revert Hin. cbn [snd]. apply Hinert. auto with inert. }
  destruct (match name with Some n => _ | None => _ end) eqn:Hd.
  { exfalso. revert Hin. cbn [snd]. apply Hinert. auto with inert. }
  destruct (refuse_connection _ _ _) eqn:Hg.
  { exfalso. revert Hin. cbn [snd]. apply Hinert. auto with inert. }
  destruct (is_allowed (px_policy px) target) eqn:Hp; cbn [negb] in Hin.
  2: { exfalso. revert Hin. cbn [snd]. apply Hinert. auto with inert. }
  set (inter := if intercepts_sni px sni then sni else None).
  assert (bool_decide (is_Some inter) = intercepts_sni px sni) as Hi.
  { unfold inter. destruct (intercepts_sni px sni) eqn:Hs; [|done]. by destruct sni. }
  eapply (resolve_then_opens _ _ _ _ _ _ inter) in Hin as (addrs & -> & Hr); [| |  |done].
  - exists target, host, port. apply resolved_vetted; try done.
    + by rewrite Hi.
    + unfold inter. intros h Hh. destruct (intercepts_sni px sni) eqn:Hs; [|done]. by subst sni.
    + apply policy_host_transparent.
    + unfold host. destruct name; cbn; [left; by eapply host_not_denied|right; by eexists _, _, _, _].
    + by rewrite Ee.
  - apply inert_nil.
  - intros addrs' e'. unfold inter. destruct (intercepts_sni px sni) eqn:Hs.
    + intros ->%list_elem_of_singleton. right. by destruct sni.
    + intros H. apply dial_opens in H; auto using inert_nil, replay_inert.
Qed.


(** ** Facts: reading a request *)

Lemma read_request_from_ok fuel raw src :
  (source_size src < fuel)%nat → (blen raw ≤ 64 * 1024)%N → blank_line_end raw = None →
  match read_request_from fuel raw src with
  | Ok (Some req) =>
      (∃ rest, raw ++s source_text src = rq_raw req ++s rest) ∧
      (blen (rq_raw req) ≤ 64 * 1024 + 4096)%N ∧ is_Some (blank_line_end (rq_raw req)) ∧
      parse_request (rq_raw req) = Ok req
  | Ok None => True
  | Err e => e ≠ NoFuel
  end.
Proof.
  revert raw src. induction fuel as [|fuel IH]; intros raw src Hf Hlen Hb; [lia|].
  cbn [read_request_from]. destruct (read 4096 src) as [[chunk src1]|e] eqn:E; cbn [map_err mbind result_bind]; [|done].
  destruct (is_empty chunk) eqn:Ee; [done|].
  pose proof (read_conserves _ _ _ _ E) as ->. pose proof (read_cap _ _ _ _ E) as Hcap.
  apply read_size in E; [|done].
  destruct (blank_line_end (raw ++s chunk)) as [n|] eqn:Hn.
  - unfold parse_request at 1.
    destruct (split_whitespace _) as [|method [|target ws]] eqn:Es; cbn; [done..|].
    split_and!; [exists (source_text src1); by rewrite <-app_assoc_s|rewrite blen_app; lia|by rewrite Hn|].
    unfold parse_request. by rewrite Es.
  - destruct (64 * 1024 <? blen (raw ++s chunk))%N eqn:Hbig; [done|]. apply N.ltb_ge in Hbig.
    rewrite <-app_assoc_s. apply IH; [lia|done..].
Qed.

(** Reading a proxy request always ends, within 68 KiB, and invents
    nothing: what it returns is a prefix of what the client sent, holds a blank
    line, and its method and target are the first two words of its first line. *)
Theorem read_request_bounded src :
  match read_request src with
  | Ok (Some req) =>
      (∃ rest, source_text src = rq_raw req ++s rest) ∧
      (blen (rq_raw req) ≤ 64 * 1024 + 4096)%N ∧ is_Some (blank_line_end (rq_raw req)) ∧
      parse_request (rq_raw req) = Ok req
  | Ok None => True
  | Err e => e ≠ NoFuel
  end.
Proof.
  unfold read_request. pose proof (read_request_from_ok (S (source_size src)) "" src) as H.
  apply H; [lia|by vm_compute|by vm_compute].
Qed.

(** ** Witnesses *)

Definition demo_proxy (gate : Gate) : Proxy := {|
  px_policy := mkManager (Some (mkPolicy ["example.com:443"; "gitlab.lan:*"] "deny")) None;
  px_injection := None;
  px_private := lan_allow;
  px_server := None;
  px_gate := GatePolicy_new gate [];
  px_extra := [];
|}.

Definition demo_io : ConnIo := {|
  io_lookup := lan_lookup;
  io_exempt_list := mkListFile None None;
  io_resolve_list := mkListFile None None;
  io_client_write := true;
  io_connect := true;
  io_upstream_write := true;
|}.

Definition connect_lan : list Fill :=
  [FBytes "CONNECT gitlab.lan:443 HT"; FBytes ("TP/1.1" ++s crlf ++s crlf)].

Definition lan_addrs : list SocketAddr :=
  [mkSocketAddr (V4 10 0 0 7) 443; mkSocketAddr (V6 9734 18176 0 0 0 0 0 1) 443].

Example connect_lan_events :
  (serve (demo_proxy GOpen) demo_io (Forward connect_lan)).2 =
  [ERecord "gitlab.lan:443" true ""; EDial lan_addrs; EReply 200; ESplice].
Proof. vm_compute. reflexivity. Qed.

Example connect_unparseable_gate :
  (serve (demo_proxy GUnparseable) demo_io (Forward connect_lan)).2 =
  [ERecord "gitlab.lan:443" false "human gate unparseable: every outbound connection is refused";
   EReply 403].
Proof. vm_compute. reflexivity. Qed.

Example transparent_unnamed :
  (serve (demo_proxy GOpen) demo_io (Transparent (93, 184, 216, 34)%N 443 FirstTimeout)).2 =
  [ERecord "93.184.216.34:443" false "not in allow-list"].
Proof. vm_compute. reflexivity. Qed.

Definition server_proxy : Proxy := {|
  px_policy := px_policy (demo_proxy GOpen);
  px_injection := None;
  px_private := lan_allow;
  px_server := Some (mkServerTarget "http://gitlab.lan:80" false "gitlab.lan" 80);
  px_gate := GatePolicy_new GUnparseable [];
  px_extra := ["gitlab.lan"];
|}.

Definition host_header : FirstRead :=
  FirstBytes ("GET / HTTP/1.1" ++s crlf ++s "Host: gitlab.lan" ++s crlf ++s crlf).

Definition server_io : ConnIo := {|
  io_lookup := λ _, Some lan_addrs;
  io_exempt_list := mkListFile None None;
  io_resolve_list := mkListFile None None;
  io_client_write := true;
  io_connect := true;
  io_upstream_write := true;
|}.

(** The server is reached under a gate that refuses everything and a denylist
    that holds it, at the address the proxy looked up. *)
Example transparent_server :
  ∃ buf, (serve server_proxy server_io (Transparent (93, 184, 216, 34)%N 80 host_header)).2 =
    [ERecord "gitlab.lan:80" true "cctui server";
     EServer "gitlab.lan" [mkSocketAddr (V4 10 0 0 7) 443] buf].
Proof. eexists. vm_compute. reflexivity. Qed.

