(* ===== verification/Chunk.v ===== *)
(** * Chunked transfers ([cctui-proto/src/chunk.rs])

    A serialized frame too large for one message is split into numbered chunks
    and put together again by the receiver, which keeps a bounded buffer of
    partial transfers.  Base64, the content hash and the iteration order of the
    [HashMap] are parameters; an [Instant] is a number.  Lengths are [usize]
    values with Rust's saturating operations; the one plain [sum] wraps. *)

From stdpp Require Import base decidable list gmap fin_maps strings.
From Stdlib Require Import Lia ZArith NArith Bool Ascii String.
From S2P Require Import Prelude RustStr Http.

Open Scope N_scope.

(** ** Parameters *)

Class Base64 := { b64_encode : string → string; b64_decode : string → option string }.

(** Decoding inverts encoding. *)
Class Base64Laws (b : Base64) : Prop := b64_decode_encode s : b64_decode (b64_encode s) = Some s.

(** ** Frames *)

Definition CHUNK_THRESHOLD : N := 256 * 1024.
Definition CHUNK_SIZE : N := 256 * 1024.
Definition MAX_CHUNKS : N := 64 * 1024.
Definition MAX_CONCURRENT_TRANSFERS : nat := 8.

Definition usize_add (a b : N) : N := N.min (a + b) usize_max.
Definition usize_mul (a b : N) : N := N.min (a * b) usize_max.
Definition usize_sub (a b : N) : N := a - b.

(** [usize::div_ceil] and [u32::try_from(n).unwrap_or(u32::MAX)]. *)
Definition div_ceil (a b : N) : N := (a + b - 1) / b.
Definition u32_or_max (n : N) : N := N.min n u32_max.

Definition chunk_count (len : N) : N := u32_or_max (div_ceil len CHUNK_SIZE).

(** [DaemonFrameUp::Chunk]. *)
Record Chunk := mkChunk {
  ck_transfer_id : string;
  ck_index : N;
  ck_total : N;
  ck_data : string;
  ck_codec : option string;
}.

(** [&payload[start..end]] of [chunk_frame]. *)
Definition chunk_bytes (payload : string) (index : N) : string :=
  let start := N.min (usize_mul index CHUNK_SIZE) (blen payload) in
  let stop := N.min (usize_add start CHUNK_SIZE) (blen payload) in
  btake (stop - start) (bdrop start payload).

Definition chunk_frame `{Base64} (id payload : string) (index total : N) (codec : option string) : Chunk :=
  mkChunk id index total (b64_encode (chunk_bytes payload index)) codec.

(** [0..n]. *)
Definition range (n : N) : list N := N.of_nat <$> seq 0 (N.to_nat n).

Definition split_payload `{Base64} (transfer_id : string → string) (payload : string) :
    option (list Chunk) :=
  if blen payload <=? CHUNK_THRESHOLD then None
  else
    let id := transfer_id payload in
    let total := chunk_count (blen payload) in
    Some ((λ i, chunk_frame id payload i total None) <$> range total).

(** ** Reassembly *)

Inductive Accept := Pending (ack : option N) | Complete (payload : string) | Restart.

Record Partial := mkPartial {
  p_total : N;
  p_chunks : list (option string);
  p_bytes : N;
  p_created : N;
}.

Fixpoint contiguous_from (i : N) (last : option N) (l : list (option string)) : option N :=
  match l with
  | Some _ :: l => contiguous_from (i + 1) (Some (u32_or_max i)) l
  | _ => last
  end.

Definition highest_contiguous (p : Partial) : option N := contiguous_from 0 None (p_chunks p).

Definition is_complete (p : Partial) : bool := forallb (λ c, bool_decide (is_Some c)) (p_chunks p).

Definition assemble (p : Partial) : string :=
  fold_right (λ c out, default "" c ++s out) "" (p_chunks p).

Record Reassembler := mkReassembler { ra_max_bytes : N; ra_transfers : gmap string Partial }.

Definition Reassembler_new (max_bytes : N) : Reassembler := mkReassembler max_bytes ∅.

Definition max_chunks (r : Reassembler) : N :=
  N.max 1 (N.min (u32_or_max (div_ceil (ra_max_bytes r) CHUNK_SIZE)) MAX_CHUNKS).

Definition with_transfers (r : Reassembler) (m : gmap string Partial) : Reassembler :=
  mkReassembler (ra_max_bytes r) m.

(** [Iterator::min_by_key]: the first of the least elements. *)
Fixpoint min_by_created (l : list (string * Partial)) : option (string * Partial) :=
  match l with
  | [] => None
  | x :: l =>
    match min_by_created l with
    | Some y => if p_created x.2 <=? p_created y.2 then Some x else Some y
    | None => Some x
    end
  end.

(** The order in which the map iterates. *)
Class MapOrder := map_order : gmap string Partial → list (string * Partial).

Definition evict_oldest `{MapOrder} (m : gmap string Partial) : gmap string Partial :=
  match min_by_created (map_order m) with Some (k, _) => delete k m | None => m end.

Definition evict_older_than (now max_age : N) (r : Reassembler) : Reassembler :=
  with_transfers r (filter (λ kp, now - p_created kp.2 < max_age) (ra_transfers r)).

(** [values().map(|p| p.bytes).sum()]. *)
Definition buffered (m : gmap string Partial) : N :=
  map_fold (λ _ p acc, (p_bytes p + acc) mod 2 ^ 64) 0 m.

(** Store a chunk in its slot, keeping the byte count. *)
Definition store_chunk (p : Partial) (slot : nat) (bytes : string) : Partial :=
  mkPartial (p_total p) (<[slot := Some bytes]> (p_chunks p))
    (match p_chunks p !! slot with
     | Some (Some prev) => usize_add (usize_sub (p_bytes p) (blen prev)) (blen bytes)
     | _ => usize_add (p_bytes p) (blen bytes)
     end) (p_created p).

Definition accept `{Base64, MapOrder} (now : N) (r : Reassembler) (id : string) (index total : N)
    (data : string) : Reassembler * Accept :=
  match b64_decode data with
  | None => (r, Restart)
  | Some bytes =>
    if (total =? 0) || (total <=? index) || (max_chunks r <? total) then (r, Restart)
    else if match ra_transfers r !! id with Some p => negb (p_total p =? total) | None => false end
    then (with_transfers r (delete id (ra_transfers r)), Restart)
    else
      let m := if bool_decide (ra_transfers r !! id = None) &&
                  (MAX_CONCURRENT_TRANSFERS <=? size (ra_transfers r))%nat
               then evict_oldest (ra_transfers r) else ra_transfers r in
      let entry := default (mkPartial total (replicate (N.to_nat total) None) 0 now) (m !! id) in
      let entry := store_chunk entry (N.to_nat index) bytes in
      let m := <[id := entry]> m in
      if ra_max_bytes r <? p_bytes entry then (with_transfers r (delete id m), Restart)
      else if usize_mul (ra_max_bytes r) 2 <? buffered m then
        (with_transfers r (delete id m), Restart)
      else if is_complete entry then (with_transfers r (delete id m), Complete (assemble entry))
      else (with_transfers r m, Pending (highest_contiguous entry))
  end.

(** Feed one frame. *)
Definition accept_frame `{Base64, MapOrder} (now : N) (r : Reassembler) (f : Chunk) :
    Reassembler * Accept :=
  accept now r (ck_transfer_id f) (ck_index f) (ck_total f) (ck_data f).

(** ** Facts: byte accounting *)

(** The bytes a list of slots really holds. *)
Definition held_bytes (l : list (option string)) : N :=
  fold_right (λ c n, blen (default "" c) + n) 0 l.

Lemma held_bytes_app l1 l2 : held_bytes (l1 ++ l2) = held_bytes l1 + held_bytes l2.
Proof.
  induction l1 as [|c l1 IH]; [done|]. cbn [held_bytes fold_right app] in *.
  fold (held_bytes (l1 ++ l2)). fold (held_bytes l1). rewrite IH. lia.
Qed.

Lemma held_bytes_replicate n : held_bytes (replicate n None) = 0.
Proof. by induction n. Qed.

(** Replacing a slot exchanges its bytes. *)
Lemma held_bytes_insert l i c d :
  l !! i = Some c → held_bytes (<[i := d]> l) + blen (default "" c) = held_bytes l + blen (default "" d).
Proof.
  intros Hi. rewrite insert_take_drop by (by apply (lookup_lt_Some l i c)).
  rewrite <-(take_drop_middle l i c Hi) at 3. rewrite !held_bytes_app. cbn. lia.
Qed.

(** The combined bytes of a map of transfers. *)
Definition total_bytes (m : gmap string Partial) : N := map_fold (λ _ p acc, p_bytes p + acc) 0 m.

Lemma total_bytes_insert m i p :
  m !! i = None → total_bytes (<[i := p]> m) = p_bytes p + total_bytes m.
Proof. intros Hi. unfold total_bytes. rewrite map_fold_insert_L; [done|intros; lia|done]. Qed.

Lemma total_bytes_delete m i p :
  m !! i = Some p → total_bytes m = p_bytes p + total_bytes (delete i m).
Proof.
  intros Hi. rewrite <-(total_bytes_insert _ i) by apply lookup_delete_eq. by rewrite insert_delete_id.
Qed.

Lemma total_bytes_delete_le m i : total_bytes (delete i m) ≤ total_bytes m.
Proof.
  destruct (m !! i) as [p|] eqn:E; [rewrite (total_bytes_delete m i p E); lia|by rewrite delete_id].
Qed.

Lemma buffered_total m : buffered m = total_bytes m mod 2 ^ 64.
Proof.
  unfold buffered. apply (map_fold_weak_ind (λ acc m, acc = total_bytes m mod 2 ^ 64)); [done|].
  intros i p m' acc Hi ->. rewrite total_bytes_insert by done.
  by rewrite N.Div0.add_mod_idemp_r.
Qed.

Lemma total_bytes_insert_le m i p :
  total_bytes (<[i := p]> m) ≤ p_bytes p + total_bytes m.
Proof.
  rewrite <-insert_delete_eq, total_bytes_insert by apply lookup_delete_eq.
  pose proof (total_bytes_delete_le m i). lia.
Qed.

(** ** Facts: the buffer is bounded *)

Record partial_ok (max slots : N) (p : Partial) : Prop := {
  po_length : List.length (p_chunks p) = N.to_nat (p_total p);
  po_total : 1 ≤ p_total p ≤ slots;
  po_bytes : p_bytes p = held_bytes (p_chunks p);
  po_max : p_bytes p ≤ max;
  po_open : is_complete p = false;
}.

Record buffer_ok (r : Reassembler) : Prop := {
  bo_partials : map_Forall (λ _, partial_ok (ra_max_bytes r) (max_chunks r)) (ra_transfers r);
  bo_count : (size (ra_transfers r) ≤ MAX_CONCURRENT_TRANSFERS)%nat;
  bo_total : total_bytes (ra_transfers r) ≤ 2 * ra_max_bytes r;
}.

Lemma buffer_ok_shrink r m :
  buffer_ok r → m ⊆ ra_transfers r → total_bytes m ≤ total_bytes (ra_transfers r) →
  buffer_ok (with_transfers r m).
Proof.
  intros [Hp Hc Ht] Hsub Hle. split; cbn.
  - intros i p Hi. apply (Hp i). by eapply lookup_weaken.
  - pose proof (map_subseteq_size _ _ Hsub). lia.
  - lia.
Qed.

Lemma buffer_ok_delete r i : buffer_ok r → buffer_ok (with_transfers r (delete i (ra_transfers r))).
Proof. intros. apply buffer_ok_shrink; [done|apply delete_subseteq|apply total_bytes_delete_le]. Qed.

Lemma total_bytes_filter (P : string * Partial → Prop) `{∀ x, Decision (P x)} m :
  total_bytes (filter P m) ≤ total_bytes m.
Proof.
  induction m as [|i p m Hi _ IH] using map_first_key_ind; [by rewrite map_filter_empty|].
  rewrite (total_bytes_insert _ _ _ Hi). destruct (decide (P (i, p))).
  - rewrite map_filter_insert_True by done. rewrite total_bytes_insert; [lia|].
    apply map_lookup_filter_None. by left.
  - rewrite map_filter_insert_False by done. rewrite delete_id by done. lia.
Qed.

Lemma evict_older_ok now age r : buffer_ok r → buffer_ok (evict_older_than now age r).
Proof. intros. apply buffer_ok_shrink; [done|apply map_filter_subseteq|apply total_bytes_filter]. Qed.

(** Storing a chunk keeps the count exact, up to the [usize] limit. *)
Lemma store_chunk_bytes p slot bytes c :
  p_bytes p = held_bytes (p_chunks p) → p_chunks p !! slot = Some c →
  p_bytes (store_chunk p slot bytes) =
    N.min (held_bytes (p_chunks (store_chunk p slot bytes))) usize_max.
Proof.
  intros Hb Hs. pose proof (held_bytes_insert _ _ _ (Some bytes) Hs) as Hi.
  pose proof (held_bytes_insert _ _ _ None Hs) as Hn.
  unfold store_chunk, usize_sub, usize_add. cbn [p_bytes p_chunks]. rewrite Hs.
  destruct c as [prev|]; cbn [default] in *; unfold id in *; change (blen "") with 0 in *; lia.
Qed.

Section bounded.
Context `{Base64} `{MapOrder}.
Hypothesis order_lists : ∀ m, map_order m ≡ₚ map_to_list m.

Lemma min_by_created_in l x : min_by_created l = Some x → x ∈ l ∧ ∀ y, y ∈ l → p_created x.2 ≤ p_created y.2.
Proof.
  revert x. induction l as [|z l IH]; intros x; cbn [min_by_created]; [done|].
  destruct (min_by_created l) as [y|] eqn:E.
  - destruct (IH y eq_refl) as [Hin Hle]. destruct (N.leb_spec (p_created z.2) (p_created y.2)) as [Hz|Hz].
    + intros [= <-]. split; [by left|]. intros w [->|Hw]%elem_of_cons; [lia|]. specialize (Hle w Hw). lia.
    + intros [= <-]. split; [by right|]. intros w [->|Hw]%elem_of_cons; [lia|by apply Hle].
  - intros [= <-]. destruct l as [|y l].
    + split; [by left|]. intros w ->%list_elem_of_singleton. lia.
    + cbn in E. destruct (min_by_created l); [by destruct (_ <=? _)|done].
Qed.

Lemma min_by_created_some l : l ≠ [] → is_Some (min_by_created l).
Proof.
  destruct l as [|x l]; [done|]. intros _. cbn. destruct (min_by_created l); [by destruct (_ <=? _)|done].
Qed.

(** Eviction drops one transfer, none older than it. *)
Lemma evict_oldest_spec m :
  m ≠ ∅ → ∃ k p, m !! k = Some p ∧ evict_oldest m = delete k m ∧
    ∀ k' p', m !! k' = Some p' → p_created p ≤ p_created p'.
Proof.
  intros Hm. destruct (min_by_created_some (map_order m)) as [[k p] E].
  { intros E. apply Hm, map_to_list_empty_iff, Permutation_nil_r. by rewrite <-order_lists, E. }
  destruct (min_by_created_in _ _ E) as [Hin Hle]. exists k, p. split_and!.
  - apply elem_of_map_to_list. by rewrite <-order_lists.
  - unfold evict_oldest. by rewrite E.
  - intros k' p' Hk'. apply (Hle (k', p')). rewrite order_lists. by apply elem_of_map_to_list.
Qed.

(** Making room: the new transfer fits in the count. *)
Lemma make_room_ok r id :
  buffer_ok r →
  let m := if bool_decide (ra_transfers r !! id = None) &&
              (MAX_CONCURRENT_TRANSFERS <=? size (ra_transfers r))%nat
           then evict_oldest (ra_transfers r) else ra_transfers r in
  buffer_ok (with_transfers r m) ∧ m !! id = ra_transfers r !! id ∧
  ∀ p, (size (<[id := p]> m) ≤ MAX_CONCURRENT_TRANSFERS)%nat.
Proof.
  intros Hr m. pose proof (bo_count r Hr) as Hc. unfold m. clear m.
  case_bool_decide as Hid; cbn [andb].
  - destruct (Nat.leb_spec MAX_CONCURRENT_TRANSFERS (size (ra_transfers r))) as [Hfull|Hroom].
    + destruct (evict_oldest_spec (ra_transfers r)) as (k & p & Hk & -> & _).
      { intros E. rewrite E, map_size_empty in Hfull. unfold MAX_CONCURRENT_TRANSFERS in Hfull. lia. }
      split_and!; [by apply buffer_ok_delete| |].
      * apply lookup_delete_ne. congruence.
      * intros q. rewrite map_size_insert_None, map_size_delete, Hk; [unfold MAX_CONCURRENT_TRANSFERS in *; lia|].
        rewrite lookup_delete_ne; [done|congruence].
    + split_and!; [by destruct r|done|]. intros q. rewrite map_size_insert_None by done. lia.
  - split_and!; [by destruct r|done|]. intros q. rewrite map_size_insert.
    destruct (ra_transfers r !! id); cbn; [lia|done].
Qed.

Lemma accept_ok now r id index total data :
  3 * ra_max_bytes r < 2 ^ 64 → buffer_ok r → buffer_ok (accept now r id index total data).1.
Proof.
  intros Hmax Hr. unfold accept. destruct (b64_decode data) as [bytes|]; [|done].
  destruct ((total =? 0) || _ || _) eqn:Hg; [done|].
  apply orb_false_iff in Hg as [[Hz Hi]%orb_false_iff Hs].
  apply N.eqb_neq in Hz. apply N.leb_gt in Hi. apply N.ltb_ge in Hs.
  destruct (match ra_transfers r !! id with Some _ => _ | None => _ end) eqn:Ht.
  { by apply buffer_ok_delete. }
  destruct (make_room_ok r id Hr) as (Hm & Hid & Hsize).
  set (m := if _ : bool then evict_oldest _ else _) in *. clearbody m. cbv zeta.
  set (e0 := default _ (m !! id)).
  assert (List.length (p_chunks e0) = N.to_nat (p_total e0) ∧ p_bytes e0 = held_bytes (p_chunks e0) ∧
          p_total e0 = total) as (Hl & Hb & Hto).
  { unfold e0. rewrite Hid. destruct (ra_transfers r !! id) as [p|] eqn:Ep; cbn.
    - destruct (bo_partials r Hr id p Ep). apply negb_false_iff, N.eqb_eq in Ht. done.
    - by rewrite length_replicate, held_bytes_replicate. }
  assert (is_Some (p_chunks e0 !! N.to_nat index)) as [c Hslot] by (apply lookup_lt_is_Some; lia).
  set (e := store_chunk e0 _ bytes).
  assert (buffer_ok (with_transfers r (delete id (<[id := e]> m)))) as Hdel.
  { rewrite delete_insert_eq. by apply (buffer_ok_delete (with_transfers r m)). }
  destruct (N.ltb_spec (ra_max_bytes r) (p_bytes e)) as [|Hle]; [done|].
  destruct (N.ltb_spec (usize_mul (ra_max_bytes r) 2) (buffered (<[id := e]> m))) as [|Hbuf]; [done|].
  destruct (is_complete e) eqn:Hc; [done|]. cbn [fst].
  assert (p_bytes e = held_bytes (p_chunks e)) as Hb'.
  { pose proof (store_chunk_bytes e0 (N.to_nat index) bytes c Hb Hslot) as Hsb. fold e in Hsb.
    unfold usize_max, u64_max in Hsb. lia. }
  assert (List.length (p_chunks e) = N.to_nat (p_total e)) as Hl' by (cbn; by rewrite length_insert).
  split; cbn [with_transfers ra_transfers ra_max_bytes].
  - apply map_Forall_insert_2; [|by apply (bo_partials _ Hm)]. split; [done| |done..].
    change (p_total e) with (p_total e0). rewrite Hto. split; [lia|exact Hs].
  - apply Hsize.
  - pose proof (total_bytes_insert_le m id e). pose proof (bo_total _ Hm) as Hmt. cbn in Hmt.
    rewrite buffered_total, N.mod_small in Hbuf by lia. unfold usize_mul in Hbuf. lia.
Qed.

(** What can happen to a reassembler. *)
Inductive BufOp :=
| OpChunk (now : N) (id : string) (index total : N) (data : string)
| OpEvict (now max_age : N).

Definition buf_step (r : Reassembler) (op : BufOp) : Reassembler :=
  match op with
  | OpChunk now id index total data => (accept now r id index total data).1
  | OpEvict now max_age => evict_older_than now max_age r
  end.

Lemma buf_step_ok r op :
  3 * ra_max_bytes r < 2 ^ 64 → buffer_ok r →
  buffer_ok (buf_step r op) ∧ ra_max_bytes (buf_step r op) = ra_max_bytes r.
Proof.
  intros Hmax Hr. destruct op as [now id index total data|now age]; cbn [buf_step].
  - split; [by apply accept_ok|]. unfold accept. destruct (b64_decode data); [|done].
    by repeat (cbv zeta; case_match; try done).
  - split; [by apply evict_older_ok|done].
Qed.

(** A reassembler's memory is bounded whatever it is fed: after any sequence
    of chunks (any ids, indexes, totals and data, well formed or not) and
    evictions it buffers at most eight transfers, each with at most the allowed
    slots and bytes, together at most twice the bound; and every byte count is
    the exact number of bytes held. *)
Theorem reassembler_bounded max_bytes ops :
  3 * max_bytes < 2 ^ 64 →
  let r := foldl buf_step (Reassembler_new max_bytes) ops in
  buffer_ok r ∧ ra_max_bytes r = max_bytes.
Proof.
  intros Hmax r. unfold r. clear r.
  assert (∀ r, buffer_ok r → ra_max_bytes r = max_bytes →
            buffer_ok (foldl buf_step r ops) ∧ ra_max_bytes (foldl buf_step r ops) = max_bytes) as Hrun.
  { induction ops as [|op ops IH]; intros r Hr Hb; [done|]. cbn.
    destruct (buf_step_ok r op) as [Hr' Hb']; [by rewrite Hb|done|]. apply IH; [done|congruence]. }
  apply Hrun; [|done]. split; cbn; [apply map_Forall_empty|rewrite map_size_empty; unfold MAX_CONCURRENT_TRANSFERS; lia|].
  change (total_bytes ∅) with 0. lia.
Qed.
End bounded.

(** ** Facts: cutting a payload *)

Lemma stake_clamp n (s : string) : stake n s = stake (Nat.min n (String.length s)) s.
Proof. revert n. induction s as [|c s IH]; intros [|n]; cbn; [done..|]. by rewrite IH. Qed.

Lemma sdrop_clamp n (s : string) : sdrop n s = sdrop (Nat.min n (String.length s)) s.
Proof. revert n. induction s as [|c s IH]; intros [|n]; cbn; [done..|]. by rewrite IH. Qed.

Lemma btake_stake n s : btake n s = stake (N.to_nat n) s.
Proof. unfold btake, clamp. rewrite (stake_clamp (N.to_nat n)). f_equal. lia. Qed.

Lemma bdrop_sdrop n s : bdrop n s = sdrop (N.to_nat n) s.
Proof. unfold bdrop, clamp. rewrite (sdrop_clamp (N.to_nat n)). f_equal. lia. Qed.

Lemma btake_add a b s : btake a s ++s btake b (bdrop a s) = btake (a + b) s.
Proof.
  rewrite !btake_stake, bdrop_sdrop, N2Nat.inj_add. generalize (N.to_nat a), (N.to_nat b).
  clear. intros a b. revert a. induction s as [|c s IH]; intros [|a]; cbn; try done.
  - by destruct b.
  - by rewrite IH.
Qed.

Lemma btake_min n s : btake (N.min n (blen s)) s = btake n s.
Proof. rewrite !btake_stake, (stake_clamp (N.to_nat n)). f_equal. unfold blen. lia. Qed.

Lemma bdrop_min n s : bdrop (N.min n (blen s)) s = bdrop n s.
Proof. rewrite !bdrop_sdrop, (sdrop_clamp (N.to_nat n)). f_equal. unfold blen. lia. Qed.

Lemma blen_bdrop n s : blen (bdrop n s) = blen s - n.
Proof. unfold blen. rewrite bdrop_length. unfold clamp. lia. Qed.

Lemma chunk_size_pos : 0 < CHUNK_SIZE.
Proof. reflexivity. Qed.

(** Away from the [usize] limit a chunk is the plain slice. *)
Lemma chunk_bytes_slice payload i :
  (i + 1) * CHUNK_SIZE ≤ usize_max →
  chunk_bytes payload i = btake CHUNK_SIZE (bdrop (i * CHUNK_SIZE) payload).
Proof.
  intros Hi. unfold chunk_bytes, usize_mul, usize_add.
  rewrite (N.min_l (i * CHUNK_SIZE) usize_max) by lia. rewrite bdrop_min.
  set (start := N.min (i * CHUNK_SIZE) (blen payload)).
  rewrite <-(btake_min CHUNK_SIZE), blen_bdrop.
  f_equal. unfold start. lia.
Qed.

(** The bytes of the first [n] chunks. *)
Fixpoint first_chunks (payload : string) (n : nat) : string :=
  match n with
  | 0%nat => ""
  | S n => first_chunks payload n ++s chunk_bytes payload (N.of_nat n)
  end.

Lemma first_chunks_take payload n :
  N.of_nat n * CHUNK_SIZE ≤ usize_max →
  first_chunks payload n = btake (N.of_nat n * CHUNK_SIZE) payload.
Proof.
  induction n as [|n IH]; intros Hn; [by rewrite N.mul_0_l, btake_stake|].
  cbn [first_chunks]. pose proof chunk_size_pos. rewrite IH, chunk_bytes_slice by lia. rewrite btake_add. f_equal. lia.
Qed.

Lemma chunk_count_covers len :
  len ≤ MAX_CHUNKS * CHUNK_SIZE →
  len ≤ chunk_count len * CHUNK_SIZE ∧ chunk_count len ≤ MAX_CHUNKS ∧
  (chunk_count len - 1) * CHUNK_SIZE ≤ len.
Proof.
  intros Hl. unfold chunk_count, u32_or_max, div_ceil, u32_max, MAX_CHUNKS, CHUNK_SIZE in *.
  change (256 * 1024) with 262144 in *. change (64 * 1024) with 65536 in *.
  pose proof (N.div_mod (len + 262144 - 1) 262144 ltac:(lia)).
  pose proof (N.mod_lt (len + 262144 - 1) 262144 ltac:(lia)).
  set (q := (len + 262144 - 1) / 262144) in *. set (m := (len + 262144 - 1) mod 262144) in *.
  clearbody q m. rewrite (N.min_l q) by lia. lia.
Qed.

(** ** Facts: split and reassemble *)

Section reassembly.
Context `{Base64} `{!Base64Laws _} `{MapOrder}.
Variable transfer_id : string → string.
Variables (payload : string) (max : N).
Hypothesis Hlarge : CHUNK_THRESHOLD < blen payload.
Hypothesis Hfits : blen payload ≤ max.
Hypothesis Hcount : blen payload ≤ MAX_CHUNKS * CHUNK_SIZE.

#[local] Abbreviation total := (chunk_count (blen payload)).

Definition frame (i : N) : Chunk := chunk_frame (transfer_id payload) payload i total None.

(** The slots once the chunks in [got] have arrived. *)
Definition slot_of (got : list N) (j : nat) : option string :=
  if decide (N.of_nat j ∈ got) then Some (chunk_bytes payload (N.of_nat j)) else None.

Definition slots (got : list N) : list (option string) := slot_of got <$> seq 0 (N.to_nat total).

Definition missing (got : list N) : Prop := ∃ i, i < total ∧ i ∉ got.

Lemma total_bounds : 1 ≤ total ∧ total ≤ MAX_CHUNKS ∧ total * CHUNK_SIZE ≤ usize_max.
Proof.
  destruct (chunk_count_covers _ Hcount) as (Hc & Hm & _).
  unfold CHUNK_THRESHOLD, CHUNK_SIZE, MAX_CHUNKS, usize_max, u64_max in *. lia.
Qed.

Lemma slots_nil : slots [] = replicate (N.to_nat total) None.
Proof.
  apply list_eq. intros j. unfold slots, slot_of. rewrite list_lookup_fmap.
  destruct (decide (j < N.to_nat total)%nat).
  - rewrite lookup_seq_lt, lookup_replicate_2 by done. cbn. by rewrite decide_False by (by intros ?%elem_of_nil).
  - rewrite lookup_seq_ge by lia. symmetry. apply lookup_ge_None_2. rewrite length_replicate. lia.
Qed.

Lemma slots_insert got i :
  i < total → <[N.to_nat i := Some (chunk_bytes payload i)]> (slots got) = slots (i :: got).
Proof.
  intros Hi. apply list_eq. intros j. unfold slots, slot_of.
  destruct (decide (j = N.to_nat i)) as [->|Hne].
  - rewrite list_lookup_insert_eq by (rewrite length_fmap, length_seq; lia).
    rewrite list_lookup_fmap, lookup_seq_lt by lia. cbn.
    rewrite N2Nat.id, decide_True by (by left). done.
  - rewrite list_lookup_insert_ne by done. rewrite !list_lookup_fmap.
    destruct (decide (j < N.to_nat total)%nat); [|by rewrite lookup_seq_ge by lia].
    rewrite lookup_seq_lt by done. cbn. f_equal.
    destruct (decide (N.of_nat j ∈ got)) as [Hj|Hj].
    + by rewrite decide_True by (by right).
    + rewrite decide_False; [done|]. intros [Hx|Hx]%elem_of_cons; [lia|done].
Qed.

Lemma slots_lookup got i :
  i < total → slots got !! N.to_nat i =
    Some (if decide (i ∈ got) then Some (chunk_bytes payload i) else None).
Proof.
  intros Hi. unfold slots. rewrite list_lookup_fmap, lookup_seq_lt by lia. cbn. unfold slot_of. by rewrite N2Nat.id.
Qed.

(** The held bytes and the assembled bytes of the first [n] slots. *)
Lemma slots_prefix got n :
  let l := slot_of got <$> seq 0 n in
  held_bytes l ≤ blen (first_chunks payload n) ∧
  ((∀ j, (j < n)%nat → N.of_nat j ∈ got) →
   fold_right (λ c out, default "" c ++s out) "" l = first_chunks payload n).
Proof.
  cbv zeta. induction n as [|n [IH1 IH2]]; [done|].
  rewrite seq_S, fmap_app, held_bytes_app, fold_right_app. cbn [fmap list_fmap first_chunks plus].
  rewrite blen_app. split.
  - unfold slot_of at 2. destruct (decide _); cbn [held_bytes fold_right default]; unfold id;
      change (blen "") with 0; lia.
  - intros Hall. assert (slot_of got n = Some (chunk_bytes payload (N.of_nat n))) as ->.
    { unfold slot_of. by rewrite decide_True by (apply Hall; lia). }
    cbn [fold_right default].
    rewrite <-IH2 by (intros j Hj; apply Hall; lia).
    generalize (slot_of got <$> seq 0 n). intros l. rewrite app_nil_s. clear.
    induction l as [|c l IH]; cbn [fold_right]; [done|]. by rewrite IH, app_assoc_s.
Qed.

Lemma first_chunks_all : first_chunks payload (N.to_nat total) = payload.
Proof.
  destruct total_bounds as (_ & _ & Hu). destruct (chunk_count_covers _ Hcount) as (Hc & _ & _).
  rewrite first_chunks_take by (rewrite N2Nat.id; done). rewrite N2Nat.id. by apply btake_ge.
Qed.

Lemma slots_held got : held_bytes (slots got) ≤ blen payload.
Proof. pose proof (slots_prefix got (N.to_nat total)) as [Hh _]. by rewrite first_chunks_all in Hh. Qed.

Lemma slots_complete got p :
  p_chunks p = slots got → ¬ missing got → is_complete p = true ∧ assemble p = payload.
Proof.
  intros Hp Hall.
  assert (∀ j, (j < N.to_nat total)%nat → N.of_nat j ∈ got) as Hj.
  { intros j Hj. destruct (decide (N.of_nat j ∈ got)); [done|]. destruct Hall. exists (N.of_nat j). split; [lia|done]. }
  unfold is_complete, assemble. rewrite Hp. split.
  - apply forallb_forall. intros c Hc%list_elem_of_In. unfold slots in Hc.
    apply list_elem_of_fmap in Hc as (j & -> & Hj'%elem_of_seq).
    unfold slot_of. rewrite decide_True by (apply Hj; lia). done.
  - pose proof (slots_prefix got (N.to_nat total)) as [_ Ha]. rewrite first_chunks_all in Ha. by apply Ha.
Qed.

Lemma slots_open got p : p_chunks p = slots got → missing got → is_complete p = false.
Proof.
  intros Hp (i & Hi & Hn). unfold is_complete. rewrite Hp. apply not_true_iff_false.
  rewrite forallb_forall. intros Hall.
  pose proof (slots_lookup got i Hi) as Hl. rewrite decide_False in Hl by done.
  apply list_elem_of_lookup_2, list_elem_of_In, Hall in Hl. done.
Qed.

(** A reassembler that holds exactly the chunks [got] of this payload. *)
Definition holds (got : list N) (r : Reassembler) : Prop :=
  ra_max_bytes r = max ∧
  match got with
  | [] => ra_transfers r = ∅
  | _ => ∃ created, ra_transfers r =
           {[transfer_id payload := mkPartial total (slots got) (held_bytes (slots got)) created]}
  end.

(** An acknowledgement names the end of the gapless prefix. *)
Definition ack_ok (ack : option N) (got : list N) : Prop :=
  match ack with
  | None => 0 ∉ got
  | Some k => (∀ i, i ≤ k → i ∈ got) ∧ k + 1 ∉ got
  end.

Lemma contiguous_ack got n a last :
  match last with None => a = 0%nat | Some k => k + 1 = N.of_nat a ∧ ∀ i, i ≤ k → i ∈ got end →
  N.of_nat (a + n) ≤ u32_max → (∃ j, (a ≤ j < a + n)%nat ∧ N.of_nat j ∉ got) →
  ack_ok (contiguous_from (N.of_nat a) last (slot_of got <$> seq a n)) got.
Proof.
  revert a last. induction n as [|n IH]; intros a last Hlast Hu (j & Hj & Hn); [lia|].
  cbn [seq fmap list_fmap contiguous_from]. unfold slot_of at 1.
  destruct (decide (N.of_nat a ∈ got)) as [Ha|Ha].
  - replace (N.of_nat a + 1) with (N.of_nat (S a)) by lia. apply IH; [|lia|].
    + unfold u32_or_max. rewrite N.min_l by lia. split; [lia|]. intros i Hi.
      destruct (decide (i = N.of_nat a)) as [->|]; [done|].
      destruct last as [k|]; [apply Hlast; lia|]. subst a. lia.
    + exists j. split; [|done]. destruct (decide (j = a)) as [->|]; [done|lia].
  - destruct last as [k|]; cbn; [|by subst a]. destruct Hlast as [Hk Hall].
    split; [done|]. by rewrite Hk.
Qed.

Lemma max_chunks_enough r : ra_max_bytes r = max → total ≤ max_chunks r.
Proof.
  intros Hr. destruct total_bounds as (_ & Hm & _). unfold max_chunks. rewrite Hr.
  assert (total ≤ u32_or_max (div_ceil max CHUNK_SIZE)) as Ht; [|lia].
  unfold chunk_count, u32_or_max, div_ceil.
  pose proof (N.Div0.div_le_mono (blen payload + CHUNK_SIZE - 1) (max + CHUNK_SIZE - 1) CHUNK_SIZE).
  lia.
Qed.

Lemma holds_lookup got r :
  holds got r →
  let m := if bool_decide (ra_transfers r !! transfer_id payload = None) &&
              (MAX_CONCURRENT_TRANSFERS <=? size (ra_transfers r))%nat
           then evict_oldest (ra_transfers r) else ra_transfers r in
  m = ra_transfers r ∧
  (∀ e, <[transfer_id payload := e]> m = {[transfer_id payload := e]}) ∧
  (∀ now, ∃ created, default (mkPartial total (replicate (N.to_nat total) None) 0 now)
     (m !! transfer_id payload) = mkPartial total (slots got) (held_bytes (slots got)) created) ∧
  match ra_transfers r !! transfer_id payload with Some p => negb (p_total p =? total) | None => false end
    = false.
Proof.
  intros [_ Hr] m. unfold m. clear m. destruct got as [|i got].
  - rewrite Hr, lookup_empty, map_size_empty. cbn [andb]. rewrite andb_false_r.
    split_and!; [done|intros; apply insert_empty| |done]. intros now. exists now.
    by rewrite lookup_empty, slots_nil, held_bytes_replicate.
  - destruct Hr as [created ->]. rewrite lookup_singleton_eq, bool_decide_eq_false_2 by done. cbn [andb].
    split_and!; [done|intros; apply insert_singleton_eq| |].
    + intros now. exists created. by rewrite lookup_singleton_eq.
    + cbn. by rewrite N.eqb_refl.
Qed.

Lemma accept_step now r got i :
  holds got r → i < total →
  let res := accept_frame now r (frame i) in
  (missing (i :: got) → holds (i :: got) res.1 ∧ ∃ ack, res.2 = Pending ack ∧ ack_ok ack (i :: got)) ∧
  (¬ missing (i :: got) → res = (Reassembler_new max, Complete payload)).
Proof.
  intros Hr Hi res. unfold res. clear res. destruct Hr as [Hmax Hgot].
  pose proof (holds_lookup got r (conj Hmax Hgot)) as Hlook.
  unfold accept_frame, frame, chunk_frame, accept. cbn [ck_transfer_id ck_index ck_total ck_data].
  rewrite b64_decode_encode. destruct total_bounds as (Hpos & Hm & Hu).
  pose proof (max_chunks_enough r Hmax) as Hmc.
  rewrite (proj2 (N.eqb_neq total 0)), (proj2 (N.leb_gt total i)), (proj2 (N.ltb_ge (max_chunks r) total)) by lia.
  cbn [orb]. cbv zeta in *. destruct Hlook as (Hm' & Hins & Hent & ->).
  set (m := if _ : bool then evict_oldest _ else _) in *. clearbody m. rewrite Hins.
  destruct (Hent now) as [created ->].
  set (e := store_chunk _ _ _).
  assert (p_chunks e = slots (i :: got)) as Hce by (unfold e; cbn [store_chunk p_chunks]; by apply slots_insert).
  assert (p_bytes e = held_bytes (slots (i :: got))) as Hbe.
  { pose proof (store_chunk_bytes (mkPartial total (slots got) (held_bytes (slots got)) created)
      (N.to_nat i) (chunk_bytes payload i) _ eq_refl (slots_lookup got i Hi)) as Hb. fold e in Hb.
    rewrite Hb, Hce. pose proof (slots_held (i :: got)).
    unfold MAX_CHUNKS, CHUNK_SIZE, usize_max, u64_max in *. lia. }
  pose proof (slots_held (i :: got)) as Hheld. rewrite <-Hbe in Hheld.
  rewrite (proj2 (N.ltb_ge (ra_max_bytes r) (p_bytes e))) by lia.
  rewrite buffered_total. change {[transfer_id payload := e]} with (<[transfer_id payload := e]> (∅ : gmap string Partial)).
  rewrite total_bytes_insert by apply lookup_empty. change (total_bytes ∅) with 0.
  rewrite (proj2 (N.ltb_ge _ ((p_bytes e + 0) mod 2 ^ 64))).
  2: { pose proof (N.mod_lt (p_bytes e + 0) (2 ^ 64) ltac:(lia)).
       pose proof (N.Div0.mod_le (p_bytes e + 0) (2 ^ 64)).
       unfold usize_mul, usize_max, u64_max. lia. }
  rewrite insert_empty. split.
  - intros Hmiss. rewrite (slots_open (i :: got) e Hce Hmiss). cbn [fst snd]. split.
    + split; [done|]. exists created. cbn [with_transfers ra_transfers]. by rewrite <-Hbe, <-Hce.
    + eexists. split; [done|]. unfold highest_contiguous. rewrite Hce.
      change 0 with (N.of_nat 0). apply contiguous_ack; [done| |].
      * unfold MAX_CHUNKS, u32_max in *. lia.
      * destruct Hmiss as (j & Hj & Hn). exists (N.to_nat j). rewrite N2Nat.id. split; [lia|done].
  - intros Hall. destruct (slots_complete (i :: got) e Hce Hall) as [-> ->].
    unfold with_transfers. by rewrite delete_singleton_eq, Hmax.
Qed.

(** A fresh reassembler fed the listed chunks at the listed times, newest
    first. *)
Fixpoint fed (sent : list (N * N)) : Reassembler :=
  match sent with
  | [] => Reassembler_new max
  | (now, i) :: sent => (accept_frame now (fed sent) (frame i)).1
  end.

Lemma fed_holds sent :
  (∀ x, x ∈ sent → x.2 < total) → missing sent.*2 → holds sent.*2 (fed sent).
Proof.
  induction sent as [|[now i] sent IH]; intros Hlt Hmiss; [done|]. cbn [fed fmap list_fmap snd] in *.
  apply accept_step; [apply IH| |done].
  - intros x Hx. apply Hlt. by right.
  - destruct Hmiss as (j & Hj & Hn). exists j. split; [done|]. intros Hx. apply Hn. by right.
  - apply (Hlt (now, i)). by left.
Qed.

(** C35. Splitting and reassembling is the identity in every order of arrival:
    a payload over the threshold, and within both the receiver's byte bound and
    the bound on the number of chunks, splits into its numbered chunks; fed to a
    receiver that holds nothing, in any order, with repetitions, each chunk is acknowledged with
    the end of the gapless prefix while one is missing, and the chunk that
    leaves none missing yields the payload and an empty buffer. *)
Theorem split_reassembles :
  split_payload transfer_id payload = Some (frame <$> range total) ∧
  ∀ sent, (∀ x, x ∈ sent → x.2 < total) → missing sent.*2 →
    (∀ newer now i older, sent = newer ++ (now, i) :: older →
       ∃ ack, (accept_frame now (fed older) (frame i)).2 = Pending ack ∧ ack_ok ack (i :: older.*2)) ∧
    (∀ now i, i < total → ¬ missing (i :: sent.*2) →
       accept_frame now (fed sent) (frame i) = (Reassembler_new max, Complete payload)).
Proof.
  split. { unfold split_payload. by rewrite (proj2 (N.leb_gt _ _)) by done. }
  intros sent Hlt Hmiss. split.
  - intros newer now i older ->.
    assert (missing (i :: older.*2)) as Hm1.
    { destruct Hmiss as (j & Hj & Hn). exists j. split; [done|]. intros Hx. apply Hn.
      rewrite fmap_app. apply elem_of_app. by right. }
    assert (missing older.*2) as Hm2.
    { destruct Hm1 as (j & Hj & Hn). exists j. split; [done|]. intros Hx. apply Hn. by right. }
    apply (accept_step now (fed older) older.*2 i); [|apply (Hlt (now, i)); set_solver|done].
    apply fed_holds; [|done]. intros x Hx. apply Hlt. set_solver.
  - intros now i Hi Hall. apply (accept_step now (fed sent) sent.*2 i); [|done..]. by apply fed_holds.
Qed.
End reassembly.

(** ** Witnesses *)

(** A Base64 of one character per byte, and the map's own order. *)
#[local] Instance plain_base64 : Base64 := {| b64_encode s := s; b64_decode := Some |}.
#[local] Instance plain_base64_laws : Base64Laws plain_base64.
Proof. done. Qed.
#[local] Instance list_order : MapOrder := map_to_list.

Fixpoint repeated (c : ascii) (n : nat) : string :=
  match n with 0%nat => "" | S n => String c (repeated c n) end.

Lemma blen_repeated c n : blen (repeated c (N.to_nat n)) = n.
Proof.
  unfold blen. transitivity (N.of_nat (N.to_nat n)); [f_equal|lia].
  generalize (N.to_nat n). intros k. by induction k as [|k IH]; cbn; [|rewrite IH].
Qed.

Definition demo_payload : string := repeated "x" (N.to_nat 600000).

Lemma demo_length : blen demo_payload = 600000.
Proof. apply blen_repeated. Qed.

Lemma demo_total : chunk_count (blen demo_payload) = 3.
Proof. by rewrite demo_length. Qed.

#[local] Opaque demo_payload.

Lemma reassembler_bounded_witness :
  buffer_ok (foldl buf_step (Reassembler_new 1048576)
    [OpChunk 0 "a" 1 4 "xyz"; OpChunk 1 "a" 9 4 ""; OpEvict 2 60; OpChunk 3 "b" 0 2 "q"]) ∧
  ra_max_bytes (foldl buf_step (Reassembler_new 1048576)
    [OpChunk 0 "a" 1 4 "xyz"; OpChunk 1 "a" 9 4 ""; OpEvict 2 60; OpChunk 3 "b" 0 2 "q"]) = 1048576.
Proof. apply (reassembler_bounded (λ _, reflexivity _)). lia. Defined.

Lemma split_reassembles_witness :
  accept_frame 4 (fed (λ _, "id") demo_payload 700000 [(3, 2); (2, 0); (1, 2)])
    (frame (λ _, "id") demo_payload 1) = (Reassembler_new 700000, Complete demo_payload).
Proof.
  pose proof demo_length as Hl. pose proof demo_total as Ht.
  assert (CHUNK_THRESHOLD < blen demo_payload) as H1 by (rewrite Hl; reflexivity).
  assert (blen demo_payload ≤ 700000) as H2 by (rewrite Hl; lia).
  assert (blen demo_payload ≤ MAX_CHUNKS * CHUNK_SIZE) as H3 by (rewrite Hl; by vm_compute).
  destruct (split_reassembles (λ _, "id") demo_payload 700000 H1 H2 H3) as [_ H].
  unfold missing in *. rewrite Ht in *. apply H; clear.
  - intros x Hx. repeat (apply elem_of_cons in Hx as [->|Hx]; [cbn; lia|]).
    by apply elem_of_nil in Hx.
  - exists 1. split; [lia|]. cbn. rewrite !not_elem_of_cons. split_and!; [done..|apply not_elem_of_nil].
  - lia.
  - intros (i & Hi & Hn). apply Hn. cbn. rewrite !elem_of_cons. lia.
Defined.
