(* ===== verification/Query.v ===== *)
(** * The filter query language ([cctui-query/src])

    Search text typed by a user becomes a tree of free text, field filters,
    negations, conjunctions and disjunctions.  The lexer splits words and
    quotes, the tokenizer recognises operators and [field in (…)] lists, and a
    recursive-descent parser with a nesting limit builds the tree.  Text is a
    UTF-8 byte string and a character is the string of its bytes. *)

From stdpp Require Import base decidable list strings.
From Stdlib Require Import Lia ZArith NArith Bool Ascii String.
From S2P Require Import Prelude RustStr.

(** ** The tree ([ast.rs]) *)

Inductive FilterOp := FEq | FNe | FContains | FIn.

Record Filter := mkFilter { f_field : string; f_op : FilterOp; f_values : list string }.

Inductive Node :=
| NEmpty
| NText (value : string)
| NFilter (filter : Filter)
| NNot (child : Node)
| NAnd (children : list Node)
| NOr (children : list Node).

Definition node_is_empty (n : Node) : bool := match n with NEmpty => true | _ => false end.

Fixpoint free_text_terms (n : Node) : list string :=
  match n with
  | NText value => [value]
  | NNot child => free_text_terms child
  | NAnd children | NOr children =>
    (fix go l := match l with [] => [] | c :: l => free_text_terms c ++ go l end) children
  | NEmpty | NFilter _ => []
  end.

(** ** Fields ([registry.rs]) *)

Inductive FieldType := TyId | TyStr | TyEnum | TyBool.

#[export] Instance FieldType_eq_dec : EqDecision FieldType.
Proof. solve_decision. Defined.

Record FieldDef := mkField {
  fd_name : string;
  fd_aliases : list string;
  fd_ty : FieldType;
  fd_default_op : FilterOp;
  fd_enum_values : list string;
}.

(** The ids of [cctui-proto]'s harness table. *)
Definition KNOWN_ADAPTERS : list string :=
  ["claude-code"; "codex"; "opencode"; "gemini"; "qwen"; "goose"].

Definition FIELDS : list FieldDef := [
  mkField "machine" ["m"] TyId FEq [];
  mkField "account" ["acct"] TyStr FEq [];
  mkField "tag" ["label"] TyEnum FEq [];
  mkField "title" ["name"] TyStr FContains [];
  mkField "status" [] TyEnum FEq ["new"; "active"; "inactive"; "archived"; "draft"];
  mkField "model" [] TyStr FContains [];
  mkField "effort" [] TyEnum FEq ["low"; "high"];
  mkField "adapter" [] TyEnum FEq KNOWN_ADAPTERS;
  mkField "pinned" ["starred"] TyBool FEq [];
  mkField "dir" ["cwd"] TyStr FContains [];
  mkField "role" ["type"] TyEnum FEq
    ["assistant"; "thinking"; "redacted"; "attachment"; "user"; "poll"; "peer"; "system"; "tool"; "mcp";
     "server_tool"; "result"; "server_result"; "error"; "marker"; "summary"; "compact"; "reset"];
  mkField "tool" [] TyStr FEq [];
  mkField "after" [] TyStr FEq [];
  mkField "before" [] TyStr FEq [] ].

(** [to_lowercase] before a comparison with one of these names: the only other
    character with an ASCII lower case is the Kelvin sign, and no name has
    a k, so the ASCII mapping decides the same. *)
Definition resolve_field (token : string) : option FieldDef :=
  let lower := to_ascii_lowercase token in
  find (λ f, (fd_name f ==s lower) || existsb (λ a, a ==s lower) (fd_aliases f)) FIELDS.

(** ** Lexing ([parser.rs]) *)

Inductive OpCode := Colon | OEq | NotEq | NotContains | OIn.

Inductive Tok :=
| TLParen | TRParen | TAnd | TOr | TNot
| TText (s : string)
| TField (field : string) (op : OpCode) (values : list string).

(** A word: its runs, each with whether it was quoted. *)
Definition Word := list (string * bool).

Definition plain (w : Word) : option string := match w with [(s, false)] => Some s | _ => None end.

Definition fully_quoted (w : Word) : bool :=
  match w with [] => false | _ => forallb snd w end.

Definition joined (w : Word) : string := fold_right (λ seg acc, seg.1 ++s acc) "" w.

Inductive RawTok := RLParen | RRParen | RWord (w : Word).

Record LexState := mkLex {
  lx_out : list RawTok;
  lx_segs : Word;
  lx_cur : string;
  lx_in_quote : bool;
}.

(** [flush_seg] then, where the source does, [flush_word]. *)
Definition flush_seg (quoted : bool) (st : LexState) : LexState :=
  if negb (is_empty (lx_cur st)) || quoted
  then mkLex (lx_out st) (lx_segs st ++ [(lx_cur st, quoted)]) "" (lx_in_quote st)
  else st.

Definition flush_word (st : LexState) : LexState :=
  match lx_segs st with
  | [] => st
  | segs => mkLex (lx_out st ++ [RWord segs]) [] (lx_cur st) (lx_in_quote st)
  end.

Definition push_raw (t : RawTok) (st : LexState) : LexState :=
  mkLex (lx_out st ++ [t]) (lx_segs st) (lx_cur st) (lx_in_quote st).

Definition is_ws_char (c : string) : bool := match strip_ws c with Some "" => true | _ => false end.

Definition dq : string := String dquote "".

Definition lex_char (st : LexState) (c : string) : LexState :=
  if c ==s dq then
    let st := flush_seg (lx_in_quote st) st in
    mkLex (lx_out st) (lx_segs st) (lx_cur st) (negb (lx_in_quote st))
  else if ((c ==s "(") || (c ==s ")")) && negb (lx_in_quote st) then
    push_raw (if c ==s "(" then RLParen else RRParen) (flush_word (flush_seg false st))
  else if is_ws_char c && negb (lx_in_quote st) then flush_word (flush_seg false st)
  else mkLex (lx_out st) (lx_segs st) (lx_cur st ++s c) (lx_in_quote st).

Definition raw_lex (input : string) : list RawTok :=
  let st := foldl lex_char (mkLex [] [] "" false) (uchars input) in
  lx_out (flush_word (flush_seg (lx_in_quote st) st)).

(** ** Words to tokens *)

Definition OPS : list (string * OpCode) :=
  [("!=", NotEq); ("!:", NotContains); ("=", OEq); (":", Colon)].

(** The operators that occur, with the text around their first occurrence. *)
Definition op_hits (s : string) : list (string * string * string * OpCode) :=
  omap (λ '(pat, op), '(before, after) ← split_once_str pat s; Some (before, after, pat, op)) OPS.

(** [min_by_key] on (offset, longest pattern first): the first least. *)
Definition hit_le (a b : string * string * string * OpCode) : bool :=
  let '(ba, _, pa, _) := a in let '(bb, _, pb, _) := b in
  (String.length ba <? String.length bb)%nat ||
  (String.length ba =? String.length bb)%nat && (String.length pb <=? String.length pa)%nat.

Fixpoint min_hit (l : list (string * string * string * OpCode)) :
    option (string * string * string * OpCode) :=
  match l with
  | [] => None
  | x :: l => match min_hit l with Some y => if hit_le x y then Some x else Some y | None => Some x end
  end.

(** [retain(|(s, q)| !s.is_empty() || *q)]. *)
Definition retain_segs (w : Word) : Word :=
  List.filter (λ seg, negb (is_empty seg.1) || seg.2) w.

Definition split_op (w : Word) : option (string * OpCode * Word) :=
  match w with
  | (first, false) :: rest =>
    '(field, after, _, op) ← min_hit (op_hits first);
    Some (field, op, retain_segs ((after, false) :: rest))
  | _ => None
  end.

Fixpoint split_values_from (cur : string) (w : Word) : list string :=
  match w with
  | [] => [cur]
  | (seg, true) :: w => split_values_from (cur ++s seg) w
  | (seg, false) :: w =>
    match split (Ascii.eqb ",") seg with
    | [] => split_values_from cur w
    | first :: parts =>
      let cur := cur ++s first in
      match rev parts with
      | [] => split_values_from cur w
      | last :: mid => cur :: rev mid ++ split_values_from last w
      end
    end
  end.

Definition split_values (w : Word) : list string :=
  List.filter (λ v, negb (is_empty v)) (trim <$> split_values_from "" w).

Definition push_text (s : string) : list Tok := if is_empty (trim s) then [] else [TText s].

Definition strip_negation (w : Word) : option Word :=
  match w with
  | (first, false) :: segs =>
    rest ← match strip_prefix "not:" first with
           | Some r => Some r
           | None => strip_prefix "-" first
           end;
    Some (retain_segs ((rest, false) :: segs))
  | _ => None
  end.

(** The [while] loop of [classify_word]: [negated] and the word left. *)
Fixpoint strip_negations (fuel : nat) (negated : bool) (rest : Word) : bool * Word :=
  match fuel with
  | 0%nat => (negated, rest)
  | S fuel =>
    if match plain rest with Some p => p ==s "-" | None => false end then (negated, rest)
    else match strip_negation rest with
         | Some next => strip_negations fuel (negb negated) next
         | None => (negated, rest)
         end
  end.

Inductive Keyword := KAnd | KOr | KNot | KDash.

Definition keyword (p : string) : option Keyword :=
  if (p ==s "and") || (p ==s "AND") || (p ==s "+") || (p ==s "&&") then Some KAnd
  else if (p ==s "or") || (p ==s "OR") || (p ==s "||") then Some KOr
  else if (p ==s "not") || (p ==s "NOT") then Some KNot
  else if p ==s "-" then Some KDash
  else None.

Fixpoint classify_from (fuel : nat) (w : Word) : list Tok :=
  match fuel with
  | 0%nat => []
  | S fuel =>
    if fully_quoted w then push_text (joined w)
    else
      match plain w ≫= keyword with
      | Some KAnd => [TAnd]
      | Some KOr => [TOr]
      | Some KNot => [TNot]
      | Some KDash => [TText "-"]
      | None =>
        match strip_negation w with
        | Some rest =>
          let '(negated, rest) := strip_negations (String.length (joined w)) true rest in
          (if negated then [TNot] else []) ++ classify_from fuel rest
        | None =>
          match split_op w with
          | Some (field, op, value) =>
            match resolve_field field with
            | Some _ => [TField field op (split_values value)]
            | None => push_text (joined w)
            end
          | None => push_text (joined w)
          end
        end
      end
  end.

(** The recursive call is on a word that strips no further. *)
Definition classify_word (w : Word) : list Tok := classify_from 2 w.

Fixpoint collect_in_list (raw : list RawTok) : list string * list RawTok :=
  match raw with
  | [] => ([], [])
  | RRParen :: raw => ([], raw)
  | RWord w :: raw => let '(values, raw) := collect_in_list raw in (split_values w ++ values, raw)
  | RLParen :: raw => collect_in_list raw
  end.

(** [match_in_list_head] at the start of [raw]: the field and what follows
    the three tokens it consumed. *)
Definition match_in_list_head (w : Word) (after : list RawTok) : option (string * list RawTok) :=
  field ← plain w;
  _ ← resolve_field field;
  match after with
  | RWord kw :: RLParen :: rest =>
    k ← plain kw;
    if eq_ignore_ascii_case k "in" then Some (field, rest) else None
  | _ => None
  end.

Fixpoint tokenize_from (fuel : nat) (raw : list RawTok) : list Tok :=
  match fuel with
  | 0%nat => []
  | S fuel =>
    match raw with
    | [] => []
    | RLParen :: raw => TLParen :: tokenize_from fuel raw
    | RRParen :: raw => TRParen :: tokenize_from fuel raw
    | RWord w :: raw =>
      match match_in_list_head w raw with
      | Some (field, rest) =>
        let '(values, rest) := collect_in_list rest in
        TField field OIn values :: tokenize_from fuel rest
      | None => classify_word w ++ tokenize_from fuel raw
      end
    end
  end.

Definition tokenize (input : string) : list Tok :=
  let raw := raw_lex input in tokenize_from (S (List.length raw)) raw.

(** ** Parsing *)

Definition bool_value (v : string) : bool :=
  existsb (String.eqb (to_ascii_lowercase v)) ["true"; "1"; "yes"; "y"; "on"; "pinned"; "starred"].

Definition bool_to_string (b : bool) : string := if b then "true" else "false".

(** [field_leaf]; [None] is the [expect] on an unknown field. *)
Definition field_leaf (field : string) (op : OpCode) (raw_values : list string) : option Node :=
  def ← resolve_field field;
  match raw_values with
  | [] => Some NEmpty
  | _ =>
    let values := if bool_decide (fd_ty def = TyBool)
                  then (λ v, bool_to_string (bool_value v)) <$> raw_values else raw_values in
    let ast_op := match op with
                  | OIn => FIn
                  | _ => if (2 <=? List.length values)%nat then FIn
                         else match op with OEq => FEq | _ => fd_default_op def end
                  end in
    let node := NFilter (mkFilter (fd_name def) ast_op values) in
    Some (match op with NotEq | NotContains => NNot node | _ => node end)
  end.

Definition MAX_DEPTH : nat := 32.

Definition collapse (children : list Node) (or : bool) : option Node :=
  match List.filter (λ n, negb (node_is_empty n)) children with
  | [] => None
  | [n] => Some n
  | l => Some (if or then NOr l else NAnd l)
  end.

(** Leading negations and what follows them. *)
Fixpoint skip_nots (negated : bool) (toks : list Tok) : bool * list Tok :=
  match toks with TNot :: toks => skip_nots (negb negated) toks | _ => (negated, toks) end.

Definition negate (negated : bool) (child : Node) : Node :=
  match child with NEmpty => NEmpty | _ => if negated then NNot child else child end.

(** Why a parse stops short: out of fuel, or a failed [expect]. *)
Inductive Stop := NoFuel | Panicked.

(** The parser's functions return a node, if there is one, and the tokens left;
    [depth] is the field of the struct, which every call restores. *)
Fixpoint parse_or (fuel depth : nat) (toks : list Tok) : result Stop (option Node * list Tok) :=
  match fuel with
  | 0%nat => Err NoFuel
  | S fuel =>
    '(first, toks) ← parse_and fuel depth [] toks;
    or_loop fuel depth (option_list first) toks
  end
with or_loop (fuel depth : nat) (children : list Node) (toks : list Tok) {struct fuel} :
    result Stop (option Node * list Tok) :=
  match fuel with
  | 0%nat => Err NoFuel
  | S fuel =>
    match toks with
    | TOr :: toks =>
      '(n, toks) ← parse_and fuel depth [] toks;
      or_loop fuel depth (children ++ option_list n) toks
    | _ => Ok (collapse children true, toks)
    end
  end
with parse_and (fuel depth : nat) (children : list Node) (toks : list Tok) {struct fuel} :
    result Stop (option Node * list Tok) :=
  match fuel with
  | 0%nat => Err NoFuel
  | S fuel =>
    match toks with
    | [] | TOr :: _ | TRParen :: _ => Ok (collapse children false, toks)
    | TAnd :: toks => parse_and fuel depth children toks
    | _ =>
      '(n, toks) ← parse_unary fuel depth toks;
      match n with
      | Some n => parse_and fuel depth (children ++ [n]) toks
      | None => Ok (collapse children false, toks)
      end
    end
  end
with parse_unary (fuel depth : nat) (toks : list Tok) {struct fuel} :
    result Stop (option Node * list Tok) :=
  match fuel with
  | 0%nat => Err NoFuel
  | S fuel =>
    let '(negated, toks) := skip_nots false toks in
    '(child, toks) ← parse_primary fuel depth toks;
    Ok (option_map (negate negated) child, toks)
  end
with parse_primary (fuel depth : nat) (toks : list Tok) {struct fuel} :
    result Stop (option Node * list Tok) :=
  match fuel with
  | 0%nat => Err NoFuel
  | S fuel =>
    match toks with
    | [] => Ok (None, [])
    | TLParen :: toks =>
      if (MAX_DEPTH <=? depth)%nat then parse_primary fuel depth toks
      else
        '(inner, toks) ← parse_or fuel (S depth) toks;
        Ok (inner, match toks with TRParen :: toks => toks | _ => toks end)
    | TRParen :: toks => Ok (None, toks)
    | TText t :: toks => Ok (Some (NText t), toks)
    | TField field op values :: toks =>
      match field_leaf field op values with
      | Some n => Ok (Some n, toks)
      | None => Err Panicked
      end
    | TAnd :: toks | TOr :: toks | TNot :: toks => parse_primary fuel depth toks
    end
  end.

Definition parse_fuel (toks : list Tok) : nat := 6 * List.length toks + 6.

(** The loop of [parse]: a pass that consumed nothing skips a token. *)
Fixpoint parse_all (fuel : nat) (nodes : list Node) (toks : list Tok) : result Stop (list Node) :=
  match fuel with
  | 0%nat => Err NoFuel
  | S fuel =>
    match toks with
    | [] => Ok nodes
    | _ :: rest =>
      '(n, left_over) ← parse_or (parse_fuel toks) 0 toks;
      parse_all fuel (nodes ++ option_list n)
        (if (List.length left_over =? List.length toks)%nat then rest else left_over)
    end
  end.

Definition parse (input : string) : result Stop Node :=
  let trimmed := trim input in
  if is_empty trimmed then Ok NEmpty
  else
    let toks := tokenize trimmed in
    nodes ← parse_all (S (List.length toks)) [] toks;
    Ok (default NEmpty (collapse nodes false)).

(** ** Examples *)

Example parse_mixed :
  parse ("status!=archived (m=a,b OR -title:" ++s dq ++s "x y" ++s dq ++s ") and fix") =
  Ok (NAnd [NNot (NFilter (mkFilter "status" FEq ["archived"]));
            NOr [NFilter (mkFilter "machine" FIn ["a"; "b"]);
                 NNot (NFilter (mkFilter "title" FContains ["x y"]))];
            NText "fix"]).
Proof. vm_compute. reflexivity. Qed.

Example parse_in_list :
  parse ("tag in (a, " ++s dq ++s "b, c" ++s dq ++s ") --not:pinned:yes ))") =
  Ok (NAnd [NFilter (mkFilter "tag" FIn ["a"; "b, c"]);
            NNot (NFilter (mkFilter "pinned" FEq ["true"]))]).
Proof. vm_compute. reflexivity. Qed.

(** ** Facts: the shape of the tree *)

Definition filter_wf (f : Filter) : bool :=
  existsb (λ d, (fd_name d ==s f_field f) &&
    (negb (bool_decide (fd_ty d = TyBool)) ||
     forallb (λ v, (v ==s "true") || (v ==s "false")) (f_values f))) FIELDS &&
  forallb (λ v, negb (is_empty v)) (f_values f) &&
  match f_op f with
  | FNe => false
  | FIn => (1 <=? List.length (f_values f))%nat
  | _ => (List.length (f_values f) =? 1)%nat
  end.

(** A tree with no empty part: conjunctions and disjunctions have at least two
    members, text is not blank, filters are well formed. *)
Fixpoint node_wf (n : Node) : bool :=
  match n with
  | NEmpty => false
  | NText t => negb (is_empty (trim t))
  | NFilter f => filter_wf f
  | NNot c => node_wf c
  | NAnd l | NOr l => (2 <=? List.length l)%nat && forallb node_wf l
  end.

Fixpoint height (n : Node) : nat :=
  match n with
  | NNot c => S (height c)
  | NAnd l | NOr l => S (list_max (map height l))
  | _ => 1
  end.

Definition tok_ok (t : Tok) : Prop :=
  match t with
  | TText s => is_empty (trim s) = false
  | TField field _ values => is_Some (resolve_field field) ∧ Forall (λ v, is_empty v = false) values
  | _ => True
  end.

Lemma push_text_ok s : Forall tok_ok (push_text s).
Proof. unfold push_text. destruct (is_empty (trim s)) eqn:E; by repeat constructor. Qed.

Lemma split_values_ok w : Forall (λ v, is_empty v = false) (split_values w).
Proof.
  unfold split_values. apply List.Forall_forall. intros v [_ Hv]%filter_In. by apply negb_true_iff.
Qed.

Lemma classify_ok fuel w : Forall tok_ok (classify_from fuel w).
Proof.
  revert w. induction fuel as [|fuel IH]; intros w; cbn [classify_from]; [done|].
  destruct (fully_quoted w); [apply push_text_ok|].
  destruct (plain w ≫= keyword) as [[]|]; [by repeat constructor..|].
  destruct (strip_negation w) as [rest|].
  - destruct (strip_negations _ _ _) as [negated rest']. apply Forall_app. split; [|apply IH].
    by destruct negated; repeat constructor.
  - destruct (split_op w) as [[[field op] value]|]; [|apply push_text_ok].
    destruct (resolve_field field) eqn:E; [|apply push_text_ok].
    repeat constructor; [by rewrite E|apply split_values_ok].
Qed.

Lemma collect_values_ok raw : Forall (λ v, is_empty v = false) (collect_in_list raw).1.
Proof.
  induction raw as [|[| |w] raw IH]; cbn; [done..|].
  destruct (collect_in_list raw) as [values rest]. apply Forall_app. split; [apply split_values_ok|done].
Qed.

Lemma match_in_list_head_spec w after field rest :
  match_in_list_head w after = Some (field, rest) →
  is_Some (resolve_field field) ∧ ∃ kw, after = RWord kw :: RLParen :: rest.
Proof.
  unfold match_in_list_head. intros E. destruct (plain w) as [f|]; [|done].
  cbn [mbind option_bind] in E. destruct (resolve_field f) eqn:Ef; [|done].
  cbn [mbind option_bind] in E. destruct after as [|[| |kw] [|[| |] after]]; try done.
  destruct (plain kw); [|done]. cbn [mbind option_bind] in E. destruct (eq_ignore_ascii_case _ _); [|done].
  injection E as <- <-. split; [by rewrite Ef|by exists kw].
Qed.

Lemma tokenize_ok fuel raw : Forall tok_ok (tokenize_from fuel raw).
Proof.
  revert raw. induction fuel as [|fuel IH]; intros [|[| |w] raw]; cbn [tokenize_from]; [done..| | |].
  - by constructor.
  - by constructor.
  - destruct (match_in_list_head w raw) as [[field rest]|] eqn:E.
    + pose proof (collect_values_ok rest) as Hv. destruct (collect_in_list rest) as [values rest'].
      constructor; [|apply IH]. split; [|done]. by apply match_in_list_head_spec in E as [? _].
    + apply Forall_app. split; [apply classify_ok|apply IH].
Qed.

(** What a parser function may yield, with a bound on the height. *)
Definition item_ok (h : nat) (n : Node) : Prop := n = NEmpty ∨ node_wf n = true ∧ (height n ≤ h)%nat.

Lemma item_ok_mono h h' n : (h ≤ h')%nat → item_ok h n → item_ok h' n.
Proof. intros Hh [->|[Hw Hn]]; [by left|right]. split; [done|lia]. Qed.

Lemma collapse_ok h l or n : Forall (item_ok h) l → collapse l or = Some n → node_wf n = true ∧ (height n ≤ S h)%nat.
Proof.
  intros Hl. unfold collapse. set (kept := List.filter _ l).
  assert (Forall (λ n, node_wf n = true ∧ (height n ≤ h)%nat) kept) as Hk.
  { apply List.Forall_forall. intros x [Hx Hn]%filter_In. rewrite List.Forall_forall in Hl.
    destruct (Hl x Hx) as [->|]; done. }
  clearbody kept. destruct kept as [|a [|b kept]]; [done| |].
  - intros [= <-]. apply Forall_inv in Hk as [Hw Hh]. split; [done|lia].
  - assert (forallb node_wf (a :: b :: kept) = true) as Hw.
    { apply forallb_forall. intros x Hx. rewrite List.Forall_forall in Hk. by apply Hk. }
    assert (list_max (map height (a :: b :: kept)) ≤ h)%nat as Hh.
    { apply list_max_le. apply List.Forall_map. eapply Forall_impl; [done|]. by intros x [_ ?]. }
    intros [= <-]. destruct or; (split; [exact Hw|apply le_n_S, Hh]).
Qed.

Lemma bool_text b : (bool_to_string b ==s "true") || (bool_to_string b ==s "false") = true.
Proof. by destruct b. Qed.

Lemma bool_text_nonempty b : is_empty (bool_to_string b) = false.
Proof. by destruct b. Qed.

Lemma resolve_field_in token def :
  resolve_field token = Some def → In def FIELDS ∧ (fd_default_op def = FEq ∨ fd_default_op def = FContains).
Proof.
  intros Hd. assert (In def FIELDS) as Hin by exact (proj1 (find_some _ _ Hd)). split; [done|].
  assert (Forall (λ d, fd_default_op d = FEq ∨ fd_default_op d = FContains) FIELDS) as Hall
    by (repeat constructor; cbn; auto).
  rewrite List.Forall_forall in Hall. by apply Hall.
Qed.

Lemma field_leaf_ok field op values :
  is_Some (resolve_field field) → Forall (λ v, is_empty v = false) values →
  ∃ n, field_leaf field op values = Some n ∧ item_ok 2 n.
Proof.
  intros [def Hdef] Hv. unfold field_leaf. rewrite Hdef. cbn [mbind option_bind].
  apply resolve_field_in in Hdef as [Hin_def Hop].
  destruct values as [|v0 vs]; [exists NEmpty; split; [done|by left]|]. set (raw := v0 :: vs) in *.
  set (values := if bool_decide (fd_ty def = TyBool) then _ else raw). cbv zeta.
  assert (List.length values = List.length raw) as Hlen.
  { unfold values. case_bool_decide; [apply length_fmap|done]. }
  assert (forallb (λ v, negb (is_empty v)) values = true) as Hne.
  { apply forallb_forall. intros v Hin. apply negb_true_iff. unfold values in Hin.
    case_bool_decide; [|rewrite List.Forall_forall in Hv; by apply Hv].
    apply list_elem_of_In, list_elem_of_fmap in Hin as (x & -> & _). apply bool_text_nonempty. }
  set (aop := match op with OIn => FIn | _ => _ end).
  assert (node_wf (NFilter (mkFilter (fd_name def) aop values)) = true) as Hw.
  { cbn [node_wf]. unfold filter_wf. cbn [f_field f_op f_values]. rewrite Hne, andb_true_r. apply andb_true_iff. split.
    - apply existsb_exists. exists def. split; [done|].
      rewrite String.eqb_refl. cbn [andb]. unfold values. case_bool_decide; [|done]. cbn [negb orb].
      apply forallb_forall. intros v Hin. apply list_elem_of_In, list_elem_of_fmap in Hin as (x & -> & _).
      apply bool_text.
    - unfold aop. rewrite Hlen. cbn [raw List.length].
      by destruct op, vs, Hop as [Hop|Hop]; cbn; rewrite ?Hop. }
  destruct op; eexists; (split; [done|]); right; (split; [exact Hw|cbn; lia]).
Qed.

(** ** Facts: the parser returns *)

(** The outcome of a parser function on [toks]: a node of bounded height, if
    any, and fewer tokens when it is one. *)
Definition parsed (h : nat) (toks : list Tok) (r : result Stop (option Node * list Tok)) : Prop :=
  ∃ n left_over, r = Ok (n, left_over) ∧ Forall tok_ok left_over ∧
    (List.length left_over ≤ List.length toks)%nat ∧ ∀ x, n = Some x → item_ok h x.

(** As [parsed], and a node costs a token. *)
Definition consumed (h : nat) (toks : list Tok) (r : result Stop (option Node * list Tok)) : Prop :=
  ∃ n left_over, r = Ok (n, left_over) ∧ Forall tok_ok left_over ∧
    (List.length left_over ≤ List.length toks)%nat ∧
    ∀ x, n = Some x → item_ok h x ∧ (List.length left_over < List.length toks)%nat.

(** The height a primary may have at a nesting depth. *)
Definition primary_height (depth : nat) : nat := 3 * (MAX_DEPTH - depth) + 2.

Definition step_ok (fuel : nat) : Prop :=
  ∀ depth toks, Forall tok_ok toks → (depth ≤ MAX_DEPTH)%nat →
    let len := List.length toks in
    ((6 * len + 5 ≤ fuel)%nat → parsed (primary_height depth + 3) toks (parse_or fuel depth toks)) ∧
    (∀ children, (6 * len + 4 ≤ fuel)%nat → Forall (item_ok (primary_height depth + 2)) children →
       parsed (primary_height depth + 3) toks (or_loop fuel depth children toks)) ∧
    (∀ children, (6 * len + 3 ≤ fuel)%nat → Forall (item_ok (primary_height depth + 1)) children →
       parsed (primary_height depth + 2) toks (parse_and fuel depth children toks)) ∧
    ((6 * len + 2 ≤ fuel)%nat → consumed (primary_height depth + 1) toks (parse_unary fuel depth toks)) ∧
    ((6 * len + 1 ≤ fuel)%nat → consumed (primary_height depth) toks (parse_primary fuel depth toks)).

Lemma collapsed h toks children or :
  Forall tok_ok toks → Forall (item_ok h) children → parsed (S h) toks (Ok (collapse children or, toks)).
Proof.
  intros Ht Hc. exists (collapse children or), toks. split_and!; [done..|].
  intros x Hx. right. by apply (collapse_ok h children or).
Qed.

Lemma Forall_option_list {A} (P : A → Prop) (o : option A) :
  (∀ x, o = Some x → P x) → Forall P (option_list o).
Proof. destruct o; cbn; auto. Qed.

Lemma skip_nots_ok b toks :
  Forall tok_ok toks →
  Forall tok_ok (skip_nots b toks).2 ∧ (List.length (skip_nots b toks).2 ≤ List.length toks)%nat.
Proof.
  intros Ht. revert b. induction Ht as [|t toks Ht' Htoks IH]; intros b; cbn; [auto|].
  destruct t; cbn; [by auto..| |by auto|by auto].
  destruct (IH (negb b)) as [H1 H2]. split; [done|lia].
Qed.

Lemma negate_ok h b x : item_ok h x → item_ok (S h) (negate b x).
Proof.
  intros [->|[Hw Hh]]; [by left|]. right. destruct b, x; cbn in *; try done; split; try done; lia.
Qed.

Lemma parsed_weaken h toks toks' r :
  (List.length toks' ≤ List.length toks)%nat → parsed h toks' r → parsed h toks r.
Proof. intros Hl (n & lo & -> & Hlo & Hle & Hx). exists n, lo. split_and!; [done..|lia|done]. Qed.

Lemma consumed_weaken h toks toks' r :
  (List.length toks' ≤ List.length toks)%nat → consumed h toks' r → consumed h toks r.
Proof.
  intros Hl (n & lo & -> & Hlo & Hle & Hx). exists n, lo. split_and!; [done..|lia|].
  intros x Hn. destruct (Hx x Hn). split; [done|lia].
Qed.

Lemma or_step fuel depth toks children :
  step_ok fuel → Forall tok_ok toks → (depth ≤ MAX_DEPTH)%nat →
  (6 * List.length toks + 4 ≤ fuel)%nat → Forall (item_ok (primary_height depth + 2)) children →
  parsed (primary_height depth + 3) toks
    ('(n, toks) ← parse_and fuel depth [] toks; or_loop fuel depth (children ++ option_list n) toks).
Proof.
  intros IH Ht Hd Hf Hc. destruct (IH depth toks Ht Hd) as (_ & _ & Hand & _).
  destruct (Hand []) as (n & lo & -> & Hlo & Hle & Hx); [lia|done|]. cbn [mbind result_bind].
  destruct (IH depth lo Hlo Hd) as (_ & Hloop & _).
  apply (parsed_weaken _ _ lo); [done|]. apply Hloop; [lia|]. apply Forall_app. split; [done|].
  by apply Forall_option_list.
Qed.

Lemma or_loop_step fuel depth toks children :
  step_ok fuel → Forall tok_ok toks → (depth ≤ MAX_DEPTH)%nat →
  (6 * List.length toks + 4 ≤ S fuel)%nat → Forall (item_ok (primary_height depth + 2)) children →
  parsed (primary_height depth + 3) toks (or_loop (S fuel) depth children toks).
Proof.
  intros IH Ht Hd Hf Hc. cbn [or_loop].
  assert (parsed (primary_height depth + 3) toks (Ok (collapse children true, toks))) as Hstop.
  { replace (primary_height depth + 3)%nat with (S (primary_height depth + 2)) by lia. by apply collapsed. }
  destruct toks as [|[] toks]; try exact Hstop. apply Forall_inv_tail in Ht. cbn [List.length] in Hf.
  apply (parsed_weaken _ _ toks); [cbn; lia|]. apply or_step; [done..|lia|done].
Qed.

Lemma parse_and_step fuel depth toks children :
  step_ok fuel → Forall tok_ok toks → (depth ≤ MAX_DEPTH)%nat →
  (6 * List.length toks + 3 ≤ S fuel)%nat → Forall (item_ok (primary_height depth + 1)) children →
  parsed (primary_height depth + 2) toks (parse_and (S fuel) depth children toks).
Proof.
  intros IH Ht Hd Hf Hc. cbn [parse_and].
  assert (∀ toks, Forall tok_ok toks →
            parsed (primary_height depth + 2) toks (Ok (collapse children false, toks))) as Hstop.
  { intros l Hl. replace (primary_height depth + 2)%nat with (S (primary_height depth + 1)) by lia.
    by apply collapsed. }
  assert (parsed (primary_height depth + 2) toks
    ('(n, toks) ← parse_unary fuel depth toks;
     match n with
     | Some n => parse_and fuel depth (children ++ [n]) toks
     | None => Ok (collapse children false, toks)
     end)) as Hunary.
  { destruct (IH depth toks Ht Hd) as (_ & _ & _ & Hun & _).
    destruct Hun as (n & lo & -> & Hlo & Hle & Hx); [lia|]. cbn [mbind result_bind].
    apply (parsed_weaken _ _ lo); [done|]. destruct n as [n|]; [|by apply Hstop].
    destruct (Hx n eq_refl) as [Hn Hlt]. destruct (IH depth lo Hlo Hd) as (_ & _ & Hand & _).
    apply Hand; [lia|]. apply Forall_app. split; [done|by constructor]. }
  destruct toks as [|t toks]; [by apply Hstop|].
  destruct t; try exact Hunary; try (by apply Hstop).
  apply (parsed_weaken _ _ toks); [cbn; lia|]. apply Forall_inv_tail in Ht. cbn [List.length] in Hf.
  destruct (IH depth toks Ht Hd) as (_ & _ & Hand & _). apply Hand; [lia|done].
Qed.

Lemma parse_unary_step fuel depth toks :
  step_ok fuel → Forall tok_ok toks → (depth ≤ MAX_DEPTH)%nat →
  (6 * List.length toks + 2 ≤ S fuel)%nat →
  consumed (primary_height depth + 1) toks (parse_unary (S fuel) depth toks).
Proof.
  intros IH Ht Hd Hf. cbn [parse_unary]. destruct (skip_nots_ok false toks Ht) as [Hs Hl].
  destruct (skip_nots false toks) as [negated rest]. cbn [snd] in *.
  destruct (IH depth rest Hs Hd) as (_ & _ & _ & _ & Hp).
  destruct Hp as (n & lo & -> & Hlo & Hle & Hx); [lia|]. cbn [mbind result_bind].
  eexists _, lo. split_and!; [done..|lia|]. intros x Hn. destruct n as [n|]; [|done].
  injection Hn as <-. destruct (Hx n eq_refl) as [Hok Hlt]. split; [|lia].
  replace (primary_height depth + 1)%nat with (S (primary_height depth)) by lia. by apply negate_ok.
Qed.

Lemma drop_rparen_ok toks :
  Forall tok_ok toks →
  let rest := match toks with TRParen :: toks => toks | _ => toks end in
  Forall tok_ok rest ∧ (List.length rest ≤ List.length toks)%nat.
Proof. intros Ht. destruct Ht as [|[] toks]; cbn; auto. Qed.

Lemma parse_primary_step fuel depth toks :
  step_ok fuel → Forall tok_ok toks → (depth ≤ MAX_DEPTH)%nat →
  (6 * List.length toks + 1 ≤ S fuel)%nat →
  consumed (primary_height depth) toks (parse_primary (S fuel) depth toks).
Proof.
  intros IH Ht Hd Hf. cbn [parse_primary].
  destruct toks as [|t toks]; [by exists None, []|].
  apply Forall_cons in Ht as [Htok Ht]. cbn [List.length] in Hf.
  assert (consumed (primary_height depth) (t :: toks) (parse_primary fuel depth toks)) as Hskip.
  { apply (consumed_weaken _ _ toks); [cbn; lia|].
    destruct (IH depth toks Ht Hd) as (_ & _ & _ & _ & Hp). apply Hp. lia. }
  assert (∀ n, item_ok 2 n → consumed (primary_height depth) (t :: toks) (Ok (Some n, toks))) as Hleaf.
  { intros n Hn. exists (Some n), toks. split_and!; [done..|cbn; lia|]. intros x [= <-].
    split; [|cbn; lia]. eapply item_ok_mono; [|done]. unfold primary_height. lia. }
  destruct t as [| | | | |s|field op values]; try exact Hskip.
  - destruct (Nat.leb_spec MAX_DEPTH depth) as [|Hlt]; [exact Hskip|].
    destruct (IH (S depth) toks Ht ltac:(lia)) as [Hor _].
    destruct Hor as (n & lo & -> & Hlo & Hle & Hx); [lia|]. cbn [mbind result_bind].
    destruct (drop_rparen_ok lo Hlo) as [Hr Hrl]. eexists _, _. split_and!; [done..|cbn; lia|].
    intros x Hn. split; [|cbn; lia]. eapply item_ok_mono; [|by apply Hx]. unfold primary_height. lia.
  - exists None, toks. split_and!; [done..|cbn; lia|done].
  - apply Hleaf. right. split; [|cbn; lia]. cbn in Htok |- *. by rewrite Htok.
  - destruct Htok as [Hf' Hv]. destruct (field_leaf_ok field op values Hf' Hv) as (n & -> & Hn).
    by apply Hleaf.
Qed.

Lemma step_all_ok fuel : step_ok fuel.
Proof.
  induction fuel as [|fuel IH]; intros depth toks Ht Hd len; [unfold len; split_and!; intros; lia|].
  split_and!.
  - intros Hf. cbn [parse_or]. apply (or_step fuel depth toks []); [done..|lia|done].
  - intros children Hf Hc. by apply or_loop_step.
  - intros children Hf Hc. by apply parse_and_step.
  - intros Hf. by apply parse_unary_step.
  - intros Hf. by apply parse_primary_step.
Qed.

Lemma parse_all_ok fuel nodes toks :
  Forall tok_ok toks → Forall (item_ok 101) nodes → (List.length toks < fuel)%nat →
  ∃ out, parse_all fuel nodes toks = Ok out ∧ Forall (item_ok 101) out.
Proof.
  revert nodes toks. induction fuel as [|fuel IH]; intros nodes toks Ht Hn Hf; [lia|].
  destruct toks as [|t rest]; [by exists nodes|]. cbn [parse_all].
  destruct (step_all_ok (parse_fuel (t :: rest)) 0 (t :: rest) Ht ltac:(lia)) as [Hor _].
  destruct Hor as (n & lo & -> & Hlo & Hle & Hx); [unfold parse_fuel; lia|]. cbn [mbind result_bind].
  apply IH.
  - destruct (_ =? _)%nat; [by apply Forall_inv_tail in Ht|done].
  - apply Forall_app. split; [done|]. by apply Forall_option_list.
  - destruct (Nat.eqb_spec (List.length lo) (List.length (t :: rest))); cbn [List.length] in *; lia.
Qed.

(** C36. Every query parses: whatever the text, the parser returns a tree, without
    a panic, and the tree is either empty or in normal form: it has no empty
    part, every conjunction and disjunction has at least two members, every
    filter names a registered field and carries at least one non-empty
    value (exactly one unless it is a membership test; "true" or "false" for
    a boolean field), no free text is blank, and however deeply the text
    nests, the tree is at most 102 levels high. *)
Theorem parse_normal_form input :
  ∃ n, parse input = Ok n ∧ (n = NEmpty ∨ node_wf n = true ∧ (height n ≤ 102)%nat).
Proof.
  unfold parse. destruct (is_empty (trim input)); [exists NEmpty; auto|].
  destruct (parse_all_ok (S (List.length (tokenize (trim input)))) [] (tokenize (trim input)))
    as (out & -> & Hout); [apply tokenize_ok|done|lia|]. cbn [mbind result_bind].
  eexists. split; [done|]. destruct (collapse out false) as [n|] eqn:E; [|by left].
  right. by apply (collapse_ok 101 out false).
Qed.

(** ** Facts: the lexer's fuel *)

Lemma joined_retain w : joined (retain_segs w) = joined w.
Proof.
  induction w as [|[s q] w IH]; [done|]. cbn [retain_segs List.filter fst snd joined fold_right].
  destruct (is_empty s) eqn:E; cbn [negb orb].
  - apply String.eqb_eq in E as ->. destruct q; cbn [joined fold_right fst]; apply IH.
  - cbn [joined fold_right fst]. f_equal. apply IH.
Qed.

Lemma strip_negation_shorter w w' :
  strip_negation w = Some w' → (String.length (joined w') < String.length (joined w))%nat.
Proof.
  destruct w as [|[first []] segs]; cbn [strip_negation]; [done..|].
  destruct (strip_prefix "not:" first) as [r|] eqn:E; cbn [mbind option_bind].
  - intros Hw. assert (w' = retain_segs ((r, false) :: segs)) as -> by congruence.
    apply strip_prefix_spec in E as ->. rewrite joined_retain.
    cbn [joined fold_right fst]. rewrite !length_app_s. cbn. lia.
  - destruct (strip_prefix "-" first) as [r|] eqn:E2; [|done]. cbn [mbind option_bind].
    intros Hw. assert (w' = retain_segs ((r, false) :: segs)) as -> by congruence.
    apply strip_prefix_spec in E2 as ->. rewrite joined_retain.
    cbn [joined fold_right fst]. rewrite !length_app_s. cbn. lia.
Qed.

(** The word the loop ends on strips no further, or is the lone dash. *)
Definition settled (w : Word) : Prop := plain w = Some "-" ∨ strip_negation w = None.

Lemma strip_negations_settled fuel b w :
  (String.length (joined w) < fuel)%nat → settled (strip_negations fuel b w).2.
Proof.
  revert b w. induction fuel as [|fuel IH]; intros b w Hf; [lia|]. cbn [strip_negations].
  destruct (plain w) as [p|] eqn:Ep; [destruct (String.eqb_spec p "-") as [Hp|_]; [subst p; by left|]|];
    (destruct (strip_negation w) as [w'|] eqn:E; [|by right]);
    apply IH; apply strip_negation_shorter in E; lia.
Qed.

Lemma classify_settled fuel w : settled w → classify_from (S fuel) w = classify_from 1 w.
Proof.
  intros Hs. cbn [classify_from]. destruct (fully_quoted w); [done|].
  destruct (plain w ≫= keyword) as [[]|] eqn:Ek; [done..|].
  destruct Hs as [Hp | ->]; [|done]. by rewrite Hp in Ek.
Qed.

(** Two calls are all [classify_word] ever makes. *)
Lemma classify_enough fuel w : classify_from (S (S fuel)) w = classify_word w.
Proof.
  unfold classify_word. cbn [classify_from]. destruct (fully_quoted w); [done|].
  destruct (plain w ≫= keyword) as [[]|]; [done..|].
  destruct (strip_negation w) as [rest|] eqn:E; [|done].
  pose proof (strip_negations_settled (String.length (joined w)) true rest) as Hs.
  apply strip_negation_shorter in E. destruct (strip_negations _ true rest) as [negated rest'].
  f_equal. change (classify_from (S fuel) rest' = classify_from 1 rest'). apply classify_settled, Hs. lia.
Qed.

Lemma collect_shorter raw : (List.length (collect_in_list raw).2 ≤ List.length raw)%nat.
Proof.
  induction raw as [|[| |w] raw IH]; cbn; [lia..|]. destruct (collect_in_list raw). cbn in *. lia.
Qed.

Lemma tokenize_enough fuel raw :
  (List.length raw < fuel)%nat → tokenize_from fuel raw = tokenize_from (S (List.length raw)) raw.
Proof.
  revert raw. induction fuel as [fuel IH] using lt_wf_ind. intros raw Hf.
  destruct fuel as [|fuel]; [lia|]. destruct raw as [|t raw]; [done|]. cbn [List.length] in *.
  assert (∀ r, (List.length r ≤ List.length raw)%nat →
            tokenize_from fuel r = tokenize_from (S (List.length raw)) r) as Hrest.
  { intros r Hr. transitivity (tokenize_from (S (List.length r)) r);
      [apply IH; lia|symmetry; apply IH; lia]. }
  change (tokenize_from (S fuel) (t :: raw) = tokenize_from (S (S (List.length raw))) (t :: raw)).
  cbn [tokenize_from]. destruct t as [| |w]; [by rewrite Hrest..|].
  destruct (match_in_list_head w raw) as [[field rest]|] eqn:E; [|by rewrite Hrest].
  pose proof (collect_shorter rest) as Hc. destruct (collect_in_list rest) as [values rest'].
  apply match_in_list_head_spec in E as (_ & kw & ->). rewrite Hrest; [done|]. cbn in *. lia.
Qed.

(** ** Facts: quoted filters *)

(** A string that does not begin inside a character. *)
Definition starts_char (s : string) : bool :=
  match s with String c _ => negb (is_continuation c) | "" => true end.

Definition flatten (l : list string) : string := fold_right String.append "" l.

Lemma uchars_cons c r :
  uchars (String c r) =
  match uchars r with
  | [] => [String c ""]
  | h :: t => if starts_char r then String c "" :: h :: t else String c h :: t
  end.
Proof.
  cbn [uchars]. destruct (uchars r) as [|h t] eqn:E; [done|]. destruct r as [|d r]; [done|].
  cbn [starts_char]. by destruct (is_continuation d).
Qed.

Lemma flatten_uchars s : flatten (uchars s) = s.
Proof.
  induction s as [|c s IH]; [done|]. rewrite uchars_cons. destruct (uchars s) as [|h t]; cbn in IH |- *.
  - by rewrite <-IH.
  - destruct (starts_char s); cbn; by rewrite IH.
Qed.

Lemma uchars_app a b : starts_char b = true → uchars (a ++s b) = uchars a ++ uchars b.
Proof.
  intros Hb. induction a as [|c a IH]; [done|]. cbn [String.append]. rewrite !uchars_cons, IH.
  destruct a as [|d a].
  - cbn [uchars app String.append]. destruct (uchars b) as [|h t]; [done|]. by rewrite Hb.
  - cbn [String.append starts_char]. rewrite uchars_cons. destruct (uchars a) as [|h t]; cbn [app].
    + by destruct (negb (is_continuation d)).
    + destruct (starts_char a); cbn [app]; by destruct (negb (is_continuation d)).
Qed.

(** No character of a quote-free text is the quote. *)
Lemma uchars_no_quote s :
  all_chars (λ c, negb (Ascii.eqb c dquote)) s = true → Forall (λ c, (c ==s dq) = false) (uchars s).
Proof.
  induction s as [|c s IH]; [done|]. cbn [all_chars]. intros [Hc Hs]%andb_true_iff.
  specialize (IH Hs). assert (∀ r, (String c r ==s dq) = false) as Hne.
  { intros r. apply String.eqb_neq. intros [= -> _]. done. }
  rewrite uchars_cons. destruct (uchars s) as [|h t]; [by constructor|].
  destruct (starts_char s); [by constructor|]. apply Forall_inv_tail in IH. by constructor.
Qed.

Definition word_char (c : string) : bool :=
  negb (c ==s dq) && negb (c ==s "(") && negb (c ==s ")") && negb (is_ws_char c).

Lemma lex_unquoted st cs :
  lx_in_quote st = false → forallb word_char cs = true →
  foldl lex_char st cs = mkLex (lx_out st) (lx_segs st) (lx_cur st ++s flatten cs) false.
Proof.
  revert st. induction cs as [|c cs IH]; intros [out segs cur q] Hq Hcs; cbn [lx_in_quote] in Hq; subst q; cbn [foldl].
  - cbn. by rewrite app_nil_s.
  - cbn [forallb] in Hcs. apply andb_true_iff in Hcs as [Hc Hcs]. unfold word_char in Hc.
    rewrite !andb_true_iff, !negb_true_iff in Hc. destruct Hc as [[[H1 H2] H3] H4].
    unfold lex_char at 2. rewrite H1, H2, H3, H4. cbn [orb andb lx_out lx_segs lx_cur lx_in_quote].
    rewrite IH by done. cbn. by rewrite app_assoc_s.
Qed.

Lemma lex_in_quotes st cs :
  lx_in_quote st = true → Forall (λ c, (c ==s dq) = false) cs →
  foldl lex_char st cs = mkLex (lx_out st) (lx_segs st) (lx_cur st ++s flatten cs) true.
Proof.
  revert st. induction cs as [|c cs IH]; intros [out segs cur q] Hq Hcs; cbn [lx_in_quote] in Hq; subst q; cbn [foldl].
  - cbn. by rewrite app_nil_s.
  - apply Forall_cons in Hcs as [Hc Hcs]. unfold lex_char at 2. rewrite Hc.
    cbn [lx_out lx_segs lx_cur lx_in_quote]. rewrite !andb_false_r. rewrite IH by done. cbn. by rewrite app_assoc_s.
Qed.

Lemma lex_open out segs cur :
  is_empty cur = false →
  lex_char (mkLex out segs cur false) dq = mkLex out (segs ++ [(cur, false)]) "" true.
Proof. intros Hc. unfold lex_char, flush_seg. rewrite String.eqb_refl. cbn [lx_cur lx_in_quote]. by rewrite Hc. Qed.

Lemma lex_close out segs cur :
  lex_char (mkLex out segs cur true) dq = mkLex out (segs ++ [(cur, true)]) "" false.
Proof. unfold lex_char, flush_seg. rewrite String.eqb_refl. cbn [lx_cur lx_in_quote]. by rewrite orb_true_r. Qed.

(** A word with a quoted tail is two runs. *)
Lemma lex_quoted first v :
  forallb word_char (uchars first) = true → first ≠ "" → starts_char v = true →
  all_chars (λ c, negb (Ascii.eqb c dquote)) v = true →
  raw_lex (first ++s dq ++s v ++s dq) = [RWord [(first, false); (v, true)]].
Proof.
  intros Hf Hne Hv Hq. unfold raw_lex.
  rewrite (uchars_app first), (uchars_app dq), (uchars_app v) by (done || by destruct v).
  rewrite !foldl_app. rewrite (lex_unquoted (mkLex [] [] "" false)) by done.
  rewrite flatten_uchars. cbn [lx_out lx_segs lx_cur String.append].
  change (uchars dq) with [dq]. cbn [foldl]. rewrite lex_open by (by apply String.eqb_neq).
  rewrite lex_in_quotes by (done || by apply uchars_no_quote). rewrite flatten_uchars.
  cbn [lx_out lx_segs lx_cur String.append]. by rewrite lex_close.
Qed.

(** A filter as it is written with a quoted value. *)
Definition quoted_filter (field pat v : string) : string := (field ++s pat) ++s dq ++s v ++s dq.

(** What it means. *)
Definition filter_node (def : FieldDef) (op : OpCode) (v : string) : Node :=
  match op with
  | OEq => NFilter (mkFilter (fd_name def) FEq [v])
  | OIn => NFilter (mkFilter (fd_name def) FIn [v])
  | Colon => NFilter (mkFilter (fd_name def) (fd_default_op def) [v])
  | NotEq | NotContains => NNot (NFilter (mkFilter (fd_name def) (fd_default_op def) [v]))
  end.

(** The facts about a written field the lexer and the tokenizer use. *)
Definition filter_token_ok (def : FieldDef) (pat : string) (op : OpCode) (v : string) : Prop :=
  let first := fd_name def ++s pat in
  forallb word_char (uchars first) = true ∧
  (∃ c r, first = String c r ∧ visible c = true) ∧
  plain [(first, false); (v, true)] = None ∧
  strip_negation [(first, false); (v, true)] = None ∧
  split_op [(first, false); (v, true)] = Some (fd_name def, op, [(v, true)]) ∧
  resolve_field (fd_name def) = Some def.

Lemma filter_tokens_ok def pat op v :
  In def FIELDS → In (pat, op) OPS → filter_token_ok def pat op v.
Proof.
  intros Hd Ho. unfold filter_token_ok. cbv zeta.
  unfold FIELDS, OPS in *. cbn [In] in Hd, Ho.
  repeat match goal with H : _ ∨ _ |- _ => destruct H as [H|H] end; try done; subst def;
    injection Ho as <- <-.
  all: split_and!; [reflexivity|eexists _, _; split; reflexivity|reflexivity..|by destruct v|reflexivity].
Qed.

(** A lone filter token parses to its leaf. *)
Lemma parse_lone_field fuel depth field op values n :
  field_leaf field op values = Some n → node_is_empty n = false →
  parse_or (S (S (S (S fuel)))) depth [TField field op values] = Ok (Some n, []).
Proof.
  intros Hl Hn.
  assert (∀ or, collapse [n] or = Some n) as Hc by (intros or; unfold collapse; cbn [List.filter]; by rewrite Hn).
  assert (parse_primary (S fuel) depth [TField field op values] = Ok (Some n, [])) as Hp
    by (cbn [parse_primary]; by rewrite Hl).
  assert (parse_unary (S (S fuel)) depth [TField field op values] = Ok (Some n, [])) as Hu.
  { cbn [parse_unary skip_nots]. rewrite Hp. cbn. by destruct n. }
  assert (parse_and (S (S (S fuel))) depth [] [TField field op values] = Ok (Some n, [])) as Ha.
  { remember (S (S fuel)) as f eqn:Hf. cbn [parse_and]. rewrite Hu, Hf.
    cbn [mbind result_bind parse_and app]. by rewrite Hc. }
  remember (S (S (S fuel))) as f eqn:Hf. cbn [parse_or]. rewrite Ha, Hf.
  cbn [mbind result_bind or_loop option_list]. by rewrite Hc.
Qed.

Lemma parse_lone_filter field op values n :
  field_leaf field op values = Some n → node_is_empty n = false →
  (nodes ← parse_all 2 [] [TField field op values]; Ok (default NEmpty (collapse nodes false))) = Ok n.
Proof.
  intros Hl Hn. cbn [parse_all]. unfold parse_fuel. cbn [List.length Nat.mul Nat.add].
  rewrite (parse_lone_field 8 0 _ _ _ n Hl Hn).
  change ((λ nodes, Ok (default NEmpty (collapse nodes false)) : result Stop Node) [n] = Ok n).
  unfold collapse. cbn [List.filter]. by rewrite Hn.
Qed.

(** A filter written with a quoted value means exactly that filter: for every
    registered field that is not boolean and each of the four operators, with
    any value free of quotes and of surrounding whitespace, the text
    [field op "value"] parses to the filter on that field with that one value,
    whatever operators, commas, parentheses or keywords the value contains. *)
Theorem quoted_filter_exact def pat op v :
  In def FIELDS → In (pat, op) OPS → fd_ty def ≠ TyBool →
  v ≠ "" → trim v = v → starts_char v = true →
  all_chars (λ c, negb (Ascii.eqb c dquote)) v = true →
  parse (quoted_filter (fd_name def) pat v) = Ok (filter_node def op v).
Proof.
  intros Hd Ho Hty Hne Htrim Hstart Hq.
  destruct (filter_tokens_ok def pat op v Hd Ho) as (Hlex & (c & r & Hfirst & Hc) & Hplain & Hneg & Hop & Hres).
  unfold parse, quoted_filter. set (first := fd_name def ++s pat) in *.
  assert (trim (first ++s dq ++s v ++s dq) = first ++s dq ++s v ++s dq) as ->.
  { rewrite Hfirst. change (dq ++s v ++s dq) with ((dq ++s v) ++s dq). rewrite <-app_assoc_s.
    by apply (trim_visible c (r ++s dq ++s v) dquote ""). }
  rewrite Hfirst at 1. cbn [String.append is_empty String.eqb].
  unfold tokenize. rewrite lex_quoted by (done || rewrite Hfirst; done).
  cbn [List.length tokenize_from]. unfold match_in_list_head. rewrite Hplain. cbn [mbind option_bind].
  unfold classify_word. cbn [classify_from fully_quoted forallb snd andb].
  rewrite Hplain. cbn [mbind option_bind]. rewrite Hneg, Hop, Hres.
  assert (split_values [(v, true)] = [v]) as ->.
  { unfold split_values. cbn [split_values_from String.append fmap list_fmap List.filter].
    rewrite Htrim. by destruct v. }
  cbn [app List.length]. apply parse_lone_filter; [|by destruct op].
  unfold field_leaf. rewrite Hres. cbn [mbind option_bind]. rewrite bool_decide_eq_false_2 by done.
  by destruct op.
Qed.

Lemma quoted_filter_exact_witness :
  parse (quoted_filter "title" "!=" "(a, b) OR c=d") =
  Ok (NNot (NFilter (mkFilter "title" FContains ["(a, b) OR c=d"]))).
Proof.
  apply (quoted_filter_exact (mkField "title" ["name"] TyStr FContains []) "!=" NotEq); try done.
  - by do 3 right; left.
  - by left.
Defined.
