(* ===== verification/ToolGuard.v ===== *)
(** * The gateway's tool-call guard ([cctui-server-core/src/gateway/toolguard.rs])

    A model response passes through the gateway to the agent's harness.  From a
    message's first tool call to its end the stream is held back; then every
    call is scanned against the account's policy, and either the held bytes are
    released or the message is rewritten into an explanation.  The regex crate,
    Unicode case mapping, JSON text and the content hash are parameters.  A
    response body is a byte string that arrives in chunks. *)

From stdpp Require Import base decidable list gmap strings.
From Stdlib Require Import Lia ZArith Bool Ascii String.
From S2P Require Import Prelude RustStr Json Http.

(** ** Parameters *)

(** Patterns by their text: whether one compiles, the first match, and for the
    two built-in ones the matches with their first group. *)
Class Regexes := {
  regex_ok : string → bool;
  regex_find : string → string → option string;
  cross_refs : string → list (string * string);
  github_urls : string → list (string * string);
}.

(** [str::to_lowercase]. *)
Class LowerText := to_lowercase : string → string.

(** [auth::sha256_hex]. *)
Class Sha256 := sha256_hex : string → string.

(** ** Small helpers *)

Definition one_of (s : string) (l : list string) : bool := existsb (String.eqb s) l.

(** [v.pointer("/a/b")] for two object keys. *)
Definition pointer2 (a b : string) (v : Value) : option Value := jget a v ≫= jget b.

Definition value_type (v : Value) : string := default "" (get_str "type" v).

(** ** Policies *)

Record ToolPolicy := mkToolPolicy {
  tp_terms : list string;
  tp_patterns : list string;
  tp_protected_owners : list string;
  tp_exempt_roots : list string;
}.

Definition MAX_PATTERN_LEN : nat := 512.
Definition MAX_ENTRIES : nat := 256.
Definition MAX_DECODE_DEPTH : nat := 4.

Inductive PolicyError := TooMany (what : string) | PatternTooLong | InvalidPattern (p : string)
                       | RootNotAbsolute (r : string).

(** Trim, drop blanks and duplicates. *)
Definition clean_list (l : list string) : list string :=
  foldl (λ out s, let s := trim s in
    if negb (is_empty s) && negb (one_of s out) then out ++ [s] else out) [] l.

Definition clean (what : string) (l : list string) : result PolicyError (list string) :=
  let out := clean_list l in
  if (MAX_ENTRIES <? List.length out)%nat then Err (TooMany what) else Ok out.

Fixpoint resolve_components (out : list string) (parts : list string) : list string :=
  match parts with
  | [] => out
  | c :: parts =>
    if is_empty c || (c ==s ".") then resolve_components out parts
    else if c ==s ".." then resolve_components (removelast out) parts
    else resolve_components (out ++ [c]) parts
  end.

Definition path_components (path : string) : option (list string) :=
  if starts_with "/" path then Some (resolve_components [] (split (Ascii.eqb "/") path)) else None.

Definition normalize_root (root : string) : string :=
  match path_components root with Some c => "/" ++s join "/" c | None => root end.

Definition normalize_policy `{Regexes} (p : ToolPolicy) : result PolicyError ToolPolicy :=
  terms ← clean "terms" (tp_terms p);
  patterns ← clean "patterns" (tp_patterns p);
  owners ← clean "protected owners" (tp_protected_owners p);
  roots ← clean "exempt roots" (tp_exempt_roots p);
  let roots := List.filter (λ r, negb (r ==s "/")) (normalize_root <$> roots) in
  match find_map (λ p, if (MAX_PATTERN_LEN <? String.length p)%nat then Some PatternTooLong
                       else if regex_ok p then None else Some (InvalidPattern p)) patterns with
  | Some e => Err e
  | None =>
    match find (λ r, negb (starts_with "/" r)) roots with
    | Some r => Err (RootNotAbsolute r)
    | None => Ok (mkToolPolicy terms patterns owners roots)
    end
  end.

Definition is_inert (p : ToolPolicy) : bool :=
  match tp_terms p, tp_patterns p, tp_protected_owners p with [], [], [] => true | _, _, _ => false end.

Record CompiledPolicy := mkCompiled {
  cp_terms : list string;
  cp_patterns : list string;
  cp_owners : list string;
  cp_exempt_roots : list string;
}.

Record Hit := mkHit { hit_rule : string; hit_matched : string }.

Definition compile_policy `{Regexes, LowerText} (p : ToolPolicy) : option CompiledPolicy :=
  if is_inert p then None
  else Some (mkCompiled
    (List.filter (λ t, negb (is_empty t)) (to_lowercase <$> tp_terms p))
    (List.filter regex_ok (tp_patterns p))
    (to_lowercase <$> tp_protected_owners p)
    (tp_exempt_roots p)).

Fixpoint is_prefix (a b : list string) : bool :=
  match a, b with
  | [], _ => true
  | x :: a, y :: b => (x ==s y) && is_prefix a b
  | _, _ => false
  end.

Definition exempts_cwd (p : CompiledPolicy) (cwd : option string) : bool :=
  match cwd ≫= path_components with
  | None => false
  | Some cwd => existsb (λ root, is_prefix root cwd) (omap path_components (cp_exempt_roots p))
  end.

Definition scan_str `{Regexes, LowerText} (p : CompiledPolicy) (s : string) : option Hit :=
  or_else (find_map (λ t, if contains t (to_lowercase s) then Some (mkHit "denylist" t) else None)
             (cp_terms p))
  (or_else (find_map (λ re, m ← regex_find re s; Some (mkHit "pattern" m)) (cp_patterns p))
     (match cp_owners p with
      | [] => None
      | owners => find_map (λ '(owner, whole),
          if one_of (to_lowercase owner) owners then Some (mkHit "cross_repo" whole) else None)
          (cross_refs s ++ github_urls s)
      end)).

(** [scan_value_at], with the decoding depth that is left. *)
Fixpoint scan_value_at `{Regexes, LowerText, JsonText} (budget : nat) (p : CompiledPolicy) :
    Value → option Hit :=
  fix go (v : Value) : option Hit :=
    match v with
    | JStr s =>
      or_else (scan_str p s)
        (let t := trim_start s in
         match budget with
         | 0%nat => None
         | S budget =>
           if starts_with "{" t || starts_with "[" t
           then d ← json_from_str s; scan_value_at budget p d
           else None
         end)
    | JArr l =>
      (fix elems l := match l with [] => None | x :: l => or_else (go x) (elems l) end) l
    | JObj o =>
      (fix vals o := match o with [] => None | (_, x) :: o => or_else (go x) (vals o) end) o
    | _ => None
    end.

Definition scan_value `{Regexes, LowerText, JsonText} (p : CompiledPolicy) (v : Value) : option Hit :=
  scan_value_at MAX_DECODE_DEPTH p v.

(** ** Exempt tools *)

Definition LOCAL_CCTUI_TOOLS : list string :=
  ["CctuiContext"; "CctuiHistory"; "CctuiPeers"; "CctuiUsage"; "CctuiUserActionAdd";
   "CctuiUserActionTick"; "CctuiAgent"; "CctuiAgentArchive"].

Definition exempt_tool (name : string) (input : Value) : bool :=
  match or_else (strip_prefix "mcp__cctui__" name) (strip_prefix "cctui_" name) with
  | None => false
  | Some tool =>
    if tool ==s "CctuiSend" then
      match get_str "session_id" input with
      | Some id => negb (starts_with "remote:" (trim id))
      | None => false
      end
    else one_of tool LOCAL_CCTUI_TOOLS
  end.

Definition qualified_name (name : string) (namespace : option string) : string :=
  match namespace with
  | Some ns => if is_empty ns then name else ns ++s "__" ++s name
  | None => name
  end.

(** [serde_json::from_str(s).unwrap_or_default()]. *)
Definition decode_or_null `{JsonText} (s : string) : Value := default JNull (json_from_str s).

Definition decode_input `{JsonText} (v : Value) : Value :=
  match as_str v with Some s => decode_or_null s | None => v end.

Definition stars (n : nat) : string := fold_right (λ _ s, String "*" s) "" (seq 0 n).

Definition mask (s : string) : string :=
  let chars := uchars s in
  match chars with
  | [] => ""
  | [_] => stars 1
  | [_; _] => stars 2
  | first :: rest =>
    first ++s stars (Nat.min (List.length chars - 2) 8) ++s List.last rest ""
  end.

Definition explanation (tool : string) (hit : Hit) : string :=
  "⛔ cctui blocked a " ++s tool ++s " call: it contains a forbidden term (" ++s
  String dquote (mask (hit_matched hit)) ++s
  String dquote "). Rewrite it without internal references.".

Record Block := mkBlock { bk_tool_name : string; bk_rule : string; bk_input_sha256 : string }.

Definition Block_new `{Sha256} (tool : string) (hit : Hit) (input : string) : Block :=
  mkBlock tool (hit_rule hit ++s ":" ++s mask (hit_matched hit)) (sha256_hex input).

(** ** Server-sent events *)

Inductive Wire := Anthropic | Responses | Chat | Gemini.

Record SseEvent := mkEvent { ev_raw : string; ev_name : option string; ev_data : string }.

Definition strip_space (v : string) : string := default v (strip_prefix " " v).

(** One line of an event: its name, or another line of data. *)
Definition event_line (st : option string * option string) (line : string) :
    option string * option string :=
  let line := strip_cr line in
  match strip_prefix "event:" line with
  | Some v => (Some (strip_space v), st.2)
  | None =>
    match strip_prefix "data:" line with
    | Some v =>
      let v := strip_space v in
      (st.1, Some (match st.2 with Some d => d ++s nl ++s v | None => v end))
    | None => st
    end
  end.

Definition SseEvent_parse (raw : string) : SseEvent :=
  let '(name, data) := foldl event_line (None, None) (split_char newline (from_utf8_lossy raw)) in
  mkEvent raw name (default "" data).

Definition event_json `{JsonText} (ev : SseEvent) : option Value :=
  let d := trim (ev_data ev) in
  if is_empty d || (d ==s "[DONE]") then None else json_from_str d.

(** [event_end]: the first complete event with its terminator, and the rest. *)
Fixpoint split_event (buf : string) : option (string * string) :=
  match buf with
  | "" => None
  | String c r =>
    let later := '(e, rest) ← split_event r; Some (String c e, rest) in
    if Ascii.eqb c newline then
      match r with
      | String d r1 =>
        if Ascii.eqb d newline then Some (String c (String d ""), r1)
        else match r1 with
             | String e r2 =>
               if Ascii.eqb d creturn && Ascii.eqb e newline
               then Some (String c (String d (String e "")), r2) else later
             | "" => later
             end
      | "" => later
      end
    else later
  end.

Definition frame `{JsonText} (name : option string) (data : Value) : string :=
  match name with Some n => "event: " ++s n ++s nl | None => "" end ++s
  "data: " ++s json_to_string data ++s nl ++s nl.

(** ** Calls *)

Record Call := mkCall {
  ca_key : string;
  ca_position : Z;
  ca_name : string;
  ca_initial : option Value;
  ca_input : string;
  ca_done_item : option Value;
}.

Definition call_exempt `{JsonText} (wire : option Wire) (c : Call) : bool :=
  let decoded := decode_or_null (ca_input c) in
  match wire with
  | Some Responses =>
    let item := or_else (ca_done_item c) (ca_initial c) in
    let namespace := item ≫= get_str "namespace" in
    let args (i : option Value) := decode_input <$> (i ≫= jget "arguments") in
    let input := default JNull (or_else (args (ca_done_item c))
                   (or_else (if is_empty (ca_input c) then None else Some decoded)
                      (args (ca_initial c)))) in
    exempt_tool (qualified_name (ca_name c) namespace) input
  | Some Chat => exempt_tool (ca_name c) decoded
  | Some Anthropic | Some Gemini | None =>
    exempt_tool (ca_name c)
      (if is_empty (ca_input c) then default JNull (ca_initial c) else decoded)
  end.

Definition call_scan `{Regexes, LowerText, JsonText} (p : CompiledPolicy) (c : Call) :
    option (Hit * string) :=
  let decoded := if is_empty (ca_input c) then None else json_from_str (ca_input c) in
  hit ← or_else (ca_done_item c ≫= scan_value p)
        (or_else (decoded ≫= scan_value p)
        (or_else (match decoded with
                  | None => if is_empty (ca_input c) then None else scan_str p (ca_input c)
                  | Some _ => None
                  end)
           (ca_initial c ≫= scan_value p)));
  Some (hit, if is_empty (ca_input c)
             then default "" (json_to_string <$> or_else (ca_done_item c) (ca_initial c))
             else ca_input c).

Definition ANTHROPIC_TOOL_BLOCKS : list string := ["tool_use"; "server_tool_use"; "mcp_tool_use"].
Definition RESPONSES_TOOL_ITEMS : list string :=
  ["function_call"; "custom_tool_call"; "local_shell_call"; "shell_call"; "apply_patch_call"; "mcp_call"].
Definition RESPONSES_END : list string :=
  ["response.completed"; "response.incomplete"; "response.failed"].

(** ** The streaming guard *)

Record SseGuard := mkGuard {
  sg_pending : string;
  sg_held : list SseEvent;
  sg_wire : option Wire;
  sg_calls : list Call;
  sg_blocks : list Block;
}.

Definition SseGuard_new : SseGuard := mkGuard "" [] None [] [].

Inductive Step := Pass | Hold | End.

Definition holding (g : SseGuard) : bool := match sg_held g with [] => false | _ => true end.

Definition with_calls (g : SseGuard) (calls : list Call) : SseGuard :=
  mkGuard (sg_pending g) (sg_held g) (sg_wire g) calls (sg_blocks g).

Definition has_call (key : string) (calls : list Call) : bool :=
  existsb (λ c, ca_key c ==s key) calls.

(** [call_mut(key)] with an update of the call, if there is one. *)
Fixpoint update_call (key : string) (f : Call → Call) (calls : list Call) : list Call :=
  match calls with
  | [] => []
  | c :: calls => if ca_key c ==s key then f c :: calls else c :: update_call key f calls
  end.

Definition start_call (w : Wire) (c : Call) (g : SseGuard) : SseGuard :=
  mkGuard (sg_pending g) (sg_held g) (Some (default w (sg_wire g)))
    (if has_call (ca_key c) (sg_calls g) then sg_calls g else sg_calls g ++ [c]) (sg_blocks g).

Definition push_input (frag : string) (c : Call) : Call :=
  mkCall (ca_key c) (ca_position c) (ca_name c) (ca_initial c) (ca_input c ++s frag) (ca_done_item c).

Definition set_name (n : string) (c : Call) : Call :=
  mkCall (ca_key c) (ca_position c) n (ca_initial c) (ca_input c) (ca_done_item c).

Definition set_done (item : option Value) (c : Call) : Call :=
  mkCall (ca_key c) (ca_position c) (ca_name c) (ca_initial c) (ca_input c) item.

Definition int_or_zero (k : string) (v : Value) : Z := default 0%Z (jget k v ≫= as_i64).

Definition hold_or_pass (holding : bool) : Step := if holding then Hold else Pass.

(** [(started || holding, finished)]. *)
Definition turn_step (started holding finished : bool) : Step :=
  if started || holding then if finished then End else Hold else Pass.

Definition not_null (v : option Value) : bool :=
  match v with None | Some JNull => false | Some _ => true end.

Definition empty_call (key : string) (position : Z) : Call := mkCall key position "" None "" None.

Definition chat_tool_call (ci : Z) (g : SseGuard) (tc : Value) : SseGuard :=
  let ti := int_or_zero "index" tc in
  let key := i64_to_string ci ++s ":" ++s i64_to_string ti in
  let g := start_call Chat (empty_call key (i64w (ci * 10000 + ti))) g in
  let named c := match pointer2 "function" "name" tc ≫= as_str with
                 | Some n => if is_empty n then c else set_name n c
                 | None => c
                 end in
  let filled c := match pointer2 "function" "arguments" tc ≫= as_str with
                  | Some f => push_input f c
                  | None => c
                  end in
  with_calls g (update_call key (λ c, filled (named c)) (sg_calls g)).

Definition chat_choice (acc : SseGuard * bool * bool) (choice : Value) : SseGuard * bool * bool :=
  let '(g, started, finished) := acc in
  let tcs := default [] (pointer2 "delta" "tool_calls" choice ≫= as_array) in
  (foldl (chat_tool_call (int_or_zero "index" choice)) g tcs,
   started || match tcs with [] => false | _ => true end,
   finished || not_null (jget "finish_reason" choice)).

Definition classify_chat (choices : list Value) (h : bool) (g : SseGuard) : SseGuard * Step :=
  let '(g, started, finished) := foldl chat_choice (g, false, false) choices in
  (g, turn_step started h finished).

Definition sat_i64 (z : Z) : Z := Z.max i64_min (Z.min i64_max z).

Definition gemini_part (ci : Z) (acc : SseGuard * bool) (part : Value) : SseGuard * bool :=
  let '(g, started) := acc in
  match jget "functionCall" part with
  | None => (g, started)
  | Some call =>
    let seq := Z.of_nat (List.length (sg_calls g)) in
    let name := default "functionCall" (get_str "name" call) in
    (start_call Gemini
       (mkCall (i64_to_string ci ++s ":" ++s i64_to_string seq)
          (sat_i64 (sat_i64 (ci * 10000) + seq)) name
          (Some (default JNull (jget "args" call))) "" None) g, true)
  end.

Definition gemini_candidate (acc : SseGuard * bool * bool) (slot_candidate : nat * Value) :
    SseGuard * bool * bool :=
  let '(g, started, finished) := acc in
  let '(slot, candidate) := slot_candidate in
  let ci := default (Z.of_nat slot) (jget "index" candidate ≫= as_i64) in
  let parts := default [] (pointer2 "content" "parts" candidate ≫= as_array) in
  let '(g, started) := foldl (gemini_part ci) (g, started) parts in
  (g, started, finished || not_null (jget "finishReason" candidate)).

Definition enumerate {A} (l : list A) : list (nat * A) := zip (seq 0 (List.length l)) l.

Definition classify_gemini (candidates : list Value) (h : bool) (g : SseGuard) : SseGuard * Step :=
  let '(g, started, finished) := foldl gemini_candidate (g, false, false) (enumerate candidates) in
  (g, turn_step started h finished).

(** A call that begins an item: of which type, under which index, and where
    its first value is. *)
Definition item_call (index : Z) (ty : string) (item initial : option Value) : Call :=
  mkCall (i64_to_string index) index (default ty (item ≫= get_str "name")) initial "" None.

Definition index_key (k : string) (v : Value) : string := i64_to_string (int_or_zero k v).

Definition DELTA_TYPES : list string :=
  ["response.function_call_arguments.delta"; "response.custom_tool_call_input.delta";
   "response.mcp_call_arguments.delta"].

(** The [match ty] of [classify]. *)
Definition classify_typed (v : Value) (h : bool) (g : SseGuard) : SseGuard * Step :=
  let ty := value_type v in
  if ty ==s "content_block_start" then
    let block := jget "content_block" v in
    let bty := default "" (block ≫= get_str "type") in
    if one_of bty ANTHROPIC_TOOL_BLOCKS then
      (start_call Anthropic (item_call (int_or_zero "index" v) bty block (block ≫= jget "input")) g, Hold)
    else (g, hold_or_pass h)
  else if ty ==s "content_block_delta" then
    (match pointer2 "delta" "partial_json" v ≫= as_str with
     | Some frag => with_calls g (update_call (index_key "index" v) (push_input frag) (sg_calls g))
     | None => g
     end, hold_or_pass h)
  else if ((ty ==s "message_delta") || (ty ==s "message_stop")) && h then (g, End)
  else if ty ==s "response.output_item.added" then
    let item := jget "item" v in
    let ity := default "" (item ≫= get_str "type") in
    if one_of ity RESPONSES_TOOL_ITEMS then
      (start_call Responses (item_call (int_or_zero "output_index" v) ity item item) g, Hold)
    else (g, hold_or_pass h)
  else if one_of ty DELTA_TYPES then
    (match get_str "delta" v with
     | Some frag => with_calls g (update_call (index_key "output_index" v) (push_input frag) (sg_calls g))
     | None => g
     end, hold_or_pass h)
  else if ty ==s "response.output_item.done" then
    (with_calls g (update_call (index_key "output_index" v) (set_done (jget "item" v)) (sg_calls g)),
     hold_or_pass h)
  else if h && one_of ty RESPONSES_END then (g, End)
  else (g, hold_or_pass h).

Definition classify (json : option Value) (done_marker : bool) (g : SseGuard) : SseGuard * Step :=
  let h := holding g in
  if done_marker then (g, if h then End else Pass)
  else
    match json with
    | None => (g, hold_or_pass h)
    | Some v =>
      match jget "choices" v ≫= as_array with
      | Some choices => classify_chat choices h g
      | None =>
        match jget "candidates" v ≫= as_array with
        | Some candidates => classify_gemini candidates h g
        | None => classify_typed v h g
        end
      end
    end.

(** ** Rewriting a blocked message *)

(** [v[k] = x]: a panic, [None], on what is neither an object nor null. *)
Definition set_key (k : string) (x v : Value) : option Value :=
  match v with
  | JObj o => Some (JObj (obj_insert k x o))
  | JNull => Some (JObj [(k, x)])
  | _ => None
  end.

(** [v.get_mut(k)] with an update in place. *)
Definition update_key (k : string) (f : Value → Value) (v : Value) : Value :=
  match v with
  | JObj o => match obj_get k o with Some x => JObj (obj_insert k (f x) o) | None => v end
  | _ => v
  end.

(** An update of an object, nothing on other values. *)
Definition on_object (f : list (string * Value) → list (string * Value)) (v : Value) : Value :=
  match v with JObj o => JObj (f o) | _ => v end.

Definition on_array (f : list Value → list Value) (v : Value) : Value :=
  match v with JArr l => JArr (f l) | _ => v end.

Definition text_value (k s : string) : string * Value := (k, JStr s).

Definition typed_frame `{JsonText} (v : Value) : string := frame (get_str "type" v) v.

Definition opt_raw (e : option SseEvent) : string := match e with Some e => ev_raw e | None => "" end.

Definition gemini_blocked_candidate (text : string) : Value :=
  JObj [("content", JObj [("parts", JArr [JObj [text_value "text" text]]); text_value "role" "model"]);
        text_value "finishReason" "STOP"; ("index", jN 0)].

(** The entries of the template under the given keys. *)
Definition base_of (template : option Value) (keys : list string) : list (string * Value) :=
  match template with
  | Some (JObj t) => omap (λ k, x ← obj_get k t; Some (k, x)) keys
  | _ => []
  end.

Definition gemini_rewrite `{JsonText} (template : option Value) (text : string)
    (end_ : option SseEvent) (end_json : option Value) : string :=
  let candidates := JArr [gemini_blocked_candidate text] in
  match end_json with
  | Some (JObj o) =>
    if match obj_get "candidates" o with Some _ => true | None => false end
    then frame None (JObj (obj_insert "candidates" candidates o))
    else frame None (JObj (obj_insert "candidates" candidates
           (base_of template ["modelVersion"; "responseId"; "usageMetadata"]))) ++s opt_raw end_
  | _ =>
    frame None (JObj (obj_insert "candidates" candidates
      (base_of template ["modelVersion"; "responseId"; "usageMetadata"]))) ++s opt_raw end_
  end.

Definition anthropic_text_block `{JsonText} (index : Z) (text : string) : string :=
  typed_frame (JObj [text_value "type" "content_block_start"; ("index", jZ index);
    ("content_block", JObj [text_value "type" "text"; text_value "text" ""])]) ++s
  typed_frame (JObj [text_value "type" "content_block_delta"; ("index", jZ index);
    ("delta", JObj [text_value "type" "text_delta"; text_value "text" text])]) ++s
  typed_frame (JObj [text_value "type" "content_block_stop"; ("index", jZ index)]).

Definition end_turn (d : list (string * Value)) : list (string * Value) :=
  obj_insert "stop_sequence" JNull (obj_insert "stop_reason" (JStr "end_turn") d).

Definition anthropic_rewrite `{JsonText} (index : Z) (text : string)
    (end_ : option SseEvent) (end_json : option Value) : string :=
  let closing :=
    typed_frame (JObj [text_value "type" "message_delta";
      ("delta", JObj [text_value "stop_reason" "end_turn"; ("stop_sequence", JNull)]);
      ("usage", JObj [("output_tokens", jN 0)])]) ++s
    match end_ with
    | Some e => ev_raw e
    | None => typed_frame (JObj [text_value "type" "message_stop"])
    end in
  anthropic_text_block index text ++s
  match end_json with
  | Some v =>
    if value_type v ==s "message_delta" then typed_frame (update_key "delta" (on_object end_turn) v)
    else closing
  | None => closing
  end.

Definition output_text (text : string) : Value :=
  JObj [text_value "type" "output_text"; text_value "text" text; ("annotations", JArr [])].

Definition blocked_message_item (text status : string) : Value :=
  JObj [text_value "id" "msg_cctui_blocked"; text_value "type" "message"; text_value "status" status;
        text_value "role" "assistant";
        ("content", if status ==s "completed" then JArr [output_text text] else JArr [])].

Definition is_tool_item (item : Value) : bool := one_of (value_type item) RESPONSES_TOOL_ITEMS.

(** The closure [ev]: numbered if the stream is, named if its events are. *)
Definition numbered_frame `{JsonText} (named : bool) (next : option Z) (v : Value) : string * option Z :=
  let v := match next, v with
           | Some n, JObj o => JObj (obj_insert "sequence_number" (jZ n) o)
           | _, _ => v
           end in
  (frame (if named then get_str "type" v else None) v, (λ n, i64w (n + 1)) <$> next).

Fixpoint numbered_frames `{JsonText} (named : bool) (next : option Z) (vs : list Value) : string :=
  match vs with
  | [] => ""
  | v :: vs => let '(s, next) := numbered_frame named next v in s ++s numbered_frames named next vs
  end.

Definition responses_events (output_index : Z) (text : string) : list Value :=
  let idx := ("output_index", jZ output_index) in
  let item := text_value "item_id" "msg_cctui_blocked" in
  let content := ("content_index", jN 0) in
  [ JObj [text_value "type" "response.output_item.added"; idx;
          ("item", blocked_message_item text "in_progress")];
    JObj [text_value "type" "response.content_part.added"; item; idx; content; ("part", output_text "")];
    JObj [text_value "type" "response.output_text.delta"; item; idx; content; text_value "delta" text];
    JObj [text_value "type" "response.output_text.done"; item; idx; content; text_value "text" text];
    JObj [text_value "type" "response.content_part.done"; item; idx; content; ("part", output_text text)];
    JObj [text_value "type" "response.output_item.done"; idx;
          ("item", blocked_message_item text "completed")] ].

(** The closing event without its tool items. *)
Definition strip_output (text : string) (v : Value) : Value :=
  update_key "response" (update_key "output" (on_array (λ l,
    List.filter (λ i, negb (is_tool_item i)) l ++ [blocked_message_item text "completed"]))) v.

Definition responses_rewrite `{JsonText} (named : bool) (seq : option Z) (output_index : Z)
    (text : string) (end_ : option SseEvent) (end_json : option Value) : string :=
  match end_json with
  | Some v =>
    match jget "response" v with
    | Some _ => numbered_frames named seq (responses_events output_index text ++ [strip_output text v])
    | None => numbered_frames named seq (responses_events output_index text) ++s opt_raw end_
    end
  | None => numbered_frames named seq (responses_events output_index text) ++s opt_raw end_
  end.

(** A closing choice without its calls; [None] is the panic of the assignment. *)
Definition close_choice (c : Value) : option Value :=
  set_key "finish_reason" (JStr "stop")
    (update_key "delta" (on_object (λ d, obj_remove "function_call" (obj_remove "tool_calls" d))) c).

Definition chat_rewrite `{JsonText} (template : option Value) (text : string)
    (end_ : option SseEvent) (end_json : option Value) : option string :=
  let base := base_of template ["id"; "object"; "created"; "model"; "system_fingerprint"] in
  let content := frame None (JObj (obj_insert "choices" (JArr [JObj [("index", jN 0);
        ("delta", JObj [text_value "role" "assistant"; text_value "content" text]);
        ("finish_reason", JNull)]]) base)) in
  let fin := frame None (JObj (obj_insert "choices" (JArr [JObj [("index", jN 0);
        ("delta", JObj []); text_value "finish_reason" "stop"]]) base)) in
  match end_json ≫= jget "choices", end_json with
  | Some (JArr choices), Some (JObj o) =>
    choices ← mapM close_choice choices;
    Some (content ++s frame None (JObj (obj_insert "choices" (JArr choices) o)))
  | Some _, Some v => Some (content ++s frame None v)
  | _, _ => Some (content ++s fin ++s opt_raw end_)
  end.

(** ** Releasing or rewriting *)

Fixpoint insert_call (c : Call) (l : list Call) : list Call :=
  match l with
  | [] => [c]
  | d :: l => if (ca_position c <=? ca_position d)%Z then c :: d :: l else d :: insert_call c l
  end.

(** [sort_by_key(|c| c.position)], stable. *)
Definition sort_calls (l : list Call) : list Call := fold_right insert_call [] l.

Definition first_hit `{Regexes, LowerText, JsonText} (p : CompiledPolicy) (wire : option Wire)
    (calls : list Call) : option (Call * Hit * string) :=
  find_map (λ c, if call_exempt wire c then None
                 else '(h, input) ← call_scan p c; Some (c, h, input)) calls.

Definition raws (evs : list SseEvent) : string := fold_right (λ e s, ev_raw e ++s s) "" evs.

Definition head_json `{JsonText} (held : list SseEvent) : option Value := head held ≫= event_json.

(** The rewritten message for a hit. *)
Definition blocked_output `{JsonText} (wire : option Wire) (held : list SseEvent) (calls : list Call)
    (text : string) (end_ : option SseEvent) : option string :=
  let first := match calls with c :: _ => ca_position c | [] => 0%Z end in
  let named := match held with e :: _ => bool_decide (is_Some (ev_name e)) | [] => false end in
  let end_json := end_ ≫= event_json in
  match wire with
  | Some Anthropic | None => Some (anthropic_rewrite first text end_ end_json)
  | Some Responses =>
    let seq := head_json held ≫= (λ v, jget "sequence_number" v ≫= as_i64) in
    Some (responses_rewrite named seq first text end_ end_json)
  | Some Chat => chat_rewrite (head_json held) text end_ end_json
  | Some Gemini => Some (gemini_rewrite (head_json held) text end_ end_json)
  end.

Definition resolve_turn `{Regexes, LowerText, JsonText, Sha256} (p : CompiledPolicy)
    (end_ : option SseEvent) (g : SseGuard) : option (SseGuard * string) :=
  let calls := sort_calls (sg_calls g) in
  let done blocks := mkGuard (sg_pending g) [] None [] blocks in
  match first_hit p (sg_wire g) calls with
  | None => Some (done (sg_blocks g), raws (sg_held g) ++s opt_raw end_)
  | Some (call, hit, input) =>
    out ← blocked_output (sg_wire g) (sg_held g) calls (explanation (ca_name call) hit) end_;
    Some (done (sg_blocks g ++ [Block_new (ca_name call) hit input]), out)
  end.

Definition hold_event (ev : SseEvent) (g : SseGuard) : SseGuard :=
  mkGuard (sg_pending g) (sg_held g ++ [ev]) (sg_wire g) (sg_calls g) (sg_blocks g).

Definition on_event `{Regexes, LowerText, JsonText, Sha256} (p : CompiledPolicy) (ev : SseEvent)
    (g : SseGuard) : option (SseGuard * string) :=
  let done_marker := trim (ev_data ev) ==s "[DONE]" in
  let '(g, step) := classify (event_json ev) done_marker g in
  match step with
  | Pass => Some (g, ev_raw ev)
  | Hold => Some (hold_event ev g, "")
  | End => resolve_turn p (Some ev) g
  end.

Definition set_pending (s : string) (g : SseGuard) : SseGuard :=
  mkGuard s (sg_held g) (sg_wire g) (sg_calls g) (sg_blocks g).

(** The [while let] of [push]: every turn drains at least two bytes. *)
Fixpoint drain `{Regexes, LowerText, JsonText, Sha256} (fuel : nat) (p : CompiledPolicy)
    (g : SseGuard) : option (SseGuard * string) :=
  match fuel with
  | 0%nat => Some (g, "")
  | S fuel =>
    match split_event (sg_pending g) with
    | None => Some (g, "")
    | Some (raw, rest) =>
      '(g, out) ← on_event p (SseEvent_parse raw) (set_pending rest g);
      '(g, more) ← drain fuel p g;
      Some (g, out ++s more)
    end
  end.

Definition push `{Regexes, LowerText, JsonText, Sha256} (p : CompiledPolicy) (g : SseGuard)
    (chunk : string) : option (SseGuard * string) :=
  let g := set_pending (sg_pending g ++s chunk) g in drain (String.length (sg_pending g)) p g.

Definition finish `{Regexes, LowerText, JsonText, Sha256} (p : CompiledPolicy) (g : SseGuard) :
    option (SseGuard * string) :=
  '(g, out) ← (if is_empty (sg_pending g) then Some (g, "")
               else on_event p (SseEvent_parse (sg_pending g)) (set_pending "" g));
  if holding g then '(g, more) ← resolve_turn p None g; Some (g, out ++s more) else Some (g, out).

(** ** Complete responses *)

(** A call found in a complete body: its name, the hit and the hashed input. *)
Definition gemini_json_hit `{Regexes, LowerText, JsonText} (p : CompiledPolicy)
    (candidates : list Value) : option (string * Hit * string) :=
  find_map (λ part,
      call ← jget "functionCall" part;
      let name := default "functionCall" (get_str "name" call) in
      let args := default JNull (jget "args" call) in
      if exempt_tool name args then None
      else hit ← scan_value p call; Some (name, hit, json_to_string args))
    (List.concat (omap (λ c, pointer2 "content" "parts" c ≫= as_array) candidates)).

Definition is_tool_block (b : Value) : bool := one_of (value_type b) ANTHROPIC_TOOL_BLOCKS.

Definition content_hit `{Regexes, LowerText, JsonText} (p : CompiledPolicy) (content : list Value) :
    option (string * Hit * string) :=
  find_map (λ b,
      if negb (is_tool_block b) then None
      else
        let name := default (value_type b) (get_str "name" b) in
        let input := default JNull (jget "input" b) in
        if exempt_tool name input then None
        else hit ← scan_value p input; Some (name, hit, json_to_string input)) content.

Definition output_hit `{Regexes, LowerText, JsonText} (p : CompiledPolicy) (output : list Value) :
    option (string * Hit * string) :=
  find_map (λ item,
      if negb (is_tool_item item) then None
      else
        let name := default (value_type item) (get_str "name" item) in
        let args := match jget "arguments" item with Some a => decode_input a | None => JNull end in
        if exempt_tool (qualified_name name (get_str "namespace" item)) args then None
        else hit ← scan_value p item; Some (name, hit, json_to_string item)) output.

(** One entry of a message's [tool_calls]. *)
Definition chat_call_hit `{Regexes, LowerText, JsonText} (p : CompiledPolicy) (tc : Value) :
    option (string * Hit * string) :=
  let name := default "tool" (pointer2 "function" "name" tc ≫= as_str) in
  let args := match pointer2 "function" "arguments" tc with
              | Some a => decode_input a | None => JNull end in
  if exempt_tool name args then None
  else hit ← scan_value p (default tc (jget "function" tc)); Some (name, hit, json_to_string tc).

Definition choices_hit `{Regexes, LowerText, JsonText} (p : CompiledPolicy) (choices : list Value) :
    option (string * Hit * string) :=
  find_map (λ c, tcs ← pointer2 "message" "tool_calls" c ≫= as_array;
                 find_map (chat_call_hit p) tcs) choices.

(** The content up to the first tool block. *)
Fixpoint before_tools (content : list Value) : list Value :=
  match content with
  | [] => []
  | b :: content => if is_tool_block b then [] else b :: before_tools content
  end.

(** A choice whose message had calls says the text instead. *)
Definition silence_choice (text : string) (c : Value) : Value :=
  match c with
  | JObj o =>
    match obj_get "message" o with
    | Some (JObj m) =>
      match obj_get "tool_calls" m with
      | Some _ =>
        let m := obj_insert "content" (JStr text) (obj_remove "tool_calls" m) in
        JObj (obj_insert "finish_reason" (JStr "stop") (obj_insert "message" (JObj m) o))
      | None => c
      end
    | _ => c
    end
  | _ => c
  end.

(** [rewrite_json] on a parsed body: the rewritten value and the block. *)
Definition rewrite_value `{Regexes, LowerText, JsonText, Sha256} (p : CompiledPolicy) (v : Value) :
    option (Value * Block) :=
  match v with
  | JObj o =>
    match obj_get "candidates" o ≫= as_array with
    | Some candidates =>
      '(name, hit, input) ← gemini_json_hit p candidates;
      Some (JObj (obj_insert "candidates" (JArr [gemini_blocked_candidate (explanation name hit)]) o),
            Block_new name hit input)
    | None =>
      match obj_get "content" o ≫= as_array with
      | Some content =>
        '(name, hit, input) ← content_hit p content;
        let kept := before_tools content ++
          [JObj [text_value "type" "text"; text_value "text" (explanation name hit)]] in
        Some (JObj (obj_insert "stop_sequence" JNull (obj_insert "stop_reason" (JStr "end_turn")
                (obj_insert "content" (JArr kept) o))), Block_new name hit input)
      | None =>
        match obj_get "output" o ≫= as_array with
        | Some output =>
          '(name, hit, input) ← output_hit p output;
          let kept := List.filter (λ i, negb (is_tool_item i)) output ++
            [blocked_message_item (explanation name hit) "completed"] in
          Some (JObj (obj_insert "output" (JArr kept) o), Block_new name hit input)
        | None =>
          choices ← obj_get "choices" o ≫= as_array;
          '(name, hit, input) ← choices_hit p choices;
          Some (JObj (obj_insert "choices" (JArr (silence_choice (explanation name hit) <$> choices)) o),
                Block_new name hit input)
        end
      end
    end
  | _ => None
  end.

Definition rewrite_json `{Regexes, LowerText, JsonText, Sha256} (p : CompiledPolicy) (body : string) :
    option (string * Block) :=
  v ← json_from_str body;
  '(v, block) ← rewrite_value p v;
  Some (json_to_string v, block).

(** ** Guarded bodies *)

Inductive Guarded := GSse (g : SseGuard) | GJson (buf : string).

Definition guarded_push `{Regexes, LowerText, JsonText, Sha256} (p : CompiledPolicy) (b : Guarded)
    (chunk : string) : option (Guarded * string) :=
  match b with
  | GSse g => '(g, out) ← push p g chunk; Some (GSse g, out)
  | GJson buf => Some (GJson (buf ++s chunk), "")
  end.

Definition guarded_finish `{Regexes, LowerText, JsonText, Sha256} (p : CompiledPolicy) (b : Guarded) :
    option (string * list Block) :=
  match b with
  | GSse g => '(g, out) ← finish p g; Some (out, sg_blocks g)
  | GJson buf =>
    match rewrite_json p buf with
    | Some (out, block) => Some (out, [block])
    | None => Some (buf, [])
    end
  end.

(** [None]: the response cannot be scanned and is refused. *)
Definition guardable (content_type content_encoding : option string) : option bool :=
  if match content_encoding with
     | Some e => negb (eq_ignore_ascii_case (trim e) "identity")
     | None => false
     end then None
  else
    let ct := to_ascii_lowercase (default "" content_type) in
    if starts_with "text/event-stream" ct then Some true
    else if contains "json" ct then Some false
    else None.

(** ** Which responses are guarded *)

Record Bypass := mkBypass { by_user : N; by_admin : bool }.

Definition honoured (b : Bypass) (owner : N) : bool := by_admin b || (by_user b =? owner)%N.

Record AccountPolicy := mkAccountPolicy {
  apo_account_id : N;
  apo_owner : N;
  apo_policy : CompiledPolicy;
}.

Record CachedPolicy := mkCachedPolicy {
  cpo_at : N;
  cpo_account_id : option N;
  cpo_policy : option AccountPolicy;
}.

Definition POLICY_TTL : N := 30.

(** [policy_for_provider]: the row is the database's answer, [None] a failed
    query; ids are numbers and time is in seconds. *)
Definition policy_for_provider `{Regexes, LowerText} (now provider : N)
    (row : option (option (N * N * ToolPolicy))) (cache : gmap N CachedPolicy) :
    gmap N CachedPolicy * result unit (option AccountPolicy) :=
  match cache !! provider with
  | Some e =>
    if (now - cpo_at e <? POLICY_TTL)%N then (cache, Ok (cpo_policy e))
    else
      match row with
      | None => (cache, Ok (cpo_policy e))
      | Some r =>
        let policy := '(account, owner, tp) ← r; c ← compile_policy tp; Some (mkAccountPolicy account owner c) in
        (<[provider := mkCachedPolicy now ((λ x, x.1.1) <$> r) policy]> cache, Ok policy)
      end
  | None =>
    match row with
    | None => (cache, Err tt)
    | Some r =>
      let policy := '(account, owner, tp) ← r; c ← compile_policy tp; Some (mkAccountPolicy account owner c) in
      (<[provider := mkCachedPolicy now ((λ x, x.1.1) <$> r) policy]> cache, Ok policy)
    end
  end.

Definition invalidate_policy_cache (account : N) (cache : gmap N CachedPolicy) : gmap N CachedPolicy :=
  filter (λ kv, cpo_account_id kv.2 ≠ Some account) cache.

(** [guard_for] after its lookups: whether the response is guarded. *)
Definition guard_for (policy : result unit (option AccountPolicy)) (cwd : option string)
    (bypass : option Bypass) : result unit (option AccountPolicy) :=
  ap ← policy;
  match ap with
  | None => Ok None
  | Some ap =>
    if exempts_cwd (apo_policy ap) cwd ||
       match bypass with Some b => honoured b (apo_owner ap) | None => false end
    then Ok None else Ok (Some ap)
  end.

(** ** Facts: events *)

Lemma split_event_spec buf raw rest :
  split_event buf = Some (raw, rest) →
  buf = raw ++s rest ∧ raw ≠ "" ∧ ∀ x, split_event (buf ++s x) = Some (raw, rest ++s x).
Proof.
  revert raw rest. induction buf as [|c r IH]; intros raw rest; cbn [split_event]; [done|].
  assert (('(e, rest) ← split_event r; Some (String c e, rest)) = Some (raw, rest) →
          ∃ e, raw = String c e ∧ split_event r = Some (e, rest)) as Hlater.
  { destruct (split_event r) as [[e rest']|]; [|done]. cbn. intros [= <- <-]. by exists e. }
  assert (∀ e, split_event r = Some (e, rest) → raw = String c e →
    String c r = raw ++s rest ∧ raw ≠ "" ∧
    ∀ x, ('(e, rest) ← split_event (r ++s x); Some (String c e, rest)) = Some (raw, rest ++s x)) as Hgo.
  { intros e He ->. destruct (IH e rest He) as (-> & _ & Hx). split_and!; [done..|].
    intros x. by rewrite Hx. }
  assert (∀ d, split_event (String d "") = None) as Hone.
  { intros d. cbn. by destruct (Ascii.eqb d newline). }
  destruct (Ascii.eqb c newline) eqn:Hc.
  2: { intros (e & -> & He)%Hlater. destruct (Hgo e He eq_refl) as (H1 & H2 & H3). split_and!; [done..|].
       intros x. cbn [String.append split_event]. rewrite Hc. apply H3. }
  destruct r as [|d r1]; [intros (e & _ & He)%Hlater; done|].
  destruct (Ascii.eqb d newline) eqn:Hd.
  { intros [= <- <-]. split_and!; [done..|]. intros x. cbn [String.append split_event]. by rewrite Hc, Hd. }
  destruct r1 as [|e1 r2]; [intros (e & _ & He)%Hlater; by rewrite Hone in He|].
  destruct (Ascii.eqb d creturn && Ascii.eqb e1 newline) eqn:He1.
  { intros [= <- <-]. split_and!; [done..|]. intros x. cbn [String.append split_event]. by rewrite Hc, Hd, He1. }
  intros (e & -> & He)%Hlater. destruct (Hgo e He eq_refl) as (H1 & H2 & H3). split_and!; [done..|].
  intros x. specialize (H3 x). cbn [String.append] in H3 |- *. cbn [split_event] in H3 |- *.
  rewrite Hc, Hd, He1. rewrite Hd in H3. exact H3.
Qed.

(** ** Facts: one event *)

Section guard.
Context `{Regexes} `{LowerText} `{JsonText} `{Sha256}.
Variable p : CompiledPolicy.

(** Classification touches neither the held events, nor the blocks, nor the
    bytes that wait for their event to end. *)
Definition same_buffers (g g' : SseGuard) : Prop :=
  sg_held g' = sg_held g ∧ sg_blocks g' = sg_blocks g ∧ sg_pending g' = sg_pending g.

Lemma same_refl g : same_buffers g g.
Proof. done. Qed.

Lemma same_trans g1 g2 g3 : same_buffers g1 g2 → same_buffers g2 g3 → same_buffers g1 g3.
Proof. unfold same_buffers. intuition congruence. Qed.

Lemma same_foldl {A} (f : SseGuard → A → SseGuard) l g :
  (∀ g a, same_buffers g (f g a)) → same_buffers g (foldl f g l).
Proof.
  intros Hf. revert g. induction l as [|a l IH]; intros g; [apply same_refl|].
  eapply same_trans; [apply Hf|apply IH].
Qed.

Lemma classify_chat_same choices h g : same_buffers g (classify_chat choices h g).1.
Proof.
  unfold classify_chat.
  assert (∀ acc, same_buffers acc.1.1 (foldl chat_choice acc choices).1.1) as Hf.
  { induction choices as [|c choices IH]; intros [[g0 s] f]; [apply same_refl|]. cbn [foldl].
    eapply same_trans; [|apply IH]. cbn [chat_choice fst]. apply same_foldl. done. }
  specialize (Hf (g, false, false)). by destruct (foldl chat_choice _ _) as [[g' s] f].
Qed.

Lemma classify_gemini_same candidates h g : same_buffers g (classify_gemini candidates h g).1.
Proof.
  unfold classify_gemini.
  assert (∀ ci parts acc, same_buffers acc.1 (foldl (gemini_part ci) acc parts).1) as Hparts.
  { intros ci parts. induction parts as [|q parts IH]; intros [g0 s]; [apply same_refl|]. cbn [foldl].
    eapply same_trans; [|apply IH]. cbn [gemini_part]. by destruct (jget "functionCall" q). }
  assert (∀ l acc, same_buffers acc.1.1 (foldl gemini_candidate acc l).1.1) as Hf.
  { intros l. induction l as [|[slot c] l IH]; intros [[g0 s] f]; [apply same_refl|]. cbn [foldl].
    eapply same_trans; [|apply IH]. cbn [gemini_candidate fst]. cbv zeta.
    set (ci := default _ _). set (parts := default _ _). specialize (Hparts ci parts (g0, s)).
    by destruct (foldl (gemini_part ci) (g0, s) parts). }
  specialize (Hf (enumerate candidates) (g, false, false)).
  by destruct (foldl gemini_candidate _ _) as [[g' s] f].
Qed.

Lemma classify_typed_same v h g : same_buffers g (classify_typed v h g).1.
Proof. unfold classify_typed. cbv zeta. repeat case_match; done. Qed.

Lemma classify_same json done_marker g : same_buffers g (classify json done_marker g).1.
Proof.
  unfold classify. destruct done_marker; [done|]. destruct json as [v|]; [|done].
  destruct (jget "choices" v ≫= as_array); [apply classify_chat_same|].
  destruct (jget "candidates" v ≫= as_array); [apply classify_gemini_same|apply classify_typed_same].
Qed.

(** Only a guard that holds nothing lets an event pass. *)
Lemma classify_pass json done_marker g :
  (classify json done_marker g).2 = Pass → sg_held g = [].
Proof.
  intros Hp. assert (holding g = false) as Hh.
  { destruct (holding g) eqn:Hh; [|done]. exfalso. revert Hp. unfold classify. rewrite Hh.
    destruct done_marker; [done|]. destruct json as [v|]; [|done].
    destruct (jget "choices" v ≫= as_array).
    - unfold classify_chat. destruct (foldl chat_choice _ _) as [[g' s] f]. cbn. unfold turn_step.
      rewrite orb_true_r. by destruct f.
    - destruct (jget "candidates" v ≫= as_array).
      + unfold classify_gemini. destruct (foldl gemini_candidate _ _) as [[g' s] f]. cbn. unfold turn_step.
        rewrite orb_true_r. by destruct f.
      + unfold classify_typed. cbv zeta. cbn [hold_or_pass]. by repeat case_match. }
  unfold holding in Hh. by destruct (sg_held g).
Qed.

(** The waiting bytes play no part in an event. *)
Lemma classify_pending s json done_marker g :
  classify json done_marker (set_pending s g) =
  (set_pending s (classify json done_marker g).1, (classify json done_marker g).2).
Proof.
  unfold classify. change (holding (set_pending s g)) with (holding g). set (h := holding g). clearbody h.
  destruct done_marker; [done|]. destruct json as [v|]; [|done].
  destruct (jget "choices" v ≫= as_array) as [choices|].
  { unfold classify_chat.
    assert (∀ acc, foldl chat_choice (set_pending s acc.1.1, acc.1.2, acc.2) choices =
      (let r := foldl chat_choice acc choices in (set_pending s r.1.1, r.1.2, r.2))) as Hf.
    { induction choices as [|c choices IH]; intros [[g0 st] f]; [done|]. cbn [foldl].
      rewrite <-IH. f_equal. cbn [chat_choice fst snd]. f_equal. f_equal.
      generalize (default [] (pointer2 "delta" "tool_calls" c ≫= as_array)). intros tcs.
      generalize (int_or_zero "index" c). intros ci. clear. revert g0.
      induction tcs as [|tc tcs IH]; intros g0; [done|]. cbn [foldl]. by rewrite <-IH. }
    specialize (Hf (g, false, false)). cbn [fst snd] in Hf. rewrite Hf.
    by destruct (foldl chat_choice (g, false, false) choices) as [[g' st] f]. }
  destruct (jget "candidates" v ≫= as_array) as [candidates|].
  { unfold classify_gemini. generalize (enumerate candidates). intros l.
    assert (∀ acc, foldl gemini_candidate (set_pending s acc.1.1, acc.1.2, acc.2) l =
      (let r := foldl gemini_candidate acc l in (set_pending s r.1.1, r.1.2, r.2))) as Hf.
    { induction l as [|[slot c] l IH]; intros [[g0 st] f]; [done|]. cbn [foldl].
      rewrite <-IH. f_equal. cbn [gemini_candidate fst snd]. cbv zeta.
      generalize (default (Z.of_nat slot) (jget "index" c ≫= as_i64)). intros ci.
      generalize (default [] (pointer2 "content" "parts" c ≫= as_array)). intros parts.
      assert (∀ acc, foldl (gemini_part ci) (set_pending s acc.1, acc.2) parts =
        (let r := foldl (gemini_part ci) acc parts in (set_pending s r.1, r.2))) as Hp.
      { clear. induction parts as [|q parts IH]; intros [g0 st]; [done|]. cbn [foldl].
        rewrite <-IH. f_equal. cbn. by destruct (jget "functionCall" q). }
      specialize (Hp (g0, st)). cbn [fst snd] in Hp. rewrite Hp.
      by destruct (foldl (gemini_part ci) (g0, st) parts). }
    specialize (Hf (g, false, false)). cbn [fst snd] in Hf. rewrite Hf.
    by destruct (foldl gemini_candidate (g, false, false) l) as [[g' st] f]. }
  unfold classify_typed. cbv zeta. repeat case_match; done.
Qed.

Definition over_pending (s : string) (r : option (SseGuard * string)) : option (SseGuard * string) :=
  '(g, out) ← r; Some (set_pending s g, out).

Lemma resolve_pending s e g : resolve_turn p e (set_pending s g) = over_pending s (resolve_turn p e g).
Proof.
  unfold resolve_turn. cbn [set_pending sg_calls sg_wire sg_held sg_blocks sg_pending].
  destruct (first_hit p (sg_wire g) _) as [[[c h] input]|]; [|done]. by destruct (blocked_output _ _ _ _ _).
Qed.

Lemma on_event_pending s ev g : on_event p ev (set_pending s g) = over_pending s (on_event p ev g).
Proof.
  unfold on_event. rewrite classify_pending. destruct (classify _ _ g) as [g' []]; [done..|].
  apply resolve_pending.
Qed.

Lemma on_event_keeps_pending ev g g' out : on_event p ev g = Some (g', out) → sg_pending g' = sg_pending g.
Proof.
  unfold on_event. pose proof (classify_same (event_json ev) (trim (ev_data ev) ==s "[DONE]") g) as (_ & _ & Hp).
  destruct (classify _ _ g) as [g1 step]. cbn [fst] in Hp. rewrite <-Hp. destruct step.
  - by intros [= <- _].
  - by intros [= <- _].
  - unfold resolve_turn. destruct (first_hit _ _ _) as [[[c h] input]|]; [|by intros [= <- _]].
    destruct (blocked_output _ _ _ _ _); [|done]. by intros [= <- _].
Qed.

Lemma raws_app a b : raws (a ++ b) = raws a ++s raws b.
Proof.
  induction a as [|e a IH]; [done|]. change (ev_raw e ++s raws (a ++ b) = (ev_raw e ++s raws a) ++s raws b).
  by rewrite IH, app_assoc_s.
Qed.

Lemma raws_snoc a e : raws (a ++ [e]) = raws a ++s ev_raw e.
Proof. rewrite raws_app. change (raws [e]) with (ev_raw e ++s ""). by rewrite app_nil_s. Qed.

(** What an event does to the bytes: unless it adds a block, what was held and
    the event come out in order or stay held. *)
Lemma on_event_bytes ev g g' out :
  on_event p ev g = Some (g', out) →
  (sg_blocks g' = sg_blocks g ∧ raws (sg_held g) ++s ev_raw ev = out ++s raws (sg_held g')) ∨
  ∃ b, sg_blocks g' = sg_blocks g ++ [b].
Proof.
  unfold on_event. set (dm := trim (ev_data ev) ==s "[DONE]").
  pose proof (classify_same (event_json ev) dm g) as (Hh & Hb & _).
  pose proof (classify_pass (event_json ev) dm g) as Hp.
  destruct (classify (event_json ev) dm g) as [g1 step]. cbn [fst snd] in *. destruct step.
  - intros [= <- <-]. left. split; [done|]. rewrite Hh, Hp by done. cbn. by rewrite app_nil_s.
  - intros [= <- <-]. left. split; [done|]. cbn [hold_event sg_held String.append].
    by rewrite raws_snoc, Hh.
  - unfold resolve_turn. destruct (first_hit _ _ _) as [[[c h] input]|].
    + destruct (blocked_output _ _ _ _ _); [|done]. intros [= <- _]. right. cbn. rewrite Hb. by eexists.
    + intros [= <- <-]. left. split; [done|]. cbn. by rewrite Hh, app_nil_s.
Qed.

(** ** Facts: a stream *)

(** [drain] with its own fuel. *)
Definition drain_all (g : SseGuard) : option (SseGuard * string) :=
  drain (String.length (sg_pending g)) p g.

Lemma drain_enough fuel g :
  (String.length (sg_pending g) ≤ fuel)%nat → drain fuel p g = drain_all g.
Proof.
  revert g. induction fuel as [fuel IH] using lt_wf_ind. intros g Hf. unfold drain_all.
  destruct fuel as [|fuel].
  { assert (String.length (sg_pending g) = 0)%nat as -> by lia. done. }
  destruct (String.length (sg_pending g)) as [|n] eqn:El; cbn [drain].
  { assert (sg_pending g = "") as -> by (by destruct (sg_pending g)). done. }
  destruct (split_event (sg_pending g)) as [[raw rest]|] eqn:Es; [|done].
  destruct (split_event_spec _ _ _ Es) as (Hp & Hne & _).
  destruct (on_event p (SseEvent_parse raw) (set_pending rest g)) as [[g' out]|] eqn:Eo; [|done].
  cbn [mbind option_bind]. apply on_event_keeps_pending in Eo. cbn in Eo.
  assert (String.length rest < S n)%nat.
  { rewrite <-El, Hp, length_app_s. destruct raw; [done|]. cbn. lia. }
  rewrite (IH fuel) by (rewrite ?Eo; lia). by rewrite (IH n) by (rewrite ?Eo; lia).
Qed.

Lemma drain_all_step g :
  drain_all g =
  match split_event (sg_pending g) with
  | None => Some (g, "")
  | Some (raw, rest) =>
    '(g, out) ← on_event p (SseEvent_parse raw) (set_pending rest g);
    '(g, more) ← drain_all g;
    Some (g, out ++s more)
  end.
Proof.
  unfold drain_all at 1. destruct (String.length (sg_pending g)) as [|n] eqn:El; cbn [drain].
  { assert (sg_pending g = "") as -> by (by destruct (sg_pending g)). done. }
  destruct (split_event (sg_pending g)) as [[raw rest]|] eqn:Es; [|done].
  destruct (split_event_spec _ _ _ Es) as (Hp & Hne & _).
  destruct (on_event p (SseEvent_parse raw) (set_pending rest g)) as [[g' out]|] eqn:Eo; [|done].
  cbn [mbind option_bind]. apply on_event_keeps_pending in Eo. cbn in Eo.
  rewrite drain_enough; [done|]. rewrite Eo. rewrite Hp, length_app_s in El. destruct raw; [done|]. cbn in El. lia.
Qed.

(** Bytes that come later continue where the drain stopped. *)
Lemma drain_app g b :
  drain_all (set_pending (sg_pending g ++s b) g) =
  '(g1, o1) ← drain_all g;
  '(g2, o2) ← drain_all (set_pending (sg_pending g1 ++s b) g1);
  Some (g2, o1 ++s o2).
Proof.
  remember (String.length (sg_pending g)) as n eqn:Hn. revert g Hn.
  induction n as [n IH] using lt_wf_ind. intros g ->.
  rewrite (drain_all_step g). destruct (split_event (sg_pending g)) as [[raw rest]|] eqn:Es.
  2: { cbn [mbind option_bind]. by destruct (drain_all (set_pending _ g)) as [[g2 o2]|]. }
  destruct (split_event_spec _ _ _ Es) as (Hp & Hne & Hx).
  rewrite drain_all_step. cbn [set_pending sg_pending]. rewrite Hx.
  change (set_pending (rest ++s b) (set_pending (sg_pending g ++s b) g)) with (set_pending (rest ++s b) g).
  rewrite !on_event_pending. destruct (on_event p (SseEvent_parse raw) g) as [[g' out]|]; [|done].
  cbn [over_pending mbind option_bind].
  pose proof (IH (String.length rest)) as IHr. specialize (IHr ltac:(rewrite Hp, length_app_s; destruct raw; [done|cbn; lia])
    (set_pending rest g') eq_refl).
  change (set_pending (sg_pending (set_pending rest g') ++s b) (set_pending rest g'))
    with (set_pending (rest ++s b) g') in IHr.
  change (sg_pending (set_pending rest g')) with rest in IHr.
  rewrite IHr. destruct (drain_all (set_pending rest g')) as [[g1 o1]|]; [|done]. cbn [mbind option_bind].
  destruct (drain_all (set_pending (sg_pending g1 ++s b) g1)) as [[g2 o2]|]; [|done]. cbn. by rewrite app_assoc_s.
Qed.

Lemma drain_done g g' out : drain_all g = Some (g', out) → split_event (sg_pending g') = None.
Proof.
  remember (String.length (sg_pending g)) as n eqn:Hn. revert g out Hn.
  induction n as [n IH] using lt_wf_ind. intros g out ->. rewrite drain_all_step.
  destruct (split_event (sg_pending g)) as [[raw rest]|] eqn:Es; [|by intros [= <- _]].
  destruct (split_event_spec _ _ _ Es) as (Hp & Hne & _).
  destruct (on_event p (SseEvent_parse raw) (set_pending rest g)) as [[g1 o1]|] eqn:Eo; [|done].
  cbn [mbind option_bind]. destruct (drain_all g1) as [[g2 o2]|] eqn:Ed; [|done]. intros [= <- _].
  apply on_event_keeps_pending in Eo. cbn in Eo.
  eapply IH; [|reflexivity|exact Ed]. rewrite Eo, Hp, length_app_s. destruct raw; [done|]. cbn. lia.
Qed.

Lemma push_drain g c : push p g c = drain_all (set_pending (sg_pending g ++s c) g).
Proof. reflexivity. Qed.

(** The chunks of a body, then its end. *)
Fixpoint feed_chunks (g : SseGuard) (chunks : list string) : option (SseGuard * string) :=
  match chunks with
  | [] => Some (g, "")
  | c :: chunks =>
    '(g, out) ← push p g c;
    '(g, more) ← feed_chunks g chunks;
    Some (g, out ++s more)
  end.

Definition respond (chunks : list string) : option (SseGuard * string) :=
  '(g, out) ← feed_chunks SseGuard_new chunks;
  '(g, more) ← finish p g;
  Some (g, out ++s more).

Definition body (chunks : list string) : string := fold_right String.append "" chunks.

Lemma feed_chunks_body g chunks :
  split_event (sg_pending g) = None →
  feed_chunks g chunks = drain_all (set_pending (sg_pending g ++s body chunks) g).
Proof.
  revert g. induction chunks as [|c chunks IH]; intros g Hg; cbn [feed_chunks body fold_right].
  - rewrite app_nil_s. rewrite drain_all_step. destruct g. cbn in *. by rewrite Hg.
  - rewrite push_drain. fold (body chunks).
    pose proof (drain_app (set_pending (sg_pending g ++s c) g) (body chunks)) as Hd.
    cbn [set_pending sg_pending] in Hd. rewrite app_assoc_s in Hd.
    change (set_pending (sg_pending g ++s c ++s body chunks) (set_pending (sg_pending g ++s c) g))
      with (set_pending (sg_pending g ++s c ++s body chunks) g) in Hd.
    change (mkGuard (sg_pending g ++s c ++s body chunks) (sg_held g) (sg_wire g) (sg_calls g) (sg_blocks g))
      with (set_pending (sg_pending g ++s c ++s body chunks) g) in Hd.
    change (mkGuard (sg_pending g ++s c) (sg_held g) (sg_wire g) (sg_calls g) (sg_blocks g))
      with (set_pending (sg_pending g ++s c) g) in Hd.
    rewrite Hd. destruct (drain_all (set_pending (sg_pending g ++s c) g)) as [[g1 o1]|] eqn:E1; [|done].
    cbn [mbind option_bind]. rewrite IH; [done|]. by eapply drain_done.
Qed.

(** The bytes a guard has not yet let out. *)
Definition inside (g : SseGuard) : string := raws (sg_held g) ++s sg_pending g.

(** A step that gives [out] adds no block or loses nothing. *)
Definition conserves (g : SseGuard) (out : string) (g' : SseGuard) : Prop :=
  sg_blocks g `prefix_of` sg_blocks g' ∧
  (sg_blocks g' = sg_blocks g → inside g = out ++s inside g').

Lemma conserves_trans g1 o1 g2 o2 g3 :
  conserves g1 o1 g2 → conserves g2 o2 g3 → conserves g1 (o1 ++s o2) g3.
Proof.
  intros [P1 C1] [P2 C2]. split; [by etrans|]. intros Hb.
  assert (sg_blocks g2 = sg_blocks g1) as H12.
  { destruct P1 as [k1 K1], P2 as [k2 K2]. rewrite K1 in K2 |- *. rewrite Hb, <-(app_assoc _ k1) in K2.
    assert (k1 ++ k2 = []) as Hk.
    { apply (app_inv_head (sg_blocks g1)). by rewrite app_nil_r. }
    apply app_eq_nil in Hk as [-> _]. apply app_nil_r. }
  rewrite (C1 H12), C2 by congruence. by rewrite app_assoc_s.
Qed.

(** An event that was taken out of the waiting bytes. *)
Lemma on_event_conserves raw rest g g' out :
  sg_pending g = raw ++s rest →
  on_event p (SseEvent_parse raw) (set_pending rest g) = Some (g', out) → conserves g out g'.
Proof.
  intros Hp Ho. pose proof (on_event_keeps_pending _ _ _ _ Ho) as Hk. cbn in Hk.
  destruct (on_event_bytes _ _ _ _ Ho) as [[Hb Hr]|[b Hb]]; cbn in Hb.
  - split; [by rewrite Hb|]. intros _. unfold inside. rewrite Hp, Hk.
    cbn [set_pending sg_held] in Hr. assert (ev_raw (SseEvent_parse raw) = raw) as Hraw.
    { unfold SseEvent_parse. by destruct (foldl _ _ _). }
    rewrite Hraw in Hr. rewrite <-!app_assoc_s, Hr. by rewrite !app_assoc_s.
  - split; [rewrite Hb; by eexists|]. rewrite Hb. intros Hn%(f_equal List.length).
    rewrite length_app in Hn. cbn in Hn. lia.
Qed.

Lemma drain_conserves g g' out : drain_all g = Some (g', out) → conserves g out g'.
Proof.
  remember (String.length (sg_pending g)) as n eqn:Hn. revert g out Hn.
  induction n as [n IH] using lt_wf_ind. intros g out ->. rewrite drain_all_step.
  destruct (split_event (sg_pending g)) as [[raw rest]|] eqn:Es; [|by intros [= <- <-]; split].
  destruct (split_event_spec _ _ _ Es) as (Hp & Hne & _).
  destruct (on_event p (SseEvent_parse raw) (set_pending rest g)) as [[g1 o1]|] eqn:Eo; [|done].
  cbn [mbind option_bind]. destruct (drain_all g1) as [[g2 o2]|] eqn:Ed; [|done]. intros [= <- <-].
  eapply conserves_trans; [by eapply on_event_conserves|]. apply on_event_keeps_pending in Eo. cbn in Eo.
  eapply IH; [|reflexivity|exact Ed]. rewrite Eo, Hp, length_app_s. destruct raw; [done|]. cbn. lia.
Qed.

Lemma resolve_conserves g g' out :
  resolve_turn p None g = Some (g', out) →
  conserves g out g' ∧ sg_held g' = [] ∧ sg_pending g' = sg_pending g.
Proof.
  unfold resolve_turn. destruct (first_hit _ _ _) as [[[c h] input]|].
  - destruct (blocked_output _ _ _ _ _); [|done]. intros [= <- _]. split; [|done]. cbn. split; [by eexists|].
    intros Hn%(f_equal List.length). cbn [sg_blocks] in Hn. rewrite length_app in Hn. cbn in Hn. lia.
  - intros [= <- <-]. split; [|done]. split; [done|]. intros _. unfold inside. cbn. by rewrite app_nil_s.
Qed.

Lemma finish_conserves g g' out :
  finish p g = Some (g', out) → conserves g out g' ∧ sg_held g' = [] ∧ sg_pending g' = "".
Proof.
  unfold finish.
  set (first := if is_empty (sg_pending g) then Some (g, "") else _).
  destruct first as [[g1 o1]|] eqn:Ef; [|done]. cbn [mbind option_bind].
  assert (conserves g o1 g1 ∧ sg_pending g1 = "") as [Hc1 Hp1].
  { unfold first in Ef. destruct (sg_pending g) as [|a s] eqn:Ep; cbn [is_empty] in Ef.
    - injection Ef as <- <-. split; [by split|done].
    - split; [|by apply on_event_keeps_pending in Ef].
      eapply (on_event_conserves (String a s) ""); [by rewrite app_nil_s|exact Ef]. }
  clear first Ef. destruct (holding g1) eqn:Eh.
  - destruct (resolve_turn p None g1) as [[g2 o2]|] eqn:Er; [|done]. cbn. intros [= <- <-].
    destruct (resolve_conserves _ _ _ Er) as (Hc2 & Hh & Hp). split_and!; [by eapply conserves_trans|done|].
    by rewrite Hp.
  - intros [= <- <-]. unfold holding in Eh. by destruct (sg_held g1).
Qed.

Lemma respond_body chunks :
  respond chunks =
  '(g, out) ← drain_all (set_pending (body chunks) SseGuard_new);
  '(g, more) ← finish p g;
  Some (g, out ++s more).
Proof. unfold respond. by rewrite feed_chunks_body. Qed.

(** C37. A stream through the guard: the result depends on the bytes of the body
    alone, however they are cut into chunks; nothing stays inside; and a stream
    in which nothing was blocked comes out byte for byte. *)
Theorem unblocked_stream_verbatim chunks :
  (∀ chunks', body chunks' = body chunks → respond chunks' = respond chunks) ∧
  ∀ g out, respond chunks = Some (g, out) →
    sg_held g = [] ∧ sg_pending g = "" ∧
    (sg_blocks g = [] → out = body chunks).
Proof.
  split; [intros chunks' Hb; by rewrite !respond_body, Hb|]. intros g out. rewrite respond_body.
  destruct (drain_all _) as [[g1 o1]|] eqn:Ed; [|done]. cbn [mbind option_bind].
  destruct (finish p g1) as [[g2 o2]|] eqn:Ef; [|done]. cbn. intros [= <- <-].
  apply drain_conserves in Ed. destruct (finish_conserves _ _ _ Ef) as (Hc & Hh & Hp).
  destruct (conserves_trans _ _ _ _ _ Ed Hc) as [_ Hv]. split_and!; [done..|]. intros Hb.
  specialize (Hv Hb). unfold inside in Hv. rewrite Hh, Hp in Hv. cbn in Hv.
  by rewrite app_nil_s in Hv.
Qed.

(** ** Facts: a tool call in an Anthropic stream *)

Fixpoint run (g : SseGuard) (evs : list SseEvent) : option (SseGuard * string) :=
  match evs with
  | [] => Some (g, "")
  | ev :: evs =>
    '(g, out) ← on_event p ev g;
    '(g, more) ← run g evs;
    Some (g, out ++s more)
  end.

(** Bytes that are exactly one event with its terminator. *)
Definition framed (raw : string) : bool := bool_decide (split_event raw = Some (raw, "")).

(** Framed events arrive as one chunk: the guard handles them one by one. *)
Lemma push_events frames g :
  sg_pending g = "" → forallb framed frames = true →
  push p g (body frames) = run g (SseEvent_parse <$> frames).
Proof.
  intros Hg. rewrite push_drain, Hg. cbn [String.append]. revert g Hg.
  induction frames as [|raw frames IH]; intros g Hg Hf.
  { rewrite drain_all_step. destruct g. cbn in *. by rewrite Hg. }
  cbn [forallb] in Hf. apply andb_true_iff in Hf as [Hr Hf]. unfold framed in Hr.
  apply bool_decide_eq_true in Hr. destruct (split_event_spec _ _ _ Hr) as (_ & _ & Hx).
  rewrite drain_all_step. cbn [body fold_right set_pending sg_pending]. fold (body frames).
  rewrite Hx. cbn [String.append fmap list_fmap run].
  change (mkGuard ?x (sg_held g) (sg_wire g) (sg_calls g) (sg_blocks g)) with (set_pending x g).
  change (set_pending ?x (set_pending ?y g)) with (set_pending x g).
  rewrite on_event_pending. destruct (on_event p (SseEvent_parse raw) g) as [[g' out]|] eqn:Eo; [|done].
  cbn [over_pending mbind option_bind]. rewrite IH; [done| |done]. apply on_event_keeps_pending in Eo.
  by rewrite Eo.
Qed.

(** An event of one of the given types, on the wire that has types. *)
Definition typed_event (tys : list string) (ev : SseEvent) : bool :=
  negb (trim (ev_data ev) ==s "[DONE]") &&
  match event_json ev with
  | Some v =>
    match jget "choices" v ≫= as_array, jget "candidates" v ≫= as_array with
    | None, None => one_of (value_type v) tys
    | _, _ => false
    end
  | None => false
  end.

Definition CONTENT_TYPES : list string :=
  ["content_block_start"; "content_block_delta"; "content_block_stop"; "ping"].

Definition tool_start (v : Value) : bool :=
  (value_type v ==s "content_block_start") &&
  one_of (default "" (jget "content_block" v ≫= get_str "type")) ANTHROPIC_TOOL_BLOCKS.

Definition started (v : Value) : Call :=
  let block := jget "content_block" v in
  item_call (int_or_zero "index" v) (default "" (block ≫= get_str "type")) block (block ≫= jget "input").

(** What an event adds to the input of the call under a key. *)
Definition fragment (key : string) (ev : SseEvent) : string :=
  match event_json ev with
  | Some v =>
    if (value_type v ==s "content_block_delta") && (index_key "index" v ==s key)
    then default "" (pointer2 "delta" "partial_json" v ≫= as_str) else ""
  | None => ""
  end.

Definition find_call (key : string) (calls : list Call) : option Call :=
  find (λ c, ca_key c ==s key) calls.

Lemma typed_event_inv tys ev :
  typed_event tys ev = true →
  ∃ v, event_json ev = Some v ∧ one_of (value_type v) tys = true ∧
    ∀ g, classify (event_json ev) (trim (ev_data ev) ==s "[DONE]") g = classify_typed v (holding g) g.
Proof.
  unfold typed_event, classify. destruct (trim (ev_data ev) ==s "[DONE]"); [done|]. cbn [negb andb].
  destruct (event_json ev) as [v|]; [|done].
  destruct (jget "choices" v ≫= as_array); [done|].
  destruct (jget "candidates" v ≫= as_array); [done|]. eauto.
Qed.

Lemma find_update key k f calls :
  (∀ c, ca_key (f c) = ca_key c) →
  find_call key (update_call k f calls) =
  (if k ==s key then f <$> find_call key calls else find_call key calls).
Proof.
  intros Hf. unfold find_call. induction calls as [|c calls IH]; [by destruct (k ==s key)|].
  cbn [update_call find]. destruct (ca_key c ==s k) eqn:Ek; cbn [find].
  - apply String.eqb_eq in Ek. rewrite Hf, Ek. by destruct (k ==s key).
  - destruct (ca_key c ==s key) eqn:E; [|exact IH].
    destruct (k ==s key) eqn:E2; [|done].
    apply String.eqb_eq in E, E2. rewrite E, E2, String.eqb_refl in Ek. done.
Qed.

Lemma find_start w c key g x :
  find_call key (sg_calls g) = Some x → find_call key (sg_calls (start_call w c g)) = Some x.
Proof.
  intros Hx. cbn [start_call sg_calls]. destruct (has_call (ca_key c) (sg_calls g)); [done|].
  revert Hx. unfold find_call. induction (sg_calls g) as [|d l IH]; [done|]. cbn.
  destruct (ca_key d ==s key); [done|]. exact IH.
Qed.

(** The guard holds a message back and has the call [c] under [key]. *)
Definition holds_call (key : string) (c : Call) (g : SseGuard) : Prop :=
  holding g = true ∧ sg_wire g = Some Anthropic ∧ find_call key (sg_calls g) = Some c.

Lemma push_input_nil c : push_input "" c = c.
Proof. destruct c. unfold push_input. cbn. by rewrite app_nil_s. Qed.

Lemma push_input_app a b c : push_input b (push_input a c) = push_input (a ++s b) c.
Proof. unfold push_input. cbn. by rewrite app_assoc_s. Qed.

Lemma hold_holding ev g : holding (hold_event ev g) = true.
Proof. unfold holding. cbn. by destruct (sg_held g). Qed.

Lemma content_event key c g ev :
  holds_call key c g → typed_event CONTENT_TYPES ev = true →
  ∃ g', on_event p ev g = Some (g', "") ∧ sg_blocks g' = sg_blocks g ∧
    holds_call key (push_input (fragment key ev) c) g'.
Proof.
  intros (Hh & Hw & Hc) Ht. destruct (typed_event_inv _ _ Ht) as (v & Ev & Hty & Hcl).
  unfold on_event. rewrite Hcl, Hh.
  assert (∀ g1, sg_blocks g1 = sg_blocks g → sg_wire g1 = Some Anthropic →
            find_call key (sg_calls g1) = Some (push_input (fragment key ev) c) →
            ∃ g', Some (hold_event ev g1, "") = Some (g', "") ∧ sg_blocks g' = sg_blocks g ∧
                  holds_call key (push_input (fragment key ev) c) g') as Hgo.
  { intros g1 Hb Hw1 Hc1. eexists. split_and!; [done..|]. split; [by apply hold_holding|done]. }
  unfold fragment in *. rewrite Ev in *. unfold classify_typed. cbv zeta.
  unfold one_of, CONTENT_TYPES in Hty. cbn [existsb] in Hty.
  destruct (value_type v ==s "content_block_start") eqn:E1.
  { apply String.eqb_eq in E1. rewrite E1 in *. cbn [String.eqb andb].
    change ("content_block_start" ==s "content_block_delta") with false in *. cbn [andb] in *.
    rewrite push_input_nil in *.
    destruct (one_of _ ANTHROPIC_TOOL_BLOCKS).
    - apply Hgo; [done| |by apply find_start]. cbn. by rewrite Hw.
    - by apply Hgo. }
  destruct (value_type v ==s "content_block_delta") eqn:E2.
  { cbn [andb] in *. destruct (pointer2 "delta" "partial_json" v ≫= as_str) as [frag|]; cbn [default] in *.
    - apply Hgo; [done..|]. cbn [with_calls sg_calls]. rewrite find_update by done. rewrite Hc.
      destruct (index_key "index" v ==s key); cbn; [done|]. by rewrite push_input_nil.
    - apply Hgo; [done..|]. destruct (index_key "index" v ==s key); by rewrite push_input_nil. }
  cbn [andb] in *. rewrite push_input_nil in *.
  assert (value_type v = "content_block_stop" ∨ value_type v = "ping") as [-> | ->].
  { rewrite !orb_true_iff, !String.eqb_eq in Hty. naive_solver. }
  all: by apply Hgo.
Qed.

Lemma elem_of_sort c l : c ∈ sort_calls l ↔ c ∈ l.
Proof.
  assert (∀ d l, c ∈ insert_call d l ↔ c = d ∨ c ∈ l) as Hi.
  { intros d l'. induction l' as [|e l' IH]; cbn [insert_call]; [by rewrite elem_of_cons|].
    destruct (ca_position d <=? ca_position e)%Z; [by rewrite elem_of_cons|].
    rewrite !elem_of_cons, IH. tauto. }
  induction l as [|d l IH]; [done|]. cbn [sort_calls fold_right]. fold (sort_calls l).
  rewrite Hi, IH, elem_of_cons. done.
Qed.

Lemma find_call_elem key calls c : find_call key calls = Some c → c ∈ calls.
Proof. intros [Hin _]%find_some. by apply list_elem_of_In. Qed.

(** Nothing comes out while a call is being received, and its input is what
    the fragments add up to. *)
Lemma content_events key c g evs :
  holds_call key c g → forallb (typed_event CONTENT_TYPES) evs = true →
  ∃ g', run g evs = Some (g', "") ∧ sg_blocks g' = sg_blocks g ∧
    holds_call key (push_input (fold_right String.append "" (fragment key <$> evs)) c) g'.
Proof.
  revert c g. induction evs as [|ev evs IH]; intros c g Hg Ht.
  { exists g. split_and!; [done..|]. by rewrite push_input_nil. }
  cbn [forallb] in Ht. apply andb_true_iff in Ht as [Ht Hts].
  destruct (content_event _ _ _ _ Hg Ht) as (g1 & Eo & Hb & Hc).
  destruct (IH _ _ Hc Hts) as (g2 & Er & Hb2 & Hc2).
  exists g2. cbn [run]. rewrite Eo. cbn [mbind option_bind]. rewrite Er. cbn [mbind option_bind String.append].
  rewrite push_input_app in Hc2. split_and!; [done|congruence|exact Hc2].
Qed.

Lemma tool_start_event g ev v :
  sg_calls g = [] → sg_wire g = None → typed_event CONTENT_TYPES ev = true →
  event_json ev = Some v → tool_start v = true →
  ∃ g', on_event p ev g = Some (g', "") ∧ sg_blocks g' = sg_blocks g ∧
    holds_call (index_key "index" v) (started v) g'.
Proof.
  intros Hc Hw Ht Ev Hs. destruct (typed_event_inv _ _ Ht) as (v' & Ev' & _ & Hcl).
  rewrite Ev in Ev'. injection Ev' as <-. unfold on_event. rewrite Hcl. unfold classify_typed. cbv zeta.
  unfold tool_start in Hs. apply andb_true_iff in Hs as [-> ->].
  eexists. split_and!; [done..|]. split; [apply hold_holding|]. cbn. rewrite Hw, Hc. split; [done|].
  unfold find_call. cbn. unfold index_key. by rewrite String.eqb_refl.
Qed.

(** ** The message a client reads instead *)

(** A text block that holds the explanation, as the events of a stream. *)
Definition explained (index : Z) (text : string) : list (string * Value) :=
  [("content_block_start",
    JObj [("type", JStr "content_block_start"); ("index", jZ index);
          ("content_block", JObj [("type", JStr "text"); ("text", JStr "")])]);
   ("content_block_delta",
    JObj [("type", JStr "content_block_delta"); ("index", jZ index);
          ("delta", JObj [("type", JStr "text_delta"); ("text", JStr text)])]);
   ("content_block_stop",
    JObj [("type", JStr "content_block_stop"); ("index", jZ index)])].

(** A turn that ended by itself, for a message whose end the model had not put
    into an event of its own. *)
Definition ended_turn : string * Value :=
  ("message_delta",
   JObj [("type", JStr "message_delta");
         ("delta", JObj [("stop_reason", JStr "end_turn"); ("stop_sequence", JNull)]);
         ("usage", JObj [("output_tokens", jN 0)])]).

Definition framed_events (evs : list (string * Value)) : string :=
  fold_right (λ e s, frame (Some e.1) e.2 ++s s) "" evs.

(** [v'] is [v] with its turn ended by itself: nothing else of it changes. *)
Definition turn_ended (v v' : Value) : Prop :=
  (∀ k, k ≠ "delta" → jget k v' = jget k v) ∧
  match jget "delta" v with
  | Some (JObj d) => ∃ d', jget "delta" v' = Some (JObj d') ∧
      obj_get "stop_reason" d' = Some (JStr "end_turn") ∧
      obj_get "stop_sequence" d' = Some JNull ∧
      ∀ k, k ≠ "stop_reason" → k ≠ "stop_sequence" → obj_get k d' = obj_get k d
  | d => jget "delta" v' = d
  end.

(** What comes out for the event that ends the message: a [message_delta] with
    its turn ended, or the [message_stop] itself after an ended turn. *)
Definition closing_of (fin : string) (out : string) : Prop :=
  ∃ v, event_json (SseEvent_parse fin) = Some v ∧
    if value_type v ==s "message_delta"
    then ∃ v', turn_ended v v' ∧ out = framed_events [("message_delta", v')]
    else out = framed_events [ended_turn] ++s fin.

Lemma turn_ended_update v : turn_ended v (update_key "delta" (on_object end_turn) v).
Proof.
  unfold turn_ended. destruct v as [| | | | |o]; try (by split). cbn [update_key jget].
  destruct (obj_get "delta" o) as [d|] eqn:Ed; [|by split].
  split; [intros k Hk; cbn [jget]; by rewrite obj_get_insert_ne|].
  cbn [jget]. rewrite obj_get_insert. destruct d as [| | | | |d]; try done. cbn [on_object].
  exists (end_turn d). split; [done|]. unfold end_turn.
  rewrite obj_get_insert, obj_get_insert_ne, obj_get_insert by done. split_and!; [done..|].
  intros k Hk1 Hk2. by rewrite !obj_get_insert_ne.
Qed.

Lemma anthropic_rewrite_reads index text fin v :
  event_json (SseEvent_parse fin) = Some v →
  ∃ closing, closing_of fin closing ∧
    anthropic_rewrite index text (Some (SseEvent_parse fin)) (event_json (SseEvent_parse fin)) =
      framed_events (explained index text) ++s closing.
Proof.
  intros Ev. unfold anthropic_rewrite. rewrite Ev. unfold closing_of. rewrite Ev.
  assert (anthropic_text_block index text = framed_events (explained index text)) as ->.
  { unfold anthropic_text_block, framed_events. cbn [explained fold_right fst snd].
    by rewrite app_nil_s. }
  eexists. split; [|reflexivity]. exists v. split; [done|].
  destruct (value_type v ==s "message_delta") eqn:Et.
  - apply String.eqb_eq in Et. pose proof (turn_ended_update v) as Hu.
    eexists. split; [exact Hu|]. unfold typed_frame, framed_events. cbn [fold_right fst snd].
    rewrite app_nil_s. f_equal. unfold value_type, get_str in *. rewrite (proj1 Hu) by done.
    destruct (jget "type" v ≫= as_str) as [ty|]; cbn in *; [by rewrite Et|done].
  - unfold framed_events. cbn [fold_right fst snd ended_turn]. rewrite app_nil_s.
    unfold SseEvent_parse. by destruct (foldl _ _ _).
Qed.

(** The calls of a message in the order of their positions. *)
Lemma sort_first l c : head (sort_calls l) = Some c → ∀ d, d ∈ l → (ca_position c <= ca_position d)%Z.
Proof.
  revert c. induction l as [|e l IH]; [done|]. cbn [sort_calls fold_right]. fold (sort_calls l).
  intros c Hc d Hd. destruct (sort_calls l) as [|f s] eqn:Es.
  - injection Hc as <-. apply elem_of_cons in Hd as [-> |Hd]; [lia|].
    apply elem_of_sort in Hd. rewrite Es in Hd. by apply elem_of_nil in Hd.
  - specialize (IH f eq_refl). cbn [insert_call] in Hc.
    destruct (ca_position e <=? ca_position f)%Z eqn:E; injection Hc as <-.
    + apply Z.leb_le in E. apply elem_of_cons in Hd as [-> |Hd]; [lia|]. specialize (IH d Hd). lia.
    + apply Z.leb_gt in E. apply elem_of_cons in Hd as [-> |Hd]; [lia|]. by apply IH.
Qed.

(** The call a block is about: one of the message, not exempt, and a hit; and
    the place of the explanation, that of the first call. *)
Definition blocked_call (calls : list Call) (call : Call) (hit : Hit) (input : string)
    (first : Z) : Prop :=
  call ∈ calls ∧ call_exempt (Some Anthropic) call = false ∧ call_scan p call = Some (hit, input) ∧
  (∃ c, c ∈ calls ∧ ca_position c = first) ∧ ∀ c, c ∈ calls → (first <= ca_position c)%Z.

Lemma end_event key c g fin r :
  holds_call key c g → typed_event ["message_delta"; "message_stop"] (SseEvent_parse fin) = true →
  call_exempt (Some Anthropic) c = false → call_scan p c = Some r →
  ∃ call hit input first closing,
    blocked_call (sg_calls g) call hit input first ∧ closing_of fin closing ∧
    on_event p (SseEvent_parse fin) g =
    Some (mkGuard (sg_pending g) [] None [] (sg_blocks g ++ [Block_new (ca_name call) hit input]),
          framed_events (explained first (explanation (ca_name call) hit)) ++s closing).
Proof.
  intros (Hh & Hw & Hc) Ht Hx Hs. destruct (typed_event_inv _ _ Ht) as (v & Ev & Hty & Hcl).
  unfold on_event. rewrite Hcl, Hh.
  assert (classify_typed v true g = (g, End)) as ->.
  { unfold one_of in Hty. cbn [existsb] in Hty. rewrite orb_false_r in Hty.
    unfold classify_typed. cbv zeta. rewrite Hty.
    apply orb_true_iff in Hty as [->%String.eqb_eq | ->%String.eqb_eq]; done. }
  apply find_call_elem in Hc. unfold resolve_turn. rewrite Hw.
  destruct (first_hit p (Some Anthropic) (sort_calls (sg_calls g))) as [[[c' h] input]|] eqn:Ef.
  - destruct (sort_calls (sg_calls g)) as [|d ds] eqn:Es; [by apply elem_of_sort in Hc; rewrite Es in Hc; apply elem_of_nil in Hc|].
    destruct (anthropic_rewrite_reads (ca_position d) (explanation (ca_name c') h) _ _ Ev)
      as (closing & Hcl' & Hout).
    exists c', h, input, (ca_position d), closing. split_and!; [|done|].
    + unfold first_hit in Ef. apply find_map_Some in Ef as (x & Hx' & Ex).
      destruct (call_exempt (Some Anthropic) x) eqn:Exx; [done|].
      destruct (call_scan p x) as [[h' i']|] eqn:Exs; [|done]. cbn in Ex. injection Ex as <- <- <-.
      assert (x ∈ sg_calls g) as Hin by (apply elem_of_sort; by rewrite Es).
      split_and!; try done.
      * exists d. split; [|done]. apply elem_of_sort. rewrite Es. by left.
      * apply sort_first. by rewrite Es.
    + cbn [blocked_output mbind option_bind]. by rewrite <-Hout.
  - exfalso. unfold first_hit in Ef. rewrite find_map_None in Ef.
    specialize (Ef c). rewrite elem_of_sort, Hx, Hs in Ef. destruct r. cbn in Ef.
    by discriminate Ef.
Qed.

Lemma run_app g a b :
  run g (a ++ b) = '(g1, o1) ← run g a; '(g2, o2) ← run g1 b; Some (g2, o1 ++s o2).
Proof.
  revert g. induction a as [|ev a IH]; intros g.
  { cbn. by destruct (run g b) as [[g2 o2]|]. }
  cbn [app run]. destruct (on_event p ev g) as [[g1 o1]|]; [|done]. cbn [mbind option_bind].
  rewrite IH. destruct (run g1 a) as [[g2 o2]|]; [|done]. cbn [mbind option_bind].
  destruct (run g2 b) as [[g3 o3]|]; [|done]. cbn. by rewrite app_assoc_s.
Qed.

Lemma run_keeps_pending g evs g' out : run g evs = Some (g', out) → sg_pending g' = sg_pending g.
Proof.
  revert g out. induction evs as [|ev evs IH]; intros g out; cbn [run]; [by intros [= <- _]|].
  destruct (on_event p ev g) as [[g1 o1]|] eqn:Eo; [|done]. cbn [mbind option_bind].
  destruct (run g1 evs) as [[g2 o2]|] eqn:Er; [|done]. intros [= <- _].
  by rewrite (IH _ _ Er), (on_event_keeps_pending _ _ _ _ Eo).
Qed.

(** A guard between messages. *)
Definition idle (g : SseGuard) : Prop :=
  sg_pending g = "" ∧ sg_held g = [] ∧ sg_wire g = None ∧ sg_calls g = [].

(** C7. A message in an Anthropic stream, from the first tool call to its end: the
    block that starts the call, further content events, and the end of the
    message, cut into chunks in any way.  When the call, with the fragments of
    its input put together, is not exempt and breaks the policy, nothing comes
    out before the end, and then the client reads a text block with the
    explanation in the place of the first call, followed by the end of a turn
    that ended by itself: the [message_delta] with its stop reason replaced and
    nothing else of it changed, or such a [message_delta] and the [message_stop]
    as it came.  One block is recorded, for a call of the message that is not
    exempt and breaks the policy, the one the explanation names. *)
Theorem anthropic_hit_blocked g start frames fin v r chunks :
  idle g → forallb framed (start :: frames ++ [fin]) = true →
  body chunks = body (start :: frames ++ [fin]) →
  typed_event CONTENT_TYPES (SseEvent_parse start) = true →
  event_json (SseEvent_parse start) = Some v → tool_start v = true →
  forallb (typed_event CONTENT_TYPES) (SseEvent_parse <$> frames) = true →
  typed_event ["message_delta"; "message_stop"] (SseEvent_parse fin) = true →
  (let input := fold_right String.append ""
                  (fragment (index_key "index" v) <$> (SseEvent_parse <$> frames)) in
   let call := push_input input (started v) in
   call_exempt (Some Anthropic) call = false ∧ call_scan p call = Some r) →
  ∃ held call hit input first closing,
    run g (SseEvent_parse <$> start :: frames) = Some (held, "") ∧
    blocked_call (sg_calls held) call hit input first ∧ closing_of fin closing ∧
    feed_chunks g chunks =
    Some (mkGuard "" [] None [] (sg_blocks g ++ [Block_new (ca_name call) hit input]),
          framed_events (explained first (explanation (ca_name call) hit)) ++s closing).
Proof.
  intros (Hp & Hh & Hw & Hc) Hfr Hb Hs Ev Hts Hfs Hfin [Hx Hcs].
  rewrite feed_chunks_body by (by rewrite Hp). rewrite Hb, <-push_drain, push_events by done.
  destruct (tool_start_event g _ v Hc Hw Hs Ev Hts) as (g1 & Eo & Hb1 & Hc1).
  destruct (content_events _ _ _ _ Hc1 Hfs) as (g2 & Er & Hb2 & Hc2).
  assert (run g (SseEvent_parse <$> start :: frames) = Some (g2, "")) as Hrun.
  { cbn [fmap list_fmap run]. rewrite Eo. cbn [mbind option_bind].
    change (list_fmap ?A ?B ?f ?l) with (@fmap list _ A B f l). by rewrite Er. }
  change (start :: frames ++ [fin]) with ((start :: frames) ++ [fin]).
  rewrite fmap_app, run_app, Hrun. cbn [mbind option_bind fmap list_fmap run].
  destruct (end_event _ _ _ fin _ Hc2 Hfin Hx Hcs) as (call & hit & input & first & closing & Hcall & Hcl & ->).
  cbn [mbind option_bind String.append]. exists g2, call, hit, input, first, closing.
  rewrite app_nil_s, Hb2, Hb1, (run_keeps_pending _ _ _ _ Hrun), Hp. done.
Qed.

(** ** Facts: complete bodies *)

(** The calls of a body: name and input for the exemption, and what is scanned. *)
Definition JCall : Type := string * Value * Value.

Definition gemini_calls (candidates : list Value) : list JCall :=
  omap (λ part, call ← jget "functionCall" part;
      Some (default "functionCall" (get_str "name" call), default JNull (jget "args" call), call))
    (List.concat (omap (λ c, pointer2 "content" "parts" c ≫= as_array) candidates)).

Definition content_calls (content : list Value) : list JCall :=
  (λ b, (default (value_type b) (get_str "name" b), default JNull (jget "input" b), default JNull (jget "input" b)))
  <$> List.filter is_tool_block content.

Definition output_calls (output : list Value) : list JCall :=
  (λ i, (qualified_name (default (value_type i) (get_str "name" i)) (get_str "namespace" i),
         match jget "arguments" i with Some a => decode_input a | None => JNull end, i))
  <$> List.filter is_tool_item output.

Definition chat_call (tc : Value) : JCall :=
  (default "tool" (pointer2 "function" "name" tc ≫= as_str),
   match pointer2 "function" "arguments" tc with Some a => decode_input a | None => JNull end,
   default tc (jget "function" tc)).

Definition choice_calls (choice : Value) : list JCall :=
  chat_call <$> default [] (pointer2 "message" "tool_calls" choice ≫= as_array).

Definition body_calls (v : Value) : list JCall :=
  match jget "candidates" v ≫= as_array with
  | Some candidates => gemini_calls candidates
  | None =>
    match jget "content" v ≫= as_array with
    | Some content => content_calls content
    | None =>
      match jget "output" v ≫= as_array with
      | Some output => output_calls output
      | None => List.concat (choice_calls <$> default [] (jget "choices" v ≫= as_array))
      end
    end
  end.

Definition cleared (c : JCall) : bool :=
  let '(name, input, scanned) := c in
  exempt_tool name input || match scan_value p scanned with Some _ => false | None => true end.

Lemma gemini_hit_None candidates :
  gemini_json_hit p candidates = None ↔ forallb cleared (gemini_calls candidates) = true.
Proof.
  unfold gemini_json_hit, gemini_calls. generalize (List.concat (omap (λ c, pointer2 "content" "parts" c ≫= as_array) candidates)).
  intros l. induction l as [|part l IH]; [done|]. cbn [find_map omap list_omap].
  destruct (jget "functionCall" part) as [call|]; cbn [mbind option_bind forallb]; [|exact IH].
  unfold cleared at 1. destruct (exempt_tool _ _); cbn [orb]; [exact IH|].
  destruct (scan_value p call); [done|]. exact IH.
Qed.

Lemma content_hit_None content :
  content_hit p content = None ↔ forallb cleared (content_calls content) = true.
Proof.
  unfold content_hit, content_calls. induction content as [|b l IH]; [done|]. cbn [find_map List.filter].
  destruct (is_tool_block b); cbn [negb fmap list_fmap forallb]; [|exact IH].
  unfold cleared at 1. destruct (exempt_tool _ _); cbn [orb]; [exact IH|].
  destruct (scan_value p _); [done|]. exact IH.
Qed.

Lemma output_hit_None output :
  output_hit p output = None ↔ forallb cleared (output_calls output) = true.
Proof.
  unfold output_hit, output_calls. induction output as [|b l IH]; [done|]. cbn [find_map List.filter].
  destruct (is_tool_item b); cbn [negb fmap list_fmap forallb]; [|exact IH].
  unfold cleared at 1. destruct (exempt_tool _ _); cbn [orb]; [exact IH|].
  destruct (scan_value p _); [done|]. exact IH.
Qed.

Lemma choices_hit_None choices :
  choices_hit p choices = None ↔ forallb cleared (List.concat (choice_calls <$> choices)) = true.
Proof.
  unfold choices_hit. induction choices as [|c l IH]; [done|].
  cbn [find_map fmap list_fmap List.concat]. rewrite forallb_app, andb_true_iff. unfold choice_calls at 1.
  destruct (pointer2 "message" "tool_calls" c ≫= as_array) as [tcs|]; cbn [mbind option_bind default].
  2: { cbn. rewrite IH. tauto. }
  assert (find_map (chat_call_hit p) tcs = None ↔ forallb cleared (chat_call <$> tcs) = true) as <-.
  { clear. induction tcs as [|tc tcs IH]; [done|]. cbn [find_map fmap list_fmap forallb].
    unfold cleared at 1, chat_call at 1, chat_call_hit at 1. cbv zeta.
    destruct (exempt_tool _ _); cbn [orb]; [exact IH|]. destruct (scan_value p _); [done|]. exact IH. }
  destruct (find_map (chat_call_hit p) tcs); [|rewrite IH; tauto]. split; [done|]. by intros [? _].
Qed.

Lemma obj_get_remove k j o : obj_get k (obj_remove j o) = if k ==s j then None else obj_get k o.
Proof.
  unfold obj_remove. induction o as [|[k' v] o IH]; [by destruct (k ==s j)|].
  cbn [List.filter obj_get fst]. destruct (String.eqb_spec j k') as [<-|Hj]; cbn [negb obj_get].
  - rewrite IH. by destruct (k ==s j).
  - rewrite IH. destruct (String.eqb_spec k j) as [->|]; [|done].
    by destruct (String.eqb_spec j k').
Qed.

Lemma before_tools_clean content : List.filter is_tool_block (before_tools content) = [].
Proof.
  induction content as [|b l IH]; [done|]. cbn [before_tools].
  destruct (is_tool_block b) eqn:E; [done|]. cbn [List.filter]. by rewrite E.
Qed.

Lemma filter_negb {A} (f : A → bool) l : List.filter f (List.filter (λ x, negb (f x)) l) = [].
Proof.
  induction l as [|x l IH]; [done|]. cbn. destruct (f x) eqn:E; cbn; [done|]. by rewrite E.
Qed.

Lemma silenced_choice text c : choice_calls (silence_choice text c) = [].
Proof.
  unfold choice_calls, silence_choice, pointer2. destruct c as [| | | | |o]; try done. cbn [jget].
  destruct (obj_get "message" o) as [[| | | | |m]|] eqn:Em; cbn [jget]; rewrite ?Em; try done.
  destruct (obj_get "tool_calls" m) eqn:Et.
  2: { cbn [jget mbind option_bind]. rewrite Em. cbn. by rewrite Et. }
  cbn [jget mbind option_bind]. rewrite obj_get_insert_ne, obj_get_insert by done. cbn [mbind option_bind jget].
  rewrite obj_get_insert_ne by done. rewrite obj_get_remove. done.
Qed.

Lemma silenced_choices text choices :
  List.concat (choice_calls <$> (silence_choice text <$> choices)) = [].
Proof.
  induction choices as [|c l IH]; [done|]. cbn [fmap list_fmap List.concat].
  by rewrite silenced_choice.
Qed.

(** A complete body is left alone exactly when each of its calls is exempt or
    breaks no rule; a body that is rewritten carries no call any more. *)
Theorem rewrite_body_correct v :
  (rewrite_value p v = None ↔ forallb cleared (body_calls v) = true) ∧
  ∀ v' b, rewrite_value p v = Some (v', b) → body_calls v' = [].
Proof.
  unfold rewrite_value, body_calls. destruct v as [| | | | |o]; try (split; [done|done]). cbn [jget].
  destruct (obj_get "candidates" o ≫= as_array) as [candidates|] eqn:E1.
  { rewrite <-gemini_hit_None. destruct (gemini_json_hit p candidates) as [[[n h] i]|]; [|done].
    cbn [mbind option_bind]. split; [done|]. intros v' b [= <- _]. cbn [jget].
    by rewrite obj_get_insert. }
  destruct (obj_get "content" o ≫= as_array) as [content|] eqn:E2.
  { rewrite <-content_hit_None. destruct (content_hit p content) as [[[n h] i]|]; [|done].
    cbn [mbind option_bind]. split; [done|]. intros v' b [= <- _]. cbn [jget].
    rewrite !(obj_get_insert_ne _ "candidates"), E1 by done.
    rewrite !(obj_get_insert_ne _ "content"), obj_get_insert by done. cbn [mbind option_bind as_array].
    unfold content_calls. rewrite List.filter_app, before_tools_clean. done. }
  destruct (obj_get "output" o ≫= as_array) as [output|] eqn:E3.
  { rewrite <-output_hit_None. destruct (output_hit p output) as [[[n h] i]|]; [|done].
    cbn [mbind option_bind]. split; [done|]. intros v' b [= <- _]. cbn [jget].
    rewrite !(obj_get_insert_ne _ "candidates"), E1, !(obj_get_insert_ne _ "content"), E2, obj_get_insert by done.
    cbn [mbind option_bind as_array]. unfold output_calls. rewrite List.filter_app, filter_negb. done. }
  destruct (obj_get "choices" o ≫= as_array) as [choices|] eqn:E4; cbn [default]; [|done].
  rewrite <-choices_hit_None. cbn [mbind option_bind].
  destruct (choices_hit p choices) as [[[n h] i]|] eqn:E5; [|by unfold id; rewrite E5]. unfold id; rewrite E5.
  cbn [mbind option_bind]. split; [done|]. intros v' b [= <- _]. cbn [jget].
  rewrite !(obj_get_insert_ne _ "candidates"), E1, !(obj_get_insert_ne _ "content"), E2,
    !(obj_get_insert_ne _ "output"), E3, obj_get_insert by done.
  cbn [mbind option_bind as_array default]. by rewrite silenced_choices.
Qed.

(** ** Facts: scanning *)

(** The texts of a value: its strings, the values of its objects, and the
    strings of encoded values up to a depth. *)
Inductive has_text : nat → Value → string → Prop :=
  | text_here n s : has_text n (JStr s) s
  | text_decoded n s d t :
      starts_with "{" (trim_start s) || starts_with "[" (trim_start s) = true →
      json_from_str s = Some d → has_text n d t → has_text (S n) (JStr s) t
  | text_elem n l x t : x ∈ l → has_text n x t → has_text n (JArr l) t
  | text_value_of n o k x t : (k, x) ∈ o → has_text n x t → has_text n (JObj o) t.

Lemma or_else_None {A} (a b : option A) : or_else a b = None ↔ a = None ∧ b = None.
Proof. destruct a; naive_solver. Qed.

Lemma scan_elems n l :
  scan_value_at n p (JArr l) = None ↔ ∀ x, x ∈ l → scan_value_at n p x = None.
Proof.
  destruct n; (induction l as [|x l IH]; [split; [by intros _ x ?%elem_of_nil|done]|]);
    cbn [scan_value_at] in IH |- *; rewrite or_else_None, IH; setoid_rewrite elem_of_cons; naive_solver.
Qed.

Lemma scan_values n o :
  scan_value_at n p (JObj o) = None ↔ ∀ k x, (k, x) ∈ o → scan_value_at n p x = None.
Proof.
  destruct n; (induction o as [|[k x] o IH]; [split; [by intros _ k x ?%elem_of_nil|done]|]);
    cbn [scan_value_at] in IH |- *; rewrite or_else_None, IH; setoid_rewrite elem_of_cons; naive_solver.
Qed.

(** Induction on values through arrays and objects. *)
Lemma value_nested (P : Value → Prop) :
  P JNull → (∀ b, P (JBool b)) → (∀ n, P (JNum n)) → (∀ s, P (JStr s)) →
  (∀ l, (∀ x, x ∈ l → P x) → P (JArr l)) →
  (∀ o, (∀ k x, (k, x) ∈ o → P x) → P (JObj o)) → ∀ v, P v.
Proof.
  intros Hn Hb Hm Hs Ha Ho. fix go 1. intros [| | | |l|o]; [exact Hn|apply Hb|apply Hm|apply Hs| |].
  - apply Ha, Forall_forall. induction l as [|y l IH]; constructor; [apply go|exact IH].
  - apply Ho. assert (Forall (λ kx, P kx.2) o) as Hall.
    { induction o as [|[j y] o IH]; constructor; [apply go|exact IH]. }
    intros k x Hx. rewrite Forall_forall in Hall. apply (Hall (k, x) Hx).
Qed.

(** A value passes the scan exactly when none of its texts hits: the strings
    at any depth of arrays and objects, and those of JSON encoded in a string,
    four levels deep. *)
Theorem scan_value_complete v :
  scan_value p v = None ↔ ∀ s, has_text MAX_DECODE_DEPTH v s → scan_str p s = None.
Proof.
  unfold scan_value. split.
  - intros Hs s Ht. induction Ht as [n s|n s d t Hst Hd Ht IH|n l x t Hx Ht IH|n o k x t Hx Ht IH].
    + destruct n; cbn [scan_value_at] in Hs; by apply or_else_None in Hs as [? _].
    + apply IH. cbn [scan_value_at] in Hs. apply or_else_None in Hs as [_ Hs].
      rewrite Hst, Hd in Hs. exact Hs.
    + apply IH. rewrite scan_elems in Hs. by apply Hs.
    + apply IH. rewrite scan_values in Hs. by eapply Hs.
  - revert v. generalize MAX_DECODE_DEPTH as n. induction n as [|n IHn]; intros v;
      (induction v as [| | |s|l IH|o IH] using value_nested; intros Hall; [done|done|done| | |]).
    2,5: apply scan_elems; intros x Hx; apply IH; [done|]; intros s Hs; apply Hall; by econstructor.
    2,4: apply scan_values; intros k x Hx; apply (IH k); [done|]; intros s Hs; apply Hall; by econstructor.
    + cbn [scan_value_at]. apply or_else_None. split; [apply Hall; constructor|done].
    + cbn [scan_value_at]. apply or_else_None. split; [apply Hall; constructor|].
      destruct (_ || _) eqn:Est; [|done]. destruct (json_from_str s) as [d|] eqn:Ed; [|done].
      apply IHn. intros t Ht. apply Hall. by econstructor.
Qed.

(** ** Facts: saving a policy *)

Lemma one_of_spec s l : one_of s l = true ↔ s ∈ l.
Proof.
  unfold one_of. rewrite existsb_exists. setoid_rewrite String.eqb_eq.
  split; [intros (x & Hx & ->); by apply list_elem_of_In|intros Hs%list_elem_of_In; eauto].
Qed.

Lemma clean_list_spec l :
  NoDup (clean_list l) ∧ ∀ x, x ∈ clean_list l ↔ ∃ s, s ∈ l ∧ trim s = x ∧ x ≠ "".
Proof.
  unfold clean_list. set (f := λ out s, _).
  assert (∀ out, NoDup out → NoDup (foldl f out l) ∧
    ∀ x, x ∈ foldl f out l ↔ x ∈ out ∨ ∃ s, s ∈ l ∧ trim s = x ∧ x ≠ "") as Hall.
  2: { destruct (Hall [] (NoDup_nil_2)) as [Hn Hx]. split; [done|]. intros x. rewrite Hx.
       split; [by intros [?%elem_of_nil|?]|by right]. }
  induction l as [|s l IH]; intros out Hout.
  { split; [done|]. intros x. split; [by left|]. intros [?|(s & Hs & _)]; [done|by apply elem_of_nil in Hs]. }
  cbn [foldl]. assert (NoDup (f out s) ∧ ∀ x, x ∈ f out s ↔ x ∈ out ∨ (trim s = x ∧ x ≠ "")) as [Hn Hf].
  { unfold f. cbv beta zeta. destruct (trim s) as [|a t] eqn:Et; [split; [done|naive_solver]|].
    change (is_empty (String a t)) with false. cbn [negb andb].
    destruct (one_of (String a t) out) eqn:Eo; cbn [negb].
    - apply one_of_spec in Eo. split; [done|]. naive_solver.
    - split.
      + apply NoDup_app. split_and!; [done| |apply NoDup_singleton]. intros x Hx ->%list_elem_of_singleton.
        apply one_of_spec in Hx. congruence.
      + intros x. rewrite elem_of_app, list_elem_of_singleton. naive_solver. }
  destruct (IH _ Hn) as [H5 H6]. split; [done|]. intros x. rewrite H6, Hf.
  setoid_rewrite elem_of_cons. naive_solver.
Qed.

Lemma clean_ok what l out :
  clean what l = Ok out → out = clean_list l ∧ (List.length out ≤ MAX_ENTRIES)%nat.
Proof. unfold clean. cbv zeta. case_match eqn:E; [done|]. apply Nat.ltb_ge in E. by intros [= <-]. Qed.

Lemma clean_list_keeps l s : s ∈ l → trim s ≠ "" → trim s ∈ clean_list l.
Proof. intros Hs Hne. apply clean_list_spec. eauto. Qed.

Lemma clean_list_nil l : clean_list l = [] ↔ ∀ s, s ∈ l → trim s = "".
Proof.
  split.
  - intros Hn s Hs. destruct (decide (trim s = "")) as [|Hne]; [done|].
    pose proof (clean_list_keeps _ _ Hs Hne) as Hx. rewrite Hn in Hx. by apply elem_of_nil in Hx.
  - intros Hl. destruct (clean_list l) as [|x r] eqn:Ec; [done|]. exfalso.
    assert (x ∈ clean_list l) as (s & Hs & <- & Hne)%clean_list_spec by (rewrite Ec; constructor).
    by apply Hne, Hl.
Qed.

Lemma normalize_ok tp q :
  normalize_policy tp = Ok q →
  tp_terms q = clean_list (tp_terms tp) ∧ tp_patterns q = clean_list (tp_patterns tp) ∧
  tp_protected_owners q = clean_list (tp_protected_owners tp) ∧
  (∀ r, r ∈ tp_patterns q → regex_ok r = true ∧ (String.length r ≤ MAX_PATTERN_LEN)%nat) ∧
  (∀ root, root ∈ tp_exempt_roots q → root ≠ "/" ∧ starts_with "/" root = true).
Proof.
  unfold normalize_policy.
  destruct (clean "terms" (tp_terms tp)) as [terms|] eqn:E1; [|done].
  destruct (clean "patterns" (tp_patterns tp)) as [patterns|] eqn:E2; [|done].
  destruct (clean "protected owners" (tp_protected_owners tp)) as [owners|] eqn:E3; [|done].
  destruct (clean "exempt roots" (tp_exempt_roots tp)) as [roots|] eqn:E4; [|done].
  apply clean_ok in E1 as [-> _], E2 as [-> _], E3 as [-> _], E4 as [-> _].
  cbn [mbind result_bind]. cbv zeta. set (rs := List.filter _ (normalize_root <$> _)).
  destruct (find_map _ _) eqn:Ef; [done|]. rewrite find_map_None in Ef.
  destruct (find _ rs) eqn:Er; [done|]. intros [= <-]. split_and!; [done..| |].
  - intros r Hr. specialize (Ef r Hr). destruct (_ <? _)%nat eqn:El; [done|]. apply Nat.ltb_ge in El.
    by destruct (regex_ok r).
  - intros root Hroot%list_elem_of_In. pose proof (find_none _ _ Er _ Hroot) as Hn.
    apply negb_false_iff in Hn. split; [|done]. apply filter_In in Hroot as [_ Hs]. by intros ->.
Qed.

(** A policy that was accepted is enforced as written: every entry that is not
    blank is one of the compiled rules, no pattern is dropped, and no exempt
    root is relative or the whole file system. *)
Theorem saved_policy_enforced tp q :
  normalize_policy tp = Ok q →
  (∀ c, compile_policy q = Some c →
    (∀ t, t ∈ tp_terms tp → trim t ≠ "" → to_lowercase (trim t) ≠ "" →
      to_lowercase (trim t) ∈ cp_terms c) ∧
    (∀ r, r ∈ tp_patterns tp → trim r ≠ "" →
      trim r ∈ cp_patterns c ∧ regex_ok (trim r) = true ∧ (String.length (trim r) ≤ MAX_PATTERN_LEN)%nat) ∧
    (∀ o, o ∈ tp_protected_owners tp → trim o ≠ "" → to_lowercase (trim o) ∈ cp_owners c) ∧
    ∀ root, root ∈ cp_exempt_roots c → root ≠ "/" ∧ starts_with "/" root = true) ∧
  (compile_policy q = None ↔
    ∀ s, s ∈ tp_terms tp ++ tp_patterns tp ++ tp_protected_owners tp → trim s = "").
Proof.
  intros (Ht & Hp & Ho & Hre & Hroot)%normalize_ok. unfold compile_policy. split.
  - destruct (is_inert q); [done|]. intros c [= <-].
    cbn [cp_terms cp_patterns cp_owners cp_exempt_roots]. rewrite Ht, Ho. split_and!; [| | |exact Hroot].
    + intros t Hin Hne Hlow. apply list_elem_of_In, filter_In. split; [|by destruct (to_lowercase (trim t))].
      apply list_elem_of_In, list_elem_of_fmap. eauto using clean_list_keeps.
    + intros r Hr Hne. pose proof (clean_list_keeps _ _ Hr Hne) as Hin. rewrite <-Hp in Hin.
      destruct (Hre _ Hin) as [Hok Hlen]. split_and!; [|done..].
      apply list_elem_of_In, filter_In. split; [by apply list_elem_of_In|done].
    + intros o Hin Hne. apply list_elem_of_fmap. eauto using clean_list_keeps.
  - assert (is_inert q = true ↔ tp_terms q = [] ∧ tp_patterns q = [] ∧ tp_protected_owners q = []) as Hi.
    { unfold is_inert. repeat case_match; naive_solver. }
    transitivity (is_inert q = true); [by destruct (is_inert q)|].
    rewrite Hi, Ht, Hp, Ho, !clean_list_nil. setoid_rewrite elem_of_app. setoid_rewrite elem_of_app.
    naive_solver.
Qed.

End guard.

(** ** Witnesses *)

Definition demo_start : Value :=
  JObj [text_value "type" "content_block_start"; ("index", jN 1);
        ("content_block", JObj [text_value "type" "tool_use"; text_value "name" "Bash"; ("input", JObj [])])].

Definition demo_delta (frag : string) : Value :=
  JObj [text_value "type" "content_block_delta"; ("index", jN 1);
        ("delta", JObj [text_value "type" "input_json_delta"; text_value "partial_json" frag])].

Definition demo_end : Value :=
  JObj [text_value "type" "message_delta"; ("delta", JObj [text_value "stop_reason" "tool_use"])].

(** A call in the chat format's older field. *)
Definition demo_function_call : string * Value :=
  ("function_call", JObj [text_value "name" "Bash"; text_value "arguments" "git push secret"]).

Definition demo_legacy : Value :=
  JObj [("choices", JArr [JObj [("index", jN 0); ("delta", JObj [demo_function_call]);
                                text_value "finish_reason" "function_call"]])].

Definition demo_json : JsonText := {|
  json_to_string := λ _, "{}";
  json_from_str s :=
    if s ==s "start" then Some demo_start
    else if s ==s "one" then Some (demo_delta "git push se")
    else if s ==s "two" then Some (demo_delta "cret")
    else if s ==s "end" then Some demo_end
    else if s ==s "legacy" then Some demo_legacy
    else if s ==s "[nested]" then Some (JArr [JStr "a secret"])
    else None |}.

Definition demo_regexes : Regexes := {|
  regex_ok := λ _, true;
  regex_find := λ _ _, None;
  cross_refs := λ _, [];
  github_urls := λ _, [] |}.

Definition demo_lower : LowerText := λ s, s.
Definition demo_sha : Sha256 := λ s, s.

Definition demo_policy : CompiledPolicy := mkCompiled ["secret"] [] [] [].

Definition demo_frame (s : string) : string := "data: " ++s s ++s nl ++s nl.

(** A frame arrives in two halves and carries no call: it comes out whole. *)
Lemma unblocked_stream_verbatim_witness :
  let p := demo_policy in
  let respond := @respond demo_regexes demo_lower demo_json demo_sha p in
  respond ["data: h"; "i" ++s nl ++s nl] = respond [demo_frame "hi"] ∧
  ∃ g, respond ["data: h"; "i" ++s nl ++s nl] = Some (g, demo_frame "hi").
Proof.
  pose proof (@unblocked_stream_verbatim demo_regexes demo_lower demo_json demo_sha demo_policy
    ["data: h"; "i" ++s nl ++s nl]) as [Hc Hv]. cbv zeta. split.
  - symmetry. apply Hc. vm_compute. reflexivity.
  - eexists. etrans; [vm_compute; reflexivity|]. do 2 f_equal.
Defined.

Lemma anthropic_hit_blocked_witness :
  ∃ held call hit input first closing,
    @run demo_regexes demo_lower demo_json demo_sha demo_policy SseGuard_new
      (SseEvent_parse <$> [demo_frame "start"; demo_frame "one"; demo_frame "two"]) = Some (held, "") ∧
    @blocked_call demo_regexes demo_lower demo_json demo_policy (sg_calls held) call hit input first ∧
    @closing_of demo_json (demo_frame "end") closing ∧
    @feed_chunks demo_regexes demo_lower demo_json demo_sha demo_policy SseGuard_new
      [demo_frame "start" ++s "data: o"; "ne" ++s nl ++s nl ++s demo_frame "two" ++s demo_frame "end"] =
    Some (mkGuard "" [] None [] ([] ++ [@Block_new demo_sha (ca_name call) hit input]),
          @framed_events demo_json (explained first (explanation (ca_name call) hit)) ++s closing).
Proof.
  apply (@anthropic_hit_blocked demo_regexes demo_lower demo_json demo_sha demo_policy SseGuard_new
    (demo_frame "start") [demo_frame "one"; demo_frame "two"] (demo_frame "end") demo_start
    (mkHit "denylist" "secret", "git push secret")); try (vm_compute; reflexivity).
  - split_and!; reflexivity.
  - split; vm_compute; reflexivity.
Defined.

Lemma saved_policy_enforced_witness :
  ∃ c, @compile_policy demo_regexes demo_lower (mkToolPolicy ["secret"] [] [] ["/srv/a"]) = Some c ∧
    "secret" ∈ cp_terms c.
Proof.
  destruct (@saved_policy_enforced demo_regexes demo_lower
    (mkToolPolicy [" secret "; "secret"] [] [] ["/srv/./a/b/.."])
    (mkToolPolicy ["secret"] [] [] ["/srv/a"])) as [Hall _]; [vm_compute; reflexivity|].
  eexists. split; [reflexivity|].
  destruct (Hall _ eq_refl) as [Ht _]. apply (Ht " secret "); [constructor|done|done].
Defined.

(** An encoded list is decoded and its string found. *)
Example demo_nested :
  @scan_value demo_regexes demo_lower demo_json demo_policy (JObj [text_value "args" "[nested]"]) =
  Some (mkHit "denylist" "secret").
Proof. reflexivity. Qed.

(** Only [tool_calls] is looked at: a call in [function_call] passes, streamed
    or whole, although the rewriting of a chat message removes that field. *)
Example legacy_function_call_passes :
  (∃ g, @respond demo_regexes demo_lower demo_json demo_sha demo_policy [demo_frame "legacy"] =
        Some (g, demo_frame "legacy")) ∧
  @rewrite_value demo_regexes demo_lower demo_json demo_sha demo_policy
    (JObj [("choices", JArr [JObj [("index", jN 0); ("message", JObj [demo_function_call])]])]) = None.
Proof. split; [|reflexivity]. eexists. etrans; [vm_compute; reflexivity|]. reflexivity. Qed.
