(* ===== verification/GatewayPath.v ===== *)
(** * Paths through the gateway

    The paths that [gateway/config.rs] of [cctui-server-core] lets a worker
    call with its account's credential, and the URL that [resolve_upstream] of
    [gateway/proxy.rs] makes of one.  The extra paths of the environment are an
    argument. *)

From stdpp Require Import base decidable list strings.
From Stdlib Require Import Lia NArith Bool String Ascii.
From S2P Require Import Prelude RustStr Http.

Open Scope string_scope.
Open Scope list_scope.
Open Scope rust_scope.

Inductive Family := Anthropic | Openai | Fireworks | Google.

#[export] Instance Family_eq_dec : EqDecision Family.
Proof. solve_decision. Defined.

Definition from_provider (provider : string) : Family :=
  if provider ==s "fireworks" then Fireworks
  else if provider ==s "google" then Google
  else if contains "openai" provider then Openai
  else Anthropic.

Definition family_label (f : Family) : string :=
  match f with
  | Anthropic => "anthropic" | Openai => "openai" | Fireworks => "fireworks" | Google => "google"
  end.

Definition from_label (label : string) : option Family :=
  if label ==s "anthropic" then Some Anthropic
  else if label ==s "openai" then Some Openai
  else if label ==s "fireworks" then Some Fireworks
  else if label ==s "google" then Some Google
  else None.

Definition is_metered (f : Family) : bool :=
  match f with Fireworks | Google => true | _ => false end.

Inductive GatewayPathError := DotSegment | EmptySegment | NotAllowed | MethodNotAllowed.

Record PathRule := mk_rule { r_methods : list string; r_path : string; r_subpaths : bool }.

Definition ANTHROPIC_RULES : list PathRule := [
  mk_rule ["POST"] "/v1/messages" false;
  mk_rule ["POST"] "/v1/messages/count_tokens" false;
  mk_rule ["POST"] "/v1/complete" false;
  mk_rule ["GET"] "/v1/models" true
].

Definition OPENAI_RULES : list PathRule := [
  mk_rule ["POST"; "GET"] "/responses" true;
  mk_rule ["POST"] "/chat/completions" false;
  mk_rule ["POST"] "/completions" false;
  mk_rule ["GET"] "/models" true
].

Definition FIREWORKS_RULES : list PathRule := [
  mk_rule ["POST"] "/chat/completions" false;
  mk_rule ["POST"] "/completions" false;
  mk_rule ["POST"] "/embeddings" false;
  mk_rule ["GET"] "/models" true
].

Definition GOOGLE_RULES : list PathRule := [
  mk_rule ["POST"; "GET"] "/v1beta/models" true;
  mk_rule ["POST"; "GET"] "/v1/models" true
].

Definition rules (f : Family) : list PathRule :=
  match f with
  | Anthropic => ANTHROPIC_RULES | Openai => OPENAI_RULES
  | Fireworks => FIREWORKS_RULES | Google => GOOGLE_RULES
  end.

Abbreviation slash := "047"%char.
Abbreviation percent := "037"%char.

Definition google_path_model (tail : string) : option string :=
  rest ← find_map (λ p, strip_prefix p tail) ["/v1beta/models/"; "/v1/models/"];
  let model := hd "" (split (ascii_in ["063"%char; slash]) rest) in
  let model := hd "" (split_char ":" model) in
  if is_empty model then None else Some model.

(** The entries [METHOD:/prefix] of [CCTUI_GATEWAY_EXTRA_PATHS]. *)
Definition extra_paths (var : option string) : list (string * string) :=
  omap (λ e,
    p ← split_once (Ascii.eqb ":") (trim e);
    let path := trim p.2 in
    if starts_with "/" path then Some (to_ascii_uppercase (trim p.1), path) else None)
    (split_char "," (default "" var)).

(** The bytes of a percent-decoded path; an invalid escape stands for itself. *)
Fixpoint decode_bytes (s : string) : string :=
  match s with
  | "" => ""
  | String c r =>
    match r with
    | String h (String l r') =>
      if Ascii.eqb c percent && is_ascii_hexdigit h && is_ascii_hexdigit l
      then String (ascii_of_N (hex_val h * 16 + hex_val l)) (decode_bytes r')
      else String c (decode_bytes r)
    | _ => String c (decode_bytes r)
    end
  end.

Definition percent_decoded (tail : string) : string := from_utf8_lossy (decode_bytes tail).

Definition strip_slash (s : string) : string := default s (strip_suffix "/" s).

Fixpoint bad_segment (segs : list string) : result GatewayPathError unit :=
  match segs with
  | [] => Ok tt
  | seg :: segs =>
    if is_empty seg then Err EmptySegment
    else if (seg ==s ".") || (seg ==s "..") then Err DotSegment
    else bad_segment segs
  end.

Definition normalized_segments (tail : string) : result GatewayPathError unit :=
  bad_segment (skipn 1 (split_char slash (strip_slash tail))).

Definition unsafe_byte (c : ascii) : bool :=
  Ascii.eqb c "092" || in_range 0 31 c || in_range 127 127 c.

Definition path_matches (path rule_path : string) (subpaths : bool) : bool :=
  (path ==s rule_path) || subpaths && starts_with (rule_path ++s "/") path.

(** The rules in order: the first that has the path and the method, or whether
    one had the path. *)
Fixpoint try_rules (rs : list PathRule) (path method : string) (known : bool)
  : result GatewayPathError unit :=
  match rs with
  | [] => Err (if known then MethodNotAllowed else NotAllowed)
  | r :: rs =>
    if path_matches path (r_path r) (r_subpaths r) then
      if existsb (λ m, m ==s method) (r_methods r) then Ok tt else try_rules rs path method true
    else try_rules rs path method known
  end.

Definition gateway_path_permitted (extra : list (string * string)) (f : Family) (method tail : string)
  : result GatewayPathError unit :=
  if negb (starts_with "/" tail) || contains_char unsafe_byte tail then Err NotAllowed else
  _ ← normalized_segments tail;
  let decoded := percent_decoded tail in
  if contains_char unsafe_byte decoded then Err NotAllowed else
  _ ← normalized_segments decoded;
  let method := to_ascii_uppercase method in
  let path := strip_slash decoded in
  if existsb (λ e, ((e.1 ==s "*") || (e.1 ==s method)) && path_matches path e.2 true) extra
  then Ok tt else try_rules (rules f) path method false.

(** [resolve_upstream]: the URL a request with this path and query is sent to. *)
Definition upstream_url (extra : list (string * string)) (f : Family)
  (method prefix path upstream : string) (query : option string) : result GatewayPathError string :=
  let tail := default path (strip_prefix prefix path) in
  _ ← gateway_path_permitted extra f method tail;
  Ok (trim_end_matches (Ascii.eqb slash) upstream ++s tail ++s
      match query with Some q => "?" ++s q | None => "" end).

(** ** Facts *)

Lemma bad_segment_Ok segs :
  bad_segment segs = Ok tt ↔ ∀ s, s ∈ segs → s ≠ "" ∧ s ≠ "." ∧ s ≠ "..".
Proof.
  induction segs as [|s segs IH]; cbn [bad_segment]; [split; [by intros _ s ?%elem_of_nil|done]|].
  setoid_rewrite elem_of_cons. unfold is_empty.
  destruct (s ==s "") eqn:E1; [apply String.eqb_eq in E1; naive_solver|].
  destruct (s ==s ".") eqn:E2; [apply String.eqb_eq in E2; naive_solver|].
  destruct (s ==s "..") eqn:E3; [apply String.eqb_eq in E3; naive_solver|].
  cbn [orb]. rewrite IH. apply String.eqb_neq in E1, E2, E3. naive_solver.
Qed.

Lemma try_rules_Ok rs path method known :
  try_rules rs path method known = Ok tt ↔
  ∃ r, r ∈ rs ∧ path_matches path (r_path r) (r_subpaths r) = true ∧ method ∈ r_methods r.
Proof.
  revert known. induction rs as [|r rs IH]; intros known; cbn [try_rules].
  { split; [done|by intros (r & ?%elem_of_nil & _)]. }
  setoid_rewrite elem_of_cons.
  assert (existsb (λ m, m ==s method) (r_methods r) = true ↔ method ∈ r_methods r) as Hm.
  { rewrite existsb_exists. split.
    - intros (x & Hx & ->%String.eqb_eq). by apply list_elem_of_In.
    - intros H. exists method. split; [by apply list_elem_of_In|apply String.eqb_refl]. }
  destruct (path_matches _ _ _) eqn:Ep; [destruct (existsb _ _) eqn:Ee|].
  - split; [|done]. intros _. exists r. split; [by left|]. by rewrite <-Hm.
  - rewrite IH. split; [naive_solver|]. intros (x & [->|Hx] & H1 & H2); [|naive_solver].
    by apply Hm in H2.
  - rewrite IH. split; [naive_solver|]. intros (x & [->|Hx] & H1 & H2); [congruence|naive_solver].
Qed.

(** *** Segments of a decoded path *)

Lemma split_cons_app c (a b : string) :
  split_char c (a ++s String c b) = split_char c a ++ split_char c b.
Proof.
  unfold split_char. induction a as [|x a IH]; cbn [String.append split].
  - by rewrite Ascii.eqb_refl.
  - destruct (Ascii.eqb c x); [by rewrite IH|]. rewrite IH.
    destruct (split (Ascii.eqb c) a) as [|h t] eqn:E; [by apply split_not_nil in E|done].
Qed.

Lemma decode_three c h l r :
  decode_bytes (String c (String h (String l r))) =
  if Ascii.eqb c percent && is_ascii_hexdigit h && is_ascii_hexdigit l
  then String (ascii_of_N (hex_val h * 16 + hex_val l)) (decode_bytes r)
  else String c (decode_bytes (String h (String l r))).
Proof. done. Qed.

Lemma decode_slash a b : decode_bytes (a ++s String slash b) = decode_bytes a ++s String slash (decode_bytes b).
Proof.
  remember (String.length a) as n eqn:Hn. revert a Hn.
  induction (lt_wf n) as [n _ IH]. intros a ->.
  assert (∀ c r, Ascii.eqb c percent = false → decode_bytes (String c r) = String c (decode_bytes r)) as Hc.
  { intros c r Hc. cbn [decode_bytes]. rewrite Hc. by destruct r as [|h [|l r']]. }
  destruct a as [|c a]; [by apply (Hc slash b)|].
  destruct (Ascii.eqb c percent) eqn:Ep.
  2: { cbn [String.append]. rewrite !Hc by done. cbn [String.append]. f_equal.
       apply (IH (String.length a)); [cbn; lia|done]. }
  destruct a as [|h a]; cbn [String.append].
  { assert (decode_bytes (String c (String slash b)) = String c (decode_bytes (String slash b))) as ->.
    { destruct b as [|l b]; [done|]. cbn [decode_bytes]. replace (is_ascii_hexdigit slash) with false by done.
      by rewrite andb_false_r. }
    by rewrite Hc. }
  destruct a as [|l a]; cbn [String.append].
  { specialize (IH (String.length (String h "")) ltac:(cbn; lia) (String h "") eq_refl).
    cbn [String.append] in IH. rewrite decode_three.
    replace (is_ascii_hexdigit slash) with false by done. by rewrite andb_false_r, IH. }
  rewrite !decode_three. destruct (Ascii.eqb c percent && is_ascii_hexdigit h && is_ascii_hexdigit l).
  - cbn [String.append]. f_equal. apply (IH (String.length a)); [cbn; lia|done].
  - cbn [String.append]. f_equal. refine (IH (String.length (String h (String l a))) _ (String h (String l a)) eq_refl); cbn; lia.
Qed.

Lemma cont_in_slash lo hi x y :
  in_range lo hi slash = false →
  cont_in lo hi (x ++s String slash y) = (λ r, r ++s String slash y) <$> cont_in lo hi x.
Proof. intros H. destruct x as [|c x]; cbn; [by rewrite H|]. by destruct (in_range lo hi c). Qed.

Lemma cont1_slash x y :
  cont1 (x ++s String slash y) = (λ r, r ++s String slash y) <$> cont1 x.
Proof. destruct x as [|c x]; cbn; [done|]. by destruct (is_continuation c). Qed.

Lemma cont_bind_slash y (o : option string) :
  ((λ r, r ++s String slash y) <$> o) ≫= cont1 = (λ r, r ++s String slash y) <$> (o ≫= cont1).
Proof. destruct o as [r|]; [|done]. cbn. apply cont1_slash. Qed.

(** A sequence does not run over a slash. *)
Lemma utf8_step_slash c x y :
  utf8_step c (x ++s String slash y) = (λ r, r ++s String slash y) <$> utf8_step c x.
Proof.
  unfold utf8_step. destruct (in_range 0 127 c); [reflexivity|].
  destruct (in_range 194 223 c); [apply cont1_slash|].
  destruct (in_range 224 224 c); [by rewrite cont_in_slash, cont_bind_slash by reflexivity|].
  destruct (in_range 225 236 c || in_range 238 239 c); [by rewrite cont1_slash, cont_bind_slash|].
  destruct (in_range 237 237 c); [by rewrite cont_in_slash, cont_bind_slash by reflexivity|].
  destruct (in_range 240 240 c);
    [by rewrite cont_in_slash, cont_bind_slash, cont_bind_slash by reflexivity|].
  destruct (in_range 241 243 c); [by rewrite cont1_slash, cont_bind_slash, cont_bind_slash|].
  destruct (in_range 244 244 c);
    [by rewrite cont_in_slash, cont_bind_slash, cont_bind_slash by reflexivity|reflexivity].
Qed.

Lemma subpart_slash c x y : subpart c (x ++s String slash y) = subpart c x.
Proof.
  unfold subpart. rewrite !cont_in_slash, cont1_slash by reflexivity.
  assert (∀ o : option string,
    match (λ r, r ++s String slash y) <$> o with
    | None => 0%nat
    | Some r2 => if in_range 240 244 c then match cont1 r2 with Some _ => 2%nat | None => 1%nat end
                 else 1%nat
    end =
    match o with
    | None => 0%nat
    | Some r2 => if in_range 240 244 c then match cont1 r2 with Some _ => 2%nat | None => 1%nat end
                 else 1%nat
    end) as Ho.
  { intros [r|]; [|reflexivity]. cbn [fmap option_fmap option_map]. rewrite cont1_slash.
    by destruct (cont1 r). }
  destruct (in_range 224 224 c); [apply Ho|]. destruct (in_range 237 237 c); [apply Ho|].
  destruct (in_range 240 240 c); [apply Ho|]. destruct (in_range 244 244 c); [apply Ho|].
  destruct (in_range 225 239 c || in_range 241 243 c); [apply Ho|reflexivity].
Qed.

Lemma cont1_len s r : cont1 s = Some r → String.length s = S (String.length r).
Proof. destruct s as [|c s]; [done|]. cbn. destruct (is_continuation c); [|done]. by intros [= ->]. Qed.

Lemma cont_in_len lo hi s r : cont_in lo hi s = Some r → String.length s = S (String.length r).
Proof. destruct s as [|c s]; [done|]. cbn. destruct (in_range lo hi c); [|done]. by intros [= ->]. Qed.

Lemma cont_bind_len (o : option string) n r :
  (∀ x, o = Some x → (String.length x ≤ n)%nat) → o ≫= cont1 = Some r → (String.length r ≤ n)%nat.
Proof. destruct o as [x|]; [|done]. cbn. intros H E%cont1_len. specialize (H x eq_refl). lia. Qed.

Lemma utf8_step_len c s r : utf8_step c s = Some r → (String.length r ≤ String.length s)%nat.
Proof.
  assert (∀ x, cont1 s = Some x → (String.length x ≤ String.length s)%nat) as H1
    by (intros x ->%cont1_len; lia).
  assert (∀ lo hi x, cont_in lo hi s = Some x → (String.length x ≤ String.length s)%nat) as H2
    by (intros lo hi x ->%cont_in_len; lia).
  unfold utf8_step. destruct (in_range 0 127 c); [by intros [= ->]|].
  destruct (in_range 194 223 c); [apply H1|].
  destruct (in_range 224 224 c); [apply cont_bind_len, H2|].
  destruct (in_range 225 236 c || in_range 238 239 c); [apply cont_bind_len, H1|].
  destruct (in_range 237 237 c); [apply cont_bind_len, H2|].
  destruct (in_range 240 240 c); [apply cont_bind_len; intros x; apply cont_bind_len, H2|].
  destruct (in_range 241 243 c); [apply cont_bind_len; intros x; apply cont_bind_len, H1|].
  destruct (in_range 244 244 c); [apply cont_bind_len; intros x; apply cont_bind_len, H2|done].
Qed.

Lemma subpart_le c s : (subpart c s ≤ String.length s)%nat.
Proof.
  assert (∀ o : option string, (∀ x, o = Some x → String.length s = S (String.length x)) →
    (match o with
     | None => 0
     | Some r2 => if in_range 240 244 c then match cont1 r2 with Some _ => 2 | None => 1 end else 1
     end ≤ String.length s)%nat) as H.
  { intros [x|] Hx; [|lia]. rewrite (Hx x eq_refl). destruct (in_range 240 244 c); [|lia].
    destruct (cont1 x) as [y|] eqn:E; [|lia]. apply cont1_len in E. lia. }
  unfold subpart. destruct (in_range 224 224 c); [apply H, cont_in_len|].
  destruct (in_range 237 237 c); [apply H, cont_in_len|].
  destruct (in_range 240 240 c); [apply H, cont_in_len|].
  destruct (in_range 244 244 c); [apply H, cont_in_len|].
  destruct (in_range 225 239 c || in_range 241 243 c); [apply H, cont1_len|lia].
Qed.

Lemma lossy_enough n m s :
  (String.length s ≤ n)%nat → (String.length s ≤ m)%nat → lossy_go n s = lossy_go m s.
Proof.
  revert m s. induction n as [|n IH]; intros m s Hn Hm.
  { destruct s; [by destruct m|cbn in Hn; lia]. }
  destruct s as [|c r]; [by destruct m|]. destruct m as [|m]; [cbn in Hm; lia|].
  cbn in Hn, Hm. cbn [lossy_go]. destruct (utf8_step c r) as [r'|] eqn:E.
  - apply utf8_step_len in E. by rewrite (IH m) by lia.
  - pose proof (sdrop_left (subpart c r) r). by rewrite (IH m) by lia.
Qed.

(** Lossy decoding works on each segment by itself. *)
Lemma lossy_slash x y :
  from_utf8_lossy (x ++s String slash y) = from_utf8_lossy x ++s String slash (from_utf8_lossy y).
Proof.
  remember (String.length x) as n eqn:Hn. revert x Hn.
  induction (lt_wf n) as [n _ IH]. intros x ->. destruct x as [|c x].
  { unfold from_utf8_lossy. cbn [String.append String.length lossy_go].
    replace (utf8_step slash y) with (Some y) by reflexivity.
    rewrite Nat.sub_succ_l, Nat.sub_diag by lia. reflexivity. }
  unfold from_utf8_lossy. cbn [String.append String.length lossy_go].
  rewrite utf8_step_slash, subpart_slash. destruct (utf8_step c x) as [r|] eqn:E; cbn [fmap option_fmap option_map].
  - pose proof (utf8_step_len _ _ _ E) as Hr.
    replace (S (String.length (x ++s String slash y)) - String.length (r ++s String slash y))%nat
      with (S (String.length x) - String.length r)%nat by (rewrite !length_app_s; lia).
    change (String c (x ++s String slash y)) with (String c x ++s String slash y).
    rewrite stake_app by (cbn; lia). rewrite app_assoc_s. f_equal.
    rewrite (lossy_enough _ (String.length (r ++s String slash y))) by (rewrite ?length_app_s; lia).
    rewrite (lossy_enough (String.length x) (String.length r)) by lia.
    apply (IH (String.length r)); [cbn; lia|done].
  - pose proof (subpart_le c x) as Hs. rewrite sdrop_app by done. rewrite app_assoc_s. f_equal.
    set (r := sdrop (subpart c x) x).
    assert (String.length r ≤ String.length x)%nat as Hr by apply sdrop_left.
    rewrite (lossy_enough _ (String.length (r ++s String slash y))) by (rewrite !length_app_s; lia).
    rewrite (lossy_enough (String.length x) (String.length r)) by lia.
    apply (IH (String.length r)); [cbn; lia|done].
Qed.

Lemma percent_decoded_slash a b :
  percent_decoded (a ++s String slash b) = percent_decoded a ++s String slash (percent_decoded b).
Proof. unfold percent_decoded. by rewrite decode_slash, lossy_slash. Qed.

(** The segments of the decoded path are the segments of each decoded segment. *)
Lemma segment_decoded seg s :
  seg ∈ split_char slash s → ∀ x, x ∈ split_char slash (percent_decoded seg) →
  x ∈ split_char slash (percent_decoded s).
Proof.
  intros H x Hx. rewrite <-(join_split slash s). revert H.
  generalize (split_char slash s) as l. intros l Hl.
  induction l as [|h l IH]; [by apply elem_of_nil in Hl|].
  destruct l as [|h2 l].
  { apply list_elem_of_singleton in Hl as ->. done. }
  change (join (String slash "") (h :: h2 :: l)) with
    (h ++s String slash (join (String slash "") (h2 :: l))).
  rewrite percent_decoded_slash, split_cons_app, elem_of_app.
  apply elem_of_cons in Hl as [->|Hl]; [by left|right]. by apply IH.
Qed.

(** ** The URL standard's dot segments

    A URL parser drops these segments from a path, with the one before a double
    dot. *)

Definition url_dot (seg : string) : Prop :=
  to_ascii_lowercase seg ∈ ["."; "%2e"; ".."; ".%2e"; "%2e."; "%2e%2e"].

Lemma lower_inv c d : lower_char c = d → is_ascii_lowercase d = false → c = d.
Proof.
  intros <-. unfold lower_char. destruct (is_ascii_uppercase c) eqn:E; [|done].
  revert E. by destruct c as [[] [] [] [] [] [] [] []].
Qed.

Lemma lower_inv_e c : lower_char c = "e"%char → c = "e"%char ∨ c = "E"%char.
Proof. destruct c as [[] [] [] [] [] [] [] []]; vm_compute; intros H; try discriminate; auto. Qed.

Lemma String_inj a b x y : String a x = String b y → a = b ∧ x = y.
Proof. by intros [= -> ->]. Qed.

Lemma url_dot_decodes seg : url_dot seg → percent_decoded seg = "." ∨ percent_decoded seg = "..".
Proof.
  unfold url_dot. rewrite !elem_of_cons, elem_of_nil. intros H.
  repeat (destruct H as [H|H]); try done;
    repeat (destruct seg as [|?c seg]; cbn [to_ascii_lowercase] in H;
            [try discriminate H|first [apply String_inj in H as [?Hc H]|discriminate H]]);
    repeat match goal with
    | Hc : lower_char _ = "e"%char |- _ => apply lower_inv_e in Hc
    | Hc : lower_char _ = _ |- _ => apply lower_inv in Hc; [|reflexivity]
    | Hc : _ ∨ _ |- _ => destruct Hc
    end; subst; vm_compute; auto.
Qed.

(** Every segment of a normalised path but empty ones is no dot. *)
Lemma normalized_no_dot s x :
  starts_with "/" s = true → normalized_segments s = Ok tt → x ∈ split_char slash s →
  x ≠ "." ∧ x ≠ "..".
Proof.
  intros Hs Hn Hx. destruct (decide (x = "")) as [->|Hne]; [done|].
  assert (x ∈ split_char slash (strip_slash s)) as Hx'.
  { unfold strip_slash. destruct (strip_suffix "/" s) as [a|] eqn:E; [|done].
    cbn [default from_option]. apply strip_suffix_sound in E. rewrite E in Hx.
    change "/" with (String slash "") in Hx. rewrite split_cons_app, elem_of_app in Hx.
    destruct Hx as [Hx|Hx%list_elem_of_singleton]; done. }
  unfold normalized_segments in Hn. rewrite bad_segment_Ok in Hn.
  destruct s as [|c s]; [done|]. cbn [starts_with] in Hs. apply andb_prop in Hs as [Hc _].
  apply Ascii.eqb_eq in Hc as <-.
  assert (∃ l, split_char slash (strip_slash (String slash s)) = "" :: l) as [l Hl].
  { unfold strip_slash. destruct (strip_suffix "/" (String slash s)) as [a|] eqn:E;
      cbn [default from_option]; [|by eexists].
    destruct a as [|d a]; [by eexists|]. apply strip_suffix_sound in E. injection E as <- _.
    by eexists. }
  rewrite Hl in Hx', Hn. apply elem_of_cons in Hx' as [->|Hx']; [done|]. by apply Hn.
Qed.

(** A path is the one named or, where those are meant too, one below it. *)
Definition under (path rule_path : string) (subpaths : bool) : Prop :=
  path = rule_path ∨ subpaths = true ∧ ∃ rest, path = rule_path ++s "/" ++s rest.

Lemma path_matches_under path rule_path subpaths :
  path_matches path rule_path subpaths = true → under path rule_path subpaths.
Proof.
  unfold path_matches. intros [H|H]%orb_prop; [left; by apply String.eqb_eq|right].
  apply andb_prop in H as [-> H]. split; [done|].
  apply starts_with_spec in H as [rest ->]. exists rest.
  by rewrite app_assoc_s.
Qed.

(** What lets a request pass: a rule of the family's harness, or an entry of the
    operator's extra paths. *)
Definition lets_pass (f : Family) (extra : list (string * string)) (method path : string) : Prop :=
  (∃ r, r ∈ rules f ∧ method ∈ r_methods r ∧ under path (r_path r) (r_subpaths r)) ∨
  (∃ m p, (m, p) ∈ extra ∧ (m = "*" ∨ m = method) ∧ under path p true).

Lemma permitted_let_pass extra f method tail :
  gateway_path_permitted extra f method tail = Ok tt →
  starts_with "/" tail = true ∧ contains_char unsafe_byte tail = false ∧
  contains_char unsafe_byte (percent_decoded tail) = false ∧
  normalized_segments (percent_decoded tail) = Ok tt ∧
  lets_pass f extra (to_ascii_uppercase method) (strip_slash (percent_decoded tail)).
Proof.
  unfold gateway_path_permitted.
  destruct (starts_with "/" tail) eqn:Es; cbn [negb orb]; [|discriminate].
  destruct (contains_char unsafe_byte tail) eqn:Eu; [discriminate|].
  destruct (normalized_segments tail) as [[]|]; cbn [mbind result_bind]; [|discriminate].
  destruct (contains_char unsafe_byte (percent_decoded tail)) eqn:Eu2; [discriminate|].
  destruct (normalized_segments (percent_decoded tail)) as [[]|] eqn:En; cbn [mbind result_bind];
    [|discriminate].
  intros H. split_and!; [done..|]. destruct (existsb _ extra) eqn:Ex.
  - right. apply existsb_exists in Ex as ([m p] & Hin & Hm). cbn in Hm. exists m, p.
    apply andb_prop in Hm as [Hm Hp]. split_and!; [by apply list_elem_of_In| |by apply path_matches_under].
    apply orb_prop in Hm as [Hm|Hm]; apply String.eqb_eq in Hm; auto.
  - left. apply try_rules_Ok in H as (r & Hr & Hp & Hm). exists r. split_and!; [done..|by apply path_matches_under].
Qed.

(** C17. A request that is sent upstream has, once percent-decoded, a path that the
    family's harness calls with its method, or one that the operator added in
    the environment ([var]) for its method or for all; the URL is the upstream's
    with that path and query behind it.  However the path came to be allowed,
    neither it nor its decoded form has a backslash or control byte, and no
    segment of it, raw or encoded, is one that a URL parser resolves against the
    upstream's own path. *)
Theorem forwarded_path_confined var f method prefix path upstream query url :
  upstream_url (extra_paths var) f method prefix path upstream query = Ok url →
  ∃ tail,
    url = trim_end_matches (Ascii.eqb slash) upstream ++s tail ++s
          match query with Some q => "?" ++s q | None => "" end ∧
    (path = prefix ++s tail ∨ path = tail) ∧ starts_with "/" tail = true ∧
    ((∃ r, r ∈ rules f ∧ to_ascii_uppercase method ∈ r_methods r ∧
        under (strip_slash (percent_decoded tail)) (r_path r) (r_subpaths r)) ∨
     (∃ m p, (m, p) ∈ extra_paths var ∧ (m = "*" ∨ m = to_ascii_uppercase method) ∧
        under (strip_slash (percent_decoded tail)) p true)) ∧
    contains_char unsafe_byte tail = false ∧ contains_char unsafe_byte (percent_decoded tail) = false ∧
    ∀ seg, seg ∈ split_char slash tail → ¬ url_dot seg.
Proof.
  unfold upstream_url. set (tail := default path (strip_prefix prefix path)).
  destruct (gateway_path_permitted (extra_paths var) f method tail) as [[]|] eqn:E; cbn [mbind result_bind]; [|discriminate].
  intros [= <-]. apply permitted_let_pass in E as (Es & Eu & Eu2 & En & Hpass).
  exists tail. split_and!; try done.
  - unfold tail. destruct (strip_prefix prefix path) as [t|] eqn:Ep; [left|by right].
    cbn. by apply strip_prefix_spec.
  - intros seg Hseg Hdot. apply url_dot_decodes in Hdot.
    assert (starts_with "/" (percent_decoded tail) = true) as Hs.
    { destruct tail as [|c t]; [done|]. cbn [starts_with] in Es. apply andb_prop in Es as [Hc _].
      apply Ascii.eqb_eq in Hc as <-. change (String slash t) with ("" ++s String slash t).
      rewrite percent_decoded_slash. done. }
    assert (∀ x, x ∈ split_char slash (percent_decoded seg) → x ≠ "." ∧ x ≠ "..") as Hx
      by (intros x Hx; eapply normalized_no_dot; [done..|by eapply segment_decoded]).
    destruct Hdot as [Hd|Hd]; rewrite Hd in Hx.
    + by destruct (Hx "." (list_elem_of_here _ _)).
    + by destruct (Hx ".." (list_elem_of_here _ _)).
Qed.

Lemma forwarded_path_confined_witness :
  ∃ url, upstream_url (extra_paths None) Openai "post" "/gateway/openai" "/gateway/openai/responses/%63ompact"
           "https://chatgpt.com/backend-api/codex/" (Some "a=../x") = Ok url ∧
    ∃ tail, (∀ seg, seg ∈ split_char slash tail → ¬ url_dot seg) ∧
      url = "https://chatgpt.com/backend-api/codex" ++s tail ++s "?a=../x".
Proof.
  destruct (upstream_url (extra_paths None) Openai "post" "/gateway/openai" "/gateway/openai/responses/%63ompact"
              "https://chatgpt.com/backend-api/codex/" (Some "a=../x")) as [url|e] eqn:E.
  2: { exfalso. revert E. vm_compute. discriminate. }
  exists url. split; [reflexivity|].
  destruct (forwarded_path_confined None _ _ _ _ _ _ _ E) as (tail & Hu & _ & _ & _ & _ & _ & Hd).
  exists tail. split; [exact Hd|exact Hu].
Defined.

(** The model of a Gemini call is read from the raw path, while the path is
    permitted, and read upstream, decoded. *)
Example encoded_model_name :
  let tail := "/v1beta/models/gemini%2D2.5-pro:generateContent" in
  gateway_path_permitted [] Google "POST" tail = Ok tt ∧
  google_path_model tail = Some "gemini%2D2.5-pro" ∧
  google_path_model (percent_decoded tail) = Some "gemini-2.5-pro".
Proof. vm_compute. split_and!; reflexivity. Qed.
