(* ===== verification/RateLimit.v ===== *)
(** * The gateway's rate limits

    [gateway/ratelimit.rs] of [cctui-server-core]: the requests and tokens of
    one provider over the last minute, what is admitted, and the hint of when to
    try again.  An instant is a number of nanoseconds, a duration since a later
    one is zero as in std, and the sum of the tokens is a [u64]. *)

From stdpp Require Import base decidable list strings.
From Stdlib Require Import Lia Bool ZArith.
From S2P Require Import Prelude Json.

Open Scope list_scope.

Definition NANOS : N := 1000000000.
Definition RATE_WINDOW : N := 60 * NANOS.

Record RateLimits := mk_limits { rpm : option N; tpm : option N }.

(** [RateLimits::from_json] of [cctui-proto/src/api/gateway.rs]. *)
Definition positive (key : string) (v : option Value) : option N :=
  match ((v ≫= as_object) ≫= obj_get key) ≫= as_u64 with
  | Some n => if (0 <? n)%N then Some n else None
  | None => None
  end.

Definition limits_from_json (v : option Value) : RateLimits :=
  mk_limits
    (match positive "rpm" v with Some n => if (n <? 2 ^ 32)%N then Some n else None | None => None end)
    (positive "tpm" v).

Definition is_unset (l : RateLimits) : bool :=
  match rpm l, tpm l with None, None => true | _, _ => false end.

Record RateWindow := mk_window { reqs : list N; tokens : list (N * N) }.

Definition new_window : RateWindow := mk_window [] [].

Fixpoint drop_aged {A} (time : A → N) (now : N) (l : list A) : list A :=
  match l with
  | [] => []
  | x :: l' => if (RATE_WINDOW <=? now - time x)%N then drop_aged time now l' else l
  end.

Definition prune (w : RateWindow) (now : N) : RateWindow :=
  mk_window (drop_aged (λ t, t) now (reqs w)) (drop_aged fst now (tokens w)).

Definition retry_after_secs (oldest now : N) : Z :=
  let remaining := (RATE_WINDOW - (now - oldest))%N in
  let secs := (remaining / NANOS + if (0 <? remaining mod NANOS)%N then 1 else 0)%N in
  Z.max (if (Z.of_N secs <? 2 ^ 63)%Z then Z.of_N secs else 2 ^ 63 - 1) 1.

Definition used_tokens (w : RateWindow) : N :=
  (foldr (λ s n, s.2 + n) 0 (tokens w) mod 2 ^ 64)%N.

(** The two limits, each with the instant of the sample that has to age out. *)
Definition tokens_full (l : RateLimits) (w : RateWindow) : option N :=
  match tpm l, tokens w with
  | Some t, (oldest, _) :: _ => if (t <=? used_tokens w)%N then Some oldest else None
  | _, _ => None
  end.

Definition requests_full (l : RateLimits) (w : RateWindow) : option N :=
  match rpm l, reqs w with
  | Some r, oldest :: _ =>
    if (r <=? N.min (N.of_nat (List.length (reqs w))) (2 ^ 32 - 1))%N then Some oldest else None
  | _, _ => None
  end.

(** The window after, and the refusal. *)
Definition admit_request (w : RateWindow) (l : RateLimits) (now : N) : RateWindow * result Z unit :=
  let w := prune w now in
  match or_else (tokens_full l w) (requests_full l w) with
  | Some oldest => (w, Err (retry_after_secs oldest now))
  | None => (mk_window (reqs w ++ [now]) (tokens w), Ok tt)
  end.

Definition record_tokens (w : RateWindow) (n now : N) : RateWindow :=
  if (n =? 0)%N then w
  else let w := prune w now in mk_window (reqs w) (tokens w ++ [(now, n)]).

(** ** Runs *)

Inductive event := Request (now : N) | Usage (n now : N).

Definition event_time (e : event) : N := match e with Request t | Usage _ t => t end.

(** The window and the instants of the admitted requests, in order. *)
Definition rate_step (l : RateLimits) (e : event) (s : RateWindow * list N) : RateWindow * list N :=
  match e with
  | Request now =>
    match admit_request s.1 l now with
    | (w, Ok _) => (w, s.2 ++ [now])
    | (w, Err _) => (w, s.2)
    end
  | Usage n now => (record_tokens s.1 n now, s.2)
  end.

Definition rate_run (l : RateLimits) (es : list event) : RateWindow * list N :=
  foldl (λ s e, rate_step l e s) (new_window, []) es.

(** Time does not run backwards. *)
Definition in_order (es : list event) : Prop :=
  ∀ i j a b, (i < j)%nat → es !! i = Some a → es !! j = Some b → (event_time a ≤ event_time b)%N.

(** ** Facts *)

Lemma drop_aged_split {A} (time : A → N) now l :
  ∃ old, l = old ++ drop_aged time now l ∧
    Forall (λ x, (RATE_WINDOW ≤ now - time x)%N) old.
Proof.
  induction l as [|x l (old & Hl & Hold)]; [by exists []|]. cbn [drop_aged].
  destruct (RATE_WINDOW <=? now - time x)%N eqn:E; [|by exists []].
  exists (x :: old). cbn. rewrite <-Hl. split; [done|]. constructor; [by apply N.leb_le|done].
Qed.

(** The admitted requests that are not in the window are a minute old. *)
Definition window_ok (r now : N) (w : RateWindow) (admitted : list N) : Prop :=
  (∃ old, admitted = old ++ reqs w ∧ Forall (λ t, (RATE_WINDOW ≤ now - t)%N) old) ∧
  (N.of_nat (List.length (reqs w)) ≤ r)%N ∧
  Forall (λ t, (t ≤ now)%N) admitted.

Lemma window_ok_later r now now' w a : (now ≤ now')%N → window_ok r now w a → window_ok r now' w a.
Proof.
  intros Hn ((old & -> & Hold) & Hl & Hle). split_and!; [|done|].
  - exists old. split; [done|]. eapply Forall_impl; [done|]. intros t Ht. cbn in *. lia.
  - eapply Forall_impl; [done|]. intros t Ht. cbn in *. lia.
Qed.

Lemma window_ok_prune r now w a : window_ok r now w a → window_ok r now (prune w now) a.
Proof.
  intros ((old & -> & Hold) & Hl & Hle). destruct (drop_aged_split (λ t, t) now (reqs w)) as (o & Ho & Hall).
  split_and!; [| |done].
  - exists (old ++ o). cbn [prune reqs]. rewrite <-app_assoc, <-Ho. split; [done|].
    by apply Forall_app.
  - cbn [prune reqs]. rewrite Ho in Hl. rewrite length_app in Hl. lia.
Qed.

(** A run of admitted requests no two of which are a minute apart is no longer
    than the limit. *)
Definition bounded (r : N) (admitted : list N) : Prop :=
  ∀ a w b, admitted = a ++ w ++ b →
  (∀ x y, x ∈ w → y ∈ w → (y - x < RATE_WINDOW)%N) → (N.of_nat (List.length w) ≤ r)%N.

Lemma bounded_snoc r now w a :
  (0 < r)%N → window_ok r now w a → (N.of_nat (List.length (reqs w)) < r)%N →
  bounded r a → bounded r (a ++ [now]).
Proof.
  intros Hr ((old & -> & Hold) & _ & _) Hlt Hb x v y Heq Hv.
  destruct y as [|z y _] using rev_ind.
  2: { rewrite !app_assoc in Heq. apply app_inj_tail in Heq as [Heq _].
       apply (Hb x v y); [by rewrite Heq, <-!app_assoc|done]. }
  rewrite app_nil_r in Heq. destruct v as [|z v _] using rev_ind; [cbn; lia|].
  rewrite app_assoc in Heq. apply app_inj_tail in Heq as [Heq ->].
  assert (List.length v ≤ List.length (reqs w))%nat as Hle; [|rewrite length_app; cbn; lia].
  destruct (decide (List.length v ≤ List.length (reqs w))%nat) as [|Hgt]; [done|]. exfalso.
  assert (∃ o v', old = x ++ o :: v' ∧ o ∈ v) as (o & v' & Hold' & Ho).
  { assert (List.length x < List.length old)%nat as Hlen.
    { apply (f_equal (@List.length N)) in Heq. rewrite !length_app in Heq. lia. }
    apply app_eq_app in Heq as (t & [[-> Ht]|[-> Ht]]).
    - rewrite length_app in Hlen. destruct t as [|o t]; [cbn in Hlen; lia|].
      exists o, t. split; [done|]. rewrite Ht. by left.
    - rewrite length_app in Hlen. lia. }
  rewrite Hold' in Hold. apply Forall_app in Hold as [_ Hold]. apply Forall_cons in Hold as [Hold _].
  specialize (Hv o z). rewrite !elem_of_app, !list_elem_of_singleton in Hv.
  specialize (Hv (or_introl Ho) (or_intror eq_refl)). lia.
Qed.

Lemma admit_cases w l now :
  admit_request w l now = (prune w now, Err (retry_after_secs
    (match or_else (tokens_full l (prune w now)) (requests_full l (prune w now)) with
     | Some o => o | None => now end) now)) ∨
  (requests_full l (prune w now) = None ∧
   admit_request w l now = (mk_window (reqs (prune w now) ++ [now]) (tokens (prune w now)), Ok tt)).
Proof.
  unfold admit_request. destruct (tokens_full l (prune w now)), (requests_full l (prune w now)); cbn; auto.
Qed.

Lemma requests_room l w r :
  rpm l = Some r → (0 < r < 2 ^ 32)%N → requests_full l w = None →
  (N.of_nat (List.length (reqs w)) < r)%N.
Proof.
  intros Hr Hb. unfold requests_full. rewrite Hr. destruct (reqs w) as [|o q]; [cbn; lia|].
  destruct (r <=? _)%N eqn:E; [done|]. apply N.leb_gt in E. lia.
Qed.

Lemma in_order_snoc es e : in_order (es ++ [e]) →
  in_order es ∧ ∀ a, a ∈ es → (event_time a ≤ event_time e)%N.
Proof.
  intros H. split.
  - intros i j a b Hij Ha Hb. apply (H i j); [done|by apply lookup_app_l_Some..].
  - intros a [i Hi]%list_elem_of_lookup. apply (H i (List.length es)).
    + by eapply lookup_lt_Some.
    + by apply lookup_app_l_Some.
    + by rewrite lookup_app_r, Nat.sub_diag by lia.
Qed.

Lemma rate_run_ok l r es :
  rpm l = Some r → (0 < r < 2 ^ 32)%N → in_order es →
  (∀ now, (∀ e, e ∈ es → (event_time e ≤ now)%N) →
     window_ok r now (rate_run l es).1 (rate_run l es).2) ∧
  bounded r (rate_run l es).2.
Proof.
  intros Hr Hb. induction es as [|e es IH] using rev_ind; intros Ho.
  { split; [intros now _; split_and!; [by exists []|cbn; lia|constructor]|].
    intros a v b Heq _. symmetry in Heq. apply app_nil in Heq as [_ Heq].
    apply app_nil in Heq as [-> _]. cbn. lia. }
  apply in_order_snoc in Ho as [Ho He]. destruct (IH Ho) as [Hw Hbd]. clear IH.
  assert (rate_run l (es ++ [e]) = rate_step l e (rate_run l es)) as ->
    by (unfold rate_run; by rewrite foldl_app).
  destruct (rate_run l es) as [w a]. cbn [fst snd] in *.
  set (t := event_time e). specialize (Hw t He).
  assert (∀ now, (∀ x, x ∈ es ++ [e] → (event_time x ≤ now)%N) → (t ≤ now)%N) as Ht
    by (intros now Hn; apply Hn, elem_of_app; right; left).
  destruct e as [now|n now]; cbn [rate_step event_time fst snd] in *; subst t.
  - pose proof (window_ok_prune r now w a Hw) as Hp.
    destruct (admit_cases w l now) as [-> |[Hfull ->]]; cbn [fst snd].
    + split; [|done]. intros x Hx. eapply window_ok_later; [by apply Ht|done].
    + pose proof (requests_room l _ r Hr Hb Hfull) as Hroom.
      split; [|by eapply bounded_snoc; [lia|..]].
      intros x Hx. eapply window_ok_later; [by apply Ht|].
      destruct Hp as ((old & -> & Hold) & _ & Hle). split_and!.
      * exists old. cbn [reqs]. by rewrite app_assoc.
      * cbn [reqs]. rewrite length_app. cbn [List.length]. lia.
      * apply Forall_app. split; [done|]. apply Forall_singleton. lia.
  - split; [|done]. intros x Hx. eapply window_ok_later; [by apply Ht|].
    unfold record_tokens. destruct (n =? 0)%N; [done|].
    destruct (window_ok_prune r now w a Hw) as (H1 & H2 & H3). by split_and!.
Qed.

(** The tokens of a window, as a number without a width. *)
Definition token_sum (w : RateWindow) : N := foldr (λ s n, s.2 + n)%N 0%N (tokens w).

Definition tokens_left (l : RateLimits) (w : RateWindow) : Prop :=
  ∀ t, tpm l = Some t → (token_sum w < t)%N.

Lemma tokens_left_not_full l w : tokens_left l w → tokens_full l w = None.
Proof.
  unfold tokens_left, tokens_full. destruct (tpm l) as [t|]; [|done]. intros Hs. specialize (Hs t eq_refl).
  assert (used_tokens w ≤ token_sum w)%N as Hle by apply N.Div0.mod_le.
  destruct (tokens w) as [|[o n] q]; [done|]. by rewrite (proj2 (N.leb_gt _ _)) by lia.
Qed.

Lemma tokens_left_later l w now : tokens_left l w → tokens_left l (prune w now).
Proof.
  intros Hs t Ht. specialize (Hs t Ht). unfold token_sum, prune in *. cbn [tokens].
  destruct (drop_aged_split fst now (tokens w)) as (old & Hq & _). rewrite Hq, foldr_app in Hs.
  revert Hs. generalize (drop_aged fst now (tokens w)). clear. intros q.
  enough (∀ x, (x ≤ foldr (λ s n, (s : N * N).2 + n)%N x old)%N) as H; [specialize (H (foldr (λ s n, s.2 + n)%N 0%N q)); lia|].
  intros x. induction old as [|y old IH]; cbn; lia.
Qed.

(** C18. Whatever requests and token counts come, in the order of their instants, no
    more requests than the limit are admitted within any minute.  A client that
    is refused while the tokens of the last minute are below the token limit, if
    there is one, and waits as long as it is told is admitted, if nothing else
    came. *)
Theorem requests_per_minute_hold l r es :
  rpm l = Some r → (0 < r < 2 ^ 32)%N → in_order es →
  bounded r (rate_run l es).2 ∧
  ∀ now secs later, (∀ e, e ∈ es → (event_time e ≤ now)%N) →
    (∀ t, tpm l = Some t → (token_sum (prune (rate_run l es).1 now) < t)%N) →
    (admit_request (rate_run l es).1 l now).2 = Err secs →
    (now + Z.to_N secs * NANOS ≤ later)%N →
    (admit_request (admit_request (rate_run l es).1 l now).1 l later).2 = Ok tt.
Proof.
  intros Hr Hb Ho. pose proof (rate_run_ok l r es Hr Hb Ho) as [Hw Hbd]. split; [done|].
  intros now secs later Hes Htok. specialize (Hw now Hes). destruct (rate_run l es) as [w a].
  cbn [fst snd] in *. pose proof (window_ok_prune r now w a Hw) as ((old0 & Ha & _) & Hlen & Hle).
  pose proof (tokens_left_not_full l _ Htok) as Hnt.
  pose proof (tokens_left_not_full l _ (tokens_left_later l _ later Htok)) as Hnt'.
  unfold admit_request at 1. rewrite Hnt. cbn [or_else].
  destruct (requests_full l (prune w now)) as [oldest|] eqn:Ef; [|done]. cbn [snd].
  intros [= <-] Hlater. unfold admit_request at 2. rewrite Hnt, Ef. cbn [or_else fst].
  unfold admit_request. rewrite Hnt'. cbn [or_else].
  unfold requests_full in Ef. rewrite Hr in Ef.
  set (w1 := prune w now) in *. destruct (reqs w1) as [|o q] eqn:Eq; [done|].
  destruct (r <=? _)%N; [|done]. injection Ef as ->.
  assert ((RATE_WINDOW <=? later - oldest)%N = true) as Hage.
  { assert (oldest ≤ now)%N as Hpast.
    { rewrite Forall_forall in Hle. apply Hle. rewrite Ha. apply elem_of_app. right. left. }
    apply N.leb_le. unfold retry_after_secs in Hlater.
    set (rem := (RATE_WINDOW - (now - oldest))%N) in *.
    assert (rem ≤ 60 * NANOS)%N as Hrem by (unfold rem, RATE_WINDOW; lia).
    pose proof (N.div_mod rem NANOS ltac:(done)) as Hdm.
    pose proof (N.mod_lt rem NANOS ltac:(done)) as Hmod.
    assert (rem / NANOS ≤ 60)%N as Hd by (apply N.Div0.div_le_upper_bound; lia).
    assert (rem ≤ (rem / NANOS + (if (0 <? rem mod NANOS)%N then 1 else 0)) * NANOS)%N as Hup.
    { destruct (0 <? rem mod NANOS)%N eqn:E0; [lia|]. apply N.ltb_ge in E0. lia. }
    set (k := (rem / NANOS + (if (0 <? rem mod NANOS)%N then 1 else 0))%N) in *.
    assert (k ≤ 61)%N as Hk by (unfold k; destruct (0 <? _)%N; lia).
    rewrite (proj2 (Z.ltb_lt _ _)) in Hlater by lia.
    assert (k ≤ Z.to_N (Z.max (Z.of_N k) 1))%N as Hk1 by lia.
    apply (N.mul_le_mono_r _ _ NANOS) in Hk1. unfold rem, RATE_WINDOW in *. lia. }
  unfold requests_full. rewrite Hr. cbn [prune reqs]. rewrite Eq. cbn [drop_aged].
  rewrite Hage. destruct (drop_aged_split (λ t, t) later q) as (old & Hq & _).
  destruct (drop_aged (λ t, t) later q) as [|x q'] eqn:Ed; [done|].
  assert (List.length (x :: q') ≤ List.length q)%nat as Hl
    by (apply (f_equal (@List.length N)) in Hq; rewrite length_app in Hq; lia).
  cbn [List.length] in Hlen. rewrite (proj2 (N.leb_gt _ _)) by lia. done.
Qed.

Definition busy : list event := [Request 0; Request 5; Usage 100 6; Request 7].

Lemma requests_per_minute_hold_witness :
  let l := mk_limits (Some 2%N) (Some 101%N) in
  (rate_run l busy).2 = [0; 5]%N ∧ bounded 2 (rate_run l busy).2 ∧
  (admit_request (rate_run l busy).1 l 8).2 = Err 60%Z ∧
  (admit_request (admit_request (rate_run l busy).1 l 8).1 l (8 + RATE_WINDOW)).2 = Ok tt.
Proof.
  intros l.
  assert (in_order busy) as Ho.
  { intros i j a b Hij Ha Hb.
    destruct i as [|[|[|[|i]]]], j as [|[|[|[|j]]]]; try lia; cbn in Ha, Hb; try discriminate;
      injection Ha as <-; injection Hb as <-; cbn; lia. }
  destruct (requests_per_minute_hold l 2 busy eq_refl ltac:(done) Ho) as [Hb Hwait].
  split_and!; [vm_compute; reflexivity|exact Hb|vm_compute; reflexivity|].
  apply (Hwait 8%N 60%Z); [|intros t [= <-]; vm_compute; reflexivity|vm_compute; reflexivity|vm_compute; discriminate].
  intros e He. unfold busy in He. rewrite !elem_of_cons, elem_of_nil in He.
  destruct He as [-> |[-> |[-> |[-> |[]]]]]; cbn; lia.
Defined.
