(* ===== verification/Harness.v ===== *)
(** * The inherited shell guard ([cctui-daemon/src/hook_policy/no_direct_harness.rs])

    A hook that reads the shell command a model is about to run and refuses one
    that would start a harness outside the session's hook policy.  The command
    is lexed as a shell would, with quotes, substitutions, redirections and here
    documents, and every simple command in it is judged.  A script is a UTF-8
    byte string read byte by byte: every character the lexer gives a meaning is
    ASCII, so the bytes of any other character are taken over one after the
    other.  The lexer's position is the text that is left. *)

From stdpp Require Import base decidable list strings sets.
From Stdlib Require Import Lia ZArith Bool Ascii String.
From S2P Require Import Prelude RustStr Json.

Abbreviation tab := "009"%char.

(** ** Constants *)

Definition BLOCK : Z := 2.
Definition MAX_DEPTH : nat := 8.
Definition HARNESSES : list string := ["claude"; "codex"; "opencode"; "gemini"].
Definition PACKAGES : list string :=
  ["@anthropic-ai/claude-code"; "@openai/codex"; "opencode-ai"; "@google/gemini-cli"].
Definition SHELLS : list string := ["sh"; "bash"; "zsh"; "dash"; "ksh"; "fish"].
Definition KEYWORDS : list string := ["if"; "then"; "else"; "elif"; "do"; "while"; "until"; "!"; "{"].
Definition WRAPPERS : list string :=
  ["sudo"; "doas"; "env"; "exec"; "command"; "builtin"; "nohup"; "nice"; "time"; "timeout";
   "stdbuf"; "xargs"; "setsid"; "unbuffer"; "watch"].
Definition INFO_FLAGS : list string := ["--version"; "-v"; "-V"; "--help"; "-h"].

Definition listed (s : string) (l : list string) : bool := existsb (String.eqb s) l.

(** ** Words and commands *)

Record Word := mkWord { w_text : string; w_mentions_harness : bool }.

Record Simple := mkSimple { s_words : list Word; s_bodies : list string; s_piped : bool }.

Record Heredoc := mkHeredoc { h_delimiter : string; h_strip_tabs : bool; h_owner : nat }.

(** The second error is the model's own: out of fuel. *)
Inductive LexError := Unparseable | LexFuel.

Record Lexer := mkLexer {
  lx_rest : string;
  lx_commands : list Simple;
  lx_substituted : list Simple;
  lx_current : Simple;
  lx_word : option Word;
  lx_redirect_target : bool;
  lx_heredocs : list Heredoc;
}.

Definition empty_simple : Simple := mkSimple [] [] false.

Definition Lexer_at (rest : string) : Lexer := mkLexer rest [] [] empty_simple None false [].

Definition set_rest (rest : string) (l : Lexer) : Lexer :=
  mkLexer rest (lx_commands l) (lx_substituted l) (lx_current l) (lx_word l) (lx_redirect_target l)
    (lx_heredocs l).

Definition set_word (w : option Word) (l : Lexer) : Lexer :=
  mkLexer (lx_rest l) (lx_commands l) (lx_substituted l) (lx_current l) w (lx_redirect_target l)
    (lx_heredocs l).

Definition word_of (l : Lexer) : Word := default (mkWord "" false) (lx_word l).

(** [self.word()], which starts a word when there is none. *)
Definition touch_word (l : Lexer) : Lexer := set_word (Some (word_of l)) l.

Definition push_char (c : ascii) (l : Lexer) : Lexer :=
  let w := word_of l in
  set_word (Some (mkWord (w_text w ++s String c "") (w_mentions_harness w))) l.

Definition end_word (l : Lexer) : Lexer :=
  match lx_word l with
  | None => l
  | Some w =>
    if lx_redirect_target l then
      mkLexer (lx_rest l) (lx_commands l) (lx_substituted l) (lx_current l) None false (lx_heredocs l)
    else
      let cur := lx_current l in
      mkLexer (lx_rest l) (lx_commands l) (lx_substituted l)
        (mkSimple (s_words cur ++ [w]) (s_bodies cur) (s_piped cur)) None false (lx_heredocs l)
  end.

Definition end_command (piped_next : bool) (l : Lexer) : Lexer :=
  let l := end_word l in
  let cur := lx_current l in
  let keep := match s_words cur, s_bodies cur with [], [] => false | _, _ => true end in
  mkLexer (lx_rest l) (if keep then lx_commands l ++ [cur] else lx_commands l) (lx_substituted l)
    (mkSimple [] [] piped_next) (lx_word l) (lx_redirect_target l) (lx_heredocs l).

(** ** Lexing *)

Definition head_is (c : ascii) (s : string) : bool :=
  match s with String d _ => Ascii.eqb c d | "" => false end.

(** [self.peek_at(1)] and [self.peek_at(2)] when the first character is [c]. *)
Definition second_is (c d : ascii) (r : string) : bool :=
  match r with String e r2 => Ascii.eqb c e && head_is d r2 | "" => false end.

Definition is_redirect_char (c : ascii) : bool := ascii_in [">"%char; "&"%char; "<"%char] c.
Definition is_fd_char (c : ascii) : bool := is_ascii_digit c || Ascii.eqb c "-".

Fixpoint last_char (d : ascii) (s : string) : ascii :=
  match s with "" => d | String c s => last_char c s end.

(** [c] is the character at the position, [r] what follows it. *)
Definition redirect (c : ascii) (r : string) (l : Lexer) : Lexer :=
  let l := end_word l in
  let '(ops, r) := span_chars is_redirect_char r in
  let fd_dup := match r with
                | String d _ => is_fd_char d && Ascii.eqb (last_char c ops) "&"
                | "" => false
                end in
  if fd_dup then set_rest (span_chars is_fd_char r).2 l
  else mkLexer r (lx_commands l) (lx_substituted l) (lx_current l) (lx_word l) true (lx_heredocs l).

Definition skip_comment (r : string) (l : Lexer) : Lexer :=
  set_rest (span_chars (λ c, negb (Ascii.eqb c newline)) r).2 l.

Definition escaped (r : string) (l : Lexer) : Lexer :=
  match r with
  | "" => set_rest "" l
  | String d r2 => if Ascii.eqb d newline then set_rest r2 l else push_char d (set_rest r2 l)
  end.

(** What a run of single quotes adds: the text before the closing quote. *)
Fixpoint single_quoted_from (r : string) (l : Lexer) : result LexError Lexer :=
  match r with
  | "" => Err Unparseable
  | String c r => if Ascii.eqb c "'" then Ok (set_rest r l) else single_quoted_from r (push_char c l)
  end.

Definition lex_single_quoted (r : string) (l : Lexer) : result LexError Lexer :=
  single_quoted_from r (touch_word l).

Section lexer.
(** [inner.lex(Some(close))] at a depth. *)
Variable lex_inner : nat → ascii → Lexer → result LexError Lexer.

Definition names_harness (c : Simple) : bool :=
  existsb (λ w, listed (basename (w_text w)) HARNESSES) (s_words c).

(** [r] is what follows the opening of the substitution. *)
Definition substitution (depth : nat) (close : ascii) (r : string) (l : Lexer) : result LexError Lexer :=
  if (MAX_DEPTH <=? depth)%nat then Err Unparseable
  else
    inner ← lex_inner (S depth) close (Lexer_at r);
    let mentions := existsb names_harness (lx_commands inner ++ lx_substituted inner) in
    let w := word_of l in
    Ok (mkLexer (lx_rest inner) (lx_commands l)
          (lx_substituted l ++ lx_commands inner ++ lx_substituted inner)
          (lx_current l) (Some (mkWord (w_text w) (w_mentions_harness w || mentions)))
          (lx_redirect_target l) (lx_heredocs l)).

(** The loop of [double_quoted]. *)
Fixpoint double_quoted_from (fuel : nat) (depth : nat) (l : Lexer) : result LexError Lexer :=
  match fuel with
  | 0%nat => Err LexFuel
  | S fuel =>
    match lx_rest l with
    | "" => Err Unparseable
    | String c r =>
      if Ascii.eqb c dquote then Ok (set_rest r l)
      else if Ascii.eqb c "\" then
        match r with
        | "" => double_quoted_from fuel depth (set_rest "" l)
        | String d r2 => double_quoted_from fuel depth (push_char d (set_rest r2 l))
        end
      else if Ascii.eqb c "$" && head_is "(" r then
        l ← substitution depth ")" (sdrop 1 r) l; double_quoted_from fuel depth l
      else if Ascii.eqb c "`" then
        l ← substitution depth "`" r l; double_quoted_from fuel depth l
      else double_quoted_from fuel depth (push_char c (set_rest r l))
    end
  end.

Definition lex_double_quoted (depth : nat) (r : string) (l : Lexer) : result LexError Lexer :=
  double_quoted_from (S (String.length r)) depth (touch_word (set_rest r l)).

(** The delimiter of a here document, without its quotes. *)
Fixpoint heredoc_delimiter (delimiter r : string) : string * string :=
  match r with
  | "" => (delimiter, "")
  | String c r2 =>
    if starts_with_ws r || ascii_in [";"%char; "&"%char; "|"%char; "<"%char; ">"%char; "("%char; ")"%char] c
    then (delimiter, r)
    else heredoc_delimiter
           (if ascii_in ["'"%char; dquote; "\"%char] c then delimiter else delimiter ++s String c "") r2
  end.

(** [r] is what follows [<<]. *)
Definition heredoc (r : string) (l : Lexer) : result LexError Lexer :=
  let l := end_word l in
  let strip_tabs := head_is "-" r in
  let r := if strip_tabs then sdrop 1 r else r in
  let r := (span_chars (ascii_in [" "%char; tab]) r).2 in
  let '(delimiter, r) := heredoc_delimiter "" r in
  if is_empty delimiter then Err Unparseable
  else Ok (mkLexer r (lx_commands l) (lx_substituted l) (lx_current l) (lx_word l) (lx_redirect_target l)
             (lx_heredocs l ++ [mkHeredoc delimiter strip_tabs (List.length (lx_commands l))])).

(** The lines up to the delimiter: the body and what is left. *)
Fixpoint heredoc_body (fuel : nat) (doc : Heredoc) (body r : string) : string * string :=
  match fuel with
  | 0%nat => (body, r)
  | S fuel =>
    match r with
    | "" => (body, "")
    | _ =>
      let '(line, r) := span_chars (λ c, negb (Ascii.eqb c newline)) r in
      let r := sdrop 1 r in
      let probe := if h_strip_tabs doc then trim_start_matches (Ascii.eqb tab) line else line in
      if probe ==s h_delimiter doc then (body, r)
      else heredoc_body fuel doc (body ++s line ++s nl) r
    end
  end.

Definition add_body (body : string) (c : Simple) : Simple :=
  mkSimple (s_words c) (s_bodies c ++ [body]) (s_piped c).

Definition read_heredoc (l : Lexer) (doc : Heredoc) : Lexer :=
  let '(body, r) := heredoc_body (S (String.length (lx_rest l))) doc "" (lx_rest l) in
  mkLexer r (alter (add_body body) (h_owner doc) (lx_commands l)) (lx_substituted l) (lx_current l)
    (lx_word l) (lx_redirect_target l) (lx_heredocs l).

Definition read_heredocs (l : Lexer) : Lexer :=
  foldl read_heredoc
    (mkLexer (lx_rest l) (lx_commands l) (lx_substituted l) (lx_current l) (lx_word l)
       (lx_redirect_target l) []) (lx_heredocs l).

Definition step (depth : nat) (c : ascii) (r : string) (l : Lexer) : result LexError Lexer :=
  if Ascii.eqb c " " || Ascii.eqb c tab then Ok (end_word (set_rest r l))
  else if Ascii.eqb c newline then Ok (read_heredocs (end_command false (set_rest r l)))
  else if Ascii.eqb c "&" && head_is ">" r then Ok (redirect c r l)
  else if ascii_in [";"%char; "("%char; ")"%char; "&"%char] c then Ok (end_command false (set_rest r l))
  else if Ascii.eqb c "|" then
    let or := head_is "|" r in Ok (end_command (negb or) (set_rest (if or then sdrop 1 r else r) l))
  else if Ascii.eqb c "<" && head_is "<" r && negb (second_is "<" "<" r) then heredoc (sdrop 1 r) l
  else if Ascii.eqb c "<" || Ascii.eqb c ">" then Ok (redirect c r l)
  else if Ascii.eqb c "#" && bool_decide (lx_word l = None) then Ok (skip_comment r l)
  else if Ascii.eqb c "'" then lex_single_quoted r l
  else if Ascii.eqb c dquote then lex_double_quoted depth r l
  else if Ascii.eqb c "\" then Ok (escaped r l)
  else if Ascii.eqb c "$" && head_is "(" r then substitution depth ")" (sdrop 1 r) l
  else if Ascii.eqb c "`" then substitution depth "`" r l
  else Ok (push_char c (set_rest r l)).

End lexer.

(** [lex]: up to [close], which is consumed, or the end of the text. *)
Fixpoint lex (fuel depth : nat) (close : option ascii) (l : Lexer) : result LexError Lexer :=
  match fuel with
  | 0%nat => Err LexFuel
  | S fuel =>
    match lx_rest l with
    | "" => match close with Some _ => Err Unparseable | None => Ok (end_command false l) end
    | String c r =>
      if bool_decide (close = Some c) then Ok (end_command false (set_rest r l))
      else l ← step (λ d close, lex fuel d (Some close)) depth c r l; lex fuel depth close l
    end
  end.

(** ** Judging a simple command *)

Definition is_assignment (word : string) : bool :=
  match split_once (Ascii.eqb "=") word with
  | None => false
  | Some (name, _) =>
    match default name (strip_suffix "+" name) with
    | "" => false
    | String c r =>
      (Ascii.eqb c "_" || is_ascii_alphabetic c) &&
      all_chars (λ c, Ascii.eqb c "_" || is_ascii_alphanumeric c) r
    end
  end.

Definition is_duration (word : string) : bool :=
  let digits := trim_end_matches (ascii_in ["s"%char; "m"%char; "h"%char; "d"%char]) word in
  negb (is_empty digits) && all_chars (λ c, is_ascii_digit c || Ascii.eqb c ".") digits.

Definition wrapper_arg_flags (wrapper : string) : list string :=
  if (wrapper ==s "sudo") || (wrapper ==s "doas") then ["-u"; "-g"; "-C"; "-D"; "-h"; "-p"; "-r"; "-t"; "-U"]
  else if wrapper ==s "xargs" then ["-I"; "-n"; "-P"; "-L"; "-s"; "-d"; "-E"; "-a"]
  else if wrapper ==s "env" then ["-u"; "-C"]
  else if wrapper ==s "timeout" then ["-k"; "-s"]
  else if wrapper ==s "nice" then ["-n"]
  else [].

(** The words that are left after a wrapper's options. *)
Fixpoint skip_wrapper_options (takes_arg : list string) (words : list Word) : list Word :=
  match words with
  | [] => []
  | w :: rest =>
    let text := w_text w in
    if text ==s "--" then rest
    else if starts_with "-" text then
      if listed text takes_arg then
        match rest with [] => [] | _ :: rest => skip_wrapper_options takes_arg rest end
      else skip_wrapper_options takes_arg rest
    else if is_assignment text || is_duration text then skip_wrapper_options takes_arg rest
    else words
  end.

Fixpoint program_from (fuel : nat) (words : list Word) : option (Word * list Word) :=
  match fuel, words with
  | S fuel, w :: rest =>
    let text := w_text w in
    if is_assignment text || listed text KEYWORDS then program_from fuel rest
    else
      let name := basename text in
      if w_mentions_harness w || negb (listed name WRAPPERS) then Some (w, rest)
      else if (name ==s "command") &&
              match rest with v :: _ => (w_text v ==s "-v") || (w_text v ==s "-V") | [] => false end
      then None
      else program_from fuel (skip_wrapper_options (wrapper_arg_flags name) rest)
  | _, _ => None
  end.

(** Every turn of the loop takes at least one word. *)
Definition program_and_args (words : list Word) : option (Word * list Word) :=
  program_from (List.length words) words.

(** The argument of [-c], if there is one. *)
Fixpoint shell_script (args : list Word) : option string :=
  match args with
  | [] => None
  | a :: rest =>
    let text := w_text a in
    if (text ==s "--") || negb (starts_with "-" text || starts_with "+" text) then None
    else if starts_with "--" text then shell_script rest
    else if listed text ["-o"; "+o"; "-O"; "+O"] then
      match rest with [] => None | _ :: rest => shell_script rest end
    else if contains_char (Ascii.eqb "c") (trim_start_matches (ascii_in ["-"%char; "+"%char]) text) then
      w_text <$> head rest
    else shell_script rest
  end.

Definition runner_package (name : string) (args : list Word) : option string :=
  let first_plain (l : list Word) := find (λ a, negb (starts_with "-" a)) (w_text <$> l) in
  if listed name ["npx"; "bunx"; "pnpx"] then first_plain args
  else if listed name ["npm"; "pnpm"; "yarn"; "bun"] then
    match args with
    | sub :: rest => if listed (w_text sub) ["exec"; "x"; "dlx"] then first_plain rest else None
    | [] => None
    end
  else None.

Definition is_harness_package (package : string) : bool :=
  let bare := match strip_prefix "@" package with
              | None => match split_once (Ascii.eqb "@") package with Some (a, _) => a | None => package end
              | Some scoped =>
                match split_once (Ascii.eqb "@") scoped with
                | Some (name, _) => stake (S (String.length name)) package
                | None => package
                end
              end in
  listed bare PACKAGES || listed (basename bare) HARNESSES.

Definition only_info_flags (args : list Word) : bool :=
  match args with [] => false | _ => forallb (λ a, listed (w_text a) INFO_FLAGS) args end.

(** ** The check *)

(** [for x in l { if let Some(hit) = f(x)? { return Ok(Some(hit)) } }]. *)
Fixpoint first_found {A E B} (f : A → result E (option B)) (l : list A) : result E (option B) :=
  match l with
  | [] => Ok None
  | x :: l =>
    hit ← f x;
    match hit with Some h => Ok (Some h) | None => first_found f l end
  end.

Section check.
(** [check(script, depth + 1)]. *)
Variable check_inner : string → result LexError (option string).

Definition check_shell (cmd : Simple) (args : list Word) (previous : option Simple) :
    result LexError (option string) :=
  match shell_script args with
  | Some script => check_inner script
  | None =>
    if negb (forallb (λ a, starts_with "-" (w_text a)) args) then Ok None
    else
      hit ← first_found check_inner (s_bodies cmd);
      match hit with
      | Some h => Ok (Some h)
      | None =>
        match s_piped cmd, previous with
        | true, Some previous => first_found (λ w, check_inner (w_text w)) (tail (s_words previous))
        | _, _ => Ok None
        end
      end
  end.

Definition check_simple (cmd : Simple) (previous : option Simple) : result LexError (option string) :=
  match program_and_args (s_words cmd) with
  | None => Ok None
  | Some (program, args) =>
    if w_mentions_harness program then Ok (Some "a harness")
    else
      let name := basename (w_text program) in
      if listed name HARNESSES && negb (only_info_flags args) then Ok (Some name)
      else if listed name SHELLS then check_shell cmd args previous
      else if name ==s "eval" then check_inner (join " " (w_text <$> args))
      else Ok (match runner_package name args with
               | Some p => if is_harness_package p then Some p else None
               | None => None
               end)
  end.

(** The commands in order, each with the one before it. *)
Fixpoint check_commands (previous : option Simple) (cmds : list Simple) :
    result LexError (option string) :=
  match cmds with
  | [] => Ok None
  | c :: cmds =>
    hit ← check_simple c previous;
    match hit with Some h => Ok (Some h) | None => check_commands (Some c) cmds end
  end.

End check.

Definition lex_all (depth : nat) (script : string) : result LexError Lexer :=
  lex (S (String.length script)) depth None (Lexer_at script).

(** [check] at depth [MAX_DEPTH + 1 - levels]. *)
Fixpoint check (levels : nat) (script : string) : result LexError (option string) :=
  match levels with
  | 0%nat => Err Unparseable
  | S levels =>
    lexer ← lex_all (MAX_DEPTH - levels) script;
    hit ← check_commands (check levels) None (lx_commands lexer);
    match hit with
    | Some h => Ok (Some h)
    | None => first_found (λ c, check_simple (check levels) c None) (lx_substituted lexer)
    end
  end.

Definition launched_harness (command : string) : result LexError (option string) :=
  check (S MAX_DEPTH) command.

(** ** The hook *)

(** [word.replace('\'', r"'\''")]. *)
Fixpoint escape_quotes (w : string) : string :=
  match w with
  | "" => ""
  | String c w =>
    if Ascii.eqb c "'" then "'\''" ++s escape_quotes w else String c (escape_quotes w)
  end.

Definition single_quoted (w : string) : string := "'" ++s escape_quotes w ++s "'".

Definition shell_command (payload : Value) : option string :=
  input ← jget "tool_input" payload;
  find_map (λ key,
    v ← jget key input;
    match v with
    | JStr command => Some command
    | JArr argv => words ← mapM (λ w, single_quoted <$> as_str w) argv; Some (join " " words)
    | _ => None
    end) ["command"; "cmd"].

Definition refusal (harness : string) : string :=
  "cctui: do not start `" ++s harness ++s
  "` from a shell. A harness launched this way runs outside this session's hook policy and is not tracked by cctui. Use the CctuiAgent tool to start a child agent instead.".

Definition decide_hook `{JsonText} (payload : string) : Z * option string :=
  match json_from_str payload with
  | None => (BLOCK, Some "cctui: the hook payload is not JSON")
  | Some payload =>
    match shell_command payload with
    | None => (BLOCK, Some "cctui: the hook payload carries no shell command")
    | Some command =>
      match launched_harness command with
      | Ok None => (0%Z, None)
      | Ok (Some harness) => (BLOCK, Some (refusal harness))
      | Err _ => (BLOCK, Some "cctui: this shell command could not be checked for a direct harness launch (unbalanced quotes or nesting too deep). Rewrite it more simply.")
      end
    end
  end.

(** [run]: the exit code and what is printed, from reading standard input. *)
Definition run_hook `{JsonText} (stdin : result string string) : Z * option string :=
  match stdin with
  | Ok payload => decide_hook payload
  | Err err => (BLOCK, Some ("cctui: cannot read the hook payload: " ++s err))
  end.

(** ** Facts: the lexer ends *)

Definition left (l : Lexer) : nat := String.length (lx_rest l).

Lemma left_end_word l : left (end_word l) = left l.
Proof. unfold end_word. repeat case_match; done. Qed.

Lemma left_end_command b l : left (end_command b l) = left l.
Proof. unfold end_command. cbv zeta. apply left_end_word. Qed.

Lemma redirect_left c r l : (left (redirect c r l) ≤ String.length r)%nat.
Proof.
  unfold redirect. cbv zeta. pose proof (span_left is_redirect_char r) as Hs.
  destruct (span_chars is_redirect_char r) as [ops r']. cbn [snd] in Hs.
  destruct (match r' with String d _ => _ | "" => false end); cbn; [|done].
  etrans; [apply span_left|done].
Qed.

Lemma single_quoted_left r l l' : single_quoted_from r l = Ok l' → (left l' ≤ String.length r)%nat.
Proof.
  revert l. induction r as [|c r IH]; intros l; cbn [single_quoted_from]; [done|].
  destruct (Ascii.eqb c "'"); [intros [= <-]; cbn; lia|]. intros Hl%IH. cbn. lia.
Qed.

Lemma delimiter_left d r : (String.length (heredoc_delimiter d r).2 ≤ String.length r)%nat.
Proof.
  revert d. induction r as [|c r IH]; intros d; cbn [heredoc_delimiter]; [done|].
  destruct (_ || _); cbn [snd]; [done|]. etrans; [apply IH|]. cbn. lia.
Qed.

Lemma heredoc_left r l l' : heredoc r l = Ok l' → (left l' ≤ String.length r)%nat.
Proof.
  unfold heredoc. cbv zeta. set (r1 := if head_is "-" r then sdrop 1 r else r).
  assert (String.length r1 ≤ String.length r)%nat as H1.
  { unfold r1. destruct (head_is "-" r); [apply sdrop_left|done]. }
  set (r2 := (span_chars _ r1).2). assert (String.length r2 ≤ String.length r1)%nat as H2 by apply span_left.
  pose proof (delimiter_left "" r2) as H3. destruct (heredoc_delimiter "" r2) as [d r3].
  destruct (is_empty d); [done|]. intros [= <-]. cbn in *. lia.
Qed.

Lemma heredoc_body_left fuel doc body r :
  (String.length (heredoc_body fuel doc body r).2 ≤ String.length r)%nat.
Proof.
  revert body r. induction fuel as [|fuel IH]; intros body r; [done|]. cbn [heredoc_body].
  destruct r as [|c r]; [done|]. set (p := λ c, _). pose proof (span_left p (String c r)) as H1.
  destruct (span_chars p (String c r)) as [line r']. cbn [snd] in H1.
  pose proof (sdrop_left 1 r') as H2. destruct (_ ==s h_delimiter doc); cbn [snd]; [lia|].
  etrans; [apply IH|]. lia.
Qed.

Lemma read_heredocs_left l : (left (read_heredocs l) ≤ left l)%nat.
Proof.
  unfold read_heredocs. set (l0 := mkLexer _ _ _ _ _ _ _). change (left l) with (left l0). clearbody l0.
  generalize (lx_heredocs l) as docs. intros docs. revert l0. induction docs as [|d docs IH]; intros l0; [done|].
  cbn [foldl]. etrans; [apply IH|]. unfold read_heredoc.
  pose proof (heredoc_body_left (S (String.length (lx_rest l0))) d "" (lx_rest l0)) as Hb.
  destruct (heredoc_body _ d "" (lx_rest l0)). exact Hb.
Qed.

(** What the lexer inside a substitution has to give for texts of a length. *)
Definition inner_ok (n : nat) (inner : nat → ascii → Lexer → result LexError Lexer) : Prop :=
  ∀ d close l, (left l ≤ n)%nat →
    inner d close l ≠ Err LexFuel ∧ ∀ l', inner d close l = Ok l' → (left l' ≤ left l)%nat.

Lemma substitution_left inner n depth close r l :
  inner_ok n inner → (String.length r ≤ n)%nat →
  substitution inner depth close r l ≠ Err LexFuel ∧
  ∀ l', substitution inner depth close r l = Ok l' → (left l' ≤ String.length r)%nat.
Proof.
  intros Hi Hr. unfold substitution. destruct (_ <=? _)%nat; [done|].
  destruct (Hi (S depth) close (Lexer_at r) Hr) as [Hf Hl].
  destruct (inner (S depth) close (Lexer_at r)) as [l1|e]; cbn [mbind result_bind].
  - split; [done|]. intros l' [= <-]. apply (Hl l1 eq_refl).
  - split; [intros [= ->]; done|done].
Qed.

Lemma double_quoted_left inner fuel depth l :
  inner_ok (left l) inner → (left l < fuel)%nat →
  double_quoted_from inner fuel depth l ≠ Err LexFuel ∧
  ∀ l', double_quoted_from inner fuel depth l = Ok l' → (left l' ≤ left l)%nat.
Proof.
  revert l. induction fuel as [|fuel IH]; intros l Hi Hf; [lia|]. cbn [double_quoted_from].
  unfold left in *. destruct (lx_rest l) as [|c r] eqn:Er; [done|]. cbn [String.length] in *.
  assert (∀ l1, (left l1 ≤ String.length r)%nat →
    double_quoted_from inner fuel depth l1 ≠ Err LexFuel ∧
    ∀ l', double_quoted_from inner fuel depth l1 = Ok l' → (left l' ≤ S (String.length r))%nat) as Hgo.
  { intros l1 H1. destruct (IH l1) as [Ha Hb].
    - intros d close l0 H0. apply Hi. unfold left in *. lia.
    - unfold left in *. lia.
    - split; [done|]. intros l' Hl'. specialize (Hb l' Hl'). unfold left in *. lia. }
  assert (∀ close r1, (String.length r1 ≤ String.length r)%nat →
    (l2 ← substitution inner depth close r1 l; double_quoted_from inner fuel depth l2) ≠ Err LexFuel ∧
    ∀ l', (l2 ← substitution inner depth close r1 l; double_quoted_from inner fuel depth l2) = Ok l' →
      (left l' ≤ S (String.length r))%nat) as Hsub.
  { intros close r1 H1. destruct (substitution_left inner (S (String.length r)) depth close r1 l Hi) as [Ha Hb]; [lia|].
    destruct (substitution inner depth close r1 l) as [l2|e]; cbn [mbind result_bind].
    - apply Hgo. etrans; [by apply Hb|done].
    - split; [intros [= ->]; done|done]. }
  destruct (Ascii.eqb c dquote); [split; [done|]; intros l' [= <-]; cbn; lia|].
  destruct (Ascii.eqb c "\"); [destruct r; apply Hgo; cbn; lia|].
  destruct (Ascii.eqb c "$" && head_is "(" r); [apply Hsub, sdrop_left|].
  destruct (Ascii.eqb c "`"); [by apply Hsub|]. by apply Hgo.
Qed.

Lemma step_left inner depth c r l :
  inner_ok (String.length r) inner →
  step inner depth c r l ≠ Err LexFuel ∧
  ∀ l', step inner depth c r l = Ok l' → (left l' ≤ String.length r)%nat.
Proof.
  intros Hi. pose proof (sdrop_left 1 r) as Hd. unfold step.
  assert (∀ l1, (left l1 ≤ String.length r)%nat →
    @Ok LexError _ l1 ≠ Err LexFuel ∧ ∀ l', @Ok LexError _ l1 = Ok l' → (left l' ≤ String.length r)%nat) as Hok.
  { intros l1 H1. split; [done|]. by intros l' [= <-]. }
  repeat match goal with |- context [if ?b then _ else _] => destruct b end;
    try (apply Hok; rewrite ?left_end_command, ?left_end_word; try apply redirect_left; done).
  - apply Hok. etrans; [apply read_heredocs_left|]. by rewrite left_end_command.
  - split; [|intros l' Hl'; apply heredoc_left in Hl'; lia].
    unfold heredoc. cbv zeta. destruct (heredoc_delimiter _ _) as [d r1]. by destruct (is_empty d).
  - apply Hok. apply span_left.
  - unfold lex_single_quoted. split; [|apply single_quoted_left]. generalize (touch_word l).
    clear. induction r as [|c r IH]; intros l0; cbn [single_quoted_from]; [done|].
    destruct (Ascii.eqb c "'"); [done|apply IH].
  - unfold lex_double_quoted. apply double_quoted_left; [exact Hi|]. cbn. lia.
  - apply Hok. unfold escaped. destruct r as [|d r]; [done|]. destruct (Ascii.eqb d newline); cbn; lia.
  - destruct (substitution_left inner (String.length r) depth ")" (sdrop 1 r) l Hi Hd) as [Ha Hb].
    split; [done|]. intros l' Hl'. specialize (Hb l' Hl'). lia.
  - by apply (substitution_left inner (String.length r)).
Qed.

(** The fuel the lexer is run with is enough, and it never moves back. *)
Lemma lex_enough fuel depth close l :
  (left l < fuel)%nat →
  lex fuel depth close l ≠ Err LexFuel ∧ ∀ l', lex fuel depth close l = Ok l' → (left l' ≤ left l)%nat.
Proof.
  revert depth close l. induction fuel as [|fuel IH]; intros depth close l Hf; [lia|]. cbn [lex].
  unfold left in Hf |- *. destruct (lx_rest l) as [|c r] eqn:Er; cbn [String.length] in *.
  { destruct close; [done|]. split; [done|]. intros l' [= <-].
    change (left (end_command false l) ≤ 0)%nat. rewrite left_end_command. unfold left. rewrite Er. done. }
  destruct (bool_decide (close = Some c)).
  { split; [done|]. intros l' [= <-]. change (left (end_command false (set_rest r l)) ≤ S (String.length r))%nat.
    rewrite left_end_command. cbn. lia. }
  destruct (step_left (λ d close, lex fuel d (Some close)) depth c r l) as [Ha Hb].
  { intros d cl l0 H0. apply IH. unfold left in *. lia. }
  destruct (step _ depth c r l) as [l1|e]; cbn [mbind result_bind].
  - specialize (Hb l1 eq_refl). destruct (IH depth close l1) as [Hc Hd]; [unfold left in *; lia|].
    split; [done|]. intros l' Hl'. specialize (Hd l' Hl'). unfold left in *. lia.
  - split; [intros [= ->]; done|done].
Qed.

Lemma lex_to_end_from fuel depth l l' : lex fuel depth None l = Ok l' → lx_rest l' = "".
Proof.
  revert l. induction fuel as [|fuel IH]; intros l; cbn [lex]; [done|].
  destruct (lx_rest l) as [|c r] eqn:Er.
  - intros [= <-]. unfold end_command, end_word. cbv zeta. destruct (lx_word l), (lx_redirect_target l); cbn; done.
  - cbn [bool_decide]. destruct (step _ depth c r l) as [l1|e]; cbn [mbind result_bind]; [apply IH|done].
Qed.

Lemma lex_to_end depth script l : lex_all depth script = Ok l → lx_rest l = "".
Proof. apply lex_to_end_from. Qed.

(** The check never runs out of fuel: it ends in a verdict or in [Unparseable]. *)
Lemma first_found_fuel {A B} (f : A → result LexError (option B)) l :
  (∀ x, f x ≠ Err LexFuel) → first_found f l ≠ Err LexFuel.
Proof.
  intros Hf. induction l as [|x l IH]; [done|]. cbn [first_found]. specialize (Hf x).
  destruct (f x) as [[h|]|e]; cbn [mbind result_bind]; [done|done|]. intros [= ->]. done.
Qed.

Lemma check_simple_fuel inner cmd prev :
  (∀ s, inner s ≠ Err LexFuel) → check_simple inner cmd prev ≠ Err LexFuel.
Proof.
  intros Hi. unfold check_simple. destruct (program_and_args _) as [[prog args]|]; [|done]. cbv zeta.
  destruct (w_mentions_harness prog); [done|]. destruct (_ && _); [done|].
  destruct (listed _ SHELLS).
  { unfold check_shell. destruct (shell_script args); [apply Hi|]. destruct (negb _); [done|].
    pose proof (first_found_fuel inner (s_bodies cmd) Hi) as Hb.
    destruct (first_found inner (s_bodies cmd)) as [[h|]|e]; cbn [mbind result_bind]; [done| |].
    - destruct (s_piped cmd), prev; try done. by apply first_found_fuel.
    - intros [= ->]. done. }
  destruct (_ ==s "eval"); [apply Hi|done].
Qed.

Lemma check_total levels script : check levels script ≠ Err LexFuel.
Proof.
  revert script. induction levels as [|levels IH]; intros script; [done|]. cbn [check].
  destruct (lex_enough (S (String.length script)) (MAX_DEPTH - levels) None (Lexer_at script)) as [Hl _]; [cbn; lia|].
  unfold lex_all. destruct (lex _ _ None (Lexer_at script)) as [l|e]; cbn [mbind result_bind]; [|intros [= ->]; done].
  assert (∀ prev cmds, check_commands (check levels) prev cmds ≠ Err LexFuel) as Hc.
  { intros prev cmds. revert prev. induction cmds as [|c cmds IHc]; intros prev; [done|]. cbn [check_commands].
    pose proof (check_simple_fuel (check levels) c prev IH) as Hs.
    destruct (check_simple _ c prev) as [[h|]|e]; cbn [mbind result_bind]; [done|apply IHc|intros [= ->]; done]. }
  specialize (Hc None (lx_commands l)).
  destruct (check_commands _ None _) as [[h|]|e]; cbn [mbind result_bind]; [done| |intros [= ->]; done].
  apply first_found_fuel. intros c. by apply check_simple_fuel.
Qed.

(** ** Facts: quoted scripts *)

Inductive Sep := SSemi | SAnd | SOr | SPipe | SBackground | SLine.

Definition sep_text (s : Sep) : string :=
  match s with SSemi => ";" | SAnd => "&&" | SOr => "||" | SPipe => "|" | SBackground => "&" | SLine => nl end.

Definition is_pipe (s : Sep) : bool := match s with SPipe => true | _ => false end.

Definition quoted_words (ws : list string) : string := join " " (single_quoted <$> ws).

(** Commands one after the other, every word in quotes. *)
Fixpoint render_rest (cmds : list (Sep * list string)) : string :=
  match cmds with
  | [] => ""
  | (sep, ws) :: cmds => sep_text sep ++s quoted_words ws ++s render_rest cmds
  end.

Definition render_script (first : list string) (cmds : list (Sep * list string)) : string :=
  quoted_words first ++s render_rest cmds.

Definition plain_words (ws : list string) : list Word := (λ w, mkWord w false) <$> ws.

(** The commands a script stands for. *)
Definition script_commands (first : list string) (cmds : list (Sep * list string)) : list Simple :=
  mkSimple (plain_words first) [] false ::
  ((λ '(sep, ws), mkSimple (plain_words ws) [] (is_pipe sep)) <$> cmds).

Definition leads (depth : nat) (l l' : Lexer) : Prop :=
  ∀ fuel, (left l < fuel)%nat →
    ∃ fuel', (left l' < fuel')%nat ∧ lex fuel depth None l = lex fuel' depth None l'.

Lemma leads_refl depth l : leads depth l l.
Proof. intros fuel Hf. eauto. Qed.

Lemma leads_trans depth l1 l2 l3 : leads depth l1 l2 → leads depth l2 l3 → leads depth l1 l3.
Proof.
  intros H1 H2 fuel Hf. destruct (H1 fuel Hf) as (f2 & Hf2 & ->).
  destruct (H2 f2 Hf2) as (f3 & Hf3 & ->). eauto.
Qed.

Lemma step_leads depth c r l l' :
  lx_rest l = String c r → (∀ inner, step inner depth c r l = Ok l') → leads depth l l'.
Proof.
  intros Hr Hs fuel Hf. destruct fuel as [|fuel]; [lia|]. exists fuel. split.
  - pose proof (step_left (λ _ _ _, Err Unparseable) depth c r l) as [_ Hl]; [by intros ???|].
    specialize (Hl l' (Hs _)). unfold left in *. rewrite Hr in Hf. cbn in Hf. lia.
  - cbn [lex]. rewrite Hr. cbn. by rewrite Hs.
Qed.

(** The word so far with more text. *)
Definition add_text (w : string) (l : Lexer) : Lexer :=
  set_word (Some (mkWord (w_text (word_of l) ++s w) (w_mentions_harness (word_of l)))) l.

Lemma inside_quotes depth w r l :
  lx_word l ≠ None →
  ∃ l1, single_quoted_from (escape_quotes w ++s String "'" r) l = Ok l1 ∧
        leads depth l1 (set_rest r (add_text w l)).
Proof.
  revert l. induction w as [|c w IH]; intros l Hw.
  { exists (set_rest r l). split; [done|]. unfold add_text. destruct l as [? ? ? ? [[t m]|] ? ?]; [|done].
    cbn. rewrite app_nil_s. apply leads_refl. }
  cbn [escape_quotes]. destruct (Ascii.eqb_spec c "'") as [->|Hc].
  - cbn [String.append single_quoted_from]. rewrite Ascii.eqb_refl. eexists. split; [done|].
    set (r1 := escape_quotes w ++s String "'" r) in *.
    eapply leads_trans; [by eapply step_leads|].
    destruct (IH (touch_word (push_char "'" (set_rest (String "'" r1) (set_rest (String "\" (String "'" (String "'" r1))) l)))))
      as (l1 & E1 & H1); [done|].
    eapply leads_trans; [eapply step_leads; [reflexivity|]; intros inner; exact E1|].
    assert (set_rest r (add_text w (touch_word (push_char "'" (set_rest (String "'" r1)
        (set_rest (String "\" (String "'" (String "'" r1))) l))))) = set_rest r (add_text (String "'" w) l)) as <-; [|done].
    unfold add_text. cbn. rewrite app_assoc_s. done.
  - cbn [String.append single_quoted_from]. destruct (Ascii.eqb_spec c "'") as [|_]; [done|].
    destruct (IH (push_char c l)) as (l1 & E1 & H1); [done|]. exists l1. split; [done|].
    assert (set_rest r (add_text w (push_char c l)) = set_rest r (add_text (String c w) l)) as <-; [|done].
    unfold add_text. cbn. rewrite app_assoc_s. done.
Qed.

(** A state between words, or at the end of one. *)
Definition at_word (rest : string) (cmds : list Simple) (ws : list Word) (piped : bool) (w : option Word) : Lexer :=
  mkLexer rest cmds [] (mkSimple ws [] piped) w false [].

Lemma quoted_word depth w r cmds ws piped :
  leads depth (at_word (single_quoted w ++s r) cmds ws piped None)
    (at_word r cmds ws piped (Some (mkWord w false))).
Proof.
  unfold single_quoted. cbn [String.append]. rewrite app_assoc_s. cbn [String.append].
  set (l := at_word _ cmds ws piped None).
  destruct (inside_quotes depth w r (touch_word l)) as (l1 & E1 & H1); [done|].
  eapply leads_trans; [|exact H1]. eapply step_leads; [reflexivity|]. intros inner. exact E1.
Qed.

Lemma quoted_command depth w rest r cmds ws piped :
  ∃ ws' w', ws ++ plain_words (w :: rest) = ws' ++ [w'] ∧
    leads depth (at_word (quoted_words (w :: rest) ++s r) cmds ws piped None)
      (at_word r cmds ws' piped (Some w')).
Proof.
  revert w ws. induction rest as [|w2 rest IH]; intros w ws.
  { exists ws, (mkWord w false). split; [done|]. apply quoted_word. }
  destruct (IH w2 (ws ++ [mkWord w false])) as (ws' & w' & Heq & Hl). exists ws', w'.
  split; [rewrite <-Heq, <-app_assoc; done|].
  change (quoted_words (w :: w2 :: rest)) with (single_quoted w ++s " " ++s quoted_words (w2 :: rest)).
  rewrite !app_assoc_s. eapply leads_trans; [apply quoted_word|].
  eapply leads_trans; [|exact Hl]. by eapply step_leads.
Qed.

Lemma separator depth sep r cmds ws piped w :
  head_is "'" r = true →
  leads depth (at_word (sep_text sep ++s r) cmds ws piped (Some w))
    (at_word r (cmds ++ [mkSimple (ws ++ [w]) [] piped]) [] (is_pipe sep) None).
Proof.
  intros Hr. destruct r as [|c r]; [done|]. cbn [head_is] in Hr. apply Ascii.eqb_eq in Hr as <-.
  assert (end_command (is_pipe sep) (set_rest (String "'" r) (at_word "" cmds ws piped (Some w))) =
          at_word (String "'" r) (cmds ++ [mkSimple (ws ++ [w]) [] piped]) [] (is_pipe sep) None) as Hend.
  { unfold end_command. cbn. by destruct ws. }
  destruct sep; cbn [sep_text String.append is_pipe] in *.
  - eapply step_leads; [reflexivity|]. intros inner. rewrite <-Hend. reflexivity.
  - eapply leads_trans; [eapply step_leads; [reflexivity|]; intros inner; reflexivity|].
    eapply step_leads; [reflexivity|]. intros inner. rewrite <-Hend. cbn. by destruct ws.
  - eapply step_leads; [reflexivity|]. intros inner. rewrite <-Hend. reflexivity.
  - eapply step_leads; [reflexivity|]. intros inner. rewrite <-Hend. reflexivity.
  - eapply step_leads; [reflexivity|]. intros inner. rewrite <-Hend. reflexivity.
  - eapply step_leads; [reflexivity|]. intros inner. rewrite <-Hend. reflexivity.
Qed.

Lemma quoted_head w ws r : head_is "'" (quoted_words (w :: ws) ++s r) = true.
Proof. by destruct ws. Qed.

(** Quoting is undone by lexing: a script in which every word is quoted is
    read as exactly its commands. *)
Lemma lex_render depth first cmds :
  first ≠ [] → Forall (λ c, c.2 ≠ []) cmds →
  lex_all depth (render_script first cmds) =
  Ok (at_word "" (script_commands first cmds) [] false None).
Proof.
  intros Hne Hall. unfold lex_all, render_script, script_commands.
  assert (∀ fuel seen ws piped, ws ≠ [] →
    (String.length (quoted_words ws ++s render_rest cmds) < fuel)%nat →
    lex fuel depth None (at_word (quoted_words ws ++s render_rest cmds) seen [] piped None) =
    Ok (at_word "" (seen ++ mkSimple (plain_words ws) [] piped ::
          ((λ '(sep, ws), mkSimple (plain_words ws) [] (is_pipe sep)) <$> cmds)) [] false None)) as Hgo.
  2: { apply (Hgo _ []); [done|lia]. }
  induction cmds as [|[sep ws2] cmds IH]; intros fuel seen [|w ws] piped Hws Hf; [done| |done|].
  - cbn [render_rest fmap list_fmap] in *.
    destruct (quoted_command depth w ws "" seen [] piped) as (ws' & w' & Heq & Hl).
    destruct (Hl fuel Hf) as (fuel' & Hf' & ->). destruct fuel' as [|fuel']; [lia|].
    cbn [app] in Heq. rewrite Heq. cbn. by destruct ws'.
  - apply Forall_cons in Hall as [H2 Hall]. cbn [snd] in H2. destruct ws2 as [|w2 ws2]; [done|].
    cbn [render_rest] in *. set (r := quoted_words (w2 :: ws2) ++s render_rest cmds) in *.
    destruct (quoted_command depth w ws (sep_text sep ++s r) seen [] piped) as (ws' & w' & Heq & Hl).
    pose proof (leads_trans _ _ _ _ Hl (separator depth sep r seen ws' piped w' (quoted_head _ _ _))) as Hall2.
    destruct (Hall2 fuel Hf) as (fuel' & Hf' & ->). unfold r. rewrite IH; [|done|done|exact Hf'].
    cbn [app] in Heq. rewrite <-Heq, <-app_assoc. done.
Qed.

(** ** What the hook decides *)

Lemma launched_quoted first cmds :
  first ≠ [] → Forall (λ c, c.2 ≠ []) cmds →
  launched_harness (render_script first cmds) =
  check_commands (check MAX_DEPTH) None (script_commands first cmds).
Proof.
  intros Hne Hall. unfold launched_harness. cbn [check]. rewrite lex_render by done.
  cbn [mbind result_bind lx_commands lx_substituted at_word first_found].
  by destruct (check_commands _ None _) as [[h|]|e].
Qed.

(** *** What a command runs, as the hook reads it

    Written out apart from the code: the names, the options that take an argument
    of their own, and the words that are passed over. *)

Definition identifier (s : string) : Prop :=
  ∃ c r, s = String c r ∧ (c = "_"%char ∨ is_ascii_alphabetic c = true) ∧
    all_chars (λ c, Ascii.eqb c "_" || is_ascii_alphanumeric c) r = true.

Definition assignment (w : string) : Prop :=
  ∃ name op v, w = name ++s op ++s v ∧ identifier name ∧ (op = "=" ∨ op = "+=").

Definition duration (w : string) : Prop :=
  ∃ n unit, w = n ++s unit ∧ n ≠ "" ∧ all_chars (λ c, is_ascii_digit c || Ascii.eqb c ".") n = true ∧
    all_chars (ascii_in ["s"%char; "m"%char; "h"%char; "d"%char]) unit = true.

Definition takes_argument (wrapper option : string) : Prop :=
  (wrapper ∈ ["sudo"; "doas"] ∧ option ∈ ["-u"; "-g"; "-C"; "-D"; "-h"; "-p"; "-r"; "-t"; "-U"]) ∨
  (wrapper = "xargs" ∧ option ∈ ["-I"; "-n"; "-P"; "-L"; "-s"; "-d"; "-E"; "-a"]) ∨
  (wrapper = "env" ∧ option ∈ ["-u"; "-C"]) ∨
  (wrapper = "timeout" ∧ option ∈ ["-k"; "-s"]) ∨
  (wrapper = "nice" ∧ option = "-n").

(** The words behind a wrapper's options, its variables and its duration. *)
Inductive past_options (wrapper : string) : list string → list string → Prop :=
| po_none : past_options wrapper [] []
| po_end ws : past_options wrapper ("--" :: ws) ws
| po_last o : takes_argument wrapper o → past_options wrapper [o] []
| po_arg o a ws ws' : takes_argument wrapper o → past_options wrapper ws ws' →
    past_options wrapper (o :: a :: ws) ws'
| po_flag o ws ws' : starts_with "-" o = true → o ≠ "--" → ¬ takes_argument wrapper o →
    past_options wrapper ws ws' → past_options wrapper (o :: ws) ws'
| po_setting v ws ws' : assignment v ∨ duration v → past_options wrapper ws ws' →
    past_options wrapper (v :: ws) ws'
| po_rest v ws : starts_with "-" v = false → ¬ assignment v → ¬ duration v →
    past_options wrapper (v :: ws) (v :: ws).

Definition passed_over (w : string) : Prop :=
  assignment w ∨ w ∈ ["if"; "then"; "else"; "elif"; "do"; "while"; "until"; "!"; "{"].

Definition wraps (name : string) : Prop :=
  name ∈ ["sudo"; "doas"; "env"; "exec"; "command"; "builtin"; "nohup"; "nice"; "time"; "timeout";
          "stdbuf"; "xargs"; "setsid"; "unbuffer"; "watch"].

(** The program a command runs, with its arguments, behind variables, keywords
    and wrappers; [command -v] runs nothing. *)
Inductive runs : list string → string → list string → Prop :=
| run_here p args : ¬ passed_over p → ¬ wraps (basename p) → runs (p :: args) p args
| run_over w ws p args : passed_over w → runs ws p args → runs (w :: ws) p args
| run_wrapped w ws ws' p args : ¬ passed_over w → wraps (basename w) →
    ¬ (basename w = "command" ∧ ∃ v l, ws = v :: l ∧ v ∈ ["-v"; "-V"]) →
    past_options (basename w) ws ws' → runs ws' p args → runs (w :: ws) p args.

Definition harness_name (name : string) : Prop := name ∈ ["claude"; "codex"; "opencode"; "gemini"].

(** The package of a harness, with or without a version behind it. *)
Definition harness_package (package : string) : Prop :=
  ∃ bare, (package = bare ∨ ∃ version, package = bare ++s "@" ++s version) ∧
    all_chars (λ c, negb (Ascii.eqb "@" c)) (sdrop 1 bare) = true ∧
    (bare ∈ ["@anthropic-ai/claude-code"; "@openai/codex"; "opencode-ai"; "@google/gemini-cli"] ∨
     harness_name (basename bare)).

Definition first_plain (args : list string) (package : string) : Prop :=
  ∃ flags rest, args = flags ++ package :: rest ∧ Forall (λ f, starts_with "-" f = true) flags ∧
    starts_with "-" package = false.

Definition runs_package (name : string) (args : list string) (package : string) : Prop :=
  (name ∈ ["npx"; "bunx"; "pnpx"] ∧ first_plain args package) ∨
  (name ∈ ["npm"; "pnpm"; "yarn"; "bun"] ∧
   ∃ sub rest, args = sub :: rest ∧ sub ∈ ["exec"; "x"; "dlx"] ∧ first_plain rest package).

(** The command starts a harness, by its name with more than questions about
    itself, or through a package runner. *)
Definition launches (ws : list string) : Prop :=
  ∃ p args, runs ws p args ∧
    ((harness_name (basename p) ∧
      ¬ (args ≠ [] ∧ Forall (λ a, a ∈ ["--version"; "-v"; "-V"; "--help"; "-h"]) args)) ∨
     ∃ package, runs_package (basename p) args package ∧ harness_package package).

(** The command hands a script on: to a shell, or to [eval]. *)
Definition hands_on (ws : list string) : Prop :=
  ∃ p args, runs ws p args ∧ basename p ∈ ["sh"; "bash"; "zsh"; "dash"; "ksh"; "fish"; "eval"].

(** *** The code's reading is that one *)

Lemma listed_iff x l : listed x l = true ↔ x ∈ l.
Proof.
  unfold listed. rewrite existsb_exists. setoid_rewrite String.eqb_eq.
  split; [intros (y & Hy & ->); by apply list_elem_of_In|intros Hx%list_elem_of_In; eauto].
Qed.

Lemma listed_not x l : listed x l = false ↔ x ∉ l.
Proof. by rewrite <-not_true_iff_false, listed_iff. Qed.

Lemma identifier_no_sign n :
  identifier n → all_chars (λ c, negb (Ascii.eqb "=" c)) n = true ∧ strip_suffix "+" n = None.
Proof.
  intros (c & r & -> & Hc & Hr).
  assert (all_chars (λ c, Ascii.eqb c "_" || is_ascii_alphanumeric c) (String c r) = true) as Hall.
  { cbn. rewrite Hr, andb_true_r. destruct Hc as [-> |Hc]; [done|].
    unfold is_ascii_alphanumeric. rewrite Hc. by rewrite orb_true_r. }
  split.
  - eapply all_chars_impl; [|exact Hall]. intros d. by destruct d as [[] [] [] [] [] [] [] []].
  - destruct (strip_suffix "+" (String c r)) as [x|] eqn:E; [|done].
    apply strip_suffix_sound in E. rewrite E, all_chars_app in Hall. cbn in Hall.
    by rewrite andb_false_r in Hall.
Qed.

Lemma is_assignment_spec w : is_assignment w = true ↔ assignment w.
Proof.
  unfold is_assignment, assignment. split.
  - destruct (split_once _ w) as [[name v]|] eqn:E; [|done].
    apply split_once_Some in E as (c & Hc%Ascii.eqb_eq & -> & _). subst c.
    assert (∀ n, match n with "" => false | String c r => (Ascii.eqb c "_" || is_ascii_alphabetic c) &&
      all_chars (λ c, Ascii.eqb c "_" || is_ascii_alphanumeric c) r end = true → identifier n) as Hid.
    { intros [|c r]; [done|]. intros [Hc Hr]%andb_prop. exists c, r. split_and!; [done| |done].
      apply orb_prop in Hc as [Hc%Ascii.eqb_eq|]; auto. }
    destruct (strip_suffix "+" name) as [n|] eqn:Es; cbn [default from_option]; intros H%Hid.
    + apply strip_suffix_sound in Es as ->. exists n, "+=", v. rewrite app_assoc_s. auto.
    + exists name, "=", v. auto.
  - intros (name & op & v & -> & Hid & Hop). pose proof (identifier_no_sign name Hid) as [Hno Hs].
    destruct Hid as (c & r & -> & Hc & Hr).
    assert ((Ascii.eqb c "_" || is_ascii_alphabetic c) = true) as Hc'.
    { destruct Hc as [-> | ->]; [done|by rewrite orb_true_r]. }
    destruct Hop as [-> | ->].
    + change ("=" ++s v) with (String "=" v). rewrite split_once_app by done. rewrite Hs.
      cbn [default from_option Datatypes.id]. by rewrite Hc', Hr.
    + change ("+=" ++s v) with ("+" ++s String "=" v). rewrite <-app_assoc_s.
      rewrite split_once_app; [|by rewrite all_chars_app, Hno|done].
      rewrite strip_suffix_app. cbn [default from_option Datatypes.id]. by rewrite Hc', Hr.
Qed.

Lemma trim_end_none p n u :
  all_chars (λ c, negb (p c)) n = true → all_chars p u = true → trim_end_matches p (n ++s u) = n.
Proof.
  intros Hn Hu. induction n as [|c n IH]; cbn [String.append trim_end_matches].
  - destruct u as [|d u]; [done|]. cbn [trim_end_matches]. by rewrite Hu.
  - cbn in Hn. apply andb_prop in Hn as [Hc Hn]. cbn [all_chars]. apply negb_true_iff in Hc. rewrite Hc. cbn.
    by rewrite IH.
Qed.

Lemma trim_end_rest p w : ∃ u, w = trim_end_matches p w ++s u ∧ all_chars p u = true.
Proof.
  induction w as [|c w (u & Hu & Hall)]; [by exists ""|]. cbn [trim_end_matches].
  destruct (all_chars p (String c w)) eqn:E; [by exists (String c w)|]. exists u. cbn. by rewrite <-Hu.
Qed.

Lemma is_duration_spec w : is_duration w = true ↔ duration w.
Proof.
  unfold is_duration, duration. split.
  - intros [Hne Hd]%andb_prop. destruct (trim_end_rest (ascii_in ["s"%char; "m"%char; "h"%char; "d"%char]) w)
      as (u & Hw & Hu). eexists _, u. split_and!; [exact Hw| |done..].
    intros E. by rewrite E in Hne.
  - intros (n & u & -> & Hne & Hn & Hu). rewrite trim_end_none; [|eapply all_chars_impl; [|exact Hn]|done].
    + rewrite Hn, andb_true_r. by destruct n.
    + intros c. by destruct c as [[] [] [] [] [] [] [] []].
Qed.

Lemma takes_argument_spec wrapper o :
  listed o (wrapper_arg_flags wrapper) = true ↔ takes_argument wrapper o.
Proof.
  rewrite listed_iff. unfold wrapper_arg_flags, takes_argument.
  destruct (String.eqb_spec wrapper "sudo") as [->|H1]; [set_solver|].
  destruct (String.eqb_spec wrapper "doas") as [->|H2]; [set_solver|]. cbn [orb].
  destruct (String.eqb_spec wrapper "xargs") as [->|H3]; [set_solver|].
  destruct (String.eqb_spec wrapper "env") as [->|H4]; [set_solver|].
  destruct (String.eqb_spec wrapper "timeout") as [->|H5]; [set_solver|].
  destruct (String.eqb_spec wrapper "nice") as [->|H6]; set_solver.
Qed.

Lemma takes_argument_dash wrapper o : takes_argument wrapper o → starts_with "-" o = true ∧ o ≠ "--".
Proof.
  unfold takes_argument. rewrite !elem_of_cons, !elem_of_nil.
  intros H. decompose [and or] H; subst; done.
Qed.

Lemma setting_spec v : is_assignment v || is_duration v = true ↔ assignment v ∨ duration v.
Proof. by rewrite orb_true_iff, is_assignment_spec, is_duration_spec. Qed.

Lemma setting_no_dash v : assignment v ∨ duration v → starts_with "-" v = false ∧ v ≠ "--".
Proof.
  intros Hv. assert (starts_with "-" v = false) as Hd; [|split; [done|by intros ->]].
  destruct Hv as [(n & op & x & -> & (c & r & -> & Hc & _) & _)|(n & u & -> & Hne & Hn & _)].
  - cbn. destruct Hc as [-> |Hc]; [done|]. revert Hc. by destruct c as [[] [] [] [] [] [] [] []].
  - destruct n as [|c n]; [done|]. cbn in Hn |- *. apply andb_prop in Hn as [Hc _]. revert Hc.
    by destruct c as [[] [] [] [] [] [] [] []].
Qed.

Lemma skip_sound wrapper : ∀ n ws, (List.length ws ≤ n)%nat →
  ∃ ws', skip_wrapper_options (wrapper_arg_flags wrapper) (plain_words ws) = plain_words ws' ∧
    past_options wrapper ws ws' ∧ (List.length ws' ≤ List.length ws)%nat.
Proof.
  induction n as [|n IH]; intros [|w ws] Hn; cbn in Hn; try lia; [exists []; split_and!; [done|constructor|done]..|].
  cbn [plain_words fmap list_fmap skip_wrapper_options w_text].
  destruct (String.eqb_spec w "--") as [->|Hdd]; [exists ws; split_and!; [done|constructor|cbn; lia]|].
  destruct (starts_with "-" w) eqn:Ed.
  - destruct (listed w _) eqn:El.
    + apply takes_argument_spec in El. destruct ws as [|a ws]; [exists []; split_and!; [done|by constructor|cbn; lia]|].
      cbn [fmap list_fmap]. destruct (IH ws) as (ws' & E & Hp & Hl); [cbn in Hn; lia|].
      exists ws'. split_and!; [done|by apply po_arg|cbn; lia].
    + destruct (IH ws) as (ws' & E & Hp & Hl); [lia|]. exists ws'. split_and!; [done| |cbn; lia].
      apply po_flag; [done..| |done]. intros Ht%takes_argument_spec. congruence.
  - destruct (is_assignment w || is_duration w) eqn:Es.
    + destruct (IH ws) as (ws' & E & Hp & Hl); [lia|]. exists ws'. split_and!; [done| |cbn; lia].
      apply po_setting; [by apply setting_spec|done].
    + exists (w :: ws). split_and!; [done| |done].
      apply po_rest; [done|intros Ha; assert (assignment w ∨ duration w) as Hx by auto..];
        apply setting_spec in Hx; congruence.
Qed.

Lemma skip_complete wrapper ws ws' :
  past_options wrapper ws ws' →
  skip_wrapper_options (wrapper_arg_flags wrapper) (plain_words ws) = plain_words ws' ∧
  (List.length ws' ≤ List.length ws)%nat.
Proof.
  induction 1 as [|ws|o Ht|o a ws ws' Ht _ [IH Hl]|o ws ws' Hd Hdd Ht _ [IH Hl]|v ws ws' Hv _ [IH Hl]|v ws Hd Ha Hu];
    cbn [plain_words fmap list_fmap skip_wrapper_options w_text List.length]; (split; [|lia]).
  - done.
  - done.
  - destruct (takes_argument_dash _ _ Ht) as [-> Hne]. apply String.eqb_neq in Hne as ->.
    by apply takes_argument_spec in Ht as ->.
  - destruct (takes_argument_dash _ _ Ht) as [-> Hne]. apply String.eqb_neq in Hne as ->.
    by apply takes_argument_spec in Ht as ->.
  - rewrite (proj2 (String.eqb_neq _ _) Hdd), Hd. destruct (listed o _) eqn:El; [|done].
    by apply takes_argument_spec in El.
  - destruct (setting_no_dash v Hv) as [-> Hne]. apply String.eqb_neq in Hne as ->.
    by apply setting_spec in Hv as ->.
  - rewrite Hd. assert (v ==s "--" = false) as -> by (apply String.eqb_neq; by intros ->).
    destruct (is_assignment v || is_duration v) eqn:Es; [|done]. by apply setting_spec in Es as [?|?].
Qed.

Lemma passed_over_spec w : is_assignment w || listed w KEYWORDS = true ↔ passed_over w.
Proof. by rewrite orb_true_iff, is_assignment_spec, listed_iff. Qed.

Lemma program_sound fuel ws prog args :
  program_from fuel (plain_words ws) = Some (prog, args) →
  ∃ p a, prog = mkWord p false ∧ args = plain_words a ∧ runs ws p a.
Proof.
  revert ws. induction fuel as [|fuel IH]; intros [|w ws]; cbn [plain_words fmap list_fmap program_from w_text]; try done.
  fold (plain_words ws). destruct (_ || _) eqn:Eo.
  { apply passed_over_spec in Eo. intros (p & a & -> & -> & Hr)%IH. exists p, a. split_and!; [done..|by apply run_over]. }
  assert (¬ passed_over w) as Hno by (intros H%passed_over_spec; congruence).
  cbn [w_mentions_harness orb]. destruct (listed (basename w) WRAPPERS) eqn:Ew; cbn [negb].
  2:{ intros [= <- <-]. exists w, ws. split_and!; [done..|]. apply run_here; [done|].
      unfold wraps. by apply listed_not in Ew. }
  destruct (_ && _) eqn:Ec; [done|].
  destruct (skip_sound (basename w) (List.length ws) ws) as (ws' & -> & Hp & _); [lia|].
  intros (p & a & -> & -> & Hr)%IH. exists p, a. split_and!; [done..|].
  eapply run_wrapped; [done|by apply listed_iff| |done..].
  intros (Hc & v & l & -> & Hv). rewrite Hc, String.eqb_refl in Ec. cbn [plain_words fmap list_fmap w_text andb] in Ec.
  apply orb_false_iff in Ec as [E1 E2]. apply String.eqb_neq in E1, E2. set_solver.
Qed.

Lemma program_complete ws p args :
  runs ws p args → ∀ fuel, (List.length ws ≤ fuel)%nat →
  program_from fuel (plain_words ws) = Some (mkWord p false, plain_words args).
Proof.
  induction 1 as [p args Hno Hw|w ws p args Ho _ IH|w ws ws' p args Hno Hw Hc Hp _ IH];
    intros [|fuel] Hf; cbn in Hf; try lia; cbn [plain_words fmap list_fmap program_from w_text];
    [fold (plain_words args)|fold (plain_words ws)..].
  - destruct (_ || listed p KEYWORDS) eqn:Eo; [by apply passed_over_spec in Eo|].
    cbn [w_mentions_harness orb]. by rewrite (proj2 (listed_not _ WRAPPERS) Hw).
  - apply passed_over_spec in Ho as ->. apply IH. lia.
  - destruct (_ || listed w KEYWORDS) eqn:Eo; [by apply passed_over_spec in Eo|].
    cbn [w_mentions_harness orb]. rewrite (proj2 (listed_iff _ WRAPPERS) Hw). cbn [negb].
    destruct (_ && _) eqn:Ec.
    + exfalso. apply Hc. apply andb_prop in Ec as [Ec%String.eqb_eq Hv]. split; [done|].
      destruct ws as [|v l]; [done|]. exists v, l. split; [done|]. cbn in Hv.
      apply orb_prop in Hv as [Hv|Hv]; apply String.eqb_eq in Hv as ->; set_solver.
    + destruct (skip_complete _ _ _ Hp) as [-> Hl]. apply IH. lia.
Qed.

Lemma program_runs ws prog args :
  program_and_args (plain_words ws) = Some (prog, args) ↔
  ∃ p a, prog = mkWord p false ∧ args = plain_words a ∧ runs ws p a.
Proof.
  unfold program_and_args. split; [apply program_sound|].
  intros (p & a & -> & -> & Hr). eapply program_complete; [done|]. unfold plain_words. by rewrite length_fmap.
Qed.

Lemma texts_plain ws : w_text <$> plain_words ws = ws.
Proof. unfold plain_words. rewrite <-list_fmap_compose. apply list_fmap_id. Qed.

Lemma first_plain_spec args package :
  List.find (λ a, negb (starts_with "-" a)) args = Some package ↔ first_plain args package.
Proof.
  unfold first_plain. induction args as [|a args IH]; cbn [List.find].
  { split; [done|]. by intros ([] & ? & [=] & _). }
  destruct (starts_with "-" a) eqn:E; cbn [negb].
  - rewrite IH. split.
    + intros (fl & rest & -> & Hf & Hp). exists (a :: fl), rest. split_and!; [done|by constructor|done].
    + intros ([|f fl] & rest & [= -> ->] & Hf & Hp); [congruence|]. apply Forall_cons in Hf as [_ Hf].
      by exists fl, rest.
  - split.
    + intros [= <-]. exists [], args. split_and!; [done|constructor|done].
    + intros ([|f fl] & rest & [= -> ->] & Hf & Hp); [done|]. apply Forall_cons in Hf as [Hf _]. congruence.
Qed.

Lemma runner_package_spec name args package :
  runner_package name (plain_words args) = Some package ↔ runs_package name args package.
Proof.
  unfold runner_package, runs_package. rewrite texts_plain.
  destruct (listed name ["npx"; "bunx"; "pnpx"]) eqn:E1.
  { apply listed_iff in E1. rewrite first_plain_spec. split; [auto|]. intros [[_ ?]|[Hn _]]; [done|].
    exfalso. set_solver. }
  apply listed_not in E1. destruct (listed name ["npm"; "pnpm"; "yarn"; "bun"]) eqn:E2.
  - apply listed_iff in E2. destruct args as [|sub rest]; cbn [plain_words fmap list_fmap w_text].
    { split; [done|]. intros [[? _]|(_ & ? & ? & [=] & _)]. done. }
    fold (plain_words rest). rewrite texts_plain. destruct (listed sub _) eqn:E3.
    + apply listed_iff in E3. rewrite first_plain_spec. split; [eauto 10|].
      intros [[? _]|(_ & ? & ? & [= <- <-] & _ & ?)]; done.
    + apply listed_not in E3. split; [done|]. by intros [[? _]|(_ & ? & ? & [= <- <-] & ? & _)].
  - apply listed_not in E2. split; [done|]. by intros [[? _]|[? _]].
Qed.

(** The words start a harness, directly or through a package runner. *)
Definition starts_harness (ws : list string) : bool :=
  match program_and_args (plain_words ws) with
  | None => false
  | Some (program, args) =>
    let name := basename (w_text program) in
    (listed name HARNESSES && negb (only_info_flags args)) ||
    match runner_package name args with Some p => is_harness_package p | None => false end
  end.

(** The words run another script: a shell, or [eval]. *)
Definition runs_script (ws : list string) : bool :=
  match program_and_args (plain_words ws) with
  | None => false
  | Some (program, _) =>
    let name := basename (w_text program) in listed name SHELLS || (name ==s "eval")
  end.

Definition not_at : ascii → bool := λ c, negb (Ascii.eqb "@" c).

Lemma split_once_nowhere p s : split_once p s = None ↔ all_chars (λ c, negb (p c)) s = true.
Proof.
  induction s as [|c s IH]; cbn; [done|]. destruct (p c); cbn; [done|].
  rewrite <-IH. by destruct (split_once p s) as [[a b]|].
Qed.

Lemma stake_whole a b : stake (String.length a) (a ++s b) = a.
Proof. induction a as [|c a IH]; cbn; [by destruct b|]. by rewrite IH. Qed.

(** The name of a package without its version. *)
Definition bare_name (package : string) : string :=
  match strip_prefix "@" package with
  | None => match split_once (Ascii.eqb "@") package with Some (a, _) => a | None => package end
  | Some scoped =>
    match split_once (Ascii.eqb "@") scoped with
    | Some (name, _) => stake (S (String.length name)) package
    | None => package
    end
  end.

Lemma bare_name_sound package :
  (package = bare_name package ∨ ∃ v, package = bare_name package ++s "@" ++s v) ∧
  all_chars not_at (sdrop 1 (bare_name package)) = true.
Proof.
  unfold bare_name. destruct (strip_prefix "@" package) as [scoped|] eqn:Es.
  - apply strip_prefix_spec in Es as ->. destruct (split_once _ scoped) as [[a b]|] eqn:E.
    + apply split_once_Some in E as (c & Hc%Ascii.eqb_eq & -> & Ha). subst c.
      change ("@" ++s a ++s String "@" b) with (("@" ++s a) ++s String "@" b).
      change (S (String.length a)) with (String.length ("@" ++s a)). rewrite stake_whole.
      split; [right; by exists b|exact Ha].
    + split; [by left|]. by apply split_once_nowhere in E.
  - destruct (split_once _ package) as [[a b]|] eqn:E.
    + apply split_once_Some in E as (c & Hc%Ascii.eqb_eq & -> & Ha). subst c. split; [right; by exists b|].
      destruct a as [|d a]; [done|]. cbn in Ha. by apply andb_prop in Ha as [_ Ha].
    + split; [by left|]. apply split_once_nowhere in E. destruct package as [|d package]; [done|].
      cbn in E. by apply andb_prop in E as [_ E].
Qed.

Lemma bare_name_complete package bare :
  bare ≠ "" → package = bare ∨ (∃ v, package = bare ++s "@" ++s v) →
  all_chars not_at (sdrop 1 bare) = true → bare_name package = bare.
Proof.
  intros Hne Hp Hn. destruct bare as [|c b]; [done|]. cbn [sdrop] in Hn. assert (all_chars not_at b = true) as Hb by (by destruct b). clear Hn Hne.
  destruct (Ascii.eqb_spec "@" c) as [<-|Hc].
  - assert (∀ r, bare_name (String "@" r) = match split_once (Ascii.eqb "@") r with
      Some (name, _) => stake (S (String.length name)) (String "@" r) | None => String "@" r end) as Hbare by done.
    destruct Hp as [-> |[v ->]]; cbn [String.append]; rewrite Hbare.
    + by rewrite (proj2 (split_once_nowhere _ b)).
    + rewrite split_once_app by done.
      change (String "@" (b ++s String "@" v)) with ((String "@" b) ++s String "@" v).
      change (S (String.length b)) with (String.length (String "@" b)). by rewrite stake_whole.
  - assert (all_chars not_at (String c b) = true) as Hall.
    { cbn. rewrite Hb, andb_true_r. apply negb_true_iff. by apply Ascii.eqb_neq. }
    assert (∀ r, strip_prefix "@" (String c r) = None) as Hs.
    { intros r. change (strip_prefix "@" (String c r)) with (if Ascii.eqb "@" c then strip_prefix "" r else None).
      by rewrite (proj2 (Ascii.eqb_neq "@" c)). }
    destruct Hp as [-> |[v ->]]; unfold bare_name.
    + by rewrite Hs, (proj2 (split_once_nowhere _ (String c b))).
    + cbn [String.append]. rewrite Hs. change (String c (b ++s String "@" v)) with ((String c b) ++s String "@" v).
      by rewrite split_once_app.
Qed.

Lemma harness_package_spec package : is_harness_package package = true ↔ harness_package package.
Proof.
  assert (is_harness_package package =
    listed (bare_name package) PACKAGES || listed (basename (bare_name package)) HARNESSES) as -> by done.
  rewrite orb_true_iff, !listed_iff. unfold harness_package, harness_name. split.
  - intros Hm. destruct (bare_name_sound package) as [Hp Hn]. by exists (bare_name package).
  - intros (bare & Hp & Hn & Hm). rewrite (bare_name_complete package bare); [done| |done..].
    intros ->. revert Hm. change (basename "") with "". rewrite !elem_of_cons, !elem_of_nil. naive_solver.
Qed.

Lemma only_info_spec args :
  only_info_flags (plain_words args) = true ↔
  args ≠ [] ∧ Forall (λ a, a ∈ ["--version"; "-v"; "-V"; "--help"; "-h"]) args.
Proof.
  unfold only_info_flags. destruct args as [|a args]; [split; [done|by intros [? _]]|].
  cbn [plain_words fmap list_fmap]. fold (plain_words args).
  change (mkWord a false :: plain_words args) with (plain_words (a :: args)).
  rewrite forallb_forall, Forall_forall. unfold plain_words. split.
  - intros Hall. split; [done|]. intros x Hx. apply listed_iff.
    apply (Hall (mkWord x false)), list_elem_of_In, list_elem_of_fmap. eauto.
  - intros [_ Hall] w Hw%list_elem_of_In. apply list_elem_of_fmap in Hw as (x & -> & Hx).
    by apply listed_iff, Hall.
Qed.

Lemma program_plain fuel ws prog args :
  forallb (λ w, negb (w_mentions_harness w)) ws = true →
  program_from fuel ws = Some (prog, args) → w_mentions_harness prog = false.
Proof.
  revert ws. induction fuel as [|fuel IH]; intros [|w ws] Hw; cbn [program_from]; [done..|].
  cbn [forallb] in Hw. apply andb_true_iff in Hw as [Hm Hw].
  destruct (_ || _); [by apply IH|]. destruct (_ || negb _).
  { intros [= <- _]. by apply negb_true_iff. }
  destruct (_ && _); [done|]. apply IH. revert Hw.
  generalize (wrapper_arg_flags (basename (w_text w))). intros flags. clear.
  enough (∀ n ws, (List.length ws ≤ n)%nat → forallb (λ w, negb (w_mentions_harness w)) ws = true →
    forallb (λ w, negb (w_mentions_harness w)) (skip_wrapper_options flags ws) = true) by eauto.
  induction n as [|n IH]; intros [|v l] Hn Hl; cbn in Hn; try lia; cbn [skip_wrapper_options]; [done..|].
  pose proof Hl as Hall. cbn [forallb] in Hl. apply andb_true_iff in Hl as [_ Hl].
  destruct (_ ==s "--"); [done|]. destruct (starts_with "-" _).
  - destruct (listed _ flags); [|apply IH; [lia|done]]. destruct l as [|u l]; [done|].
    cbn [forallb] in Hl. apply andb_true_iff in Hl as [_ Hl]. apply IH; [cbn in Hn; lia|done].
  - destruct (_ || _); [apply IH; [lia|done]|done].
Qed.

Lemma plain_no_mention ws : forallb (λ w, negb (w_mentions_harness w)) (plain_words ws) = true.
Proof. by induction ws. Qed.

Lemma script_names_apart name args :
  listed name SHELLS || (name ==s "eval") = true →
  listed name HARNESSES = false ∧ runner_package name args = None.
Proof.
  unfold listed at 1. cbn [SHELLS existsb]. rewrite !orb_true_iff, !String.eqb_eq.
  intros Hn. decompose [or] Hn; subst; done.
Qed.

Lemma starts_harness_spec ws : starts_harness ws = true ↔ launches ws.
Proof.
  unfold starts_harness, launches. destruct (program_and_args (plain_words ws)) as [[prog args]|] eqn:E.
  - apply program_runs in E as (p & a & -> & -> & Hr). cbn [w_text].
    assert (∀ p' a', runs ws p' a' → p' = p ∧ a' = a) as Huniq.
    { intros p' a' Hr'. pose proof (proj2 (program_runs ws _ _) (ex_intro _ p (ex_intro _ a (conj eq_refl (conj eq_refl Hr))))) as E1.
      pose proof (proj2 (program_runs ws _ _) (ex_intro _ p' (ex_intro _ a' (conj eq_refl (conj eq_refl Hr'))))) as E2.
      rewrite E1 in E2. injection E2 as -> Ha. split; [done|]. by rewrite <-(texts_plain a), Ha, texts_plain. }
    rewrite orb_true_iff, andb_true_iff, negb_true_iff, <-not_true_iff_false, only_info_spec, listed_iff.
    assert ((match runner_package (basename p) (plain_words a) with Some q => is_harness_package q | None => false end)
      = true ↔ ∃ q, runs_package (basename p) a q ∧ harness_package q) as ->.
    { setoid_rewrite <-runner_package_spec. setoid_rewrite <-harness_package_spec.
      destruct (runner_package _ _) as [q|]; [|split; [done|by intros (? & [=] & _)]].
      split; [eauto|by intros (? & [= <-] & ?)]. }
    split; [eauto 10|]. intros (p' & a' & Hr' & Hs). by destruct (Huniq p' a' Hr') as [-> ->].
  - split; [done|]. intros (p & a & Hr & _). exfalso.
    assert (program_and_args (plain_words ws) = Some (mkWord p false, plain_words a)) as E1
      by (apply program_runs; eauto). congruence.
Qed.

Lemma runs_script_spec ws : runs_script ws = true ↔ hands_on ws.
Proof.
  unfold runs_script, hands_on.
  assert (∀ name, listed name SHELLS || (name ==s "eval") = true ↔
    name ∈ ["sh"; "bash"; "zsh"; "dash"; "ksh"; "fish"; "eval"]) as Hn.
  { intros name. rewrite orb_true_iff, listed_iff, String.eqb_eq. unfold SHELLS.
    rewrite !elem_of_cons, !elem_of_nil. tauto. }
  setoid_rewrite <-Hn. destruct (program_and_args (plain_words ws)) as [[prog args]|] eqn:E.
  - pose proof E as (p & a & -> & -> & Hr)%program_runs. cbn [w_text]. split; [eauto|].
    intros (p' & a' & Hr' & Hs). pose proof (proj2 (program_runs ws _ _)
      (ex_intro _ p' (ex_intro _ a' (conj eq_refl (conj eq_refl Hr'))))) as E2. rewrite E in E2. by injection E2 as -> _.
  - split; [done|]. intros (p & a & Hr & _). exfalso.
    assert (program_and_args (plain_words ws) = Some (mkWord p false, plain_words a)) as E1
      by (apply program_runs; eauto). congruence.
Qed.

Lemma existsb_reflects {A} (f : A → bool) (P : A → Prop) l :
  (∀ x, f x = true ↔ P x) → existsb f l = true ↔ ∃ x, x ∈ l ∧ P x.
Proof. intros Hf. rewrite existsb_exists. setoid_rewrite <-Hf. by setoid_rewrite list_elem_of_In. Qed.

Lemma check_plain inner ws piped prev :
  (starts_harness ws = true → ∃ h, check_simple inner (mkSimple (plain_words ws) [] piped) prev = Ok (Some h)) ∧
  (starts_harness ws = false → runs_script ws = false →
   check_simple inner (mkSimple (plain_words ws) [] piped) prev = Ok None).
Proof.
  unfold starts_harness, runs_script, check_simple. cbn [s_words].
  destruct (program_and_args (plain_words ws)) as [[prog args]|] eqn:Ep; [|done].
  rewrite (program_plain _ _ _ _ (plain_no_mention ws) Ep). cbv zeta. set (name := basename (w_text prog)).
  destruct (listed name SHELLS || (name ==s "eval")) eqn:Es.
  { destruct (script_names_apart name args Es) as [-> ->]. done. }
  apply orb_false_iff in Es as [-> ->].
  destruct (listed name HARNESSES && negb (only_info_flags args)); cbn [orb]; [split; [eauto|done]|].
  destruct (runner_package name args) as [q|]; [|done]. destruct (is_harness_package q); split; eauto; done.
Qed.

Lemma check_commands_plain inner prev (cmds : list (list string * bool)) :
  let simples := (λ c, mkSimple (plain_words c.1) [] c.2) <$> cmds in
  (existsb (λ c, starts_harness c.1) cmds = true → check_commands inner prev simples ≠ Ok None) ∧
  (existsb (λ c, starts_harness c.1) cmds = false → existsb (λ c, runs_script c.1) cmds = false →
   check_commands inner prev simples = Ok None).
Proof.
  cbv zeta. revert prev. induction cmds as [|[ws piped] cmds IH]; intros prev; [done|].
  cbn [fmap list_fmap check_commands existsb fst snd].
  destruct (check_plain inner ws piped prev) as [Hyes Hno].
  destruct (IH (Some (mkSimple (plain_words ws) [] piped))) as [IHyes IHno]. split.
  - intros Hex. destruct (starts_harness ws) eqn:Eh.
    + destruct (Hyes eq_refl) as [h ->]. done.
    + destruct (check_simple inner _ prev) as [[h|]|e]; cbn [mbind result_bind]; [done|by apply IHyes|done].
  - intros [Hh Hhs]%orb_false_iff [Hs Hss]%orb_false_iff. rewrite (Hno Hh Hs). cbn [mbind result_bind].
    by apply IHno.
Qed.

(** C39. A script of quoted words, or an argument list, in the hook's payload: if a
    command anywhere in it starts a harness ([launches]) the hook blocks with an
    explanation; and if none of its commands hands a script to a shell, that
    is the only reason to block.  No character of an argument changes this.  A
    command starts a harness when, behind variables, keywords and wrappers, its
    program is one of the four names, asked for more than its version or help, or
    a package runner with a package of one of them.  Behind a wrapper the hook
    knows the options that take an argument for sudo, doas, xargs, env, timeout
    and nice, in their short form: it takes another option's argument for the
    program, and lets that command pass (the example below). *)
Theorem quoted_script_decided `{JsonText} payload v first cmds :
  json_from_str payload = Some v → first ≠ [] → Forall (λ c, c.2 ≠ []) cmds →
  (jget "tool_input" v ≫= jget "command") = Some (JStr (render_script first cmds)) ∨
  cmds = [] ∧ (jget "tool_input" v ≫= jget "command") = Some (JArr (JStr <$> first)) →
  let all := first :: (snd <$> cmds) in
  ((∃ ws, ws ∈ all ∧ launches ws) → ∃ m, decide_hook payload = (BLOCK, Some m)) ∧
  ((∀ ws, ws ∈ all → ¬ hands_on ws) →
    (decide_hook payload = (0%Z, None) ↔ ∀ ws, ws ∈ all → ¬ launches ws)).
Proof.
  intros Hj Hne Hall Hcmd all. unfold decide_hook. rewrite Hj.
  assert (shell_command v = Some (render_script first cmds)) as ->.
  { unfold shell_command. destruct (jget "tool_input" v) as [input|]; [|by destruct Hcmd as [?|[_ ?]]].
    cbn [mbind option_bind] in *. cbn [find_map]. destruct Hcmd as [->|[-> ->]]; [done|]. cbn [mbind option_bind].
    assert (mapM (λ w, single_quoted <$> as_str w) (JStr <$> first) = Some (single_quoted <$> first)) as ->.
    { clear. induction first as [|w ws IH]; [done|]. cbn. cbn in IH. by rewrite IH. }
    cbn. unfold render_script, quoted_words. cbn [render_rest]. by rewrite app_nil_s. }
  rewrite launched_quoted by done.
  set (flat := (first, false) :: ((λ '(sep, ws), (ws, is_pipe sep)) <$> cmds)).
  assert (script_commands first cmds = (λ c, mkSimple (plain_words c.1) [] c.2) <$> flat) as ->.
  { unfold script_commands, flat. cbn [fmap list_fmap fst snd]. f_equal. clear.
    induction cmds as [|[sep ws] cmds IH]; [done|]. cbn. by f_equal. }
  assert (∀ f, existsb (λ c : list string * bool, f c.1) flat = existsb f all) as Hflat.
  { intros f. unfold flat, all. cbn [existsb fst]. f_equal. clear.
    induction cmds as [|[sep ws] cmds IH]; [done|]. cbn. by f_equal. }
  destruct (check_commands_plain (check MAX_DEPTH) None flat) as [Hyes Hno]. rewrite !Hflat in *.
  rewrite (existsb_reflects _ _ all starts_harness_spec) in Hyes. split.
  - intros Hs. specialize (Hyes Hs). destruct (check_commands _ None _) as [[h|]|e]; eauto. done.
  - intros Hr. assert (existsb runs_script all = false) as Hr'.
    { apply not_true_iff_false. intros (ws & Hin & Hx)%(existsb_reflects _ _ all runs_script_spec). by eapply Hr. }
    split.
    + intros Hd ws Hin Hl. assert (∃ ws, ws ∈ all ∧ launches ws) as Hs by eauto. specialize (Hyes Hs).
      by destruct (check_commands _ None _) as [[h|]|e].
    + intros Hs. rewrite Hno; [done| |done]. apply not_true_iff_false.
      intros (ws & Hin & Hx)%(existsb_reflects _ _ all starts_harness_spec). by eapply Hs.
Qed.

(** The check ends in a verdict or as unparseable, and the hook's exit code is
    0 or 2; 0 is a payload whose command was read and lexed to its end without
    finding a harness, at every depth that was followed. *)
Theorem hook_fails_closed `{JsonText} stdin :
  (run_hook stdin = (0%Z, None) ∨ ∃ m, run_hook stdin = (BLOCK, Some m)) ∧
  (∀ levels script, check levels script ≠ Err LexFuel) ∧
  (run_hook stdin = (0%Z, None) ↔
   ∃ payload v command lexer,
     stdin = Ok payload ∧ json_from_str payload = Some v ∧ shell_command v = Some command ∧
     lex_all 0 command = Ok lexer ∧ lx_rest lexer = "" ∧
     check_commands (check MAX_DEPTH) None (lx_commands lexer) = Ok None ∧
     first_found (λ c, check_simple (check MAX_DEPTH) c None) (lx_substituted lexer) = Ok None).
Proof.
  split_and!; [|exact check_total|].
  { unfold run_hook, decide_hook. destruct stdin as [payload|]; [|eauto].
    destruct (json_from_str payload) as [v|]; [|eauto]. destruct (shell_command v) as [cmd|]; [|eauto].
    destruct (launched_harness cmd) as [[h|]|e]; eauto. }
  unfold run_hook, decide_hook. destruct stdin as [payload|err]; [|split; [done|by intros (? & ? & ? & ? & ? & _)]].
  assert (∀ cmd, launched_harness cmd = Ok None ↔ ∃ lexer,
    lex_all 0 cmd = Ok lexer ∧ lx_rest lexer = "" ∧
    check_commands (check MAX_DEPTH) None (lx_commands lexer) = Ok None ∧
    first_found (λ c, check_simple (check MAX_DEPTH) c None) (lx_substituted lexer) = Ok None) as Hl.
  { intros cmd. unfold launched_harness. cbn [check]. change (MAX_DEPTH - MAX_DEPTH)%nat with 0%nat.
    destruct (lex_all 0 cmd) as [lexer|e] eqn:El; cbn [mbind result_bind]; [|split; [done|by intros (? & ? & _)]].
    apply lex_to_end in El. split.
    - intros Hc. exists lexer. destruct (check_commands _ None _) as [[h|]|e]; done.
    - intros (l' & [= <-] & _ & -> & Hs). exact Hs. }
  destruct (json_from_str payload) as [v|] eqn:Ej; [|split; [done|intros (? & ? & ? & ? & [= <-] & ? & _); congruence]].
  destruct (shell_command v) as [cmd|] eqn:Es; [|split; [done|intros (? & ? & ? & ? & [= <-] & Hv & Hc & _); congruence]].
  transitivity (launched_harness cmd = Ok None).
  { destruct (launched_harness cmd) as [[h|]|e]; done. }
  rewrite Hl. split; [intros (lexer & ?); eauto 10|].
  intros (p' & v' & c' & lexer & [= <-] & Hv & Hc & Hrest). assert (v' = v) as -> by congruence.
  assert (c' = cmd) as -> by congruence. eauto.
Qed.

(** ** Witnesses and examples *)

Definition demo_payload : Value :=
  JObj [("tool_input", JObj [("command",
    JStr (render_script ["cd"; "it's"] [(SAnd, ["sudo"; "-u"; "me"; "/usr/bin/claude"; "-p"; "hi; true"])]))])].

Definition demo_json : JsonText := {|
  json_to_string := λ _, "{}";
  json_from_str := λ _, Some demo_payload |}.

Lemma quoted_script_decided_witness : ∃ m, @decide_hook demo_json "{}" = (BLOCK, Some m).
Proof.
  destruct (@quoted_script_decided demo_json "{}" demo_payload ["cd"; "it's"]
    [(SAnd, ["sudo"; "-u"; "me"; "/usr/bin/claude"; "-p"; "hi; true"])]) as [Hyes _]; try done.
  - by constructor.
  - by left.
  - apply Hyes. eexists. split; [right; left|]. exists "/usr/bin/claude", ["-p"; "hi; true"].
    assert (∀ w, is_assignment w || listed w KEYWORDS = false → ¬ passed_over w) as Hno
      by (intros w Hw Hp%passed_over_spec; congruence).
    split.
    + eapply run_wrapped; [by apply Hno|by left|by intros [? _]| |].
      * apply po_arg; [left; split; left|]. apply po_rest; [done| |];
          [intros Ha%is_assignment_spec|intros Hd%is_duration_spec]; discriminate.
      * apply run_here; [by apply Hno|]. unfold wraps. by apply listed_not.
    + left. split; [by left|]. intros [_ Hi]. apply Forall_cons in Hi as [Hi _]. revert Hi.
      by apply listed_not.
Defined.

(** Options that the hook does not know to take an argument hide the harness. *)
Example wrapper_options_hide_harness :
  launched_harness "'stdbuf' '-o' 'L' 'claude'" = Ok None ∧
  launched_harness "'sudo' '--user' 'me' 'claude'" = Ok None.
Proof. split; vm_compute; reflexivity. Qed.

Example launched_1 : launched_harness "FOO=1 sudo -u me bash -c 'cd x && /usr/bin/claude -p hi'" = Ok (Some "claude").
Proof. reflexivity. Qed.
Example launched_2 : launched_harness "echo claude | wc; claude --version" = Ok None.
Proof. reflexivity. Qed.
Example launched_3 : launched_harness "$(which claude) -p x" = Ok (Some "a harness").
Proof. reflexivity. Qed.

(** The digits before a redirection are read as a word, so they take the place
    of the program and the harness behind them is not seen. *)
Example fd_redirect_hides_harness : launched_harness "2>/dev/null claude -p x" = Ok None.
Proof. reflexivity. Qed.
