(* ===== verification/DangerousRm.v ===== *)
(** * Removals that need a person ([cctui-daemon/src/dangerous_rm.rs])

    Claude Code asks about some removals even where nothing can answer; the
    daemon looks for them first.  A command is split into segments of tokens
    that remember whether they hold an expansion or a glob, and the targets of
    [rm] and [rmdir] are classified.  The command is read byte by byte, as every
    character with a meaning is ASCII. *)

From stdpp Require Import base decidable list strings.
From Stdlib Require Import Lia ZArith Bool Ascii String.
From S2P Require Import Prelude RustStr.

(** ** Data *)

Inductive RmRisk := UnexpandedVariable | RelativeGlobAfterCd | CriticalPath | WorkingDirectory.

Record DangerousRm := mkDangerousRm { rm_target : string; rm_risk : RmRisk }.

Definition description (r : RmRisk) : string :=
  match r with
  | UnexpandedVariable => "an unexpanded shell variable that may expand to nothing"
  | RelativeGlobAfterCd => "a relative glob in a command that also changes directory"
  | CriticalPath => "a critical system path"
  | WorkingDirectory => "the working directory or one of its ancestors"
  end.

Definition CRITICAL_PATHS : list string :=
  ["/"; "~"; "/bin"; "/boot"; "/dev"; "/etc"; "/home"; "/lib"; "/lib32"; "/lib64"; "/media";
   "/mnt"; "/opt"; "/proc"; "/root"; "/run"; "/sbin"; "/srv"; "/sys"; "/tmp"; "/usr"; "/var"].

Inductive Expansion := NoExpansion | Protected | Unprotected.

#[export] Instance Expansion_eq_dec : EqDecision Expansion.
Proof. solve_decision. Defined.

Definition merge (a b : Expansion) : Expansion :=
  match a, b with
  | Unprotected, _ | _, Unprotected => Unprotected
  | Protected, _ | _, Protected => Protected
  | _, _ => NoExpansion
  end.

Record Token := mkToken { t_text : string; t_expansion : Expansion; t_glob : bool }.

Record Builder := mkBuilder {
  b_text : string;
  b_expansion : Expansion;
  b_glob : bool;
  b_started : bool;
}.

Definition Builder_new : Builder := mkBuilder "" NoExpansion false false.

(** ** Expansions *)

(** From an opening parenthesis to the one that closes it, or to the end. *)
Fixpoint paren_span (depth : nat) (s : string) : string * string :=
  match s with
  | "" => ("", "")
  | String c r =>
    if Ascii.eqb c "(" then let '(a, b) := paren_span (S depth) r in (String c a, b)
    else if Ascii.eqb c ")" then
      if (depth =? 1)%nat then (String c "", r)
      else let '(a, b) := paren_span (pred depth) r in (String c a, b)
    else let '(a, b) := paren_span depth r in (String c a, b)
  end.

Definition is_name_char (c : ascii) : bool := is_ascii_alphanumeric c || Ascii.eqb c "_".

(** [r] is what follows the dollar sign: the literal text, the kind, and what
    is left. *)
Definition read_expansion (r : string) : string * Expansion * string :=
  match r with
  | "" => ("$", NoExpansion, "")
  | String c r1 =>
    if Ascii.eqb c "{" then
      let '(inner, r2) := span_chars (λ c, negb (Ascii.eqb c "}")) r1 in
      let kind := if contains ":?" inner then Protected else Unprotected in
      match r2 with
      | "" => ("${" ++s inner, kind, "")
      | String d r3 => ("${" ++s inner ++s String d "", kind, r3)
      end
    else if Ascii.eqb c "(" then
      let '(a, b) := paren_span 0 r in (String "$" a, Unprotected, b)
    else if is_name_char c then
      let '(a, b) := span_chars is_name_char r in (String "$" a, Unprotected, b)
    else (String "$" (String c ""), Unprotected, r1)
  end.

(** ** Tokens *)

Definition start (b : Builder) : Builder := mkBuilder (b_text b) (b_expansion b) (b_glob b) true.

Definition push_text (s : string) (b : Builder) : Builder :=
  mkBuilder (b_text b ++s s) (b_expansion b) (b_glob b) (b_started b).

Definition push_expansion (r : string) (b : Builder) : Builder * string :=
  let '(literal, kind, rest) := read_expansion r in
  (mkBuilder (b_text b ++s literal) (merge (b_expansion b) kind) (b_glob b) (b_started b), rest).

(** [r] is what follows the opening quote. *)
Definition read_single_quoted (r : string) (b : Builder) : Builder * string :=
  let '(a, rest) := span_chars (λ c, negb (Ascii.eqb c "'")) r in
  (push_text a (start b), sdrop 1 rest).

Fixpoint double_quoted_loop (fuel : nat) (r : string) (b : Builder) : Builder * string :=
  match fuel, r with
  | S fuel, String c r1 =>
    if Ascii.eqb c dquote then (b, r1)
    else if Ascii.eqb c "\" && negb (is_empty r1) then
      double_quoted_loop fuel (sdrop 1 r1) (push_text (stake 1 r1) b)
    else if Ascii.eqb c "$" then
      let '(b, rest) := push_expansion r1 b in double_quoted_loop fuel rest b
    else double_quoted_loop fuel r1 (push_text (String c "") b)
  | _, _ => (b, r)
  end.

Definition read_double_quoted (r : string) (b : Builder) : Builder * string :=
  double_quoted_loop (String.length r) r (start b).

Definition flush (b : Builder) (segment : list Token) : Builder * list Token :=
  if b_started b
  then (Builder_new, segment ++ [mkToken (b_text b) (b_expansion b) (b_glob b)])
  else (b, segment).

(** Flush, and close the segment unless it is empty. *)
Definition end_segment (b : Builder) (segment : list Token) (segments : list (list Token)) :
    Builder * list (list Token) :=
  let '(b, segment) := flush b segment in
  (b, match segment with [] => segments | _ => segments ++ [segment] end).

Abbreviation tab := "009"%char.

Fixpoint lex_from (fuel : nat) (s : string) (b : Builder) (segment : list Token)
    (segments : list (list Token)) : list (list Token) :=
  match fuel, s with
  | S fuel, String c r =>
    if ascii_in [" "%char; tab; creturn] c then
      let '(b, segment) := flush b segment in lex_from fuel r b segment segments
    else if ascii_in [newline; ";"%char; "("%char; ")"%char; "{"%char; "}"%char] c then
      let '(b, segments) := end_segment b segment segments in lex_from fuel r b [] segments
    else if ascii_in ["&"%char; "|"%char] c then
      let '(b, segments) := end_segment b segment segments in
      let r := match r with String d r2 => if Ascii.eqb d c then r2 else r | "" => r end in
      lex_from fuel r b [] segments
    else if Ascii.eqb c "'" then
      let '(b, rest) := read_single_quoted r b in lex_from fuel rest b segment segments
    else if Ascii.eqb c dquote then
      let '(b, rest) := read_double_quoted r b in lex_from fuel rest b segment segments
    else if Ascii.eqb c "\" then
      match r with
      | String d r2 => lex_from fuel r2 (push_text (String d "") (start b)) segment segments
      | "" => lex_from fuel "" (start b) segment segments
      end
    else if Ascii.eqb c "$" then
      let '(b, rest) := push_expansion r (start b) in lex_from fuel rest b segment segments
    else if ascii_in ["*"%char; "?"%char; "["%char] c then
      lex_from fuel r
        (mkBuilder (b_text b ++s String c "") (b_expansion b) true true) segment segments
    else lex_from fuel r (push_text (String c "") (start b)) segment segments
  | _, _ => (end_segment b segment segments).2
  end.

(** Every turn consumes at least one byte. *)
Definition lex (command : string) : list (list Token) :=
  lex_from (String.length command) command Builder_new [] [].

(** ** Classification *)

Definition is_assignment (word : string) : bool :=
  match split_once (Ascii.eqb "=") word with
  | None => false
  | Some (name, _) =>
    match name with
    | "" => false
    | String c _ => negb (is_ascii_digit c) && all_chars is_name_char name
    end
  end.

Definition listed (s : string) (l : list string) : bool := existsb (String.eqb s) l.

Definition or_root (s : string) : string := if is_empty s then "/" else s.

(** The target without trailing slashes, and without a final glob of everything. *)
Definition base_of_target (text : string) : string :=
  let trimmed := or_root (trim_end_matches (Ascii.eqb "/") text) in
  or_root (default trimmed (strip_suffix "/*" trimmed)).

Definition classify (token : Token) (changes_dir : bool) (cwd : option string) : option RmRisk :=
  if decide (t_expansion token = Unprotected) then Some UnexpandedVariable
  else
    let base := base_of_target (t_text token) in
    if listed base CRITICAL_PATHS then Some CriticalPath
    else if (base ==s ".") || (base ==s "..") then Some WorkingDirectory
    else
      let above :=
        match cwd with
        | Some cwd =>
          let cwd := trim_end_matches (Ascii.eqb "/") cwd in
          negb (is_empty cwd) && ((cwd ==s base) || starts_with (base ++s "/") cwd)
        | None => false
        end in
      if starts_with "/" base && above then Some WorkingDirectory
      else if changes_dir && t_glob token && bool_decide (t_expansion token = NoExpansion) &&
              negb (starts_with "/" base) && negb (starts_with "~" base)
      then Some RelativeGlobAfterCd
      else None.

Definition PREFIXES : list string := ["sudo"; "env"; "command"; "nohup"; "time"; "exec"].

(** The segment from its command on. *)
Fixpoint skip_prefixes (segment : list Token) : list Token :=
  match segment with
  | [] => []
  | t :: rest =>
    if is_assignment (t_text t) || listed (basename (t_text t)) PREFIXES
    then skip_prefixes rest else segment
  end.

(** The loop over the arguments of a removal. *)
Fixpoint first_risk (flags_done changes_dir : bool) (cwd : option string) (args : list Token) :
    option DangerousRm :=
  match args with
  | [] => None
  | t :: args =>
    if negb flags_done && (t_text t ==s "--") then first_risk true changes_dir cwd args
    else if negb flags_done && (1 <? String.length (t_text t))%nat && starts_with "-" (t_text t)
    then first_risk flags_done changes_dir cwd args
    else if is_empty (t_text t) then first_risk flags_done changes_dir cwd args
    else
      match classify t changes_dir cwd with
      | Some risk => Some (mkDangerousRm (t_text t) risk)
      | None => first_risk flags_done changes_dir cwd args
      end
  end.

Fixpoint removal_in (changes_dir : bool) (cwd : option string) (segments : list (list Token)) :
    option DangerousRm :=
  match segments with
  | [] => None
  | segment :: segments =>
    match skip_prefixes segment with
    | [] => removal_in changes_dir cwd segments
    | first :: args =>
      let name := basename (t_text first) in
      if listed name ["cd"; "pushd"] then removal_in true cwd segments
      else if listed name ["rm"; "rmdir"] then
        match first_risk false changes_dir cwd args with
        | Some d => Some d
        | None => removal_in changes_dir cwd segments
        end
      else removal_in changes_dir cwd segments
    end
  end.

Definition dangerous_removal (command : string) (cwd : option string) : option DangerousRm :=
  removal_in false cwd (lex command).

(** ** Facts: the lexer ends *)

Lemma paren_left depth s : (String.length (paren_span depth s).2 ≤ String.length s)%nat.
Proof.
  revert depth. induction s as [|c s IH]; intros depth; cbn [paren_span]; [done|].
  repeat case_match; subst; cbn [snd String.length]; try lia;
    match goal with H : paren_span ?d s = _ |- _ => specialize (IH d); rewrite H in IH; cbn in IH; lia end.
Qed.

Lemma expansion_left r : (String.length (read_expansion r).2 ≤ String.length r)%nat.
Proof.
  destruct r as [|c r]; [done|]. cbn [read_expansion]. destruct (Ascii.eqb c "{").
  { pose proof (span_left (λ c, negb (Ascii.eqb c "}")) r) as Hs. destruct (span_chars _ r) as [a b].
    cbn [snd] in Hs. destruct b; cbn in *; lia. }
  destruct (Ascii.eqb c "(").
  { pose proof (paren_left 0 (String c r)) as Hs. destruct (paren_span _ _). exact Hs. }
  destruct (is_name_char c); [|cbn; lia].
  pose proof (span_left is_name_char (String c r)) as Hs. destruct (span_chars _ _). exact Hs.
Qed.

Lemma push_expansion_left r b : (String.length (push_expansion r b).2 ≤ String.length r)%nat.
Proof. unfold push_expansion. pose proof (expansion_left r). by destruct (read_expansion r) as [[? ?] ?]. Qed.

Lemma double_left fuel r b : (String.length (double_quoted_loop fuel r b).2 ≤ String.length r)%nat.
Proof.
  revert r b. induction fuel as [|fuel IH]; intros r b; [done|]. destruct r as [|c r]; [done|].
  cbn [double_quoted_loop]. destruct (Ascii.eqb c dquote); [cbn; lia|].
  destruct (_ && _).
  { etrans; [apply IH|]. pose proof (sdrop_left 1 r). cbn [String.length]. lia. }
  destruct (Ascii.eqb c "$"); [|etrans; [apply IH|]; cbn; lia].
  pose proof (push_expansion_left r b) as He. destruct (push_expansion r b). cbn [snd] in He.
  etrans; [apply IH|]. cbn. lia.
Qed.

(** More fuel than there are bytes changes nothing. *)
Lemma double_enough fuel r b :
  (String.length r ≤ fuel)%nat → double_quoted_loop fuel r b = double_quoted_loop (String.length r) r b.
Proof.
  revert r b. induction fuel as [fuel IH] using lt_wf_ind. intros r b Hf. destruct r as [|c r]; [by destruct fuel|].
  destruct fuel as [|fuel]; [cbn in Hf; lia|]. cbn [String.length] in *. cbn [double_quoted_loop].
  assert (∀ r1 b1, (String.length r1 ≤ String.length r)%nat →
    double_quoted_loop fuel r1 b1 = double_quoted_loop (String.length r) r1 b1) as Hgo.
  { intros r1 b1 H1. rewrite (IH fuel) by lia. destruct (decide (String.length r < S fuel)%nat); [|lia].
    by rewrite (IH (String.length r)) by lia. }
  destruct (Ascii.eqb c dquote); [done|]. destruct (_ && _); [apply Hgo, sdrop_left|].
  destruct (Ascii.eqb c "$"); [|by apply Hgo].
  pose proof (push_expansion_left r b) as He. destruct (push_expansion r b). by apply Hgo.
Qed.

Lemma rm_lex_enough fuel s b segment segments :
  (String.length s ≤ fuel)%nat →
  lex_from fuel s b segment segments = lex_from (String.length s) s b segment segments.
Proof.
  revert s b segment segments. induction fuel as [fuel IH] using lt_wf_ind. intros s b segment segments Hf.
  destruct s as [|c r]; [by destruct fuel|].
  destruct fuel as [|fuel]; [cbn in Hf; lia|]. cbn [String.length] in *. cbn [lex_from].
  assert (∀ r1 b1 sg sgs, (String.length r1 ≤ String.length r)%nat →
    lex_from fuel r1 b1 sg sgs = lex_from (String.length r) r1 b1 sg sgs) as Hgo.
  { intros r1 b1 sg sgs H1. rewrite (IH fuel) by lia. destruct (decide (String.length r < S fuel)%nat); [|lia].
    by rewrite (IH (String.length r)) by lia. }
  destruct (ascii_in [" "%char; tab; creturn] c); [destruct (flush _ _); by apply Hgo|].
  destruct (ascii_in [newline; _; _; _; _; _] c); [destruct (end_segment _ _ _); by apply Hgo|].
  destruct (ascii_in ["&"%char; _] c).
  { destruct (end_segment _ _ _). apply Hgo. destruct r as [|d r2]; [done|].
    destruct (Ascii.eqb d c); cbn; lia. }
  destruct (Ascii.eqb c "'").
  { unfold read_single_quoted. pose proof (span_left (λ c, negb (Ascii.eqb c "'")) r) as Hs.
    destruct (span_chars _ r) as [x rest]. cbn [snd] in Hs. apply Hgo. etrans; [apply sdrop_left|done]. }
  destruct (Ascii.eqb c dquote).
  { unfold read_double_quoted. pose proof (double_left (String.length r) r (start b)) as Hs.
    destruct (double_quoted_loop _ _ _). by apply Hgo. }
  destruct (Ascii.eqb c "\"); [destruct r; apply Hgo; cbn; lia|].
  destruct (Ascii.eqb c "$").
  { pose proof (push_expansion_left r (start b)) as Hs. destruct (push_expansion _ _). by apply Hgo. }
  destruct (ascii_in ["*"%char; _; _] c); by apply Hgo.
Qed.

(** ** Facts: lexing *)

Lemma flush_spec b segment : ∃ x, (flush b segment).2 = segment ++ x.
Proof. unfold flush. destruct (b_started b); [by eexists|]. exists []. by rewrite app_nil_r. Qed.

Lemma end_segment_spec b segment segments :
  ∃ x, (end_segment b segment segments).2 = segments ++ x ∧
       (segment ≠ [] → ∃ more, x = [segment ++ more]).
Proof.
  unfold end_segment. destruct (flush_spec b segment) as [x Hx]. destruct (flush b segment) as [b' sg].
  cbn [snd] in Hx. subst sg. destruct segment as [|t sg]; cbn [app snd].
  - destruct x; [exists []; by rewrite app_nil_r|]. by eexists.
  - eexists. split; [done|]. intros _. by exists x.
Qed.

(** The segments only grow, and a segment under way ends up in one of them. *)
Lemma lex_grows fuel s b segment segments :
  ∃ tail, lex_from fuel s b segment segments = segments ++ tail ∧
          (segment ≠ [] → ∃ more rest, tail = (segment ++ more) :: rest).
Proof.
  revert s b segment segments. induction fuel as [|fuel IH]; intros s b segment segments.
  { cbn [lex_from]. destruct (end_segment_spec b segment segments) as (x & Hx & Hs).
    exists x. split; [done|]. intros Hne. destruct (Hs Hne) as [more ->]. eauto. }
  destruct s as [|c r].
  { cbn [lex_from]. destruct (end_segment_spec b segment segments) as (x & Hx & Hs).
    exists x. split; [done|]. intros Hne. destruct (Hs Hne) as [more ->]. eauto. }
  cbn [lex_from].
  assert (∀ r', ∃ tail, (let '(b, segments) := end_segment b segment segments in lex_from fuel r' b [] segments) =
      segments ++ tail ∧ (segment ≠ [] → ∃ more rest, tail = (segment ++ more) :: rest)) as Hend.
  { intros r'. destruct (end_segment_spec b segment segments) as (x & Hx & Hs).
    destruct (end_segment b segment segments) as [b' sgs]. cbn [snd] in Hx. subst sgs.
    destruct (IH r' b' [] (segments ++ x)) as (tail & -> & _). exists (x ++ tail). rewrite app_assoc. split; [done|].
    intros Hne. destruct (Hs Hne) as [more ->]. eauto. }
  destruct (ascii_in [" "%char; tab; creturn] c).
  { destruct (flush_spec b segment) as [x Hx]. destruct (flush b segment) as [b' sg]. cbn [snd] in Hx. subst sg.
    destruct (IH r b' (segment ++ x) segments) as (tail & -> & Ht). exists tail. split; [done|].
    intros Hne. destruct Ht as (more & rest & ->); [by destruct segment|]. exists (x ++ more), rest. by rewrite app_assoc. }
  destruct (ascii_in [newline; _; _; _; _; _] c); [apply Hend|].
  destruct (ascii_in ["&"%char; _] c); [apply Hend|].
  repeat case_match; apply IH.
Qed.

(** A text that is not empty and no option. *)
Definition operand (text : string) : bool :=
  match text with "" => false | String c _ => negb (Ascii.eqb c "-") end.

(** A token that will hold an expansion that may be empty. *)
Definition tainted (b : Builder) : Prop :=
  b_started b = true ∧ b_expansion b = Unprotected ∧ operand (b_text b) = true.

Lemma operand_append a b : operand a = true → operand (a ++s b) = true.
Proof. by destruct a. Qed.

Lemma tainted_push s b : tainted b → tainted (push_text s b).
Proof. intros (? & ? & ?). split_and!; [done..|]. by apply operand_append. Qed.

Lemma tainted_start b : tainted b → tainted (start b).
Proof. intros (? & ? & ?). by split_and!. Qed.

Lemma tainted_expansion r b : tainted b → tainted (push_expansion r b).1.
Proof.
  intros (Hs & He & Ht). unfold push_expansion. destruct (read_expansion r) as [[lit kind] rest].
  split_and!; [done| |by apply operand_append]. cbn. by rewrite He.
Qed.

Lemma tainted_double fuel r b : tainted b → tainted (double_quoted_loop fuel r b).1.
Proof.
  revert r b. induction fuel as [|fuel IH]; intros r b Hb; [done|]. destruct r as [|c r]; [done|].
  cbn [double_quoted_loop]. destruct (Ascii.eqb c dquote); [done|].
  destruct (_ && _); [by apply IH, tainted_push|]. destruct (Ascii.eqb c "$"); [|by apply IH, tainted_push].
  pose proof (tainted_expansion r b Hb) as He. destruct (push_expansion r b). by apply IH.
Qed.

#[local] Hint Resolve tainted_push tainted_start tainted_expansion tainted_double : core.

Lemma tainted_flush b segment :
  tainted b → ∃ t, flush b segment = (Builder_new, segment ++ [t]) ∧ t_expansion t = Unprotected ∧ operand (t_text t) = true.
Proof. intros (Hs & He & Ht). unfold flush. rewrite Hs. by eexists. Qed.

(** However the command goes on, the token ends up in its segment with the
    expansion noted. *)
Lemma tainted_token fuel s b segment segments :
  tainted b →
  ∃ t more rest, lex_from fuel s b segment segments = segments ++ (segment ++ t :: more) :: rest ∧
    t_expansion t = Unprotected ∧ operand (t_text t) = true.
Proof.
  revert s b. induction fuel as [|fuel IH]; intros s b Hb.
  all: destruct (tainted_flush b segment Hb) as (tk & Hf & Ht).
  { cbn [lex_from]. unfold end_segment. rewrite Hf. exists tk, [], []. split; [|done]. by destruct segment. }
  assert (end_segment b segment segments = (Builder_new, segments ++ [segment ++ [tk]])) as Hend.
  { unfold end_segment. rewrite Hf. by destruct segment. }
  destruct s as [|c r].
  { cbn [lex_from]. rewrite Hend. by exists tk, [], []. }
  assert (∀ r, ∃ t more rest, lex_from fuel r Builder_new [] (segments ++ [segment ++ [tk]]) =
    segments ++ (segment ++ t :: more) :: rest ∧ t_expansion t = Unprotected ∧ operand (t_text t) = true) as Hseg.
  { intros r0. destruct (lex_grows fuel r0 Builder_new [] (segments ++ [segment ++ [tk]])) as (tail & He & _).
    exists tk, [], tail. rewrite <-app_assoc in He. done. }
  assert (∀ r, ∃ t more rest, lex_from fuel r Builder_new (segment ++ [tk]) segments =
    segments ++ (segment ++ t :: more) :: rest ∧ t_expansion t = Unprotected ∧ operand (t_text t) = true) as Hword.
  { intros r0. destruct (lex_grows fuel r0 Builder_new (segment ++ [tk]) segments) as (tail & He & Hs).
    destruct Hs as (more & rest & ->); [by destruct segment|]. exists tk, more, rest.
    rewrite <-app_assoc in He. done. }
  cbn [lex_from]. rewrite Hf, Hend.
  destruct (ascii_in [" "%char; tab; creturn] c); [apply Hword|].
  destruct (ascii_in [newline; _; _; _; _; _] c); [apply Hseg|].
  destruct (ascii_in ["&"%char; _] c); [apply Hseg|].
  destruct (Ascii.eqb c "'").
  { unfold read_single_quoted. destruct (span_chars _ r). auto. }
  destruct (Ascii.eqb c dquote).
  { unfold read_double_quoted. pose proof (tainted_double (String.length r) r (start b) (tainted_start b Hb)) as Hd.
    destruct (double_quoted_loop _ _ _). by apply IH. }
  destruct (Ascii.eqb c "\"); [destruct r; auto|].
  destruct (Ascii.eqb c "$").
  { pose proof (tainted_expansion r (start b) (tainted_start b Hb)) as Hd. destruct (push_expansion _ _). by apply IH. }
  destruct (ascii_in ["*"%char; _; _] c); [|auto].
  apply IH. destruct Hb as (? & ? & ?). split_and!; [done..|]. by apply operand_append.
Qed.

(** Text without a character the lexer gives a meaning. *)
Definition plain_char (c : ascii) : bool :=
  negb (ascii_in [" "%char; tab; creturn; newline; ";"%char; "("%char; ")"%char; "{"%char; "}"%char;
                  "&"%char; "|"%char; "'"%char; dquote; "\"%char; "$"%char; "*"%char; "?"%char; "["%char] c).

Lemma lex_plain fuel w s b segment segments :
  all_chars plain_char w = true →
  lex_from (String.length w + fuel) (w ++s s) b segment segments =
  lex_from fuel s (if is_empty w then b else push_text w (start b)) segment segments.
Proof.
  revert b. induction w as [|c w IH]; intros b Hw; [done|]. cbn [all_chars] in Hw.
  apply andb_true_iff in Hw as [Hc Hw]. cbn [String.length String.append Nat.add lex_from is_empty].
  unfold plain_char, ascii_in in Hc. cbn [existsb] in Hc. rewrite !orb_false_r, negb_true_iff, !orb_false_iff in Hc.
  destruct Hc as (H1 & H2 & H3 & H4 & H5 & H6 & H7 & H8 & H9 & H10 & H11 & H12 & H13 & H14 & H15 & H16 & H17 & H18).
  unfold ascii_in. cbn [existsb]. rewrite H1, H2, H3, H4, H5, H6, H7, H8, H9, H10, H11, H12, H13, H14, H15, H16, H17, H18.
  cbn [orb]. rewrite IH by done. f_equal. change (String c w ==s "") with false.
  destruct w as [|d w]; [done|]. change (is_empty (String d w)) with false. cbn [push_text start b_text b_expansion b_glob b_started].
  unfold push_text. cbn. by rewrite app_assoc_s.
Qed.

Lemma lex_space fuel s b segment segments :
  b_started b = true →
  lex_from (S fuel) (String " " s) b segment segments =
  lex_from fuel s Builder_new (segment ++ [mkToken (b_text b) (b_expansion b) (b_glob b)]) segments.
Proof. intros Hs. cbn [lex_from]. change (ascii_in [" "%char; tab; creturn] " ") with true. cbv iota. unfold flush. by rewrite Hs. Qed.

(** A word and the space after it. *)
Lemma lex_word fuel w s segment segments :
  all_chars plain_char w = true → w ≠ "" →
  lex_from (String.length w + S fuel) (w ++s String " " s) Builder_new segment segments =
  lex_from fuel s Builder_new (segment ++ [mkToken w NoExpansion false]) segments.
Proof.
  intros Hw Hne. rewrite lex_plain by done. destruct w as [|c w]; [done|].
  change (is_empty (String c w)) with false. by rewrite lex_space.
Qed.

Lemma expansion_of_name c name post :
  is_name_char c = true → ∃ lit rest, read_expansion (String c name ++s post) = (String "$" lit, Unprotected, rest).
Proof.
  intros Hc. cbn [String.append read_expansion].
  destruct (Ascii.eqb_spec c "{") as [->|_]; [done|]. destruct (Ascii.eqb_spec c "(") as [->|_]; [done|].
  rewrite Hc. destruct (span_chars _ _). by eexists _, _.
Qed.

(** A removal whose target begins with plain text and then names a variable is
    refused for it, with any option before and however the command goes on. *)
Theorem unset_variable_flagged option pre name post cwd :
  all_chars plain_char option = true → starts_with "-" option = true → (1 < String.length option)%nat →
  all_chars plain_char pre = true → starts_with "-" pre = false →
  all_chars is_name_char name = true → name ≠ "" →
  ∃ target, dangerous_removal
      ("rm " ++s option ++s " " ++s pre ++s "$" ++s name ++s post) cwd =
    Some (mkDangerousRm target UnexpandedVariable).
Proof.
  intros Ho Hdash Hlen Hp Hpre Hn Hne. destruct name as [|c name]; [done|].
  cbn [all_chars] in Hn. apply andb_true_iff in Hn as [Hc _].
  destruct (expansion_of_name c name post Hc) as (lit & rest & He).
  set (tail := String c name ++s post) in *.
  assert (∃ b, tainted b ∧ lex ("rm " ++s option ++s " " ++s pre ++s "$" ++s tail) =
    lex_from (String.length tail) rest b [mkToken "rm" NoExpansion false; mkToken option NoExpansion false] [])
    as (b & Hb & Hlex).
  { eexists. split; cycle 1.
    - unfold lex. rewrite !length_app_s.
      assert (∀ x, "rm " ++s x = "rm" ++s String " " x) as -> by done.
      assert (∀ x, " " ++s x = String " " x) as -> by done.
      assert (∀ x, "$" ++s x = String "$" x) as -> by done.
      replace (String.length "rm " + _)%nat with
        (String.length "rm" + S (String.length option + S (String.length pre + S (String.length tail))))%nat by (cbn; lia).
      rewrite lex_word by done. rewrite lex_word; [|done|by destruct option].
      rewrite lex_plain by done. cbn [lex_from]. unfold push_expansion. rewrite He. reflexivity.
    - destruct pre as [|d pre]; [by split_and!|]. change (is_empty (String d pre)) with false.
      split_and!; [done|done|]. cbn [starts_with] in Hpre. cbn. rewrite andb_true_r in Hpre.
      by rewrite Ascii.eqb_sym, Hpre. }
  unfold dangerous_removal. rewrite Hlex.
  destruct (tainted_token (String.length tail) rest b
    [mkToken "rm" NoExpansion false; mkToken option NoExpansion false] [] Hb) as (t & more & rest' & -> & Hex & Htx).
  cbn [app removal_in skip_prefixes t_text first_risk]. exists (t_text t).
  change (is_assignment "rm" || listed (basename "rm") PREFIXES) with false. cbv iota.
  cbn [t_text]. change (listed (basename "rm") ["cd"; "pushd"]) with false. change (listed (basename "rm") ["rm"; "rmdir"]) with true.
  cbv iota. cbn [first_risk t_text]. rewrite Hdash. replace (1 <? String.length option)%nat with true by (symmetry; by apply Nat.ltb_lt).
  assert (operand (t_text t) = true → (t_text t ==s "--") = false ∧ starts_with "-" (t_text t) = false ∧ is_empty (t_text t) = false) as Hop.
  { destruct (t_text t) as [|e w]; [done|]. cbn [operand starts_with String.eqb]. rewrite andb_true_r.
    intros He'%negb_true_iff. rewrite Ascii.eqb_sym in He'. rewrite (Ascii.eqb_sym e), He'. done. }
  destruct (Hop Htx) as (E1 & E2 & E3).
  destruct (option ==s "--"); cbn [negb andb].
  - rewrite E3. unfold classify. by rewrite decide_True.
  - rewrite E1, E2, E3. cbn [andb]. rewrite andb_false_r. unfold classify. by rewrite decide_True.
Qed.

(** ** Facts: what passes *)

Definition components (path : string) : list string := split_char "/" path.

Lemma join_app sep a b : a ≠ [] → b ≠ [] → join sep (a ++ b) = join sep a ++s sep ++s join sep b.
Proof.
  intros Ha Hb. induction a as [|x a IH]; [done|]. destruct a as [|y a].
  - destruct b; [done|]. done.
  - change (join sep ((x :: y :: a) ++ b)) with (x ++s sep ++s join sep ((y :: a) ++ b)).
    rewrite IH by done. change (join sep (x :: y :: a)) with (x ++s sep ++s join sep (y :: a)).
    by rewrite !app_assoc_s.
Qed.

(** The comparison of texts is the comparison of path components. *)
Lemma above_components base cwd :
  (cwd ==s base) || starts_with (base ++s "/") cwd = true ↔ components base `prefix_of` components cwd.
Proof.
  rewrite orb_true_iff, String.eqb_eq, starts_with_spec. split.
  - intros [->|[r ->]]; [done|]. rewrite app_assoc_s. change ("/" ++s r) with (String "/" r).
    unfold components, split_char. rewrite split_mid by done. by eexists.
  - intros [k Hk]. destruct k as [|x k].
    + rewrite app_nil_r in Hk. apply (f_equal (join "/")) in Hk. unfold components in Hk.
      change "/" with (String "/" "") in Hk. rewrite !join_split in Hk. by left.
    + right. exists (join "/" (x :: k)). apply (f_equal (join "/")) in Hk. unfold components in Hk.
      rewrite join_app in Hk; [|apply split_not_nil|done]. change "/" with (String "/" "") in Hk at 1 2.
      rewrite !join_split in Hk. rewrite Hk. by rewrite app_assoc_s.
Qed.

(** The operands of a removal: what is neither an option nor empty. *)
Fixpoint operands (flags_done : bool) (args : list Token) : list Token :=
  match args with
  | [] => []
  | t :: args =>
    if negb flags_done && (t_text t ==s "--") then operands true args
    else if is_empty (t_text t) ||
            (negb flags_done && (1 <? String.length (t_text t))%nat && starts_with "-" (t_text t))
    then operands flags_done args
    else t :: operands flags_done args
  end.

Definition command_in (names : list string) (segment : list Token) : option (list Token) :=
  match skip_prefixes segment with
  | first :: args => if listed (basename (t_text first)) names then Some args else None
  | [] => None
  end.

Definition removed (segment : list Token) : list Token :=
  default [] (operands false <$> command_in ["rm"; "rmdir"] segment).

Definition moves (segment : list Token) : bool := bool_decide (is_Some (command_in ["cd"; "pushd"] segment)).

Definition absolute (path : string) : bool := starts_with "/" path.

(** A target nothing has to be asked about. *)
Definition safe_target (moved : bool) (cwd : option string) (t : Token) : Prop :=
  let base := base_of_target (t_text t) in
  t_expansion t ≠ Unprotected ∧
  (base ∉ CRITICAL_PATHS) ∧ base ≠ "." ∧ base ≠ ".." ∧
  (∀ dir, cwd = Some dir → absolute base = true →
     ¬ (components base `prefix_of` components (trim_end_matches (Ascii.eqb "/") dir))) ∧
  ¬ (moved = true ∧ t_glob t = true ∧ t_expansion t = NoExpansion ∧
     absolute base = false ∧ starts_with "~" base = false).

Lemma listed_spec s l : listed s l = true ↔ s ∈ l.
Proof.
  unfold listed. rewrite existsb_exists. setoid_rewrite String.eqb_eq.
  split; [intros (x & Hx & ->); by apply list_elem_of_In|intros Hs%list_elem_of_In; eauto].
Qed.

Lemma components_absolute base : absolute base = true → (2 ≤ List.length (components base))%nat.
Proof.
  unfold absolute. rewrite starts_with_spec. intros [r ->]. unfold components, split_char.
  change ("/" ++s r) with ("" ++s String "/" r). rewrite split_mid by done.
  rewrite length_app. pose proof (split_not_nil (Ascii.eqb "/") r). destruct (split _ r); [done|]. cbn. lia.
Qed.

Lemma classify_safe t moved cwd : classify t moved cwd = None ↔ safe_target moved cwd t.
Proof.
  unfold classify, safe_target, absolute. cbv zeta. set (base := base_of_target (t_text t)).
  destruct (decide (t_expansion t = Unprotected)); [split; [done|by intros [? _]]|].
  rewrite <-listed_spec. destruct (listed base CRITICAL_PATHS); [split; [done|]; intros (_ & [] & _); done|].
  destruct (String.eqb_spec base "."); [split; [done|naive_solver]|].
  destruct (String.eqb_spec base ".."); [split; [done|naive_solver]|]. cbn [orb].
  destruct (starts_with "/" base) eqn:Ea; cbn [andb negb].
  2: { rewrite andb_true_r.
       destruct moved, (t_glob t), (bool_decide_reflect (t_expansion t = NoExpansion)), (starts_with "~" base); cbn;
         split; naive_solver. }
  rewrite andb_false_r. cbn [andb]. destruct cwd as [dir|]; [|split; [|done]; intros _; split_and!; naive_solver].
  set (d := trim_end_matches _ dir). pose proof (above_components base d) as Hab.
  destruct (is_empty d) eqn:Ed; cbn [negb andb].
  - split; [|done]. intros _. split_and!; try naive_solver. intros dir' [= <-] _ Hp. fold d in Hp.
    apply String.eqb_eq in Ed. apply prefix_length in Hp. rewrite Ed in Hp.
    pose proof (components_absolute base Ea) as H2. cbn in Hp. lia.
  - destruct ((d ==s base) || starts_with (base ++s "/") d).
    + split; [done|]. intros (_ & _ & _ & _ & Hn & _). exfalso. apply (Hn dir); [done..|]. by apply Hab.
    + split; [|done]. intros _. split_and!; naive_solver.
Qed.

Lemma first_risk_None flags_done moved cwd args :
  first_risk flags_done moved cwd args = None ↔
  ∀ t, t ∈ operands flags_done args → safe_target moved cwd t.
Proof.
  revert flags_done. induction args as [|t args IH]; intros flags_done; cbn [first_risk operands].
  { split; [by intros _ t ?%elem_of_nil|done]. }
  destruct (negb flags_done && (t_text t ==s "--")); [apply IH|].
  destruct (negb flags_done && _ && _); [rewrite orb_true_r; apply IH|]. rewrite orb_false_r.
  destruct (is_empty (t_text t)); [apply IH|]. setoid_rewrite elem_of_cons.
  pose proof (classify_safe t moved cwd) as Hc. destruct (classify t moved cwd).
  - split; [done|]. intros Hall. assert (Some r = None) by (apply Hc; auto). done.
  - rewrite IH. naive_solver.
Qed.

Lemma removal_in_None moved cwd segments :
  removal_in moved cwd segments = None ↔
  ∀ pre segment post, segments = pre ++ segment :: post →
    ∀ t, t ∈ removed segment → safe_target (moved || existsb moves pre) cwd t.
Proof.
  revert moved. induction segments as [|seg segments IH]; intros moved.
  { split; [|done]. intros _ [] ?? ?; done. }
  assert ((∀ pre segment post, seg :: segments = pre ++ segment :: post →
             ∀ t, t ∈ removed segment → safe_target (moved || existsb moves pre) cwd t) ↔
          (∀ t, t ∈ removed seg → safe_target moved cwd t) ∧
          (∀ pre segment post, segments = pre ++ segment :: post →
             ∀ t, t ∈ removed segment → safe_target ((moved || moves seg) || existsb moves pre) cwd t)) as ->.
  { split.
    - intros Hall. split.
      + intros t Ht. specialize (Hall [] seg segments eq_refl t Ht). by rewrite orb_false_r in Hall.
      + intros pre sg post -> t Ht. specialize (Hall (seg :: pre) sg post eq_refl t Ht).
        cbn [existsb] in Hall. by rewrite orb_assoc in Hall.
    - intros [Hh Ht] [|x pre] sg post [= -> ->] t Hin.
      + rewrite orb_false_r. by apply Hh.
      + cbn [existsb]. rewrite orb_assoc. by eapply Ht. }
  rewrite <-IH. cbn [removal_in]. unfold removed, moves, command_in.
  destruct (skip_prefixes seg) as [|first args].
  { rewrite orb_false_r. split; [|by intros [_ ?]]. intros Hr. split; [by intros t ?%elem_of_nil|done]. }
  destruct (listed _ ["cd"; "pushd"]) eqn:Ec.
  { assert (listed (basename (t_text first)) ["rm"; "rmdir"] = false) as ->.
    { unfold listed in Ec. cbn [existsb] in Ec. rewrite orb_false_r, orb_true_iff, !String.eqb_eq in Ec.
      by destruct Ec as [-> | ->]. }
    rewrite orb_true_r. split; [|by intros [_ ?]]. intros Hr. split; [by intros t ?%elem_of_nil|done]. }
  rewrite orb_false_r. destruct (listed _ ["rm"; "rmdir"]).
  - change (default [] (operands false <$> Some args)) with (operands false args).
    rewrite <-first_risk_None.
    destruct (first_risk false moved cwd args); [split; [done|by intros [? _]]|]. split; [done|by intros [_ ?]].
  - split; [|by intros [_ ?]]. intros Hr. split; [by intros t ?%elem_of_nil|done].
Qed.

(** A command passes exactly when every operand of every removal in it is
    safe: no expansion that may be empty, no critical path, neither the working
    directory nor a directory above it, and no relative glob after a change of
    directory. *)
Theorem removal_passes_iff command cwd :
  dangerous_removal command cwd = None ↔
  ∀ pre segment post, lex command = pre ++ segment :: post →
    ∀ t, t ∈ removed segment → safe_target (existsb moves pre) cwd t.
Proof. apply removal_in_None. Qed.

Example rm_1 : rm_risk <$> dangerous_removal "rm -f $D/*.json" None = Some UnexpandedVariable.
Proof. reflexivity. Qed.
Example rm_2 : dangerous_removal ("rm -rf '$D' " ++s String dquote "${X:?}/a" ++s String dquote " ./build") (Some "/home/me") = None.
Proof. reflexivity. Qed.
Example rm_3 : rm_risk <$> dangerous_removal "cd /x && sudo rm -rf *.o" None = Some RelativeGlobAfterCd.
Proof. reflexivity. Qed.
Example rm_4 : rm_risk <$> dangerous_removal "rm -rf -- /home/me/*" (Some "/home/me/src") = Some WorkingDirectory.
Proof. reflexivity. Qed.

Lemma unset_variable_flagged_witness :
  ∃ target, dangerous_removal
      ("rm " ++s "-rf" ++s " " ++s "/srv/" ++s "$" ++s "D" ++s "'/x' | cat") None =
    Some (mkDangerousRm target UnexpandedVariable).
Proof. apply unset_variable_flagged; vm_compute; try reflexivity; [lia|done]. Defined.

(** Removals the shallow reading does not see: after a shell keyword, after a
    wrapper that has an option, and with a target from backquotes. *)
Example keyword_hides_removal : dangerous_removal "if true; then rm -rf /etc; fi" None = None.
Proof. reflexivity. Qed.
Example wrapper_option_hides_removal : dangerous_removal "sudo -u me rm -rf /etc" None = None.
Proof. reflexivity. Qed.
Example backquotes_hide_target : dangerous_removal "rm -rf `cat dir`/x" None = None.
Proof. reflexivity. Qed.
