(* ===== verification/StuckTurn.v ===== *)
(** * The stuck-turn watchdog ([cctui-daemon/src/adapters/claude_code/stuck_turn.rs])

    A dispatched session may wait for a background task whose completion notice
    was lost.  The ledger reads the transcript for tasks that were started and
    not yet notified; the watchdog re-prompts the session once after a quiet
    time, and ends it after another.  Instants and wall-clock times are
    milliseconds, [duration_since] saturates at zero, and reading a file,
    parsing a timestamp and JSON text are arguments or parameters. *)

From stdpp Require Import base decidable list gmap strings.
From Stdlib Require Import Lia ZArith Bool Ascii String.
From S2P Require Import Prelude RustStr Json Http.

(** ** Parameters *)

(** [DateTime::parse_from_rfc3339], as a wall-clock time. *)
Class Rfc3339 := parse_from_rfc3339 : string → option Z.

(** ** Texts *)

Definition DEFAULT_REPROMPT_SECS : N := 600.
Definition DEFAULT_END_SECS : N := 600.
Definition DEFAULT_CEILING_SECS : N := 7200.
Definition MAX_SCAN_BYTES : N := 8388608.

Definition REPROMPT_TEXT : string :=
  "The background task you were waiting for has finished or failed. Check its output and continue your current step.".
Definition END_DETAIL : string :=
  "stuck_waiting: no activity after the background-task re-prompt; ended to free the worker".

Definition START_MARKERS : list string :=
  ["running in background with ID: "; "moved to the background (ID: "; "moved to the background as task "].
Definition MONITOR_MARKER : string := "Monitor started (task ".
Definition ASYNC_AGENT_MARKER : string := "Async agent launched".
Definition STOP_MARKERS : list string := ["Successfully stopped task: "; "Successfully killed shell: "].

(** A duration in milliseconds. *)
Definition secs_from_env (var : option string) (dflt : N) : N :=
  (default dflt (var ≫= λ v, parse_u64 (trim v)) * 1000)%N.

(** ** Reading a transcript line *)

Inductive Expiry := Unknown | At (at_ : Z) | Never.

Record BgTask := mkBgTask { bg_output : option string; bg_expiry : Expiry }.

(** [text.find(marker)] and the text after the marker. *)
Definition after (marker text : string) : option string := snd <$> split_once_str marker text.

Definition nonempty (s : string) : option string := if is_empty s then None else Some s.

Definition id_after (text marker : string) : option string :=
  rest ← after marker text; nonempty (span_chars is_ascii_alphanumeric rest).1.

Definition started_id (text : string) : option string :=
  or_else (find_map (id_after text) START_MARKERS)
  (or_else (id_after text MONITOR_MARKER)
     (id ← id_after text "agentId: "; if contains ASYNC_AGENT_MARKER text then Some id else None)).

Definition is_monitor_start (text : string) : bool := contains MONITOR_MARKER text.

Definition stopped_id (text : string) : option string := find_map (id_after text) STOP_MARKERS.

Definition output_path (text : string) : option string :=
  rest ← after "Output is being written to: " text;
  word ← head (split_whitespace rest);
  nonempty (trim_end_matches (Ascii.eqb ".") word).

(** [s.split(pat)] for a string pattern that is not empty. *)
Fixpoint split_str_from (fuel : nat) (pat s : string) : list string :=
  match fuel with
  | 0%nat => [s]
  | S fuel =>
    match split_once_str pat s with
    | Some (a, rest) => a :: split_str_from fuel pat rest
    | None => [s]
    end
  end.

Definition split_str (pat s : string) : list string := split_str_from (String.length s) pat s.

(** One block after a [<task-notification>]. *)
Definition task_notice (block : string) : option (string * bool) :=
  let block := match split_once_str "</task-notification>" block with Some (b, _) => b | None => block end in
  rest ← after "<task-id>" block;
  '(id, _) ← split_once_str "</task-id>" rest;
  Some (trim id, contains "<status>" block).

Definition task_notices (line : string) : list (string * bool) :=
  omap task_notice (tail (split_str "<task-notification>" line)).

Definition terminal_ids (line : string) : list string :=
  omap (λ '(id, terminal), if (terminal : bool) then Some id else None) (task_notices line).

Definition result_texts (c : Value) : list string :=
  match c with
  | JStr s => [s]
  | JArr parts => omap (get_str "text") parts
  | _ => []
  end.

Definition tool_result_texts (entry : Value) : list string :=
  match (jget "message" entry ≫= jget "content") ≫= as_array with
  | None => []
  | Some blocks =>
    List.concat (result_texts <$> omap (jget "content")
      (List.filter (λ b, bool_decide (get_str "type" b = Some "tool_result")) blocks))
  end.

Definition monitor_expiry `{Rfc3339} (now : Z) (entry : Value) : Expiry :=
  let result := jget "toolUseResult" entry in
  if is_json_true (result ≫= jget "persistent") then Never
  else
    match (result ≫= jget "timeoutMs") ≫= as_u64 with
    | None => Unknown
    | Some ms => At (default now (get_str "timestamp" entry ≫= parse_from_rfc3339) + Z.of_N ms)
    end.

(** ** The ledger *)

Record BgTaskLedger := mkLedger {
  lg_path : option string;
  lg_offset : N;
  lg_outstanding : gmap string BgTask;
}.

Definition ledger_empty : BgTaskLedger := mkLedger None 0 ∅.

Definition remove_ids (ids : list string) (m : gmap string BgTask) : gmap string BgTask :=
  foldl (λ m id, delete id m) m ids.

(** What a line does to the outstanding tasks. *)
Definition feed_line `{JsonText, Rfc3339} (now : Z) (m : gmap string BgTask) (line : string) :
    gmap string BgTask :=
  if contains "<task-notification>" line then remove_ids (terminal_ids line) m
  else if negb (contains "background" line) && negb (contains MONITOR_MARKER line) &&
          negb (existsb (λ mk, contains mk line) STOP_MARKERS) then m
  else
    match json_from_str line with
    | None => m
    | Some entry =>
      if bool_decide (get_str "type" entry = Some "user") then
        let texts := tool_result_texts entry in
        let m := remove_ids (omap stopped_id texts) m in
        let output := find_map output_path texts in
        let id := or_else (jget "toolUseResult" entry ≫= get_str "backgroundTaskId")
                    (find_map started_id texts) in
        match id ≫= nonempty with
        | None => m
        | Some id =>
          let expiry := if existsb is_monitor_start texts then monitor_expiry now entry else Unknown in
          <[id := mkBgTask output expiry]> m
        end
      else m
    end.

(** What a scan meets: the length in the metadata, and the bytes of the file,
    [None] when seeking or reading fails. *)
Record FileView := mkFileView { fv_len : N; fv_data : option string }.

(** The last newline of a buffer: what is before it. *)
Definition complete_lines (buf : string) : option string := fst <$> rsplit_once (Ascii.eqb newline) buf.

Definition scan `{JsonText, Rfc3339} (now : Z) (path : string) (file : option FileView)
    (l : BgTaskLedger) : BgTaskLedger * bool :=
  let l := if bool_decide (lg_path l = Some path) then l else mkLedger (Some path) 0 ∅ in
  match file with
  | None => (l, false)
  | Some f =>
    let l := if (fv_len f <? lg_offset l)%N then mkLedger (Some path) 0 ∅ else l in
    if (fv_len f =? lg_offset l)%N then (l, false)
    else
      match fv_data f with
      | None => (l, false)
      | Some data =>
        let buf := btake MAX_SCAN_BYTES (bdrop (lg_offset l) data) in
        match complete_lines buf with
        | None => (l, false)
        | Some lines =>
          (mkLedger (lg_path l) (lg_offset l + blen lines + 1)
             (foldl (feed_line now) (lg_outstanding l)
                (List.filter utf8_valid (split_char newline lines))), true)
        end
      end
  end.

Definition has_outstanding (l : BgTaskLedger) : bool := bool_decide (lg_outstanding l ≠ ∅).

Definition running_at (now : Z) (t : BgTask) : bool :=
  match bg_expiry t with Never => true | At at_ => (now <? at_)%Z | Unknown => false end.

Definition holds_turn (l : BgTaskLedger) (now : Z) : bool :=
  existsb (λ kv, running_at now kv.2) (btree_str_iter (lg_outstanding l)).

Definition Meta : Type := N * option Z.

(** [std::fs::metadata] is the argument. *)
Definition output_fingerprint (metadata : string → option Meta) (l : BgTaskLedger) : list Meta :=
  omap metadata (omap (λ kv, bg_output kv.2) (btree_str_iter (lg_outstanding l))).

(** ** The watchdog *)

Inductive StuckAction := Reprompt | End.

Record StuckTurnWatchdog := mkWatchdog {
  wd_short : string;
  wd_reprompt_after : N;
  wd_end_after : N;
  wd_ceiling : N;
  wd_ledger : BgTaskLedger;
  wd_last_outputs : list Meta;
  wd_quiet_since : option N;
  wd_held_since : option N;
  wd_reprompted : bool;
  wd_ended : bool;
}.

Definition watchdog_new (session_id : string) (reprompt_after end_after : N) : StuckTurnWatchdog :=
  mkWatchdog (join "" (take 8 (uchars session_id))) reprompt_after end_after (DEFAULT_CEILING_SECS * 1000)
    ledger_empty [] None None false false.

Definition with_ceiling (ceiling : N) (w : StuckTurnWatchdog) : StuckTurnWatchdog :=
  mkWatchdog (wd_short w) (wd_reprompt_after w) (wd_end_after w) ceiling (wd_ledger w)
    (wd_last_outputs w) (wd_quiet_since w) (wd_held_since w) (wd_reprompted w) (wd_ended w).

Definition set_clocks (quiet held : option N) (w : StuckTurnWatchdog) : StuckTurnWatchdog :=
  mkWatchdog (wd_short w) (wd_reprompt_after w) (wd_end_after w) (wd_ceiling w) (wd_ledger w)
    (wd_last_outputs w) quiet held (wd_reprompted w) (wd_ended w).

Definition set_flags (reprompted ended : bool) (w : StuckTurnWatchdog) : StuckTurnWatchdog :=
  mkWatchdog (wd_short w) (wd_reprompt_after w) (wd_end_after w) (wd_ceiling w) (wd_ledger w)
    (wd_last_outputs w) (wd_quiet_since w) (wd_held_since w) reprompted ended.

Definition set_ledger (l : BgTaskLedger) (w : StuckTurnWatchdog) : StuckTurnWatchdog :=
  mkWatchdog (wd_short w) (wd_reprompt_after w) (wd_end_after w) (wd_ceiling w) l
    (wd_last_outputs w) (wd_quiet_since w) (wd_held_since w) (wd_reprompted w) (wd_ended w).

Definition outputs_changed (metadata : string → option Meta) (w : StuckTurnWatchdog) :
    StuckTurnWatchdog * bool :=
  let now := output_fingerprint metadata (wd_ledger w) in
  (mkWatchdog (wd_short w) (wd_reprompt_after w) (wd_end_after w) (wd_ceiling w) (wd_ledger w)
     now (wd_quiet_since w) (wd_held_since w) (wd_reprompted w) (wd_ended w),
   negb (bool_decide (now = wd_last_outputs w))).

(** The quiet clock, once nothing holds it. *)
Definition quiet_clock (now : N) (w : StuckTurnWatchdog) : StuckTurnWatchdog * option StuckAction :=
  let since := default now (wd_quiet_since w) in
  let w := set_clocks (Some since) (wd_held_since w) w in
  let quiet := (now - since)%N in
  if negb (wd_reprompted w) && (wd_reprompt_after w <=? quiet)%N then
    (set_flags true (wd_ended w) (set_clocks (Some now) (wd_held_since w) w), Some Reprompt)
  else if wd_reprompted w && (wd_end_after w <=? quiet)%N then
    (set_flags (wd_reprompted w) true w, Some End)
  else (w, None).

Definition observe_at (active : bool) (now : N) (wall : Z) (w : StuckTurnWatchdog) :
    StuckTurnWatchdog * option StuckAction :=
  if wd_ended w then (w, None)
  else if active || (negb (wd_reprompted w) && negb (has_outstanding (wd_ledger w))) then
    (set_clocks None None w, None)
  else if holds_turn (wd_ledger w) wall then
    let held := default now (wd_held_since w) in
    if (now - held <? wd_ceiling w)%N then (set_clocks None (Some held) w, None)
    else quiet_clock now (set_clocks (wd_quiet_since w) (Some held) w)
  else quiet_clock now (set_clocks (wd_quiet_since w) None w).

(** ** Polls *)

(** One poll of a session: whether it showed life, the two clocks, and the
    ledger after the transcript was scanned. *)
Record Poll := mkPoll { p_active : bool; p_now : N; p_wall : Z; p_ledger : BgTaskLedger }.

Definition poll (w : StuckTurnWatchdog) (p : Poll) : StuckTurnWatchdog * option StuckAction :=
  observe_at (p_active p) (p_now p) (p_wall p) (set_ledger (p_ledger p) w).

(** A watchdog after some polls, with the actions it took. *)
Inductive watched (w0 : StuckTurnWatchdog) : list Poll → list StuckAction → StuckTurnWatchdog → Prop :=
  | watched_start : watched w0 [] [] w0
  | watched_poll hist acts w p w' a :
      watched w0 hist acts w → poll w p = (w', a) →
      watched w0 (hist ++ [p]) (acts ++ option_list a) w'.

Definition quiet (p : Poll) : Prop := p_active p = false.
Definition waiting (p : Poll) : Prop := quiet p ∧ has_outstanding (p_ledger p) = true.

(** The polls end in a stretch that begins at the given time. *)
Definition stretch (P : Poll → Prop) (hist : list Poll) (since : N) : Prop :=
  ∃ pre q post, hist = pre ++ q :: post ∧ p_now q = since ∧ Forall P (q :: post).

Lemma stretch_snoc (P : Poll → Prop) hist since p : stretch P hist since → P p → stretch P (hist ++ [p]) since.
Proof.
  intros (pre & q & post & -> & Hq & HP) Hp. exists pre, q, (post ++ [p]). split_and!; [|done|].
  - by rewrite <-app_assoc.
  - rewrite app_comm_cons. apply Forall_app. split; [done|]. by apply Forall_singleton.
Qed.

Lemma stretch_here (P : Poll → Prop) hist p : P p → stretch P (hist ++ [p]) (p_now p).
Proof. intros Hp. exists hist, p, []. split_and!; [done|done|]. by apply Forall_singleton. Qed.

Section watchdog.
Variable w0 : StuckTurnWatchdog.
Hypothesis fresh : wd_quiet_since w0 = None ∧ wd_reprompted w0 = false ∧ wd_ended w0 = false.

(** A quiet stretch that began after the re-prompt. *)
Definition after_reprompt (hist : list Poll) (since : N) : Prop :=
  ∃ pre q post, hist = pre ++ q :: post ∧ p_now q = since ∧ Forall quiet (q :: post) ∧
    ∃ more w, watched w0 (pre ++ [q]) (Reprompt :: more) w.

Lemma after_reprompt_snoc hist since p :
  after_reprompt hist since → quiet p → after_reprompt (hist ++ [p]) since.
Proof.
  intros (pre & q & post & -> & Hq & HP & Hw) Hp. exists pre, q, (post ++ [p]). split_and!; [|done| |done].
  - by rewrite <-app_assoc.
  - rewrite app_comm_cons. apply Forall_app. split; [done|]. by apply Forall_singleton.
Qed.

Definition actions_of (w : StuckTurnWatchdog) : list StuckAction :=
  if wd_ended w then [Reprompt; End] else if wd_reprompted w then [Reprompt] else [].

Record dog_inv (hist : list Poll) (acts : list StuckAction) (w : StuckTurnWatchdog) : Prop := {
  di_acts : acts = actions_of w;
  di_ended : wd_ended w = true → wd_reprompted w = true;
  di_params : wd_reprompt_after w = wd_reprompt_after w0 ∧ wd_end_after w = wd_end_after w0;
  di_quiet : ∀ t, wd_ended w = false → wd_quiet_since w = Some t →
    if wd_reprompted w then after_reprompt hist t else stretch waiting hist t;
}.

(** What one poll may do, and what has to be true for it to act. *)
Lemma quiet_clock_spec now w w' a :
  quiet_clock now w = (w', a) →
  let since := default now (wd_quiet_since w) in
  match a with
  | Some Reprompt =>
    wd_reprompted w = false ∧ (wd_reprompt_after w ≤ now - since)%N ∧
    w' = set_flags true (wd_ended w) (set_clocks (Some now) (wd_held_since w) w)
  | Some End =>
    wd_reprompted w = true ∧ (wd_end_after w ≤ now - since)%N ∧
    w' = set_flags true true (set_clocks (Some since) (wd_held_since w) w)
  | None => w' = set_clocks (Some since) (wd_held_since w) w ∧
    (now - since < if wd_reprompted w then wd_end_after w else wd_reprompt_after w)%N
  end.
Proof.
  unfold quiet_clock. cbv zeta. cbn [wd_reprompted wd_reprompt_after wd_end_after set_clocks wd_ended wd_held_since].
  destruct (wd_reprompted w) eqn:Er; cbn [negb andb].
  - destruct (wd_end_after w <=? _)%N eqn:El; intros [= <- <-].
    + apply N.leb_le in El. done.
    + apply N.leb_gt in El. done.
  - destruct (wd_reprompt_after w <=? _)%N eqn:El; intros [= <- <-].
    + apply N.leb_le in El. done.
    + apply N.leb_gt in El. done.
Qed.

(** A poll resets the clocks, waits, or runs the quiet clock. *)
Lemma poll_cases w p w' a :
  poll w p = (w', a) →
  (wd_ended w = true ∧ w' = set_ledger (p_ledger p) w ∧ a = None) ∨
  (wd_ended w = false ∧ a = None ∧ ∃ held, w' = set_clocks None held (set_ledger (p_ledger p) w)) ∨
  (wd_ended w = false ∧ quiet p ∧ (wd_reprompted w = false → waiting p) ∧
   ∃ held, quiet_clock (p_now p) (set_clocks (wd_quiet_since w) held (set_ledger (p_ledger p) w)) = (w', a)).
Proof.
  unfold poll, observe_at. cbn [wd_ended wd_reprompted wd_ledger wd_held_since wd_ceiling wd_quiet_since set_ledger].
  destruct (wd_ended w); [intros [= <- <-]; by left|]. intros Hp. right. revert Hp.
  destruct (p_active p || _) eqn:Ea; [intros [= <- <-]; left; eauto|].
  apply orb_false_iff in Ea as [Ha Hout].
  assert (quiet p ∧ (wd_reprompted w = false → waiting p)) as [Hq Hw].
  { split; [done|]. intros Hr. rewrite Hr in Hout. split; [done|]. by apply negb_false_iff. }
  destruct (holds_turn (p_ledger p) (p_wall p)).
  - destruct (_ <? _)%N; [intros [= <- <-]; left; eauto|]. intros He. right. eauto 10.
  - intros He. right. eauto 10.
Qed.

Lemma watched_inv hist acts w : watched w0 hist acts w → dog_inv hist acts w.
Proof.
  destruct fresh as (Hq0 & Hr0 & He0).
  induction 1 as [|hist acts w p w' a Hw IH Hp].
  { constructor; [unfold actions_of; by rewrite He0, Hr0|congruence|done|congruence]. }
  pose proof (watched_poll w0 hist acts w p w' a Hw Hp) as Hw'.
  destruct IH as [Hacts Hended Hparams Hquiet].
  destruct (poll_cases w p w' a Hp) as [(He & -> & ->)|[(He & -> & held & ->)|(He & Hqp & Hwp & held & Hc)]].
  - cbn [option_list] in *. rewrite app_nil_r. constructor; [done..|]. cbn. congruence.
  - cbn [option_list] in *. rewrite app_nil_r. constructor; [done..|]. done.
  - apply quiet_clock_spec in Hc. cbn [set_clocks set_ledger wd_quiet_since wd_reprompted wd_reprompt_after wd_end_after wd_ended wd_held_since] in Hc.
    assert (acts = if wd_reprompted w then [Reprompt] else []) as Ha.
    { rewrite Hacts. unfold actions_of. by rewrite He. }
    destruct a as [[]|].
    + destruct Hc as (Hr & _ & ->). rewrite Hr in Ha. clear Hacts. subst acts.
      constructor; cbn; [unfold actions_of; cbn; by rewrite He|done|done|].
      intros t _ [= <-]. exists hist, p, []. split_and!; [done|done|by apply Forall_singleton|]. eauto.
    + destruct Hc as (Hr & _ & ->). rewrite Hr in Ha. clear Hacts. subst acts.
      constructor; cbn; [done..|]. done.
    + destruct Hc as [-> _]. cbn [option_list] in *. rewrite app_nil_r in *.
      constructor; cbn; [unfold actions_of in *; cbn; done|done|done|].
      intros t _ [= <-]. destruct (wd_quiet_since w) as [s|] eqn:Es; cbn.
      * specialize (Hquiet s He eq_refl). destruct (wd_reprompted w).
        -- by apply after_reprompt_snoc.
        -- apply stretch_snoc; [done|]. by apply Hwp.
      * destruct (wd_reprompted w).
        -- exists hist, p, []. split_and!; [done|done|by apply Forall_singleton|]. rewrite Ha in Hw'. eauto.
        -- apply stretch_here. by apply Hwp.
Qed.

(** The watchdog re-prompts at most once and ends at most once, after it.  It
    re-prompts only at the end of a stretch of polls without life in which a
    task was outstanding throughout, at least the first delay long; it ends
    only after a stretch without life that began no earlier than the re-prompt
    and is at least the second delay long. *)
Theorem watchdog_justified hist acts w :
  watched w0 hist acts w →
  acts ∈ [[]; [Reprompt]; [Reprompt; End]] ∧
  ∀ p w' a, poll w p = (w', Some a) →
    match a with
    | Reprompt =>
      acts = [] ∧ ∃ since, stretch waiting (hist ++ [p]) since ∧
        (wd_reprompt_after w0 ≤ p_now p - since)%N
    | End =>
      acts = [Reprompt] ∧ ∃ since, after_reprompt (hist ++ [p]) since ∧
        (wd_end_after w0 ≤ p_now p - since)%N
    end.
Proof.
  intros Hw. pose proof (watched_inv _ _ _ Hw) as [Hacts Hended [Hra Hea] Hquiet]. split.
  { rewrite Hacts. unfold actions_of. destruct (wd_ended w), (wd_reprompted w); set_solver. }
  intros p w' a Hp. pose proof (watched_poll w0 hist acts w p w' (Some a) Hw Hp) as Hw'.
  destruct (poll_cases w p w' (Some a) Hp) as [(_ & _ & [=])|[(_ & [=] & _)|(He & Hqp & Hwp & held & Hc)]].
  apply quiet_clock_spec in Hc.
  cbn [set_clocks set_ledger wd_quiet_since wd_reprompted wd_reprompt_after wd_end_after wd_ended wd_held_since] in Hc.
  assert (acts = if wd_reprompted w then [Reprompt] else []) as Ha.
  { rewrite Hacts. unfold actions_of. by rewrite He. }
  rewrite Hra, Hea in Hc. specialize (Hquiet (default (p_now p) (wd_quiet_since w)) He).
  destruct a; destruct Hc as (Hr & Hle & Heq); rewrite Hr in *; (split; [done|]); eexists; (split; [|exact Hle]).
  - destruct (wd_quiet_since w) as [s|]; cbn.
    + apply stretch_snoc; [by apply Hquiet|]. by apply Hwp.
    + apply stretch_here. by apply Hwp.
  - destruct (wd_quiet_since w) as [s|] eqn:Es; cbn.
    + apply after_reprompt_snoc; [by apply Hquiet|done].
    + exists hist, p, []. split_and!; [done|done|by apply Forall_singleton|]. rewrite Ha in Hw'. eauto.
Qed.

End watchdog.

Fixpoint poll_all (w : StuckTurnWatchdog) (ps : list Poll) : StuckTurnWatchdog :=
  match ps with [] => w | p :: ps => poll_all (poll w p).1 ps end.

(** A poll of a session whose task is outstanding with no sign of life and not
    known to be running. *)
Definition lost (p : Poll) : Prop := waiting p ∧ holds_turn (p_ledger p) (p_wall p) = false.

Lemma lost_poll w p :
  lost p → wd_ended w = false →
  poll w p = quiet_clock (p_now p) (set_clocks (wd_quiet_since w) None (set_ledger (p_ledger p) w)).
Proof.
  intros [[Ha Ho] Hh] He. unfold poll, observe_at. cbn. by rewrite He, Ha, Ho, Hh, andb_false_r.
Qed.

(** Polls that follow one another within a gap. *)
Fixpoint paced (gap : N) (t : N) (ps : list Poll) : Prop :=
  match ps with
  | [] => True
  | p :: ps => (t ≤ p_now p)%N ∧ (p_now p ≤ t + gap)%N ∧ paced gap (p_now p) ps
  end.

Lemma ended_poll_all w ps : wd_ended w = true → wd_ended (poll_all w ps) = true.
Proof.
  revert w. induction ps as [|p ps IH]; intros w He; [done|]. cbn [poll_all]. apply IH.
  unfold poll, observe_at. cbn [wd_ended set_ledger]. by rewrite He.
Qed.

Lemma last_cons {A} (x t : A) l : List.last (x :: l) t = List.last l x.
Proof.
  revert x t. induction l as [|y l IH]; intros x t; [done|].
  change (List.last (x :: y :: l) t) with (List.last (y :: l) t). by rewrite !IH.
Qed.

Lemma countdown gap w t t0 ps :
  Forall lost ps → paced gap t ps → (t0 ≤ t)%N → wd_ended w = false →
  match wd_quiet_since w with
  | Some s =>
    if wd_reprompted w
    then (s ≤ t0 + wd_reprompt_after w + gap)%N ∧ (t < s + wd_end_after w ∨ t = s)%N ∧ (s ≤ t)%N
    else (s ≤ t0)%N ∧ (t < s + wd_reprompt_after w ∨ t = s)%N
  | None => False
  end →
  wd_ended (poll_all w ps) = true ∨
  (List.last (p_now <$> ps) t ≤ t0 + wd_reprompt_after w + wd_end_after w + gap)%N.
Proof.
  revert w t. induction ps as [|p ps IH]; intros w t Hl Hp Ht0 He Hs.
  { right. cbn. destruct (wd_quiet_since w) as [s|]; [|done]. destruct (wd_reprompted w); lia. }
  apply Forall_cons in Hl as [Hlp Hl]. cbn [paced] in Hp. destruct Hp as (Hp1 & Hp2 & Hp).
  cbn [poll_all]. destruct (wd_quiet_since w) as [s|] eqn:Es; [|done].
  pose proof (lost_poll w p Hlp He) as Hpoll. destruct (poll w p) as [w' a]. symmetry in Hpoll.
  apply quiet_clock_spec in Hpoll.
  cbn [set_clocks set_ledger wd_quiet_since wd_reprompted wd_reprompt_after wd_end_after wd_ended wd_held_since] in Hpoll.
  rewrite Es in Hpoll. cbn [default from_option id fst] in *.
  assert (List.last (p_now <$> p :: ps) t = List.last (p_now <$> ps) (p_now p)) as ->.
  { apply last_cons. }
  destruct a as [[]|].
  - destruct Hpoll as (Hr & Hle & ->). rewrite Hr in Hs.
    destruct (IH (set_flags true (wd_ended w) (set_clocks (Some (p_now p)) None
       (set_clocks (Some s) None (set_ledger (p_ledger p) w)))) (p_now p)) as [Hd|Hd]; cbn; try done; try lia.
    + by left.
    + by right.
  - left. destruct Hpoll as (_ & _ & ->). by apply ended_poll_all.
  - destruct Hpoll as (-> & Hlt).
    destruct (IH (set_clocks (Some s) None (set_clocks (Some s) None (set_ledger (p_ledger p) w))) (p_now p))
      as [Hd|Hd]; cbn; try done; try lia.
    + destruct (wd_reprompted w); lia.
    + by left.
    + by right.
Qed.

(** A session that waits for a lost notice is ended: when every poll finds it
    without life and with a task outstanding that is not known to run, and the
    polls come within a gap of each other, it has ended once they span both
    delays and one gap. *)
Theorem lost_notice_ends gap w p ps :
  wd_ended w = false → (∀ s, wd_quiet_since w = Some s → (s ≤ p_now p)%N) →
  Forall lost (p :: ps) → paced gap (p_now p) ps →
  (p_now p + wd_reprompt_after w + wd_end_after w + gap < List.last (p_now <$> ps) (p_now p))%N →
  wd_ended (poll_all w (p :: ps)) = true.
Proof.
  intros He Hs Hl Hp Hspan. apply Forall_cons in Hl as [Hlp Hl]. cbn [poll_all].
  pose proof (lost_poll w p Hlp He) as Hpoll. destruct (poll w p) as [w' a]. symmetry in Hpoll.
  apply quiet_clock_spec in Hpoll.
  cbn [set_clocks set_ledger wd_quiet_since wd_reprompted wd_reprompt_after wd_end_after wd_ended wd_held_since] in Hpoll.
  set (s := default (p_now p) (wd_quiet_since w)) in *.
  assert (s ≤ p_now p)%N as Hsp.
  { unfold s. destruct (wd_quiet_since w) as [x|]; cbn; [by apply Hs|lia]. }
  cbn [fst]. destruct a as [[]|].
  - destruct Hpoll as (Hr & Hle & ->).
    destruct (countdown gap (set_flags true (wd_ended w) (set_clocks (Some (p_now p)) None
       (set_clocks (wd_quiet_since w) None (set_ledger (p_ledger p) w)))) (p_now p) (p_now p) ps) as [Hd|Hd];
      cbn in *; try done; try lia.
  - destruct Hpoll as (_ & _ & ->). by apply ended_poll_all.
  - destruct Hpoll as (-> & Hlt).
    destruct (countdown gap (set_clocks (Some s) None (set_clocks (wd_quiet_since w) None (set_ledger (p_ledger p) w)))
      (p_now p) (p_now p) ps) as [Hd|Hd]; cbn in *; try done; try lia.
    destruct (wd_reprompted w); lia.
Qed.

(** ** Reading a growing transcript *)

Section ledger.
Context `{JsonText} `{Rfc3339}.
Variable path : string.

(** Lines fed one after the other, each with the wall clock of its scan. *)
Definition feed_lines (fed : list (Z * string)) : gmap string BgTask :=
  foldl (λ m nl_, feed_line nl_.1 m nl_.2) ∅ fed.

(** The complete lines of what was read. *)
Definition lines_of_read (read : string) (lines : list string) : Prop :=
  (read = "" ∧ lines = []) ∨ ∃ body, read = body ++s nl ∧ lines = split_char newline body.

(** The ledger has fed exactly the complete lines before its offset, once each
    and in order. *)
Definition reads (data : string) (l : BgTaskLedger) : Prop :=
  lg_path l = Some path ∧
  ∃ read rest lines fed, data = read ++s rest ∧ lg_offset l = blen read ∧ lines_of_read read lines ∧
    fed.*2 = List.filter utf8_valid lines ∧ lg_outstanding l = feed_lines fed.

Lemma lines_of_read_app read lines more :
  lines_of_read read lines → lines_of_read (read ++s more ++s nl) (lines ++ split_char newline more).
Proof.
  intros [[-> ->]|(body & -> & ->)]; right.
  - by exists more.
  - exists (body ++s nl ++s more). split; [by rewrite !app_assoc_s|].
    unfold split_char. change (nl ++s more) with (String newline more). by rewrite split_mid.
Qed.

Lemma feed_lines_app now fed lines :
  foldl (feed_line now) (feed_lines fed) lines = feed_lines (fed ++ ((now,.) <$> lines)).
Proof.
  unfold feed_lines. rewrite foldl_app. generalize (foldl (λ m nl_, feed_line nl_.1 m nl_.2) ∅ fed).
  induction lines as [|x lines IH]; intros m; [done|]. apply IH.
Qed.

Lemma complete_lines_spec buf lines :
  complete_lines buf = Some lines →
  ∃ tail, buf = lines ++s nl ++s tail ∧ all_chars (λ c, negb (Ascii.eqb newline c)) tail = true.
Proof.
  unfold complete_lines. destruct (rsplit_once _ buf) as [[a b]|] eqn:Er; [|done]. intros [= <-].
  apply rsplit_once_Some in Er as (c & Hc & -> & Hb). apply Ascii.eqb_eq in Hc as <-. by exists b.
Qed.

(** A scan of a transcript that grew feeds the complete lines that were not
    fed yet, in order: it never skips or repeats a line.  It reads at most the
    window, and if the window ends the file only an incomplete line is left. *)
Theorem scan_feeds_once data more now len l :
  reads data l → (lg_offset l ≤ len)%N → len ≠ lg_offset l →
  let window := btake MAX_SCAN_BYTES (bdrop (lg_offset l) (data ++s more)) in
  let '(l', read) := scan now path (Some (mkFileView len (Some (data ++s more)))) l in
  reads (data ++s more) l' ∧
  (read = contains_char (Ascii.eqb newline) window) ∧
  (read = false → l' = l) ∧
  ((blen (bdrop (lg_offset l) (data ++s more)) ≤ MAX_SCAN_BYTES)%N →
    contains_char (Ascii.eqb newline) (bdrop (lg_offset l') (data ++s more)) = false).
Proof.
  intros (Hp & rd & rest & lines & fed & -> & Hoff & Hlines & Hfed & Hout) Hlen Hne. cbv zeta.
  rewrite app_assoc_s. unfold scan. rewrite bool_decide_eq_true_2 by done. cbn [fv_len fv_data].
  replace (len <? lg_offset l)%N with false by (symmetry; apply N.ltb_ge; lia).
  replace (len =? lg_offset l)%N with false by (symmetry; by apply N.eqb_neq).
  rewrite (bdrop_app_len rd (rest ++s more)) by done. set (unread := rest ++s more).
  set (buf := btake MAX_SCAN_BYTES unread).
  assert (∃ y, unread = buf ++s y) as [y Hy].
  { exists (bdrop MAX_SCAN_BYTES unread). symmetry. apply btake_bdrop. }
  destruct (complete_lines buf) as [body|] eqn:Ec.
  - apply complete_lines_spec in Ec as (tail & Hbuf & Htail).
    assert (rd ++s unread = (rd ++s body ++s nl) ++s (tail ++s y)) as Hsplit.
    { rewrite Hy, Hbuf. by rewrite !app_assoc_s. }
    assert (lg_offset l + blen body + 1 = blen (rd ++s body ++s nl))%N as Hoff'.
    { rewrite !blen_app, Hoff. change (blen nl) with 1%N. lia. }
    split_and!.
    + split; [done|]. exists (rd ++s body ++s nl), (tail ++s y), (lines ++ split_char newline body),
        (fed ++ ((now,.) <$> List.filter utf8_valid (split_char newline body))).
      split_and!; [done|done|by apply lines_of_read_app| |].
      * rewrite List.filter_app, fmap_app, Hfed. f_equal. rewrite <-list_fmap_compose. apply list_fmap_id.
      * cbn. by rewrite Hout, feed_lines_app.
    + rewrite Hbuf. clear. symmetry. rewrite contains_char_all. apply negb_true_iff.
      rewrite all_chars_app. cbn. by rewrite andb_false_r.
    + done.
    + cbn [lg_offset]. intros Hfit.
      rewrite Hsplit, (bdrop_app_len _ (tail ++s y)) by done.
      assert (y = "") as ->.
      { unfold buf in Hy. rewrite btake_ge in Hy by done. apply (f_equal String.length) in Hy.
        rewrite length_app_s in Hy. destruct y; [done|]. cbn in Hy. lia. }
      rewrite app_nil_s, contains_char_all. by rewrite Htail.
  - unfold complete_lines in Ec. destruct (rsplit_once _ buf) as [[a b]|] eqn:Er; [done|].
    apply rsplit_once_None in Er. assert (contains_char (Ascii.eqb newline) buf = false) as Hno.
    { rewrite contains_char_all. by rewrite Er. }
    split_and!; [|done|done|].
    + split; [done|]. exists rd, unread, lines, fed. done.
    + intros Hfit. rewrite (bdrop_app_len rd unread) by done.
      unfold buf in Hno. by rewrite btake_ge in Hno.
Qed.

(** A line that does not fit the window is never passed: scans read nothing
    from then on, however the file grows. *)
Theorem long_line_blocks_scan l now len data line :
  lg_path l = Some path → bdrop (lg_offset l) data = line → (lg_offset l ≤ len)%N →
  contains_char (Ascii.eqb newline) (btake MAX_SCAN_BYTES line) = false →
  scan now path (Some (mkFileView len (Some data))) l = (l, false).
Proof.
  intros Hp Hline Hlen Hno. unfold scan. rewrite bool_decide_eq_true_2 by done. cbn [fv_len fv_data].
  replace (len <? lg_offset l)%N with false by (symmetry; apply N.ltb_ge; lia).
  destruct (len =? lg_offset l)%N; [done|]. rewrite Hline. unfold complete_lines.
  assert (rsplit_once (Ascii.eqb newline) (btake MAX_SCAN_BYTES line) = None) as ->; [|done].
  apply rsplit_once_None. rewrite contains_char_all in Hno. by apply negb_false_iff in Hno.
Qed.

End ledger.

(** ** Witnesses *)

Definition demo_tasks : BgTaskLedger := mkLedger (Some "t") 0 {["b1" := mkBgTask None Unknown]}.
Definition demo_poll (t : N) : Poll := mkPoll false t 0 demo_tasks.
Definition demo_dog : StuckTurnWatchdog := watchdog_new "session-1" 10 10.

Lemma watchdog_justified_witness :
  ∃ since, stretch waiting ([demo_poll 0] ++ [demo_poll 12]) since ∧ (10 ≤ 12 - since)%N.
Proof.
  destruct (watchdog_justified demo_dog ltac:(done) [demo_poll 0] [] (poll demo_dog (demo_poll 0)).1) as [_ Hp].
  - apply (watched_poll demo_dog [] [] demo_dog (demo_poll 0) _ None); [constructor|]. vm_compute. reflexivity.
  - destruct (Hp (demo_poll 12) (poll (poll demo_dog (demo_poll 0)).1 (demo_poll 12)).1 Reprompt) as [_ Hs]; [|exact Hs].
    vm_compute. reflexivity.
Defined.

Lemma lost_notice_ends_witness :
  wd_ended (poll_all demo_dog (demo_poll 0 :: (demo_poll <$> [10; 20; 30; 40]%N))) = true.
Proof.
  apply (lost_notice_ends 10 demo_dog (demo_poll 0) (demo_poll <$> [10; 20; 30; 40]%N)).
  - done.
  - done.
  - repeat constructor.
  - cbn. lia.
  - cbn. lia.
Defined.

Definition no_json : JsonText := {| json_to_string := λ _, ""; json_from_str := λ _, None |}.
Definition no_dates : Rfc3339 := λ _, None.

Lemma scan_feeds_once_witness :
  ∃ l', @scan no_json no_dates 0 "t" (Some (mkFileView 3 (Some ("" ++s "ab" ++s nl)))) (mkLedger (Some "t") 0 ∅) = (l', true) ∧
    @reads no_json no_dates "t" ("" ++s "ab" ++s nl) l'.
Proof.
  pose proof (@scan_feeds_once no_json no_dates "t" "" ("ab" ++s nl) 0 3 (mkLedger (Some "t") 0 ∅)) as Hs.
  cbv zeta in Hs. destruct (@scan no_json no_dates _ _ _ _) as [l' b] eqn:E.
  destruct Hs as (Hr & Hb & _); [|done|done|].
  - split; [done|]. exists "", "", [], []. split_and!; try done. by left.
  - exists l'. split; [|done]. rewrite Hb. reflexivity.
Defined.

Lemma long_line_blocks_scan_witness :
  @scan no_json no_dates 0 "t" (Some (mkFileView 3 (Some "abc"))) (mkLedger (Some "t") 0 ∅) =
  (mkLedger (Some "t") 0 ∅, false).
Proof. apply (@long_line_blocks_scan no_json no_dates "t" _ 0 3 "abc" "abc"); done. Defined.

Example monitor_notice :
  task_notices "x <task-notification><task-id> b1 </task-id></task-notification><task-notification><task-id>b2</task-id><status>done</status></task-notification>" =
  [("b1", false); ("b2", true)].
Proof. reflexivity. Qed.
