(* ===== verification/Kube.v ===== *)
(** * Worker profiles and the pod objects they describe
    ([cctui-orchestrator/src/lib.rs])

    The profile an operator writes, with its accessors, and the pod objects of
    the cluster API the orchestrator reads and writes.  A cluster object is a
    record of the fields the sources name; the fields no source names stay
    together in [rest], a map from a field's name to its JSON text, which is
    empty in a default value. *)

From stdpp Require Import base decidable list gmap strings.
From Stdlib Require Import ZArith String.
From S2P Require Import Prelude RustStr.

Definition Rest : Type := gmap string string.

(** [opt.iter().flatten()] on an optional list. *)
Definition flat {A} (o : option (list A)) : list A := default [] o.

Lemma flat_some {A} (l : list A) : flat (Some l) = l.
Proof. done. Qed.

(** ** Cluster objects *)

Record KeySelector := mkKeySelector { ks_name : string; ks_key : string; ks_optional : option bool }.

Record EnvVarSource := mkEnvVarSource {
  evs_secret_key_ref : option KeySelector;
  evs_config_map_key_ref : option KeySelector;
  evs_field_ref : option string;
  evs_rest : Rest;
}.

Record EnvVar := mkEnvVar {
  ev_name : string;
  ev_value : option string;
  ev_value_from : option EnvVarSource;
}.

Record ConfigMapEnvSource := mkConfigMapEnv { cme_name : string; cme_optional : option bool }.

Record EnvFromSource := mkEnvFrom {
  ef_config_map_ref : option ConfigMapEnvSource;
  ef_rest : Rest;
}.

Record VolumeMount := mkMount {
  vm_name : string;
  vm_mount_path : string;
  vm_read_only : option bool;
  vm_rest : Rest;
}.

Record Capabilities := mkCaps { cp_add : option (list string); cp_drop : option (list string) }.

(** [SeccompProfile] and [AppArmorProfile]. *)
Record ConfinementProfile := mkConfinement { cf_type : string; cf_localhost_profile : option string }.

Record SecurityContext := mkSecurityContext {
  sc_allow_privilege_escalation : option bool;
  sc_app_armor_profile : option ConfinementProfile;
  sc_capabilities : option Capabilities;
  sc_privileged : option bool;
  sc_proc_mount : option string;
  sc_run_as_group : option Z;
  sc_run_as_non_root : option bool;
  sc_run_as_user : option Z;
  sc_se_linux_options : option string;
  sc_seccomp_profile : option ConfinementProfile;
  sc_rest : Rest;
}.

Record Probe := mkProbe {
  pb_http_path : option string;
  pb_http_port : Z;
  pb_period_seconds : option Z;
  pb_failure_threshold : option Z;
  pb_rest : Rest;
}.

Record ResourceRequirements := mkResources {
  rr_requests : option (gmap string string);
  rr_limits : option (gmap string string);
  rr_rest : Rest;
}.

Record Container := mkContainer {
  c_name : string;
  c_image : option string;
  c_command : option (list string);
  c_args : option (list string);
  c_env : option (list EnvVar);
  c_env_from : option (list EnvFromSource);
  c_security_context : option SecurityContext;
  c_volume_mounts : option (list VolumeMount);
  c_startup_probe : option Probe;
  c_resources : option ResourceRequirements;
  c_restart_policy : option string;
  c_rest : Rest;
}.

Record TokenProjection := mkTokenProjection {
  tp_path : string;
  tp_expiration_seconds : option Z;
  tp_audience : option string;
}.

Record ConfigMapProjection := mkConfigMapProjection {
  cmp_name : string;
  cmp_items : option (list (string * string));
  cmp_optional : option bool;
}.

(** A downward-API file: its path and the field it reads. *)
Record DownwardFile := mkDownwardFile { df_path : string; df_field_path : option string; df_rest : Rest }.

Record VolumeProjection := mkProjection {
  vp_service_account_token : option TokenProjection;
  vp_config_map : option ConfigMapProjection;
  vp_downward_api : option (option (list DownwardFile));
  vp_rest : Rest;
}.

Record ProjectedVolumeSource := mkProjected {
  pv_sources : option (list VolumeProjection);
  pv_default_mode : option Z;
}.

Record CSIVolumeSource := mkCsi { csi_read_only : option bool; csi_rest : Rest }.

Record Volume := mkVolume {
  v_name : string;
  v_empty_dir : option Rest;
  v_config_map : option (string * Rest);
  v_projected : option ProjectedVolumeSource;
  v_csi : option CSIVolumeSource;
  v_host_path : option Rest;
  v_rest : Rest;
}.

Record NodeSelectorRequirement := mkRequirement {
  nr_key : string;
  nr_operator : string;
  nr_values : option (list string);
}.

Record NodeSelectorTerm := mkTerm {
  nt_match_expressions : option (list NodeSelectorRequirement);
  nt_match_fields : option (list NodeSelectorRequirement);
}.

(** The preferred terms as JSON text; the required ones are read. *)
Record NodeAffinity := mkNodeAffinity {
  na_preferred : option (list string);
  na_required : option (list NodeSelectorTerm);
}.

Record Affinity := mkAffinity {
  af_node_affinity : option NodeAffinity;
  af_pod_affinity : option string;
  af_pod_anti_affinity : option string;
}.

Record Toleration := mkToleration {
  tl_key : option string;
  tl_operator : option string;
  tl_value : option string;
  tl_effect : option string;
  tl_toleration_seconds : option Z;
}.

Record PodSecurityContext := mkPodSecurity { ps_fs_group : option Z; ps_rest : Rest }.

Record PodSpec := mkPodSpec {
  sp_containers : list Container;
  sp_init_containers : option (list Container);
  sp_volumes : option (list Volume);
  sp_security_context : option PodSecurityContext;
  sp_host_pid : option bool;
  sp_host_ipc : option bool;
  sp_host_network : option bool;
  sp_automount_service_account_token : option bool;
  sp_enable_service_links : option bool;
  sp_service_account_name : option string;
  sp_node_selector : option (gmap string string);
  sp_runtime_class_name : option string;
  sp_affinity : option Affinity;
  sp_tolerations : option (list Toleration);
  sp_priority_class_name : option string;
  sp_restart_policy : option string;
  sp_image_pull_secrets : option (list string);
  sp_rest : Rest;
}.

Record ObjectMeta := mkMeta {
  om_name : option string;
  om_namespace : option string;
  om_labels : option (gmap string string);
  om_annotations : option (gmap string string);
  om_uid : option string;
  om_creation_timestamp : option Z;
  om_rest : Rest;
}.

Record Terminated := mkTerminated {
  tm_exit_code : Z;
  tm_reason : option string;
  tm_message : option string;
  tm_signal : option Z;
  tm_rest : Rest;
}.

(** The reason of a waiting container, and how a container ended. *)
Record ContainerState := mkContainerState {
  st_waiting : option (option string);
  st_terminated : option Terminated;
  st_rest : Rest;
}.

Record ContainerStatus := mkContainerStatus {
  cs_name : string;
  cs_state : option ContainerState;
  cs_last_state : option ContainerState;
  cs_rest : Rest;
}.

Record PodStatus := mkPodStatus {
  pst_phase : option string;
  pst_reason : option string;
  pst_init_container_statuses : option (list ContainerStatus);
  pst_container_statuses : option (list ContainerStatus);
  pst_rest : Rest;
}.

Record Pod := mkPod { p_metadata : ObjectMeta; p_spec : option PodSpec; p_status : option PodStatus }.

(** A Job's pod template. *)
Record PodTemplateSpec := mkTemplate { pt_metadata : option ObjectMeta; pt_spec : option PodSpec }.

#[export] Instance KeySelector_eq_dec : EqDecision KeySelector.
Proof. solve_decision. Defined.
#[export] Instance EnvVarSource_eq_dec : EqDecision EnvVarSource.
Proof. solve_decision. Defined.
#[export] Instance EnvVar_eq_dec : EqDecision EnvVar.
Proof. solve_decision. Defined.
#[export] Instance ConfigMapEnvSource_eq_dec : EqDecision ConfigMapEnvSource.
Proof. solve_decision. Defined.
#[export] Instance EnvFromSource_eq_dec : EqDecision EnvFromSource.
Proof. solve_decision. Defined.
#[export] Instance TokenProjection_eq_dec : EqDecision TokenProjection.
Proof. solve_decision. Defined.
#[export] Instance ConfigMapProjection_eq_dec : EqDecision ConfigMapProjection.
Proof. solve_decision. Defined.
#[export] Instance DownwardFile_eq_dec : EqDecision DownwardFile.
Proof. solve_decision. Defined.
#[export] Instance VolumeProjection_eq_dec : EqDecision VolumeProjection.
Proof. solve_decision. Defined.
#[export] Instance ProjectedVolumeSource_eq_dec : EqDecision ProjectedVolumeSource.
Proof. solve_decision. Defined.
#[export] Instance CSIVolumeSource_eq_dec : EqDecision CSIVolumeSource.
Proof. solve_decision. Defined.
#[export] Instance Volume_eq_dec : EqDecision Volume.
Proof. solve_decision. Defined.
#[export] Instance NodeSelectorRequirement_eq_dec : EqDecision NodeSelectorRequirement.
Proof. solve_decision. Defined.
#[export] Instance NodeSelectorTerm_eq_dec : EqDecision NodeSelectorTerm.
Proof. solve_decision. Defined.
#[export] Instance NodeAffinity_eq_dec : EqDecision NodeAffinity.
Proof. solve_decision. Defined.
#[export] Instance Affinity_eq_dec : EqDecision Affinity.
Proof. solve_decision. Defined.

(** ** Default values *)

Definition ObjectMeta_default : ObjectMeta := mkMeta None None None None None None ∅.
Definition SecurityContext_default : SecurityContext :=
  mkSecurityContext None None None None None None None None None None ∅.
Definition VolumeProjection_default : VolumeProjection := mkProjection None None None ∅.
Definition PodSecurityContext_default : PodSecurityContext := mkPodSecurity None ∅.
Definition PodSpec_default : PodSpec :=
  mkPodSpec [] None None None None None None None None None None None None None None None None ∅.
Definition Affinity_default : Affinity := mkAffinity None None None.
Definition NodeAffinity_default : NodeAffinity := mkNodeAffinity None None.
Definition Container_default : Container :=
  mkContainer "" None None None None None None None None None None ∅.

(** ** Names *)

Definition DEFAULT_WORKER_CONTAINER : string := "worker".
Definition LABEL_WORKER_PROFILE : string := "cctui.dev/worker-profile".
Definition ANNOTATION_WORKER_CONTAINER : string := "cctui.dev/worker-container".
Definition ANNOTATION_GUARD_IDENTITY : string := "cctui.dev/guard-identity".
Definition ANNOTATION_GPG_SIGNING : string := "cctui.dev/gpg-signing".
Definition ANNOTATION_DISPATCH_ID : string := "cctui.dev/dispatch-id".
Definition ANNOTATION_SERVER_URL : string := "cctui.dev/server-url".
Definition ANNOTATION_POSTURE : string := "cctui.dev/posture".
Definition ANNOTATION_ENVELOPE_INJECTED : string := "cctui.dev/envelope-injected".
Definition GUARD_EXEC_ENV : string := "CCTUI_GUARD_EXEC".
Definition EXEC_INTERCEPTION_CAP : string := "SYS_PTRACE".
Definition PREFLIGHT_MODE_ENV : string := "CCTUI_PREFLIGHT_MODE".
Definition PREFLIGHT_DENY_ENV : string := "CCTUI_PREFLIGHT_DENY".
Definition RESERVED_POD_KEY_PREFIXES : list string := ["cctui.dev/"; "batch.kubernetes.io/"].
Definition RESERVED_POD_LABELS : list string := ["controller-uid"; "job-name"].

(** ** Postures, exposure and human gates *)

Inductive Posture := Root | Nonroot.

#[export] Instance Posture_eq_dec : EqDecision Posture.
Proof. solve_decision. Defined.

Definition Posture_as_str (p : Posture) : string := match p with Root => "root" | Nonroot => "nonroot" end.

Definition Posture_annotation (p : Posture) : option string :=
  match p with Root => None | Nonroot => Some "nonroot" end.

Definition from_annotation (value : option string) : option Posture :=
  match value with
  | None => Some Root
  | Some v => if v ==s "root" then Some Root else if v ==s "nonroot" then Some Nonroot else None
  end.

Record Exposure := mkExposure { ex_untrusted_input : bool; ex_sensitive_data : bool; ex_outward : bool }.

Definition is_full (e : Exposure) : bool := ex_untrusted_input e && ex_sensitive_data e && ex_outward e.

Inductive HumanGate := NoPush | DraftPrOnly | OutwardHeldForApproval.

Definition HumanGate_as_str (g : HumanGate) : string :=
  match g with
  | NoPush => "noPush"
  | DraftPrOnly => "draftPrOnly"
  | OutwardHeldForApproval => "outwardHeldForApproval"
  end.

(** ** Profiles *)

Record PreflightSpec := mkPreflight { pf_mode : option string; pf_deny : option (list string) }.

Definition worker_env (p : PreflightSpec) : list (string * string) :=
  let mode := m ← trim <$> pf_mode p; if is_empty m then None else Some m in
  let deny := List.filter (λ d, negb (is_empty d)) (trim <$> flat (pf_deny p)) in
  match mode with Some m => [(PREFLIGHT_MODE_ENV, m)] | None => [] end ++
  match deny with [] => [] | _ => [(PREFLIGHT_DENY_ENV, join "," deny)] end.

Record CloudIdentitySpec := mkCloudIdentity {
  ci_volume_mounts : list VolumeMount;
  ci_env : option (list EnvVar);
}.

Record GuardSpec := mkGuard {
  gs_env_from : option (list EnvFromSource);
  gs_env : option (list EnvVar);
  gs_allow_private_egress : bool;
  gs_cloud_identity : option CloudIdentitySpec;
}.

Definition identity_volumes (g : GuardSpec) : list string :=
  match gs_cloud_identity g with Some c => vm_name <$> ci_volume_mounts c | None => [] end.

Record WorkerPodSpec := mkWorkerPod {
  wp_labels : option (gmap string string);
  wp_annotations : option (gmap string string);
  wp_priority_class_name : option string;
}.

Record WorkerProfileSpec := mkProfile {
  pr_image : string;
  pr_command : option (list string);
  pr_args : option (list string);
  pr_resources : option ResourceRequirements;
  pr_env : option (list EnvVar);
  pr_env_from : option (list EnvFromSource);
  pr_volume_mounts : option (list VolumeMount);
  pr_worker_container : option string;
  pr_containers : option (list Container);
  pr_init_containers : option (list Container);
  pr_volumes : option (list Volume);
  pr_image_pull_secrets : option (list string);
  pr_node_selector : option (gmap string string);
  pr_tolerations : option (list Toleration);
  pr_affinity : option Affinity;
  pr_pod_annotations : option (gmap string string);
  pr_pod : option WorkerPodSpec;
  pr_runtime_class_name : option string;
  pr_service_account_name : option string;
  pr_gpg_signing : bool;
  pr_max_inflight : option N;
  pr_guard : option GuardSpec;
  pr_preflight : option PreflightSpec;
  pr_posture : option Posture;
  pr_exposure : option Exposure;
  pr_human_gate : option HumanGate;
}.

(** The accessors of [WorkerProfileSpec]. *)
Definition profile_worker_name (p : WorkerProfileSpec) : string :=
  default DEFAULT_WORKER_CONTAINER (pr_worker_container p).

Definition profile_posture (p : WorkerProfileSpec) : Posture := default Root (pr_posture p).

Definition exec_interception (p : WorkerProfileSpec) : bool :=
  existsb (λ e, (ev_name e ==s GUARD_EXEC_ENV) && bool_decide (ev_value e = Some "1")) (flat (pr_env p)).

Definition pod_labels (p : WorkerProfileSpec) : option (gmap string string) := pr_pod p ≫= wp_labels.

Definition pod_metadata_annotations (p : WorkerProfileSpec) : option (gmap string string) :=
  pr_pod p ≫= wp_annotations.

Definition profile_priority_class (p : WorkerProfileSpec) : option string :=
  pr_pod p ≫= wp_priority_class_name.
