(* ===== verification/Envelope.v ===== *)
(** * The sandbox envelope of a worker pod
    ([cctui-orchestrator/src/envelope.rs])

    The mutating webhook turns a profiled pod into one whose worker container
    is sandboxed and whose egress passes the guard proxy.  Turning pods into
    JSON and computing a JSON patch belong to serde and json_patch: the class
    [PodJson]. *)

From stdpp Require Import base decidable list gmap sets strings.
From Stdlib Require Import Lia ZArith Bool String.
From S2P Require Import Prelude RustStr Kube.

(** ** Names *)

Definition NET_INIT_CONTAINER : string := "net-init".
Definition GUARD_PROXY_CONTAINER : string := "guard-proxy".
Definition CONFIGMAP_GUARD_PROXY_ENV : string := "guard-proxy-env".
Definition CONFIGMAP_GUARD_PROXY_INJECT : string := "guard-proxy-inject".
Definition GUARD_ENV_HUMAN_GATE : string := "GUARD_PROXY_HUMAN_GATE".
Definition VOL_HOME : string := "home".
Definition VOL_OVERLAY : string := "overlay".
Definition VOL_GUARD_STATE : string := "guard-state".
Definition VOL_PROXY_POLICY : string := "proxy-policy".
Definition VOL_GUARD_PROXY_INJECT : string := "guard-proxy-inject".
Definition VOL_GUARD_PROXY_CA : string := "guard-proxy-ca".
Definition VOL_GUARD_PROXY_SA_TOKEN : string := "guard-proxy-sa-token".
Definition VOL_GPG_AGENT : string := "gpg-agent".
Definition SA_TOKEN_DIR : string := "/var/run/secrets/kubernetes.io/serviceaccount".
Definition SA_TOKEN_EXPIRATION_SECONDS : Z := 3600.
Definition CCTUI_TOKEN_EXPIRATION_SECONDS : Z := 600.
Definition CCTUI_TOKEN_FILE : string := "cctui-token".
Definition CCTUI_TOKEN_AUDIENCE : string := "cctui".
Definition CONFIGMAP_KUBE_ROOT_CA : string := "kube-root-ca.crt".
Definition WARM_REPO_DIR_ENV : string := "WARM_REPO_DIR".
Definition PROXY_UID : Z := 1337.
Definition WORKER_UID : Z := 1000.
Definition FS_GROUP : Z := WORKER_UID.

Definition WORKER_ENVELOPE_MOUNTS : list string :=
  [VOL_HOME; VOL_OVERLAY; VOL_GUARD_STATE; VOL_PROXY_POLICY; VOL_GUARD_PROXY_CA].

Definition WORKER_ADDED_CAPS : list string :=
  ["SYS_ADMIN"; "CHOWN"; "DAC_OVERRIDE"; "FOWNER"; "FSETID"; "KILL"; "SETUID"; "SETGID"; "SETPCAP"].

(** The version comes from the build. *)
Definition default_sidecar_image (version : string) : string := "ghcr.io/dorskfr/cctui-worker:" ++s version.

Definition has_overlay (posture : Posture) : bool := match posture with Root => true | Nonroot => false end.

Definition worker_envelope_mounts (posture : Posture) : list string :=
  List.filter (λ m, has_overlay posture || negb (m ==s VOL_OVERLAY)) WORKER_ENVELOPE_MOUNTS.

Definition worker_added_caps (posture : Posture) : list string :=
  match posture with Root => WORKER_ADDED_CAPS | Nonroot => [] end.

(** ** Security contexts *)

Definition drop_all (add : option (list string)) : option Capabilities := Some (mkCaps add (Some ["ALL"])).

Definition restricted (uid : Z) : SecurityContext :=
  mkSecurityContext (Some false) None (drop_all None) None None (Some uid) (Some true) (Some uid) None
    (Some (mkConfinement "RuntimeDefault" None)) ∅.

Definition worker_security_context_with (posture : Posture) (exec : bool) : SecurityContext :=
  match posture with
  | Nonroot => restricted WORKER_UID
  | Root =>
    mkSecurityContext None (Some (mkConfinement "Unconfined" None))
      (drop_all (Some (WORKER_ADDED_CAPS ++ if exec then [EXEC_INTERCEPTION_CAP] else [])))
      None None None None (Some 0%Z) None None ∅
  end.

Definition worker_security_context (posture : Posture) : SecurityContext :=
  worker_security_context_with posture false.

Definition guard_proxy_security_context (posture : Posture) : SecurityContext :=
  match posture with
  | Root =>
    mkSecurityContext (Some false) None (drop_all None) None None (Some PROXY_UID) None (Some PROXY_UID) None None ∅
  | Nonroot => restricted PROXY_UID
  end.

(** ** Configuration *)

Record EnvelopeConfig := mkEnvelope {
  ec_sidecar_image : string;
  ec_worker_container : string;
  ec_guard_identity : option string;
  ec_gpg : bool;
  ec_guard : option GuardSpec;
  ec_posture : Posture;
  ec_dispatched : bool;
  ec_exec_interception : bool;
  ec_human_gate : option HumanGate;
}.

Record ProfileFlags := mkFlags { pf_exec_interception : bool; pf_human_gate : option HumanGate }.

Definition ProfileFlags_default : ProfileFlags := mkFlags false None.

(** An annotation of a pod. *)
Definition annotation (m : ObjectMeta) (key : string) : option string := om_annotations m ≫= (.!! key).

Definition posture_message (value : option string) : string :=
  "pod annotation `" ++s ANNOTATION_POSTURE ++s ": " ++s default "" value ++s
  "` names no posture (want `nonroot`, or no annotation for `root`)".

Definition from_pod (pod : Pod) (sidecar_image : string) (guard : option GuardSpec) (flags : ProfileFlags) :
    result string EnvelopeConfig :=
  let get := annotation (p_metadata pod) in
  posture ← ok_or (from_annotation (get ANNOTATION_POSTURE)) (posture_message (get ANNOTATION_POSTURE));
  Ok (mkEnvelope sidecar_image (default DEFAULT_WORKER_CONTAINER (get ANNOTATION_WORKER_CONTAINER))
        (get ANNOTATION_GUARD_IDENTITY) (bool_decide (get ANNOTATION_GPG_SIGNING = Some "true")) guard posture
        (bool_decide (is_Some (get ANNOTATION_DISPATCH_ID))) (pf_exec_interception flags) (pf_human_gate flags)).

(** [profile_name], and [is_eligible] that only asks whether there is one. *)
Definition profile_name (pod : Pod) : option string := om_labels (p_metadata pod) ≫= (.!! LABEL_WORKER_PROFILE).

Definition is_eligible (pod : Pod) : bool := bool_decide (is_Some (profile_name pod)).

Definition marked (pod : Pod) : bool :=
  bool_decide (annotation (p_metadata pod) ANNOTATION_ENVELOPE_INJECTED = Some "true").

Definition init_containers (pod : Pod) : list Container :=
  match p_spec pod with Some s => flat (sp_init_containers s) | None => [] end.

Definition is_injected (pod : Pod) : bool :=
  marked pod || existsb (λ c, c_name c ==s GUARD_PROXY_CONTAINER) (init_containers pod).

(** ** Building blocks *)

Definition mount (name path : string) (read_only : bool) : VolumeMount :=
  mkMount name path (if read_only then Some true else None) ∅.

Fixpoint upsert_env (env : list EnvVar) (name value : string) : list EnvVar :=
  match env with
  | [] => [mkEnvVar name (Some value) None]
  | e :: env =>
    if ev_name e ==s name then mkEnvVar (ev_name e) (Some value) None :: env else e :: upsert_env env name value
  end.

Definition resources (cpu_req mem_req cpu_lim mem_lim : string) : ResourceRequirements :=
  mkResources (Some (<["memory" := mem_req]> {["cpu" := cpu_req]}))
    (Some (<["memory" := mem_lim]> {["cpu" := cpu_lim]})) ∅.

Definition empty_dir (name : string) : Volume := mkVolume name (Some ∅) None None None None ∅.

Definition annotation_env (name annotation : string) : EnvVar :=
  mkEnvVar name None
    (Some (mkEnvVarSource None None (Some ("metadata.annotations['" ++s annotation ++s "']")) ∅)).

Definition sa_token_volume : Volume :=
  mkVolume VOL_GUARD_PROXY_SA_TOKEN None None
    (Some (mkProjected (Some
       [ mkProjection (Some (mkTokenProjection "token" (Some SA_TOKEN_EXPIRATION_SECONDS) None)) None None ∅;
         mkProjection (Some (mkTokenProjection CCTUI_TOKEN_FILE (Some CCTUI_TOKEN_EXPIRATION_SECONDS)
                               (Some CCTUI_TOKEN_AUDIENCE))) None None ∅;
         mkProjection None (Some (mkConfigMapProjection CONFIGMAP_KUBE_ROOT_CA
                                    (Some [("ca.crt", "ca.crt")]) None)) None ∅;
         mkProjection None None (Some (Some [mkDownwardFile "namespace" (Some "metadata.namespace") ∅])) ∅ ])
       None)) None None ∅.

Definition envelope_volumes (cfg : EnvelopeConfig) : list Volume :=
  List.filter (λ v, has_overlay (ec_posture cfg) || negb (v_name v ==s VOL_OVERLAY))
    ([ empty_dir VOL_HOME; empty_dir VOL_OVERLAY; empty_dir VOL_GUARD_STATE; empty_dir VOL_PROXY_POLICY;
       mkVolume VOL_GUARD_PROXY_INJECT None (Some (CONFIGMAP_GUARD_PROXY_INJECT, ∅)) None None None ∅;
       empty_dir VOL_GUARD_PROXY_CA; sa_token_volume ] ++
     if ec_gpg cfg then [empty_dir VOL_GPG_AGENT] else []).

(** ** The containers of the envelope *)

Definition net_init_container (cfg : EnvelopeConfig) : Container :=
  mkContainer NET_INIT_CONTAINER (Some (ec_sidecar_image cfg)) (Some ["cctui-worker-net-init"]) None None None
    (Some (mkSecurityContext None None (drop_all (Some ["NET_ADMIN"])) None None None None (Some 0%Z) None None ∅))
    None None (Some (resources "10m" "16Mi" "100m" "64Mi")) None ∅.

(** The environment of the sidecar. *)
Definition guard_proxy_env (cfg : EnvelopeConfig) : list EnvVar :=
  let env :=
    match ec_guard_identity cfg with
    | Some identity => [mkEnvVar "GUARD_PROXY_IDENTITY" (Some identity) None]
    | None => []
    end ++
    match ec_guard cfg with Some guard => flat (gs_env guard) | None => [] end ++
    match ec_guard cfg ≫= gs_cloud_identity with Some identity => flat (ci_env identity) | None => [] end ++
    (if ec_dispatched cfg then
       [ annotation_env "CCTUI_DISPATCH_ID" ANNOTATION_DISPATCH_ID;
         annotation_env "CCTUI_DISPATCH_SERVER_URL" ANNOTATION_SERVER_URL ]
     else []) in
  List.filter (λ e, negb (ev_name e ==s GUARD_ENV_HUMAN_GATE)) env ++
  match ec_human_gate cfg with
  | Some gate => [mkEnvVar GUARD_ENV_HUMAN_GATE (Some (HumanGate_as_str gate)) None]
  | None => []
  end.

Definition guard_proxy_mounts (cfg : EnvelopeConfig) : list VolumeMount :=
  [ mount VOL_PROXY_POLICY "/var/run/guard-proxy" false;
    mount VOL_GUARD_PROXY_INJECT "/etc/guard-proxy" true;
    mount VOL_GUARD_PROXY_CA "/var/run/guard-proxy-ca" false;
    mount VOL_GUARD_PROXY_SA_TOKEN SA_TOKEN_DIR true ] ++
  (if ec_gpg cfg then [mount VOL_GPG_AGENT "/var/run/gpg-agent" false] else []) ++
  match ec_guard cfg ≫= gs_cloud_identity with Some identity => ci_volume_mounts identity | None => [] end.

Definition guard_proxy_container (cfg : EnvelopeConfig) : Container :=
  let env := guard_proxy_env cfg in
  let env_from :=
    mkEnvFrom (Some (mkConfigMapEnv CONFIGMAP_GUARD_PROXY_ENV (Some false))) ∅ ::
    match ec_guard cfg with Some guard => flat (gs_env_from guard) | None => [] end in
  mkContainer GUARD_PROXY_CONTAINER (Some (ec_sidecar_image cfg))
    (Some [ "cctui-guard-proxy-entrypoint"; "--mode=transparent"; "--listen=0.0.0.0:15001";
            "--health-listen=0.0.0.0:15002"; "--policy=/var/run/guard-proxy/policy.json" ]) None
    (match env with [] => None | _ => Some env end) (Some env_from)
    (Some (guard_proxy_security_context (ec_posture cfg))) (Some (guard_proxy_mounts cfg))
    (Some (mkProbe (Some "/health") 15002 (Some 2%Z) (Some 30%Z) ∅))
    (Some (resources "25m" "32Mi" "500m" "256Mi")) (Some "Always") ∅.

(** ** Injection *)

(** [push] the elements whose name no element has yet. *)
Definition push_missing {A} (name : A → string) (have wanted : list A) : list A :=
  foldl (λ l x, if existsb (λ y, name y ==s name x) l then l else l ++ [x]) have wanted.

Definition worker_mounts (cfg : EnvelopeConfig) : list VolumeMount :=
  List.filter (λ m, has_overlay (ec_posture cfg) || negb (vm_name m ==s VOL_OVERLAY))
    ([ mount VOL_HOME "/home/worker" false; mount VOL_OVERLAY "/overlay" false;
       mount VOL_GUARD_STATE "/var/run/workflow-guard" false;
       mount VOL_PROXY_POLICY "/var/run/guard-proxy" false;
       mount VOL_GUARD_PROXY_CA "/var/run/guard-proxy-ca" false ] ++
     if ec_gpg cfg then [mount VOL_GPG_AGENT "/var/run/gpg-agent" false] else []).

Definition sandbox_worker (cfg : EnvelopeConfig) (w : Container) : Container :=
  let env := flat (c_env w) in
  let env := if has_overlay (ec_posture cfg) then env
             else List.filter (λ e, negb (ev_name e ==s WARM_REPO_DIR_ENV)) env in
  let env := upsert_env env "WORKER_NET_MODE" "transparent-external" in
  let env := upsert_env env "NODE_EXTRA_CA_CERTS" "/var/run/guard-proxy-ca/ca.pem" in
  mkContainer (c_name w) (c_image w) (c_command w) (c_args w) (Some env) (c_env_from w)
    (Some (worker_security_context_with (ec_posture cfg) (ec_exec_interception cfg)))
    (Some (push_missing vm_name (flat (c_volume_mounts w)) (worker_mounts cfg)))
    (c_startup_probe w) (c_resources w) (c_restart_policy w) (c_rest w).

(** [iter_mut().find]: the first container of the name is changed. *)
Fixpoint sandbox_first (cfg : EnvelopeConfig) (l : list Container) : list Container :=
  match l with
  | [] => []
  | c :: l => if c_name c ==s ec_worker_container cfg then sandbox_worker cfg c :: l else c :: sandbox_first cfg l
  end.

Definition inject_security (s : option PodSecurityContext) : PodSecurityContext :=
  let s := default PodSecurityContext_default s in
  mkPodSecurity (match ps_fs_group s with None => Some FS_GROUP | g => g end) (ps_rest s).

Definition inject_spec (cfg : EnvelopeConfig) (s : PodSpec) : PodSpec :=
  mkPodSpec (sandbox_first cfg (sp_containers s))
    (Some (net_init_container cfg :: guard_proxy_container cfg :: flat (sp_init_containers s)))
    (Some (push_missing v_name (flat (sp_volumes s)) (envelope_volumes cfg)))
    (Some (inject_security (sp_security_context s))) (sp_host_pid s) (sp_host_ipc s) (sp_host_network s)
    (sp_automount_service_account_token s) (sp_enable_service_links s) (sp_service_account_name s)
    (sp_node_selector s) (sp_runtime_class_name s) (sp_affinity s) (sp_tolerations s)
    (sp_priority_class_name s) (sp_restart_policy s) (sp_image_pull_secrets s) (sp_rest s).

Definition inject (pod : Pod) (cfg : EnvelopeConfig) : Pod :=
  let m := p_metadata pod in
  mkPod (mkMeta (om_name m) (om_namespace m) (om_labels m)
           (Some (<[ANNOTATION_ENVELOPE_INJECTED := "true"]> (default ∅ (om_annotations m))))
           (om_uid m) (om_creation_timestamp m) (om_rest m))
    (Some (inject_spec cfg (default PodSpec_default (p_spec pod)))) (p_status pod).

(** ** The mutation *)

Class PodJson (J P : Type) := {
  to_value : Pod → result string J;
  patch_diff : J → J → P;
  patch_is_empty : P → bool;
}.

Inductive MutationOutcome (P : Type) := NotEligible | AlreadyInjected | Patch (patch : P).
Arguments NotEligible {_}.
Arguments AlreadyInjected {_}.
Arguments Patch {_} _.

Definition mutate_pod `{PodJson J P} (pod : Pod) (sidecar_image : string) (guard : option GuardSpec)
    (flags : ProfileFlags) : result string (MutationOutcome P) :=
  if negb (is_eligible pod) then Ok NotEligible
  else if is_injected pod then Ok AlreadyInjected
  else
    cfg ← from_pod pod sidecar_image guard flags;
    before ← map_err (String.append "serializing admitted pod: ") (to_value pod);
    after ← map_err (String.append "serializing injected pod: ") (to_value (inject pod cfg));
    let patch := patch_diff before after in
    if patch_is_empty patch then Ok NotEligible else Ok (Patch patch).

(** ** Facts: names *)

Lemma existsb_named {A} (name : A → string) l n : existsb (λ x, name x ==s n) l = true ↔ n ∈ name <$> l.
Proof.
  rewrite existsb_exists, list_elem_of_fmap. setoid_rewrite <-list_elem_of_In. setoid_rewrite String.eqb_eq.
  naive_solver.
Qed.

(** What is pushed comes after what was there, from the wanted elements, and
    in the end every wanted name is there. *)
Lemma push_missing_spec {A} (name : A → string) (wanted have : list A) :
  ∃ new, push_missing name have wanted = have ++ new ∧ new ⊆ wanted ∧
    (∀ x, x ∈ new → name x ∉ name <$> have) ∧
    (∀ x, x ∈ wanted → name x ∈ name <$> push_missing name have wanted).
Proof.
  unfold push_missing. revert have. induction wanted as [|x wanted IH]; intros have; cbn.
  - exists []. rewrite app_nil_r. set_solver.
  - destruct (existsb _ have) eqn:E.
    + destruct (IH have) as (new & Heq & Hsub & Hnew & Hall). exists new. rewrite Heq in *. apply existsb_named in E.
      split_and!; [done|set_solver|done|]. intros y [->|Hy]%elem_of_cons; [|by apply Hall]. set_solver.
    + destruct (IH (have ++ [x])) as (new & Heq & Hsub & Hnew & Hall). exists (x :: new). rewrite Heq in *.
      assert (name x ∉ name <$> have) by (rewrite <-existsb_named; by rewrite E).
      split_and!; [by rewrite <-app_assoc|set_solver| |].
      * intros y [->|Hy]%elem_of_cons; [done|]. specialize (Hnew y Hy). set_solver.
      * intros y [->|Hy]%elem_of_cons; [set_solver|]. apply Hall. done.
Qed.

Lemma push_missing_names {A} (name : A → string) (have wanted : list A) n :
  n ∈ name <$> push_missing name have wanted ↔ n ∈ name <$> have ∨ n ∈ name <$> wanted.
Proof.
  destruct (push_missing_spec name wanted have) as (new & Heq & Hsub & _ & Hall). split.
  - rewrite Heq. set_solver.
  - intros [Hn|(x & -> & Hx)%list_elem_of_fmap]; [|by apply Hall]. rewrite Heq. set_solver.
Qed.

Lemma push_missing_elem {A} (name : A → string) (have wanted : list A) x :
  x ∈ push_missing name have wanted → x ∈ have ∨ x ∈ wanted ∧ name x ∉ name <$> have.
Proof.
  destruct (push_missing_spec name wanted have) as (new & -> & Hsub & Hnew & _). rewrite elem_of_app.
  intros [?|Hx]; [by left|right]. split; [by apply Hsub|by apply Hnew].
Qed.

(** ** Facts: environments *)

(** The value a container sees: the last entry of a name wins. *)
Definition env_lookup (env : list EnvVar) (name : string) : option EnvVar :=
  last (List.filter (λ e, ev_name e ==s name) env).

Lemma upsert_env_names env name value :
  NoDup (ev_name <$> env) → NoDup (ev_name <$> upsert_env env name value).
Proof.
  induction env as [|e env IH]; cbn; [intros _; apply NoDup_singleton|]. intros [Hn Hd]%NoDup_cons.
  destruct (String.eqb_spec (ev_name e) name) as [<-|Hne]; cbn; [by apply NoDup_cons|].
  apply NoDup_cons. split; [|by apply IH]. clear IH Hd. revert Hn. induction env as [|x env IH]; cbn; [set_solver|].
  destruct (ev_name x ==s name) eqn:Ex; cbn; [done|]. set_solver.
Qed.

Lemma upsert_env_elem env name value e :
  e ∈ upsert_env env name value → e ∈ env ∨ e = mkEnvVar name (Some value) None.
Proof.
  induction env as [|x env IH]; cbn; [set_solver|]. destruct (String.eqb_spec (ev_name x) name) as [<-|]; set_solver.
Qed.

Lemma filter_name_nil env name :
  name ∉ ev_name <$> env → List.filter (λ e, ev_name e ==s name) env = [].
Proof.
  induction env as [|x env IH]; cbn; [done|]. intros [Hne Hn]%not_elem_of_cons.
  destruct (String.eqb_spec (ev_name x) name); [congruence|]. by apply IH.
Qed.

(** An entry that was at most once in the environment has the new value. *)
Lemma env_lookup_upsert env name value :
  NoDup (ev_name <$> env) → env_lookup (upsert_env env name value) name = Some (mkEnvVar name (Some value) None).
Proof.
  unfold env_lookup. induction env as [|x env IH]; intros Hd; cbn.
  - by rewrite String.eqb_refl.
  - apply NoDup_cons in Hd as [Hn Hd]. destruct (String.eqb_spec (ev_name x) name) as [<-|Hne]; cbn.
    + by rewrite String.eqb_refl, filter_name_nil by done.
    + destruct (String.eqb_spec (ev_name x) name); [done|]. by apply IH.
Qed.

Lemma env_lookup_upsert_ne env name value n :
  n ≠ name → env_lookup (upsert_env env name value) n = env_lookup env n.
Proof.
  intros Hne. unfold env_lookup. f_equal. induction env as [|x env IH]; cbn.
  - by destruct (String.eqb_spec name n).
  - destruct (String.eqb_spec (ev_name x) name) as [<-|]; cbn; [|by rewrite IH].
    destruct (String.eqb_spec (ev_name x) n); [congruence|done].
Qed.

Lemma NoDup_filter_names (f : EnvVar → bool) env : NoDup (ev_name <$> env) → NoDup (ev_name <$> List.filter f env).
Proof.
  induction env as [|x env IH]; cbn; [done|]. intros [Hn Hd]%NoDup_cons. destruct (f x); cbn; [|by apply IH].
  apply NoDup_cons. split; [|by apply IH]. contradict Hn. clear -Hn. revert Hn.
  induction env as [|y env IH]; cbn; [done|]. destruct (f y); set_solver.
Qed.

(** ** Facts: the worker *)

Lemma sandbox_first_spec cfg l :
  (∀ c, c ∈ l → c_name c ≠ ec_worker_container cfg) ∧ sandbox_first cfg l = l ∨
  ∃ pre w post, l = pre ++ w :: post ∧ c_name w = ec_worker_container cfg ∧
    (∀ c, c ∈ pre → c_name c ≠ ec_worker_container cfg) ∧ sandbox_first cfg l = pre ++ sandbox_worker cfg w :: post.
Proof.
  induction l as [|c l IH]; cbn; [left; set_solver|].
  destruct (String.eqb_spec (c_name c) (ec_worker_container cfg)) as [He|Hne].
  - right. exists [], c, l. set_solver.
  - destruct IH as [[Hn Heq]|(pre & w & post & -> & Hw & Hn & Heq)].
    + left. rewrite Heq. set_solver.
    + right. exists (c :: pre), w, post. rewrite Heq. split_and!; [done|done|set_solver|done].
Qed.

Lemma sandbox_first_names cfg l : c_name <$> sandbox_first cfg l = c_name <$> l.
Proof. induction l as [|c l IH]; cbn; [done|]. destruct (c_name c ==s _); cbn; [done|by rewrite IH]. Qed.

(** The mounts the worker may get from the envelope. *)
Lemma worker_mounts_names cfg n :
  n ∈ vm_name <$> worker_mounts cfg ↔
  n ∈ worker_envelope_mounts (ec_posture cfg) ∨ ec_gpg cfg = true ∧ n = VOL_GPG_AGENT.
Proof.
  unfold worker_mounts, worker_envelope_mounts. destruct (ec_posture cfg), (ec_gpg cfg); cbn; set_solver.
Qed.

(** The volumes that hold the proxy's own credentials. *)
Definition proxy_only : list string := [VOL_GUARD_PROXY_INJECT; VOL_GUARD_PROXY_SA_TOKEN].

Lemma proxy_only_not_mounted cfg n : n ∈ proxy_only → n ∉ vm_name <$> worker_mounts cfg.
Proof. intros Hn. rewrite worker_mounts_names. unfold proxy_only in Hn. destruct (ec_posture cfg); set_solver. Qed.

(** Injection puts the network set-up and the guard proxy before every other
    init container and changes no container but the first of the worker's
    name.  That one gets the security context of its posture, the proxied
    network mode, and no mount of the proxy's credentials that it did not
    have. *)
Theorem inject_sandboxes pod cfg spec pre w post :
  p_spec pod = Some spec → sp_containers spec = pre ++ w :: post →
  c_name w = ec_worker_container cfg → (∀ c, c ∈ pre → c_name c ≠ ec_worker_container cfg) →
  NoDup (ev_name <$> flat (c_env w)) →
  ∃ spec' w', p_spec (inject pod cfg) = Some spec' ∧
    sp_init_containers spec' =
      Some (net_init_container cfg :: guard_proxy_container cfg :: flat (sp_init_containers spec)) ∧
    sp_containers spec' = pre ++ w' :: post ∧ c_name w' = c_name w ∧
    c_security_context w' = Some (worker_security_context_with (ec_posture cfg) (ec_exec_interception cfg)) ∧
    ev_value <$> env_lookup (flat (c_env w')) "WORKER_NET_MODE" = Some (Some "transparent-external") ∧
    (∀ m, m ∈ flat (c_volume_mounts w') → vm_name m ∈ proxy_only → m ∈ flat (c_volume_mounts w)).
Proof.
  intros Hspec Hc Hw Hpre Hd. unfold inject. rewrite Hspec. cbn [p_spec default].
  exists (inject_spec cfg spec), (sandbox_worker cfg w). split_and!; try done.
  - cbn. rewrite Hc. clear -Hw Hpre. induction pre as [|c pre IH]; cbn.
    + by rewrite Hw, String.eqb_refl.
    + destruct (String.eqb_spec (c_name c) (ec_worker_container cfg)) as [He|]; [|rewrite IH; set_solver].
      exfalso. apply (Hpre c); [left|done].
  - unfold sandbox_worker. cbv zeta. cbn [c_env]. rewrite flat_some, env_lookup_upsert_ne by done. rewrite env_lookup_upsert; [done|].
    destruct (has_overlay _); [done|by apply NoDup_filter_names].
  - intros m Hm Hn. cbn in Hm. apply push_missing_elem in Hm as [?|[Hm _]]; [done|].
    exfalso. apply (proxy_only_not_mounted cfg (vm_name m)); [done|]. apply list_elem_of_fmap. by exists m.
Qed.

(** The gate the proxy reads is the profile's, however often the guard
    settings name the variable. *)
Lemma guard_gate_exact cfg :
  List.filter (λ e, ev_name e ==s GUARD_ENV_HUMAN_GATE) (flat (c_env (guard_proxy_container cfg))) =
  match ec_human_gate cfg with
  | Some gate => [mkEnvVar GUARD_ENV_HUMAN_GATE (Some (HumanGate_as_str gate)) None]
  | None => []
  end.
Proof.
  assert (∀ env, List.filter (λ e, ev_name e ==s GUARD_ENV_HUMAN_GATE)
      (List.filter (λ e, negb (ev_name e ==s GUARD_ENV_HUMAN_GATE)) env) = []) as Hf.
  { induction env as [|x env IH]; [done|]. cbn [List.filter]. destruct (ev_name x ==s _) eqn:E; cbn [negb]; [done|].
    cbn [List.filter]. by rewrite E. }
  assert (flat (c_env (guard_proxy_container cfg)) = guard_proxy_env cfg) as ->.
  { unfold guard_proxy_container. cbn [c_env]. by destruct (guard_proxy_env cfg). }
  unfold guard_proxy_env. cbv zeta. rewrite List.filter_app, Hf. by destruct (ec_human_gate cfg).
Qed.

(** ** Facts: the mutation *)

(** What json_patch and serde promise: a difference turns one value into the
    other, an empty patch changes nothing, and a pod is read back from its
    JSON. *)
Class PodJsonLaws J P `{PodJson J P} := {
  patch_apply : P → J → option J;
  patch_diff_apply a b : patch_apply (patch_diff a b) a = Some b;
  patch_empty_apply p a : patch_is_empty p = true → patch_apply p a = Some a;
  from_value : J → option Pod;
  from_to_value pod j : to_value pod = Ok j → from_value j = Some pod;
}.

Lemma inject_marked pod cfg : marked (inject pod cfg) = true.
Proof. unfold marked, annotation. cbn. by rewrite lookup_insert_eq. Qed.

Lemma inject_profile_name pod cfg : profile_name (inject pod cfg) = profile_name pod.
Proof. done. Qed.

Section mutation.
Context {J P : Type} {pj : PodJson J P} {laws : PodJsonLaws J P}.
Variable sidecar_image : string.

(** Every pod is left alone, refused or sandboxed: it is left alone only if it
    names no profile or has the envelope already; a pod of an unknown posture
    is refused; and the patch of every other pod, applied to its JSON, gives a
    pod that is the injected one, which a second call leaves alone. *)
Theorem mutate_exact pod guard flags outcome :
  mutate_pod pod sidecar_image guard flags = Ok outcome →
  match outcome with
  | NotEligible => profile_name pod = None
  | AlreadyInjected => is_Some (profile_name pod) ∧ is_injected pod = true
  | Patch patch =>
    is_Some (profile_name pod) ∧ is_injected pod = false ∧
    ∃ cfg before after, from_pod pod sidecar_image guard flags = Ok cfg ∧ to_value pod = Ok before ∧
      patch_apply patch before = Some after ∧ from_value after = Some (inject pod cfg) ∧
      ∀ g f, mutate_pod (inject pod cfg) sidecar_image g f = Ok AlreadyInjected
  end.
Proof.
  unfold mutate_pod at 1, is_eligible. destruct (profile_name pod) as [name|] eqn:En.
  2: { rewrite bool_decide_eq_false_2 by (by intros []). by intros [= <-]. }
  rewrite bool_decide_eq_true_2 by done. cbn [negb]. destruct (is_injected pod) eqn:Ei; [by intros [= <-]|].
  intros (cfg & Hcfg & Hr)%bind_ok. apply bind_ok in Hr as (before & Hb & Hr). apply bind_ok in Hr as (after & Ha & Hr).
  assert (to_value pod = Ok before) as Hb' by (by destruct (to_value pod)).
  assert (to_value (inject pod cfg) = Ok after) as Ha' by (by destruct (to_value (inject pod cfg))).
  destruct (patch_is_empty _) eqn:Ee.
  - exfalso. apply (patch_empty_apply _ before) in Ee. rewrite patch_diff_apply in Ee. injection Ee as ->.
    apply from_to_value in Hb', Ha'. assert (inject pod cfg = pod) as Heq by congruence.
    pose proof (inject_marked pod cfg) as Hm. rewrite Heq in Hm. unfold is_injected in Ei. by rewrite Hm in Ei.
  - injection Hr as <-. split_and!; [done|done|]. exists cfg, before, after. split_and!; [done|done| |by apply from_to_value|].
    + apply patch_diff_apply.
    + intros g f. unfold mutate_pod, is_eligible. rewrite inject_profile_name, En, bool_decide_eq_true_2 by done.
      unfold is_injected. by rewrite inject_marked.
Qed.

End mutation.

(** Only the first of two entries of a name is changed, and a container sees
    the last. *)
Example duplicate_net_mode_survives :
  env_lookup (upsert_env [mkEnvVar "WORKER_NET_MODE" (Some "a") None; mkEnvVar "WORKER_NET_MODE" (Some "direct") None]
    "WORKER_NET_MODE" "transparent-external") "WORKER_NET_MODE" =
  Some (mkEnvVar "WORKER_NET_MODE" (Some "direct") None).
Proof. reflexivity. Qed.
