(* ===== verification/Validate.v ===== *)
(** * The validating webhook ([cctui-orchestrator/src/validate.rs])

    A profiled pod is admitted only if it has one worker container, carries
    the envelope, defeats no part of the sandbox and is what its profile and
    the envelope produce.  The source of profiles is a parameter. *)

From stdpp Require Import base decidable list gmap sets strings sorting.
From Stdlib Require Import Lia ZArith Bool Ascii String.
From S2P Require Import Prelude RustStr Kube Envelope.

Definition SECRET_REF_PREFIXES : list string := ["vault:"; "bao:"; "k8s:"; "aws-sm:"].
Definition GUARD_ENV_PREFIX : string := "GUARD_PROXY_".
Definition GUARD_ENV_IDENTITY : string := "GUARD_PROXY_IDENTITY".
Definition GUARD_ENV_ALLOW_PRIVATE_IPS : string := "GUARD_PROXY_ALLOW_PRIVATE_IPS".
Definition GUARD_ENV_PRIVATE_ALLOW : string := "GUARD_PROXY_PRIVATE_ALLOW".
Definition APPARMOR_ANNOTATION_PREFIX : string := "container.apparmor.security.beta.kubernetes.io/".
Definition EXPOSURE_UNDECLARED : string := "exposure undeclared".

Definition ENVELOPE_VOLUMES : list string :=
  [ VOL_HOME; VOL_OVERLAY; VOL_GUARD_STATE; VOL_PROXY_POLICY; VOL_GUARD_PROXY_INJECT; VOL_GUARD_PROXY_CA;
    VOL_GUARD_PROXY_SA_TOKEN; VOL_GPG_AGENT ].

Inductive Decision := Allow | Deny (message : string).

(** [ProfileSource::get]. *)
Class ProfileSource := profile_get : string → string → result string (option WorkerProfileSpec).

(** Refuse with a message when a condition holds. *)
Definition deny_if (b : bool) (message : string) : result string unit := if b then Err message else Ok ().

(** The first element of a list that a function refuses. *)
Definition check_each {A} (f : A → result string unit) (l : list A) : result string unit := try_fold (λ _ x, f x) () l.

(** Sets of names: the first name of a [BTreeSet]. *)
Definition first_name (s : gset string) : option string :=
  fst <$> head (btree_str_iter (gset_to_gmap () s)).

(** ** Reading a pod *)

Definition worker_container_name (pod : Pod) : string :=
  default DEFAULT_WORKER_CONTAINER (annotation (p_metadata pod) ANNOTATION_WORKER_CONTAINER).

Definition mount_names (c : Container) : list string := vm_name <$> flat (c_volume_mounts c).

Definition added_caps (c : Container) : option (list string) :=
  (c_security_context c ≫= sc_capabilities) ≫= cp_add.

(** ** Structure and sandbox *)

Definition check_structure (pod : Pod) (spec : PodSpec) (worker_name : string) : result string Container :=
  match List.filter (λ c, c_name c ==s worker_name) (sp_containers spec) with
  | [] => Err ("profiled pod names no `" ++s worker_name ++s
               "` worker container (the `cctui.dev/worker-container` convention)")
  | [w] =>
    if marked pod then Ok w
    else Err ("profiled pod is missing the `" ++s ANNOTATION_ENVELOPE_INJECTED ++s ": " ++s
              String dquote ("true" ++s String dquote
              "` marker — the mutating webhook did not inject the envelope; refusing to admit an unsandboxed worker"))
  | ws => Err ("profiled pod has " ++s nat_to_string (List.length ws) ++s " containers named `" ++s worker_name ++s
               "`; exactly one worker is required")
  end.

(** [{:?}] of a list of names without special characters. *)
Definition debug_names (l : list string) : string :=
  "[" ++s join ", " ((λ s, String dquote (s ++s String dquote "")) <$> l) ++s "]".

Definition exec_cap (posture : Posture) (c : string) : bool :=
  bool_decide (posture = Root) && (c ==s EXEC_INTERCEPTION_CAP).

Definition check_context (sc : SecurityContext) (worker_name : string) (posture : Posture) : result string unit :=
  _ ← deny_if (bool_decide (sc_privileged sc = Some true))
        ("worker container `" ++s worker_name ++s "` is privileged: true — a privileged worker escapes the sandbox");
  _ ← deny_if (bool_decide (sc_run_as_user sc = Some PROXY_UID))
        ("worker container `" ++s worker_name ++s
         "` runs as uid 1337 — that is the guard-proxy identity the worker must never assume");
  match sc_capabilities sc ≫= cp_add with
  | None => Ok ()
  | Some add =>
    let sanctioned := worker_added_caps posture in
    match List.find (λ c, negb (existsb (String.eqb c) sanctioned) && negb (exec_cap posture c)) add with
    | Some extra =>
      Err ("worker container `" ++s worker_name ++s "` adds capability `" ++s extra ++s
           "` beyond the sanctioned envelope set " ++s debug_names sanctioned ++s " of posture " ++s
           Posture_as_str posture)
    | None => Ok ()
    end
  end.

Definition host_path_vols (spec : PodSpec) : gset string :=
  list_to_set (v_name <$> List.filter (λ v, bool_decide (is_Some (v_host_path v))) (flat (sp_volumes spec))).

Definition check_sandbox (spec : PodSpec) (worker : Container) (worker_name : string) (posture : Posture) : result string unit :=
  _ ← deny_if (bool_decide (sp_host_pid spec = Some true)) "pod sets hostPID: true — breaks worker isolation";
  _ ← deny_if (bool_decide (sp_host_ipc spec = Some true)) "pod sets hostIPC: true — breaks worker isolation";
  _ ← deny_if (bool_decide (sp_host_network spec = Some true))
        "pod sets hostNetwork: true — worker egress must go through the guard-proxy";
  _ ← match c_security_context worker with
      | Some sc => check_context sc worker_name posture
      | None => Ok ()
      end;
  match List.find (λ n, bool_decide (n ∈ host_path_vols spec)) (mount_names worker) with
  | Some n =>
    Err ("worker container `" ++s worker_name ++s "` mounts hostPath volume `" ++s n ++s
         "` — host paths must not reach the worker")
  | None => Ok ()
  end.

(** ** Posture *)

Definition annotated_posture (m : ObjectMeta) : result string Posture :=
  let value := annotation m ANNOTATION_POSTURE in
  ok_or (from_annotation value) (posture_message value).

Definition check_posture_annotation (m : ObjectMeta) (profile : WorkerProfileSpec) : result string unit :=
  have ← annotated_posture m;
  let want := profile_posture profile in
  deny_if (negb (bool_decide (have = want)))
    ("pod was rendered for posture `" ++s Posture_as_str have ++s "` but the profile's posture is `" ++s
     Posture_as_str want ++s "` — it was built before the profile changed").

Definition check_unprivileged (c : Container) : result string unit :=
  match c_security_context c with
  | None => Ok ()
  | Some sc =>
    let name := c_name c in
    _ ← deny_if (bool_decide (sc_privileged sc = Some true))
          ("nonroot: container `" ++s name ++s
           "` is privileged: true — net-init is the only privileged container");
    _ ← match (sc_capabilities sc ≫= cp_add) ≫= head with
        | Some cap => Err ("nonroot: container `" ++s name ++s "` adds capability `" ++s cap ++s
                           "` — net-init is the only container with added capabilities")
        | None => Ok ()
        end;
    deny_if (bool_decide (sc_run_as_user sc = Some 0%Z))
      ("nonroot: container `" ++s name ++s
       "` sets runAsUser: 0 — net-init is the only container that runs as root")
  end.

Definition check_no_overlay (p : WorkerProfileSpec) : result string unit :=
  _ ← deny_if (existsb (λ e, ev_name e ==s WARM_REPO_DIR_ENV) (flat (pr_env p)))
        ("nonroot: env `" ++s WARM_REPO_DIR_ENV ++s
         "` selects the overlayfs warm cache, which needs `SYS_ADMIN` — bake the warm repo into the image (`/workspace/.warm-baked`) instead, or use posture root");
  _ ← deny_if (existsb (λ v, v_name v ==s VOL_OVERLAY) (flat (pr_volumes p)))
        ("nonroot: volume `" ++s VOL_OVERLAY ++s
         "` is the root posture's overlay emptyDir — nonroot has no overlay");
  match List.find (λ m, (vm_name m ==s VOL_OVERLAY) ||
                        (trim_end_matches (Ascii.eqb "/"%char) (vm_mount_path m) ==s "/overlay"))
          (flat (pr_volume_mounts p)) with
  | Some m => Err ("nonroot: volumeMount `" ++s vm_name m ++s "` at `" ++s vm_mount_path m ++s
                   "` is the root posture's overlay — nonroot has no overlay")
  | None => Ok ()
  end.

Definition check_posture (p : WorkerProfileSpec) : result string unit :=
  match profile_posture p with
  | Root => Ok ()
  | Nonroot =>
    _ ← deny_if (exec_interception p)
          ("nonroot: env `" ++s GUARD_EXEC_ENV ++s "=1` turns on exec interception, which needs `" ++s
           EXEC_INTERCEPTION_CAP ++s
           "` in cctui-guard and a uid 1000 worker cannot hold it — use posture root or drop the env");
    _ ← check_no_overlay p;
    check_each check_unprivileged (flat (pr_init_containers p) ++ flat (pr_containers p))
  end.

Definition nonroot_violation (sc : option SecurityContext) : option string :=
  match sc with
  | None => Some "no securityContext"
  | Some sc =>
    let keeps_capabilities :=
      negb (existsb (String.eqb "ALL") (flat (sc_capabilities sc ≫= cp_drop))) in
    if negb (bool_decide (sc_run_as_user sc = Some WORKER_UID)) then Some "runAsUser must be 1000"
    else if negb (bool_decide (sc_run_as_group sc = Some WORKER_UID)) then Some "runAsGroup must be 1000"
    else if negb (bool_decide (sc_run_as_non_root sc = Some true)) then Some "runAsNonRoot must be true"
    else if negb (bool_decide (sc_allow_privilege_escalation sc = Some false)) then
      Some "allowPrivilegeEscalation must be false"
    else if keeps_capabilities then Some "capabilities must drop ALL"
    else if negb (bool_decide (cf_type <$> sc_seccomp_profile sc = Some "RuntimeDefault")) then
      Some "seccompProfile must be RuntimeDefault"
    else if bool_decide (cf_type <$> sc_app_armor_profile sc = Some "Unconfined") then
      Some "appArmorProfile must not be Unconfined"
    else if bool_decide (is_Some (sc_se_linux_options sc)) then Some "seLinuxOptions must be unset"
    else if match sc_proc_mount sc with Some m => negb (m ==s "Default") | None => false end then
      Some "procMount must be Default"
    else None
  end.

Definition check_nonroot_worker (worker : Container) (worker_name : string) (m : ObjectMeta) : result string unit :=
  let apparmor_key := APPARMOR_ANNOTATION_PREFIX ++s worker_name in
  _ ← deny_if (match annotation m apparmor_key with
               | Some v => eq_ignore_ascii_case v "unconfined" | None => false end)
        ("pod annotation `" ++s apparmor_key ++s ": unconfined` lifts AppArmor from the nonroot worker");
  match nonroot_violation (c_security_context worker) with
  | Some why => Err ("worker container `" ++s worker_name ++s
                     "` securityContext is not the nonroot envelope's: " ++s why)
  | None => Ok ()
  end.

Definition check_exec_capability (worker : Container) (worker_name : string) (p : WorkerProfileSpec) : result string unit :=
  let adds_ptrace := existsb (String.eqb EXEC_INTERCEPTION_CAP) (flat (added_caps worker)) in
  deny_if (adds_ptrace && negb (exec_interception p))
    ("worker container `" ++s worker_name ++s "` adds capability `" ++s EXEC_INTERCEPTION_CAP ++s
     "`, which only a profile opted into exec interception (env `" ++s GUARD_EXEC_ENV ++s "=1`) may hold").

(** ** Guard settings, pod settings, exposure *)

Definition widens_private_egress (env : EnvVar) : bool :=
  let value := trim (default "" (ev_value env)) in
  if ev_name env ==s GUARD_ENV_ALLOW_PRIVATE_IPS then
    bool_decide (is_Some (ev_value_from env)) ||
    existsb (String.eqb (to_ascii_lowercase value)) ["1"; "true"; "yes"; "on"]
  else if ev_name env ==s GUARD_ENV_PRIVATE_ALLOW then
    bool_decide (is_Some (ev_value_from env)) || negb (is_empty value)
  else false.

Definition check_guard_env (guard : GuardSpec) (env : EnvVar) : result string unit :=
  _ ← deny_if (negb (starts_with GUARD_ENV_PREFIX (ev_name env)))
        ("env `" ++s ev_name env ++s "` is not a `" ++s GUARD_ENV_PREFIX ++s
         "*` setting — spec.guard only configures the guard-proxy");
  _ ← deny_if (ev_name env ==s GUARD_ENV_IDENTITY)
        ("env `" ++s GUARD_ENV_IDENTITY ++s "` is set per dispatch (`cctui.dev/guard-identity`), not per profile");
  _ ← deny_if (ev_name env ==s GUARD_ENV_HUMAN_GATE)
        ("env `" ++s GUARD_ENV_HUMAN_GATE ++s "` is set by spec.humanGate");
  deny_if (negb (gs_allow_private_egress guard) && widens_private_egress env)
    ("env `" ++s ev_name env ++s
     "` widens private egress — set spec.guard.allowPrivateEgress: true to make that explicit").

Definition check_guard (guard : GuardSpec) : result string unit :=
  _ ← deny_if (match gs_cloud_identity guard with Some c => bool_decide (ci_volume_mounts c = []) | None => false end)
        "cloudIdentity names no volumeMounts";
  _ ← match List.find (λ n, existsb (String.eqb n) ENVELOPE_VOLUMES) (identity_volumes guard) with
      | Some name => Err ("cloudIdentity volume `" ++s name ++s "` is an envelope volume")
      | None => Ok ()
      end;
  check_each (check_guard_env guard) (flat (gs_env guard)).

(** The keys of an optional map, in order. *)
Definition map_keys (m : option (gmap string string)) : list string :=
  fst <$> btree_str_iter (default ∅ m).

Definition reserved (key : string) : bool := existsb (λ p, starts_with p key) RESERVED_POD_KEY_PREFIXES.

Definition check_pod_settings (s : WorkerPodSpec) : result string unit :=
  _ ← match List.find (λ k, reserved k || existsb (String.eqb k) RESERVED_POD_LABELS) (map_keys (wp_labels s)) with
      | Some key => Err ("label `" ++s key ++s "` is managed by cctui or the Job controller")
      | None => Ok ()
      end;
  match List.find reserved (map_keys (wp_annotations s)) with
  | Some key => Err ("annotation `" ++s key ++s "` is managed by cctui or the Job controller")
  | None => Ok ()
  end.

Definition check_exposure (p : WorkerProfileSpec) : result string bool :=
  match pr_exposure p, pr_human_gate p with
  | None, _ => Ok true
  | Some e, None =>
    if is_full e then
      Err "untrustedInput, sensitiveData and outward are all true with no spec.humanGate; an unattended agent may hold at most two of the three: set humanGate (noPush or draftPrOnly) or drop one exposure"
    else Ok false
  | Some e, Some OutwardHeldForApproval =>
    if is_full e then
      Err "humanGate outwardHeldForApproval is not enforced yet, so it cannot bound untrustedInput, sensitiveData and outward together: use noPush or draftPrOnly, or drop one exposure"
    else Ok false
  | _, _ => Ok false
  end.

(** ** Conformance of the template *)

Definition or_none (o : option string) : string := default "<none>" o.

Definition check_priority_class (spec : PodSpec) (p : WorkerProfileSpec) (admitted_pod : bool) : result string unit :=
  let want := profile_priority_class p in
  if bool_decide (sp_priority_class_name spec = want) || (admitted_pod && bool_decide (want = None)) then Ok ()
  else Err ("priorityClassName `" ++s or_none (sp_priority_class_name spec) ++s
            "` does not match the profile's `" ++s or_none want ++s "`").

Definition check_worker_env_from (worker : Container) (worker_name : string) (p : WorkerProfileSpec) :
    result string unit :=
  deny_if (negb (bool_decide (c_env_from worker = pr_env_from p)))
    ("worker container `" ++s worker_name ++s
     "` envFrom does not match the profile — the dispatch must not add env sources to the worker").

Definition check_common_template_conformance (spec : PodSpec) (worker : Container) (p : WorkerProfileSpec) :
    result string unit :=
  _ ← deny_if (negb (bool_decide (sp_automount_service_account_token spec = Some false)))
        "pod does not set automountServiceAccountToken: false — the worker must not receive the service-account token (the guard-proxy gets its own projection)";
  _ ← deny_if (negb (bool_decide (sp_enable_service_links spec = Some false)))
        "pod does not set enableServiceLinks: false";
  _ ← deny_if (negb (bool_decide (sp_service_account_name spec = pr_service_account_name p)))
        ("serviceAccountName `" ++s or_none (sp_service_account_name spec) ++s "` does not match the profile's `" ++s
         or_none (pr_service_account_name p) ++s
         "` — the dispatch must not override the worker identity / secret scope");
  _ ← deny_if (negb (c_name worker ==s profile_worker_name p))
        ("worker container is named `" ++s c_name worker ++s "` but the profile declares `" ++s
         profile_worker_name p ++s "`");
  _ ← deny_if (negb (bool_decide (c_image worker = Some (pr_image p))))
        ("worker image `" ++s or_none (c_image worker) ++s "` does not match the profile's `" ++s pr_image p ++s "`");
  _ ← deny_if (negb (bool_decide (c_command worker = pr_command p))) "worker command does not match the profile";
  _ ← deny_if (negb (bool_decide (c_args worker = pr_args p))) "worker args do not match the profile";
  _ ← deny_if (negb (bool_decide (sp_node_selector spec = pr_node_selector p)))
        "nodeSelector does not match the profile";
  _ ← deny_if (negb (bool_decide (sp_runtime_class_name spec = pr_runtime_class_name p)))
        "runtimeClassName does not match the profile";
  check_worker_env_from worker (c_name worker) p.

(** Every requirement of [allowed] is one of [term]. *)
Definition requirements_in (have want : option (list NodeSelectorRequirement)) : bool :=
  forallb (λ w, existsb (λ h, bool_decide (h = w)) (flat have)) (flat want).

Definition term_implies (term allowed : NodeSelectorTerm) : bool :=
  requirements_in (nt_match_expressions term) (nt_match_expressions allowed) &&
  requirements_in (nt_match_fields term) (nt_match_fields allowed).

Definition narrows_affinity (have want : option Affinity) : bool :=
  let have := default Affinity_default have in
  let want := default Affinity_default want in
  if negb (bool_decide (af_pod_affinity have = af_pod_affinity want)) ||
     negb (bool_decide (af_pod_anti_affinity have = af_pod_anti_affinity want)) then false
  else
    let have := default NodeAffinity_default (af_node_affinity have) in
    let want := default NodeAffinity_default (af_node_affinity want) in
    if negb (bool_decide (na_preferred have = na_preferred want)) then false
    else
      match na_required have, na_required want with
      | _, None => true
      | None, Some _ => false
      | Some have, Some want => forallb (λ term, existsb (term_implies term) want) have
      end.

Definition check_affinity (spec : PodSpec) (p : WorkerProfileSpec) (admitted_pod : bool) : result string unit :=
  if bool_decide (sp_affinity spec = pr_affinity p) ||
     (admitted_pod && narrows_affinity (sp_affinity spec) (pr_affinity p)) then Ok ()
  else Err "affinity does not match the profile".

Definition same_toleration (have want : Toleration) : bool :=
  (default "" (tl_key have) ==s default "" (tl_key want)) &&
  (default "Equal" (tl_operator have) ==s default "Equal" (tl_operator want)) &&
  (default "" (tl_value have) ==s default "" (tl_value want)) &&
  (default "" (tl_effect have) ==s default "" (tl_effect want)) &&
  bool_decide (tl_toleration_seconds have = tl_toleration_seconds want).

(** The profile already covers the taint. *)
Definition covers (t expected : Toleration) : bool :=
  (is_empty (default "" (tl_key expected)) || bool_decide (tl_key expected = tl_key t)) &&
  (is_empty (default "" (tl_effect expected)) || bool_decide (tl_effect expected = tl_effect t)).

Definition standard_admission_toleration (t : Toleration) (declared : list Toleration) : bool :=
  if existsb (covers t) declared then false
  else if negb (bool_decide (tl_operator t = Some "Exists")) || negb (is_empty (default "" (tl_value t))) then false
  else
    match tl_key t, tl_effect t with
    | Some key, Some effect =>
      if ((key ==s "node.kubernetes.io/not-ready") || (key ==s "node.kubernetes.io/unreachable")) &&
         (effect ==s "NoExecute") then
        match tl_toleration_seconds t with Some seconds => (0 <=? seconds)%Z | None => false end
      else if (key ==s "node.kubernetes.io/memory-pressure") && (effect ==s "NoSchedule") then
        bool_decide (tl_toleration_seconds t = None)
      else false
    | _, _ => false
    end.

Definition check_tolerations (spec : PodSpec) (p : WorkerProfileSpec) (admitted_pod : bool) : result string unit :=
  let have := flat (sp_tolerations spec) in
  let want := flat (pr_tolerations p) in
  _ ← deny_if (existsb (λ e, negb (existsb (λ a, same_toleration a e) have)) want)
        "tolerations are missing an entry from the profile";
  deny_if (existsb (λ a, negb (existsb (same_toleration a) want ||
                               (admitted_pod && standard_admission_toleration a want))) have)
    "tolerations include an entry not allowed by the profile".

Definition check_template_conformance (spec : PodSpec) (worker : Container) (p : WorkerProfileSpec) :
    result string unit :=
  _ ← check_common_template_conformance spec worker p;
  _ ← check_affinity spec p false;
  _ ← check_tolerations spec p false;
  check_priority_class spec p false.

(** The metadata of a template; none has no annotation. *)
Definition template_meta (t : PodTemplateSpec) : ObjectMeta :=
  default ObjectMeta_default (pt_metadata t).

Definition template_drift (t : PodTemplateSpec) (p : WorkerProfileSpec) : option string :=
  spec ← pt_spec t;
  let worker_name := default DEFAULT_WORKER_CONTAINER (annotation (template_meta t) ANNOTATION_WORKER_CONTAINER) in
  worker ← List.find (λ c, c_name c ==s worker_name) (sp_containers spec);
  match (_ ← check_template_conformance spec worker p; check_posture_annotation (template_meta t) p) with
  | Ok _ => None
  | Err e => Some e
  end.

(** ** Conformance of the names *)

Definition is_api_server_injected (name : string) : bool := starts_with "kube-api-access-" name.

Definition diff_names (kind : string) (want have : gset string) : result string unit :=
  match first_name (have ∖ want) with
  | Some extra => Err ("unexpected " ++s kind ++s " `" ++s extra ++s
                       "` — not part of the profile or the injected envelope (raw override rejected)")
  | None =>
    match first_name (want ∖ have) with
    | Some missing => Err ("expected " ++s kind ++s " `" ++s missing ++s "` is absent from the pod")
    | None => Ok ()
    end
  end.

Definition check_name_sets (spec : PodSpec) (worker_name : string) (p : WorkerProfileSpec) : result string unit :=
  _ ← diff_names "container" ({[worker_name]} ∪ list_to_set (c_name <$> flat (pr_containers p)))
        (list_to_set (c_name <$> sp_containers spec));
  diff_names "initContainer"
    ({[NET_INIT_CONTAINER; GUARD_PROXY_CONTAINER]} ∪ list_to_set (c_name <$> flat (pr_init_containers p)))
    (list_to_set (c_name <$> flat (sp_init_containers spec))).

Definition profile_identity (p : WorkerProfileSpec) : gset string :=
  match pr_guard p with Some g => list_to_set (identity_volumes g) | None => ∅ end.

Definition wanted_volumes (p : WorkerProfileSpec) : gset string :=
  let want : gset string := list_to_set ENVELOPE_VOLUMES ∖ {[VOL_GPG_AGENT]} in
  let want := if has_overlay (profile_posture p) then want else want ∖ {[VOL_OVERLAY]} in
  (if pr_gpg_signing p then {[VOL_GPG_AGENT]} ∪ want else want) ∪ list_to_set (v_name <$> flat (pr_volumes p)).

Definition check_volumes (spec : PodSpec) (p : WorkerProfileSpec) : result string unit :=
  diff_names "volume" (wanted_volumes p)
    (list_to_set (List.filter (λ n, negb (is_api_server_injected n) && negb (bool_decide (n ∈ profile_identity p)))
       (v_name <$> flat (sp_volumes spec)))).

Definition wanted_mounts (p : WorkerProfileSpec) : gset string :=
  list_to_set (worker_envelope_mounts (profile_posture p)) ∪ (if pr_gpg_signing p then {[VOL_GPG_AGENT]} else ∅) ∪
  list_to_set (vm_name <$> flat (pr_volume_mounts p)).

Definition check_worker_mounts (worker : Container) (worker_name : string) (p : WorkerProfileSpec) :
    result string unit :=
  let want := wanted_mounts p in
  let have : gset string :=
    list_to_set (List.filter (λ n, negb (is_api_server_injected n)) (mount_names worker)) in
  match first_name (have ∖ want) with
  | Some extra => Err ("worker container `" ++s worker_name ++s "` mounts `" ++s extra ++s
                       "` — not part of the profile or the injected envelope (raw override rejected)")
  | None =>
    match first_name (want ∖ have) with
    | Some missing => Err ("worker container `" ++s worker_name ++s "` is missing expected volumeMount `" ++s
                           missing ++s "`")
    | None => Ok ()
    end
  end.

(** ** Cloud identity *)

Definition token_only (s : VolumeProjection) : bool :=
  bool_decide (is_Some (vp_service_account_token s)) &&
  bool_decide (s = mkProjection (vp_service_account_token s) None None ∅).

Definition is_identity_token_source (v : Volume) : bool :=
  let projected_token :=
    match v_projected v ≫= pv_sources with
    | Some (s :: ss) => forallb token_only (s :: ss)
    | _ => false
    end in
  let read_only_csi := bool_decide ((v_csi v ≫= csi_read_only) = Some true) in
  let only_that_source := bool_decide (v = mkVolume (v_name v) None None (v_projected v) (v_csi v) None ∅) in
  (projected_token || read_only_csi) && only_that_source.

(** A mount of an identity volume, with the container that has it. *)
Definition identity_mount (identity : gset string) (c : Container) : option (string * string) :=
  (λ n, (c_name c, n)) <$> List.find (λ n, bool_decide (n ∈ identity)) (mount_names c).

Definition check_cloud_identity (spec : PodSpec) (p : WorkerProfileSpec) : result string unit :=
  let identity := profile_identity p in
  _ ← match List.find (λ v, bool_decide (v_name v ∈ identity) && negb (is_identity_token_source v))
              (flat (sp_volumes spec)) with
      | Some v => Err ("cloud identity volume `" ++s v_name v ++s
                       "` is not a projected service-account token or a read-only CSI volume")
      | None => Ok ()
      end;
  match find_map (identity_mount identity)
          (List.filter (λ c, negb (c_name c ==s GUARD_PROXY_CONTAINER))
             (sp_containers spec ++ flat (sp_init_containers spec))) with
  | Some (container, volume) =>
    Err ("container `" ++s container ++s "` mounts cloud identity volume `" ++s volume ++s "` — only `" ++s
         GUARD_PROXY_CONTAINER ++s "` may hold it; have the identity webhook skip `" ++s container ++s
         "` (e.g. `eks.amazonaws.com/skip-containers` in podAnnotations)")
  | None => Ok ()
  end.

(** ** The worker's environment *)

(** The profile declares the reference under the same name. *)
Definition declares (field : EnvVarSource → option KeySelector) (p : WorkerProfileSpec) (name : string)
    (k : KeySelector) : bool :=
  existsb (λ e, (ev_name e ==s name) &&
     match ev_value_from e ≫= field with
     | Some d => (ks_name d ==s ks_name k) && (ks_key d ==s ks_key k)
     | None => false
     end) (flat (pr_env p)).

Definition smuggled (p : WorkerProfileSpec) (env : EnvVar) : bool :=
  match ev_value_from env with
  | None => false
  | Some v =>
    match evs_secret_key_ref v, evs_config_map_key_ref v with
    | Some sk, _ => negb (declares evs_secret_key_ref p (ev_name env) sk)
    | None, Some ck => negb (declares evs_config_map_key_ref p (ev_name env) ck)
    | None, None => false
    end
  end.

Definition check_env_var (worker_name : string) (p : WorkerProfileSpec) (env : EnvVar) : result string unit :=
  _ ← deny_if (smuggled p env)
        ("worker env `" ++s ev_name env ++s
         "` uses a valueFrom reference not present in the profile — the dispatch must not mount cluster secrets into `" ++s
         worker_name ++s "`");
  match (value ← ev_value env; List.find (λ prefix, starts_with prefix value) SECRET_REF_PREFIXES) with
  | Some prefix =>
    Err ("worker env `" ++s ev_name env ++s "` is a secret-ref-shaped literal (`" ++s prefix ++s
         "…`) — secret refs are resolved by the guard-proxy, never passed through worker env")
  | None => Ok ()
  end.

Definition check_worker_env (worker : Container) (worker_name : string) (p : WorkerProfileSpec) :
    result string unit :=
  check_each (check_env_var worker_name p) (flat (c_env worker)).

Definition check_conformance (spec : PodSpec) (worker : Container) (worker_name : string) (p : WorkerProfileSpec) :
    result string unit :=
  _ ← check_common_template_conformance spec worker p;
  _ ← check_affinity spec p true;
  _ ← check_tolerations spec p true;
  _ ← check_priority_class spec p true;
  _ ← check_name_sets spec worker_name p;
  _ ← check_cloud_identity spec p;
  _ ← check_volumes spec p;
  _ ← check_worker_mounts worker worker_name p;
  check_worker_env worker worker_name p.

(** ** The review *)

(** What the profile itself has to satisfy. *)
Definition in_profile (name part : string) {A} (r : result string A) : result string A :=
  map_err (λ e, "WorkerProfile `" ++s name ++s "`" ++s part ++s ": " ++s e) r.

Definition validate_inner `{ProfileSource} (pod : Pod) (namespace : string) : result string bool :=
  let worker_name := worker_container_name pod in
  spec ← ok_or (p_spec pod) "profiled pod has no spec";
  worker ← check_structure pod spec worker_name;
  posture ← annotated_posture (p_metadata pod);
  _ ← check_sandbox spec worker worker_name posture;
  _ ← match posture with
      | Nonroot => check_nonroot_worker worker worker_name (p_metadata pod)
      | Root => Ok ()
      end;
  name ← ok_or (profile_name pod) "profiled pod missing profile label";
  found ← map_err (λ e, "cannot resolve WorkerProfile `" ++s name ++s "` in `" ++s namespace ++s "`: " ++s e ++s
                        " (denied fail-closed)") (profile_get namespace name);
  profile ← ok_or found ("WorkerProfile `" ++s name ++s "` not found in `" ++s namespace ++s
                         "` — refusing to admit a pod whose profile is missing");
  _ ← match pr_guard profile with Some g => in_profile name " spec.guard" (check_guard g) | None => Ok () end;
  _ ← match pr_pod profile with Some s => in_profile name " spec.pod" (check_pod_settings s) | None => Ok () end;
  _ ← in_profile name " spec.posture" (check_posture profile);
  _ ← in_profile name "" (check_exec_capability worker worker_name profile);
  undeclared ← in_profile name " spec.exposure" (check_exposure profile);
  _ ← check_posture_annotation (p_metadata pod) profile;
  _ ← check_conformance spec worker worker_name profile;
  Ok undeclared.

Record Verdict := mkVerdict { vd_decision : Decision; vd_warnings : list string; vd_exposure_undeclared : bool }.

Definition decided (d : Decision) : Verdict := mkVerdict d [] false.

Definition review `{ProfileSource} (pod : Pod) (namespace : string) : Verdict :=
  if negb (is_eligible pod) then decided Allow
  else
    match validate_inner pod namespace with
    | Ok false => decided Allow
    | Ok true =>
      mkVerdict Allow ["WorkerProfile `" ++s default "" (profile_name pod) ++s "`: " ++s EXPOSURE_UNDECLARED ++s
                       ", set spec.exposure"] true
    | Err message => decided (Deny message)
    end.

Definition validate `{ProfileSource} (pod : Pod) (namespace : string) : Decision :=
  vd_decision (review pod namespace).
