(* ===== verification/ValidateFacts.v ===== *)
(** * What the validating webhook admits

    Each check of [Validate] against a declarative condition, and the review
    against their conjunction. *)

From stdpp Require Import base decidable list gmap sets strings sorting.
From Stdlib Require Import Lia ZArith Bool Ascii String.
From S2P Require Import Prelude RustStr Kube Envelope Validate.

(** ** Checks as results *)

Lemma deny_if_ok b m : deny_if b m = Ok () ↔ b = false.
Proof. by destruct b. Qed.

Lemma bind_unit_ok {A} (r : result string unit) (k : result string A) a :
  (r ≫= λ _, k) = Ok a ↔ r = Ok () ∧ k = Ok a.
Proof. destruct r as [[]|]; cbn; naive_solver. Qed.

Lemma map_err_ok {A} (f : string → string) (r : result string A) a : map_err f r = Ok a ↔ r = Ok a.
Proof. destruct r; cbn; naive_solver. Qed.

Lemma ok_or_ok {A} (o : option A) (e : string) a : ok_or o e = Ok a ↔ o = Some a.
Proof. destruct o; cbn; naive_solver. Qed.

Lemma check_each_ok {A} (f : A → result string unit) l : check_each f l = Ok () ↔ Forall (λ x, f x = Ok ()) l.
Proof.
  unfold check_each. induction l as [|x l IH]; [cbn; split; [constructor|done]|].
  rewrite Forall_cons, <-IH. cbn. destruct (f x) as [[]|]; cbn; naive_solver.
Qed.

(** A search that denies what it finds. *)
Lemma find_none_ok {A} (f : A → bool) l (g : A → string) :
  match List.find f l with Some x => Err (g x) | None => Ok () end = Ok () ↔ Forall (λ x, f x = false) l.
Proof.
  induction l as [|x l IH]; cbn; [split; [constructor|done]|].
  rewrite Forall_cons, <-IH. destruct (f x); naive_solver.
Qed.

Lemma existsb_none {A} (f : A → bool) l : existsb f l = false ↔ Forall (λ x, f x = false) l.
Proof.
  induction l as [|x l IH]; cbn; [split; [constructor|done]|]. by rewrite orb_false_iff, Forall_cons, IH.
Qed.

Lemma existsb_in (x : string) l : existsb (String.eqb x) l = true ↔ x ∈ l.
Proof.
  rewrite existsb_exists. setoid_rewrite <-list_elem_of_In. setoid_rewrite String.eqb_eq. naive_solver.
Qed.

Lemma existsb_not_in (x : string) l : existsb (String.eqb x) l = false ↔ x ∉ l.
Proof. rewrite <-existsb_in. by destruct (existsb _ l). Qed.

Lemma first_name_None (s : gset string) : first_name s = None ↔ s = ∅.
Proof.
  unfold first_name. split.
  - intros Hn. destruct (btree_str_iter (gset_to_gmap () s)) as [|[k []] l] eqn:E; [|done].
    apply leibniz_equiv, elem_of_equiv_empty. intros x Hx.
    assert ((x, ()) ∈ btree_str_iter (gset_to_gmap () s)) as Hi.
    { apply elem_of_btree_str_iter. by apply lookup_gset_to_gmap_Some. }
    rewrite E in Hi. by apply not_elem_of_nil in Hi.
  - intros ->. done.
Qed.

Lemma first_name_Some (s : gset string) n : first_name s = Some n → n ∈ s.
Proof.
  unfold first_name. destruct (btree_str_iter (gset_to_gmap () s)) as [|[k []] l] eqn:E; [done|]. intros [= <-].
  assert ((k, ()) ∈ btree_str_iter (gset_to_gmap () s)) as Hi by (rewrite E; left).
  by apply elem_of_btree_str_iter, lookup_gset_to_gmap_Some in Hi as [? _].
Qed.

(** Two sets with no first difference are equal. *)
Lemma same_names_ok (want have : gset string) (f g : string → string) :
  match first_name (have ∖ want) with
  | Some x => Err (f x)
  | None => match first_name (want ∖ have) with Some x => Err (g x) | None => Ok () end
  end = Ok () ↔ have = want.
Proof.
  destruct (first_name (have ∖ want)) as [x|] eqn:E1.
  { split; [done|]. intros ->. apply first_name_Some in E1. set_solver. }
  apply first_name_None in E1. destruct (first_name (want ∖ have)) as [x|] eqn:E2.
  { split; [done|]. intros ->. apply first_name_Some in E2. set_solver. }
  apply first_name_None in E2. split; [|done]. intros _. apply leibniz_equiv. intros x.
  destruct (decide (x ∈ have)), (decide (x ∈ want)); set_solver.
Qed.

Lemma diff_names_ok kind want have : diff_names kind want have = Ok () ↔ have = want.
Proof. apply same_names_ok. Qed.

Lemma and_iff_both (A B C D : Prop) : (A ↔ C) → (B ↔ D) → A ∧ B ↔ C ∧ D.
Proof. tauto. Qed.

Lemma or_iff_both (A B C D : Prop) : (A ↔ C) → (B ↔ D) → A ∨ B ↔ C ∨ D.
Proof. tauto. Qed.

(** Rewrites a chain of checks that succeeds into its conditions. *)
Ltac checks :=
  repeat first
    [ rewrite bind_unit_ok | rewrite deny_if_ok | rewrite map_err_ok | rewrite check_each_ok
    | rewrite diff_names_ok | rewrite negb_false_iff | rewrite bool_decide_eq_true | rewrite bool_decide_eq_false
    | rewrite String.eqb_eq | rewrite String.eqb_neq ].

(** ** Sandbox *)

Record sandboxed (spec : PodSpec) (w : Container) (posture : Posture) : Prop := {
  sb_host : sp_host_pid spec ≠ Some true ∧ sp_host_ipc spec ≠ Some true ∧ sp_host_network spec ≠ Some true;
  sb_user : ∀ sc, c_security_context w = Some sc →
    sc_privileged sc ≠ Some true ∧ sc_run_as_user sc ≠ Some PROXY_UID;
  sb_caps : ∀ cap, cap ∈ flat (added_caps w) →
    cap ∈ worker_added_caps posture ∨ posture = Root ∧ cap = EXEC_INTERCEPTION_CAP;
  sb_host_paths : ∀ v m, v ∈ flat (sp_volumes spec) → is_Some (v_host_path v) →
    m ∈ flat (c_volume_mounts w) → vm_name m ≠ v_name v;
}.

Lemma caps_ok posture (add : option (list string)) (f : string → string) :
  match add with
  | None => Ok ()
  | Some add =>
    match List.find (λ c, negb (existsb (String.eqb c) (worker_added_caps posture)) && negb (exec_cap posture c)) add with
    | Some extra => Err (f extra)
    | None => Ok ()
    end
  end = Ok () ↔
  ∀ cap, cap ∈ flat add → cap ∈ worker_added_caps posture ∨ posture = Root ∧ cap = EXEC_INTERCEPTION_CAP.
Proof.
  destruct add as [add|]; cbn [flat default].
  - rewrite find_none_ok, Forall_forall. apply forall_proper; intros cap. unfold exec_cap.
    rewrite andb_false_iff, !negb_false_iff, existsb_in, andb_true_iff, bool_decide_eq_true, String.eqb_eq. done.
  - split; [|done]. intros _ cap []%not_elem_of_nil.
Qed.

Lemma host_paths_ok spec w (f : string → string) :
  match List.find (λ n, bool_decide (n ∈ host_path_vols spec)) (mount_names w) with
  | Some n => Err (f n)
  | None => Ok ()
  end = Ok () ↔
  ∀ v m, v ∈ flat (sp_volumes spec) → is_Some (v_host_path v) → m ∈ flat (c_volume_mounts w) → vm_name m ≠ v_name v.
Proof.
  rewrite find_none_ok, Forall_forall. unfold mount_names, host_path_vols. setoid_rewrite bool_decide_eq_false.
  setoid_rewrite elem_of_list_to_set. setoid_rewrite list_elem_of_fmap. setoid_rewrite list_elem_of_In.
  setoid_rewrite filter_In. setoid_rewrite bool_decide_eq_true. setoid_rewrite <-list_elem_of_In. naive_solver.
Qed.

Lemma check_sandbox_ok spec w name posture : check_sandbox spec w name posture = Ok () ↔ sandboxed spec w posture.
Proof.
  unfold check_sandbox. checks. rewrite host_paths_ok.
  assert (match c_security_context w with Some sc => check_context sc name posture | None => Ok () end = Ok () ↔
    (∀ sc, c_security_context w = Some sc → sc_privileged sc ≠ Some true ∧ sc_run_as_user sc ≠ Some PROXY_UID) ∧
    (∀ cap, cap ∈ flat (added_caps w) → cap ∈ worker_added_caps posture ∨ posture = Root ∧ cap = EXEC_INTERCEPTION_CAP))
    as ->.
  { unfold added_caps. destruct (c_security_context w) as [sc|]; cbn.
    - unfold check_context. checks. rewrite (caps_ok posture). split.
      + intros (? & ? & ?). split; [by intros ? [= <-]|done].
      + intros [Hs ?]. by destruct (Hs sc eq_refl).
    - split; [|done]. intros _. split; [done|]. intros cap []%not_elem_of_nil. }
  split; [intros (? & ? & ? & [? ?] & ?); by constructor|]. intros [(? & ? & ?)]. done.
Qed.

(** ** Posture *)

Record nonroot_confined (sc : SecurityContext) : Prop := {
  nc_user : sc_run_as_user sc = Some WORKER_UID ∧ sc_run_as_group sc = Some WORKER_UID;
  nc_non_root : sc_run_as_non_root sc = Some true;
  nc_no_escalation : sc_allow_privilege_escalation sc = Some false;
  nc_drops_all : "ALL" ∈ flat (sc_capabilities sc ≫= cp_drop);
  nc_seccomp : cf_type <$> sc_seccomp_profile sc = Some "RuntimeDefault";
  nc_apparmor : cf_type <$> sc_app_armor_profile sc ≠ Some "Unconfined";
  nc_selinux : sc_se_linux_options sc = None;
  nc_proc : sc_proc_mount sc = None ∨ sc_proc_mount sc = Some "Default";
}.

Lemma if_some_None {A} (b : bool) (x : A) (o : option A) :
  (if b then Some x else o) = None ↔ b = false ∧ o = None.
Proof. destruct b; naive_solver. Qed.

Lemma proc_mount_ok (o : option string) :
  match o with Some m => negb (m ==s "Default") | None => false end = false ↔ o = None ∨ o = Some "Default".
Proof. destruct o as [m|]; [rewrite negb_false_iff, String.eqb_eq|]; naive_solver. Qed.

Lemma nonroot_violation_None sc : nonroot_violation (Some sc) = None ↔ nonroot_confined sc.
Proof.
  unfold nonroot_violation. rewrite !if_some_None, proc_mount_ok. checks. rewrite existsb_in, <-eq_None_not_Some.
  split; [intros (? & ? & ? & ? & ? & ? & ? & ? & ? & _); by constructor|]. intros [[? ?]]. done.
Qed.

Lemma check_nonroot_worker_ok w name m :
  check_nonroot_worker w name m = Ok () ↔
  (∀ v, annotation m (APPARMOR_ANNOTATION_PREFIX ++s name) = Some v → eq_ignore_ascii_case v "unconfined" = false) ∧
  ∃ sc, c_security_context w = Some sc ∧ nonroot_confined sc.
Proof.
  unfold check_nonroot_worker. checks. apply and_iff_both; [destruct (annotation _ _); naive_solver|].
  destruct (c_security_context w) as [sc|]; [|naive_solver].
  setoid_rewrite <-nonroot_violation_None. destruct (nonroot_violation (Some sc)) eqn:E; naive_solver.
Qed.

Record unprivileged (c : Container) : Prop := {
  up_context : ∀ sc, c_security_context c = Some sc → sc_privileged sc ≠ Some true ∧ sc_run_as_user sc ≠ Some 0%Z;
  up_caps : flat (added_caps c) = [];
}.

Lemma head_none_ok (o : option (list string)) (f : string → string) :
  match o ≫= head with Some x => Err (f x) | None => Ok () end = Ok () ↔ flat o = [].
Proof. destruct o as [[]|]; cbn; naive_solver. Qed.

Lemma check_unprivileged_ok c : check_unprivileged c = Ok () ↔ unprivileged c.
Proof.
  unfold check_unprivileged. destruct (c_security_context c) as [sc|] eqn:E.
  - checks. rewrite head_none_ok. assert (added_caps c = sc_capabilities sc ≫= cp_add) as <-.
    { unfold added_caps. by rewrite E. }
    split; [intros (? & ? & ?); constructor; [by rewrite E; intros ? [= <-]|done]|].
    intros [Hs ?]. by destruct (Hs sc E).
  - split; [|done]. intros _. split; [by rewrite E|]. unfold added_caps. by rewrite E.
Qed.

(** A profile with no overlay. *)
Record no_overlay (p : WorkerProfileSpec) : Prop := {
  no_warm_repo : WARM_REPO_DIR_ENV ∉ ev_name <$> flat (pr_env p);
  no_overlay_volume : VOL_OVERLAY ∉ v_name <$> flat (pr_volumes p);
  no_overlay_mount : ∀ m, m ∈ flat (pr_volume_mounts p) →
    vm_name m ≠ VOL_OVERLAY ∧ trim_end_matches (Ascii.eqb "/"%char) (vm_mount_path m) ≠ "/overlay";
}.

Lemma existsb_name_false {A} (name : A → string) l n :
  existsb (λ x, name x ==s n) l = false ↔ n ∉ name <$> l.
Proof.
  rewrite existsb_none, Forall_forall, list_elem_of_fmap. setoid_rewrite String.eqb_neq. naive_solver.
Qed.

Lemma check_no_overlay_ok p : check_no_overlay p = Ok () ↔ no_overlay p.
Proof.
  unfold check_no_overlay. checks. rewrite find_none_ok, !existsb_name_false, Forall_forall.
  setoid_rewrite orb_false_iff. setoid_rewrite String.eqb_neq.
  split; [intros (? & ? & ?); by constructor|]. by intros [].
Qed.

(** The profile turns the interception of execs on. *)
Definition intercepts_execs (p : WorkerProfileSpec) : Prop :=
  ∃ e, e ∈ flat (pr_env p) ∧ ev_name e = GUARD_EXEC_ENV ∧ ev_value e = Some "1".

Lemma exec_interception_iff p : exec_interception p = true ↔ intercepts_execs p.
Proof.
  unfold exec_interception, intercepts_execs. rewrite existsb_exists. setoid_rewrite <-list_elem_of_In.
  setoid_rewrite andb_true_iff. setoid_rewrite String.eqb_eq. by setoid_rewrite bool_decide_eq_true.
Qed.

(** What a profile of posture nonroot has to satisfy. *)
Record posture_fits (p : WorkerProfileSpec) : Prop := {
  pf_no_exec : ¬ intercepts_execs p;
  pf_no_overlay : no_overlay p;
  pf_unprivileged : ∀ c, c ∈ flat (pr_init_containers p) ++ flat (pr_containers p) → unprivileged c;
}.

Lemma check_posture_ok p : check_posture p = Ok () ↔ (profile_posture p = Nonroot → posture_fits p).
Proof.
  unfold check_posture. destruct (profile_posture p); [done|]. checks.
  rewrite check_no_overlay_ok, Forall_forall, <-not_true_iff_false, exec_interception_iff.
  setoid_rewrite check_unprivileged_ok.
  split; [intros (? & ? & ?) _; by constructor|]. intros Hp. by destruct Hp.
Qed.

(** ** Profiles *)

(** A setting that opens egress to private addresses: the switch, from a source
    or turned on, or the list, from a source or not empty. *)
Definition private_egress (env : EnvVar) : Prop :=
  let value := trim (default "" (ev_value env)) in
  ev_name env = "GUARD_PROXY_ALLOW_PRIVATE_IPS" ∧
    (is_Some (ev_value_from env) ∨ to_ascii_lowercase value ∈ ["1"; "true"; "yes"; "on"]) ∨
  ev_name env = "GUARD_PROXY_PRIVATE_ALLOW" ∧ (is_Some (ev_value_from env) ∨ value ≠ "").

Lemma widens_private_egress_iff env : widens_private_egress env = true ↔ private_egress env.
Proof.
  unfold widens_private_egress, private_egress. cbv zeta.
  destruct (String.eqb_spec (ev_name env) GUARD_ENV_ALLOW_PRIVATE_IPS) as [-> |Hn].
  { rewrite orb_true_iff, bool_decide_eq_true, existsb_in. split; [by left|].
    by intros [[_ ?]|[? _]]. }
  destruct (String.eqb_spec (ev_name env) GUARD_ENV_PRIVATE_ALLOW) as [-> |Hm].
  { rewrite orb_true_iff, bool_decide_eq_true, negb_true_iff.
    assert (is_empty (trim (default "" (ev_value env))) = false ↔ trim (default "" (ev_value env)) ≠ "") as ->
      by (by destruct (trim _)).
    split; [by right|]. by intros [[? _]|[_ ?]]. }
  split; [done|]. by intros [[? _]|[? _]].
Qed.

(** A setting of the guard proxy that a profile may make. *)
Record guard_setting (guard : GuardSpec) (env : EnvVar) : Prop := {
  gst_prefix : starts_with GUARD_ENV_PREFIX (ev_name env) = true;
  gst_not_identity : ev_name env ≠ GUARD_ENV_IDENTITY;
  gst_not_gate : ev_name env ≠ GUARD_ENV_HUMAN_GATE;
  gst_egress : private_egress env → gs_allow_private_egress guard = true;
}.

Record guard_fits (guard : GuardSpec) : Prop := {
  gf_identity : ∀ c, gs_cloud_identity guard = Some c → ci_volume_mounts c ≠ [];
  gf_volumes : ∀ n, n ∈ identity_volumes guard → n ∉ ENVELOPE_VOLUMES;
  gf_env : ∀ e, e ∈ flat (gs_env guard) → guard_setting guard e;
}.

Lemma check_guard_env_ok guard env : check_guard_env guard env = Ok () ↔ guard_setting guard env.
Proof.
  unfold check_guard_env. checks. rewrite andb_false_iff, negb_false_iff.
  split.
  - intros (? & ? & ? & Hw). constructor; [done..|]. intros Ht%widens_private_egress_iff.
    destruct Hw as [?|Hw]; [done|]. congruence.
  - intros [? ? ? Hw]. split_and!; [done..|]. rewrite <-widens_private_egress_iff in Hw.
    destruct (widens_private_egress env); [left; by apply Hw|by right].
Qed.

Lemma check_guard_ok guard : check_guard guard = Ok () ↔ guard_fits guard.
Proof.
  unfold check_guard. checks. rewrite find_none_ok, !Forall_forall.
  setoid_rewrite existsb_not_in. setoid_rewrite check_guard_env_ok.
  assert (match gs_cloud_identity guard with Some c => bool_decide (ci_volume_mounts c = []) | None => false end = false ↔
    ∀ c, gs_cloud_identity guard = Some c → ci_volume_mounts c ≠ []) as ->.
  { destruct (gs_cloud_identity guard); [rewrite bool_decide_eq_false|]; naive_solver. }
  split; [intros (? & ? & ?); by constructor|]. by intros [].
Qed.

Lemma elem_of_map_keys (m : option (gmap string string)) k : k ∈ map_keys m ↔ is_Some (m ≫= (.!! k)).
Proof.
  unfold map_keys. rewrite list_elem_of_fmap. split.
  - intros ([k' v] & -> & Hin%elem_of_btree_str_iter). destruct m; cbn in *; [by exists v|done].
  - intros [v Hv]. exists (k, v). split; [done|]. apply elem_of_btree_str_iter. by destruct m.
Qed.

(** The keys of [spec.pod] that are not reserved. *)
Definition free_key (k : string) : Prop :=
  ∀ prefix, prefix ∈ RESERVED_POD_KEY_PREFIXES → starts_with prefix k = false.

Lemma reserved_iff k : reserved k = false ↔ free_key k.
Proof. unfold reserved. by rewrite existsb_none, Forall_forall. Qed.

Record pod_settings_fit (s : WorkerPodSpec) : Prop := {
  psf_labels : ∀ k, is_Some (wp_labels s ≫= (.!! k)) → free_key k ∧ k ∉ RESERVED_POD_LABELS;
  psf_annotations : ∀ k, is_Some (wp_annotations s ≫= (.!! k)) → free_key k;
}.

Lemma check_pod_settings_ok s : check_pod_settings s = Ok () ↔ pod_settings_fit s.
Proof.
  unfold check_pod_settings. checks. rewrite !find_none_ok, !Forall_forall.
  setoid_rewrite elem_of_map_keys. split.
  - intros [Hl ?]. constructor; [|intros k Hk; by apply reserved_iff; auto]. intros k Hk. rewrite <-reserved_iff. specialize (Hl k Hk).
    by apply orb_false_iff in Hl as [? ?%existsb_not_in].
  - intros [Hl Ha]. split; [|intros k Hk; by apply reserved_iff, Ha]. intros k Hk.
    destruct (Hl k Hk) as [?%reserved_iff ?]. apply orb_false_iff. by rewrite existsb_not_in.
Qed.

(** The Rule of Two: an agent that is exposed on all three sides has a gate
    that is enforced. *)
Definition rule_of_two (p : WorkerProfileSpec) : Prop :=
  ∀ e, pr_exposure p = Some e →
    ex_untrusted_input e = true ∧ ex_sensitive_data e = true ∧ ex_outward e = true →
    pr_human_gate p = Some NoPush ∨ pr_human_gate p = Some DraftPrOnly.

Lemma is_full_iff e :
  is_full e = true ↔ ex_untrusted_input e = true ∧ ex_sensitive_data e = true ∧ ex_outward e = true.
Proof. unfold is_full. rewrite !andb_true_iff. tauto. Qed.

Lemma check_exposure_ok p b :
  check_exposure p = Ok b ↔ rule_of_two p ∧ b = bool_decide (pr_exposure p = None).
Proof.
  unfold check_exposure, rule_of_two. setoid_rewrite <-is_full_iff. destruct (pr_exposure p) as [e|].
  - rewrite bool_decide_eq_false_2 by done.
    assert ((∀ e', Some e = Some e' → is_full e' = true →
        pr_human_gate p = Some NoPush ∨ pr_human_gate p = Some DraftPrOnly) ↔
      (is_full e = true → pr_human_gate p = Some NoPush ∨ pr_human_gate p = Some DraftPrOnly)) as ->.
    { split; [intros Hg; by apply Hg|]. by intros Hg ? [= <-]. }
    destruct (is_full e), (pr_human_gate p) as [[]|]; intuition congruence.
  - rewrite bool_decide_eq_true_2 by done. naive_solver.
Qed.

(** ** The template *)

Record template_conforms (spec : PodSpec) (w : Container) (p : WorkerProfileSpec) : Prop := {
  tc_no_token : sp_automount_service_account_token spec = Some false;
  tc_no_links : sp_enable_service_links spec = Some false;
  tc_account : sp_service_account_name spec = pr_service_account_name p;
  tc_name : c_name w = profile_worker_name p;
  tc_image : c_image w = Some (pr_image p);
  tc_command : c_command w = pr_command p;
  tc_args : c_args w = pr_args p;
  tc_node_selector : sp_node_selector spec = pr_node_selector p;
  tc_runtime : sp_runtime_class_name spec = pr_runtime_class_name p;
  tc_env_from : c_env_from w = pr_env_from p;
}.

Lemma check_common_ok spec w p : check_common_template_conformance spec w p = Ok () ↔ template_conforms spec w p.
Proof.
  unfold check_common_template_conformance, check_worker_env_from. checks.
  split; [intros (? & ? & ? & ? & ? & ? & ? & ? & ? & ?); by constructor|]. by intros [].
Qed.

Lemma or_ok (b : bool) m : (if b then Ok () else Err m) = @Ok string unit () ↔ b = true.
Proof. by destruct b. Qed.

(** Every requirement of the term [allowed] is one of the term [t]. *)
Definition term_within (t allowed : NodeSelectorTerm) : Prop :=
  (∀ q, q ∈ flat (nt_match_expressions allowed) → q ∈ flat (nt_match_expressions t)) ∧
  (∀ q, q ∈ flat (nt_match_fields allowed) → q ∈ flat (nt_match_fields t)).

(** The same affinities and preferences, and each required term within one of the
    profile's; a missing part counts as an empty one. *)
Record affinity_within (have want : option Affinity) : Prop := {
  aw_pod : af_pod_affinity (default Affinity_default have) = af_pod_affinity (default Affinity_default want);
  aw_anti : af_pod_anti_affinity (default Affinity_default have) =
            af_pod_anti_affinity (default Affinity_default want);
  aw_preferred :
    na_preferred (default NodeAffinity_default (af_node_affinity (default Affinity_default have))) =
    na_preferred (default NodeAffinity_default (af_node_affinity (default Affinity_default want)));
  aw_required : ∀ allowed,
    na_required (default NodeAffinity_default (af_node_affinity (default Affinity_default want))) = Some allowed →
    ∃ terms,
      na_required (default NodeAffinity_default (af_node_affinity (default Affinity_default have))) = Some terms ∧
      ∀ t, t ∈ terms → ∃ a, a ∈ allowed ∧ term_within t a;
}.

Lemma existsb_true {A} (f : A → bool) l : existsb f l = true ↔ ∃ x, x ∈ l ∧ f x = true.
Proof. rewrite existsb_exists. by setoid_rewrite list_elem_of_In. Qed.

Lemma forallb_true {A} (f : A → bool) l : forallb f l = true ↔ ∀ x, x ∈ l → f x = true.
Proof. rewrite forallb_forall. by setoid_rewrite list_elem_of_In. Qed.

Lemma term_implies_iff t a : term_implies t a = true ↔ term_within t a.
Proof.
  unfold term_implies, term_within, requirements_in. rewrite andb_true_iff, !forallb_true.
  setoid_rewrite existsb_true. setoid_rewrite bool_decide_eq_true. naive_solver.
Qed.

Lemma narrows_affinity_iff have want : narrows_affinity have want = true ↔ affinity_within have want.
Proof.
  unfold narrows_affinity. cbv zeta. set (h := default Affinity_default have).
  set (w := default Affinity_default want). set (hn := default NodeAffinity_default (af_node_affinity h)).
  set (wn := default NodeAffinity_default (af_node_affinity w)).
  assert (affinity_within have want ↔ af_pod_affinity h = af_pod_affinity w ∧
    af_pod_anti_affinity h = af_pod_anti_affinity w ∧ na_preferred hn = na_preferred wn ∧
    ∀ allowed, na_required wn = Some allowed →
      ∃ terms, na_required hn = Some terms ∧ ∀ t, t ∈ terms → ∃ a, a ∈ allowed ∧ term_within t a) as ->.
  { split; [by intros []|]. intros (? & ? & ? & ?). by constructor. }
  destruct (decide (af_pod_affinity h = af_pod_affinity w)) as [E1|E1];
    [rewrite (bool_decide_eq_true_2 _ E1)|rewrite (bool_decide_eq_false_2 _ E1)]; cbn [negb orb];
    [|split; [done|by intros [? _]]].
  destruct (decide (af_pod_anti_affinity h = af_pod_anti_affinity w)) as [E2|E2];
    [rewrite (bool_decide_eq_true_2 _ E2)|rewrite (bool_decide_eq_false_2 _ E2)]; cbn [negb];
    [|split; [done|by intros (_ & ? & _)]].
  destruct (decide (na_preferred hn = na_preferred wn)) as [E3|E3];
    [rewrite (bool_decide_eq_true_2 _ E3)|rewrite (bool_decide_eq_false_2 _ E3)]; cbn [negb];
    [|split; [done|by intros (_ & _ & ? & _)]].
  destruct (na_required wn) as [ws|]; [|by destruct (na_required hn)].
  destruct (na_required hn) as [hs|].
  - rewrite forallb_true. setoid_rewrite existsb_true. setoid_rewrite term_implies_iff. split.
    + intros Hall. split_and!; [done..|]. intros ? [= <-]. by exists hs.
    + intros (_ & _ & _ & Hall). destruct (Hall ws eq_refl) as (? & [= <-] & ?). done.
  - split; [done|]. intros (_ & _ & _ & Hall). by destruct (Hall ws eq_refl) as (? & ? & _).
Qed.

Lemma check_affinity_ok spec p adm :
  check_affinity spec p adm = Ok () ↔
  sp_affinity spec = pr_affinity p ∨ adm = true ∧ affinity_within (sp_affinity spec) (pr_affinity p).
Proof.
  unfold check_affinity.
  by rewrite or_ok, orb_true_iff, andb_true_iff, bool_decide_eq_true, narrows_affinity_iff.
Qed.

Lemma check_priority_class_ok spec p adm :
  check_priority_class spec p adm = Ok () ↔
  sp_priority_class_name spec = profile_priority_class p ∨ adm = true ∧ profile_priority_class p = None.
Proof. unfold check_priority_class. by rewrite or_ok, orb_true_iff, andb_true_iff, !bool_decide_eq_true. Qed.

(** The same toleration, where a missing field counts as its default. *)
Record same_taint (have want : Toleration) : Prop := {
  st_key : default "" (tl_key have) = default "" (tl_key want);
  st_operator : default "Equal" (tl_operator have) = default "Equal" (tl_operator want);
  st_value : default "" (tl_value have) = default "" (tl_value want);
  st_effect : default "" (tl_effect have) = default "" (tl_effect want);
  st_seconds : tl_toleration_seconds have = tl_toleration_seconds want;
}.

Lemma same_toleration_iff have want : same_toleration have want = true ↔ same_taint have want.
Proof.
  unfold same_toleration. rewrite !andb_true_iff, !String.eqb_eq, bool_decide_eq_true.
  split; [intros ((((? & ?) & ?) & ?) & ?); by constructor|]. by intros [].
Qed.

(** One of the API server's own: a toleration of the taint of a node that is not
    ready or not reachable, for a time, or of one that is short of memory, and
    the profile has none that covers it. *)
Record server_default (t : Toleration) (declared : list Toleration) : Prop := {
  sd_uncovered : ∀ d, d ∈ declared →
    ¬ ((default "" (tl_key d) = "" ∨ tl_key d = tl_key t) ∧
       (default "" (tl_effect d) = "" ∨ tl_effect d = tl_effect t));
  sd_exists : tl_operator t = Some "Exists" ∧ default "" (tl_value t) = "";
  sd_taint :
    (tl_key t = Some "node.kubernetes.io/not-ready" ∨ tl_key t = Some "node.kubernetes.io/unreachable") ∧
      tl_effect t = Some "NoExecute" ∧ (∃ s, tl_toleration_seconds t = Some s ∧ (0 <= s)%Z) ∨
    tl_key t = Some "node.kubernetes.io/memory-pressure" ∧ tl_effect t = Some "NoSchedule" ∧
      tl_toleration_seconds t = None;
}.

Lemma is_empty_true x : is_empty x = true ↔ x = "".
Proof. by destruct x. Qed.

Lemma covers_iff t d :
  covers t d = true ↔ (default "" (tl_key d) = "" ∨ tl_key d = tl_key t) ∧
                      (default "" (tl_effect d) = "" ∨ tl_effect d = tl_effect t).
Proof. unfold covers. by rewrite andb_true_iff, !orb_true_iff, !is_empty_true, !bool_decide_eq_true. Qed.

Lemma standard_taint_iff t :
  match tl_key t, tl_effect t with
  | Some key, Some effect =>
    if ((key ==s "node.kubernetes.io/not-ready") || (key ==s "node.kubernetes.io/unreachable")) &&
       (effect ==s "NoExecute") then
      match tl_toleration_seconds t with Some seconds => (0 <=? seconds)%Z | None => false end
    else if (key ==s "node.kubernetes.io/memory-pressure") && (effect ==s "NoSchedule") then
      bool_decide (tl_toleration_seconds t = None)
    else false
  | _, _ => false
  end = true ↔
  (tl_key t = Some "node.kubernetes.io/not-ready" ∨ tl_key t = Some "node.kubernetes.io/unreachable") ∧
    tl_effect t = Some "NoExecute" ∧ (∃ s, tl_toleration_seconds t = Some s ∧ (0 <= s)%Z) ∨
  tl_key t = Some "node.kubernetes.io/memory-pressure" ∧ tl_effect t = Some "NoSchedule" ∧
    tl_toleration_seconds t = None.
Proof.
  destruct (tl_key t) as [key|]; [|naive_solver]. destruct (tl_effect t) as [effect|]; [|naive_solver].
  destruct (String.eqb_spec key "node.kubernetes.io/not-ready") as [-> |];
    [|destruct (String.eqb_spec key "node.kubernetes.io/unreachable") as [-> |]];
    cbn [orb andb]; [| |destruct (String.eqb_spec key "node.kubernetes.io/memory-pressure") as [-> |]];
    cbn [andb]; try (by naive_solver).
  all: destruct (String.eqb_spec effect "NoExecute") as [-> |]; cbn [andb].
  all: try (destruct (tl_toleration_seconds t) as [x|]; rewrite ?Z.leb_le; naive_solver).
  all: destruct (String.eqb_spec effect "NoSchedule") as [-> |]; rewrite ?bool_decide_eq_true; naive_solver.
Qed.

Lemma standard_toleration_iff t declared :
  standard_admission_toleration t declared = true ↔ server_default t declared.
Proof.
  unfold standard_admission_toleration. destruct (existsb (covers t) declared) eqn:Ec.
  { split; [done|]. intros [Hc _ _]. apply existsb_true in Ec as (d & Hd & Hcov). exfalso.
    by apply (Hc d Hd), covers_iff. }
  assert (∀ d, d ∈ declared → ¬ ((default "" (tl_key d) = "" ∨ tl_key d = tl_key t) ∧
      (default "" (tl_effect d) = "" ∨ tl_effect d = tl_effect t))) as Hun.
  { intros d Hd Hcov%covers_iff. apply not_true_iff_false in Ec. apply Ec, existsb_true. by exists d. }
  destruct (negb _ || negb _) eqn:Eo.
  { split; [done|]. intros [_ [Ho Hv] _]. rewrite Ho, Hv in Eo. by rewrite bool_decide_eq_true_2 in Eo. }
  apply orb_false_iff in Eo as [Eo%negb_false_iff%bool_decide_eq_true Ev%negb_false_iff%is_empty_true].
  rewrite standard_taint_iff. split; [by intros ?; constructor|by intros []].
Qed.

(** Every toleration of the profile is there, and every other one is a default
    of the API server. *)
Definition tolerations_conform (spec : PodSpec) (p : WorkerProfileSpec) (adm : bool) : Prop :=
  let have := flat (sp_tolerations spec) in
  let want := flat (pr_tolerations p) in
  (∀ e, e ∈ want → ∃ a, a ∈ have ∧ same_taint a e) ∧
  (∀ a, a ∈ have → (∃ e, e ∈ want ∧ same_taint a e) ∨ adm = true ∧ server_default a want).

Lemma check_tolerations_ok spec p adm :
  check_tolerations spec p adm = Ok () ↔ tolerations_conform spec p adm.
Proof.
  unfold check_tolerations, tolerations_conform. checks. rewrite !existsb_none, !Forall_forall.
  setoid_rewrite negb_false_iff. setoid_rewrite orb_true_iff. setoid_rewrite andb_true_iff.
  setoid_rewrite existsb_true. setoid_rewrite same_toleration_iff. by setoid_rewrite standard_toleration_iff.
Qed.

(** ** Names, identity and environment *)

(** The volumes of a pod of the profile, those of the worker and the proxy's, and
    what the worker mounts of them. *)
Definition expected_volume (p : WorkerProfileSpec) (n : string) : Prop :=
  n ∈ v_name <$> flat (pr_volumes p) ∨
  n ∈ [VOL_HOME; VOL_GUARD_STATE; VOL_PROXY_POLICY; VOL_GUARD_PROXY_INJECT; VOL_GUARD_PROXY_CA;
       VOL_GUARD_PROXY_SA_TOKEN] ∨
  n = VOL_OVERLAY ∧ profile_posture p = Root ∨ n = VOL_GPG_AGENT ∧ pr_gpg_signing p = true.

Definition expected_mount (p : WorkerProfileSpec) (n : string) : Prop :=
  n ∈ vm_name <$> flat (pr_volume_mounts p) ∨
  n ∈ [VOL_HOME; VOL_GUARD_STATE; VOL_PROXY_POLICY; VOL_GUARD_PROXY_CA] ∨
  n = VOL_OVERLAY ∧ profile_posture p = Root ∨ n = VOL_GPG_AGENT ∧ pr_gpg_signing p = true.

Lemma elem_of_wanted_volumes p n : n ∈ wanted_volumes p ↔ expected_volume p n.
Proof.
  unfold wanted_volumes, expected_volume, ENVELOPE_VOLUMES. cbv zeta.
  rewrite elem_of_union, elem_of_list_to_set.
  destruct (profile_posture p), (pr_gpg_signing p); cbn [has_overlay];
    rewrite ?elem_of_union, ?elem_of_difference, ?elem_of_singleton, ?elem_of_list_to_set, ?elem_of_cons, ?elem_of_nil;
    unfold VOL_HOME, VOL_OVERLAY, VOL_GUARD_STATE, VOL_PROXY_POLICY, VOL_GUARD_PROXY_INJECT,
      VOL_GUARD_PROXY_CA, VOL_GUARD_PROXY_SA_TOKEN, VOL_GPG_AGENT; naive_solver.
Qed.

Lemma elem_of_wanted_mounts p n : n ∈ wanted_mounts p ↔ expected_mount p n.
Proof.
  unfold wanted_mounts, expected_mount, worker_envelope_mounts, WORKER_ENVELOPE_MOUNTS.
  rewrite !elem_of_union, !elem_of_list_to_set.
  destruct (profile_posture p), (pr_gpg_signing p); cbn [has_overlay List.filter orb];
    change (VOL_HOME ==s VOL_OVERLAY) with false; change (VOL_OVERLAY ==s VOL_OVERLAY) with true;
    change (VOL_GUARD_STATE ==s VOL_OVERLAY) with false; change (VOL_PROXY_POLICY ==s VOL_OVERLAY) with false;
    change (VOL_GUARD_PROXY_CA ==s VOL_OVERLAY) with false; cbn [negb];
    rewrite ?elem_of_singleton, ?elem_of_empty, ?elem_of_cons, ?elem_of_nil; naive_solver.
Qed.

(** A name the API server gives to the volume of its own token. *)
Definition api_volume (n : string) : Prop := starts_with "kube-api-access-" n = true.

Record names_conform (spec : PodSpec) (w : Container) (worker_name : string) (p : WorkerProfileSpec) : Prop := {
  nf_containers : list_to_set (C := gset string) (c_name <$> sp_containers spec) =
    {[worker_name]} ∪ list_to_set (c_name <$> flat (pr_containers p));
  nf_inits : list_to_set (C := gset string) (c_name <$> flat (sp_init_containers spec)) =
    {[NET_INIT_CONTAINER; GUARD_PROXY_CONTAINER]} ∪ list_to_set (c_name <$> flat (pr_init_containers p));
  nf_volumes : ∀ n,
    n ∈ v_name <$> flat (sp_volumes spec) ∧ ¬ api_volume n ∧ n ∉ profile_identity p ↔ expected_volume p n;
  nf_mounts : ∀ n, n ∈ mount_names w ∧ ¬ api_volume n ↔ expected_mount p n;
}.

(** The two last parts as the code compares them, as sets. *)
Lemma volume_names_iff (names : list string) p :
  list_to_set (C := gset string) (List.filter
    (λ n, negb (is_api_server_injected n) && negb (bool_decide (n ∈ profile_identity p))) names) =
    wanted_volumes p ↔
  ∀ n, n ∈ names ∧ ¬ api_volume n ∧ n ∉ profile_identity p ↔ expected_volume p n.
Proof.
  unfold api_volume, is_api_server_injected. rewrite set_eq. apply forall_proper; intros n.
  rewrite elem_of_list_to_set, list_elem_of_In, filter_In, <-list_elem_of_In, elem_of_wanted_volumes.
  by rewrite andb_true_iff, !negb_true_iff, bool_decide_eq_false, not_true_iff_false.
Qed.

Lemma mount_names_iff (names : list string) p :
  list_to_set (C := gset string) (List.filter (λ n, negb (is_api_server_injected n)) names) =
    wanted_mounts p ↔
  ∀ n, n ∈ names ∧ ¬ api_volume n ↔ expected_mount p n.
Proof.
  unfold api_volume, is_api_server_injected. rewrite set_eq. apply forall_proper; intros n.
  rewrite elem_of_list_to_set, list_elem_of_In, filter_In, <-list_elem_of_In, elem_of_wanted_mounts.
  by rewrite negb_true_iff, not_true_iff_false.
Qed.

(** A volume that can only carry a token: projected service account tokens and
    nothing else, or a read-only CSI driver, and no other source. *)
Record identity_token (v : Volume) : Prop := {
  it_token : (∃ s ss, (v_projected v ≫= pv_sources) = Some (s :: ss) ∧
       ∀ x, x ∈ s :: ss → ∃ t, x = mkProjection (Some t) None None ∅) ∨
     (v_csi v ≫= csi_read_only) = Some true;
  it_only : v = mkVolume (v_name v) None None (v_projected v) (v_csi v) None ∅;
}.

Lemma token_only_iff x : token_only x = true ↔ ∃ t, x = mkProjection (Some t) None None ∅.
Proof.
  unfold token_only. rewrite andb_true_iff, !bool_decide_eq_true. split.
  - intros [[t Ht] ->]. exists t. by rewrite Ht.
  - by intros [t ->].
Qed.

Lemma token_source_iff v : is_identity_token_source v = true ↔ identity_token v.
Proof.
  unfold is_identity_token_source. cbv zeta.
  rewrite andb_true_iff, orb_true_iff, !bool_decide_eq_true.
  assert (match v_projected v ≫= pv_sources with
          | Some (s :: ss) => forallb token_only (s :: ss) | _ => false end = true ↔
    ∃ s ss, (v_projected v ≫= pv_sources) = Some (s :: ss) ∧
       ∀ x, x ∈ s :: ss → ∃ t, x = mkProjection (Some t) None None ∅) as ->.
  { destruct (v_projected v ≫= pv_sources) as [[|x xs]|]; [naive_solver| |naive_solver].
    rewrite forallb_true. setoid_rewrite token_only_iff. naive_solver. }
  split; [intros []; by constructor|by intros []].
Qed.

(** Only the guard proxy holds the cloud identity, and it is a token. *)
Record identity_held (spec : PodSpec) (p : WorkerProfileSpec) : Prop := {
  ih_token : ∀ v, v ∈ flat (sp_volumes spec) → v_name v ∈ profile_identity p → identity_token v;
  ih_holder : ∀ c n, c ∈ sp_containers spec ++ flat (sp_init_containers spec) → n ∈ mount_names c →
    n ∈ profile_identity p → c_name c = GUARD_PROXY_CONTAINER;
}.

Lemma identity_mount_None identity c : identity_mount identity c = None ↔ ∀ n, n ∈ mount_names c → n ∉ identity.
Proof.
  unfold identity_mount. rewrite fmap_None. pose proof (find_none_ok (λ n, bool_decide (n ∈ identity)) (mount_names c) id) as Hf.
  rewrite Forall_forall in Hf. setoid_rewrite bool_decide_eq_false in Hf. rewrite <-Hf. clear Hf.
  destruct (List.find _ _); naive_solver.
Qed.

Lemma check_cloud_identity_ok spec p : check_cloud_identity spec p = Ok () ↔ identity_held spec p.
Proof.
  unfold check_cloud_identity. checks. rewrite find_none_ok, Forall_forall.
  setoid_rewrite andb_false_iff. setoid_rewrite negb_false_iff. setoid_rewrite bool_decide_eq_false.
  set (cs := sp_containers spec ++ flat (sp_init_containers spec)).
  assert (find_map (identity_mount (profile_identity p)) (List.filter (λ c, negb (c_name c ==s GUARD_PROXY_CONTAINER)) cs) = None ↔
    ∀ c n, c ∈ cs → n ∈ mount_names c → n ∈ profile_identity p → c_name c = GUARD_PROXY_CONTAINER) as Hc.
  { rewrite find_map_None. setoid_rewrite list_elem_of_In. setoid_rewrite filter_In. setoid_rewrite <-list_elem_of_In.
    setoid_rewrite negb_true_iff. setoid_rewrite String.eqb_neq. setoid_rewrite identity_mount_None. split.
    - intros Hn c n Hc Hm Hi. destruct (decide (c_name c = GUARD_PROXY_CONTAINER)); [done|]. by destruct (Hn c (conj Hc n0) n).
    - intros Hn c [Hc Hg] n Hm Hi. by apply Hg, (Hn c n). }
  destruct (find_map _ _) as [[? ?]|].
  - split; [by intros [_ ?]|]. intros [_ Hh]. by apply Hc in Hh.
  - split.
    + intros [Ht _]. constructor; [|by apply Hc]. intros v Hv Hi. apply token_source_iff. by destruct (Ht v Hv).
    + intros [Ht _]. split; [|done]. intros v Hv.
      destruct (decide (v_name v ∈ profile_identity p)); [right; by apply token_source_iff, Ht|by left].
Qed.

(** The profile refers to the same key of the same object under the same name. *)
Definition declared (field : EnvVarSource → option KeySelector) (p : WorkerProfileSpec) (name : string)
    (k : KeySelector) : Prop :=
  ∃ e d, e ∈ flat (pr_env p) ∧ ev_name e = name ∧ (ev_value_from e ≫= field) = Some d ∧
    ks_name d = ks_name k ∧ ks_key d = ks_key k.

Lemma declares_iff field p name k : declares field p name k = true ↔ declared field p name k.
Proof.
  unfold declares, declared. rewrite existsb_true. split.
  - intros (e & He & [Hn%String.eqb_eq Hd]%andb_true_iff).
    destruct (ev_value_from e ≫= field) as [d|] eqn:Ed; [|done].
    apply andb_true_iff in Hd as [?%String.eqb_eq ?%String.eqb_eq]. by exists e, d.
  - intros (e & d & He & Hn & Hd & Hk1 & Hk2). exists e. split; [done|].
    by rewrite Hd, Hn, Hk1, Hk2, !String.eqb_refl.
Qed.

(** The environment entries a worker may have. *)
Record env_allowed (p : WorkerProfileSpec) (env : EnvVar) : Prop := {
  ea_secret : ∀ k, (ev_value_from env ≫= evs_secret_key_ref) = Some k →
    declared evs_secret_key_ref p (ev_name env) k;
  ea_config : ∀ k, (ev_value_from env ≫= evs_secret_key_ref) = None →
    (ev_value_from env ≫= evs_config_map_key_ref) = Some k → declared evs_config_map_key_ref p (ev_name env) k;
  ea_literal : ∀ v prefix, ev_value env = Some v → prefix ∈ SECRET_REF_PREFIXES → starts_with prefix v = false;
}.

Lemma smuggled_false p env :
  smuggled p env = false ↔
  (∀ k, (ev_value_from env ≫= evs_secret_key_ref) = Some k → declared evs_secret_key_ref p (ev_name env) k) ∧
  (∀ k, (ev_value_from env ≫= evs_secret_key_ref) = None →
    (ev_value_from env ≫= evs_config_map_key_ref) = Some k → declared evs_config_map_key_ref p (ev_name env) k).
Proof.
  unfold smuggled. destruct (ev_value_from env) as [v|]; cbn; [|naive_solver].
  destruct (evs_secret_key_ref v) as [sk|]; cbn; [|destruct (evs_config_map_key_ref v) as [ck|]];
    rewrite ?negb_false_iff, ?declares_iff; naive_solver.
Qed.

Lemma check_env_var_ok name p env : check_env_var name p env = Ok () ↔ env_allowed p env.
Proof.
  unfold check_env_var. checks. rewrite smuggled_false.
  assert (match (value ← ev_value env; List.find (λ prefix, starts_with prefix value) SECRET_REF_PREFIXES) with
          | Some prefix => Err prefix | None => Ok () end = Ok () ↔
    ∀ v prefix, ev_value env = Some v → prefix ∈ SECRET_REF_PREFIXES → starts_with prefix v = false) as Hl.
  { destruct (ev_value env) as [v|]; cbn [mbind option_bind]; [|naive_solver].
    rewrite (find_none_ok _ _ id), Forall_forall. naive_solver. }
  revert Hl. destruct (value ← ev_value env; _) as [prefix|]; intros Hl.
  - split; [by intros [_ ?]|]. intros [? ? Hp]. by apply Hl in Hp.
  - split; [intros [[? ?] _]; constructor; [done..|by apply Hl]|]. by intros [].
Qed.

Record conforms (spec : PodSpec) (w : Container) (worker_name : string) (p : WorkerProfileSpec) : Prop := {
  cf_template : template_conforms spec w p;
  cf_affinity : sp_affinity spec = pr_affinity p ∨ affinity_within (sp_affinity spec) (pr_affinity p);
  cf_tolerations : tolerations_conform spec p true;
  cf_priority : sp_priority_class_name spec = profile_priority_class p ∨ profile_priority_class p = None;
  cf_names : names_conform spec w worker_name p;
  cf_identity : identity_held spec p;
  cf_env : ∀ e, e ∈ flat (c_env w) → env_allowed p e;
}.

Lemma check_conformance_ok spec w name p : check_conformance spec w name p = Ok () ↔ conforms spec w name p.
Proof.
  unfold check_conformance, check_name_sets, check_volumes, check_worker_mounts, check_worker_env. checks.
  rewrite check_common_ok, check_affinity_ok, check_tolerations_ok, check_priority_class_ok, check_cloud_identity_ok,
    same_names_ok, Forall_forall, volume_names_iff, mount_names_iff.
  setoid_rewrite check_env_var_ok. split.
  - intros (? & Ha & ? & Hp & [? ?] & ? & ? & ? & ?). constructor; [done|tauto|done|tauto|by constructor|done|done].
  - intros [? Ha ? Hp [? ? ? ?] ? ?]. split_and!; (done || tauto).
Qed.

(** ** The review *)

(** What a profile must satisfy, whatever the pod. *)
Record profile_fits (p : WorkerProfileSpec) : Prop := {
  pft_guard : ∀ g, pr_guard p = Some g → guard_fits g;
  pft_pod : ∀ s, pr_pod p = Some s → pod_settings_fit s;
  pft_posture : profile_posture p = Nonroot → posture_fits p;
  pft_exposure : rule_of_two p;
}.

(** What a pod of the profile must satisfy. *)
Record admissible (pod : Pod) (p : WorkerProfileSpec) (spec : PodSpec) (w : Container) : Prop := {
  ad_spec : p_spec pod = Some spec;
  ad_worker : List.filter (λ c, c_name c ==s worker_container_name pod) (sp_containers spec) = [w];
  ad_marked : annotation (p_metadata pod) ANNOTATION_ENVELOPE_INJECTED = Some "true";
  ad_posture : from_annotation (annotation (p_metadata pod) ANNOTATION_POSTURE) = Some (profile_posture p);
  ad_sandbox : sandboxed spec w (profile_posture p);
  ad_nonroot : profile_posture p = Nonroot →
    (∀ v, annotation (p_metadata pod) (APPARMOR_ANNOTATION_PREFIX ++s worker_container_name pod) = Some v →
      eq_ignore_ascii_case v "unconfined" = false) ∧
    ∃ sc, c_security_context w = Some sc ∧ nonroot_confined sc;
  ad_ptrace : EXEC_INTERCEPTION_CAP ∈ flat (added_caps w) → intercepts_execs p;
  ad_conforms : conforms spec w (worker_container_name pod) p;
}.

Lemma check_structure_ok pod spec name w :
  check_structure pod spec name = Ok w ↔
  List.filter (λ c, c_name c ==s name) (sp_containers spec) = [w] ∧
  annotation (p_metadata pod) ANNOTATION_ENVELOPE_INJECTED = Some "true".
Proof.
  unfold check_structure. destruct (List.filter _ _) as [|x [|y l]]; [naive_solver| |naive_solver].
  rewrite <-(bool_decide_eq_true (annotation _ _ = _)). unfold marked. destruct (bool_decide _); naive_solver.
Qed.

Lemma check_exec_capability_ok w name p :
  check_exec_capability w name p = Ok () ↔
  (EXEC_INTERCEPTION_CAP ∈ flat (added_caps w) → intercepts_execs p).
Proof.
  unfold check_exec_capability. checks. rewrite andb_false_iff, negb_false_iff, existsb_not_in, exec_interception_iff.
  destruct (decide (EXEC_INTERCEPTION_CAP ∈ flat (added_caps w))); tauto.
Qed.

Lemma check_posture_annotation_ok m p :
  check_posture_annotation m p = Ok () ↔
  from_annotation (annotation m ANNOTATION_POSTURE) = Some (profile_posture p).
Proof.
  unfold check_posture_annotation, annotated_posture.
  destruct (from_annotation _) as [have|]; cbn; [checks; naive_solver|done].
Qed.

Section review.
Context {source : ProfileSource}.

Lemma validate_inner_ok pod ns b :
  validate_inner pod ns = Ok b ↔
  ∃ name p spec w, profile_name pod = Some name ∧ profile_get ns name = Ok (Some p) ∧ profile_fits p ∧
    admissible pod p spec w ∧ b = bool_decide (pr_exposure p = None).
Proof.
  unfold validate_inner, annotated_posture, in_profile. split.
  - intros (spec & Hspec%ok_or_ok & Hr)%bind_ok. apply bind_ok in Hr as (w & [Hw Hm]%check_structure_ok & Hr).
    apply bind_ok in Hr as (posture & Hpo%ok_or_ok & Hr).
    rewrite !bind_unit_ok in Hr. destruct Hr as (Hs & Hn & Hr).
    apply bind_ok in Hr as (name & Hname%ok_or_ok & Hr).
    apply bind_ok in Hr as (found & Hf%map_err_ok & Hr). apply bind_ok in Hr as (p & ->%ok_or_ok & Hr).
    rewrite !bind_unit_ok in Hr. destruct Hr as (Hg & Hpod & Hp & Hx & Hr).
    apply bind_ok in Hr as (u & [He ->]%map_err_ok%check_exposure_ok & Hr).
    rewrite !bind_unit_ok in Hr. destruct Hr as (Hpa%check_posture_annotation_ok & Hc%check_conformance_ok & [= <-]).
    assert (posture = profile_posture p) as -> by congruence.
    apply check_sandbox_ok in Hs. rewrite map_err_ok in Hp, Hx.
    rewrite check_posture_ok in Hp. rewrite check_exec_capability_ok in Hx. exists name, p, spec, w.
    split; [done|]. split; [done|]. split; [|split; [|done]].
    + constructor; [| |done|done].
      * intros g Hpg. rewrite Hpg, map_err_ok in Hg. by apply check_guard_ok.
      * intros s Hps. rewrite Hps, map_err_ok in Hpod. by apply check_pod_settings_ok.
    + constructor; try done. intros Hnr. rewrite Hnr in Hn. by apply check_nonroot_worker_ok in Hn.
  - intros (name & p & spec & w & Hname & Hp & [Hg Hpod Hpo He] & [Hspec Hw Hm Hpa Hs Hn Hx Hc] & ->).
    rewrite Hspec. cbn [ok_or mbind result_bind].
    replace (check_structure pod spec (worker_container_name pod)) with (@Ok string _ w)
      by (symmetry; by apply check_structure_ok).
    cbn [mbind result_bind]. rewrite Hpa. cbn [ok_or mbind result_bind].
    apply bind_unit_ok. split; [by apply check_sandbox_ok|]. apply bind_unit_ok. split.
    { destruct (profile_posture p); [done|]. apply check_nonroot_worker_ok. by apply Hn. }
    rewrite Hname. cbn [ok_or mbind result_bind]. rewrite Hp. cbn [map_err ok_or mbind result_bind].
    rewrite !bind_unit_ok. split_and!.
    + destruct (pr_guard p) as [g|]; [|done]. rewrite map_err_ok. apply check_guard_ok. by apply Hg.
    + destruct (pr_pod p) as [s|]; [|done]. rewrite map_err_ok. apply check_pod_settings_ok. by apply Hpod.
    + by rewrite map_err_ok, check_posture_ok.
    + by rewrite map_err_ok, check_exec_capability_ok.
    + apply bind_ok. eexists. rewrite map_err_ok, check_exposure_ok. split; [done|].
      rewrite !bind_unit_ok, check_posture_annotation_ok, check_conformance_ok. done.
Qed.

(** C10. A pod is admitted exactly when it names no profile, or when its profile is
    found and sound, and the pod says that it carries the envelope, has one
    worker container, keeps the sandbox and conforms to the profile: in the
    settings of the pod and the worker that [template_conforms] lists, in its
    affinity and tolerations up to what the API server adds, in the names of its
    containers, volumes and mounts, in who holds the cloud identity and in the
    sources of the worker's variables.  Of the other containers and of volumes
    only the names are compared, and volumes named like the API server's token
    are not looked at, so a pod can be admitted that neither the dispatcher nor
    the mutating webhook made. *)
Theorem validate_iff pod ns :
  validate pod ns = Allow ↔
  profile_name pod = None ∨
  ∃ name p spec w, profile_name pod = Some name ∧ profile_get ns name = Ok (Some p) ∧ profile_fits p ∧
    admissible pod p spec w.
Proof.
  unfold validate, review, is_eligible. destruct (profile_name pod) as [name|] eqn:En.
  - rewrite bool_decide_eq_true_2 by done. cbn [negb]. pose proof (validate_inner_ok pod ns) as Hv. rewrite En in Hv.
    destruct (validate_inner pod ns) as [[]|e] eqn:E; cbn.
    + split; [|done]. intros _. right. destruct (proj1 (Hv true) eq_refl) as (? & ? & ? & ? & ? & ? & ? & ? & ?). eauto 10.
    + split; [|done]. intros _. right. destruct (proj1 (Hv false) eq_refl) as (? & ? & ? & ? & ? & ? & ? & ? & ?). eauto 10.
    + split; [done|]. intros [?|(? & p & ? & ? & ? & ? & ? & ?)]; [done|].
      assert (Err e = Ok (bool_decide (pr_exposure p = None))) as Hx; [|done]. apply Hv. eauto 10.
  - rewrite bool_decide_eq_false_2 by (by intros []). naive_solver.
Qed.

End review.

(** ** Narrower affinities *)

Section affinity.
(** Which requirements a node satisfies. *)
Variable satisfies : NodeSelectorRequirement → Prop.

Definition requirements (t : NodeSelectorTerm) : list NodeSelectorRequirement :=
  flat (nt_match_expressions t) ++ flat (nt_match_fields t).

(** A term without requirements matches no node. *)
Definition term_matches (t : NodeSelectorTerm) : Prop := requirements t ≠ [] ∧ Forall satisfies (requirements t).

Definition required_terms (a : option Affinity) : option (list NodeSelectorTerm) :=
  (a ≫= af_node_affinity) ≫= na_required.

Definition node_allowed (a : option Affinity) : Prop :=
  match required_terms a with None => True | Some terms => Exists term_matches terms end.

Lemma requirements_in_incl have want r : requirements_in have want = true → r ∈ flat want → r ∈ flat have.
Proof.
  unfold requirements_in. rewrite forallb_forall. intros Hw Hr. apply list_elem_of_In in Hr. specialize (Hw r Hr).
  by apply existsb_true in Hw as (x & Hx & ->%bool_decide_eq_true).
Qed.

Lemma term_implies_matches term allowed :
  term_implies term allowed = true → requirements allowed ≠ [] → term_matches term → term_matches allowed.
Proof.
  intros [He Hf]%andb_true_iff Hne [_ Hs]. split; [done|]. rewrite Forall_forall in Hs |- *. intros r Hr. apply Hs.
  unfold requirements in *. rewrite elem_of_app in *. destruct Hr as [Hr|Hr]; [left|right]; by eapply requirements_in_incl.
Qed.

Lemma required_default a :
  na_required (default NodeAffinity_default (af_node_affinity (default Affinity_default a))) = required_terms a.
Proof. unfold required_terms. destruct a as [[[]]|]; done. Qed.

(** An affinity the webhook takes for narrower admits only nodes that the
    profile's affinity admits, if no required term of the profile is empty. *)
Theorem narrows_affinity_shrinks have want :
  narrows_affinity have want = true →
  (∀ terms t, required_terms want = Some terms → t ∈ terms → requirements t ≠ []) →
  node_allowed have → node_allowed want.
Proof.
  unfold narrows_affinity. cbv zeta. rewrite !required_default. intros Hn Hne. unfold node_allowed.
  destruct (_ || _); [done|]. destruct (negb _); [done|]. destruct (required_terms want) as [ws|] eqn:Ew; [|done].
  destruct (required_terms have) as [hs|]; [|done]. rewrite forallb_forall in Hn. intros (t & Ht & Hm)%Exists_exists.
  apply list_elem_of_In in Ht as Hin. apply Hn, existsb_true in Hin as (a & Ha & Hi). apply Exists_exists. exists a.
  split; [done|]. by eapply term_implies_matches; [|apply (Hne ws)|].
Qed.

End affinity.

Definition zone_term : NodeSelectorTerm := mkTerm (Some [mkRequirement "zone" "In" (Some ["a"])]) None.
Definition require (terms : list NodeSelectorTerm) : option Affinity :=
  Some (mkAffinity (Some (mkNodeAffinity None (Some terms))) None None).

Lemma narrows_affinity_shrinks_witness :
  node_allowed (λ _, True) (require [zone_term]).
Proof.
  apply (narrows_affinity_shrinks (λ _, True) (require [zone_term; zone_term]) (require [zone_term])).
  - reflexivity.
  - intros terms t [= <-] Ht. apply elem_of_cons in Ht as [->|[]%not_elem_of_nil]. done.
  - left. split; [done|]. repeat constructor.
Defined.

(** A required term of the profile that is empty admits no node, and every
    required term passes for narrower. *)
Example empty_term_widens :
  narrows_affinity (require [zone_term]) (require [mkTerm None None]) = true ∧
  node_allowed (λ _, True) (require [zone_term]) ∧ ¬ node_allowed (λ _, True) (require [mkTerm None None]).
Proof.
  split_and!; [reflexivity| |].
  - left. split; [done|]. repeat constructor.
  - intros (t & Ht & [Hne _])%Exists_exists. by apply elem_of_cons in Ht as [-> |[]%not_elem_of_nil].
Qed.
