(* ===== verification/Spawn.v ===== *)
(** * Rendering a dispatch as a Job
    ([cctui-dispatcher-kube/src/spawn.rs] with its modules [handle],
    [queue_hold], [exposure] and [worker_exit], [cctui-dispatcher-core] and
    [cctui-proto/src/worker_env.rs])

    A dispatch selects a profile and carries run data; the Job that runs it is
    built from both.  The sources assemble JSON objects from typed values and
    read them back as typed values; here they are the typed values.  SHA-1 and
    the text of JSON values are parameters. *)

From stdpp Require Import base decidable list gmap sets strings sorting.
From Stdlib Require Import Lia ZArith Bool Ascii String.
From S2P Require Import Prelude RustStr Json Kube Envelope Validate.

(** ** Environment names of a payload ([worker_env.rs]) *)

Definition RESERVED_EXACT : list string := ["SESSION_ID"; "REPLY_URL"; "BASH_ENV"; "ENV"; "PATH"].
Definition RESERVED_PREFIXES : list string := ["CCTUI_"; "TASK_"; "LD_"; "DYLD_"].
Definition WORKER_INTERNAL_EXACT : list string :=
  ["PRIVATE_ALLOW_FILE"; "TERMINATION_LOG"; "DISPATCH_ENV_URL"; "NET_MODE"; "ACP_AGENTS"].
Definition WORKER_INTERNAL_PREFIXES : list string := ["WORKER_"; "GUARD_"; "PROXY_"; "POLICY_"].
Definition PLUGIN_DENIED_EXACT : list string :=
  ["HOME"; "SHELL"; "USER"; "NODE_OPTIONS"; "TMPDIR"; "XDG_CONFIG_HOME"].
Definition PLUGIN_DENIED_PREFIXES : list string :=
  ["ANTHROPIC_"; "CLAUDE_"; "OPENAI_"; "FIREWORKS_"; "CODEX_"; "GEMINI_"; "GOOGLE_"; "QWEN_"; "GOOSE_"].
Definition SERVER_ENV_KEYS_FIELD : string := "server_env_keys".
Definition DISPATCHER_OWNED_EXACT : list string :=
  [ "CCTUI_URL"; "CCTUI_MACHINE_KEY"; "CCTUI_DISPATCH_ID"; "CCTUI_GUARD_EXEC"; "CCTUI_LANDLOCK_STRICT";
    "SESSION_ID"; "REPLY_URL" ].

Definition has_prefix (prefixes : list string) (s : string) : bool := existsb (λ p, starts_with p s) prefixes.

Definition is_worker_internal (upper : string) : bool :=
  existsb (String.eqb upper) WORKER_INTERNAL_EXACT || has_prefix WORKER_INTERNAL_PREFIXES upper ||
  (starts_with "CONTEXT_" upper && negb (starts_with "CONTEXT_PACK_" upper)).

Definition is_reserved_env_key (name : string) : bool :=
  let upper := to_ascii_uppercase name in
  existsb (String.eqb upper) RESERVED_EXACT || has_prefix RESERVED_PREFIXES upper ||
  ends_with "_PROXY" upper || is_worker_internal upper.

Definition valid_plugin_env_name (name : string) : bool :=
  match name with
  | "" => false
  | String c rest =>
    is_ascii_uppercase c && (String.length name <=? 64)%nat &&
    all_chars (λ c, is_ascii_uppercase c || is_ascii_digit c || Ascii.eqb c "_"%char) rest
  end && negb (is_reserved_env_key name) && negb (existsb (String.eqb name) PLUGIN_DENIED_EXACT) &&
  negb (has_prefix PLUGIN_DENIED_PREFIXES name).

Definition is_dispatcher_owned (name : string) : bool :=
  let upper := to_ascii_uppercase name in
  existsb (String.eqb upper) DISPATCHER_OWNED_EXACT || starts_with "TASK_" upper || is_worker_internal upper.

Definition first_reserved (payload : Value) (exempt : list string) : result string unit :=
  match jget "env" payload ≫= as_object with
  | None => Ok ()
  | Some env =>
    match List.find (λ k, is_reserved_env_key k && (is_dispatcher_owned k || negb (existsb (String.eqb k) exempt)))
            env.*1 with
    | None => Ok ()
    | Some k => Err ("payload env `" ++s k ++s "` is reserved by the dispatcher and cannot be set")
    end
  end.

Definition check_caller_payload_env (payload : Value) : result string unit := first_reserved payload [].

(** The keys the server minted. *)
Definition server_keys (payload : Value) : list string :=
  match jget SERVER_ENV_KEYS_FIELD payload ≫= as_array with Some a => omap as_str a | None => [] end.

Definition check_payload_env (payload : Value) : result string unit := first_reserved payload (server_keys payload).

(** ** Dispatches ([dispatcher.rs], [ws.rs]) *)

Record WireDispatchSpec := mkDispatch {
  ds_session_id : string;
  ds_timeout_minutes : option N;
  ds_reply_url : option string;
  ds_dedup_key : option string;
  ds_profile : option string;
  ds_payload : Value;
  ds_traceparent : option string;
}.

(** The hexadecimal SHA-1 of a text. *)
Class Sha1 := sha1_hex : string → string.

Definition worker_name `{Sha1} (source : string) : string := "cctui-worker-" ++s stake 12 (sha1_hex source).

Definition dedup_source (spec : WireDispatchSpec) : string :=
  match ds_dedup_key spec with
  | Some k => if is_empty k then ds_session_id spec else k
  | None => ds_session_id spec
  end.

Definition label_char (c : ascii) : bool := is_ascii_alphanumeric c || ascii_in ["_"; "."; "-"]%char c.

(** A character of a label, or a dash for any other. *)
Definition label_map (u : string) : string :=
  match u with String c "" => if label_char c then u else "-" | _ => "-" end.

Definition label_safe (value : string) : string :=
  let truncated := join "" (take 63 (label_map <$> uchars value)) in
  let trimmed := trim_matches (ascii_in ["-"; "_"; "."]%char) truncated in
  if is_empty trimmed then "session" else trimmed.

Definition nonblank (o : option string) : option string :=
  s ← trim <$> o; if is_empty s then None else Some s.

Definition resolve_profile_name (spec : WireDispatchSpec) (default_profile : string) : option string :=
  or_else (nonblank (ds_profile spec))
    (or_else (nonblank (get_str "profile" (ds_payload spec))) (nonblank (Some default_profile))).

Definition DEFAULT_TIMEOUT_MINUTES : N := 60.
Definition JOB_TTL_SECONDS : Z := 3600.
Definition PENDING_FAILURE_SECS : Z := 300.

Definition default_deadline_secs (var : option string) : Z :=
  let minutes := default DEFAULT_TIMEOUT_MINUTES
    (m ← (v ← var; parse_u32 (trim v)); if (0 <? m)%N then Some m else None) in
  Z.of_N minutes * 60.

(** ** Jobs *)

Definition LABEL_ORIGIN : string := "cctui.dev/origin".
Definition LABEL_SESSION_ID : string := "cctui.dev/session-id".
Definition ANNOTATION_SESSION_ID : string := "cctui.dev/session-id".
Definition DISPATCH_SECRET_PREFIXES : list string := ["vault:"; "bao:"; "k8s:"].
Definition PLACEHOLDER_MACHINE_KEY : string := "cctui-dispatch-placeholder-key".

Record JobCondition := mkCondition {
  jc_type : string;
  jc_status : string;
  jc_reason : option string;
  jc_message : option string;
}.

Record JobStatus := mkJobStatus {
  js_conditions : option (list JobCondition);
  js_active : option Z;
  js_succeeded : option Z;
  js_failed : option Z;
  js_ready : option Z;
  js_uncounted : option (option (list string) * option (list string));
}.

Record JobSpec := mkJobSpec {
  jp_backoff_limit : option Z;
  jp_ttl_seconds_after_finished : option Z;
  jp_active_deadline_seconds : option Z;
  jp_suspend : option bool;
  jp_template : PodTemplateSpec;
}.

Record Job := mkJob { j_metadata : ObjectMeta; j_spec : option JobSpec; j_status : option JobStatus }.

(** ** The environment of a run *)

Record RunEnv := mkRunEnv {
  re_literal : list (string * string);
  re_machine_key : option string;
  re_env : gmap string string;
  re_identity : option string;
}.

(** One entry of the payload's environment. *)
Definition add_payload_env (profile : WorkerProfileSpec) (env : gmap string string) (kv : string * Value) :
    result string (gmap string string) :=
  let '(k, v) := kv in
  if existsb (λ e, (ev_name e ==s k) && bool_decide (is_Some (ev_value_from e))) (flat (pr_env profile)) then
    Err ("payload env `" ++s k ++s "` would replace a profile `valueFrom` entry and cannot be set")
  else
    match as_str v with
    | None => Ok env
    | Some val =>
      match List.find (λ p, starts_with p val) DISPATCH_SECRET_PREFIXES with
      | Some prefix => Err ("payload env `" ++s k ++s "` uses secret-ref prefix `" ++s prefix ++s
          "` — secret refs are resolved by the guard-proxy sidecar, not passed through worker env")
      | None => Ok (<[k := val]> env)
      end
    end.

Section render.
Context {json : JsonText}.

Definition run_payload (spec : WireDispatchSpec) : Value :=
  match ds_payload spec with
  | JObj o =>
    let o := obj_remove "env" (obj_remove SERVER_ENV_KEYS_FIELD (obj_remove "profile"
               (obj_remove "cctui_machine_key" o))) in
    JObj (match ds_traceparent spec with Some t => obj_insert "traceparent" (JStr t) o | None => o end)
  | v => v
  end.

(** A text of the payload's object. *)
Definition payload_str (k : string) (spec : WireDispatchSpec) : option string := get_str k (ds_payload spec).

Definition run_env (cctui_url : string) (profile : WorkerProfileSpec) (spec : WireDispatchSpec) :
    result string RunEnv :=
  _ ← check_payload_env (ds_payload spec);
  let machine_key := payload_str "cctui_machine_key" spec in
  let identity := i ← payload_str "identity" spec; if is_empty i then None else Some i in
  let literal :=
    [ ("SESSION_ID", ds_session_id spec); ("TASK_ID", ds_session_id spec);
      ("TASK_PAYLOAD_JSON", json_to_string (run_payload spec)); ("CCTUI_URL", cctui_url) ] ++
    match payload_str "name" spec with Some n => [("TASK_NAME", n)] | None => [] end ++
    match ds_reply_url spec with Some u => [("REPLY_URL", u)] | None => [] end ++
    [("CCTUI_MACHINE_KEY", PLACEHOLDER_MACHINE_KEY)] in
  env ← match jget "env" (ds_payload spec) with
        | Some (JObj m) => try_fold (add_payload_env profile) ∅ m
        | _ => Ok ∅
        end;
  Ok (mkRunEnv literal machine_key env identity).

Record RegisterRequest := mkRegister {
  rg_dispatch_id : string;
  rg_session_id : string;
  rg_namespace : string;
  rg_job_name : string;
  rg_machine_key : string;
  rg_env : gmap string string;
}.

Record JobIdentity := mkJobIdentity { ji_name : string; ji_dispatch_id : string }.

Definition registration (cctui_url : string) (profile : WorkerProfileSpec) (spec : WireDispatchSpec)
    (namespace : string) (job : JobIdentity) : result string RegisterRequest :=
  re ← run_env cctui_url profile spec;
  key ← ok_or (re_machine_key re) "dispatch payload carries no cctui_machine_key";
  Ok (mkRegister (ji_dispatch_id job) (ds_session_id spec) namespace (ji_name job) key (re_env re)).

(** ** The pod template *)

(** The first entry of a name is replaced, or one is added. *)
Fixpoint merge_one (env : list EnvVar) (k v : string) : list EnvVar :=
  match env with
  | [] => [mkEnvVar k (Some v) None]
  | e :: env => if ev_name e ==s k then mkEnvVar k (Some v) None :: env else e :: merge_one env k v
  end.

Definition merge_env (env : list EnvVar) (overrides : list (string * string)) : list EnvVar :=
  foldl (λ env kv, merge_one env kv.1 kv.2) env overrides.

Definition preflight_env (profile : WorkerProfileSpec) : list (string * string) :=
  match pr_preflight profile with Some p => worker_env p | None => [] end.

Definition render_worker (profile : WorkerProfileSpec) (worker_name : string) (overrides : list (string * string)) :
    Container :=
  mkContainer worker_name (Some (pr_image profile)) (pr_command profile) (pr_args profile)
    (Some (merge_env (merge_env (flat (pr_env profile)) overrides) (preflight_env profile)))
    (pr_env_from profile) None (pr_volume_mounts profile) None (pr_resources profile) None ∅.

Definition pod_spec (profile : WorkerProfileSpec) (worker_name : string) (overrides : list (string * string)) :
    result string PodSpec :=
  _ ← match pr_pod profile with
      | Some settings => map_err (String.append "spec.pod: ") (check_pod_settings settings)
      | None => Ok ()
      end;
  Ok (mkPodSpec (render_worker profile worker_name overrides :: flat (pr_containers profile))
        (pr_init_containers profile) (pr_volumes profile) None None None None (Some false) (Some false)
        (pr_service_account_name profile) (pr_node_selector profile) (pr_runtime_class_name profile)
        (pr_affinity profile) (pr_tolerations profile) (profile_priority_class profile) (Some "Never")
        (pr_image_pull_secrets profile) ∅).

Definition with_profile_metadata (profile : option (gmap string string)) (managed : gmap string string) :
    gmap string string := managed ∪ default ∅ profile.

Definition stamp_posture (annotations : gmap string string) (profile : WorkerProfileSpec) : gmap string string :=
  let annotations := delete ANNOTATION_POSTURE annotations in
  match Posture_annotation (profile_posture profile) with
  | Some posture => <[ANNOTATION_POSTURE := posture]> annotations
  | None => annotations
  end.

(** The annotations of the profile, [spec.pod] over [podAnnotations]. *)
Definition profile_annotations (profile : WorkerProfileSpec) : gmap string string :=
  default ∅ (pod_metadata_annotations profile) ∪ default ∅ (pr_pod_annotations profile).

Definition insert_opt (k : string) (v : option string) (m : gmap string string) : gmap string string :=
  match v with Some v => <[k := v]> m | None => m end.

Definition template_annotations (cctui_url : string) (profile : WorkerProfileSpec) (spec : WireDispatchSpec)
    (identity : option string) (dispatch_id : string) : gmap string string :=
  let m := profile_annotations profile in
  let m := <[ANNOTATION_SESSION_ID := ds_session_id spec]> m in
  let m := <[ANNOTATION_WORKER_CONTAINER := profile_worker_name profile]> m in
  let m := insert_opt ANNOTATION_GUARD_IDENTITY identity m in
  let m := if pr_gpg_signing profile then <[ANNOTATION_GPG_SIGNING := "true"]> m else m in
  let m := stamp_posture m profile in
  <[ANNOTATION_SERVER_URL := cctui_url]> (<[ANNOTATION_DISPATCH_ID := dispatch_id]> m).

Definition managed_labels (profile_name : string) (spec : WireDispatchSpec) : gmap string string :=
  <[LABEL_WORKER_PROFILE := label_safe profile_name]>
    (<[LABEL_SESSION_ID := label_safe (ds_session_id spec)]> {[LABEL_ORIGIN := "cctui-kube-dispatcher"]}).

Definition meta (name : option string) (labels annotations : gmap string string) : ObjectMeta :=
  mkMeta name None (Some labels) (Some annotations) None None ∅.

Definition build_job (cctui_url profile_name : string) (profile : WorkerProfileSpec) (spec : WireDispatchSpec)
    (job : JobIdentity) (default_deadline_secs : Z) (suspend : bool) : result string Job :=
  re ← run_env cctui_url profile spec;
  let dispatch_id := ji_dispatch_id job in
  let overrides := re_literal re ++ [("CCTUI_DISPATCH_ID", dispatch_id)] in
  let worker_name := profile_worker_name profile in
  pod ← pod_spec profile worker_name overrides;
  let labels := with_profile_metadata (pod_labels profile) (managed_labels profile_name spec) in
  let job_annotations := with_profile_metadata (pod_metadata_annotations profile)
    (<[ANNOTATION_DISPATCH_ID := dispatch_id]> {[ANNOTATION_SESSION_ID := ds_session_id spec]}) in
  let annotations := template_annotations cctui_url profile spec (re_identity re) dispatch_id in
  let deadline := match ds_timeout_minutes spec with Some m => Z.of_N m * 60 | None => default_deadline_secs end%Z in
  Ok (mkJob (meta (Some (ji_name job)) labels job_annotations)
        (Some (mkJobSpec (Some 0%Z) (Some JOB_TTL_SECONDS) (Some deadline) (if suspend then Some true else None)
           (mkTemplate (Some (meta None labels annotations)) (Some pod)))) None).

End render.

(** ** Handles ([handle.rs]) *)

Record JobHandle := mkHandle { h_name : string; h_session : option string }.

Definition handle_parse (handle : string) : JobHandle :=
  let rest := default handle (strip_prefix "jobs/" handle) in
  match split_once (Ascii.eqb "/"%char) rest with
  | Some (name, session) => if is_empty session then mkHandle name None else mkHandle name (Some session)
  | None => mkHandle rest None
  end.

Definition handle_format (name : string) (session : option string) : string :=
  match (s ← session; if is_empty s then None else Some s) with
  | Some session => "jobs/" ++s name ++s "/" ++s session
  | None => "jobs/" ++s name
  end.

Definition job_session (job : Job) : option string := annotation (j_metadata job) ANNOTATION_SESSION_ID.

Definition owns (h : JobHandle) (job : Job) : bool :=
  match h_session h with
  | None => true
  | Some session => match job_session job with None => true | Some owner => owner ==s session end
  end.

(** ** The life of a Job *)

Definition terminal_condition (c : JobCondition) : bool :=
  (jc_status c ==s "True") && ((jc_type c ==s "Complete") || (jc_type c ==s "Failed")).

Definition job_conditions (job : Job) : list JobCondition :=
  match j_status job with Some s => flat (js_conditions s) | None => [] end.

Definition job_terminal_state (job : Job) : option string :=
  (λ c, if jc_type c ==s "Complete" then "Complete" else "Failed") <$>
  List.find terminal_condition (job_conditions job).

Definition live (job : Job) : bool := bool_decide (job_terminal_state job = None).

Definition job_suspended (job : Job) : bool := bool_decide ((j_spec job ≫= jp_suspend) = Some true).

Definition absorbs (existing : option Job) : bool := match existing with Some j => live j | None => false end.

Definition job_name (job : Job) : option string := om_name (j_metadata job).

(** [must_queue]: the queued and the active Jobs but the one of the name. *)
Definition others (jobs : list Job) (this_name : string) : list Job :=
  List.filter live (List.filter (λ j, negb (bool_decide (job_name j = Some this_name))) jobs).

Definition must_queue (jobs : list Job) (cap : N) (this_name : string) : bool :=
  let rest := others jobs this_name in
  let queued := List.length (List.filter job_suspended rest) in
  let active := List.length (List.filter (λ j, negb (job_suspended j)) rest) in
  (0 <? queued)%nat || (cap <=? N.of_nat active)%N.

Definition profile_must_queue (jobs : list Job) (max_inflight : option N) (this_name : string) : bool :=
  match max_inflight with
  | Some cap => if (0 <? cap)%N then must_queue jobs cap this_name else false
  | None => false
  end.

Definition enforce_inflight_cap (max_inflight : N) (jobs : list Job) (this_name : string) : result string unit :=
  if (max_inflight =? 0)%N then Ok ()
  else
    let inflight := N.of_nat (List.length (others jobs this_name)) in
    if (max_inflight <=? inflight)%N then
      Err ("worker concurrency cap reached: " ++s u32_to_string inflight ++s
           " in-flight >= CCTUI_WORKER_MAX_INFLIGHT=" ++s u32_to_string max_inflight)
    else Ok ().

(** [queue_key]: the time of creation, then the name; none comes first. *)
Definition opt_leb {A} (leb eqb : A → A → bool) (x y : option A) (next : bool) : bool :=
  match x, y with
  | None, None => next
  | None, Some _ => true
  | Some _, None => false
  | Some x, Some y => if eqb x y then next else leb x y
  end.

Definition queue_leb (a b : Job) : bool :=
  opt_leb Z.leb Z.eqb (om_creation_timestamp (j_metadata a)) (om_creation_timestamp (j_metadata b))
    (opt_leb String.leb String.eqb (job_name a) (job_name b) true).

Definition queue_le (a b : Job) : Prop := queue_leb a b = true.

#[export] Instance queue_le_dec : RelDecision queue_le.
Proof. intros a b. unfold queue_le. apply _. Defined.

(** The keys of Jobs of one namespace are distinct. *)
Definition sort_queue (jobs : list Job) : list Job := merge_sort queue_le jobs.

Definition jobs_to_resume (queued : list Job) (active : nat) (cap : option N) : list Job :=
  let slots :=
    match (c ← cap; if (0 <? c)%N then Some c else None) with
    | Some c => (N.to_nat c - active)%nat
    | None => List.length queued
    end in
  take slots (sort_queue queued).

Definition worker_profile_label (job : Job) : option string :=
  om_labels (j_metadata job) ≫= (.!! LABEL_WORKER_PROFILE).

Definition named (name : string) (j : Job) : bool := bool_decide (job_name j = Some name).

Definition queue_position (jobs : list Job) (name : string) : option N :=
  job ← List.find (named name) jobs;
  let profile := worker_profile_label job in
  let queued := List.filter (λ j, job_suspended j && live j)
                  (List.filter (λ j, bool_decide (worker_profile_label j = profile)) jobs) in
  at_ ← position (named name) (sort_queue queued);
  let n := N.of_nat (at_ + 1) in
  if (n <=? u32_max)%N then Some n else None.

(** ** Drift *)

Definition is_zero (v : option Z) : bool := (default 0 v =? 0)%Z.

Definition none_or_empty (l : option (list string)) : bool := bool_decide (flat l = []).

Definition job_never_ran (job : Job) : bool :=
  match j_status job with
  | None => true
  | Some s =>
    is_zero (js_active s) && is_zero (js_succeeded s) && is_zero (js_failed s) && is_zero (js_ready s) &&
    match js_uncounted s with None => true | Some (succ, fail) => none_or_empty succ && none_or_empty fail end
  end.

Inductive Disposition := Recreate | LeaveAlone | Stranded.

Definition drift_disposition (never_ran has_pods suspended : bool) : Disposition :=
  if never_ran && negb has_pods then Recreate
  else if has_pods || suspended then LeaveAlone
  else Stranded.

(** The entries cctui owns. *)
Definition ours (m : option (gmap string string)) : gmap string string :=
  filter (λ kv, starts_with "cctui.dev/" kv.1 = true) (default ∅ m).

(** The literal environment of the old worker. *)
Definition old_overrides (old_pod : PodSpec) (old_worker : string) : list (string * string) :=
  match List.find (λ c, c_name c ==s old_worker) (sp_containers old_pod) with
  | None => []
  | Some c => omap (λ e, (λ v, (ev_name e, v)) <$> ev_value e) (flat (c_env c))
  end.

Definition rebuild_annotations (old_meta : ObjectMeta) (profile : WorkerProfileSpec) : gmap string string :=
  let m := ours (om_annotations old_meta) ∪ profile_annotations profile in
  let m := <[ANNOTATION_WORKER_CONTAINER := profile_worker_name profile]> m in
  let m := if pr_gpg_signing profile then <[ANNOTATION_GPG_SIGNING := "true"]> m
           else delete ANNOTATION_GPG_SIGNING m in
  stamp_posture m profile.

Definition rebuild_job (old : Job) (profile : WorkerProfileSpec) : result string Job :=
  name ← ok_or (job_name old) "worker Job has no name";
  old_spec ← ok_or (j_spec old) ("worker Job `" ++s name ++s "` has no spec");
  let old_meta := template_meta (jp_template old_spec) in
  old_pod ← ok_or (pt_spec (jp_template old_spec)) ("worker Job `" ++s name ++s "` has no pod template spec");
  let old_worker := default DEFAULT_WORKER_CONTAINER (annotation old_meta ANNOTATION_WORKER_CONTAINER) in
  pod ← pod_spec profile (profile_worker_name profile) (old_overrides old_pod old_worker);
  Ok (mkJob
        (meta (Some name) (with_profile_metadata (pod_labels profile) (ours (om_labels (j_metadata old))))
           (with_profile_metadata (pod_metadata_annotations profile) (ours (om_annotations (j_metadata old)))))
        (Some (mkJobSpec (Some (default 0%Z (jp_backoff_limit old_spec)))
           (Some (default JOB_TTL_SECONDS (jp_ttl_seconds_after_finished old_spec)))
           (jp_active_deadline_seconds old_spec)
           (if bool_decide (jp_suspend old_spec = Some true) then Some true else None)
           (mkTemplate (Some (meta None (with_profile_metadata (pod_labels profile) (ours (om_labels old_meta)))
              (rebuild_annotations old_meta profile))) (Some pod)))) None).
