(* ===== verification/Admission.v ===== *)
(** * The admission webhooks ([cctui-orchestrator/src/main.rs]) and the Jobs
    they admit

    The two handlers, and the composition of the three parts: a Job that the
    dispatcher renders from a sound profile becomes a pod that the mutating
    webhook sandboxes and the validating webhook admits.  Admission reviews
    are read and written by the kube library; the encoding of a patch is a
    parameter. *)

From stdpp Require Import base decidable list gmap sets strings sorting.
From Stdlib Require Import Lia ZArith Bool Ascii String.
From S2P Require Import Prelude RustStr Json Gate Kube Envelope Validate ValidateFacts Spawn.

(** ** Handlers *)

Record AdmissionRequest := mkRequest {
  rq_uid : string;
  rq_namespace : option string;
  rq_object : option Pod;
}.

Record AdmissionResponse (P : Type) := mkResponse {
  rs_uid : string;
  rs_allowed : bool;
  rs_message : option string;
  rs_patch : option P;
  rs_warnings : option (list string);
  rs_audit : gmap string string;
}.
Arguments mkResponse {_} _ _ _ _ _ _.
Arguments rs_allowed {_} _.
Arguments rs_patch {_} _.
Arguments rs_uid {_} _.
Arguments rs_message {_} _.
Arguments rs_warnings {_} _.
Arguments rs_audit {_} _.

(** [AdmissionResponse::from], [deny] and [invalid]. *)
Definition response_from {P} (req : AdmissionRequest) : AdmissionResponse P :=
  mkResponse (rq_uid req) true None None None ∅.
Definition response_deny {P} (r : AdmissionResponse P) (message : string) : AdmissionResponse P :=
  mkResponse (rs_uid r) false (Some message) (rs_patch r) (rs_warnings r) (rs_audit r).
Definition response_invalid {P} (message : string) : AdmissionResponse P :=
  mkResponse "" false (Some message) None None ∅.

Definition request_namespace (req : AdmissionRequest) (pod : Pod) : string :=
  default "default" (or_else (rq_namespace req) (om_namespace (p_metadata pod))).

Definition AUDIT_EXPOSURE : string := "exposure".

Section handlers.
Context {source : ProfileSource} {J P : Type} {pj : PodJson J P}.
(** [with_patch]: an error when the patch cannot be encoded. *)
Variable encode_patch : P → result string P.
Variable sidecar_image : string.

Definition profile_guard (req : AdmissionRequest) (pod : Pod) : result string (option GuardSpec * ProfileFlags) :=
  if negb (is_eligible pod) || is_injected pod then Ok (None, ProfileFlags_default)
  else
    match profile_name pod with
    | None => Ok (None, ProfileFlags_default)
    | Some name =>
      let namespace := request_namespace req pod in
      profile ← map_err (λ e, "cannot resolve WorkerProfile `" ++s name ++s "` in `" ++s namespace ++s "`: " ++s e)
                  (profile_get namespace name);
      Ok match profile with
         | None => (None, ProfileFlags_default)
         | Some p => (pr_guard p, mkFlags (exec_interception p) (pr_human_gate p))
         end
    end.

Definition mutate (review : result string AdmissionRequest) : AdmissionResponse P :=
  match review with
  | Err e => response_invalid e
  | Ok req =>
    match rq_object req with
    | None => response_from req
    | Some pod =>
      match ('(guard, flags) ← profile_guard req pod; mutate_pod pod sidecar_image guard flags) with
      | Ok (Patch patch) =>
        match encode_patch patch with
        | Ok patch => mkResponse (rq_uid req) true None (Some patch) None ∅
        | Err e => response_deny (response_from req) e
        end
      | Ok _ => response_from req
      | Err e => response_deny (response_from req) e
      end
    end
  end.

Definition respond (resp : AdmissionResponse P) (v : Verdict) : AdmissionResponse P :=
  match vd_decision v with
  | Deny message => response_deny resp message
  | Allow =>
    mkResponse (rs_uid resp) (rs_allowed resp) (rs_message resp) (rs_patch resp)
      (match vd_warnings v with [] => rs_warnings resp | ws => Some ws end)
      (if vd_exposure_undeclared v then <[AUDIT_EXPOSURE := "undeclared"]> (rs_audit resp) else rs_audit resp)
  end.

Definition validate_handler (request : result string AdmissionRequest) : AdmissionResponse P :=
  match request with
  | Err e => response_invalid e
  | Ok req =>
    let resp := response_from req in
    match rq_object req with
    | None => resp
    | Some pod => respond resp (review pod (request_namespace req pod))
    end
  end.

End handlers.

(** ** From a profile to an admitted pod *)

(** A value that does not look like a secret reference. *)
Definition plain (v : string) : Prop := ∀ prefix, prefix ∈ SECRET_REF_PREFIXES → starts_with prefix v = false.

(** A profile whose pods can be admitted: it fits the webhook's rules, and what
    it adds does not collide with the envelope. *)
Record deployable (p : WorkerProfileSpec) : Prop := {
  dp_fits : profile_fits p;
  dp_one_worker : profile_worker_name p ∉ c_name <$> flat (pr_containers p);
  dp_no_proxy : GUARD_PROXY_CONTAINER ∉ c_name <$> flat (pr_init_containers p);
  dp_annotations : ∀ k, is_Some (profile_annotations p !! k) → starts_with "cctui.dev/" k = false;
  dp_apparmor : ∀ v, profile_annotations p !! (APPARMOR_ANNOTATION_PREFIX ++s profile_worker_name p) = Some v →
    eq_ignore_ascii_case v "unconfined" = false;
  dp_volumes : ∀ n, n ∈ v_name <$> flat (pr_volumes p) →
    is_api_server_injected n = false ∧ n ∉ profile_identity p;
  dp_mounts : ∀ n, n ∈ vm_name <$> flat (pr_volume_mounts p) →
    is_api_server_injected n = false ∧ n ∉ profile_identity p;
  dp_host_paths : ∀ v, v ∈ flat (pr_volumes p) → is_Some (v_host_path v) → v_name v ∉ wanted_mounts p;
  dp_identity : ∀ c n, c ∈ flat (pr_containers p) ++ flat (pr_init_containers p) → n ∈ mount_names c →
    n ∉ profile_identity p;
  dp_env : ∀ e v, e ∈ flat (pr_env p) → ev_value e = Some v → plain v;
  dp_preflight : ∀ kv, kv ∈ preflight_env p → plain kv.2;
}.

(** A pod the Job controller makes from a template: the template's spec and
    annotations, and its labels with more. *)
Record created_from (t : PodTemplateSpec) (pod : Pod) : Prop := {
  cr_spec : p_spec pod = pt_spec t;
  cr_annotations : om_annotations (p_metadata pod) = om_annotations (template_meta t);
  cr_labels : ∀ k v, (om_labels (template_meta t) ≫= (.!! k)) = Some v →
    (om_labels (p_metadata pod) ≫= (.!! k)) = Some v;
}.

(** *** The rendered environment *)

Lemma merge_one_elem env k v e : e ∈ merge_one env k v → e ∈ env ∨ e = mkEnvVar k (Some v) None.
Proof. induction env as [|x env IH]; cbn; [set_solver|]. destruct (ev_name x ==s k); set_solver. Qed.

Lemma merge_env_elem env overrides e :
  e ∈ merge_env env overrides → e ∈ env ∨ ∃ kv, kv ∈ overrides ∧ e = mkEnvVar kv.1 (Some kv.2) None.
Proof.
  unfold merge_env. revert env. induction overrides as [|kv l IH]; intros env; cbn; [by left|].
  intros [Hin|(kv' & ? & ->)]%IH; [|right; exists kv'; set_solver].
  apply merge_one_elem in Hin as [?| ->]; [by left|right; exists kv; set_solver].
Qed.

Lemma plain_allowed p k v : plain v → env_allowed p (mkEnvVar k (Some v) None).
Proof. intros Hv. constructor; cbn; [done|done|]. by intros ? prefix [= <-] ?; apply Hv. Qed.

(** An entry of the profile is declared by the profile. *)
Lemma declares_own field p e k :
  e ∈ flat (pr_env p) → (ev_value_from e ≫= field) = Some k → declared field p (ev_name e) k.
Proof.
  intros He Hk. by exists e, k.
Qed.

Lemma own_allowed p e : (∀ v, ev_value e = Some v → plain v) → e ∈ flat (pr_env p) → env_allowed p e.
Proof.
  intros Hv He. constructor.
  - intros k Hk. by apply declares_own.
  - intros k _ Hk. by apply declares_own.
  - intros v prefix Hval Hp. by apply (Hv v).
Qed.

Lemma sandboxed_env cfg w e :
  e ∈ flat (c_env (sandbox_worker cfg w)) →
  e ∈ flat (c_env w) ∨ e = mkEnvVar "WORKER_NET_MODE" (Some "transparent-external") None ∨
  e = mkEnvVar "NODE_EXTRA_CA_CERTS" (Some "/var/run/guard-proxy-ca/ca.pem") None.
Proof.
  unfold sandbox_worker. cbv zeta. cbn [c_env]. rewrite flat_some.
  intros [[He| ->]%upsert_env_elem| ->]%upsert_env_elem; [left|by auto|by auto].
  destruct (has_overlay _); [done|]. by apply list_elem_of_In, filter_In in He as [?%list_elem_of_In _].
Qed.

Lemma rendered_env_allowed p cfg name overrides e :
  deployable p → Forall (λ kv, plain kv.2) overrides →
  e ∈ flat (c_env (sandbox_worker cfg (render_worker p name overrides))) → env_allowed p e.
Proof.
  intros Hd Ho [He|[-> | ->]]%sandboxed_env.
  2-3: apply plain_allowed; intros prefix Hp; repeat (apply elem_of_cons in Hp as [-> |Hp]; [done|]);
    by apply not_elem_of_nil in Hp.
  cbn [render_worker c_env] in He. rewrite flat_some in He. rewrite Forall_forall in Ho.
  apply merge_env_elem in He as [[He|(kv & Hkv & ->)]%merge_env_elem|(kv & Hkv & ->)].
  - apply own_allowed; [|done]. intros v Hv. by apply (dp_env p Hd e).
  - apply plain_allowed. by apply Ho.
  - apply plain_allowed. by apply (dp_preflight p Hd).
Qed.

(** *** The rendered spec *)

Lemma pod_spec_ok p name overrides pspec :
  pod_spec p name overrides = Ok pspec →
  pspec = mkPodSpec (render_worker p name overrides :: flat (pr_containers p))
        (pr_init_containers p) (pr_volumes p) None None None None (Some false) (Some false)
        (pr_service_account_name p) (pr_node_selector p) (pr_runtime_class_name p)
        (pr_affinity p) (pr_tolerations p) (profile_priority_class p) (Some "Never")
        (pr_image_pull_secrets p) ∅.
Proof. unfold pod_spec. by intros (_ & _ & [= <-])%bind_ok. Qed.

Lemma tolerations_own p name overrides pspec adm :
  pod_spec p name overrides = Ok pspec → tolerations_conform pspec p adm.
Proof.
  intros ->%pod_spec_ok. assert (∀ t, same_taint t t) as Hr by (by constructor). split.
  - intros e He. by exists e.
  - intros a Ha. left. by exists a.
Qed.

(** *** The rendered annotations *)

Lemma insert_opt_ne k v m k' : k ≠ k' → insert_opt k v m !! k' = m !! k'.
Proof. destruct v; [apply lookup_insert_ne|done]. Qed.

Lemma stamp_posture_ne m p k : k ≠ ANNOTATION_POSTURE → stamp_posture m p !! k = m !! k.
Proof.
  intros Hk. unfold stamp_posture. destruct (profile_posture p); cbn.
  - by rewrite lookup_delete_ne.
  - by rewrite lookup_insert_ne, lookup_delete_ne.
Qed.

Lemma stamp_posture_posture m p :
  from_annotation (stamp_posture m p !! ANNOTATION_POSTURE) = Some (profile_posture p).
Proof.
  unfold stamp_posture. destruct (profile_posture p); cbn; [by rewrite lookup_delete_eq|by rewrite lookup_insert_eq].
Qed.

Section composition.
Context {json : JsonText}.
Variables (cctui_url dispatch_id : string) (p : WorkerProfileSpec) (spec : WireDispatchSpec) (identity : option string).
Hypothesis Hp : deployable p.

Abbreviation annots := (template_annotations cctui_url p spec identity dispatch_id).

(** A key that neither cctui owns nor the profile sets. *)
Lemma annots_cctui k :
  starts_with "cctui.dev/" k = true → profile_annotations p !! k = None.
Proof.
  intros Hk. destruct (profile_annotations p !! k) eqn:E; [|done].
  pose proof (dp_annotations p Hp k) as Hn. rewrite E, Hk in Hn. by discriminate Hn.
Qed.

Ltac annot_ne := repeat first
  [ rewrite lookup_insert_ne by done | rewrite stamp_posture_ne by done | rewrite insert_opt_ne by done ].

Lemma annots_injected : annots !! ANNOTATION_ENVELOPE_INJECTED = None.
Proof.
  unfold template_annotations. cbv zeta. annot_ne. destruct (pr_gpg_signing p); annot_ne; by apply annots_cctui.
Qed.

Lemma annots_worker : annots !! ANNOTATION_WORKER_CONTAINER = Some (profile_worker_name p).
Proof.
  unfold template_annotations. cbv zeta. annot_ne. destruct (pr_gpg_signing p); annot_ne; by rewrite lookup_insert_eq.
Qed.

Lemma annots_gpg : annots !! ANNOTATION_GPG_SIGNING = if pr_gpg_signing p then Some "true" else None.
Proof.
  unfold template_annotations. cbv zeta. annot_ne. destruct (pr_gpg_signing p); [by rewrite lookup_insert_eq|].
  annot_ne. by apply annots_cctui.
Qed.

Lemma annots_posture : from_annotation (annots !! ANNOTATION_POSTURE) = Some (profile_posture p).
Proof. unfold template_annotations. cbv zeta. annot_ne. apply stamp_posture_posture. Qed.

Lemma annots_other k : starts_with "cctui.dev/" k = false → annots !! k = profile_annotations p !! k.
Proof.
  intros Hk. assert (∀ s, starts_with "cctui.dev/" s = true → s ≠ k) as Hne by (by intros s Hs ->; rewrite Hk in Hs).
  unfold template_annotations. cbv zeta.
  rewrite !lookup_insert_ne by (by apply Hne). rewrite stamp_posture_ne by (symmetry; by apply Hne).
  destruct (pr_gpg_signing p); rewrite ?lookup_insert_ne by (by apply Hne);
    rewrite insert_opt_ne by (by apply Hne); by rewrite !lookup_insert_ne by (by apply Hne).
Qed.

(** *** The injected pod *)

Variables (sidecar_image : string) (overrides : list (string * string)) (pod : Pod) (pspec : PodSpec).
Hypothesis Hplain : Forall (λ kv, plain kv.2) overrides.
Hypothesis Hrender : pod_spec p (profile_worker_name p) overrides = Ok pspec.
Hypothesis Hspec : p_spec pod = Some pspec.
Hypothesis Hannots : om_annotations (p_metadata pod) = Some annots.

(** What the mutating webhook reads of the pod. *)
Definition cfg_of : EnvelopeConfig :=
  mkEnvelope sidecar_image (profile_worker_name p) (annots !! ANNOTATION_GUARD_IDENTITY) (pr_gpg_signing p)
    (pr_guard p) (profile_posture p) true (exec_interception p) (pr_human_gate p).

Lemma annotation_annots k : annotation (p_metadata pod) k = annots !! k.
Proof. unfold annotation. by rewrite Hannots. Qed.

Lemma from_pod_rendered :
  from_pod pod sidecar_image (pr_guard p) (mkFlags (exec_interception p) (pr_human_gate p)) = Ok cfg_of.
Proof.
  unfold from_pod, cfg_of. cbv zeta. rewrite !annotation_annots, annots_posture, annots_worker, annots_gpg. cbn.
  f_equal. f_equal; [by destruct (pr_gpg_signing p)|].
  apply bool_decide_eq_true_2. unfold template_annotations. cbv zeta.
  rewrite lookup_insert_ne by done. rewrite lookup_insert_eq. by eexists.
Qed.

Lemma rendered_spec :
  pspec = mkPodSpec (render_worker p (profile_worker_name p) overrides :: flat (pr_containers p))
        (pr_init_containers p) (pr_volumes p) None None None None (Some false) (Some false)
        (pr_service_account_name p) (pr_node_selector p) (pr_runtime_class_name p)
        (pr_affinity p) (pr_tolerations p) (profile_priority_class p) (Some "Never")
        (pr_image_pull_secrets p) ∅.
Proof. by apply pod_spec_ok. Qed.

Lemma rendered_not_injected : is_injected pod = false.
Proof.
  unfold is_injected, marked, init_containers. rewrite annotation_annots, annots_injected, Hspec.
  rewrite bool_decide_eq_false_2 by done. cbn [orb]. rewrite rendered_spec. cbn [sp_init_containers].
  apply not_true_iff_false. rewrite existsb_named. apply (dp_no_proxy p Hp).
Qed.

(** The worker after injection. *)
Definition final_worker : Container := sandbox_worker cfg_of (render_worker p (profile_worker_name p) overrides).

Lemma final_containers :
  sp_containers (inject_spec cfg_of pspec) = final_worker :: flat (pr_containers p).
Proof. rewrite rendered_spec. cbn. by rewrite String.eqb_refl. Qed.

Lemma filter_worker :
  List.filter (λ c, c_name c ==s profile_worker_name p) (final_worker :: flat (pr_containers p)) = [final_worker].
Proof.
  cbn [List.filter]. replace (c_name final_worker ==s profile_worker_name p) with true
    by (symmetry; apply String.eqb_refl).
  f_equal. pose proof (dp_one_worker p Hp) as Hn. induction (flat (pr_containers p)) as [|c l IH]; [done|].
  cbn in *. apply not_elem_of_cons in Hn as [Hne Hn]. destruct (String.eqb_spec (c_name c) (profile_worker_name p)); [congruence|].
  by apply IH.
Qed.

Lemma final_context : c_security_context final_worker = Some (worker_security_context_with (profile_posture p) (exec_interception p)).
Proof. done. Qed.

Lemma final_caps cap :
  cap ∈ flat (added_caps final_worker) →
  cap ∈ worker_added_caps (profile_posture p) ∨
  profile_posture p = Root ∧ cap = EXEC_INTERCEPTION_CAP ∧ exec_interception p = true.
Proof.
  unfold added_caps. rewrite final_context. destruct (profile_posture p), (exec_interception p); cbn; set_solver.
Qed.

Lemma final_mount_names n :
  n ∈ mount_names final_worker ↔ n ∈ wanted_mounts p.
Proof.
  unfold mount_names, final_worker, sandbox_worker, wanted_mounts. cbv zeta. cbn [c_volume_mounts]. rewrite flat_some.
  rewrite push_missing_names, worker_mounts_names. cbn [cfg_of ec_posture ec_gpg render_worker c_volume_mounts].
  rewrite !elem_of_union, !elem_of_list_to_set. destruct (pr_gpg_signing p); set_solver.
Qed.

Lemma final_volume_names n :
  n ∈ v_name <$> flat (sp_volumes (inject_spec cfg_of pspec)) ↔
  n ∈ v_name <$> flat (pr_volumes p) ∨ n ∈ v_name <$> envelope_volumes cfg_of.
Proof. cbn [inject_spec sp_volumes]. rewrite flat_some, push_missing_names, rendered_spec. done. Qed.

(** The envelope's volumes are the envelope's names. *)
Lemma envelope_volume_names n :
  n ∈ v_name <$> envelope_volumes cfg_of → n ∈ ENVELOPE_VOLUMES.
Proof.
  unfold envelope_volumes. cbn [cfg_of ec_posture ec_gpg].
  destruct (profile_posture p), (pr_gpg_signing p); cbn; unfold ENVELOPE_VOLUMES; set_solver.
Qed.

Lemma wanted_volumes_iff n :
  n ∈ wanted_volumes p ↔ n ∈ v_name <$> envelope_volumes cfg_of ∨ n ∈ v_name <$> flat (pr_volumes p).
Proof.
  unfold wanted_volumes, envelope_volumes. cbn [cfg_of ec_posture ec_gpg]. cbv zeta.
  rewrite elem_of_union, elem_of_list_to_set. apply or_iff_both; [|done].
  destruct (profile_posture p), (pr_gpg_signing p); cbn; set_solver.
Qed.

Lemma envelope_not_identity n : n ∈ ENVELOPE_VOLUMES → n ∉ profile_identity p.
Proof.
  intros Hn Hi. unfold profile_identity in Hi. destruct (pr_guard p) as [g|] eqn:Eg; [|set_solver].
  apply elem_of_list_to_set in Hi. by apply (gf_volumes g (pft_guard p (dp_fits p Hp) g Eg) n).
Qed.

Lemma envelope_not_api n : n ∈ ENVELOPE_VOLUMES → is_api_server_injected n = false.
Proof. unfold ENVELOPE_VOLUMES. intros Hn. repeat (apply elem_of_cons in Hn as [-> |Hn]; [done|]). set_solver. Qed.

Lemma final_names : names_conform (inject_spec cfg_of pspec) final_worker (profile_worker_name p) p.
Proof.
  constructor.
  - rewrite final_containers. cbn [fmap list_fmap list_to_set]. done.
  - cbn [inject_spec sp_init_containers]. rewrite flat_some, rendered_spec. cbn. set_solver.
  - apply volume_names_iff. apply leibniz_equiv. intros n.
    rewrite elem_of_list_to_set, list_elem_of_In, filter_In, <-list_elem_of_In.
    rewrite final_volume_names, wanted_volumes_iff, andb_true_iff, !negb_true_iff, bool_decide_eq_false. split; [tauto|].
    intros [He|Hv]; [|by destruct (dp_volumes p Hp n Hv); auto].
    split; [by right|]. apply envelope_volume_names in He.
    split; [by apply envelope_not_api|by apply envelope_not_identity].
  - apply mount_names_iff. apply leibniz_equiv. intros n.
    rewrite elem_of_list_to_set, list_elem_of_In, filter_In, <-list_elem_of_In.
    rewrite final_mount_names, negb_true_iff. split; [tauto|]. intros Hn. split; [done|].
    unfold wanted_mounts in Hn. rewrite !elem_of_union, !elem_of_list_to_set in Hn.
    destruct Hn as [[Hn|Hn]|Hn]; [| |by destruct (dp_mounts p Hp n Hn)];
      apply envelope_not_api; unfold ENVELOPE_VOLUMES; destruct (profile_posture p), (pr_gpg_signing p); set_solver.
Qed.

Lemma mount_not_identity n : n ∈ mount_names final_worker → n ∉ profile_identity p.
Proof.
  rewrite final_mount_names. unfold wanted_mounts. rewrite !elem_of_union, !elem_of_list_to_set.
  intros [[Hn|Hn]|Hn]; [| |by destruct (dp_mounts p Hp n Hn)];
    apply envelope_not_identity; unfold ENVELOPE_VOLUMES; destruct (profile_posture p), (pr_gpg_signing p); set_solver.
Qed.

Lemma final_identity : identity_held (inject_spec cfg_of pspec) p.
Proof.
  constructor.
  - intros v Hv Hi. exfalso. assert (v_name v ∈ v_name <$> flat (sp_volumes (inject_spec cfg_of pspec))) as Hn.
    { apply list_elem_of_fmap. by exists v. }
    apply final_volume_names in Hn as [Hn|Hn]; [by destruct (dp_volumes p Hp _ Hn)|].
    by apply (envelope_not_identity (v_name v)); [apply envelope_volume_names|].
  - intros c n. rewrite final_containers. cbn [inject_spec sp_init_containers]. rewrite flat_some, rendered_spec.
    cbn [sp_init_containers]. intros Hc Hm Hi.
    apply elem_of_app in Hc as [[->|Hc]%elem_of_cons|[->|[->|Hc]%elem_of_cons]%elem_of_cons].
    + by destruct (mount_not_identity n).
    + by destruct (dp_identity p Hp c n); [apply elem_of_app; left| |].
    + cbn in Hm. set_solver.
    + done.
    + by destruct (dp_identity p Hp c n); [apply elem_of_app; right| |].
Qed.

Lemma final_sandboxed : sandboxed (inject_spec cfg_of pspec) final_worker (profile_posture p).
Proof.
  constructor.
  - rewrite rendered_spec. done.
  - intros sc. rewrite final_context. intros [= <-]. by destruct (profile_posture p).
  - intros cap [?|(? & ? & ?)]%final_caps; auto.
  - intros v m Hv Hh Hm Heq. assert (v_name v ∈ wanted_mounts p) as Hw.
    { rewrite <-final_mount_names, <-Heq. apply list_elem_of_fmap. by exists m. }
    cbn [inject_spec sp_volumes] in Hv. rewrite flat_some in Hv. apply push_missing_elem in Hv as [Hv|[Hv _]].
    + rewrite rendered_spec in Hv. by apply (dp_host_paths p Hp v).
    + clear -Hv Hh. unfold envelope_volumes in Hv. apply list_elem_of_In, filter_In in Hv as [Hv _].
      apply list_elem_of_In in Hv. destruct Hh as [h Hh].
      apply elem_of_app in Hv as [Hv|Hv]; [|destruct (ec_gpg _); [|set_solver]];
      repeat (apply elem_of_cons in Hv as [-> |Hv]; [discriminate Hh|]); set_solver.
Qed.

Lemma final_conforms : conforms (inject_spec cfg_of pspec) final_worker (profile_worker_name p) p.
Proof.
  constructor.
  - rewrite rendered_spec. by constructor.
  - left. by rewrite rendered_spec.
  - pose proof (tolerations_own _ _ _ _ true Hrender) as Ht. rewrite rendered_spec in *. exact Ht.
  - left. by rewrite rendered_spec.
  - apply final_names.
  - apply final_identity.
  - intros e He. by eapply rendered_env_allowed.
Qed.

Lemma final_admissible : admissible (inject pod cfg_of) p (inject_spec cfg_of pspec) final_worker.
Proof.
  assert (∀ k, k ≠ ANNOTATION_ENVELOPE_INJECTED → annotation (p_metadata (inject pod cfg_of)) k = annots !! k) as Ha.
  { intros k Hk. unfold annotation, inject. cbn. rewrite Hannots. cbn. by rewrite lookup_insert_ne. }
  assert (worker_container_name (inject pod cfg_of) = profile_worker_name p) as Hw.
  { unfold worker_container_name. by rewrite Ha, annots_worker by done. }
  constructor; rewrite ?Hw.
  - unfold inject. by rewrite Hspec.
  - rewrite final_containers. apply filter_worker.
  - exact (proj1 (bool_decide_eq_true _) (inject_marked pod cfg_of)).
  - rewrite Ha by done. apply annots_posture.
  - apply final_sandboxed.
  - intros Hn. split.
    + rewrite Ha by (intros Heq; by apply (f_equal (starts_with "cctui.dev/")) in Heq).
      rewrite annots_other by done. apply (dp_apparmor p Hp).
    + eexists. rewrite final_context, Hn. split; [done|]. constructor; try done; [cbn; set_solver|by left].
  - intros [Hc|(_ & _ & ?)]%final_caps; [|by apply exec_interception_iff]. exfalso. clear -Hc. destruct (profile_posture p); cbn in Hc; set_solver.
  - apply final_conforms.
Qed.

End composition.

(** ** The whole path *)

Section admission.
Context {source : ProfileSource} {json : JsonText} {J P : Type} {pj : PodJson J P} {laws : PodJsonLaws J P}.
Variables (encode_patch : P → result string P) (sidecar_image : string).
Hypothesis json_total : ∀ pod, is_ok (to_value pod) = true.
Hypothesis encode_total : ∀ patch, encode_patch patch = Ok patch.

(** C8. A Job that is rendered from a sound profile whose name is a label, for a
    dispatch whose id and whose values that go into the worker's environment
    literally (session, payload text, server URL, task name, reply URL, variables)
    do not begin like a secret reference, becomes a pod that the mutating webhook
    patches, and the pod after the patch is allowed by the validating webhook.  A
    profile is sound when it fits the envelope and adds nothing that collides
    with it ([deployable]). *)
Theorem dispatched_pod_admitted cctui_url name p spec ident deadline suspend job js pod req :
  deployable p → label_safe name = name →
  build_job cctui_url name p spec ident deadline suspend = Ok job →
  (∀ re, run_env cctui_url p spec = Ok re → Forall (λ kv, plain kv.2) (re_literal re)) →
  plain (ji_dispatch_id ident) →
  j_spec job = Some js → created_from (jp_template js) pod → rq_object req = Some pod →
  profile_get (request_namespace req pod) name = Ok (Some p) →
  ∃ patch before after pod',
    rs_allowed (mutate encode_patch sidecar_image (Ok req)) = true ∧
    rs_patch (mutate encode_patch sidecar_image (Ok req)) = Some patch ∧
    to_value pod = Ok before ∧ patch_apply patch before = Some after ∧ from_value after = Some pod' ∧
    rs_allowed (validate_handler (Ok (mkRequest (rq_uid req) (rq_namespace req) (Some pod'))) : AdmissionResponse P) = true.
Proof.
  intros Hp Hname Hjob Hplain Hid Hjs [Hcs Hca Hcl] Hobj Hget.
  unfold build_job in Hjob. apply bind_ok in Hjob as (re & Hre & Hjob). apply bind_ok in Hjob as (pspec & Hps & [= <-]).
  cbn in Hjs. injection Hjs as <-. cbn in Hcs, Hca.
  set (ident' := re_identity re) in *.
  assert (Forall (λ kv, plain kv.2) (re_literal re ++ [("CCTUI_DISPATCH_ID", ji_dispatch_id ident)])) as Hall.
  { apply Forall_app. split; [by apply Hplain|]. by apply Forall_singleton. }
  assert (profile_name pod = Some name) as Hpn.
  { unfold profile_name. apply Hcl. cbn. unfold with_profile_metadata, managed_labels.
    rewrite (lookup_union_Some_l _ _ _ (label_safe name)), Hname; [done|]. by rewrite lookup_insert_eq. }
  pose proof (from_pod_rendered cctui_url (ji_dispatch_id ident) p spec ident' Hp sidecar_image pod Hca) as Hcfg.
  pose proof (rendered_not_injected cctui_url (ji_dispatch_id ident) p spec ident' Hp _ pod pspec Hps Hcs Hca) as Hinj.
  set (cfg := cfg_of cctui_url (ji_dispatch_id ident) p spec ident' sidecar_image) in *.
  assert (profile_guard req pod = Ok (pr_guard p, mkFlags (exec_interception p) (pr_human_gate p))) as Hguard.
  { unfold profile_guard, is_eligible. rewrite Hpn, bool_decide_eq_true_2, Hinj by done. cbn. by rewrite Hget. }
  destruct (mutate_pod pod sidecar_image (pr_guard p) (mkFlags (exec_interception p) (pr_human_gate p))) as [out|e] eqn:Em.
  2: { exfalso. revert Em. unfold mutate_pod, is_eligible. rewrite Hpn, bool_decide_eq_true_2, Hinj by done. cbn [negb].
    rewrite Hcfg. cbn [mbind result_bind]. pose proof (json_total pod). pose proof (json_total (inject pod cfg)).
    destruct (to_value pod), (to_value (inject pod cfg)); try done. cbn. by destruct (patch_is_empty _). }
  pose proof (mutate_exact sidecar_image pod _ _ out Em) as Hout.
  destruct out as [| |patch]; [congruence|destruct Hout; congruence|].
  destruct Hout as (_ & _ & cfg' & before & after & Hc' & Hb & Happ & Hfrom & _).
  assert (cfg' = cfg) as -> by congruence.
  exists patch, before, after, (inject pod cfg). unfold mutate. rewrite Hobj, Hguard. cbn [mbind result_bind].
  rewrite Em, encode_total. split_and!; try done.
  cbn [validate_handler rq_object]. unfold respond.
  assert (vd_decision (review (inject pod cfg) (request_namespace req pod)) = Allow) as Hallow.
  { apply validate_iff. right. exists name, p, (inject_spec cfg pspec).
    exists (final_worker cctui_url (ji_dispatch_id ident) p spec ident' sidecar_image
              (re_literal re ++ [("CCTUI_DISPATCH_ID", ji_dispatch_id ident)])).
    split; [by rewrite inject_profile_name|]. split; [done|]. split; [apply (dp_fits p Hp)|].
    by apply final_admissible. }
  replace (request_namespace _ _) with (request_namespace req pod) by done. by rewrite Hallow.
Qed.

End admission.

(** A profile whose agent is exposed on all three sides and that the webhook
    accepts runs behind a proxy that reads one gate setting and enforces it:
    no push, or draft pull requests only. *)
Theorem exposed_worker_gated cfg p e :
  profile_fits p → pr_exposure p = Some e → is_full e = true → ec_human_gate cfg = pr_human_gate p →
  ∃ value,
    List.filter (λ x, ev_name x ==s GUARD_ENV_HUMAN_GATE) (flat (c_env (guard_proxy_container cfg))) =
      [mkEnvVar GUARD_ENV_HUMAN_GATE (Some value) None] ∧
    (Gate_parse (Some value) = GDeclared Gate.NoPush ∨ Gate_parse (Some value) = GDeclared Gate.DraftPrOnly).
Proof.
  intros Hf He Hfull Hcfg. rewrite guard_gate_exact, Hcfg.
  destruct (pft_exposure p Hf e He (proj1 (is_full_iff e) Hfull)) as [-> | ->]; eexists; split; try done; [by left|by right].
Qed.

(** ** Witnesses *)

(** A profile, and JSON that is the pod itself with patches that replace it. *)
Definition demo_profile : WorkerProfileSpec :=
  mkProfile "registry/worker:1" None None None
    (Some [mkEnvVar "LANG" (Some "C") None]) None (Some [mkMount "cache" "/cache" None ∅]) None None None
    (Some [empty_dir "cache"]) None None None None None None None None false None None None (Some Nonroot)
    (Some (mkExposure true true true)) (Some NoPush).

#[local] Instance demo_json : JsonText := {| json_to_string := λ _, "{}"; json_from_str := λ _, None |}.
#[local] Instance demo_source : ProfileSource :=
  λ ns name, if name ==s "lean" then Ok (Some demo_profile) else Ok None.
#[local] Instance demo_pod_json : PodJson Pod (option Pod) :=
  {| to_value := Ok; patch_diff := λ _ b, Some b; patch_is_empty := λ p, bool_decide (p = None) |}.

#[local] Instance demo_pod_laws : PodJsonLaws Pod (option Pod).
Proof.
  refine {| patch_apply := λ p a, Some (default a p); from_value := Some |}; [done| |].
  - by intros p a ->%bool_decide_eq_true.
  - by intros pod j [= <-].
Defined.

(** Case analysis on the elements of a concrete list. *)
Ltac each_elem H :=
  let E := fresh "E" in
  repeat (apply elem_of_cons in H as [E|H]; [first [discriminate E|rewrite E in *; try done; clear E]|]);
  try (by apply not_elem_of_nil in H).

Lemma demo_deployable : deployable demo_profile.
Proof.
  constructor.
  - constructor; [done|done| |].
    + intros _. constructor; [by intros Hx%exec_interception_iff| |by intros c Hc; each_elem Hc].
      constructor; [intros Hx|intros Hx|intros m Hx]; cbn in Hx; each_elem Hx.
    + intros e [= <-] _. by left.
  - intros Hx. each_elem Hx.
  - intros Hx. each_elem Hx.
  - by intros k [v Hv].
  - by intros v.
  - intros n Hn. cbn in Hn. each_elem Hn.
  - intros n Hn. cbn in Hn. each_elem Hn.
  - intros v Hv [h Hh]. cbn in Hv. each_elem Hv.
  - intros c n Hc. each_elem Hc.
  - intros e v He Hv prefix Hp. cbn in He. each_elem He. injection Hv as <-. each_elem Hp.
  - intros kv Hk. each_elem Hk.
Qed.

Definition demo_dispatch : WireDispatchSpec := mkDispatch "s-1" None None None None (JObj []) None.
Definition demo_ident : JobIdentity := mkJobIdentity "cctui-worker-1" "d-1".
Definition demo_template : PodTemplateSpec :=
  match build_job "https://cctui" "lean" demo_profile demo_dispatch demo_ident 3600 false with
  | Ok (mkJob _ (Some js) _) => jp_template js
  | _ => mkTemplate None None
  end.
Definition demo_pod : Pod := mkPod (template_meta demo_template) (pt_spec demo_template) None.
Definition demo_request : AdmissionRequest := mkRequest "u" (Some "agents") (Some demo_pod).

(** The verdict on the pod of a dispatch of the demo profile. *)
Definition verdict_on (spec : WireDispatchSpec) : option bool :=
  match build_job "https://cctui" "lean" demo_profile spec demo_ident 3600 false with
  | Ok (mkJob _ (Some js) _) =>
    let template := jp_template js in
    let pod := mkPod (template_meta template) (pt_spec template) None in
    patch ← rs_patch (mutate Ok "img" (Ok (mkRequest "u" (Some "agents") (Some pod))));
    pod' ← patch_apply patch pod;
    Some (rs_allowed (validate_handler (Ok (mkRequest "u" (Some "agents") (Some pod')))
                      : AdmissionResponse (option Pod)))
  | _ => None
  end.

(** The proviso on the literal values matters: the dispatcher looks at the
    variables of a payload and not at its name. *)
Example task_name_refused :
  verdict_on demo_dispatch = Some true ∧
  verdict_on (mkDispatch "s-1" None None None None (JObj [("name", JStr "k8s: fix the probe")]) None)
    = Some false.
Proof. split; vm_compute; reflexivity. Qed.

Lemma dispatched_pod_admitted_witness :
  ∃ patch pod', rs_patch (mutate Ok "img" (Ok demo_request)) = Some patch ∧
    patch_apply patch demo_pod = Some pod' ∧
    rs_allowed (validate_handler (Ok (mkRequest "u" (Some "agents") (Some pod'))) : AdmissionResponse (option Pod)) = true.
Proof.
  destruct (build_job "https://cctui" "lean" demo_profile demo_dispatch demo_ident 3600 false) as [job|e] eqn:Ej;
    [|discriminate Ej].
  destruct (dispatched_pod_admitted Ok "img" ltac:(done) ltac:(done) "https://cctui" "lean" demo_profile demo_dispatch
    demo_ident 3600 false job (default (mkJobSpec None None None None demo_template) (j_spec job)) demo_pod demo_request)
    as (patch & before & after & pod' & _ & Hp & Hb & Ha & Hf & Hv).
  - exact demo_deployable.
  - vm_compute. reflexivity.
  - exact Ej.
  - intros re Hre. vm_compute in Hre. injection Hre as <-. cbn [re_literal].
    repeat (constructor; [intros prefix Hp; each_elem Hp|]). constructor.
  - intros prefix Hp. each_elem Hp.
  - injection Ej as <-. reflexivity.
  - unfold demo_pod, demo_template. rewrite Ej. injection Ej as <-. by constructor.
  - reflexivity.
  - reflexivity.
  - exists patch, pod'. injection Hb as <-. cbn in Hf. injection Hf as ->. done.
Defined.

Lemma exposed_worker_gated_witness :
  ∃ value, Gate_parse (Some value) = GDeclared Gate.NoPush ∨ Gate_parse (Some value) = GDeclared Gate.DraftPrOnly.
Proof.
  destruct (exposed_worker_gated (mkEnvelope "img" "worker" None false None Nonroot true false (Some NoPush))
    demo_profile (mkExposure true true true)) as (value & _ & Hv).
  - exact (dp_fits _ demo_deployable).
  - reflexivity.
  - reflexivity.
  - reflexivity.
  - by exists value.
Defined.

Definition demo_cfg : EnvelopeConfig := mkEnvelope "img" "worker" None false None Nonroot true false (Some NoPush).

Lemma mutate_exact_witness :
  ∃ patch, mutate_pod demo_pod "img" None ProfileFlags_default = Ok (Patch patch) ∧
    is_injected demo_pod = false ∧
    ∃ cfg, mutate_pod (inject demo_pod cfg) "img" None ProfileFlags_default = Ok AlreadyInjected.
Proof.
  destruct (mutate_pod demo_pod "img" None ProfileFlags_default) as [out|] eqn:E; [|discriminate E].
  pose proof (mutate_exact "img" demo_pod None ProfileFlags_default out E) as Hm.
  destruct out as [| |patch]; [discriminate E|discriminate E|]. destruct Hm as (_ & Hi & cfg & _ & _ & _ & _ & _ & _ & Hn).
  exists patch. split; [done|]. split; [exact Hi|]. exists cfg. apply Hn.
Defined.

Lemma inject_sandboxes_witness :
  ∃ spec', p_spec (inject demo_pod demo_cfg) = Some spec' ∧ List.length (flat (sp_init_containers spec')) = 2%nat.
Proof.
  destruct (pt_spec demo_template) as [spec|] eqn:Es; [|discriminate Es].
  destruct (inject_sandboxes demo_pod demo_cfg spec [] (List.hd Container_default (sp_containers spec))
    (List.tl (sp_containers spec))) as (spec' & w' & Hs & Hi & _).
  - exact Es.
  - injection Es as <-. reflexivity.
  - injection Es as <-. reflexivity.
  - intros c []%not_elem_of_nil.
  - injection Es as <-. apply (bool_decide_unpack _). vm_compute. exact I.
  - exists spec'. split; [exact Hs|]. rewrite Hi. injection Es as <-. reflexivity.
Defined.

(** ** Limits of the checks *)

(** A profile name longer than a label does not fit it: the pod names another
    profile. *)
Example long_profile_label :
  label_safe (String.concat "" (replicate 64 "a")) = String.concat "" (replicate 63 "a").
Proof. vm_compute. reflexivity. Qed.

Definition named_mount (n : string) : VolumeMount := mkMount n ("/" ++s n) None ∅.

(** A pod that was marked before the webhook saw it, with containers that only
    have the names of the envelope's, and a worker with the default
    privileges. *)
Definition premarked_pod : Pod :=
  mkPod (mkMeta (Some "p") None (Some {[LABEL_WORKER_PROFILE := "root"]})
           (Some {[ANNOTATION_ENVELOPE_INJECTED := "true"]}) None None ∅)
    (Some (mkPodSpec
       [mkContainer "worker" (Some "img") None None None None None
          (Some (named_mount <$> WORKER_ENVELOPE_MOUNTS)) None None None ∅]
       (Some [mkContainer NET_INIT_CONTAINER (Some "other") None None None None None None None None None ∅;
              mkContainer GUARD_PROXY_CONTAINER (Some "other") None None None None None None None None None ∅])
       (Some (empty_dir <$> List.filter (λ n, negb (n ==s VOL_GPG_AGENT)) ENVELOPE_VOLUMES)) None None None None
       (Some false) (Some false) None None None None None None None None ∅)) None.

Definition root_profile : WorkerProfileSpec :=
  mkProfile "img" None None None None None None None None None None None None None None None None None None false
    None None None None (Some (mkExposure true true false)) None.

Definition root_source : ProfileSource := λ _ _, Ok (Some root_profile).

Example premarked_pod_admitted :
  mutate_pod premarked_pod "img" None ProfileFlags_default = Ok AlreadyInjected ∧
  @validate root_source premarked_pod "agents" = Allow.
Proof. split; vm_compute; reflexivity. Qed.

(** The pod is admissible by the conditions, since the webhook allows it. *)
Lemma validate_iff_witness :
  ∃ spec w, admissible premarked_pod root_profile spec w.
Proof.
  destruct (proj1 (@validate_iff root_source premarked_pod "agents")) as [Hn|(n & p & spec & w & _ & Hp & _ & Ha)].
  - vm_compute. reflexivity.
  - discriminate Hn.
  - injection Hp as <-. by exists spec, w.
Defined.

(** The same pod with a Secret mounted into the worker under a name that the
    API server uses for its own volumes. *)
Definition add_volume (v : Volume) (pod : Pod) : Pod :=
  mkPod (p_metadata pod)
    ((λ s, mkPodSpec
       ((λ c, mkContainer (c_name c) (c_image c) (c_command c) (c_args c) (c_env c) (c_env_from c)
          (c_security_context c) (Some (named_mount (v_name v) :: flat (c_volume_mounts c))) (c_startup_probe c)
          (c_resources c) (c_restart_policy c) (c_rest c)) <$> sp_containers s)
       (sp_init_containers s) (Some (v :: flat (sp_volumes s))) (sp_security_context s) (sp_host_pid s) (sp_host_ipc s)
       (sp_host_network s) (sp_automount_service_account_token s) (sp_enable_service_links s)
       (sp_service_account_name s) (sp_node_selector s) (sp_runtime_class_name s) (sp_affinity s) (sp_tolerations s)
       (sp_priority_class_name s) (sp_restart_policy s) (sp_image_pull_secrets s) (sp_rest s)) <$> p_spec pod)
    (p_status pod).

Definition secret_volume (name : string) : Volume := mkVolume name None None None None None {["secret" := "db"]}.

Example api_access_volume_exempt :
  @validate root_source (add_volume (secret_volume "kube-api-access-x") premarked_pod) "agents" = Allow ∧
  @validate root_source (add_volume (secret_volume "extra") premarked_pod) "agents" ≠ Allow.
Proof. split; vm_compute; [reflexivity|discriminate]. Qed.
