(* ===== verification/SpawnFacts.v ===== *)
(** * Jobs: handles, drift and queues

    What the dispatcher guarantees of the Jobs it keeps: a handle names its
    run, a rebuilt Job conforms to its profile, and the queue of a profile
    stays within its cap and in order. *)

From stdpp Require Import base decidable list gmap sets strings sorting.
From Stdlib Require Import Lia ZArith Bool Ascii String.
From S2P Require Import Prelude RustStr Json Kube Envelope Validate ValidateFacts Spawn Admission.

(** ** Handles *)

(** A handle that was formatted for a name without a slash is read back as that
    name and session. *)
Theorem handle_roundtrip name session :
  contains_char (Ascii.eqb "/"%char) name = false →
  handle_parse (handle_format name session) =
  mkHandle name (s ← session; if is_empty s then None else Some s).
Proof.
  intros Hn. rewrite contains_char_all in Hn. apply negb_false_iff in Hn. unfold handle_parse, handle_format.
  destruct (s ← session; if is_empty s then None else Some s) as [s|] eqn:Es.
  - replace (strip_prefix "jobs/" _) with (Some (name ++s String "/" s)) by (symmetry; by apply strip_prefix_spec).
    cbn [default from_option id]. rewrite split_once_app by done.
    destruct session as [s'|]; [|done]. cbn in Es. destruct (is_empty s') eqn:Ee; [done|]. injection Es as ->.
    by rewrite Ee.
  - replace (strip_prefix "jobs/" _) with (Some name) by (symmetry; by apply strip_prefix_spec).
    cbn [default from_option id]. assert (split_once (Ascii.eqb "/"%char) name = None) as ->; [|done].
    clear -Hn. induction name as [|c name IH]; [done|]. cbn in Hn |- *. apply andb_true_iff in Hn as [Hc Hn].
    apply negb_true_iff in Hc. by rewrite Hc, IH.
Qed.

(** ** Drift *)

Section drift.
Context {json : JsonText}.

(** A template rendered from a profile, under annotations that name its worker
    and posture, does not drift from it. *)
Lemma rendered_no_drift p overrides pspec m :
  pod_spec p (profile_worker_name p) overrides = Ok pspec →
  annotation m ANNOTATION_WORKER_CONTAINER = Some (profile_worker_name p) →
  from_annotation (annotation m ANNOTATION_POSTURE) = Some (profile_posture p) →
  template_drift (mkTemplate (Some m) (Some pspec)) p = None.
Proof.
  intros Hr Hw Hp. pose proof (tolerations_own p _ overrides pspec false Hr) as Htol. apply pod_spec_ok in Hr.
  unfold template_drift, template_meta. cbn [pt_metadata pt_spec default from_option id mbind option_bind].
  rewrite Hw. rewrite Hr at 1. cbn [sp_containers List.find default from_option id]. cbn [render_worker c_name].
  rewrite String.eqb_refl. cbn [mbind option_bind].
  assert ((_ ← check_template_conformance pspec (render_worker p (profile_worker_name p) overrides) p;
           check_posture_annotation m p) = Ok ()) as ->; [|done].
  rewrite bind_unit_ok. split; [|by apply check_posture_annotation_ok]. unfold check_template_conformance.
  rewrite !bind_unit_ok, check_common_ok, check_affinity_ok, check_tolerations_ok, check_priority_class_ok.
  split_and!; [by rewrite Hr|left; by rewrite Hr|done|left; by rewrite Hr].
Qed.

Lemma annotation_meta name labels annots k : annotation (meta name labels annots) k = annots !! k.
Proof. done. Qed.

(** A Job rebuilt from its profile conforms to it: the reconciler does not
    rebuild it again.  It keeps its name, its suspension, and its cctui labels
    and annotations, but for the worker's name, the signing and the posture,
    which are the profile's. *)
Theorem rebuild_repairs old p job :
  rebuild_job old p = Ok job →
  ∃ js js_old, j_spec job = Some js ∧ j_spec old = Some js_old ∧
    template_drift (jp_template js) p = None ∧
    job_name job = job_name old ∧ job_suspended job = job_suspended old ∧
    (∀ k v, starts_with "cctui.dev/" k = true →
      annotation (j_metadata old) k = Some v → annotation (j_metadata job) k = Some v) ∧
    (∀ k v, starts_with "cctui.dev/" k = true →
      k ∉ [ANNOTATION_WORKER_CONTAINER; ANNOTATION_GPG_SIGNING; ANNOTATION_POSTURE] →
      annotation (template_meta (jp_template js_old)) k = Some v → annotation (template_meta (jp_template js)) k = Some v).
Proof.
  unfold rebuild_job. intros (name & Hname%ok_or_ok & Hr)%bind_ok. apply bind_ok in Hr as (js_old & Hold%ok_or_ok & Hr).
  apply bind_ok in Hr as (old_pod & _ & Hr). apply bind_ok in Hr as (pspec & Hps & [= <-]).
  eexists _, js_old. split; [done|]. split; [done|]. cbn [jp_template].
  assert (∀ om k v, starts_with "cctui.dev/" k = true → (om ≫= (.!! k)) = Some v → ours om !! k = Some v) as Hours.
  { intros om k v Hk Hv. apply map_lookup_filter_Some. destruct om; [done|done]. }
  split_and!.
  - eapply rendered_no_drift; [done| |]; rewrite annotation_meta; unfold rebuild_annotations; cbv zeta.
    + rewrite stamp_posture_ne by done. destruct (pr_gpg_signing p).
      * by rewrite lookup_insert_ne, lookup_insert_eq.
      * by rewrite lookup_delete_ne, lookup_insert_eq.
    + apply stamp_posture_posture.
  - done.
  - unfold job_suspended. cbn. rewrite Hold. cbn. destruct (jp_suspend js_old) as [[]|]; reflexivity.
  - intros k v Hk Hv. cbn. unfold with_profile_metadata. apply lookup_union_Some_l. by apply Hours.
  - intros k v Hk Hne Hv. cbn [template_meta pt_metadata default from_option id]. rewrite annotation_meta.
    unfold rebuild_annotations. cbv zeta. rewrite stamp_posture_ne by set_solver.
    assert (<[ANNOTATION_WORKER_CONTAINER:=profile_worker_name p]>
      (ours (om_annotations (template_meta (jp_template js_old))) ∪ profile_annotations p) !! k = Some v) as Hk'.
    { rewrite lookup_insert_ne by set_solver. apply lookup_union_Some_l. by apply Hours. }
    destruct (pr_gpg_signing p); [rewrite lookup_insert_ne by set_solver|rewrite lookup_delete_ne by set_solver]; done.
Qed.

(** A Job as the dispatcher builds it conforms to its profile. *)
Lemma built_no_drift cctui_url name p spec ident deadline suspend job :
  deployable p → build_job cctui_url name p spec ident deadline suspend = Ok job →
  ∃ js, j_spec job = Some js ∧ template_drift (jp_template js) p = None.
Proof.
  intros Hp. unfold build_job. intros (re & _ & Hr)%bind_ok. apply bind_ok in Hr as (pspec & Hps & [= <-]).
  eexists. split; [done|]. cbn [jp_template]. eapply rendered_no_drift; [done| |]; rewrite annotation_meta.
  - by apply annots_worker.
  - by apply annots_posture.
Qed.

(** *** Stale environments *)

Lemma merge_one_names env k v : NoDup (ev_name <$> env) → NoDup (ev_name <$> merge_one env k v).
Proof.
  induction env as [|e env IH]; cbn; [intros _; apply NoDup_singleton|]. intros [Hn Hd]%NoDup_cons.
  destruct (String.eqb_spec (ev_name e) k) as [<-|Hne]; cbn; [by apply NoDup_cons|].
  apply NoDup_cons. split; [|by apply IH]. contradict Hn. clear -Hn Hne. revert Hn.
  induction env as [|x env IH]; cbn; [set_solver|]. destruct (String.eqb_spec (ev_name x) k); cbn; set_solver.
Qed.

Lemma merge_env_names env l : NoDup (ev_name <$> env) → NoDup (ev_name <$> merge_env env l).
Proof. unfold merge_env. revert env. induction l as [|kv l IH]; cbn; [done|]. intros env Hd. by apply IH, merge_one_names. Qed.

Lemma env_lookup_merge_one env k v :
  NoDup (ev_name <$> env) → env_lookup (merge_one env k v) k = Some (mkEnvVar k (Some v) None).
Proof.
  unfold env_lookup. induction env as [|x env IH]; intros Hd; cbn.
  - by rewrite String.eqb_refl.
  - apply NoDup_cons in Hd as [Hn Hd]. destruct (String.eqb_spec (ev_name x) k) as [<-|Hne]; cbn.
    + by rewrite String.eqb_refl, filter_name_nil by done.
    + destruct (String.eqb_spec (ev_name x) k); [done|]. by apply IH.
Qed.

Lemma env_lookup_merge_one_ne env k v n : n ≠ k → env_lookup (merge_one env k v) n = env_lookup env n.
Proof.
  intros Hne. unfold env_lookup. f_equal. induction env as [|x env IH]; cbn.
  - by destruct (String.eqb_spec k n).
  - destruct (String.eqb_spec (ev_name x) k) as [<-|]; cbn; [|by rewrite IH].
    destruct (String.eqb_spec (ev_name x) n); [congruence|done].
Qed.

Lemma merge_env_cons env k v l : merge_env env ((k, v) :: l) = merge_env (merge_one env k v) l.
Proof. done. Qed.

Lemma env_lookup_merge env l n :
  n ∉ l.*1 → env_lookup (merge_env env l) n = env_lookup env n.
Proof.
  revert env. induction l as [|[k v] l IH]; [done|]. intros env [Hne Hn]%not_elem_of_cons. rewrite merge_env_cons.
  rewrite IH by done. by apply env_lookup_merge_one_ne.
Qed.

Lemma env_lookup_merge_in env l k v :
  NoDup (ev_name <$> env) → NoDup l.*1 → (k, v) ∈ l → env_lookup (merge_env env l) k = Some (mkEnvVar k (Some v) None).
Proof.
  revert env. induction l as [|[k' v'] l IH]; [by intros env _ _ ?%not_elem_of_nil|].
  intros env He [Hn Hd]%NoDup_cons [[= <- <-]|Hin]%elem_of_cons; rewrite merge_env_cons.
  - rewrite env_lookup_merge by done. by apply env_lookup_merge_one.
  - by apply IH; [apply merge_one_names| |].
Qed.

(** Every literal of the old worker, the old profile's too, wins over what the
    current profile says of the variable, unless the pre-flight settings name
    it. *)
Theorem rebuild_keeps_literals old p job js_old old_pod w k v :
  rebuild_job old p = Ok job →
  j_spec old = Some js_old → pt_spec (jp_template js_old) = Some old_pod →
  List.find (λ c, c_name c ==s default DEFAULT_WORKER_CONTAINER
    (annotation (template_meta (jp_template js_old)) ANNOTATION_WORKER_CONTAINER)) (sp_containers old_pod) = Some w →
  NoDup (ev_name <$> flat (c_env w)) → NoDup (ev_name <$> flat (pr_env p)) →
  mkEnvVar k (Some v) None ∈ flat (c_env w) → k ∉ (preflight_env p).*1 →
  ∃ js pspec w', j_spec job = Some js ∧ pt_spec (jp_template js) = Some pspec ∧
    head (sp_containers pspec) = Some w' ∧ env_lookup (flat (c_env w')) k = Some (mkEnvVar k (Some v) None).
Proof.
  unfold rebuild_job. intros (name & Hname%ok_or_ok & Hr)%bind_ok Hold Hpod Hw Hd Hdp Hk Hpf.
  rewrite Hold in Hr. cbn [ok_or mbind result_bind] in Hr. rewrite Hpod in Hr. cbn [ok_or mbind result_bind] in Hr.
  apply bind_ok in Hr as (pspec & Hps & [= <-]). eexists _, pspec, _. split; [done|]. split; [done|].
  apply pod_spec_ok in Hps as ->. split; [done|]. cbn [render_worker c_env]. rewrite flat_some.
  rewrite env_lookup_merge by done. unfold old_overrides. rewrite Hw. apply env_lookup_merge_in; [done| |].
  - clear -Hd. induction (flat (c_env w)) as [|e l IH]; cbn in *; [constructor|]. apply NoDup_cons in Hd as [Hn Hd].
    destruct (ev_value e); cbn; [|by apply IH]. apply NoDup_cons. split; [|by apply IH].
    contradict Hn. clear -Hn. induction l as [|x l IH]; cbn in *; [done|]. destruct (ev_value x); set_solver.
  - apply list_elem_of_omap. by exists (mkEnvVar k (Some v) None).
Qed.

End drift.

(** ** Queues *)

(** The Jobs of a profile that run, and those that wait. *)
Definition running (jobs : list Job) : list Job := List.filter (λ j, live j && negb (job_suspended j)) jobs.
Definition waiting_jobs (jobs : list Job) : list Job := List.filter (λ j, job_suspended j && live j) jobs.

(** The slots the running Jobs leave. *)
Definition slots (queued : list Job) (active : nat) (cap : option N) : nat :=
  match (c ← cap; if (0 <? c)%N then Some c else None) with
  | Some c => (N.to_nat c - active)%nat
  | None => List.length queued
  end.

Lemma position_take {A} (f : A → bool) l n i :
  position f l = Some i → (∃ x, x ∈ take n l ∧ f x = true) ↔ (i < n)%nat.
Proof.
  revert n i. induction l as [|x l IH]; intros n i; [done|]. cbn. destruct (f x) eqn:Ef.
  - intros [= <-]. destruct n as [|n]; cbn; [split; [by intros (? & []%not_elem_of_nil & _)|lia]|].
    split; [lia|]. intros _. exists x. set_solver.
  - destruct (position f l) as [k|] eqn:Ep; [|done]. intros [= <-]. destruct n as [|n]; cbn.
    + split; [by intros (? & []%not_elem_of_nil & _)|lia].
    + rewrite <-Nat.succ_lt_mono, <-(IH n k eq_refl). split.
      * intros (y & [->|Hy]%elem_of_cons & Hf); [congruence|eauto].
      * intros (y & Hy & Hf). exists y. set_solver.
Qed.

(** The place a queued Job is told is the turn it has: the reconciler resumes
    it exactly when the free slots reach that place. *)
Theorem queue_position_is_turn jobs name n active cap :
  queue_position jobs name = Some n →
  (∀ j, j ∈ jobs → worker_profile_label j = worker_profile_label (default (mkJob ObjectMeta_default None None) (head jobs))) →
  (∃ j, j ∈ jobs_to_resume (waiting_jobs jobs) active cap ∧ job_name j = Some name) ↔
  (N.to_nat n ≤ slots (waiting_jobs jobs) active cap)%nat.
Proof.
  unfold queue_position. intros Hq Hsame. destruct (List.find (named name) jobs) as [job|] eqn:Ef; [|done].
  cbn [mbind option_bind] in Hq.
  assert (List.filter (λ j, bool_decide (worker_profile_label j = worker_profile_label job)) jobs = jobs) as Hall.
  { apply List.find_some in Ef as [Hin _]. apply list_elem_of_In in Hin. rewrite (Hsame job Hin). clear Hin Hq.
    revert Hsame. generalize (worker_profile_label (default (mkJob ObjectMeta_default None None) (head jobs))) as lbl.
    intros lbl. induction jobs as [|x l IH]; intros Hs; [done|]. cbn [List.filter].
    rewrite bool_decide_eq_true_2 by (apply Hs; left). f_equal. apply IH. intros j Hj. apply Hs. by right. }
  rewrite Hall in Hq. fold (waiting_jobs jobs) in Hq.
  destruct (position (named name) (sort_queue (waiting_jobs jobs))) as [i|] eqn:Ep; [|done].
  cbn [mbind option_bind] in Hq. case_match; [|done]. injection Hq as <-.
  assert (N.to_nat (N.of_nat (i + 1)) ≤ slots (waiting_jobs jobs) active cap ↔
          i < slots (waiting_jobs jobs) active cap)%nat as -> by lia.
  rewrite <-(position_take _ _ _ _ Ep). unfold jobs_to_resume, slots, named.
  setoid_rewrite bool_decide_eq_true. done.
Qed.

(** *** Starts that take time

    A start of a Job is decided on a listing and carried out by a later call:
    frames run on tasks of their own and the reconciler beside them, so other
    steps come in between.  A decision is pending until its call is answered. *)
Definition resume (j : Job) : Job :=
  mkJob (j_metadata j)
    ((λ s, mkJobSpec (jp_backoff_limit s) (jp_ttl_seconds_after_finished s) (jp_active_deadline_seconds s)
       (Some false) (jp_template s)) <$> j_spec j) (j_status j).

Inductive Start :=
| Create (job : Job)
| Resume (name : string).

Record Queue := mkQueue { q_jobs : list Job; q_pending : list Start }.

Definition job_runs (j : Job) : bool := live j && negb (job_suspended j).

(** A pending call that makes a Job run. *)
Definition starts (s : Start) : bool := match s with Create j => job_runs j | Resume _ => true end.
Definition starting (l : list Start) : list Start := List.filter starts l.

Section queue.
Context {json : JsonText}.
Variables (cctui_url profile : string) (cap : N) (overlap : nat).
Hypothesis Hcap : (0 < cap)%N.

(** The steps that change the Jobs of a profile with this cap.  A dispatch and a
    pass of the reconciler decide on the Jobs as they are listed, a pass on the
    resumptions and on the Jobs to rebuild, each with the profile as it reads
    it.  A pending call is carried out, or fails or is given up.  The cluster,
    and the deletions that come before a creation, end or remove Jobs. *)
Inductive queue_step : Queue → Queue → Prop :=
  | step_dispatch jobs pending p spec ident deadline job :
      (List.length (starting pending) ≤ overlap)%nat →
      build_job cctui_url profile p spec ident deadline (profile_must_queue jobs (Some cap) (ji_name ident)) = Ok job →
      queue_step (mkQueue jobs pending) (mkQueue jobs (Create job :: pending))
  | step_reconcile jobs pending p drifted rebuilt :
      (List.length (starting pending) ≤ overlap)%nat →
      drifted `sublist_of` List.filter live jobs →
      Forall2 (λ old new, rebuild_job old p = Ok new) drifted rebuilt →
      queue_step (mkQueue jobs pending)
        (mkQueue jobs ((Create <$> rebuilt) ++
           (Resume <$> omap job_name
              (jobs_to_resume (waiting_jobs jobs) (List.length (running jobs)) (Some cap))) ++ pending))
  | step_create jobs job l r :
      job_name job ∉ job_name <$> jobs →
      queue_step (mkQueue jobs (l ++ Create job :: r)) (mkQueue (jobs ++ [job]) (l ++ r))
  | step_resume jobs name l r :
      queue_step (mkQueue jobs (l ++ Resume name :: r))
        (mkQueue ((λ j, if named name j then resume j else j) <$> jobs) (l ++ r))
  | step_drop jobs s l r : queue_step (mkQueue jobs (l ++ s :: r)) (mkQueue jobs (l ++ r))
  | step_change l j j' r pending :
      job_name j' = job_name j → (job_runs j' = true → job_runs j = true) →
      queue_step (mkQueue (l ++ j :: r) pending) (mkQueue (l ++ j' :: r) pending)
  | step_removed l j r pending : queue_step (mkQueue (l ++ j :: r) pending) (mkQueue (l ++ r) pending).

(** **** Counting *)

Definition count (f : Job → bool) (l : list Job) : nat := List.length (List.filter f l).

Lemma count_cons f j l : count f (j :: l) = ((if f j then 1 else 0) + count f l)%nat.
Proof. unfold count. cbn. by destruct (f j). Qed.

Lemma count_app f l r : count f (l ++ r) = (count f l + count f r)%nat.
Proof. unfold count. by rewrite List.filter_app, length_app. Qed.

Lemma count_mono f g l : (∀ j, j ∈ l → f j = true → g j = true) → (count f l ≤ count g l)%nat.
Proof.
  induction l as [|j l IH]; intros H; [done|]. rewrite !count_cons.
  specialize (IH (λ x Hx, H x (list_elem_of_further _ _ _ Hx))). specialize (H j (list_elem_of_here _ _)).
  destruct (f j); [rewrite H by done|destruct (g j)]; lia.
Qed.

(** All but the Job of one name. *)
Lemma count_but_one f g n l :
  NoDup (job_name <$> l) → (∀ j, j ∈ l → job_name j ≠ n → f j = true → g j = true) →
  (count f l ≤ S (count g l))%nat.
Proof.
  induction l as [|j l IH]; [cbn; lia|]. cbn [fmap list_fmap]. intros [Hj Hd]%NoDup_cons H. rewrite !count_cons.
  destruct (decide (job_name j = n)) as [Hn|Hn].
  - assert (count f l ≤ count g l)%nat by (apply count_mono; intros x Hx; apply H; [by right|];
      intros Heq; apply Hj; rewrite Hn, <-Heq; by apply list_elem_of_fmap_2). destruct (f j); lia.
  - assert (count f l ≤ S (count g l))%nat by (apply IH; [done|]; intros x Hx; apply H; by right).
    specialize (H j (list_elem_of_here _ _) Hn). destruct (f j); [rewrite H by done|]; destruct (g j); lia.
Qed.

Lemma count_drop f g j l :
  j ∈ l → f j = false → g j = true → (∀ x, f x = true → g x = true) → (S (count f l) ≤ count g l)%nat.
Proof.
  intros Hin Hf Hg H. induction l as [|x l IH]; [by apply elem_of_nil in Hin|]. rewrite !count_cons.
  pose proof (count_mono f g l (λ y _, H y)). specialize (H x).
  apply elem_of_cons in Hin as [<-|Hin]; [rewrite Hf, Hg; lia|]. specialize (IH Hin).
  destruct (f x); [rewrite H by done|destruct (g x)]; lia.
Qed.

(** The Jobs that run and that no pending creation would replace. *)
Definition free (names : gset (option string)) (j : Job) : bool :=
  job_runs j && negb (bool_decide (job_name j ∈ names)).

Lemma free_true names j : free names j = true ↔ job_runs j = true ∧ job_name j ∉ names.
Proof. unfold free. by rewrite andb_true_iff, negb_true_iff, bool_decide_eq_false. Qed.

Definition creating (l : list Start) : gset (option string) :=
  list_to_set (omap (λ s, match s with Create j => if job_runs j then Some (job_name j) else None | Resume _ => None end) l).

Definition resuming (l : list Start) : nat :=
  List.length (List.filter (λ s, match s with Resume _ => true | Create _ => false end) l).

(** What can run at most, when every pending call is carried out. *)
Definition busy (jobs : list Job) (pending : list Start) : nat :=
  count (free (creating pending)) jobs + size (creating pending) + resuming pending.

Lemma creating_app l r : creating (l ++ r) = creating l ∪ creating r.
Proof. unfold creating. by rewrite omap_app, list_to_set_app_L. Qed.

Lemma creating_cons s l :
  creating (s :: l) = match s with Create j => if job_runs j then {[job_name j]} ∪ creating l else creating l
                                | Resume _ => creating l end.
Proof. unfold creating. destruct s as [j|]; cbn; [|done]. by destruct (job_runs j). Qed.

Lemma resuming_app l r : resuming (l ++ r) = (resuming l + resuming r)%nat.
Proof. unfold resuming. by rewrite List.filter_app, length_app. Qed.

Lemma resuming_cons s l :
  resuming (s :: l) = ((match s with Resume _ => 1 | Create _ => 0 end) + resuming l)%nat.
Proof. unfold resuming. by destruct s. Qed.

(** Each pending start counts at most once. *)
Lemma starting_bounds pending : (size (creating pending) + resuming pending ≤ List.length (starting pending))%nat.
Proof.
  induction pending as [|s l IH]; [done|]. rewrite creating_cons, resuming_cons. unfold starting in *.
  destruct s as [j|n]; cbn [List.filter starts].
  - destruct (job_runs j); cbn [List.length]; [|lia].
    pose proof (size_union_alt {[job_name j]} (creating l)) as Hu.
    pose proof (subseteq_size (creating l ∖ {[job_name j]}) (creating l) ltac:(set_solver)) as Hs.
    rewrite size_singleton in Hu. lia.
  - cbn [List.length]. lia.
Qed.

Lemma running_busy jobs pending :
  NoDup (job_name <$> jobs) → (List.length (running jobs) ≤ busy jobs pending)%nat.
Proof.
  intros Hd. unfold busy. set (names := creating pending).
  assert (count job_runs jobs = count (free names) jobs +
          count (λ j, job_runs j && bool_decide (job_name j ∈ names)) jobs)%nat as Hsplit.
  { clear Hd. induction jobs as [|j l IH]; [done|]. rewrite !count_cons, IH. unfold free.
    destruct (job_runs j), (bool_decide _); cbn; lia. }
  assert (count (λ j, job_runs j && bool_decide (job_name j ∈ names)) jobs ≤ size names)%nat as Hle.
  { unfold count. rewrite <-(length_fmap job_name).
    set (l := List.filter _ jobs). assert (NoDup (job_name <$> l)) as Hl.
    { clear -Hd. subst l. induction jobs as [|j l IH]; [done|]. cbn in Hd. apply NoDup_cons in Hd as [Hj Hd].
      cbn. destruct (_ && _); [|by apply IH]. cbn. apply NoDup_cons. split; [|by apply IH]. contradict Hj.
      apply list_elem_of_fmap in Hj as (x & Hx & Hin). apply list_elem_of_fmap. exists x. split; [done|].
      by apply list_elem_of_In, filter_In in Hin as [?%list_elem_of_In _]. }
    rewrite <-(size_list_to_set (C := gset (option string)) _ Hl). apply subseteq_size. intros n.
    rewrite elem_of_list_to_set, list_elem_of_fmap. intros (x & -> & Hx). subst l.
    apply list_elem_of_In, filter_In in Hx as [_ [_ Hx]%andb_true_iff]. by apply bool_decide_eq_true in Hx. }
  change (List.length (running jobs)) with (count job_runs jobs). lia.
Qed.

(** The creation of a Job that runs already starts nothing more. *)
Lemma recreate_free names j n jobs :
  j ∈ jobs → job_runs j = true → job_name j = n →
  (count (free ({[n]} ∪ names)) jobs + size ({[n]} ∪ names) ≤ count (free names) jobs + size names)%nat.
Proof.
  intros Hin Hr <-. destruct (decide (job_name j ∈ names)) as [Hn|Hn].
  - assert ({[job_name j]} ∪ names = names) as -> by set_solver. lia.
  - rewrite size_union by set_solver. rewrite size_singleton.
    enough (S (count (free ({[job_name j]} ∪ names)) jobs) ≤ count (free names) jobs)%nat by lia.
    apply (count_drop _ _ j); [done| |by apply free_true|].
    + apply not_true_iff_false. rewrite free_true. set_solver.
    + intros x. rewrite !free_true. set_solver.
Qed.

Lemma recreate_all jobs p drifted rebuilt pending :
  Forall (λ j, j ∈ jobs ∧ live j = true) drifted →
  Forall2 (λ old new, rebuild_job old p = Ok new) drifted rebuilt →
  (count (free (creating ((Create <$> rebuilt) ++ pending))) jobs + size (creating ((Create <$> rebuilt) ++ pending))
   ≤ count (free (creating pending)) jobs + size (creating pending))%nat.
Proof.
  intros Hl Hr. revert Hl. induction Hr as [|old new olds news Hb _ IH]; [done|].
  intros [[Hin Hlive] Hl]%Forall_cons. specialize (IH Hl). cbn [fmap list_fmap app].
  rewrite creating_cons. destruct (job_runs new) eqn:Er; [|exact IH].
  destruct (rebuild_repairs old p new Hb) as (_ & _ & _ & _ & _ & Hn & Hs & _).
  etrans; [|exact IH]. apply (recreate_free _ old); [done| |by rewrite Hn].
  unfold job_runs in *. rewrite Hs in Er. apply andb_true_iff in Er as [_ ->]. by rewrite Hlive.
Qed.

(** **** The invariant *)

Definition queue_ok (q : Queue) : Prop :=
  NoDup (job_name <$> q_jobs q) ∧ (busy (q_jobs q) (q_pending q) ≤ N.to_nat cap + overlap)%nat.

Lemma build_job_suspended url name q spec ident deadline suspend job :
  build_job url name q spec ident deadline suspend = Ok job →
  job_suspended job = suspend ∧ job_name job = Some (ji_name ident).
Proof.
  unfold build_job. intros (re & _ & Hr)%bind_ok. apply bind_ok in Hr as (pspec & _ & [= <-]). by destruct suspend.
Qed.

(** The running Jobs that must_queue counts. *)
Lemma must_queue_slots jobs name :
  must_queue jobs cap name = false → (count (λ j, job_runs j && negb (bool_decide (job_name j = Some name))) jobs < N.to_nat cap)%nat.
Proof.
  unfold must_queue. intros [_ Hlt]%orb_false_iff. apply N.leb_gt in Hlt.
  enough (count (λ j, job_runs j && negb (bool_decide (job_name j = Some name))) jobs =
          List.length (List.filter (λ j, negb (job_suspended j)) (others jobs name))) by lia.
  clear Hlt. unfold others, count, job_runs. induction jobs as [|j l IH]; [done|]. cbn.
  destruct (bool_decide _); cbn; rewrite ?andb_false_r; [done|].
  destruct (live j); cbn; [|done]. destruct (job_suspended j); cbn; by rewrite IH.
Qed.

Lemma dispatch_within jobs pending p spec ident deadline job :
  queue_ok (mkQueue jobs pending) → (List.length (starting pending) ≤ overlap)%nat →
  build_job cctui_url profile p spec ident deadline (profile_must_queue jobs (Some cap) (ji_name ident)) = Ok job →
  queue_ok (mkQueue jobs (Create job :: pending)).
Proof.
  intros [Hd Hb] Ho Hj. split; [done|]. cbn [q_jobs q_pending] in *. unfold busy in *.
  apply build_job_suspended in Hj as [Hs Hn]. rewrite creating_cons, resuming_cons.
  destruct (job_runs job) eqn:Er; [|exact Hb]. unfold job_runs in Er. apply andb_true_iff in Er as [_ Er].
  apply negb_true_iff in Er. rewrite Er in Hs. unfold profile_must_queue in Hs.
  replace (0 <? cap)%N with true in Hs by (symmetry; by apply N.ltb_lt). symmetry in Hs.
  apply must_queue_slots in Hs. pose proof (starting_bounds pending) as Hsb. rewrite Hn.
  assert (count (free ({[Some (ji_name ident)]} ∪ creating pending)) jobs ≤
          count (λ j, job_runs j && negb (bool_decide (job_name j = Some (ji_name ident)))) jobs)%nat.
  { apply count_mono. intros j _. rewrite free_true, andb_true_iff, negb_true_iff, bool_decide_eq_false. set_solver. }
  pose proof (size_union_alt {[Some (ji_name ident)]} (creating pending)) as Hu.
  pose proof (subseteq_size (creating pending ∖ {[Some (ji_name ident)]}) (creating pending) ltac:(set_solver)).
  rewrite size_singleton in Hu. lia.
Qed.

Lemma resumed_slots jobs :
  (List.length (omap job_name (jobs_to_resume (waiting_jobs jobs) (List.length (running jobs)) (Some cap)))
   ≤ N.to_nat cap - List.length (running jobs))%nat.
Proof.
  unfold jobs_to_resume. cbn [mbind option_bind]. replace (0 <? cap)%N with true by (symmetry; by apply N.ltb_lt).
  set (l := take _ _). assert (List.length (omap job_name l) ≤ List.length l)%nat as Hl.
  { clear. induction l as [|j l IH]; [done|]. cbn. destruct (job_name j); cbn; lia. }
  etrans; [exact Hl|]. subst l. rewrite length_take. lia.
Qed.

Lemma reconcile_within jobs pending p drifted rebuilt :
  queue_ok (mkQueue jobs pending) → (List.length (starting pending) ≤ overlap)%nat →
  drifted `sublist_of` List.filter live jobs → Forall2 (λ old new, rebuild_job old p = Ok new) drifted rebuilt →
  queue_ok (mkQueue jobs ((Create <$> rebuilt) ++
    (Resume <$> omap job_name (jobs_to_resume (waiting_jobs jobs) (List.length (running jobs)) (Some cap))) ++ pending)).
Proof.
  intros [Hd Hb] Ho Hs Hr. split; [done|]. cbn [q_jobs q_pending] in *. pose proof (resumed_slots jobs) as Hm.
  set (names := omap job_name _) in *.
  assert (creating ((Resume <$> names) ++ pending) = creating pending) as Hc.
  { rewrite creating_app. assert (creating (Resume <$> names) = ∅) as ->; [|set_solver].
    clear. induction names as [|n l IH]; [done|exact IH]. }
  assert (resuming ((Create <$> rebuilt) ++ (Resume <$> names) ++ pending) =
          List.length names + resuming pending)%nat as Hres.
  { rewrite !resuming_app. assert (resuming (Create <$> rebuilt) = 0%nat) as ->.
    { clear. induction rebuilt as [|n l IH]; [done|exact IH]. }
    assert (resuming (Resume <$> names) = List.length names) as ->; [|lia].
    clear. induction names as [|n l IH]; [done|exact (f_equal S IH)]. }
  assert (Forall (λ j, j ∈ jobs ∧ live j = true) drifted) as Hl.
  { apply Forall_forall. intros j Hj. apply (sublist_subseteq _ _ Hs) in Hj.
    by apply list_elem_of_In, filter_In in Hj as [?%list_elem_of_In ?]. }
  pose proof (recreate_all jobs p drifted rebuilt ((Resume <$> names) ++ pending) Hl Hr) as Hf.
  rewrite Hc in Hf. unfold busy in *. rewrite Hres. pose proof (starting_bounds pending).
  assert (count (free (creating pending)) jobs ≤ List.length (running jobs))%nat.
  { apply count_mono. intros j _. by intros [? _]%free_true. }
  lia.
Qed.

(** A pending call that goes away. *)
Lemma forget_free jobs s l r :
  NoDup (job_name <$> jobs) → (busy jobs (l ++ r) ≤ busy jobs (l ++ s :: r))%nat.
Proof.
  intros Hd. unfold busy. rewrite !resuming_app, resuming_cons, !creating_app, creating_cons.
  destruct s as [j|n]; [|lia]. destruct (job_runs j); [|lia].
  set (names := creating l ∪ creating r).
  assert (creating l ∪ ({[job_name j]} ∪ creating r) = {[job_name j]} ∪ names) as -> by set_solver.
  destruct (decide (job_name j ∈ names)) as [Hn|Hn].
  - assert ({[job_name j]} ∪ names = names) as -> by set_solver. lia.
  - rewrite size_union, size_singleton by set_solver.
    enough (count (free names) jobs ≤ S (count (free ({[job_name j]} ∪ names)) jobs))%nat by lia.
    apply (count_but_one _ _ (job_name j)); [done|]. intros x _ Hx. rewrite !free_true. set_solver.
Qed.

(** A Job that is created under a free name. *)
Lemma create_busy jobs job l r :
  job_name job ∉ job_name <$> jobs → (busy (jobs ++ [job]) (l ++ r) ≤ busy jobs (l ++ Create job :: r))%nat.
Proof.
  intros Hn. unfold busy. rewrite count_app, !resuming_app, resuming_cons, !creating_app, creating_cons.
  set (names := creating l ∪ creating r).
  assert (count (free names) [job] = if free names job then 1 else 0)%nat as ->.
  { rewrite count_cons. unfold count. cbn. lia. }
  destruct (job_runs job) eqn:Er.
  2:{ assert (free names job = false) as -> by (unfold free; by rewrite Er). fold names. lia. }
  assert (creating l ∪ ({[job_name job]} ∪ creating r) = {[job_name job]} ∪ names) as -> by set_solver.
  assert (count (free names) jobs ≤ count (free ({[job_name job]} ∪ names)) jobs)%nat as Hc.
  { apply count_mono. intros x Hx. rewrite !free_true. intros [? ?]. split; [done|].
    rewrite not_elem_of_union, not_elem_of_singleton. split; [|done]. intros Heq. apply Hn. rewrite <-Heq.
    by apply list_elem_of_fmap_2. }
  destruct (decide (job_name job ∈ names)) as [Hi|Hi].
  - assert (free names job = false) as -> by (apply not_true_iff_false; rewrite free_true; by intros [_ ?]).
    assert ({[job_name job]} ∪ names = names) as -> by set_solver. cbn. lia.
  - rewrite size_union, size_singleton by set_solver. destruct (free names job); cbn; lia.
Qed.

(** One Job that resumes. *)
Lemma resume_busy jobs name l r :
  NoDup (job_name <$> jobs) →
  (busy ((λ j, if named name j then resume j else j) <$> jobs) (l ++ r) ≤ busy jobs (l ++ Resume name :: r))%nat.
Proof.
  intros Hd. unfold busy. rewrite !resuming_app, resuming_cons, !creating_app, creating_cons.
  set (names := creating l ∪ creating r). set (f := λ j, if named name j then resume j else j).
  enough (count (free names) (f <$> jobs) ≤ S (count (free names) jobs))%nat by lia.
  assert (count (free names) (f <$> jobs) = count (λ j, free names (f j)) jobs) as ->.
  { clearbody f names. clear. induction jobs as [|j js IH]; [done|]. cbn [fmap list_fmap].
    change (list_fmap Job Job f js) with (f <$> js). by rewrite !count_cons, IH. }
  apply (count_but_one _ _ (Some name)); [done|]. intros j _ Hj. unfold f, named.
  by rewrite bool_decide_eq_false_2.
Qed.

Lemma step_within q q' : queue_step q q' → queue_ok q → queue_ok q'.
Proof.
  intros Hstep. destruct Hstep as [jobs pending p spec ident deadline job Ho Hj|jobs pending p drifted rebuilt Ho Hs Hr
    |jobs job l r Hn|jobs name l r|jobs s l r|l j j' r pending Hn Hr|l j r pending]; intros Hw.
  - by eapply dispatch_within.
  - by eapply reconcile_within.
  - destruct Hw as [Hd Hb]. split; cbn [q_jobs q_pending] in *.
    + rewrite fmap_app. apply NoDup_app. split; [done|]. split; [|apply NoDup_singleton]. cbn. set_solver.
    + etrans; [by apply create_busy|done].
  - destruct Hw as [Hd Hb]. split; cbn [q_jobs q_pending] in *.
    + rewrite <-list_fmap_compose.
      assert (job_name ∘ (λ j, if named name j then resume j else j) <$> jobs = job_name <$> jobs) as ->; [|done].
      apply list_fmap_ext. intros _ j _. cbn. by destruct (named name j).
    + etrans; [by apply resume_busy|done].
  - destruct Hw as [Hd Hb]. split; [done|]. etrans; [by apply forget_free|done].
  - destruct Hw as [Hd Hb]. split; cbn [q_jobs q_pending] in *.
    + rewrite fmap_app in Hd |- *. cbn in *. by rewrite Hn.
    + etrans; [|exact Hb]. unfold busy. rewrite !count_app, !count_cons.
      assert (free (creating pending) j' = true → free (creating pending) j = true) as Hf
        by (rewrite !free_true, Hn; naive_solver).
      destruct (free _ j'); [rewrite Hf by done; lia|destruct (free _ j); lia].
  - destruct Hw as [Hd Hb]. split; cbn [q_jobs q_pending] in *.
    + rewrite fmap_app in Hd |- *. cbn in *. by apply NoDup_app in Hd as (? & ? & [_ ?]%NoDup_cons); apply NoDup_app; set_solver.
    + etrans; [|exact Hb]. unfold busy. rewrite !count_app, !count_cons. lia.
Qed.

(** C11. Dispatches, passes of the reconciler, the calls by which they create and
    resume Jobs and the Jobs' own ends interleave in any way, while the profile
    exists with a cap.  If no start is decided on a listing while more than
    [overlap] starts that were decided before are outstanding, at most that many
    Jobs more than the cap run; so the cap holds when decisions wait for each
    other, whatever ends or fails meanwhile. *)
Theorem profile_cap_holds jobs pending :
  rtc queue_step (mkQueue [] []) (mkQueue jobs pending) →
  (N.of_nat (List.length (running jobs)) ≤ cap + N.of_nat overlap)%N.
Proof.
  intros Hr. assert (queue_ok (mkQueue jobs pending)) as [Hd Hb].
  { refine (rtc_ind_r queue_ok (mkQueue [] []) _ _ _ Hr); [split; [apply NoDup_nil_2|vm_compute; lia]|].
    intros q q' _ Hstep Hw. by eapply step_within. }
  cbn [q_jobs q_pending] in *. pose proof (running_busy jobs pending Hd). lia.
Qed.

End queue.

(** ** Witnesses *)

Lemma handle_roundtrip_witness :
  handle_parse (handle_format "cctui-worker-1" (Some "a/b")) = mkHandle "cctui-worker-1" (Some "a/b").
Proof. rewrite (handle_roundtrip "cctui-worker-1" (Some "a/b")); reflexivity. Defined.

#[local] Existing Instance demo_json.

Definition waiting_job (created : Z) (name : string) : Job :=
  mkJob (mkMeta (Some name) None (Some {[LABEL_WORKER_PROFILE := "lean"]}) None None (Some created) ∅)
    (Some (mkJobSpec None None None (Some true) (mkTemplate None None))) None.

Definition demo_old : Job :=
  match build_job "https://cctui" "lean" demo_profile demo_dispatch demo_ident 3600 true with
  | Ok job => job
  | Err _ => mkJob ObjectMeta_default None None
  end.
Definition demo_old_spec : JobSpec := default (mkJobSpec None None None None (mkTemplate None None)) (j_spec demo_old).

(** The profile with another locale. *)
Definition locale_profile : WorkerProfileSpec :=
  mkProfile "registry/worker:2" None None None
    (Some [mkEnvVar "LANG" (Some "en") None]) None (Some [mkMount "cache" "/cache" None ∅]) None None None
    (Some [empty_dir "cache"]) None None None None None None None None false None None None (Some Nonroot)
    (Some (mkExposure true true true)) (Some NoPush).

Lemma rebuild_repairs_witness :
  ∃ job js, rebuild_job demo_old locale_profile = Ok job ∧ j_spec job = Some js ∧
    template_drift (jp_template js) locale_profile = None ∧ job_suspended job = true.
Proof.
  destruct (rebuild_job demo_old locale_profile) as [job|] eqn:E; [|discriminate E].
  destruct (rebuild_repairs demo_old locale_profile job E) as (js & _ & Hj & _ & Hd & _ & Hs & _).
  exists job, js. split; [reflexivity|]. split; [exact Hj|]. split; [exact Hd|]. rewrite Hs. reflexivity.
Defined.

Lemma rebuild_keeps_literals_witness :
  ∃ job js pspec w', rebuild_job demo_old locale_profile = Ok job ∧ j_spec job = Some js ∧
    pt_spec (jp_template js) = Some pspec ∧ head (sp_containers pspec) = Some w' ∧
    env_lookup (flat (c_env w')) "LANG" = Some (mkEnvVar "LANG" (Some "C") None).
Proof.
  destruct (rebuild_job demo_old locale_profile) as [job|] eqn:E; [|discriminate E].
  destruct (pt_spec (jp_template demo_old_spec)) as [old_pod|] eqn:Ep; [|discriminate Ep].
  destruct (List.find (λ c, c_name c ==s "worker") (sp_containers old_pod)) as [w|] eqn:Ew;
    [|injection Ep as <-; discriminate Ew].
  destruct (rebuild_keeps_literals demo_old locale_profile job demo_old_spec old_pod w "LANG" "C")
    as (js & pspec & w' & Hj & Hp & Hh & Hl).
  - exact E.
  - reflexivity.
  - exact Ep.
  - exact Ew.
  - injection Ep as <-. injection Ew as <-. apply (bool_decide_unpack _). vm_compute. exact I.
  - apply (bool_decide_unpack _). vm_compute. exact I.
  - injection Ep as <-. injection Ew as <-. left.
  - intros Hx. by apply not_elem_of_nil in Hx.
  - by exists job, js, pspec, w'.
Defined.

Definition demo_queue : list Job := [waiting_job 3 "b"; waiting_job 1 "c"; waiting_job 2 "a"].

Lemma queue_position_is_turn_witness :
  ∃ j, j ∈ jobs_to_resume (waiting_jobs demo_queue) 1 (Some 3%N) ∧ job_name j = Some "a".
Proof.
  apply (queue_position_is_turn demo_queue "a" 2 1 (Some 3%N)).
  - vm_compute. reflexivity.
  - intros j Hj. repeat (apply elem_of_cons in Hj as [-> |Hj]; [reflexivity|]). by apply not_elem_of_nil in Hj.
  - vm_compute. reflexivity.
Defined.

Definition demo_build (name : string) (suspend : bool) : Job :=
  match build_job "https://cctui" "lean" demo_profile demo_dispatch (mkJobIdentity name "d-1") 3600 suspend with
  | Ok job => job
  | Err _ => mkJob ObjectMeta_default None None
  end.

Lemma demo_dispatch_step overlap jobs pending name :
  (List.length (starting pending) ≤ overlap)%nat →
  queue_step "https://cctui" "lean" 1 overlap (mkQueue jobs pending)
    (mkQueue jobs (Create (demo_build name (profile_must_queue jobs (Some 1%N) name)) :: pending)).
Proof.
  intros Ho. apply (step_dispatch _ _ _ _ jobs pending demo_profile demo_dispatch (mkJobIdentity name "d-1") 3600); [done|].
  cbn [ji_name]. destruct (profile_must_queue jobs (Some 1%N) name); reflexivity.
Qed.

(** Two dispatches that are decided before either Job is created both start,
    over a cap of one; the bound is met. *)
Example overlapping_dispatches_exceed :
  ∃ jobs, rtc (queue_step "https://cctui" "lean" 1 1) (mkQueue [] []) (mkQueue jobs []) ∧
    List.length (running jobs) = 2%nat.
Proof.
  exists [demo_build "a" false; demo_build "b" false]. split; [|vm_compute; reflexivity].
  eapply rtc_l; [apply (demo_dispatch_step 1 [] [] "a"); cbn; lia|].
  eapply rtc_l; [apply (demo_dispatch_step 1 [] _ "b"); vm_compute; lia|].
  eapply rtc_l; [apply (step_create _ _ _ _ [] (demo_build "a" false) [Create (demo_build "b" false)] []); vm_compute; set_solver|].
  eapply rtc_l; [apply (step_create _ _ _ _ [demo_build "a" false] (demo_build "b" false) [] [])|apply rtc_refl].
  cbn. intros Hin%list_elem_of_singleton. discriminate Hin.
Qed.

Lemma profile_cap_holds_witness :
  ∃ jobs, List.length jobs = 2%nat ∧ (N.of_nat (List.length (running jobs)) ≤ 1 + N.of_nat 0)%N.
Proof.
  exists [demo_build "a" false; demo_build "b" true]. split; [reflexivity|].
  apply (profile_cap_holds "https://cctui" "lean" 1 0 ltac:(lia) _ []).
  eapply rtc_l; [apply (demo_dispatch_step 0 [] [] "a"); cbn; lia|].
  eapply rtc_l; [apply (step_create _ _ _ _ [] (demo_build "a" false) [] []); cbn; intros Hin; by apply elem_of_nil in Hin|].
  eapply rtc_l; [apply (demo_dispatch_step 0 _ [] "b"); cbn; lia|].
  eapply rtc_l; [apply (step_create _ _ _ _ [demo_build "a" false] (demo_build "b" true) [] [])|apply rtc_refl].
  cbn. intros Hin%list_elem_of_singleton. discriminate Hin.
Defined.
