(* ===== verification/Cluster.v ===== *)
(** * The dispatcher against the cluster
    ([cctui-dispatcher-kube/src/spawn.rs], [spawn/queue_hold.rs],
    [spawn/worker_exit.rs])

    The operations of the dispatcher that call the Kubernetes API and the
    server's registry, as programs over those calls.  An answer is whatever
    the other side gives: nothing is assumed of the cluster between two calls,
    so other dispatchers and controllers may act there.  A program's runs are
    the sequences of calls with their answers. *)

From stdpp Require Import base decidable list gmap sets strings sorting.
From Stdlib Require Import Lia ZArith Bool Ascii String.
From S2P Require Import Prelude RustStr Json Prog Kube Envelope Validate Spawn.

(** ** Calls *)

Inductive KubeError := ApiError (code : N) (message : string) | OtherError (message : string).

Inductive Op :=
  | OCreate (job : Job)
  | OGet (name : string)
  | ODelete (name : string) (uid : option string)
  | OList (selector : string)
  | OProfile (name : string)
  | OPods (job_name : string)
  | OUnsuspend (name : string)
  | ORegister (req : RegisterRequest)
  | OHold (dispatch_id : string)
  | OSleep.

Definition Ans (op : Op) : Type :=
  match op with
  | OCreate _ | ODelete _ _ | OUnsuspend _ => result KubeError unit
  | OGet _ => result KubeError Job
  | OList _ => result KubeError (list Job)
  | OProfile _ => result KubeError WorkerProfileSpec
  | OPods _ => result KubeError (list Pod)
  | ORegister _ | OHold _ => result string unit
  | OSleep => unit
  end.

Abbreviation prog := (Prog.prog Ans).
Abbreviation event := (Prog.event Ans).
Abbreviation ev := (Prog.ev (Ans := Ans)).
Open Scope prog_scope.

(** ** The dispatcher *)

Section dispatcher.
Context {sha : Sha1} {json : JsonText}.
Variables (namespace default_profile cctui_url : string) (max_inflight : N) (deadline : Z).
(** [Display] of an error. *)
Variable show : KubeError → string.

Definition is_code (code : N) (e : KubeError) : bool :=
  match e with ApiError c _ => (c =? code)%N | OtherError _ => false end.

(** [Api::get_opt]. *)
Definition get_opt (name : string) : prog (result KubeError (option Job)) :=
  call (OGet name) ≫= λ r,
    Ret match r with
        | Ok j => Ok (Some j)
        | Err e => if is_code 404 e then Ok None else Err e
        end.

Record DispatchExposure := mkDispatchExposure {
  de_untrusted_input : bool;
  de_sensitive_data : bool;
  de_outward : bool;
  de_human_gate : option HumanGate;
}.

Definition wire_exposure (e : Exposure) (gate : option HumanGate) : DispatchExposure :=
  mkDispatchExposure (ex_untrusted_input e) (ex_sensitive_data e) (ex_outward e) gate.

Record SpawnOutcome := mkOutcome {
  so_handle : string;
  so_status : string;
  so_namespace : option string;
  so_exposure : option DispatchExposure;
}.

Definition outcome (name : string) (session : option string) (status : string) : SpawnOutcome :=
  mkOutcome (handle_format name session) status (Some namespace) None.

Definition with_exposure (e : option DispatchExposure) (o : SpawnOutcome) : SpawnOutcome :=
  mkOutcome (so_handle o) (so_status o) (so_namespace o) e.

(** Whether the Job of the name is no longer the deleted one. *)
Definition replaced (job : Job) (uid : option string) : bool :=
  bool_decide (is_Some uid) && negb (bool_decide (om_uid (j_metadata job) = uid)).

Fixpoint wait_gone (polls : nat) (name : string) (uid : option string) : prog (result string unit) :=
  match polls with
  | 0%nat => Ret (Err ("timed out deleting Job " ++s name))
  | S polls =>
    call (OGet name) ≫= λ r,
      match r with
      | Err e => if is_code 404 e then Ret (Ok ()) else Ret (Err ("waiting for Job deletion: " ++s show e))
      | Ok job => if replaced job uid then Ret (Ok ()) else call OSleep ≫= λ _, wait_gone polls name uid
      end
  end.

Definition delete_and_wait (name : string) (uid : option string) : prog (result string unit) :=
  call (ODelete name uid) ≫= λ r,
    match r with
    | Ok _ => wait_gone 60 name uid
    | Err e =>
      if is_code 404 e then wait_gone 60 name uid
      else if is_code 409 e && bool_decide (is_Some uid) then Ret (Ok ())
      else Ret (Err ("deleting terminal Job: " ++s show e))
    end.

Definition holder_session (name : string) : prog (option string) :=
  get_opt name ≫= λ r, Ret (match r with Ok (Some job) => job_session job | _ => None end).

Definition place_job (job : Job) (suspend : bool) (name : string) : prog (result string SpawnOutcome) :=
  let status := if suspend then "queued" else "dispatched" in
  let ours := job_session job in
  call (OCreate job) ≫= λ r,
    match r with
    | Ok _ => Ret (Ok (outcome name ours status))
    | Err e =>
      if negb (is_code 409 e) then Ret (Err ("creating Job: " ++s show e))
      else
        call (OGet name) ≫= λ r,
          match r with
          | Err e =>
            if is_code 404 e then
              call (OCreate job) ≫= λ r,
                Ret match r with
                    | Ok _ => Ok (outcome name ours status)
                    | Err e => Err ("creating Job: " ++s show e)
                    end
            else Ret (Err ("reading existing Job: " ++s show e))
          | Ok existing =>
            if live existing then Ret (Ok (outcome name (job_session existing) "deduplicated"))
            else
              _ <-? delete_and_wait name (om_uid (j_metadata existing));
              call (OCreate job) ≫= λ r,
                match r with
                | Ok _ => Ret (Ok (outcome name ours (if suspend then "queued" else "redispatched")))
                | Err e =>
                  if is_code 409 e then
                    holder_session name ≫= λ winner, Ret (Ok (outcome name winner "deduplicated"))
                  else Ret (Err ("recreating Job: " ++s show e))
                end
          end
    end.

Record Admission := mkAdmission {
  am_profile_name : string;
  am_profile : WorkerProfileSpec;
  am_exposure : option DispatchExposure;
  am_name : string;
  am_joined : option SpawnOutcome;
}.

Definition admit_dispatch (spec : WireDispatchSpec) : prog (result string Admission) :=
  if is_empty (ds_session_id spec) then Ret (Err "session_id is required")
  else
    match resolve_profile_name spec default_profile with
    | None => Ret (Err "no worker profile selected and no default_profile set")
    | Some profile_name =>
      profile <-? (call (OProfile profile_name) ≫= λ r,
                     Ret (map_err (λ e, "reading WorkerProfile `" ++s profile_name ++s "`: " ++s show e) r));
      let exposure := (λ e, wire_exposure e (pr_human_gate profile)) <$> pr_exposure profile in
      let name := worker_name (dedup_source spec) in
      existing <-? (get_opt name ≫= λ r, Ret (map_err (λ e, "reading existing Job: " ++s show e) r));
      let joined :=
        match existing with
        | Some j => if live j then Some (with_exposure exposure (outcome name (job_session j) "deduplicated")) else None
        | None => None
        end in
      Ret (Ok (mkAdmission profile_name profile exposure name joined))
    end.

Definition origin_selector : string := LABEL_ORIGIN ++s "=cctui-kube-dispatcher".

Definition cap_check (this_name : string) : prog (result string unit) :=
  if (max_inflight =? 0)%N then Ret (Ok ())
  else
    call (OList origin_selector) ≫= λ r,
      Ret match r with
          | Err e => Err ("listing worker Jobs for concurrency cap: " ++s show e)
          | Ok jobs => enforce_inflight_cap max_inflight jobs this_name
          end.

Definition queue_check (profile_name : string) (cap : option N) (this_name : string) : prog (result string bool) :=
  match (c ← cap; if (0 <? c)%N then Some c else None) with
  | None => Ret (Ok false)
  | Some c =>
    call (OList (origin_selector ++s "," ++s LABEL_WORKER_PROFILE ++s "=" ++s label_safe profile_name)) ≫= λ r,
      Ret match r with
          | Err e => Err ("listing worker Jobs for profile cap: " ++s show e)
          | Ok jobs => Ok (must_queue jobs c this_name)
          end
  end.

(** The fresh dispatch id is an argument. *)
Definition dispatch_worker (spec : WireDispatchSpec) (dispatch_id : string) : prog (result string SpawnOutcome) :=
  a <-? admit_dispatch spec;
  match am_joined a with
  | Some joined => Ret (Ok joined)
  | None =>
    let name := am_name a in
    _ <-? cap_check name;
    suspend <-? queue_check (am_profile_name a) (pr_max_inflight (am_profile a)) name;
    let identity := mkJobIdentity name dispatch_id in
    job <-? Ret (build_job cctui_url (am_profile_name a) (am_profile a) spec identity deadline suspend);
    req <-? Ret (registration cctui_url (am_profile a) spec namespace identity);
    _ <-? call (ORegister req);
    placed <-? place_job job suspend name;
    Ret (Ok (with_exposure (am_exposure a) placed))
  end.

Definition dedup_check (spec : WireDispatchSpec) : prog (result string (option SpawnOutcome)) :=
  a <-? admit_dispatch spec; Ret (Ok (am_joined a)).

Definition cancel_worker (handle : string) : prog (result string unit) :=
  let run := handle_parse handle in
  match h_session run with
  | None => delete_and_wait (h_name run) None
  | Some _ =>
    job <-? (get_opt (h_name run) ≫= λ r, Ret (map_err (λ e, "reading Job " ++s h_name run ++s ": " ++s show e) r));
    match job with
    | Some job => if owns run job then delete_and_wait (h_name run) (om_uid (j_metadata job)) else Ret (Ok ())
    | None => Ret (Ok ())
    end
  end.

(** ** Status *)

Inductive HandleState := HRunning | HQueued | HComplete | HFailed | HGone.

Definition HandleState_as_str (h : HandleState) : string :=
  match h with
  | HRunning => "running" | HQueued => "queued" | HComplete => "complete" | HFailed => "failed" | HGone => "gone"
  end.

(** The [limits.memory] of a container. *)
Definition memory_limit (pod : Pod) (container : string) : option string :=
  spec ← p_spec pod;
  c ← List.find (λ c, c_name c ==s container) (flat (sp_init_containers spec) ++ sp_containers spec);
  resources ← c_resources c;
  limits ← rr_limits resources;
  limits !! "memory".

Definition oom_reason (limit : option string) : string :=
  match limit with None => "OOMKilled" | Some l => "OOMKilled (memory limit " ++s l ++s ")" end.

Definition all_statuses (st : PodStatus) : list ContainerStatus :=
  flat (pst_init_container_statuses st) ++ flat (pst_container_statuses st).

Definition terminated_reason (cs : ContainerStatus) : option string :=
  ((cs_state cs ≫= st_terminated) ≫= tm_reason).

Definition oom_killed (pods : list Pod) : option string :=
  find_map (λ pod,
    st ← p_status pod;
    cs ← List.find (λ cs, bool_decide (terminated_reason cs = Some "OOMKilled")) (all_statuses st);
    Some (oom_reason (memory_limit pod (cs_name cs)))) pods.

Definition DOOMED_REASONS : list string :=
  [ "CrashLoopBackOff"; "ImagePullBackOff"; "ErrImagePull"; "CreateContainerError"; "CreateContainerConfigError";
    "InvalidImageName" ].

(** A container that waits for a doomed reason or was killed. *)
Definition doomed (pod : Pod) (cs : ContainerStatus) : option string :=
  st ← cs_state cs;
  match (r ← (w ← st_waiting st; w); if existsb (String.eqb r) DOOMED_REASONS then Some r else None) with
  | Some r => Some r
  | None =>
    if bool_decide (terminated_reason cs = Some "OOMKilled") then Some (oom_reason (memory_limit pod (cs_name cs)))
    else None
  end.

(** [pod_failure_reason] on the listed pods; a pod without a status ends the
    search.  The times are seconds. *)
Fixpoint pods_failure (now : Z) (pods : list Pod) : option string :=
  match pods with
  | [] => None
  | pod :: pods =>
    match p_status pod with
    | None => None
    | Some st =>
      match find_map (doomed pod) (all_statuses st) with
      | Some reason => Some reason
      | None =>
        let pending :=
          if bool_decide (pst_phase st = Some "Pending") then
            created ← om_creation_timestamp (p_metadata pod);
            let age := (now - created)%Z in
            if (PENDING_FAILURE_SECS <=? age)%Z
            then Some ("pod pending for " ++s i64_to_string age ++s "s (unschedulable?)") else None
          else None in
        match pending with
        | Some reason => Some reason
        | None =>
          if bool_decide (pst_phase st = Some "Failed") then Some (default "pod failed" (pst_reason st))
          else pods_failure now pods
        end
      end
    end
  end.

Definition job_failed_reason (job : Job) : option string :=
  conditions ← (st ← j_status job; js_conditions st);
  c ← List.find (λ c, (jc_type c ==s "Failed") && (jc_status c ==s "True")) conditions;
  Some (default "job failed" (or_else (jc_message c) (jc_reason c))).

(** *** How the worker ended ([worker_exit.rs]) *)

Definition worker_container (pod : Pod) : string :=
  default DEFAULT_WORKER_CONTAINER (annotation (p_metadata pod) ANNOTATION_WORKER_CONTAINER).

Definition termination (cs : ContainerStatus) : option (Terminated * bool) :=
  match cs_state cs ≫= st_terminated with
  | Some t => Some (t, false)
  | None => (λ t, (t, true)) <$> (cs_last_state cs ≫= st_terminated)
  end.

(** [max_by_key] of the time of creation: the last of the newest. *)
Definition newer (a b : Pod) : bool :=
  opt_leb Z.leb Z.eqb (om_creation_timestamp (p_metadata a)) (om_creation_timestamp (p_metadata b)) true.

Definition newest (pods : list Pod) : option Pod :=
  match pods with
  | [] => None
  | p :: ps => Some (foldl (λ best x, if newer best x then x else best) p ps)
  end.

Definition worker_termination (pod : Pod) (statuses : list ContainerStatus) : option (Terminated * bool) :=
  cs ← List.find (λ cs, cs_name cs ==s worker_container pod) statuses; termination cs.

Definition termination_message (pods : list Pod) : option string :=
  pod ← newest pods;
  statuses ← (st ← p_status pod; pst_container_statuses st);
  '(t, _) ← worker_termination pod statuses;
  if (tm_exit_code t =? 0)%Z then None else nonblank (tm_message t).

Record WorkerExit := mkExit {
  we_container : option string;
  we_exit_code : option Z;
  we_reason : option string;
  we_signal : option Z;
  we_log_tail : option string;
  we_logs_error : option string;
}.

Record LogTarget := mkLogTarget { lt_pod : string; lt_container : string; lt_previous : bool }.

Definition failed_container (cs : ContainerStatus) : option (string * (Terminated * bool)) :=
  '(t, prev) ← termination cs; if (tm_exit_code t =? 0)%Z then None else Some (cs_name cs, (t, prev)).

Definition exit_of (pods : list Pod) : option (WorkerExit * LogTarget) :=
  pod ← newest pods;
  pod_name ← om_name (p_metadata pod);
  let worker := worker_container pod in
  let statuses := match p_status pod with Some st => flat (pst_container_statuses st) | None => [] end in
  let worker_end := worker_termination pod statuses in
  let culprit :=
    match worker_end with
    | Some (t, _) => if (tm_exit_code t =? 0)%Z then find_map failed_container statuses else None
    | None => None
    end in
  let '(container, end_) := match culprit with Some (n, e) => (n, Some e) | None => (worker, worker_end) end in
  let terminated := fst <$> end_ in
  let previous := default false (snd <$> end_) in
  Some (mkExit (Some container) (tm_exit_code <$> terminated)
          (terminated ≫= λ t, or_else (tm_message t) (tm_reason t)) (terminated ≫= tm_signal) None None,
        mkLogTarget pod_name container previous).

Definition LOG_TAIL_LINES : nat := 40.

Definition tail_lines (text : string) (n : nat) : option string :=
  let text := trim_end text in
  if is_empty text then None
  else let ls := RustStr.lines text in Some (join nl (drop (List.length ls - n) ls)).

Definition logs_error (code : N) (message : string) : string :=
  if (code =? 403)%N then
    "the dispatcher may not read pod logs: its ServiceAccount needs `get` on `pods/log` (core API group) in namespace `" ++s
    namespace ++s "`"
  else if (code =? 404)%N then "the pod is gone, and its logs with it"
  else "pod logs unreadable (" ++s u32_to_string code ++s "): " ++s message.

(** *** The state of a handle *)

Definition pods_reason (f : list Pod → option string) (job_name : string) : prog (option string) :=
  call (OPods job_name) ≫= λ r, Ret (match r with Ok pods => f pods | Err _ => None end).

Definition worker_status (now : Z) (handle : string) : prog (result string (HandleState * option string)) :=
  let run := handle_parse handle in
  let name := h_name run in
  call (OGet name) ≫= λ r,
    match r with
    | Err e => if is_code 404 e then Ret (Ok (HGone, None)) else Ret (Err ("reading Job " ++s name ++s ": " ++s show e))
    | Ok job =>
      if negb (owns run job) then Ret (Ok (HGone, None))
      else
        match job_terminal_state job with
        | Some state =>
          if state ==s "Complete" then
            pods_reason oom_killed name ≫= λ oom, Ret (Ok (HComplete, oom))
          else
            pods_reason oom_killed name ≫= λ oom,
              match oom with
              | Some oom => Ret (Ok (HFailed, Some oom))
              | None =>
                pods_reason termination_message name ≫= λ message,
                  match message with
                  | Some m => Ret (Ok (HFailed, Some m))
                  | None =>
                    pods_reason (pods_failure now) name ≫= λ fallback,
                      Ret (Ok (HFailed, or_else (job_failed_reason job) fallback))
                  end
              end
        | None =>
          if job_suspended job then Ret (Ok (HQueued, None))
          else
            pods_reason (pods_failure now) name ≫= λ reason,
              Ret (Ok match reason with Some r => (HFailed, Some r) | None => (HRunning, None) end)
        end
    end.

(** ** Queues and drift *)

Definition HOLD_EVERY : N := 3600000.
Definition HOLD_RETRY : N := 120000.

(** When each queued dispatch is next due; times are milliseconds. *)
Definition QueueHolds : Type := gmap string N.

Definition due (h : QueueHolds) (queued : list string) (now : N) : QueueHolds * list string :=
  let ids : gset string := list_to_set queued in
  let h := filter (λ kv, kv.1 ∈ ids) h in
  (h, List.filter (λ id, match h !! id with None => true | Some at_ => (at_ <=? now)%N end)
        (fst <$> btree_str_iter (gset_to_gmap () ids))).

Definition held (h : QueueHolds) (id : string) (now : N) : QueueHolds := <[id := (now + HOLD_EVERY)%N]> h.
Definition failed (h : QueueHolds) (id : string) (now : N) : QueueHolds := <[id := (now + HOLD_RETRY)%N]> h.

(** Ids that are no UUID are skipped: [parse] gives the id. *)
Variable parse_uuid : string → option string.

Definition queued_ids (queued : list Job) : list string :=
  omap (λ job, annotation (j_metadata job) ANNOTATION_DISPATCH_ID ≫= parse_uuid) queued.

Fixpoint hold_each (ids : list string) (h : QueueHolds) (now : N) : prog QueueHolds :=
  match ids with
  | [] => Ret h
  | id :: ids =>
    call (OHold id) ≫= λ r,
      hold_each ids (match r with Ok _ => held h id now | Err _ => failed h id now end) now
  end.

Definition hold_queued (queued : list Job) (h : QueueHolds) (now : N) : prog QueueHolds :=
  let '(h, ids) := due h (queued_ids queued) now in hold_each ids h now.

(** [job_has_no_pods]: a listing error is not a proof. *)
Definition job_has_no_pods (name : string) : prog bool :=
  call (OPods name) ≫= λ r, Ret (match r with Ok pods => bool_decide (pods = []) | Err _ => false end).

Definition reconcile_drift (job : Job) (profile : WorkerProfileSpec) : prog unit :=
  match job_name job, j_spec job with
  | Some name, Some spec =>
    match template_drift (jp_template spec) profile with
    | None => Ret ()
    | Some _ =>
      job_has_no_pods name ≫= λ no_pods,
        match drift_disposition (job_never_ran job) (negb no_pods) (default false (jp_suspend spec)) with
        | LeaveAlone | Stranded => Ret ()
        | Recreate =>
          match rebuild_job job profile with
          | Err _ => Ret ()
          | Ok rebuilt =>
            delete_and_wait name None ≫= λ r,
              match r with
              | Err _ => Ret ()
              | Ok _ => call (OCreate rebuilt) ≫= λ _, Ret ()
              end
          end
        end
    end
  | _, _ => Ret ()
  end.

Fixpoint for_each {X} (l : list X) (f : X → prog unit) : prog unit :=
  match l with [] => Ret () | x :: l => f x ≫= λ _, for_each l f end.

(** The live Jobs of each profile: running and queued, in the listed order. *)
Definition by_profile (jobs : list Job) : gmap string (list Job * list Job) :=
  foldl (λ m job,
    match worker_profile_label job with
    | None => m
    | Some profile =>
      let '(running, queued) := default ([], []) (m !! profile) in
      <[profile := if job_suspended job then (running, queued ++ [job]) else (running ++ [job], queued)]> m
    end) ∅ (List.filter live jobs).

Definition reconcile_profile (profile_name : string) (running queued : list Job) : prog (result string unit) :=
  call (OProfile profile_name) ≫= λ r,
    match (match r with
           | Ok p => Ok (Some p)
           | Err e => if is_code 404 e then Ok None
                      else Err ("reading WorkerProfile `" ++s profile_name ++s "`: " ++s show e)
           end) with
    | Err e => Ret (Err e)
    | Ok profile =>
      (match profile with
       | Some p => for_each (running ++ queued) (λ job, reconcile_drift job p)
       | None => Ret ()
       end) ≫= λ _,
      match queued with
      | [] => Ret (Ok ())
      | _ =>
        for_each (jobs_to_resume queued (List.length running) (profile ≫= pr_max_inflight)) (λ job,
          match job_name job with
          | Some name => call (OUnsuspend name) ≫= λ _, Ret ()
          | None => Ret ()
          end) ≫= λ _, Ret (Ok ())
      end
    end.

Fixpoint reconcile_profiles (l : list (string * (list Job * list Job))) : prog (result string unit) :=
  match l with
  | [] => Ret (Ok ())
  | (name, (running, queued)) :: l => _ <-? reconcile_profile name running queued; reconcile_profiles l
  end.

Definition reconcile_queues (h : QueueHolds) (now : N) : prog (result string (QueueHolds * unit)) :=
  call (OList origin_selector) ≫= λ r,
    match r with
    | Err e => Ret (Err (show e))
    | Ok jobs =>
      let m := btree_str_iter (by_profile jobs) in
      hold_queued (List.concat ((λ kv, kv.2.2) <$> m)) h now ≫= λ h,
        _ <-? reconcile_profiles m; Ret (Ok (h, ()))
    end.

End dispatcher.
