(* ===== verification/ClusterFacts.v ===== *)
(** * What the dispatcher does to the cluster

    Safety of a dispatch and of a reconciliation, for every sequence of
    answers. *)

From stdpp Require Import base decidable list gmap sets strings sorting.
From Stdlib Require Import Lia ZArith Bool Ascii String.
From S2P Require Import Prelude RustStr Json Prog Kube Envelope Validate Spawn Admission SpawnFacts Cluster.

(** ** Traces *)

Definition is_created (e : event) : bool :=
  match e with existT (OCreate _) (Ok _) => true | _ => false end.

Definition creations (tr : list event) : nat := List.length (List.filter is_created tr).

Lemma creations_snoc tr e : creations (tr ++ [e]) = (creations tr + if is_created e then 1 else 0)%nat.
Proof. unfold creations. rewrite List.filter_app, length_app. cbn. by destruct (is_created e). Qed.

(** No live Job of the name was there when it was read. *)
Definition unclaimed (pre : list event) (name : string) : Prop :=
  (∃ message, ev (OGet name) (Err (ApiError 404 message)) ∈ pre) ∨
  ∃ job, ev (OGet name) (Ok job) ∈ pre ∧ live job = false.

(** A Job of the name was read as ended before it is deleted, and only that
    Job is; a dispatch is registered only after its name was read as
    unclaimed, and a Job is created only after its dispatch was registered. *)
Definition justified (pre : list event) (e : event) : Prop :=
  match projT1 e with
  | ODelete name uid =>
    ∃ job, ev (OGet name) (Ok job) ∈ pre ∧ live job = false ∧ uid = om_uid (j_metadata job)
  | OCreate job =>
    ∃ req, ev (ORegister req) (Ok ()) ∈ pre ∧ job_name job = Some (rg_job_name req) ∧
      annotation (j_metadata job) ANNOTATION_DISPATCH_ID = Some (rg_dispatch_id req)
  | ORegister req => unclaimed pre (rg_job_name req)
  | _ => True
  end.

(** Every call of a trace is justified by the calls before it. *)
Definition careful_by (J : list event → event → Prop) (tr : list event) : Prop :=
  ∀ pre e post, tr = pre ++ e :: post → J pre e.

Lemma careful_by_nil J : careful_by J [].
Proof. intros pre x post Heq. by destruct pre. Qed.

Lemma careful_by_snoc J tr e : careful_by J (tr ++ [e]) ↔ careful_by J tr ∧ J tr e.
Proof.
  split.
  - intros Hc. split; [|by apply (Hc tr e [])].
    intros pre x post ->. apply (Hc pre x (post ++ [e])). by rewrite <-app_assoc.
  - intros [Hc He] pre x post Heq. destruct post as [|y post _] using rev_ind.
    + apply app_inj_tail in Heq as [-> ->]. done.
    + rewrite app_comm_cons, app_assoc in Heq. apply app_inj_tail in Heq as [-> _]. by eapply Hc.
Qed.

Definition careful : list event → Prop := careful_by justified.

Lemma careful_nil : careful [].
Proof. apply careful_by_nil. Qed.

Lemma careful_snoc tr e : careful (tr ++ [e]) ↔ careful tr ∧ justified tr e.
Proof. apply careful_by_snoc. Qed.

(** A call that neither creates nor deletes nor registers. *)
Definition harmless (op : Op) : bool :=
  match op with OCreate _ | ODelete _ _ | ORegister _ => false | _ => true end.

Lemma harmless_snoc tr op r :
  harmless op = true → careful tr → careful (tr ++ [ev op r]) ∧ creations (tr ++ [ev op r]) = creations tr.
Proof.
  intros Hh Hc. rewrite careful_snoc, creations_snoc. split; [split; [done|]|].
  - unfold justified. cbn. by destruct op.
  - destruct op; try done; cbn; lia.
Qed.

Section dispatch.
Context {sha : Sha1} {json : JsonText}.
Variables (namespace default_profile cctui_url : string) (max_inflight : N) (deadline : Z).
Variable show : KubeError → string.

(** A program that only reads. *)
Fixpoint reads_only {A} (p : prog A) : Prop :=
  match p with Ret _ => True | Do op k => harmless op = true ∧ ∀ r, reads_only (k r) end.

Lemma reads_only_bind {A B} (p : prog A) (f : A → prog B) :
  reads_only p → (∀ a, reads_only (f a)) → reads_only (p ≫= f).
Proof.
  change (p ≫= f) with (prog_bind f p). induction p as [a|op k IH]; cbn; [auto|]. intros [Hh Hk] Hf.
  split; [done|]. intros r. by apply IH.
Qed.

Lemma wp_reads {A} (p : prog A) pre :
  reads_only p → careful pre →
  wp p pre (λ tr _, careful tr ∧ creations tr = creations pre ∧ pre `prefix_of` tr).
Proof.
  revert pre. induction p as [a|op k IH]; intros pre; cbn; [done|]. intros [Hh Hk] Hc r.
  destruct (harmless_snoc pre op r Hh Hc) as [Hc' Heq].
  eapply wp_mono; [|by apply IH]. cbn. intros tr a (? & ? & ?). split_and!; [done|congruence|].
  etrans; [|done]. by exists [ev op r].
Qed.

Lemma wait_gone_reads polls name uid : reads_only (wait_gone show polls name uid).
Proof.
  induction polls as [|n IH]; cbn; [done|]. split; [done|]. intros [job|e]; cbn.
  - destruct (replaced job uid); cbn; [done|]. split; [done|]. intros _. exact IH.
  - by destruct (is_code 404 e).
Qed.

(** What a placement leaves: one Job when it says so, none otherwise. *)
Definition placed (pre tr : list event) (r : result string SpawnOutcome) : Prop :=
  careful tr ∧
  match r with
  | Ok o => creations tr = (creations pre + if so_status o ==s "deduplicated" then 0 else 1)%nat
  | Err _ => creations tr = creations pre
  end.

Lemma wp_create {A} job (k : Ans (OCreate job) → prog A) pre (Q : list event → A → Prop) :
  careful pre → justified pre (ev (OCreate job) (Ok ())) →
  (∀ r, careful (pre ++ [ev (OCreate job) r]) →
    creations (pre ++ [ev (OCreate job) r]) = (creations pre + if is_ok r then 1 else 0)%nat →
    wp (k r) (pre ++ [ev (OCreate job) r]) Q) →
  wp (Do (OCreate job) k) pre Q.
Proof.
  intros Hc Hj Hk r. apply Hk; [by apply careful_snoc|]. rewrite creations_snoc. by destruct r.
Qed.

Lemma wp_delete name uid pre Q :
  careful pre → justified pre (ev (ODelete name uid) (Ok ())) →
  (∀ tr r, careful tr → creations tr = creations pre → pre `prefix_of` tr → Q tr r) →
  wp (delete_and_wait show name uid) pre Q.
Proof.
  intros Hc Hj HQ r. cbn [mbind prog_mbind prog_bind].
  assert (careful (pre ++ [ev (ODelete name uid) r])) as Hc' by (by apply careful_snoc).
  assert (creations (pre ++ [ev (ODelete name uid) r]) = creations pre) as Hn by (rewrite creations_snoc; cbn; lia).
  assert (pre `prefix_of` pre ++ [ev (ODelete name uid) r]) as Hpre by (by exists [ev (ODelete name uid) r]).
  assert (wp (wait_gone show 60 name uid) (pre ++ [ev (ODelete name uid) r]) Q) as Hw.
  { eapply wp_mono; [|apply wp_reads; [apply wait_gone_reads|done]]. intros tr a (? & ? & ?).
    apply HQ; [done|congruence|by etrans]. }
  destruct r as [u|e]; [exact Hw|]. destruct (is_code 404 e); [exact Hw|].
  destruct (is_code 409 e && _); by apply HQ.
Qed.

Lemma justified_prefix pre tr job r :
  pre `prefix_of` tr → justified pre (ev (OCreate job) r) → justified tr (ev (OCreate job) (Ok ())).
Proof. intros [post ->] (req & Hin & ?). exists req. split; [|done]. apply elem_of_app. by left. Qed.

(** A Job read as ended justifies deleting it. *)
Lemma justified_delete pre name job :
  live job = false →
  justified (pre ++ [ev (OGet name) (Ok job)]) (ev (ODelete name (om_uid (j_metadata job))) (Ok ())).
Proof. intros Hl. exists job. split; [|done]. apply elem_of_app. right. left. Qed.

Lemma wp_place job suspend name pre :
  careful pre → justified pre (ev (OCreate job) (Ok ())) →
  wp (place_job namespace show job suspend name) pre (placed pre).
Proof.
  intros Hc Hj. unfold place_job. cbv zeta. apply wp_create; [done|done|]. intros r Hc1 Hn1.
  cbn [mbind prog_mbind prog_bind]. destruct r as [u|e].
  { split; [done|]. cbn in Hn1 |- *. by destruct suspend. }
  set (t1 := pre ++ [ev (OCreate job) (Err e)]) in *.
  assert (pre `prefix_of` t1) as Hp1 by (by eexists).
  destruct (negb (is_code 409 e)); [split; [done|cbn in *; lia]|].
  intros r. cbn [mbind prog_mbind prog_bind].
  destruct (harmless_snoc t1 (OGet name) r eq_refl Hc1) as [Hc2 Hn2].
  assert (pre `prefix_of` t1 ++ [ev (OGet name) r]) as Hp2 by (etrans; [done|by eexists]).
  destruct r as [existing|e2].
  - destruct (live existing) eqn:El; [split; [done|]; cbn in *; lia|].
    unfold try_bind. apply wp_bind. apply wp_delete; [done|by apply justified_delete|].
    intros tr r3 Hc3 Hn3 Hp3. destruct r3 as [u|e3]; [|split; [done|cbn in *; congruence || lia]].
    apply wp_create; [done|eapply justified_prefix; [|done]; by etrans|]. intros r4 Hc4 Hn4.
    cbn [mbind prog_mbind prog_bind]. destruct r4 as [u4|e4].
    { split; [done|]. cbn in *. destruct suspend; cbn; lia. }
    destruct (is_code 409 e4); [|split; [done|cbn in *; lia]].
    apply wp_bind. eapply wp_mono; [|apply wp_reads; [|done]].
    + intros tr5 a (Hc5 & Hn5 & _). split; [done|]. cbn in *. lia.
    + unfold holder_session, get_opt. cbn. split; [done|]. intros [j|e5]; cbn; [done|]. by destruct (is_code 404 e5).
  - destruct (is_code 404 e2); [|split; [done|cbn in *; lia]].
    apply wp_create; [done|by eapply justified_prefix|]. intros r4 Hc4 Hn4. cbn [mbind prog_mbind prog_bind].
    destruct r4; (split; [done|]); cbn in *; [destruct suspend; cbn|]; lia.
Qed.

(** ** A dispatch *)

Lemma unclaimed_prefix pre tr name : pre `prefix_of` tr → unclaimed pre name → unclaimed tr name.
Proof.
  intros [post ->] [[m Hm]|(job & Hj & Hl)]; [left; exists m|right; exists job; split; [|done]]; apply elem_of_app; by left.
Qed.

(** Before anything is registered. *)
Definition quiet_so_far (pre tr : list event) : Prop :=
  careful tr ∧ creations tr = creations pre ∧ pre `prefix_of` tr.

Lemma wp_reads_try {E A} (p : prog (result E A)) pre0 pre (Q : list event → result E A → Prop) :
  reads_only p → quiet_so_far pre0 pre → (∀ tr r, quiet_so_far pre0 tr → pre `prefix_of` tr → Q tr r) → wp p pre Q.
Proof.
  intros Hr (Hc & Hn & Hp) HQ. eapply wp_mono; [|by apply wp_reads]. intros tr r (? & ? & ?).
  apply HQ; [|done]. split_and!; [done|congruence|by etrans].
Qed.

Lemma wp_get_opt name pre (Q : list event → result KubeError (option Job) → Prop) :
  careful pre →
  (∀ tr r, quiet_so_far pre tr →
    match r with Ok None => unclaimed tr name | Ok (Some j) => live j = false → unclaimed tr name | Err _ => True end →
    Q tr r) → wp (get_opt name) pre Q.
Proof.
  intros Hc HQ r. cbn [mbind prog_mbind prog_bind wp].
  destruct (harmless_snoc pre (OGet name) r eq_refl Hc) as [Hc2 Hn2].
  assert (quiet_so_far pre (pre ++ [ev (OGet name) r])) as Hq by (split_and!; [done|done|by eexists]).
  destruct r as [j|e].
  - apply HQ; [done|]. intros Hl. right. exists j. split; [|done]. apply elem_of_app. right. left.
  - destruct (is_code 404 e) eqn:Ee; apply HQ; try done. left. destruct e as [c m|m]; [|done].
    apply N.eqb_eq in Ee as ->. exists m. apply elem_of_app. right. left.
Qed.

Lemma wp_admit spec pre :
  careful pre →
  wp (admit_dispatch namespace default_profile show spec) pre (λ tr r, quiet_so_far pre tr ∧
    match r with
    | Err _ => True
    | Ok a =>
      match am_joined a with
      | Some o => so_status o = "deduplicated"
      | None => unclaimed tr (am_name a)
      end
    end).
Proof.
  intros Hc. unfold admit_dispatch. destruct (is_empty _); [done|]. destruct (resolve_profile_name _ _) as [pn|]; [|done].
  apply wp_try, wp_bind. intros r. cbn [wp].
  destruct (harmless_snoc pre (OProfile pn) r eq_refl Hc) as [Hc1 Hn1].
  assert (quiet_so_far pre (pre ++ [ev (OProfile pn) r])) as Hq1 by (split_and!; [done|done|by eexists]).
  destruct r as [profile|e]; cbn [map_err]; [|done]. cbv zeta. apply wp_try, wp_bind, wp_get_opt; [done|].
  intros tr r (Hc2 & Hn2 & Hp2) Hr. cbn [wp].
  assert (quiet_so_far pre tr) as Hq2 by (destruct Hq1 as (_ & _ & ?); split_and!; [done|congruence|by etrans]).
  destruct r as [[j|]|e]; cbn [map_err wp]; (split; [done|]); cbn [am_joined am_name]; try done.
  destruct (live j) eqn:El; [done|]. by apply Hr.
Qed.

Lemma cap_check_reads name : reads_only (cap_check max_inflight show name).
Proof. unfold cap_check. by destruct (max_inflight =? 0)%N. Qed.

Lemma queue_check_reads pn cap name : reads_only (queue_check show pn cap name).
Proof. unfold queue_check. by destruct (c ← cap; _). Qed.

Lemma build_job_identity pn p spec ident suspend job :
  build_job cctui_url pn p spec ident deadline suspend = Ok job →
  job_name job = Some (ji_name ident) ∧
  annotation (j_metadata job) ANNOTATION_DISPATCH_ID = Some (ji_dispatch_id ident).
Proof.
  unfold build_job. intros (re & _ & Hr)%bind_ok. apply bind_ok in Hr as (pspec & _ & [= <-]). split; [done|].
  unfold annotation. cbn. unfold with_profile_metadata. apply lookup_union_Some_l. by rewrite lookup_insert_eq.
Qed.

Lemma registration_identity p spec ident req :
  registration cctui_url p spec namespace ident = Ok req →
  rg_job_name req = ji_name ident ∧ rg_dispatch_id req = ji_dispatch_id ident.
Proof. unfold registration. intros (re & _ & Hr)%bind_ok. by apply bind_ok in Hr as (key & _ & [= <-]). Qed.

(** C9. Whatever the cluster and the server answer, a dispatch deletes only a Job
    it read as ended, by its uid; it registers only a name that was unclaimed,
    and creates a Job only after it registered it.  It creates one Job when it
    says so, and none when it joins another dispatch or fails. *)
Theorem dispatch_exactly_once spec dispatch_id tr r :
  runs (dispatch_worker namespace default_profile cctui_url max_inflight deadline show spec dispatch_id) tr r →
  careful tr ∧
  creations tr = match r with Ok o => if so_status o ==s "deduplicated" then 0 else 1 | Err _ => 0 end%nat.
Proof.
  intros Hr. change tr with ([] ++ tr).
  refine (wp_runs _ [] (λ tr r, careful tr ∧ creations tr =
    match r with Ok o => if so_status o ==s "deduplicated" then 0 else 1 | Err _ => 0 end%nat) tr r _ Hr). clear tr r Hr.
  unfold dispatch_worker. apply wp_try. eapply wp_mono; [|apply wp_admit, careful_nil].
  intros tr [a|e] ((Hc & Hn & _) & Ha); [|done]. destruct (am_joined a) as [o|]; [cbn; by rewrite Ha|].
  assert (quiet_so_far [] tr) as Hq by (split_and!; [done|done|apply prefix_nil]). cbv zeta.
  apply wp_try. apply (wp_reads_try _ [] tr); [apply cap_check_reads|done|].
  intros tr1 [u|e] Hq1 Hp1; [|by destruct Hq1 as (? & ? & _)].
  apply wp_try. apply (wp_reads_try _ [] tr1); [apply queue_check_reads|done|].
  intros tr2 [suspend|e] Hq2 Hp2; [|by destruct Hq2 as (? & ? & _)].
  destruct Hq2 as (Hc2 & Hn2 & _). apply wp_try. cbn [wp]. destruct (build_job _ _ _ _ _ _ _) as [job|e] eqn:Ej; [|done].
  apply wp_try. cbn [wp]. destruct (registration _ _ _ _ _) as [req|e] eqn:Er; [|done].
  apply build_job_identity in Ej as [Hjn Hjd]. apply registration_identity in Er as [Hrn Hrd]. cbn in Hjn, Hjd, Hrn, Hrd.
  apply wp_try. intros r. cbn [wp].
  assert (careful (tr2 ++ [ev (ORegister req) r])) as Hc3.
  { apply careful_snoc. split; [done|]. cbn. rewrite Hrn. by eapply unclaimed_prefix; [|done]; etrans. }
  assert (creations (tr2 ++ [ev (ORegister req) r]) = 0%nat) as Hn3 by (rewrite creations_snoc, Hn2; done).
  destruct r as [[]|e]; [|done]. apply wp_try. eapply wp_mono; [|apply wp_place; [done|]].
  - intros tr4 [o|e] [Hc4 Hn4]; cbn [wp]; (split; [done|]); rewrite Hn4, Hn3; done.
  - exists req. split; [apply elem_of_app; right; left|]. by rewrite Hjn, Hjd, Hrn, Hrd.
Qed.

End dispatch.

(** ** A reconciliation *)

Section reconcile.
Variable show : KubeError → string.
(** The Jobs that were listed. *)
Variable jobs : list Job.

(** What the reconciler may do with the listed Jobs: delete one that is live,
    that no pod was counted for and that owns none; create one as it is
    rebuilt from a deleted one; resume one that waits. *)
Definition warranted (pre : list event) (e : event) : Prop :=
  match projT1 e with
  | ODelete name _ =>
    ∃ job, job ∈ jobs ∧ live job = true ∧ job_name job = Some name ∧ job_never_ran job = true ∧
      ev (OPods name) (Ok []) ∈ pre
  | OCreate rebuilt =>
    ∃ job p name uid r, job ∈ jobs ∧ job_name job = Some name ∧ rebuild_job job p = Ok rebuilt ∧
      ev (ODelete name uid) r ∈ pre
  | OUnsuspend name => ∃ job, job ∈ jobs ∧ live job = true ∧ job_suspended job = true ∧ job_name job = Some name
  | ORegister _ => False
  | _ => True
  end.

Definition prudent : list event → Prop := careful_by warranted.

(** A call that only reads or holds. *)
Definition idle (op : Op) : bool :=
  match op with OCreate _ | ODelete _ _ | ORegister _ | OUnsuspend _ => false | _ => true end.

Lemma idle_snoc tr op r : idle op = true → prudent tr → prudent (tr ++ [ev op r]).
Proof. intros Hi Hp. apply careful_by_snoc. split; [done|]. unfold warranted. cbn. by destruct op. Qed.

Lemma wp_wait_gone polls name uid pre :
  prudent pre → wp (wait_gone show polls name uid) pre (λ tr _, prudent tr ∧ pre `prefix_of` tr).
Proof.
  revert pre. induction polls as [|n IH]; intros pre Hp; [done|]. intros r. cbn [mbind prog_mbind prog_bind].
  pose proof (idle_snoc pre (OGet name) r eq_refl Hp) as Hp1.
  assert (pre `prefix_of` pre ++ [ev (OGet name) r]) as Hx by (by eexists).
  destruct r as [job|e]; [|destruct (is_code 404 e); by split]. destruct (replaced job uid); [by split|].
  intros u. cbn [mbind prog_mbind prog_bind].
  pose proof (idle_snoc _ OSleep u eq_refl Hp1) as Hp2. eapply wp_mono; [|by apply IH].
  intros tr a [? ?]. split; [done|]. etrans; [exact Hx|]. etrans; [|done]. by eexists.
Qed.

Lemma wp_reconcile_drift job p pre :
  job ∈ jobs → live job = true → prudent pre → wp (reconcile_drift show job p) pre (λ tr _, prudent tr).
Proof.
  intros Hin Hl Hp. unfold reconcile_drift. destruct (job_name job) as [name|] eqn:En; [|done].
  destruct (j_spec job) as [spec|]; [|done]. destruct (template_drift _ _) as [d|]; [|done].
  intros r. cbn [mbind prog_mbind prog_bind].
  pose proof (idle_snoc pre (OPods name) r eq_refl Hp) as Hp1. set (t1 := pre ++ [ev (OPods name) r]) in *.
  destruct (drift_disposition _ _ _) eqn:Ed; [|done|done]. destruct (rebuild_job job p) as [rebuilt|e] eqn:Er; [|done].
  unfold drift_disposition in Ed. destruct (job_never_ran job && _) eqn:Ea; [|by repeat case_match].
  rewrite negb_involutive in Ea. apply andb_true_iff in Ea as [Hnr Hpods].
  assert (ev (OPods name) (Ok []) ∈ t1) as Hev.
  { destruct r as [pods|e]; [|done]. apply bool_decide_eq_true in Hpods as ->. apply elem_of_app. right. left. }
  apply wp_bind. intros r1. cbn [mbind prog_mbind prog_bind].
  set (t2 := t1 ++ [ev (ODelete name None) r1]).
  assert (prudent t2) as Hp2 by (apply careful_by_snoc; split; [done|]; by exists job).
  assert (∀ tr (r : result string unit), prudent tr → t2 `prefix_of` tr →
    wp match r with Ok _ => call (OCreate rebuilt) ≫= λ _, Ret () | Err _ => Ret () end tr (λ tr _, prudent tr)) as Hk.
  { intros tr [u|e] Htr [post ->]; [|done]. intros r2. apply careful_by_snoc. split; [done|].
    exists job, p, name, None, r1. split_and!; try done. apply elem_of_app. left. apply elem_of_app. right. left. }
  assert (wp (wait_gone show 60 name None) t2 (λ tr r,
    wp match r with Ok _ => call (OCreate rebuilt) ≫= λ _, Ret () | Err _ => Ret () end tr (λ tr _, prudent tr))) as Hw.
  { eapply wp_mono; [|by apply wp_wait_gone]. intros tr a [? ?]. by apply Hk. }
  destruct r1 as [u|e]; [exact Hw|]. destruct (is_code 404 e); [exact Hw|].
  rewrite andb_false_r. by apply Hk.
Qed.

Lemma wp_for_each {X} (P : X → Prop) (f : X → prog unit) l pre :
  (∀ x pre, P x → prudent pre → wp (f x) pre (λ tr _, prudent tr)) → Forall P l → prudent pre →
  wp (for_each l f) pre (λ tr _, prudent tr).
Proof.
  intros Hf Hl. revert pre. induction Hl as [|x l Hx _ IH]; intros pre Hp; [done|]. cbn. apply wp_bind.
  eapply wp_mono; [|by apply Hf]. intros tr u Htr. by apply IH.
Qed.

Lemma resume_from_queue (P : Job → Prop) queued active cap :
  Forall P queued → Forall P (jobs_to_resume queued active cap).
Proof.
  intros Hq. unfold jobs_to_resume. apply Forall_take. unfold sort_queue. by rewrite merge_sort_Permutation.
Qed.

(** The lists of a profile hold listed Jobs that are live. *)
Lemma by_profile_spec name running queued :
  by_profile jobs !! name = Some (running, queued) →
  Forall (λ j, j ∈ jobs ∧ live j = true) running ∧
  Forall (λ j, j ∈ jobs ∧ live j = true ∧ job_suspended j = true) queued.
Proof.
  unfold by_profile.
  assert (∀ l (m : gmap string (list Job * list Job)),
    (∀ j, j ∈ l → j ∈ jobs ∧ live j = true) →
    (∀ n rq, m !! n = Some rq → Forall (λ j, j ∈ jobs ∧ live j = true) rq.1 ∧
      Forall (λ j, j ∈ jobs ∧ live j = true ∧ job_suspended j = true) rq.2) →
    ∀ n rq, foldl (λ m job, match worker_profile_label job with
      | None => m
      | Some profile => let '(running, queued) := default ([], []) (m !! profile) in
        <[profile := if job_suspended job then (running, queued ++ [job]) else (running ++ [job], queued)]> m
      end) m l !! n = Some rq → Forall (λ j, j ∈ jobs ∧ live j = true) rq.1 ∧
      Forall (λ j, j ∈ jobs ∧ live j = true ∧ job_suspended j = true) rq.2) as Hgen.
  { induction l as [|job l IH]; intros m Hl Hm; [done|]. cbn. apply IH; [intros j Hj; apply Hl; by right|].
    destruct (worker_profile_label job) as [profile|]; [|done].
    destruct (default ([], []) (m !! profile)) as [running0 queued0] eqn:Ed.
    assert (Forall (λ j, j ∈ jobs ∧ live j = true) running0 ∧
      Forall (λ j, j ∈ jobs ∧ live j = true ∧ job_suspended j = true) queued0) as [Hr Hq].
    { destruct (m !! profile) as [rq|] eqn:E; cbn in Ed; [subst rq; by apply (Hm profile (running0, queued0))|].
      injection Ed as <- <-. by split. }
    destruct (Hl job ltac:(left)) as [Hj Hlive].
    intros n rq. destruct (decide (n = profile)) as [->|Hne]; [rewrite lookup_insert_eq|rewrite lookup_insert_ne by done; by apply Hm].
    intros [= <-]. destruct (job_suspended job) eqn:Es; cbn; (split; [|]); try done; apply Forall_app; split; try done;
      by apply Forall_singleton. }
  intros Hm. apply (Hgen (List.filter live jobs) ∅) in Hm; [done| |by intros ? ? ?%lookup_empty_Some].
  intros j Hj. apply list_elem_of_In, filter_In in Hj as [Hj ?]. by apply list_elem_of_In in Hj.
Qed.

Lemma wp_reconcile_profile name running queued pre :
  Forall (λ j, j ∈ jobs ∧ live j = true) running →
  Forall (λ j, j ∈ jobs ∧ live j = true ∧ job_suspended j = true) queued → prudent pre →
  wp (reconcile_profile show name running queued) pre (λ tr _, prudent tr).
Proof.
  intros Hr Hq Hp. unfold reconcile_profile. intros r. cbn [mbind prog_mbind prog_bind].
  pose proof (idle_snoc pre (OProfile name) r eq_refl Hp) as Hp1.
  assert (∀ profile, wp ((match profile with
       | Some p => for_each (running ++ queued) (λ job, reconcile_drift show job p)
       | None => Ret ()
       end) ≫= λ _,
      match queued with
      | [] => Ret (Ok ())
      | _ =>
        for_each (jobs_to_resume queued (List.length running) (profile ≫= pr_max_inflight)) (λ job,
          match job_name job with
          | Some name => call (OUnsuspend name) ≫= λ _, Ret ()
          | None => Ret ()
          end) ≫= λ _, Ret (Ok ())
      end) (pre ++ [ev (OProfile name) r]) (λ tr (_ : result string unit), prudent tr)) as Hall.
  { intros profile. apply wp_bind.
    assert (∀ tr, prudent tr → wp match queued with
      | [] => Ret (Ok ())
      | _ =>
        for_each (jobs_to_resume queued (List.length running) (profile ≫= pr_max_inflight)) (λ job,
          match job_name job with
          | Some name => call (OUnsuspend name) ≫= λ _, Ret ()
          | None => Ret ()
          end) ≫= λ _, Ret (Ok ())
      end tr (λ tr (_ : result string unit), prudent tr)) as Hres.
    { intros tr Htr. destruct queued as [|j q] eqn:Eq; [done|]. rewrite <-Eq in *. clear Eq. apply wp_bind.
      apply (wp_for_each (λ j, j ∈ jobs ∧ live j = true ∧ job_suspended j = true)); [|by apply resume_from_queue|done].
      intros x pre' (Hx & Hl & Hs) Hpre. destruct (job_name x) as [n|] eqn:En; [|done]. intros r'.
      apply careful_by_snoc. split; [done|]. by exists x. }
    destruct profile as [p|]; [|by apply Hres]. apply (wp_mono _ _ (λ tr _, prudent tr)); [intros tr u Htr; by apply Hres|].
    apply (wp_for_each (λ j, j ∈ jobs ∧ live j = true)); [|by apply Forall_app; split; [|eapply Forall_impl; [done|naive_solver]]|done].
    intros x pre' [? ?] ?. by apply wp_reconcile_drift. }
  destruct r as [p|e]; [exact (Hall (Some p))|]. destruct (is_code 404 e); [exact (Hall None)|done].
Qed.

Lemma wp_hold_each ids h now pre : prudent pre → wp (hold_each ids h now) pre (λ tr _, prudent tr).
Proof.
  revert h pre. induction ids as [|id ids IH]; intros h pre Hp; [done|]. intros r. cbn [mbind prog_mbind prog_bind].
  by apply IH, idle_snoc.
Qed.

Lemma wp_reconcile_profiles l pre :
  Forall (λ kv, by_profile jobs !! kv.1 = Some kv.2) l → prudent pre →
  wp (reconcile_profiles show l) pre (λ tr _, prudent tr).
Proof.
  intros Hl. revert pre. induction Hl as [|[name [running queued]] l Hx _ IH]; intros pre Hp; [done|]. cbn [reconcile_profiles].
  apply wp_try. apply by_profile_spec in Hx as [Hr Hq].
  apply (wp_mono _ _ (λ tr _, prudent tr)); [|by apply wp_reconcile_profile]. intros tr [u|e] Htr; [by apply IH|done].
Qed.

End reconcile.

(** Whatever the answers, a reconciliation deletes only listed Jobs that are
    live, that never ran and that own no pod; creates only what is rebuilt
    from a Job it deleted; and resumes only Jobs that wait. *)
Theorem reconcile_prudent show parse_uuid h now tr r :
  runs (reconcile_queues show parse_uuid h now) tr r →
  (∃ e, tr = [ev (OList origin_selector) (Err e)]) ∨
  ∃ jobs, [ev (OList origin_selector) (Ok jobs)] `prefix_of` tr ∧ prudent jobs tr.
Proof.
  intros Hr. change tr with ([] ++ tr). refine (wp_runs _ [] (λ tr _, (∃ e, tr = [ev (OList origin_selector) (Err e)]) ∨
    ∃ jobs, [ev (OList origin_selector) (Ok jobs)] `prefix_of` tr ∧ prudent jobs tr) tr r _ Hr). clear tr r Hr.
  intros r. cbn [mbind prog_mbind prog_bind app]. destruct r as [jobs|e]; [|left; by exists e].
  eapply wp_mono; [|apply wp_prefix].
  { intros tr r [Hp Hq]. right. exists jobs. split; [exact Hp|exact Hq]. }
  assert (prudent jobs [ev (OList origin_selector) (Ok jobs)]) as Hp0.
  { change [ev (OList origin_selector) (Ok jobs)] with ([] ++ [ev (OList origin_selector) (Ok jobs)]).
    by apply idle_snoc, careful_by_nil. }
  apply wp_bind. unfold hold_queued. destruct (due _ _ _) as [h' ids].
  eapply wp_mono; [|by apply wp_hold_each]. intros tr h'' Htr. apply wp_try.
  eapply wp_mono; [|apply (wp_reconcile_profiles show jobs); [|done]].
  - by intros tr' [u|e] Htr'.
  - apply Forall_forall. intros [k v] Hkv. by apply elem_of_btree_str_iter in Hkv.
Qed.

(** A Job that is gone when the reconciler deletes it, because its dispatch was
    cancelled after the listing, is created again. *)
Theorem vanished_job_recreated show job p name spec why rebuilt message :
  job_name job = Some name → j_spec job = Some spec → template_drift (jp_template spec) p = Some why →
  job_never_ran job = true → rebuild_job job p = Ok rebuilt →
  runs (reconcile_drift show job p)
    [ ev (OPods name) (Ok []); ev (ODelete name None) (Err (ApiError 404 message));
      ev (OGet name) (Err (ApiError 404 message)); ev (OCreate rebuilt) (Ok ()) ] ().
Proof.
  intros Hn Hs Hd Hr Hb. unfold reconcile_drift. rewrite Hn, Hs, Hd.
  apply (runs_do (OPods name) _ (Ok [])). cbn [mbind prog_mbind prog_bind]. rewrite bool_decide_eq_true_2 by done.
  rewrite Hr, Hb. cbn [drift_disposition negb andb].
  apply (runs_do (ODelete name None) _ (Err (ApiError 404 message))). cbn [mbind prog_mbind prog_bind is_code N.eqb].
  apply (runs_do (OGet name) _ (Err (ApiError 404 message))).
  apply (runs_do (OCreate rebuilt) _ (Ok ())). constructor.
Qed.

(** ** Witnesses *)

Definition demo_hash : Sha1 := λ s, s ++s "0123456789abcdef".
Definition demo_show : KubeError → string := λ _, "error".
Definition keyed_dispatch : WireDispatchSpec :=
  mkDispatch "s-1" None None None (Some "lean") (JObj [("cctui_machine_key", JStr "k")]) None.
Definition keyed_name : string := @worker_name demo_hash "s-1".
Definition keyed_ident : JobIdentity := mkJobIdentity keyed_name "d-1".

#[local] Existing Instance demo_json.
#[local] Existing Instance demo_hash.

Lemma dispatch_exactly_once_witness :
  ∃ tr o, runs (dispatch_worker "agents" "lean" "https://cctui" 0 3600 demo_show keyed_dispatch "d-1") tr (Ok o) ∧
    so_status o = "dispatched" ∧ creations tr = 1%nat.
Proof.
  destruct (build_job "https://cctui" "lean" demo_profile keyed_dispatch keyed_ident 3600 false) as [job|] eqn:Ej;
    [|discriminate Ej].
  destruct (registration "https://cctui" demo_profile keyed_dispatch "agents" keyed_ident) as [req|] eqn:Er;
    [|discriminate Er].
  assert (runs (dispatch_worker "agents" "lean" "https://cctui" 0 3600 demo_show keyed_dispatch "d-1")
    [ ev (OProfile "lean") (Ok demo_profile); ev (OGet keyed_name) (Err (ApiError 404 "gone"));
      ev (ORegister req) (Ok ()); ev (OCreate job) (Ok ()) ]
    (Ok (with_exposure (Some (wire_exposure (mkExposure true true true) (Some NoPush)))
       (outcome "agents" keyed_name (job_session job) "dispatched")))) as Hr.
  { apply (runs_do (OProfile "lean") _ (Ok demo_profile)). apply (runs_do (OGet keyed_name) _ (Err (ApiError 404 "gone"))).
    injection Er as <-. apply (runs_do (ORegister _) _ (Ok ())). injection Ej as <-. apply (runs_do (OCreate _) _ (Ok ())).
    constructor. }
  destruct (dispatch_exactly_once "agents" "lean" "https://cctui" 0 3600 demo_show keyed_dispatch "d-1" _ _ Hr) as [_ Hc].
  eexists _, _. split; [exact Hr|]. split; [reflexivity|]. exact Hc.
Defined.

Lemma reconcile_prudent_witness :
  ∃ jobs, prudent jobs [ev (OList origin_selector) (Ok [])].
Proof.
  destruct (reconcile_prudent demo_show Some ∅ 0 [ev (OList origin_selector) (Ok [])] (Ok (∅, ()))) as [[e He]|(jobs & _ & Hp)].
  - apply (runs_do (OList origin_selector) _ (Ok [])). constructor.
  - apply (f_equal (λ l, match l with [existT (OList _) (Ok _)] => true | _ => false end)) in He. discriminate He.
  - by exists jobs.
Defined.

Definition built_job : Job :=
  match build_job "https://cctui" "lean" demo_profile keyed_dispatch keyed_ident 3600 false with
  | Ok job => job
  | Err _ => mkJob ObjectMeta_default None None
  end.
Definition built_spec : JobSpec := default (mkJobSpec None None None None (mkTemplate None None)) (j_spec built_job).

Lemma vanished_job_recreated_witness :
  ∃ tr, runs (reconcile_drift demo_show built_job locale_profile) tr () ∧ creations tr = 1%nat.
Proof.
  destruct (rebuild_job built_job locale_profile) as [rebuilt|] eqn:Eb; [|discriminate Eb].
  destruct (template_drift (jp_template built_spec) locale_profile) as [why|] eqn:Ed; [|discriminate Ed].
  pose proof (vanished_job_recreated demo_show built_job locale_profile keyed_name built_spec why rebuilt "gone") as Hv.
  eexists. split; [apply Hv|reflexivity].
  - reflexivity.
  - reflexivity.
  - exact Ed.
  - reflexivity.
  - exact Eb.
Defined.
