(* ===== verification/Seccomp.v ===== *)
(** * System call filters of the supervisor

    [syscalls.rs], [seccomp.rs] and the filter of [exec_notify.rs] of
    [cctui-supervisor]: the denylist under which a worker runs, and the filter
    that sends every exec to the guard.

    The [seccompiler] crate, which turns rules into a BPF program, is the class
    [Seccompiler]; [SeccompilerLaws] is its documentation.  The exec filter is
    written in BPF by the source itself: [bpf_run] is the part of the kernel's
    interpreter it uses.  The build target is the argument [Arch]. *)

From stdpp Require Import base decidable list gmap strings.
From Stdlib Require Import Lia ZArith Bool String.
From S2P Require Import Prelude RustStr Http.

Open Scope string_scope.
Open Scope list_scope.
Open Scope rust_scope.

(** ** Tables ([syscalls.rs]) *)

Inductive Arch := X86_64_target | Aarch64_target | Other_target.

Record Blocked := mk_blocked { bl_name : string; bl_reason : string; bl_num : Z }.

Definition DENYLIST : list (string * string) :=
  [("ptrace", "attach to other processes");
   ("process_vm_readv", "read another process's memory");
   ("process_vm_writev", "write another process's memory");
   ("setuid", "change user ID");
   ("setgid", "change group ID");
   ("setreuid", "change real/effective UID");
   ("setregid", "change real/effective GID");
   ("setresuid", "change real/saved/effective UID");
   ("setresgid", "change real/saved/effective GID");
   ("mount", "mount filesystems");
   ("umount2", "unmount filesystems");
   ("pivot_root", "change root filesystem");
   ("chroot", "change root directory");
   ("reboot", "reboot the system");
   ("kexec_load", "load a new kernel");
   ("kexec_file_load", "load a new kernel from file");
   ("init_module", "load kernel module");
   ("finit_module", "load kernel module from fd");
   ("delete_module", "unload kernel module");
   ("unshare", "create new namespaces");
   ("setns", "enter another namespace");
   ("bpf", "load eBPF programs / maps");
   ("perf_event_open", "kernel performance monitoring");
   ("userfaultfd", "page-fault handling used to win kernel races");
   ("io_uring_setup", "io_uring bypasses the seccomp filter for its ops");
   ("io_uring_enter", "io_uring bypasses the seccomp filter for its ops");
   ("io_uring_register", "io_uring bypasses the seccomp filter for its ops");
   ("open_by_handle_at", "open files outside the mount namespace by handle");
   ("personality", "disable ASLR / enable READ_IMPLIES_EXEC");
   ("keyctl", "manipulate kernel keyrings");
   ("add_key", "add a key to a kernel keyring");
   ("request_key", "request a key from a kernel keyring")].

Definition AMD64 : list (string * Z) :=
  [("ptrace", 101%Z); ("process_vm_readv", 310%Z); ("process_vm_writev", 311%Z);
   ("setuid", 105%Z); ("setgid", 106%Z); ("setreuid", 113%Z); ("setregid", 114%Z);
   ("setresuid", 117%Z); ("setresgid", 119%Z); ("mount", 165%Z); ("umount2", 166%Z);
   ("pivot_root", 155%Z); ("chroot", 161%Z); ("reboot", 169%Z); ("kexec_load", 246%Z);
   ("kexec_file_load", 320%Z); ("init_module", 175%Z); ("finit_module", 313%Z);
   ("delete_module", 176%Z); ("unshare", 272%Z); ("setns", 308%Z); ("bpf", 321%Z);
   ("perf_event_open", 298%Z); ("userfaultfd", 323%Z); ("io_uring_setup", 425%Z);
   ("io_uring_enter", 426%Z); ("io_uring_register", 427%Z); ("open_by_handle_at", 304%Z);
   ("personality", 135%Z); ("keyctl", 250%Z); ("add_key", 248%Z); ("request_key", 249%Z)].

Definition ARM64 : list (string * Z) :=
  [("ptrace", 117%Z); ("process_vm_readv", 270%Z); ("process_vm_writev", 271%Z);
   ("setuid", 146%Z); ("setgid", 144%Z); ("setreuid", 145%Z); ("setregid", 143%Z);
   ("setresuid", 147%Z); ("setresgid", 149%Z); ("mount", 40%Z); ("umount2", 39%Z);
   ("pivot_root", 41%Z); ("chroot", 51%Z); ("reboot", 142%Z); ("kexec_load", 104%Z);
   ("kexec_file_load", 294%Z); ("init_module", 105%Z); ("finit_module", 273%Z);
   ("delete_module", 106%Z); ("unshare", 97%Z); ("setns", 268%Z); ("bpf", 280%Z);
   ("perf_event_open", 241%Z); ("userfaultfd", 282%Z); ("io_uring_setup", 425%Z);
   ("io_uring_enter", 426%Z); ("io_uring_register", 427%Z); ("open_by_handle_at", 265%Z);
   ("personality", 92%Z); ("keyctl", 219%Z); ("add_key", 217%Z); ("request_key", 218%Z)].

Definition arch_table (a : Arch) : option (list (string * Z)) :=
  match a with
  | X86_64_target => Some AMD64
  | Aarch64_target => Some ARM64
  | Other_target => None
  end.

Definition blocked_entry (table : list (string * Z)) (e : string * string) : option Blocked :=
  match List.find (λ t, t.1 ==s e.1) table with
  | Some (_, num) => Some (mk_blocked e.1 e.2 num)
  | None => None
  end.

(** [Err] is the panic of the [expect]. *)
Definition blocked_syscalls (a : Arch) : result string (option (list Blocked)) :=
  match arch_table a with
  | None => Ok None
  | Some table =>
    match mapM (blocked_entry table) DENYLIST with
    | Some l => Ok (Some l)
    | None => Err "every denied syscall must have an arch number"
    end
  end.

Definition id_setter_argc (name : string) : option N :=
  if (name ==s "setuid") || (name ==s "setgid") then Some 1%N
  else if (name ==s "setreuid") || (name ==s "setregid") then Some 2%N
  else if (name ==s "setresuid") || (name ==s "setresgid") then Some 3%N
  else None.

Definition PERSONALITY_ALLOWED : list N := [0; 8; 131072; 131080; 4294967295]%N.

Definition allowed_personas (name : string) : option (list N) :=
  if name ==s "personality" then Some PERSONALITY_ALLOWED else None.

(** ** The [seccompiler] crate *)

(** [struct seccomp_data]. *)
Record seccomp_data := mk_data { sd_nr : N; sd_arch : N; sd_args : list N }.

Definition arg (d : seccomp_data) (i : N) : N := nth (N.to_nat i) (sd_args d) 0%N.

Definition dword (n : N) : N := (n mod 2 ^ 32)%N.

Inductive SeccompAction := Allow | Errno (e : N) | KillProcess.
Inductive SeccompCmpArgLen := Dword | Qword.
Inductive SeccompCmpOp := CmpEq | CmpNe.

Class Seccompiler := {
  Condition : Type;
  Rule : Type;
  Program : Type;
  condition_new : N → SeccompCmpArgLen → SeccompCmpOp → N → result string Condition;
  rule_new : list Condition → result string Rule;
  SeccompFilter : Type;
  filter_new :
    gmap Z (list Rule) → SeccompAction → SeccompAction → Arch → result string SeccompFilter;
  filter_compile : SeccompFilter → result string Program;
  (** What the kernel answers under the program. *)
  verdict : Program → seccomp_data → SeccompAction
}.

Definition audit_arch (a : Arch) : N :=
  match a with X86_64_target => 0xC000003E | Aarch64_target => 0xC00000B7 | Other_target => 0 end%N.

(** The documentation of the crate: a condition compares one argument, a rule
    holds when all its conditions do, a system call with an empty list of rules
    always matches, otherwise when one of its rules holds, and a foreign
    architecture is killed. *)
Class SeccompilerLaws `{Seccompiler} := {
  condition_holds : Condition → seccomp_data → bool;
  rule_holds : Rule → seccomp_data → bool;
  condition_new_ok i v : (i ≤ 5)%N →
    ∃ c, condition_new i Dword CmpNe v = Ok c ∧
         ∀ d, condition_holds c d = negb (dword (arg d i) =? dword v)%N;
  rule_new_ok cs : cs ≠ [] →
    ∃ r, rule_new cs = Ok r ∧ ∀ d, rule_holds r d = forallb (λ c, condition_holds c d) cs;
  filter_compile_ok rules mismatch hit a f p :
    filter_new rules mismatch hit a = Ok f → filter_compile f = Ok p →
    ∀ d, verdict p d =
      if negb (sd_arch d =? audit_arch a)%N then KillProcess
      else match rules !! Z.of_N (sd_nr d) with
           | None => mismatch
           | Some [] => hit
           | Some rs => if existsb (λ r, rule_holds r d) rs then hit else mismatch
           end
}.

(** [anyhow::Context::context], as the error prints. *)
Definition context {A} (c : string) (r : result string A) : result string A :=
  map_err (λ e, c ++s ": " ++s e) r.

(** ** The denylist ([seccomp.rs]) *)

Definition ID_UNCHANGED : N := 0xFFFFFFFF.
Definition EPERM : N := 1.

Section Denylist.
Context `{Seccompiler}.

Definition target_arch (a : Arch) : result string Arch :=
  match a with Other_target => Err "unsupported architecture for seccomp" | _ => Ok a end.

Definition id_rule (worker_id : N) (i : N) : result string Rule :=
  c1 ← context "seccomp: worker-id condition"
         (condition_new i Dword CmpNe (N.land worker_id ID_UNCHANGED));
  c2 ← context "seccomp: unchanged-sentinel condition" (condition_new i Dword CmpNe ID_UNCHANGED);
  context "seccomp: id-setter rule" (rule_new [c1; c2]).

(** [collect] of results: the first error. *)
Fixpoint collect {E A} (l : list (result E A)) : result E (list A) :=
  match l with
  | [] => Ok []
  | r :: l => x ← r; xs ← collect l; Ok (x :: xs)
  end.

Definition id_setter_rules (argc worker_id : N) : result string (list Rule) :=
  collect ((λ i, id_rule worker_id (N.of_nat i)) <$> seq 0 (N.to_nat argc)).

Definition persona_rule (allowed : list N) : result string (list Rule) :=
  cs ← collect ((λ persona, context "seccomp: persona condition"
                             (condition_new 0 Dword CmpNe persona)) <$> allowed);
  r ← context "seccomp: persona rule" (rule_new cs);
  Ok [r].

Definition syscall_rules (worker_id : N) (b : Blocked) : result string (list Rule) :=
  match id_setter_argc (bl_name b), allowed_personas (bl_name b) with
  | Some argc, _ => id_setter_rules argc worker_id
  | None, Some allowed => persona_rule allowed
  | None, None => Ok []
  end.

Fixpoint add_rules (worker_id : N) (l : list Blocked) (rules : gmap Z (list Rule))
  : result string (gmap Z (list Rule)) :=
  match l with
  | [] => Ok rules
  | b :: l => rs ← syscall_rules worker_id b; add_rules worker_id l (<[bl_num b := rs]> rules)
  end.

Definition build (a : Arch) (worker_id : N) : result string (Program * list string) :=
  arch ← target_arch a;
  table ← blocked_syscalls a;
  blocked ← ok_or table "no syscall number table for this arch";
  rules ← add_rules worker_id blocked ∅;
  filter ← context "building seccomp filter" (filter_new rules Allow (Errno EPERM) arch);
  program ← context "compiling seccomp filter" (filter_compile filter);
  Ok (program, bl_name <$> blocked).
End Denylist.

(** ** The exec filter ([exec_notify.rs]) *)

Definition SECCOMP_DATA_NR : N := 0.
Definition SECCOMP_DATA_ARCH : N := 4.
Definition LD_W_ABS : N := 0x20.
Definition JMP_JEQ_K : N := 0x15.
Definition RET_K : N := 0x06.
Definition RET_ALLOW : N := 0x7fff0000.
Definition RET_USER_NOTIF : N := 0x7fc00000.
Definition RET_KILL_PROCESS : N := 0x80000000.

Record Abi := mk_abi { abi_arch : N; abi_traced : list N }.

Definition X32_SYSCALL_BIT : N := 0x40000000.

Definition X86_64 : Abi :=
  mk_abi 0xC000003E [59; 322; N.lor X32_SYSCALL_BIT 0x208; N.lor X32_SYSCALL_BIT 0x221]%N.
Definition AARCH64 : Abi := mk_abi 0xC00000B7 [221; 281]%N.

Definition native (a : Arch) : option Abi :=
  match a with
  | X86_64_target => Some X86_64
  | Aarch64_target => Some AARCH64
  | Other_target => None
  end.

Record Insn := mk_insn { i_code : N; i_jt : N; i_jf : N; i_k : N }.

Definition stmt (code k : N) : Insn := mk_insn code 0 0 k.

(** The jumps of the loop; [as u8] keeps eight bits. *)
Fixpoint exec_jumps (n i : nat) (traced : list N) : list Insn :=
  match traced with
  | [] => []
  | nr :: traced =>
    mk_insn JMP_JEQ_K (N.of_nat (n - i) mod 256) 0 nr :: exec_jumps n (S i) traced
  end.

Definition exec_program (abi : Abi) : list Insn :=
  [stmt LD_W_ABS SECCOMP_DATA_ARCH;
   mk_insn JMP_JEQ_K 1 0 (abi_arch abi);
   stmt RET_K RET_KILL_PROCESS;
   stmt LD_W_ABS SECCOMP_DATA_NR] ++
  exec_jumps (List.length (abi_traced abi)) 0 (abi_traced abi) ++
  [stmt RET_K RET_ALLOW; stmt RET_K RET_USER_NOTIF].

(** The kernel's interpreter on these instructions; [None] for anything else. *)
Definition load_word (d : seccomp_data) (k : N) : option N :=
  if (k =? SECCOMP_DATA_NR)%N then Some (sd_nr d)
  else if (k =? SECCOMP_DATA_ARCH)%N then Some (sd_arch d) else None.

Fixpoint bpf_go (fuel : nat) (prog : list Insn) (d : seccomp_data) (pc : nat) (acc : N) : option N :=
  match fuel with
  | O => None
  | S fuel =>
    match prog !! pc with
    | None => None
    | Some i =>
      if (i_code i =? LD_W_ABS)%N then acc ← load_word d (i_k i); bpf_go fuel prog d (S pc) acc
      else if (i_code i =? JMP_JEQ_K)%N then
        bpf_go fuel prog d (S pc + N.to_nat (if (acc =? i_k i)%N then i_jt i else i_jf i)) acc
      else if (i_code i =? RET_K)%N then Some (i_k i)
      else None
    end
  end.

(** Jumps only go forward: as many steps as instructions are enough. *)
Definition bpf_run (prog : list Insn) (d : seccomp_data) : option N :=
  bpf_go (List.length prog) prog d 0 0.

(** [parse_ack]: the guard's word on the hand-off. *)
Definition ACK_OK : string := "ok".

Definition parse_ack (reply : string) : result string unit :=
  let text := trim (from_utf8_lossy reply) in
  if text ==s ACK_OK then Ok tt
  else if is_empty text then Err "guard closed the exec hand-off without accepting it"
  else Err ("guard refused the exec hand-off: " ++s text).

(** ** What the filters do *)

(** A reference implementation of the crate. *)
#[export] Instance plain_seccompiler : Seccompiler := {|
  Condition := N * N;
  Rule := list (N * N);
  SeccompFilter := gmap Z (list (list (N * N))) * SeccompAction * SeccompAction * Arch;
  Program := gmap Z (list (list (N * N))) * SeccompAction * SeccompAction * Arch;
  condition_new i _ _ v := if (i <=? 5)%N then Ok (i, v) else Err "InvalidArgumentNumber";
  rule_new cs := match cs with [] => Err "EmptyRule" | _ => Ok cs end;
  filter_new rules mismatch hit a := Ok (rules, mismatch, hit, a);
  filter_compile f := Ok f;
  verdict '(rules, mismatch, hit, a) d :=
    if negb (sd_arch d =? audit_arch a)%N then KillProcess
    else match rules !! Z.of_N (sd_nr d) with
         | None => mismatch
         | Some [] => hit
         | Some rs =>
           if existsb (forallb (λ c : N * N, negb (dword (arg d c.1) =? dword c.2)%N)) rs
           then hit else mismatch
         end
|}.

#[export] Instance plain_seccompiler_laws : SeccompilerLaws (H := plain_seccompiler).
Proof.
  refine (Build_SeccompilerLaws plain_seccompiler
            (λ (c : N * N) d, negb (dword (arg d c.1) =? dword c.2)%N)
            (λ (r : list (N * N)) d,
               forallb (λ c : N * N, negb (dword (arg d c.1) =? dword c.2)%N) r) _ _ _).
  - intros i v Hi. exists (i, v). cbn. by rewrite (proj2 (N.leb_le _ _) Hi).
  - intros cs Hcs. exists cs. by destruct cs.
  - intros rules mismatch hit a f p [= <-] [= <-] d. done.
Defined.

(** What a worker may not do: an abstract reading of the denylist. *)
Definition call_denied (worker_id : N) (name : string) (d : seccomp_data) : bool :=
  match id_setter_argc name, allowed_personas name with
  | Some argc, _ =>
    existsb (λ i, let v := dword (arg d (N.of_nat i)) in
                  negb (v =? worker_id)%N && negb (v =? ID_UNCHANGED)%N) (seq 0 (N.to_nat argc))
  | None, Some allowed => forallb (λ persona, negb (dword (arg d 0) =? persona)%N) allowed
  | None, None => true
  end.
