(* ===== verification/SeccompFacts.v ===== *)
(** * What the filters of the supervisor decide

    The denylist answers exactly by the abstract reading [call_denied] of its table,
    and the exec filter sends exactly the exec calls to the guard. *)

From stdpp Require Import base decidable list gmap strings.
From Stdlib Require Import Lia ZArith Bool String.
From S2P Require Import Prelude RustStr Seccomp.

Open Scope string_scope.
Open Scope list_scope.
Open Scope rust_scope.

(** ** Tables *)

(** Every denied system call has a number on both architectures: the lookup
    never panics, and no number is used twice. *)
Lemma blocked_total a :
  a ≠ Other_target →
  ∃ l, blocked_syscalls a = Ok (Some l) ∧ bl_name <$> l = fst <$> DENYLIST ∧
       NoDup (bl_num <$> l) ∧ Forall (λ b, 0 ≤ bl_num b < 2 ^ 30)%Z l.
Proof.
  intros Ha. destruct a; [| |done]; eexists; (split; [vm_compute; reflexivity|]);
    (split; [reflexivity|]); (split; [apply (bool_decide_eq_true_1 _); vm_compute; reflexivity|]);
    repeat constructor; cbn; lia.
Qed.

Lemma dword_small n : (n < 2 ^ 32)%N → dword n = n.
Proof. intros Hn. unfold dword. by rewrite N.mod_small. Qed.

Lemma land_low32 n : N.land n ID_UNCHANGED = dword n.
Proof. unfold dword. change ID_UNCHANGED with (N.ones 32). by rewrite N.land_ones. Qed.

Section Denylist.
Context `{SeccompilerLaws}.

Lemma collect_all {A B E} (f : A → result E B) (P : A → B → Prop) l :
  (∀ x, x ∈ l → ∃ y, f x = Ok y ∧ P x y) → ∃ ys, collect (f <$> l) = Ok ys ∧ Forall2 P l ys.
Proof.
  induction l as [|x l IH]; intros Hf; [by exists []|].
  destruct (Hf x) as (y & Ey & Hy); [by left|].
  destruct IH as (ys & Eys & Hys); [intros z Hz; apply Hf; by right|].
  exists (y :: ys). cbn. rewrite Ey. cbn. rewrite Eys. cbn. split; [done|by constructor].
Qed.

(** The rules of one system call hold: an empty list always does. *)
Definition rules_hit (rs : list Rule) (d : seccomp_data) : bool :=
  match rs with [] => true | _ => existsb (λ r, rule_holds r d) rs end.

Lemma existsb_Forall2 {A B} (f : A → bool) (g : B → bool) l l' :
  Forall2 (λ x y, g y = f x) l l' → existsb g l' = existsb f l.
Proof. induction 1 as [|x y l l' E _ IH]; [done|]. cbn. by rewrite E, IH. Qed.

Lemma forallb_Forall2 {A B} (f : A → bool) (g : B → bool) l l' :
  Forall2 (λ x y, g y = f x) l l' → forallb g l' = forallb f l.
Proof. induction 1 as [|x y l l' E _ IH]; [done|]. cbn. by rewrite E, IH. Qed.

Lemma id_rule_ok worker_id i :
  (worker_id < 2 ^ 32)%N → (i ≤ 5)%N →
  ∃ r, id_rule worker_id i = Ok r ∧
       ∀ d, rule_holds r d =
            negb (dword (arg d i) =? worker_id)%N && negb (dword (arg d i) =? ID_UNCHANGED)%N.
Proof.
  intros Hw Hi. unfold id_rule.
  destruct (condition_new_ok i (N.land worker_id ID_UNCHANGED) Hi) as (c1 & -> & E1).
  destruct (condition_new_ok i ID_UNCHANGED Hi) as (c2 & -> & E2).
  destruct (rule_new_ok [c1; c2]) as (r & Er & E); [done|]. cbn. rewrite Er. cbn.
  exists r. split; [done|]. intros d. rewrite E. cbn. rewrite E1, E2, andb_true_r.
  rewrite land_low32, (dword_small (dword worker_id)), (dword_small worker_id) by
    (unfold dword; try apply N.mod_lt; done). done.
Qed.

Lemma syscall_rules_ok worker_id b :
  (worker_id < 2 ^ 32)%N →
  ∃ rs, syscall_rules worker_id b = Ok rs ∧ ∀ d, rules_hit rs d = call_denied worker_id (bl_name b) d.
Proof.
  intros Hw. unfold syscall_rules, call_denied.
  destruct (id_setter_argc (bl_name b)) as [argc|] eqn:Ea.
  - assert (0 < argc ≤ 3)%N as Hargc.
    { unfold id_setter_argc in Ea. repeat case_match; simplify_eq; lia. }
    unfold id_setter_rules.
    destruct (collect_all (λ i, id_rule worker_id (N.of_nat i))
      (λ i r, ∀ d, rule_holds r d = negb (dword (arg d (N.of_nat i)) =? worker_id)%N &&
                                    negb (dword (arg d (N.of_nat i)) =? ID_UNCHANGED)%N)
      (seq 0 (N.to_nat argc))) as (rs & -> & HF).
    { intros i Hi%elem_of_seq. apply id_rule_ok; [done|lia]. }
    exists rs. split; [done|]. intros d. unfold rules_hit.
    destruct rs as [|r rs].
    { apply Forall2_nil_inv_r in HF. destruct (N.to_nat argc) eqn:En; [lia|done]. }
    apply existsb_Forall2. eapply Forall2_impl; [exact HF|]. by intros i r' Hr.
  - destruct (allowed_personas (bl_name b)) as [allowed|] eqn:Ep; [|by exists []].
    assert (allowed = PERSONALITY_ALLOWED) as ->.
    { unfold allowed_personas in Ep. case_match; by simplify_eq. }
    unfold persona_rule.
    destruct (collect_all (λ p, context "seccomp: persona condition" (condition_new 0 Dword CmpNe p))
      (λ p c, ∀ d, condition_holds c d = negb (dword (arg d 0) =? p)%N)
      PERSONALITY_ALLOWED) as (cs & -> & HF).
    { intros p Hp. destruct (condition_new_ok 0 p) as (c & -> & Ec); [lia|]. exists c.
      split; [done|]. intros d. rewrite Ec. rewrite (dword_small p); [done|].
      unfold PERSONALITY_ALLOWED in Hp. repeat (apply elem_of_cons in Hp as [->|Hp]; [done|]).
      by apply elem_of_nil in Hp. }
    destruct (rule_new_ok cs) as (r & Er & E).
    { intros ->. by apply Forall2_nil_inv_r in HF. }
    cbn [mbind result_bind]. rewrite Er. cbn [context map_err mbind result_bind]. exists [r].
    split; [done|]. intros d. cbn [rules_hit existsb]. rewrite E, orb_false_r.
    apply forallb_Forall2. eapply Forall2_impl; [exact HF|]. by intros p c Hc.
Qed.

Lemma add_rules_ok worker_id l : ∀ rules,
  (worker_id < 2 ^ 32)%N → NoDup (bl_num <$> l) →
  ∃ rules', add_rules worker_id l rules = Ok rules' ∧
    (∀ b, b ∈ l → ∃ rs, rules' !! bl_num b = Some rs ∧
       ∀ d, rules_hit rs d = call_denied worker_id (bl_name b) d) ∧
    (∀ n, n ∉ bl_num <$> l → rules' !! n = rules !! n).
Proof.
  induction l as [|b l IH]; intros rules Hw Hn.
  { exists rules. split; [done|]. split; [by intros b ?%elem_of_nil|done]. }
  rewrite fmap_cons in Hn. apply NoDup_cons in Hn as [Hb Hn].
  destruct (syscall_rules_ok worker_id b Hw) as (rs & Ers & Hrs). cbn [add_rules]. rewrite Ers. cbn.
  destruct (IH (<[bl_num b:=rs]> rules) Hw Hn) as (rules' & E & H1 & H2).
  exists rules'. split; [done|]. split.
  - intros x [->|Hx]%elem_of_cons; [|by apply H1]. exists rs. split; [|done].
    rewrite H2 by done. by rewrite lookup_insert_eq.
  - intros n Hx. apply not_elem_of_cons in Hx as [Hne Hx].
    rewrite H2 by done. by rewrite lookup_insert_ne.
Qed.

Definition blocked_by (l : list Blocked) (d : seccomp_data) : option Blocked :=
  List.find (λ b, bl_num b =? Z.of_N (sd_nr d))%Z l.

Lemma denylist_decides a worker_id :
  a ≠ Other_target → (worker_id < 2 ^ 32)%N →
  ∃ l rules, blocked_syscalls a = Ok (Some l) ∧
  match filter_new rules Allow (Errno EPERM) a with
  | Err e => build a worker_id = Err ("building seccomp filter: " ++s e)
  | Ok f =>
    match filter_compile f with
    | Err e => build a worker_id = Err ("compiling seccomp filter: " ++s e)
    | Ok p =>
      build a worker_id = Ok (p, fst <$> DENYLIST) ∧
      ∀ d, verdict p d =
        if negb (sd_arch d =? audit_arch a)%N then KillProcess
        else match blocked_by l d with
             | Some b => if call_denied worker_id (bl_name b) d then Errno EPERM else Allow
             | None => Allow
             end
    end
  end.
Proof.
  intros Ha Hw. destruct (blocked_total a Ha) as (l & El & Enames & Hn & _).
  destruct (add_rules_ok worker_id l ∅ Hw Hn) as (rules & Er & H1 & H2).
  exists l, rules. split; [done|].
  assert (build a worker_id =
    (f ← context "building seccomp filter" (filter_new rules Allow (Errno EPERM) a);
     p ← context "compiling seccomp filter" (filter_compile f); Ok (p, fst <$> DENYLIST))) as Eb.
  { unfold build. rewrite El, <-Enames. cbn. rewrite Er. cbn. by destruct a. }
  rewrite Eb. destruct (filter_new rules Allow (Errno EPERM) a) as [f|e] eqn:Ef; [|done]. cbn.
  destruct (filter_compile f) as [p|e] eqn:Ep; [|done]. cbn. split; [done|]. intros d.
  rewrite (filter_compile_ok _ _ _ _ _ _ Ef Ep). destruct (negb _); [done|].
  unfold blocked_by. destruct (List.find _ l) as [b|] eqn:Eb'.
  - apply List.find_some in Eb' as [Hin E%Z.eqb_eq]. apply list_elem_of_In in Hin.
    destruct (H1 b Hin) as (rs & Ers & Hrs). rewrite <-E, Ers, <-Hrs. by destruct rs.
  - rewrite H2; [by rewrite lookup_empty|]. intros (b & E & Hin)%list_elem_of_fmap.
    apply list_elem_of_In in Hin. pose proof (List.find_none _ _ Eb' b Hin) as Hf. cbn in Hf.
    rewrite <-E, Z.eqb_refl in Hf. done.
Qed.

(** C5. The denylist decides exactly as its table reads: on the native
    architecture a listed call gets EPERM, except that a call which sets ids
    passes when each of its ids is the worker's own or unchanged and
    [personality] passes for the listed personas; every other call is allowed,
    and a foreign architecture is killed.  Only the crate can refuse to build
    it. *)
Theorem denylist_exact a worker_id :
  a ≠ Other_target → (worker_id < 2 ^ 32)%N →
  ∃ l rules, blocked_syscalls a = Ok (Some l) ∧
  match filter_new rules Allow (Errno EPERM) a with
  | Err e => build a worker_id = Err ("building seccomp filter: " ++s e)
  | Ok f =>
    match filter_compile f with
    | Err e => build a worker_id = Err ("compiling seccomp filter: " ++s e)
    | Ok p =>
      build a worker_id = Ok (p, fst <$> DENYLIST) ∧
      ∀ d, verdict p d =
        if negb (sd_arch d =? audit_arch a)%N then KillProcess
        else match blocked_by l d with
             | Some b => if call_denied worker_id (bl_name b) d then Errno EPERM else Allow
             | None => Allow
             end
    end
  end.
Proof. apply denylist_decides. Qed.

(** On x86-64 the numbers of the x32 interface share the audit architecture and
    carry a bit of their own, which no entry of the table has: every such call
    is allowed, whatever it does. *)
Theorem x32_calls_pass worker_id p names d :
  (worker_id < 2 ^ 32)%N → build X86_64_target worker_id = Ok (p, names) →
  sd_arch d = audit_arch X86_64_target → (X32_SYSCALL_BIT ≤ sd_nr d)%N →
  verdict p d = Allow.
Proof.
  intros Hw Hb Ha Hnr.
  destruct (denylist_decides X86_64_target worker_id) as (l & rules & El & H1); [done|done|].
  destruct (filter_new _ _ _ _) as [f|e]; [|congruence].
  destruct (filter_compile f) as [p'|e]; [|congruence]. destruct H1 as [Hb' Hv].
  rewrite Hb in Hb'. injection Hb' as -> _. rewrite Hv, Ha, N.eqb_refl. cbn [negb].
  destruct (blocked_total X86_64_target) as (l' & El' & _ & _ & Hl); [done|].
  rewrite El in El'. injection El' as <-. unfold blocked_by.
  destruct (List.find _ l) as [b|] eqn:E; [|done].
  apply List.find_some in E as [Hin E%Z.eqb_eq]. apply list_elem_of_In in Hin.
  rewrite Forall_forall in Hl. specialize (Hl b Hin). unfold X32_SYSCALL_BIT in Hnr. cbn in Hl. lia.
Qed.
End Denylist.

(** ** The exec filter *)

Lemma exec_jumps_length n i traced : List.length (exec_jumps n i traced) = List.length traced.
Proof. revert i. induction traced as [|nr traced IH]; intros i; cbn; [done|]. by rewrite IH. Qed.

(** The jumps from the [i]-th on: the first that is taken ends at the last
    instruction. *)
Lemma bpf_jumps pre traced i fuel d n :
  (List.length pre = 4 + i)%nat → (n = i + List.length traced)%nat → (n ≤ 255)%nat →
  (List.length traced + 2 ≤ fuel)%nat →
  bpf_go fuel (pre ++ exec_jumps n i traced ++ [stmt RET_K RET_ALLOW; stmt RET_K RET_USER_NOTIF])
    d (4 + i) (sd_nr d) =
  Some (if bool_decide (sd_nr d ∈ traced) then RET_USER_NOTIF else RET_ALLOW).
Proof.
  revert pre i fuel. induction traced as [|nr traced IH]; intros pre i fuel Hp Hn H255 Hf.
  - destruct fuel as [|fuel]; [cbn in Hf; lia|]. cbn [bpf_go exec_jumps app].
    rewrite lookup_app_r, Hp, Nat.sub_diag by lia. done.
  - destruct fuel as [|fuel]; [cbn in Hf; lia|]. cbn [List.length] in *.
    set (prog := pre ++ _ ++ _) in *. cbn [bpf_go].
    assert (prog !! (4 + i)%nat = Some (mk_insn JMP_JEQ_K (N.of_nat (n - i) mod 256) 0 nr)) as ->.
    { unfold prog. rewrite lookup_app_r, Hp, Nat.sub_diag by lia. done. }
    cbn [i_code i_jt i_jf i_k]. destruct (N.eqb_spec (sd_nr d) nr) as [E|E].
    + rewrite bool_decide_true by (rewrite E; by left).
      rewrite N.mod_small by lia. rewrite Nat2N.id.
      destruct fuel as [|fuel]; [lia|]. cbn [bpf_go].
      assert (prog !! (S (4 + i) + (n - i))%nat = Some (stmt RET_K RET_USER_NOTIF)) as ->; [|done].
      unfold prog. rewrite lookup_app_r by lia. rewrite lookup_app_r;
        rewrite exec_jumps_length; cbn [List.length]; [|lia].
      by replace (S (4 + i) + (n - i) - List.length pre - S (List.length traced))%nat with 1%nat by lia.
    + rewrite N2Nat.inj_0, Nat.add_0_r.
      specialize (IH (pre ++ [mk_insn JMP_JEQ_K (N.of_nat (n - i) mod 256) 0 nr]) (S i) fuel).
      rewrite <-app_assoc in IH. cbn [app exec_jumps] in *. rewrite Nat.add_succ_r in IH.
      unfold prog. rewrite IH by (rewrite ?length_app; cbn; lia).
      f_equal. assert (bool_decide (sd_nr d ∈ traced) = bool_decide (sd_nr d ∈ nr :: traced)) as ->;
        [|done]. apply bool_decide_ext. rewrite elem_of_cons. naive_solver.
Qed.

(** C6. The filter the supervisor assembles sends exactly the traced calls of the
    native architecture to the guard, lets every other call of it pass, and
    kills a process that enters the kernel with another architecture; no run of
    it leaves the program. *)
Theorem exec_filter_exact abi d :
  (List.length (abi_traced abi) ≤ 255)%nat →
  bpf_run (exec_program abi) d =
  Some (if negb (sd_arch d =? abi_arch abi)%N then RET_KILL_PROCESS
        else if bool_decide (sd_nr d ∈ abi_traced abi) then RET_USER_NOTIF else RET_ALLOW).
Proof.
  intros Hn. unfold bpf_run, exec_program. rewrite !length_app, exec_jumps_length. cbn [List.length].
  replace (4 + (List.length (abi_traced abi) + 2))%nat
    with (S (S (S (List.length (abi_traced abi) + 3)))) by lia.
  set (rest := exec_jumps _ _ _ ++ _).
  assert (∀ fuel, bpf_go (S (S (S fuel)))
            ([stmt LD_W_ABS SECCOMP_DATA_ARCH; mk_insn JMP_JEQ_K 1 0 (abi_arch abi);
              stmt RET_K RET_KILL_PROCESS; stmt LD_W_ABS SECCOMP_DATA_NR] ++ rest) d 0 0 =
          if (sd_arch d =? abi_arch abi)%N
          then bpf_go fuel ([stmt LD_W_ABS SECCOMP_DATA_ARCH; mk_insn JMP_JEQ_K 1 0 (abi_arch abi);
              stmt RET_K RET_KILL_PROCESS; stmt LD_W_ABS SECCOMP_DATA_NR] ++ rest) d 4 (sd_nr d)
          else Some RET_KILL_PROCESS) as ->.
  { intros fuel. cbn. by destruct (sd_arch d =? abi_arch abi)%N. }
  destruct (sd_arch d =? abi_arch abi)%N; [|done]. cbn [negb]. unfold rest.
  apply (bpf_jumps _ (abi_traced abi) 0); cbn; lia.
Qed.

Lemma denylist_exact_witness :
  ∃ l rules, blocked_syscalls X86_64_target = Ok (Some l) ∧
  match filter_new rules Allow (Errno EPERM) X86_64_target with
  | Err e => build X86_64_target 1000 = Err ("building seccomp filter: " ++s e)
  | Ok f =>
    match filter_compile f with
    | Err e => build X86_64_target 1000 = Err ("compiling seccomp filter: " ++s e)
    | Ok p =>
      build X86_64_target 1000 = Ok (p, fst <$> DENYLIST) ∧
      ∀ d, verdict p d =
        if negb (sd_arch d =? audit_arch X86_64_target)%N then KillProcess
        else match blocked_by l d with
             | Some b => if call_denied 1000 (bl_name b) d then Errno EPERM else Allow
             | None => Allow
             end
    end
  end.
Proof. apply (denylist_exact X86_64_target 1000); [discriminate|reflexivity]. Defined.

Lemma exec_filter_exact_witness :
  bpf_run (exec_program X86_64) (mk_data 59 0xC000003E []) = Some RET_USER_NOTIF.
Proof. refine (exec_filter_exact X86_64 (mk_data 59 0xC000003E []) _). cbn. lia. Defined.

(** The number of [setuid] in the x32 interface. *)
Definition x32_setuid : seccomp_data := mk_data (N.lor X32_SYSCALL_BIT 105) 0xC000003E [0%N].

Lemma x32_calls_pass_witness :
  ∃ p names, build X86_64_target 1000 = Ok (p, names) ∧ verdict p x32_setuid = Allow.
Proof.
  destruct (build X86_64_target 1000) as [[p names]|e] eqn:E; [|discriminate E].
  exists p, names. split; [reflexivity|].
  apply (x32_calls_pass 1000 p names x32_setuid); [reflexivity|exact E|reflexivity|].
  vm_compute. discriminate.
Defined.

(** The same call by its x86-64 number is refused. *)
Example setuid_refused :
  match build X86_64_target 1000 with
  | Ok (p, _) => verdict p (mk_data 105 0xC000003E [0%N]) = Errno EPERM ∧
                 verdict p (mk_data 105 0xC000003E [1000%N]) = Allow ∧
                 verdict p (mk_data 135 0xC000003E [0x40000%N]) = Errno EPERM
  | Err _ => False
  end.
Proof. by vm_compute. Qed.
