(* ===== verification/Supervisor.v ===== *)
(** * The supervisor

    [cctui-supervisor]: the wrapper that confines a worker before it becomes
    the payload.  [cli.rs] resolves the options, [landlock_rules.rs] the file
    system rules, [privdrop.rs] drops capabilities and identity, [main.rs] puts
    the steps in order.

    The functions that call the kernel, the file system or the guard are
    programs over the calls [Op]; the options are already parsed.  Of the
    messages only errors are modelled, as the text their chain prints; the
    listing of [--dry-run] is not. *)

From stdpp Require Import base decidable list gmap strings.
From Stdlib Require Import Lia ZArith Bool Ascii String.
From S2P Require Import Prelude RustStr Http Prog Seccomp.

Open Scope string_scope.
Open Scope list_scope.
Open Scope rust_scope.
Open Scope prog_scope.

(** ** Options ([cli.rs]) *)

Definition DEFAULT_RO : list string :=
  ["/usr"; "/lib"; "/lib64"; "/bin"; "/sbin"; "/etc"; "/proc"; "/prompts"; "/opt/context";
   "/var/run/guard-proxy-ca"].
Definition DEFAULT_RW : list string :=
  ["/dev"; "/tmp"; "/workspace"; "/home/worker"; "/var/run/workflow-guard"; "/var/run/guard-proxy"].
Definition DEFAULT_EXEC_RW : list string :=
  ["/workspace"; "/home/worker/.cargo"; "/home/worker/.rustup"; "/home/worker/.local/bin";
   "/home/worker/.local/share/mise"; "/home/worker/.npm/_npx"].
Definition DEFAULT_UID : N := 1000.
Definition LANDLOCK_STRICT_ENV : string := "CCTUI_LANDLOCK_STRICT".

Definition landlock_strict (flag : bool) (env : option string) : bool :=
  flag || match env with None => true | Some v => negb (v ==s "0") end.

Record Cli := mk_cli {
  c_ro : list string;
  c_rw : list string;
  c_user : N;
  c_report : option string;
  c_strict : bool;
  c_no_seccomp : bool;
  c_no_privdrop : bool;
  c_guard_exec : option string;
  c_exec_rw : list string;
  c_no_exec_rw : bool;
  c_dry_run : bool;
  c_command : list string
}.

Definition or_default (l d : list string) : list string := match l with [] => d | _ => l end.

Definition ro_paths (c : Cli) : list string := or_default (c_ro c) DEFAULT_RO.
Definition rw_paths (c : Cli) : list string := or_default (c_rw c) DEFAULT_RW.
Definition exec_rw_paths (c : Cli) : list string :=
  if c_no_exec_rw c then [] else or_default (c_exec_rw c) DEFAULT_EXEC_RW.

(** ** Paths *)

(** [Path::components]. *)
Inductive Component := RootDir | CurDir | ParentDir | Normal (s : string).

#[export] Instance Component_eq_dec : EqDecision Component.
Proof. solve_decision. Defined.

Definition component (first : bool) (part : string) : option Component :=
  if is_empty part then None
  else if part ==s "." then (if first then Some CurDir else None)
  else if part ==s ".." then Some ParentDir
  else Some (Normal part).

Definition is_absolute (path : string) : bool := starts_with "/" path.

Definition components (path : string) : list Component :=
  match split_char "/" path with
  | [] => []
  | part :: parts =>
    (if is_absolute path then [RootDir] else option_list (component true part)) ++
    omap (component false) parts
  end.

Definition component_text (c : Component) : string :=
  match c with RootDir => "/" | CurDir => "." | ParentDir => ".." | Normal s => s end.

(** [PathBuf::push]. *)
Definition push_component (cur : string) (c : Component) : string :=
  match c with
  | RootDir => "/"
  | _ => if is_empty cur || ends_with "/" cur then cur ++s component_text c
         else cur ++s "/" ++s component_text c
  end.

Fixpoint strip_components (base path : list Component) : option (list Component) :=
  match base, path with
  | [], _ => Some path
  | b :: base, p :: path => if decide (b = p) then strip_components base path else None
  | _ :: _, [] => None
  end.

(** [Path::starts_with] and [Path::strip_prefix]. *)
Definition path_strip (base path : string) : option (list Component) :=
  strip_components (components base) (components path).
Definition path_starts_with (base path : string) : bool :=
  match path_strip base path with Some _ => true | None => false end.

(** ** File system rules ([landlock_rules.rs]) *)

(** The access rights of the [landlock] crate at an ABI, by name. *)
Class Landlock := {
  from_read : N → gset string;
  from_write : N → gset string
}.

(** Its documentation: [from_all] is both, reading includes [Execute]. *)
Class LandlockLaws `{Landlock} := {
  read_write_disjoint abi : from_read abi ## from_write abi;
  read_executes abi : "Execute" ∈ from_read abi
}.

Definition from_all `{Landlock} (abi : N) : gset string := from_read abi ∪ from_write abi.

Definition TARGET_ABI : N := 5.

Inductive LandlockOutcome := Fully (abi : N) | Partial (abi : N) | Unavailable.

Definition describe (o : LandlockOutcome) : string :=
  match o with
  | Fully abi => "V" ++s u32_to_string abi ++s " (fully-enforced)"
  | Partial abi => "V" ++s u32_to_string abi ++s " (partially-enforced)"
  | Unavailable => "unavailable"
  end.

Definition is_enforced (o : LandlockOutcome) : bool :=
  match o with Unavailable => false | _ => true end.

Record Grant := mk_grant { g_paths : list string; g_access : gset string }.

Definition plan `{Landlock} (ro rw exec_rw : list string) (guard_exec : bool) : list Grant :=
  let all := from_all TARGET_ABI in
  let readwrite := if guard_exec then all ∖ {["Execute"]} else all in
  [mk_grant ro (from_read TARGET_ABI); mk_grant rw readwrite] ++
  (if guard_exec && negb (bool_decide (exec_rw = [])) then [mk_grant exec_rw {["Execute"]}] else []).

(** ** Calls *)

Inductive IoError := NotFound (text : string) | OtherIo (text : string).

Definition io_text (e : IoError) : string := match e with NotFound t | OtherIo t => t end.

Inductive RulesetStatus := NotEnforced | PartiallyEnforced | FullyEnforced.
Inductive CapSet := Ambient | Bounding | Inheritable.

Definition cap_set_text (s : CapSet) : string :=
  match s with Ambient => "Ambient" | Bounding => "Bounding" | Inheritable => "Inheritable" end.

Record Report := mk_report {
  r_landlock : string;
  r_landlock_strict : bool;
  r_seccomp_applied : bool;
  r_seccomp_blocked : list string;
  r_caps_dropped : bool;
  r_uid : N;
  r_ro_paths : list string;
  r_rw_paths : list string;
  r_command : list string;
  r_exec_guarded : bool;
  r_exec_rw_paths : list string
}.

Section Calls.
Context `{Seccompiler}.

Inductive Op :=
| OEnv (name : string)
| ONoNewPrivs
| OInstallListener (prog : list Insn)
| OConnect (socket : string)
| OReadTimeout
| OWriteTimeout
| OSendFd
| OReadReply
| OHandleAccess (access : gset string)
| OCreateRuleset
| OAddRules (g : Grant)
| ORestrictSelf
| OIsDir (path : string)
| OLstat (path : string)
| OCreateDir (path : string)
| OChown (path : string) (uid : N)
| OIsRoot
| OClearCaps (set : CapSet)
| OGetresuid
| OGetresgid
| OSetgroups
| OSetgid (gid : N)
| OSetresgid (gid : N)
| OSetresuid (uid : N)
| OApplyFilter (p : Program)
| OUnshare
| OWriteReport (path : string) (r : Report)
| OExecvp (prog : string) (argv : list string).

Definition Ans (op : Op) : Type :=
  match op with
  | OEnv _ => option string
  | OIsDir _ | OIsRoot => bool
  | OReadReply => result string string
  | ORestrictSelf => result string RulesetStatus
  | OLstat _ => result IoError bool
  | OCreateDir _ | OChown _ _ => result IoError unit
  | OGetresuid | OGetresgid => result string (N * N * N)
  | OUnshare => result N unit
  | OExecvp _ _ => string
  | _ => result string unit
  end.
End Calls.

(** [.context(c)?] on the answer of a call. *)
Definition with_context `{Seccompiler} {A} (c : string) (p : prog Ans (result string A))
  : prog Ans (result string A) := r ← p; Ret (context c r).

(** ** Executable subtrees *)

Section Programs.
Context `{Seccompiler, Landlock} (arch : Arch).

Fixpoint walk_beneath (owner : option N) (cur : string) (below : list Component)
  : prog Ans (result IoError bool) :=
  match below with
  | [] => Ret (Ok true)
  | c :: below =>
    let cur := push_component cur c in
    meta ← call (OLstat cur : Op);
    match meta with
    | Ok true => walk_beneath owner cur below
    | Ok false => Ret (Ok false)
    | Err (NotFound _) =>
      _ <-? call (OCreateDir cur);
      match owner with
      | Some uid => _ <-? call (OChown cur uid); walk_beneath owner cur below
      | None => walk_beneath owner cur below
      end
    | Err e => Ret (Err e)
    end
  end.

Definition create_beneath (root path : string) (owner : option N)
  : prog Ans (result IoError bool) :=
  d ← call (OIsDir root : Op);
  if negb d then Ret (Ok false)
  else match path_strip root path with
       | None => Ret (Ok false)
       | Some below => walk_beneath owner root below
       end.

(** An entry that is looked at: absolute, without [..], beneath a root. *)
Definition exec_root (rw : list string) (entry : string) : option string :=
  if negb (is_absolute entry) || existsb (λ c, bool_decide (c = ParentDir)) (components entry)
  then None
  else List.find (λ r, path_starts_with r entry) rw.

Fixpoint prepare_exec_rw (exec_rw rw : list string) (owner : option N)
  : prog Ans (result IoError (list string)) :=
  match exec_rw with
  | [] => Ret (Ok [])
  | entry :: exec_rw =>
    match exec_root rw entry with
    | None => prepare_exec_rw exec_rw rw owner
    | Some root =>
      keep <-? create_beneath root entry owner;
      kept <-? prepare_exec_rw exec_rw rw owner;
      Ret (Ok (if (keep : bool) then entry :: kept else kept))
    end
  end.

(** ** Landlock *)

Fixpoint add_grants (grants : list Grant) : prog Ans (result string unit) :=
  match grants with
  | [] => Ret (Ok tt)
  | g :: grants =>
    _ <-? with_context "landlock: add rules" (call (OAddRules g)); add_grants grants
  end.

Definition apply_with (ro rw exec_rw : list string) (guard_exec : bool)
  : prog Ans (result string LandlockOutcome) :=
  _ <-? with_context "landlock: handle_access" (call (OHandleAccess (from_all TARGET_ABI)));
  _ <-? with_context "landlock: create ruleset" (call OCreateRuleset);
  _ <-? add_grants (plan ro rw exec_rw guard_exec);
  status <-? with_context "landlock: restrict_self" (call ORestrictSelf);
  Ret (Ok match status with
          | NotEnforced => Unavailable
          | PartiallyEnforced => Partial TARGET_ABI
          | FullyEnforced => Fully TARGET_ABI
          end).

Definition apply (ro rw : list string) : prog Ans (result string LandlockOutcome) :=
  apply_with ro rw [] false.

(** ** Capabilities and identity ([privdrop.rs]) *)

Fixpoint clear_sets (sets : list CapSet) : prog Ans (result string unit) :=
  match sets with
  | [] => Ret (Ok tt)
  | set :: sets =>
    _ <-? with_context ("clearing " ++s cap_set_text set ++s " capability set")
            (call (OClearCaps set));
    clear_sets sets
  end.

Definition drop_capabilities : prog Ans (result string unit) :=
  root ← call (OIsRoot : Op);
  if (root : bool) then clear_sets [Ambient; Bounding; Inheritable]
  else _ <-? with_context "setting no_new_privs" (call ONoNewPrivs);
       clear_sets [Ambient; Inheritable].

Inductive Switch := SDrop | AlreadyTarget | WrongGroup (gid : N).

Definition ids_list (ids : N * N * N) : list N := [ids.1.1; ids.1.2; ids.2].

Definition plan_switch (uids gids : N * N * N) (target : N) : Switch :=
  if existsb (λ u, negb (u =? target)%N) (ids_list uids) then SDrop
  else match List.find (λ g, negb (g =? target)%N) (ids_list gids) with
       | None => AlreadyTarget
       | Some g => WrongGroup g
       end.

Definition switch_user (uid : N) : prog Ans (result string bool) :=
  ru <-? with_context "getresuid" (call OGetresuid);
  rg <-? with_context "getresgid" (call OGetresgid);
  match plan_switch ru rg uid with
  | AlreadyTarget => Ret (Ok false)
  | WrongGroup gid =>
    Ret (Err ("already uid " ++s u32_to_string uid ++s " but gid " ++s u32_to_string gid ++s
              ", unfixable without root: set runAsGroup: " ++s u32_to_string uid))
  | SDrop =>
    _ ← call (OSetgroups : Op);
    _ <-? with_context "setgid" (call (OSetgid uid));
    _ <-? with_context "setresgid" (call (OSetresgid uid));
    _ <-? with_context "setresuid" (call (OSetresuid uid));
    Ret (Ok true)
  end.

(** ** The exec guard ([exec_notify.rs], [main.rs]) *)

Definition install : prog Ans (result string unit) :=
  match native arch with
  | None => Ret (Err "exec interception: unsupported architecture")
  | Some abi =>
    _ <-? with_context "setting no_new_privs" (call ONoNewPrivs);
    with_context "seccomp(SECCOMP_FILTER_FLAG_NEW_LISTENER)"
      (call (OInstallListener (exec_program abi)))
  end.

Definition hand_off (socket : string) : prog Ans (result string unit) :=
  _ <-? with_context ("connecting to guard exec socket " ++s socket) (call (OConnect socket));
  _ <-? with_context "set_read_timeout" (call OReadTimeout);
  _ <-? with_context "set_write_timeout" (call OWriteTimeout);
  _ <-? with_context "sending listener fd" (call OSendFd);
  reply <-? with_context "reading guard hand-off reply" (call OReadReply);
  Ret (parse_ack reply).

Definition arm_exec_guard (c : Cli) : prog Ans (result string bool) :=
  match c_guard_exec c with
  | None => Ret (Ok false)
  | Some socket =>
    _ <-? with_context "installing the exec notification filter" install;
    _ <-? with_context "handing the exec filter to cctui-guard" (hand_off socket);
    Ret (Ok true)
  end.

Definition exec_subtrees (c : Cli) (rw : list string) : prog Ans (result string (list string)) :=
  root ← (if c_no_privdrop c then Ret false else call (OIsRoot : Op));
  let owner := if (root : bool) then Some (c_user c) else None in
  kept ← prepare_exec_rw (exec_rw_paths c) rw owner;
  Ret (context "preparing the executable RW subtrees" (map_err io_text kept)).

Definition apply_landlock (strict : bool) (ro rw exec_rw : list string) (exec_guarded : bool)
  : prog Ans (result string LandlockOutcome) :=
  outcome <-? apply_with ro rw exec_rw exec_guarded;
  Ret (if is_enforced outcome then Ok outcome
       else if strict then
         Err ("landlock not enforced (" ++s describe outcome ++s
              "); refusing to run the payload unconfined (set " ++s LANDLOCK_STRICT_ENV ++s
              "=0 to opt out)")
       else if exec_guarded then
         Err ("landlock not enforced and --guard-exec needs it to keep RW paths noexec: " ++s
              describe outcome)
       else Ok outcome).

(** ** The run ([main.rs]) *)

(** [seccomp::apply]. *)
Definition apply_seccomp (worker_id : N) : prog Ans (result string (list string)) :=
  match build arch worker_id with
  | Err e => Ret (Err e)
  | Ok (program, names) =>
    _ <-? with_context "installing seccomp filter" (call (OApplyFilter program));
    Ret (Ok names)
  end.

Inductive Ended := Returned | Exited (code : N).

Definition selftest_seccomp : prog Ans (result string Ended) :=
  _ <-? with_context "self-test: apply seccomp" (apply_seccomp 1000);
  r ← call (OUnshare : Op);
  Ret (Ok (Exited match r with Err e => if (e =? EPERM)%N then 0 else 2 | Ok _ => 2 end)).

Definition drop_privileges (c : Cli) : prog Ans (result string bool) :=
  if c_no_privdrop c then Ret (Ok false)
  else _ <-? with_context "dropping capabilities" drop_capabilities;
       _ <-? with_context "switching user" (switch_user (c_user c));
       Ret (Ok true).

Definition filter_syscalls (c : Cli) : prog Ans (result string (bool * list string)) :=
  if c_no_seccomp c then Ret (Ok (false, []))
  else names <-? with_context "applying seccomp" (apply_seccomp (c_user c));
       Ret (Ok (true, names)).

Definition write_report (path : option string) (r : Report) : prog Ans (result string unit) :=
  match path with None => Ret (Ok tt) | Some path => call (OWriteReport path r : Op) end.

(** [CString::new]: the position of the first NUL. *)
Fixpoint nul_at (i : N) (s : string) : option N :=
  match s with
  | EmptyString => None
  | String ch s => if Ascii.eqb ch zero then Some i else nul_at (i + 1) s
  end.

Definition cstring (s : string) : result string string :=
  match nul_at 0 s with
  | None => Ok s
  | Some i => Err ("nul byte found in provided data at position: " ++s u32_to_string i)
  end.

(** [{:?}] of a string. *)
Variable debug : string → string.

Definition exec_payload (command : list string) : prog Ans (result string Ended) :=
  match command with
  | [] => Ret (Err "no command provided")
  | name :: _ =>
    match context "command name has interior NUL" (cstring name),
          context "command arg has interior NUL" (collect (cstring <$> command)) with
    | Err e, _ | Ok _, Err e => Ret (Err e)
    | Ok prog, Ok argv =>
      err ← call (OExecvp prog argv : Op);
      Ret (Err ("exec " ++s debug name ++s " failed: " ++s err))
    end
  end.

(** Everything between the options and the payload. *)
Definition confine (c : Cli) (strict : bool) : prog Ans (result string Ended) :=
  let ro := ro_paths c in
  let rw := rw_paths c in
  exec_guarded <-? arm_exec_guard c;
  exec_rw <-? (if (exec_guarded : bool) then exec_subtrees c rw else Ret (Ok []));
  outcome <-? apply_landlock strict ro rw exec_rw exec_guarded;
  caps_dropped <-? drop_privileges c;
  seccomp <-? filter_syscalls c;
  _ <-? write_report (c_report c)
          (mk_report (describe outcome) strict seccomp.1 seccomp.2 caps_dropped (c_user c)
             ro rw (c_command c) exec_guarded exec_rw);
  exec_payload (c_command c).

Definition SELFTEST_ENV : string := "CCTUI_SUPERVISOR_SELFTEST_SECCOMP".

Definition run (c : Cli) : prog Ans (result string Ended) :=
  selftest ← call (OEnv SELFTEST_ENV : Op);
  match selftest with
  | Some _ => selftest_seccomp
  | None =>
    if c_dry_run c then _ ← call (OEnv LANDLOCK_STRICT_ENV : Op); Ret (Ok Returned)
    else match c_command c with
         | [] => Ret (Err "no command provided")
         | _ =>
           env ← call (OEnv LANDLOCK_STRICT_ENV : Op);
           confine c (landlock_strict (c_strict c) env)
         end
  end.
End Programs.
