(* ===== verification/SupervisorFacts.v ===== *)
(** * What the supervisor guarantees

    When the payload is executed, everything the options ask for has been
    applied, in the order that keeps it effective; what the file system rules
    allow; and which subtrees keep the right to execute. *)

From stdpp Require Import base decidable sets list gmap strings.
From Stdlib Require Import Lia ZArith Bool String.
From S2P Require Import Prelude RustStr Http Json Prog Spawn Seccomp Supervisor.

Open Scope string_scope.
Open Scope list_scope.
Open Scope rust_scope.
Open Scope prog_scope.

Abbreviation event := (Prog.event Ans).
Abbreviation ev := (Prog.ev (Ans := Ans)).

Section Confinement.
Context `{Seccompiler, Landlock} (arch : Arch) (debug : string → string).

(** ** The calls of a successful step *)

Definition guard_calls (abi : Abi) (socket reply : string) : list event :=
  [ev ONoNewPrivs (Ok tt); ev (OInstallListener (exec_program abi)) (Ok tt);
   ev (OConnect socket) (Ok tt); ev OReadTimeout (Ok tt); ev OWriteTimeout (Ok tt);
   ev OSendFd (Ok tt); ev OReadReply (Ok reply)].

Definition landlock_calls (grants : list Grant) (status : RulesetStatus) : list event :=
  [ev (OHandleAccess (from_all TARGET_ABI)) (Ok tt); ev OCreateRuleset (Ok tt)] ++
  ((λ g, ev (OAddRules g) (Ok tt)) <$> grants) ++ [ev ORestrictSelf (Ok status)].

Definition clear_calls (sets : list CapSet) : list event :=
  (λ set, ev (OClearCaps set) (Ok tt)) <$> sets.

Definition caps_calls (root : bool) : list event :=
  ev OIsRoot root ::
  (if root then clear_calls [Ambient; Bounding; Inheritable]
   else ev ONoNewPrivs (Ok tt) :: clear_calls [Ambient; Inheritable]).

Definition switch_calls (uid : N) (ru rg : N * N * N) (groups : result string unit) : list event :=
  [ev OGetresuid (Ok ru); ev OGetresgid (Ok rg)] ++
  match plan_switch ru rg uid with
  | SDrop => [ev OSetgroups groups; ev (OSetgid uid) (Ok tt); ev (OSetresgid uid) (Ok tt);
              ev (OSetresuid uid) (Ok tt)]
  | _ => []
  end.

Definition is_exec (op : Op) : bool := match op with OExecvp _ _ => true | _ => false end.

(** A call that only looks at or creates directories. *)
Definition is_fs (e : event) : bool :=
  match projT1 e with
  | OIsDir _ | OLstat _ | OCreateDir _ | OChown _ _ | OIsRoot => true
  | _ => false
  end.

(** ** Each step *)

(** The guard has the listener and said so. *)
Definition guarded (c : Cli) (on : bool) (calls : list event) : Prop :=
  match c_guard_exec c with
  | None => on = false ∧ calls = []
  | Some socket =>
    on = true ∧ ∃ abi reply, native arch = Some abi ∧ parse_ack reply = Ok tt ∧
      calls = guard_calls abi socket reply
  end.

(** Capabilities are cleared, and all three uids and gids are the worker's or
    have just been set to them. *)
Definition dropped (c : Cli) (calls : list event) : Prop :=
  if c_no_privdrop c then calls = []
  else ∃ root ru rg groups, calls = caps_calls root ++ switch_calls (c_user c) ru rg groups ∧
       ∀ g, plan_switch ru rg (c_user c) ≠ WrongGroup g.

(** The filter installed, and the calls it blocks. *)
Definition filtered (c : Cli) (blocked : list string) (calls : list event) : Prop :=
  if c_no_seccomp c then blocked = [] ∧ calls = []
  else ∃ p, build arch (c_user c) = Ok (p, blocked) ∧ calls = [ev (OApplyFilter p) (Ok tt)].

(** What a report says of the answer to [restrict_self]. *)
Definition landlock_text (status : RulesetStatus) : string :=
  match status with
  | FullyEnforced => "V5 (fully-enforced)"
  | PartiallyEnforced => "V5 (partially-enforced)"
  | NotEnforced => "unavailable"
  end.

(** The directories on the way from [cur] down [below]. *)
Fixpoint walk_paths (cur : string) (below : list Component) : list string :=
  match below with
  | [] => []
  | c :: below => push_component cur c :: walk_paths (push_component cur c) below
  end.

(** Seen as a directory that is no link, or just created. *)
Definition real_dir (calls : list event) (path : string) : Prop :=
  ev (OLstat path) (Ok true) ∈ calls ∨
  (∃ t, ev (OLstat path) (Err (NotFound t)) ∈ calls) ∧ ev (OCreateDir path) (Ok tt) ∈ calls.

(** An entry keeps the right to execute only beneath a writable root, reached
    through real directories. *)
Definition vetted (rw : list string) (calls : list event) (entry : string) : Prop :=
  ∃ root below, exec_root rw entry = Some root ∧ path_strip root entry = Some below ∧
    ev (OIsDir root) true ∈ calls ∧ Forall (real_dir calls) (walk_paths root below).

Lemma real_dir_mono calls calls' path :
  calls ⊆ calls' → real_dir calls path → real_dir calls' path.
Proof. unfold real_dir. set_solver. Qed.

Lemma vetted_mono rw calls calls' entry :
  calls ⊆ calls' → vetted rw calls entry → vetted rw calls' entry.
Proof.
  intros Hs (root & below & E1 & E2 & Hd & Hw). exists root, below. split_and!; [done|done|set_solver|].
  eapply Forall_impl; [exact Hw|]. intros path. by apply real_dir_mono.
Qed.

Section Steps.
Context (I : list event → Op → Prop).
Hypothesis others : ∀ pre op, is_exec op = false → I pre op.

(** A step that adds [calls] when it succeeds. *)
Definition ends {E A} (pre : list event) (P : A → list event → Prop)
    (tr : list event) (r : result E A) : Prop :=
  match r with Ok a => ∃ calls, tr = pre ++ calls ∧ P a calls | Err _ => True end.

Lemma step_try {E A B} (p : prog Ans (result E A)) (f : A → prog Ans (result E B)) pre P Q :
  wpc I p pre (ends pre P) → (∀ a calls, P a calls → wpc I (f a) (pre ++ calls) Q) →
  (∀ tr e, Q tr (Err e)) → wpc I (try_bind p f) pre Q.
Proof.
  intros Hp Hf He. apply wpc_try. eapply wpc_mono; [|exact Hp].
  intros tr [a|e]; cbn; [|by auto]. intros (calls & -> & HP). by apply Hf.
Qed.

Lemma step_context {A} c (p : prog Ans (result string A)) pre P :
  wpc I p pre (ends pre P) → wpc I (with_context c p) pre (ends pre P).
Proof. intros Hp. apply wpc_bind. eapply wpc_mono; [|exact Hp]. by intros tr [a|e]. Qed.

Lemma step_ret {E A} (a : A) pre (P : A → list event → Prop) :
  P a [] → wpc I (Ret (Ok a) : prog Ans (result E A)) pre (ends pre P).
Proof. intros HP. cbn. exists []. by rewrite app_nil_r. Qed.

Lemma step_weaken {E A} (p : prog Ans (result E A)) pre (P P' : A → list event → Prop) :
  wpc I p pre (ends pre P) → (∀ a calls, P a calls → P' a calls) → wpc I p pre (ends pre P').
Proof.
  intros Hp HP. eapply wpc_mono; [|exact Hp]. intros tr [a|e]; cbn; [|done].
  intros (calls & -> & HQ). eauto.
Qed.

(** The calls of a step that continues another. *)
Lemma ends_app {E A} pre calls (P P' : A → list event → Prop) tr (r : result E A) :
  ends (pre ++ calls) P tr r → (∀ a calls', P a calls' → P' a (calls ++ calls')) →
  ends pre P' tr r.
Proof.
  destruct r as [a|e]; cbn; [|done]. intros (calls' & -> & HP) HP'.
  exists (calls ++ calls'). rewrite app_assoc. auto.
Qed.

Lemma step_then {E A B} (p : prog Ans (result E A)) (f : A → prog Ans (result E B)) pre P P' :
  wpc I p pre (ends pre P) →
  (∀ a calls, P a calls →
     wpc I (f a) (pre ++ calls) (ends (pre ++ calls) (λ b calls', P' b (calls ++ calls')))) →
  wpc I (try_bind p f) pre (ends pre P').
Proof.
  intros Hp Hf. eapply step_try; [exact Hp| |done]. intros a calls HP.
  eapply wpc_mono; [|by apply Hf]. intros tr r Hr. by eapply ends_app.
Qed.

Ltac ask := cbn [wpc call]; split; [by apply others|]; intros [?|?]; cbn; [|done];
  eexists; (split; [reflexivity|]).

Lemma wpc_grants grants pre :
  wpc I (add_grants grants) pre
    (ends pre (λ _ calls, calls = (λ g, ev (OAddRules g) (Ok tt)) <$> grants)).
Proof.
  revert pre. induction grants as [|g grants IH]; intros pre; cbn [add_grants]; [by apply step_ret|].
  eapply (step_then _ _ _ (λ _ calls, calls = [ev (OAddRules g) (Ok tt)])).
  - apply step_context. ask. by destruct a.
  - intros _ calls ->. eapply step_weaken; [apply IH|]. by intros _ calls ->.
Qed.

Lemma wpc_clear sets pre :
  wpc I (clear_sets sets) pre (ends pre (λ _ calls, calls = clear_calls sets)).
Proof.
  revert pre. induction sets as [|set sets IH]; intros pre; cbn [clear_sets]; [by apply step_ret|].
  eapply (step_then _ _ _ (λ _ calls, calls = [ev (OClearCaps set) (Ok tt)])).
  - apply step_context. ask. by destruct a.
  - intros _ calls ->. eapply step_weaken; [apply IH|]. by intros _ calls ->.
Qed.

Lemma wpc_apply_with ro rw exec_rw on pre :
  wpc I (apply_with ro rw exec_rw on) pre
    (ends pre (λ outcome calls, ∃ status,
       calls = landlock_calls (plan ro rw exec_rw on) status ∧
       describe outcome = landlock_text status ∧
       (is_enforced outcome = false → status = NotEnforced) ∧
       (status = NotEnforced → is_enforced outcome = false))).
Proof.
  unfold apply_with.
  eapply (step_then _ _ _ (λ _ calls, calls = [ev (OHandleAccess (from_all TARGET_ABI)) (Ok tt)])).
  { apply step_context. ask. by destruct a. }
  intros _ calls ->. eapply (step_then _ _ _ (λ _ calls, calls = [ev OCreateRuleset (Ok tt)])).
  { apply step_context. ask. by destruct a. }
  intros _ calls ->. eapply step_then; [apply wpc_grants|]. intros _ calls ->.
  eapply (step_then _ _ _ (λ st calls, calls = [ev ORestrictSelf (Ok st)])).
  { apply step_context. by ask. }
  intros st calls ->. apply step_ret. exists st. cbn. split; [done|]. by destruct st.
Qed.

Lemma wpc_landlock strict ro rw exec_rw on pre :
  wpc I (apply_landlock strict ro rw exec_rw on) pre
    (ends pre (λ outcome calls, ∃ status,
       calls = landlock_calls (plan ro rw exec_rw on) status ∧
       describe outcome = landlock_text status ∧
       (status = NotEnforced → strict = false ∧ on = false))).
Proof.
  unfold apply_landlock. eapply step_then; [apply wpc_apply_with|].
  intros outcome calls (status & -> & Hd & H1 & H2). destruct (is_enforced outcome) eqn:Ee.
  - apply step_ret. exists status. rewrite app_nil_r. split; [done|]. split; [done|]. intros ->. by specialize (H2 eq_refl).
  - destruct strict; [done|]. destruct on; [done|]. apply step_ret. exists status.
    by rewrite app_nil_r.
Qed.

Lemma wpc_guard c pre :
  wpc I (arm_exec_guard arch c) pre (ends pre (λ on calls, guarded c on calls)).
Proof.
  unfold arm_exec_guard, guarded. destruct (c_guard_exec c) as [socket|]; [|by apply step_ret].
  eapply (step_then _ _ _ (λ _ calls, ∃ abi, native arch = Some abi ∧
    calls = [ev ONoNewPrivs (Ok tt); ev (OInstallListener (exec_program abi)) (Ok tt)])).
  { apply step_context. unfold install. destruct (native arch) as [abi|]; [|done].
    eapply (step_then _ _ _ (λ _ calls, calls = [ev ONoNewPrivs (Ok tt)])).
    - apply step_context. ask. by destruct a.
    - intros _ calls ->. apply step_context. ask. exists abi. by destruct a. }
  intros _ calls (abi & Ea & ->).
  eapply (step_then _ _ _ (λ _ calls, ∃ reply, parse_ack reply = Ok tt ∧
    calls = [ev (OConnect socket) (Ok tt); ev OReadTimeout (Ok tt); ev OWriteTimeout (Ok tt);
             ev OSendFd (Ok tt); ev OReadReply (Ok reply)])).
  2:{ intros _ calls (reply & Hr & ->). apply step_ret. split; [done|]. by exists abi, reply. }
  apply step_context. unfold hand_off.
  eapply (step_then _ _ _ (λ _ calls, calls = [ev (OConnect socket) (Ok tt)])).
  { apply step_context. ask. by destruct a. }
  intros _ calls ->. eapply (step_then _ _ _ (λ _ calls, calls = [ev OReadTimeout (Ok tt)])).
  { apply step_context. ask. by destruct a. }
  intros _ calls ->. eapply (step_then _ _ _ (λ _ calls, calls = [ev OWriteTimeout (Ok tt)])).
  { apply step_context. ask. by destruct a. }
  intros _ calls ->. eapply (step_then _ _ _ (λ _ calls, calls = [ev OSendFd (Ok tt)])).
  { apply step_context. ask. by destruct a. }
  intros _ calls ->. eapply (step_then _ _ _ (λ r calls, calls = [ev OReadReply (Ok r)])).
  { apply step_context. by ask. }
  intros reply calls ->. destruct (parse_ack reply) as [[]|e] eqn:Er; [|done].
  apply step_ret. by exists reply.
Qed.

Lemma wpc_switch uid pre :
  wpc I (switch_user uid) pre
    (ends pre (λ _ calls, ∃ ru rg groups, calls = switch_calls uid ru rg groups ∧
                          ∀ g, plan_switch ru rg uid ≠ WrongGroup g)).
Proof.
  unfold switch_user. eapply (step_then _ _ _ (λ ru calls, calls = [ev OGetresuid (Ok ru)])).
  { apply step_context. by ask. }
  intros ru calls ->. eapply (step_then _ _ _ (λ rg calls, calls = [ev OGetresgid (Ok rg)])).
  { apply step_context. by ask. }
  intros rg calls ->. destruct (plan_switch ru rg uid) eqn:Ep; [|by apply step_ret; exists ru, rg, (Ok tt); unfold switch_calls; rewrite Ep|done].
  cbn [mbind prog_mbind prog_bind call wpc]. split; [by apply others|]. intros groups.
  eapply wpc_mono; [|eapply (step_then _ _ _ (λ _ calls, calls = [ev (OSetgid uid) (Ok tt)])
    (λ _ calls, calls = [ev (OSetgid uid) (Ok tt); ev (OSetresgid uid) (Ok tt);
                         ev (OSetresuid uid) (Ok tt)]))].
  - intros tr r Hr. eapply ends_app; [exact Hr|]. intros _ calls ->. exists ru, rg, groups.
    unfold switch_calls. by rewrite Ep.
  - apply step_context. ask. by destruct a.
  - intros _ calls ->. eapply (step_then _ _ _ (λ _ calls, calls = [ev (OSetresgid uid) (Ok tt)])).
    { apply step_context. ask. by destruct a. }
    intros _ calls ->. eapply (step_then _ _ _ (λ _ calls, calls = [ev (OSetresuid uid) (Ok tt)])).
    { apply step_context. ask. by destruct a. }
    intros _ calls ->. by apply step_ret.
Qed.

Lemma wpc_dropped c pre :
  wpc I (drop_privileges c) pre
    (ends pre (λ done calls, dropped c calls ∧ done = negb (c_no_privdrop c))).
Proof.
  unfold drop_privileges, dropped. destruct (c_no_privdrop c); [by apply step_ret|].
  eapply (step_then _ _ _ (λ _ calls, ∃ root, calls = caps_calls root)).
  { apply step_context. unfold drop_capabilities. cbn [mbind prog_mbind prog_bind call wpc].
    split; [by apply others|]. intros [].
    - eapply wpc_mono; [|apply wpc_clear]. intros tr r Hr. eapply ends_app; [exact Hr|].
      intros _ calls ->. by exists true.
    - eapply wpc_mono; [|eapply (step_then _ _ _ (λ _ calls, calls = [ev ONoNewPrivs (Ok tt)])
          (λ _ calls, calls = ev ONoNewPrivs (Ok tt) :: clear_calls [Ambient; Inheritable]))].
      + intros tr r Hr. eapply ends_app; [exact Hr|]. intros _ calls ->. by exists false.
      + apply step_context. ask. by destruct a.
      + intros _ calls ->. eapply step_weaken; [apply wpc_clear|]. by intros _ calls ->. }
  intros _ calls (root & ->).
  eapply (step_then _ _ _ (λ _ calls, ∃ ru rg groups, calls = switch_calls (c_user c) ru rg groups ∧
            ∀ g, plan_switch ru rg (c_user c) ≠ WrongGroup g)).
  2:{ intros _ calls (ru & rg & groups & -> & Hg). apply step_ret. split; [|done]. exists root, ru, rg, groups.
      rewrite app_nil_r. done. }
  apply step_context, wpc_switch.
Qed.

Lemma wpc_filtered c pre :
  wpc I (filter_syscalls arch c) pre
    (ends pre (λ r calls, filtered c r.2 calls ∧ r.1 = negb (c_no_seccomp c))).
Proof.
  unfold filter_syscalls, filtered. destruct (c_no_seccomp c); [by apply step_ret|].
  eapply (step_then _ _ _ (λ names calls, ∃ p, build arch (c_user c) = Ok (p, names) ∧
            calls = [ev (OApplyFilter p) (Ok tt)])).
  - apply step_context. unfold apply_seccomp.
    destruct (build arch (c_user c)) as [[p names]|e] eqn:Eb; [|done].
    eapply (step_then _ _ _ (λ _ calls, calls = [ev (OApplyFilter p) (Ok tt)])).
    + apply step_context. ask. by destruct a.
    + intros _ calls ->. apply step_ret. exists p. by rewrite app_nil_r.
  - intros names calls (p & Hb & ->). apply step_ret. rewrite app_nil_r.
    split; [by exists p|done].
Qed.

Lemma wpc_report path r pre :
  wpc I (write_report path r) pre
    (ends pre (λ _ calls, calls = match path with
                                  | None => []
                                  | Some path => [ev (OWriteReport path r) (Ok tt)]
                                  end)).
Proof.
  unfold write_report. destruct path as [path|]; [|by apply step_ret]. ask. by destruct a.
Qed.

(** ** Executable subtrees *)

Lemma wpc_walk owner below : ∀ cur pre,
  wpc I (walk_beneath owner cur below) pre
    (ends pre (λ keep calls, Forall (λ e, is_fs e = true) calls ∧
       (keep = true → Forall (real_dir calls) (walk_paths cur below)))).
Proof.
  induction below as [|c below IH]; intros cur pre; [by apply step_ret|]. cbn [walk_beneath].
  cbn [mbind prog_mbind prog_bind call wpc]. split; [by apply others|].
  set (next := push_component cur c).
  assert (∀ (first : list event), Forall (λ e, is_fs e = true) first → real_dir first next →
    ∀ pre, wpc I (walk_beneath owner next below) (pre ++ first)
      (ends pre (λ keep calls, Forall (λ e, is_fs e = true) calls ∧
         (keep = true → Forall (real_dir calls) (next :: walk_paths next below))))) as Hnext.
  { intros first Hfs Hd pre'. eapply wpc_mono; [|apply IH]. intros tr r Hr.
    eapply ends_app; [exact Hr|]. intros keep calls [Hf Hk]. split; [by apply Forall_app|].
    intros Ek. constructor; [eapply real_dir_mono; [|exact Hd]; set_solver|].
    eapply Forall_impl; [exact (Hk Ek)|]. intros x. apply real_dir_mono. set_solver. }
  intros [[]|[t|t]].
  - apply Hnext; [by repeat constructor|]. left. by left.
  - exists [ev (OLstat next) (Ok false)]. split; [done|]. split; [by repeat constructor|done].
  - apply wpc_try. cbn [call wpc]. split; [by apply others|]. intros [[]|e]; [|done].
    rewrite <-app_assoc. cbn [app].
    assert (real_dir [ev (OLstat next) (Err (NotFound t)); ev (OCreateDir next) (Ok tt)] next) as Hd.
    { right. split; [exists t; by left|right; by left]. }
    destruct owner as [uid|]; [|by apply Hnext; [repeat constructor|]].
    apply wpc_try. cbn [call wpc]. split; [by apply others|]. intros [[]|e]; [|done].
    rewrite <-app_assoc. cbn [app]. apply Hnext; [by repeat constructor|].
    eapply real_dir_mono; [|exact Hd]. set_solver.
  - done.
Qed.

Lemma wpc_create root path owner pre :
  wpc I (create_beneath root path owner) pre
    (ends pre (λ keep calls, Forall (λ e, is_fs e = true) calls ∧
       (keep = true → ∃ below, path_strip root path = Some below ∧
          ev (OIsDir root) true ∈ calls ∧ Forall (real_dir calls) (walk_paths root below)))).
Proof.
  unfold create_beneath. cbn [mbind prog_mbind prog_bind call wpc]. split; [by apply others|].
  intros []; cbn [negb].
  - destruct (path_strip root path) as [below|] eqn:Eb.
    + eapply wpc_mono; [|apply wpc_walk]. intros tr r Hr. eapply ends_app; [exact Hr|].
      intros keep calls [Hf Hk]. split; [apply Forall_app; by repeat constructor|]. intros Ek.
      exists below. split; [done|]. split; [set_solver|].
      eapply Forall_impl; [exact (Hk Ek)|]. intros x. apply real_dir_mono. set_solver.
    + exists [ev (OIsDir root) true]. split; [done|]. split; [by repeat constructor|done].
  - exists [ev (OIsDir root) false]. split; [done|]. split; [by repeat constructor|done].
Qed.

Lemma wpc_prepare exec_rw rw owner pre :
  wpc I (prepare_exec_rw exec_rw rw owner) pre
    (ends pre (λ kept calls, Forall (λ e, is_fs e = true) calls ∧ sublist kept exec_rw ∧
       Forall (vetted rw calls) kept)).
Proof.
  revert pre. induction exec_rw as [|entry exec_rw IH]; intros pre; cbn [prepare_exec_rw].
  { apply step_ret. split; [constructor|]. split; constructor. }
  destruct (exec_root rw entry) as [root|] eqn:Er.
  2:{ eapply step_weaken; [apply IH|]. intros kept calls (H1 & H2 & H3). split; [done|].
      split; [by constructor|done]. }
  eapply step_then; [apply wpc_create|]. intros keep calls [Hf Hk].
  eapply step_then; [apply IH|]. intros kept calls' (H1 & H2 & H3). apply step_ret.
  rewrite app_nil_r. split; [by apply Forall_app|].
  assert (Forall (vetted rw (calls ++ calls')) kept) as Hv.
  { eapply Forall_impl; [exact H3|]. intros e. apply vetted_mono. set_solver. }
  destruct keep; [|split; [by constructor|done]]. split; [by constructor|]. constructor; [|done].
  destruct (Hk eq_refl) as (below & Eb & Hd & Hw). exists root, below.
  split_and!; [done|done|set_solver|]. eapply Forall_impl; [exact Hw|].
  intros x. apply real_dir_mono. set_solver.
Qed.

Definition subtrees (c : Cli) (on : bool) (exec_rw : list string) (calls : list event) : Prop :=
  Forall (λ e, is_fs e = true) calls ∧
  if on then sublist exec_rw (exec_rw_paths c) ∧ Forall (vetted (rw_paths c) calls) exec_rw
  else exec_rw = [] ∧ calls = [].

Lemma wpc_subtrees c on pre :
  wpc I (if (on : bool) then exec_subtrees c (rw_paths c) else Ret (Ok [])) pre
    (ends pre (λ exec_rw calls, subtrees c on exec_rw calls)).
Proof.
  destruct on; [|by apply step_ret]. unfold exec_subtrees. apply wpc_bind.
  assert (∀ owner pre', wpc I (kept ← prepare_exec_rw (exec_rw_paths c) (rw_paths c) owner;
      Ret (context "preparing the executable RW subtrees" (map_err io_text kept))) pre'
    (ends pre' (λ exec_rw calls, subtrees c true exec_rw calls))) as Hprep.
  { intros owner pre'. apply wpc_bind. eapply wpc_mono; [|apply wpc_prepare].
    intros tr [kept|e]; cbn; [|done]. intros (calls & -> & Hf & Hs & Hv). exists calls.
    by repeat split. }
  destruct (c_no_privdrop c); cbn [wpc call]; [apply Hprep|]. split; [by apply others|].
  intros root. eapply wpc_mono; [|apply Hprep]. intros tr r Hr. eapply ends_app; [exact Hr|].
  intros kept calls (Hf & Hs & Hv). split; [by constructor|]. split; [done|].
  eapply Forall_impl; [exact Hv|]. intros e. apply vetted_mono. set_solver.
Qed.
End Steps.

(** ** The payload *)

(** What the report says is what was done: every field of it. *)
Definition truthful (c : Cli) (strict on : bool) (exec_rw : list string) (status : RulesetStatus)
    (blocked : list string) (r : Report) : Prop :=
  r = {| r_landlock := landlock_text status; r_landlock_strict := strict;
         r_seccomp_applied := negb (c_no_seccomp c); r_seccomp_blocked := blocked;
         r_caps_dropped := negb (c_no_privdrop c); r_uid := c_user c;
         r_ro_paths := ro_paths c; r_rw_paths := rw_paths c; r_command := c_command c;
         r_exec_guarded := on; r_exec_rw_paths := exec_rw |}.

Definition report_calls (c : Cli) (r : Report) : list event :=
  match c_report c with None => [] | Some path => [ev (OWriteReport path r) (Ok tt)] end.

(** The calls before the payload: the guard, the executable subtrees, the file
    system rules, the identity, the filter, the report, in this order and each
    with success. *)
Definition confined (c : Cli) (strict : bool) (prog : string) (argv : list string)
    (pre : list event) : Prop :=
  ∃ on exec_rw guard_seg fs_seg status priv_seg blocked filter_seg r,
    pre = guard_seg ++ fs_seg ++
          landlock_calls (plan (ro_paths c) (rw_paths c) exec_rw on) status ++
          priv_seg ++ filter_seg ++ report_calls c r ∧
    guarded c on guard_seg ∧ subtrees c on exec_rw fs_seg ∧
    (status = NotEnforced → strict = false ∧ c_guard_exec c = None) ∧
    dropped c priv_seg ∧ filtered c blocked filter_seg ∧
    truthful c strict on exec_rw status blocked r ∧
    argv = c_command c ∧ head argv = Some prog.

Lemma cstring_same s x : cstring s = Ok x → x = s.
Proof. unfold cstring. destruct (nul_at 0 s); [done|]. by intros [= <-]. Qed.

Lemma collect_cstring l argv : collect (cstring <$> l) = Ok argv → argv = l.
Proof.
  revert argv. induction l as [|s l IH]; intros argv; cbn; [by intros [= <-]|].
  destruct (cstring s) as [x|e] eqn:Ec; cbn; [|done]. apply cstring_same in Ec as ->.
  destruct (collect (cstring <$> l)) as [xs|e]; [|done]. cbn. intros [= <-]. by rewrite (IH xs eq_refl).
Qed.

Lemma wpc_selftest I pre (Q : list event → result string Ended → Prop) :
  (∀ pre op, is_exec op = false → I pre op) → (∀ tr r, Q tr r) →
  wpc I (selftest_seccomp arch) pre Q.
Proof.
  intros Hot HQ. unfold selftest_seccomp.
  eapply (step_try I _ _ _ (λ _ _, True)); [|intros names calls _|by auto].
  - apply step_context. unfold apply_seccomp. destruct (build arch 1000) as [[p names]|e]; [|done].
    eapply (step_then I _ _ _ (λ _ _, True)); [|by intros _ calls _; apply step_ret].
    apply step_context. cbn. split; [by apply Hot|]. intros [a|e]; [|done]. by eexists.
  - cbn [mbind prog_mbind prog_bind call wpc]. split; [by apply Hot|]. by intros r.
Qed.

Lemma wpc_exec I command pre :
  (∀ prog, head command = Some prog → I pre (OExecvp prog command)) →
  wpc I (exec_payload debug command) pre (λ _ _, True).
Proof.
  intros HI. unfold exec_payload. destruct command as [|name args]; [done|].
  unfold context. destruct (cstring name) as [prog|e] eqn:Ec; [|done]. cbn [map_err].
  destruct (collect _) as [argv|e] eqn:Ea; [|done]. cbn [map_err mbind prog_mbind prog_bind call wpc].
  apply collect_cstring in Ea as ->. split; [|done]. apply HI.
  by apply cstring_same in Ec as ->.
Qed.

Lemma wpc_confine c strict first :
  let I pre op := match op with
                  | OExecvp prog argv => ∃ pre', pre = first ++ pre' ∧ confined c strict prog argv pre'
                  | _ => True
                  end in
  wpc I (confine arch debug c strict) first (λ _ _, True).
Proof.
  intros I. assert (∀ pre op, is_exec op = false → I pre op) as Hot by (by intros pre []).
  unfold confine. eapply step_try; [by apply wpc_guard| |done]. intros on g Hg.
  eapply step_try; [by apply wpc_subtrees| |done]. intros exec_rw fs Hfs.
  eapply step_try; [by apply wpc_landlock| |done]. intros outcome ll (status & -> & Hll & Hst).
  eapply step_try; [by apply wpc_dropped| |done]. intros caps priv [Hp Ecaps].
  eapply step_try; [by apply wpc_filtered| |done]. intros [sec blocked] fl [Hf Esec]. cbn [fst snd] in *.
  eapply step_try; [by apply wpc_report| |done]. intros [] rep Erep.
  apply wpc_exec. intros prog Hprog. cbn [I]. rewrite <-!app_assoc. eexists. split; [reflexivity|].
  eexists on, exec_rw, g, fs, status, priv, blocked, fl, _. split; [do 5 f_equal; exact Erep|].
  split; [done|]. split; [done|]. split; [|split; [done|]; split; [done|]; split; [|done]].
  2:{ unfold truthful. by rewrite Hll, Ecaps, Esec. }
  intros E. destruct (Hst E) as [-> ->]. split; [done|].
  unfold guarded in Hg. destruct (c_guard_exec c); [by destruct Hg|done].
Qed.

(** C4. The payload is executed only after everything the options ask for has
    succeeded, in order: the guard holds the exec filter and said so, the file
    system rules are installed (a kernel without them stops the run unless the
    operator opted out and no guard is asked for), capabilities are cleared and
    the worker's identity is taken before the system call filter is installed,
    and the report is written, each of whose fields states what was done: how far
    the kernel enforced the file system rules, the calls the installed filter
    blocks, the directories kept executable, the identity and the rest. *)
Theorem payload_confined c tr r before prog argv err rest :
  runs (run arch debug c) tr r → tr = before ++ ev (OExecvp prog argv) err :: rest →
  ∃ env pre, before = [ev (OEnv SELFTEST_ENV) None; ev (OEnv LANDLOCK_STRICT_ENV) env] ++ pre ∧
    confined c (landlock_strict (c_strict c) env) prog argv pre.
Proof.
  intros Hr E.
  refine (wpc_call (λ pre op, match op with
    | OExecvp prog argv => ∃ env pre',
        pre = [ev (OEnv SELFTEST_ENV) None; ev (OEnv LANDLOCK_STRICT_ENV) env] ++ pre' ∧
        confined c (landlock_strict (c_strict c) env) prog argv pre'
    | _ => True end) _ [] (λ _ _, True) tr r before (OExecvp prog argv) err rest _ Hr E).
  unfold run. cbn [mbind prog_mbind prog_bind call wpc]. split; [done|]. intros [t|].
  { apply wpc_selftest; [by intros ? []|done]. }
  destruct (c_dry_run c); [done|]. destruct (c_command c) eqn:Ec; [done|].
  cbn [mbind prog_mbind prog_bind call wpc]. split; [done|]. intros env.
  eapply wpc_allow; [|apply (wpc_confine c _ [ev (OEnv SELFTEST_ENV) None;
                                              ev (OEnv LANDLOCK_STRICT_ENV) env])].
  intros pre []; try done. intros (pre' & -> & Hc). by exists env, pre'.
Qed.
End Confinement.

(** ** File system rights *)

(** What a process may do at a path: the union of the rules at or above it. *)
Definition beneath (paths : list string) (path : string) : Prop :=
  ∃ p, p ∈ paths ∧ path_starts_with p path = true.

Definition granted (grants : list Grant) (path right : string) : Prop :=
  ∃ g, g ∈ grants ∧ beneath (g_paths g) path ∧ right ∈ g_access g.

Section Rights.
Context `{LandlockLaws}.

Lemma granted_plan ro rw exec_rw on path right :
  granted (plan ro rw exec_rw on) path right ↔
  (beneath ro path ∧ right ∈ from_read TARGET_ABI) ∨
  (beneath rw path ∧ right ∈ (if on then from_all TARGET_ABI ∖ {["Execute"]} else from_all TARGET_ABI)) ∨
  (on = true ∧ beneath exec_rw path ∧ right = "Execute").
Proof.
  unfold granted, plan. split.
  - intros (g & Hg & Hb & Hr). apply elem_of_app in Hg as [Hg|Hg].
    + apply elem_of_cons in Hg as [->|Hg]; [by left|].
      apply list_elem_of_singleton in Hg as ->. right. by left.
    + destruct on; [|by apply elem_of_nil in Hg]. cbn in Hg.
      destruct (bool_decide (exec_rw = [])); [by apply elem_of_nil in Hg|].
      apply list_elem_of_singleton in Hg as ->. right. right.
      split_and!; [done|done|set_solver].
  - intros [[Hb Hr]|[[Hb Hr]|(-> & Hb & ->)]].
    + eexists. split; [apply elem_of_app; left; by left|done].
    + eexists. split; [apply elem_of_app; left; right; by left|done].
    + destruct (bool_decide (exec_rw = [])) eqn:Ee.
      { apply bool_decide_eq_true in Ee as ->. destruct Hb as (p & Hp & _). by apply elem_of_nil in Hp. }
      eexists. split; [apply elem_of_app; right; by left|]. split; [done|]. set_solver.
Qed.

(** Under the exec guard a path may be executed exactly beneath the read-only
    paths and the kept subtrees, and written exactly beneath the writable
    paths: the grant that gives execution back adds no right to write. *)
Theorem guarded_rights ro rw exec_rw path right :
  (granted (plan ro rw exec_rw true) path "Execute" ↔ beneath ro path ∨ beneath exec_rw path) ∧
  (right ∈ from_write TARGET_ABI →
   granted (plan ro rw exec_rw true) path right ↔ beneath rw path).
Proof.
  pose proof (read_executes TARGET_ABI) as Hx. pose proof (read_write_disjoint TARGET_ABI) as Hd.
  split; [|intros Hw]; rewrite granted_plan; unfold from_all; [set_solver|].
  assert (right ≠ "Execute") by set_solver. set_solver.
Qed.
End Rights.

(** ** Concrete runs *)

(** Some rights of the fifth ABI. *)
#[export] Instance abi5 : Landlock := {|
  from_read _ := {["Execute"; "ReadFile"; "ReadDir"]};
  from_write _ := {["WriteFile"; "RemoveFile"; "MakeReg"; "IoctlDev"]}
|}.

#[export] Instance abi5_laws : LandlockLaws (H := abi5).
Proof. split; intros abi; cbn; set_solver. Qed.

Lemma guarded_rights_witness :
  granted (plan ["/usr"] ["/workspace"; "/tmp"] ["/workspace"] true) "/tmp/x" "WriteFile" ↔
  beneath ["/workspace"; "/tmp"] "/tmp/x".
Proof.
  refine (proj2 (guarded_rights ["/usr"] ["/workspace"; "/tmp"] ["/workspace"] "/tmp/x" "WriteFile") _).
  cbn. set_solver.
Defined.

Definition worker_cli : Cli :=
  mk_cli [] [] 1000 (Some "/report.json") false false false (Some "/run/guard.sock") [] false false
    ["claude"; "--bg"].

(** A root start on a kernel that grants everything, with a guard that accepts. *)
Definition all_well (op : Op) : Ans op :=
  match op return Ans op with
  | OEnv _ => None
  | OIsDir _ | OIsRoot => true
  | OReadReply => Ok "ok"
  | ORestrictSelf => Ok FullyEnforced
  | OLstat _ => Ok true
  | OCreateDir _ | OChown _ _ => Ok tt
  | OGetresuid | OGetresgid => Ok (0, 0, 0)%N
  | OUnshare => Ok tt
  | OExecvp _ _ => "No such file or directory"
  | _ => Ok tt
  end.

Definition worker_run := simulate all_well (run X86_64_target (λ s, s) worker_cli).

Lemma payload_confined_witness :
  ∃ env pre,
    take (List.length worker_run.1 - 1) worker_run.1 =
      [ev (OEnv SELFTEST_ENV) None; ev (OEnv LANDLOCK_STRICT_ENV) env] ++ pre ∧
    confined X86_64_target worker_cli (landlock_strict (c_strict worker_cli) env)
      "claude" ["claude"; "--bg"] pre.
Proof.
  refine (payload_confined X86_64_target (λ s, s) worker_cli worker_run.1 worker_run.2 _
            "claude" ["claude"; "--bg"] "No such file or directory" [] (simulate_runs _ _) _).
  rewrite <-(take_drop (List.length worker_run.1 - 1) worker_run.1) at 1. f_equal.
Defined.

(** ** The dispatch *)

(** A payload the dispatcher accepts cannot name the variable that makes a
    missing Landlock acceptable, in any case of letters. *)
Lemma payload_cannot_relax payload env name :
  check_payload_env payload = Ok tt → jget "env" payload ≫= as_object = Some env →
  name ∈ env.*1 → to_ascii_uppercase name ≠ LANDLOCK_STRICT_ENV.
Proof.
  unfold check_payload_env, first_reserved. intros Hc E Hin Hn. rewrite E in Hc.
  destruct (List.find _ env.*1) eqn:Ef; [done|].
  apply list_elem_of_In in Hin. pose proof (List.find_none _ _ Ef name Hin) as Hf. cbn in Hf.
  unfold is_reserved_env_key, is_dispatcher_owned in Hf. by rewrite Hn in Hf.
Qed.
