(* ===== verification/HookPolicy.v ===== *)
(** * Hook policies

    [hook_policy.rs] of [cctui-proto]: the rules a session is launched with,
    how a list of them is normalised, and how a spawned session's additions
    join the rules it inherits. *)

From stdpp Require Import base decidable list strings.
From Stdlib Require Import Lia Bool String.
From S2P Require Import Prelude RustStr.

Open Scope string_scope.
Open Scope list_scope.
Open Scope rust_scope.

Definition MAX_COMMAND_BYTES : nat := 4096.
Definition MAX_RULES : nat := 64.
Definition MAX_TIMEOUT_SECS : N := 600.

Inductive HookEvent := SessionStart | UserPromptSubmit | PreToolUse | PostToolUse | Stop.
Inductive ToolClass := Shell | FileEdit | FileWrite | Subagent | AnyTool.

#[export] Instance HookEvent_eq_dec : EqDecision HookEvent.
Proof. solve_decision. Defined.
#[export] Instance ToolClass_eq_dec : EqDecision ToolClass.
Proof. solve_decision. Defined.

Definition takes_tool (e : HookEvent) : bool :=
  match e with PreToolUse | PostToolUse => true | _ => false end.

Record HookRule := mk_rule {
  hr_event : HookEvent;
  hr_tool : ToolClass;
  hr_command : string;
  hr_timeout : option N
}.

#[export] Instance HookRule_eq_dec : EqDecision HookRule.
Proof. solve_decision. Defined.

Record HookPolicy := mk_hooks { hp_rules : list HookRule }.

Inductive HookPolicyStatus := Applied | Unsupported.

Record SessionHookPolicy := mk_policy {
  sp_rules : list HookRule;
  sp_status : option HookPolicyStatus
}.

Definition supports_hook_policy (adapter : string) : bool :=
  (adapter ==s "claude-code") || (adapter ==s "codex").

(** ** Normalisation *)

Definition bad_timeout (t : option N) : bool :=
  match t with Some t => (t =? 0)%N || (MAX_TIMEOUT_SECS <? t)%N | None => false end.

Definition clean_rule (command : string) (r : HookRule) : HookRule :=
  mk_rule (hr_event r) (if takes_tool (hr_event r) then hr_tool r else AnyTool) command
    (hr_timeout r).

Definition push_new (r : HookRule) (out : list HookRule) : list HookRule :=
  if decide (r ∈ out) then out else out ++ [r].

Fixpoint normalize_go (rules out : list HookRule) : result string (list HookRule) :=
  match rules with
  | [] =>
    if (MAX_RULES <? List.length out)%nat
    then Err ("at most " ++s nat_to_string MAX_RULES ++s " hook rules") else Ok out
  | r :: rules =>
    let command := trim (hr_command r) in
    if is_empty command then normalize_go rules out
    else if (MAX_COMMAND_BYTES <? String.length command)%nat
    then Err ("hook command longer than " ++s nat_to_string MAX_COMMAND_BYTES ++s " bytes")
    else if bad_timeout (hr_timeout r)
    then Err ("hook timeout must be 1..=" ++s u32_to_string MAX_TIMEOUT_SECS ++s " seconds")
    else normalize_go rules (push_new (clean_rule command r) out)
  end.

Definition normalize_rules (rules : list HookRule) : result string (list HookRule) :=
  normalize_go rules [].

(** ** Inheritance *)

Definition NO_DIRECT_HARNESS_COMMAND : string :=
  "cctui-daemon hook-shim no-direct-harness || exit 2".
Definition NO_DIRECT_HARNESS_TIMEOUT_SECS : N := 10.

Definition no_direct_harness_rule : HookRule :=
  mk_rule PreToolUse Shell NO_DIRECT_HARNESS_COMMAND (Some NO_DIRECT_HARNESS_TIMEOUT_SECS).

Inductive AddOnlyError := Weakens (r : HookRule) | Invalid (reason : string).

Definition event_text (e : HookEvent) : string :=
  match e with
  | SessionStart => "SessionStart"
  | UserPromptSubmit => "UserPromptSubmit"
  | PreToolUse => "PreToolUse"
  | PostToolUse => "PostToolUse"
  | Stop => "Stop"
  end.

Definition add_only_text (e : AddOnlyError) : string :=
  match e with
  | Weakens r =>
    "hook rules are add-only: `" ++s hr_command r ++s "` on " ++s event_text (hr_event r) ++s
    " is inherited with a timeout of " ++s
    match hr_timeout r with None => "the default" | Some t => u32_to_string t ++s "s" end ++s
    " and cannot be restated with another one"
  | Invalid reason => reason
  end.

Definition same_rule (a b : HookRule) : bool :=
  bool_decide (hr_event a = hr_event b) && bool_decide (hr_tool a = hr_tool b) &&
  (hr_command a ==s hr_command b).

(** The inherited rule that the first offending addition restates. *)
Fixpoint weakened (inherited additions : list HookRule) : option HookRule :=
  match additions with
  | [] => None
  | a :: additions =>
    if decide (a ∈ inherited) then weakened inherited additions
    else match List.find (λ r, same_rule r a) inherited with
         | Some r => Some r
         | None => weakened inherited additions
         end
  end.

Definition effective_rules (inherited additions : list HookRule)
  : result AddOnlyError (list HookRule) :=
  inherited ← map_err Invalid (normalize_rules inherited);
  additions ← map_err Invalid (normalize_rules additions);
  match weakened inherited additions with
  | Some r => Err (Weakens r)
  | None => map_err Invalid (normalize_rules (inherited ++ additions))
  end.

(** ** Facts *)

(** A text is its own trim once trimmed. *)
Lemma trim_start_prefix x w : trim_start (x ++s w) = x ++s w → trim_start x = x.
Proof.
  assert (∀ y, (String.length (trim_start y) ≤ String.length y)%nat) as Hle.
  { intros y. remember (String.length y) as n eqn:Hn. revert y Hn.
    induction (lt_wf n) as [n _ IH]. intros y ->. destruct y as [|a y]; [done|]. cbn [trim_start].
    destruct (ws1 a); [etrans; [apply (IH (String.length y)); cbn; lia|cbn; lia]|].
    destruct y as [|b y]; [done|].
    destruct (ws2 a b); [etrans; [apply (IH (String.length y)); cbn; lia|cbn; lia]|].
    destruct y as [|d y]; [done|].
    destruct (ws3 a b d); [etrans; [apply (IH (String.length y)); cbn; lia|cbn; lia]|done]. }
  destruct x as [|a x]; [done|]. cbn [String.append trim_start].
  destruct (ws1 a).
  { intros H. apply (f_equal String.length) in H. specialize (Hle (x ++s w)). cbn in H. lia. }
  destruct x as [|b x]; [done|]. cbn [String.append]. destruct (ws2 a b).
  { intros H. apply (f_equal String.length) in H. specialize (Hle (x ++s w)). cbn in H. lia. }
  destruct x as [|d x]; [done|]. cbn [String.append]. destruct (ws3 a b d); [|done].
  intros H. apply (f_equal String.length) in H. specialize (Hle (x ++s w)). cbn in H. lia.
Qed.

Lemma trim_start_idemp s : trim_start (trim_start s) = trim_start s.
Proof.
  remember (String.length s) as n eqn:Hn. revert s Hn.
  induction (lt_wf n) as [n _ IH]. intros s ->. destruct s as [|a s]; [done|].
  cbn [trim_start]. destruct (ws1 a) eqn:E1; [apply (IH (String.length s)); cbn; lia|].
  destruct s as [|b s]; [cbn; by rewrite E1|].
  destruct (ws2 a b) eqn:E2; [apply (IH (String.length s)); cbn; lia|].
  destruct s as [|d s]; [cbn; by rewrite E1, E2|].
  destruct (ws3 a b d) eqn:E3; [apply (IH (String.length s)); cbn; lia|].
  cbn [trim_start]. by rewrite E1, E2, E3.
Qed.

Lemma trim_idemp s : trim (trim s) = trim s.
Proof.
  unfold trim. destruct (trim_end_split (trim_start s)) as (w & Hw & _).
  rewrite (trim_start_prefix (trim_end (trim_start s)) w), trim_end_idemp; [done|].
  rewrite <-Hw. apply trim_start_idemp.
Qed.

(** *** What normalisation accepts and returns *)

Definition acceptable (r : HookRule) : bool :=
  is_empty (trim (hr_command r)) ||
  ((String.length (trim (hr_command r)) <=? MAX_COMMAND_BYTES)%nat &&
   negb (bad_timeout (hr_timeout r))).

Definition cleaned (r : HookRule) : option HookRule :=
  if is_empty (trim (hr_command r)) then None else Some (clean_rule (trim (hr_command r)) r).

(** The rules of a list as they are kept, the first of equal ones. *)
Definition collect (rules out : list HookRule) : list HookRule :=
  foldl (λ out r, push_new r out) out (omap cleaned rules).

Lemma normalize_go_spec rules out res :
  normalize_go rules out = Ok res ↔
  forallb acceptable rules = true ∧ res = collect rules out ∧
  (List.length res ≤ MAX_RULES)%nat.
Proof.
  revert out. induction rules as [|r rules IH]; intros out; cbn [normalize_go forallb].
  - unfold collect. cbn [omap list_omap foldl]. destruct (MAX_RULES <? List.length out)%nat eqn:E.
    + apply Nat.ltb_lt in E. split; [done|]. intros (_ & -> & ?). lia.
    + apply Nat.ltb_ge in E. split; [intros [= <-]; done|]. by intros (_ & -> & _).
  - unfold collect, acceptable, cleaned in *. cbn [omap list_omap].
    destruct (is_empty (trim (hr_command r))) eqn:Ee; cbn [orb andb]; [apply IH|].
    destruct (MAX_COMMAND_BYTES <? String.length (trim (hr_command r)))%nat eqn:El.
    { apply Nat.ltb_lt in El. split; [done|]. intros (H & _). apply andb_prop in H as [H _].
      apply andb_prop in H as [H _]. apply Nat.leb_le in H. lia. }
    apply Nat.ltb_ge in El. rewrite (proj2 (Nat.leb_le _ _)) by done. cbn [andb].
    destruct (bad_timeout (hr_timeout r)); cbn [negb andb]; [split; [done|by intros [? _]]|].
    apply IH.
Qed.

Lemma normalize_spec rules res :
  normalize_rules rules = Ok res ↔
  forallb acceptable rules = true ∧ res = collect rules [] ∧
  (List.length res ≤ MAX_RULES)%nat.
Proof. apply normalize_go_spec. Qed.

Lemma push_new_elem r out x : x ∈ push_new r out ↔ x = r ∨ x ∈ out.
Proof.
  unfold push_new. destruct (decide (r ∈ out)) as [H|H]; [naive_solver|].
  rewrite elem_of_app, list_elem_of_singleton. tauto.
Qed.

Lemma collect_cons r rules out :
  collect (r :: rules) out =
  collect rules (match cleaned r with Some r => push_new r out | None => out end).
Proof. unfold collect. cbn [omap list_omap]. by destruct (cleaned r). Qed.

Lemma collect_app a b out : collect (a ++ b) out = collect b (collect a out).
Proof. unfold collect. by rewrite omap_app, foldl_app. Qed.

Lemma collect_prefix rules out : out `prefix_of` collect rules out.
Proof.
  revert out. induction rules as [|r rules IH]; intros out; [done|]. rewrite collect_cons.
  etrans; [|apply IH]. destruct (cleaned r) as [r'|]; [|done]. unfold push_new.
  destruct (decide (r' ∈ out)); [done|by apply prefix_app_r].
Qed.

Lemma collect_elem rules out x :
  x ∈ collect rules out ↔ x ∈ out ∨ ∃ r, r ∈ rules ∧ cleaned r = Some x.
Proof.
  revert out. induction rules as [|r rules IH]; intros out.
  - split; [by left|]. intros [?|(r & Hr%elem_of_nil & _)]; done.
  - rewrite collect_cons, IH. setoid_rewrite elem_of_cons.
    destruct (cleaned r) as [r'|] eqn:E; [rewrite push_new_elem|]; naive_solver.
Qed.

Lemma collect_nodup rules out : NoDup out → NoDup (collect rules out).
Proof.
  revert out. induction rules as [|r rules IH]; intros out Hout; [done|]. rewrite collect_cons.
  apply IH. destruct (cleaned r) as [r'|]; [|done]. unfold push_new.
  destruct (decide (r' ∈ out)); [done|]. apply NoDup_app. split; [done|].
  split; [|apply NoDup_singleton]. by intros x Hx ->%list_elem_of_singleton.
Qed.

Lemma filter_ext_elem {A} (P Q : A → Prop) `{∀ x, Decision (P x), ∀ x, Decision (Q x)} (l : list A) :
  (∀ x, x ∈ l → P x ↔ Q x) → filter P l = filter Q l.
Proof.
  induction l as [|x l IH]; intros H1; [done|]. rewrite !filter_cons.
  rewrite (IH (λ y Hy, H1 y (list_elem_of_further y x l Hy))).
  destruct (decide (P x)) as [?|?], (decide (Q x)) as [?|?]; try done; exfalso;
    destruct (H1 x (list_elem_of_here x l)); tauto.
Qed.

Lemma filter_all {A} (P : A → Prop) `{∀ x, Decision (P x)} (l : list A) :
  (∀ x, x ∈ l → P x) → filter P l = l.
Proof.
  induction l as [|x l IH]; intros H1; [done|]. rewrite filter_cons, decide_True by (apply H1; left).
  f_equal. apply IH. intros y Hy. apply H1. by right.
Qed.

(** A rule as a normalised list holds it. *)
Definition normal (r : HookRule) : Prop := cleaned r = Some r ∧ acceptable r = true.

Lemma cleaned_normal r x : cleaned r = Some x → acceptable r = true → normal x.
Proof.
  unfold normal, cleaned, acceptable, clean_rule.
  destruct (is_empty (trim (hr_command r))) eqn:E; [done|]. intros [= <-] H.
  cbn [hr_command hr_event hr_tool hr_timeout orb] in *. rewrite trim_idemp, E. cbn [orb].
  split; [|done]. by destruct (takes_tool (hr_event r)).
Qed.

Lemma normalize_normal rules out :
  normalize_rules rules = Ok out →
  Forall normal out ∧ NoDup out ∧ (List.length out ≤ MAX_RULES)%nat.
Proof.
  rewrite normalize_spec. intros (Hok & -> & Hlen). split_and!; [|by apply collect_nodup, NoDup_nil_2|done].
  apply Forall_forall. intros x [?%elem_of_nil|(r & Hr & Hx)]%collect_elem; [done|].
  eapply cleaned_normal; [done|]. rewrite forallb_forall in Hok. by apply Hok, list_elem_of_In.
Qed.

Lemma forallb_normal rules : Forall normal rules → forallb acceptable rules = true.
Proof. induction 1 as [|r rules [_ Hr] _ IH]; [done|]. cbn. by rewrite Hr, IH. Qed.

Lemma collect_normal rules out :
  Forall normal rules → NoDup rules → collect rules out = out ++ filter (λ r, r ∉ out) rules.
Proof.
  intros Hn. revert out. induction Hn as [|r rules [Hr _] _ IH]; intros out Hd.
  - unfold collect. cbn. by rewrite app_nil_r.
  - apply NoDup_cons in Hd as [Hnot Hd]. rewrite collect_cons, Hr, filter_cons. unfold push_new.
    destruct (decide (r ∈ out)) as [Hin|Hin].
    + rewrite decide_False by tauto. by apply IH.
    + rewrite decide_True by done. rewrite IH by done. rewrite <-app_assoc. f_equal. cbn. f_equal.
      apply filter_ext_elem. intros x Hx. rewrite elem_of_app, list_elem_of_singleton.
      split; [tauto|]. intros Hnx [?| ->]; [by apply Hnx|by apply Hnot].
Qed.

Lemma normalize_id rules :
  Forall normal rules → NoDup rules → (List.length rules ≤ MAX_RULES)%nat →
  normalize_rules rules = Ok rules.
Proof.
  intros Hn Hd Hl. apply normalize_spec. rewrite collect_normal by done. split_and!; [|..|done].
  - by apply forallb_normal.
  - cbn [app]. symmetry. apply filter_all. intros x _. by intros ?%elem_of_nil.
Qed.

(** *** Joining additions to inherited rules *)

Lemma same_rule_true a b :
  same_rule a b = true ↔
  hr_event a = hr_event b ∧ hr_tool a = hr_tool b ∧ hr_command a = hr_command b.
Proof. unfold same_rule. rewrite !andb_true_iff, !bool_decide_eq_true, String.eqb_eq. tauto. Qed.

Lemma weakened_None inherited additions :
  weakened inherited additions = None ↔
  ∀ a r, a ∈ additions → r ∈ inherited → same_rule r a = true → a ∈ inherited.
Proof.
  induction additions as [|a additions IH]; cbn [weakened].
  - split; [by intros _ a r ?%elem_of_nil|done].
  - setoid_rewrite elem_of_cons. destruct (decide (a ∈ inherited)) as [Hin|Hin].
    { rewrite IH. naive_solver. }
    destruct (List.find _ inherited) as [r|] eqn:E.
    + split; [done|]. intros H. apply find_some in E as [Hr%list_elem_of_In Hs].
      by destruct Hin; eapply H; [by left|..].
    + rewrite IH. split; [|naive_solver]. intros H x r [->|Hx] Hr Hs; [|by eapply H].
      exfalso. by rewrite (find_none _ _ E r (proj1 (list_elem_of_In _ _) Hr)) in Hs.
Qed.

Lemma weakened_Some inherited additions r :
  weakened inherited additions = Some r →
  r ∈ inherited ∧ (∃ a, a ∈ additions ∧ (a ∉ inherited) ∧ same_rule r a = true).
Proof.
  induction additions as [|a additions IH]; [done|]. cbn [weakened].
  destruct (decide (a ∈ inherited)) as [Hin|Hin].
  { intros (? & x & ? & ?)%IH. split; [done|]. exists x. by split; [right|]. }
  destruct (List.find _ inherited) as [r'|] eqn:E.
  - intros [= <-]. apply find_some in E as [Hr%list_elem_of_In Hs]. split; [done|].
    exists a. by split; [left|].
  - intros (? & x & ? & ?)%IH. split; [done|]. exists x. by split; [right|].
Qed.

Lemma map_err_Ok {E F A} (f : E → F) (r : result E A) a : map_err f r = Ok a ↔ r = Ok a.
Proof. destruct r; cbn; naive_solver. Qed.

(** What the rules of a launch are when they inherit: all the inherited rules,
    first and in their order, then the additions that are new.  An addition
    that names an inherited rule must be that rule. *)
Definition adds_to (inherited additions out : list HookRule) : Prop :=
  out = inherited ++ filter (λ a, a ∉ inherited) additions ∧
  (∀ a r, a ∈ additions → r ∈ inherited → same_rule r a = true → a ∈ inherited) ∧
  (List.length out ≤ MAX_RULES)%nat.

Lemma effective_rules_adds inherited additions out :
  effective_rules inherited additions = Ok out ↔
  ∃ i a, normalize_rules inherited = Ok i ∧ normalize_rules additions = Ok a ∧ adds_to i a out.
Proof.
  unfold effective_rules. destruct (normalize_rules inherited) as [i|] eqn:Ei; cbn;
    [|split; [done|by intros (? & ? & ? & _)]].
  destruct (normalize_rules additions) as [a|] eqn:Ea; cbn;
    [|split; [done|by intros (? & ? & _ & ? & _)]].
  apply normalize_normal in Ei as (Ni & Di & _), Ea as (Na & Da & _). unfold adds_to.
  transitivity (weakened i a = None ∧ normalize_rules (i ++ a) = Ok out).
  { destruct (weakened i a); [naive_solver|]. rewrite map_err_Ok. naive_solver. }
  rewrite weakened_None, normalize_spec, collect_app.
  rewrite (collect_normal i []), (collect_normal a) by done. cbn [app].
  rewrite (filter_all _ i) by (by intros x _ ?%elem_of_nil).
  rewrite (forallb_normal (i ++ a)) by (by apply Forall_app). naive_solver.
Qed.

(** The inherited rules are always a prefix of the rules of the launch. *)
Lemma effective_rules_prefix inherited additions out :
  effective_rules inherited additions = Ok out →
  ∃ i, normalize_rules inherited = Ok i ∧ i `prefix_of` out.
Proof.
  intros (i & a & Hi & _ & -> & _)%effective_rules_adds. exists i. split; [done|].
  by apply prefix_app_r.
Qed.

(** [effective_rules] on every input: the inherited rules with the new ones
    behind them, or an inherited rule that an addition restates differently, or
    no list within the limits. *)
Theorem additions_only_add inherited additions :
  match effective_rules inherited additions with
  | Ok out =>
    ∃ i a, normalize_rules inherited = Ok i ∧ normalize_rules additions = Ok a ∧ adds_to i a out
  | Err (Weakens r) =>
    ∃ i a x, normalize_rules inherited = Ok i ∧ normalize_rules additions = Ok a ∧
      r ∈ i ∧ x ∈ a ∧ (x ∉ i) ∧ same_rule r x = true
  | Err (Invalid _) =>
    ∀ i a, normalize_rules inherited = Ok i → normalize_rules additions = Ok a →
      (MAX_RULES < List.length (i ++ filter (λ x, x ∉ i) a))%nat
  end.
Proof.
  destruct (effective_rules inherited additions) as [out|e] eqn:E; [by apply effective_rules_adds|].
  destruct e as [r|reason].
  - unfold effective_rules in E. destruct (normalize_rules inherited) as [i|]; [|discriminate].
    cbn [mbind result_bind map_err] in E.
    destruct (normalize_rules additions) as [a|]; cbn [mbind result_bind map_err] in E; [|discriminate].
    destruct (weakened i a) as [r'|] eqn:Ew; [|destruct (normalize_rules (i ++ a)); discriminate].
    injection E as ->. apply weakened_Some in Ew as (Hr & x & Hx & Hn & Hs). by exists i, a, x.
  - intros i a Hi Ha. apply Nat.nle_gt. intros Hlen.
    assert (weakened i a = None) as Hw.
    { unfold effective_rules in E. rewrite Hi, Ha in E. cbn [mbind result_bind map_err] in E.
      by destruct (weakened i a). }
    assert (effective_rules inherited additions = Ok (i ++ filter (λ x, x ∉ i) a)) as H; [|congruence].
    apply effective_rules_adds. exists i, a. split_and!; [done..|]. split_and!; [done| |done].
    by apply weakened_None.
Qed.
