(* ===== verification/Launch.v ===== *)
(** * Launches on a machine

    The launch side of [cctui-server-core/src/hook_policy.rs], the launch
    records of [machine_launches.rs], and [launch_durable] of [launch.rs].
    [LaunchDb] holds the two tables that remember the hook policy of a launch.
    The rows a query over the account tables returns are arguments, a failed
    statement is [Err], and what the bus answers is an argument. *)

From stdpp Require Import base decidable list strings gmap.
From Stdlib Require Import Lia Bool String ZArith.
From S2P Require Import Prelude RustStr Json HookPolicy.

Open Scope string_scope.
Open Scope list_scope.
Open Scope rust_scope.

(** ** Permission modes and specs ([cctui-proto/src/adapter.rs]) *)

Inductive PermissionMode := Yolo | Auto | Ask | Whip.

#[export] Instance PermissionMode_eq_dec : EqDecision PermissionMode.
Proof. solve_decision. Defined.

(** ask < auto < yolo = whip. *)
Definition rank (m : PermissionMode) : N :=
  match m with Ask => 0 | Auto => 1 | Yolo | Whip => 2 end.

Definition mode_within (m ceiling : PermissionMode) : bool := (rank m <=? rank ceiling)%N.

Definition stricter (a b : PermissionMode) : PermissionMode :=
  if (rank b <? rank a)%N then b else a.

Definition from_session_label (s : string) : option PermissionMode :=
  let s := trim s in
  if (s ==s "ask") || (s ==s "default") || (s ==s "plan") then Some Ask
  else if (s ==s "auto") || (s ==s "acceptEdits") then Some Auto
  else if (s ==s "yolo") || (s ==s "bypassPermissions") then Some Yolo
  else if s ==s "whip" then Some Whip
  else None.

Definition normalized_label (m : PermissionMode) : string :=
  match m with Ask => "default" | Auto => "auto" | Yolo | Whip => "yolo" end.

Record SessionSpec := mk_spec {
  adapter_id : string;
  working_dir : option string;
  sp_prompt : option string;
  sp_name : option string;
  permission_mode : option PermissionMode;
  effort : option string;
  model : option string;
  service_tier : option string;
  sp_env : gmap string string;
  bootstrap : Value;
  parent_local_id : option string;
  hook_policy : option HookPolicy
}.

Definition set_hook_policy (p : option HookPolicy) (s : SessionSpec) : SessionSpec :=
  mk_spec (adapter_id s) (working_dir s) (sp_prompt s) (sp_name s) (permission_mode s) (effort s)
    (model s) (service_tier s) (sp_env s) (bootstrap s) (parent_local_id s) p.

(** ** Launch records *)

Inductive LaunchState :=
  Prepared | Delivered | Accepted | Refused | DeliveryFailed | Registered.

#[export] Instance LaunchState_eq_dec : EqDecision LaunchState.
Proof. solve_decision. Defined.

Record FailedSpawnRow := mk_failed {
  fs_session_id : string;
  fs_machine_id : string;
  fs_user_id : string;
  fs_adapter_id : string;
  fs_working_dir : string;
  fs_name : option string;
  fs_model : option string;
  fs_effort : option string
}.

(** A stored policy, or a value that does not decode as one. *)
Inductive Stored := Unreadable | Stores (p : SessionHookPolicy).

Record Launch := mk_launch {
  command_id : string;
  session_id : string;
  registered_session_id : option string;
  machine_id : string;
  user_id : string;
  acting_user_id : string;
  l_adapter : string;
  l_working_dir : string;
  l_name : option string;
  l_model : option string;
  l_effort : option string;
  l_state : LaunchState;
  l_detail : option string;
  l_created : Z;
  l_policy : option Stored
}.

Definition failed_row (l : Launch) : FailedSpawnRow :=
  mk_failed (session_id l) (machine_id l) (user_id l) (l_adapter l) (l_working_dir l) (l_name l)
    (l_model l) (l_effort l).

Definition launch_failed (l : Launch) : bool :=
  match l_state l with Refused | DeliveryFailed => true | _ => false end.

Definition set_state (st : LaunchState) (detail registered : option string) (l : Launch) : Launch :=
  mk_launch (command_id l) (session_id l) registered (machine_id l) (user_id l)
    (acting_user_id l) (l_adapter l) (l_working_dir l) (l_name l) (l_model l) (l_effort l) st
    detail (l_created l) (l_policy l).

Definition set_policy (p : option Stored) (l : Launch) : Launch :=
  mk_launch (command_id l) (session_id l) (registered_session_id l) (machine_id l) (user_id l)
    (acting_user_id l) (l_adapter l) (l_working_dir l) (l_name l) (l_model l) (l_effort l)
    (l_state l) (l_detail l) (l_created l) p.

(** The tables [machine_launches] and [session_hook_policies]. *)
Record LaunchDb := mk_launches {
  launches : list Launch;
  policies : gmap string (Stored * Z)
}.

Definition update_where (p : Launch → bool) (f : Launch → Launch) (db : LaunchDb) : LaunchDb :=
  mk_launches ((λ l, if p l then f l else l) <$> launches db) (policies db).

Definition is_command (c : string) (l : Launch) : bool := command_id l ==s c.

(** Both ids are unique in the table. *)
Definition prepare (command actor : string) (row : FailedSpawnRow) (now : Z) (db : LaunchDb)
  : option LaunchDb :=
  if existsb (λ l, is_command command l || (session_id l ==s fs_session_id row)) (launches db)
  then None
  else Some (mk_launches
    (launches db ++
     [mk_launch command (fs_session_id row) None (fs_machine_id row) (fs_user_id row) actor
        (fs_adapter_id row) (fs_working_dir row) (fs_name row) (fs_model row) (fs_effort row)
        Prepared None now None]) (policies db)).

Definition is_state (st : LaunchState) (l : Launch) : bool := bool_decide (l_state l = st).

Definition delivered (command : string) : LaunchDb → LaunchDb :=
  update_where (λ l, is_command command l && is_state Prepared l)
    (λ l, set_state Delivered (l_detail l) (registered_session_id l) l).

Definition delivery_failed (command detail : string) : LaunchDb → LaunchDb :=
  update_where (λ l, is_command command l && is_state Prepared l)
    (λ l, set_state DeliveryFailed (Some detail) (registered_session_id l) l).

Definition settles (command machine owner : string) (l : Launch) : bool :=
  is_command command l && (machine_id l ==s machine) && (user_id l ==s owner) &&
  (is_state Prepared l || is_state Delivered l || is_state Accepted l).

(** The launch that was settled, as it is after. *)
Definition verdict (command machine owner : string) (ok : bool) (detail : option string)
  (db : LaunchDb) : LaunchDb * option Launch :=
  let f l := set_state (if ok then Accepted else Refused) detail (registered_session_id l) l in
  (update_where (settles command machine owner) f db,
   f <$> List.find (settles command machine owner) (launches db)).

Definition registers (key session machine owner : string) (l : Launch) : bool :=
  (session_id l ==s key) && (machine_id l ==s machine) && (user_id l ==s owner) &&
  match registered_session_id l with None => true | Some s => s ==s session end &&
  negb (launch_failed l).

Definition registered (key session machine owner : string) : LaunchDb → LaunchDb :=
  update_where (registers key session machine owner)
    (λ l, set_state Registered (l_detail l) (Some session) l).

Definition find (identity : string) (actor : option string) (db : LaunchDb) : option Launch :=
  List.find (λ l,
    (is_command identity l || (session_id l ==s identity) ||
     bool_decide (registered_session_id l = Some identity)) &&
    match actor with None => true | Some a => acting_user_id l ==s a end) (launches db).

(** ** The rules of a launch ([hook_policy.rs]) *)

(** The user a mint acts for: the known one, or the first that the token, the
    session and the dispatch key name; a failed lookup names none. *)
Definition acting_user_in (known token session dispatch_key : option string) : option string :=
  match known with Some _ => known | None => or_else token (or_else session dispatch_key) end.

(** A row of [account_rules]'s query, one per account: its owner, the user the
    token was minted for, and its hooks ([None] when they do not decode). *)
Record AccountRow := mk_account {
  ar_owner : string;
  ar_minted_for : option string;
  ar_hooks : option (list HookRule)
}.

Definition merge_rules (stored : list (option (list HookRule))) : list HookRule :=
  match normalize_rules (List.concat (omap (λ v, v) stored)) with Ok rules => rules | Err _ => [] end.

Definition account_rules (rows : list AccountRow) (acting : option string) : list HookRule :=
  let fallback :=
    if existsb (λ r, match ar_minted_for r with None => true | Some _ => false end) rows
    then acting else None in
  merge_rules (ar_hooks <$>
    filter (λ r, or_else (ar_minted_for r) fallback = Some (ar_owner r)) rows).

Inductive HookPolicyError := Db | Rejected (reason : string).

Definition carry (adapter : string) (rules : list HookRule) : result string SessionHookPolicy :=
  rules ← normalize_rules (no_direct_harness_rule :: rules);
  Ok (mk_policy rules (Some (if supports_hook_policy adapter then Applied else Unsupported))).

(** The policy carried, and the spec that carries it. *)
Definition attach (spec : SessionSpec) (rules : list HookRule)
  : result string (SessionHookPolicy * SessionSpec) :=
  let all := match hook_policy spec with Some p => hp_rules p | None => [] end ++ rules in
  carried ← carry (adapter_id spec) all;
  Ok (carried, set_hook_policy (Some (mk_hooks (sp_rules carried))) spec).

Definition record (command : string) (carried : SessionHookPolicy) : LaunchDb → LaunchDb :=
  update_where (is_command command) (set_policy (Some (Stores carried))).

Definition record_for_session (session : string) (carried : SessionHookPolicy) (now : Z)
  (db : LaunchDb) : LaunchDb :=
  mk_launches (launches db) (<[session := (Stores carried, now)]> (policies db)).

(** The newest of some dated values; of equal ones, the first. *)
Fixpoint latest {A} (l : list (A * Z)) : option (A * Z) :=
  match l with
  | [] => None
  | x :: l =>
    match latest l with
    | Some y => Some (if (x.2 <? y.2)%Z then y else x)
    | None => Some x
    end
  end.

Definition launched_policy (session : string) (l : Launch) : option (Stored * Z) :=
  if (session_id l ==s session) || bool_decide (registered_session_id l = Some session)
  then (λ p, (p, l_created l)) <$> l_policy l else None.

Definition no_policy : SessionHookPolicy := mk_policy [] None.

Definition for_session (session : string) (db : LaunchDb) : SessionHookPolicy :=
  match latest (omap (launched_policy session) (launches db) ++
                option_list (policies db !! session)) with
  | Some (Stores p, _) => p
  | Some (Unreadable, _) | None => no_policy
  end.

(** [account]: what [account_rules] gives for the parent. *)
Definition inherited_rules (db : LaunchDb) (parent : string) (account : list HookRule)
  : list HookRule :=
  [no_direct_harness_rule] ++ sp_rules (for_session parent db) ++ account.

Definition rejected (e : AddOnlyError) : HookPolicyError := Rejected (add_only_text e).

Definition for_child (db : LaunchDb) (parent : string) (account : result HookPolicyError (list HookRule))
  (additions : list HookRule) : result HookPolicyError HookPolicy :=
  account ← account;
  mk_hooks <$> map_err rejected (effective_rules (inherited_rules db parent account) additions).

(** A fork: the spec it is launched with and the policy recorded under the
    child's key.  [written] is whether the record could be written. *)
Definition inherit_for_launch (db : LaunchDb) (parent child_key : string)
  (account : result HookPolicyError (list HookRule)) (written : bool) (now : Z) (spec : SessionSpec)
  : result HookPolicyError (SessionHookPolicy * SessionSpec * LaunchDb) :=
  policy ← for_child db parent account [];
  carried ← map_err Rejected (attach (set_hook_policy (Some policy) spec) []);
  if written then Ok (carried.1, carried.2, record_for_session child_key carried.1 now db)
  else Err Db.

(** *** Dispatched workers *)

(** The decoding and printing of rules as JSON. *)
Class HookJson := {
  rules_from_value : Value → result string (list HookRule);
  policy_from_value : Value → option HookPolicy;
  policy_to_value : HookPolicy → result string Value
}.

Definition DISPATCH_POLICY_FIELD : string := "hook_policy".
Definition DISPATCH_ADDITIONS_FIELD : string := "hook_rules".

Section dispatched.
Context `{HookJson}.

Definition from_dispatch_payload (payload : Value) : option HookPolicy :=
  match jget DISPATCH_POLICY_FIELD payload ≫= policy_from_value with
  | Some p => match hp_rules p with [] => None | _ => Some p end
  | None => None
  end.

Definition dispatch_additions (payload : Value) : result HookPolicyError (list HookRule) :=
  additions ←
    match jget DISPATCH_ADDITIONS_FIELD payload with
    | None | Some JNull => Ok []
    | Some raw =>
      map_err (λ e, Rejected ("invalid payload.hook_rules: " ++s e)) (rules_from_value raw)
    end;
  _ ← map_err rejected (effective_rules [no_direct_harness_rule] additions);
  Ok additions.

(** The payload and the tables after; the payload is changed in place, also
    when the call fails.  [account] is what [account_rules] gives. *)
Definition for_dispatch (session adapter : string) (account : result HookPolicyError (list HookRule))
  (written : bool) (now : Z) (payload : Value) (db : LaunchDb)
  : result HookPolicyError unit * Value * LaunchDb :=
  match dispatch_additions payload with
  | Err e => (Err e, payload, db)
  | Ok additions =>
    match as_object payload with
    | None => (Err (Rejected "dispatch payload must be an object"), payload, db)
    | Some obj =>
      let obj := obj_remove DISPATCH_ADDITIONS_FIELD (obj_remove DISPATCH_POLICY_FIELD obj) in
      let carried :=
        account ← account;
        rules ← map_err rejected (effective_rules (no_direct_harness_rule :: account) additions);
        map_err Rejected (carry adapter rules) in
      match carried with
      | Err e => (Err e, JObj obj, db)
      | Ok carried =>
        if written then
          let db := record_for_session session carried now db in
          match policy_to_value (mk_hooks (sp_rules carried)) with
          | Err e => (Err (Rejected e), JObj obj, db)
          | Ok v => (Ok tt, JObj (obj_insert DISPATCH_POLICY_FIELD v obj), db)
          end
        else (Err Db, JObj obj, db)
      end
    end
  end.

End dispatched.

(** ** Delivery ([launch.rs]) *)

Record MachineSpawn := mk_spawn {
  ms_machine_id : string;
  ms_command_id : string;
  ms_token_key : string;
  ms_spec : SessionSpec;
  ms_failed : FailedSpawnRow;
  ms_route_session : option string
}.

Inductive LaunchError :=
  Storage | Delivery (error : string) | LaunchRefused (detail : string) | PolicyRefused (reason : string).

Definition spawn_ids (adapter new_id command : string) : option string * string :=
  let pre := if adapter ==s "claude-code" then Some new_id else None in
  (pre, match pre with Some id => id | None => command end).

(** What one launch meets: whether its row, its policy and its outcome can be
    written, whether the bus takes the frame, and an early refusal. *)
Record LaunchIo := mk_io {
  io_account : result unit (list HookRule);
  io_prepared : bool;
  io_recorded : bool;
  io_sent : result string unit;
  io_refusal : option string;
  io_settled : bool
}.

(** [launch_machine]: the frame is offered to the bus in every case. *)
Definition launch_machine (io : LaunchIo) : result LaunchError unit :=
  match io_sent io with
  | Err error => Err (Delivery error)
  | Ok _ => match io_refusal io with None => Ok tt | Some detail => Err (LaunchRefused detail) end
  end.

(** The outcome, the spec offered to the bus if it got that far, the tables. *)
Definition launch_durable (actor : string) (spawn : MachineSpawn) (io : LaunchIo) (now : Z)
  (db : LaunchDb) : result LaunchError unit * option SessionSpec * LaunchDb :=
  let command := ms_command_id spawn in
  match io_account io with
  | Err _ => (Err Storage, None, db)
  | Ok rules =>
    match attach (ms_spec spawn) rules with
    | Err e => (Err (PolicyRefused e), None, db)
    | Ok (carried, spec) =>
      match (if io_prepared io then prepare command actor (ms_failed spawn) now db else None) with
      | None => (Err Storage, None, db)
      | Some db =>
        if io_recorded io then
          let db := record command carried db in
          let result := launch_machine io in
          match result with
          | Ok _ =>
            if io_settled io then (result, Some spec, delivered command db)
            else (Err Storage, Some spec, db)
          | Err (Delivery error) =>
            if io_settled io then (result, Some spec, delivery_failed command error db)
            else (Err Storage, Some spec, db)
          | Err _ => (result, Some spec, db)
          end
        else (Err Storage, None, db)
      end
    end
  end.
