(* ===== verification/LaunchFacts.v ===== *)
(** * What a launch carries

    The policy that reaches a worker is the one its record says, it starts with
    the side-door rule, and along any line of spawned sessions each one has all
    the rules of the ones above it, first and in their order. *)

From stdpp Require Import base decidable list strings gmap relations.
From Stdlib Require Import Lia Bool String ZArith.
From S2P Require Import Prelude RustStr Json HookPolicy Launch.

Open Scope string_scope.
Open Scope list_scope.
Open Scope rust_scope.

(** ** Carried policies *)

(** Rules as a launch carries them. *)
Definition carried_ok (rules : list HookRule) : Prop :=
  Forall normal rules ∧ NoDup rules ∧ (List.length rules ≤ MAX_RULES)%nat ∧
  head rules = Some no_direct_harness_rule.

Lemma side_door_normal : normal no_direct_harness_rule.
Proof. split; vm_compute; reflexivity. Qed.

Lemma normalize_cons_side_door rules out :
  normalize_rules (no_direct_harness_rule :: rules) = Ok out → carried_ok out.
Proof.
  intros H. pose proof H as (Hn & Hd & Hl)%normalize_normal. split_and!; [done..|].
  apply normalize_spec in H as (_ & -> & _). rewrite collect_cons, (proj1 side_door_normal).
  destruct (collect_prefix rules (push_new no_direct_harness_rule [])) as [t ->].
  unfold push_new. by rewrite decide_False by (by intros ?%elem_of_nil).
Qed.

Lemma carry_ok adapter rules p : carry adapter rules = Ok p → carried_ok (sp_rules p).
Proof.
  unfold carry. destruct (normalize_rules _) as [out|] eqn:E; [|done]. intros [= <-].
  by eapply normalize_cons_side_door.
Qed.

(** Normalising a list that starts with carried rules keeps them in front. *)
Lemma normalize_carried_prefix c rules out :
  carried_ok c → normalize_rules (no_direct_harness_rule :: c ++ rules) = Ok out →
  c `prefix_of` out.
Proof.
  intros (Hn & Hd & Hl & Hh). rewrite normalize_spec. intros (_ & -> & _).
  change (no_direct_harness_rule :: c ++ rules) with ([no_direct_harness_rule] ++ c ++ rules).
  rewrite !collect_app. etrans; [|apply collect_prefix]. destruct c as [|r c]; [done|].
  injection Hh as ->. rewrite (collect_normal (_ :: _)) by done.
  assert (collect [no_direct_harness_rule] [] = [no_direct_harness_rule]) as ->.
  { rewrite collect_normal; [|by apply Forall_singleton, side_door_normal|apply NoDup_singleton].
    cbn [app]. apply filter_all. by intros x _ ?%elem_of_nil. }
  apply NoDup_cons in Hd as [Hnot Hd]. rewrite filter_cons_False by (intros Hx; apply Hx; left).
  rewrite filter_all; [done|]. intros x Hx ->%list_elem_of_singleton. done.
Qed.

Lemma carry_prefix adapter c rules p :
  carried_ok c → carry adapter (c ++ rules) = Ok p → c `prefix_of` sp_rules p.
Proof.
  intros Hc. unfold carry. destruct (normalize_rules _) as [out|] eqn:E; [|done]. intros [= <-].
  by eapply normalize_carried_prefix.
Qed.

Lemma attach_spec spec rules p spec' :
  attach spec rules = Ok (p, spec') →
  carried_ok (sp_rules p) ∧ hook_policy spec' = Some (mk_hooks (sp_rules p)) ∧
  ∀ c, carried_ok c → (∃ q, hook_policy spec = Some q ∧ c `prefix_of` hp_rules q) →
       c `prefix_of` sp_rules p.
Proof.
  unfold attach. destruct (carry _ _) as [q|] eqn:E; [|done]. intros [= -> <-].
  split_and!; [by eapply carry_ok|done|]. intros c Hc (h & Hh & [t Ht]).
  rewrite Hh, Ht, <-app_assoc in E. by eapply carry_prefix.
Qed.

(** ** The tables *)

(** Every policy in the tables was carried by a launch. *)
Definition stored_ok (s : Stored) : Prop :=
  match s with Unreadable => True | Stores p => carried_ok (sp_rules p) end.

Definition launch_ok (l : Launch) : Prop :=
  match l_policy l with None => True | Some s => stored_ok s end.

Definition db_ok (db : LaunchDb) : Prop :=
  Forall launch_ok (launches db) ∧ map_Forall (λ _ s, stored_ok s.1) (policies db).

Lemma update_where_ok p f db :
  (∀ l, launch_ok l → launch_ok (f l)) → db_ok db → db_ok (update_where p f db).
Proof.
  intros Hf [Hl Hp]. split; [|done]. cbn. apply Forall_fmap. eapply Forall_impl; [done|].
  intros l H. cbn. destruct (p l); auto.
Qed.

Lemma prepare_ok c a row now db db' : prepare c a row now db = Some db' → db_ok db → db_ok db'.
Proof.
  unfold prepare. destruct (existsb _ _); [done|]. intros [= <-] [Hl Hp]. split; [|done]. cbn.
  apply Forall_app. split; [done|]. by apply Forall_singleton.
Qed.

Lemma record_ok c p db : carried_ok (sp_rules p) → db_ok db → db_ok (record c p db).
Proof. intros H. by apply update_where_ok. Qed.

Lemma record_for_session_ok s p now db :
  carried_ok (sp_rules p) → db_ok db → db_ok (record_for_session s p now db).
Proof. intros H [Hl Hp]. split; [done|]. by apply map_Forall_insert_2. Qed.

Lemma latest_elem {A} (l : list (A * Z)) x : latest l = Some x → x ∈ l.
Proof.
  revert x. induction l as [|y l IH]; intros x; [done|]. cbn [latest].
  destruct (latest l) as [z|]; [|intros [= <-]; left]. intros [= <-].
  destruct (y.2 <? z.2)%Z; [right; by apply IH|left].
Qed.

(** The policy of a session is the empty one or was carried by a launch. *)
Lemma for_session_ok s db :
  db_ok db → for_session s db = no_policy ∨ carried_ok (sp_rules (for_session s db)).
Proof.
  intros [Hl Hp]. unfold for_session. destruct (latest _) as [[[|p] t]|] eqn:E; [by left| |by left].
  right. apply latest_elem, elem_of_app in E as [E|E].
  - apply list_elem_of_omap in E as (l & Hin & Hx). rewrite Forall_forall in Hl.
    specialize (Hl l Hin). unfold launch_ok in Hl. unfold launched_policy in Hx.
    destruct (_ || _); [|done]. by destruct (l_policy l) as [q|]; [injection Hx as -> _|].
  - destruct (policies db !! s) as [q|] eqn:Eq; [|by apply elem_of_nil in E].
    apply list_elem_of_singleton in E as <-. by apply Hp in Eq.
Qed.

(** ** The operations *)

(** The tables a launch leaves are those before it, or the prepared row with the
    policy recorded, settled or not. *)
Definition settled (command : string) (db db' : LaunchDb) : Prop :=
  db' = db ∨ db' = delivered command db ∨ ∃ error, db' = delivery_failed command error db.

Lemma launch_durable_cases actor spawn io now db res sent db' :
  launch_durable actor spawn io now db = (res, sent, db') →
  (sent = None ∧ res ≠ Ok tt ∧
     (db' = db ∨ prepare (ms_command_id spawn) actor (ms_failed spawn) now db = Some db')) ∨
  (∃ rules p spec db1,
     sent = Some spec ∧ io_account io = Ok rules ∧ attach (ms_spec spawn) rules = Ok (p, spec) ∧
     prepare (ms_command_id spawn) actor (ms_failed spawn) now db = Some db1 ∧
     settled (ms_command_id spawn) (record (ms_command_id spawn) p db1) db').
Proof.
  unfold launch_durable. destruct (io_account io) as [rules|] eqn:Ea; [|intros [= <- <- <-]; by left; eauto].
  destruct (attach _ _) as [[p spec]|] eqn:Et; [|intros [= <- <- <-]; by left; eauto].
  destruct (io_prepared io); [|intros [= <- <- <-]; by left; eauto].
  destruct (prepare _ _ _ _ _) as [db1|] eqn:Ep; [|intros [= <- <- <-]; by left; eauto].
  destruct (io_recorded io); [|intros [= <- <- <-]; left; by eauto].
  intros H. right. exists rules, p, spec, db1. unfold settled.
  assert (sent = Some spec ∧ settled (ms_command_id spawn) (record (ms_command_id spawn) p db1) db')
    as [-> Hs]; [|by split_and!].
  unfold settled. destruct (launch_machine io) as [[]|[]], (io_settled io);
    injection H as <- <- <-; eauto 6.
Qed.

Lemma settled_ok c db db' : settled c db db' → db_ok db → db_ok db'.
Proof. intros [->|[->|[e ->]]] ?; [done|..]; by apply update_where_ok. Qed.

Lemma launch_durable_ok actor spawn io now db :
  db_ok db → db_ok (launch_durable actor spawn io now db).2.
Proof.
  intros Hok. destruct (launch_durable _ _ _ _ _) as [[res sent] db'] eqn:E. cbn.
  apply launch_durable_cases in E as [(_ & _ & [->|Hp])|(rules & p & spec & db1 & _ & _ & Ha & Hp & Hs)];
    [done|by eapply prepare_ok|].
  eapply settled_ok; [done|]. apply record_ok; [by eapply attach_spec|by eapply prepare_ok].
Qed.

Lemma inherit_for_launch_ok db parent key account written now spec p spec' db' :
  inherit_for_launch db parent key account written now spec = Ok (p, spec', db') →
  carried_ok (sp_rules p) ∧ hook_policy spec' = Some (mk_hooks (sp_rules p)) ∧
  db' = record_for_session key p now db ∧
  ∃ policy, for_child db parent account [] = Ok policy ∧
    ∀ c, carried_ok c → c `prefix_of` hp_rules policy → c `prefix_of` sp_rules p.
Proof.
  unfold inherit_for_launch. destruct (for_child _ _ _ _) as [policy|] eqn:Ef;
    cbn [mbind result_bind]; [|discriminate].
  destruct (attach _ _) as [[q s]|] eqn:E; cbn [mbind result_bind map_err fst snd]; [|discriminate].
  destruct written; [|discriminate]. intros [= -> -> <-]. apply attach_spec in E as (H1 & H2 & H3). split_and!; [done..|].
  exists policy. split; [done|]. intros c Hc Hp. apply H3; [done|]. by exists policy.
Qed.

(** What a child is given starts with its parent's recorded rules. *)
Lemma for_child_keeps db parent account additions policy :
  db_ok db → for_child db parent account additions = Ok policy →
  sp_rules (for_session parent db) `prefix_of` hp_rules policy.
Proof.
  intros Hok. unfold for_child. destruct account as [account|]; [|done]. cbn.
  destruct (effective_rules _ _) as [out|] eqn:E; [|done]. intros [= <-]. cbn [hp_rules].
  apply effective_rules_prefix in E as (i & Hi & Hpre). etrans; [|exact Hpre].
  destruct (for_session_ok parent db Hok) as [-> |Hc]; [apply prefix_nil|].
  by eapply normalize_carried_prefix.
Qed.

Section steps.
Context `{HookJson}.

Lemma for_dispatch_ok session adapter account written now payload db :
  db_ok db → db_ok (for_dispatch session adapter account written now payload db).2.
Proof.
  intros Hok. unfold for_dispatch. destruct (dispatch_additions payload) as [adds|]; [|done].
  destruct (as_object payload) as [obj|]; [|done].
  destruct account as [account|]; cbn [mbind result_bind]; [|exact Hok].
  destruct (effective_rules _ _) as [rules|]; cbn [mbind result_bind map_err]; [|exact Hok].
  destruct (carry adapter rules) as [p|] eqn:E; cbn [map_err]; [|exact Hok].
  destruct written; [|exact Hok]. apply carry_ok in E. destruct (policy_to_value _); by apply record_for_session_ok.
Qed.

(** What happens to the tables. *)
Inductive hook_step : LaunchDb → LaunchDb → Prop :=
| hs_launch actor spawn io now db :
    hook_step db (launch_durable actor spawn io now db).2
| hs_fork parent key account written now spec db p spec' db' :
    inherit_for_launch db parent key account written now spec = Ok (p, spec', db') →
    hook_step db db'
| hs_dispatch session adapter account written now payload db :
    hook_step db (for_dispatch session adapter account written now payload db).2
| hs_verdict command machine owner ok detail db :
    hook_step db (verdict command machine owner ok detail db).1
| hs_registered key session machine owner db :
    hook_step db (registered key session machine owner db).

Definition reached (db : LaunchDb) : Prop := rtc hook_step (mk_launches [] ∅) db.

Lemma hook_step_ok db db' : hook_step db db' → db_ok db → db_ok db'.
Proof.
  intros [] Hok.
  - by apply launch_durable_ok.
  - apply inherit_for_launch_ok in H0 as (? & _ & -> & _). by apply record_for_session_ok.
  - by apply for_dispatch_ok.
  - by apply update_where_ok.
  - by apply update_where_ok.
Qed.

Lemma reached_ok db : reached db → db_ok db.
Proof.
  intros Hr. assert (db_ok (mk_launches [] ∅)) as H0 by (split; [by constructor|apply map_Forall_empty]).
  revert H0. induction Hr; eauto using hook_step_ok.
Qed.

End steps.

(** ** The record of a launch *)

Definition dated_before (now : Z) {A} (l : list (A * Z)) : Prop := Forall (λ x, (x.2 < now)%Z) l.

Lemma latest_last {A} (a b : list (A * Z)) x :
  dated_before x.2 a → dated_before x.2 b → latest (a ++ x :: b) = Some x.
Proof.
  intros Ha Hb. assert (latest (x :: b) = Some x) as Hx.
  { cbn [latest]. destruct (latest b) as [y|] eqn:E; [|done]. apply latest_elem in E.
    unfold dated_before in Hb. rewrite Forall_forall in Hb. specialize (Hb y E).
    by rewrite (proj2 (Z.ltb_ge _ _)) by lia. }
  induction Ha as [|y a Hy _ IH]; [done|]. change ((y :: a) ++ x :: b) with (y :: (a ++ x :: b)).
  cbn [latest]. rewrite IH. by rewrite (proj2 (Z.ltb_lt _ _)).
Qed.

(** The policies the tables hold for a session, with their dates. *)
Definition policy_candidates (s : string) (db : LaunchDb) : list (Stored * Z) :=
  omap (launched_policy s) (launches db) ++ option_list (policies db !! s).

Lemma omap_fmap_same {A B} (g : A → A) (f : A → option B) (l : list A) :
  (∀ x, x ∈ l → f (g x) = f x) → omap f (g <$> l) = omap f l.
Proof.
  induction l as [|x l IH]; intros H; [done|]. cbn. rewrite (H x) by left.
  rewrite IH; [done|]. intros y Hy. apply H. by right.
Qed.

Lemma settled_candidates c s db db' : settled c db db' → policy_candidates s db' = policy_candidates s db.
Proof.
  intros [->|[->|[e ->]]]; [done|..]; unfold policy_candidates; cbn [launches policies delivered
    delivery_failed update_where]; rewrite omap_fmap_same; try done;
    intros l _; by destruct (is_command c l && is_state Prepared l).
Qed.

Definition no_policy_for (s : string) (l : Launch) : Prop := launched_policy s l = None.

(** What a launch that reached the bus leaves: one row more, which holds the
    policy that was sent. *)
Definition launch_row (spawn : MachineSpawn) (p : SessionHookPolicy) (now : Z) (l : Launch) : Prop :=
  command_id l = ms_command_id spawn ∧ session_id l = fs_session_id (ms_failed spawn) ∧
  registered_session_id l = None ∧ l_policy l = Some (Stores p) ∧ l_created l = now.

Lemma fmap_untouched {A} (g : A → A) (l : list A) : (∀ x, x ∈ l → g x = x) → g <$> l = l.
Proof.
  induction l as [|x l IH]; intros Hg; [done|]. cbn. rewrite Hg by left. f_equal.
  apply IH. intros y Hy. apply Hg. by right.
Qed.

Lemma prepare_fresh c a row now db db' :
  prepare c a row now db = Some db' →
  (∀ l, l ∈ launches db → is_command c l = false ∧ session_id l ≠ fs_session_id row) ∧
  ∃ l, launches db' = launches db ++ [l] ∧ policies db' = policies db ∧ command_id l = c ∧
    session_id l = fs_session_id row ∧ registered_session_id l = None ∧ l_policy l = None ∧
    l_created l = now.
Proof.
  unfold prepare. destruct (existsb _ _) eqn:E; [done|]. intros [= <-]. split; [|by eexists].
  intros l Hl. rewrite <-not_true_iff_false, existsb_exists in E.
  destruct (is_command c l || (session_id l ==s fs_session_id row)) eqn:Ec.
  - exfalso. apply E. exists l. rewrite Ec. split; [by apply list_elem_of_In|done].
  - apply orb_false_iff in Ec as [-> Ec]. split; [done|]. by apply String.eqb_neq in Ec.
Qed.

Lemma launch_sent actor spawn io now db res spec db' :
  launch_durable actor spawn io now db = (res, Some spec, db') →
  (∀ l, l ∈ launches db → session_id l ≠ fs_session_id (ms_failed spawn)) ∧
  ∃ p l, launches db' = launches db ++ [l] ∧ policies db' = policies db ∧ launch_row spawn p now l ∧
    hook_policy spec = Some (mk_hooks (sp_rules p)) ∧ carried_ok (sp_rules p) ∧
    ∀ c, carried_ok c → (∃ h, hook_policy (ms_spec spawn) = Some h ∧ c `prefix_of` hp_rules h) →
      c `prefix_of` sp_rules p.
Proof.
  intros [[? _]|(rules & p & spec2 & db1 & [= <-] & _ & Ha & Hp & Hs)]%launch_durable_cases; [done|].
  apply attach_spec in Ha as (Hc & Hh & Hpre).
  apply prepare_fresh in Hp as [Hfresh (l & Hl & Hpol & L1 & L2 & L3 & L4 & L5)].
  split; [intros x Hx; by apply Hfresh|]. exists p.
  assert (∀ f, (∀ x, x ∈ launches db → f x = x) →
    f <$> launches db1 = launches db ++ [f l]) as Hf.
  { intros f Hx. rewrite Hl, fmap_app. cbn. f_equal. by apply fmap_untouched. }
  assert (launches (record (ms_command_id spawn) p db1) = launches db ++ [set_policy (Some (Stores p)) l]) as Hrec.
  { cbn [record update_where launches]. rewrite Hf; [|intros x Hx; by rewrite (proj1 (Hfresh x Hx))].
    unfold is_command. by rewrite L1, String.eqb_refl. }
  set (l1 := set_policy (Some (Stores p)) l) in *.
  assert (launch_row spawn p now l1) as Hrow by done.
  destruct Hs as [-> |[-> |[e ->]]]; [by exists l1|..]; cbn [delivered delivery_failed update_where launches policies];
    rewrite Hrec, fmap_app, fmap_untouched; try (intros x Hx; by rewrite (proj1 (Hfresh x Hx)));
    eexists; (split_and!; [reflexivity|done| |done..]); by destruct (is_command _ l1 && _).
Qed.

(** A launch adds at most one row, the one of the session it launches. *)
Lemma launch_grows actor spawn io now db res sent db' :
  launch_durable actor spawn io now db = (res, sent, db') →
  policies db' = policies db ∧
  (launches db' = launches db ∨
   ∃ l, launches db' = launches db ++ [l] ∧ session_id l = fs_session_id (ms_failed spawn)).
Proof.
  intros E. destruct sent as [spec|].
  - apply launch_sent in E as (_ & p & l & Hl & Hp & (_ & L2 & _) & _). eauto.
  - apply launch_durable_cases in E as [(_ & _ & [-> |Hp])|(? & ? & ? & ? & ? & _)]; [by auto| |done].
    apply prepare_fresh in Hp as [_ (l & Hl & Hp & _ & L2 & _)]. eauto.
Qed.

(** ** Generations *)

Definition rules_of (s : string) (db : LaunchDb) : list HookRule := sp_rules (for_session s db).

(** What happens to the tables while session [s] runs: anything but a record
    for [s] itself. *)
Inductive other_step (s : string) `{HookJson} : LaunchDb → LaunchDb → Prop :=
| os_launch actor spawn io now db :
    fs_session_id (ms_failed spawn) ≠ s → other_step s db (launch_durable actor spawn io now db).2
| os_fork parent key account written now spec db p spec' db' :
    key ≠ s → inherit_for_launch db parent key account written now spec = Ok (p, spec', db') →
    other_step s db db'
| os_dispatch session adapter account written now payload db :
    session ≠ s → other_step s db (for_dispatch session adapter account written now payload db).2
| os_verdict command machine owner ok detail db :
    other_step s db (verdict command machine owner ok detail db).1
| os_registered key session machine owner db :
    session ≠ s → other_step s db (registered key session machine owner db).

Section generations.
Context `{HookJson}.

Lemma other_is_step s db db' : other_step s db db' → hook_step db db'.
Proof. intros []; [constructor|by eapply hs_fork|constructor..]. Qed.

Lemma for_session_same s db db' :
  omap (launched_policy s) (launches db') = omap (launched_policy s) (launches db) →
  policies db' !! s = policies db !! s → for_session s db' = for_session s db.
Proof. unfold for_session. by intros -> ->. Qed.

Lemma update_where_same s p f db :
  (∀ l, l ∈ launches db → p l = true → launched_policy s (f l) = launched_policy s l) →
  for_session s (update_where p f db) = for_session s db.
Proof.
  intros Hf. apply for_session_same; [|done]. cbn. apply omap_fmap_same. intros l Hl.
  destruct (p l) eqn:E; auto.
Qed.

Lemma launched_elsewhere s actor spawn io now db :
  fs_session_id (ms_failed spawn) ≠ s →
  for_session s (launch_durable actor spawn io now db).2 = for_session s db.
Proof.
  intros Hne. destruct (launch_durable _ _ _ _ _) as [[res sent] db'] eqn:E. cbn [snd].
  assert (∀ l, session_id l = fs_session_id (ms_failed spawn) → registered_session_id l = None →
    launched_policy s l = None) as Hrow.
  { intros l H1 H2. unfold launched_policy. rewrite H1, H2, (proj2 (String.eqb_neq _ _)) by done. done. }
  destruct sent as [spec|].
  - apply launch_sent in E as (_ & p & l & Hl & Hp & (_ & L2 & L3 & _) & _).
    apply for_session_same; [|by rewrite Hp]. rewrite Hl, omap_app. cbn.
    rewrite (Hrow l) by done. by rewrite app_nil_r.
  - apply launch_durable_cases in E as [(_ & _ & [-> |Hp])|(? & ? & ? & ? & ? & _)]; [done| |done].
    apply prepare_fresh in Hp as [_ (l & Hl & Hp & _ & L2 & L3 & _)].
    apply for_session_same; [|by rewrite Hp]. rewrite Hl, omap_app. cbn.
    rewrite (Hrow l) by done. by rewrite app_nil_r.
Qed.

Lemma other_step_same s db db' : other_step s db db' → for_session s db' = for_session s db.
Proof.
  intros [actor spawn io now d Hne|parent key account written now spec d p spec' d' Hne Hi
         |session adapter account written now payload d Hne|command machine owner ok detail d
         |key session machine owner d Hne].
  - by apply launched_elsewhere.
  - apply inherit_for_launch_ok in Hi as (_ & _ & -> & _). apply for_session_same; [done|]. cbn.
    by rewrite lookup_insert_ne.
  - unfold for_dispatch. destruct (dispatch_additions payload) as [adds|]; [|done].
    destruct (as_object payload) as [obj|]; [|done]. cbv zeta.
    destruct (account ≫= _) as [c|]; [|done]. destruct written; [|done].
    destruct (policy_to_value _); (apply for_session_same; [done|]); cbn; by rewrite lookup_insert_ne.
  - by apply update_where_same.
  - apply update_where_same. intros l _ Hreg. unfold registers in Hreg. rewrite !andb_true_iff in Hreg.
    destruct Hreg as ((_ & Hr) & _). unfold launched_policy, set_state. cbn.
    rewrite (bool_decide_eq_false_2 (Some session = Some s)) by congruence.
    rewrite (bool_decide_eq_false_2 (registered_session_id l = Some s)); [done|].
    destruct (registered_session_id l) as [x|]; [|done]. apply String.eqb_eq in Hr. congruence.
Qed.

(** The id a launched session runs under: the one it was launched with, or the
    one its machine registers it under. *)
Definition runs_as (spawn : MachineSpawn) (db2 db3 : LaunchDb) (id : string) : Prop :=
  let key := fs_session_id (ms_failed spawn) in
  (db3 = db2 ∧ id = key) ∨
  (∃ machine owner l, db3 = registered key id machine owner db2 ∧ l ∈ launches db2 ∧
     registers key id machine owner l = true).

(** A line of sessions: where it starts, the specs the sessions below were
    launched with, where it ends.  A child is spawned with the policy computed
    from its parent's record and runs under its key or the id it registers
    under; a fork runs under its key; while a session runs other things happen.
    The record of a launch is dated after what the tables hold for its id. *)
Inductive line : LaunchDb → string → list SessionSpec → LaunchDb → string → Prop :=
| ln_here db s : line db s [] db s
| ln_time db s db1 l db' s' :
    other_step s db db1 → line db1 s l db' s' → line db s l db' s'
| ln_spawn db parent account additions policy db1 actor spawn io now res spec db2 db3 id l db' s' :
    for_child db parent account additions = Ok policy → rtc hook_step db db1 →
    hook_policy (ms_spec spawn) = Some policy →
    launch_durable actor spawn io now db1 = (res, Some spec, db2) →
    runs_as spawn db2 db3 id → dated_before now (policy_candidates id db1) →
    line db3 id l db' s' → line db parent (spec :: l) db' s'
| ln_fork db parent key account written now spec p spec' db1 l db' s' :
    inherit_for_launch db parent key account written now spec = Ok (p, spec', db1) →
    dated_before now (omap (launched_policy key) (launches db)) →
    line db1 key l db' s' → line db parent (spec' :: l) db' s'.

(** The policy a launch sends is the one the tables hold for the id it runs under. *)
Lemma sent_is_recorded actor spawn io now db res spec db2 db3 id :
  launch_durable actor spawn io now db = (res, Some spec, db2) →
  runs_as spawn db2 db3 id → dated_before now (policy_candidates id db) →
  hook_policy spec = Some (mk_hooks (rules_of id db3)).
Proof.
  intros Hl Hr Hd. apply launch_sent in Hl as (Hfresh & p & row & Hl & Hp & (R1 & R2 & R3 & R4 & R5) & -> & _).
  set (key := fs_session_id (ms_failed spawn)) in *.
  assert (∃ f, policy_candidates id db3 =
    omap (launched_policy id) (launches db) ++ (Stores p, now) :: f ∧ dated_before now f) as (f & Hc & Hf).
  { unfold policy_candidates in *. apply Forall_app in Hd as [_ Hd]. exists (option_list (policies db !! id)).
    split; [|done]. destruct Hr as [[-> ->]|(machine & owner & l & -> & Hin & Hreg)].
    - rewrite Hl, Hp, omap_app, <-app_assoc. cbn. unfold launched_policy at 2.
      rewrite R2, String.eqb_refl, R4, R5. done.
    - assert (l = row) as ->.
      { rewrite Hl in Hin. apply elem_of_app in Hin as [Hin|Hin%list_elem_of_singleton]; [|done].
        apply Hfresh in Hin. unfold registers in Hreg. rewrite !andb_true_iff in Hreg.
        destruct Hreg as ((((E & _) & _) & _) & _). by apply String.eqb_eq in E. }
      cbn [registered update_where launches policies]. rewrite Hl, Hp, fmap_app, omap_app, <-app_assoc. f_equal.
      + apply omap_fmap_same. intros x Hx. destruct (registers _ _ _ _ x) eqn:E; [|done].
        apply Hfresh in Hx. unfold registers in E. rewrite !andb_true_iff in E.
        destruct E as ((((E & _) & _) & _) & _). by apply String.eqb_eq in E.
      + cbn. rewrite Hreg. unfold launched_policy, set_state. cbn.
        rewrite bool_decide_eq_true_2, orb_true_r, R4, R5 by done. done. }
  unfold rules_of, for_session. fold (policy_candidates id db3). rewrite Hc.
  unfold policy_candidates in Hd. apply Forall_app in Hd as [Hd _].
  by rewrite latest_last.
Qed.

Lemma rules_of_ok s db : reached db → rules_of s db = [] ∨ carried_ok (rules_of s db).
Proof. intros Hr. unfold rules_of. destruct (for_session_ok s db (reached_ok db Hr)) as [-> |?]; auto. Qed.

Lemma spawn_keeps db parent account additions policy db1 actor spawn io now res spec db2 db3 id :
  reached db → for_child db parent account additions = Ok policy → rtc hook_step db db1 →
  hook_policy (ms_spec spawn) = Some policy →
  launch_durable actor spawn io now db1 = (res, Some spec, db2) →
  runs_as spawn db2 db3 id → dated_before now (policy_candidates id db1) →
  reached db3 ∧ hook_policy spec = Some (mk_hooks (rules_of id db3)) ∧
  rules_of parent db `prefix_of` rules_of id db3 ∧ carried_ok (rules_of id db3).
Proof.
  intros Hr Hf Hsteps Hsp Hl Hrun Hd. pose proof (sent_is_recorded _ _ _ _ _ _ _ _ _ _ Hl Hrun Hd) as Hrec.
  assert (reached db2) as Hr2.
  { eapply rtc_r; [exact (transitivity Hr Hsteps)|].
    pose proof (hs_launch actor spawn io now db1) as Hh. by rewrite Hl in Hh. }
  apply launch_sent in Hl as (_ & p & row & _ & _ & _ & Hh & Hc & Hpre).
  rewrite Hh in Hrec. injection Hrec as Hrec. rewrite <-Hrec. split_and!; [|by rewrite Hh| |done].
  - destruct Hrun as [[-> _]|(m & o & l & -> & _)]; [done|]. eapply rtc_r; [done|constructor].
  - destruct (rules_of_ok parent db Hr) as [-> |Hok]; [apply prefix_nil|]. apply Hpre; [done|].
    exists policy. split; [done|]. eapply for_child_keeps; [by apply reached_ok|done].
Qed.

Lemma fork_keeps db parent key account written now spec p spec' db1 :
  reached db → inherit_for_launch db parent key account written now spec = Ok (p, spec', db1) →
  dated_before now (omap (launched_policy key) (launches db)) →
  reached db1 ∧ hook_policy spec' = Some (mk_hooks (rules_of key db1)) ∧
  rules_of parent db `prefix_of` rules_of key db1 ∧ carried_ok (rules_of key db1).
Proof.
  intros Hr Hi Hd. assert (reached db1) as Hr1 by (eapply rtc_r; [done|by econstructor]).
  apply inherit_for_launch_ok in Hi as (Hc & Hh & -> & policy & Hf & Hpre).
  assert (rules_of key (record_for_session key p now db) = sp_rules p) as ->.
  { unfold rules_of, for_session. cbn. rewrite lookup_insert_eq. cbn.
    by rewrite latest_last by (done || constructor). }
  split_and!; [done..| |done].
  destruct (rules_of_ok parent db Hr) as [-> |Hok]; [apply prefix_nil|]. apply Hpre; [done|].
  eapply for_child_keeps; [by apply reached_ok|done].
Qed.

Definition launched_with (spec : SessionSpec) (rules : list HookRule) : Prop :=
  hook_policy spec = Some (mk_hooks rules).

(** Each list starts with all the ones before it. *)
Definition growing (l : list (list HookRule)) : Prop :=
  ∀ i j a b, (i < j)%nat → l !! i = Some a → l !! j = Some b → a `prefix_of` b.

Lemma growing_cons r r1 l : r `prefix_of` r1 → growing (r1 :: l) → growing (r :: r1 :: l).
Proof.
  intros Hp Hg [|i] [|j] a b Hij; [lia| |lia|apply Hg; lia]. intros [= <-] Hb.
  destruct j as [|j]; [by injection Hb as <-|]. etrans; [exact Hp|]. by apply (Hg 0 (S j)); [lia|..].
Qed.

(** C16. Along a line of spawned and forked sessions, each is launched with the rules
    of every one above it, first and in their order: the lists only grow at
    their end.  Each starts with the side-door rule, is free of duplicates and
    within the limits, and is what the tables hold for the session.  This is for
    sessions that run under the id they were launched with and, if they were
    spawned, under the one they register with; a fork that registers under
    another id (a codex thread) loses its record. *)
Theorem descendants_keep_rules db s l db' s' :
  line db s l db' s' → reached db →
  ∃ rules, Forall2 launched_with l rules ∧ growing (rules_of s db :: rules) ∧
    Forall carried_ok rules ∧ last (rules_of s db :: rules) = Some (rules_of s' db').
Proof.
  induction 1 as [db s|db s db1 l db' s' Hs _ IH
    |db parent account additions policy db1 actor spawn io now res spec db2 db3 id l db' s' Hf Ht Hp Hl Hr Hd _ IH
    |db parent key account written now spec p spec' db1 l db' s' Hi Hd _ IH]; intros Hreach.
  - exists []. split_and!; [done| |done|done]. intros i j a b Hij Ha Hb. destruct j; [lia|done].
  - destruct IH as (rules & H1 & H2 & H3 & H4); [eapply rtc_r; [done|by eapply other_is_step]|].
    apply other_step_same in Hs. unfold rules_of in *. rewrite Hs in H2, H4. by exists rules.
  - destruct (spawn_keeps _ _ _ _ _ _ _ _ _ _ _ _ _ _ _ Hreach Hf Ht Hp Hl Hr Hd) as (Hr3 & Hh & Hpre & Hc).
    destruct (IH Hr3) as (rules & H1 & H2 & H3 & H4). exists (rules_of id db3 :: rules).
    split_and!; [by constructor|by apply growing_cons|by constructor|done].
  - destruct (fork_keeps _ _ _ _ _ _ _ _ _ _ Hreach Hi Hd) as (Hr1 & Hh & Hpre & Hc).
    destruct (IH Hr1) as (rules & H1 & H2 & H3 & H4). exists (rules_of key db1 :: rules).
    split_and!; [by constructor|by apply growing_cons|by constructor|done].
Qed.

End generations.

(** ** Forks that register under an id of their own *)

(** Registration re-keys launch records only, so the policy a fork recorded
    under its key is not found under the id the fork registers with. *)
Lemma fork_record_not_moved db parent key account written now spec p spec' db' session machine owner :
  inherit_for_launch db parent key account written now spec = Ok (p, spec', db') →
  session ≠ key → (∀ l, l ∈ launches db → session_id l ≠ key) →
  for_session session (registered key session machine owner db') = for_session session db.
Proof.
  intros (_ & _ & -> & _)%inherit_for_launch_ok Hne Hl. unfold for_session. f_equal.
  cbn [registered update_where record_for_session launches policies].
  rewrite lookup_insert_ne by done. rewrite omap_fmap_same; [done|].
  intros l Hin. destruct (registers _ _ _ _ l) eqn:E; [|done]. exfalso. apply (Hl l Hin).
  unfold registers in E. rewrite !andb_true_iff in E.
  destruct E as ((((E & _) & _) & _) & _). by apply String.eqb_eq in E.
Qed.

(** ** Launch states *)

(** A launch that failed stays failed and one that registered stays registered:
    a late refusal or registration changes neither. *)
Definition final (st : LaunchState) : bool :=
  match st with Refused | DeliveryFailed | Registered => true | _ => false end.

Definition keeps_final (f : LaunchDb → LaunchDb) : Prop :=
  ∀ db i l, launches db !! i = Some l → final (l_state l) = true →
  ∃ l', launches (f db) !! i = Some l' ∧ l_state l' = l_state l ∧ session_id l' = session_id l.

Lemma update_where_final p f :
  (∀ l, p l = true → final (l_state l) = true → l_state (f l) = l_state l) →
  (∀ l, session_id (f l) = session_id l) → keeps_final (update_where p f).
Proof.
  intros Hf Hs db i l Hl Hfin. cbn [update_where launches]. rewrite list_lookup_fmap, Hl. cbn.
  eexists. split; [done|]. destruct (p l) eqn:E; auto.
Qed.

Lemma is_state_true st l : is_state st l = true ↔ l_state l = st.
Proof. apply bool_decide_eq_true. Qed.

Lemma late_news_ignored command machine owner ok detail key session :
  keeps_final (delivered command) ∧ keeps_final (delivery_failed command "") ∧
  keeps_final (λ db, (verdict command machine owner ok detail db).1) ∧
  keeps_final (registered key session machine owner).
Proof.
  split_and!; apply update_where_final; try done; intros l Hp Hfin.
  - apply andb_prop in Hp as [_ Hp%is_state_true]. by rewrite Hp in Hfin.
  - apply andb_prop in Hp as [_ Hp%is_state_true]. by rewrite Hp in Hfin.
  - apply andb_prop in Hp as [_ Hp]. rewrite !orb_true_iff, !is_state_true in Hp.
    by destruct Hp as [[Hp|Hp]|Hp]; rewrite Hp in Hfin.
  - apply andb_prop in Hp as [_ Hp]. unfold launch_failed in Hp. cbn. by destruct (l_state l).
Qed.

Section generations_example.

Definition ex_hooks : HookJson := {|
  rules_from_value _ := Ok [];
  policy_from_value _ := None;
  policy_to_value _ := Ok JNull
|}.

Definition ex_rule (c : string) : HookRule := mk_rule PreToolUse Shell c (Some 30)%N.
Definition ex_spec (p : option HookPolicy) : SessionSpec :=
  mk_spec "claude-code" None None None None None None None ∅ JNull None p.
Definition ex_spawn (key : string) (p : option HookPolicy) : MachineSpawn :=
  mk_spawn "m" key key (ex_spec p) (mk_failed key "m" "u" "claude-code" "" None None None) None.
Definition ex_io (account : list HookRule) : LaunchIo :=
  mk_io (Ok account) true true (Ok tt) None true.

Definition ex_root : LaunchDb :=
  (launch_durable "u" (ex_spawn "root" None) (ex_io [ex_rule "deny-rm"]) 1
     (mk_launches [] ∅)).2.

Definition ex_child_rules : list HookRule :=
  [no_direct_harness_rule; ex_rule "deny-rm"; ex_rule "audit"].

Definition ex_child : MachineSpawn := ex_spawn "child" (Some (mk_hooks ex_child_rules)).

Definition ex_launched : LaunchDb := (launch_durable "u" ex_child (ex_io []) 2 ex_root).2.

(** A child is spawned, registers under its own id, and is forked. *)
Lemma descendants_keep_rules_witness :
  let db := registered "child" "thread" "m" "u" ex_launched in
  ∃ specs db' rules, @line ex_hooks ex_root "root" specs db' "fork" ∧ List.length specs = 2%nat ∧
    Forall2 launched_with specs rules ∧ growing (rules_of "root" ex_root :: rules).
Proof.
  intros db.
  assert (∃ specs db', @line ex_hooks ex_root "root" specs db' "fork" ∧ List.length specs = 2%nat)
    as (specs & db' & H & Hlen).
  { eexists _, _. split.
    - eapply (@ln_spawn ex_hooks ex_root "root" (Ok []) [ex_rule " audit "] (mk_hooks ex_child_rules) ex_root
        "u" ex_child (ex_io []) 2 _ _ ex_launched db "thread").
      + vm_compute. reflexivity.
      + apply rtc_refl.
      + reflexivity.
      + vm_compute. reflexivity.
      + right. eexists "m", "u", _. split_and!;
          [reflexivity|apply list_elem_of_lookup_2 with 1%nat; vm_compute; reflexivity|vm_compute; reflexivity].
      + vm_compute. repeat constructor.
      + eapply (@ln_fork ex_hooks db "thread" "fork" (Ok []) true 3 (ex_spec None)).
        * vm_compute. reflexivity.
        * vm_compute. repeat constructor.
        * apply ln_here.
    - reflexivity. }
  destruct (@descendants_keep_rules ex_hooks _ _ _ _ _ H) as (rules & H1 & H2 & _).
  { eapply rtc_l; [apply (@hs_launch ex_hooks)|]. apply rtc_refl. }
  exists specs, db', rules. by split_and!.
Defined.

(** A fork that registers under an id of its own loses the record: a session
    spawned from it inherits the side-door rule alone. *)
Example forked_thread_forgets :
  match inherit_for_launch ex_root "root" "cmd" (Ok []) true 2 (ex_spec None) with
  | Ok (p, _, db) =>
    sp_rules p = [no_direct_harness_rule; ex_rule "deny-rm"] ∧
    hp_rules <$> (match for_child (registered "cmd" "thread" "m" "u" db) "thread" (Ok []) [] with
                  | Ok policy => Some policy | Err _ => None end) =
      Some [no_direct_harness_rule]
  | Err _ => False
  end.
Proof. vm_compute. split; reflexivity. Qed.

End generations_example.
