(* ===== verification/ChildPolicy.v ===== *)
(** * Child sessions

    What a session may spawn and how a child is reserved and launched:
    [SpawnCapability] of [cctui-proto/src/api.rs], the checks and reservations
    of [child_policy.rs], the capabilities' store and caches
    ([store/spawn_capabilities.rs], [session_credentials.rs],
    [launch_credentials.rs], [machine_policy.rs]) and [spawn_child] of
    [child_exec.rs] with the delivery of [cctui-core-server/src/children.rs].

    [ChildDb] holds the tables, [ChildState] adds the in-memory maps.  The
    account a child lands on, its credentials and its service tier are
    arguments, and so is whether each write succeeds. *)

From stdpp Require Import base decidable list strings gmap.
From Stdlib Require Import Lia Bool String ZArith.
From S2P Require Import Prelude RustStr Json F64 HookPolicy Launch.

Open Scope string_scope.
Open Scope list_scope.
Open Scope rust_scope.

(** ** Harnesses ([cctui-proto/src/adapter.rs]) *)

Inductive ProviderFamily := Anthropic | Openai | Fireworks | Google.

(** The columns of the table that are read here. *)
Record HarnessRow := mk_harness {
  h_id : string;
  h_family : ProviderFamily;
  h_default_enabled : bool
}.

Definition HARNESS_ROWS : list HarnessRow := [
  mk_harness "claude-code" Anthropic true;
  mk_harness "codex" Openai true;
  mk_harness "opencode" Fireworks true;
  mk_harness "gemini" Google false;
  mk_harness "qwen" Openai false;
  mk_harness "goose" Openai false
].

Definition default_enabled_adapters : list string := h_id <$> List.filter h_default_enabled HARNESS_ROWS.

Definition row_for_adapter (adapter : string) : option HarnessRow :=
  let id := trim adapter in
  List.find (λ r, (id ==s h_id r) ||
    match strip_prefix (h_id r) id with Some rest => starts_with "-" rest | None => false end)
    HARNESS_ROWS.

(** [Family::from_adapter]; the error names the harness that is unknown. *)
Definition from_adapter (adapter : string) : result string ProviderFamily :=
  match row_for_adapter adapter with
  | Some r => Ok (h_family r)
  | None => Err (trim adapter)
  end.

(** ** Capabilities ([cctui-proto/src/api.rs]) *)

Record SpawnCapability := mk_cap {
  adapters : list string;
  max_budget_usd : option f64;
  max_children : option N;
  max_permission_mode : option PermissionMode;
  max_depth : option N;
  max_tree_budget_usd : option f64;
  tree_root : option string
}.

Definition allows_adapter (c : SpawnCapability) (adapter : string) : bool :=
  existsb (λ a, a ==s adapter) (adapters c).

Definition cap_is_empty (c : SpawnCapability) : bool :=
  match adapters c with [] => true | _ => false end.

Definition DEFAULT_MAX_DEPTH : N := 3.

Definition machine_default : SpawnCapability :=
  mk_cap default_enabled_adapters None None None (Some DEFAULT_MAX_DEPTH) None None.

Definition with_adapters (l : list string) (c : SpawnCapability) : SpawnCapability :=
  mk_cap l (max_budget_usd c) (max_children c) (max_permission_mode c) (max_depth c)
    (max_tree_budget_usd c) (tree_root c).

Definition set_max_children (n : option N) (c : SpawnCapability) : SpawnCapability :=
  mk_cap (adapters c) (max_budget_usd c) n (max_permission_mode c) (max_depth c)
    (max_tree_budget_usd c) (tree_root c).

Definition set_max_mode (m : option PermissionMode) (c : SpawnCapability) : SpawnCapability :=
  mk_cap (adapters c) (max_budget_usd c) (max_children c) m (max_depth c)
    (max_tree_budget_usd c) (tree_root c).

Definition inherited (c : SpawnCapability) (self_id : string) (child_budget : option f64)
  (child_mode : option PermissionMode) : SpawnCapability :=
  mk_cap (adapters c)
    (match max_budget_usd c, child_budget with
     | Some mine, Some granted => Some (f64_min mine granted)
     | Some mine, None => Some mine
     | None, granted => granted
     end)
    (max_children c)
    (match max_permission_mode c, child_mode with
     | Some mine, Some child => Some (stricter mine child)
     | mine, child => or_else mine child
     end)
    ((λ d, (d - 1)%N) <$> max_depth c)
    (max_tree_budget_usd c)
    (Some (match tree_root c with Some r => r | None => self_id end)).

Record SpawnChildRequest := mk_request {
  rq_adapter : string;
  rq_model : option string;
  rq_prompt : string;
  rq_agent_profile : option string;
  rq_budget_usd : option f64;
  rq_cwd : option string;
  rq_permission_mode : option PermissionMode;
  rq_name : option string;
  rq_hook_rules : list HookRule
}.

(** ** The check ([child_policy.rs]) *)

Record Usage := mk_usage {
  live_children : N;
  u_tree_granted_usd : f64;
  parent_mode : option PermissionMode
}.

Record Authorized := mk_authorized {
  a_adapter : string;
  a_budget_usd : option f64;
  a_permission_mode : PermissionMode
}.

Inductive Denied :=
| NoCapability
| AdapterDenied (requested : string) (allowed : list string)
| Budget (requested max : f64)
| TooManyChildren (max : N)
| Depth
| ModeDenied (requested max : PermissionMode)
| TreeBudget (requested remaining : f64)
| BadRequest (msg : string).

Definition mode_ceiling (c : SpawnCapability) (u : Usage) : PermissionMode :=
  match max_permission_mode c, parent_mode u with
  | Some c, Some p => stricter p c
  | c, p => match or_else p c with Some m => m | None => Ask end
  end.

Definition check_mode (ceiling : PermissionMode) (req : option PermissionMode)
  : result Denied PermissionMode :=
  match req with
  | Some m => if mode_within m ceiling then Ok m else Err (ModeDenied m ceiling)
  | None => Ok ceiling
  end.

Definition check_budget (max req : option f64) : result Denied (option f64) :=
  match req with
  | None => Ok max
  | Some b =>
    if negb (f64_is_finite b) || f64_le b f64_zero
    then Err (BadRequest "budget_usd must be a positive number")
    else match max with
         | Some m => if f64_gt b m then Err (Budget b m) else Ok (Some b)
         | None => Ok (Some b)
         end
  end.

Definition tree_remaining (tree granted : f64) : f64 := f64_max (f64_sub tree granted) f64_zero.

Definition check_tree (tree : option f64) (granted : f64) (req budget : option f64)
  : result Denied (option f64) :=
  match tree with
  | None => Ok budget
  | Some tree =>
    let remaining := tree_remaining tree granted in
    if match req with Some b => f64_gt b remaining | None => false end
    then Err (TreeBudget (match req with Some b => b | None => f64_zero end) remaining)
    else if f64_le remaining f64_zero
    then Err (TreeBudget (match budget with Some b => b | None => f64_zero end) remaining)
    else Ok (Some (match budget with Some b => f64_min b remaining | None => remaining end))
  end.

Definition authorize (cap : option SpawnCapability) (req : SpawnChildRequest) (u : Usage)
  : result Denied Authorized :=
  match cap with
  | None => Err NoCapability
  | Some c =>
    if cap_is_empty c then Err NoCapability else
    let adapter := trim (rq_adapter req) in
    if is_empty adapter then Err (BadRequest "adapter is required") else
    if is_empty (trim (rq_prompt req)) then Err (BadRequest "prompt is required") else
    if negb (allows_adapter c adapter) then Err (AdapterDenied adapter (adapters c)) else
    if bool_decide (max_depth c = Some 0%N) then Err Depth else
    if match max_children c with Some max => (max <=? live_children u)%N | None => false end
    then Err (TooManyChildren (match max_children c with Some max => max | None => 0%N end)) else
    mode ← check_mode (mode_ceiling c u) (rq_permission_mode req);
    budget ← check_budget (max_budget_usd c) (rq_budget_usd req);
    budget ← check_tree (max_tree_budget_usd c) (u_tree_granted_usd u) (rq_budget_usd req) budget;
    Ok (mk_authorized adapter budget mode)
  end.

(** ** The tables *)

(** A row of [sessions], the columns read here.  The relation is
    [metadata->>'relation']. *)
Record SessionRow := mk_session {
  s_parent_id : option string;
  s_relation : option string;
  s_status : string;
  s_end_reason : option string;
  s_machine_uuid : option string;
  s_working_dir : option string;
  s_user_id : option string;
  s_permission_mode : option string;
  s_adapter_id : option string
}.

(** A row of [spawn_tree_grants]; the child's key is the table's key. *)
Record TreeGrant := mk_grant {
  g_root_id : string;
  g_parent_id : string;
  g_budget_usd : f64
}.

Record ChildDb := mk_db {
  sessions : gmap string SessionRow;
  capabilities : gmap string SpawnCapability;
  grants : gmap string TreeGrant
}.

Definition set_capabilities (m : gmap string SpawnCapability) (db : ChildDb) : ChildDb :=
  mk_db (sessions db) m (grants db).
Definition set_tree_grants (m : gmap string TreeGrant) (db : ChildDb) : ChildDb :=
  mk_db (sessions db) (capabilities db) m.

(** *** [store/spawn_capabilities.rs] *)

Definition cap_upsert (session : string) (c : SpawnCapability) (db : ChildDb) : ChildDb :=
  set_capabilities (<[session := c]> (capabilities db)) db.

Definition cap_get (session : string) (db : ChildDb) : option SpawnCapability :=
  capabilities db !! session.

Definition cap_rebind (spawn_key session : string) (db : ChildDb) : ChildDb :=
  match capabilities db !! spawn_key, capabilities db !! session with
  | Some c, None => set_capabilities (<[session := c]> (delete spawn_key (capabilities db))) db
  | _, _ => db
  end.

Definition cap_delete (session : string) (db : ChildDb) : ChildDb :=
  set_capabilities (delete session (capabilities db)) db.

(** *** Counts *)

(** [u32::try_from(n).unwrap_or(u32::MAX)], and [saturating_add]. *)
Definition count_u32 (n : nat) : N := N.min (N.of_nat n) u32_max.
Definition u32_saturating_add (a b : N) : N := N.min (a + b) u32_max.

Definition is_pending (db : ChildDb) (parent child : string) (g : TreeGrant) : Prop :=
  g_parent_id g = parent ∧ is_Some (capabilities db !! child) ∧ sessions db !! child = None.

#[export] Instance is_pending_dec db parent child g : Decision (is_pending db parent child g).
Proof. unfold is_pending. apply _. Defined.

Definition pending_children (parent : string) (db : ChildDb) : gmap string TreeGrant :=
  filter (λ p, is_pending db parent p.1 p.2) (grants db).

Definition pending_child_count (parent : string) (db : ChildDb) : N :=
  count_u32 (size (pending_children parent db)).

Definition is_live_child (parent : string) (s : SessionRow) : bool :=
  bool_decide (s_parent_id s = Some parent) &&
  negb (bool_decide (s_relation s = Some "fork") || bool_decide (s_relation s = Some "followup")) &&
  negb (s_status s ==s "archived") &&
  match s_end_reason s with None => true | Some r => r ==s "completed" end.

(** [ExecutionChildCount]. *)
Definition live_children_of (parent : string) (db : ChildDb) : gmap string SessionRow :=
  filter (λ p, is_live_child parent p.2 = true) (sessions db).

Definition live_child_count (parent : string) (db : ChildDb) : N :=
  count_u32 (size (live_children_of parent db)).

Definition used_slots (parent : string) (db : ChildDb) : N :=
  u32_saturating_add (live_child_count parent db) (pending_child_count parent db).

(** The order in which a scan meets the rows of a table. *)
Class TableScan := {
  scan : gmap string TreeGrant → list TreeGrant;
  scan_perm m : scan m ≡ₚ (map_to_list m).*2
}.

Section child_policy.
Context `{TableScan}.

Definition tree_granted_usd (root : string) (db : ChildDb) : f64 :=
  foldl f64_add f64_zero (g_budget_usd <$> filter (λ g, g_root_id g = root) (scan (grants db))).

(** *** Reservations *)

(** The refusals of the check are [FORBIDDEN] with their own text. *)
Inductive AppError :=
| DbError
| Denies (why : Denied)
| Forbidden (msg : string)
| BadRequestError (msg : string)
| NotFound (msg : string)
| Conflict (msg : string)
| Unavailable (msg : string)
| Internal (msg : string).

Definition denied_error (d : Denied) : AppError :=
  match d with BadRequest msg => BadRequestError msg | _ => Denies d end.

Definition tree_grant_usd (cap : option SpawnCapability) (a : Authorized) : f64 :=
  match cap ≫= max_tree_budget_usd with
  | Some _ => match a_budget_usd a with Some b => b | None => f64_zero end
  | None => f64_zero
  end.

(** One transaction under the tree's lock; [committed] is whether its
    statements and its commit succeed. *)
Definition reserve_child (db : ChildDb) (parent : string) (cap : option SpawnCapability)
  (req : SpawnChildRequest) (mode : option PermissionMode) (child_key : string) (committed : bool)
  : result AppError (Authorized * SpawnCapability * ChildDb) :=
  let root := match cap ≫= tree_root with Some r => r | None => parent end in
  let usage := mk_usage (used_slots parent db) (tree_granted_usd root db) mode in
  a ← map_err denied_error (authorize cap req usage);
  let child_cap :=
    match cap with
    | None => machine_default
    | Some c => inherited c parent (a_budget_usd a) (Some (a_permission_mode a))
    end in
  if committed && bool_decide (grants db !! child_key = None) then
    let db := cap_upsert child_key child_cap db in
    Ok (a, child_cap,
        set_tree_grants (<[child_key := mk_grant root parent (tree_grant_usd cap a)]> (grants db)) db)
  else Err DbError.

(** [cap_gone] and [grant_gone]: whether each delete succeeds; the second is
    not tried when the first fails. *)
Definition release_child (child_key : string) (cap_gone grant_gone : bool) (db : ChildDb) : ChildDb :=
  if cap_gone then
    let db := cap_delete child_key db in
    if grant_gone then set_tree_grants (delete child_key (grants db)) db else db
  else db.

(** ** The in-memory maps *)

Record ChildState := mk_state {
  cdb : ChildDb;
  cap_cache : gmap string SpawnCapability;
  usd_budgets : gmap string f64;
  launch_db : LaunchDb
}.

Definition set_cdb (db : ChildDb) (st : ChildState) : ChildState :=
  mk_state db (cap_cache st) (usd_budgets st) (launch_db st).
Definition set_cache (m : gmap string SpawnCapability) (st : ChildState) : ChildState :=
  mk_state (cdb st) m (usd_budgets st) (launch_db st).
Definition set_usd (m : gmap string f64) (st : ChildState) : ChildState :=
  mk_state (cdb st) (cap_cache st) m (launch_db st).
Definition set_launch_db (db : LaunchDb) (st : ChildState) : ChildState :=
  mk_state (cdb st) (cap_cache st) (usd_budgets st) db.

(** [capability_for] of [child_exec.rs]; [read] is whether the table can be
    read. *)
Definition capability_for (session : string) (read : bool) (st : ChildState)
  : option SpawnCapability * ChildState :=
  match cap_cache st !! session with
  | Some c => (Some c, st)
  | None =>
    if read then
      match cap_get session (cdb st) with
      | Some c => (Some c, set_cache (<[session := c]> (cap_cache st)) st)
      | None => (None, st)
      end
    else (None, st)
  end.

(** [grant_default] of [launch_credentials.rs]: [default] is the host's default
    capability, [bound] whether the owner is bound by a policy ([None] when
    that cannot be read), [written] whether the row is stored. *)
Definition grant_default (session : string) (default : SpawnCapability) (bound : option bool)
  (written : bool) (st : ChildState) : option SpawnCapability * ChildState :=
  match bound with
  | None => (None, st)
  | Some b =>
    let c := if b then set_max_children (Some 0%N) default else default in
    let st := if written then set_cdb (cap_upsert session c (cdb st)) st else st in
    (Some c, set_cache (<[session := c]> (cap_cache st)) st)
  end.

(** What a launching worker is told it may spawn. *)
Definition spawn_capability_for (session : string) (read : bool) (default : SpawnCapability)
  (bound : option bool) (written : bool) (st : ChildState) : option SpawnCapability * ChildState :=
  match cap_cache st !! session with
  | Some c => (Some c, st)
  | None =>
    if read then
      match cap_get session (cdb st) with
      | Some c => (Some c, set_cache (<[session := c]> (cap_cache st)) st)
      | None => grant_default session default bound written st
      end
    else (None, st)
  end.

(** [persist_spawn_capability] of [machine_policy.rs]. *)
Definition persist_spawn_capability (requested : option SpawnCapability) (default : SpawnCapability)
  (mode : option PermissionMode) (session : string) (written : bool) (st : ChildState) : ChildState :=
  let c := match requested with
           | Some c => if cap_is_empty c then default else c
           | None => default
           end in
  let launched := match mode with Some m => m | None => Ask end in
  let c := set_max_mode (Some (match max_permission_mode c with
                               | Some m => stricter m launched | None => launched end)) c in
  let st := if written then set_cdb (cap_upsert session c (cdb st)) st else st in
  set_cache (<[session := c]> (cap_cache st)) st.

(** [spawnable_adapters] of [machine_policy.rs]. *)
Definition spawnable_adapters (ids : list string) : list string :=
  List.filter (λ id, match from_adapter id with Ok _ => true | Err _ => false end) ids.

(** *** [session_credentials.rs] *)

(** The end of a session, without its tokens. *)
Definition revoke_session_tokens (session : string) (deleted : bool) (st : ChildState) : ChildState :=
  let st := set_cache (delete session (cap_cache st)) st in
  let st := set_usd (delete session (usd_budgets st)) st in
  if deleted then set_cdb (cap_delete session (cdb st)) st else st.

Definition needs_rebind (spawn_key session : string) : bool :=
  negb (is_empty spawn_key) && negb (is_empty session) && negb (spawn_key ==s session).

Definition move_key {A} (from to : string) (m : gmap string A) : gmap string A :=
  match m !! from with Some x => <[to := x]> (delete from m) | None => m end.

(** [moved] is whether the records of the tokens moved, [written] whether the
    capability's row could be. *)
Definition rebind_spawn_key (spawn_key session : string) (moved written : bool) (st : ChildState)
  : ChildState :=
  if negb (needs_rebind spawn_key session) || negb moved then st else
  let st := set_usd (move_key spawn_key session (usd_budgets st)) st in
  let st := set_cache (move_key spawn_key session (cap_cache st)) st in
  if written then set_cdb (cap_rebind spawn_key session (cdb st)) st else st.

(** ** Spawning ([child_exec.rs]) *)

Record Parent := mk_parent {
  p_session_id : string;
  p_machine_uuid : string;
  p_working_dir : option string;
  p_user_id : string;
  p_permission_mode : option PermissionMode
}.

Definition load_parent (db : ChildDb) (session caller : string) (read : bool)
  : result AppError Parent :=
  if negb read then Err DbError else
  match sessions db !! session with
  | None => Err (NotFound "calling session not found")
  | Some s =>
    match s_machine_uuid s, s_user_id s with
    | Some machine, Some user =>
      if user ==s caller
      then Ok (mk_parent session machine (s_working_dir s) user
                 (s_permission_mode s ≫= from_session_label))
      else Err (Forbidden "session belongs to another user")
    | _, _ => Err (Conflict "calling session has no machine/owner")
    end
  end.

Definition policy_error (e : HookPolicyError) : AppError :=
  match e with Db => DbError | Rejected reason => BadRequestError reason end.

(** [child_launch_error] of [children.rs]. *)
Definition child_launch_error (e : LaunchError) : AppError :=
  match e with
  | Storage => DbError
  | PolicyRefused detail => BadRequestError ("hook policy: " ++s detail)
  | Delivery error => Unavailable ("could not reach the daemon: " ++s error)
  | LaunchRefused detail =>
    Unavailable ("could not reach the daemon: the daemon refused the spawn: " ++s detail)
  end.

(** What one spawn meets. *)
Record ChildIo := mk_cio {
  ci_profiles : bool;
  ci_parent_read : bool;
  ci_account_rules : result HookPolicyError (list HookRule);
  ci_cap_read : bool;
  ci_child_id : string;
  ci_committed : bool;
  ci_account_env : result AppError (gmap string string * option string);
  ci_service_tier : string;
  ci_spawner : string;
  ci_launch : LaunchIo;
  ci_now : Z;
  ci_cap_gone : bool;
  ci_grant_gone : bool
}.

Definition is_blank (s : string) : bool := is_empty (trim s).
Definition not_blank (o : option string) : option string :=
  match o with Some s => if is_blank s then None else Some s | None => None end.

(** [deliver_child] of [children.rs]: the outcome, the spec offered to the
    machine, the state. *)
Definition deliver_child (parent : Parent) (child : string) (spec : SessionSpec) (io : ChildIo)
  (st : ChildState) : result AppError unit * option SessionSpec * ChildState :=
  let st :=
    match cap_cache st !! child ≫= max_budget_usd with
    | Some b => set_usd (<[child := b]> (usd_budgets st)) st
    | None => st
    end in
  let failed := mk_failed child (p_machine_uuid parent) (p_user_id parent) (adapter_id spec)
                  (match working_dir spec with Some d => d | None => "" end) (sp_name spec)
                  (model spec) (effort spec) in
  let spawn := mk_spawn (p_machine_uuid parent) child child spec failed
                 (Some (p_session_id parent)) in
  let '(res, sent, db) := launch_durable (ci_spawner io) spawn (ci_launch io) (ci_now io)
                            (launch_db st) in
  let st := set_launch_db db st in
  match res with
  | Ok _ => (Ok tt, sent, st)
  | Err e => (Err (child_launch_error e), sent, set_usd (delete child (usd_budgets st)) st)
  end.

Definition AGENT_PROFILE_ENV : string := "CCTUI_OPENCODE_AGENT".

Definition release (io : ChildIo) (st : ChildState) : ChildState :=
  set_cdb (release_child (ci_child_id io) (ci_cap_gone io) (ci_grant_gone io) (cdb st)) st.

(** What the child is launched with. *)
Definition child_spec (parent : Parent) (req : SpawnChildRequest) (a : Authorized)
  (env : gmap string string) (child_model : option string) (tier : option string)
  (policy : HookPolicy) : SessionSpec :=
  let env := match rq_agent_profile req with
             | Some p => if is_blank p then env else <[AGENT_PROFILE_ENV := trim p]> env
             | None => env
             end in
  mk_spec (a_adapter a) (or_else (not_blank (rq_cwd req)) (p_working_dir parent))
    (Some (rq_prompt req)) (not_blank (rq_name req)) (Some (a_permission_mode a)) None child_model
    tier env JNull (Some (p_session_id parent)) (Some policy).

(** The child's id and budget, or the error; the spec offered to the machine;
    the state. *)
Definition spawn_child (caller session : string) (req : SpawnChildRequest) (io : ChildIo)
  (st : ChildState) : result AppError (string * option f64) * option SessionSpec * ChildState :=
  let key := ci_child_id io in
  if match rq_agent_profile req with Some p => negb (is_blank p) | None => false end &&
     negb (ci_profiles io)
  then (Err (BadRequestError
          "workspace agent profiles are unavailable in the automation distribution"), None, st)
  else
  match load_parent (cdb st) session caller (ci_parent_read io) with
  | Err e => (Err e, None, st)
  | Ok parent =>
    match for_child (launch_db st) (p_session_id parent) (ci_account_rules io) (rq_hook_rules req) with
    | Err e => (Err (policy_error e), None, st)
    | Ok policy =>
      let '(cap, st) := capability_for session (ci_cap_read io) st in
      match reserve_child (cdb st) session cap req (p_permission_mode parent) key (ci_committed io) with
      | Err e => (Err e, None, st)
      | Ok (a, child_cap, db) =>
        let st := set_cdb db st in
        match from_adapter (a_adapter a) with
        | Err name => (Err (BadRequestError name), None, release io st)
        | Ok family =>
          match ci_account_env io with
          | Err e => (Err e, None, release io st)
          | Ok (env, child_model) =>
            let tier := match family with Openai => Some (ci_service_tier io) | _ => None end in
            let spec := child_spec parent req a env child_model tier policy in
            let st := set_cache (<[key := child_cap]> (cap_cache st)) st in
            let '(res, sent, st) := deliver_child parent key spec io st in
            match res with
            | Err e => (Err e, sent, release io (set_cache (delete key (cap_cache st)) st))
            | Ok _ =>
              let st := match a_budget_usd a with
                        | Some b => set_usd (<[key := b]> (usd_budgets st)) st
                        | None => st
                        end in
              (Ok (key, a_budget_usd a), sent, st)
            end
          end
        end
      end
    end
  end.

(** *** Messages to a child *)

(** The adapter of a direct child owned by the caller. *)
Definition resolve_child_adapter (db : ChildDb) (caller : string) (parent : Parent) (child : string)
  : result AppError string :=
  match filter (λ s, s_user_id s = Some caller) (option_list (sessions db !! child)) with
  | [] => Err (NotFound "child session not found")
  | s :: _ =>
    if negb (bool_decide (s_parent_id s = Some (p_session_id parent)))
    then Err (Forbidden "session is not a child of this session")
    else match s_machine_uuid s with
         | None => Err (Conflict "child session has no machine")
         | Some _ =>
           match s_adapter_id s with
           | Some a => if is_empty a then Err (Conflict "child session has no adapter") else Ok a
           | None => Err (Conflict "child session has no adapter")
           end
         end
  end.

(** The child a message is relayed to, or the refusal. *)
Definition message_child (db : ChildDb) (caller session child prompt : string) (read : bool)
  : result AppError string :=
  parent ← load_parent db session caller read;
  if is_blank prompt then Err (BadRequestError "prompt is required") else
  let child := trim child in
  if is_empty child then Err (BadRequestError "session_id is required") else
  _ ← resolve_child_adapter db caller parent child;
  Ok child.

End child_policy.
