(* ===== verification/ChildFacts.v ===== *)
(** * What a session may spawn

    A child never has more than its parent: the ceilings of a line of sessions
    only shrink, a parent never has more children than its capability says, a
    spawn that fails leaves no reservation, and what reaches a machine is within
    the parent's posture and under the parent's rules. *)

From stdpp Require Import base decidable list strings gmap relations.
From Stdlib Require Import Lia Bool String ZArith.
From S2P Require Import Prelude RustStr Json F64 HookPolicy Launch LaunchFacts ChildPolicy.

Open Scope string_scope.
Open Scope list_scope.
Open Scope rust_scope.

(** ** The check *)

Lemma within_refl m : mode_within m m = true.
Proof. by apply N.leb_refl. Qed.

Lemma within_trans a b c : mode_within a b = true → mode_within b c = true → mode_within a c = true.
Proof. unfold mode_within. rewrite !N.leb_le. lia. Qed.

Lemma stricter_mode_within a b : mode_within (stricter a b) a = true ∧ mode_within (stricter a b) b = true.
Proof. destruct a, b; done. Qed.

Lemma check_mode_within ceiling req m : check_mode ceiling req = Ok m → mode_within m ceiling = true.
Proof.
  unfold check_mode. destruct req as [r|].
  - destruct (mode_within r ceiling) eqn:E; [|done]. by intros [= <-].
  - intros [= <-]. apply within_refl.
Qed.

Lemma mode_ceiling_within c u :
  (∀ m, max_permission_mode c = Some m → mode_within (mode_ceiling c u) m = true) ∧
  (∀ m, parent_mode u = Some m → mode_within (mode_ceiling c u) m = true).
Proof.
  unfold mode_ceiling. destruct (max_permission_mode c) as [a|], (parent_mode u) as [b|];
    split; intros m [= <-]; try apply within_refl; apply stricter_mode_within.
Qed.

Definition number (o : option f64) : Prop := ∀ b, o = Some b → f64_is_nan b = false.

Lemma finite_number b : f64_is_finite b = true → f64_is_nan b = false.
Proof. by destruct b. Qed.

Lemma f64_not_gt a b :
  f64_is_nan a = false → f64_is_nan b = false → f64_gt a b = false → f64_le a b = true.
Proof. intros Ha Hb. unfold f64_gt. fold (f64_lt b a). rewrite f64_not_lt by done. by destruct (f64_le a b). Qed.

(** A budget is at most the ceiling, and there is one when the ceiling is. *)
Definition at_most (budget max : option f64) : Prop :=
  ∀ m, max = Some m → ∃ b, budget = Some b ∧ f64_le b m = true.

Lemma at_most_trans a b c : at_most a b → at_most b c → at_most a c.
Proof.
  intros H1 H2 m Hm. destruct (H2 m Hm) as (y & Hy & Hle). destruct (H1 y Hy) as (x & Hx & Hle').
  exists x. split; [done|]. by eapply f64_le_trans.
Qed.

Lemma check_budget_at_most max req b :
  number max → check_budget max req = Ok b → number b ∧ at_most b max.
Proof.
  intros Hn. unfold check_budget. destruct req as [r|].
  - destruct (f64_is_finite r) eqn:Ef; [|done]. cbn [negb orb]. destruct (f64_le r f64_zero); [done|].
    apply finite_number in Ef. destruct max as [m|].
    + destruct (f64_gt r m) eqn:Eg; [done|]. intros [= <-]. split; [by intros ? [= <-]|].
      intros ? [= <-]. exists r. split; [done|]. apply f64_not_gt; auto.
    + intros [= <-]. split; [by intros ? [= <-]|done].
  - intros [= <-]. split; [done|]. intros m ->. exists m. split; [done|].
    apply f64_le_refl. by apply Hn.
Qed.

Lemma tree_remaining_number t g : f64_is_nan (tree_remaining t g) = false.
Proof.
  unfold tree_remaining, f64_max. destruct (f64_is_nan (f64_sub t g)) eqn:E; [done|].
  cbn [f64_is_nan f64_zero]. by destruct (f64_lt f64_zero _).
Qed.

Lemma check_tree_at_most tree granted req b b' :
  number b → check_tree tree granted req b = Ok b' →
  number b' ∧ at_most b' b ∧ at_most b' ((λ t, tree_remaining t granted) <$> tree).
Proof.
  intros Hn. unfold check_tree. destruct tree as [t|].
  - pose proof (tree_remaining_number t granted) as Hr.
    destruct (match req with Some _ => _ | None => _ end); [done|].
    destruct (f64_le _ f64_zero); [done|]. intros [= <-]. destruct b as [b|].
    + pose proof (f64_min_le b (tree_remaining t granted)) as [H1 H2].
      split_and!; intros ? [= <-].
      * by apply f64_min_nan.
      * eexists. split; [done|]. by apply H1, Hn.
      * eexists. split; [done|]. by apply H2.
    + split_and!; [by intros ? [= <-]|done|]. intros ? [= <-]. eexists. split; [done|].
      by apply f64_le_refl.
  - intros [= <-]. split_and!; [done| |done]. intros m ->. exists m. split; [done|].
    apply f64_le_refl. by apply Hn.
Qed.

(** What an authorized child may have under a capability. *)
Record permitted (c : SpawnCapability) (u : Usage) (a : Authorized) : Prop := {
  pm_adapter : a_adapter a ∈ adapters c;
  pm_depth : max_depth c ≠ Some 0%N;
  pm_children m : max_children c = Some m → (live_children u < m)%N;
  pm_mode m : max_permission_mode c = Some m → mode_within (a_permission_mode a) m = true;
  pm_parent m : parent_mode u = Some m → mode_within (a_permission_mode a) m = true;
  pm_budget : at_most (a_budget_usd a) (max_budget_usd c);
  pm_tree : at_most (a_budget_usd a)
              ((λ t, tree_remaining t (u_tree_granted_usd u)) <$> max_tree_budget_usd c);
  pm_number : number (a_budget_usd a)
}.

Lemma allows_adapter_elem c a : allows_adapter c a = true ↔ a ∈ adapters c.
Proof.
  unfold allows_adapter. rewrite existsb_exists. split.
  - intros (x & Hx & ->%String.eqb_eq). by apply list_elem_of_In.
  - intros H. exists a. split; [by apply list_elem_of_In|apply String.eqb_refl].
Qed.

Lemma authorize_Ok cap req u a :
  authorize cap req u = Ok a →
  ∃ c, cap = Some c ∧ (number (max_budget_usd c) → permitted c u a) ∧
    a_adapter a = trim (rq_adapter req) ∧
    ∀ m, rq_permission_mode req = Some m → a_permission_mode a = m.
Proof.
  unfold authorize. destruct cap as [c|]; [|done]. destruct (cap_is_empty c); [done|].
  destruct (is_empty _); [done|]. destruct (is_empty _); [done|].
  destruct (allows_adapter c _) eqn:Ea; [|done]. cbn [negb].
  destruct (bool_decide _) eqn:Ed; [done|]. apply bool_decide_eq_false in Ed.
  destruct (match max_children c with Some _ => _ | None => _ end) eqn:Ec; [done|].
  destruct (check_mode _ _) as [m|] eqn:Em; cbn [mbind result_bind]; [|discriminate].
  destruct (check_budget _ _) as [b|] eqn:Eb; cbn [mbind result_bind]; [|discriminate].
  destruct (check_tree _ _ _ _) as [b'|] eqn:Et; cbn [mbind result_bind]; [|discriminate].
  intros [= <-]. exists c. split_and!; [done| |done|].
  - intros Hn. apply check_budget_at_most in Eb as [Nb Hb]; [|done].
    apply check_tree_at_most in Et as (Nb' & Hb' & Ht); [|done].
    pose proof (check_mode_within _ _ _ Em) as Hm. split; cbn.
    + by apply allows_adapter_elem.
    + done.
    + intros x Hx. rewrite Hx in Ec. by apply N.leb_gt.
    + intros x Hx. eapply within_trans; [done|]. by apply (proj1 (mode_ceiling_within c u)).
    + intros x Hx. eapply within_trans; [done|]. by apply (proj2 (mode_ceiling_within c u)).
    + by apply (at_most_trans _ b).
    + done.
    + done.
  - cbn [a_permission_mode]. intros x Hx. rewrite Hx in Em. unfold check_mode in Em.
    destruct (mode_within x _); [by injection Em|discriminate].
Qed.

(** ** Generations *)

(** What a capability lets every session below it have. *)
Definition below (c : SpawnCapability) (a : Authorized) : Prop :=
  a_adapter a ∈ adapters c ∧
  (∀ m, max_permission_mode c = Some m → mode_within (a_permission_mode a) m = true) ∧
  at_most (a_budget_usd a) (max_budget_usd c).

(** A later child has no more than an earlier one. *)
Definition no_more (b a : Authorized) : Prop :=
  mode_within (a_permission_mode b) (a_permission_mode a) = true ∧
  at_most (a_budget_usd b) (a_budget_usd a).

Lemma inherited_number c self b m :
  number (max_budget_usd c) → number b → number (max_budget_usd (inherited c self b m)).
Proof.
  intros Hc Hb. unfold inherited. cbn. destruct (max_budget_usd c) as [x|], b as [y|];
    intros z [= <-]; try (by apply Hc); try (by apply Hb).
  apply f64_min_nan. by apply Hb.
Qed.

Lemma inherited_budget c self b m :
  number (max_budget_usd c) → number b →
  at_most (max_budget_usd (inherited c self b m)) (max_budget_usd c) ∧
  at_most (max_budget_usd (inherited c self b m)) b.
Proof.
  intros Hc Hb. unfold inherited. cbn. destruct (max_budget_usd c) as [x|], b as [y|];
    split; intros z [= <-]; eexists; (split; [done|]);
    try (by apply f64_le_refl, Hc); try (by apply f64_le_refl, Hb).
  - by apply (proj1 (f64_min_le _ _)), Hc.
  - by apply (proj2 (f64_min_le _ _)), Hb.
Qed.

Lemma inherited_mode c self b child :
  ∃ m, max_permission_mode (inherited c self b (Some child)) = Some m ∧
    mode_within m child = true ∧
    (∀ x, max_permission_mode c = Some x → mode_within m x = true).
Proof.
  unfold inherited. cbn. destruct (max_permission_mode c) as [x|].
  - exists (stricter x child). split_and!; [done|apply stricter_mode_within|].
    intros ? [= <-]. apply stricter_mode_within.
  - exists child. split_and!; [done|apply within_refl|done].
Qed.

(** Whoever is below the inherited capability is below the parent's and has no
    more than the child it was handed to. *)
Lemma below_inherited c self a x :
  number (max_budget_usd c) → number (a_budget_usd a) →
  below (inherited c self (a_budget_usd a) (Some (a_permission_mode a))) x →
  below c x ∧ no_more x a.
Proof.
  intros Hc Ha (H1 & H2 & H3).
  destruct (inherited_mode c self (a_budget_usd a) (a_permission_mode a)) as (m & Hm & Hw & Hx).
  specialize (H2 m Hm).
  destruct (inherited_budget c self (a_budget_usd a) (Some (a_permission_mode a)) Hc Ha) as [Hb1 Hb2].
  split; [split_and!; [done| |]|split].
  - intros y Hy. eapply within_trans; [done|by apply Hx].
  - by eapply at_most_trans.
  - by eapply within_trans.
  - by eapply at_most_trans.
Qed.

Section generations.
Context `{TableScan}.

Lemma reserve_child_Ok db parent cap req mode key committed a c db' :
  reserve_child db parent cap req mode key committed = Ok (a, c, db') →
  ∃ cp g u, cap = Some cp ∧ authorize cap req u = Ok a ∧
    live_children u = used_slots parent db ∧ parent_mode u = mode ∧
    u_tree_granted_usd u =
      tree_granted_usd (match tree_root cp with Some r => r | None => parent end) db ∧
    g_parent_id g = parent ∧ grants db !! key = None ∧
    c = inherited cp parent (a_budget_usd a) (Some (a_permission_mode a)) ∧
    db' = mk_db (sessions db) (<[key := c]> (capabilities db)) (<[key := g]> (grants db)).
Proof.
  unfold reserve_child. destruct (authorize _ _ _) as [x|] eqn:E; [|done].
  cbn [map_err mbind result_bind]. destruct committed; [|done]. cbn [andb].
  destruct (bool_decide _) eqn:Eg; [|done]. apply bool_decide_eq_true in Eg.
  pose proof (authorize_Ok _ _ _ _ E) as (cp & -> & _). intros [= <- <- <-].
  eexists cp, (mk_grant _ parent _), (mk_usage _ _ _). split_and!; [done|exact E|done..].
Qed.

(** The tree the budget of a reserved child is drawn on. *)
Lemma reserve_child_root db parent c req mode key committed a cc db' g :
  reserve_child db parent (Some c) req mode key committed = Ok (a, cc, db') →
  grants db' !! key = Some g →
  g_root_id g = match tree_root c with Some r => r | None => parent end.
Proof.
  unfold reserve_child. destruct (authorize _ _ _) as [x|]; [|done]. cbn [map_err mbind result_bind].
  destruct (_ && _); [|done]. intros [= <- <- <-]. cbn. rewrite lookup_insert_eq. by intros [= <-].
Qed.

(** One spawn: the session that asked, the tree its grant was drawn on, and
    what the child was given. *)
Record Spawned := mk_spawned { sd_by : string; sd_tree : string; sd_child : Authorized }.

(** The spawns along one line of children: each child is reserved under the
    capability that was stored for its parent when that was reserved. *)
Inductive lineage : SpawnCapability → list Spawned → SpawnCapability → Prop :=
| lin_nil c : lineage c [] c
| lin_cons c self db req mode key committed a cc db' stored g l c' :
    reserve_child db self (Some c) req mode key committed = Ok (a, cc, db') →
    capabilities db' !! key = Some stored → grants db' !! key = Some g →
    lineage stored l c' →
    lineage c (mk_spawned self (g_root_id g) a :: l) c'.

(** C14. Along a line of spawned sessions, each spawned by the one above it under
    the capability that was stored for it, the adapters are those of the top,
    every posture and budget is within every ceiling of the top and within what
    each session above it was itself given, and the line is no longer than the
    depth.  The whole line is counted against one tree, that of the top session's
    capability or, when the top session was not spawned, the top session itself.
    (A spawned session that ended and is resumed has lost its stored capability,
    so it starts a line of its own.) *)
Theorem ceilings_only_shrink c l c' :
  lineage c l c' → number (max_budget_usd c) →
  Forall (below c) (sd_child <$> l) ∧
  (∀ i j a b, (i < j)%nat → l !! i = Some a → l !! j = Some b → no_more (sd_child b) (sd_child a)) ∧
  (∀ d, max_depth c = Some d →
     (N.of_nat (List.length l) ≤ d)%N ∧ max_depth c' = Some (d - N.of_nat (List.length l))%N) ∧
  max_children c' = max_children c ∧ max_tree_budget_usd c' = max_tree_budget_usd c ∧
  (∀ top rest tree, l = top :: rest →
     tree = match tree_root c with Some r => r | None => sd_by top end →
     Forall (λ s, sd_tree s = tree) l ∧ tree_root c' = Some tree).
Proof.
  induction 1 as [c|c self db req mode key committed a cc db' stored g l c' Hr Hst Hg Hl IH]; intros Hn.
  { split_and!; try done. intros d Hd. cbn. rewrite N.sub_0_r. split; [lia|done]. }
  pose proof (reserve_child_root _ _ _ _ _ _ _ _ _ _ _ Hr Hg) as Hroot.
  pose proof (reserve_child_Ok _ _ _ _ _ _ _ _ _ _ Hr) as (? & g' & u & [= <-] & Ha & _ & _ & _ & _ & _ & Hcc & Hdb).
  subst db'. cbn in Hst. rewrite lookup_insert_eq in Hst. injection Hst as <-. subst cc.
  pose proof (authorize_Ok _ _ _ _ Ha) as (? & [= <-] & Hp & _). specialize (Hp Hn).
  destruct IH as (I1 & I2 & I3 & I4 & I5 & I6); [by apply inherited_number; [|apply Hp]|].
  pose proof (pm_number _ _ _ Hp) as Na.
  assert (∀ x, x ∈ l → below c (sd_child x) ∧ no_more (sd_child x) a) as Hbelow.
  { intros x Hx. rewrite Forall_fmap, Forall_forall in I1. eapply below_inherited; [done..|by apply I1]. }
  split_and!; [..|done|done|].
  - cbn. constructor; [|apply Forall_fmap, Forall_forall; intros x Hx; by apply Hbelow].
    split_and!; [apply Hp|apply (pm_mode _ _ _ Hp)|apply Hp].
  - intros [|i] [|j] x y Hij; [lia| |lia|].
    + intros [= <-] Hy. apply Hbelow. by eapply list_elem_of_lookup_2.
    + cbn. apply I2. lia.
  - intros d Hd. destruct (I3 (d - 1)%N) as [H1 H2]; [unfold inherited; cbn; by rewrite Hd|].
    pose proof (pm_depth _ _ _ Hp) as Hz. rewrite Hd in Hz. cbn [List.length].
    rewrite H2. split; [|f_equal]; destruct (decide (d = 0)%N); try congruence; lia.
  - intros top rest tree [= <- <-] Ht. cbn in Ht. rewrite <-Hroot in Ht. subst tree. cbn in I6.
    destruct l as [|top l].
    + inversion Hl; subst. split; [by repeat constructor|]. cbn. by rewrite Hroot.
    + destruct (I6 top l (g_root_id g) eq_refl) as [J1 J2]; [by rewrite Hroot|].
      split; [by constructor|done].
Qed.

End generations.

(** ** Slots *)

Section slots.
Context `{TableScan}.

(** The children that hold a slot. *)
Definition slots (parent : string) (db : ChildDb) : nat :=
  (size (live_children_of parent db) + size (pending_children parent db))%nat.

Lemma pending_lookup parent db k g :
  pending_children parent db !! k = Some g ↔ grants db !! k = Some g ∧ is_pending db parent k g.
Proof. unfold pending_children. by rewrite map_lookup_filter_Some. Qed.

Lemma live_lookup parent db k s :
  live_children_of parent db !! k = Some s ↔ sessions db !! k = Some s ∧ is_live_child parent s = true.
Proof. unfold live_children_of. by rewrite map_lookup_filter_Some. Qed.

Lemma size_le_dom {A B} (m1 : gmap string A) (m2 : gmap string B) :
  (∀ k, is_Some (m1 !! k) → is_Some (m2 !! k)) → (size m1 ≤ size m2)%nat.
Proof.
  intros H1. rewrite <-!size_dom. apply subseteq_size. intros k.
  rewrite !elem_of_dom. apply H1.
Qed.

Lemma used_slots_exact parent db max :
  (max ≤ u32_max)%N → (used_slots parent db < max)%N →
  used_slots parent db = N.of_nat (slots parent db).
Proof.
  unfold used_slots, live_child_count, pending_child_count, u32_saturating_add, count_u32, slots.
  lia.
Qed.

Lemma used_slots_le parent db : (used_slots parent db ≤ N.of_nat (slots parent db))%N.
Proof.
  unfold used_slots, live_child_count, pending_child_count, u32_saturating_add, count_u32, slots.
  lia.
Qed.

Lemma reserve_pending db parent cap req mode key committed a c db' who :
  sessions db !! key = None →
  reserve_child db parent cap req mode key committed = Ok (a, c, db') →
  live_children_of who db' = live_children_of who db ∧
  size (pending_children who db') =
    (size (pending_children who db) + if decide (who = parent) then 1 else 0)%nat.
Proof.
  intros Hs (cp & g & u & _ & _ & _ & _ & _ & Hg & Hnone & _ & ->)%reserve_child_Ok. split; [done|].
  assert (pending_children who db !! key = None) as Hp.
  { apply eq_None_not_Some. intros [x [Hx _]%pending_lookup]. by rewrite Hnone in Hx. }
  destruct (decide (who = parent)) as [->|Hne].
  - transitivity (size (<[key := g]> (pending_children parent db)));
      [|rewrite map_size_insert_None by done; lia].
    f_equal. apply map_eq. intros k. apply option_eq. intros x.
    rewrite pending_lookup. cbn [grants]. destruct (decide (k = key)) as [->|Hk].
    + rewrite !lookup_insert_eq. split; [by intros [? _]|]. intros [= <-]. split; [done|].
      split_and!; [done| |done]. cbn. by rewrite lookup_insert_eq.
    + rewrite !lookup_insert_ne, pending_lookup by done. unfold is_pending. cbn.
      by rewrite lookup_insert_ne.
  - rewrite Nat.add_0_r. f_equal. apply map_eq. intros k. apply option_eq. intros x.
    rewrite !pending_lookup. cbn [grants]. destruct (decide (k = key)) as [->|Hk].
    + rewrite lookup_insert_eq, Hnone. split; [|by intros [? _]].
      intros [[= <-] (Hx & _)]. congruence.
    + rewrite lookup_insert_ne by done. unfold is_pending. cbn. by rewrite lookup_insert_ne.
Qed.

Lemma pending_shrink parent db db' :
  (∀ k, grants db' !! k = grants db !! k ∨ grants db' !! k = None) →
  (∀ k, is_Some (capabilities db' !! k) → is_Some (capabilities db !! k)) →
  (∀ k, sessions db' !! k = None → sessions db !! k = None) →
  (size (pending_children parent db') ≤ size (pending_children parent db))%nat.
Proof.
  intros Hg Hc Hs. apply size_le_dom. intros k [g [Hk (H1 & H2 & H3)]%pending_lookup].
  exists g. apply pending_lookup. destruct (Hg k) as [<-|Hn]; [|congruence].
  split; [done|]. split_and!; auto.
Qed.

Lemma live_same parent db db' : sessions db' = sessions db →
  live_children_of parent db' = live_children_of parent db.
Proof. unfold live_children_of. by intros ->. Qed.

Lemma insert_is_Some {A} (m : gmap string A) i x k : is_Some (m !! k) → is_Some (<[i := x]> m !! k).
Proof. rewrite lookup_insert_is_Some'. auto. Qed.

Lemma insert_None {A} (m : gmap string A) i x k : <[i := x]> m !! k = None → m !! k = None.
Proof. by intros [? _]%lookup_insert_None. Qed.

(** Only a reservation takes a slot: a registration under the reserved key
    moves its child from the pending to the live ones. *)
Lemma register_slots parent db key row :
  sessions db !! key = None →
  (is_live_child parent row = true → is_Some (pending_children parent db !! key)) →
  (slots parent (mk_db (<[key := row]> (sessions db)) (capabilities db) (grants db)) ≤
   slots parent db)%nat.
Proof.
  intros Hs Hrow. set (db' := mk_db _ _ _). unfold slots.
  assert (size (pending_children parent db') ≤ size (pending_children parent db))%nat as Hp
    by (apply pending_shrink; [auto|done|intros k; apply insert_None]).
  destruct (is_live_child parent row) eqn:El.
  - destruct (Hrow eq_refl) as [g Hg].
    assert (pending_children parent db' = delete key (pending_children parent db)) as ->.
    { apply map_eq. intros k. apply option_eq. intros x. rewrite pending_lookup, lookup_delete_Some,
        pending_lookup. unfold is_pending. cbn. destruct (decide (k = key)) as [->|Hk].
      - rewrite lookup_insert_eq. naive_solver.
      - rewrite lookup_insert_ne by done. naive_solver. }
    assert (live_children_of parent db' = <[key := row]> (live_children_of parent db)) as ->.
    { apply map_eq. intros k. apply option_eq. intros x. rewrite live_lookup. cbn.
      destruct (decide (k = key)) as [->|Hk].
      - rewrite !lookup_insert_eq. naive_solver.
      - rewrite !lookup_insert_ne, live_lookup by done. done. }
    rewrite map_size_insert_None
      by (apply eq_None_not_Some; intros [x [Hx _]%live_lookup]; congruence).
    rewrite map_size_delete, Hg.
    enough (size (pending_children parent db) ≠ 0)%nat by lia.
    apply map_size_ne_0_lookup_2 with key. by exists g.
  - assert (size (live_children_of parent db') ≤ size (live_children_of parent db))%nat; [|lia].
    apply size_le_dom. intros k [x [Hx Hl]%live_lookup]. cbn in Hx. exists x. apply live_lookup.
    destruct (decide (k = key)) as [->|Hk].
    + rewrite lookup_insert_eq in Hx. congruence.
    + by rewrite lookup_insert_ne in Hx.
Qed.

Lemma change_slots parent db key row row' :
  sessions db !! key = Some row →
  (is_live_child parent row' = true → is_live_child parent row = true) →
  (slots parent (mk_db (<[key := row']> (sessions db)) (capabilities db) (grants db)) ≤
   slots parent db)%nat.
Proof.
  intros Hs Hrow. unfold slots. apply Nat.add_le_mono.
  - apply size_le_dom. intros k [x [Hx Hl]%live_lookup]. cbn in Hx.
    destruct (decide (k = key)) as [->|Hk].
    + rewrite lookup_insert_eq in Hx. injection Hx as <-. exists row. apply live_lookup. auto.
    + rewrite lookup_insert_ne in Hx by done. exists x. by apply live_lookup.
  - apply pending_shrink; [auto|done|intros k; apply insert_None].
Qed.

(** The tables, and what they do not show of the children of one session: the
    ids of the children whose capability has moved to the id they register
    under and whose row is not stored yet, and how many rows became rows of live
    children otherwise. *)
Record SlotState := mk_slots { sl_db : ChildDb; sl_moving : gset string; sl_gained : nat }.

(** The children held: in a slot or on the way into one. *)
Definition taken (parent : string) (s : SlotState) : nat :=
  (slots parent (sl_db s) + size (sl_moving s))%nat.

(** What changes the tables as far as the children of [parent] go, one statement
    or transaction at a time.  A registration takes two: the capability of a
    reservation moves to the child's id, then its row is stored.  A row is
    stored or changed in any way; one that makes a live child without a
    reservation (an archived or failed child that comes back, a session its
    machine reports under this parent) is counted, and so is a capability that
    is granted to a reserved key again. *)
Inductive slot_step (parent : string) (cap : SpawnCapability) (overlap : nat) : SlotState → SlotState → Prop :=
| ss_reserve db moving gained req mode key committed a c db' :
    sessions db !! key = None → (size moving ≤ overlap)%nat →
    reserve_child db parent (Some cap) req mode key committed = Ok (a, c, db') →
    slot_step parent cap overlap (mk_slots db moving gained) (mk_slots db' moving gained)
| ss_reserve_other db moving gained other cap' req mode key committed a c db' :
    sessions db !! key = None → other ≠ parent →
    reserve_child db other cap' req mode key committed = Ok (a, c, db') →
    slot_step parent cap overlap (mk_slots db moving gained) (mk_slots db' moving gained)
| ss_release db moving gained key cap_gone grant_gone :
    slot_step parent cap overlap (mk_slots db moving gained)
      (mk_slots (release_child key cap_gone grant_gone db) moving gained)
| ss_move db moving gained key id :
    key ≠ id → grants db !! id = None →
    slot_step parent cap overlap (mk_slots db moving gained)
      (mk_slots (cap_rebind key id db)
         (if decide (is_Some (pending_children parent db !! key) ∧ capabilities db !! id = None)
          then {[id]} ∪ moving else moving) gained)
| ss_register db moving gained key row :
    sessions db !! key = None →
    (is_live_child parent row = true → is_Some (pending_children parent db !! key) ∨ key ∈ moving) →
    slot_step parent cap overlap (mk_slots db moving gained)
      (mk_slots (mk_db (<[key := row]> (sessions db)) (capabilities db) (grants db)) (moving ∖ {[key]}) gained)
| ss_lost db moving gained key :
    slot_step parent cap overlap (mk_slots db moving gained) (mk_slots db (moving ∖ {[key]}) gained)
| ss_change db moving gained key row row' :
    sessions db !! key = Some row →
    (is_live_child parent row' = true → is_live_child parent row = true) →
    slot_step parent cap overlap (mk_slots db moving gained)
      (mk_slots (mk_db (<[key := row']> (sessions db)) (capabilities db) (grants db)) moving gained)
| ss_gain db moving gained key row :
    slot_step parent cap overlap (mk_slots db moving gained)
      (mk_slots (mk_db (<[key := row]> (sessions db)) (capabilities db) (grants db)) moving (S gained))
| ss_grant db moving gained key c :
    slot_step parent cap overlap (mk_slots db moving gained)
      (mk_slots (cap_upsert key c db) moving
         (if decide (is_Some (grants db !! key)) then S gained else gained))
| ss_end db moving gained key :
    slot_step parent cap overlap (mk_slots db moving gained) (mk_slots (cap_delete key db) moving gained).

Lemma release_slots parent db key cap_gone grant_gone :
  (slots parent (release_child key cap_gone grant_gone db) ≤ slots parent db)%nat.
Proof.
  set (dbr := release_child _ _ _ _).
  assert (size (pending_children parent dbr) ≤ size (pending_children parent db))%nat as Hp.
  { unfold dbr, release_child. destruct cap_gone, grant_gone; apply pending_shrink;
      cbn; auto; intros k; rewrite ?lookup_delete_is_Some; try tauto.
    destruct (decide (k = key)) as [->|?];
      [rewrite lookup_delete_eq|rewrite lookup_delete_ne by done]; auto. }
  unfold slots in *. rewrite (live_same parent db dbr); [lia|].
  unfold dbr, release_child. by destruct cap_gone, grant_gone.
Qed.

(** One key more or less among the reserved children. *)
Lemma pending_but_one parent db db' key :
  (∀ k, k ≠ key → is_Some (pending_children parent db' !! k) → is_Some (pending_children parent db !! k)) →
  (size (pending_children parent db') ≤ S (size (pending_children parent db)))%nat.
Proof.
  intros Hk. rewrite <-!size_dom.
  assert (dom (pending_children parent db') ⊆ {[key]} ∪ dom (pending_children parent db)) as Hs.
  { intros k. rewrite elem_of_union, elem_of_singleton, !elem_of_dom.
    destruct (decide (k = key)); [by left|right]. by apply Hk. }
  apply subseteq_size in Hs. pose proof (size_union_alt {[key]} (dom (pending_children parent db))) as Hu.
  pose proof (subseteq_size (dom (pending_children parent db) ∖ {[key]}) (dom (pending_children parent db))
    ltac:(set_solver)). rewrite size_singleton in Hu. lia.
Qed.

Lemma gain_slots parent db key row :
  (slots parent (mk_db (<[key := row]> (sessions db)) (capabilities db) (grants db)) ≤ S (slots parent db))%nat.
Proof.
  unfold slots.
  assert (size (live_children_of parent (mk_db (<[key := row]> (sessions db)) (capabilities db) (grants db)))
          ≤ S (size (live_children_of parent db)))%nat.
  { rewrite <-(size_dom (D := gset string)), <-(size_dom (D := gset string) (live_children_of parent db)).
    set (m := live_children_of parent _). set (m0 := live_children_of parent db).
    assert (dom m ⊆ {[key]} ∪ dom m0) as Hs.
    { intros k. rewrite elem_of_union, elem_of_singleton, !elem_of_dom. intros [x [Hx Hl]%live_lookup].
      cbn in Hx. destruct (decide (k = key)) as [->|Hk]; [by left|right].
      rewrite lookup_insert_ne in Hx by done. exists x. by apply live_lookup. }
    apply subseteq_size in Hs. pose proof (size_union_alt {[key]} (dom m0)) as Hu.
    pose proof (subseteq_size (dom m0 ∖ {[key]}) (dom m0) ltac:(set_solver)). rewrite size_singleton in Hu. lia. }
  assert (size (pending_children parent (mk_db (<[key := row]> (sessions db)) (capabilities db) (grants db)))
          ≤ size (pending_children parent db))%nat
    by (apply pending_shrink; [auto|done|intros k; apply insert_None]). lia.
Qed.

Lemma move_slots parent db key id :
  key ≠ id → grants db !! id = None →
  (slots parent (cap_rebind key id db) +
   (if decide (is_Some (pending_children parent db !! key) ∧ capabilities db !! id = None) then 1 else 0)
   ≤ slots parent db)%nat.
Proof.
  intros Hne Hg. unfold cap_rebind, slots.
  destruct (capabilities db !! key) as [c|] eqn:Ec.
  2:{ rewrite decide_False; [lia|]. intros [[x [_ (_ & [? Hx] & _)]%pending_lookup] _]. congruence. }
  destruct (capabilities db !! id) as [c'|] eqn:Ei; [rewrite decide_False by (by intros [_ ?]); lia|].
  set (db' := set_capabilities _ db).
  assert (pending_children parent db' = delete key (pending_children parent db)) as ->.
  { apply map_eq. intros k. apply option_eq. intros x. rewrite pending_lookup, lookup_delete_Some, pending_lookup.
    unfold is_pending. cbn. destruct (decide (k = id)) as [->|Hk].
    { rewrite Hg. naive_solver. }
    rewrite lookup_insert_ne by done. destruct (decide (k = key)) as [->|Hk'].
    - rewrite lookup_delete_eq. split; [|naive_solver]. intros (_ & _ & [? Hx] & _). done.
    - rewrite lookup_delete_ne by done. naive_solver. }
  rewrite (live_same parent db db') by done. rewrite map_size_delete.
  destruct (pending_children parent db !! key) as [g|] eqn:Ep.
  - rewrite decide_True by eauto. assert (size (pending_children parent db) ≠ 0)%nat; [|lia].
    apply map_size_ne_0_lookup_2 with key. by exists g.
  - rewrite decide_False by (by intros [[? ?] _]). cbn [Datatypes.id]. lia.
Qed.

(** A registration under a moved id: a live child more, one less on its way. *)
Lemma register_held parent db (moving : gset string) key row :
  sessions db !! key = None →
  (is_live_child parent row = true → is_Some (pending_children parent db !! key) ∨ key ∈ moving) →
  (slots parent (mk_db (<[key := row]> (sessions db)) (capabilities db) (grants db)) + size (moving ∖ {[key]})
   ≤ slots parent db + size moving)%nat.
Proof.
  intros Hs Hrow. pose proof (subseteq_size (moving ∖ {[key]}) moving ltac:(set_solver)).
  destruct (decide (is_live_child parent row = true → is_Some (pending_children parent db !! key))) as [Hp|Hp].
  - pose proof (register_slots parent db key row Hs Hp). lia.
  - assert (key ∈ moving) as Hin by (destruct (is_live_child parent row); naive_solver).
    pose proof (gain_slots parent db key row). rewrite size_difference by set_solver.
    rewrite size_singleton. assert (size moving ≠ 0)%nat by (apply size_non_empty_iff; set_solver). lia.
Qed.

Definition slots_within (parent : string) (max : N) (overlap : nat) (s : SlotState) : Prop :=
  (N.of_nat (taken parent s) ≤ max + N.of_nat overlap + N.of_nat (sl_gained s))%N.

Lemma reserve_within parent cap max overlap db moving gained req mode key committed a c db' :
  max_children cap = Some max → (max ≤ u32_max)%N → number (max_budget_usd cap) →
  sessions db !! key = None → (size moving ≤ overlap)%nat →
  reserve_child db parent (Some cap) req mode key committed = Ok (a, c, db') →
  slots_within parent max overlap (mk_slots db' moving gained).
Proof.
  intros Hc Hm Hn Hs Ho Hr. pose proof (reserve_pending _ _ _ _ _ _ _ _ _ _ parent Hs Hr) as [Hl Hp].
  rewrite decide_True in Hp by done. unfold slots_within, taken, slots. cbn [sl_db sl_moving sl_gained]. rewrite Hl, Hp.
  apply reserve_child_Ok in Hr as (cp & g & u & [= <-] & Ha & Hu & _).
  apply authorize_Ok in Ha as (? & [= <-] & Hperm & _). specialize (Hperm Hn).
  pose proof (pm_children _ _ _ Hperm max Hc) as Hlt. rewrite Hu in Hlt.
  pose proof (used_slots_exact parent _ max Hm Hlt) as He. rewrite He in Hlt. unfold slots in Hlt. lia.
Qed.

Lemma slot_step_bounded parent cap max overlap s s' :
  max_children cap = Some max → (max ≤ u32_max)%N → number (max_budget_usd cap) →
  slot_step parent cap overlap s s' → slots_within parent max overlap s → slots_within parent max overlap s'.
Proof.
  intros Hc Hm Hn Hstep Hs. destruct Hstep as [db moving gained req mode key committed a c db' Hk Ho Hr
    |db moving gained other cap' req mode key committed a c db' Hk Ho Hr|db moving gained key cg gg
    |db moving gained key id Hne Hg|db moving gained key row Hk Hrow|db moving gained key
    |db moving gained key row row' Hk Hrow|db moving gained key row|db moving gained key c|db moving gained key];
    [by eapply reserve_within|..]; unfold slots_within, taken in *; cbn [sl_db sl_moving sl_gained] in *.
  - pose proof (reserve_pending _ _ _ _ _ _ _ _ _ _ parent Hk Hr) as [Hl Hp].
    rewrite decide_False in Hp by done. unfold slots in *. rewrite Hl, Hp. lia.
  - pose proof (release_slots parent db key cg gg). lia.
  - pose proof (move_slots parent db key id Hne Hg) as Hmv. destruct (decide _); [|lia].
    pose proof (size_union_alt {[id]} moving) as Hu. rewrite size_singleton in Hu.
    pose proof (subseteq_size (moving ∖ {[id]}) moving ltac:(set_solver)). lia.
  - pose proof (register_held parent db moving key row Hk Hrow). lia.
  - pose proof (subseteq_size (moving ∖ {[key]}) moving ltac:(set_solver)). lia.
  - pose proof (change_slots parent db key row row' Hk Hrow). lia.
  - pose proof (gain_slots parent db key row). lia.
  - unfold slots in *. rewrite (live_same parent db (cap_upsert key c db)) by done.
    assert (∀ k x, (k = key → grants db !! key = None) → pending_children parent (cap_upsert key c db) !! k = Some x →
      is_Some (pending_children parent db !! k)) as Hsame.
    { intros k x Hkk [Hx (H1 & H2 & H3)]%pending_lookup. cbn in *. exists x. apply pending_lookup.
      split; [done|]. split_and!; [done| |done].
      destruct (decide (k = key)) as [->|?]; [by rewrite Hkk in Hx|]. by rewrite lookup_insert_ne in H2. }
    destruct (decide (is_Some (grants db !! key))) as [Hg|Hg].
    + pose proof (pending_but_one parent db (cap_upsert key c db) key) as Hb.
      assert (size (pending_children parent (cap_upsert key c db)) ≤ S (size (pending_children parent db)))%nat; [|lia].
      apply Hb. intros k Hk [x Hx]. by eapply Hsame.
    + assert (size (pending_children parent (cap_upsert key c db)) ≤ size (pending_children parent db))%nat; [|lia].
      apply size_le_dom. intros k [x Hx]. eapply Hsame; [|exact Hx]. intros _. by apply eq_None_not_Some.
  - assert (size (pending_children parent (cap_delete key db)) ≤ size (pending_children parent db))%nat as Hp.
    { apply pending_shrink; cbn; auto. intros k. rewrite lookup_delete_is_Some. tauto. }
    unfold slots in *. rewrite (live_same parent db) by done. lia.
Qed.


End slots.

(** ** Spawning a child *)

Section spawning.
Context `{TableScan}.

(** The spawn that [spawn_child] delivers, and the state it leaves. *)
Lemma deliver_child_cases parent child spec io st res sent st' :
  deliver_child parent child spec io st = (res, sent, st') →
  cdb st' = cdb st ∧ cap_cache st' = cap_cache st ∧
  (∀ e, res = Err e → usd_budgets st !! child = None → usd_budgets st' = usd_budgets st) ∧
  (res = Ok tt → sent ≠ None) ∧
  ∀ s, sent = Some s → ∃ spawn r db, ms_spec spawn = spec ∧
    fs_session_id (ms_failed spawn) = child ∧ launch_db st' = db ∧
    launch_durable (ci_spawner io) spawn (ci_launch io) (ci_now io) (launch_db st) = (r, Some s, db).
Proof.
  unfold deliver_child. set (st1 := match _ with Some _ => _ | None => st end).
  set (spawn := mk_spawn _ _ _ _ _ _).
  assert (cdb st1 = cdb st ∧ cap_cache st1 = cap_cache st ∧ launch_db st1 = launch_db st ∧
          (usd_budgets st !! child = None → delete child (usd_budgets st1) = usd_budgets st))
    as (E1 & E2 & E3 & E4).
  { unfold st1. destruct (_ ≫= max_budget_usd); cbn; split_and!; try done; intros Hx.
    - rewrite delete_insert_eq. by apply delete_id.
    - by apply delete_id. }
  rewrite E3. destruct (launch_durable _ _ _ _ _) as [[r s] db] eqn:El.
  assert (r = Ok tt → s ≠ None) as Hsent.
  { intros ->. destruct (launch_durable_cases _ _ _ _ _ _ _ _ El) as [(_ & ? & _)|(? & ? & ? & ? & -> & _)];
      [congruence|done]. }
  destruct r as [[]|e]; intros [= <- <- <-]; cbn; (split_and!; [done|done|..]);
    try (by intros ? ? ?); try (by intros [=]); try (by auto);
    intros x ->; eexists spawn, _, db; by split_and!.
Qed.

Lemma capability_for_cdb session read st c st' :
  capability_for session read st = (c, st') →
  cdb st' = cdb st ∧ usd_budgets st' = usd_budgets st ∧ launch_db st' = launch_db st ∧
  ∀ k, k ≠ session → cap_cache st' !! k = cap_cache st !! k.
Proof.
  unfold capability_for. destruct (cap_cache st !! session); [intros [= <- <-]; done|].
  destruct read; [|intros [= <- <-]; done]. destruct (cap_get session (cdb st));
    intros [= <- <-]; [|done]. cbn. split_and!; [done..|]. intros k Hk. by rewrite lookup_insert_ne.
Qed.

(** Taking a fresh reservation back leaves the tables as they were. *)
Lemma release_fresh io st db key c g :
  ci_child_id io = key → ci_cap_gone io = true → ci_grant_gone io = true →
  capabilities db !! key = None → grants db !! key = None →
  cdb st = mk_db (sessions db) (<[key := c]> (capabilities db)) (<[key := g]> (grants db)) →
  cdb (release io st) = db.
Proof.
  intros <- H1 H2 Hc Hg Hst. unfold release, release_child. rewrite H1, H2. cbn. rewrite Hst. cbn.
  unfold set_tree_grants, set_capabilities. cbn.
  rewrite !delete_insert_eq, !delete_id by done. by destruct db.
Qed.

(** A fresh key: nothing is stored under it. *)
Definition fresh_key (key : string) (st : ChildState) : Prop :=
  capabilities (cdb st) !! key = None ∧ grants (cdb st) !! key = None ∧
  cap_cache st !! key = None ∧ usd_budgets st !! key = None.

(** What a release leaves of the tables at the other keys, and what it leaves
    when both of its deletes succeed. *)
Definition only_own (key : string) (db db' : ChildDb) : Prop :=
  sessions db' = sessions db ∧
  ∀ k, k ≠ key → capabilities db' !! k = capabilities db !! k ∧ grants db' !! k = grants db !! k.

Lemma release_own io st db key c g :
  ci_child_id io = key →
  cdb st = mk_db (sessions db) (<[key := c]> (capabilities db)) (<[key := g]> (grants db)) →
  only_own key db (cdb (release io st)).
Proof.
  intros <- Hst. unfold release, release_child. cbn. rewrite Hst.
  destruct (ci_cap_gone io), (ci_grant_gone io); (split; [done|]); intros k Hk; cbn;
    by rewrite ?lookup_delete_ne, ?lookup_insert_ne by done.
Qed.

Lemma deliver_child_launches parent child spec io st res sent st' :
  deliver_child parent child spec io st = (res, sent, st') →
  policies (launch_db st') = policies (launch_db st) ∧
  (launches (launch_db st') = launches (launch_db st) ∨
   ∃ l, launches (launch_db st') = launches (launch_db st) ++ [l] ∧ session_id l = child).
Proof.
  unfold deliver_child. set (st1 := match _ with Some _ => _ | None => st end).
  set (spawn := mk_spawn _ _ _ _ _ _).
  assert (launch_db st1 = launch_db st) as -> by (subst st1; by destruct (_ ≫= _)).
  destruct (launch_durable _ _ _ _ _) as [[r s] db] eqn:El. apply launch_grows in El.
  destruct r; intros [= <- <- <-]; exact El.
Qed.

(** A failed spawn, whatever becomes of its release. *)
Definition left_behind (io : ChildIo) (st st' : ChildState) : Prop :=
  only_own (ci_child_id io) (cdb st) (cdb st') ∧
  (ci_cap_gone io = true → ci_grant_gone io = true → cdb st' = cdb st) ∧
  usd_budgets st' = usd_budgets st ∧ cap_cache st' !! ci_child_id io = None ∧
  policies (launch_db st') = policies (launch_db st) ∧
  (launches (launch_db st') = launches (launch_db st) ∨
   ∃ l, launches (launch_db st') = launches (launch_db st) ++ [l] ∧ session_id l = ci_child_id io).

Lemma only_own_refl key db : only_own key db db.
Proof. by split. Qed.

Lemma release_leaves io st st3 c g :
  cdb st3 = mk_db (sessions (cdb st)) (<[ci_child_id io := c]> (capabilities (cdb st)))
              (<[ci_child_id io := g]> (grants (cdb st))) →
  usd_budgets st3 = usd_budgets st →
  capabilities (cdb st) !! ci_child_id io = None → grants (cdb st) !! ci_child_id io = None →
  cap_cache st3 !! ci_child_id io = None → policies (launch_db st3) = policies (launch_db st) →
  (launches (launch_db st3) = launches (launch_db st) ∨
   ∃ l, launches (launch_db st3) = launches (launch_db st) ++ [l] ∧ session_id l = ci_child_id io) →
  left_behind io st (release io st3).
Proof.
  intros E1 E2 F1 F2 E3 E4 E5. split_and!; [by eapply release_own|intros G1 G2|done..].
  by eapply release_fresh.
Qed.


(** C12. Whatever reaches a machine as a child's spec is within the capability of the
    session that asked and within its live posture, and carries its parent's
    rules behind the side-door rule.  When the spawn succeeds, the child's own
    capability is the inherited one and its budget is in force. *)
Theorem spawned_child_confined caller session req io st res spec st' :
  spawn_child caller session req io st = (res, Some spec, st') →
  db_ok (launch_db st) →
  (∀ c, (capability_for session (ci_cap_read io) st).1 = Some c → number (max_budget_usd c)) →
  ∃ c a row rules,
    (capability_for session (ci_cap_read io) st).1 = Some c ∧
    sessions (cdb st) !! session = Some row ∧ s_user_id row = Some caller ∧
    adapter_id spec ∈ adapters c ∧ adapter_id spec = a_adapter a ∧
    permission_mode spec = Some (a_permission_mode a) ∧
    (∀ m, max_permission_mode c = Some m → mode_within (a_permission_mode a) m = true) ∧
    (∀ m, s_permission_mode row ≫= from_session_label = Some m →
       mode_within (a_permission_mode a) m = true) ∧
    at_most (a_budget_usd a) (max_budget_usd c) ∧
    hook_policy spec = Some (mk_hooks rules) ∧ carried_ok rules ∧
    sp_rules (for_session session (launch_db st)) `prefix_of` rules ∧
    (∀ r, res = Ok r →
       r = (ci_child_id io, a_budget_usd a) ∧
       capabilities (cdb st') !! ci_child_id io =
         Some (inherited c session (a_budget_usd a) (Some (a_permission_mode a))) ∧
       (∀ b, a_budget_usd a = Some b → usd_budgets st' !! ci_child_id io = Some b)).
Proof.
  intros Hsp Hdb Hnum. unfold spawn_child in Hsp.
  destruct (_ && negb (ci_profiles io)); [discriminate|].
  destruct (load_parent _ _ _ _) as [parent|] eqn:El; [|discriminate].
  destruct (for_child _ _ _ _) as [policy|] eqn:Ef; [|discriminate].
  destruct (capability_for _ _ _) as [cap st1] eqn:Ec.
  pose proof (capability_for_cdb _ _ _ _ _ Ec) as (C1 & C2 & C3 & _).
  destruct (reserve_child _ _ _ _ _ _ _) as [[[a cc] db]|] eqn:Er; [|discriminate].
  apply reserve_child_Ok in Er as (c & g & u & -> & Ha & _ & Hmode & _ & _ & _ & Hcc & ->).
  destruct (from_adapter _) as [family|]; [|discriminate].
  destruct (ci_account_env io) as [[env cm]|]; [|discriminate].
  destruct (deliver_child _ _ _ _ _) as [[r s] st4] eqn:Ed.
  destruct (deliver_child_cases _ _ _ _ _ _ _ _ Ed) as (D1 & _ & _ & _ & D5).
  assert (s = Some spec) as -> by (by destruct r; injection Hsp as _ -> _).
  destruct (D5 spec eq_refl) as (spawn & lr & ldb & Hspec & _ & _ & Hl).
  apply launch_durable_cases in Hl as [[? _]|(rules & p & spec2 & db1 & [= <-] & _ & Hatt & _)]; [done|].
  apply attach_spec in Hatt as Hatt'. destruct Hatt' as (Hok & Hhp & Hpre).
  assert (spec = set_hook_policy (Some (mk_hooks (sp_rules p))) (ms_spec spawn)) as Hs.
  { unfold attach in Hatt. destruct (carry _ _); [|done]. by injection Hatt as -> <-. }
  unfold load_parent in El. destruct (ci_parent_read io); [|done]. cbn [negb] in El.
  destruct (sessions (cdb st) !! session) as [row|] eqn:Erow; [|done].
  destruct (s_machine_uuid row) as [mu|]; [|done]. destruct (s_user_id row) as [us|] eqn:Eus; [|done].
  destruct (us ==s caller) eqn:Eu; [|done]. apply String.eqb_eq in Eu as ->. injection El as <-.
  apply authorize_Ok in Ha as (? & [= <-] & Hperm & _). specialize (Hperm (Hnum c eq_refl)).
  exists c, a, row, (sp_rules p). rewrite Hs, Hspec. cbn. split_and!; try done.
  - apply Hperm.
  - apply Hperm.
  - intros m Hm. apply (pm_parent _ _ _ Hperm). by rewrite Hmode.
  - apply Hperm.
  - destruct (for_session_ok session (launch_db st) Hdb) as [-> |Hc]; [apply prefix_nil|].
    apply Hpre; [done|]. exists policy. rewrite Hspec. split; [done|]. by eapply for_child_keeps.
  - intros x ->. destruct r as [[]|]; [|discriminate]. injection Hsp as <- <-.
    split; [done|].
    destruct (a_budget_usd a) as [b|]; cbn.
    + rewrite D1. cbn. rewrite lookup_insert_eq. split; [by rewrite Hcc|].
      intros ? [= <-]. by rewrite lookup_insert_eq.
    + rewrite D1. cbn. rewrite lookup_insert_eq. by rewrite Hcc.
Qed.

End spawning.

(** ** Examples *)

Section child_examples.

#[local] Instance ex_scan : TableScan.
Proof. refine {| scan m := (map_to_list m).*2 |}. done. Defined.

Definition ex_two : f64 := SpecFloat.S754_finite false 4503599627370496 (-51).
Definition ex_eight : f64 := SpecFloat.S754_finite false 4503599627370496 (-49).

Definition ex_cap : SpawnCapability :=
  mk_cap ["claude-code"; "codex"] (Some ex_eight) (Some 1%N) (Some Auto) (Some 2%N) None None.

Definition ex_request (budget : option f64) (mode : option PermissionMode) : SpawnChildRequest :=
  mk_request " claude-code " None "go" None budget None mode None [].

Definition ex_row (parent : option string) : SessionRow :=
  mk_session parent None "active" None (Some "m") (Some "/w") (Some "u") (Some "auto")
    (Some "claude-code").

Definition ex_db : ChildDb := mk_db {[ "p" := ex_row None ]} {[ "p" := ex_cap ]} ∅.

Definition ex_reserve (key : string) (db : ChildDb) : result AppError (Authorized * SpawnCapability * ChildDb) :=
  reserve_child db "p" (Some ex_cap) (ex_request None None) (Some Auto) key true.

Definition ok_db (r : result AppError (Authorized * SpawnCapability * ChildDb)) : ChildDb :=
  match r with Ok (_, _, db) => db | Err _ => ex_db end.

Lemma ex_reserve_step overlap key db moving :
  sessions db !! key = None → (size moving ≤ overlap)%nat → is_ok (ex_reserve key db) = true →
  slot_step "p" ex_cap overlap (mk_slots db moving 0) (mk_slots (ok_db (ex_reserve key db)) moving 0).
Proof.
  intros Hk Ho Hok. destruct (ex_reserve key db) as [[[a c] db']|] eqn:E; [|done]. cbn [ok_db].
  by eapply ss_reserve.
Qed.


(** The top session spawns a child, and the child a child of its own. *)
Definition ex_line : list Spawned :=
  [mk_spawned "p" "p" (mk_authorized "claude-code" (Some ex_two) Auto);
   mk_spawned "k" "p" (mk_authorized "claude-code" (Some ex_two) Ask)].

Lemma ceilings_only_shrink_witness :
  ∃ c', lineage ex_cap ex_line c' ∧ max_depth c' = Some 0%N ∧ tree_root c' = Some "p".
Proof.
  assert (∃ c', lineage ex_cap ex_line c') as [c' H].
  { eexists. eapply (lin_cons _ "p" ex_db (ex_request (Some ex_two) None) (Some Auto) "k" true _ _ _ _
      (mk_grant "p" "p" f64_zero)).
    1-3: vm_compute; reflexivity.
    eapply (lin_cons _ "k" ex_db (ex_request None (Some Ask)) (Some Auto) "k2" true _ _ _ _
      (mk_grant "p" "k" f64_zero)).
    1-3: vm_compute; reflexivity.
    apply lin_nil. }
  exists c'. split; [exact H|].
  apply ceilings_only_shrink in H; [|by intros ? [= <-]].
  destruct H as (_ & _ & H & _ & _ & Ht). split; [apply (H 2%N eq_refl)|].
  apply (Ht _ _ "p" eq_refl eq_refl).
Defined.

Definition ex_state : ChildState := mk_state ex_db ∅ ∅ (mk_launches [] ∅).

Definition ex_cio (sent : result string unit) : ChildIo :=
  mk_cio false true (Ok []) true "k" true (Ok (∅, None)) "default" "u"
    (mk_io (Ok []) true true sent None true) 1 true true.

Definition ex_spawned (sent : result string unit) :=
  spawn_child "u" "p" (ex_request None None) (ex_cio sent) ex_state.


Lemma spawned_child_confined_witness :
  ∃ res spec st', ex_spawned (Ok tt) = (res, Some spec, st') ∧
    ∃ m, permission_mode spec = Some m ∧ mode_within m Auto = true.
Proof.
  destruct (ex_spawned (Ok tt)) as [[res [spec|]] st'] eqn:E.
  2: { exfalso. revert E. vm_compute. discriminate. }
  exists res, spec, st'. split; [reflexivity|].
  destruct (spawned_child_confined _ _ _ _ _ _ _ _ E) as
    (c & a & row & rules & Hc & _ & _ & _ & _ & Hm & Hw & _).
  - split; [by constructor|apply map_Forall_empty].
  - vm_compute. intros c [= <-]. intros ? [= <-]. reflexivity.
  - exists (a_permission_mode a). split; [exact Hm|]. apply Hw.
    revert Hc. vm_compute. intros [= <-]. reflexivity.
Defined.

Definition ex_register (key : string) (db : ChildDb) : ChildDb :=
  mk_db (<[key := ex_row (Some "p")]> (sessions db)) (capabilities db) (grants db).

Lemma ex_register_step key db moving moving' :
  sessions db !! key = None → bool_decide (is_Some (pending_children "p" db !! key)) || bool_decide (key ∈ moving) = true →
  moving ∖ {[key]} = moving' →
  slot_step "p" ex_cap 1 (mk_slots db moving 0) (mk_slots (ex_register key db) moving' 0).
Proof.
  intros Hk Hp <-. apply ss_register; [done|]. intros _.
  apply orb_true_iff in Hp as [Hp|Hp]; apply bool_decide_eq_true in Hp; auto.
Qed.

Lemma ex_move_step key id db :
  key ≠ id → grants db !! id = None → capabilities db !! id = None →
  bool_decide (is_Some (pending_children "p" db !! key)) = true →
  slot_step "p" ex_cap 1 (mk_slots db ∅ 0) (mk_slots (cap_rebind key id db) {[id]} 0).
Proof.
  intros Hne Hg Hc Hp. apply bool_decide_eq_true in Hp. pose proof (ss_move "p" ex_cap 1 db ∅ 0 key id Hne Hg) as H'.
  rewrite decide_True in H' by done. by rewrite union_empty_r_L in H'.
Qed.

(** The workspace host moves the capability of a child to the id it registers
    under before it stores the child's session.  In between the child holds no
    slot, so a second child is granted and the cap of one is exceeded: the bound
    for one registration under way is met. *)
Example rebind_frees_slot :
  let reserved := ok_db (ex_reserve "k" ex_db) in
  let rebound := cap_rebind "k" "thread" reserved in
  let both := ex_register "k2" (ex_register "thread" (ok_db (ex_reserve "k2" rebound))) in
  used_slots "p" reserved = 1%N ∧ used_slots "p" rebound = 0%N ∧ used_slots "p" both = 2%N ∧
  rtc (slot_step "p" ex_cap 1) (mk_slots ex_db ∅ 0) (mk_slots both ∅ 0).
Proof.
  split_and!; [vm_compute; reflexivity..|].
  eapply rtc_l; [apply (ex_reserve_step 1 "k"); vm_compute; repeat constructor|].
  eapply rtc_l; [apply (ex_move_step "k" "thread"); [done|vm_compute; reflexivity..]|].
  eapply rtc_l; [apply (ex_reserve_step 1 "k2"); vm_compute; repeat constructor|].
  eapply rtc_l; [apply (ex_register_step "thread" _ _ ∅); vm_compute; reflexivity|].
  apply rtc_once, ex_register_step; vm_compute; reflexivity.
Qed.

(** A child that ended and is launched again is granted the default: the
    ceilings it was spawned under are gone with its row. *)
Example ended_child_unbounded :
  let c := inherited ex_cap "p" (Some ex_two) (Some Ask) in
  let st := mk_state (mk_db ∅ {[ "k" := c ]} ∅) {[ "k" := c ]} {[ "k" := ex_two ]} (mk_launches [] ∅) in
  (spawn_capability_for "k" true machine_default (Some false) true st).1 = Some c ∧
  (spawn_capability_for "k" true machine_default (Some false) true
     (revoke_session_tokens "k" true st)).1 = Some machine_default.
Proof. vm_compute. split; reflexivity. Qed.

End child_examples.
