(* ===== verification/Transcript.v ===== *)
(** * The transcript store of the terminal UI

    [conversation_store.rs] keeps one list of transcript lines per session,
    ordered by the server's [seq]: history pages and live events land in it in
    whatever order they arrive.  The lines themselves are the records of
    [state.rs].

    Notation of the model: a [seq] (an [i64]) is a [Z], with the wrap-around of
    its one subtraction written out; the [u64] counters are [N] modulo [2^64];
    the [HashSet] of seqs is a [gset]; a [Vec] is a list.  A method that takes
    [&mut self] is a function from store to store, with its result first.
    [partition_point] is the length of the longest prefix on which the predicate
    holds, which is what the binary search returns on a list the predicate
    partitions: the invariant of [TranscriptFacts] shows every list it meets is
    one. *)

From stdpp Require Import base decidable list strings gmap sorting.
From Stdlib Require Import Lia ZArith Bool Ascii String.
From S2P Require Import Prelude RustStr Json.

Open Scope string_scope.
Open Scope list_scope.
Open Scope rust_scope.

(** ** Lines ([state.rs]) *)

Inductive ToolCategory := CatRead | CatWrite | CatMcp | CatServer | CatOther.

Inductive LineKind :=
| KUser
| KAssistant
| KThinking (redacted : bool)
| KTool (category : ToolCategory)
| KResult (error : bool)
| KPeer
| KContext
| KMarker
| KReset
| KCompact
| KSummary
| KSystem
| KReply
| KImage.

Inductive LineStatus :=
| Sending
| Retrying (attempt max : N)
| Delivered
| Failed (reason : string)
| Queued
| Removed.

#[export] Instance ToolCategory_eq_dec : EqDecision ToolCategory.
Proof. solve_decision. Defined.
#[export] Instance LineKind_eq_dec : EqDecision LineKind.
Proof. solve_decision. Defined.
#[export] Instance LineStatus_eq_dec : EqDecision LineStatus.
Proof. solve_decision. Defined.

Record TurnFooter := mk_footer {
  duration_ms : option N;
  tokens_in : option N;
  tokens_out : option N;
  needs_action : bool
}.

Record ContextBlock := mk_context { cb_label : string; cb_body : string }.

Record ConversationLine := mk_line {
  timestamp : Z;
  kind : LineKind;
  text : string;
  tool_input : option Value;
  tool : option string;
  tool_use_id : option string;
  answers : option string;
  message_id : option string;
  turn_id : option string;
  peer_from : option string;
  peer_room : option string;
  footer : option TurnFooter;
  status : option LineStatus;
  image_ids : list string;
  context : list ContextBlock
}.

(** [ConversationLine::new]. *)
Definition new_line (k : LineKind) (t : string) (ts : Z) : ConversationLine :=
  mk_line ts k t None None None None None None None None None None [] [].

Definition with_status (s : LineStatus) (l : ConversationLine) : ConversationLine :=
  mk_line (timestamp l) (kind l) (text l) (tool_input l) (tool l) (tool_use_id l) (answers l)
    (message_id l) (turn_id l) (peer_from l) (peer_room l) (footer l) (Some s) (image_ids l)
    (context l).

(** The assignment [line.answers = a]. *)
Definition set_answers (a : option string) (l : ConversationLine) : ConversationLine :=
  mk_line (timestamp l) (kind l) (text l) (tool_input l) (tool l) (tool_use_id l) a
    (message_id l) (turn_id l) (peer_from l) (peer_room l) (footer l) (status l) (image_ids l)
    (context l).

Definition collapsible (l : ConversationLine) : bool :=
  match kind l with
  | KThinking _ | KResult _ | KCompact | KContext => true
  | _ => negb (bool_decide (List.length (context l) = 0%nat))
  end.

(** ** Paging requests *)

Definition PAGE_LIMIT : Z := 200.
Definition MAX_STORES : nat := 24.
Definition MAX_ENTRIES : nat := N.to_nat 5000.

Record PageRequest := mk_page { before : option Z; after : option Z; limit : option Z }.

Definition page_latest (n : Z) : PageRequest := mk_page None None (Some n).
Definition page_before (seq n : Z) : PageRequest := mk_page (Some seq) None (Some n).
Definition page_after (seq : Z) : PageRequest := mk_page None (Some seq) None.

Inductive PageKind := Latest | Older | Gap.

#[export] Instance PageKind_eq_dec : EqDecision PageKind.
Proof. solve_decision. Defined.

(** ** The store *)

Record Entry := mk_entry {
  e_seq : Z;
  sequenced : bool;
  e_line : ConversationLine;
  expanded : bool
}.

Record Merge := mk_merge { inserted : nat; reordered : bool }.

Record ConversationStore := mk_store {
  entries : list Entry;
  seqs : gset Z;
  etag : option string;
  epoch : N;
  loaded : bool;
  has_more_older : bool;
  loading_older : bool;
  older_claim : option N;
  next_claim : N;
  touched : N
}.

(** [ConversationStore::default()]. *)
Definition new_store : ConversationStore := mk_store [] ∅ None 0 false false false None 0 0.

(** [n += 1] on a [u64]. *)
Definition u64_succ (n : N) : N := ((n + 1) mod 2 ^ 64)%N.

(** The assignments to the fields of [self]. *)
Definition set_entries (l : list Entry) (st : ConversationStore) : ConversationStore :=
  mk_store l (seqs st) (etag st) (epoch st) (loaded st) (has_more_older st) (loading_older st)
    (older_claim st) (next_claim st) (touched st).
Definition set_seqs (s : gset Z) (st : ConversationStore) : ConversationStore :=
  mk_store (entries st) s (etag st) (epoch st) (loaded st) (has_more_older st) (loading_older st)
    (older_claim st) (next_claim st) (touched st).
Definition bump_epoch (st : ConversationStore) : ConversationStore :=
  mk_store (entries st) (seqs st) (etag st) (u64_succ (epoch st)) (loaded st) (has_more_older st)
    (loading_older st) (older_claim st) (next_claim st) (touched st).
Definition set_loaded (e : option string) (more : bool) (st : ConversationStore)
  : ConversationStore :=
  mk_store (entries st) (seqs st) e (epoch st) true more (loading_older st)
    (older_claim st) (next_claim st) (touched st).
Definition set_paging (more loading : bool) (claim : option N) (st : ConversationStore)
  : ConversationStore :=
  mk_store (entries st) (seqs st) (etag st) (epoch st) (loaded st) more loading claim
    (next_claim st) (touched st).
Definition set_next_claim (n : N) (st : ConversationStore) : ConversationStore :=
  mk_store (entries st) (seqs st) (etag st) (epoch st) (loaded st) (has_more_older st)
    (loading_older st) (older_claim st) n (touched st).
Definition set_touched (n : N) (st : ConversationStore) : ConversationStore :=
  mk_store (entries st) (seqs st) (etag st) (epoch st) (loaded st) (has_more_older st)
    (loading_older st) (older_claim st) (next_claim st) n.

(** ** Cursors and requests *)

Definition find_sequenced (l : list Entry) : option Z :=
  find_map (λ e, if sequenced e then Some (e_seq e) else None) l.

Definition oldest_seq (st : ConversationStore) : option Z := find_sequenced (entries st).
Definition newest_seq (st : ConversationStore) : option Z := find_sequenced (reverse (entries st)).

Definition latest_request : PageRequest := page_latest PAGE_LIMIT.

Definition gap_request (st : ConversationStore) : PageRequest :=
  match newest_seq st with None => latest_request | Some s => page_after s end.

Definition begin_older (st : ConversationStore)
  : option (PageRequest * N) * ConversationStore :=
  if negb (loaded st) || loading_older st || negb (has_more_older st) then (None, st)
  else match oldest_seq st with
       | None => (None, st)
       | Some b =>
         let claim := u64_succ (next_claim st) in
         (Some (page_before b PAGE_LIMIT, claim),
          set_paging (has_more_older st) true (Some claim) (set_next_claim claim st))
       end.

(** ** Matching queued prompts to the turns that deliver them *)

(** Every character of the string is an ellipsis (U+2026, bytes E2 80 A6). *)
Fixpoint all_ellipsis (s : string) : bool :=
  match s with
  | "" => true
  | String a (String b (String c r)) =>
    in_range 226 226 a && in_range 128 128 b && in_range 166 166 c && all_ellipsis r
  | _ => false
  end.

(** [s.trim_end_matches('…')]. *)
Fixpoint trim_end_ellipsis (s : string) : string :=
  if all_ellipsis s then "" else
  match s with "" => "" | String c r => String c (trim_end_ellipsis r) end.

Definition queue_key (t : string) : string :=
  trim_end_ellipsis (trim (default "" (head (lines t)))).

Definition delivered_keys (t : string) : list string :=
  filter (λ l, is_empty l = false) (trim <$> lines t).

Definition matches (placeholder other : string) (exact : bool) : bool :=
  let key := queue_key placeholder in
  if is_empty key then negb exact && is_empty other
  else starts_with key other
       || (negb exact && starts_with other key && negb (is_empty other)).

(** The keys a line retires placeholders with, if it retires any. *)
Definition closing_keys (l : ConversationLine) : option (list string * bool) :=
  match kind l, status l with
  | KUser, None => Some (delivered_keys (text l), true)
  | KSystem, Some Removed => Some ([queue_key (text l)], false)
  | _, _ => None
  end.

Definition is_queued (e : Entry) : bool := bool_decide (status (e_line e) = Some Queued).

Definition retires (keys : list string) (exact : bool) (e : Entry) : bool :=
  is_queued e && existsb (λ delivered, matches (text (e_line e)) delivered exact) keys.

(** [Vec::remove] at an index in range. *)
Definition vec_remove {A} (i : nat) (l : list A) : list A := take i l ++ drop (S i) l.

(** [self.entries[at]]: the callers pass the index they have just inserted at,
    so the lookup is in range. *)
Definition close_queued (at_ : nat) (st : ConversationStore) : ConversationStore :=
  match entries st !! at_ with
  | None => st
  | Some e =>
    match closing_keys (e_line e) with
    | None => st
    | Some (keys, exact) =>
      match position (retires keys exact) (entries st) with
      | None => st
      | Some i => bump_epoch (set_entries (vec_remove i (entries st)) st)
      end
    end
  end.

(** ** Pairing results with the calls they answer *)

Definition set_line (l : ConversationLine) (e : Entry) : Entry :=
  mk_entry (e_seq e) (sequenced e) l (expanded e).

(** The tool a result at index [i] is labelled with, given the calls above it. *)
Definition label_of (calls : gmap string (nat * string)) (i : nat) (id : string) : option string :=
  match calls !! id with
  | Some (at_, t) => if bool_decide (at_ + 1 = i)%nat then None else Some t
  | None => None
  end.

Fixpoint pair_from (i : nat) (calls : gmap string (nat * string)) (l : list Entry)
  : list Entry * bool :=
  match l with
  | [] => ([], false)
  | e :: r =>
    match tool_use_id (e_line e), kind (e_line e) with
    | Some id, KTool _ =>
      let '(r', ch) := pair_from (S i) (<[id := (i, default "" (tool (e_line e)))]> calls) r in
      (e :: r', ch)
    | Some id, KResult _ =>
      let a := label_of calls i id in
      let '(r', ch) := pair_from (S i) calls r in
      if bool_decide (answers (e_line e) = a) then (e :: r', ch)
      else (set_line (set_answers a (e_line e)) e :: r', true)
    | _, _ => let '(r', ch) := pair_from (S i) calls r in (e :: r', ch)
    end
  end.

Definition pair_tool_lines (st : ConversationStore) : ConversationStore :=
  let '(l, changed) := pair_from 0 ∅ (entries st) in
  let st := set_entries l st in
  if changed then bump_epoch st else st.

(** ** Inserting *)

Fixpoint partition_point {A} (p : A → bool) (l : list A) : nat :=
  match l with
  | [] => 0%nat
  | x :: r => if p x then S (partition_point p r) else 0%nat
  end.

(** [Vec::insert] at an index at most the length. *)
Definition vec_insert {A} (i : nat) (x : A) (l : list A) : list A := take i l ++ x :: drop i l.

Definition insert (seq : Z) (sequenced : bool) (line : ConversationLine) (st : ConversationStore)
  : bool * ConversationStore :=
  if sequenced && bool_decide (seq ∈ seqs st) then (false, st)
  else
    let st := if sequenced then set_seqs ({[seq]} ∪ seqs st) st else st in
    let at_ := partition_point (λ e, (e_seq e <=? seq)%Z) (entries st) in
    let st := if (at_ <? List.length (entries st))%nat then bump_epoch st else st in
    let st := set_entries (vec_insert at_ (mk_entry seq sequenced line false) (entries st)) st in
    (true, pair_tool_lines (close_queued at_ st)).

Definition push_live (seq : option Z) (line : ConversationLine) (st : ConversationStore)
  : bool * ConversationStore :=
  match seq with
  | Some seq => insert seq true line st
  | None =>
    if match last (entries st) with
       | Some e => bool_decide (kind (e_line e) = kind line) && (text (e_line e) ==s text line)
       | None => false
       end
    then (false, st)
    else insert (default 0%Z (e_seq <$> last (entries st))) false line st
  end.

(** ** Pages *)

Definition joins_onto_held_history (page_oldest : Z) (st : ConversationStore) : bool :=
  bool_decide (i64w (page_oldest - 1) ∈ seqs st).

Definition drop_history_below (floor : Z) (st : ConversationStore) : ConversationStore :=
  let l := filter (λ e, negb (sequenced e) || (floor <=? e_seq e)%Z = true) (entries st) in
  let st' := set_seqs (filter (λ s, (floor <= s)%Z) (seqs st)) (set_entries l st) in
  if bool_decide (List.length l = List.length (entries st)) then st'
  else set_paging false false None (bump_epoch st').

Definition older_page_is_stale (claim : option N) (st : ConversationStore) : bool :=
  match claim, older_claim st with
  | Some arriving, Some outstanding => negb (arriving =? outstanding)%N
  | None, None => false
  | _, _ => true
  end.

Definition finish_page (k : PageKind) (tag : option string) (has_more : bool)
    (st : ConversationStore) : ConversationStore :=
  match k with
  | Latest => set_loaded tag (has_more_older st || has_more) st
  | Older => set_paging has_more false None st
  | Gap => set_loaded (etag st) (has_more_older st) st
  end.

(** [rows.iter().map(|(seq, _)| *seq).min()]. *)
Fixpoint min_seq (rows : list (Z * ConversationLine)) : option Z :=
  match rows with
  | [] => None
  | (s, _) :: r => Some (match min_seq r with None => s | Some m => Z.min s m end)
  end.

Fixpoint insert_rows (rows : list (Z * ConversationLine)) (st : ConversationStore)
  : nat * ConversationStore :=
  match rows with
  | [] => (0%nat, st)
  | (seq, line) :: r =>
    let '(b, st) := insert seq true line st in
    let '(n, st) := insert_rows r st in
    ((if b then S n else n), st)
  end.

Definition page_is_stale (k : PageKind) (claim : option N) (st : ConversationStore) : bool :=
  bool_decide (k = Older) && older_page_is_stale claim st.

(** What a newest page that does not join drops before its rows are merged. *)
Definition make_room (k : PageKind) (rows : list (Z * ConversationLine)) (st : ConversationStore)
  : ConversationStore :=
  match k, min_seq rows with
  | Latest, Some page_oldest =>
    if joins_onto_held_history page_oldest st then st else drop_history_below page_oldest st
  | _, _ => st
  end.

Definition merge_page (k : PageKind) (claim : option N) (rows : list (Z * ConversationLine))
    (tag : option string) (has_more : bool) (st : ConversationStore)
  : Merge * ConversationStore :=
  if page_is_stale k claim st then (mk_merge 0 false, st)
  else
    let st := make_room k rows st in
    let epoch_before := epoch st in
    let '(n, st) := insert_rows rows st in
    let st := finish_page k tag has_more st in
    (mk_merge n (negb (epoch st =? epoch_before)%N), st).

Definition page_not_modified (k : PageKind) (claim : option N) (st : ConversationStore)
  : ConversationStore :=
  if page_is_stale k claim st then st else finish_page k (etag st) (has_more_older st) st.

Definition page_failed (k : PageKind) (claim : option N) (st : ConversationStore)
  : ConversationStore :=
  if bool_decide (k = Older) && negb (older_page_is_stale claim st)
  then set_paging (has_more_older st) false None st else st.

(** ** Bounding and expanding *)

Definition trim_to_cap (st : ConversationStore) : nat * ConversationStore :=
  if (List.length (entries st) <=? MAX_ENTRIES)%nat then (0%nat, st)
  else
    let over := (List.length (entries st) - MAX_ENTRIES)%nat in
    let gone := e_seq <$> filter (λ e, sequenced e = true) (take over (entries st)) in
    let st' := set_seqs (seqs st ∖ list_to_set gone) (set_entries (drop over (entries st)) st) in
    (over, set_paging true (loading_older st') (older_claim st') (bump_epoch st')).

Definition set_expanded (b : bool) (e : Entry) : Entry :=
  mk_entry (e_seq e) (sequenced e) (e_line e) b.

Definition toggle_expanded (index : nat) (st : ConversationStore) : bool * ConversationStore :=
  match entries st !! index with
  | Some e =>
    if collapsible (e_line e)
    then (true, bump_epoch
            (set_entries (<[index := set_expanded (negb (expanded e)) e]> (entries st)) st))
    else (false, st)
  | None => (false, st)
  end.

Definition wants_expanded (b : bool) (e : Entry) : bool :=
  collapsible (e_line e) && negb (Bool.eqb (expanded e) b).

Definition set_all_expanded (b : bool) (st : ConversationStore) : bool * ConversationStore :=
  let changed := existsb (wants_expanded b) (entries st) in
  let st' :=
    set_entries ((λ e, if wants_expanded b e then set_expanded b e else e) <$> entries st) st in
  (changed, if changed then bump_epoch st' else st').

(** ** Evicting cold transcripts *)

(** The order of the tuples [(touched, id)]. *)
Definition cold_le (x y : N * string) : Prop :=
  (x.1 < y.1)%N ∨ (x.1 = y.1 ∧ String.leb x.2 y.2 = true).

#[export] Instance cold_le_dec : RelDecision cold_le.
Proof. intros x y. unfold cold_le. apply _. Defined.

Definition candidates (stores : gmap string ConversationStore) (keep : gset string)
  : list (N * string) :=
  (λ p : string * ConversationStore, (touched p.2, p.1)) <$>
    filter (λ p, p.1 ∉ keep) (map_to_list stores).

Definition evict_cold (stores : gmap string ConversationStore) (keep : gset string) (max : nat)
  : list string * gmap string ConversationStore :=
  if (size stores <=? max)%nat then ([], stores)
  else
    let doomed := snd <$> take (size stores - max) (merge_sort cold_le (candidates stores keep)) in
    (doomed, foldl (λ m id, delete id m) stores doomed).
