(* ===== verification/TranscriptFacts.v ===== *)
(** * Properties of the transcript store

    The invariant of the store under every operation, the independence of the
    transcript from the order in which rows arrive, and what eviction keeps. *)

From stdpp Require Import base decidable list strings gmap sorting.
From Stdlib Require Import Lia ZArith Bool Ascii String.
From S2P Require Import Prelude RustStr Json Transcript.

Open Scope string_scope.
Open Scope list_scope.
Open Scope rust_scope.

(** ** Positional insertion *)

(** [insert]'s splice, structurally: past everything the new entry follows. *)
Fixpoint ins (e : Entry) (l : list Entry) : list Entry :=
  match l with
  | [] => [e]
  | x :: r => if (e_seq x <=? e_seq e)%Z then x :: ins e r else e :: x :: r
  end.

Definition follows (seq : Z) (e : Entry) : bool := (e_seq e <=? seq)%Z.

Lemma splice_ins e l : vec_insert (partition_point (follows (e_seq e)) l) e l = ins e l.
Proof.
  induction l as [|x l IH]; [done|]. cbn [partition_point ins]. unfold follows at 1.
  destruct (e_seq x <=? e_seq e)%Z; [|done]. unfold vec_insert in *. cbn. by rewrite IH.
Qed.

Lemma ins_perm e l : ins e l ≡ₚ e :: l.
Proof.
  induction l as [|x l IH]; cbn [ins]; [done|].
  destruct (e_seq x <=? e_seq e)%Z; [|done]. rewrite IH. constructor.
Qed.

Lemma ins_at e l : ins e l !! partition_point (follows (e_seq e)) l = Some e.
Proof.
  rewrite <-splice_ins. unfold vec_insert.
  assert (partition_point (follows (e_seq e)) l ≤ List.length l)%nat.
  { induction l as [|x l IH]; cbn; [lia|]. case_match; lia. }
  rewrite lookup_app_r by (rewrite length_take; lia). rewrite length_take, Nat.min_l by lia.
  by rewrite Nat.sub_diag.
Qed.

Lemma ins_comm a b l : e_seq a ≠ e_seq b → ins a (ins b l) = ins b (ins a l).
Proof.
  intros Hne. induction l as [|x l IH]; cbn [ins];
    repeat (case_match; cbn [ins]; rewrite ?Z.leb_le, ?Z.leb_gt in *); try lia; try done.
  by rewrite IH.
Qed.

(** ** Shapes

    The order and the identity of the entries: what every operation but the
    labels and the collapse state is about. *)

Definition shape (e : Entry) : Z * bool := (e_seq e, sequenced e).
Definition seq_le (a b : Z * bool) : Prop := (a.1 ≤ b.1)%Z.
Definition anchors (l : list (Z * bool)) : list Z := (filter (λ p, p.2 = true) l).*1.

(** Entries are in [seq] order, no [seq] is held twice, and every one held is
    known to the duplicate check. *)
Record shape_ok (l : list (Z * bool)) (s : gset Z) : Prop := {
  so_sorted : StronglySorted seq_le l;
  so_nodup : NoDup (anchors l);
  so_known : ∀ z, (z, true) ∈ l → z ∈ s
}.

Lemma elem_of_anchors l z : z ∈ anchors l ↔ (z, true) ∈ l.
Proof.
  unfold anchors. rewrite list_elem_of_fmap. split.
  - intros ([z' b] & -> & [Hb Hin]%list_elem_of_filter). cbn in Hb. by subst.
  - intros Hin. exists (z, true). split; [done|]. by apply list_elem_of_filter.
Qed.

Lemma ssorted_sublist {A} (R : A → A → Prop) l l' :
  sublist l' l → StronglySorted R l → StronglySorted R l'.
Proof.
  induction 1 as [|x l l' Hl IH|x l l' Hl IH]; intros Hs; [constructor| |];
    apply StronglySorted_inv in Hs as [Hs Hf]; [|by apply IH].
  constructor; [by apply IH|]. rewrite Forall_forall in *. intros y Hy. apply Hf.
  by eapply elem_of_sublist.
Qed.

Lemma filter_mono {A} (P : A → Prop) `{!∀ x, Decision (P x)} l l' :
  sublist l' l → sublist (filter P l') (filter P l).
Proof.
  induction 1 as [|x l l' Hl IH|x l l' Hl IH]; [done| |]; rewrite !filter_cons;
    case_decide; by try constructor.
Qed.

Lemma shape_ok_sub l l' s s' :
  shape_ok l s → sublist l' l → (∀ z, (z, true) ∈ l' → z ∈ s → z ∈ s') → shape_ok l' s'.
Proof.
  intros [Hs Hn Hk] Hl Hsub. split.
  - by eapply ssorted_sublist.
  - eapply sublist_NoDup; [exact Hn|]. by apply fmap_sublist, filter_mono.
  - intros z Hz. apply Hsub; [done|]. apply Hk.
    by eapply elem_of_sublist.
Qed.

Lemma shape_ok_ins l s s' e :
  shape_ok (shape <$> l) s → s ⊆ s' →
  (sequenced e = true → e_seq e ∈ s' ∧ e_seq e ∉ s) →
  shape_ok (shape <$> ins e l) s'.
Proof.
  intros [Hs Hn Hk] Hsub Hnew. split.
  - induction l as [|x l IH]; cbn [ins]; [by repeat constructor|].
    apply StronglySorted_inv in Hs as [Hs Hf]. destruct (Z.leb_spec (e_seq x) (e_seq e)); cbn.
    + constructor.
      * apply IH; [done|..].
        -- unfold anchors in *. rewrite fmap_cons, filter_cons in Hn. case_decide; [|done].
           by apply NoDup_cons in Hn as [_ ?].
        -- intros z Hz. apply Hk. by constructor.
      * rewrite ins_perm. constructor; [done|exact Hf].
    + repeat constructor; [done..| |]; unfold seq_le; cbn; [lia|].
      eapply Forall_impl; [exact Hf|]. intros y Hy. unfold seq_le in *. cbn in *. lia.
  - unfold anchors. rewrite ins_perm, fmap_cons, filter_cons. case_decide as Hd; [|exact Hn].
    cbn. constructor; [|exact Hn]. intros Hin. change (e_seq e ∈ anchors (shape <$> l)) in Hin.
    apply elem_of_anchors in Hin. destruct (Hnew Hd) as [_ Hx]. by apply Hx, Hk.
  - intros z. rewrite ins_perm, fmap_cons, elem_of_cons. intros [[= -> Hb]|Hz].
    + by apply Hnew.
    + by apply Hsub, Hk.
Qed.

(** ** What the label pass and the placeholder pass change *)

Lemma pair_from_shape l : ∀ i calls, shape <$> (pair_from i calls l).1 = shape <$> l.
Proof.
  induction l as [|e l IH]; intros i calls; [done|]. cbn [pair_from].
  repeat case_match; simplify_eq; cbn [fst]; rewrite ?fmap_cons;
    match goal with H : pair_from ?a ?b _ = (?r, _) |- _ =>
      specialize (IH a b); rewrite H in IH; cbn [fst] in IH; rewrite IH end; done.
Qed.

Lemma pair_shape st : shape <$> entries (pair_tool_lines st) = shape <$> entries st.
Proof.
  unfold pair_tool_lines. pose proof (pair_from_shape (entries st) 0 ∅) as Hp.
  destruct (pair_from _ _ _) as [l []]; exact Hp.
Qed.

Lemma vec_remove_sublist {A} i (l : list A) : sublist (vec_remove i l) l.
Proof.
  unfold vec_remove. rewrite <-(take_drop i l) at 3. apply sublist_app; [done|].
  replace (S i) with (i + 1)%nat by lia. rewrite <-drop_drop. apply sublist_drop.
Qed.

Lemma close_queued_sublist i st : sublist (entries (close_queued i st)) (entries st).
Proof. unfold close_queued. repeat case_match; cbn; try done. apply vec_remove_sublist. Qed.

(** The fields the passes of an insertion leave alone. *)
Definition same_paging (a b : ConversationStore) : Prop :=
  etag a = etag b ∧ loaded a = loaded b ∧ has_more_older a = has_more_older b ∧
  loading_older a = loading_older b ∧ older_claim a = older_claim b ∧
  next_claim a = next_claim b ∧ touched a = touched b.

Lemma pair_frame st : same_paging (pair_tool_lines st) st ∧ seqs (pair_tool_lines st) = seqs st.
Proof. unfold pair_tool_lines. destruct (pair_from _ _ _) as [l []]; done. Qed.

Lemma close_frame i st : same_paging (close_queued i st) st ∧ seqs (close_queued i st) = seqs st.
Proof. unfold close_queued. repeat case_match; done. Qed.

(** ** The invariant *)

Record store_ok (st : ConversationStore) : Prop := {
  ok_shape : shape_ok (shape <$> entries st) (seqs st);
  (** An older page is awaited exactly when a claim for one is out, … *)
  ok_loading : loading_older st = bool_decide (is_Some (older_claim st));
  (** … and that claim is the one minted last. *)
  ok_claim : ∀ c, older_claim st = Some c → c = next_claim st
}.

Lemma ok_frame a b :
  store_ok a → same_paging b a → shape_ok (shape <$> entries b) (seqs b) → store_ok b.
Proof.
  intros [_ Hl Hc] (_ & _ & _ & El & Ec & En & _) Hs. split; [done|by rewrite El, Ec|].
  intros c. rewrite Ec, En. apply Hc.
Qed.

(** The splice of an insertion, before its two passes. *)
Definition spliced (seq : Z) (sq : bool) (line : ConversationLine) (st : ConversationStore)
  : ConversationStore :=
  let st := if sq then set_seqs ({[seq]} ∪ seqs st) st else st in
  let st := if (partition_point (follows seq) (entries st) <? List.length (entries st))%nat
            then bump_epoch st else st in
  set_entries (ins (mk_entry seq sq line false) (entries st)) st.

Lemma insert_new seq sq line st :
  (sq = true → seq ∉ seqs st) →
  insert seq sq line st =
    (true, pair_tool_lines
             (close_queued (partition_point (follows seq) (entries st)) (spliced seq sq line st))).
Proof.
  intros Hnew. unfold insert.
  assert (sq && bool_decide (seq ∈ seqs st) = false) as ->.
  { destruct sq; [|done]. cbn. apply bool_decide_eq_false. by apply Hnew. }
  unfold spliced. rewrite <-splice_ins. by destruct sq, (_ <? _)%nat.
Qed.

Lemma insert_held seq line st : seq ∈ seqs st → insert seq true line st = (false, st).
Proof. intros Hin. unfold insert. by rewrite bool_decide_eq_true_2. Qed.

Lemma insert_cases seq sq line st :
  (sq = true ∧ seq ∈ seqs st ∧ insert seq sq line st = (false, st)) ∨
  ((sq = true → seq ∉ seqs st) ∧ (insert seq sq line st).1 = true).
Proof.
  destruct sq; [|right; split; [done|]; by rewrite insert_new].
  destruct (decide (seq ∈ seqs st)) as [Hin|Hin].
  - left. by rewrite insert_held.
  - right. split; [done|]. by rewrite insert_new.
Qed.

Lemma spliced_frame seq sq line st :
  same_paging (spliced seq sq line st) st ∧
  entries (spliced seq sq line st) = ins (mk_entry seq sq line false) (entries st) ∧
  seqs (spliced seq sq line st) = if sq then {[seq]} ∪ seqs st else seqs st.
Proof. unfold spliced. by destruct sq, (_ <? _)%nat. Qed.

Lemma insert_frame seq sq line st :
  let st' := (insert seq sq line st).2 in
  same_paging st' st ∧ seqs st' = if sq then {[seq]} ∪ seqs st else seqs st.
Proof.
  cbn zeta. destruct (insert_cases seq sq line st) as [(-> & Hin & ->)|[Hnew _]].
  - split; [done|]. cbn. set_solver.
  - rewrite insert_new by done. cbn [snd].
    destruct (spliced_frame seq sq line st) as (Hf & _ & Hs).
    destruct (close_frame (partition_point (follows seq) (entries st)) (spliced seq sq line st))
      as [Hc Hcs].
    destruct (pair_frame (close_queued (partition_point (follows seq) (entries st))
                (spliced seq sq line st))) as [Hp Hps].
    split; [|by rewrite Hps, Hcs]. unfold same_paging in *.
    destruct_and!. repeat split; congruence.
Qed.

Lemma insert_ok seq sq line st : store_ok st → store_ok (insert seq sq line st).2.
Proof.
  intros Hok. destruct (insert_cases seq sq line st) as [(-> & Hin & ->)|[Hnew _]]; [done|].
  destruct (insert_frame seq sq line st) as [Hf Hs].
  apply (ok_frame st); [done..|]. rewrite Hs, insert_new by done. cbn [snd]. rewrite pair_shape.
  destruct (spliced_frame seq sq line st) as (_ & He & _).
  eapply shape_ok_sub with (s := if sq then _ else _); [|apply fmap_sublist, close_queued_sublist|by intros].
  rewrite He. eapply shape_ok_ins; [apply Hok|by destruct sq; set_solver|].
  cbn. intros ->. split; [set_solver|by apply Hnew].
Qed.

Lemma insert_rows_ok rows : ∀ st, store_ok st → store_ok (insert_rows rows st).2.
Proof.
  induction rows as [|[seq line] rows IH]; intros st Hok; [done|]. cbn [insert_rows].
  pose proof (insert_ok seq true line st Hok) as Hi.
  destruct (insert seq true line st) as [b st']. specialize (IH st' Hi).
  by destruct (insert_rows rows st').
Qed.

Lemma finish_ok k tag more st : store_ok st → store_ok (finish_page k tag more st).
Proof. intros [Hs Hl Hc]. destruct k; by split. Qed.

Lemma drop_content floor st :
  entries (drop_history_below floor st) =
    filter (λ e, negb (sequenced e) || (floor <=? e_seq e)%Z = true) (entries st) ∧
  seqs (drop_history_below floor st) = filter (λ s, (floor <= s)%Z) (seqs st).
Proof. unfold drop_history_below. by case_bool_decide. Qed.

Lemma drop_ok floor st : store_ok st → store_ok (drop_history_below floor st).
Proof.
  intros [Hs Hl Hc]. destruct (drop_content floor st) as [Ee Es].
  assert (shape_ok (shape <$> entries (drop_history_below floor st))
            (seqs (drop_history_below floor st))) as Hs'.
  { rewrite Ee, Es. eapply shape_ok_sub; [exact Hs|apply fmap_sublist, sublist_filter|].
    intros z (e & Ez & [Hf _]%list_elem_of_filter)%list_elem_of_fmap Hz.
    apply elem_of_filter. split; [|done]. injection Ez as -> Hb. rewrite <-Hb in Hf.
    by apply Z.leb_le. }
  unfold drop_history_below in *. destruct (bool_decide (List.length _ = _)); by split.
Qed.

Lemma make_room_keeps_ok k rows st : store_ok st → store_ok (make_room k rows st).
Proof. intros Hok. unfold make_room. repeat case_match; try done. by apply drop_ok. Qed.

Lemma merge_page_ok k c rows tag more st : store_ok st → store_ok (merge_page k c rows tag more st).2.
Proof.
  intros Hok. unfold merge_page. case_match; [done|].
  pose proof (insert_rows_ok rows _ (make_room_keeps_ok k rows st Hok)) as Hi.
  destruct (insert_rows rows (make_room k rows st)) as [n st']. by apply finish_ok.
Qed.

Lemma begin_older_ok st : store_ok st → store_ok (begin_older st).2.
Proof.
  intros Hok. unfold begin_older. repeat case_match; try done. destruct Hok as [Hs Hl Hc].
  split; cbn; [done|done|]. by intros c [= <-].
Qed.

Lemma trim_ok st : store_ok st → store_ok (trim_to_cap st).2.
Proof.
  intros [Hs Hl Hc]. unfold trim_to_cap. case_match; [done|]. split; cbn; [|done..].
  eapply shape_ok_sub; [exact Hs|apply fmap_sublist, sublist_drop|].
  set (over := (List.length (entries st) - MAX_ENTRIES)%nat).
  intros z Hz Hin. apply elem_of_difference. split; [done|].
  rewrite elem_of_list_to_set. intros (e & -> & [He Hin']%list_elem_of_filter)%list_elem_of_fmap.
  destruct Hs as [_ Hn _]. rewrite <-(take_drop over (entries st)), fmap_app in Hn.
  unfold anchors in Hn. rewrite filter_app, fmap_app in Hn. apply NoDup_app in Hn as (_ & Hd & _).
  apply (Hd (e_seq e)); apply elem_of_anchors; [|done].
  apply list_elem_of_fmap. exists e. split; [|done]. unfold shape. by rewrite He.
Qed.

Lemma toggle_ok i st : store_ok st → store_ok (toggle_expanded i st).2.
Proof.
  intros [Hs Hl Hc]. unfold toggle_expanded. destruct (entries st !! i) as [e|] eqn:Ei; [|by split].
  case_match; [|by split]. split; [|done..]. cbn.
  rewrite list_fmap_insert. rewrite list_insert_id; [exact Hs|]. by rewrite list_lookup_fmap, Ei.
Qed.

Lemma set_all_ok b st : store_ok st → store_ok (set_all_expanded b st).2.
Proof.
  intros [Hs Hl Hc]. unfold set_all_expanded. cbn [snd].
  assert (shape <$> ((λ e, if wants_expanded b e then set_expanded b e else e) <$> entries st)
            = shape <$> entries st) as Hsh.
  { rewrite <-list_fmap_compose. apply list_fmap_ext. intros i e _. cbn. by case_match. }
  case_match; split; cbn; try done; by rewrite Hsh.
Qed.

Lemma push_live_ok s line st : store_ok st → store_ok (push_live s line st).2.
Proof. intros Hok. unfold push_live. repeat case_match; try done; by apply insert_ok. Qed.

(** Everything a store's owner may do to it. *)
Inductive store_step (st : ConversationStore) : ConversationStore → Prop :=
| step_begin : store_step st (begin_older st).2
| step_page k c rows tag more : store_step st (merge_page k c rows tag more st).2
| step_not_modified k c : store_step st (page_not_modified k c st)
| step_failed k c : store_step st (page_failed k c st)
| step_live s line : store_step st (push_live s line st).2
| step_trim : store_step st (trim_to_cap st).2
| step_toggle i : store_step st (toggle_expanded i st).2
| step_all b : store_step st (set_all_expanded b st).2
| step_touch n : store_step st (set_touched n st).

Create HintDb transcript discriminated.
#[export] Hint Resolve begin_older_ok merge_page_ok push_live_ok trim_ok toggle_ok set_all_ok
  finish_ok : transcript.

Lemma store_step_ok st st' : store_step st st' → store_ok st → store_ok st'.
Proof.
  intros Hstep Hok. destruct Hstep; eauto with transcript.
  - unfold page_not_modified. case_match; eauto with transcript.
  - unfold page_failed. case_match; [|done]. destruct Hok as [Hs Hl Hc]. by split.
  - destruct Hok as [Hs Hl Hc]. by split.
Qed.

Lemma new_store_ok : store_ok new_store.
Proof. by repeat split; try apply NoDup_nil_2; try constructor; cbn; try inversion 1. Qed.

(** Whatever pages, live events, trims and toggles reach a store, its
    entries stay in [seq] order, no [seq] is shown twice, every one shown is in
    the duplicate set, and an older page is awaited exactly when one claim, the
    last one minted, is out. *)
Theorem reachable_store_ok st : rtc store_step new_store st → store_ok st.
Proof.
  apply (rtc_ind_r (λ st, store_ok st)); [apply new_store_ok|].
  intros y z _ Hstep. by apply store_step_ok.
Qed.

(** ** One older page at a time *)

(** A claim is exclusive: while it is out no second older page is asked for,
    and a reply under any other claim, or under none, neither changes the store
    nor counts as a merge. *)
Theorem only_live_claim_lands st r c st' :
  begin_older st = (Some (r, c), st') →
  begin_older st' = (None, st') ∧
  (∀ c' rows tag more, c' ≠ Some c →
     merge_page Older c' rows tag more st' = (mk_merge 0 false, st')) ∧
  (∀ c', c' ≠ Some c → page_failed Older c' st' = st' ∧ page_not_modified Older c' st' = st').
Proof.
  unfold begin_older at 1. destruct (_ || _); [done|]. destruct (oldest_seq st); [|done].
  intros [= <- <- <-].
  assert (∀ c', c' ≠ Some (u64_succ (next_claim st)) →
    older_page_is_stale c' (set_paging (has_more_older st) true
      (Some (u64_succ (next_claim st))) (set_next_claim (u64_succ (next_claim st)) st)) = true)
    as Hstale.
  { intros [c'|] Hc; [|done]. cbn. apply negb_true_iff, N.eqb_neq. congruence. }
  split; [|split].
  - unfold begin_older. cbn. by rewrite orb_true_r.
  - intros c' rows tag more Hc. unfold merge_page, page_is_stale. by rewrite Hstale.
  - intros c' Hc. unfold page_failed, page_not_modified, page_is_stale. by rewrite Hstale.
Qed.

(** ** The order of arrival *)

(** A result forgets its label: what the label pass recomputes. *)
Definition erase (e : Entry) : Entry :=
  match tool_use_id (e_line e), kind (e_line e) with
  | Some _, KResult _ => set_line (set_answers None (e_line e)) e
  | _, _ => e
  end.

Definition pairs (l : list Entry) : list Entry := (pair_from 0 ∅ l).1.

Lemma set_answers_id l : set_answers (answers l) l = l.
Proof. by destruct l. Qed.

Lemma set_line_id e : set_line (e_line e) e = e.
Proof. by destruct e. Qed.

(** The label pass on one entry, as an assignment without a test. *)
Lemma pair_from_cons i calls e l :
  (pair_from i calls (e :: l)).1 =
    match tool_use_id (e_line e), kind (e_line e) with
    | Some id, KTool _ =>
      e :: (pair_from (S i) (<[id := (i, default "" (tool (e_line e)))]> calls) l).1
    | Some id, KResult _ =>
      set_line (set_answers (label_of calls i id) (e_line e)) e :: (pair_from (S i) calls l).1
    | _, _ => e :: (pair_from (S i) calls l).1
    end.
Proof.
  cbn [pair_from]. destruct (tool_use_id (e_line e)), (kind (e_line e));
    try (by destruct (pair_from _ _ l)).
  destruct (pair_from _ _ l). case_bool_decide as Ha; [|done].
  cbn [fst]. by rewrite <-Ha, set_answers_id, set_line_id.
Qed.

Lemma pair_from_erase l : ∀ i calls, (pair_from i calls (erase <$> l)).1 = (pair_from i calls l).1.
Proof.
  induction l as [|e l IH]; intros i calls; [done|].
  rewrite fmap_cons, !pair_from_cons. unfold erase.
  destruct (tool_use_id (e_line e)) eqn:Et, (kind (e_line e)) eqn:Ek; cbn; rewrite ?Et, ?Ek;
    by rewrite <-IH.
Qed.

Lemma erase_pair_from l : ∀ i calls, erase <$> (pair_from i calls l).1 = erase <$> l.
Proof.
  induction l as [|e l IH]; intros i calls; [done|]. rewrite pair_from_cons.
  destruct (tool_use_id (e_line e)) eqn:Et, (kind (e_line e)) eqn:Ek; rewrite !fmap_cons, IH;
    try done.
  f_equal. unfold erase. cbn. by rewrite Et, Ek.
Qed.

Lemma erase_seq e : e_seq (erase e) = e_seq e.
Proof. unfold erase. by repeat case_match. Qed.

Lemma erase_ins e l : erase <$> ins e l = ins (erase e) (erase <$> l).
Proof.
  induction l as [|x l IH]; [done|]. cbn [ins fmap list_fmap]. rewrite !erase_seq.
  case_match; cbn; by rewrite ?IH.
Qed.

Definition ins_all (l : list Entry) (es : list Entry) : list Entry := foldl (λ l e, ins e l) l es.

Lemma erase_ins_all es : ∀ l, erase <$> ins_all l es = ins_all (erase <$> l) (erase <$> es).
Proof. induction es as [|e es IH]; intros l; [done|]. cbn. by rewrite IH, erase_ins. Qed.

Lemma pairs_ins_all es l : pairs (ins_all (pairs l) es) = pairs (ins_all l es).
Proof.
  unfold pairs. rewrite <-(pair_from_erase (ins_all _ es)), <-(pair_from_erase (ins_all l es)).
  by rewrite !erase_ins_all, erase_pair_from.
Qed.

Lemma ins_all_perm es es' l :
  es ≡ₚ es' → NoDup (e_seq <$> es) → ins_all l es = ins_all l es'.
Proof.
  intros Hp. revert l. induction Hp as [|e es es' Hp IH|a b es|es1 es2 es3 Hp1 IH1 Hp2 IH2];
    intros l Hn; [done|..].
  - apply NoDup_cons in Hn as [_ Hn]. cbn. by apply IH.
  - cbn. rewrite ins_comm; [done|]. apply NoDup_cons in Hn as [Hn _]. cbn in Hn. set_solver.
  - rewrite IH1 by done. apply IH2. by rewrite <-Hp1.
Qed.

(** No placeholder waits among the entries. *)
Definition quiet (l : list Entry) : Prop := Forall (λ e, is_queued e = false) l.

Lemma close_quiet i st : quiet (entries st) → close_queued i st = st.
Proof.
  intros Hq. unfold close_queued. destruct (entries st !! i) as [e|]; [|done].
  destruct (closing_keys (e_line e)) as [[keys exact]|]; [|done].
  destruct (position _ _) as [j|] eqn:Ep; [|done].
  assert (position (retires keys exact) (entries st) = None); [|congruence].
  apply iter_position_None. intros x Hx. unfold retires.
  unfold quiet in Hq. rewrite Forall_forall in Hq. by rewrite Hq.
Qed.

Lemma quiet_ins e l : is_queued e = false → quiet l → quiet (ins e l).
Proof. intros He Hl. unfold quiet. rewrite ins_perm. by constructor. Qed.

Lemma quiet_pairs l : quiet l → quiet (pairs l).
Proof.
  unfold pairs, quiet. generalize 0%nat, (∅ : gmap string (nat * string)).
  induction l as [|e l IH]; intros i calls Hq; [done|]. apply Forall_cons in Hq as [He Hq].
  rewrite pair_from_cons.
  destruct (tool_use_id (e_line e)), (kind (e_line e)); (constructor; [exact He|by apply IH]).
Qed.

Definition row_entry (r : Z * ConversationLine) : Entry := mk_entry r.1 true r.2 false.

Definition fresh (s : gset Z) (rows : list (Z * ConversationLine)) : list (Z * ConversationLine) :=
  filter (λ r, r.1 ∉ s) rows.

(** The transcript once the fresh rows are in: the splices, then the labels. *)
Definition settled (l : list Entry) (new : list (Z * ConversationLine)) : list Entry :=
  match new with [] => l | _ => pairs (ins_all l (row_entry <$> new)) end.

Lemma settled_cons l r new :
  settled (pairs (ins (row_entry r) l)) new = settled l (r :: new).
Proof. destruct new as [|r' new]; [done|]. unfold settled. by rewrite pairs_ins_all. Qed.

Lemma insert_quiet seq line st :
  seq ∉ seqs st → quiet (entries st) → status line ≠ Some Queued →
  let st' := (insert seq true line st).2 in
  entries st' = pairs (ins (row_entry (seq, line)) (entries st)) ∧
  quiet (entries st').
Proof.
  intros Hnew Hq Hl. cbn zeta. rewrite insert_new by done. cbn [snd].
  destruct (spliced_frame seq true line st) as (_ & He & _).
  assert (quiet (entries (spliced seq true line st))) as Hq'.
  { rewrite He. apply quiet_ins; [|done]. by apply bool_decide_eq_false. }
  rewrite close_quiet by done.
  assert (entries (pair_tool_lines (spliced seq true line st)) =
            pairs (entries (spliced seq true line st))) as ->.
  { unfold pair_tool_lines, pairs. destruct (pair_from _ _ _) as [l []]; done. }
  split; [by rewrite He|by apply quiet_pairs].
Qed.

Lemma fresh_grow seq s rows :
  seq ∉ rows.*1 → fresh ({[seq]} ∪ s) rows = fresh s rows.
Proof.
  intros Hn. unfold fresh. induction rows as [|[z l] rows IH]; [done|].
  rewrite !filter_cons. cbn [fst] in *. rewrite IH by set_solver.
  repeat case_decide; set_solver.
Qed.

Lemma insert_rows_quiet rows : ∀ st,
  quiet (entries st) → NoDup rows.*1 → Forall (λ r, status r.2 ≠ Some Queued) rows →
  let '(n, st') := insert_rows rows st in
  n = List.length (fresh (seqs st) rows) ∧
  entries st' = settled (entries st) (fresh (seqs st) rows) ∧
  seqs st' = list_to_set rows.*1 ∪ seqs st ∧ same_paging st' st.
Proof.
  induction rows as [|[seq line] rows IH]; intros st Hq Hn Hl; cbn [insert_rows].
  { by rewrite fmap_nil, list_to_set_nil, union_empty_l_L. }
  apply NoDup_cons in Hn as [Hnot Hn]. apply Forall_cons in Hl as [Hline Hl].
  cbn [fst snd] in *. unfold fresh. rewrite filter_cons. cbn [fst]. fold (fresh (seqs st) rows).
  destruct (decide (seq ∈ seqs st)) as [Hin|Hin].
  - rewrite insert_held by done. rewrite decide_False by tauto.
    specialize (IH st Hq Hn Hl). destruct (insert_rows rows st) as [n st'].
    destruct IH as (-> & -> & -> & Hp). repeat split; try apply Hp. cbn. set_solver.
  - rewrite decide_True by done.
    destruct (insert_quiet seq line st Hin Hq Hline) as [He Hq'].
    destruct (insert_frame seq true line st) as [Hp Hs].
    assert ((insert seq true line st).1 = true) as Hb by by rewrite insert_new.
    destruct (insert seq true line st) as [b st1]. cbn [fst snd] in *. subst b.
    specialize (IH st1 Hq' Hn Hl). destruct (insert_rows rows st1) as [n st'].
    rewrite Hs, fresh_grow in IH by done. destruct IH as (-> & -> & -> & Hp').
    repeat split; [by rewrite He, settled_cons|cbn; set_solver|..];
      unfold same_paging in *; destruct_and!; congruence.
Qed.

Lemma min_seq_perm rows rows' : rows ≡ₚ rows' → min_seq rows = min_seq rows'.
Proof.
  induction 1 as [|[s l] rows rows' _ IH|[a l] [b l'] rows|? ? ? _ IH1 _ IH2]; cbn [min_seq].
  - done.
  - by rewrite IH.
  - f_equal. destruct (min_seq rows); lia.
  - by rewrite IH1.
Qed.

Lemma settled_perm l new new' :
  new ≡ₚ new' → NoDup new.*1 → settled l new = settled l new'.
Proof.
  intros Hp Hn. unfold settled.
  assert (ins_all l (row_entry <$> new) = ins_all l (row_entry <$> new')) as ->.
  { apply ins_all_perm; [by rewrite Hp|]. by rewrite <-list_fmap_compose. }
  destruct new, new'; try done; by apply Permutation_length in Hp.
Qed.

Lemma quiet_make_room k rows st : quiet (entries st) → quiet (entries (make_room k rows st)).
Proof.
  intros Hq. unfold make_room. repeat case_match; try done. rewrite (proj1 (drop_content _ _)).
  unfold quiet in *. rewrite Forall_forall in *. intros e [_ He]%list_elem_of_filter. by apply Hq.
Qed.

Lemma make_room_perm k rows rows' st : rows ≡ₚ rows' → make_room k rows st = make_room k rows' st.
Proof. intros Hp. unfold make_room. by rewrite (min_seq_perm _ _ Hp). Qed.

(** C22. The rows of a page may arrive in any order: the transcript, the
    duplicate set, the count of new lines and the paging state that come of it
    are the same, as long as the page names no [seq] twice and no queued prompt
    is waiting for its turn among the lines. *)
Theorem merge_order_irrelevant k c rows rows' tag more st :
  rows ≡ₚ rows' → NoDup rows.*1 →
  quiet (entries st) → Forall (λ r, status r.2 ≠ Some Queued) rows →
  let '(m, a) := merge_page k c rows tag more st in
  let '(m', b) := merge_page k c rows' tag more st in
  entries a = entries b ∧ seqs a = seqs b ∧ inserted m = inserted m' ∧ same_paging a b.
Proof.
  intros Hp Hn Hq Hl. unfold merge_page. destruct (page_is_stale k c st); [done|].
  rewrite <-(make_room_perm k rows rows' st Hp).
  pose proof (insert_rows_quiet rows _ (quiet_make_room k rows st Hq) Hn Hl) as Ha.
  rewrite Hp in Hn, Hl.
  pose proof (insert_rows_quiet rows' _ (quiet_make_room k rows st Hq) Hn Hl) as Hb.
  set (s0 := make_room k rows st) in *.
  destruct (insert_rows rows s0) as [n a], (insert_rows rows' s0) as [n' b].
  destruct Ha as (-> & Ea & Sa & Pa), Hb as (-> & Eb & Sb & Pb).
  assert (fresh (seqs s0) rows ≡ₚ fresh (seqs s0) rows') as Hf by (unfold fresh; by rewrite Hp).
  assert (NoDup (fresh (seqs s0) rows).*1) as Hnf.
  { rewrite Hf. eapply sublist_NoDup; [exact Hn|]. apply fmap_sublist, sublist_filter. }
  assert (seqs a = seqs b) as Es.
  { rewrite Sa, Sb. f_equal. apply list_to_set_perm_L. by rewrite Hp. }
  assert (entries a = entries b) as Een by by rewrite Ea, Eb; apply settled_perm.
  apply Permutation_length in Hf. clear Ea Eb Sa Sb Hnf. clearbody s0.
  unfold same_paging in *. destruct_and!. destruct k; cbn; repeat split; congruence.
Qed.

(** A re-delivered page changes nothing: every row of it is held. *)
Lemma insert_rows_held rows : ∀ st,
  Forall (λ r, r.1 ∈ seqs st) rows → insert_rows rows st = (0%nat, st).
Proof.
  induction rows as [|[seq line] rows IH]; intros st Hall; [done|].
  apply Forall_cons in Hall as [Hin Hall]. cbn [insert_rows]. rewrite insert_held by done.
  by rewrite IH.
Qed.

(** ** Eviction *)

Lemma foldl_delete ids : ∀ (m : gmap string ConversationStore) i,
  foldl (λ m id, delete id m) m ids !! i = if decide (i ∈ ids) then None else m !! i.
Proof.
  induction ids as [|id ids IH]; intros m i; cbn [foldl]; [done|]. rewrite IH.
  repeat case_decide; try done; [set_solver|..]; destruct (decide (i = id)) as [->|];
    rewrite ?lookup_delete_eq, ?lookup_delete_ne by done; set_solver.
Qed.

#[export] Instance cold_le_total : Total cold_le.
Proof.
  intros x y. unfold cold_le. destruct (N.lt_total x.1 y.1) as [?|[?|?]]; [tauto| |tauto].
  destruct (String.leb_total x.2 y.2); [left|right]; right; by split.
Qed.

#[export] Instance cold_le_trans : Transitive cold_le.
Proof.
  intros x y z [H1|[H1 H1']] [H2|[H2 H2']]; unfold cold_le; try (left; lia).
  right. split; [congruence|]. by eapply str_leb_trans.
Qed.

Lemma elem_of_candidates stores keep n id :
  (n, id) ∈ candidates stores keep ↔ ∃ st, stores !! id = Some st ∧ touched st = n ∧ id ∉ keep.
Proof.
  unfold candidates. rewrite list_elem_of_fmap. split.
  - intros ([id' st] & [= -> ->] & [Hk Hin]%list_elem_of_filter).
    apply elem_of_map_to_list in Hin. eauto.
  - intros (st & Hst & <- & Hk). exists (id, st). split; [done|].
    apply list_elem_of_filter. split; [done|]. by apply elem_of_map_to_list.
Qed.

Lemma NoDup_candidates stores keep : NoDup (candidates stores keep).*2.
Proof.
  unfold candidates. rewrite <-list_fmap_compose.
  eapply sublist_NoDup; [apply (NoDup_fst_map_to_list stores)|].
  apply fmap_sublist, sublist_filter.
Qed.

(** Eviction drops only transcripts that are not in use, coldest first, and
    stops at the bound: afterwards either at most [max] remain or nothing but
    the ones in use does.  What stays is unchanged. *)
Theorem evict_cold_exact stores keep max :
  let '(doomed, stores') := evict_cold stores keep max in
  (∀ id, stores' !! id = if decide (id ∈ doomed) then None else stores !! id) ∧
  (∀ id, id ∈ doomed → id ∈ dom stores ∧ id ∉ keep) ∧
  (∀ id id' st st', id ∈ doomed → id' ∉ doomed → id' ∉ keep →
     stores !! id = Some st → stores !! id' = Some st' →
     cold_le (touched st, id) (touched st', id')) ∧
  List.length doomed = Nat.min (size stores - max) (List.length (candidates stores keep)).
Proof.
  unfold evict_cold. destruct (Nat.leb_spec (size stores) max) as [Hle|Hgt].
  { replace (size stores - max)%nat with 0%nat by lia. repeat split; set_solver. }
  set (cs := merge_sort cold_le (candidates stores keep)).
  assert (cs ≡ₚ candidates stores keep) as Hp by apply merge_sort_Permutation.
  assert (StronglySorted cold_le cs) as Hs by (apply StronglySorted_merge_sort; apply _).
  set (n := (size stores - max)%nat) in *.
  assert (∀ id, id ∈ (take n cs).*2 → ∃ st, stores !! id = Some st ∧ (id ∉ keep) ∧
            (touched st, id) ∈ take n cs) as Hd.
  { intros id ([m id'] & -> & Hin)%list_elem_of_fmap. cbn.
    assert ((m, id') ∈ candidates stores keep) as Hc.
    { rewrite <-Hp. by eapply elem_of_sublist; [|apply sublist_take]. }
    apply elem_of_candidates in Hc as (st & Hst & <- & Hk). eauto. }
  split; [|split; [|split]].
  - intros id. apply foldl_delete.
  - intros id (st & Hst & Hk & _)%Hd. split; [|done]. by apply elem_of_dom_2 in Hst.
  - intros id id' st st' (st1 & Hst1 & _ & Hin)%Hd Hnot Hk Hst Hst'. simplify_eq.
    rewrite <-(take_drop n cs) in Hs.
    apply (StronglySorted_app_1_elem_of _ _ _ _ _ Hs); [done|].
    assert ((touched st', id') ∈ cs) as Hin'.
    { rewrite Hp. apply elem_of_candidates. eauto. }
    rewrite <-(take_drop n cs) in Hin'. apply elem_of_app in Hin' as [Hin'|]; [|done].
    destruct Hnot. by apply (list_elem_of_fmap_2 snd) in Hin'.
  - rewrite length_fmap, length_take. by rewrite Hp.
Qed.

(** ** Witnesses *)

Definition demo_line (t : string) : ConversationLine := new_line KAssistant t 0.
Definition demo_rows : list (Z * ConversationLine) :=
  [(12%Z, demo_line "c"); (10%Z, demo_line "a"); (11%Z, demo_line "b")].
Definition demo_store : ConversationStore :=
  (merge_page Latest None demo_rows None true new_store).2.

Lemma reachable_store_ok_witness : store_ok (begin_older demo_store).2.
Proof.
  apply reachable_store_ok. eapply rtc_l; [apply (step_page _ Latest None demo_rows None true)|].
  apply rtc_once, step_begin.
Defined.

Lemma only_live_claim_lands_witness :
  begin_older (begin_older demo_store).2 = (None, (begin_older demo_store).2) ∧
  (∀ c' rows tag more, c' ≠ Some 1%N →
     merge_page Older c' rows tag more (begin_older demo_store).2 =
       (mk_merge 0 false, (begin_older demo_store).2)) ∧
  (∀ c', c' ≠ Some 1%N →
     page_failed Older c' (begin_older demo_store).2 = (begin_older demo_store).2 ∧
     page_not_modified Older c' (begin_older demo_store).2 = (begin_older demo_store).2).
Proof.
  apply (only_live_claim_lands demo_store (page_before 10 PAGE_LIMIT)). vm_compute. reflexivity.
Defined.

Lemma merge_order_irrelevant_witness :
  let '(m, a) := merge_page Latest None demo_rows None true new_store in
  let '(m', b) := merge_page Latest None (reverse demo_rows) None true new_store in
  entries a = entries b ∧ seqs a = seqs b ∧ inserted m = inserted m' ∧ same_paging a b.
Proof.
  apply merge_order_irrelevant.
  - symmetry. apply reverse_Permutation.
  - apply (bool_decide_unpack _). vm_compute. exact I.
  - constructor.
  - repeat constructor; discriminate.
Defined.
