(* ===== verification/LineFilter.v ===== *)
(** * Which transcript lines are on screen

    [transcript_filter.rs]: the categories of lines, the quick filter and the
    set of hidden categories, their persisted form and the key of the render
    cache.  The [BTreeSet] of categories is a [gset]; its iteration order is the
    order of the enum. *)

From stdpp Require Import base decidable list strings gmap.
From Stdlib Require Import Lia ZArith Bool Ascii String.
From S2P Require Import Prelude RustStr Json Transcript.

Open Scope string_scope.
Open Scope list_scope.
Open Scope rust_scope.

Inductive Category :=
| CAssistant | CThinking | CRedacted | CUser | CContext | CPoll | CPeer | CSystem | CTool | CMcp
| CServerTool | CResult | CError | CMarker | CSummary | CCompact | CReset.

#[export] Instance Category_eq_dec : EqDecision Category.
Proof. solve_decision. Defined.

Definition CATEGORIES : list Category :=
  [CAssistant; CThinking; CRedacted; CUser; CContext; CPoll; CPeer; CSystem; CTool; CMcp;
   CServerTool; CResult; CError; CMarker; CSummary; CCompact; CReset].

Definition category_str (c : Category) : string :=
  match c with
  | CAssistant => "assistant" | CThinking => "thinking" | CRedacted => "redacted"
  | CUser => "user" | CContext => "context" | CPoll => "poll" | CPeer => "peer"
  | CSystem => "system" | CTool => "tool" | CMcp => "mcp" | CServerTool => "server-tool"
  | CResult => "result" | CError => "error" | CMarker => "marker" | CSummary => "summary"
  | CCompact => "compact" | CReset => "reset"
  end.

Definition category_title (c : Category) : string :=
  match c with
  | CAssistant => "Assistant prose" | CThinking => "Thinking" | CRedacted => "Redacted thinking"
  | CUser => "Your messages" | CContext => "Injected context" | CPoll => "Loop wake-ups"
  | CPeer => "Peer messages" | CSystem => "Injected / system" | CTool => "Tool calls"
  | CMcp => "MCP tool calls" | CServerTool => "Provider tool calls" | CResult => "Tool results"
  | CError => "Failed results" | CMarker => "Markers" | CSummary => "Turn footers"
  | CCompact => "Compaction" | CReset => "Context resets"
  end.

Definition category_parse (t : string) : option Category :=
  List.find (λ c, category_str c ==s t) CATEGORIES.

Lemma category_parse_str c : category_parse (category_str c) = Some c.
Proof. by destruct c. Qed.

#[export] Instance category_str_inj : Inj (=) (=) category_str.
Proof. intros a b E. apply (f_equal category_parse) in E. rewrite !category_parse_str in E. congruence. Qed.

#[export] Program Instance Category_countable : Countable Category :=
  inj_countable category_str category_parse _.
Next Obligation. apply category_parse_str. Qed.

Definition category_of (l : ConversationLine) : Category :=
  match kind l with
  | KAssistant | KImage => CAssistant
  | KThinking false => CThinking
  | KThinking true => CRedacted
  | KUser | KReply => CUser
  | KPeer => CPeer
  | KContext => CContext
  | KSystem => CSystem
  | KTool CatMcp => CMcp
  | KTool CatServer => CServerTool
  | KTool _ => CTool
  | KResult false => CResult
  | KResult true => CError
  | KMarker => CMarker
  | KSummary => CSummary
  | KCompact => CCompact
  | KReset => CReset
  end.

Inductive Quick := QAll | QAssistant | QUser | QTools.

#[export] Instance Quick_eq_dec : EqDecision Quick.
Proof. solve_decision. Defined.

Definition QUICK_CYCLE : list Quick := [QAll; QAssistant; QUser; QTools].
Definition TOOL_CATEGORIES : list Category := [CTool; CMcp; CServerTool; CResult; CError].

Definition quick_str (q : Quick) : string :=
  match q with QAll => "all" | QAssistant => "assistant" | QUser => "user" | QTools => "tools" end.

Definition quick_parse (t : string) : option Quick :=
  List.find (λ q, quick_str q ==s t) QUICK_CYCLE.

(** [QUICK_CYCLE[(at + 1) % QUICK_CYCLE.len()]]: the index is in range. *)
Definition quick_next (q : Quick) : Quick :=
  let at_ := default 0%nat (position (λ x, bool_decide (x = q)) QUICK_CYCLE) in
  default QAll (QUICK_CYCLE !! ((at_ + 1) mod List.length QUICK_CYCLE)%nat).

Definition quick_categories (q : Quick) : option (list Category) :=
  match q with
  | QAll => None
  | QAssistant => Some [CAssistant]
  | QUser => Some [CUser; CContext]
  | QTools => Some TOOL_CATEGORIES
  end.

Record Filter := mk_filter { quick : Quick; hidden : gset Category }.

#[export] Instance Filter_eq_dec : EqDecision Filter.
Proof. solve_decision. Defined.

Definition HIDDEN_BY_DEFAULT : list Category := [CMcp; CMarker].
Definition default_filter : Filter := mk_filter QAll (list_to_set HIDDEN_BY_DEFAULT).

Definition shows (f : Filter) (c : Category) : bool :=
  if bool_decide (c ∈ hidden f) then false
  else match quick_categories (quick f) with
       | None => true
       | Some allowed => bool_decide (c ∈ allowed)
       end.

Definition visible_line (f : Filter) (l : ConversationLine) : bool := shows f (category_of l).

Definition is_narrowed (f : Filter) : bool :=
  negb (bool_decide (quick f = QAll)) || negb (bool_decide (f = default_filter)).

Definition cycle (f : Filter) : Filter := mk_filter (quick_next (quick f)) (hidden f).

Definition toggle (c : Category) (f : Filter) : Filter :=
  mk_filter (quick f) (if bool_decide (c ∈ hidden f) then hidden f ∖ {[c]} else {[c]} ∪ hidden f).

Definition reset_filter (f : Filter) : Filter := default_filter.
Definition show_all (f : Filter) : Filter := mk_filter QAll ∅.

(** The set in its iteration order. *)
Definition hidden_list (f : Filter) : list Category := filter (.∈ hidden f) CATEGORIES.

Definition cache_key (f : Filter) : string :=
  foldl (λ key c, (key ++s "|") ++s category_str c) (quick_str (quick f)) (hidden_list f).

Definition hidden_names (f : Filter) : list string := category_str <$> hidden_list f.

Definition from_persisted (q : string) (names : list string) : Filter :=
  mk_filter (default QAll (quick_parse q)) (list_to_set (omap category_parse names)).

Definition summary (f : Filter) : option string :=
  if negb (is_narrowed f) then None
  else match quick f, size (hidden f) with
       | QAll, 0%nat => None
       | QAll, n => Some (nat_to_string n ++s " hidden")
       | q, 0%nat => Some (quick_str q)
       | q, n => Some (quick_str q ++s " · " ++s nat_to_string n ++s " hidden")
       end.

(** ** Properties *)

Lemma elem_of_CATEGORIES c : c ∈ CATEGORIES.
Proof. destruct c; vm_compute; repeat constructor. Qed.

Lemma elem_of_hidden_list f c : c ∈ hidden_list f ↔ c ∈ hidden f.
Proof.
  unfold hidden_list. rewrite list_elem_of_filter. pose proof (elem_of_CATEGORIES c). tauto.
Qed.

Lemma hidden_list_inj f g : hidden_list f = hidden_list g → hidden f = hidden g.
Proof. intros E. apply set_eq. intros c. by rewrite <-!elem_of_hidden_list, E. Qed.

(** A filter written out and read back is the same filter. *)
Theorem filter_roundtrip f : from_persisted (quick_str (quick f)) (hidden_names f) = f.
Proof.
  unfold from_persisted, hidden_names. destruct f as [q h]. cbn [quick]. f_equal; [by destruct q|].
  apply set_eq. intros c. rewrite elem_of_list_to_set, list_elem_of_omap. split.
  - intros (s & (c' & -> & Hin)%list_elem_of_fmap & Hp). rewrite category_parse_str in Hp.
    injection Hp as ->. by apply elem_of_hidden_list in Hin.
  - intros Hc. exists (category_str c). rewrite category_parse_str. split; [|done].
    apply list_elem_of_fmap. exists c. split; [done|]. by apply elem_of_hidden_list.
Qed.

Lemma join_head s key x l : join s ((key ++s x) :: l) = key ++s join s (x :: l).
Proof. destruct l as [|y l]; [done|]. cbn [join]. by rewrite !app_assoc_s. Qed.

Lemma foldl_key cs : ∀ key,
  foldl (λ key c, (key ++s "|") ++s category_str c) key cs =
  join "|" (key :: (category_str <$> cs)).
Proof.
  induction cs as [|c cs IH]; intros key; [done|]. cbn [foldl]. rewrite IH, app_assoc_s, !join_head.
  by rewrite fmap_cons.
Qed.

Lemma split_join_names cs q :
  split_char "|" (join "|" (quick_str q :: (category_str <$> cs))) =
  quick_str q :: (category_str <$> cs).
Proof.
  assert (∀ s l, all_chars (λ x, negb (Ascii.eqb "|" x)) s = true →
            split_char "|" (join "|" l) = l →
            split_char "|" (join "|" (s :: l)) = s :: l ∨ l = []) as Hstep.
  { intros s [|y l] Hs Hl; [by right|]. left. unfold split_char in *.
    change (split (Ascii.eqb "|") (s ++s String "|" (join "|" (y :: l))) = s :: y :: l).
    rewrite split_app by done. by rewrite Hl. }
  assert (split_char "|" (join "|" (category_str <$> cs)) = category_str <$> cs ∨ cs = []) as Hc.
  { induction cs as [|c cs IH]; [by right|]. left. rewrite fmap_cons.
    destruct cs as [|c' cs]; [by destruct c|].
    destruct IH as [IH|?]; [|done].
    by destruct (Hstep (category_str c) _ ltac:(by destruct c) IH). }
  destruct Hc as [Hc| ->]; [|by destruct q].
  by destruct (Hstep (quick_str q) _ ltac:(by destruct q) Hc) as [?| ->]; [|destruct q].
Qed.

(** The render cache's key identifies the filter: two filters with the same
    key show the same lines, because they are the same filter. *)
Theorem cache_key_identifies f g : cache_key f = cache_key g → f = g.
Proof.
  unfold cache_key. rewrite !foldl_key. intros E%(f_equal (split_char "|")).
  rewrite !split_join_names in E. injection E as Eq Eh.
  apply (inj (fmap category_str)) in Eh. apply hidden_list_inj in Eh.
  assert (quick f = quick g) by (by destruct (quick f), (quick g)).
  destruct f, g; cbn in *; congruence.
Qed.

(** The filter key cycles through its four settings and comes back. *)
Lemma quick_cycle q : quick_next (quick_next (quick_next (quick_next q))) = q.
Proof. by destruct q. Qed.

Lemma toggle_involutive c f : toggle c (toggle c f) = f.
Proof.
  destruct f as [q h]. unfold toggle. cbn [quick hidden]. f_equal.
  destruct (decide (c ∈ h)) as [Hc|Hc].
  - rewrite (bool_decide_eq_true_2 (c ∈ h)) by done.
    rewrite bool_decide_eq_false_2 by set_solver. apply set_eq. intros x.
    destruct (decide (x = c)); set_solver.
  - rewrite (bool_decide_eq_false_2 (c ∈ h)) by done.
    rewrite bool_decide_eq_true_2 by set_solver. apply set_eq. intros x. set_solver.
Qed.

Lemma cache_key_identifies_witness : cycle (cycle (cycle (cycle default_filter))) = default_filter.
Proof. apply cache_key_identifies. vm_compute. reflexivity. Defined.
