(* ===== verification/Paging.v ===== *)
(** * Transcript pages on the wire

    The page a client is given: the server's query loop ([renderable_rows] of
    [routes/sessions.rs], over the rows of [stream_events]), the order
    [get_conversation] answers in, the client's [has_more] ([rest.rs]) and the
    rows the terminal UI keeps of it ([load_conversation_page] of
    [effects.rs]).

    The table is a map from [id] (a [BIGSERIAL], the [seq] of the wire) to the
    stored payload; the two texts of [conversation_sql] are read as the SQL they
    are.  What a payload renders to ([for_client]) and what an event decodes to
    are arguments: the paging depends only on whether they give anything. *)

From stdpp Require Import base decidable list strings gmap sorting.
From Stdlib Require Import Lia ZArith Bool String.
From S2P Require Import Prelude RustStr Json Transcript.

Open Scope string_scope.
Open Scope list_scope.

Inductive ConversationOrder := Desc | Asc.

#[export] Instance ConversationOrder_eq_dec : EqDecision ConversationOrder.
Proof. solve_decision. Defined.

Record ConversationQuery := mk_query {
  q_limit : option Z;
  q_before : option Z;
  q_after : option Z;
  q_order : ConversationOrder
}.

(** ** What a client may rely on

    A page of a transcript: rows below an optional bound, none twice, with
    nothing missing between the oldest of them and the bound; when no more is
    announced, nothing is missing at all. *)
Record page_contract (D : Z → ConversationLine → Prop) (bound : option Z)
    (rows : list (Z * ConversationLine)) (more : bool) : Prop := {
  pc_nodup : NoDup rows.*1;
  pc_sound : ∀ z l, (z, l) ∈ rows → D z l ∧ ∀ b, bound = Some b → (z < b)%Z;
  pc_suffix : ∀ z l z' l', (z, l) ∈ rows → D z' l' → (∀ b, bound = Some b → (z' < b)%Z) →
                (z ≤ z')%Z → (z', l') ∈ rows;
  pc_end : more = false → ∀ z l, D z l → (∀ b, bound = Some b → (z < b)%Z) → (z, l) ∈ rows
}.

Section Paging.
Context {V W : Type}.
Variable for_client : V → option W.
Variable decode : W → option ConversationLine.

Definition id_le (o : ConversationOrder) (x y : Z * V) : Prop :=
  match o with Asc => (x.1 ≤ y.1)%Z | Desc => (y.1 ≤ x.1)%Z end.

#[local] Instance id_le_dec o : RelDecision (id_le o).
Proof. intros x y. unfold id_le. destruct o; apply _. Defined.

(** [WHERE ... ($2 IS NULL OR id < $2) AND ($4 IS NULL OR id > $4)]. *)
Definition in_window (before after : option Z) (r : Z * V) : Prop :=
  match before with None => True | Some b => (r.1 < b)%Z end ∧
  match after with None => True | Some a => (a < r.1)%Z end.

#[local] Instance in_window_dec b a r : Decision (in_window b a r).
Proof. unfold in_window. destruct b, a; apply _. Defined.

(** [... ORDER BY id DESC|ASC LIMIT $3]; a null limit is no limit. *)
Definition conversation_sql (o : ConversationOrder) (tbl : gmap Z V)
    (before limit after : option Z) : list (Z * V) :=
  let rows := merge_sort (id_le o) (filter (in_window before after) (map_to_list tbl)) in
  match limit with None => rows | Some n => take (Z.to_nat n) rows end.

Definition render_rows (rows : list (Z * V)) : list (Z * W) :=
  omap (λ r, (λ w, (r.1, w)) <$> for_client r.2) rows.

(** [l.clamp(1, 10_000)]. *)
Definition clamp_limit (l : Z) : Z := Z.min (Z.max l 1) 10000.

(** The loop, with fuel for its rounds. *)
Fixpoint rr_loop (fuel : nat) (tbl : gmap Z V) (o : ConversationOrder)
    (limit before after : option Z) (out : list (Z * W)) : option (list (Z * W)) :=
  match fuel with
  | O => None
  | S fuel =>
    let want := (λ l, l - Z.of_nat (List.length out))%Z <$> limit in
    let rows := conversation_sql o tbl before want after in
    let fetched := Z.of_nat (List.length rows) in
    let last_id := fst <$> last rows in
    let out := out ++ render_rows rows in
    match limit with
    | None => Some out
    | Some l =>
      let exhausted := match want with Some w => (fetched <? w)%Z | None => false end in
      if exhausted || (l <=? Z.of_nat (List.length out))%Z then Some out
      else match o with
           | Desc => rr_loop fuel tbl o limit last_id after out
           | Asc => rr_loop fuel tbl o limit before last_id out
           end
    end
  end.

Definition renderable_rows (tbl : gmap Z V) (q : ConversationQuery) : option (list (Z * W)) :=
  rr_loop (S (size tbl)) tbl (q_order q) (clamp_limit <$> q_limit q) (q_before q) (q_after q) [].

(** The rows of [get_conversation]'s answer: always oldest first. *)
Definition conversation_rows (tbl : gmap Z V) (q : ConversationQuery) : option (list (Z * W)) :=
  (λ rows, if bool_decide (q_order q = Desc) then reverse rows else rows) <$> renderable_rows tbl q.

(** [Client::conversation]: the client names no order, so the server's default
    applies; a page that fills its limit has more behind it. *)
Definition page_query (p : PageRequest) : ConversationQuery :=
  mk_query (limit p) (before p) (after p) Desc.

Definition page_has_more (p : PageRequest) (rows : list (Z * W)) : bool :=
  match limit p with Some l => (l <=? Z.of_nat (List.length rows))%Z | None => false end.

(** [load_conversation_page]: the rows with a line, and whether more are behind. *)
Definition decode_rows (rows : list (Z * W)) : list (Z * ConversationLine) :=
  omap (λ r, (λ l, (r.1, l)) <$> decode r.2) rows.

Definition load_page (tbl : gmap Z V) (p : PageRequest)
  : option (list (Z * ConversationLine) * bool) :=
  (λ rows, (decode_rows rows, page_has_more p rows)) <$> conversation_rows tbl (page_query p).

(** ** What a query answers *)

Lemma id_le_total o : Total (id_le o).
Proof. intros x y. destruct o; cbn; lia. Qed.

Lemma id_le_trans o : Transitive (id_le o).
Proof. intros x y z. destruct o; cbn; lia. Qed.

(** Strictly after in the paging direction. *)
Definition id_lt (o : ConversationOrder) (x y : Z * V) : Prop :=
  match o with Asc => (x.1 < y.1)%Z | Desc => (y.1 < x.1)%Z end.

Lemma sql_strict o tbl b a : StronglySorted (id_lt o) (conversation_sql o tbl b None a).
Proof.
  unfold conversation_sql. set (l := filter _ _).
  assert (NoDup (merge_sort (id_le o) l).*1) as Hn.
  { rewrite merge_sort_Permutation. eapply sublist_NoDup; [apply (NoDup_fst_map_to_list tbl)|].
    apply fmap_sublist, sublist_filter. }
  assert (StronglySorted (id_le o) (merge_sort (id_le o) l)) as Hs.
  { apply StronglySorted_merge_sort; [apply id_le_trans|apply id_le_total]. }
  revert Hn Hs. generalize (merge_sort (id_le o) l) as r. intros r Hn Hs.
  induction Hs as [|x r Hs IH Hf]; [constructor|]. rewrite fmap_cons in Hn.
  apply NoDup_cons in Hn as [Hx Hn]. constructor; [by apply IH|].
  rewrite Forall_forall in *. intros y Hy. specialize (Hf y Hy).
  assert (x.1 ≠ y.1) by (intros E; apply Hx; rewrite E; by apply list_elem_of_fmap_2).
  destruct o; cbn in *; lia.
Qed.

Lemma elem_of_sql o tbl b a r :
  r ∈ conversation_sql o tbl b None a ↔ tbl !! r.1 = Some r.2 ∧ in_window b a r.
Proof.
  unfold conversation_sql. rewrite merge_sort_Permutation, list_elem_of_filter.
  destruct r as [i v]. rewrite elem_of_map_to_list. cbn. tauto.
Qed.

Lemma strict_NoDup o l : StronglySorted (id_lt o) l → NoDup l.
Proof.
  induction 1 as [|x l _ IH Hf]; [constructor|]. constructor; [|done]. intros Hx.
  rewrite Forall_forall in Hf. specialize (Hf x Hx). destruct o; cbn in Hf; lia.
Qed.

Lemma strict_unique o l l' :
  StronglySorted (id_lt o) l → StronglySorted (id_lt o) l' → (∀ r, r ∈ l ↔ r ∈ l') → l = l'.
Proof.
  intros Hs Hs' He. apply (StronglySorted_unique_strong (id_lt o)); [|done..|].
  - intros x y _ _ H1 H2. destruct o; cbn in *; lia.
  - apply NoDup_Permutation; [by eapply strict_NoDup..|done].
Qed.

(** The next round's window: where the last row of this one left off. *)
Definition next_before (o : ConversationOrder) (b : option Z) (i : Z) : option Z :=
  match o with Desc => Some i | Asc => b end.
Definition next_after (o : ConversationOrder) (a : option Z) (i : Z) : option Z :=
  match o with Desc => a | Asc => Some i end.

Lemma sql_resume o tbl b a l x r :
  conversation_sql o tbl b None a = l ++ x :: r →
  conversation_sql o tbl (next_before o b x.1) None (next_after o a x.1) = r.
Proof.
  intros E. pose proof (sql_strict o tbl b a) as Hs. rewrite E in Hs.
  apply StronglySorted_app in Hs as (Hl & _ & Hs). apply StronglySorted_cons in Hs as [Hx Hs].
  rewrite Forall_forall in Hx.
  assert (in_window b a x) as Hw.
  { apply (elem_of_sql o tbl). rewrite E. set_solver. }
  apply (strict_unique o); [apply sql_strict|done|]. intros y. rewrite elem_of_sql. split.
  - intros [Hy Hwy].
    assert (y ∈ l ++ x :: r) as Hin.
    { rewrite <-E. apply elem_of_sql. split; [done|].
      destruct o, b, a; unfold in_window in *; cbn in *; lia. }
    apply elem_of_app in Hin as [Hin|[->|Hin]%elem_of_cons]; [| |done].
    + specialize (Hl y x Hin ltac:(left)).
      destruct o; unfold in_window, id_lt in *; cbn in *; lia.
    + destruct o; unfold in_window in *; cbn in *; lia.
  - intros Hy. assert (y ∈ conversation_sql o tbl b None a) as Hin by (rewrite E; set_solver).
    apply elem_of_sql in Hin as [Ht Hwy]. split; [done|]. specialize (Hx y Hy).
    destruct o, b, a; unfold in_window, id_lt in *; cbn in *; lia.
Qed.

Lemma render_rows_length rows : (List.length (render_rows rows) ≤ List.length rows)%nat.
Proof.
  unfold render_rows in *. induction rows as [|r rows IH]; [done|]. csimpl.
  destruct (for_client r.2); cbn in *; lia.
Qed.

Lemma sql_limit o tbl b a n :
  conversation_sql o tbl b (Some n) a = take (Z.to_nat n) (conversation_sql o tbl b None a).
Proof. done. Qed.

(** The loop returns with one unit of fuel per row left, and the page is cut
    off the rendered rows of the whole window. *)
Lemma rr_loop_exact o tbl l : ∀ fuel b a out,
  (1 ≤ l)%Z → (Z.of_nat (List.length out) < l)%Z →
  (List.length (conversation_sql o tbl b None a) < fuel)%nat →
  rr_loop fuel tbl o (Some l) b a out =
    Some (take (Z.to_nat l) (out ++ render_rows (conversation_sql o tbl b None a))).
Proof.
  induction fuel as [|fuel IH]; intros b a out Hl Hout Hf; [lia|].
  cbn [rr_loop]. cbn [fmap option_fmap option_map]. rewrite sql_limit.
  set (R := conversation_sql o tbl b None a) in *.
  set (w := (l - Z.of_nat (List.length out))%Z).
  set (rows := take (Z.to_nat w) R).
  pose proof (render_rows_length rows) as Hr.
  destruct (Z.ltb_spec (Z.of_nat (List.length rows)) w) as [Hlt|Hge].
  - cbn [orb]. assert (rows = R) as ER.
    { apply take_ge. unfold rows in Hlt. rewrite length_take in Hlt. lia. }
    rewrite ER. rewrite take_ge; [done|]. rewrite length_app, <-ER. lia.
  - assert (List.length rows = Z.to_nat w) as Hlen.
    { unfold rows in *. rewrite length_take in *. lia. }
    cbn [orb]. assert (R = rows ++ drop (Z.to_nat w) R) as ER by (symmetry; apply take_drop).
    rewrite ER. unfold render_rows. rewrite omap_app. fold (render_rows rows).
    fold (render_rows (drop (Z.to_nat w) R)). rewrite (assoc_L (++)).
    destruct (Z.leb_spec l (Z.of_nat (List.length (out ++ render_rows rows)))) as [Hfull|Hpart].
    + rewrite take_app_le; [|lia]. rewrite take_ge; [done|]. rewrite length_app. lia.
    + destruct (last rows) as [x|] eqn:Ex; [|apply last_None in Ex; rewrite Ex in Hlen; cbn in Hlen; lia].
      apply last_Some in Ex as [pre Epre]. rewrite Epre, <-(assoc_L (++)) in ER. cbn [app] in ER.
      pose proof (sql_resume o tbl b a pre x _ ER) as Hres.
      assert (List.length (drop (Z.to_nat w) R) < fuel)%nat as Hf'.
      { rewrite length_drop.
        unfold rows in Hlen. rewrite length_take in Hlen. lia. }
      destruct o; cbn [next_before next_after fmap option_fmap option_map] in *;
        rewrite IH by (try rewrite Hres; lia); by rewrite Hres.
Qed.

(** C23. The server's loop returns on every query, and its page is exactly the
    first [limit] (between 1 and 10,000) rows that render, in query order, of
    the rows in the window: rows that do not render neither shorten a page nor
    end it.  Without a limit it is all of them. *)
Theorem renderable_rows_exact tbl q :
  let rows := render_rows (conversation_sql (q_order q) tbl (q_before q) None (q_after q)) in
  renderable_rows tbl q =
    Some (match q_limit q with
          | None => rows
          | Some l => take (Z.to_nat (clamp_limit l)) rows
          end).
Proof.
  cbn zeta. unfold renderable_rows. destruct (q_limit q) as [l|]; [|done].
  cbn [fmap option_fmap option_map]. rewrite rr_loop_exact; [done|..].
  - unfold clamp_limit. lia.
  - unfold clamp_limit. cbn. lia.
  - unfold conversation_sql. rewrite merge_sort_Permutation.
    eapply Nat.le_lt_trans; [apply length_filter|]. rewrite length_map_to_list. lia.
Qed.

(** The rows of the table the terminal UI has a line for. *)
Definition displayable (tbl : gmap Z V) (z : Z) (l : ConversationLine) : Prop :=
  ∃ v w, tbl !! z = Some v ∧ for_client v = Some w ∧ decode w = Some l.

Lemma elem_of_render z w rows : (z, w) ∈ render_rows rows ↔ ∃ v, (z, v) ∈ rows ∧ for_client v = Some w.
Proof.
  unfold render_rows. rewrite list_elem_of_omap. split.
  - intros ([i v] & Hin & Hf). cbn in Hf. destruct (for_client v) eqn:E; [|done].
    injection Hf as -> ->. eauto.
  - intros (v & Hin & Hf). exists (z, v). cbn. by rewrite Hf.
Qed.

Lemma elem_of_decode z l rows : (z, l) ∈ decode_rows rows ↔ ∃ w, (z, w) ∈ rows ∧ decode w = Some l.
Proof.
  unfold decode_rows. rewrite list_elem_of_omap. split.
  - intros ([i w] & Hin & Hf). cbn in Hf. destruct (decode w) eqn:E; [|done].
    injection Hf as -> ->. eauto.
  - intros (w & Hin & Hf). exists (z, w). cbn. by rewrite Hf.
Qed.

Lemma render_desc tbl b a :
  StronglySorted (λ x y : Z * W, (y.1 < x.1)%Z) (render_rows (conversation_sql Desc tbl b None a)).
Proof.
  pose proof (sql_strict Desc tbl b a) as Hs. induction Hs as [|x l _ IH Hf]; [constructor|].
  change (render_rows (x :: l)) with (render_rows ([x] ++ l)). unfold render_rows in *.
  rewrite omap_app. csimpl. destruct (for_client x.2) as [w|]; [|done]. cbn. constructor; [done|].
  rewrite Forall_forall in Hf. apply Forall_forall. intros y (r & Hr & Ey)%list_elem_of_omap.
  destruct (for_client r.2); [|done]. injection Ey as <-. by apply (Hf r).
Qed.

Lemma desc_NoDup {X} (l : list (Z * X)) :
  StronglySorted (λ x y : Z * X, (y.1 < x.1)%Z) l → NoDup l.*1.
Proof.
  induction 1 as [|x l _ IH Hf]; [constructor|]. rewrite fmap_cons. constructor; [|done].
  intros (y & E & Hy)%list_elem_of_fmap. rewrite Forall_forall in Hf. specialize (Hf y Hy).
  cbn in Hf. lia.
Qed.

Lemma decode_sub rows : sublist (decode_rows rows).*1 rows.*1.
Proof.
  unfold decode_rows. induction rows as [|[z w] rows IH]; [done|]. csimpl.
  destruct (decode w); cbn; by constructor.
Qed.

(** A page fetched with a limit from 1 to 10,000 always comes back, and is
    what a client may rely on: no row twice, nothing missing between its oldest
    line and the cursor it was asked for, and a page that announces no more
    leaves nothing behind. *)
Theorem load_page_contract tbl b n :
  (1 ≤ n ≤ 10000)%Z →
  ∃ rows more, load_page tbl (mk_page b None (Some n)) = Some (rows, more) ∧
    page_contract (displayable tbl) b rows more.
Proof.
  intros Hn. unfold load_page, conversation_rows. rewrite renderable_rows_exact.
  cbn [q_limit q_order q_before q_after page_query limit before after fmap option_fmap option_map].
  rewrite bool_decide_true by done.
  replace (clamp_limit n) with n by (unfold clamp_limit; lia).
  set (L := render_rows (conversation_sql Desc tbl b None None)).
  assert (StronglySorted (λ x y : Z * W, (y.1 < x.1)%Z) L) as Hs by apply render_desc.
  assert (∀ z l, displayable tbl z l → (∀ b', b = Some b' → (z < b')%Z) →
            ∃ w, (z, w) ∈ L ∧ decode w = Some l) as HL.
  { intros z l (v & w & Hv & Hw & Hd) Hb. exists w. split; [|done]. apply elem_of_render.
    exists v. split; [|done]. apply elem_of_sql. split; [done|]. split; [|done].
    destruct b as [b'|]; [|done]. by apply Hb. }
  eexists _, _. split; [reflexivity|]. split.
  - eapply sublist_NoDup; [|apply decode_sub]. rewrite fmap_reverse, reverse_Permutation.
    eapply sublist_NoDup; [apply (desc_NoDup L Hs)|]. apply fmap_sublist, sublist_take.
  - intros z l (w & Hin & Hd)%elem_of_decode. rewrite elem_of_reverse in Hin.
    eapply elem_of_sublist in Hin; [|apply sublist_take].
    apply elem_of_render in Hin as (v & [Hv Hw]%elem_of_sql & Hf). split; [by exists v, w|].
    intros b' ->. by destruct Hw.
  - intros z l z' l' (w & Hin & Hd)%elem_of_decode HD Hb Hle. rewrite elem_of_reverse in Hin.
    destruct (HL z' l' HD Hb) as (w' & Hin' & Hd'). apply elem_of_decode. exists w'.
    split; [|done]. rewrite elem_of_reverse.
    rewrite <-(take_drop (Z.to_nat n) L) in Hin', Hs. apply elem_of_app in Hin' as [?|Hdrop]; [done|].
    pose proof (StronglySorted_app_1_elem_of _ _ _ _ _ Hs Hin Hdrop) as Hlt. cbn in Hlt. lia.
  - cbn [page_has_more limit]. intros Hmore z l HD Hb. apply Z.leb_gt in Hmore.
    rewrite length_reverse, length_take in Hmore.
    destruct (HL z l HD Hb) as (w & Hin & Hd). apply elem_of_decode. exists w. split; [|done].
    rewrite elem_of_reverse. rewrite take_ge by lia. done.
Qed.
End Paging.

(** ** Witness *)

Lemma load_page_contract_witness :
  ∃ rows more,
    load_page Some (λ t, Some (new_line KAssistant t 0)) {[1%Z := "a"; 2%Z := "b"]}
      (mk_page None None (Some 200%Z)) = Some (rows, more) ∧
    page_contract (displayable Some (λ t, Some (new_line KAssistant t 0))
                     {[1%Z := "a"; 2%Z := "b"]}) None rows more.
Proof. apply load_page_contract. lia. Defined.
