(* ===== verification/TranscriptSync.v ===== *)
(** * Keeping a transcript whole

    The store holds a window of a transcript that lives on the server.  Paging
    walks back from the oldest line it holds, so a line missing above that one
    is never fetched again: a hole.  This file follows one store through the
    pages and live events that reach it, with the server's pages known only by
    their contract ([Paging.page_contract], which [Paging.load_page_contract]
    discharges), and shows which sequences leave no hole, that paging back
    reaches the start, and the two that open one. *)

From stdpp Require Import base decidable list strings gmap sorting.
From Stdlib Require Import Lia ZArith Bool String.
From S2P Require Import Prelude RustStr Json Transcript TranscriptFacts Paging.

Open Scope string_scope.
Open Scope list_scope.
Open Scope Z_scope.

(** ** What a batch of rows can add *)

(** The sequenced lines shown. *)
Definition shown (st : ConversationStore) (z : Z) : Prop := (z, true) ∈ shape <$> entries st.

Lemma insert_shown seq sq line st z :
  shown (insert seq sq line st).2 z → (sq = true ∧ z = seq) ∨ shown st z.
Proof.
  unfold shown. destruct (insert_cases seq sq line st) as [(-> & Hin & ->)|[Hnew _]]; [by right|].
  rewrite insert_new by done. cbn [snd]. rewrite pair_shape. intros Hz.
  eapply elem_of_sublist in Hz; [|apply fmap_sublist, close_queued_sublist].
  destruct (spliced_frame seq sq line st) as (_ & He & _). rewrite He, ins_perm in Hz.
  rewrite fmap_cons in Hz. apply elem_of_cons in Hz as [[= -> ->]|Hz]; [by left|by right].
Qed.

Lemma insert_rows_frame rows : ∀ st,
  let st' := (insert_rows rows st).2 in
  seqs st' = list_to_set rows.*1 ∪ seqs st ∧ same_paging st' st ∧
  ∀ z, shown st' z → z ∈ rows.*1 ∨ shown st z.
Proof.
  induction rows as [|[seq line] rows IH]; intros st; cbn [insert_rows].
  { cbn. split; [by rewrite union_empty_l_L|]. split; [done|]. by right. }
  destruct (insert_frame seq true line st) as [Hp Hs].
  pose proof (insert_shown seq true line st) as Hsh.
  destruct (insert seq true line st) as [b st1]. cbn [snd] in *. specialize (IH st1).
  destruct (insert_rows rows st1) as [n st']. cbn [snd] in *. destruct IH as (Es & Hp' & Hz).
  split; [|split].
  - rewrite Es, Hs. cbn. by rewrite (assoc_L (∪)), (comm_L (∪) (list_to_set _)).
  - unfold same_paging in *. destruct_and!. repeat split; congruence.
  - intros z [Hin|Hin]%Hz; [left; by right|].
    destruct (Hsh z Hin) as [[_ ->]|]; [left; by left|by right].
Qed.

Lemma oldest_shown st o : oldest_seq st = Some o → shown st o.
Proof.
  unfold oldest_seq, find_sequenced, shown. induction (entries st) as [|e l IH]; [done|].
  cbn [find_map]. destruct (sequenced e) eqn:E; cbn.
  - intros [= <-]. unfold shape. rewrite E. left.
  - intros H. right. by apply IH.
Qed.

Lemma oldest_least st o z : store_ok st → oldest_seq st = Some o → shown st z → o ≤ z.
Proof.
  intros [[Hs _ _] _ _]. unfold oldest_seq, find_sequenced, shown.
  induction (entries st) as [|e l IH]; [done|]. cbn [find_map]. rewrite fmap_cons in *.
  apply StronglySorted_inv in Hs as [Hs Hf]. rewrite Forall_forall in Hf.
  destruct (sequenced e) eqn:E.
  - intros [= <-]. intros [[= -> _]|Hz]%elem_of_cons; [lia|]. by apply (Hf _ Hz).
  - intros Ho [Hz|Hz]%elem_of_cons; [|by apply IH].
    unfold shape in Hz. rewrite E in Hz. done.
Qed.

Lemma finish_frame k tag more st :
  entries (finish_page k tag more st) = entries st ∧ seqs (finish_page k tag more st) = seqs st.
Proof. by destruct k. Qed.

(** A merge that is not stale, in one equation. *)
Lemma merge_page_fresh k c rows tag more st :
  page_is_stale k c st = false →
  (merge_page k c rows tag more st).2 =
    finish_page k tag more (insert_rows rows (make_room k rows st)).2.
Proof.
  intros Hst. unfold merge_page. rewrite Hst. by destruct (insert_rows _ _).
Qed.

(** ** The sequences that reach a store *)

Section Sync.

(** The lines of the transcript, by [seq]: what the server will ever show. *)
Variable D : Z → ConversationLine → Prop.

(** The transcript when its newest row was [t]. *)
Definition snapshot (t : Z) (z : Z) (l : ConversationLine) : Prop := D z l ∧ z ≤ t.

(** A store and what its owner knows of it: the bound of the older page it has
    asked for, the newest row of the last newest page it was given, and the
    highest [seq] it was ever sent. *)
Record sync := mk_sync {
  sy_store : ConversationStore;
  sy_asked : option Z;
  sy_top : Z;
  sy_seen : Z
}.

(** The row the outstanding request was anchored on is still shown. *)
Definition anchored (s : sync) : Prop :=
  older_claim (sy_store s) ≠ None → ∀ b, sy_asked s = Some b → shown (sy_store s) b.

Inductive sync_step (s : sync) : sync → Prop :=
(** An older page is asked for. *)
| sync_begin r c st' :
    begin_older (sy_store s) = (Some (r, c), st') →
    sync_step s (mk_sync st' (before r) (sy_top s) (sy_seen s))
(** The reply to it. *)
| sync_older b rows tag more :
    older_claim (sy_store s) ≠ None → sy_asked s = Some b →
    page_contract D (Some b) rows more →
    sync_step s (mk_sync (merge_page Older (older_claim (sy_store s)) rows tag more (sy_store s)).2
                   (sy_asked s) (sy_top s) (sy_seen s))
(** A reply to an older page given up since. *)
| sync_stale c rows tag more :
    older_page_is_stale c (sy_store s) = true →
    sync_step s (mk_sync (merge_page Older c rows tag more (sy_store s)).2
                   (sy_asked s) (sy_top s) (sy_seen s))
(** A newest page: one that does not join what is held, or one that joins below
    the last newest page. *)
| sync_latest t rows tag more m :
    page_contract (snapshot t) None rows more → min_seq rows = Some m →
    anchored s →
    joins_onto_held_history m (sy_store s) = false ∨ m - 1 ≤ sy_top s →
    sync_step s (mk_sync (merge_page Latest None rows tag more (sy_store s)).2
                   (sy_asked s) t (Z.max (sy_seen s) t))
(** A reconnect page: rows above something held. *)
| sync_gap rows tag more :
    (∀ z, z ∈ rows.*1 → z ≤ sy_seen s → ∃ a, shown (sy_store s) a ∧ a ≤ z) →
    sync_step s (mk_sync (merge_page Gap None rows tag more (sy_store s)).2
                   (sy_asked s) (sy_top s) (foldr Z.max (sy_seen s) rows.*1))
(** A live event: unsequenced, newer than anything seen, or above something held. *)
| sync_live_plain line :
    sync_step s (mk_sync (push_live None line (sy_store s)).2 (sy_asked s) (sy_top s) (sy_seen s))
| sync_live z line :
    (z ≤ sy_seen s → ∃ a, shown (sy_store s) a ∧ a ≤ z) →
    sync_step s (mk_sync (push_live (Some z) line (sy_store s)).2
                   (sy_asked s) (sy_top s) (Z.max (sy_seen s) z))
(** The cap, while no older page is asked for. *)
| sync_trim :
    older_claim (sy_store s) = None →
    sync_step s (mk_sync (trim_to_cap (sy_store s)).2 (sy_asked s) (sy_top s) (sy_seen s))
(** The rest leaves the lines alone. *)
| sync_failed k c :
    sync_step s (mk_sync (page_failed k c (sy_store s)) (sy_asked s) (sy_top s) (sy_seen s))
| sync_unchanged k c :
    sync_step s (mk_sync (page_not_modified k c (sy_store s)) (sy_asked s) (sy_top s) (sy_seen s))
| sync_toggle i :
    sync_step s (mk_sync (toggle_expanded i (sy_store s)).2 (sy_asked s) (sy_top s) (sy_seen s))
| sync_toggle_all b :
    sync_step s (mk_sync (set_all_expanded b (sy_store s)).2 (sy_asked s) (sy_top s) (sy_seen s)).

Definition sync_start (t : Z) : sync := mk_sync new_store None t t.

(** From [f] up to the last newest page, everything is held; nothing below [f]
    is shown, and the page asked for ends no lower. *)
Record whole_from (f : Z) (s : sync) : Prop := {
  wf_ok : store_ok (sy_store s);
  wf_held : ∀ z l, D z l → f ≤ z ≤ sy_top s → z ∈ seqs (sy_store s);
  wf_floor : ∀ z, shown (sy_store s) z → f ≤ z ≤ sy_seen s;
  wf_asked : older_claim (sy_store s) ≠ None →
               ∃ b, sy_asked s = Some b ∧ f ≤ b ≤ sy_seen s;
  wf_seen : f ≤ sy_seen s + 1
}.

(** An operation that keeps the lines and does not ask for anything. *)
Lemma whole_same f s st' :
  whole_from f s → store_ok st' → seqs st' = seqs (sy_store s) →
  (∀ z, shown st' z → shown (sy_store s) z) →
  (older_claim st' ≠ None → older_claim (sy_store s) ≠ None) →
  whole_from f (mk_sync st' (sy_asked s) (sy_top s) (sy_seen s)).
Proof.
  intros [_ Hh Hf Ha Hs] Hok Es Hsh Hc. split; cbn; [done| | | |done].
  - intros z l HD Hz. rewrite Es. by eapply Hh.
  - intros z Hz. by apply Hf, Hsh.
  - intros Hn. by apply Ha, Hc.
Qed.

Lemma min_seq_least rows : ∀ m z, min_seq rows = Some m → z ∈ rows.*1 → m ≤ z.
Proof.
  induction rows as [|[s l] rows IH]; intros m z; [done|]. cbn [min_seq]. intros [= <-].
  rewrite fmap_cons. intros [->|Hz]%elem_of_cons; cbn.
  - destruct (min_seq rows); lia.
  - destruct (min_seq rows) as [m'|] eqn:E; [specialize (IH m' z eq_refl Hz); lia|].
    destruct rows as [|[? ?] ?]; [|done]. by apply elem_of_nil in Hz.
Qed.

Lemma min_seq_in rows : ∀ m, min_seq rows = Some m → m ∈ rows.*1.
Proof.
  induction rows as [|[s l] rows IH]; intros m; [done|]. cbn [min_seq]. intros [= <-].
  rewrite fmap_cons. apply elem_of_cons. cbn. destruct (min_seq rows) as [m'|]; [|by left].
  destruct (Z.min_spec s m') as [[_ ->]|[_ ->]]; [by left|right; by apply IH].
Qed.

Lemma rows_line (rows : list (Z * ConversationLine)) z : z ∈ rows.*1 → ∃ l, (z, l) ∈ rows.
Proof. intros ([z' l] & -> & Hin)%list_elem_of_fmap. by exists l. Qed.

(** A page whose rows are new below the floor and whole up to it. *)
Lemma whole_older f s b rows tag more :
  whole_from f s → older_claim (sy_store s) ≠ None → sy_asked s = Some b →
  page_contract D (Some b) rows more →
  whole_from (match min_seq rows with Some m => Z.min f m | None => f end)
    (mk_sync (merge_page Older (older_claim (sy_store s)) rows tag more (sy_store s)).2
       (sy_asked s) (sy_top s) (sy_seen s)).
Proof.
  intros [Hok Hh Hf Ha Hs] Hc Eb [_ Hsound Hsuf _].
  destruct (Ha Hc) as (b' & Eb' & Hb). simplify_eq.
  assert (page_is_stale Older (older_claim (sy_store s)) (sy_store s) = false) as Hst.
  { unfold page_is_stale, older_page_is_stale. destruct (older_claim (sy_store s)); [|done].
    cbn. by rewrite N.eqb_refl. }
  rewrite merge_page_fresh by done. cbn [make_room].
  destruct (insert_rows_frame rows (sy_store s)) as (Es & _ & Hsh).
  set (st' := (insert_rows rows (sy_store s)).2) in *.
  split; cbn [sy_store sy_asked sy_top sy_seen].
  - apply finish_ok. by apply insert_rows_ok.
  - intros z l HD [Hlo Hhi]. cbn [finish_page seqs set_paging]. rewrite Es. apply elem_of_union.
    destruct (decide (f ≤ z)) as [Hz|Hz]; [right; by eapply Hh|]. left.
    destruct (min_seq rows) as [m|] eqn:Em; [|lia].
    apply elem_of_list_to_set, list_elem_of_fmap. exists (z, l). split; [done|].
    destruct (rows_line rows m (min_seq_in _ _ Em)) as [l0 Hm].
    apply (Hsuf m l0); [done..| |lia]. intros b0 [= <-]. lia.
  - intros z [Hz|Hz]%Hsh.
    + destruct (rows_line rows z Hz) as [l Hl]. apply Hsound in Hl as [_ Hl].
      specialize (Hl b eq_refl). destruct (min_seq rows) as [m|] eqn:Em; [|by destruct rows as [|[]]; [apply elem_of_nil in Hz|]].
      pose proof (min_seq_least _ _ _ Em Hz). lia.
    + specialize (Hf z Hz). destruct (min_seq rows); lia.
  - by cbn.
  - destruct (min_seq rows); lia.
Qed.

(** Rows merged into a store that is whole where they are not. *)
Lemma whole_page g st0 asked t seen rows k tag more :
  k ≠ Older → store_ok st0 →
  (∀ z l, D z l → g ≤ z ≤ t → z ∈ rows.*1 ∨ z ∈ seqs st0) →
  (∀ z, z ∈ rows.*1 ∨ shown st0 z → g ≤ z ≤ seen) →
  (older_claim st0 ≠ None → ∃ b, asked = Some b ∧ g ≤ b ≤ seen) →
  g ≤ seen + 1 →
  whole_from g (mk_sync (finish_page k tag more (insert_rows rows st0).2) asked t seen).
Proof.
  intros Hk Hok Hh Hf Ha Hs.
  destruct (insert_rows_frame rows st0) as (Es & Hp & Hsh).
  pose proof (insert_rows_ok rows st0 Hok) as Hok'.
  set (st' := (insert_rows rows st0).2) in *.
  destruct (finish_frame k tag more st') as [Ee Eq].
  split; cbn [sy_store sy_asked sy_top sy_seen]; [by apply finish_ok| | | |done].
  - intros z l HD Hz. rewrite Eq, Es. apply elem_of_union.
    destruct (Hh z l HD Hz); [left; by apply elem_of_list_to_set|by right].
  - intros z. unfold shown. rewrite Ee. intros Hz. by apply Hf, Hsh.
  - intros Hc. apply Ha. destruct Hp as (_ & _ & _ & _ & E & _). rewrite <-E. by destruct k.
Qed.

Lemma whole_rows f s rows seen' k tag more :
  whole_from f s → k ≠ Older →
  (∀ z, z ∈ rows.*1 → f ≤ z ≤ seen') → sy_seen s ≤ seen' →
  whole_from f (mk_sync (finish_page k tag more (insert_rows rows (sy_store s)).2)
                  (sy_asked s) (sy_top s) seen').
Proof.
  intros [Hok Hh Hf Ha Hs] Hk Hr Hle. apply whole_page; try done; [..|lia].
  - intros z l HD Hz. right. by eapply Hh.
  - intros z [Hz|Hz]; [by apply Hr|]. specialize (Hf z Hz). lia.
  - intros Hc. destruct (Ha Hc) as (b & Eb & Hb). exists b. split; [done|lia].
Qed.

Lemma filter_full {A} (P : A → Prop) `{!∀ x, Decision (P x)} l :
  List.length (filter P l) = List.length l → ∀ x, x ∈ l → P x.
Proof.
  induction l as [|y l IH]; [by intros _ x ?%elem_of_nil|]. rewrite filter_cons.
  case_decide as Hy; cbn; intros Hl x; [|pose proof (length_filter P l); lia].
  intros [->|Hx]%elem_of_cons; [done|]. apply IH; [lia|done].
Qed.

(** What a newest page leaves standing before its rows go in. *)
Lemma drop_shown floor st z : shown (drop_history_below floor st) z → floor ≤ z ∧ shown st z.
Proof.
  unfold shown. rewrite (proj1 (drop_content _ _)).
  intros (e & Ez & [Hf Hin]%list_elem_of_filter)%list_elem_of_fmap. injection Ez as -> Hb.
  rewrite <-Hb in Hf. split; [by apply Z.leb_le|].
  apply list_elem_of_fmap. exists e. split; [|done]. unfold shape. by rewrite <-Hb.
Qed.

Lemma drop_claim floor st z :
  older_claim (drop_history_below floor st) ≠ None → shown st z →
  floor ≤ z ∧ older_claim st ≠ None.
Proof.
  unfold drop_history_below. case_bool_decide as Hl; [|done]. cbn. intros Hc Hz.
  split; [|done]. unfold shown in Hz. apply list_elem_of_fmap in Hz as (e & Ez & He).
  pose proof (filter_full _ _ Hl e He) as Hp. cbn in Hp. injection Ez as -> Hb.
  rewrite <-Hb in Hp. by apply Z.leb_le.
Qed.

Lemma whole_latest f s t rows tag more m :
  whole_from f s → page_contract (snapshot t) None rows more → min_seq rows = Some m →
  anchored s → joins_onto_held_history m (sy_store s) = false ∨ m - 1 ≤ sy_top s →
  ∃ f', whole_from f' (mk_sync (merge_page Latest None rows tag more (sy_store s)).2
                         (sy_asked s) t (Z.max (sy_seen s) t)).
Proof.
  intros Hw [_ Hsound Hsuf _] Em Hanc Hj.
  assert (∀ z, z ∈ rows.*1 → m ≤ z ≤ t) as Hr.
  { intros z Hz. split; [by eapply min_seq_least|]. apply rows_line in Hz as [l Hl].
    by apply Hsound in Hl as [[_ ?] _]. }
  destruct (rows_line rows m (min_seq_in _ _ Em)) as [l0 Hm].
  assert (∀ z l, D z l → m ≤ z ≤ t → z ∈ rows.*1) as Hpage.
  { intros z l HD Hz. apply list_elem_of_fmap. exists (z, l). split; [done|].
    apply (Hsuf m l0); [done|split; [done|lia]|done|lia]. }
  pose proof (Hr m (min_seq_in _ _ Em)) as Hmt.
  rewrite merge_page_fresh by done. cbn [make_room]. rewrite Em.
  destruct Hw as [Hok Hh Hf Ha Hs].
  destruct (joins_onto_held_history m (sy_store s)) eqn:Ej.
  - destruct Hj as [?|Hj]; [done|]. exists (Z.min f m). apply whole_page; try done; [..|lia].
    + intros z l HD Hz. destruct (decide (m ≤ z)) as [Hmz|Hmz].
      * left. eapply Hpage; [done|lia].
      * right. eapply Hh; [done|lia].
    + intros z [Hz|Hz]; [specialize (Hr z Hz)|specialize (Hf z Hz)]; lia.
    + intros Hc. destruct (Ha Hc) as (b & Eb & Hb). exists b. split; [done|lia].
  - exists m. apply whole_page; try done; [by apply drop_ok|..|lia].
    + intros z l HD Hz. left. by eapply Hpage.
    + intros z [Hz|Hz]; [specialize (Hr z Hz); lia|].
      apply drop_shown in Hz as [Hmz Hz]. specialize (Hf z Hz). lia.
    + intros Hc. assert (older_claim (sy_store s) ≠ None) as Hc'.
      { unfold drop_history_below in Hc. by case_bool_decide. }
      destruct (Ha Hc') as (b & Eb & Hb). exists b. split; [done|].
      destruct (drop_claim m (sy_store s) b Hc (Hanc Hc' b Eb)). lia.
Qed.

(** The least floor above every [seq] given. *)
Definition above (f : Z) (gone : list Z) : Z := foldr (λ z g, Z.max (z + 1) g) f gone.

Lemma above_spec f gone :
  f ≤ above f gone ∧ (∀ z, z ∈ gone → z < above f gone) ∧
  ∀ g, f ≤ g → (∀ z, z ∈ gone → z < g) → above f gone ≤ g.
Proof.
  unfold above. induction gone as [|y gone (IH1 & IH2 & IH3)]; cbn.
  { split; [lia|]. split; [by intros z ?%elem_of_nil|done]. }
  split; [lia|]. split.
  - intros z [->|Hz]%elem_of_cons; [lia|]. specialize (IH2 z Hz). lia.
  - intros g Hf Hg. pose proof (Hg y ltac:(left)).
    specialize (IH3 g Hf ltac:(intros z Hz; apply Hg; by right)). lia.
Qed.

(** Splitting the lines by index splits them by [seq]. *)
Lemma split_shown st n z y :
  store_ok st → (z, true) ∈ shape <$> take n (entries st) →
  (y, true) ∈ shape <$> drop n (entries st) → z < y.
Proof.
  intros [[Hs Hn _] _ _] Hz Hy.
  rewrite <-(take_drop n (entries st)), fmap_app in Hs, Hn.
  pose proof (StronglySorted_app_1_elem_of _ _ _ _ _ Hs Hz Hy) as Hle. unfold seq_le in Hle.
  cbn in Hle. unfold anchors in Hn. rewrite filter_app, fmap_app in Hn.
  apply NoDup_app in Hn as (_ & Hd & _). apply elem_of_anchors in Hz, Hy.
  assert (z ≠ y) by (intros ->; by apply (Hd y)). lia.
Qed.

Lemma whole_trim f s :
  whole_from f s → older_claim (sy_store s) = None →
  ∃ f', whole_from f' (mk_sync (trim_to_cap (sy_store s)).2 (sy_asked s) (sy_top s) (sy_seen s)).
Proof.
  intros Hw Hc. pose proof (trim_ok _ (wf_ok _ _ Hw)) as Hok'. revert Hok'.
  unfold trim_to_cap. destruct (_ <=? _)%nat; [by exists f; destruct s|]. cbn [snd].
  set (over := (List.length (entries (sy_store s)) - MAX_ENTRIES)%nat).
  set (gone := e_seq <$> filter _ (take over (entries (sy_store s)))). intros Hok'.
  destruct Hw as [Hok Hh Hf Ha Hs]. destruct (above_spec f gone) as (Hg1 & Hg2 & Hg3).
  assert (∀ z, z ∈ gone → (z, true) ∈ shape <$> take over (entries (sy_store s))) as Hgone.
  { intros z (e & -> & [He Hin]%list_elem_of_filter)%list_elem_of_fmap.
    apply list_elem_of_fmap. exists e. split; [|done]. unfold shape. by rewrite He. }
  exists (above f gone). split; [exact Hok'|..]; cbn.
  - intros z l HD Hz. apply elem_of_difference. split; [eapply Hh; [done|lia]|].
    rewrite elem_of_list_to_set. intros Hin. specialize (Hg2 z Hin). lia.
  - intros z Hz. unfold shown in Hz. cbn in Hz.
    assert (shown (sy_store s) z) as Hz'.
    { unfold shown. eapply elem_of_sublist; [exact Hz|]. apply fmap_sublist, sublist_drop. }
    specialize (Hf z Hz'). split; [|lia]. apply Hg3; [lia|]. intros y Hy.
    by apply (split_shown (sy_store s) over); [|apply Hgone|].
  - done.
  - apply Hg3; [lia|]. intros z Hz.
    assert (shown (sy_store s) z) as Hz'.
    { unfold shown. eapply elem_of_sublist; [by apply Hgone|]. apply fmap_sublist, sublist_take. }
    specialize (Hf z Hz'). lia.
Qed.

Lemma seen_fold seen zs : seen ≤ foldr Z.max seen zs ∧ ∀ z, z ∈ zs → z ≤ foldr Z.max seen zs.
Proof.
  induction zs as [|y zs [IH1 IH2]]; cbn; [split; [lia|by intros z ?%elem_of_nil]|].
  split; [lia|]. intros z [->|Hz]%elem_of_cons; [lia|]. specialize (IH2 z Hz). lia.
Qed.

Lemma insert_rows_one z line st :
  (insert_rows [(z, line)] st).2 = (insert z true line st).2.
Proof. cbn. by destruct (insert z true line st). Qed.

Lemma whole_live f s z line :
  whole_from f s → (z ≤ sy_seen s → ∃ a, shown (sy_store s) a ∧ a ≤ z) →
  whole_from f (mk_sync (push_live (Some z) line (sy_store s)).2
                  (sy_asked s) (sy_top s) (Z.max (sy_seen s) z)).
Proof.
  intros Hw Hz. destruct Hw as [Hok Hh Hf Ha Hs]. cbn [push_live].
  assert (f ≤ z).
  { destruct (decide (z ≤ sy_seen s)) as [Hle|]; [|lia]. destruct (Hz Hle) as (a & Hsh & Hle').
    specialize (Hf a Hsh). lia. }
  destruct (insert_rows_frame [(z, line)] (sy_store s)) as (Es & Hp & Hsh).
  rewrite insert_rows_one in Es, Hp, Hsh.
  split; cbn [sy_store sy_asked sy_top sy_seen]; [by apply insert_ok|..|lia].
  - intros y l HD Hy. rewrite Es. apply elem_of_union. right. by eapply Hh.
  - intros y [Hy|Hy]%Hsh; [apply list_elem_of_singleton in Hy; cbn in Hy; lia|].
    specialize (Hf y Hy). lia.
  - destruct Hp as (_ & _ & _ & _ & E & _). rewrite E. intros Hc.
    destruct (Ha Hc) as (b & Eb & Hb). exists b. split; [done|lia].
Qed.

Lemma whole_begin f s r c st' :
  whole_from f s → begin_older (sy_store s) = (Some (r, c), st') →
  whole_from f (mk_sync st' (before r) (sy_top s) (sy_seen s)).
Proof.
  intros [Hok Hh Hf Ha Hs] E. pose proof (begin_older_ok _ Hok) as Hok'. rewrite E in Hok'.
  unfold begin_older in E. destruct (_ || _); [done|].
  destruct (oldest_seq (sy_store s)) as [b|] eqn:Eb; [|done]. injection E as <- <- <-.
  split; cbn; [done|done|done| |done]. intros _. exists b. split; [done|].
  by apply Hf, oldest_shown.
Qed.

Lemma plain_live_same line st :
  let st' := (push_live None line st).2 in
  seqs st' = seqs st ∧ (∀ z, shown st' z → shown st z) ∧ older_claim st' = older_claim st.
Proof.
  cbn [push_live]. destruct (match last _ with Some _ => _ | None => _ end); [done|].
  set (z0 := default 0 _). destruct (insert_frame z0 false line st) as [Hp Es].
  split; [done|]. split; [|by destruct Hp as (_ & _ & _ & _ & E & _)].
  intros z [[? _]|?]%insert_shown; done.
Qed.

Lemma toggle_same i st :
  let st' := (toggle_expanded i st).2 in
  seqs st' = seqs st ∧ shape <$> entries st' = shape <$> entries st ∧
  older_claim st' = older_claim st.
Proof.
  unfold toggle_expanded. destruct (entries st !! i) as [e|] eqn:Ei; [|done].
  destruct (collapsible _); [|done]. cbn. split; [done|]. split; [|done].
  rewrite list_fmap_insert, list_insert_id; [done|]. by rewrite list_lookup_fmap, Ei.
Qed.

Lemma set_all_same b st :
  let st' := (set_all_expanded b st).2 in
  seqs st' = seqs st ∧ shape <$> entries st' = shape <$> entries st ∧
  older_claim st' = older_claim st.
Proof.
  unfold set_all_expanded. cbn [snd].
  assert (shape <$> ((λ e, if wants_expanded b e then set_expanded b e else e) <$> entries st)
            = shape <$> entries st) as Hsh.
  { rewrite <-list_fmap_compose. apply list_fmap_ext. intros i e _. cbn. by case_match. }
  destruct (existsb _ _); cbn; by rewrite Hsh.
Qed.

Lemma whole_step f s s' : whole_from f s → sync_step s s' → ∃ f', whole_from f' s'.
Proof.
  intros Hw Hstep. pose proof (wf_ok _ _ Hw) as Hok.
  destruct Hstep as [r c st' E|b rows tag more Hc Eb Hp|c rows tag more Hst
    |t rows tag more m Hp Em Ha Hj|rows tag more Hr|line|z line Hz|Hc|k c|k c|i|b].
  - exists f. by eapply whole_begin.
  - eexists. by eapply whole_older.
  - exists f. unfold merge_page, page_is_stale. rewrite Hst. by apply whole_same.
  - by eapply whole_latest.
  - exists f. rewrite merge_page_fresh by done. cbn [make_room].
    destruct (seen_fold (sy_seen s) rows.*1) as [Hs1 Hs2]. apply whole_rows; try done.
    intros z Hz. split; [|by apply Hs2]. destruct (decide (z ≤ sy_seen s)) as [Hle|].
    + destruct (Hr z Hz Hle) as (a & Hsh & ?). pose proof (wf_floor _ _ Hw a Hsh). lia.
    + pose proof (wf_seen _ _ Hw). lia.
  - exists f. destruct (plain_live_same line (sy_store s)) as (Es & Hsh & Ec).
    apply whole_same; try done; [by apply push_live_ok|by rewrite Ec].
  - exists f. by apply whole_live.
  - by eapply whole_trim.
  - exists f. pose proof (store_step_ok _ _ (step_failed (sy_store s) k c) Hok) as Hok'.
    revert Hok'. unfold page_failed. destruct (_ && _); intros Hok'; by apply whole_same.
  - exists f. pose proof (store_step_ok _ _ (step_not_modified (sy_store s) k c) Hok) as Hok'.
    revert Hok'. unfold page_not_modified. destruct (page_is_stale _ _ _); intros Hok';
      [by apply whole_same|]. destruct k; by apply whole_same.
  - exists f. destruct (toggle_same i (sy_store s)) as (Es & Hsh & Ec).
    apply whole_same; try done; [by apply toggle_ok|unfold shown; by rewrite Hsh|by rewrite Ec].
  - exists f. destruct (set_all_same b (sy_store s)) as (Es & Hsh & Ec).
    apply whole_same; try done; [by apply set_all_ok|unfold shown; by rewrite Hsh|by rewrite Ec].
Qed.

Lemma whole_start t : whole_from (t + 1) (sync_start t).
Proof.
  split; cbn; [apply new_store_ok|intros; lia|by intros z ?%elem_of_nil|done|lia].
Qed.

(** C20. No hole: however pages and events of the following kinds reach a store,
    every line of the transcript between the oldest one shown and the newest page
    last merged is held, so that paging back from the oldest one can reach all
    that is missing.  The provisos ([sync_step]): pages are what the server owes
    ([page_contract]); a sequenced live event, and every row of a reconnect page,
    is newer than anything the store was ever sent or lies above a line that is
    shown; when a newest page is merged while an older one is asked for, the line
    that one was asked from is still shown, and a newest page that joins what is
    held does so at or below the previous newest page; the cap is enforced only
    while no older page is asked for.  (A live event below the oldest line shown
    moves that line down past lines that are not held.) *)
Theorem no_hole t0 s o z l :
  rtc sync_step (sync_start t0) s →
  oldest_seq (sy_store s) = Some o → D z l → o ≤ z ≤ sy_top s → z ∈ seqs (sy_store s).
Proof.
  intros Hr Ho HD Hz.
  assert (∃ f, whole_from f s) as [f Hw].
  { revert Hr. apply (rtc_ind_r (λ s, ∃ f, whole_from f s)); [eexists; apply whole_start|].
    intros x y _ Hxy [f Hw]. by eapply whole_step. }
  eapply (wf_held _ _ Hw); [done|]. pose proof (wf_floor _ _ Hw o (oldest_shown _ _ Ho)). lia.
Qed.
End Sync.

(** ** Witness *)

Definition two_lines (z : Z) (l : ConversationLine) : Prop :=
  (z = 10 ∨ z = 12) ∧ l = new_line KAssistant "a" 0.
Definition two_rows : list (Z * ConversationLine) :=
  [(10, new_line KAssistant "a" 0); (12, new_line KAssistant "a" 0)].

Lemma two_rows_contract : page_contract (snapshot two_lines 12) None two_rows false.
Proof.
  assert (∀ z l, (z, l) ∈ two_rows ↔ two_lines z l) as Hr.
  { intros z l. unfold two_rows, two_lines. rewrite !elem_of_cons, elem_of_nil. naive_solver. }
  split.
  - apply (bool_decide_unpack _). vm_compute. exact I.
  - intros z l Hin%Hr. split; [|done]. split; [done|]. destruct Hin as [[-> | ->] _]; lia.
  - intros z l z' l' _ [Hd _] _ _. by apply Hr.
  - intros _ z l [Hd _] _. by apply Hr.
Qed.

Lemma no_hole_witness :
  12 ∈ seqs (merge_page Latest None two_rows None false new_store).2.
Proof.
  apply (no_hole two_lines 0
           (mk_sync (merge_page Latest None two_rows None false new_store).2 None 12 12)
           10 12 (new_line KAssistant "a" 0)).
  - apply rtc_once.
    apply (sync_latest two_lines (sync_start 0) 12 two_rows None false 10).
    + apply two_rows_contract.
    + reflexivity.
    + intros H. destruct H. reflexivity.
    + left. reflexivity.
  - vm_compute. reflexivity.
  - split; [by right|reflexivity].
  - cbn. lia.
Defined.
