(* ===== verification/TranscriptWalk.v ===== *)
(** * Walking a transcript back to its start

    Scrolling to the top asks for one older page after another.  With pages
    that honour [Paging.page_contract] and no queued prompt in the transcript,
    the walk ends with every line held; with the server's own pages this is
    [walk_complete].  The end of the file records what happens when a condition
    of [TranscriptSync.no_hole] or of the walk fails. *)

From stdpp Require Import base decidable list strings gmap sorting.
From Stdlib Require Import Lia ZArith Bool String.
From S2P Require Import Prelude RustStr Json Transcript TranscriptFacts Paging TranscriptSync.

Open Scope string_scope.
Open Scope list_scope.
Open Scope Z_scope.

(** At most [n] older pages, each answered before the next is asked for. *)
Fixpoint scroll (fetch : PageRequest → option (list (Z * ConversationLine) * bool)) (n : nat)
    (st : ConversationStore) : ConversationStore :=
  match n with
  | O => st
  | S n =>
    match begin_older st with
    | (Some (r, c), st') =>
      match fetch r with
      | Some (rows, more) => scroll fetch n (merge_page Older (Some c) rows None more st').2
      | None => page_failed Older (Some c) st'
      end
    | (None, st') => st'
    end
  end.

Lemma settled_shape l new :
  shape <$> settled l new ≡ₚ (shape <$> (row_entry <$> new)) ++ (shape <$> l).
Proof.
  assert (∀ new l, shape <$> ins_all l new ≡ₚ (shape <$> new) ++ (shape <$> l)) as Hi.
  { clear. intros new. induction new as [|e new IH]; intros l; [done|].
    cbn [ins_all foldl]. fold (ins_all (ins e l) new). rewrite IH, ins_perm, !fmap_cons.
    symmetry. apply Permutation_middle. }
  destruct new as [|r new]; [done|]. unfold settled, pairs. rewrite pair_from_shape. apply Hi.
Qed.

Section Walk.
Variable D : Z → ConversationLine → Prop.
Variable X : gset Z.
Variable fetch : PageRequest → option (list (Z * ConversationLine) * bool).

(** The transcript is finite, its lines are settled, and each page asked for
    comes back as the contract says; one that announces more has a line. *)
Hypothesis finite : ∀ z l, D z l → z ∈ X.
Hypothesis calm : ∀ z l, D z l → status l ≠ Some Queued.
Hypothesis fetched : ∀ b, ∃ rows more,
  fetch (page_before b PAGE_LIMIT) = Some (rows, more) ∧
  page_contract D (Some b) rows more ∧ (more = true → rows ≠ []).

(** Nothing is asked for; what is known is shown, and is everything from [f] up;
    when no more is announced it is everything. *)
Record upto (f : Z) (st : ConversationStore) : Prop := {
  up_ok : store_ok st;
  up_quiet : quiet (entries st);
  up_loaded : loaded st = true;
  up_idle : older_claim st = None;
  up_held : ∀ z l, D z l → f ≤ z → z ∈ seqs st;
  up_shown : ∀ z, z ∈ seqs st → shown st z ∧ f ≤ z ∧ ∃ l, D z l;
  up_here : f ∈ seqs st;
  up_end : has_more_older st = false → ∀ z l, D z l → f ≤ z
}.

Lemma shown_known st z : store_ok st → shown st z → z ∈ seqs st.
Proof. intros [[_ _ Hk] _ _]. apply Hk. Qed.

Lemma upto_oldest f st : upto f st → oldest_seq st = Some f.
Proof.
  intros Hu. destruct (up_shown _ _ Hu f (up_here _ _ Hu)) as [Hs _].
  destruct (oldest_seq st) as [o|] eqn:Eo.
  - pose proof (oldest_least _ _ _ (up_ok _ _ Hu) Eo Hs).
    pose proof (oldest_shown _ _ Eo) as Ho. apply shown_known in Ho; [|apply Hu].
    apply (up_shown _ _ Hu) in Ho as (_ & ? & _). f_equal. lia.
  - exfalso. unfold oldest_seq, find_sequenced in Eo.
    pose proof (proj1 (find_map_None _ _) Eo) as Hn.
    apply list_elem_of_fmap in Hs as (e & Ez & He). specialize (Hn e He).
    injection Ez as _ Hb. cbn in Hn. by rewrite <-Hb in Hn.
Qed.

(** Rows put into a settled store, all below what is known. *)
Lemma calm_rows rows st :
  NoDup rows.*1 → (∀ z l, (z, l) ∈ rows → D z l) → quiet (entries st) →
  (∀ z, z ∈ rows.*1 → z ∉ seqs st) →
  let st' := (insert_rows rows st).2 in
  quiet (entries st') ∧ seqs st' = list_to_set rows.*1 ∪ seqs st ∧ same_paging st' st ∧
  ∀ z, shown st' z ↔ z ∈ rows.*1 ∨ shown st z.
Proof.
  intros Hn HD Hq Hnew.
  assert (Forall (λ r, status r.2 ≠ Some Queued) rows) as Hs.
  { apply Forall_forall. intros [z l] Hin. by eapply calm, HD. }
  pose proof (insert_rows_quiet rows st Hq Hn Hs) as Hi.
  assert (fresh (seqs st) rows = rows) as Ef.
  { unfold fresh. clear -Hnew. induction rows as [|[z l] rows IH]; [done|].
    rewrite filter_cons, decide_True by (apply Hnew; by left).
    rewrite IH; [done|]. intros y Hy. apply Hnew. by right. }
  rewrite Ef in Hi. destruct (insert_rows rows st) as [n st']. cbn [snd].
  destruct Hi as (_ & Ee & Es & Hp).
  assert (∀ z, shown st' z ↔ z ∈ rows.*1 ∨ shown st z) as Hsh.
  { intros z. unfold shown. rewrite Ee, settled_shape, elem_of_app, <-list_fmap_compose.
    rewrite !list_elem_of_fmap. split; (intros [H|H]; [left|by right]).
    - destruct H as (r & [= ->] & Hr). by exists r.
    - destruct H as (r & -> & Hr). by exists r. }
  split; [|done]. rewrite Ee. unfold settled. destruct rows as [|r0 rows0] eqn:Er; [done|].
  rewrite <-Er in *. apply quiet_pairs. clear -Hq Hs. revert Hq. generalize (entries st).
  induction rows as [|r rows IH]; intros l Hq; [done|]. apply Forall_cons in Hs as [Hr Hs].
  cbn. apply IH; [done|]. apply quiet_ins; [|done]. by apply bool_decide_eq_false.
Qed.

(** What is left below the oldest line. *)
Definition left_below (f : Z) : nat := size (filter (λ z, z < f) X).

Lemma left_below_lt f f' z l : D z l → f' ≤ z < f → (left_below f' < left_below f)%nat.
Proof.
  intros HD Hz. unfold left_below. apply subset_size. split; [set_solver by lia|].
  intros Hsub. specialize (Hsub z). rewrite !elem_of_filter in Hsub.
  pose proof (finite z l HD). destruct Hsub; [|lia]. split; [lia|done].
Qed.

(** One older page: the walk ends, or its floor drops to a line below. *)
Lemma upto_step f st :
  upto f st → has_more_older st = true →
  ∃ rows more c st', begin_older st = (Some (page_before f PAGE_LIMIT, c), st') ∧
    fetch (page_before f PAGE_LIMIT) = Some (rows, more) ∧
    let st2 := (merge_page Older (Some c) rows None more st').2 in
    (has_more_older st2 = false ∧ upto f st2) ∨
    ∃ f', upto f' st2 ∧ (left_below f' < left_below f)%nat.
Proof.
  intros Hu Hmore. pose proof (upto_oldest _ _ Hu) as Eo.
  destruct (fetched f) as (rows & more & Ef & [Hn Hsound Hsuf Hend] & Hprog).
  set (c := u64_succ (next_claim st)).
  set (st1 := set_paging true true (Some c) (set_next_claim c st)).
  assert (begin_older st = (Some (page_before f PAGE_LIMIT, c), st1)) as Eb.
  { unfold begin_older. rewrite Eo, (up_loaded _ _ Hu), Hmore.
    assert (loading_older st = false) as ->.
    { rewrite (ok_loading _ (up_ok _ _ Hu)), (up_idle _ _ Hu). done. }
    done. }
  exists rows, more, c, st1. split; [done|]. split; [done|]. cbn zeta.
  rewrite merge_page_fresh by (unfold page_is_stale; cbn; by rewrite N.eqb_refl).
  cbn [make_room].
  assert (∀ z, z ∈ rows.*1 → z < f ∧ ∃ l, D z l) as Hrows.
  { intros z (l & Hl)%rows_line. apply Hsound in Hl as [HD Hb]. split; [by apply Hb|by exists l]. }
  destruct (calm_rows rows st1 Hn ltac:(intros z l Hl; by apply Hsound) (up_quiet _ _ Hu))
    as (Hq & Es & Hp & Hsh).
  { intros z Hz Hin. destruct (Hrows z Hz) as [? _].
    pose proof (up_shown _ _ Hu z Hin) as (_ & ? & _). lia. }
  assert (store_ok st1) as Hok1 by (rewrite <-(f_equal snd Eb : _ = st1); apply begin_older_ok, Hu).
  pose proof (insert_rows_ok rows st1 Hok1) as Hok2.
  set (st2 := (insert_rows rows st1).2) in *.
  assert (loaded st2 = true) as Hl by (destruct Hp as (_ & -> & _); apply Hu).
  assert (∀ g, g ∈ seqs st2 → (∀ z, z ∈ seqs st2 → g ≤ z) →
            (∀ z l, D z l → g ≤ z → z ∈ seqs st2) →
            (more = false → ∀ z l, D z l → g ≤ z) →
            upto g (finish_page Older None more st2)) as Hup.
  { intros g Hg Hlow Hheld Hfin. split; cbn [finish_page set_paging entries seqs loaded older_claim
      has_more_older]; try done; [by apply (finish_ok Older None more)|].
    intros z Hz. split; [|split; [by apply Hlow|]].
    - unfold shown. cbn. apply Hsh. rewrite Es in Hz. apply elem_of_union in Hz as [Hz|Hz].
      + left. by apply elem_of_list_to_set in Hz.
      + right. by apply (up_shown _ _ Hu).
    - rewrite Es in Hz. apply elem_of_union in Hz as [Hz|Hz].
      + apply elem_of_list_to_set in Hz. by apply Hrows.
      + by apply (up_shown _ _ Hu). }
  assert (∀ z, z ∈ seqs st2 ↔ z ∈ rows.*1 ∨ z ∈ seqs st) as Hin.
  { intros z. rewrite Es, elem_of_union, elem_of_list_to_set. done. }
  destruct (min_seq rows) as [m|] eqn:Em.
  - right. pose proof (min_seq_in _ _ Em) as Hm. destruct (Hrows m Hm) as [Hmf [lm HDm]].
    exists m. split; [|eapply left_below_lt; [done|lia]].
    destruct (rows_line rows m Hm) as [l0 Hm0]. apply Hup.
    + apply Hin. by left.
    + intros z [Hz|Hz]%Hin; [by eapply min_seq_least|].
      pose proof (up_shown _ _ Hu z Hz) as (_ & ? & _). lia.
    + intros z l HD Hz. apply Hin. destruct (decide (f ≤ z)) as [Hfz|Hfz].
      * right. by eapply (up_held _ _ Hu).
      * left. apply list_elem_of_fmap. exists (z, l). split; [done|].
        apply (Hsuf m l0); [done|done| |done]. intros b [= <-]. lia.
    + intros Hmf' z l HD. destruct (decide (f ≤ z)) as [|Hfz]; [lia|].
      eapply min_seq_least; [done|]. apply list_elem_of_fmap. exists (z, l). split; [done|].
      apply Hend; [done|done|]. intros b [= <-]. lia.
  - left. assert (rows = []) as -> by by destruct rows as [|[]].
    assert (more = false) as -> by (destruct more; [by destruct Hprog|done]).
    split; [done|]. apply Hup.
    + apply Hin. right. exact (up_here _ _ Hu).
    + intros z [Hz|Hz]%Hin; [by apply elem_of_nil in Hz|]. by destruct (up_shown _ _ Hu z Hz) as (_ & ? & _).
    + intros z l HD Hz. apply Hin. right. by eapply (up_held _ _ Hu).
    + intros _ z l HD. destruct (decide (f ≤ z)) as [|Hfz]; [done|].
      exfalso. apply (elem_of_nil (z, l)). apply Hend; [done|done|]. intros b [= <-]. lia.
Qed.

Lemma scroll_stops n st : has_more_older st = false → scroll fetch n st = st.
Proof.
  intros Hm. destruct n as [|n]; [done|]. cbn [scroll]. unfold begin_older. rewrite Hm.
  by rewrite orb_true_r.
Qed.

(** As many pages as lines are left are enough, and one more. *)
Lemma scroll_upto n : ∀ f st,
  upto f st → (left_below f < n)%nat →
  ∃ f', upto f' (scroll fetch n st) ∧ has_more_older (scroll fetch n st) = false.
Proof.
  induction n as [|n IH]; intros f st Hu Hn; [lia|].
  destruct (has_more_older st) eqn:Em; [|exists f; by rewrite scroll_stops].
  destruct (upto_step f st Hu Em) as (rows & more & c & st' & Eb & Ef & Hs).
  cbn [scroll]. rewrite Eb, Ef. destruct Hs as [[Hend Hu']|(f' & Hu' & Hlt)].
  - exists f. by rewrite scroll_stops.
  - apply (IH f'); [done|lia].
Qed.
End Walk.

(** ** The first page *)

Lemma make_room_new k rows :
  let st := make_room k rows new_store in
  entries st = [] ∧ seqs st = ∅ ∧ older_claim st = None ∧ store_ok st.
Proof.
  pose proof (make_room_keeps_ok k rows _ new_store_ok) as Hok. cbn zeta.
  split; [|split; [|split; [|done]]]; unfold make_room; destruct k, (min_seq rows); try done;
    destruct (joins_onto_held_history _ _); done.
Qed.

Lemma first_page (D : Z → ConversationLine → Prop) rows tag more m :
  (∀ z l, D z l → status l ≠ Some Queued) →
  page_contract D None rows more → min_seq rows = Some m →
  upto D m (merge_page Latest None rows tag more new_store).2.
Proof.
  intros Hcalm [Hn Hsound Hsuf Hend] Em. rewrite merge_page_fresh by done.
  destruct (make_room_new Latest rows) as (E0 & S0 & C0 & Hok0).
  set (st0 := make_room Latest rows new_store) in *.
  assert (quiet (entries st0)) as Hq0 by (rewrite E0; constructor).
  destruct (calm_rows D Hcalm rows st0 Hn ltac:(intros z l Hl; by apply Hsound) Hq0)
    as (Hq & Es & Hp & Hsh); [intros z _; rewrite S0; apply not_elem_of_empty|].
  pose proof (insert_rows_ok rows st0 Hok0) as Hok. set (st := (insert_rows rows st0).2) in *.
  rewrite S0, union_empty_r_L in Es.
  destruct (rows_line rows m (min_seq_in _ _ Em)) as [l0 Hm].
  split; cbn [finish_page set_loaded entries seqs loaded older_claim has_more_older];
    rewrite ?Es; try done.
  - by apply (finish_ok Latest tag more).
  - destruct Hp as (_ & _ & _ & _ & -> & _). done.
  - intros z l HD Hz. apply elem_of_list_to_set, list_elem_of_fmap. exists (z, l).
    split; [done|]. by apply (Hsuf m l0).
  - intros z Hz. apply elem_of_list_to_set in Hz. split; [apply Hsh; by left|].
    split; [by eapply min_seq_least|]. apply rows_line in Hz as [l Hl]. exists l. by apply Hsound.
  - apply elem_of_list_to_set. by apply min_seq_in.
  - intros [_ ->]%orb_false_iff z l HD. eapply min_seq_least; [done|].
    apply list_elem_of_fmap. exists (z, l). split; [done|]. by apply Hend.
Qed.

Section Server.
Context {V W : Type}.
Variable for_client : V → option W.
Variable decode : W → option ConversationLine.
Variable tbl : gmap Z V.

(** Every row a client is given has a line, and no line waits in a queue. *)
Hypothesis all_decode : ∀ v w, for_client v = Some w → is_Some (decode w).
Hypothesis none_queued : ∀ z l, displayable for_client decode tbl z l → status l ≠ Some Queued.

Lemma load_page_progress b n rows more :
  1 ≤ n → load_page for_client decode tbl (mk_page b None (Some n)) = Some (rows, more) →
  more = true → rows ≠ [].
Proof.
  intros Hn. unfold load_page, conversation_rows. rewrite renderable_rows_exact.
  cbn [q_limit q_order q_before q_after page_query limit before after fmap option_fmap option_map].
  rewrite bool_decide_true by done. set (L := render_rows _ _).
  intros [= <- <-]. cbn [page_has_more limit]. intros Hmore%Z.leb_le Hnil.
  rewrite length_reverse in Hmore.
  destruct (take _ L) as [|[z w] L'] eqn:EL; [cbn in Hmore; lia|].
  assert ((z, w) ∈ L) as Hin.
  { eapply elem_of_sublist; [|apply (sublist_take L (Z.to_nat (clamp_limit n)))]. rewrite EL. by left. }
  apply elem_of_render in Hin as (v & _ & Hv). destruct (all_decode v w Hv) as [l Hl].
  apply (elem_of_nil (z, l)). rewrite <-Hnil. apply elem_of_decode. exists w. split; [|done].
  rewrite elem_of_reverse. by left.
Qed.

(** C21. Opening a conversation and scrolling to its top fetches all of it, for a
    transcript in which every row a client is given becomes a line and no line is
    a queue placeholder: from an empty store, the newest page and one older page
    per line at the most end with no more to load and exactly the lines of the
    transcript shown.  (A page whose rows all give no line is asked for again,
    and a placeholder can retire a line: the examples below.) *)
Theorem walk_complete tag :
  ∃ rows more, load_page for_client decode tbl latest_request = Some (rows, more) ∧
  let st := scroll (load_page for_client decode tbl) (S (size tbl))
              (merge_page Latest None rows tag more new_store).2 in
  has_more_older st = false ∧
  ∀ z, shown st z ↔ ∃ l, displayable for_client decode tbl z l.
Proof.
  destruct (load_page_contract for_client decode tbl None PAGE_LIMIT ltac:(done))
    as (rows & more & El & Hp).
  exists rows, more. split; [done|]. cbn zeta.
  pose proof (load_page_progress None PAGE_LIMIT rows more ltac:(done) El) as Hprog.
  destruct (min_seq rows) as [m|] eqn:Em.
  - pose proof (first_page _ rows tag more m none_queued Hp Em) as Hu.
    edestruct (scroll_upto (displayable for_client decode tbl) (dom tbl)
      (load_page for_client decode tbl)) as (f & Hu' & Hend); [| | |exact Hu| |].
    + intros z l (v & w & Hv & _). by apply elem_of_dom_2 in Hv.
    + done.
    + intros b. destruct (load_page_contract for_client decode tbl (Some b) PAGE_LIMIT ltac:(done))
        as (rows' & more' & El' & Hp'). exists rows', more'. split; [done|]. split; [done|].
      by eapply (load_page_progress (Some b) PAGE_LIMIT).
    + unfold left_below. apply (Nat.lt_succ_r _ (size tbl)). rewrite <-size_dom.
      apply subseteq_size. set_solver.
    + split; [exact Hend|]. intros z. split.
      * intros Hz. apply shown_known in Hz; [|apply (up_ok _ _ _ Hu')].
        by apply (up_shown _ _ _ Hu') in Hz as (_ & _ & ?).
      * intros [l HD]. apply (up_shown _ _ _ Hu'). eapply (up_held _ _ _ Hu'); [done|].
        by eapply (up_end _ _ _ Hu').
  - assert (rows = []) as -> by by destruct rows as [|[]].
    assert (more = false) as -> by (destruct more; [by destruct Hprog|done]).
    rewrite scroll_stops by done. split; [done|]. intros z. split.
    + cbn. by intros ?%elem_of_nil.
    + intros [l HD]. destruct Hp as [_ _ _ Hend]. by apply Hend, elem_of_nil in HD.
Qed.
End Server.

(** ** When a condition fails *)

Lemma quiet_trim st : quiet (entries st) → quiet (entries (trim_to_cap st).2).
Proof.
  intros Hq. unfold trim_to_cap. destruct (_ <=? _)%nat; [done|]. cbn.
  unfold quiet in *. rewrite Forall_forall in *. intros e He. apply Hq.
  eapply elem_of_sublist; [exact He|apply sublist_drop].
Qed.

Lemma trim_first st e :
  store_ok st → (MAX_ENTRIES < List.length (entries st))%nat →
  head (entries st) = Some e → sequenced e = true →
  (e_seq e ∉ seqs (trim_to_cap st).2) ∧ seqs (trim_to_cap st).2 ⊆ seqs st ∧
  older_claim (trim_to_cap st).2 = older_claim st.
Proof.
  intros Hok Hlen Hh He. unfold trim_to_cap.
  rewrite (proj2 (Nat.leb_gt (List.length (entries st)) MAX_ENTRIES)) by lia. cbn [snd].
  cbn [set_paging bump_epoch set_seqs seqs older_claim set_entries]. split; [|split; [set_solver|done]].
  rewrite elem_of_difference, elem_of_list_to_set. intros [_ Hn]. apply Hn.
  apply list_elem_of_fmap. exists e. split; [done|]. apply list_elem_of_filter. split; [done|].
  destruct (entries st) as [|x l]; [done|]. injection Hh as ->.
  destruct (_ - MAX_ENTRIES)%nat eqn:E; [cbn in *; lia|]. cbn. by left.
Qed.

(** The cap enforced while an older page is on its way opens a hole: the
    trim leaves the claim standing, so the reply, which ends below the line that
    was the oldest when it was asked for, is merged above nothing.  That line is
    gone, an older one is shown, and paging resumes from there. *)
Theorem trim_under_claim_leaves_hole st c e rows tag more :
  store_ok st → older_claim st = Some c → (MAX_ENTRIES < List.length (entries st))%nat →
  head (entries st) = Some e → sequenced e = true →
  quiet (entries st) → NoDup rows.*1 → rows ≠ [] →
  Forall (λ r, (status r.2 ≠ Some Queued) ∧ r.1 < e_seq e ∧ r.1 ∉ seqs st) rows →
  let st' := (merge_page Older (Some c) rows tag more (trim_to_cap st).2).2 in
  (e_seq e ∉ seqs st') ∧ ∃ o, oldest_seq st' = Some o ∧ o < e_seq e.
Proof.
  intros Hok Hc Hlen Hh He Hq Hn Hne Hrows. cbn zeta.
  destruct (trim_first st e Hok Hlen Hh He) as (Hgone & Hsub & Hclaim).
  pose proof (trim_ok st Hok) as Hok1. pose proof (quiet_trim st Hq) as Hq1.
  set (st1 := (trim_to_cap st).2) in *.
  rewrite merge_page_fresh by
    (unfold page_is_stale, older_page_is_stale; rewrite Hclaim, Hc; cbn; by rewrite N.eqb_refl).
  cbn [make_room]. rewrite Forall_forall in Hrows.
  destruct (calm_rows (λ _ l, status l ≠ Some Queued) ltac:(done) rows st1 Hn)
    as (_ & Es & _ & Hsh).
  { intros z l Hin. by apply (Hrows (z, l)). }
  { done. }
  { intros z (l & Hin)%rows_line Hz. destruct (Hrows (z, l) Hin) as (_ & _ & Hnot).
    by apply Hnot, Hsub. }
  pose proof (insert_rows_ok rows st1 Hok1) as Hok2.
  set (st2 := (insert_rows rows st1).2) in *. cbn [finish_page set_paging seqs]. split.
  - rewrite Es, elem_of_union, elem_of_list_to_set. intros [(l & Hin)%rows_line|?]; [|done].
    destruct (Hrows _ Hin) as (_ & Hlt & _). cbn in Hlt. lia.
  - destruct rows as [|[z l] rows]; [done|].
    assert (shown st2 z) as Hz by (apply Hsh; left; by left).
    destruct (Hrows (z, l) ltac:(by left)) as (_ & Hlt & _). cbn in Hlt.
    change (oldest_seq (set_paging more false None st2)) with (oldest_seq st2).
    destruct (oldest_seq st2) as [o|] eqn:Eo.
    + exists o. split; [done|]. pose proof (oldest_least _ _ _ Hok2 Eo Hz). lia.
    + exfalso. unfold oldest_seq, find_sequenced in Eo.
      pose proof (proj1 (find_map_None _ _) Eo) as Hnone.
      apply list_elem_of_fmap in Hz as (x & Ez & Hx). specialize (Hnone x Hx). cbn in Hnone.
      injection Ez as _ Hb. by rewrite <-Hb in Hnone.
Qed.

(** An older page without a line is asked for again: the cursor only moves with
    the lines shown. *)
Lemma empty_page_repeats st r c st' tag :
  store_ok st → begin_older st = (Some (r, c), st') →
  ∃ c' st2, begin_older (merge_page Older (Some c) [] tag true st').2 = (Some (r, c'), st2).
Proof.
  intros Hok. unfold begin_older at 1. destruct (negb _ || _ || _) eqn:Eg; [done|].
  destruct (oldest_seq st) as [b|] eqn:Eo; [|done]. intros [= <- <- <-].
  rewrite merge_page_fresh by (unfold page_is_stale; cbn; by rewrite N.eqb_refl).
  apply orb_false_iff in Eg as [[Hl _]%orb_false_iff _]. apply negb_false_iff in Hl.
  unfold begin_older. cbn [make_room insert_rows snd finish_page set_paging set_next_claim loaded
    loading_older has_more_older]. rewrite Hl. cbn [negb orb].
  change (oldest_seq (set_paging _ _ _ _)) with (oldest_seq st). rewrite Eo. eauto.
Qed.

Definition say (t : string) : ConversationLine := new_line KAssistant t 0.

Definition held_10_12 : ConversationStore :=
  (merge_page Latest None [(10, say "a"); (11, say "b"); (12, say "c")] None true new_store).2.

(** A newest page joins at one live event above a gap: 13 to 19 are missing
    between the oldest line and the page, and nothing will fetch them. *)
Example joins_over_a_gap :
  let st := (push_live (Some 20) (say "k") held_10_12).2 in
  let st' := (merge_page Latest None [(21, say "l"); (22, say "m")] None true st).2 in
  oldest_seq st' = Some 10 ∧ newest_seq st' = Some 22 ∧ bool_decide (13 ∈ seqs st') = false.
Proof. vm_compute. done. Qed.

(** A newest page that overlaps what is held drops the rest of it when the
    session's [seq]s are not consecutive. *)
Example overlap_is_dropped :
  let st := (merge_page Latest None [(10, say "a"); (14, say "b"); (19, say "c")] None true
               new_store).2 in
  let st' := (merge_page Latest None [(14, say "b"); (19, say "c"); (23, say "d")] None true st).2 in
  e_seq <$> entries st' = [14; 19; 23].
Proof. vm_compute. done. Qed.

Definition waiting : ConversationLine := with_status Queued (new_line KUser "ship it" 0).
Definition delivered : ConversationLine := new_line KUser "ship it" 0.

(** A queued prompt that arrives after the turn that delivered it, as it does
    when the turn is on the newest page and the queue record on an older one,
    stays queued. *)
Example late_placeholder_stays :
  let read rows := e_seq <$> entries (insert_rows rows new_store).2 in
  read [(1, waiting); (2, delivered)] = [2] ∧ read [(2, delivered); (1, waiting)] = [1; 2].
Proof. vm_compute. done. Qed.

(** ** Witnesses *)

Definition demo_table : gmap Z string := {[1 := "a"; 2 := "b"; 5 := "c"]}.
Definition to_line (t : string) : option ConversationLine := Some (say t).

Lemma walk_complete_witness :
  ∃ rows more, load_page Some to_line demo_table latest_request = Some (rows, more) ∧
  let st := scroll (load_page Some to_line demo_table) (S (size demo_table))
              (merge_page Latest None rows (Some "etag") more new_store).2 in
  has_more_older st = false ∧
  ∀ z, shown st z ↔ ∃ l, displayable Some to_line demo_table z l.
Proof.
  apply walk_complete.
  - intros v w _. by eexists.
  - intros z l (v & w & _ & _ & [= <-]). discriminate.
Defined.

(** A transcript one line over the cap, with an older page asked for. *)
Definition long_rows : list (Z * ConversationLine) := (λ z, (z, say "x")) <$> seqZ 100 5001.
Definition long_store : ConversationStore :=
  mk_store (row_entry <$> long_rows) (list_to_set (seqZ 100 5001)) None 0 true true true
    (Some 1%N) 1 0.

Lemma seqZ_sorted n : ∀ m, StronglySorted seq_le ((λ z, (z, true)) <$> seqZ m (Z.of_nat n)).
Proof.
  induction n as [|n IH]; intros m; [constructor|].
  rewrite seqZ_cons by lia. rewrite Nat2Z.inj_succ, Z.pred_succ, fmap_cons.
  constructor; [apply IH|]. apply Forall_fmap, Forall_forall. intros z Hz.
  apply elem_of_seqZ in Hz. unfold seq_le. cbn. lia.
Qed.

Lemma long_shape : shape <$> entries long_store = (λ z, (z, true)) <$> seqZ 100 5001.
Proof. unfold long_store, long_rows. cbn [entries]. by rewrite <-!list_fmap_compose. Qed.

Lemma long_store_ok : store_ok long_store.
Proof.
  split; [|done|by intros c [= <-]]. rewrite long_shape. split.
  - pose proof (seqZ_sorted (Z.to_nat 5001) 100) as Hs. by rewrite Z2Nat.id in Hs.
  - unfold anchors. assert (∀ l : list Z, (filter (λ p, p.2 = true) ((λ z, (z, true)) <$> l)).*1 = l) as ->.
    { intros l. induction l as [|z l IH]; [done|]. rewrite fmap_cons, filter_cons, decide_True by done.
      by rewrite fmap_cons, IH. }
    apply NoDup_seqZ.
  - intros z (y & [= ->] & Hz)%list_elem_of_fmap. by apply elem_of_list_to_set.
Qed.

Lemma trim_under_claim_leaves_hole_witness :
  let st' := (merge_page Older (Some 1%N) [(99, say "y")] None true (trim_to_cap long_store).2).2 in
  (100 ∉ seqs st') ∧ ∃ o, oldest_seq st' = Some o ∧ o < 100.
Proof.
  apply (trim_under_claim_leaves_hole long_store 1 (mk_entry 100 true (say "x") false)
           [(99, say "y")] None true).
  - apply long_store_ok.
  - reflexivity.
  - unfold long_store, long_rows, MAX_ENTRIES. cbn [entries].
    rewrite !length_fmap, length_seqZ. lia.
  - unfold long_store, long_rows. cbn [entries]. rewrite seqZ_cons by lia. reflexivity.
  - reflexivity.
  - unfold long_store, long_rows. cbn [entries]. apply Forall_fmap, Forall_fmap, Forall_forall.
    intros z _. reflexivity.
  - apply NoDup_singleton.
  - discriminate.
  - constructor; [|constructor]. split; [discriminate|]. split; [cbn; lia|].
    cbn [seqs long_store fst]. rewrite elem_of_list_to_set, elem_of_seqZ. lia.
Defined.
