(* ===== verification/TranscriptView.v ===== *)
(** * The conversation view

    [conversation.rs] reduces what happens to the open conversation: pages that
    arrive, live events, the line cursor, expansion; [pins.rs] adds the jump to
    a line that may not be loaded yet.  [App] holds the fields of [state.rs]'s
    [App] these functions read and write.  The rows of the session list, a
    function of the sessions and of the list's own settings, are an argument
    ([flattened]); the effects are values. *)

From stdpp Require Import base decidable list strings gmap.
From Stdlib Require Import Lia ZArith Bool Ascii String.
From S2P Require Import Prelude RustStr Json Transcript TranscriptFacts LineFilter.

Open Scope string_scope.
Open Scope list_scope.
Open Scope rust_scope.

(** ** Views ([router.rs]) *)

Inductive View :=
| VMachines | VLabelPicker | VLabelFilter | VFileViewer | VSessionList | VConversation | VHelp
| VHistoryPicker | VPins | VMacros | VDiagnose | VTerminal | VModelPicker | VSidebar | VSpawn
| VOverview | VHarnessMode | VAccountSwitch | VContextItems.

#[export] Instance View_eq_dec : EqDecision View.
Proof. solve_decision. Defined.

Definition router_new (root : View) : list View := [root].
Definition router_current (r : list View) : View := default VSessionList (last r).
Definition router_contains (v : View) (r : list View) : bool := bool_decide (v ∈ r).

Definition router_below (r : list View) : option View :=
  if (2 <=? List.length r)%nat then r !! (List.length r - 2)%nat else None.

Definition router_push (v : View) (r : list View) : list View :=
  if bool_decide (router_current r = v) then r else r ++ [v].

Definition router_pop (r : list View) : bool * list View :=
  if (List.length r <=? 1)%nat then (false, r) else (true, take (List.length r - 1) r).

Definition router_reset (root : View) (r : list View) : list View := [root].

(** ** Toasts *)

Inductive Level := Info | Warn | LError.
Record Toast := mk_toast { t_level : Level; t_text : string; expires_ms : Z }.

Definition TOAST_TTL_MS : Z := 6000.
Definition MAX_TOASTS : nat := 3.

(** [saturating_add] on [i64]. *)
Definition i64_sat (z : Z) : Z := Z.max i64_min (Z.min i64_max z).

Definition toasts_push (l : Level) (t : string) (now : Z) (ts : list Toast) : list Toast :=
  let ts := ts ++ [mk_toast l t (i64_sat (now + TOAST_TTL_MS))] in
  drop (List.length ts - MAX_TOASTS) ts.

Definition toasts_prune (now : Z) (ts : list Toast) : list Toast :=
  filter (λ t, (now < expires_ms t)%Z) ts.

Definition toasts_latest (ts : list Toast) : option Toast := last ts.

(** ** The application state *)

Record SessionItem := mk_session { s_id : string; unread_count : Z }.

Record App := mk_app {
  conversations : gmap string ConversationStore;
  conversation_clock : N;
  subscribed : option string;
  router : list View;
  sessions : list SessionItem;
  selected_index : nat;
  selecting : option string;
  tracked : list string;
  seen_at : gmap string Z;
  clock_ms : Z;
  line_filter : Filter;
  guard_step_frames : gmap string N;
  toasts : list Toast;
  line_cursor : option nat;
  follow_tail : bool;
  scroll_offset : N;
  pending_prepend : bool;
  expand_all : bool;
  pending_seq_anchor : option (string * Z);
  pending_jump : option (Z * N)
}.

(** The assignments to the fields of [app]. *)
Definition put_store (id : string) (st : ConversationStore) (n : N) (a : App) : App :=
  mk_app (<[id := st]> (conversations a)) n (subscribed a) (router a) (sessions a) (selected_index
    a) (selecting a) (tracked a) (seen_at a) (clock_ms a) (line_filter a) (guard_step_frames
    a) (toasts a) (line_cursor a) (follow_tail a) (scroll_offset a) (pending_prepend a)
    (expand_all a) (pending_seq_anchor a) (pending_jump a).
Definition set_conversations (m : gmap string ConversationStore) (a : App) : App :=
  mk_app m (conversation_clock a) (subscribed a) (router a) (sessions a) (selected_index a)
    (selecting a) (tracked a) (seen_at a) (clock_ms a) (line_filter a) (guard_step_frames a)
    (toasts a) (line_cursor a) (follow_tail a) (scroll_offset a) (pending_prepend a)
    (expand_all a) (pending_seq_anchor a) (pending_jump a).
Definition set_cursor (c : option nat) (follow : bool) (a : App) : App :=
  mk_app (conversations a) (conversation_clock a) (subscribed a) (router a) (sessions a)
    (selected_index a) (selecting a) (tracked a) (seen_at a) (clock_ms a) (line_filter a)
    (guard_step_frames a) (toasts a) c follow (scroll_offset a) (pending_prepend a)
    (expand_all a) (pending_seq_anchor a) (pending_jump a).
Definition set_prepend (c : option nat) (a : App) : App :=
  mk_app (conversations a) (conversation_clock a) (subscribed a) (router a) (sessions a)
    (selected_index a) (selecting a) (tracked a) (seen_at a) (clock_ms a) (line_filter a)
    (guard_step_frames a) (toasts a) c (follow_tail a) (scroll_offset a) true (expand_all a)
    (pending_seq_anchor a) (pending_jump a).
Definition set_anchor (x : option (string * Z)) (a : App) : App :=
  mk_app (conversations a) (conversation_clock a) (subscribed a) (router a) (sessions a)
    (selected_index a) (selecting a) (tracked a) (seen_at a) (clock_ms a) (line_filter a)
    (guard_step_frames a) (toasts a) (line_cursor a) (follow_tail a) (scroll_offset a)
    (pending_prepend a) (expand_all a) x (pending_jump a).
Definition set_jump (x : option (Z * N)) (a : App) : App :=
  mk_app (conversations a) (conversation_clock a) (subscribed a) (router a) (sessions a)
    (selected_index a) (selecting a) (tracked a) (seen_at a) (clock_ms a) (line_filter a)
    (guard_step_frames a) (toasts a) (line_cursor a) (follow_tail a) (scroll_offset a)
    (pending_prepend a) (expand_all a) (pending_seq_anchor a) x.
Definition set_expand_all (b : bool) (a : App) : App :=
  mk_app (conversations a) (conversation_clock a) (subscribed a) (router a) (sessions a)
    (selected_index a) (selecting a) (tracked a) (seen_at a) (clock_ms a) (line_filter a)
    (guard_step_frames a) (toasts a) (line_cursor a) (follow_tail a) (scroll_offset a)
    (pending_prepend a) b (pending_seq_anchor a) (pending_jump a).
Definition set_subscribed (s : option string) (a : App) : App :=
  mk_app (conversations a) (conversation_clock a) s (router a) (sessions a) (selected_index a)
    (selecting a) (tracked a) (seen_at a) (clock_ms a) (line_filter a) (guard_step_frames a)
    (toasts a) (line_cursor a) (follow_tail a) (scroll_offset a) (pending_prepend a)
    (expand_all a) (pending_seq_anchor a) (pending_jump a).
Definition set_toasts (t : list Toast) (a : App) : App :=
  mk_app (conversations a) (conversation_clock a) (subscribed a) (router a) (sessions a)
    (selected_index a) (selecting a) (tracked a) (seen_at a) (clock_ms a) (line_filter a)
    (guard_step_frames a) t (line_cursor a) (follow_tail a) (scroll_offset a) (pending_prepend
    a) (expand_all a) (pending_seq_anchor a) (pending_jump a).
Definition set_selection (i : nat) (id : string) (a : App) : App :=
  mk_app (conversations a) (conversation_clock a) (subscribed a) (router a) (sessions a) i (Some
    id) (tracked a) (seen_at a) (clock_ms a) (line_filter a) (guard_step_frames a) (toasts a)
    (line_cursor a) (follow_tail a) (scroll_offset a) (pending_prepend a) (expand_all a)
    (pending_seq_anchor a) (pending_jump a).
Definition set_opened (r : list View) (id : string) (a : App) : App :=
  mk_app (conversations a) (conversation_clock a) (Some id) r (sessions a) (selected_index a)
    (selecting a) (tracked a) (seen_at a) (clock_ms a) (line_filter a) (guard_step_frames a)
    (toasts a) None true 0%N (pending_prepend a) (expand_all a) (pending_seq_anchor a)
    (pending_jump a).
Definition set_seen (s : list SessionItem) (m : gmap string Z) (a : App) : App :=
  mk_app (conversations a) (conversation_clock a) (subscribed a) (router a) s (selected_index a)
    (selecting a) (tracked a) m (clock_ms a) (line_filter a) (guard_step_frames a) (toasts a)
    (line_cursor a) (follow_tail a) (scroll_offset a) (pending_prepend a) (expand_all a)
    (pending_seq_anchor a) (pending_jump a).

Inductive Effect :=
| LoadConversationPage (session_id : string) (k : PageKind) (claim : option N) (page : PageRequest)
    (tag : option string)
| Subscribe (session_id : string)
| Unsubscribe (session_id : string)
| LoadPins (session_id : string)
| FetchGuardStep (session_id : string) (frames : N)
| MarkSeen (session_id : string).

Definition toast (l : Level) (t : string) (a : App) : App :=
  set_toasts (toasts_push l t (clock_ms a) (toasts a)) a.

(** [conversation_mut]: what a caller does to the store of a session. *)
Definition with_store {A} (id : string) (f : ConversationStore → A * ConversationStore) (a : App)
  : A * App :=
  let clock := u64_succ (conversation_clock a) in
  let st := set_touched clock (default new_store (conversations a !! id)) in
  let '(x, st) := f st in
  (x, put_store id st clock a).

Definition read_store {A} (id : string) (f : ConversationStore → A) (a : App) : A * App :=
  with_store id (λ st, (f st, st)) a.

Section View.
Variable flattened : App → list string.

(** ** Selection and eviction ([state.rs]) *)

Definition selected_session_id (a : App) : option string :=
  match subscribed a with
  | Some id =>
    if router_contains VConversation (router a)
    then s_id <$> List.find (λ s, s_id s ==s id) (sessions a)
    else flattened a !! selected_index a
  | None => flattened a !! selected_index a
  end.

Definition select_session_id (id : string) (a : App) : bool * App :=
  match position (λ s, s ==s id) (flattened a) with
  | Some i => (true, set_selection i id a)
  | None => (false, a)
  end.

Definition conversations_in_use (a : App) : gset string :=
  list_to_set (option_list (subscribed a) ++ option_list (selected_session_id a) ++ tracked a).

Definition evict_cold_stores (a : App) : App :=
  if (size (conversations a) <=? MAX_STORES)%nat then a
  else set_conversations
         (evict_cold (conversations a) (conversations_in_use a) MAX_STORES).2 a.

Definition focused_line (a : App) : option ConversationLine :=
  c ← line_cursor a; id ← selected_session_id a; st ← conversations a !! id;
  e_line <$> entries st !! c.

(** ** The line cursor *)

(** [iter().enumerate().filter(..).map(|(i, _)| i)]. *)
Fixpoint indices {A} (p : A → bool) (i : nat) (l : list A) : list nat :=
  match l with [] => [] | x :: l => if p x then i :: indices p (S i) l else indices p (S i) l end.

Definition selectable (a : App) : list nat * App :=
  match selected_session_id a with
  | None => ([], a)
  | Some id =>
    read_store id (λ st, indices (λ e, visible_line (line_filter a) (e_line e)) 0 (entries st)) a
  end.

Definition toggle_line_cursor (a : App) : App :=
  match line_cursor a with
  | Some _ => set_cursor None (follow_tail a) a
  | None =>
    let '(rows, a) := selectable a in
    match last rows with Some i => set_cursor (Some i) false a | None => a end
  end.

(** [rows[next]] is in range: see [move_cursor_lands]. *)
Definition move_cursor (delta : Z) (a : App) : App :=
  match line_cursor a with
  | None => a
  | Some current =>
    let '(rows, a) := selectable a in
    match rows with
    | [] => set_cursor None (follow_tail a) a
    | _ =>
      let at_ := default (List.length rows - 1)%nat (position (λ i, (current <=? i)%nat) rows) in
      let next := if (delta <? 0)%Z then (at_ - Z.to_nat (Z.abs delta))%nat
                  else Nat.min (at_ + Z.to_nat delta) (List.length rows - 1) in
      set_cursor (rows !! next) (follow_tail a) a
    end
  end.

Definition seq_index (z : Z) (st : ConversationStore) : option nat :=
  position (λ e, sequenced e && (e_seq e =? z)%Z) (entries st).

Definition anchor_pending_seq (id : string) (a : App) : App :=
  match pending_seq_anchor a with
  | None => a
  | Some (anchored, z) =>
    if negb (anchored ==s id) then a
    else let '(i, a) := read_store id (seq_index z) a in
         match i with
         | None => a
         | Some i => set_cursor (Some i) false (set_anchor None a)
         end
  end.

(** ** Jumps ([pins.rs]) *)

Definition MAX_JUMP_STEPS : N := 40.

Definition jump_to_seq (z : Z) (a : App) : list Effect * App :=
  match selected_session_id a with
  | None => ([], a)
  | Some id =>
    let '(i, a) := read_store id (seq_index z) a in
    match i with
    | Some i => ([], set_cursor (Some i) false (set_jump None a))
    | None =>
      let steps := match pending_jump a with Some (_, n) => n | None => 0%N end in
      if (MAX_JUMP_STEPS <=? steps)%N
      then ([], toast Warn "gave up looking for that message" (set_jump None a))
      else
        let '(r, a) := with_store id begin_older a in
        match r with
        | None => ([], toast Warn "that message is no longer in the transcript" (set_jump None a))
        | Some (page, claim) =>
          ([LoadConversationPage id Older (Some claim) page None],
           set_jump (Some (z, (steps + 1)%N)) a)
        end
    end
  end.

Definition after_page (id : string) (a : App) : list Effect * App :=
  match pending_jump a with
  | None => ([], a)
  | Some (z, _) =>
    if bool_decide (selected_session_id a = Some id) then jump_to_seq z a else ([], a)
  end.

Definition jump_page_failed (a : App) : App :=
  match pending_jump a with
  | Some _ => toast Warn "could not load more history for that jump" (set_jump None a)
  | None => a
  end.

(** ** The reducer *)

Inductive ConversationAction :=
| Loaded (session_id : string) (k : PageKind) (claim : option N)
    (rows : list (Z * ConversationLine)) (tag : option string) (has_more : bool)
| NotModified (session_id : string) (k : PageKind) (claim : option N)
| FailedPage (session_id : string) (k : PageKind) (claim : option N)
| ToggleLineCursor
| MoveCursor (delta : Z)
| ToggleExpand
| ToggleExpandAll.

Definition reduce (act : ConversationAction) (a : App) : list Effect * App :=
  match act with
  | Loaded id k claim rows tag has_more =>
    let '(m, a) := with_store id (merge_page k claim rows tag has_more) a in
    let on_screen := bool_decide (subscribed a = Some id) in
    let a :=
      if on_screen && bool_decide (k = Older) && (0 <? inserted m)%nat && reordered m
      then set_prepend ((λ c, (c + inserted m)%nat) <$> line_cursor a) a else a in
    after_page id (anchor_pending_seq id a)
  | ToggleLineCursor => ([], toggle_line_cursor a)
  | MoveCursor delta => ([], move_cursor delta a)
  | ToggleExpand =>
    match line_cursor a, selected_session_id a with
    | Some c, Some id => ([], (with_store id (toggle_expanded c) a).2)
    | _, _ => ([], a)
    end
  | ToggleExpandAll =>
    let expand := negb (expand_all a) in
    let a := set_expand_all expand a in
    match selected_session_id a with
    | Some id => ([], (with_store id (set_all_expanded expand) a).2)
    | None => ([], a)
    end
  | NotModified id k claim => ([], (with_store id (λ st, (tt, page_not_modified k claim st)) a).2)
  | FailedPage id k claim =>
    ([], jump_page_failed (with_store id (λ st, (tt, page_failed k claim st)) a).2)
  end.

(** ** Opening, leaving, streaming *)

(** [unread::opened]. *)
Definition opened (id : string) (a : App) : App :=
  let clear := fix clear (l : list SessionItem) :=
    match l with
    | [] => []
    | s :: l => if s_id s ==s id then mk_session (s_id s) 0 :: l else s :: clear l
    end in
  set_seen (clear (sessions a)) (<[id := clock_ms a]> (seen_at a)) a.

Definition fetch_guard_step (id : string) (a : App) : Effect :=
  FetchGuardStep id (default 0%N (guard_step_frames a !! id)).

Definition open (id : string) (a : App) : list Effect * App :=
  let a := match pending_seq_anchor a with
           | Some (anchored, _) => if negb (anchored ==s id) then set_anchor None a else a
           | None => a
           end in
  let a := set_opened (router_push VConversation (router a)) id a in
  let a := evict_cold_stores (opened id a) in
  let '(tag, a) := read_store id etag a in
  ([LoadConversationPage id Latest None latest_request tag; Subscribe id; LoadPins id;
    fetch_guard_step id a; MarkSeen id], a).

Definition leave (a : App) : list Effect * App :=
  match subscribed a with
  | Some id => ([Unsubscribe id], set_subscribed None a)
  | None => ([], a)
  end.

Definition switch_to (id : string) (a : App) : list Effect * App :=
  let '(found, a) := select_session_id id a in
  if negb found then ([], a)
  else let '(e1, a) := leave a in let '(e2, a) := open id a in (e1 ++ e2, a).

Definition reconnect (a : App) : list Effect * App :=
  match subscribed a with
  | None => ([], a)
  | Some id =>
    let '(page, a) := read_store id gap_request a in
    ([Subscribe id; LoadConversationPage id Gap None page None], a)
  end.

Definition load_older (a : App) : list Effect * App :=
  if negb (bool_decide (router_current (router a) = VConversation))
     || negb (scroll_offset a =? 0)%N || follow_tail a
  then ([], a)
  else match selected_session_id a with
       | None => ([], a)
       | Some id =>
         let '(r, a) := with_store id begin_older a in
         match r with
         | None => ([], a)
         | Some (page, claim) => ([LoadConversationPage id Older (Some claim) page None], a)
         end
       end.

Definition stream (id : string) (seq : option Z) (line : ConversationLine) (a : App) : App :=
  let '(trimmed, a) := with_store id (λ st, trim_to_cap (push_live seq line st).2) a in
  let a := if (0 <? trimmed)%nat && bool_decide (subscribed a = Some id)
           then set_prepend ((λ c, (c - trimmed)%nat) <$> line_cursor a) a else a in
  evict_cold_stores a.
End View.
