(* ===== verification/TranscriptCursor.v ===== *)
(** * The line cursor over a moving transcript

    The cursor addresses a line by its index, and pages, trims and retired
    placeholders move the lines under it.  When the cursor follows its line,
    and when it does not; where it may land; and what eviction spares. *)

From stdpp Require Import base decidable list strings gmap.
From Stdlib Require Import Lia ZArith Bool Ascii String.
From S2P Require Import Prelude RustStr Json Transcript TranscriptFacts LineFilter TranscriptView.

Open Scope string_scope.
Open Scope list_scope.

(** ** The render epoch *)

Lemma iter_succ k : ∀ e, Nat.iter (S k) u64_succ e = ((e + N.of_nat (S k)) mod 2 ^ 64)%N.
Proof.
  induction k as [|k IH]; intros e; [done|].
  change (Nat.iter (S (S k)) u64_succ e) with (u64_succ (Nat.iter (S k) u64_succ e)).
  rewrite IH. unfold u64_succ. rewrite N.Div0.add_mod_idemp_l. f_equal. lia.
Qed.

(** Fewer than [2^64] bumps never bring an epoch back. *)
Lemma iter_succ_ne k e : (0 < k)%nat → (N.of_nat k < 2 ^ 64)%N → Nat.iter k u64_succ e ≠ e.
Proof.
  destruct k as [|k]; [lia|]. intros _ Hk. rewrite iter_succ. intros E.
  assert (e < 2 ^ 64)%N as He by (rewrite <-E; by apply N.mod_lt).
  destruct (N.lt_ge_cases (e + N.of_nat (S k)) (2 ^ 64)) as [Hlt|Hge].
  - rewrite N.mod_small in E by done. lia.
  - assert ((e + N.of_nat (S k)) mod 2 ^ 64 = e + N.of_nat (S k) - 2 ^ 64)%N as Em.
    { symmetry. apply (N.mod_unique _ _ 1); lia. }
    rewrite Em in E. lia.
Qed.

Definition bumped (lo hi : nat) (a b : ConversationStore) : Prop :=
  ∃ k, (lo ≤ k ≤ hi)%nat ∧ epoch b = Nat.iter k u64_succ (epoch a).

Lemma insert_bumped seq line st :
  seq ∉ seqs st → quiet (entries st) → status line ≠ Some Queued →
  bumped (if (partition_point (follows seq) (entries st) <? List.length (entries st))%nat
          then 1 else 0) 2 st (insert seq true line st).2.
Proof.
  intros Hnew Hq Hl. rewrite insert_new by done. cbn [snd].
  destruct (spliced_frame seq true line st) as (_ & He & _).
  rewrite close_quiet by (rewrite He; apply quiet_ins; [by apply bool_decide_eq_false|done]).
  unfold pair_tool_lines. destruct (pair_from 0 ∅ _) as [l ch].
  assert (epoch (spliced seq true line st) =
            Nat.iter (if (partition_point (follows seq) (entries st) <? List.length (entries st))%nat
                      then 1 else 0) u64_succ (epoch st)) as Es.
  { unfold spliced. cbn [set_seqs entries]. by destruct (_ <? _)%nat. }
  set (n := if (_ <? _)%nat then 1%nat else 0%nat) in *.
  assert (n ≤ 1)%nat by (unfold n; case_match; lia).
  destruct ch; [exists (S n)|exists n]; (split; [lia|]); [exact (f_equal u64_succ Es)|exact Es].
Qed.

(** ** A page that lands in front *)

Definition below (z : Z) (l : list Entry) : Prop := Forall (λ e, (z < e_seq e)%Z) l.

Lemma ins_below e pre l : below (e_seq e) l → ins e (pre ++ l) = ins e pre ++ l.
Proof.
  intros Hl. induction pre as [|x pre IH]; cbn [app ins].
  - destruct Hl as [|y l Hy Hl]; [done|]. cbn [ins].
    by rewrite (proj2 (Z.leb_gt (e_seq y) (e_seq e))) by lia.
  - case_match; [|done]. by rewrite IH.
Qed.

Lemma ins_all_below es l : ∀ pre,
  Forall (λ e, below (e_seq e) l) es → ins_all (pre ++ l) es = ins_all pre es ++ l.
Proof.
  induction es as [|e es IH]; intros pre Hes; [done|]. apply Forall_cons in Hes as [He Hes].
  cbn. rewrite ins_below by done. by apply IH.
Qed.

Lemma ins_all_length es : ∀ l, List.length (ins_all l es) = (List.length es + List.length l)%nat.
Proof.
  induction es as [|e es IH]; intros l; [done|]. cbn. rewrite IH. unfold ins_all.
  rewrite (Permutation_length (ins_perm e l)). cbn. lia.
Qed.

Lemma settled_front l rows i e :
  Forall (λ r, below r.1 l) rows → l !! i = Some e →
  ∃ e', settled l rows !! (i + List.length rows)%nat = Some e' ∧ erase e' = erase e.
Proof.
  intros Hr Hi. destruct rows as [|r rows]; [exists e; by rewrite Nat.add_0_r|].
  set (new := r :: rows) in *. assert (settled l new = pairs (ins_all l (row_entry <$> new))) as -> by done.
  assert ((erase <$> pairs (ins_all l (row_entry <$> new))) !! (i + List.length new)%nat
            = Some (erase e)) as Hl.
  { unfold pairs. rewrite erase_pair_from, list_lookup_fmap.
    rewrite <-(app_nil_l l) at 1. rewrite ins_all_below.
    - rewrite lookup_app_r by (rewrite ins_all_length, length_fmap; cbn; lia).
      rewrite ins_all_length, length_fmap. cbn [List.length]. rewrite Nat.add_0_r.
      replace (i + _ - _)%nat with i by lia. by rewrite Hi.
    - apply Forall_fmap. eapply Forall_impl; [exact Hr|]. done. }
  rewrite list_lookup_fmap in Hl. destruct (pairs _ !! _) as [e'|]; [|done].
  exists e'. split; [done|]. by injection Hl.
Qed.

Lemma insert_rows_bumped rows : ∀ st,
  quiet (entries st) → NoDup rows.*1 → Forall (λ r, status r.2 ≠ Some Queued) rows →
  (∀ z, z ∈ rows.*1 → z ∉ seqs st) →
  bumped 0 (2 * List.length rows) st (insert_rows rows st).2.
Proof.
  induction rows as [|[z l] rows IH]; intros st Hq Hn Hs Hnew; [by exists 0%nat|].
  apply NoDup_cons in Hn as [Hz Hn]. apply Forall_cons in Hs as [Hl Hs].
  assert (z ∉ seqs st) as Hz' by (apply Hnew; by left).
  destruct (insert_quiet z l st Hz' Hq Hl) as [_ Hq'].
  destruct (insert_frame z true l st) as [_ Es].
  destruct (insert_bumped z l st Hz' Hq Hl) as (k & Hk & Ek).
  cbn [insert_rows]. destruct (insert z true l st) as [b st1]. cbn [snd] in *.
  destruct (IH st1 Hq' Hn Hs) as (k' & Hk' & Ek').
  { rewrite Es. intros y Hy [->%elem_of_singleton|Hin]%elem_of_union; [done|].
    apply (Hnew y); [by right|done]. }
  destruct (insert_rows rows st1) as [n st']. cbn [snd] in *.
  exists (k' + k)%nat. split; [cbn; lia|]. by rewrite Ek', Ek, <-Nat.iter_add.
Qed.

(** The rows of an older page: settled, new, and below everything shown. *)
Definition fits_in_front (st : ConversationStore) (rows : list (Z * ConversationLine)) : Prop :=
  NoDup rows.*1 ∧
  Forall (λ r, (status r.2 ≠ Some Queued) ∧ (r.1 ∉ seqs st) ∧ below r.1 (entries st)) rows.

Lemma fits_parts st rows :
  fits_in_front st rows →
  NoDup rows.*1 ∧ Forall (λ r, status r.2 ≠ Some Queued) rows ∧
  (∀ z, z ∈ rows.*1 → z ∉ seqs st) ∧ Forall (λ r, below r.1 (entries st)) rows.
Proof.
  intros [Hn Hf]. split; [done|]. split; [by eapply Forall_impl; [exact Hf|]; intros r (? & _)|].
  split; [|by eapply Forall_impl; [exact Hf|]; intros r (_ & _ & ?)].
  rewrite Forall_forall in Hf. intros z (r & -> & Hr)%list_elem_of_fmap. by apply Hf.
Qed.

Lemma front_bumped st r rows :
  quiet (entries st) → entries st ≠ [] → fits_in_front st (r :: rows) →
  bumped 1 (2 * List.length (r :: rows)) st (insert_rows (r :: rows) st).2.
Proof.
  intros Hq Hne Hf. destruct (fits_parts _ _ Hf) as (Hn & Hs & Hnew & Hb). destruct r as [z l].
  apply NoDup_cons in Hn as [Hz Hn]. apply Forall_cons in Hs as [Hl Hs].
  apply Forall_cons in Hb as [Hbz _].
  assert (z ∉ seqs st) as Hz' by (apply Hnew; by left).
  destruct (insert_quiet z l st Hz' Hq Hl) as [_ Hq']. destruct (insert_frame z true l st) as [_ Es].
  destruct (insert_bumped z l st Hz' Hq Hl) as (k & Hk & Ek).
  assert (1 ≤ k)%nat as Hk1.
  { destruct (entries st) as [|x l']; [done|]. apply Forall_cons in Hbz as [Hx _]. cbn in Hx.
    cbn [partition_point List.length] in Hk.
    unfold follows in Hk. rewrite (proj2 (Z.leb_gt (e_seq x) z)) in Hk by exact Hx. cbn in Hk. lia. }
  cbn [insert_rows]. destruct (insert z true l st) as [b st1]. cbn [snd] in *.
  destruct (insert_rows_bumped rows st1 Hq' Hn Hs) as (k' & Hk' & Ek').
  { rewrite Es. intros y Hy [->%elem_of_singleton|Hin]%elem_of_union; [done|].
    apply (Hnew y); [by right|done]. }
  destruct (insert_rows rows st1) as [n st']. cbn [snd] in *.
  exists (k' + k)%nat. split; [cbn; lia|]. by rewrite Ek', Ek, <-Nat.iter_add.
Qed.

(** The merge of such a page: every row counts, the epoch moves, and each line
    that was held is as many places further down. *)
Lemma merge_front st claim rows tag more c e :
  quiet (entries st) → older_claim st = Some claim → rows ≠ [] → fits_in_front st rows →
  (2 * N.of_nat (List.length rows) < 2 ^ 64)%N → entries st !! c = Some e →
  let '(m, st') := merge_page Older (Some claim) rows tag more st in
  inserted m = List.length rows ∧ reordered m = true ∧
  ∃ e', entries st' !! (c + List.length rows)%nat = Some e' ∧ erase e' = erase e.
Proof.
  intros Hq Hc Hne Hf Hlen He. destruct (fits_parts _ _ Hf) as (Hn & Hs & Hnew & Hb).
  assert (fresh (seqs st) rows = rows) as Ef.
  { unfold fresh. clear -Hnew. induction rows as [|[z l] rows IH]; [done|].
    rewrite filter_cons, decide_True by (apply Hnew; by left).
    rewrite IH; [done|]. intros y Hy. apply Hnew. by right. }
  unfold merge_page, page_is_stale, older_page_is_stale. rewrite Hc, N.eqb_refl.
  cbn [negb andb bool_decide decide]. rewrite andb_false_r. cbn [make_room].
  pose proof (insert_rows_quiet rows st Hq Hn Hs) as Hi. rewrite Ef in Hi.
  assert (bumped 1 (2 * List.length rows) st (insert_rows rows st).2) as (k & Hk & Ek).
  { destruct rows as [|r rows]; [done|]. apply front_bumped; [done| |done].
    intros E. by rewrite E in He. }
  destruct (insert_rows rows st) as [n st']. cbn [snd] in Ek. destruct Hi as (-> & Ee & _).
  cbn [finish_page set_paging inserted reordered epoch entries]. split; [done|]. split.
  - apply negb_true_iff, N.eqb_neq. rewrite Ek. apply iter_succ_ne; lia.
  - rewrite Ee. by apply settled_front.
Qed.

(** C24. Scrolling back keeps the cursor on its line: when the older page that was
    asked for, of settled lines, lands above everything the open conversation
    shows, and neither the page nor what is held has a queue placeholder (which an
    older user line could retire), and no anchor or jump is waiting for a page,
    the line the cursor is on afterwards is the one it was on before. *)
Theorem prepend_keeps_cursor flattened a id st claim rows tag more c e :
  subscribed a = Some id → conversations a !! id = Some st → older_claim st = Some claim →
  line_cursor a = Some c → entries st !! c = Some e →
  quiet (entries st) → rows ≠ [] → fits_in_front st rows →
  (2 * N.of_nat (List.length rows) < 2 ^ 64)%N →
  pending_seq_anchor a = None → pending_jump a = None →
  let a' := (reduce flattened (Loaded id Older (Some claim) rows tag more) a).2 in
  ∃ c' st' e', line_cursor a' = Some c' ∧ conversations a' !! id = Some st' ∧
    entries st' !! c' = Some e' ∧ erase e' = erase e.
Proof.
  intros Hsub Hst Hc Hcur He Hq Hne Hf Hlen Hanc Hjump. cbn zeta. cbn [reduce]. unfold with_store.
  rewrite Hst. cbn [default from_option Datatypes.id].
  pose proof (merge_front (set_touched (u64_succ (conversation_clock a)) st) claim rows tag more c e
                Hq Hc Hne Hf Hlen He) as Hm.
  destruct (merge_page _ _ _ _ _ _) as [m st']. destruct Hm as (Hi & Hr & e' & He' & Hee).
  cbn [put_store subscribed line_cursor]. rewrite Hsub, Hcur, Hi, Hr, !bool_decide_true by done.
  assert ((0 <? List.length rows)%nat = true) as -> by (destruct rows; done).
  cbn [andb fmap option_fmap option_map].
  unfold anchor_pending_seq. cbn [set_prepend put_store pending_seq_anchor]. rewrite Hanc.
  unfold after_page. cbn [set_prepend put_store pending_jump]. rewrite Hjump. cbn [snd].
  exists (c + List.length rows)%nat, st', e'. cbn [set_prepend put_store line_cursor conversations].
  split; [done|]. split; [apply lookup_insert_eq|done].
Qed.

(** ** Where the cursor lands *)

Lemma elem_of_indices {A} (p : A → bool) l : ∀ k i,
  i ∈ indices p k l ↔ ∃ j x, i = (k + j)%nat ∧ l !! j = Some x ∧ p x = true.
Proof.
  induction l as [|y l IH]; intros k i; cbn [indices].
  { split; [by intros ?%elem_of_nil|by intros (j & x & _ & ? & _)]. }
  assert ((∃ j x, i = (k + j)%nat ∧ (y :: l) !! j = Some x ∧ p x = true) ↔
          (i = k ∧ p y = true) ∨ i ∈ indices p (S k) l) as ->.
  { rewrite IH. split.
    - intros ([|j] & x & -> & Hx & Hp); cbn in Hx; [injection Hx as ->; left; split; [lia|done]|].
      right. exists j, x. split; [lia|done].
    - intros [[-> Hp]|(j & x & -> & Hx & Hp)]; [exists 0%nat, y|exists (S j), x];
        (split; [lia|done]). }
  destruct (p y) eqn:Ey; [rewrite elem_of_cons|]; naive_solver.
Qed.

(** Moving the cursor never leaves the transcript: it lands on a line that
    is there and that the filter shows, and is put away only when the filter
    shows none. *)
Theorem move_cursor_lands flattened delta a id c :
  line_cursor a = Some c → selected_session_id flattened a = Some id →
  let l := entries (default new_store (conversations a !! id)) in
  match line_cursor (move_cursor flattened delta a) with
  | Some i => ∃ e, l !! i = Some e ∧ visible_line (line_filter a) (e_line e) = true
  | None => ∀ e, e ∈ l → visible_line (line_filter a) (e_line e) = false
  end.
Proof.
  intros Hc Hs. cbn zeta. unfold move_cursor, selectable, read_store, with_store. rewrite Hc, Hs.
  set (st := default new_store (conversations a !! id)). cbn [set_touched entries].
  set (p := λ e, visible_line (line_filter a) (e_line e)).
  pose proof (elem_of_indices p (entries st) 0) as Hi.
  destruct (indices p 0 (entries st)) as [|r rows] eqn:Er; cbn [set_cursor line_cursor].
  - intros e (j & Hj)%list_elem_of_lookup. destruct (p e) eqn:Ep; [|exact Ep].
    exfalso. apply (elem_of_nil j), Hi. by exists j, e.
  - set (at_ := default _ _). set (next := if (delta <? 0)%Z then _ else _).
    assert (at_ < List.length (r :: rows))%nat as Hat.
    { unfold at_. destruct (position _ (r :: rows)) as [k|] eqn:Ek; [|cbn; lia].
      cbn [default from_option Datatypes.id]. clear -Ek. revert k Ek.
      generalize (r :: rows) as l. intros l. induction l as [|x l IH]; intros k Ek; [done|].
      cbn [position] in Ek. destruct (_ <=? x)%nat; [injection Ek as <-; cbn; lia|].
      destruct (position _ l) as [k'|]; [|done]. injection Ek as <-.
      specialize (IH k' eq_refl). cbn. lia. }
    assert (next < List.length (r :: rows))%nat as Hnext
      by (clearbody at_; unfold next; destruct (delta <? 0)%Z; lia).
    apply lookup_lt_is_Some in Hnext as [i Hnx]. rewrite Hnx.
    apply list_elem_of_lookup_2, Hi in Hnx as (j & e & -> & He & Hp). by exists e.
Qed.

(** ** Jumps end *)

Definition jump_steps (a : App) : N := match pending_jump a with Some (_, n) => n | None => 0%N end.

(** A jump makes progress or ends: it finds its line, gives up, or asks for
    one older page and counts it, and it never asks once forty are counted. *)
Theorem jump_progress flattened z a id :
  selected_session_id flattened a = Some id →
  let '(es, a') := jump_to_seq flattened z a in
  (es = [] ∧ pending_jump a' = None) ∨
  (∃ page claim, es = [LoadConversationPage id Older (Some claim) page None] ∧
     (jump_steps a < MAX_JUMP_STEPS)%N ∧ pending_jump a' = Some (z, (jump_steps a + 1)%N)).
Proof.
  intros Hs. unfold jump_to_seq, read_store, with_store. rewrite Hs.
  cbn [set_touched entries]. destruct (seq_index z _) as [i|]; [by left|].
  cbn [put_store pending_jump]. fold (jump_steps a).
  destruct (N.leb_spec MAX_JUMP_STEPS (jump_steps a)) as [?|Hlt]; [by left|].
  destruct (begin_older _) as [[[page claim]|] st']; [right|by left].
  by exists page, claim.
Qed.

(** ** Eviction spares what is in use *)

Lemma evict_keeps stores keep max id :
  id ∈ keep → (evict_cold stores keep max).2 !! id = stores !! id.
Proof.
  intros Hk. unfold evict_cold. destruct (_ <=? _)%nat; [done|]. cbn [snd].
  rewrite foldl_delete, decide_False; [done|].
  intros ([n id'] & -> & Hin)%list_elem_of_fmap.
  eapply elem_of_sublist in Hin; [|apply sublist_take].
  rewrite sorting.merge_sort_Permutation in Hin. by apply elem_of_candidates in Hin as (_ & _ & _ & ?).
Qed.

Lemma evict_stores_keeps flattened a id :
  id ∈ conversations_in_use flattened a →
  conversations (evict_cold_stores flattened a) !! id = conversations a !! id.
Proof.
  intros Hin. unfold evict_cold_stores. destruct (_ <=? _)%nat; [done|].
  cbn [set_conversations conversations]. by apply evict_keeps.
Qed.

(** Events of other sessions never cost the open conversation its
    transcript: whatever is streamed to another session, and whatever is evicted
    for it, the store of the subscribed one stays as it was. *)
Theorem stream_spares_open flattened id id' seq line a st :
  subscribed a = Some id → conversations a !! id = Some st → id' ≠ id →
  conversations (stream flattened id' seq line a) !! id = Some st.
Proof.
  intros Hsub Hst Hne. unfold stream, with_store.
  destruct (trim_to_cap _) as [n st'].
  assert (∀ a', subscribed a' = Some id → conversations a' !! id = Some st →
            conversations (evict_cold_stores flattened a') !! id = Some st) as Hev.
  { intros a' Hs' Hc'. rewrite evict_stores_keeps; [done|]. unfold conversations_in_use.
    rewrite Hs'. apply elem_of_list_to_set. by left. }
  apply Hev; destruct (_ && _); cbn [set_prepend put_store subscribed conversations];
    try done; by rewrite lookup_insert_ne.
Qed.

(** ** When the cursor slips *)

Definition demo_app (st : ConversationStore) (cursor : option nat) : App :=
  mk_app {["s" := st]} 0 (Some "s") [VSessionList; VConversation] [mk_session "s" 0] 0 None [] ∅ 0
    default_filter ∅ [] cursor false 0 false false None None.

Definition demo_flat (a : App) : list string := s_id <$> sessions a.

Definition prose (t : string) : ConversationLine := new_line KAssistant t 0.
Definition queued_line : ConversationLine := with_status Queued (new_line KUser "ship it" 0).
Definition user_line : ConversationLine := new_line KUser "ship it" 0.

Definition asked_older : ConversationStore :=
  (begin_older (merge_page Latest None [(10%Z, prose "a"); (11%Z, prose "b")] None true new_store).2).2.

Definition cursor_seq (a : App) : option Z :=
  c ← line_cursor a; st ← conversations a !! "s"; e_seq <$> entries st !! c.

(** A page that carries a prompt and the turn that delivered it counts two new
    lines and adds one: the cursor moves off its line. *)
Example prepend_cursor_slips :
  let a := demo_app asked_older (Some 0%nat) in
  let page := Loaded "s" Older (Some 1%N) [(5%Z, queued_line); (6%Z, user_line)] None true in
  cursor_seq a = Some 10%Z ∧ cursor_seq (reduce demo_flat page a).2 = Some 11%Z.
Proof. vm_compute. done. Qed.

(** A live turn that retires a placeholder above the cursor does the same. *)
Example live_cursor_slips :
  let st := (insert_rows [(1%Z, queued_line); (2%Z, prose "a")] new_store).2 in
  let a := demo_app st (Some 1%nat) in
  cursor_seq a = Some 2%Z ∧
  cursor_seq (stream demo_flat "s" (Some 3%Z) user_line a) = Some 3%Z.
Proof. vm_compute. done. Qed.

(** A page of another kind that lands while a jump waits for its older page ends
    the jump, and the older page with the line on it then moves nothing. *)
Example jump_dropped_by_other_page :
  let a := demo_app (merge_page Latest None [(10%Z, prose "a")] None true new_store).2 None in
  let '(es, a1) := jump_to_seq demo_flat 5 a in
  let a2 := (reduce demo_flat (Loaded "s" Gap None [(11%Z, prose "b")] None false) a1).2 in
  let a3 := (reduce demo_flat (Loaded "s" Older (Some 1%N) [(5%Z, prose "x")] None false) a2).2 in
  List.length es = 1%nat ∧ pending_jump a1 = Some (5%Z, 1%N) ∧ pending_jump a2 = None ∧
  (t_text <$> toasts a2) = ["that message is no longer in the transcript"] ∧
  line_cursor a3 = None ∧ (seq_index 5 <$> conversations a3 !! "s") = Some (Some 0%nat).
Proof. vm_compute. done. Qed.

(** ** Witnesses *)

Lemma prepend_keeps_cursor_witness :
  let a := demo_app asked_older (Some 0%nat) in
  ∃ c' st' e',
    line_cursor (reduce demo_flat (Loaded "s" Older (Some 1%N) [(5%Z, prose "x")] None true) a).2
      = Some c' ∧
    conversations (reduce demo_flat (Loaded "s" Older (Some 1%N) [(5%Z, prose "x")] None true) a).2
      !! "s" = Some st' ∧
    entries st' !! c' = Some e' ∧ erase e' = mk_entry 10 true (prose "a") false.
Proof.
  apply (prepend_keeps_cursor demo_flat (demo_app asked_older (Some 0%nat)) "s" asked_older 1
           [(5%Z, prose "x")] None true 0 (mk_entry 10 true (prose "a") false)); try reflexivity.
  - vm_compute. repeat constructor.
  - discriminate.
  - split; [apply NoDup_singleton|]. constructor; [|constructor]. split; [discriminate|].
    split; [apply (bool_decide_eq_false _); reflexivity|]. vm_compute. repeat constructor.
Defined.

Definition demo_move : App := demo_app asked_older (Some 1%nat).

Lemma move_cursor_lands_witness :
  let l := entries (default new_store (conversations demo_move !! "s")) in
  match line_cursor (move_cursor demo_flat (-1) demo_move) with
  | Some i => ∃ e, l !! i = Some e ∧ visible_line (line_filter demo_move) (e_line e) = true
  | None => ∀ e, e ∈ l → visible_line (line_filter demo_move) (e_line e) = false
  end.
Proof. exact (move_cursor_lands demo_flat (-1) demo_move "s" 1 eq_refl eq_refl). Defined.

Definition demo_jump : App := demo_app asked_older None.

Lemma jump_progress_witness :
  let '(es, a') := jump_to_seq demo_flat 5 demo_jump in
  (es = [] ∧ pending_jump a' = None) ∨
  (∃ page claim, es = [LoadConversationPage "s" Older (Some claim) page None] ∧
     (jump_steps demo_jump < MAX_JUMP_STEPS)%N ∧
     pending_jump a' = Some (5%Z, (jump_steps demo_jump + 1)%N)).
Proof. exact (jump_progress demo_flat 5 demo_jump "s" eq_refl). Defined.

Lemma stream_spares_open_witness :
  conversations (stream demo_flat "t" (Some 1%Z) (prose "x") (demo_app asked_older None)) !! "s"
    = Some asked_older.
Proof.
  apply (stream_spares_open demo_flat "s" "t" (Some 1%Z) (prose "x") (demo_app asked_older None)
           asked_older); [reflexivity..|discriminate].
Defined.
