(* ===== verification/Outbox.v ===== *)
(** * Tracked sends of the terminal UI

    [send.rs]: every message the composer lets go of is tracked until the agent
    has it.  An attempt is dispatched, reported as written to the socket, acked
    by the server and confirmed by the daemon, and these answers may come in
    any order, late, or not at all; a clock retries with a growing delay and
    gives up after five attempts.

    The functions take the outbox and the reducer's clock.  A [u64] or [u32] is
    an [N], the clock an [i64] as a [Z]; a [Uuid] is its text.  The manual
    actions take the selected session; [None] is a key that falls through to
    the composer. *)

From stdpp Require Import base decidable list strings.
From Stdlib Require Import Lia ZArith Bool String.
From S2P Require Import Prelude RustStr Json Transcript.

Open Scope string_scope.
Open Scope list_scope.
Open Scope rust_scope.

Definition ACK_TIMEOUT_MS : Z := 8000.
Definition DELIVERY_TIMEOUT_MS : Z := 20000.
Definition MAX_ATTEMPTS : N := 5.
Definition RECONNECT_PARK_MS : Z := 1000.
Definition DISPATCH_TIMEOUT_MS : Z := 120000.
Definition DELIVERED_LINGER_MS : Z := 1500.
Definition BACKOFF_BASE_MS : Z := 1000.
Definition BACKOFF_CAP_MS : Z := 30000.
Definition MAX_ORPHANS : nat := 8.
Definition MAX_EARLY_RESULTS : nat := 8.

(** [saturating_add] and [saturating_mul] on [i64]. *)
Definition i64_clamp (z : Z) : Z := Z.max i64_min (Z.min i64_max z).

(** [saturating_add(1)] on [u32]. *)
Definition u32_sat_succ (n : N) : N := N.min u32_max (n + 1).

Definition backoff_ms (attempt : N) : Z :=
  let shift := N.min (attempt - 1) 20 in
  Z.min (i64_clamp (BACKOFF_BASE_MS * i64w (Z.shiftl 1 (Z.of_N shift)))) BACKOFF_CAP_MS.

Inductive Phase := Pending | AwaitingDelivery | Backoff | PDelivered | PFailed.

#[export] Instance Phase_eq_dec : EqDecision Phase.
Proof. solve_decision. Defined.

Record TrackedSend := mk_send {
  ts_id : N;
  ts_session : string;
  content : string;
  ts_turn_id : option string;
  ask_picks : option (list (list N));
  on_the_wire : bool;
  client_msg_id : option string;
  command_id : option string;
  attempt : N;
  phase : Phase;
  reason : option string;
  deadline_ms : Z
}.

(** The assignments to the fields of a send. *)
Definition set_phase (p : Phase) (r : option string) (d : Z) (s : TrackedSend) : TrackedSend :=
  mk_send (ts_id s) (ts_session s) (content s) (ts_turn_id s) (ask_picks s) (on_the_wire s)
    (client_msg_id s) (command_id s) (attempt s) p r d.
Definition set_attempt (n : N) (s : TrackedSend) : TrackedSend :=
  mk_send (ts_id s) (ts_session s) (content s) (ts_turn_id s) (ask_picks s) (on_the_wire s)
    (client_msg_id s) (command_id s) n (phase s) (reason s) (deadline_ms s).
Definition set_command (c : option string) (s : TrackedSend) : TrackedSend :=
  mk_send (ts_id s) (ts_session s) (content s) (ts_turn_id s) (ask_picks s) (on_the_wire s)
    (client_msg_id s) c (attempt s) (phase s) (reason s) (deadline_ms s).
Definition set_wire (b : bool) (s : TrackedSend) : TrackedSend :=
  mk_send (ts_id s) (ts_session s) (content s) (ts_turn_id s) (ask_picks s) b
    (client_msg_id s) (command_id s) (attempt s) (phase s) (reason s) (deadline_ms s).
Definition set_ids (c : string) (t : string) (s : TrackedSend) : TrackedSend :=
  mk_send (ts_id s) (ts_session s) (content s) (Some t) (ask_picks s) (on_the_wire s)
    (Some c) (command_id s) (attempt s) (phase s) (reason s) (deadline_ms s).

Definition send_status (s : TrackedSend) : LineStatus :=
  match phase s with
  | Pending => if (1 <? attempt s)%N then Retrying (attempt s) MAX_ATTEMPTS else Sending
  | AwaitingDelivery => Sending
  | Backoff => Retrying (N.min (u32_sat_succ (attempt s)) MAX_ATTEMPTS) MAX_ATTEMPTS
  | PDelivered => Delivered
  | PFailed => Failed (default "not delivered" (reason s))
  end.

Definition send_line (s : TrackedSend) : ConversationLine :=
  with_status (send_status s) (new_line KUser (content s) 0).

Record EarlyResult := mk_early { er_command : string; er_ok : bool; er_error : option string }.
Record Orphan := mk_orphan {
  o_client : string; o_ok : bool; o_error : option string; o_command : option string }.

Record Outbox := mk_outbox {
  sends : list TrackedSend;
  next_id : N;
  orphans : list Orphan;
  early_results : list EarlyResult
}.

Definition new_outbox : Outbox := mk_outbox [] 0 [] [].

Definition set_sends (l : list TrackedSend) (b : Outbox) : Outbox :=
  mk_outbox l (next_id b) (orphans b) (early_results b).
Definition set_orphans (l : list Orphan) (b : Outbox) : Outbox :=
  mk_outbox (sends b) (next_id b) l (early_results b).
Definition set_early (l : list EarlyResult) (b : Outbox) : Outbox :=
  mk_outbox (sends b) (next_id b) (orphans b) l.

(** ** Looking a send up

    [find_mut] and its relatives give access to the first send that matches:
    what is done to it is a function. *)

Fixpoint update_first (p : TrackedSend → bool) (f : TrackedSend → TrackedSend)
    (l : list TrackedSend) : list TrackedSend :=
  match l with
  | [] => []
  | s :: l => if p s then f s :: l else s :: update_first p f l
  end.

Definition has_id (n : N) (s : TrackedSend) : bool := (ts_id s =? n)%N.
Definition has_client (c : string) (s : TrackedSend) : bool := bool_decide (client_msg_id s = Some c).
Definition has_command (c : string) (s : TrackedSend) : bool := bool_decide (command_id s = Some c).

Definition failed_id (session : string) (b : Outbox) : option N :=
  ts_id <$> List.find (λ s, (ts_session s ==s session) && bool_decide (phase s = PFailed))
              (reverse (sends b)).

Definition take_send (n : N) (b : Outbox) : option TrackedSend * Outbox :=
  match position (has_id n) (sends b) with
  | None => (None, b)
  | Some i => (sends b !! i, set_sends (vec_remove i (sends b)) b)
  end.

(** ** One attempt *)

(** [Effect::SendMessage]. *)
Record Frame := mk_frame {
  f_id : N; f_session : string; f_content : string; f_picks : option (list (list N));
  f_turn : option string; f_client : option string }.

Definition frame_of (s : TrackedSend) : Frame :=
  mk_frame (ts_id s) (ts_session s) (content s) (ask_picks s) (ts_turn_id s) (client_msg_id s).

Definition dispatched (now : Z) (s : TrackedSend) : TrackedSend :=
  set_wire false (set_command None
    (set_phase Pending None (i64_clamp (now + DISPATCH_TIMEOUT_MS))
       (set_attempt (u32_sat_succ (attempt s)) s))).

Definition never_reached_the_server (s : TrackedSend) : bool :=
  match phase s with
  | Pending => negb (on_the_wire s)
  | Backoff | PFailed => true
  | AwaitingDelivery | PDelivered => false
  end.

Definition attempt_failed (why : string) (now : Z) (s : TrackedSend) : TrackedSend :=
  let s := set_command None s in
  if (MAX_ATTEMPTS <=? attempt s)%N then set_phase PFailed (Some why) (deadline_ms s) s
  else set_phase Backoff (Some why) (i64w (now + backoff_ms (attempt s))) s.

Definition park_for_reconnect (now : Z) (s : TrackedSend) : TrackedSend :=
  set_phase Backoff (Some "not connected — reconnecting") (i64w (now + RECONNECT_PARK_MS))
    (set_attempt (attempt s - 1) s).

Definition delivered_at (now : Z) (s : TrackedSend) : TrackedSend :=
  set_phase PDelivered None (i64w (now + DELIVERED_LINGER_MS)) s.

(** ** Submitting, ticking, reconnecting *)

Definition submit (session text : string) (picks : option (list (list N))) (now : Z) (b : Outbox)
  : list Frame * Outbox :=
  let n := u64_succ (next_id b) in
  let s := dispatched now
             (mk_send n session text None picks false None None 0 Pending None 0) in
  ([frame_of s], mk_outbox (sends b ++ [s]) n (orphans b) (early_results b)).

(** Whether the transcript already ends with this message. *)
Definition echoed (store : option ConversationStore) (text_ : string) : bool :=
  match store with
  | None => false
  | Some st =>
    existsb (λ e, bool_decide (kind (e_line e) = KUser) && (trim (text (e_line e)) ==s trim text_))
      (take 10 (reverse (entries st)))
  end.

Definition pending_lines (store : option ConversationStore) (session : string) (b : Outbox)
  : list ConversationLine :=
  send_line <$>
    filter (λ s, negb (bool_decide (phase s = PDelivered)) || negb (echoed store (content s)) = true)
      (filter (λ s, ts_session s = session) (sends b)).

(** One send against the clock: what becomes of it, the frame it sends, and
    whether it is done. *)
Definition tick_send (now : Z) (s : TrackedSend) : TrackedSend * option Frame * bool :=
  if (now <? deadline_ms s)%Z then (s, None, false)
  else match phase s with
       | Pending => (attempt_failed "no response from server" now s, None, false)
       | AwaitingDelivery | PDelivered => (s, None, true)
       | Backoff => (dispatched now s, Some (frame_of s), false)
       | PFailed => (s, None, false)
       end.

Definition tick (now : Z) (b : Outbox) : list Frame * Outbox :=
  let rs := tick_send now <$> sends b in
  let done := omap (λ r : TrackedSend * option Frame * bool,
                      if r.2 then Some (ts_id r.1.1) else None) rs in
  (omap (λ r : TrackedSend * option Frame * bool, r.1.2) rs,
   set_sends (filter (λ s, ts_id s ∉ done) ((λ r : TrackedSend * option Frame * bool, r.1.1) <$> rs)) b).

Definition end_send (session : string) (now : Z) (s : TrackedSend) : TrackedSend :=
  if negb (ts_session s ==s session) then s
  else match phase s with
       | Pending | AwaitingDelivery | Backoff =>
         attempt_failed "session ended" now (set_attempt MAX_ATTEMPTS s)
       | _ => s
       end.

Definition session_ended (session : string) (now : Z) (b : Outbox) : Outbox :=
  set_sends (end_send session now <$> sends b) b.

Definition session_deregistered (session : string) (b : Outbox) : Outbox :=
  set_sends (filter (λ s, ts_session s ≠ session) (sends b)) b.

Definition redispatch_parked (now : Z) (b : Outbox) : list Frame * Outbox :=
  let parked s := bool_decide (phase s = Backoff) in
  (omap (λ s, if parked s then Some (frame_of s) else None) (sends b),
   set_sends ((λ s, if parked s then dispatched now s else s) <$> sends b) b).

(** ** Answers *)

Definition apply_delivery (cmd : string) (ok : bool) (error : option string) (now : Z) (b : Outbox)
  : bool * Outbox :=
  match List.find (has_command cmd) (sends b) with
  | None => (false, b)
  | Some _ =>
    let f := if ok then delivered_at now
             else attempt_failed (default "the agent did not accept the message" error) now in
    (true, set_sends (update_first (has_command cmd) f (sends b)) b)
  end.

Definition await_delivery (cmd : string) (now : Z) (s : TrackedSend) : TrackedSend :=
  set_phase AwaitingDelivery None (i64w (now + DELIVERY_TIMEOUT_MS)) (set_command (Some cmd) s).

Definition apply_ack (ack : Orphan) (now : Z) (b : Outbox) : Outbox :=
  match List.find (has_client (o_client ack)) (sends b) with
  | None => b
  | Some _ =>
    let upd f := set_sends (update_first (has_client (o_client ack)) f (sends b)) b in
    if negb (o_ok ack)
    then upd (attempt_failed (default "could not deliver to the agent" (o_error ack)) now)
    else match o_command ack with
         | None => upd (delivered_at now)
         | Some cmd =>
           let b := upd (await_delivery cmd now) in
           match position (λ r, er_command r ==s cmd) (early_results b) with
           | None => b
           | Some i =>
             match early_results b !! i with
             | None => b
             | Some early =>
               (apply_delivery cmd (er_ok early) (er_error early) now
                  (set_early (vec_remove i (early_results b)) b)).2
             end
           end
         end
  end.

(** [remove(0)] when full, then [push]. *)
Definition push_bounded {A} (max : nat) (x : A) (l : list A) : list A :=
  (if (max <=? List.length l)%nat then drop 1 l else l) ++ [x].

Inductive SendAction :=
| Dispatched (send_id : N) (client : string) (turn : string)
| DispatchFailed (send_id : N) (why : string)
| Acked (client : string) (ok : bool) (error : option string) (cmd : option string)
| DeliveryResult (cmd : string) (ok : bool) (error : option string).

(** The frame reached the socket: the clock of the ack starts. *)
Definition written (client turn : string) (now : Z) (s : TrackedSend) : TrackedSend :=
  let s := set_wire true (set_ids client turn s) in
  if bool_decide (phase s = Pending)
  then set_phase Pending (reason s) (i64w (now + ACK_TIMEOUT_MS)) s else s.

(** The reports of [reduce_send]; none of them sends anything. *)
Definition reduce_send (act : SendAction) (now : Z) (b : Outbox) : Outbox :=
  match act with
  | Dispatched n client turn =>
    match List.find (has_id n) (sends b) with
    | None => b
    | Some _ =>
      let b := set_sends (update_first (has_id n) (written client turn now) (sends b)) b in
      match position (λ o, o_client o ==s client) (orphans b) with
      | None => b
      | Some i =>
        match orphans b !! i with
        | None => b
        | Some o => apply_ack o now (set_orphans (vec_remove i (orphans b)) b)
        end
      end
    end
  | DispatchFailed n _ => set_sends (update_first (has_id n) (park_for_reconnect now) (sends b)) b
  | Acked client ok error cmd =>
    let ack := mk_orphan client ok error cmd in
    match List.find (has_client client) (sends b) with
    | Some _ => apply_ack ack now b
    | None => set_orphans (push_bounded MAX_ORPHANS ack (orphans b)) b
    end
  | DeliveryResult cmd ok error =>
    let '(applied, b) := apply_delivery cmd ok error now b in
    if applied then b
    else set_early (push_bounded MAX_EARLY_RESULTS (mk_early cmd ok error) (early_results b)) b
  end.

(** ** The manual actions on the newest failed send of the selected session *)

Definition failed_send (selected : option string) (b : Outbox) : option N :=
  session ← selected; failed_id session b.

Definition retry (selected : option string) (now : Z) (b : Outbox)
  : option (list Frame * Outbox) :=
  n ← failed_send selected b;
  Some match List.find (has_id n) (sends b) with
       | None => ([], b)
       | Some s =>
         ([frame_of s],
          set_sends (update_first (has_id n) (λ s, dispatched now (set_attempt 0 s)) (sends b)) b)
       end.

Definition discard (selected : option string) (b : Outbox) : option Outbox :=
  n ← failed_send selected b; Some (take_send n b).2.

(** The text that goes back to the composer, and the outbox without it. *)
Definition edit (selected : option string) (b : Outbox) : option (option string * Outbox) :=
  n ← failed_send selected b;
  let '(s, b) := take_send n b in Some (content <$> s, b).

(** ** What a quit puts back ([drafts.rs]) *)

Fixpoint add_unsent (session text_ : string) (out : list (string * string)) : list (string * string) :=
  match out with
  | [] => [(session, text_)]
  | (id, t) :: out =>
    if id ==s session then (id, t ++s nl ++s nl ++s text_) :: out
    else (id, t) :: add_unsent session text_ out
  end.

Definition unsent_by_session (b : Outbox) : list (string * string) :=
  foldl (λ out s, add_unsent (ts_session s) (content s) out) []
    (filter (λ s, never_reached_the_server s = true) (sends b)).
