(* ===== verification/OutboxAnswers.v ===== *)
(** * Answers to tracked sends

    What the reports of the effect lane, the server and the daemon do to the
    outbox, seen as a few changes of single sends; that a message nobody
    acknowledged is never lost; and that the three answers to a message may
    arrive in any order. *)

From stdpp Require Import base decidable list strings.
From Stdlib Require Import Lia ZArith Bool String.
From S2P Require Import Prelude RustStr Json Transcript Outbox OutboxFacts.

Open Scope string_scope.
Open Scope list_scope.

(** ** Reports as changes *)

(** The ack that reducing [act] applies: its own, or one that came early. *)
Definition ack_seen (act : SendAction) (b : Outbox) (c : string) (ok : bool) : Prop :=
  (∃ e cmd, act = Acked c ok e cmd) ∨
  (∃ n t o, act = Dispatched n c t ∧ o ∈ orphans b ∧ o_client o = c ∧ o_ok o = ok).

Inductive change (b : Outbox) (now : Z) (act : SendAction) :
  (TrackedSend → bool) → (TrackedSend → TrackedSend) → Prop :=
| ch_written n c t : act = Dispatched n c t → change b now act (has_id n) (written c t now)
| ch_parked n why : act = DispatchFailed n why →
    change b now act (has_id n) (park_for_reconnect now)
| ch_nack c why : ack_seen act b c false →
    change b now act (has_client c) (attempt_failed why now)
| ch_queued c cmd : ack_seen act b c true →
    change b now act (has_client c) (await_delivery cmd now)
| ch_acked c : ack_seen act b c true → change b now act (has_client c) (delivered_at now)
| ch_refused cmd why : change b now act (has_command cmd) (attempt_failed why now)
| ch_confirmed cmd : change b now act (has_command cmd) (delivered_at now).

(** [l] becomes [l'] by changes to the first sends that match. *)
Inductive changes (b : Outbox) (now : Z) (act : SendAction) :
  list TrackedSend → list TrackedSend → Prop :=
| chs_nil l : changes b now act l l
| chs_cons p f l l' : change b now act p f → changes b now act (update_first p f l) l' →
    changes b now act l l'.

Create HintDb outbox.
#[export] Hint Constructors change : outbox.

Lemma changes_one b now act p f l :
  change b now act p f → changes b now act l (update_first p f l).
Proof. intros H. econstructor; [exact H|constructor]. Qed.

#[export] Hint Resolve changes_one : outbox.

Lemma changes_trans b now act l l' l'' :
  changes b now act l l' → changes b now act l' l'' → changes b now act l l''.
Proof. induction 1 as [|p f l l' Hc _ IH]; [done|]. intros H. econstructor; [exact Hc|auto]. Qed.

Lemma delivery_changes b0 act cmd ok error now b :
  changes b0 now act (sends b) (sends (apply_delivery cmd ok error now b).2).
Proof.
  unfold apply_delivery. destruct (List.find _ _); [|constructor].
  destruct ok; cbn; auto with outbox.
Qed.

Lemma ack_changes b0 act o now b :
  ack_seen act b0 (o_client o) (o_ok o) →
  changes b0 now act (sends b) (sends (apply_ack o now b)).
Proof.
  intros Ho. unfold apply_ack. destruct (List.find _ _); [|constructor].
  destruct (o_ok o); cbn [negb]; [|cbn; auto with outbox].
  destruct (o_command o) as [cmd|]; [|cbn; auto with outbox]. set (b1 := set_sends _ b).
  assert (changes b0 now act (sends b) (sends b1)) as H1 by (cbn; eauto with outbox).
  destruct (position _ (early_results b1)) as [i|]; [|done].
  destruct (early_results b1 !! i) as [e|]; [|done].
  eapply changes_trans; [exact H1|].
  apply (delivery_changes b0 act cmd (er_ok e) (er_error e) now (set_early (vec_remove i (early_results b1)) b1)).
Qed.

Lemma report_changes act now b : changes b now act (sends b) (sends (reduce_send act now b)).
Proof.
  destruct act as [n c t|n why|c ok error cmd|cmd ok error]; cbn [reduce_send].
  - destruct (List.find _ _); [|constructor]. set (b1 := set_sends _ b).
    assert (changes b now (Dispatched n c t) (sends b) (sends b1)) as H1
      by (cbn; eauto with outbox).
    destruct (position _ (orphans b1)) as [i|] eqn:Ep; [|done].
    destruct (orphans b1 !! i) as [o|] eqn:Eo; [|done].
    eapply changes_trans; [exact H1|].
    pose proof (position_holds _ _ _ _ Ep Eo) as Ec. cbn in Ec. apply String.eqb_eq in Ec.
    apply (ack_changes b _ o now (set_orphans (vec_remove i (orphans b1)) b1)). right. exists n, t, o.
    rewrite Ec. split; [done|]. split; [by eapply list_elem_of_lookup_2|done].
  - cbn. eauto with outbox.
  - destruct (List.find _ _); [|constructor]. apply ack_changes. left. by exists error, cmd.
  - pose proof (delivery_changes b (DeliveryResult cmd ok error) cmd ok error now b) as H1.
    by destruct (apply_delivery cmd ok error now b) as [[] b1].
Qed.

Lemma changes_Forall (P : TrackedSend → Prop) b now act l l' :
  (∀ p f s, change b now act p f → P s → p s = true → P (f s)) →
  changes b now act l l' → Forall P l → Forall P l'.
Proof.
  intros Hc. induction 1 as [|p f l l' H _ IH]; [done|]. intros Hl. apply IH.
  apply update_first_Forall; [|done]. intros s. by apply Hc.
Qed.

(** The acks kept for later are acks that came. *)
Lemma apply_ack_orphans o now b : orphans (apply_ack o now b) = orphans b.
Proof.
  unfold apply_ack, apply_delivery. destruct (List.find _ _); [|done].
  destruct (negb _); [done|]. destruct (o_command o); [|done].
  destruct (position _ _); [|done]. destruct (_ !! _); [|done]. by destruct (List.find _ _).
Qed.

Lemma vec_remove_sub {A} i (l : list A) x : x ∈ vec_remove i l → x ∈ l.
Proof.
  unfold vec_remove. rewrite elem_of_app. intros [H|H].
  - eapply elem_of_sublist; [exact H|apply sublist_take].
  - eapply elem_of_sublist; [exact H|apply sublist_drop].
Qed.

Lemma push_bounded_sub {A} max (x y : A) l : x ∈ push_bounded max y l → x ∈ l ∨ x = y.
Proof.
  unfold push_bounded. rewrite elem_of_app, list_elem_of_singleton. intros [H|H]; [left|by right].
  destruct (_ <=? _)%nat; [|done].
  eapply elem_of_sublist; [exact H|apply sublist_drop].
Qed.

Lemma report_orphans act now b o :
  o ∈ orphans (reduce_send act now b) →
  o ∈ orphans b ∨ act = Acked (o_client o) (o_ok o) (o_error o) (o_command o).
Proof.
  destruct act as [n c t|n why|c ok error cmd|cmd ok error]; cbn [reduce_send].
  - destruct (List.find _ _); [|by left]. cbn zeta.
    destruct (position _ _) as [i|]; [|by left]. destruct (_ !! i); [|by left].
    rewrite apply_ack_orphans. cbn. intros H. left. by eapply vec_remove_sub.
  - by left.
  - destruct (List.find _ _); [rewrite apply_ack_orphans; by left|].
    cbn [set_orphans orphans]. intros [H| ->]%push_bounded_sub; [by left|by right].
  - left. unfold apply_delivery in *. by destruct (List.find _ _).
Qed.

(** ** The failed message and its removal *)

Lemma failed_id_spec session n b :
  failed_id session b = Some n →
  ∃ s, s ∈ sends b ∧ ts_id s = n ∧ ts_session s = session ∧ phase s = PFailed.
Proof.
  unfold failed_id. destruct (List.find _ _) as [s|] eqn:E; [|done]. intros [= <-].
  apply List.find_some in E as [Hin Hs]. apply list_elem_of_In in Hin.
  rewrite elem_of_reverse in Hin. apply andb_true_iff in Hs as [E1 E2].
  exists s. split; [done|]. split; [done|]. split; [by apply String.eqb_eq|].
  by apply bool_decide_eq_true in E2.
Qed.

Lemma take_keeps n s b : s ∈ sends b → ts_id s ≠ n → s ∈ sends (take_send n b).2.
Proof.
  intros Hin Hn. unfold take_send. destruct (position _ _) as [i|] eqn:Ep; [|done].
  cbn [snd set_sends sends]. unfold vec_remove. apply list_elem_of_lookup in Hin as [j Ej].
  apply elem_of_app. destruct (Nat.lt_trichotomy j i) as [Hlt|[->|Hgt]].
  - left. apply list_elem_of_lookup. exists j. by rewrite lookup_take_lt.
  - pose proof (position_holds _ _ _ _ Ep Ej) as E. unfold has_id in E. by apply N.eqb_eq in E.
  - right. apply list_elem_of_lookup. exists (j - S i)%nat. rewrite lookup_drop.
    by replace (S i + (j - S i))%nat with j by lia.
Qed.

Lemma Forall2_elem {A} (R : A → A → Prop) l l' x :
  Forall2 R l l' → x ∈ l → ∃ y, y ∈ l' ∧ R x y.
Proof.
  intros HF [i Ei]%list_elem_of_lookup. destruct (Forall2_lookup_l _ _ _ _ _ HF Ei) as (y & Ey & HR).
  exists y. split; [by eapply list_elem_of_lookup_2|done].
Qed.

(** ** No silent loss *)

Section Unacked.
Context (all : list (event * Z)).

Definition reported (act : SendAction) : Prop := ∃ now, (EvReport act, now) ∈ all.

(** A positive ack came for a frame of message [n]. *)
Definition confirmed (n : N) : Prop :=
  ∃ c t e cmd, reported (Dispatched n c t) ∧ reported (Acked c true e cmd).

(** The user or the session took the messages of [session] away. *)
Definition removed (session : string) : Prop :=
  ∃ ev now, (ev, now) ∈ all ∧
    (ev = EvGone session ∨ ev = EvDiscard (Some session) ∨ ev = EvEdit (Some session)).

Definition unsettled (s : TrackedSend) : Prop :=
  command_id s = None ∧ phase s ≠ AwaitingDelivery ∧ phase s ≠ PDelivered.

Definition traced_send (s : TrackedSend) : Prop :=
  (∀ c, client_msg_id s = Some c → ∃ t, reported (Dispatched (ts_id s) c t)) ∧
  (¬ confirmed (ts_id s) → unsettled s).

Record traced (b : Outbox) : Prop := {
  tr_sends : Forall traced_send (sends b);
  tr_orphans : ∀ o, o ∈ orphans b → o_ok o = true →
    ∃ e cmd, reported (Acked (o_client o) true e cmd)
}.

Lemma attempt_failed_traced why now s : traced_send s → traced_send (attempt_failed why now s).
Proof. intros [Hc Hu]. unfold attempt_failed. by destruct (_ <=? _)%N. Qed.

Lemma dispatched_traced now s : traced_send s → traced_send (dispatched now s).
Proof. by intros [Hc Hu]. Qed.

Lemma ack_seen_reported act b c :
  traced b → reported act → ack_seen act b c true → ∃ e cmd, reported (Acked c true e cmd).
Proof.
  intros Hb Hr [(e & cmd & ->)|(n & t & o & -> & Hin & <- & Ho)]; [by exists e, cmd|].
  by apply (tr_orphans _ Hb).
Qed.

(** A positive answer reaches only a message a positive ack came for. *)
Lemma acked_confirmed act b c s :
  traced b → reported act → ack_seen act b c true → traced_send s → has_client c s = true →
  confirmed (ts_id s).
Proof.
  intros Hb Hr Ha [Hc _] Es. apply bool_decide_eq_true in Es. destruct (Hc c Es) as [t Ht].
  destruct (ack_seen_reported act b c Hb Hr Ha) as (e & cmd & Hk). by exists c, t, e, cmd.
Qed.

Lemma change_traced b now act p f s :
  traced b → reported act → change b now act p f → traced_send s → p s = true →
  traced_send (f s).
Proof.
  intros Hb Hr Hc Hs Ep. pose proof Hs as [Hcl Hu].
  destruct Hc as [n c t ->|n why ->|c why _|c cmd Ha|c Ha|cmd why|cmd];
    try by apply attempt_failed_traced.
  - unfold has_id in Ep. apply N.eqb_eq in Ep as <-. unfold written.
    cbn [set_wire set_ids phase]. destruct (bool_decide (phase s = Pending)) eqn:Eph.
    + split; [intros c' [= <-]; by exists t|]. intros Hn. by destruct (Hu Hn).
    + split; [intros c' [= <-]; by exists t|exact Hu].
  - split; [done|]. intros Hn. destruct (Hu Hn) as (E & _). repeat split; cbn; done.
  - split; [done|]. intros Hn. destruct Hn. exact (acked_confirmed _ b c s Hb Hr Ha Hs Ep).
  - split; [done|]. intros Hn. destruct Hn. exact (acked_confirmed _ b c s Hb Hr Ha Hs Ep).
  - split; [done|]. intros Hn. destruct (Hu Hn) as (E & _). unfold has_command in Ep.
    by rewrite E in Ep.
Qed.
Lemma traced_set_sends l b : traced b → Forall traced_send l → traced (set_sends l b).
Proof. by intros [_ Ho] Hl. Qed.

Lemma traced_sublist l b : traced b → sublist l (sends b) → traced (set_sends l b).
Proof.
  intros Hb Hl. apply traced_set_sends; [done|]. pose proof (tr_sends _ Hb) as Hs.
  rewrite Forall_forall in *. intros s Hin. apply Hs. by eapply elem_of_sublist.
Qed.

Lemma traced_map f b :
  (∀ s, traced_send s → traced_send (f s)) → traced b → traced (set_sends (f <$> sends b) b).
Proof.
  intros Hf Hb. apply traced_set_sends; [done|]. apply Forall_fmap.
  eapply Forall_impl; [apply Hb|]. exact Hf.
Qed.

Lemma tick_send_traced now s : traced_send s → traced_send (tick_send now s).1.1.
Proof.
  intros Hs. unfold tick_send. destruct (_ <? _)%Z; [done|].
  destruct (phase s); try done; [by apply attempt_failed_traced|by apply dispatched_traced].
Qed.

Lemma end_send_traced session now s : traced_send s → traced_send (end_send session now s).
Proof.
  intros Hs. unfold end_send. destruct (negb _); [done|].
  destruct (phase s); try done; by apply attempt_failed_traced.
Qed.

Lemma step_traced ev now b :
  (ev, now) ∈ all → traced b → traced (outbox_step ev now b).2.
Proof.
  intros Hin Hb. pose proof (tr_sends _ Hb) as Hs.
  destruct ev as [session text picks| |act| |session|session|sel|sel|sel]; cbn [outbox_step snd].
  - split; [|apply Hb]. cbn. apply Forall_app. split; [done|]. constructor; [|constructor].
    by split.
  - unfold tick. cbn [snd]. rewrite <-list_fmap_compose.
    apply (traced_sublist _ (set_sends ((λ s, (tick_send now s).1.1) <$> sends b) b));
      [apply traced_map; [apply tick_send_traced|done]|apply sublist_filter].
  - assert (reported act) as Hr by (by exists now). split.
    + eapply changes_Forall; [|apply report_changes|done]. intros p f s Hc Hs' Ep.
      by eapply change_traced.
    + intros o [Ho| ->]%report_orphans Hok; [by apply (tr_orphans _ Hb)|].
      rewrite Hok in Hr. eauto.
  - apply traced_map; [|done]. intros s Hs'. case_bool_decide; [by apply dispatched_traced|done].
  - apply traced_map; [|done]. intros s. apply end_send_traced.
  - apply traced_sublist; [done|apply sublist_filter].
  - unfold retry. destruct (failed_send sel b) as [n|]; cbn [mbind option_bind snd]; [|done].
    destruct (List.find _ _); cbn [snd]; [|done]. apply traced_set_sends; [done|].
    apply update_first_Forall; [|done]. intros s Hs' _. by apply dispatched_traced.
  - unfold discard. destruct (failed_send sel b) as [n|]; cbn [mbind option_bind snd]; [|done].
    rewrite take_frame. apply traced_sublist; [done|apply take_sublist].
  - unfold edit. destruct (failed_send sel b) as [n|]; cbn [mbind option_bind snd]; [|done].
    pose proof (take_frame n b) as Ef. pose proof (take_sublist n b) as Hsub.
    destruct (take_send n b) as [s b']. cbn [snd] in *. rewrite Ef. by apply traced_sublist.
Qed.
Lemma take_survives session n b s :
  box_ok b → failed_id session b = Some n → s ∈ sends b → ts_session s ≠ session →
  s ∈ sends (take_send n b).2.
Proof.
  intros Hok (x & Hx & En & Es & _)%failed_id_spec Hin Hne. apply take_keeps; [done|].
  intros E. apply Hne. by rewrite (id_unique _ s x (bk_ids _ Hok) Hin Hx) by congruence.
Qed.

Lemma tick_survives now b s :
  box_ok b → s ∈ sends b → (tick_send now s).2 = false →
  (tick_send now s).1.1 ∈ sends (tick now b).2.
Proof.
  intros Hok Hin Hk. unfold tick. cbn [snd set_sends sends]. apply list_elem_of_filter.
  split; [|by apply (list_elem_of_fmap_2 (λ r : TrackedSend * option Frame * bool, r.1.1)),
             list_elem_of_fmap_2].
  rewrite elem_of_done. intros (x & Hx & Ex & Hd). rewrite <-(proj1 (same_tick now s)) in Ex.
  rewrite (id_unique _ x s (bk_ids _ Hok) Hx Hin Ex) in Hd. congruence.
Qed.

(** A message no positive ack came for, and which nobody removed, is kept. *)
Lemma step_survives ev now b s :
  (ev, now) ∈ all → box_ok b → traced b → s ∈ sends b →
  ¬ confirmed (ts_id s) → ¬ removed (ts_session s) →
  ∃ s', s' ∈ sends (outbox_step ev now b).2 ∧ same_send s s'.
Proof.
  intros Hall Hok Hb Hin Hc Hr.
  pose proof (proj1 (Forall_forall _ _) (tr_sends _ Hb) s Hin) as [_ Hu]. specialize (Hu Hc).
  assert (∀ ev', (ev', now) ∈ all → ev' ≠ EvGone (ts_session s) ∧
            ev' ≠ EvDiscard (Some (ts_session s)) ∧ ev' ≠ EvEdit (Some (ts_session s))) as Hne.
  { intros ev' Hin'. repeat split; intros ->; apply Hr; eexists _, now; split; eauto. }
  specialize (Hne ev Hall).
  destruct ev as [session text picks| |act| |session|session|sel|sel|sel]; cbn [outbox_step snd].
  - exists s. split; [|done]. cbn. apply elem_of_app. by left.
  - exists (tick_send now s).1.1. split; [|apply same_tick]. apply tick_survives; [done|done|].
    destruct (tick_send now s).2 eqn:Et; [|done]. apply tick_done in Et.
    unfold unsettled in Hu. tauto.
  - eapply Forall2_elem; [apply (kp_sends _ _ _ (keeps_report act now b))|done].
  - eexists. split; [by apply list_elem_of_fmap_2|]. by case_bool_decide.
  - eexists. split; [by apply list_elem_of_fmap_2|].
    apply grows_end. by apply (proj1 (Forall_forall _ _) (bk_sends _ Hok)).
  - exists s. split; [|done]. apply list_elem_of_filter. split; [|done]. naive_solver.
  - unfold retry. destruct (failed_send sel b) as [n|]; cbn [mbind option_bind snd]; [|by exists s].
    destruct (List.find _ _); cbn [snd]; [|by exists s]. cbn [set_sends sends].
    eapply Forall2_elem; [|done]. by apply Forall2_update.
  - exists s. split; [|done]. unfold discard, failed_send. destruct sel as [session|]; [|done].
    cbn [mbind option_bind]. destruct (failed_id session b) as [n|] eqn:Ef; [|done].
    eapply take_survives; [done|done|done|naive_solver].
  - exists s. split; [|done]. unfold edit, failed_send. destruct sel as [session|]; [|done].
    cbn [mbind option_bind]. destruct (failed_id session b) as [n|] eqn:Ef; [|done].
    assert (s ∈ sends (take_send n b).2) as H
      by (eapply take_survives; [done|done|done|naive_solver]).
    cbn [mbind option_bind]. destruct (take_send n b) as [x b']. exact H.
Qed.

Definition frame_for (f : Frame) (s : TrackedSend) : Prop :=
  ts_id s = f_id f ∧ ts_session s = f_session f ∧ content s = f_content f.

(** Whatever is sent belongs to a message that is tracked. *)
Lemma step_frames ev now b f :
  box_ok b → f ∈ (outbox_step ev now b).1 →
  ∃ s, s ∈ sends (outbox_step ev now b).2 ∧ frame_for f s.
Proof.
  intros Hok.
  destruct ev as [session text picks| |act| |session|session|sel|sel|sel];
    cbn [outbox_step fst snd]; try (by intros ?%elem_of_nil).
  - cbn [submit fst snd]. intros ->%list_elem_of_singleton. eexists. split; [|by split].
    apply elem_of_app. right. by apply list_elem_of_singleton.
  - cbn [tick fst snd]. rewrite tick_frames. intros (s & Hin & E)%list_elem_of_omap.
    exists (tick_send now s).1.1. split.
    + apply tick_survives; [done|done|]. destruct (tick_send now s).2 eqn:Et; [|done].
      apply tick_done in Et as (E' & _). congruence.
    + unfold tick_send in *. destruct (_ <? _)%Z; [done|].
      destruct (phase s); try done. by injection E as <-.
  - cbn [redispatch_parked fst snd]. intros (s & Hin & E)%list_elem_of_omap.
    eexists. split; [by apply list_elem_of_fmap_2|].
    case_bool_decide; [|done]. by injection E as <-.
  - unfold retry. destruct (failed_send sel b) as [n|]; cbn [mbind option_bind fst snd];
      [|by intros ?%elem_of_nil].
    destruct (List.find (has_id n) (sends b)) as [s|] eqn:E; cbn [fst snd];
      [|by intros ?%elem_of_nil].
    intros ->%list_elem_of_singleton. exists (dispatched now (set_attempt 0 s)).
    split; [|done]. cbn [set_sends sends].
    refine (proj1 (find_id n _ _ _)). by rewrite find_update_id, E.
Qed.

Lemma run_keeps evs : ∀ b f s,
  (∀ e, e ∈ evs → e ∈ all) → box_ok b → (next_id b + N.of_nat (List.length evs) < 2 ^ 64)%N →
  traced b → ¬ confirmed (f_id f) → ¬ removed (f_session f) →
  (s ∈ sends b ∧ frame_for f s ∨ f ∈ (outbox_run evs b).1) →
  ∃ s', s' ∈ sends (outbox_run evs b).2 ∧ frame_for f s'.
Proof.
  induction evs as [|[ev now] evs IH]; intros b f s Hsub Hok Hw Hb Hc Hr Hs.
  { destruct Hs as [[Hin Hf]|Hs]; [by exists s|by apply elem_of_nil in Hs]. }
  cbn [outbox_run] in *. cbn [List.length] in Hw.
  assert ((ev, now) ∈ all) as Hin by (apply Hsub; by left).
  destruct (step_ok ev now b Hok) as [Hok' Hn]; [lia|].
  pose proof (step_traced ev now b Hin Hb) as Hb'.
  pose proof (step_frames ev now b f Hok) as Hfr.
  pose proof (λ s H, step_survives ev now b s Hin Hok Hb H) as Hsv.
  destruct (outbox_step ev now b) as [fs b']. cbn [fst snd] in *.
  specialize (IH b' f). destruct (outbox_run evs b') as [fs' b'']. cbn [fst snd] in *.
  assert (∀ s, (s ∈ sends b' ∧ frame_for f s) ∨ f ∈ fs' → ∃ s', s' ∈ sends b'' ∧ frame_for f s') as IH'.
  { intros x Hx. apply (IH x); try done; [intros e He; apply Hsub; by right|lia]. }
  destruct Hs as [[Hs (E1 & E2 & E3)]|[Hs|Hs]%elem_of_app].
  - destruct (Hsv s Hs) as (s' & Hs' & F1 & F2 & F3); [by rewrite E1|by rewrite E2|].
    apply (IH' s'). left. split; [done|]. split; [congruence|]. split; congruence.
  - destruct (Hfr Hs) as (s' & Hs' & Hf). apply (IH' s'). by left.
  - apply (IH' s). by right.
Qed.
End Unacked.

Lemma new_outbox_traced all : traced all new_outbox.
Proof. split; [constructor|]. by intros o ?%elem_of_nil. Qed.

(** C25. Every message that was ever sent is still tracked, with its text and its
    session, unless a positive ack came for one of its frames, its session went
    away, or the user dropped a message of that session.  Timeouts, refusals,
    lost connections and ended sessions lose nothing. *)
Theorem unacked_never_lost evs f :
  (N.of_nat (List.length evs) < 2 ^ 64)%N →
  f ∈ (outbox_run evs new_outbox).1 → ¬ confirmed evs (f_id f) → ¬ removed evs (f_session f) →
  ∃ s, s ∈ sends (outbox_run evs new_outbox).2 ∧ frame_for f s.
Proof.
  intros Hw Hf Hc Hr.
  apply (run_keeps evs evs new_outbox f (mk_send 0 "" "" None None false None None 0 Pending None 0));
    [done|apply new_outbox_ok|cbn; lia|apply new_outbox_traced|done|done|by right].
Qed.

(** The frame is refused by the server, and nobody removes the message. *)
Definition refused_once : list (event * Z) :=
  [(EvSubmit "s1" "hello" None, 0%Z); (EvReport (Dispatched 1 "c1" "t1"), 10%Z);
   (EvReport (Acked "c1" false (Some "no daemon") None), 20%Z); (EvTick, 5000%Z)].

Lemma refused_once_unconfirmed : ¬ confirmed refused_once 1.
Proof.
  intros (c & t & e & cmd & [now1 H1] & [now2 H2]). unfold refused_once in *.
  repeat (apply elem_of_cons in H2 as [[=]|H2]). by apply elem_of_nil in H2.
Qed.

Lemma refused_once_kept : ¬ removed refused_once "s1".
Proof.
  intros (ev & now & H & Hev). unfold refused_once in H.
  repeat (apply elem_of_cons in H as [[= -> _]|H]; [destruct Hev as [?|[?|?]]; done|]).
  by apply elem_of_nil in H.
Qed.

Lemma unacked_never_lost_witness :
  ∃ s, s ∈ sends (outbox_run refused_once new_outbox).2 ∧
       frame_for (mk_frame 1 "s1" "hello" None None None) s.
Proof.
  refine (unacked_never_lost refused_once (mk_frame 1 "s1" "hello" None None None) eq_refl _
            refused_once_unconfirmed refused_once_kept).
  left.
Defined.
