(* ===== verification/OutboxOrder.v ===== *)
(** * The order of the answers

    The frame is reported as written, the server acks it, the daemon reports
    the delivery: the three reports travel separately.  Whatever order they
    arrive in, the message ends in the same state. *)

From stdpp Require Import base decidable list strings.
From Stdlib Require Import Lia ZArith Bool String.
From S2P Require Import Prelude RustStr Json Transcript Outbox OutboxFacts OutboxAnswers.

Open Scope string_scope.
Open Scope list_scope.
Open Scope rust_scope.

(** The deadline of a failed send is never read. *)
Definition settle_send (s : TrackedSend) : TrackedSend :=
  if bool_decide (phase s = PFailed) then set_phase PFailed (reason s) 0 s else s.

Definition settle_box (b : Outbox) : Outbox := set_sends (settle_send <$> sends b) b.

Definition refusal_text (error : option string) : string :=
  default "the agent did not accept the message" error.

(** The effect of the last answer. *)
Definition last_answer (ok : bool) (error : option string) (now : Z) : TrackedSend → TrackedSend :=
  if ok then delivered_at now else attempt_failed (refusal_text error) now.

Definition reduce_all (l : list (SendAction * Z)) (b : Outbox) : Outbox :=
  foldl (λ b a, reduce_send a.1 a.2 b) b l.

Lemma position_snoc {A} (p : A → bool) l x :
  (∀ y, y ∈ l → p y = false) → p x = true → position p (l ++ [x]) = Some (List.length l).
Proof.
  intros Hl Hx. induction l as [|y l IH]; cbn; [by rewrite Hx|].
  rewrite (Hl y) by (by left). rewrite IH; [done|]. intros z Hz. apply Hl. by right.
Qed.

Lemma vec_remove_snoc {A} (l : list A) x : vec_remove (List.length l) (l ++ [x]) = l.
Proof.
  unfold vec_remove. rewrite take_app_length, drop_ge by (rewrite length_app; cbn; lia).
  by rewrite app_nil_r.
Qed.

Lemma push_bounded_room {A} max (x : A) l :
  (List.length l < max)%nat → push_bounded max x l = l ++ [x].
Proof. intros H. unfold push_bounded. by rewrite (proj2 (Nat.leb_gt _ _) H). Qed.

(** Changing the first match of [p] when only the send that [g] changed can
    match. *)
Lemma find_changed p n g l :
  (∀ x, x ∈ l → p x = false) → (∀ x, p (g x) = true) →
  List.find p (update_first (has_id n) g l) = g <$> List.find (has_id n) l.
Proof.
  intros Hp Hg. induction l as [|x l IH]; [done|]. cbn [List.find update_first].
  destruct (has_id n x) eqn:E; cbn [List.find].
  - by rewrite Hg.
  - rewrite (Hp x) by (by left). apply IH. intros y Hy. apply Hp. by right.
Qed.

Lemma update_changed p n f g l :
  (∀ x, x ∈ l → p x = false) → (∀ x, p (g x) = true) →
  update_first p f (update_first (has_id n) g l) = update_first (has_id n) (λ x, f (g x)) l.
Proof.
  intros Hp Hg. induction l as [|x l IH]; [done|]. cbn [update_first].
  destruct (has_id n x) eqn:E; cbn [update_first].
  - by rewrite Hg.
  - rewrite (Hp x) by (by left). f_equal. apply IH. intros y Hy. apply Hp. by right.
Qed.

Lemma update_update n f g l :
  (∀ x, ts_id (g x) = ts_id x) →
  update_first (has_id n) f (update_first (has_id n) g l) =
  update_first (has_id n) (λ x, f (g x)) l.
Proof.
  intros Hg. induction l as [|x l IH]; [done|]. cbn [update_first].
  destruct (has_id n x) eqn:E; cbn [update_first]; unfold has_id in *; rewrite ?Hg, E; [done|].
  by rewrite IH.
Qed.

Lemma find_unchanged (p : TrackedSend → bool) l : (∀ x, x ∈ l → p x = false) → List.find p l = None.
Proof.
  intros Hp. induction l as [|x l IH]; [done|]. cbn. rewrite (Hp x) by (by left).
  apply IH. intros y Hy. apply Hp. by right.
Qed.

Lemma update_first_Forall_in (P : TrackedSend → Prop) p f l :
  (∀ x, x ∈ l → p x = true → P (f x)) → Forall P l → Forall P (update_first p f l).
Proof.
  intros Hf Hl. induction Hl as [|x l Hx Hl IH]; [constructor|]. cbn [update_first].
  destruct (p x) eqn:E; constructor; [apply Hf; [by left|done]|done|done|].
  apply IH. intros y Hy. apply Hf. by right.
Qed.

Lemma find_unmatched p n g l :
  (∀ x, x ∈ l → p x = false) → (∀ x, x ∈ l → p (g x) = false) →
  List.find p (update_first (has_id n) g l) = None.
Proof.
  intros Hp Hg. apply find_unchanged. intros y Hy.
  assert (Forall (λ x, p x = false) (update_first (has_id n) g l)) as HF.
  { apply (update_first_Forall_in (λ x, p x = false)); [|by apply Forall_forall].
    intros x Hx _. by apply Hg. }
  by apply (proj1 (Forall_forall _ _) HF).
Qed.

Lemma update_first_id p l : update_first p (λ x, x) l = l.
Proof. induction l as [|x l IH]; [done|]. cbn. by destruct (p x); [|rewrite IH]. Qed.

(** ** What each answer does

    To an outbox whose message [n] has been changed by [g], with a client id
    [c] and a command id [cmd] that no other send, ack or result carries. *)
Section OneMessage.
Context (l : list TrackedSend) (n nx : N) (c t cmd : string).
Context (os : list Orphan) (es : list EarlyResult).

Definition state (g : TrackedSend → TrackedSend) (o : list Orphan) (e : list EarlyResult)
  : Outbox := mk_outbox (update_first (has_id n) g l) nx o e.

Record fresh : Prop := {
  fr_tracked : is_Some (List.find (has_id n) l);
  fr_client : ∀ x, x ∈ l → has_client c x = false;
  fr_command : ∀ x, x ∈ l → has_command cmd x = false;
  fr_orphan : ∀ o, o ∈ os → (o_client o ==s c) = false;
  fr_early : ∀ r, r ∈ es → (er_command r ==s cmd) = false;
  fr_room_orphans : (List.length os < MAX_ORPHANS)%nat;
  fr_room_early : (List.length es < MAX_EARLY_RESULTS)%nat
}.
Hypothesis Hf : fresh.

Lemma dispatched_plain g e now :
  (∀ x, ts_id (g x) = ts_id x) →
  reduce_send (Dispatched n c t) now (state g os e) = state (λ x, written c t now (g x)) os e.
Proof.
  intros Hg. destruct (fr_tracked Hf) as [s Es]. cbn [reduce_send state sends].
  rewrite find_update_id, Es by done. unfold state; cbn [fmap option_fmap option_map set_sends orphans].
  rewrite (proj2 (iter_position_None _ _)) by apply (fr_orphan Hf).
  unfold set_sends. cbn. f_equal.
  by apply update_update.
Qed.

Lemma dispatched_orphan g e o now :
  (∀ x, ts_id (g x) = ts_id x) → o_client o = c →
  reduce_send (Dispatched n c t) now (state g (os ++ [o]) e) =
  apply_ack o now (state (λ x, written c t now (g x)) os e).
Proof.
  intros Hg Ho. destruct (fr_tracked Hf) as [s Es]. cbn [reduce_send state sends].
  rewrite find_update_id, Es by done. unfold state; cbn [fmap option_fmap option_map set_sends orphans].
  rewrite position_snoc; [|apply (fr_orphan Hf)|by rewrite Ho, String.eqb_refl].
  rewrite lookup_app_r, Nat.sub_diag by lia. cbn [lookup list_lookup].
  rewrite vec_remove_snoc. f_equal. unfold set_orphans, set_sends. cbn. f_equal.
  by apply update_update.
Qed.

Lemma acked_known g o e ok error cm now :
  (∀ x, has_client c (g x) = true) →
  reduce_send (Acked c ok error cm) now (state g o e) =
  apply_ack (mk_orphan c ok error cm) now (state g o e).
Proof.
  intros Hg. cbn [reduce_send state sends].
  destruct (fr_tracked Hf) as [s Es]. rewrite find_changed, Es; [done|apply (fr_client Hf)|done].
Qed.

Lemma acked_orphan e ok error cm now :
  reduce_send (Acked c ok error cm) now (state (λ x, x) os e) =
  state (λ x, x) (os ++ [mk_orphan c ok error cm]) e.
Proof.
  cbn [reduce_send state sends].
  rewrite find_unmatched by apply (fr_client Hf).
  unfold set_orphans, state. cbn [sends next_id orphans early_results].
  by rewrite push_bounded_room by apply (fr_room_orphans Hf).
Qed.

Lemma result_known g o e ok error now :
  (∀ x, has_command cmd (g x) = true) →
  apply_delivery cmd ok error now (state g o e) =
  (true, state (λ x, last_answer ok error now (g x)) o e).
Proof.
  intros Hg. unfold apply_delivery. cbn [state sends]. destruct (fr_tracked Hf) as [s Es].
  rewrite find_changed, Es; [|apply (fr_command Hf)|done]. cbn [fmap option_fmap option_map].
  rewrite update_changed; [|apply (fr_command Hf)|done]. by destruct ok.
Qed.

Lemma result_early g o ok error now :
  (∀ x, x ∈ l → has_command cmd (g x) = false) →
  reduce_send (DeliveryResult cmd ok error) now (state g o es) =
  state g o (es ++ [mk_early cmd ok error]).
Proof.
  intros Hg. cbn [reduce_send]. unfold apply_delivery. cbn [state sends].
  rewrite find_unmatched; [|apply (fr_command Hf)|done].
  unfold set_early, state. cbn [sends next_id orphans early_results].
  by rewrite push_bounded_room by apply (fr_room_early Hf).
Qed.

Lemma ack_queued g o error now :
  (∀ x, has_client c (g x) = true) →
  apply_ack (mk_orphan c true error (Some cmd)) now (state g o es) =
  state (λ x, await_delivery cmd now (g x)) o es.
Proof.
  intros Hg. unfold apply_ack. cbn [state sends o_client o_ok o_command negb].
  destruct (fr_tracked Hf) as [s Es].
  rewrite find_changed, Es; [|apply (fr_client Hf)|done]. cbn [fmap option_fmap option_map].
  rewrite update_changed; [|apply (fr_client Hf)|done]. unfold state; cbn [set_sends early_results next_id orphans].
  by rewrite (proj2 (iter_position_None _ _)) by apply (fr_early Hf).
Qed.

Lemma ack_early g o error ok reason now :
  (∀ x, has_client c (g x) = true) →
  apply_ack (mk_orphan c true error (Some cmd)) now
    (state g o (es ++ [mk_early cmd ok reason])) =
  state (λ x, last_answer ok reason now (await_delivery cmd now (g x))) o es.
Proof.
  intros Hg. unfold apply_ack. cbn [state sends o_client o_ok o_command negb].
  destruct (fr_tracked Hf) as [s Es].
  rewrite find_changed, Es; [|apply (fr_client Hf)|done]. cbn [fmap option_fmap option_map].
  rewrite update_changed; [|apply (fr_client Hf)|done]. unfold state; cbn [set_sends early_results next_id orphans].
  rewrite position_snoc; [|apply (fr_early Hf)|by apply String.eqb_refl].
  rewrite lookup_app_r, Nat.sub_diag by lia. cbn [lookup list_lookup er_ok er_error].
  rewrite vec_remove_snoc.
  change (set_early es _) with (state (λ x, await_delivery cmd now (g x)) o es).
  rewrite result_known; [done|]. intros x. unfold has_command. by apply bool_decide_eq_true.
Qed.
End OneMessage.

(** ** Any order *)

Definition answered (c t cmd : string) (ok : bool) (error : option string) (now : Z)
    (s : TrackedSend) : TrackedSend :=
  last_answer ok error now (await_delivery cmd now (written c t now s)).

Lemma written_client c t now x : has_client c (written c t now x) = true.
Proof. apply bool_decide_eq_true. unfold written. by destruct (bool_decide _). Qed.

Lemma written_command cmd c t now x :
  has_command cmd (written c t now x) = has_command cmd x.
Proof. unfold has_command, written. by destruct (bool_decide (phase _ = _)). Qed.

Lemma await_client c cmd now x : has_client c (await_delivery cmd now x) = has_client c x.
Proof. done. Qed.

Lemma await_command cmd now x : has_command cmd (await_delivery cmd now x) = true.
Proof. by apply bool_decide_eq_true. Qed.

(** Only the time of the last answer is left in the result. *)
Lemma settle_answered c t cmd ok error now ta tw x :
  settle_send (last_answer ok error now (await_delivery cmd ta (written c t tw x))) =
  settle_send (answered c t cmd ok error now x).
Proof.
  unfold answered, last_answer, written, attempt_failed. cbn [set_wire set_ids phase].
  destruct ok, (bool_decide (phase x = Pending)); try done;
    cbn [await_delivery set_command set_phase attempt]; by destruct (_ <=? _)%N.
Qed.

Lemma settle_state l n nx f g o e :
  (∀ x, settle_send (f x) = settle_send (g x)) →
  settle_box (state l n nx f o e) = settle_box (state l n nx g o e).
Proof.
  intros H. unfold settle_box, state, set_sends. cbn. f_equal.
  induction l as [|x l IH]; [done|]. cbn [update_first]. destruct (has_id n x); cbn.
  - by rewrite H.
  - by rewrite IH.
Qed.

Lemma three_orders {A} (x y z : A) l :
  l ≡ₚ [x; y; z] →
  l ∈ [[x; y; z]; [y; x; z]; [y; z; x]; [x; z; y]; [z; x; y]; [z; y; x]].
Proof. intros H. symmetry in H. by apply permutations_Permutation in H. Qed.

(** C26. The report that the frame was written, a positive ack of the server with
    the command's id and the word of the daemon about one message may arrive in
    any order: the message ends delivered or refused all the same, both buffers
    of early answers are as before, and no other message is touched.  This is for
    the first frame of a message, whose ids no send or buffered answer carries
    yet, and while each buffer has room for one more answer (in a full one an
    early answer would push out another's). *)
Theorem answers_any_order b n c t cmd error ok reason acts t1 t2 t3 :
  fresh (sends b) n c cmd (orphans b) (early_results b) →
  acts ≡ₚ [Dispatched n c t; Acked c true error (Some cmd); DeliveryResult cmd ok reason] →
  settle_box (reduce_all (zip acts [t1; t2; t3]) b) =
  settle_box (set_sends (update_first (has_id n) (answered c t cmd ok reason t3) (sends b)) b).
Proof.
  intros Hf Hp. destruct b as [l nx os es]. cbn [sends orphans early_results] in *.
  apply three_orders in Hp.
  replace (mk_outbox l nx os es) with (state l n nx (λ x, x) os es)
    by (unfold state; by rewrite update_first_id).
  unfold set_sends. cbn [state next_id orphans early_results].
  change (mk_outbox (update_first (has_id n) ?f l) nx os es) with (state l n nx f os es).
  pose proof (written_client c t) as Hw. pose proof (fr_command _ _ _ _ _ _ Hf) as Hc.
  assert (∀ ok reason now b' b'', apply_delivery cmd ok reason now b' = (true, b'') →
            reduce_send (DeliveryResult cmd ok reason) now b' = b'') as Hr
    by (intros ok' r' now b' b'' E; cbn [reduce_send]; by rewrite E).
  unfold reduce_all.
  repeat (apply elem_of_cons in Hp as [->|Hp]); [..|by apply elem_of_nil in Hp];
    cbn [zip zip_with foldl fst snd]; rewrite ?(acked_orphan _ _ _ _ _ _ _ Hf).
  - rewrite (dispatched_plain _ _ _ _ _ _ _ _ Hf), (acked_known _ _ _ _ _ _ _ Hf) by done.
    rewrite (ack_queued _ _ _ _ _ _ _ Hf) by done.
    erewrite Hr by (apply (result_known _ _ _ _ _ _ _ Hf); intros x; apply await_command).
    apply settle_state. intros x. apply settle_answered.
  - rewrite (dispatched_orphan _ _ _ _ _ _ _ _ Hf), (ack_queued _ _ _ _ _ _ _ Hf) by done.
    erewrite Hr by (apply (result_known _ _ _ _ _ _ _ Hf); intros x; apply await_command).
    apply settle_state. intros x. apply settle_answered.
  - rewrite (result_early _ _ _ _ _ _ _ Hf) by done.
    rewrite (dispatched_orphan _ _ _ _ _ _ _ _ Hf), (ack_early _ _ _ _ _ _ _ Hf) by done.
    apply settle_state. intros x. apply settle_answered.
  - rewrite (dispatched_plain _ _ _ _ _ _ _ _ Hf) by done.
    rewrite (result_early _ _ _ _ _ _ _ Hf) by (intros x Hx; rewrite written_command; by apply Hc).
    rewrite (acked_known _ _ _ _ _ _ _ Hf), (ack_early _ _ _ _ _ _ _ Hf) by done.
    apply settle_state. intros x. apply settle_answered.
  - rewrite (result_early _ _ _ _ _ _ _ Hf) by done.
    rewrite (dispatched_plain _ _ _ _ _ _ _ _ Hf) by done.
    rewrite (acked_known _ _ _ _ _ _ _ Hf), (ack_early _ _ _ _ _ _ _ Hf) by done.
    apply settle_state. intros x. apply settle_answered.
  - rewrite (result_early _ _ _ _ _ _ _ Hf) by done. rewrite (acked_orphan _ _ _ _ _ _ _ Hf).
    rewrite (dispatched_orphan _ _ _ _ _ _ _ _ Hf), (ack_early _ _ _ _ _ _ _ Hf) by done.
    apply settle_state. intros x. apply settle_answered.
Qed.

(** A message in flight, and its daemon heard before its server. *)
Definition in_flight : Outbox := (submit "s1" "hello" None 0 new_outbox).2.

Lemma in_flight_fresh :
  fresh (sends in_flight) 1 "c1" "k1" (orphans in_flight) (early_results in_flight).
Proof.
  split; cbn; try (intros x Hx; by apply elem_of_nil in Hx); try (unfold MAX_ORPHANS, MAX_EARLY_RESULTS; lia).
  - by eexists.
  - by intros x ->%list_elem_of_singleton.
  - by intros x ->%list_elem_of_singleton.
Qed.

Lemma answers_any_order_witness :
  settle_box (reduce_all (zip [DeliveryResult "k1" false None; Acked "c1" true None (Some "k1");
                           Dispatched 1 "c1" "t1"] [5; 6; 7]%Z) in_flight) =
  settle_box (set_sends (update_first (has_id 1) (answered "c1" "t1" "k1" false None 7)
                       (sends in_flight)) in_flight).
Proof.
  refine (answers_any_order in_flight 1 "c1" "t1" "k1" None false None _ 5 6 7 in_flight_fresh _).
  apply (permutations_Permutation _ _). vm_compute. repeat (left || right).
Defined.
