(* ===== verification/OutboxTime.v ===== *)
(** * A message nobody answers

    The clock of the outbox: a message whose frames are never acked fails, and
    is shown as failed, within a time that depends only on how dense the ticks
    are and on how often its frame is reported as written. *)

From stdpp Require Import base decidable sets list strings.
From Stdlib Require Import Lia ZArith Bool String.
From S2P Require Import Prelude RustStr Json Transcript Outbox OutboxFacts OutboxAnswers.

Open Scope string_scope.
Open Scope list_scope.
Open Scope rust_scope.

(** ** The clock *)

(** The clock does not go back, and no event is more than [g] after the last
    tick. *)
Fixpoint paced (g last clock : Z) (evs : list (event * Z)) : Prop :=
  match evs with
  | [] => True
  | (ev, now) :: evs =>
    (clock ≤ now ≤ last + g)%Z ∧ paced g (match ev with EvTick => now | _ => last end) now evs
  end.

Fixpoint last_tick (last : Z) (evs : list (event * Z)) : Z :=
  match evs with
  | [] => last
  | (EvTick, now) :: evs => last_tick now evs
  | _ :: evs => last_tick last evs
  end.

(** Times at which no deadline leaves [i64]. *)
Definition in_range (t : Z) : Prop := (0 ≤ t ≤ 2 ^ 62)%Z.

Lemma i64_clamp_small z : (0 ≤ z < 2 ^ 63)%Z → i64_clamp z = z.
Proof. unfold i64_clamp, i64_min, i64_max. lia. Qed.

Lemma i64w_small z : (0 ≤ z < 2 ^ 63)%Z → i64w z = z.
Proof. intros H. unfold i64w. rewrite Z.mod_small by lia. lia. Qed.

Definition attempt_ms (g : Z) (i : N) : Z := (backoff_ms i + DISPATCH_TIMEOUT_MS + 2 * g)%Z.

(** The time the attempts after number [a] can take. *)
Definition later (g : Z) (a : N) : Z :=
  foldr (λ i z, (if (a <=? i)%N then attempt_ms g i else 0) + z)%Z 0%Z [0; 1; 2; 3; 4]%N.

Lemma below_max (P : N → Prop) :
  P 0%N → P 1%N → P 2%N → P 3%N → P 4%N → ∀ a, (a < MAX_ATTEMPTS)%N → P a.
Proof.
  intros H0 H1 H2 H3 H4 a Ha. unfold MAX_ATTEMPTS in Ha.
  assert (a = 0 ∨ a = 1 ∨ a = 2 ∨ a = 3 ∨ a = 4)%N as [->|[->|[->|[->| ->]]]] by lia; done.
Qed.

Lemma later_succ g a :
  (a < MAX_ATTEMPTS)%N → later g a = (attempt_ms g a + later g (a + 1))%Z.
Proof.
  revert a. apply below_max; unfold later; generalize (attempt_ms g); intros f; cbn.
  all: repeat match goal with |- context [(?x + 1 <=? ?y)%N] =>
         let b := eval vm_compute in (x + 1 <=? y)%N in change (x + 1 <=? y)%N with b end.
  all: cbn; lia.
Qed.

Lemma backoff_small a : (a < MAX_ATTEMPTS)%N → (0 < backoff_ms a ≤ 8000)%Z.
Proof. revert a. apply below_max; vm_compute; split; congruence. Qed.

Lemma later_nonneg g a : (0 ≤ g)%Z → (0 ≤ later g a)%Z.
Proof.
  intros Hg. unfold later. cbn [foldr].
  assert (∀ i, (i < MAX_ATTEMPTS)%N → 0 ≤ if (a <=? i)%N then attempt_ms g i else 0)%Z as H.
  { intros i Hi. destruct (a <=? i)%N; [|done]. pose proof (backoff_small i Hi).
    unfold attempt_ms, DISPATCH_TIMEOUT_MS. lia. }
  unfold MAX_ATTEMPTS in H. pose proof (H 0%N). pose proof (H 1%N). pose proof (H 2%N).
  pose proof (H 3%N). pose proof (H 4%N). lia.
Qed.

Lemma later_from_first g : later g 1 = (495000 + 8 * g)%Z.
Proof.
  assert (backoff_ms 1 = 1000 ∧ backoff_ms 2 = 2000 ∧ backoff_ms 3 = 4000 ∧ backoff_ms 4 = 8000)%Z
    as (E1 & E2 & E3 & E4) by (vm_compute; done).
  unfold later. cbn [foldr N.leb N.compare Pos.compare Pos.compare_cont].
  unfold attempt_ms, DISPATCH_TIMEOUT_MS. rewrite E1, E2, E3, E4. lia.
Qed.

Arguments later : simpl never.
Arguments backoff_ms : simpl never.

(** When a waiting message has failed at the latest. *)
Definition fail_by (g : Z) (s : TrackedSend) : Z :=
  match phase s with
  | Pending => deadline_ms s + g + later g (attempt s)
  | _ => deadline_ms s + g + DISPATCH_TIMEOUT_MS + g + later g (attempt s + 1)
  end%Z.

Definition waiting (s : TrackedSend) : Prop := phase s = Pending ∨ phase s = Backoff.

(** The message between two events: failed, or waiting for a deadline that is
    ahead of the last tick and early enough. *)
Definition msg_due (g bound last : Z) (s : TrackedSend) : Prop :=
  (phase s = PFailed ∧ reason s = Some "no response from server") ∨
  (waiting s ∧ (last < deadline_ms s)%Z ∧ (fail_by g s ≤ bound)%Z).

Lemma tick_due g bound last now s :
  (0 ≤ g)%Z → send_ok s → in_range now → (last ≤ now ≤ last + g)%Z →
  msg_due g bound last s → msg_due g bound now (tick_send now s).1.1 ∧ (tick_send now s).2 = false.
Proof.
  intros Hg Hs Hr Hn Hd. unfold tick_send. unfold in_range in Hr.
  destruct (Z.ltb_spec now (deadline_ms s)) as [Hlt|Hge].
  { cbn. split; [|done]. destruct Hd as [Hf|(Hw & Hl & Hb)]; [by left|right; by split]. }
  destruct Hd as [[Hf Hy]|([Hp|Hp] & Hl & Hb)].
  { rewrite Hf. cbn. split; [by left|done]. }
  - rewrite Hp. cbn [fst snd]. split; [|done]. unfold attempt_failed. cbn [set_command attempt].
    destruct (N.leb_spec MAX_ATTEMPTS (attempt s)) as [Hm|Hm]; [by left|]. right.
    pose proof (backoff_small _ Hm). split; [by right|]. unfold fail_by in *. rewrite Hp in Hb.
    cbn. rewrite i64w_small by lia. split; [lia|].
    rewrite later_succ in Hb by done. unfold attempt_ms, DISPATCH_TIMEOUT_MS in *. lia.
  - rewrite Hp. cbn [fst snd]. split; [|done]. right. split; [by left|].
    unfold fail_by in *. rewrite Hp in Hb. rewrite dispatched_attempt by apply Hs, Hp. cbn.
    unfold DISPATCH_TIMEOUT_MS in *. rewrite i64_clamp_small by lia. lia.
Qed.

Lemma reconnect_due g bound last now s :
  (0 ≤ g)%Z → send_ok s → in_range now → (last ≤ now ≤ last + g)%Z → phase s = Backoff →
  msg_due g bound last s → msg_due g bound last (dispatched now s).
Proof.
  intros Hg Hs Hr Hn Hp [[Hf _]|(_ & Hl & Hb)]; [congruence|]. right. split; [by left|].
  unfold in_range, fail_by in *. rewrite Hp in Hb.
  rewrite dispatched_attempt by apply Hs, Hp. cbn.
  unfold DISPATCH_TIMEOUT_MS in *. rewrite i64_clamp_small by lia. lia.
Qed.

(** A report that the frame was written restarts the clock of the ack. *)
Lemma written_due g bound last now c t s :
  (0 ≤ g)%Z → in_range now → (last ≤ now ≤ last + g)%Z → msg_due g bound last s →
  msg_due g (bound + ACK_TIMEOUT_MS + g) last (written c t now s).
Proof.
  intros Hg Hr Hn Hd. unfold written, in_range, ACK_TIMEOUT_MS in *. cbn [set_wire set_ids phase].
  case_bool_decide as Hp.
  - destruct Hd as [[Hf _]|(_ & Hl & Hb)]; [congruence|]. right. split; [by left|].
    unfold fail_by in *. rewrite Hp in Hb. cbn. rewrite i64w_small by lia. lia.
  - destruct Hd as [Hf|(Hw & Hl & Hb)]; [by left|]. right. split; [done|]. split; [done|].
    unfold fail_by in *. cbn in *. lia.
Qed.

(** ** The message among the others *)

Lemma in_find l s : NoDup (ts_id <$> l) → s ∈ l → List.find (has_id (ts_id s)) l = Some s.
Proof.
  intros Hn Hin. destruct (List.find (has_id (ts_id s)) l) as [x|] eqn:E.
  - apply find_id in E as [Hx Ex]. by rewrite (id_unique _ x s Hn Hx Hin Ex).
  - apply find_None in E. destruct E. by apply list_elem_of_fmap_2.
Qed.

Lemma find_update_other n p f l s :
  (∀ x, ts_id (f x) = ts_id x) → List.find (has_id n) l = Some s → p s = false →
  List.find (has_id n) (update_first p f l) = Some s.
Proof.
  intros Hf. induction l as [|x l IH]; [done|]. cbn [List.find update_first].
  destruct (has_id n x) eqn:E.
  - intros [= ->] Hp. rewrite Hp. cbn. by rewrite E.
  - intros Es Hp. destruct (p x); cbn [List.find].
    + assert (has_id n (f x) = has_id n x) as -> by (unfold has_id; by rewrite Hf). by rewrite E.
    + rewrite E. by apply IH.
Qed.

Lemma written_twice c t now s : written c t now (written c t now s) = written c t now s.
Proof.
  unfold written. cbn [set_wire set_ids phase].
  destruct (bool_decide (phase s = Pending)) eqn:E; [done|].
  cbn [set_wire set_ids phase]. by rewrite E.
Qed.

Section Unanswered.
Context (all : list (event * Z)) (n : N) (session : string).

(** No ack names a frame of the message, its dispatch is never reported as
    failed, its session stays, and the user leaves it alone.  Anything may
    happen to the other messages and to the connection. *)
Record unanswered : Prop := {
  un_ack : ∀ c t ok e cmd, reported all (Dispatched n c t) → ¬ reported all (Acked c ok e cmd);
  un_park : ∀ why, ¬ reported all (DispatchFailed n why);
  un_left : ∀ ev now, (ev, now) ∈ all →
    ev ∉ [EvEnded session; EvGone session; EvRetry (Some session); EvDiscard (Some session);
          EvEdit (Some session)]
}.

Definition quiet_orphans (b : Outbox) : Prop :=
  ∀ o t, o ∈ orphans b → ¬ reported all (Dispatched n (o_client o) t).

Hypothesis Hun : unanswered.

Lemma change_id b now act p f x : change b now act p f → ts_id (f x) = ts_id x.
Proof.
  destruct 1; try done.
  - unfold written. by destruct (bool_decide _).
  - unfold attempt_failed. by destruct (_ <=? _)%N.
  - unfold attempt_failed. by destruct (_ <=? _)%N.
Qed.

(** No ack and no result concerns the message. *)
Lemma change_misses b now act p f s :
  quiet_orphans b → reported all act → change b now act p f →
  command_id s = None → (∀ c, client_msg_id s = Some c → ∃ t, reported all (Dispatched n c t)) →
  ts_id s = n → p s = false ∨ ∃ c t, act = Dispatched n c t ∧ p = has_id n ∧ f = written c t now.
Proof.
  intros Ho Hr Hc Hcm Hcl Hn.
  assert (∀ c ok, ack_seen act b c ok → has_client c s = false) as Hack.
  { intros c ok Ha. apply bool_decide_eq_false. intros E. destruct (Hcl c E) as [t Ht].
    destruct Ha as [(e & cmd & ->)|(m & t' & o & -> & Hin & <- & _)].
    - by apply (un_ack Hun c t ok e cmd).
    - by apply (Ho o t Hin). }
  destruct Hc as [m c t ->|m why ->|c why Ha|c cmd Ha|c Ha|cmd why|cmd]; eauto.
  - unfold has_id. destruct (N.eqb_spec (ts_id s) m) as [E|E]; [|by left]. right.
    exists c, t. rewrite <-E, Hn. done.
  - unfold has_id. destruct (N.eqb_spec (ts_id s) m) as [E|E]; [|by left].
    destruct (un_park Hun why). by rewrite <-Hn, E.
  - left. apply bool_decide_eq_false. congruence.
  - left. apply bool_decide_eq_false. congruence.
Qed.
Definition unowed (s : TrackedSend) : Prop :=
  ts_id s = n ∧ ts_session s = session ∧ command_id s = None ∧
  ∀ c, client_msg_id s = Some c → ∃ t, reported all (Dispatched n c t).

Lemma written_unowed c t now s :
  reported all (Dispatched n c t) → unowed s → unowed (written c t now s).
Proof.
  intros Hr (E1 & E2 & E3 & E4). unfold written.
  destruct (bool_decide (phase _ = Pending)); (split; [done|]; split; [done|]; split; [done|]);
    intros c' [= <-]; by exists t.
Qed.

Lemma changes_message b now act l l' s :
  quiet_orphans b → reported all act → changes b now act l l' →
  List.find (has_id n) l = Some s → unowed s →
  ∃ s', List.find (has_id n) l' = Some s' ∧ unowed s' ∧
        (s' = s ∨ ∃ c t, act = Dispatched n c t ∧ s' = written c t now s).
Proof.
  intros Ho Hr Hch. revert s. induction Hch as [l|p f l l' Hc _ IH]; intros s Es Hs.
  { exists s. split; [done|]. split; [done|]. by left. }
  pose proof Hs as (E1 & E2 & E3 & E4).
  destruct (p s) eqn:Ep.
  2: { apply IH; [|done]. apply find_update_other; [|done|done].
       intros x. by eapply change_id. }
  destruct (change_misses b now act p f s Ho Hr Hc E3 E4 E1) as [|(c & t & -> & -> & ->)]; [congruence|].
  destruct (IH (written c t now s)) as (s' & Es' & Hu' & Hor).
  { rewrite find_update_id, Es; [done|]. intros x. unfold written. by destruct (bool_decide _). }
  { by apply written_unowed. }
  exists s'. split; [done|]. split; [done|]. right. exists c, t. split; [done|].
  destruct Hor as [->|(c' & t' & [= <- <-] & ->)]; [done|by rewrite written_twice].
Qed.
(** ** One event *)

Definition written_reports (ev : event) : Z :=
  match ev with EvReport (Dispatched m _ _) => if (m =? n)%N then 1 else 0 | _ => 0 end%Z.

Definition tick_time (ev : event) (now last : Z) : Z :=
  match ev with EvTick => now | _ => last end.

Definition due_in (g bound last : Z) (b : Outbox) : Prop :=
  quiet_orphans b ∧ ∃ s, s ∈ sends b ∧ unowed s ∧ msg_due g bound last s.

Lemma due_wait g bound bound' last s : msg_due g bound last s → (bound ≤ bound')%Z → msg_due g bound' last s.
Proof. intros [Hf|(Hw & Hl & Hb)] Hle; [by left|]. right. repeat split; [done|done|lia]. Qed.

Lemma due_keep g bound last b b' s :
  quiet_orphans b → orphans b' = orphans b → s ∈ sends b' → unowed s →
  msg_due g bound last s → due_in g (bound + 0) last b'.
Proof.
  intros Ho E Hin Hs Hd. rewrite Z.add_0_r. split; [|by exists s].
  intros o t Hino. apply Ho. by rewrite <-E.
Qed.

Lemma report_due g bound last act now b s :
  (0 ≤ g)%Z → in_range now → (last ≤ now ≤ last + g)%Z → reported all act →
  box_ok b → quiet_orphans b → s ∈ sends b → unowed s → msg_due g bound last s →
  due_in g (bound + written_reports (EvReport act) * (ACK_TIMEOUT_MS + g)) last
    (reduce_send act now b).
Proof.
  intros Hg Hrng Hn Hr Hok Ho Hin Hs Hd. split.
  { intros o t [Hino| ->]%report_orphans; [by apply Ho|]. intros Hrep.
    by eapply (un_ack Hun). }
  destruct (changes_message b now act _ _ s Ho Hr (report_changes act now b)) as (s' & Es' & Hu' & Hor).
  { pose proof (in_find _ s (bk_ids _ Hok) Hin) as E. by rewrite (proj1 Hs) in E. }
  { done. }
  exists s'. split; [by apply find_id in Es' as [? _]|]. split; [done|].
  destruct Hor as [->|(c & t & -> & ->)].
  - eapply due_wait; [done|]. unfold ACK_TIMEOUT_MS, written_reports.
    destruct act; try lia. destruct (_ =? _)%N; lia.
  - cbn [written_reports]. rewrite N.eqb_refl.
    eapply due_wait; [by apply written_due|lia].
Qed.

Lemma tick_unowed now s : unowed s → unowed (tick_send now s).1.1.
Proof.
  intros Hs. pose proof Hs as (E1 & E2 & E3 & E4). unfold tick_send.
  destruct (_ <? _)%Z; [done|]. destruct (phase s); try done.
  unfold attempt_failed. destruct (_ <=? _)%N; by split_and!.
Qed.

Lemma other_session x s b :
  box_ok b → s ∈ sends b → unowed s → x ∈ sends b → ts_session x ≠ session → ts_id x ≠ n.
Proof.
  intros Hok Hin (E1 & E2 & _) Hx Hne E. apply Hne.
  by rewrite (id_unique _ x s (bk_ids _ Hok) Hx Hin ltac:(congruence)).
Qed.

Lemma failed_elsewhere sel m b s :
  box_ok b → s ∈ sends b → unowed s → sel ≠ Some session → failed_send sel b = Some m → ts_id s ≠ m.
Proof.
  intros Hok Hin Hs Hsel Hf. unfold failed_send in Hf. destruct sel as [x|]; [|done].
  apply failed_id_spec in Hf as (y & Hy & <- & Ey & _). rewrite (proj1 Hs). intros E.
  by apply (other_session y s b Hok Hin Hs Hy); [congruence|].
Qed.

Lemma step_due g bound last ev now b :
  (0 ≤ g)%Z → in_range now → (last ≤ now ≤ last + g)%Z → (ev, now) ∈ all → box_ok b →
  due_in g bound last b →
  due_in g (bound + written_reports ev * (ACK_TIMEOUT_MS + g)) (tick_time ev now last)
    (outbox_step ev now b).2.
Proof.
  intros Hg Hrng Hn Hin Hok (Ho & s & Hs & Hu & Hd).
  pose proof (un_left Hun ev now Hin) as Hl. pose proof (proj1 (Forall_forall _ _) (bk_sends _ Hok) s Hs) as Hsok.
  destruct ev as [ses text picks| |act| |ses|ses|sel|sel|sel]; cbn [outbox_step snd tick_time];
    try (eapply (due_keep g bound last b _ s); [done|try done..]; fail).
  - apply (due_keep g bound last b _ s); try done. cbn. apply elem_of_app. by left.
  - destruct (tick_due g bound last now s Hg Hsok Hrng Hn Hd) as [Hd' Hk].
    apply (due_keep g bound now b _ (tick_send now s).1.1); try done; [by apply tick_survives|].
    by apply tick_unowed.
  - by apply (report_due g bound last act now b s); [..|by exists now| | | | |].
  - apply (due_keep g bound last b _ (if bool_decide (phase s = Backoff) then dispatched now s else s));
      try done; [cbn; apply list_elem_of_fmap; by exists s|destruct Hu as (E1 & E2 & E3 & E4); case_bool_decide; by split_and!|].
    case_bool_decide; [by apply reconnect_due|done].
  - apply (due_keep g bound last b _ s); try done. cbn.
    apply list_elem_of_fmap. exists s. split; [|done]. unfold end_send.
    rewrite (proj1 (proj2 Hu)). assert ((session ==s ses) = false) as -> by (apply String.eqb_neq; set_solver).
    done.
  - apply (due_keep g bound last b _ s); try done. cbn. apply list_elem_of_filter.
    split; [|done]. rewrite (proj1 (proj2 Hu)). set_solver.
  - unfold retry. destruct (failed_send sel b) as [m|] eqn:Ef; cbn [mbind option_bind snd];
      [|by apply (due_keep g bound last b _ s)].
    assert (ts_id s ≠ m) by (eapply failed_elsewhere; [done..| |done]; set_solver).
    destruct (List.find (has_id m) (sends b)); cbn [snd]; [|by apply (due_keep g bound last b _ s)].
    apply (due_keep g bound last b _ s); try done. cbn.
    refine (proj1 (find_id n _ _ (find_update_other n _ _ _ s _ _ _))); [done| |].
    + rewrite <-(proj1 Hu). apply in_find; [apply Hok|done].
    + by apply N.eqb_neq.
  - unfold discard. destruct (failed_send sel b) as [m|] eqn:Ef; cbn [mbind option_bind snd];
      [|by apply (due_keep g bound last b _ s)].
    apply (due_keep g bound last b _ s); try done; [by rewrite take_frame|].
    apply take_keeps; [done|]. eapply failed_elsewhere; [done..| |done]; set_solver.
  - unfold edit. destruct (failed_send sel b) as [m|] eqn:Ef; cbn [mbind option_bind snd];
      [|by apply (due_keep g bound last b _ s)].
    assert (s ∈ sends (take_send m b).2) as Hk
      by (apply take_keeps; [done|]; eapply failed_elsewhere; [done..| |done]; set_solver).
    pose proof (take_frame m b) as Ef'. destruct (take_send m b) as [x b']. cbn [snd] in *.
    apply (due_keep g bound last b _ s); try done. by rewrite Ef'.
Qed.
(** ** A run *)

Fixpoint reports (evs : list (event * Z)) : Z :=
  match evs with [] => 0 | (ev, _) :: evs => written_reports ev + reports evs end%Z.

Lemma run_due g evs : ∀ bound last clock b,
  (0 ≤ g)%Z → (∀ e, e ∈ evs → e ∈ all) → Forall (λ e, in_range e.2) evs →
  paced g last clock evs → (last ≤ clock)%Z →
  box_ok b → (next_id b + N.of_nat (List.length evs) < 2 ^ 64)%N → due_in g bound last b →
  due_in g (bound + reports evs * (ACK_TIMEOUT_MS + g)) (last_tick last evs) (outbox_run evs b).2.
Proof.
  induction evs as [|[ev now] evs IH]; intros bound last clock b Hg Hsub Hr Hp Hlc Hok Hw Hd.
  { cbn [outbox_run reports last_tick snd]. by replace (bound + _)%Z with bound by lia. }
  destruct Hp as [Hn Hp]. apply Forall_cons in Hr as [Hr Hrs]. cbn [List.length snd] in *.
  assert ((ev, now) ∈ all) as Hin by (apply Hsub; by left).
  destruct (step_ok ev now b Hok) as [Hok' Hx]; [lia|].
  pose proof (step_due g bound last ev now b Hg Hr ltac:(lia) Hin Hok Hd) as Hd'.
  cbn [outbox_run reports]. destruct (outbox_step ev now b) as [fs b']. cbn [snd] in *.
  assert (last_tick last ((ev, now) :: evs) = last_tick (tick_time ev now last) evs) as ->
    by (by destruct ev).
  specialize (IH (bound + written_reports ev * (ACK_TIMEOUT_MS + g))%Z
                 (tick_time ev now last) now b' Hg).
  destruct (outbox_run evs b') as [fs' b'']. cbn [snd] in *.
  replace (bound + (written_reports ev + reports evs) * (ACK_TIMEOUT_MS + g))%Z
    with (bound + written_reports ev * (ACK_TIMEOUT_MS + g) + reports evs * (ACK_TIMEOUT_MS + g))%Z
    by lia.
  apply IH; try done; [intros e He; apply Hsub; by right| |lia].
  destruct ev; cbn; lia.
Qed.
End Unanswered.

Lemma submit_due all g session text picks now b :
  box_ok b → (next_id b + 1 < 2 ^ 64)%N → in_range now → (0 ≤ g)%Z →
  quiet_orphans all (next_id b + 1) b →
  due_in all (next_id b + 1) session g (now + 615000 + 9 * g) now
    (submit session text picks now b).2.
Proof.
  intros Hok Hw Hr Hg Ho. split; [exact Ho|]. unfold in_range in Hr.
  assert (u64_succ (next_id b) = next_id b + 1)%N as E by (unfold u64_succ; by rewrite N.mod_small).
  eexists. split; [cbn; apply elem_of_app; right; by apply list_elem_of_singleton|].
  rewrite E. split; [by split_and!|]. right. split; [by left|]. unfold fail_by. cbn.
  unfold DISPATCH_TIMEOUT_MS. rewrite i64_clamp_small by lia. split; [lia|].
  assert (u32_sat_succ 0 = 1)%N as -> by done.
  rewrite (later_from_first g). lia.
Qed.

(** C27. A message whose frames nobody acks fails with a reason on the line: with
    ticks at most [g] ms apart it has failed once the clock is 615 seconds plus
    [9 g] past its submission, later by 8 seconds and [g] for every report that
    a frame of it was written, whatever happens to the other messages meanwhile
    and however often the connection comes back.  This is for a message that is
    left alone: no frame of it is reported as not sent (which parks it until the
    connection is back and refunds the attempt, so that a connection that stays
    lost keeps it waiting), its session does not end, and the user neither
    retries, drops nor takes it back. *)
Theorem unanswered_fails g b session text picks now evs :
  let n := (next_id b + 1)%N in
  let b' := (outbox_run evs (submit session text picks now b).2).2 in
  (0 ≤ g)%Z → box_ok b → (n + N.of_nat (List.length evs) < 2 ^ 64)%N →
  in_range now → Forall (λ e, in_range e.2) evs → paced g now now evs →
  unanswered evs n session → quiet_orphans evs n b →
  (now + 615000 + 9 * g + reports n evs * (ACK_TIMEOUT_MS + g) ≤ last_tick now evs)%Z →
  ∃ s, s ∈ sends b' ∧ ts_id s = n ∧ ts_session s = session ∧
       send_status s = Failed "no response from server".
Proof.
  intros n b' Hg Hok Hw Hr Hrs Hp Hun Ho Hlate.
  destruct (step_ok (EvSubmit session text picks) now b Hok) as [Hok' Hx]; [lia|].
  cbn [outbox_step] in *.
  destruct (run_due evs n session Hun g evs (now + 615000 + 9 * g) now now
              (submit session text picks now b).2) as (_ & s & Hin & Hu & Hd);
    [done|done|done|done|done|done|lia|by apply submit_due; [done|lia|..]|].
  exists s. destruct Hu as (E1 & E2 & _). split; [done|]. split; [done|]. split; [done|].
  destruct Hd as [[Hf Hy]|(Hw' & Hl & Hb)]; [unfold send_status; by rewrite Hf, Hy|].
  exfalso. pose proof (later_nonneg g (attempt s) Hg). pose proof (later_nonneg g (attempt s + 1) Hg).
  unfold fail_by, DISPATCH_TIMEOUT_MS in Hb. destruct (phase s); lia.
Qed.

(** Fifteen ticks, two minutes apart. *)
Definition slow_ticks : list (event * Z) :=
  (λ i, (EvTick, 120000 * Z.of_nat i)%Z) <$> seq 1 15.

Lemma slow_ticks_unanswered : unanswered slow_ticks 1 "s1".
Proof.
  assert (∀ ev now, (ev, now) ∈ slow_ticks → ev = EvTick) as H.
  { intros ev now (i & [= -> _] & _)%list_elem_of_fmap. done. }
  split.
  - intros c t ok e cmd [now Hr]. by apply H in Hr.
  - intros why [now Hr]. by apply H in Hr.
  - intros ev now ->%H. set_solver.
Qed.

Lemma unanswered_fails_witness :
  ∃ s, s ∈ sends (outbox_run slow_ticks (submit "s1" "hello" None 0 new_outbox).2).2 ∧
       ts_id s = 1%N ∧ ts_session s = "s1" ∧ send_status s = Failed "no response from server".
Proof.
  refine (unanswered_fails 120000 new_outbox "s1" "hello" None 0 slow_ticks
            _ new_outbox_ok eq_refl _ _ _ slow_ticks_unanswered _ _).
  - lia.
  - split; lia.
  - repeat (constructor; [split; cbn; lia|]). constructor.
  - vm_compute. repeat split; discriminate.
  - intros o t Ho. by apply elem_of_nil in Ho.
  - vm_compute. discriminate.
Defined.

(** ** Late reports *)

(** A dispatch reported as failed after the session ended takes the message out
    of its failed state, and the next tick sends it to the session that ended. *)
Example ended_send_revived :
  let b := session_ended "s1" 100 (submit "s1" "hello" None 0 new_outbox).2 in
  let b' := reduce_send (DispatchFailed 1 "closed") 200 b in
  (phase <$> sends b = [PFailed]) ∧ (phase <$> sends b' = [Backoff]) ∧
  f_session <$> (tick 1200 b').1 = ["s1"].
Proof. by vm_compute. Qed.

(** A message whose frame was written and not acked in time counts as one the
    server certainly never saw, and a quit puts its text back. *)
Example written_counts_as_unsent :
  let b := reduce_send (Dispatched 1 "c1" "t1") 10 (submit "s1" "hello" None 0 new_outbox).2 in
  let b' := (tick 8010 b).2 in
  (on_the_wire <$> sends b' = [true]) ∧ (never_reached_the_server <$> sends b = [false]) ∧
  unsent_by_session b' = [("s1", "hello")].
Proof. by vm_compute. Qed.

(** A refusal of an earlier attempt that comes after the delivery of a later
    one makes the message wait again, and the next tick sends it once more. *)
Example late_refusal_resends :
  let sent b := reduce_send (Dispatched 1 "c1" "t1") 121010 b in
  let b := sent (tick 121000 (tick 120000 (submit "s1" "hello" None 0 new_outbox).2).2).2 in
  let b' := reduce_send (Acked "c1" true None None) 121020 b in
  let b'' := reduce_send (Acked "c1" false (Some "late") None) 121030 b' in
  (phase <$> sends b' = [PDelivered]) ∧ (phase <$> sends b'' = [Backoff]) ∧
  f_content <$> (tick 130000 b'').1 = ["hello"].
Proof. by vm_compute. Qed.
